(* ===== verification/_CoqProject ===== *)
-Q . S2P
Prelude.v
Riscv.v
Memory.v
Kalloc.v
Vm.v
VmTable.v
VmUser.v
VmFree.v
VmCopy.v
VmBoot.v
Locks.v
Disk.v
Log.v
LogSpec.v
LogOps.v
Bio.v
BioSpec.v
LogBoot.v
Virtio.v
Ring.v
VirtioSpec.v
Pipe.v
Uart.v
Console.v
Printf.v
Tx.v
TxLog.v
Fs.v
FsAlloc.v
FsMap.v
FsInode.v
FsFile.v
FsWrite.v
FsTrunc.v
FsInv.v
FsDir.v
FsPath.v
FsTx.v
FsBoot.v
Kernel.v
Proc.v
ProcVm.v
File.v
Life.v
Syscall.v
Exec.v
Sysfile.v
Dispatch.v
Trap.v
Main.v
Calm.v
Refs.v
KBoot.v
Sched.v
SchedInv.v
SchedWake.v
Asm.v
Start.v
User.v
Uprintf.v
Utils.v
Grep.v
Umalloc.v
Sh.v
ShPrint.v
ShRun.v
Programs.v
Grind.v
Mkfs.v
MkfsSpec.v
MkfsMount.v
