(* ===== verification/Prelude.v ===== *)
(** * A verification library for xv6

    The kernel of xv6-riscv, a small Unix for multiprocessor RISC-V machines
    ([src/kernel]), its user programs ([src/user]) and the program that makes
    its file systems ([src/mkfs]), translated into executable Rocq functions,
    with theorems about them.

    ** How the code is modelled

    A C function becomes a definition of the same name in the handler monad
    [M S A] below: a function from the state [S] of its component to a result
    [res].  [Done a s t] is a return with value [a], new state [s] and the trace
    [t] of what the call did to the layers below (locks, wakeups, characters
    and disk writes sent to devices); [Panicked] is a call of [panic];
    [Sleeping] is a call of [sleep], where the process gives up the CPU;
    [Switched] is [sched] when the process never comes back; [Undef] is
    undefined behaviour of C (a null pointer, signed overflow, reading past an
    object); [NoFuel] is a loop that used up its fuel.  Integers are [Z] with
    the wrap-around of their width written out ([u8], [u16], [u32], [u64],
    [s16], [s32]).  Physical memory is a finite map from addresses to bytes.
    Processes, files, inodes and buffers are named by their index in the
    kernel's arrays.  A component that is called by others is an interface
    where that pays off: the buffer cache ([Disk.Cache] with [CacheLaws]), the
    store of transactions ([Tx.Store] with [StoreLaws]), user memory
    ([Tx.UserMem]); the clients are proved against the laws and the
    implementations discharge them.

    Assembly is a list of instructions on a machine with registers, memory
    and address translation.  User programs are functions in a small monad
    over the descriptors of a process, or interaction trees over their system
    calls where they fork or do not end; mkfs has a monad over its image.

    Concurrency is modelled where the code handles it.  A call that holds a
    lock from start to end is one step.  Locks ([Locks.Spin]), sleep locks,
    pipes, the UART, the disk driver with its device, the scheduler and the
    boot of several harts are step machines in which any number of CPUs,
    processes or devices interleave.  The machines are sequentially
    consistent.

    ** Parts and files

    - machine and memory: [Riscv] (constants and macros of riscv.h,
      memlayout.h and param.h), [Memory] (bytes in memory, string.c),
      [Kalloc] (kalloc.c);
    - virtual memory, vm.c: [Vm] is the code, [VmTable] page tables as trees,
      [VmUser] user memory growing and shrinking, [VmFree] and [VmCopy]
      freeing and copying it, [VmBoot] a small machine for the witnesses;
    - locks: [Locks] (spinlock.c, sleeplock.c);
    - the disk: [Disk] (blocks and the interface of the cache), [Bio] and
      [BioSpec] (bio.c), [Log] (log.c), [LogSpec] (crashes and recovery),
      [LogOps] (sharing the log), [LogBoot] (the log on the cache), [Tx] and
      [TxLog] (transactions as an interface, and the log as its
      implementation), [Virtio] (the driver, virtio_disk.c), [VirtioSpec] (the
      driver with a device that works in any order);
    - devices: [Ring] (circular buffers), [Pipe] (pipe.c), [Uart] (uart.c),
      [Console] (console.c), [Printf] (printf.c);
    - the file system, fs.c: [Fs] is the code, [FsAlloc] the bitmap, [FsMap]
      the blocks of a file, [FsInode] inodes on the disk, [FsFile] and
      [FsWrite] reading and writing, [FsTrunc] truncation, [FsInv] the
      consistency of the disk, [FsDir] directories, [FsPath] the inode that a
      path names, [FsTx] calls as transactions, [FsBoot] a small file system
      for the witnesses;
    - processes and system calls: [Kernel] (the state of the whole kernel;
      proc.h, file.h), [Proc] and [Life] (proc.c), [ProcVm] (address spaces
      of processes), [File] (file.c), [Syscall] and [Dispatch] (syscall.c,
      sysproc.c), [Exec] (exec.c), [Sysfile] (sysfile.c), [Trap] (trap.c,
      plic.c), [Main] (main.c, on several harts), [Calm] and [Refs] (what
      system calls do to open files), [KBoot] a small kernel for the
      witnesses;
    - the scheduler: [Sched] (scheduler, sched, yield, sleep, wakeup, exit and
      swtch on several CPUs), [SchedInv] and [SchedWake];
    - assembly and boot: [Asm] (trampoline.S, kernelvec.S, swtch.S, entry.S),
      [Start] (start.c);
    - user programs: [User] (ulib.c), [Uprintf] (printf.c), [Umalloc]
      (umalloc.c), [Utils] (echo.c, cat.c, wc.c), [Grep] (grep.c), [Sh] (the
      parser of sh.c), [ShPrint] (a printer for its grammar), [ShRun] (the
      processes of a command, and the loop over lines), [Programs] (init.c,
      ls.c, kill.c, ln.c, mkdir.c, rm.c, zombie.c, test1.c, forktest.c,
      stressfs.c), [Grind] (grind.c);
    - [Mkfs] (mkfs.c), [MkfsSpec] (the image that it makes) and [MkfsMount]
      (the kernel on that image).

    ** What the theorems show

    - Allocation: [kalloc] returns a page nobody owns, whatever the callers do
      with their pages; growing, shrinking, copying and freeing user memory
      does exactly that, loses no page, and undoes itself when memory is short;
      copies between user and kernel touch the named bytes only.
    - Mutual exclusion of spin locks and sleep locks over all interleavings,
      with interrupts off while a spin lock is held and restored afterwards.
    - The scheduler: a process runs on one CPU at most, no panic is reached,
      no wakeup is lost, a process that can run is found.
    - The buffer cache returns the current contents of blocks and recycles
      the least recently used buffer; a transaction of the log is atomic for
      a crash at any disk write, and recovery can be interrupted and repeated.
    - The file system stays consistent: no block belongs to two files, every
      data block in use belongs to one; reads, writes, truncation, directory
      entries and the inode table do what their names say, a path finds the
      inode that it names, and a write of a file inside a transaction is
      atomic under crashes.  The writes are from a source that can be read: a
      kernel buffer or mapped user memory ([ProcVm.gives_user]).  The image of
      mkfs is such a file system, unless the entries of its root directory
      fill whole blocks: the kernel mounts it, and [namei] and [readi] give each
      file by its name with its bytes.
    - The disk driver: every chain that it gives to the device is a
      well-formed request, it behaves as a disk that transfers whole blocks
      atomically, and every sleeper is woken.  The device reports success for
      every request.
    - Pipes, the UART and the console deliver the bytes of their writers once
      and in order, and nobody sleeps on data or room that is there; but a
      byte that a reader of a pipe cannot store is lost, and a writer that is
      killed in the middle of a call wakes nobody.
    - Every system call keeps the reference counts of open files exact.
    - A trap restores the registers and the address space of the user; each
      CPU gets a stack, enters [main] with the machine set up, and has timer
      interrupts that keep coming; no hart runs ahead of hart 0, and
      each one enters the scheduler with paging on and its trap vector set.
    - User programs: [malloc] returns fresh blocks, the parser of the shell
      inverts printing and [runcmd] does what the command says, whichever
      system calls fail, [grep] prints the lines that match, [init] keeps one shell running, [ls] and [grind]
      stay inside their buffers and descriptors with any kernel.

    ** Fuel

    Loops that the type checker does not accept as they are take a fuel
    argument.  It is computed from the arguments so that it suffices (pages
    between two addresses, blocks between two offsets, entries of a table), and
    the theorems prove that the calls return, so [NoFuel] does not occur in
    them.  Only the loops that wait for a device, in [Uart.wait_idle] and
    [Uart.receive], and the spinning of [acquire] have a bound from outside.

    The theorems on interaction trees ([Programs.sat]) hold for every number
    of steps.

    ** Not modelled

    - Weak memory: fences have no effect in the model.
    - A system call of [Kernel.kst] runs until it returns or sleeps; resuming
      it after a sleep is modelled in the step machines of its component.
    - [Main]: a call of an initialiser is one step, as hart 0 is alone then.
    - usertests.c: a list of test cases for system calls that are modelled in
      the kernel itself.
    - ramdisk.c, which is not part of the build; the stubs that usys.pl
      generates, which are the calls of the models; initcode.S, of which the
      kernel contains the bytes ([Life.initcode]); the inline assembly of
      riscv.h, whose accessors are reads and writes of the registers of the
      models. *)

From Stdlib Require Export ZArith Lia.
From stdpp Require Export base tactics gmap strings numbers list list_relations.
Export stdpp.list_basics.list stdpp.list_relations.list stdpp.list_misc.list stdpp.list_monad.list stdpp.list_numbers.list.

#[global] Open Scope Z_scope.
#[global] Arguments Z.of_nat : simpl never.
#[global] Arguments Z.to_nat : simpl never.
#[global] Arguments Z.pow : simpl never.
#[global] Arguments Z.modulo : simpl never.
#[global] Arguments Z.div : simpl never.
#[global] Arguments Z.mul : simpl never.

(** ** Names of locks and wait channels

    The kernel passes [&lk] to [acquire]/[release] and an address to
    [sleep]/[wakeup].  The model names those addresses. *)

Inductive lockid : Type :=
  | LkKmem | LkPid | LkWait | LkTicks | LkPr | LkCons | LkUartTx
  | LkBcache | LkLog | LkItable | LkFtable | LkVdisk
  | LkProc (i : Z) | LkPipe (pa : Z) | LkSleep (id : Z).

Inductive chan : Type :=
  | ChTicks | ChConsR | ChUartTxR | ChLog | ChDiskFree
  | ChProc (i : Z) | ChPipeRead (pa : Z) | ChPipeWrite (pa : Z)
  | ChSleep (id : Z) | ChBuf (i : Z).

#[global] Instance lockid_eq_dec : EqDecision lockid.
Proof. solve_decision. Defined.
#[global] Instance chan_eq_dec : EqDecision chan.
Proof. solve_decision. Defined.

(** Effects that a handler has beside its own data: the calls it makes on
    the lock and scheduling layers, and what it sends to devices. *)
Inductive event : Type :=
  | EvInitlock (l : lockid)
  | EvAcquire (l : lockid)
  | EvRelease (l : lockid)
  | EvSleep (c : chan) (l : lockid)
  | EvWakeup (c : chan)
  | EvPutc (c : Z)
  | EvMmio (addr v : Z)
  | EvWrite (b : Z) (d : list Z)
  | EvMessage (msg : string).

#[global] Instance event_eq_dec : EqDecision event.
Proof. solve_decision. Defined.

Abbreviation trace := (list event).

(** ** The handler monad

    A handler reads and writes a component state [S], records its effects in
    a trace, and ends in one of six ways; [Switched] is a call of [sched] that
    does not come back. *)

Inductive res (S A : Type) : Type :=
  | Done (a : A) (s : S) (t : trace)
  | Panicked (msg : string) (s : S) (t : trace)
  | Sleeping (c : chan) (l : lockid) (s : S) (t : trace)
  | Switched (s : S) (t : trace)
  | Undef (why : string)
  | NoFuel.
Arguments Done {S A} a s t.
Arguments Panicked {S A} msg s t.
Arguments Sleeping {S A} c l s t.
Arguments Switched {S A} s t.
Arguments Undef {S A} why.
Arguments NoFuel {S A}.

Definition M (S A : Type) : Type := S → res S A.

(** Put the events of an earlier step before those of a later one. *)
Definition after {S A} (t : trace) (r : res S A) : res S A :=
  match r with
  | Done a s t' => Done a s (t ++ t')
  | Panicked msg s t' => Panicked msg s (t ++ t')
  | Sleeping c l s t' => Sleeping c l s (t ++ t')
  | Switched s t' => Switched s (t ++ t')
  | Undef why => Undef why
  | NoFuel => NoFuel
  end.

#[global] Instance M_ret S : MRet (M S) := λ A a s, Done a s [].
#[global] Instance M_bind S : MBind (M S) := λ A B f m s,
  match m s with
  | Done a s' t => after t (f a s')
  | Panicked msg s' t => Panicked msg s' t
  | Sleeping c l s' t => Sleeping c l s' t
  | Switched s' t => Switched s' t
  | Undef why => Undef why
  | NoFuel => NoFuel
  end.

Definition get {S} : M S S := λ s, Done s s [].
Definition gets {S A} (f : S → A) : M S A := λ s, Done (f s) s [].
Definition put {S} (s' : S) : M S unit := λ _, Done tt s' [].
Definition modify {S} (f : S → S) : M S unit := λ s, Done tt (f s) [].
Definition emit {S} (e : event) : M S unit := λ s, Done tt s [e].
Definition panic {S A} (msg : string) : M S A := λ s, Panicked msg s [].
Definition undef {S A} (why : string) : M S A := λ _, Undef why.
Definition nofuel {S A} : M S A := λ _, NoFuel.
Definition blocked {S A} (c : chan) (l : lockid) : M S A :=
  λ s, Sleeping c l s [EvSleep c l].

Definition initlock {S} (l : lockid) : M S unit := emit (EvInitlock l).
Definition acquire {S} (l : lockid) : M S unit := emit (EvAcquire l).
Definition release {S} (l : lockid) : M S unit := emit (EvRelease l).
Definition wakeup {S} (c : chan) : M S unit := emit (EvWakeup c).

(** [m] returns [a] from [s], leaving [s'] and the effects [t]. *)
Definition returns {S A} (m : M S A) (s : S) (Q : A → S → trace → Prop) : Prop :=
  match m s with Done a s' t => Q a s' t | _ => False end.

(** Run a handler of a part of the state inside the whole. *)
Record lens (S T : Type) : Type := Lens {
  view : S → T;
  over : T → S → S
}.
Arguments Lens {S T} view over.
Arguments view {S T} l s.
Arguments over {S T} l t s.

Class LensLaws {S T} (l : lens S T) : Prop := {
  view_over : ∀ t s, view l (over l t s) = t;
  over_view : ∀ s, over l (view l s) s = s;
  over_over : ∀ t t' s, over l t' (over l t s) = over l t' s
}.

Definition zoom {S T A} (l : lens S T) (m : M T A) : M S A := λ s,
  match m (view l s) with
  | Done a t tr => Done a (over l t s) tr
  | Panicked msg t tr => Panicked msg (over l t s) tr
  | Sleeping c k t tr => Sleeping c k (over l t s) tr
  | Switched t tr => Switched (over l t s) tr
  | Undef why => Undef why
  | NoFuel => NoFuel
  end.

(** ** Laws of the monad *)

Section monad_laws.
Context {S A B : Type}.
Implicit Types (s : S) (t : trace).

Lemma after_nil (r : res S A) : after [] r = r.
Proof. by destruct r. Qed.

Lemma after_after t1 t2 (r : res S A) : after t1 (after t2 r) = after (t1 ++ t2) r.
Proof. destruct r; simpl; rewrite ?app_assoc; done. Qed.

Lemma bind_done (m : M S A) (f : A → M S B) s a s1 t1 :
  m s = Done a s1 t1 → (m ≫= f) s = after t1 (f a s1).
Proof. intros H. unfold mbind, M_bind. by rewrite H. Qed.

Lemma bind_panicked (m : M S A) (f : A → M S B) s msg s1 t1 :
  m s = Panicked msg s1 t1 → (m ≫= f) s = Panicked msg s1 t1.
Proof. intros H. unfold mbind, M_bind. by rewrite H. Qed.

Lemma bind_done_inv (m : M S A) (f : A → M S B) s b s2 t :
  (m ≫= f) s = Done b s2 t →
  ∃ a s1 t1 t2, m s = Done a s1 t1 ∧ f a s1 = Done b s2 t2 ∧ t = t1 ++ t2.
Proof.
  unfold mbind, M_bind. destruct (m s) as [a s1 t1| | | | |] eqn:E; try discriminate.
  destruct (f a s1) as [b' s2' t2| | | | |] eqn:E2; simpl; try discriminate.
  intros [= -> -> <-]. eauto 10.
Qed.

Lemma returns_done (m : M S A) s a s' t Q :
  m s = Done a s' t → Q a s' t → returns m s Q.
Proof. intros H HQ. unfold returns. by rewrite H. Qed.

Lemma returns_inv (m : M S A) s Q :
  returns m s Q → ∃ a s' t, m s = Done a s' t ∧ Q a s' t.
Proof. unfold returns. destruct (m s); try contradiction. eauto 10. Qed.

Lemma returns_mono (m : M S A) s (P Q : A → S → trace → Prop) :
  returns m s P → (∀ a s' t, P a s' t → Q a s' t) → returns m s Q.
Proof. unfold returns. destruct (m s); eauto. Qed.

Lemma returns_bind (m : M S A) (f : A → M S B) s Q :
  returns m s (λ a s1 t1, returns (f a) s1 (λ b s2 t2, Q b s2 (t1 ++ t2))) →
  returns (m ≫= f) s Q.
Proof.
  unfold returns, mbind, M_bind. destruct (m s) as [a s1 t1| | | | |]; try contradiction.
  destruct (f a s1); simpl; try contradiction. done.
Qed.

Lemma returns_ret (a : A) s (Q : A → S → trace → Prop) :
  Q a s [] → returns (mret a) s Q.
Proof. done. Qed.
End monad_laws.

(** ** Machine integers: a w-bit value is a [Z] in [0, 2^w) *)

Definition u8 (x : Z) : Z := x mod 2 ^ 8.
Definition u16 (x : Z) : Z := x mod 2 ^ 16.
Definition u32 (x : Z) : Z := x mod 2 ^ 32.
Definition u64 (x : Z) : Z := x mod 2 ^ 64.
(** The [int] that has the same 32 bits. *)
Definition s32 (x : Z) : Z := (x + 2 ^ 31) mod 2 ^ 32 - 2 ^ 31.
(** The [short] that has the same 16 bits. *)
Definition s16 (x : Z) : Z := (x + 2 ^ 15) mod 2 ^ 16 - 2 ^ 15.

(** A C condition: non-zero is true. *)
Definition truthy (x : Z) : bool := negb (x =? 0).

Lemma truthy_nz c : c ≠ 0 → truthy c = true.
Proof. unfold truthy. lia. Qed.

Lemma u8_small x : 0 ≤ x < 256 → u8 x = x.
Proof. intros. unfold u8. apply Z.mod_small. lia. Qed.
Lemma u32_small x : 0 ≤ x < 2 ^ 32 → u32 x = x.
Proof. intros. unfold u32. apply Z.mod_small. lia. Qed.
Lemma u64_small x : 0 ≤ x < 2 ^ 64 → u64 x = x.
Proof. intros. unfold u64. apply Z.mod_small. lia. Qed.
Lemma u8_range x : 0 ≤ u8 x < 256.
Proof. apply Z.mod_pos_bound. lia. Qed.
Lemma u32_range x : 0 ≤ u32 x < 2 ^ 32.
Proof. apply Z.mod_pos_bound. lia. Qed.
Lemma u64_range x : 0 ≤ u64 x < 2 ^ 64.
Proof. apply Z.mod_pos_bound. lia. Qed.
Lemma s32_small x : - 2 ^ 31 ≤ x < 2 ^ 31 → s32 x = x.
Proof. intros. unfold s32. rewrite Z.mod_small; lia. Qed.

(** ** Arrays as functions of the index *)

Definition upd {A} (f : Z → A) (c : Z) (v : A) : Z → A := λ c', if decide (c' = c) then v else f c'.

Lemma upd_eq {A} (f : Z → A) c v : upd f c v c = v.
Proof. unfold upd. by rewrite decide_True. Qed.
Lemma upd_ne {A} (f : Z → A) c c' v : c' ≠ c → upd f c v c' = f c'.
Proof. intros. unfold upd. by rewrite decide_False. Qed.

Lemma upd_ext {A} (f g : Z → A) k v v' x : (∀ x, f x = g x) → v = v' → upd f k v x = upd g k v' x.
Proof. intros Hf ->. unfold upd. by case_decide. Qed.

(** ** Automation *)

Create HintDb xv6 discriminated.
#[export] Hint Constants Opaque : xv6.
#[export] Hint Resolve u8_range u32_range u64_range : xv6.
#[export] Hint Rewrite @after_nil @after_after : xv6.

(** Boolean tests of the code, as propositions. *)
Ltac bool_prop :=
  repeat match goal with
  | H : (_ && _)%bool = true |- _ => apply andb_true_iff in H as [??]
  | H : (_ || _)%bool = false |- _ => apply orb_false_iff in H as [??]
  | H : negb _ = true |- _ => apply negb_true_iff in H
  | H : negb _ = false |- _ => apply negb_false_iff in H
  | H : (_ =? _) = true |- _ => apply Z.eqb_eq in H
  | H : (_ =? _) = false |- _ => apply Z.eqb_neq in H
  | H : (_ <? _) = true |- _ => apply Z.ltb_lt in H
  | H : (_ <? _) = false |- _ => apply Z.ltb_ge in H
  | H : (_ <=? _) = true |- _ => apply Z.leb_le in H
  | H : (_ <=? _) = false |- _ => apply Z.leb_gt in H
  end.

(** Case on the condition of an [if] of the goal. *)
Ltac case_if :=
  match goal with
  | |- context [if ?b then _ else _] =>
      lazymatch type of b with
      | bool => let E := fresh "E" in destruct b eqn:E; bool_prop
      end
  end.

(** Boolean arithmetic facts, through their propositions. *)
Ltac blia :=
  first
    [ lia
    | match goal with
      | |- _ = false => apply not_true_iff_false
      | |- _ = true => idtac
      end;
      rewrite ?andb_true_iff, ?orb_true_iff, ?negb_true_iff, ?Z.leb_le, ?Z.ltb_lt,
        ?Z.eqb_eq, ?Z.eqb_neq, ?Z.leb_gt, ?Z.ltb_ge; lia ].

(** Decide a condition of the goal by arithmetic. *)
Ltac if_true :=
  match goal with
  | |- context [if ?b then _ else _] =>
      let H := fresh in assert (b = true) as H by blia; rewrite H; clear H
  end.
Ltac if_false :=
  match goal with
  | |- context [if ?b then _ else _] =>
      let H := fresh in assert (b = false) as H by blia; rewrite H; clear H
  end.

(** Step over the first call of a sequence: [tac] proves what it returns. *)
Tactic Notation "call" tactic3(tac) :=
  apply returns_bind; eapply returns_done; [tac|]; cbv beta.
(** The last call of a sequence, when it computes. *)
Ltac step_over := eapply returns_done; [reflexivity|]; cbv beta.
(** Step over the first call with its specification. *)
Tactic Notation "call_spec" uconstr(H) := apply returns_bind; eapply returns_mono; [eapply H|].
