(* ===== verification/Riscv.v ===== *)
(** * Constants and address arithmetic

    The macros of [kernel/riscv.h], [kernel/memlayout.h] and
    [kernel/param.h] that the other files use, at their C widths, with the
    facts on page rounding, page-table entries and virtual-address fields
    that the memory components share. *)

From S2P Require Import Prelude.

(** ** kernel/param.h *)

Definition NPROC : Z := 64.
Definition NCPU : Z := 8.
Definition NOFILE : Z := 16.
Definition NFILE : Z := 100.
Definition NINODE : Z := 50.
Definition NDEV : Z := 10.
Definition ROOTDEV : Z := 1.
Definition MAXARG : Z := 32.
Definition MAXOPBLOCKS : Z := 10.
Definition LOGSIZE : Z := MAXOPBLOCKS * 3.
Definition NBUF : Z := MAXOPBLOCKS * 3.
Definition FSSIZE : Z := 2000.
Definition MAXPATH : Z := 128.

(** ** kernel/riscv.h: pages and page-table entries *)

Definition PGSIZE : Z := 4096.
Definition PGSHIFT : Z := 12.

Definition PGROUNDUP (sz : Z) : Z := Z.land (u64 (sz + PGSIZE - 1)) (Z.lnot (PGSIZE - 1)).
Definition PGROUNDDOWN (a : Z) : Z := Z.land a (Z.lnot (PGSIZE - 1)).

Definition PTE_V : Z := Z.shiftl 1 0.
Definition PTE_R : Z := Z.shiftl 1 1.
Definition PTE_W : Z := Z.shiftl 1 2.
Definition PTE_X : Z := Z.shiftl 1 3.
Definition PTE_U : Z := Z.shiftl 1 4.

Definition PA2PTE (pa : Z) : Z := u64 (Z.shiftl (Z.shiftr pa 12) 10).
Definition PTE2PA (pte : Z) : Z := u64 (Z.shiftl (Z.shiftr pte 10) 12).
Definition PTE_FLAGS (pte : Z) : Z := Z.land pte 0x3FF.

Definition PXMASK : Z := 0x1FF.
Definition PXSHIFT (level : Z) : Z := PGSHIFT + 9 * level.
Definition PX (level va : Z) : Z := Z.land (Z.shiftr va (PXSHIFT level)) PXMASK.

Definition MAXVA : Z := Z.shiftl 1 (9 + 9 + 9 + 12 - 1).

Definition SATP_SV39 : Z := Z.shiftl 8 60.
Definition MAKE_SATP (pagetable : Z) : Z := Z.lor SATP_SV39 (Z.shiftr pagetable 12).

(** ** kernel/memlayout.h *)

Definition UART0 : Z := 0x10000000.
Definition UART0_IRQ : Z := 10.
Definition VIRTIO0 : Z := 0x10001000.
Definition VIRTIO0_IRQ : Z := 1.
Definition PLIC : Z := 0x0c000000.
Definition PLIC_SENABLE (hart : Z) : Z := PLIC + 0x2080 + hart * 0x100.
Definition PLIC_SPRIORITY (hart : Z) : Z := PLIC + 0x201000 + hart * 0x2000.
Definition PLIC_SCLAIM (hart : Z) : Z := PLIC + 0x201004 + hart * 0x2000.
Definition KERNBASE : Z := 0x80000000.
Definition PHYSTOP : Z := KERNBASE + 128 * 1024 * 1024.
Definition TRAMPOLINE : Z := MAXVA - PGSIZE.
Definition KSTACK (p : Z) : Z := TRAMPOLINE - (p + 1) * 2 * PGSIZE.
Definition TRAPFRAME : Z := TRAMPOLINE - PGSIZE.

(** Unfold the constants, for [lia]. *)
Ltac unfold_consts :=
  unfold TRAPFRAME, KSTACK, TRAMPOLINE, PHYSTOP, KERNBASE, PGSIZE, PGSHIFT,
    PXMASK, NBUF, LOGSIZE, MAXOPBLOCKS, NPROC, NCPU, NOFILE, NFILE, NINODE,
    NDEV, ROOTDEV, MAXARG, FSSIZE, MAXPATH in *;
  change MAXVA with (2 ^ 38) in *.
Ltac Zify.zify_pre_hook ::= unfold_consts.
Ltac clia := lia.

(** ** Rounding to pages *)

Lemma land_lnot_ones a n : 0 ≤ n → Z.land a (Z.lnot (2 ^ n - 1)) = a - a mod 2 ^ n.
Proof.
  intros Hn. replace (2 ^ n - 1) with (Z.ones n) by (rewrite Z.ones_equiv; lia).
  rewrite <-Z.ldiff_land, Z.ldiff_ones_r by done.
  rewrite Z.shiftl_mul_pow2, Z.shiftr_div_pow2 by done.
  pose proof (Z.div_mod a (2 ^ n)). assert (2 ^ n ≠ 0) by (apply Z.pow_nonzero; lia). lia.
Qed.

Lemma PGROUNDDOWN_eq a : PGROUNDDOWN a = a - a mod PGSIZE.
Proof. exact (land_lnot_ones a 12 ltac:(lia)). Qed.

Lemma PGROUNDUP_eq sz :
  0 ≤ sz → sz + PGSIZE - 1 < 2 ^ 64 →
  PGROUNDUP sz = (sz + PGSIZE - 1) - (sz + PGSIZE - 1) mod PGSIZE.
Proof.
  intros. unfold PGROUNDUP. rewrite u64_small by clia.
  exact (land_lnot_ones _ 12 ltac:(lia)).
Qed.

Lemma PGROUNDDOWN_bounds a :
  PGROUNDDOWN a mod PGSIZE = 0 ∧ PGROUNDDOWN a ≤ a < PGROUNDDOWN a + PGSIZE.
Proof.
  rewrite PGROUNDDOWN_eq. unfold PGSIZE.
  pose proof (Z.div_mod a 4096 ltac:(lia)). pose proof (Z.mod_pos_bound a 4096 ltac:(lia)).
  split; [|lia]. replace (a - a mod 4096) with ((a / 4096) * 4096) by lia.
  apply Z_mod_mult.
Qed.

Lemma PGROUNDDOWN_le a b : a ≤ b → PGROUNDDOWN a ≤ PGROUNDDOWN b.
Proof. intros. rewrite !PGROUNDDOWN_eq. unfold PGSIZE. Z.div_mod_to_equations. lia. Qed.

Lemma PGROUNDDOWN_nonneg a : 0 ≤ a → 0 ≤ PGROUNDDOWN a.
Proof. intros ?%PGROUNDDOWN_le. done. Qed.

Lemma PGROUNDUP_bounds sz :
  0 ≤ sz → sz + PGSIZE - 1 < 2 ^ 64 →
  PGROUNDUP sz mod PGSIZE = 0 ∧ sz ≤ PGROUNDUP sz < sz + PGSIZE.
Proof.
  intros. rewrite PGROUNDUP_eq by done. unfold PGSIZE in *.
  set (b := sz + 4096 - 1) in *.
  pose proof (Z.div_mod b 4096 ltac:(lia)). pose proof (Z.mod_pos_bound b 4096 ltac:(lia)).
  split; [|lia]. replace (b - b mod 4096) with ((b / 4096) * 4096) by lia.
  apply Z_mod_mult.
Qed.

Lemma PGROUNDDOWN_aligned a : a mod PGSIZE = 0 → PGROUNDDOWN a = a.
Proof. rewrite PGROUNDDOWN_eq. lia. Qed.

Lemma PGROUNDDOWN_in a x : a mod PGSIZE = 0 → a ≤ x < a + PGSIZE → PGROUNDDOWN x = a.
Proof. rewrite PGROUNDDOWN_eq. unfold PGSIZE. intros. Z.div_mod_to_equations. lia. Qed.

Lemma PGROUNDUP_aligned a : 0 ≤ a → a + PGSIZE ≤ 2 ^ 64 → a mod PGSIZE = 0 → PGROUNDUP a = a.
Proof. intros. rewrite PGROUNDUP_eq by lia. unfold PGSIZE in *. Z.div_mod_to_equations. lia. Qed.

Lemma PGROUNDUP_MAXVA sz : 0 ≤ sz ≤ MAXVA → PGROUNDUP sz ≤ MAXVA.
Proof.
  intros. rewrite PGROUNDUP_eq by lia. unfold_consts. Z.div_mod_to_equations. lia.
Qed.

Lemma aligned_add p k : (p + k * PGSIZE) mod PGSIZE = p mod PGSIZE.
Proof. apply Z_mod_plus_full. Qed.

Lemma aligned_next p : p mod PGSIZE = 0 → (p + PGSIZE) mod PGSIZE = 0.
Proof. intros. rewrite <-(Z.mul_1_l PGSIZE) at 1. by rewrite aligned_add. Qed.

(** ** Page-table entries *)

(** A page-aligned physical address that fits the 44-bit page number. *)
Definition is_pa (pa : Z) : Prop := 0 ≤ pa < 2 ^ 56 ∧ pa mod PGSIZE = 0.

Lemma PA2PTE_eq pa : is_pa pa → PA2PTE pa = (pa / PGSIZE) * 2 ^ 10.
Proof.
  intros [? ?]. unfold PA2PTE. rewrite Z.shiftr_div_pow2, Z.shiftl_mul_pow2 by lia.
  change (2 ^ 12) with PGSIZE. unfold PGSIZE in *. apply u64_small.
  pose proof (Z.div_pos pa 4096). pose proof (Z.div_lt_upper_bound pa 4096 (2 ^ 44)). lia.
Qed.

(** The flags occupy the low ten bits, which the page number leaves clear. *)
Lemma PA2PTE_lor pa fl :
  is_pa pa → 0 ≤ fl < 2 ^ 10 → Z.lor (PA2PTE pa) fl = PA2PTE pa + fl.
Proof.
  intros Hpa ?. rewrite PA2PTE_eq by done.
  rewrite <-Z.lxor_lor; [symmetry; apply Z.add_nocarry_lxor|];
    apply Z.bits_inj'; intros i Hi; rewrite Z.land_spec, Z.bits_0;
    (destruct (decide (i < 10)) as [?|?];
      [rewrite Z.mul_pow2_bits_low by lia; done
      |rewrite (Z.bits_above_log2 fl); [apply andb_false_r|lia|]]);
    (destruct (decide (fl = 0)) as [->|]; [simpl; lia|];
      apply Z.log2_lt_pow2; [lia|];
      apply Z.lt_le_trans with (2 ^ 10); [lia|apply Z.pow_le_mono_r; lia]).
Qed.

Lemma PTE2PA_PA2PTE pa fl :
  is_pa pa → 0 ≤ fl < 2 ^ 10 → PTE2PA (Z.lor (PA2PTE pa) fl) = pa.
Proof.
  intros Hpa ?. rewrite PA2PTE_lor, PA2PTE_eq by done. destruct Hpa as [? Hal].
  unfold PTE2PA. rewrite Z.shiftr_div_pow2, Z.shiftl_mul_pow2 by lia.
  rewrite Z.div_add_l, (Z.div_small fl) by lia.
  change (2 ^ 12) with PGSIZE. rewrite Z.add_0_r.
  pose proof (Z.div_mod pa PGSIZE). unfold PGSIZE in *. rewrite u64_small; lia.
Qed.

Lemma PTE_FLAGS_PA2PTE pa fl :
  is_pa pa → 0 ≤ fl < 2 ^ 10 → PTE_FLAGS (Z.lor (PA2PTE pa) fl) = fl.
Proof.
  intros Hpa ?. rewrite PA2PTE_lor, PA2PTE_eq by done. unfold PTE_FLAGS.
  change 0x3FF with (Z.ones 10). rewrite Z.land_ones by lia.
  rewrite Z.add_comm, Z_mod_plus_full. apply Z.mod_small. lia.
Qed.

(** ** The three index fields of a virtual address *)

Lemma PX_eq level va :
  0 ≤ level → PX level va = (va / 2 ^ (12 + 9 * level)) mod 512.
Proof.
  intros. unfold PX, PXSHIFT, PGSHIFT. change PXMASK with (Z.ones 9).
  rewrite Z.land_ones, Z.shiftr_div_pow2 by lia. done.
Qed.

Lemma PX_range level va : 0 ≤ level → 0 ≤ PX level va < 512.
Proof. intros. rewrite PX_eq by done. apply Z.mod_pos_bound. lia. Qed.

(** The fields of an address of 39 bits determine its page. *)
Lemma PX_decompose va :
  0 ≤ va < 2 ^ 39 →
  PGROUNDDOWN va = PX 2 va * 2 ^ 30 + PX 1 va * 2 ^ 21 + PX 0 va * 2 ^ 12.
Proof.
  intros. rewrite PGROUNDDOWN_eq, !PX_eq by lia. unfold PGSIZE. 
  change (2 ^ (12 + 9 * 2)) with (2 ^ 30). change (2 ^ (12 + 9 * 1)) with (2 ^ 21).
  change (2 ^ (12 + 9 * 0)) with 4096. Z.div_mod_to_equations. lia.
Qed.

Lemma PX_inj va va' :
  0 ≤ va < 2 ^ 39 → 0 ≤ va' < 2 ^ 39 →
  PX 2 va = PX 2 va' → PX 1 va = PX 1 va' → PX 0 va = PX 0 va' →
  PGROUNDDOWN va = PGROUNDDOWN va'.
Proof. intros. rewrite !PX_decompose by done. congruence. Qed.

Lemma PX_PGROUNDDOWN level va : 0 ≤ level → PX level (PGROUNDDOWN va) = PX level va.
Proof.
  intros. rewrite !PX_eq, PGROUNDDOWN_eq by done. f_equal. unfold PGSIZE.
  replace (2 ^ (12 + 9 * level)) with (4096 * 2 ^ (9 * level))
    by (rewrite Z.pow_add_r by lia; done).
  assert (0 < 2 ^ (9 * level)) by (apply Z.pow_pos_nonneg; lia).
  rewrite <-!Z.div_div by lia. f_equal.
  pose proof (Z.div_mod va 4096).
  replace (va - va mod 4096) with (va / 4096 * 4096) by lia.
  by rewrite Z.div_mul by lia.
Qed.

#[export] Hint Resolve PX_range : xv6.
