(* ===== verification/Memory.v ===== *)
(** * Byte-addressed memory and [kernel/string.c]

    Physical memory is a finite map from addresses to bytes; the kernel's
    direct map makes a kernel pointer the physical address it denotes.
    [ld64] and [st64] are the eight-byte little-endian accesses the compiler
    emits for a [uint64] or a pointer.  The [mem*] routines of string.c work
    on this memory; its [str*] routines work on the bytes from a pointer to
    the end of the object it points into, and give [None] when the loop of
    the source would read past that end. *)

From S2P Require Import Prelude Riscv.

(** ** Little-endian integers *)

Fixpoint le_bytes (n : nat) (v : Z) : list Z :=
  match n with
  | O => []
  | S n => v mod 256 :: le_bytes n (v / 256)
  end.

Fixpoint le_val (l : list Z) : Z :=
  match l with
  | [] => 0
  | b :: l => b + 256 * le_val l
  end.

Definition is_byte (b : Z) : Prop := 0 ≤ b < 256.

Lemma le_bytes_length n v : length (le_bytes n v) = n.
Proof. revert v. induction n; intros; simpl; auto. Qed.

Lemma le_bytes_bytes n v : Forall is_byte (le_bytes n v).
Proof.
  revert v. induction n; intros; simpl; constructor; [|done].
  apply Z.mod_pos_bound. lia.
Qed.

Lemma le_val_le_bytes n v : le_val (le_bytes n v) = v mod 256 ^ Z.of_nat n.
Proof.
  revert v. induction n as [|n IH]; intros v; simpl.
  - by rewrite Z.mod_1_r.
  - rewrite IH, Nat2Z.inj_succ, Z.pow_succ_r by lia.
    rewrite Z.rem_mul_r by lia. done.
Qed.

Lemma le_val_range l : Forall is_byte l → 0 ≤ le_val l < 256 ^ Z.of_nat (length l).
Proof.
  induction 1 as [|b l Hb Hl IH]; simpl le_val; simpl length; [lia|].
  rewrite Nat2Z.inj_succ, Z.pow_succ_r by lia. unfold is_byte in *. lia.
Qed.

Lemma le_bytes_le_val l : Forall is_byte l → le_bytes (length l) (le_val l) = l.
Proof.
  induction 1 as [|b l Hb Hl IH]; simpl; [done|]. unfold is_byte in Hb.
  rewrite (Z.mul_comm 256), Z_mod_plus_full, Z.div_add, Z.mod_small by lia.
  by rewrite Z.div_small, Z.add_0_l, IH by lia.
Qed.

(** ** Loads and stores *)

Definition rd (m : gmap Z Z) (a : Z) : Z := default 0 (m !! a).

Fixpoint ld_bytes (m : gmap Z Z) (a : Z) (n : nat) : list Z :=
  match n with
  | O => []
  | S n => rd m a :: ld_bytes m (a + 1) n
  end.

Fixpoint st_bytes (m : gmap Z Z) (a : Z) (l : list Z) : gmap Z Z :=
  match l with
  | [] => m
  | b :: l => st_bytes (<[a := b]> m) (a + 1) l
  end.

Definition ld64 (m : gmap Z Z) (a : Z) : Z := le_val (ld_bytes m a 8).
Definition st64 (m : gmap Z Z) (a v : Z) : gmap Z Z := st_bytes m a (le_bytes 8 v).

(** Every cell holds a byte. *)
Definition mem_ok (m : gmap Z Z) : Prop := ∀ a, is_byte (rd m a).

Lemma rd_insert m a b x : rd (<[a := b]> m) x = if a =? x then b else rd m x.
Proof.
  unfold rd. destruct (Z.eqb_spec a x) as [->|].
  - by rewrite lookup_insert_eq.
  - by rewrite lookup_insert_ne.
Qed.

Lemma ld_bytes_length m a n : length (ld_bytes m a n) = n.
Proof. revert a. induction n; intros; simpl; auto. Qed.

Lemma ld_bytes_lookup m a n i :
  (i < n)%nat → ld_bytes m a n !! i = Some (rd m (a + Z.of_nat i)).
Proof.
  revert a i. induction n as [|n IH]; intros a i Hi; [lia|].
  destruct i as [|i]; simpl; [f_equal; f_equal; lia|].
  rewrite IH by lia. f_equal. f_equal. lia.
Qed.

Lemma ld_bytes_ext m m' a n :
  (∀ x, a ≤ x < a + Z.of_nat n → rd m x = rd m' x) → ld_bytes m a n = ld_bytes m' a n.
Proof.
  revert a. induction n as [|n IH]; intros a H; simpl; [done|].
  rewrite H by lia. f_equal. apply IH. intros. apply H. lia.
Qed.

Lemma rd_st_bytes m a l x :
  rd (st_bytes m a l) x =
  if (a <=? x) && (x <? a + Z.of_nat (length l))
  then l !!! Z.to_nat (x - a) else rd m x.
Proof.
  revert m a. induction l as [|b l IH]; intros m a; simpl.
  - case_if; [lia|done].
  - rewrite IH, rd_insert.
    destruct (decide (x = a)) as [->|].
    + rewrite Z.eqb_refl, Z.sub_diag. if_false. if_true. done.
    + destruct (Z.eqb_spec a x); [lia|]. case_if.
      * if_true. replace (Z.to_nat (x - a)) with (S (Z.to_nat (x - (a + 1)))) by lia. done.
      * apply andb_false_iff in E as [E|E]; bool_prop; if_false; done.
Qed.

Lemma ld_st_bytes_same m a l : ld_bytes (st_bytes m a l) a (length l) = l.
Proof.
  apply list_eq. intros i. destruct (decide (i < length l)%nat) as [Hi|Hi].
  - rewrite ld_bytes_lookup, rd_st_bytes by done. if_true.
    replace (Z.to_nat (a + Z.of_nat i - a)) with i by lia.
    symmetry. by apply list_lookup_lookup_total_lt.
  - rewrite !lookup_ge_None_2; [done|lia|rewrite ld_bytes_length; lia].
Qed.

Lemma rd_st_bytes_out m a l x :
  x < a ∨ a + Z.of_nat (length l) ≤ x → rd (st_bytes m a l) x = rd m x.
Proof. intros. rewrite rd_st_bytes. by if_false. Qed.

Lemma rd_st64_out m a v x : x < a ∨ a + 8 ≤ x → rd (st64 m a v) x = rd m x.
Proof. intros. apply rd_st_bytes_out. rewrite le_bytes_length. lia. Qed.

Lemma ld64_ext m m' a : (∀ x, a ≤ x < a + 8 → rd m x = rd m' x) → ld64 m a = ld64 m' a.
Proof. intros. unfold ld64. f_equal. by apply ld_bytes_ext. Qed.

Lemma ld64_st64_same m a v : 0 ≤ v < 2 ^ 64 → ld64 (st64 m a v) a = v.
Proof.
  intros. unfold ld64, st64. rewrite <-(le_bytes_length 8 v) at 2.
  rewrite ld_st_bytes_same, le_val_le_bytes. apply Z.mod_small. done.
Qed.

Lemma ld64_st64_other m a b v : a + 8 ≤ b ∨ b + 8 ≤ a → ld64 (st64 m a v) b = ld64 m b.
Proof. intros. apply ld64_ext. intros. apply rd_st64_out. lia. Qed.

Lemma ld64_range m a : mem_ok m → 0 ≤ ld64 m a < 2 ^ 64.
Proof.
  intros Hm. pose proof (le_val_range (ld_bytes m a 8)) as H.
  rewrite ld_bytes_length in H. apply H. apply Forall_lookup. intros i b Hi.
  assert (i < 8)%nat by (apply lookup_lt_Some in Hi; by rewrite ld_bytes_length in Hi).
  rewrite ld_bytes_lookup in Hi by done. injection Hi as <-. apply Hm.
Qed.

Lemma mem_ok_st_bytes m a l : mem_ok m → Forall is_byte l → mem_ok (st_bytes m a l).
Proof.
  intros Hm Hl x. rewrite rd_st_bytes. case_if; [|apply Hm].
  rewrite Forall_lookup in Hl. eapply Hl, list_lookup_lookup_total_lt. lia.
Qed.

Lemma mem_ok_st64 m a v : mem_ok m → mem_ok (st64 m a v).
Proof. intros. apply mem_ok_st_bytes; [done|apply le_bytes_bytes]. Qed.

Lemma mem_ok_empty : mem_ok ∅.
Proof. intros a. unfold rd. rewrite lookup_empty. simpl. unfold is_byte. lia. Qed.

#[export] Hint Resolve mem_ok_st64 mem_ok_empty ld64_range : xv6.

(** ** string.c: the memory routines *)

(** [for(i = 0; i < n; i++) cdst[i] = c;] from index [i], [k] bytes to go. *)
Fixpoint memset_loop (k : nat) (m : gmap Z Z) (dst i c : Z) : gmap Z Z :=
  match k with
  | O => m
  | S k => memset_loop k (<[dst + i := u8 c]> m) dst (i + 1) c
  end.

Definition memset (m : gmap Z Z) (dst c n : Z) : gmap Z Z :=
  memset_loop (Z.to_nat n) m dst 0 c.

(** [while(n-- > 0){ if( *s1 != *s2) return *s1 - *s2; s1++, s2++; }] *)
Fixpoint memcmp_loop (k : nat) (m : gmap Z Z) (s1 s2 : Z) : Z :=
  match k with
  | O => 0
  | S k =>
      if negb (rd m s1 =? rd m s2) then rd m s1 - rd m s2
      else memcmp_loop k m (s1 + 1) (s2 + 1)
  end.

Definition memcmp (m : gmap Z Z) (v1 v2 n : Z) : Z := memcmp_loop (Z.to_nat n) m v1 v2.

(** [while(n-- > 0) *--d = *--s;] *)
Fixpoint memmove_down (k : nat) (m : gmap Z Z) (d s : Z) : gmap Z Z :=
  match k with
  | O => m
  | S k => memmove_down k (<[d - 1 := rd m (s - 1)]> m) (d - 1) (s - 1)
  end.

(** [while(n-- > 0) *d++ = *s++;] *)
Fixpoint memmove_up (k : nat) (m : gmap Z Z) (d s : Z) : gmap Z Z :=
  match k with
  | O => m
  | S k => memmove_up k (<[d := rd m s]> m) (d + 1) (s + 1)
  end.

Definition memmove (m : gmap Z Z) (dst src n : Z) : gmap Z Z :=
  if n =? 0 then m
  else
    let s := src in
    let d := dst in
    if (s <? d) && (s + n >? d)
    then memmove_down (Z.to_nat n) m (d + n) (s + n)
    else memmove_up (Z.to_nat n) m d s.

Definition memcpy (m : gmap Z Z) (dst src n : Z) : gmap Z Z := memmove m dst src n.

(** ** string.c: the string routines

    A [char *] is the list of bytes from where it points. *)

Fixpoint strncmp (p q : list Z) (n : nat) {struct n} : option Z :=
  match n with
  | O => Some 0
  | S n =>
      match p, q with
      | a :: p, b :: q =>
          if truthy a && (a =? b) then strncmp p q n else Some (a - b)
      | _, _ => None
      end
  end.

(** The bytes stored through [s]; the source stores exactly [n]. *)
Fixpoint strncpy (t : list Z) (n : nat) {struct n} : option (list Z) :=
  match n with
  | O => Some []
  | S n =>
      match t with
      | [] => None
      | c :: t =>
          if truthy c then l ← strncpy t n; Some (c :: l)
          else Some (c :: replicate n 0)
      end
  end.

(** [while(--n > 0 && ( *s++ = *t++) != 0); *s = 0;] where [n] is what is left
    after the decrement of the first test. *)
Fixpoint safestrcpy_loop (t : list Z) (n : nat) {struct n} : option (list Z) :=
  match n with
  | O => Some [0]
  | S n =>
      match t with
      | [] => None
      | c :: t =>
          if truthy c then l ← safestrcpy_loop t n; Some (c :: l)
          else Some [c; 0]
      end
  end.

(** The bytes stored through [s]. *)
Definition safestrcpy (t : list Z) (n : Z) : option (list Z) :=
  if n <=? 0 then Some [] else safestrcpy_loop t (Z.to_nat (n - 1)).

Fixpoint strlen (s : list Z) : option Z :=
  match s with
  | [] => None
  | c :: s => if truthy c then n ← strlen s; Some (n + 1) else Some 0
  end.

(** ** What the routines do *)

Lemma rd_memset_loop k m dst i c x :
  rd (memset_loop k m dst i c) x =
  if (dst + i <=? x) && (x <? dst + i + Z.of_nat k) then u8 c else rd m x.
Proof.
  revert m i. induction k as [|k IH]; intros m i; simpl.
  - by if_false.
  - rewrite IH, rd_insert. destruct (Z.eqb_spec (dst + i) x).
    + if_false. by if_true.
    + destruct (decide (dst + (i + 1) ≤ x < dst + (i + 1) + Z.of_nat k)).
      * if_true. by if_true.
      * if_false. by if_false.
Qed.

Lemma rd_memset m dst c n x :
  rd (memset m dst c n) x = if (dst <=? x) && (x <? dst + n) then u8 c else rd m x.
Proof.
  unfold memset. rewrite rd_memset_loop. destruct (decide (dst ≤ x < dst + n)).
  - if_true. by if_true.
  - if_false. by if_false.
Qed.

Lemma rd_memset_out m dst c n x :
  x < dst ∨ dst + n ≤ x → rd (memset m dst c n) x = rd m x.
Proof. intros. rewrite rd_memset. by if_false. Qed.

Lemma ld64_memset_out m dst c n a :
  a + 8 ≤ dst ∨ dst + n ≤ a → ld64 (memset m dst c n) a = ld64 m a.
Proof. intros. apply ld64_ext. intros. apply rd_memset_out. lia. Qed.

Lemma ld64_memset_zero m dst n a :
  dst ≤ a → a + 8 ≤ dst + n → ld64 (memset m dst 0 n) a = 0.
Proof.
  intros. unfold ld64. simpl. rewrite !rd_memset. repeat if_true. done.
Qed.

Lemma mem_ok_memset m dst c n : mem_ok m → mem_ok (memset m dst c n).
Proof. intros Hm x. rewrite rd_memset. case_if; [apply u8_range|apply Hm]. Qed.

Lemma rd_memmove_up k m d s x :
  d ≤ s ∨ s + Z.of_nat k ≤ d →
  rd (memmove_up k m d s) x =
  if (d <=? x) && (x <? d + Z.of_nat k) then rd m (s + (x - d)) else rd m x.
Proof.
  revert m d s. induction k as [|k IH]; intros m d s Hds; simpl.
  - by if_false.
  - rewrite IH, !rd_insert by lia. destruct (Z.eqb_spec d x) as [->|].
    + if_false. if_true. f_equal. lia.
    + destruct (decide (d + 1 ≤ x < d + 1 + Z.of_nat k)).
      * if_true. if_true. destruct (Z.eqb_spec d (s + 1 + (x - (d + 1)))); [lia|].
        f_equal. lia.
      * if_false. by if_false.
Qed.

Lemma rd_memmove_down k m d s x :
  s ≤ d →
  rd (memmove_down k m d s) x =
  if (d - Z.of_nat k <=? x) && (x <? d) then rd m (s + (x - d)) else rd m x.
Proof.
  revert m d s. induction k as [|k IH]; intros m d s Hds; simpl.
  - by if_false.
  - rewrite IH, !rd_insert by lia. destruct (Z.eqb_spec (d - 1) x) as [<-|].
    + if_false. if_true. f_equal. lia.
    + destruct (decide (d - 1 - Z.of_nat k ≤ x < d - 1)).
      * if_true. if_true. destruct (Z.eqb_spec (d - 1) (s - 1 + (x - (d - 1)))); [lia|].
        f_equal. lia.
      * if_false. by if_false.
Qed.

(** [memmove] copies [n] bytes as if through a temporary, whatever the
    overlap, and touches nothing else. *)
Lemma rd_memmove m dst src n x :
  0 ≤ n →
  rd (memmove m dst src n) x =
  if (dst <=? x) && (x <? dst + n) then rd m (src + (x - dst)) else rd m x.
Proof.
  intros Hn. unfold memmove. destruct (Z.eqb_spec n 0) as [->|]; [by if_false|].
  case_if.
  - rewrite rd_memmove_down by lia. replace (dst + n - Z.of_nat (Z.to_nat n)) with dst by lia.
    case_if; [f_equal; lia|done].
  - rewrite rd_memmove_up by lia. by replace (Z.of_nat (Z.to_nat n)) with n by lia.
Qed.

Lemma rd_memmove_out m dst src n x :
  0 ≤ n → x < dst ∨ dst + n ≤ x → rd (memmove m dst src n) x = rd m x.
Proof. intros. rewrite rd_memmove by done. by if_false. Qed.

Lemma mem_ok_memmove m dst src n : 0 ≤ n → mem_ok m → mem_ok (memmove m dst src n).
Proof. intros ? Hm x. rewrite rd_memmove by done. case_if; apply Hm. Qed.

#[export] Hint Resolve mem_ok_memset mem_ok_memmove : xv6.

Lemma memcmp_loop_zero k m a b :
  memcmp_loop k m a b = 0 ↔ ld_bytes m a k = ld_bytes m b k.
Proof.
  revert a b. induction k as [|k IH]; intros a b; simpl; [done|].
  case_if.
  - split; [lia|]. intros [= ? _]. lia.
  - rewrite IH, E. split; [congruence|]. by intros [= ->].
Qed.

(** ** Strings: the bytes of a fixed-width name field *)

(** The first [n] bytes, cut before the first NUL. *)
Fixpoint field (n : nat) (l : list Z) : list Z :=
  match n, l with
  | S n, c :: l => if truthy c then c :: field n l else []
  | _, _ => []
  end.

(** A scan of at most [n] bytes stays inside the object. *)
Definition scannable (n : nat) (l : list Z) : Prop := (n ≤ length l)%nat ∨ 0 ∈ l.

Lemma scannable_cons n c l :
  scannable (S n) (c :: l) → c ≠ 0 → scannable n l.
Proof.
  intros [H|H] Hc; simpl in *; [left; lia|right].
  apply elem_of_cons in H as [?|?]; [congruence|done].
Qed.

Lemma scannable_nil n : ¬ scannable (S n) [].
Proof. intros [H|H]; simpl in *; [lia|]. by apply not_elem_of_nil in H. Qed.

Lemma strncmp_total n p q :
  scannable n p → scannable n q → ∃ r, strncmp p q n = Some r.
Proof.
  revert p q. induction n as [|n IH]; intros p q Hp Hq; simpl; [eauto|].
  destruct p as [|a p]; [by apply scannable_nil in Hp|].
  destruct q as [|b q]; [by apply scannable_nil in Hq|].
  unfold truthy. destruct (Z.eqb_spec a 0); simpl; [eauto|].
  destruct (Z.eqb_spec a b) as [<-|]; [|eauto].
  apply IH; eapply scannable_cons; eauto.
Qed.

(** [strncmp] gives 0 exactly when the two fields hold the same string. *)
Lemma strncmp_zero n p q r :
  strncmp p q n = Some r → (r = 0 ↔ field n p = field n q).
Proof.
  revert p q. induction n as [|n IH]; intros p q; simpl; [by intros [= <-]|].
  destruct p as [|a p], q as [|b q]; try discriminate.
  unfold truthy. destruct (Z.eqb_spec a 0) as [->|]; simpl.
  - intros [= <-]. destruct (Z.eqb_spec b 0); simpl; split; try done; lia.
  - destruct (Z.eqb_spec a b) as [<-|].
    + intros H%IH. rewrite H. destruct (Z.eqb_spec a 0); simpl; [done|].
      split; [congruence|]. by intros [= ?].
    + intros [= <-]. split; [lia|]. destruct (Z.eqb_spec b 0); simpl; [done|]. by intros [= ?].
Qed.

Lemma strncpy_total n t : scannable n t → ∃ l, strncpy t n = Some l.
Proof.
  revert t. induction n as [|n IH]; intros t Ht; simpl; [eauto|].
  destruct t as [|c t]; [by apply scannable_nil in Ht|].
  unfold truthy. destruct (Z.eqb_spec c 0); simpl; [eauto|].
  destruct (IH t) as [l ->]; [by eapply scannable_cons|]. simpl. eauto.
Qed.

(** [strncpy] stores the string, cut to [n] bytes and padded with NULs. *)
Lemma strncpy_spec n t l :
  strncpy t n = Some l →
  l = field n t ++ replicate (n - length (field n t)) 0.
Proof.
  revert t l. induction n as [|n IH]; intros t l; simpl; [by intros [= <-]|].
  destruct t as [|c t]; [discriminate|].
  unfold truthy. destruct (Z.eqb_spec c 0) as [->|]; simpl; [by intros [= <-]|].
  destruct (strncpy t n) as [l'|] eqn:E; simpl; [|discriminate].
  intros [= <-]. by rewrite (IH _ _ E) at 1.
Qed.

Lemma field_length n l : (length (field n l) ≤ n)%nat.
Proof.
  revert l. induction n as [|n IH]; intros [|c l]; simpl; try lia.
  case_if; simpl; [|lia]. specialize (IH l). lia.
Qed.

Lemma field_nonzero n l : Forall (λ c, c ≠ 0) (field n l).
Proof.
  revert l. induction n as [|n IH]; intros [|c l]; simpl; try constructor.
  unfold truthy. destruct (Z.eqb_spec c 0); simpl; by constructor.
Qed.

Lemma field_app_zero n l k :
  Forall (λ c, c ≠ 0) l → (length l ≤ n)%nat → field n (l ++ replicate k 0) = l.
Proof.
  intros Hl. revert n. induction Hl as [|c l Hc Hl IH]; intros n Hn; simpl in *.
  - destruct n, k; done.
  - destruct n as [|n]; [lia|]. simpl. rewrite truthy_nz by done.
    f_equal. apply IH. lia.
Qed.

(** Reading back a name stored with [strncpy] gives the stored name. *)
Lemma field_strncpy n t l : strncpy t n = Some l → length l = n ∧ field n l = field n t.
Proof.
  intros H%strncpy_spec. subst l. pose proof (field_length n t). split.
  - rewrite length_app, length_replicate. lia.
  - apply field_app_zero; [apply field_nonzero|done].
Qed.

Lemma safestrcpy_loop_spec t n l :
  safestrcpy_loop t n = Some l →
  field (S n) l = field n t ∧ (length l ≤ S n)%nat ∧ 0 ∈ l.
Proof.
  revert t l. induction n as [|n IH]; intros t l.
  - simpl. intros [= <-]. split_and!; [done|simpl; lia|by left].
  - destruct t as [|c t]; [discriminate|]. cbn [safestrcpy_loop].
    unfold truthy. destruct (Z.eqb_spec c 0) as [->|]; cbn [negb].
    + intros [= <-]. split_and!; [done|simpl; lia|by left].
    + destruct (safestrcpy_loop t n) as [l'|] eqn:E; simpl; [|discriminate].
      intros [= <-]. destruct (IH _ _ E) as (Hf & Hl & H0). split_and!.
      * cbn [field]. cbn [field] in Hf. by rewrite Hf.
      * simpl. lia.
      * by right.
Qed.

(** [strlen] counts the bytes before the first NUL. *)
Lemma strlen_spec s n : strlen s = Some n → n = Z.of_nat (length (field (length s) s)).
Proof.
  revert n. induction s as [|c s IH]; intros n; simpl; [discriminate|].
  case_if; [|by intros [= <-]].
  destruct (strlen s) as [k|] eqn:Ek; simpl; [|discriminate].
  intros [= <-]. rewrite (IH k) by done. simpl. lia.
Qed.

Lemma strlen_total s : 0 ∈ s → ∃ n, strlen s = Some n.
Proof.
  induction s as [|c s IH]; intros H; [by apply not_elem_of_nil in H|]. simpl.
  unfold truthy. destruct (Z.eqb_spec c 0); simpl; [eauto|].
  apply elem_of_cons in H as [?|?]; [congruence|].
  destruct IH as [k ->]; [done|]. simpl. eauto.
Qed.

#[global] Opaque ld64 st64 memset memmove.
