(* ===== verification/Kalloc.v ===== *)
(** * The physical page allocator, [kernel/kalloc.c]

    The free list is threaded through the free pages themselves: the first
    eight bytes of a free page are its [struct run] and hold the address of
    the next one.  [chain] reads that list back from memory, and [kmem_inv]
    is the allocator's invariant over it. *)

From S2P Require Import Prelude Riscv Memory.

(** [struct { struct spinlock lock; struct run *freelist; } kmem], and the
    memory the list lives in. *)
Record kmem : Type := Kmem {
  freelist : Z;
  mem : gmap Z Z
}.

Definition set_freelist (f : Z) (s : kmem) : kmem := Kmem f (mem s).
Definition set_mem (m : gmap Z Z) (s : kmem) : kmem := Kmem (freelist s) m.

(** Memory accesses of a handler. *)
Definition load64 (a : Z) : M kmem Z := gets (λ s, ld64 (mem s) a).
Definition store64 (a v : Z) : M kmem unit := modify (λ s, set_mem (st64 (mem s) a v) s).
Definition do_memset (dst c n : Z) : M kmem unit :=
  modify (λ s, set_mem (memset (mem s) dst c n) s).
Definition do_memmove (dst src n : Z) : M kmem unit :=
  modify (λ s, set_mem (memmove (mem s) dst src n) s).

Section kalloc.
  (** [extern char end[]]: the first address after the kernel, which the
      linker script chooses. *)
  Variable kend : Z.

Definition kfree (pa : Z) : M kmem unit :=
  if negb (pa mod PGSIZE =? 0) || (pa <? kend) || (pa >=? PHYSTOP) then panic "kfree"
  else
    do_memset pa 1 PGSIZE;;
    acquire LkKmem;;
    f ← gets freelist;
    store64 pa f;;
    modify (set_freelist pa);;
    release LkKmem.

Definition kalloc : M kmem Z :=
  acquire LkKmem;;
  r ← gets freelist;
  (if truthy r then next ← load64 r; modify (set_freelist next) else mret tt);;
  release LkKmem;;
  (if truthy r then do_memset r 5 PGSIZE else mret tt);;
  mret r.

(** [for(; p + PGSIZE <= (char * )pa_end; p += PGSIZE) kfree(p);] *)
Fixpoint freerange_loop (fuel : nat) (p pa_end : Z) : M kmem unit :=
  match fuel with
  | O => nofuel
  | S fuel =>
      if p + PGSIZE <=? pa_end then kfree p;; freerange_loop fuel (p + PGSIZE) pa_end
      else mret tt
  end.

Definition freerange (pa_start pa_end : Z) : M kmem unit :=
  let p := PGROUNDUP pa_start in
  freerange_loop (S (Z.to_nat ((pa_end - p) / PGSIZE))) p pa_end.

Definition kinit : M kmem unit :=
  initlock LkKmem;;
  freerange kend PHYSTOP.

(** ** The invariant *)

(** A page the allocator manages. *)
Definition ram_page (p : Z) : Prop := p mod PGSIZE = 0 ∧ kend ≤ p < PHYSTOP.

(** The list that starts at [f] in memory [m]. *)
Inductive chain (m : gmap Z Z) : Z → list Z → Prop :=
  | chain_nil : chain m 0 []
  | chain_cons p l : p ≠ 0 → chain m (ld64 m p) l → chain m p (p :: l).

Record kmem_inv (s : kmem) (l : list Z) : Prop := {
  inv_chain : chain (mem s) (freelist s) l;
  inv_nodup : NoDup l;
  inv_pages : Forall ram_page l;
  inv_mem : mem_ok (mem s)
}.

Definition in_page (p x : Z) : Prop := p ≤ x < p + PGSIZE.

(** [m'] agrees with [m] outside the page [p]. *)
Definition same_but (p : Z) (m m' : gmap Z Z) : Prop :=
  ∀ x, ¬ in_page p x → rd m' x = rd m x.

Lemma pages_disjoint p q x :
  p mod PGSIZE = 0 → q mod PGSIZE = 0 → in_page p x → in_page q x → p = q.
Proof.
  unfold in_page, PGSIZE. intros Hp Hq ??.
  apply Z.mod_divide in Hp as [i ->]; [|lia]. apply Z.mod_divide in Hq as [j ->]; [|lia]. lia.
Qed.

Lemma pages_apart p q :
  p mod PGSIZE = 0 → q mod PGSIZE = 0 → p ≠ q → p + PGSIZE ≤ q ∨ q + PGSIZE ≤ p.
Proof.
  unfold PGSIZE. intros Hp Hq ?.
  apply Z.mod_divide in Hp as [i ->]; [|lia]. apply Z.mod_divide in Hq as [j ->]; [|lia]. lia.
Qed.

Lemma chain_cons_inv m f p l :
  chain m f (p :: l) → f = p ∧ p ≠ 0 ∧ chain m (ld64 m p) l.
Proof. by inversion 1. Qed.

Lemma chain_ext m m' f l :
  (∀ p, p ∈ l → ld64 m' p = ld64 m p) → chain m f l → chain m' f l.
Proof.
  intros H Hc. induction Hc as [|p l Hp Hc IH]; constructor; [done|].
  rewrite H by by left. apply IH. intros. apply H. by right.
Qed.

Lemma chain_ext_page m m' f l p :
  Forall (λ q, q mod PGSIZE = 0) (p :: l) → p ∉ l →
  same_but p m m' → chain m f l → chain m' f l.
Proof.
  intros Hal Hp Hs. apply chain_ext. intros q Hq. apply ld64_ext. intros x Hx. apply Hs.
  intros Hin. apply Forall_cons_1 in Hal as [Halp Hal]. rewrite Forall_forall in Hal.
  assert (p = q) as ->; [|done]. apply (pages_disjoint p q x); auto.
  unfold in_page. clia.
Qed.

Lemma ram_page_range p : 0 < kend → ram_page p → 0 < p < 2 ^ 32.
Proof. unfold ram_page. clia. Qed.

Lemma ram_pages_aligned l : Forall ram_page l → Forall (λ q, q mod PGSIZE = 0) l.
Proof. intros H. apply (Forall_impl _ _ _ H). by intros ? []. Qed.

(** ** The specifications *)

(** The kernel image starts at [KERNBASE], so [end] is not a null pointer. *)
Hypothesis Hkend : 0 < kend.

Lemma kfree_bad pa s :
  ¬ ram_page pa → kfree pa s = Panicked "kfree" s [].
Proof.
  intros H. unfold kfree, ram_page in *. case_if; [done|].
  exfalso. apply H. lia.
Qed.

Definition kfree_result (pa : Z) (s : kmem) : kmem :=
  Kmem pa (st64 (memset (mem s) pa 1 PGSIZE) pa (freelist s)).

Lemma kfree_run pa s :
  ram_page pa →
  kfree pa s = Done tt (kfree_result pa s) [EvAcquire LkKmem; EvRelease LkKmem].
Proof.
  intros [Hal Hr]. unfold kfree. rewrite Hal. if_false. done.
Qed.

Lemma kfree_same_but pa s : same_but pa (mem s) (mem (kfree_result pa s)).
Proof.
  intros x Hx. unfold in_page in Hx. simpl. rewrite rd_st64_out by clia.
  apply rd_memset_out. clia.
Qed.

Lemma kfree_inv pa s l :
  ram_page pa → pa ∉ l → kmem_inv s l → kmem_inv (kfree_result pa s) (pa :: l).
Proof.
  intros Hpa Hl [Hc Hn Hp Hm]. pose proof (ram_page_range pa Hkend Hpa).
  split.
  - simpl. constructor; [lia|]. rewrite ld64_st64_same.
    + eapply (chain_ext_page (mem s) (mem (kfree_result pa s)) _ l pa); [|done| |done].
      * constructor; [by destruct Hpa|by apply ram_pages_aligned].
      * apply kfree_same_but.
    + destruct Hc as [|q l Hq _]; [lia|]. apply Forall_cons_1 in Hp as [Hp _].
      pose proof (ram_page_range q Hkend Hp). lia.
  - by constructor.
  - by constructor.
  - simpl. auto with xv6.
Qed.

Definition kalloc_result (p : Z) (s : kmem) : kmem :=
  Kmem (ld64 (mem s) p) (memset (mem s) p 5 PGSIZE).

Lemma kalloc_empty s :
  kmem_inv s [] → kalloc s = Done 0 s [EvAcquire LkKmem; EvRelease LkKmem].
Proof.
  intros [Hc _ _ _]. unfold kalloc. inversion Hc as [Hf|]. destruct s as [f m].
  simpl in *. subst f. done.
Qed.

Lemma kalloc_run p l s :
  kmem_inv s (p :: l) →
  kalloc s = Done p (kalloc_result p s) [EvAcquire LkKmem; EvRelease LkKmem].
Proof.
  intros [Hc _ _ _]. apply chain_cons_inv in Hc as (Hf & Hp & _). destruct s as [f m].
  simpl in *. subst f. unfold kalloc, mbind, M_bind; simpl. by rewrite (truthy_nz p) by done.
Qed.

Lemma kalloc_same_but p s : same_but p (mem s) (mem (kalloc_result p s)).
Proof. intros x Hx. unfold in_page in Hx. simpl. apply rd_memset_out. clia. Qed.

Lemma kalloc_inv p l s : kmem_inv s (p :: l) → kmem_inv (kalloc_result p s) l.
Proof.
  intros [Hc Hn Hp Hm]. apply NoDup_cons in Hn as [Hpl Hn]. split; simpl.
  - apply chain_cons_inv in Hc as (_ & _ & Hc). eapply (chain_ext_page (mem s) _ _ l p); [|done| |done].
    + by apply ram_pages_aligned.
    + intros x Hx. unfold in_page in Hx. apply rd_memset_out. clia.
  - done.
  - by apply Forall_cons_1 in Hp as [_ ?].
  - auto with xv6.
Qed.

(** ** Initialisation: every page of RAM becomes free *)

(** The pages [p, p + PGSIZE, ...], [n] of them, last one first: the order in
    which [freerange] leaves them on the list. *)
Fixpoint pages_from (n : nat) (p : Z) (l : list Z) : list Z :=
  match n with
  | O => l
  | S n => pages_from n (p + PGSIZE) (p :: l)
  end.

Lemma elem_of_pages_from n p l q :
  q ∈ pages_from n p l ↔ q ∈ l ∨ ∃ i : nat, (i < n)%nat ∧ q = p + Z.of_nat i * PGSIZE.
Proof.
  revert p l. induction n as [|n IH]; intros p l; simpl.
  - split; [by left|]. intros [?|(i & ? & _)]; [done|lia].
  - rewrite IH, elem_of_cons. split.
    + intros [[->|?]|(i & ? & ->)]; [right; exists 0%nat; lia|by left|].
      right. exists (S i). lia.
    + intros [?|(i & Hi & ->)]; [by left; right|]. destruct i as [|i].
      * left. left. lia.
      * right. exists i. lia.
Qed.

Lemma freerange_loop_spec n fuel p pa_end s l :
  (n < fuel)%nat → p mod PGSIZE = 0 → kend ≤ p →
  p + Z.of_nat n * PGSIZE ≤ pa_end < p + Z.of_nat (S n) * PGSIZE → pa_end ≤ PHYSTOP →
  kmem_inv s l → (∀ q, q ∈ l → q < p) →
  returns (freerange_loop fuel p pa_end) s
    (λ _ s' _, kmem_inv s' (pages_from n p l)).
Proof.
  intros Hf. revert fuel p s l Hf.
  induction n as [|n IH]; intros fuel p s l Hf Hal Hk Hn He Hinv Hl;
    destruct fuel as [|fuel]; try lia; simpl.
  - by if_false.
  - assert (ram_page p) as Hp by (split; lia).
    if_true. apply returns_bind. eapply returns_done; [by apply kfree_run|].
    apply (IH fuel (p + PGSIZE) _ (p :: l)); [lia| |lia|lia|lia| |].
    + by apply aligned_next.
    + apply kfree_inv; [done| |done]. intros Hin%Hl. lia.
    + intros q [->|Hq]%elem_of_cons; [lia|]. apply Hl in Hq. lia.
Qed.

Lemma kinit_pages q :
  kend ≤ PHYSTOP →
  (∃ i : nat, (i < Z.to_nat ((PHYSTOP - PGROUNDUP kend) / PGSIZE))%nat ∧
     q = PGROUNDUP kend + Z.of_nat i * PGSIZE) ↔ ram_page q.
Proof.
  intros Hk. destruct (PGROUNDUP_bounds kend) as [Hal Hb]; [lia|lia|].
  set (P := PGROUNDUP kend) in *. unfold ram_page, PGSIZE in *.
  apply Z.mod_divide in Hal as [j Hj]; [|lia]. split.
  - intros (i & Hi & ->). rewrite Hj in *. split; [|Z.div_mod_to_equations; lia].
    rewrite <-Z.mul_add_distr_r. apply Z_mod_mult.
  - intros [[k ->]%Z.mod_divide Hq]; [|lia]. exists (Z.to_nat (k - j)).
    rewrite Hj in *. Z.div_mod_to_equations. lia.
Qed.

Definition kinit_free (s : kmem) (l : list Z) : Prop :=
  kmem_inv s l ∧ ∀ q, q ∈ l ↔ ram_page q.

Lemma kinit_run s :
  kend ≤ PHYSTOP → freelist s = 0 → mem_ok (mem s) →
  returns kinit s (λ _ s' _, ∃ l, kinit_free s' l).
Proof.
  intros Hk Hf Hm. unfold kinit, freerange. call reflexivity.
  destruct (PGROUNDUP_bounds kend) as [Hal Hb]; [lia|lia|].
  set (P := PGROUNDUP kend) in *.
  assert (P ≤ PHYSTOP) as HP.
  { unfold_consts. apply Z.mod_divide in Hal as [j Hj]; lia. }
  set (n := Z.to_nat ((PHYSTOP - P) / PGSIZE)).
  eapply returns_mono.
  - apply (freerange_loop_spec n (S n) P PHYSTOP s []); [lia|done|lia| |lia| |].
    + subst n. unfold_consts. Z.div_mod_to_equations. lia.
    + split; [rewrite Hf; constructor|constructor|constructor|done].
    + by intros q ?%not_elem_of_nil.
  - intros a s' t Hinv. exists (pages_from n P []). split; [done|]. intros q.
    rewrite elem_of_pages_from, <-kinit_pages by done.
    split; [intros [?%not_elem_of_nil|?]; done|by right].
Qed.

(** ** Clients: no page has two owners

    A client state is the allocator with the set of pages that clients own.
    Clients call [kalloc], call [kfree] on a page they own, and store what
    they like into the pages they own. *)

Inductive kstep : kmem * gset Z → kmem * gset Z → Prop :=
  | kstep_alloc s s' A r t :
      kalloc s = Done r s' t →
      kstep (s, A) (s', if truthy r then {[r]} ∪ A else A)
  | kstep_free s s' A pa t :
      pa ∈ A → kfree pa s = Done tt s' t → kstep (s, A) (s', A ∖ {[pa]})
  | kstep_use s m A :
      mem_ok m →
      (∀ x, (∀ p, p ∈ A → ¬ in_page p x) → rd m x = rd (mem s) x) →
      kstep (s, A) (set_mem m s, A).

(** The free list and the owned pages partition the pages of RAM. *)
Definition partition (c : kmem * gset Z) : Prop :=
  ∃ l, kmem_inv c.1 l ∧ (∀ q, q ∈ l ∨ q ∈ c.2 ↔ ram_page q) ∧ (∀ q, q ∈ l → q ∉ c.2).

Lemma partition_use s m A :
  mem_ok m → (∀ x, (∀ p, p ∈ A → ¬ in_page p x) → rd m x = rd (mem s) x) →
  partition (s, A) → partition (set_mem m s, A).
Proof.
  intros Hm Hs (l & [Hc Hn Hp _] & Hpart & Hdis). exists l. split; [|done]. split; simpl; try done.
  revert Hc. apply chain_ext. intros p Hpl. apply ld64_ext. intros x Hx. apply Hs.
  intros q HqA Hq. assert (p = q) as ->.
  { apply (pages_disjoint p q x); [| |unfold in_page; lia|done].
    - rewrite Forall_forall in Hp. by apply Hp.
    - apply (Hpart q). by right. }
  by apply (Hdis q).
Qed.

Lemma partition_step c c' : kstep c c' → partition c → partition c'.
Proof.
  intros Hstep. destruct Hstep as [s s' A r t Hr|s s' A pa t HA Hr|s m A Hm Hs];
    [| |by apply partition_use].
  - intros (l & Hinv & Hpart & Hdis). destruct l as [|p l].
    + rewrite (kalloc_empty s Hinv) in Hr. injection Hr as <- <- <-. by exists [].
    + rewrite (kalloc_run p l s Hinv) in Hr. injection Hr as <- <- <-. simpl in *.
      pose proof (inv_nodup _ _ Hinv) as [Hpl _]%NoDup_cons.
      destruct (chain_cons_inv _ _ _ _ (inv_chain _ _ Hinv)) as (_ & Hp0 & _).
      rewrite truthy_nz by done.
      exists l. split; [by apply kalloc_inv with (l := l)|]. split.
      * intros q. rewrite <-Hpart. set_solver.
      * set_solver.
  - intros (l & Hinv & Hpart & Hdis). simpl in *.
    assert (ram_page pa) as Hpa by (apply Hpart; by right).
    rewrite (kfree_run pa s Hpa) in Hr. injection Hr as <- <-.
    assert (pa ∉ l) by (intros ?%Hdis; done).
    exists (pa :: l). split; [by apply kfree_inv|]. split.
    + intros q. rewrite <-Hpart. destruct (decide (q = pa)); set_solver.
    + set_solver.
Qed.

Lemma partition_init s l : kinit_free s l → partition (s, ∅).
Proof.
  intros [Hinv Hl]. exists l. split; [done|]. split; [|set_solver].
  intros q. rewrite <-Hl. set_solver.
Qed.

Lemma partition_reachable s c : partition (s, ∅) → rtc kstep (s, ∅) c → partition c.
Proof.
  intros H Hr. remember (s, ∅) as c0. clear Heqc0.
  induction Hr as [|c0 c1 c2 Hs _ IH]; [done|]. apply IH. by eapply partition_step.
Qed.

(** C2: In every state that clients can reach after [kinit] by allocating,
    freeing pages they own and storing into them, [kalloc] returns; its result
    is a page of RAM that nobody owns, or 0 when every page of RAM has an
    owner; and [kfree] of an owned page returns. *)
Theorem kalloc_fresh s0 s1 t c :
  kend ≤ PHYSTOP → freelist s0 = 0 → mem_ok (mem s0) → kinit s0 = Done tt s1 t →
  rtc kstep (s1, ∅) c →
  returns kalloc c.1 (λ r _ _,
    (r = 0 ∧ ∀ q, ram_page q → q ∈ c.2) ∨ (ram_page r ∧ r ∉ c.2)) ∧
  ∀ pa, pa ∈ c.2 → returns (kfree pa) c.1 (λ _ _ _, True).
Proof.
  intros Hk Hf Hm Hi Hr. pose proof (kinit_run s0 Hk Hf Hm) as H.
  unfold returns in H. rewrite Hi in H. destruct H as [l0 H].
  apply partition_reachable in Hr as (l & Hinv & Hpart & Hdis); [|by eapply partition_init].
  split.
  - destruct l as [|p l].
    + eapply returns_done; [by apply kalloc_empty|]. left. split; [done|].
      intros q [Hq|Hq]%Hpart; [by apply not_elem_of_nil in Hq|done].
    + eapply returns_done; [by eapply kalloc_run|]. right. split; [|apply Hdis; by left].
      apply Hpart. left. by left.
  - intros pa Hpa. eapply returns_done; [apply kfree_run, Hpart; by right|done].
Qed.

(** A page that is freed is the next one allocated: [kfree] followed by
    [kalloc] returns the same page and leaves the free list as it was, with
    both calls of the allocator's lock paired. *)
Theorem kfree_kalloc pa s l :
  kmem_inv s l → ram_page pa → pa ∉ l →
  ∃ s', (kfree pa;; kalloc) s =
          Done pa s' [EvAcquire LkKmem; EvRelease LkKmem; EvAcquire LkKmem; EvRelease LkKmem] ∧
        kmem_inv s' l ∧ same_but pa (mem s) (mem s').
Proof.
  intros Hinv Hpa Hl. exists (kalloc_result pa (kfree_result pa s)).
  pose proof (kfree_inv pa s l Hpa Hl Hinv) as Hinv'. split; [|split].
  - rewrite (bind_done _ _ _ _ _ _ (kfree_run pa s Hpa)).
    by rewrite (kalloc_run pa l _ Hinv').
  - by apply kalloc_inv.
  - intros x Hx. rewrite (kalloc_same_but pa _ x Hx). by apply kfree_same_but.
Qed.

End kalloc.

(** A small machine: two pages of RAM after the kernel. *)
Definition small_end : Z := PHYSTOP - 2 * PGSIZE.

Lemma kalloc_fresh_witness :
  ∃ s1 t, kinit small_end (Kmem 0 ∅) = Done tt s1 t ∧
    returns kalloc s1 (λ r _ _, r = 0 ∨ ram_page small_end r).
Proof.
  destruct (returns_inv _ _ _ (kinit_run small_end ltac:(done) (Kmem 0 ∅) ltac:(done) eq_refl
    mem_ok_empty)) as ([] & s1 & t & Hr & _).
  exists s1, t. split; [done|].
  destruct (kalloc_fresh small_end ltac:(done) (Kmem 0 ∅) s1 t (s1, ∅) ltac:(done) eq_refl
    mem_ok_empty Hr (rtc_refl _ _)) as [H _].
  apply (returns_mono _ _ _ _ H). intros r _ _ [[? _]|[? _]]; [by left|by right].
Defined.

Lemma kfree_kalloc_witness :
  kmem_inv small_end (Kmem 0 ∅) [] ∧
  ∃ s', (kfree small_end small_end;; kalloc) (Kmem 0 ∅) =
    Done small_end s' [EvAcquire LkKmem; EvRelease LkKmem; EvAcquire LkKmem; EvRelease LkKmem].
Proof.
  assert (kmem_inv small_end (Kmem 0 ∅) []) as Hinv
    by (split; [constructor|constructor|constructor|exact mem_ok_empty]).
  split; [done|].
  destruct (kfree_kalloc small_end ltac:(done) small_end (Kmem 0 ∅) [] Hinv) as (s' & Hr & _).
  - by split.
  - apply not_elem_of_nil.
  - by exists s'.
Defined.

#[export] Hint Resolve kalloc_inv kfree_inv : xv6.
