(* ===== verification/Vm.v ===== *)
(** * Page tables and user memory, [kernel/vm.c]

    A page table is a tree of pages in physical memory, read and written
    through [ld64]/[st64]; a [pagetable_t] is the address of its root page
    and a [pte_t *] the address of an entry.  Loops carry fuel that the
    caller computes from the loop's bounds; VmTable and VmUser prove that it
    is enough. *)

From S2P Require Import Prelude Riscv Memory Kalloc.

(** [memmove] from a kernel object outside the modelled pages. *)
Definition copy_in_bytes (dst : Z) (src : list Z) : M kmem unit :=
  modify (λ s, set_mem (st_bytes (mem s) dst src) s).

(** [memmove] to a kernel object outside the modelled pages. *)
Definition copy_out_bytes (src n : Z) : M kmem (list Z) :=
  gets (λ s, ld_bytes (mem s) src (Z.to_nat n)).

Definition pte_valid (pte : Z) : bool := truthy (Z.land pte PTE_V).

Section vm.
  (** Symbols of the linker script and of trampoline.S. *)
  Variable kend etext trampoline : Z.

(** [for(int level = 2; level > 0; level--)], then the entry of level 0. *)
Fixpoint walk_loop (level : nat) (pagetable va : Z) (alloc : bool) : M kmem Z :=
  match level with
  | O => mret (pagetable + 8 * PX 0 va)
  | S level' =>
      let pte := pagetable + 8 * PX (Z.of_nat level) va in
      v ← load64 pte;
      if pte_valid v then walk_loop level' (PTE2PA v) va alloc
      else if negb alloc then mret 0
      else
        pagetable ← kalloc;
        if pagetable =? 0 then mret 0
        else
          do_memset pagetable 0 PGSIZE;;
          store64 pte (Z.lor (PA2PTE pagetable) PTE_V);;
          walk_loop level' pagetable va alloc
  end.

Definition walk (pagetable va : Z) (alloc : bool) : M kmem Z :=
  if va >=? MAXVA then panic "walk" else walk_loop 2 pagetable va alloc.

Definition walkaddr (pagetable va : Z) : M kmem Z :=
  if va >=? MAXVA then mret 0
  else
    pte ← walk pagetable va false;
    if pte =? 0 then mret 0
    else
      v ← load64 pte;
      if Z.land v PTE_V =? 0 then mret 0
      else if Z.land v PTE_U =? 0 then mret 0
      else mret (PTE2PA v).

(** The [for(;;)] of [mappages]. *)
Fixpoint mappages_loop (fuel : nat) (pagetable a last pa perm : Z) : M kmem Z :=
  match fuel with
  | O => nofuel
  | S fuel =>
      pte ← walk pagetable a true;
      if pte =? 0 then mret (-1)
      else
        v ← load64 pte;
        if pte_valid v then panic "mappages: remap"
        else
          store64 pte (Z.lor (Z.lor (PA2PTE pa) perm) PTE_V);;
          if a =? last then mret 0
          else mappages_loop fuel pagetable (u64 (a + PGSIZE)) last (u64 (pa + PGSIZE)) perm
  end.

(** Iterations until [a == last], or until [walk] panics when [last < a]. *)
Definition mappages_fuel (a last : Z) : nat :=
  if a <=? last then S (Z.to_nat ((last - a) / PGSIZE))
  else S (Z.to_nat ((MAXVA - a) / PGSIZE)).

Definition mappages (pagetable va size pa perm : Z) : M kmem Z :=
  if size =? 0 then panic "mappages: size"
  else
    let a := PGROUNDDOWN va in
    let last := PGROUNDDOWN (u64 (va + size - 1)) in
    mappages_loop (mappages_fuel a last) pagetable a last pa perm.

Definition kvmmap (kpgtbl va pa sz perm : Z) : M kmem unit :=
  r ← mappages kpgtbl va sz pa perm;
  if negb (r =? 0) then panic "kvmmap" else mret tt.

(** [for(a = va; a < va + npages*PGSIZE; a += PGSIZE)] of [uvmunmap]. *)
Fixpoint uvmunmap_loop (fuel : nat) (pagetable a bound : Z) (do_free : bool) : M kmem unit :=
  match fuel with
  | O => if a <? bound then nofuel else mret tt
  | S fuel =>
      if a <? bound then
        pte ← walk pagetable a false;
        if pte =? 0 then panic "uvmunmap: walk"
        else
          v ← load64 pte;
          if Z.land v PTE_V =? 0 then panic "uvmunmap: not mapped"
          else if PTE_FLAGS v =? PTE_V then panic "uvmunmap: not a leaf"
          else
            (if do_free then kfree kend (PTE2PA v) else mret tt);;
            store64 pte 0;;
            uvmunmap_loop fuel pagetable (u64 (a + PGSIZE)) bound do_free
      else mret tt
  end.

Definition uvmunmap (pagetable va npages : Z) (do_free : bool) : M kmem unit :=
  if negb (va mod PGSIZE =? 0) then panic "uvmunmap: not aligned"
  else uvmunmap_loop (Z.to_nat npages) pagetable va (u64 (va + u64 (npages * PGSIZE))) do_free.

Definition uvmcreate : M kmem Z :=
  pagetable ← kalloc;
  if pagetable =? 0 then mret 0
  else do_memset pagetable 0 PGSIZE;; mret pagetable.

Definition uvmfirst (pagetable : Z) (src : list Z) (sz : Z) : M kmem unit :=
  if sz >=? PGSIZE then panic "uvmfirst: more than a page"
  else
    mem ← kalloc;
    if mem =? 0 then undef "memset through a null pointer"
    else
      do_memset mem 0 PGSIZE;;
      mappages pagetable 0 PGSIZE mem (Z.lor (Z.lor (Z.lor PTE_W PTE_R) PTE_X) PTE_U);;
      copy_in_bytes mem (take (Z.to_nat sz) src).

Definition uvmdealloc (pagetable oldsz newsz : Z) : M kmem Z :=
  if newsz >=? oldsz then mret oldsz
  else
    (if PGROUNDUP newsz <? PGROUNDUP oldsz then
       let npages := s32 ((PGROUNDUP oldsz - PGROUNDUP newsz) / PGSIZE) in
       uvmunmap pagetable (PGROUNDUP newsz) (u64 npages) true
     else mret tt);;
    mret newsz.

(** [for(a = oldsz; a < newsz; a += PGSIZE)] of [uvmalloc]. *)
Fixpoint uvmalloc_loop (fuel : nat) (pagetable a oldsz newsz xperm : Z) : M kmem Z :=
  match fuel with
  | O => nofuel
  | S fuel =>
      if a <? newsz then
        mem ← kalloc;
        if mem =? 0 then uvmdealloc pagetable a oldsz;; mret 0
        else
          do_memset mem 0 PGSIZE;;
          r ← mappages pagetable a PGSIZE mem (Z.lor (Z.lor PTE_R PTE_U) xperm);
          if negb (r =? 0) then
            kfree kend mem;;
            uvmdealloc pagetable a oldsz;;
            mret 0
          else uvmalloc_loop fuel pagetable (u64 (a + PGSIZE)) oldsz newsz xperm
      else mret newsz
  end.

Definition uvmalloc (pagetable oldsz newsz xperm : Z) : M kmem Z :=
  if newsz <? oldsz then mret oldsz
  else
    let oldsz := PGROUNDUP oldsz in
    uvmalloc_loop (S (S (Z.to_nat ((newsz - oldsz) / PGSIZE)))) pagetable oldsz oldsz newsz xperm.

(** The loop of [freewalk] over the entries from [i] on, with the recursive
    call for a lower-level table. *)
Fixpoint freewalk_loop (rec : Z → M kmem unit) (k : nat) (pagetable i : Z) : M kmem unit :=
  match k with
  | O => mret tt
  | S k =>
      pte ← load64 (pagetable + 8 * i);
      (if pte_valid pte && (Z.land pte (Z.lor (Z.lor PTE_R PTE_W) PTE_X) =? 0) then
         rec (PTE2PA pte);;
         store64 (pagetable + 8 * i) 0
       else if pte_valid pte then panic "freewalk: leaf"
       else mret tt);;
      freewalk_loop rec k pagetable (i + 1)
  end.

(** [depth] bounds the nesting of the recursion: three levels of tables. *)
Fixpoint freewalk (depth : nat) (pagetable : Z) : M kmem unit :=
  match depth with
  | O => nofuel
  | S depth => freewalk_loop (freewalk depth) 512 pagetable 0;; kfree kend pagetable
  end.

Definition uvmfree (pagetable sz : Z) : M kmem unit :=
  (if sz >? 0 then uvmunmap pagetable 0 (PGROUNDUP sz / PGSIZE) true else mret tt);;
  freewalk 3 pagetable.

(** [for(i = 0; i < sz; i += PGSIZE)] of [uvmcopy], with its [err:] exit. *)
Fixpoint uvmcopy_loop (fuel : nat) (old new i sz : Z) : M kmem Z :=
  match fuel with
  | O => nofuel
  | S fuel =>
      if i <? sz then
        pte ← walk old i false;
        if pte =? 0 then panic "uvmcopy: pte should exist"
        else
          v ← load64 pte;
          if Z.land v PTE_V =? 0 then panic "uvmcopy: page not present"
          else
            let pa := PTE2PA v in
            let flags := PTE_FLAGS v in
            mem ← kalloc;
            if mem =? 0 then uvmunmap new 0 (i / PGSIZE) true;; mret (-1)
            else
              do_memmove mem pa PGSIZE;;
              r ← mappages new i PGSIZE mem flags;
              if negb (r =? 0) then
                kfree kend mem;;
                uvmunmap new 0 (i / PGSIZE) true;;
                mret (-1)
              else uvmcopy_loop fuel old new (u64 (i + PGSIZE)) sz
      else mret 0
  end.

Definition uvmcopy (old new sz : Z) : M kmem Z :=
  uvmcopy_loop (S (S (Z.to_nat (sz / PGSIZE)))) old new 0 sz.

Definition uvmclear (pagetable va : Z) : M kmem unit :=
  pte ← walk pagetable va false;
  if pte =? 0 then panic "uvmclear"
  else
    v ← load64 pte;
    store64 pte (Z.land v (Z.lnot PTE_U)).

(** [while(len > 0)] of [copyout]; [src] is what is left of the source. *)
Fixpoint copyout_loop (fuel : nat) (pagetable dstva : Z) (src : list Z) (len : Z) : M kmem Z :=
  match fuel with
  | O => nofuel
  | S fuel =>
      if len >? 0 then
        let va0 := PGROUNDDOWN dstva in
        pa0 ← walkaddr pagetable va0;
        if pa0 =? 0 then mret (-1)
        else
          let n := PGSIZE - (dstva - va0) in
          let n := if n >? len then len else n in
          copy_in_bytes (pa0 + (dstva - va0)) (take (Z.to_nat n) src);;
          copyout_loop fuel pagetable (u64 (va0 + PGSIZE)) (drop (Z.to_nat n) src) (len - n)
      else mret 0
  end.

Definition copyout (pagetable dstva : Z) (src : list Z) (len : Z) : M kmem Z :=
  copyout_loop (S (S (Z.to_nat (len / PGSIZE + 1)))) pagetable dstva src len.

(** [while(len > 0)] of [copyin]: the return value and the bytes stored
    through [dst]. *)
Fixpoint copyin_loop (fuel : nat) (pagetable srcva len : Z) : M kmem (Z * list Z) :=
  match fuel with
  | O => nofuel
  | S fuel =>
      if len >? 0 then
        let va0 := PGROUNDDOWN srcva in
        pa0 ← walkaddr pagetable va0;
        if pa0 =? 0 then mret (-1, [])
        else
          let n := PGSIZE - (srcva - va0) in
          let n := if n >? len then len else n in
          bytes ← copy_out_bytes (pa0 + (srcva - va0)) n;
          '(r, rest) ← copyin_loop fuel pagetable (u64 (va0 + PGSIZE)) (len - n);
          mret (r, bytes ++ rest)
      else mret (0, [])
  end.

Definition copyin (pagetable srcva len : Z) : M kmem (Z * list Z) :=
  copyin_loop (S (S (Z.to_nat (len / PGSIZE + 1)))) pagetable srcva len.

(** The inner [while(n > 0)] of [copyinstr]: whether it met the NUL, and the
    bytes stored through [dst], the NUL included. *)
Fixpoint copyinstr_page (m : gmap Z Z) (n : nat) (p : Z) : bool * list Z :=
  match n with
  | O => (false, [])
  | S n =>
      if rd m p =? 0 then (true, [0])
      else let r := copyinstr_page m n (p + 1) in (r.1, rd m p :: r.2)
  end.

(** [while(got_null == 0 && max > 0)] of [copyinstr]. *)
Fixpoint copyinstr_loop (fuel : nat) (pagetable srcva max : Z) : M kmem (Z * list Z) :=
  match fuel with
  | O => nofuel
  | S fuel =>
      if max >? 0 then
        let va0 := PGROUNDDOWN srcva in
        pa0 ← walkaddr pagetable va0;
        if pa0 =? 0 then mret (-1, [])
        else
          let n := PGSIZE - (srcva - va0) in
          let n := if n >? max then max else n in
          '(got_null, bytes) ←
            gets (λ s, copyinstr_page (mem s) (Z.to_nat n) (pa0 + (srcva - va0)));
          if (got_null : bool) then mret (0, bytes)
          else
            '(r, rest) ← copyinstr_loop fuel pagetable (u64 (va0 + PGSIZE)) (max - n);
            mret (r, bytes ++ rest)
      else mret (-1, [])
  end.

Definition copyinstr (pagetable srcva max : Z) : M kmem (Z * list Z) :=
  copyinstr_loop (S (S (Z.to_nat (max / PGSIZE + 1)))) pagetable srcva max.

(** ** The kernel's own page table *)

(** [proc_mapstacks] of proc.c, from process [p] on. *)
Fixpoint proc_mapstacks_loop (k : nat) (kpgtbl p : Z) : M kmem unit :=
  match k with
  | O => mret tt
  | S k =>
      pa ← kalloc;
      if pa =? 0 then panic "kalloc"
      else
        kvmmap kpgtbl (KSTACK p) pa PGSIZE (Z.lor PTE_R PTE_W);;
        proc_mapstacks_loop k kpgtbl (p + 1)
  end.

Definition proc_mapstacks (kpgtbl : Z) : M kmem unit :=
  proc_mapstacks_loop (Z.to_nat NPROC) kpgtbl 0.

Definition kvmmake : M kmem Z :=
  kpgtbl ← kalloc;
  if kpgtbl =? 0 then undef "memset through a null pointer"
  else
    do_memset kpgtbl 0 PGSIZE;;
    kvmmap kpgtbl UART0 UART0 PGSIZE (Z.lor PTE_R PTE_W);;
    kvmmap kpgtbl VIRTIO0 VIRTIO0 PGSIZE (Z.lor PTE_R PTE_W);;
    kvmmap kpgtbl PLIC PLIC 0x400000 (Z.lor PTE_R PTE_W);;
    kvmmap kpgtbl KERNBASE KERNBASE (u64 (etext - KERNBASE)) (Z.lor PTE_R PTE_X);;
    kvmmap kpgtbl etext etext (u64 (PHYSTOP - etext)) (Z.lor PTE_R PTE_W);;
    kvmmap kpgtbl TRAMPOLINE trampoline PGSIZE (Z.lor PTE_R PTE_X);;
    proc_mapstacks kpgtbl;;
    mret kpgtbl.
End vm.
