(* ===== verification/VmTable.v ===== *)
(** * The page-table tree

    A ghost map [G] sends every page of a table to its path, the list of
    indices that leads to it from the root; [pt_ok] says that the entries in
    memory agree with [G].  [leaf] is the map from virtual pages to leaf
    entries that the tree denotes.  The theorems of this file show that
    [walk], [mappages] and [uvmunmap] act on [leaf] as a finite map, and that
    the tree stays well formed and disjoint from the free list. *)

From S2P Require Import Prelude Riscv Memory Kalloc Vm.

Definition pte_at (m : gmap Z Z) (p i : Z) : Z := ld64 m (p + 8 * i).

(** The address [walk] finds when it may not allocate. *)
Fixpoint pte_addr (m : gmap Z Z) (level : nat) (pagetable va : Z) : option Z :=
  match level with
  | O => Some (pagetable + 8 * PX 0 va)
  | S level' =>
      let v := pte_at m pagetable (PX (Z.of_nat level) va) in
      if pte_valid v then pte_addr m level' (PTE2PA v) va else None
  end.

(** The leaf entry of [va]; 0, an invalid entry, when a table is missing. *)
Definition leaf_from (m : gmap Z Z) (level : nat) (pagetable va : Z) : Z :=
  match pte_addr m level pagetable va with Some a => ld64 m a | None => 0 end.
Definition leaf (m : gmap Z Z) (root va : Z) : Z := leaf_from m 2 root va.

(** The indices a walk uses below [level]. *)
Fixpoint idxs (level : nat) (va : Z) : list Z :=
  match level with
  | O => []
  | S level' => PX (Z.of_nat level) va :: idxs level' va
  end.

(** ** Entries *)

Lemma entry_apart p q i j :
  p mod PGSIZE = 0 → q mod PGSIZE = 0 → 0 ≤ i < 512 → 0 ≤ j < 512 → (p, i) ≠ (q, j) →
  p + 8 * i + 8 ≤ q + 8 * j ∨ q + 8 * j + 8 ≤ p + 8 * i.
Proof.
  intros Hp Hq ?? Hne. destruct (decide (p = q)) as [->|Hpq].
  - assert (i ≠ j) by congruence. lia.
  - destruct (pages_apart p q Hp Hq Hpq); lia.
Qed.

Lemma entry_in_page p i x : 0 ≤ i < 512 → p + 8 * i ≤ x < p + 8 * i + 8 → in_page p x.
Proof. unfold in_page. lia. Qed.

Lemma land_flags v mask : Z.land 0x3FF mask = mask → Z.land v mask = Z.land (PTE_FLAGS v) mask.
Proof. intros H. unfold PTE_FLAGS. rewrite <-H at 1. by rewrite Z.land_assoc. Qed.

(** The entry [PA2PTE(pa) | fl]. *)
Lemma mkpte_spec pa fl :
  is_pa pa → 0 ≤ fl < 2 ^ 10 →
  let v := Z.lor (PA2PTE pa) fl in
  PTE2PA v = pa ∧ PTE_FLAGS v = fl ∧ 0 ≤ v < 2 ^ 64.
Proof.
  intros Hpa Hfl v. split_and!.
  - by apply PTE2PA_PA2PTE.
  - by apply PTE_FLAGS_PA2PTE.
  - subst v. rewrite PA2PTE_lor, PA2PTE_eq by done. destruct Hpa as [? _].
    pose proof (Z.div_pos pa PGSIZE). lia.
  - subst v. rewrite PA2PTE_lor, PA2PTE_eq by done. destruct Hpa as [? _].
    pose proof (Z.div_lt_upper_bound pa PGSIZE (2 ^ 44)). lia.
Qed.

Lemma pte_valid_flags v : pte_valid v = truthy (Z.land (PTE_FLAGS v) PTE_V).
Proof. unfold pte_valid. by rewrite land_flags. Qed.

(** [leaf] depends on the page of the address only. *)
Lemma leaf_page m root x y : PGROUNDDOWN x = PGROUNDDOWN y → leaf m root x = leaf m root y.
Proof.
  intros Hpg. unfold leaf, leaf_from. cbn [pte_addr].
  rewrite <-!(PX_PGROUNDDOWN _ x), <-!(PX_PGROUNDDOWN _ y), Hpg by lia. done.
Qed.

Section tables.
  Variable kend : Z.
  Hypothesis Hkend : 0 < kend.
  Implicit Types (m : gmap Z Z) (G : gmap Z (list Z)) (s : kmem) (l path : list Z).

Lemma ram_page_is_pa p : ram_page kend p → is_pa p.
Proof. intros [? ?]. split; [lia|done]. Qed.

(** ** The invariant of one table *)

Record pt_ok (m : gmap Z Z) (root : Z) (G : gmap Z (list Z)) : Prop := {
  pt_root : G !! root = Some [];
  pt_root_only p : G !! p = Some [] → p = root;
  pt_page p path : G !! p = Some path → ram_page kend p ∧ (length path ≤ 2)%nat;
  (** a valid entry of an inner table points to a table of the next level *)
  pt_down p path i :
    G !! p = Some path → (length path < 2)%nat → 0 ≤ i < 512 →
    pte_valid (pte_at m p i) = true →
    G !! PTE2PA (pte_at m p i) = Some (path ++ [i]) ∧ PTE_FLAGS (pte_at m p i) = PTE_V;
  (** every table but the root is reached from its parent *)
  pt_up p path i :
    G !! p = Some (path ++ [i]) →
    0 ≤ i < 512 ∧ ∃ q, G !! q = Some path ∧
      pte_valid (pte_at m q i) = true ∧ PTE2PA (pte_at m q i) = p
}.

Lemma pt_aligned m root G p path : pt_ok m root G → G !! p = Some path → p mod PGSIZE = 0.
Proof. intros H Hp. by destruct (pt_page _ _ _ H _ _ Hp) as [[? _] _]. Qed.

(** A path names one page. *)
Lemma pt_path_inj m root G path p q :
  pt_ok m root G → G !! p = Some path → G !! q = Some path → p = q.
Proof.
  intros Hok. revert p q. induction path as [|i path IH] using rev_ind; intros p q Hp Hq.
  - apply (pt_root_only _ _ _ Hok) in Hp, Hq. congruence.
  - apply (pt_up _ _ _ Hok) in Hp as (_ & p' & Hp' & _ & <-).
    apply (pt_up _ _ _ Hok) in Hq as (_ & q' & Hq' & _ & <-).
    by rewrite (IH p' q' Hp' Hq').
Qed.

(** The tables of a walk. *)
Lemma pte_addr_inv m root G level p path va a :
  pt_ok m root G → G !! p = Some path → (length path + level = 2)%nat →
  pte_addr m level p va = Some a →
  ∃ p0, G !! p0 = Some (path ++ idxs level va) ∧ a = p0 + 8 * PX 0 va.
Proof.
  intros Hok. revert p path. induction level as [|level IH]; intros p path Hp Hl; simpl.
  - intros [= <-]. exists p. by rewrite app_nil_r.
  - case_if; [|done]. destruct (pt_down _ _ _ Hok p path _ Hp ltac:(lia)
      (PX_range (Z.of_nat (S level)) va ltac:(lia)) E) as [Hq _].
    intros Ha. destruct (IH _ _ Hq) as (p0 & Hp0 & ->); [rewrite length_app; simpl; lia|done|].
    exists p0. by rewrite <-app_assoc in Hp0.
Qed.

Lemma pte_addr_nonzero m root G va a :
  pt_ok m root G → pte_addr m 2 root va = Some a → a ≠ 0.
Proof.
  intros Hok Ha. destruct (pte_addr_inv _ _ _ _ _ _ _ _ Hok (pt_root _ _ _ Hok) eq_refl Ha)
    as (p0 & Hp0 & ->). destruct (pt_page _ _ _ Hok _ _ Hp0) as [Hr _].
  pose proof (ram_page_range _ p0 Hkend Hr). pose proof (PX_range 0 va ltac:(lia)). lia.
Qed.

(** ** Walks without allocation *)

Lemma walk_loop_noalloc level p va s :
  walk_loop level p va false s = Done (default 0 (pte_addr (mem s) level p va)) s [].
Proof.
  revert p. induction level as [|level IH]; intros p; [done|].
  cbn [walk_loop pte_addr]. unfold mbind, M_bind, load64, gets. fold (pte_at (mem s) p (PX (Z.of_nat (S level)) va)).
  rewrite after_nil. case_if; [apply IH|done].
Qed.

Lemma walk_noalloc root va s :
  va < MAXVA → walk root va false s = Done (default 0 (pte_addr (mem s) 2 root va)) s [].
Proof. intros. unfold walk. if_false. apply walk_loop_noalloc. Qed.

Lemma walk_big root va alloc s :
  MAXVA ≤ va → walk root va alloc s = Panicked "walk" s [].
Proof. intros. unfold walk. by if_true. Qed.

(** ** Changing entries *)

(** [m'] has the entries of [m] in the inner tables. *)
Lemma pte_addr_ext m m' root G level p path va :
  pt_ok m root G →
  (∀ p path i, G !! p = Some path → (length path < 2)%nat → 0 ≤ i < 512 →
     pte_at m' p i = pte_at m p i) →
  G !! p = Some path → (length path + level = 2)%nat →
  pte_addr m' level p va = pte_addr m level p va.
Proof.
  intros Hok He. revert p path. induction level as [|level IH]; intros p path Hp Hl; [done|].
  cbn [pte_addr]. pose proof (PX_range (Z.of_nat (S level)) va ltac:(lia)) as Hi.
  rewrite (He p path) by (done || lia). case_if; [|done].
  destruct (pt_down _ _ _ Hok p path _ Hp ltac:(lia) Hi E) as [Hq _].
  apply (IH _ _ Hq). rewrite length_app. simpl. lia.
Qed.

Lemma pt_ok_ext m m' root G :
  (∀ p path i, G !! p = Some path → (length path < 2)%nat → 0 ≤ i < 512 →
     pte_at m' p i = pte_at m p i) →
  pt_ok m root G → pt_ok m' root G.
Proof.
  intros He Hok. destruct Hok as [Hr Hro Hpg Hd Hu] eqn:Heq. split; try done.
  - intros p path i Hp Hl Hi. rewrite (He p path) by done. by apply Hd.
  - intros p path i Hp. destruct (Hu p path i Hp) as (Hi & q & Hq & Hv & Hpa). split; [done|].
    destruct (Hpg _ _ Hp) as [_ Hl]. rewrite length_app in Hl. simpl in Hl.
    exists q. rewrite (He q path) by (done || lia). done.
Qed.

(** Storing a leaf entry of [va0] changes [leaf] at the page of [va0] only. *)
Lemma store_leaf m root G va0 a v :
  pt_ok m root G → 0 ≤ va0 < MAXVA → pte_addr m 2 root va0 = Some a → 0 ≤ v < 2 ^ 64 →
  pt_ok (st64 m a v) root G ∧
  (∀ va, 0 ≤ va < 2 ^ 39 →
     pte_addr (st64 m a v) 2 root va = pte_addr m 2 root va ∧
     leaf (st64 m a v) root va =
       if PGROUNDDOWN va =? PGROUNDDOWN va0 then v else leaf m root va).
Proof.
  intros Hok Hva0 Ha Hv.
  destruct (pte_addr_inv _ _ _ _ _ _ _ _ Hok (pt_root _ _ _ Hok) eq_refl Ha) as (p0 & Hp0 & ->).
  pose proof (PX_range 0 va0 ltac:(lia)) as Hi0.
  assert (∀ p path i, G !! p = Some path → (length path < 2)%nat → 0 ≤ i < 512 →
    pte_at (st64 m (p0 + 8 * PX 0 va0) v) p i = pte_at m p i) as He.
  { intros p path i Hp Hl Hi. unfold pte_at. apply ld64_st64_other.
    apply entry_apart; try done; [by eapply pt_aligned|by eapply pt_aligned|].
    intros [= -> _]. rewrite Hp in Hp0. injection Hp0 as ->. simpl in Hl. lia. }
  split; [by apply (pt_ok_ext m)|]. intros va Hva.
  assert (pte_addr (st64 m (p0 + 8 * PX 0 va0) v) 2 root va = pte_addr m 2 root va) as Heq.
  { apply (pte_addr_ext _ _ root G 2 root []); try done. by apply (pt_root m). }
  split; [done|]. unfold leaf, leaf_from. rewrite Heq.
  destruct (Z.eqb_spec (PGROUNDDOWN va) (PGROUNDDOWN va0)) as [Hpg|Hpg].
  - assert (pte_addr m 2 root va = pte_addr m 2 root va0) as ->.
    { cbn [pte_addr]. rewrite <-!(PX_PGROUNDDOWN _ va), <-!(PX_PGROUNDDOWN _ va0), Hpg by lia. done. }
    rewrite Ha. by apply ld64_st64_same.
  - destruct (pte_addr m 2 root va) as [b|] eqn:Hb; [|done].
    destruct (pte_addr_inv _ _ _ _ _ _ _ _ Hok (pt_root _ _ _ Hok) eq_refl Hb) as (p1 & Hp1 & ->).
    apply ld64_st64_other. apply entry_apart; try done; try by eapply pt_aligned.
    + apply PX_range. lia.
    + intros [= -> H0]. rewrite Hp0 in Hp1. injection Hp1 as H1 H2.
      apply Hpg, PX_inj; (done || lia).
Qed.

(** ** Adding a table *)

(** [m'] is [m] with the zeroed page [q] hung below entry [i] of [p]. *)
Record hangs (m m' : gmap Z Z) (G : gmap Z (list Z)) (p i q : Z) : Prop := {
  hang_entry : pte_at m' p i = Z.lor (PA2PTE q) PTE_V;
  hang_zero j : 0 ≤ j < 512 → pte_at m' q j = 0;
  hang_other p' path j :
    G !! p' = Some path → 0 ≤ j < 512 → (p', j) ≠ (p, i) → pte_at m' p' j = pte_at m p' j
}.

Lemma hang_pte q :
  ram_page kend q →
  pte_valid (Z.lor (PA2PTE q) PTE_V) = true ∧ PTE2PA (Z.lor (PA2PTE q) PTE_V) = q ∧
  PTE_FLAGS (Z.lor (PA2PTE q) PTE_V) = PTE_V.
Proof.
  intros Hq%ram_page_is_pa. destruct (mkpte_spec q PTE_V Hq) as (Hpa & Hfl & _); [done|].
  split_and!; try done. by rewrite pte_valid_flags, Hfl.
Qed.

Section hang.
  Variable (m m' : gmap Z Z) (root : Z) (G : gmap Z (list Z)) (p i q : Z) (path : list Z).
  Hypotheses (Hok : pt_ok m root G) (Hp : G !! p = Some path) (Hlen : (length path < 2)%nat)
    (Hi : 0 ≤ i < 512) (Hinv : pte_valid (pte_at m p i) = false)
    (Hq : ram_page kend q) (HqG : G !! q = None) (Hh : hangs m m' G p i q).

Lemma hang_pt_ok : pt_ok m' root (<[q := path ++ [i]]> G).
Proof.
  destruct (hang_pte q Hq) as (Hv & Hpa & Hfl).
  assert (∀ p' path', G !! p' = Some path' → p' ≠ q) as Hne by (intros ?? ? ->; congruence).
  split.
  - rewrite lookup_insert_ne; [by apply (pt_root m)|].
    intros ->. by rewrite (pt_root _ _ _ Hok) in HqG.
  - intros p'. destruct (decide (p' = q)) as [->|?].
    + rewrite lookup_insert_eq. intros [= ?]. by destruct path.
    + rewrite lookup_insert_ne by done. apply (pt_root_only _ _ _ Hok).
  - intros p' path'. destruct (decide (p' = q)) as [->|?].
    + rewrite lookup_insert_eq. intros [= <-]. split; [done|]. rewrite length_app. simpl. lia.
    + rewrite lookup_insert_ne by done. apply (pt_page _ _ _ Hok).
  - intros p' path' j. destruct (decide (p' = q)) as [->|?].
    + intros _ _ Hj. by rewrite (hang_zero _ _ _ _ _ _ Hh j Hj).
    + rewrite lookup_insert_ne by done. intros Hp' Hl Hj.
      destruct (decide ((p', j) = (p, i))) as [[= -> ->]|Hji].
      * rewrite (hang_entry _ _ _ _ _ _ Hh), Hpa, Hfl, lookup_insert_eq. intros _.
        rewrite Hp in Hp'. by injection Hp' as ->.
      * rewrite (hang_other _ _ _ _ _ _ Hh p' path' j) by done. intros Hvj.
        destruct (pt_down _ _ _ Hok p' path' j Hp' Hl Hj Hvj) as [Hd ?].
        rewrite lookup_insert_ne by (apply not_eq_sym; by eapply Hne). done.
  - intros p' path' j. destruct (decide (p' = q)) as [->|?].
    + rewrite lookup_insert_eq. intros [= Hpp]. apply app_inj_tail in Hpp as [<- <-].
      split; [done|]. exists p. rewrite lookup_insert_ne by (apply not_eq_sym; by eapply Hne).
      by rewrite (hang_entry _ _ _ _ _ _ Hh).
    + rewrite lookup_insert_ne by done. intros Hp'.
      destruct (pt_up _ _ _ Hok p' path' j Hp') as (Hj & r & Hr & Hvr & Hrp).
      split; [done|]. exists r. rewrite lookup_insert_ne by (apply not_eq_sym; by eapply Hne).
      rewrite (hang_other _ _ _ _ _ _ Hh r path' j); try done.
      intros [= -> ->]. congruence.
Qed.

Lemma hang_leaf_zero level va : (level < 2)%nat → leaf_from m' level q va = 0.
Proof.
  intros Hl. unfold leaf_from. destruct level as [|level]; cbn [pte_addr].
  - apply (hang_zero _ _ _ _ _ _ Hh). apply PX_range. lia.
  - rewrite (hang_zero _ _ _ _ _ _ Hh) by (apply PX_range; lia). done.
Qed.

Lemma hang_leaf_from level p' path' va :
  G !! p' = Some path' → (length path' + level = 2)%nat →
  leaf_from m' level p' va = leaf_from m level p' va.
Proof.
  revert p' path'. induction level as [|level IH]; intros p' path' Hp' Hl;
    unfold leaf_from; cbn [pte_addr].
  - apply (hang_other _ _ _ _ _ _ Hh p' path'); [done|apply PX_range; lia|].
    intros [= -> _]. rewrite Hp in Hp'. injection Hp' as ->. lia.
  - pose proof (PX_range (Z.of_nat (S level)) va ltac:(lia)) as Hj.
    destruct (hang_pte q Hq) as (Hv & Hpa & _).
    destruct (decide ((p', PX (Z.of_nat (S level)) va) = (p, i))) as [[= -> Hje]|Hji].
    + rewrite Hje, (hang_entry _ _ _ _ _ _ Hh), Hinv, Hv, Hpa.
      apply (hang_leaf_zero level va). rewrite Hp in Hp'. injection Hp' as ->. lia.
    + rewrite (hang_other _ _ _ _ _ _ Hh p' path') by done. case_if; [|done].
      destruct (pt_down _ _ _ Hok p' path' _ Hp' ltac:(lia) Hj E) as [Hd _].
      apply (IH _ _ Hd). rewrite length_app. simpl. lia.
Qed.
End hang.

(** Entries of the tables are kept by a change that stays outside them. *)
Lemma pte_at_ext m m' p i :
  0 ≤ i < 512 → (∀ x, in_page p x → rd m' x = rd m x) → pte_at m' p i = pte_at m p i.
Proof.
  intros Hi H. unfold pte_at. apply ld64_ext. intros x Hx. apply H. by apply (entry_in_page p i).
Qed.

(** What [walk] does to memory when it adds the table [q]. *)
Lemma hang_memory m m0 root G p i q :
  pt_ok m root G → is_Some (G !! p) → 0 ≤ i < 512 → ram_page kend q → G !! q = None →
  same_but q m m0 →
  hangs m (st64 (memset m0 q 0 PGSIZE) (p + 8 * i) (Z.lor (PA2PTE q) PTE_V)) G p i q.
Proof.
  intros Hok [path Hp] Hi Hq HqG Hs. pose proof (pt_aligned _ _ _ _ _ Hok Hp) as Hal.
  destruct (mkpte_spec q PTE_V (ram_page_is_pa q Hq)) as (_ & _ & Hr); [done|].
  assert (∀ p' path', G !! p' = Some path' → p' ≠ q) as Hne by (intros ?? ? ->; congruence).
  split.
  - by apply ld64_st64_same.
  - intros j Hj. unfold pte_at. rewrite ld64_st64_other.
    + apply ld64_memset_zero; lia.
    + apply entry_apart; try done; [by destruct Hq|]. intros [= -> _]. by eapply Hne.
  - intros p' path' j Hp' Hj Hpj. pose proof (pt_aligned _ _ _ _ _ Hok Hp') as Hal'.
    unfold pte_at. rewrite ld64_st64_other by (by apply entry_apart).
    apply (pte_at_ext m); [done|]. intros x Hx.
    assert (¬ in_page q x) as Hqx.
    { intros Hqx. apply (Hne p' path' Hp'). destruct Hq. by apply (pages_disjoint p' q x). }
    unfold in_page in Hqx. rewrite rd_memset_out by lia. by apply Hs.
Qed.

(** ** The table and the allocator together *)

Record vm_ok (s : kmem) (root : Z) (G : gmap Z (list Z)) (l : list Z) : Prop := {
  vm_kmem : kmem_inv kend s l;
  vm_pt : pt_ok (mem s) root G;
  vm_free p : p ∈ l → G !! p = None
}.

(** [s'] is [s] after the table grew by pages taken from the free list: no
    translation changed, and no byte outside the tables. *)
Record grows (root : Z) (s s' : kmem) (G G' : gmap Z (list Z)) (l l' : list Z) : Prop := {
  gr_ok : vm_ok s' root G' l';
  gr_sub : G ⊆ G';
  gr_used : ∃ used, l = used ++ l' ∧ ∀ p, p ∈ dom G' ↔ p ∈ dom G ∨ p ∈ used;
  gr_leaf va : leaf (mem s') root va = leaf (mem s) root va;
  gr_entry p path i :
    G !! p = Some path → 0 ≤ i < 512 → pte_valid (pte_at (mem s) p i) = true →
    pte_at (mem s') p i = pte_at (mem s) p i;
  gr_same x : (∀ p, p ∈ dom G' → ¬ in_page p x) → rd (mem s') x = rd (mem s) x
}.

Lemma grows_refl root s G l : vm_ok s root G l → grows root s s G G l l.
Proof.
  intros H. split; try done. exists []. split; [done|].
  intros p. split; [by left|]. intros [?|?%not_elem_of_nil]; done.
Qed.

Lemma grows_trans root s1 s2 s3 G1 G2 G3 l1 l2 l3 :
  grows root s1 s2 G1 G2 l1 l2 → grows root s2 s3 G2 G3 l2 l3 → grows root s1 s3 G1 G3 l1 l3.
Proof.
  intros [Hok1 Hsub1 (u1 & Hl1 & Hu1) Hleaf1 He1 Hs1] [Hok2 Hsub2 (u2 & Hl2 & Hu2) Hleaf2 He2 Hs2].
  split; try done.
  - by etrans.
  - exists (u1 ++ u2). split; [by rewrite Hl1, Hl2, app_assoc|].
    intros p. rewrite Hu2, Hu1, elem_of_app. tauto.
  - intros. by rewrite Hleaf2, Hleaf1.
  - intros p path i Hp Hi Hv. rewrite (He2 p path i); [by eapply He1|by eapply lookup_weaken|done|].
    by rewrite (He1 p path i).
  - intros x Hx. rewrite Hs2 by done. apply Hs1. intros p Hp. apply Hx. apply Hu2. by left.
Qed.

(** One step of an allocating walk. *)
Lemma grow_one root s G p path i q l :
  vm_ok s root G (q :: l) → G !! p = Some path → (length path < 2)%nat → 0 ≤ i < 512 →
  pte_valid (pte_at (mem s) p i) = false →
  let s' := Kmem (ld64 (mem s) q)
    (st64 (memset (memset (mem s) q 5 PGSIZE) q 0 PGSIZE) (p + 8 * i) (Z.lor (PA2PTE q) PTE_V)) in
  grows root s s' G (<[q := path ++ [i]]> G) (q :: l) l ∧
  pte_at (mem s') p i = Z.lor (PA2PTE q) PTE_V.
Proof.
  intros [Hk Hpt Hfree] Hp Hlen Hi Hinv s'.
  assert (ram_page kend q) as Hq by (pose proof (inv_pages _ _ _ Hk) as H; by inversion H).
  assert (G !! q = None) as HqG by (apply Hfree; by left).
  pose proof (hang_memory (mem s) (mem (kalloc_result q s)) root G p i q Hpt ltac:(by eexists)
    Hi Hq HqG (kalloc_same_but q s)) as Hh. change (hangs (mem s) (mem s') G p i q) in Hh.
  pose proof (pt_aligned _ _ _ _ _ Hpt Hp) as Hal.
  assert (∀ x, ¬ in_page p x → ¬ in_page q x → rd (mem s') x = rd (mem s) x) as Hout.
  { intros x Hpx Hqx. unfold in_page in *. simpl. rewrite rd_st64_out by lia.
    rewrite !rd_memset_out by lia. done. }
  split; [|by apply (hang_entry _ _ _ _ _ _ Hh)].
  pose proof (kalloc_inv _ q l s Hk) as [Hc Hn Hpg Hm].
  pose proof (inv_nodup _ _ _ Hk) as [Hql _]%NoDup_cons.
  split.
  - split.
    + split; [|exact Hn|exact Hpg|apply mem_ok_st64, mem_ok_memset, Hm]. revert Hc. apply chain_ext. intros r Hr.
      assert (r mod PGSIZE = 0) as Hral.
      { rewrite Forall_forall in Hpg. by destruct (Hpg r Hr). }
      assert (r ≠ q) by (intros ->; done).
      assert (r ≠ p). { intros ->. rewrite (Hfree p) in Hp by (by right). done. }
      simpl. apply ld64_ext. intros x Hx.
      assert (in_page r x) by (unfold in_page; lia).
      assert (¬ in_page p x) as Hpx by (intros ?; by apply (pages_disjoint r p x) in Hral).
      assert (¬ in_page q x) as Hqx
        by (intros ?; destruct Hq; by apply (pages_disjoint r q x) in Hral).
      etrans; [by apply Hout|]. symmetry. by apply (kalloc_same_but q s).
    + by apply (hang_pt_ok (mem s) (mem s') root G p i q path).
    + intros r Hr. rewrite lookup_insert_ne by (intros ->; done). apply Hfree. by right.
  - by apply insert_subseteq.
  - exists [q]. split; [done|]. intros r. rewrite dom_insert, elem_of_union, elem_of_singleton, list_elem_of_singleton. tauto.
  - intros va. unfold leaf.
    apply (hang_leaf_from (mem s) (mem s') root G p i q path) with (path' := []); try done.
    by apply (pt_root (mem s)).
  - intros p' path' j Hp' Hj Hv. apply (hang_other _ _ _ _ _ _ Hh p' path'); try done.
    intros [= -> ->]. congruence.
  - intros x Hx. apply Hout; apply Hx; rewrite dom_insert.
    + apply elem_of_union_r, elem_of_dom. by eexists.
    + apply elem_of_union_l, elem_of_singleton. done.
Qed.

Lemma walk_loop_alloc root va level p path s G l :
  vm_ok s root G l → G !! p = Some path → (length path + level = 2)%nat →
  returns (walk_loop level p va true) s (λ a s' _, ∃ G' l',
    grows root s s' G G' l l' ∧
    ((a = 0 ∧ l' = []) ∨ pte_addr (mem s') level p va = Some a)).
Proof.
  revert p path s G l. induction level as [|level IH]; intros p path s G l Hok Hp Hl.
  - apply returns_ret. exists G, l. split; [by apply grows_refl|by right].
  - pose proof (PX_range (Z.of_nat (S level)) va ltac:(lia)) as Hi.
    set (i := PX (Z.of_nat (S level)) va) in *.
    cbn [walk_loop]. fold i. apply returns_bind. unfold load64, gets, returns at 1.
    fold (pte_at (mem s) p i). destruct (pte_valid (pte_at (mem s) p i)) eqn:Hv.
    + destruct (pt_down _ _ _ (vm_pt _ _ _ _ Hok) p path i Hp ltac:(lia) Hi Hv) as [Hd _].
      eapply returns_mono; [apply (IH _ _ s G l Hok Hd); rewrite length_app; simpl; lia|].
      intros a s' t (G' & l' & Hg & Ha). exists G', l'. split; [done|].
      destruct Ha as [?|Ha]; [by left|right]. cbn [pte_addr]. fold i.
      by rewrite (gr_entry _ _ _ _ _ _ _ Hg p path), Hv.
    + cbn [negb]. destruct l as [|q l].
      { call apply (kalloc_empty kend), (vm_kmem _ _ _ _ Hok).
        apply returns_ret. exists G, []. split; [by apply grows_refl|by left]. }
      call apply (kalloc_run kend q l), (vm_kmem _ _ _ _ Hok).
      assert (ram_page kend q) as Hq
        by (pose proof (inv_pages _ _ _ (vm_kmem _ _ _ _ Hok)) as H; by inversion H).
      pose proof (ram_page_range _ q Hkend Hq). if_false.
      destruct (grow_one root s G p path i q l Hok Hp ltac:(lia) Hi Hv) as [Hg He].
      call reflexivity. call reflexivity. eapply returns_mono.
      * refine (IH q (path ++ [i]) _ (<[q := path ++ [i]]> G) l (gr_ok _ _ _ _ _ _ _ Hg) _ _).
        -- by rewrite lookup_insert_eq.
        -- rewrite length_app. simpl. lia.
      * intros a s' t (G' & l' & Hg' & Ha). exists G', l'. split; [by eapply grows_trans|].
        destruct Ha as [?|Ha]; [by left|right]. cbn [pte_addr]. fold i.
        destruct (hang_pte q Hq) as (Hvq & Hpq & _).
        assert (pte_at (mem s') p i = Z.lor (PA2PTE q) PTE_V) as ->; [|by rewrite Hvq, Hpq].
        rewrite <-He. apply (gr_entry _ _ _ _ _ _ _ Hg' p path i); [|done|by rewrite He].
        eapply lookup_weaken; [done|]. apply (gr_sub _ _ _ _ _ _ _ Hg).
Qed.

(** [walk] with allocation: it returns, all translations are kept, and the
    result is the entry of [va] unless memory ran out. *)
Lemma walk_alloc root va s G l :
  vm_ok s root G l → 0 ≤ va < MAXVA →
  returns (walk root va true) s (λ a s' _, ∃ G' l',
    grows root s s' G G' l l' ∧
    ((a = 0 ∧ l' = []) ∨ (a ≠ 0 ∧ pte_addr (mem s') 2 root va = Some a))).
Proof.
  intros Hok Hva. unfold walk. if_false.
  eapply returns_mono; [apply (walk_loop_alloc root va 2 root [] s G l Hok);
    [apply (pt_root _ _ _ (vm_pt _ _ _ _ Hok))|done]|].
  intros a s' t (G' & l' & Hg & Ha). exists G', l'. split; [done|].
  destruct Ha as [?|Ha]; [by left|right]. split; [|done].
  eapply pte_addr_nonzero; [apply (vm_pt _ _ _ _ (gr_ok _ _ _ _ _ _ _ Hg))|done].
Qed.

(** ** Mapping pages *)

(** Like [grows], when translations may change. *)
Record evolves (root : Z) (s s' : kmem) (G G' : gmap Z (list Z)) (l l' : list Z) : Prop := {
  ev_ok : vm_ok s' root G' l';
  ev_sub : G ⊆ G';
  ev_used : ∃ used, l = used ++ l' ∧ ∀ p, p ∈ dom G' ↔ p ∈ dom G ∨ p ∈ used;
  ev_same x : (∀ p, p ∈ dom G' → ¬ in_page p x) → rd (mem s') x = rd (mem s) x
}.

Lemma grows_evolves root s s' G G' l l' :
  grows root s s' G G' l l' → evolves root s s' G G' l l'.
Proof. intros []. by split. Qed.

Lemma evolves_trans root s1 s2 s3 G1 G2 G3 l1 l2 l3 :
  evolves root s1 s2 G1 G2 l1 l2 → evolves root s2 s3 G2 G3 l2 l3 →
  evolves root s1 s3 G1 G3 l1 l3.
Proof.
  intros [Hok1 Hsub1 (u1 & Hl1 & Hu1) Hs1] [Hok2 Hsub2 (u2 & Hl2 & Hu2) Hs2].
  split; [done|by etrans| |].
  - exists (u1 ++ u2). split; [by rewrite Hl1, Hl2, app_assoc|].
    intros p. rewrite Hu2, Hu1, elem_of_app. tauto.
  - intros x Hx. rewrite Hs2 by done. apply Hs1. intros p Hp. apply Hx. apply Hu2. by left.
Qed.

(** Changing bytes of one table page keeps the free list. *)
Lemma kmem_inv_table s m' p l :
  kmem_inv kend s l → p ∉ l → p mod PGSIZE = 0 → mem_ok m' → same_but p (mem s) m' →
  kmem_inv kend (set_mem m' s) l.
Proof.
  intros [Hc Hn Hpg Hm] Hp Hal Hm' Hs. split; try done. simpl.
  apply (chain_ext_page (mem s) m' _ l p); try done.
  constructor; [done|by eapply ram_pages_aligned].
Qed.

Lemma store_leaf_evolves s root G l va0 a v :
  vm_ok s root G l → 0 ≤ va0 < MAXVA → pte_addr (mem s) 2 root va0 = Some a → 0 ≤ v < 2 ^ 64 →
  let s' := set_mem (st64 (mem s) a v) s in
  evolves root s s' G G l l ∧
  (∀ va, 0 ≤ va < 2 ^ 39 →
     leaf (mem s') root va = if PGROUNDDOWN va =? PGROUNDDOWN va0 then v else leaf (mem s) root va).
Proof.
  intros [Hk Hpt Hfree] Hva0 Ha Hv s'.
  destruct (pte_addr_inv _ _ _ _ _ _ _ _ Hpt (pt_root _ _ _ Hpt) eq_refl Ha) as (p0 & Hp0 & Ha0).
  pose proof (PX_range 0 va0 ltac:(lia)).
  assert (same_but p0 (mem s) (mem s')) as Hs.
  { intros x Hx. unfold in_page in Hx. apply rd_st64_out. lia. }
  destruct (store_leaf _ _ _ _ _ _ Hpt Hva0 Ha Hv) as [Hpt' Hleaf].
  split; [|intros va Hva; by apply Hleaf].
  split; [split|done| |]; try done.
  - apply (kmem_inv_table s (mem s') p0 l); try done.
    + intros Hin%Hfree. congruence.
    + by eapply pt_aligned.
    + apply mem_ok_st64, (inv_mem _ _ _ Hk).
  - exists []. split; [done|]. intros p. split; [by left|]. intros [?|?%not_elem_of_nil]; done.
  - intros x Hx. apply Hs, Hx, elem_of_dom. by eexists.
Qed.

(** The entry [mappages] writes. *)
Definition mkpte (pa perm : Z) : Z := Z.lor (Z.lor (PA2PTE pa) perm) PTE_V.

Lemma mkpte_eq pa perm : mkpte pa perm = Z.lor (PA2PTE pa) (Z.lor perm PTE_V).
Proof. unfold mkpte. by rewrite Z.lor_assoc. Qed.

Lemma lor_flags perm : 0 ≤ perm < 2 ^ 10 → 0 ≤ Z.lor perm PTE_V < 2 ^ 10.
Proof.
  intros. split; [apply Z.lor_nonneg; split; [lia|done]|].
  assert (Z.lor perm PTE_V = Z.lor perm PTE_V mod 2 ^ 10) as ->; [|apply Z.mod_pos_bound; lia].
  rewrite <-!Z.land_ones, Z.land_lor_distr_l by lia. rewrite !Z.land_ones by lia.
  by rewrite Z.mod_small.
Qed.

Lemma mkpte_facts pa perm :
  is_pa pa → 0 ≤ perm < 2 ^ 10 →
  PTE2PA (mkpte pa perm) = pa ∧ PTE_FLAGS (mkpte pa perm) = Z.lor perm PTE_V ∧
  0 ≤ mkpte pa perm < 2 ^ 64 ∧ pte_valid (mkpte pa perm) = true.
Proof.
  intros Hpa Hp. rewrite mkpte_eq.
  destruct (mkpte_spec pa (Z.lor perm PTE_V) Hpa (lor_flags perm Hp)) as (H1 & H2 & H3).
  split_and!; try done; try lia. rewrite pte_valid_flags, H2, Z.land_lor_distr_l.
  change (Z.land PTE_V PTE_V) with 1. apply truthy_nz.
  intros H0%Z.lor_eq_0_iff. lia.
Qed.

(** [leaf] after [k] pages from [a] were mapped to the pages from [pa]. *)
Definition map_leaf (f : Z → Z) (a k pa perm : Z) (va : Z) : Z :=
  let pg := PGROUNDDOWN va in
  if (a <=? pg) && (pg <? a + k * PGSIZE) then mkpte (pa + (pg - a)) perm else f va.

Lemma map_leaf_0 f a pa perm va : map_leaf f a 0 pa perm va = f va.
Proof. unfold map_leaf. by if_false. Qed.

Lemma map_leaf_1 f a pa perm va :
  a mod PGSIZE = 0 →
  map_leaf f a 1 pa perm va = if PGROUNDDOWN va =? PGROUNDDOWN a then mkpte pa perm else f va.
Proof.
  intros Hal. unfold map_leaf. rewrite (PGROUNDDOWN_aligned a) by done.
  destruct (PGROUNDDOWN_bounds va) as [Hpg _]. destruct (Z.eqb_spec (PGROUNDDOWN va) a) as [->|].
  - if_true. by rewrite Z.sub_diag, Z.add_0_r.
  - destruct (pages_apart (PGROUNDDOWN va) a) as [?|?]; try done; by if_false.
Qed.

Lemma map_leaf_S f a k pa perm va :
  0 ≤ k →
  map_leaf (map_leaf f a 1 pa perm) (a + PGSIZE) k (pa + PGSIZE) perm va =
  map_leaf f a (k + 1) pa perm va.
Proof.
  intros. unfold map_leaf. set (pg := PGROUNDDOWN va).
  destruct (decide (a ≤ pg < a + PGSIZE)); [if_false; if_true; if_true; done|].
  destruct (decide (a + PGSIZE ≤ pg < a + PGSIZE + k * PGSIZE)).
  - if_true. if_true. f_equal. lia.
  - if_false. if_false. by if_false.
Qed.

Lemma map_leaf_ext f g a k pa perm va :
  f va = g va → map_leaf f a k pa perm va = map_leaf g a k pa perm va.
Proof. unfold map_leaf. by intros ->. Qed.

(** One round of the loop: the page [a] is mapped, or memory ran out. *)
Lemma mappages_round root a pa perm s G l (k : M kmem Z) (Q : Z → kmem → Prop) :
  vm_ok s root G l → a mod PGSIZE = 0 → 0 ≤ a < MAXVA → is_pa pa → 0 ≤ perm < 2 ^ 10 →
  pte_valid (leaf (mem s) root a) = false →
  (∀ s' G', evolves root s s' G G' l [] →
     (∀ va, leaf (mem s') root va = leaf (mem s) root va) → Q (-1) s') →
  (∀ s' G' l', evolves root s s' G G' l l' →
     (∀ va, 0 ≤ va < 2 ^ 39 →
        leaf (mem s') root va = map_leaf (leaf (mem s) root) a 1 pa perm va) →
     returns k s' (λ r s'' _, Q r s'')) →
  returns (pte ← walk root a true;
           if pte =? 0 then mret (-1)
           else
             v ← load64 pte;
             if pte_valid v then panic "mappages: remap"
             else store64 pte (Z.lor (Z.lor (PA2PTE pa) perm) PTE_V);; k) s
    (λ r s' _, Q r s').
Proof.
  intros Hok Hal Ha Hpa Hperm Hun Hfail Hsucc.
  call_spec walk_alloc; [done|lia|]. intros pte s1 t (G1 & l1 & Hg & [[-> ->]|[Hnz Hpte]]).
  - apply returns_ret. apply (Hfail _ G1); [by apply grows_evolves|apply (gr_leaf _ _ _ _ _ _ _ Hg)].
  - if_false. call reflexivity.
    assert (ld64 (mem s1) pte = leaf (mem s) root a) as ->.
    { rewrite <-(gr_leaf _ _ _ _ _ _ _ Hg a). unfold leaf, leaf_from. by rewrite Hpte. }
    rewrite Hun. call reflexivity.
    destruct (mkpte_facts pa perm Hpa Hperm) as (_ & _ & Hr & _).
    destruct (store_leaf_evolves s1 root G1 l1 a pte (mkpte pa perm)) as [Hev Hleaf]; try done.
    { apply (gr_ok _ _ _ _ _ _ _ Hg). }
    apply (Hsucc _ G1 l1).
    + eapply evolves_trans; [by apply grows_evolves|done].
    + intros va Hva. rewrite Hleaf by lia. rewrite map_leaf_1 by done.
      by rewrite (gr_leaf _ _ _ _ _ _ _ Hg).
Qed.

Lemma mappages_loop_spec root n fuel a pa perm s G l :
  (n < fuel)%nat → vm_ok s root G l →
  a mod PGSIZE = 0 → 0 ≤ a → a + Z.of_nat n * PGSIZE < MAXVA →
  pa mod PGSIZE = 0 → 0 ≤ pa → pa + Z.of_nat n * PGSIZE < 2 ^ 56 → 0 ≤ perm < 2 ^ 10 →
  (∀ va, a ≤ va ≤ a + Z.of_nat n * PGSIZE → pte_valid (leaf (mem s) root va) = false) →
  returns (mappages_loop fuel root a (a + Z.of_nat n * PGSIZE) pa perm) s (λ r s' _, ∃ G' l' k,
    evolves root s s' G G' l l' ∧
    (∀ va, 0 ≤ va < 2 ^ 39 →
       leaf (mem s') root va = map_leaf (leaf (mem s) root) a k pa perm va) ∧
    ((r = 0 ∧ k = Z.of_nat n + 1) ∨ (r = -1 ∧ 0 ≤ k ≤ Z.of_nat n ∧ l' = []))).
Proof.
  intros Hf. revert fuel a pa s G l Hf.
  induction n as [|n IH]; intros fuel a pa s G l Hf Hok Hal Ha Hlast Hpal Hpa Hplast Hperm Hun;
    destruct fuel as [|fuel]; try lia; cbn [mappages_loop];
    (eapply (mappages_round root a pa perm s G l); [done|done|lia|split; [lia|done]|done| | |]).
  1, 4: apply Hun; lia.
  1, 3: intros s' G' Hev Hleaf; exists G', [], 0; split; [done|]; split;
      [intros; by rewrite Hleaf, map_leaf_0|right; split_and!; (lia || done)].
  - intros s' G' l' Hev Hleaf. if_true. apply returns_ret.
    exists G', l', 1. split; [done|]. split; [done|left; lia].
  - intros s' G' l' Hev Hleaf. if_false. rewrite !u64_small by lia.
    replace (a + Z.of_nat (S n) * PGSIZE) with ((a + PGSIZE) + Z.of_nat n * PGSIZE) by lia.
    eapply returns_mono.
    + apply (IH fuel (a + PGSIZE) (pa + PGSIZE) s' G' l'); try lia; try done;
        [by apply (ev_ok _ _ _ _ _ _ _ Hev)|by apply aligned_next|by apply aligned_next|].
      intros va Hva. rewrite Hleaf by lia. unfold map_leaf.
      destruct (PGROUNDDOWN_bounds va) as [Hpg Hb]. destruct (pages_apart (PGROUNDDOWN va) a);
        [done|done|lia| |]; if_false; apply Hun; lia.
    + intros r s'' t (G'' & l'' & k & Hev' & Hleaf' & Hr). exists G'', l'', (k + 1).
      split; [by eapply evolves_trans|]. split.
      * intros va Hva. rewrite Hleaf' by lia. rewrite <-map_leaf_S by lia.
        apply map_leaf_ext. by apply Hleaf.
      * destruct Hr as [[-> ->]|(-> & ? & ->)]; [left|right]; split_and!; (lia || done).
Qed.

(** ** [mappages] as a whole *)

Lemma page_count a b :
  a mod PGSIZE = 0 → b mod PGSIZE = 0 → a ≤ b →
  a + Z.of_nat (Z.to_nat ((b - a) / PGSIZE)) * PGSIZE = b.
Proof.
  unfold PGSIZE. intros [i ->]%Z.mod_divide [j ->]%Z.mod_divide ?; try lia.
  rewrite <-Z.mul_sub_distr_r, Z.div_mul by lia. lia.
Qed.

(** The number of pages that [va, va + size) touches. *)
Definition npages (va size : Z) : Z :=
  (PGROUNDDOWN (va + size - 1) - PGROUNDDOWN va) / PGSIZE + 1.

Lemma mappages_run root va size pa perm s G l :
  vm_ok s root G l → 0 ≤ va → 0 < size → va + size ≤ MAXVA → is_pa pa →
  pa + size + PGSIZE ≤ 2 ^ 56 → 0 ≤ perm < 2 ^ 10 →
  (∀ x, va ≤ x < va + size → pte_valid (leaf (mem s) root x) = false) →
  returns (mappages root va size pa perm) s (λ r s' _, ∃ G' l' k,
    evolves root s s' G G' l l' ∧
    (∀ x, 0 ≤ x < 2 ^ 39 →
       leaf (mem s') root x = map_leaf (leaf (mem s) root) (PGROUNDDOWN va) k pa perm x) ∧
    ((r = 0 ∧ k = npages va size) ∨ (r = -1 ∧ 0 ≤ k < npages va size ∧ l' = []))).
Proof.
  intros Hok Hva Hsz Hmax [Hpa Hpal] Hpas Hperm Hun. unfold mappages. if_false.
  rewrite (u64_small (va + size - 1)) by lia. unfold npages.
  destruct (PGROUNDDOWN_bounds va) as [Hal Hb].
  destruct (PGROUNDDOWN_bounds (va + size - 1)) as [Hlal Hlb].
  set (a := PGROUNDDOWN va) in *. set (last := PGROUNDDOWN (va + size - 1)) in *.
  assert (a ≤ last) as Hle by (apply PGROUNDDOWN_le; lia).
  pose proof (PGROUNDDOWN_nonneg va Hva) as Ha0. fold a in Ha0.
  pose proof (page_count a last Hal Hlal Hle) as Hn.
  assert (0 ≤ (last - a) / PGSIZE) by (apply Z.div_pos; lia).
  set (n := Z.to_nat ((last - a) / PGSIZE)) in *.
  rewrite <-Hn. eapply returns_mono.
  - apply (mappages_loop_spec root n _ a pa perm s G l); try done; try lia.
    + unfold mappages_fuel. if_true. rewrite Hn. lia.
    + intros x Hx. destruct (decide (va ≤ x)); [apply Hun; lia|].
      rewrite (leaf_page _ root x va); [apply Hun; lia|].
      destruct (PGROUNDDOWN_bounds x) as [Hxal Hxb]. fold a.
      apply (pages_disjoint _ _ x); unfold in_page; try done; lia.
  - intros r s' t (G' & l' & k & Hev & Hleaf & Hr). exists G', l', k. split; [done|].
    split; [done|]. replace (a + Z.of_nat n * PGSIZE - a) with (Z.of_nat n * PGSIZE) by lia.
    rewrite Z.div_mul by lia. destruct Hr as [?|(? & ? & ?)]; [left; lia|right].
    split_and!; (done || lia).
Qed.
End tables.
