(* ===== verification/VmUser.v ===== *)
(** * User memory

    [uvm_ok] describes one address space whole: the table [G], the map [U]
    from user pages to the frames that back them, and the free list [l], all
    disjoint.  The theorems show that [uvmalloc], [uvmdealloc], [uvmfree] and
    [uvmcopy] move pages between these three and lose none, and that
    [copyin] and [copyout] read and write the bytes the table denotes. *)

From S2P Require Import Prelude Riscv Memory Kalloc Vm VmTable.

Lemma leaf_valid_addr m root va :
  pte_valid (leaf m root va) = true →
  ∃ a, pte_addr m 2 root va = Some a ∧ ld64 m a = leaf m root va.
Proof. unfold leaf, leaf_from. destruct (pte_addr m 2 root va) as [a|]; [by exists a|done]. Qed.

(** [leaf] after the pages of [a, b) were unmapped. *)
Definition clear_leaf (f : Z → Z) (a b : Z) (va : Z) : Z :=
  let pg := PGROUNDDOWN va in if (a <=? pg) && (pg <? b) then 0 else f va.

Definition unmap (a b : Z) (U : gmap Z Z) : gmap Z Z :=
  filter (λ kv, ¬ (a ≤ kv.1 < b)) U.

Lemma lookup_unmap a b U va :
  unmap a b U !! va = if (a <=? va) && (va <? b) then None else U !! va.
Proof.
  unfold unmap. rewrite map_lookup_filter. case_if.
  - destruct (U !! va); simpl; [|done]. rewrite option_guard_False; [done|lia].
  - destruct (U !! va) as [pa|]; simpl; [|done]. rewrite option_guard_True; [done|].
    apply andb_false_iff in E. lia.
Qed.

Section user.
  Variable kend : Z.
  Hypothesis Hkend : 0 < kend.
  Implicit Types (s : kmem) (G : gmap Z (list Z)) (U : gmap Z Z) (l : list Z).

Record uvm_ok (s : kmem) (root : Z) (G : gmap Z (list Z)) (U : gmap Z Z) (l : list Z) : Prop := {
  uvm_vm : vm_ok kend s root G l;
  (** every user page is aligned and has a valid leaf entry *)
  uvm_leaf va pa :
    U !! va = Some pa →
    va mod PGSIZE = 0 ∧ 0 ≤ va < MAXVA ∧ pte_valid (leaf (mem s) root va) = true ∧
    PTE2PA (leaf (mem s) root va) = pa ∧ PTE_FLAGS (leaf (mem s) root va) ≠ PTE_V;
  (** its frame is neither a table nor free, and backs no other page *)
  uvm_frame va pa : U !! va = Some pa → ram_page kend pa ∧ G !! pa = None ∧ pa ∉ l;
  uvm_inj va va' pa : U !! va = Some pa → U !! va' = Some pa → va = va'
}.

(** The pages that the address space and the allocator hold together. *)
Definition own G U l (p : Z) : Prop := is_Some (G !! p) ∨ (∃ va, U !! va = Some p) ∨ p ∈ l.

(** [s'] has the bytes of [s] in the frames of [U]. *)
Definition keeps U s s' : Prop :=
  ∀ va pa x, U !! va = Some pa → in_page pa x → rd (mem s') x = rd (mem s) x.

(** [s'] has the bytes of [s] outside the pages of [P]. *)
Definition framed (P : Z → Prop) s s' : Prop :=
  ∀ x, (∀ p, P p → ¬ in_page p x) → rd (mem s') x = rd (mem s) x.

Lemma framed_trans P s1 s2 s3 : framed P s1 s2 → framed P s2 s3 → framed P s1 s3.
Proof. intros H1 H2 x Hx. by rewrite H2, H1. Qed.

Lemma framed_mono (P P' : Z → Prop) s s' :
  (∀ p, P p → P' p) → framed P s s' → framed P' s s'.
Proof. intros HP H x Hx. apply H. intros p Hp. by apply Hx, HP. Qed.

Lemma framed_page (P : Z → Prop) p s s' : P p → same_but p (mem s) (mem s') → framed P s s'.
Proof. intros HP Hs x Hx. by apply Hs, Hx. Qed.

(** [m'] holds the same translations as [m], at the same places. *)
Definition same_tables (root : Z) (m m' : gmap Z Z) : Prop :=
  ∀ va, pte_addr m' 2 root va = pte_addr m 2 root va ∧ leaf m' root va = leaf m root va.

(** A change that stays outside the tables. *)
Lemma tables_same m m' root G :
  pt_ok kend m root G → (∀ p x, is_Some (G !! p) → in_page p x → rd m' x = rd m x) →
  pt_ok kend m' root G ∧ same_tables root m m'.
Proof.
  intros Hok Hs.
  assert (∀ p path i, G !! p = Some path → 0 ≤ i < 512 → pte_at m' p i = pte_at m p i) as He.
  { intros p path i Hp Hi. apply pte_at_ext; [done|]. intros x. by apply Hs; eexists. }
  split; [apply (pt_ok_ext kend m); [intros; by eapply He|done]|].
  intros va. unfold leaf, leaf_from.
  rewrite (pte_addr_ext kend m m' root G 2 root []); try done;
    [|intros; by eapply He|by apply (pt_root kend m)].
  split; [done|]. destruct (pte_addr m 2 root va) as [a|] eqn:Ha; [|done].
  destruct (pte_addr_inv _ _ _ _ _ _ _ _ _ Hok (pt_root _ _ _ _ Hok) eq_refl Ha) as (p0 & Hp0 & ->).
  apply (He p0 _ _ Hp0). apply PX_range. lia.
Qed.

(** [uvm_ok] depends on the tables' bytes and the allocator's invariant. *)
Lemma uvm_ok_same s s' root G U U' l l' :
  uvm_ok s root G U l → kmem_inv kend s' l' →
  (∀ p x, is_Some (G !! p) → in_page p x → rd (mem s') x = rd (mem s) x) →
  U' ⊆ U → (∀ p, p ∈ l' → G !! p = None ∧ ∀ va, U' !! va ≠ Some p) →
  uvm_ok s' root G U' l' ∧ same_tables root (mem s) (mem s').
Proof.
  intros [[Hk Hpt Hfree] Hleaf Hframe Hinj] Hk' Hs HU Hl'.
  destruct (tables_same _ _ _ _ Hpt Hs) as [Hpt' Hleaf']. split; [|done]. split.
  - split; try done. intros p Hp. by apply Hl'.
  - intros va pa Hva. destruct (Hleaf' va) as [_ ->]. apply Hleaf. by eapply lookup_weaken.
  - intros va pa Hva. destruct (Hframe va pa) as (? & ? & ?); [by eapply lookup_weaken|].
    split_and!; try done. intros Hp. destruct (Hl' pa Hp) as [_ Hno]. by apply (Hno va).
  - intros va va' pa ??. by apply (Hinj va va' pa); eapply lookup_weaken.
Qed.

Lemma uvm_other_page s root G U l va va' pa pa' x :
  uvm_ok s root G U l → U !! va = Some pa → U !! va' = Some pa' → va ≠ va' →
  in_page pa x → ¬ in_page pa' x.
Proof.
  intros Hok Hva Hva' Hne Hx Hx'.
  destruct (uvm_frame _ _ _ _ _ Hok va pa Hva) as ([Hal _] & _).
  destruct (uvm_frame _ _ _ _ _ Hok va' pa' Hva') as ([Hal' _] & _).
  assert (pa = pa') as -> by (by apply (pages_disjoint pa pa' x)).
  by apply Hne, (uvm_inj _ _ _ _ _ Hok va va' pa').
Qed.

Lemma uvm_not_table s root G U l va pa p x :
  uvm_ok s root G U l → U !! va = Some pa → is_Some (G !! p) → in_page p x → ¬ in_page pa x.
Proof.
  intros Hok Hva [path Hp] Hx Hx'.
  destruct (uvm_frame _ _ _ _ _ Hok va pa Hva) as ([Hal _] & HG & _).
  pose proof (pt_aligned _ _ _ _ _ _ (vm_pt _ _ _ _ _ (uvm_vm _ _ _ _ _ Hok)) Hp) as Halp.
  assert (p = pa) as -> by (by apply (pages_disjoint p pa x)). congruence.
Qed.

Lemma own_aligned s root G U l p : uvm_ok s root G U l → own G U l p → p mod PGSIZE = 0.
Proof.
  intros Hok [[path Hp]|[[va Hva]|Hp]].
  - eapply pt_aligned, Hp. apply (vm_pt _ _ _ _ _ (uvm_vm _ _ _ _ _ Hok)).
  - by apply (uvm_frame _ _ _ _ _ Hok va p Hva).
  - pose proof (inv_pages _ _ _ (vm_kmem _ _ _ _ _ (uvm_vm _ _ _ _ _ Hok))) as H.
    rewrite Forall_forall in H. by apply H.
Qed.

(** Giving a frame back. *)
Lemma uvm_kfree s root G U l va pa :
  uvm_ok s root G U l → U !! va = Some pa →
  let s' := kfree_result pa s in
  uvm_ok s' root G (delete va U) (pa :: l) ∧
  same_tables root (mem s) (mem s') ∧ keeps (delete va U) s s' ∧ framed (own G U l) s s'.
Proof.
  intros Hok Hva s'. destruct (uvm_frame _ _ _ _ _ Hok va pa Hva) as (Hpa & HG & Hl).
  pose proof (kfree_same_but pa s) as Hs. fold s' in Hs.
  assert (kmem_inv kend s' (pa :: l)) as Hk.
  { apply kfree_inv; [exact Hkend|exact Hpa|exact Hl|apply (vm_kmem _ _ _ _ _ (uvm_vm _ _ _ _ _ Hok))]. }
  clearbody s'.
  destruct (uvm_ok_same s s' root G U (delete va U) l (pa :: l) Hok Hk) as [Hok' Hleaf].
  - intros p x Hp Hx. apply Hs. by eapply uvm_not_table.
  - apply delete_subseteq.
  - intros p [->|Hp]%elem_of_cons.
    + split; [done|]. intros va' [Hne Hva']%lookup_delete_Some. apply Hne.
      by apply (uvm_inj _ _ _ _ _ Hok va va' pa).
    + split; [by apply (vm_free _ _ _ _ _ (uvm_vm _ _ _ _ _ Hok))|].
      intros va' [_ Hva']%lookup_delete_Some.
      by destruct (uvm_frame _ _ _ _ _ Hok va' p Hva') as (_ & _ & []).
  - split_and!; try done.
    + intros va' pa' x [Hne Hva']%lookup_delete_Some Hx.
      apply Hs. by eapply (uvm_other_page s root G U l va' va).
    + eapply framed_page; [|done]. right; left. by exists va.
Qed.

(** Clearing the leaf entry of a page that is not in [U]. *)
Lemma uvm_clear s root G U l va a :
  uvm_ok s root G U l → va mod PGSIZE = 0 → 0 ≤ va < MAXVA → U !! va = None →
  pte_addr (mem s) 2 root va = Some a →
  let s' := set_mem (st64 (mem s) a 0) s in
  uvm_ok s' root G U l ∧
  (∀ x, 0 ≤ x < 2 ^ 39 → leaf (mem s') root x = clear_leaf (leaf (mem s) root) va (va + PGSIZE) x) ∧
  keeps U s s' ∧ framed (own G U l) s s'.
Proof.
  intros Hok Hal Hva HU Ha s'.
  destruct (store_leaf_evolves kend s root G l va a 0 (uvm_vm _ _ _ _ _ Hok)) as [Hev Hleaf]; try done.
  fold s' in Hev, Hleaf. rewrite PGROUNDDOWN_aligned in Hleaf by done.
  assert (keeps U s s') as Hkeep.
  { intros va' pa x Hva' Hx. apply (ev_same _ _ _ _ _ _ _ _ Hev). intros p Hp Hpx.
    by eapply (uvm_not_table s root G U l va' pa p x), Hx; [| |apply elem_of_dom in Hp|]. }
  split_and!; [|intros x Hx|done|].
  - split; [apply (ev_ok _ _ _ _ _ _ _ _ Hev)| |apply (uvm_frame _ _ _ _ _ Hok)|apply (uvm_inj _ _ _ _ _ Hok)].
    intros va' pa' Hva'. destruct (uvm_leaf _ _ _ _ _ Hok va' pa' Hva') as (Hal' & Hr & H).
    rewrite Hleaf, PGROUNDDOWN_aligned by (done || lia).
    destruct (Z.eqb_spec va' va) as [->|]; [congruence|done].
  - rewrite Hleaf by lia. unfold clear_leaf. destruct (PGROUNDDOWN_bounds x) as [Hxal _].
    destruct (Z.eqb_spec (PGROUNDDOWN x) va) as [->|]; [by if_true|].
    destruct (pages_apart (PGROUNDDOWN x) va); try done; by if_false.
  - intros x Hx. apply (ev_same _ _ _ _ _ _ _ _ Hev). intros p Hp. apply Hx. left.
    by apply elem_of_dom.
Qed.

Lemma clear_leaf_join f g a b c va :
  a ≤ b ≤ c → g va = clear_leaf f a b va → clear_leaf g b c va = clear_leaf f a c va.
Proof.
  unfold clear_leaf. intros ? Hg. destruct (decide (b ≤ PGROUNDDOWN va < c)).
  - if_true. by if_true.
  - destruct (decide (a ≤ PGROUNDDOWN va < b)).
    + if_false. rewrite Hg. if_true. by if_true.
    + if_false. rewrite Hg. if_false. by if_false.
Qed.

Lemma unmap_step s root G U l a b :
  uvm_ok s root G U l → a mod PGSIZE = 0 → a + PGSIZE ≤ b →
  unmap (a + PGSIZE) b (delete a U) = unmap a b U.
Proof.
  intros Hok Hal Hb. apply map_eq. intros va. rewrite !lookup_unmap.
  destruct (decide (va = a)) as [->|Hne].
  - rewrite lookup_delete_eq. if_false. by if_true.
  - rewrite lookup_delete_ne by done. destruct (U !! va) as [pa|] eqn:Hva; [|by repeat case_if].
    destruct (uvm_leaf _ _ _ _ _ Hok va pa Hva) as [Hval _].
    destruct (pages_apart va a) as [?|?]; try done.
    + if_false. by if_false.
    + destruct (decide (va < b)); [if_true; by if_true|if_false; by if_false].
Qed.

Lemma own_free G U l va pa p :
  U !! va = Some pa → own G (delete va U) (pa :: l) p ↔ own G U l p.
Proof.
  intros Hva. unfold own. rewrite elem_of_cons. split.
  - intros [?|[[va' [_ ?]%lookup_delete_Some]|[->|?]]]; eauto.
  - intros [?|[[va' ?]|?]]; eauto. destruct (decide (va = va')) as [->|].
    + right; right; left. congruence.
    + right; left. exists va'. by rewrite lookup_delete_ne.
Qed.

Lemma keeps_trans U s1 s2 s3 : keeps U s1 s2 → keeps U s2 s3 → keeps U s1 s3.
Proof. intros H1 H2 va pa x Hva Hx. by rewrite (H2 va pa x), (H1 va pa x). Qed.

Lemma keeps_mono U U' s s' : U' ⊆ U → keeps U s s' → keeps U' s s'.
Proof. intros HU H va pa x Hva. apply (H va pa x). by eapply lookup_weaken. Qed.

Lemma unmap_subseteq a b U : unmap a b U ⊆ U.
Proof. apply map_filter_subseteq. Qed.

(** [s'] is [s] after the pages of [a, b) were unmapped and freed. *)
Definition unmapped root s s' G U l l' (a b : Z) : Prop :=
  uvm_ok s' root G (unmap a b U) l' ∧
  (∀ p, own G (unmap a b U) l' p ↔ own G U l p) ∧
  (∀ x, 0 ≤ x < 2 ^ 39 → leaf (mem s') root x = clear_leaf (leaf (mem s) root) a b x) ∧
  keeps (unmap a b U) s s' ∧ framed (own G U l) s s'.

Lemma unmapped_refl root s G U l a b : b ≤ a → uvm_ok s root G U l → unmapped root s s G U l l a b.
Proof.
  intros Hb Hok. assert (unmap a b U = U) as HUU.
  { apply map_eq. intros va. rewrite lookup_unmap. by if_false. }
  unfold unmapped. rewrite HUU. split_and!; try done.
  intros x _. unfold clear_leaf. by if_false.
Qed.

(** [uvmunmap] with [do_free]: the pages leave [U], their frames go to the
    free list, and nothing else changes. *)
Lemma uvmunmap_loop_free n fuel root a s G U l :
  (n ≤ fuel)%nat → uvm_ok s root G U l → a mod PGSIZE = 0 → 0 ≤ a →
  a + Z.of_nat n * PGSIZE ≤ MAXVA →
  (∀ va, va mod PGSIZE = 0 → a ≤ va < a + Z.of_nat n * PGSIZE → is_Some (U !! va)) →
  returns (uvmunmap_loop kend fuel root a (a + Z.of_nat n * PGSIZE) true) s (λ _ s' _, ∃ l',
    unmapped root s s' G U l l' a (a + Z.of_nat n * PGSIZE)).
Proof.
  revert fuel a s U l. induction n as [|n IH]; intros fuel a s U l Hf Hok Hal Ha Hb HU.
  - destruct fuel; simpl; (if_false; apply returns_ret; exists l; apply unmapped_refl; [lia|done]).
  - destruct fuel as [|fuel]; [lia|]. cbn [uvmunmap_loop]. if_true.
    destruct (HU a Hal) as [pa Hpa]; [lia|].
    destruct (uvm_leaf _ _ _ _ _ Hok a pa Hpa) as (_ & Hr & Hv & HPA & Hfl).
    destruct (leaf_valid_addr _ _ _ Hv) as (pte & Hpte & Hld).
    call (apply walk_noalloc; lia). rewrite Hpte. simpl default.
    assert (pte ≠ 0) by (eapply pte_addr_nonzero; [done| |done];
      apply (vm_pt _ _ _ _ _ (uvm_vm _ _ _ _ _ Hok))).
    if_false. call reflexivity. rewrite Hld. unfold pte_valid, truthy in Hv. bool_prop.
    if_false. if_false. rewrite HPA.
    call (apply kfree_run; by apply (uvm_frame _ _ _ _ _ Hok a pa Hpa)).
    destruct (uvm_kfree s root G U l a pa Hok Hpa) as (Hok1 & Hl1 & Hk1 & Hf1).
    set (s1 := kfree_result pa s) in *. call reflexivity.
    rewrite u64_small by lia.
    destruct (uvm_clear s1 root G (delete a U) (pa :: l) a pte) as (Hok2 & Hl2 & Hk2 & Hf2); try done.
    { apply lookup_delete_eq. }
    { by rewrite (proj1 (Hl1 a)). }
    set (s2 := set_mem _ s1) in *.
    replace (a + Z.of_nat (S n) * PGSIZE) with ((a + PGSIZE) + Z.of_nat n * PGSIZE) by lia.
    eapply returns_mono; [apply (IH fuel (a + PGSIZE) s2 (delete a U) (pa :: l)); try done; try lia|].
    + by apply aligned_next.
    + intros va Hva Hvr. rewrite lookup_delete_ne by lia. apply HU; [done|lia].
    + intros [] s' t (l' & H1 & H2 & H3 & H4 & H5). exists l'. unfold unmapped.
      rewrite (unmap_step s root G U l) in * by (done || lia). split_and!; try done.
      * intros p. rewrite H2. by apply own_free.
      * intros x Hx. rewrite H3 by lia. apply clear_leaf_join; [lia|].
        rewrite Hl2 by lia. unfold clear_leaf. by rewrite (proj2 (Hl1 x)).
      * eapply keeps_trans, H4. apply (keeps_mono (delete a U)); [|by eapply keeps_trans].
        rewrite <-(unmap_step s root G U l a) by (done || lia). apply unmap_subseteq.
      * eapply framed_trans; [done|]. eapply framed_mono; [|by eapply framed_trans].
        intros p. by apply own_free.
Qed.

Lemma uvmunmap_free root a n s G U l :
  uvm_ok s root G U l → a mod PGSIZE = 0 → 0 ≤ a → a + Z.of_nat n * PGSIZE ≤ MAXVA →
  (∀ va, va mod PGSIZE = 0 → a ≤ va < a + Z.of_nat n * PGSIZE → is_Some (U !! va)) →
  returns (uvmunmap kend root a (Z.of_nat n) true) s (λ _ s' _, ∃ l',
    unmapped root s s' G U l l' a (a + Z.of_nat n * PGSIZE)).
Proof.
  intros Hok Hal Ha Hmax HU. unfold uvmunmap. rewrite Hal. cbn [Z.eqb negb].
  rewrite (u64_small (_ * PGSIZE)), u64_small, Nat2Z.id by lia.
  by apply uvmunmap_loop_free.
Qed.

Lemma uvmdealloc_run root oldsz newsz s G U l :
  uvm_ok s root G U l → 0 ≤ newsz ≤ oldsz → oldsz ≤ MAXVA →
  (∀ va, va mod PGSIZE = 0 → PGROUNDUP newsz ≤ va < PGROUNDUP oldsz → is_Some (U !! va)) →
  returns (uvmdealloc kend root oldsz newsz) s (λ r s' _, r = newsz ∧ ∃ l',
    unmapped root s s' G U l l' (PGROUNDUP newsz) (PGROUNDUP oldsz)).
Proof.
  intros Hok Hsz Hmax HU. unfold uvmdealloc.
  destruct (PGROUNDUP_bounds newsz) as [Hlo Hlo']; [lia|lia|].
  destruct (PGROUNDUP_bounds oldsz) as [Hhi Hhi']; [lia|lia|].
  pose proof (PGROUNDUP_MAXVA oldsz ltac:(lia)).
  destruct (decide (newsz = oldsz)) as [->|Hne].
  { if_true. apply returns_ret. split; [done|]. exists l. by apply unmapped_refl. }
  if_false. set (lo := PGROUNDUP newsz) in *. set (hi := PGROUNDUP oldsz) in *.
  case_if.
  - pose proof (page_count lo hi Hlo Hhi ltac:(lia)) as Hn.
    assert (0 ≤ (hi - lo) / PGSIZE < 2 ^ 27) as Hd.
    { split; [apply Z.div_pos; lia|]. apply Z.div_lt_upper_bound; lia. }
    rewrite s32_small, u64_small by lia.
    replace ((hi - lo) / PGSIZE) with (Z.of_nat (Z.to_nat ((hi - lo) / PGSIZE))) by lia.
    call_spec uvmunmap_free; [done|done|lia|lia|by rewrite Hn|].
    intros [] s' t [l' H']. apply returns_ret. rewrite Hn in H'. eauto.
  - call reflexivity. apply returns_ret. split; [done|]. exists l. apply unmapped_refl; [lia|done].
Qed.

(** ** Adding a page *)

(** A frame that is out of the allocator and not yet mapped. *)
Definition fresh G U l (p : Z) : Prop :=
  ram_page kend p ∧ G !! p = None ∧ p ∉ l ∧ (∀ va, U !! va ≠ Some p).

Definition keeps_page (p : Z) s s' : Prop := ∀ x, in_page p x → rd (mem s') x = rd (mem s) x.

Lemma evolves_frame s s' root G G' l l' pa :
  evolves kend root s s' G G' l l' → ram_page kend pa → G !! pa = None → pa ∉ l →
  G' !! pa = None ∧ pa ∉ l' ∧ keeps_page pa s s'.
Proof.
  intros Hev [Hal _] HG Hl. destruct (ev_used _ _ _ _ _ _ _ _ Hev) as (used & -> & Hd).
  rewrite elem_of_app in Hl.
  assert (pa ∉ dom G') as HG'.
  { rewrite Hd. intros [[x ?]%elem_of_dom|?]; [congruence|tauto]. }
  split_and!; [by apply not_elem_of_dom|tauto|]. intros x Hx.
  apply (ev_same _ _ _ _ _ _ _ _ Hev). intros p Hp Hpx.
  assert (p = pa) as ->; [|done]. apply (pages_disjoint p pa x); try done.
  apply elem_of_dom in Hp as [path Hp].
  eapply pt_aligned, Hp. apply (vm_pt _ _ _ _ _ (ev_ok _ _ _ _ _ _ _ _ Hev)).
Qed.

Lemma evolves_uvm s s' root G G' U l l' :
  uvm_ok s root G U l → evolves kend root s s' G G' l l' →
  (∀ va, is_Some (U !! va) → leaf (mem s') root va = leaf (mem s) root va) →
  uvm_ok s' root G' U l' ∧ (∀ p, own G' U l' p ↔ own G U l p) ∧ keeps U s s' ∧
  framed (own G U l) s s' ∧ (∀ p, fresh G U l p → fresh G' U l' p ∧ keeps_page p s s').
Proof.
  intros Hok Hev Hleaf. split_and!.
  - split; [by apply (ev_ok _ _ _ _ _ _ _ _ Hev)| | |by apply (uvm_inj _ _ _ _ _ Hok)].
    + intros va pa Hva. rewrite Hleaf by by eexists. by apply (uvm_leaf _ _ _ _ _ Hok).
    + intros va pa Hva. destruct (uvm_frame _ _ _ _ _ Hok va pa Hva) as (? & ? & ?).
      by destruct (evolves_frame _ _ _ _ _ _ _ pa Hev) as (? & ? & _).
  - intros p. destruct (ev_used _ _ _ _ _ _ _ _ Hev) as (used & -> & Hd).
    unfold own. rewrite <-!elem_of_dom, Hd, elem_of_app. tauto.
  - intros va pa x Hva. destruct (uvm_frame _ _ _ _ _ Hok va pa Hva) as (? & ? & ?).
    by apply (evolves_frame _ _ _ _ _ _ _ pa Hev).
  - intros x Hx. apply (ev_same _ _ _ _ _ _ _ _ Hev). intros p Hp. apply Hx.
    destruct (ev_used _ _ _ _ _ _ _ _ Hev) as (used & -> & Hd). unfold own.
    rewrite <-elem_of_dom, elem_of_app. apply Hd in Hp. tauto.
  - intros p (? & ? & ? & ?). by destruct (evolves_frame _ _ _ _ _ _ _ p Hev) as (? & ? & ?).
Qed.

(** Whatever happens to the bytes of a page that is neither a table nor a
    user frame. *)
Lemma uvm_touch s s' root G U l l' p :
  uvm_ok s root G U l → ram_page kend p → G !! p = None → (∀ va, U !! va ≠ Some p) →
  kmem_inv kend s' l' → same_but p (mem s) (mem s') → (∀ q, q ∈ l' → q = p ∨ q ∈ l) →
  uvm_ok s' root G U l' ∧ same_tables root (mem s) (mem s') ∧ keeps U s s'.
Proof.
  intros Hok [Hal _] HG HU Hk Hs Hl.
  assert (∀ va pa x, U !! va = Some pa → in_page pa x → ¬ in_page p x) as Hapart.
  { intros va pa x Hva Hx Hpx. destruct (uvm_frame _ _ _ _ _ Hok va pa Hva) as ([? _] & _).
    assert (pa = p) as -> by (by apply (pages_disjoint pa p x)). by apply (HU va). }
  destruct (uvm_ok_same s s' root G U U l l' Hok Hk) as [Hok' Hst]; [|done| |].
  - intros q x [path Hq] Hx. apply Hs. intros Hpx.
    pose proof (pt_aligned _ _ _ _ _ _ (vm_pt _ _ _ _ _ (uvm_vm _ _ _ _ _ Hok)) Hq) as Hqal.
    assert (q = p) as -> by (by apply (pages_disjoint q p x)). congruence.
  - intros q [->|Hq]%Hl; [done|].
    split; [by apply (vm_free _ _ _ _ _ (uvm_vm _ _ _ _ _ Hok))|].
    intros va Hva. by destruct (uvm_frame _ _ _ _ _ Hok va q Hva) as (_ & _ & []).
  - split_and!; try done. intros va pa x Hva Hx. apply Hs. by eapply Hapart.
Qed.

Lemma uvm_kalloc s root G U l p :
  uvm_ok s root G U (p :: l) →
  uvm_ok (kalloc_result p s) root G U l ∧ fresh G U l p ∧
  same_tables root (mem s) (mem (kalloc_result p s)) ∧ keeps U s (kalloc_result p s).
Proof.
  intros Hok. pose proof (vm_kmem _ _ _ _ _ (uvm_vm _ _ _ _ _ Hok)) as Hk.
  pose proof (inv_nodup _ _ _ Hk) as [Hpl _]%NoDup_cons.
  assert (fresh G U l p) as (Hp & HG & Hl & HU).
  { split_and!.
    - pose proof (inv_pages _ _ _ Hk) as H. by inversion H.
    - apply (vm_free _ _ _ _ _ (uvm_vm _ _ _ _ _ Hok)). by left.
    - done.
    - intros va Hva. destruct (uvm_frame _ _ _ _ _ Hok va p Hva) as (_ & _ & []). by left. }
  destruct (uvm_touch s (kalloc_result p s) root G U (p :: l) l p Hok Hp HG HU
    (kalloc_inv _ p l s Hk) (kalloc_same_but p s)) as (? & ? & ?); [by right; right|].
  split_and!; done.
Qed.

Lemma uvm_write s m' root G U l p :
  uvm_ok s root G U l → fresh G U l p → mem_ok m' → same_but p (mem s) m' →
  uvm_ok (set_mem m' s) root G U l ∧
  same_tables root (mem s) m' ∧ keeps U s (set_mem m' s).
Proof.
  intros Hok (Hp & HG & Hl & HU) Hm Hs.
  apply (uvm_touch s (set_mem m' s) root G U l l p Hok Hp HG HU); [|done|by right].
  apply (kmem_inv_table kend s m' p l); try done; [|by destruct Hp].
  apply (vm_kmem _ _ _ _ _ (uvm_vm _ _ _ _ _ Hok)).
Qed.

Lemma uvm_unfresh s root G U l p :
  uvm_ok s root G U l → fresh G U l p →
  uvm_ok (kfree_result p s) root G U (p :: l) ∧
  same_tables root (mem s) (mem (kfree_result p s)) ∧ keeps U s (kfree_result p s).
Proof.
  intros Hok (Hp & HG & Hl & HU).
  apply (uvm_touch s (kfree_result p s) root G U l (p :: l) p Hok Hp HG HU).
  - apply kfree_inv; [exact Hkend|exact Hp|exact Hl|apply (vm_kmem _ _ _ _ _ (uvm_vm _ _ _ _ _ Hok))].
  - apply kfree_same_but.
  - intros q. by rewrite elem_of_cons.
Qed.

Lemma uvm_insert s root G U l a p :
  uvm_ok s root G U l → fresh G U l p → a mod PGSIZE = 0 → 0 ≤ a < MAXVA →
  pte_valid (leaf (mem s) root a) = true ∧ PTE2PA (leaf (mem s) root a) = p ∧
    PTE_FLAGS (leaf (mem s) root a) ≠ PTE_V →
  uvm_ok s root G (<[a := p]> U) l.
Proof.
  intros Hok (Hp & HG & Hl & HU) Hal Ha (Hv & Hpa & Hfl). split.
  - apply (uvm_vm _ _ _ _ _ Hok).
  - intros va pa [[<- <-]|[_ Hva]]%lookup_insert_Some; [done|by apply (uvm_leaf _ _ _ _ _ Hok)].
  - intros va pa [[<- <-]|[_ Hva]]%lookup_insert_Some; [done|by apply (uvm_frame _ _ _ _ _ Hok va)].
  - intros va va' pa. rewrite !lookup_insert_Some. pose proof (uvm_inj _ _ _ _ _ Hok va va' pa).
    naive_solver.
Qed.

(** The outcome of mapping the frame [p] at the page [a]. *)
Lemma uvm_mappage s root G U l a p perm :
  uvm_ok s root G U l → fresh G U l p → a mod PGSIZE = 0 → 0 ≤ a < MAXVA →
  0 ≤ perm < 2 ^ 10 → Z.lor perm PTE_V ≠ PTE_V → pte_valid (leaf (mem s) root a) = false →
  returns (mappages root a PGSIZE p perm) s (λ r s' _, ∃ G' U' l',
    uvm_ok s' root G' U' l' ∧ G ⊆ G' ∧ (∀ q, own G' U l' q ↔ own G U l q) ∧
    keeps U s s' ∧ keeps_page p s s' ∧ framed (own G U l) s s' ∧
    ((r = 0 ∧ U' = <[a := p]> U ∧ ∀ x, 0 ≤ x < 2 ^ 39 →
        leaf (mem s') root x = map_leaf (leaf (mem s) root) a 1 p perm x) ∨
     (r = -1 ∧ U' = U ∧ fresh G' U l' p ∧
        ∀ x, 0 ≤ x < 2 ^ 39 → leaf (mem s') root x = leaf (mem s) root x))).
Proof.
  intros Hok Hp Hal Ha Hperm Hfl Hun. destruct (Hp) as (Hram & _).
  pose proof (ram_page_is_pa _ Hkend p Hram) as Hpa. pose proof (ram_page_range _ p Hkend Hram).
  assert (a + PGSIZE ≤ MAXVA) as Hpg by (unfold_consts; Z.div_mod_to_equations; lia).
  assert (npages a PGSIZE = 1) as Hn1.
  { unfold npages. rewrite (PGROUNDDOWN_in a), (PGROUNDDOWN_aligned a) by (done || lia).
    by rewrite Z.sub_diag. }
  assert (U !! a = None) as HUa.
  { destruct (U !! a) as [pa|] eqn:HU; [|done].
    destruct (uvm_leaf _ _ _ _ _ Hok a pa HU) as (_ & _ & Hv & _). congruence. }
  eapply returns_mono; [apply (mappages_run kend Hkend root a PGSIZE p perm s G l); try done; try lia|].
  - apply (uvm_vm _ _ _ _ _ Hok).
  - intros x Hx. rewrite (leaf_page _ _ x a); [done|].
    by rewrite (PGROUNDDOWN_in a), (PGROUNDDOWN_aligned a).
  - intros r s' t (G' & l' & k & Hev & Hleaf & Hr).
    rewrite Hn1, (PGROUNDDOWN_aligned a) in * by done.
    destruct (evolves_uvm s s' root G G' U l l' Hok Hev) as (Hok' & Hown & Hkeep & Hfm & Hfr).
    { intros va [pa Hva]. destruct (uvm_leaf _ _ _ _ _ Hok va pa Hva) as (Hvaal & Hvr & _).
      rewrite Hleaf by lia. unfold map_leaf. rewrite (PGROUNDDOWN_aligned va) by done.
      destruct (pages_apart va a) as [?|?]; try done; [congruence| |]; if_false; done. }
    destruct (Hfr p Hp) as [Hp' Hkp]. destruct Hr as [[-> ->]|(-> & Hk & ->)].
    + exists G', (<[a := p]> U), l'. split_and!; try done; [|by apply (ev_sub _ _ _ _ _ _ _ _ Hev)|by left].
      apply uvm_insert; try done. rewrite Hleaf, map_leaf_1, Z.eqb_refl by (done || lia).
      destruct (mkpte_facts p perm Hpa Hperm) as (H1 & H2 & _ & H3). by rewrite H1, H2, H3.
    + exists G', U, []. split_and!; try done; [by apply (ev_sub _ _ _ _ _ _ _ _ Hev)|].
      right. split_and!; try done. intros x Hx. rewrite Hleaf by lia.
      replace k with 0 by lia. apply map_leaf_0.
Qed.

(** ** [uvmalloc] *)

(** [s] is [s0] after pages were added at [o, a): each on a frame of its own,
    with the permissions and the bytes that [perm] and [byte] give. *)
Record grown (perm : Z → Z) (byte : Z → Z → Z)
    root (s0 s : kmem) G0 G U0 U l0 l (o a : Z) : Prop := {
  gn_ok : uvm_ok s root G U l;
  gn_sub : G0 ⊆ G;
  gn_own p : own G U l p ↔ own G0 U0 l0 p;
  gn_old : U0 ⊆ U;
  gn_keys va pa : U !! va = Some pa → U0 !! va = Some pa ∨ o ≤ va < a;
  gn_new va :
    va mod PGSIZE = 0 → o ≤ va < a →
    ∃ pa, U !! va = Some pa ∧ leaf (mem s) root va = mkpte pa (perm va) ∧
      ∀ i, 0 ≤ i < PGSIZE → rd (mem s) (pa + i) = byte va i;
  gn_leaf x :
    0 ≤ x < 2 ^ 39 → ¬ (o ≤ PGROUNDDOWN x < a) → leaf (mem s) root x = leaf (mem s0) root x;
  gn_keeps : keeps U0 s0 s;
  gn_framed : framed (own G0 U0 l0) s0 s
}.

(** [s] is [s0] but for page-table pages taken from the free list. *)
Record restored root (s0 s : kmem) G0 G U0 l0 l : Prop := {
  rs_ok : uvm_ok s root G U0 l;
  rs_sub : G0 ⊆ G;
  rs_own p : own G U0 l p ↔ own G0 U0 l0 p;
  rs_leaf x :
    0 ≤ x < 2 ^ 39 →
    leaf (mem s) root x = leaf (mem s0) root x ∨
    (leaf (mem s) root x = 0 ∧ pte_valid (leaf (mem s0) root x) = false);
  rs_keeps : keeps U0 s0 s;
  rs_framed : framed (own G0 U0 l0) s0 s
}.

Section grown_lemmas.
  Variables (perm : Z → Z) (byte : Z → Z → Z).
  Local Notation grown := (grown perm byte).

Lemma grown_refl root s G U l o : uvm_ok s root G U l → grown root s s G G U U l l o o.
Proof. intros Hok. split; try done; [by left|lia]. Qed.

Lemma uvm_unmapped s root G U l va :
  uvm_ok s root G U l → pte_valid (leaf (mem s) root va) = false → U !! va = None.
Proof.
  intros Hok Hv. destruct (U !! va) as [pa|] eqn:HU; [|done].
  destruct (uvm_leaf _ _ _ _ _ Hok va pa HU) as (_ & _ & ? & _). congruence.
Qed.

Lemma grown_undo root s0 s s' G0 G U0 U l0 l l' o a :
  uvm_ok s0 root G0 U0 l0 →
  grown root s0 s G0 G U0 U l0 l o a → unmapped root s s' G U l l' o a →
  (∀ x, o ≤ x < a → pte_valid (leaf (mem s0) root x) = false) → a mod PGSIZE = 0 →
  restored root s0 s' G0 G U0 l0 l'.
Proof.
  intros Hok0 Hg (Hok & Hown & Hleaf & Hkeep & Hfm) Hun Hal.
  assert (unmap o a U = U0) as HU.
  { apply map_eq. intros va. rewrite lookup_unmap. destruct (decide (o ≤ va < a)) as [Hr|Hr].
    - if_true. symmetry. by eapply uvm_unmapped, Hun.
    - if_false. destruct (U !! va) as [pa|] eqn:Hva.
      + by destruct (gn_keys _ _ _ _ _ _ _ _ _ _ _ _ _ Hg va pa Hva).
      + symmetry. eapply lookup_weaken_None; [done|apply (gn_old _ _ _ _ _ _ _ _ _ _ _ _ _ Hg)]. }
  rewrite HU in *. split; [done|apply (gn_sub _ _ _ _ _ _ _ _ _ _ _ _ _ Hg)| | | |].
  - intros p. by rewrite Hown, (gn_own _ _ _ _ _ _ _ _ _ _ _ _ _ Hg).
  - intros x Hx. rewrite Hleaf by lia. unfold clear_leaf.
    destruct (decide (o ≤ PGROUNDDOWN x < a)) as [Hr|Hr].
    + if_true. right. split; [done|]. apply Hun.
      destruct (PGROUNDDOWN_bounds x) as [Hxal ?]. destruct (pages_apart (PGROUNDDOWN x) a); try done; lia.
    + if_false. left. by apply (gn_leaf _ _ _ _ _ _ _ _ _ _ _ _ _ Hg).
  - eapply keeps_trans; [|done]. apply (gn_keeps _ _ _ _ _ _ _ _ _ _ _ _ _ Hg).
  - eapply framed_trans; [apply (gn_framed _ _ _ _ _ _ _ _ _ _ _ _ _ Hg)|].
    eapply framed_mono; [|done]. intros p. by rewrite (gn_own _ _ _ _ _ _ _ _ _ _ _ _ _ Hg).
Qed.

(** Failure to map one more page. *)
Lemma grown_same root s0 s s' G0 G G' U0 U l0 l l' o a :
  grown root s0 s G0 G U0 U l0 l o a →
  uvm_ok s' root G' U l' → G ⊆ G' → (∀ p, own G' U l' p ↔ own G U l p) → keeps U s s' →
  framed (own G U l) s s' →
  (∀ x, 0 ≤ x < 2 ^ 39 → leaf (mem s') root x = leaf (mem s) root x) →
  grown root s0 s' G0 G' U0 U l0 l' o a.
Proof.
  intros [Hok Hsub Hown Hold Hkeys Hnew Hleaf Hkeep Hfm] Hok' Hsub' Hown' Hk' Hfm' Hleaf'. split; try done.
  - by etrans.
  - intros p. by rewrite Hown'.
  - intros va Hal Hr. destruct (Hnew va Hal Hr) as (pa & Hva & Hpte & Hz). exists pa.
    destruct (uvm_leaf _ _ _ _ _ Hok va pa Hva) as (_ & Hvr & _).
    split_and!; [done|rewrite Hleaf' by lia; done|]. intros i Hi.
    rewrite (Hk' va pa (pa + i)) by (done || unfold in_page; lia). by apply Hz.
  - intros x Hx Hr. rewrite Hleaf' by lia. by apply Hleaf.
  - eapply keeps_trans; [done|]. by eapply keeps_mono.
  - eapply framed_trans; [done|]. eapply framed_mono; [|done]. intros p'. apply Hown.
Qed.

Lemma grown_add root s0 s s' G0 G G' U0 U l0 l l' o a p :
  grown root s0 s G0 G U0 U l0 l o a →
  uvm_ok s' root G' (<[a := p]> U) l' → G ⊆ G' →
  (∀ q, own G' (<[a := p]> U) l' q ↔ own G U l q) → keeps U s s' →
  framed (own G U l) s s' →
  U !! a = None → o ≤ a → a mod PGSIZE = 0 → 0 ≤ a < MAXVA →
  (∀ x, 0 ≤ x < 2 ^ 39 → leaf (mem s') root x = map_leaf (leaf (mem s) root) a 1 p (perm a) x) →
  (∀ i, 0 ≤ i < PGSIZE → rd (mem s') (p + i) = byte a i) →
  grown root s0 s' G0 G' U0 (<[a := p]> U) l0 l' o (a + PGSIZE).
Proof.
  intros [Hok Hsub Hown Hold Hkeys Hnew Hleaf Hkeep Hfm] Hok' Hsub' Hown' Hk' Hfm' Ha Hoa Hal Har Hleaf' Hz'.
  split; try done.
  - by etrans.
  - intros q. by rewrite Hown'.
  - etrans; [done|]. by apply insert_subseteq.
  - intros va pa [[<- <-]|[_ Hva]]%lookup_insert_Some; [right; lia|].
    destruct (Hkeys va pa Hva); [by left|right; lia].
  - intros va Hval Hr. destruct (decide (va = a)) as [->|Hne].
    + exists p. rewrite lookup_insert_eq. split_and!; [done| |done].
      rewrite Hleaf', map_leaf_1, Z.eqb_refl by (done || lia). done.
    + destruct (pages_apart va a) as [?|?]; try done; [|lia].
      destruct (Hnew va Hval ltac:(lia)) as (pa & Hva & Hpte & Hz). exists pa.
      destruct (uvm_leaf _ _ _ _ _ Hok va pa Hva) as (_ & Hvr & _).
      rewrite lookup_insert_ne by done. split_and!; [done| |].
      * rewrite Hleaf' by lia. unfold map_leaf. rewrite (PGROUNDDOWN_aligned va) by done. by if_false.
      * intros i Hi. rewrite (Hk' va pa (pa + i)) by (done || unfold in_page; lia). by apply Hz.
  - intros x Hx Hr. rewrite Hleaf' by lia. unfold map_leaf. if_false. apply Hleaf; [done|lia].
  - eapply keeps_trans; [done|]. by eapply keeps_mono.
  - eapply framed_trans; [done|]. eapply framed_mono; [|done]. intros p'. apply Hown.
Qed.

End grown_lemmas.

(** What a round of [uvmalloc] or [uvmcopy] may assume of the state it ends in. *)
Record page_round root (s s' : kmem) G G' U U' l l' : Prop := {
  pr_ok : uvm_ok s' root G' U' l';
  pr_sub : G ⊆ G';
  pr_own p : own G' U' l' p ↔ own G U l p;
  pr_keeps : keeps U s s';
  pr_framed : framed (own G U l) s s'
}.

Lemma own_take G U l p q : own G U (p :: l) q ↔ q = p ∨ own G U l q.
Proof. unfold own. rewrite elem_of_cons. tauto. Qed.

Lemma own_insert G U l a p q :
  U !! a = None → own G (<[a := p]> U) l q ↔ q = p ∨ own G U l q.
Proof.
  intros Ha. unfold own. split.
  - intros [?|[(va & [[_ ->]|[_ ?]]%lookup_insert_Some)|?]]; eauto 6.
  - intros [->|[?|[(va & Hva)|?]]]; eauto.
    + right; left. exists a. by rewrite lookup_insert_eq.
    + right; left. exists va. rewrite lookup_insert_ne; [done|congruence].
Qed.

(** A round that allocates a page, fills it, and maps it at [a]. *)
Section round.
  Variable (root a perm : Z) (fill : Z → gmap Z Z → gmap Z Z) (kf kok : M kmem Z)
    (s : kmem) (G : gmap Z (list Z)) (U : gmap Z Z) (l : list Z) (Q : Z → kmem → Prop).
  Hypotheses (Hok : uvm_ok s root G U l) (Hal : a mod PGSIZE = 0) (Ha : 0 ≤ a < MAXVA)
    (Hperm : 0 ≤ perm < 2 ^ 10) (Hfl : Z.lor perm PTE_V ≠ PTE_V)
    (Hun : pte_valid (leaf (mem s) root a) = false)
    (Hfill : ∀ p m, 0 < p → mem_ok m → mem_ok (fill p m) ∧ same_but p m (fill p m))
    (Hfail : ∀ s' G' l', page_round root s s' G G' U U l l' →
       (∀ x, 0 ≤ x < 2 ^ 39 → leaf (mem s') root x = leaf (mem s) root x) →
       returns kf s' (λ r s'' _, Q r s''))
    (Hcont : ∀ s' G' l' p, page_round root s s' G G' U (<[a := p]> U) l l' → U !! a = None →
       (∀ x, 0 ≤ x < 2 ^ 39 → leaf (mem s') root x = map_leaf (leaf (mem s) root) a 1 p perm x) →
       p ∈ l →
       (∀ x, in_page p x → rd (mem s') x = rd (fill p (mem (kalloc_result p s))) x) →
       returns kok s' (λ r s'' _, Q r s'')).

Lemma page_round_spec :
  returns (mem ← kalloc;
           if mem =? 0 then kf
           else
             modify (λ s, set_mem (fill mem (Kalloc.mem s)) s);;
             r ← mappages root a PGSIZE mem perm;
             if negb (r =? 0) then kfree kend mem;; kf else kok) s (λ r s' _, Q r s').
Proof.
  pose proof (uvm_unmapped _ _ _ _ _ _ Hok Hun) as HUa.
  pose proof (vm_kmem _ _ _ _ _ (uvm_vm _ _ _ _ _ Hok)) as Hk. destruct l as [|p l1].
  { call (apply (kalloc_empty kend), Hk). apply (Hfail s G []); [|done]. by split. }
  call (apply (kalloc_run kend p l1), Hk).
  destruct (uvm_kalloc s root G U l1 p Hok) as (Hok1 & Hfr & Hst1 & Hk1).
  pose proof (kalloc_same_but p s) as Hsb1. remember (kalloc_result p s) as s1 eqn:Hs1.
  pose proof (ram_page_range _ p Hkend (proj1 Hfr)). if_false. call reflexivity.
  destruct (Hfill p (mem s1)) as [Hm2 Hsb2];
    [lia|apply (inv_mem _ _ _ (vm_kmem _ _ _ _ _ (uvm_vm _ _ _ _ _ Hok1)))|].
  destruct (uvm_write s1 _ root G U l1 p Hok1 Hfr Hm2 Hsb2) as (Hok2 & Hst2 & Hk2).
  change (same_but p (mem s1) (mem (set_mem (fill p (mem s1)) s1))) in Hsb2.
  change (same_tables root (mem s1) (mem (set_mem (fill p (mem s1)) s1))) in Hst2.
  assert (∀ x, rd (mem (set_mem (fill p (mem s1)) s1)) x = rd (fill p (mem s1)) x) as Hf2 by done.
  set (s2 := set_mem (fill p (mem s1)) s1) in *. clearbody s2.
  assert (∀ x, leaf (mem s2) root x = leaf (mem s) root x) as Hleaf2.
  { intros x. by rewrite (proj2 (Hst2 x)), (proj2 (Hst1 x)). }
  assert (keeps U s s2) as Hk12 by (by eapply keeps_trans).
  assert (own G U (p :: l1) p) as Hpown by (right; right; by left).
  assert (framed (own G U (p :: l1)) s s2) as Hfm2.
  { eapply framed_trans; by eapply framed_page. }
  call_spec (uvm_mappage s2 root G U l1 a p perm Hok2 Hfr Hal Ha Hperm Hfl);
    [by rewrite Hleaf2|].
  intros r s3 t (G' & U' & l' & Hok3 & Hsub & Hown & Hk3 & Hkp & Hfm3 & Hr).
  assert (framed (own G U (p :: l1)) s s3) as Hfm13.
  { eapply framed_trans; [done|]. eapply framed_mono; [|done]. intros q. rewrite own_take. by right. }
  assert (keeps U s s3) as Hk13 by (by eapply keeps_trans).
  destruct Hr as [(-> & -> & Hleaf3)|(-> & -> & Hfr3 & Hleaf3)].
  - apply (Hcont s3 G' l' p); [split; try done|done| |by left|].
    + intros q. rewrite own_insert, own_take by done. by rewrite Hown.
    + intros x Hx. rewrite Hleaf3 by lia. by apply map_leaf_ext.
    + intros x Hx. by rewrite <-Hs1, <-Hf2, Hkp.
  - cbn [Z.eqb negb]. call (apply kfree_run, (proj1 Hfr3)).
    destruct (uvm_unfresh s3 root G' U l' p Hok3 Hfr3) as (Hok4 & Hst4 & Hk4).
    pose proof (kfree_same_but p s3) as Hsb4. set (s4 := kfree_result p s3) in *. clearbody s4.
    apply (Hfail s4 G' (p :: l')); [split; try done|].
    + intros q. rewrite !own_take. by rewrite Hown.
    + by eapply keeps_trans.
    + eapply framed_trans; [done|]. by eapply framed_page.
    + intros x Hx. by rewrite (proj2 (Hst4 x)), Hleaf3.
Qed.
End round.

Lemma same_but_memset p c m : 0 < p → mem_ok m → mem_ok (memset m p c PGSIZE) ∧ same_but p m (memset m p c PGSIZE).
Proof.
  intros Hp Hm. split; [by apply mem_ok_memset|]. intros x Hx. unfold in_page in Hx.
  apply rd_memset_out. lia.
Qed.

Lemma user_perm xperm :
  0 ≤ xperm < 2 ^ 10 →
  let perm := Z.lor (Z.lor PTE_R PTE_U) xperm in
  0 ≤ perm < 2 ^ 10 ∧ Z.lor perm PTE_V ≠ PTE_V.
Proof.
  intros Hx perm. split.
  - assert (perm = perm mod 2 ^ 10) as ->; [|apply Z.mod_pos_bound; lia].
    unfold perm. rewrite <-!Z.land_ones, !Z.land_lor_distr_l by lia. rewrite !Z.land_ones by lia.
    by rewrite (Z.mod_small xperm).
  - intros H. apply (f_equal (λ z, Z.testbit z 1)) in H. unfold perm in H.
    by rewrite !Z.lor_spec in H.
Qed.

(** The loop of [uvmalloc], [n] pages from its end. *)
Lemma uvmalloc_loop_spec root o newsz xperm n fuel a s0 s G0 G U0 U l0 l :
  let perm := Z.lor (Z.lor PTE_R PTE_U) xperm in
  let grown := grown (λ _, perm) (λ _ _, 0) in
  (n < fuel)%nat → uvm_ok s0 root G0 U0 l0 → grown root s0 s G0 G U0 U l0 l o a →
  o mod PGSIZE = 0 → a mod PGSIZE = 0 → 0 ≤ o ≤ a → newsz ≤ MAXVA → 0 ≤ xperm < 2 ^ 10 →
  newsz ≤ a + Z.of_nat n * PGSIZE < newsz + PGSIZE →
  (∀ x, o ≤ x < newsz → pte_valid (leaf (mem s0) root x) = false) →
  returns (uvmalloc_loop kend fuel root a o newsz xperm) s (λ r s' _, ∃ G' U' l',
    (r = newsz ∧ grown root s0 s' G0 G' U0 U' l0 l' o (a + Z.of_nat n * PGSIZE)) ∨
    (r = 0 ∧ restored root s0 s' G0 G' U0 l0 l')).
Proof.
  intros perm grown Hf. revert fuel a s G U l Hf.
  induction n as [|n IH]; intros fuel a s G U l Hf Hok0 Hg Hoal Hal Hoa Hmax Hxp Hn Hun;
    destruct fuel as [|fuel]; try lia; cbn [uvmalloc_loop].
  - if_false. apply returns_ret. exists G, U, l. left. split; [done|].
    by replace (a + Z.of_nat 0 * PGSIZE) with a by lia.
  - if_true.
    apply (page_round_spec root a perm (λ p m, memset m p 0 PGSIZE)
      (uvmdealloc kend root a o;; mret 0) _ s G U l
      (λ r s', ∃ G' U' l',
        (r = newsz ∧ grown root s0 s' G0 G' U0 U' l0 l' o (a + Z.of_nat (S n) * PGSIZE)) ∨
        (r = 0 ∧ restored root s0 s' G0 G' U0 l0 l'))).
    + apply (gn_ok _ _ _ _ _ _ _ _ _ _ _ _ _ Hg).
    + done.
    + lia.
    + by apply user_perm.
    + by apply user_perm.
    + rewrite (gn_leaf _ _ _ _ _ _ _ _ _ _ _ _ _ Hg); [apply Hun; lia|lia|].
      rewrite PGROUNDDOWN_aligned by done. lia.
    + intros p m. apply same_but_memset.
    + intros s' G' l' [Hok1 Hsub1 Hown1 Hk1 Hfm1] Hleaf1.
      assert (grown root s0 s' G0 G' U0 U l0 l' o a) as Hg' by (by eapply grown_same).
      call_spec (uvmdealloc_run root a o s' G' U l'); [done|lia|lia| |].
      { intros va Hva. rewrite !PGROUNDUP_aligned by (done || lia). intros Hr.
        by destruct (gn_new _ _ _ _ _ _ _ _ _ _ _ _ _ Hg' va Hva Hr) as (pa & -> & _). }
      intros r s2 t (-> & l2 & Hum). apply returns_ret. exists G', U0, l2. right. split; [done|].
      rewrite !PGROUNDUP_aligned in Hum by (done || lia).
      eapply grown_undo; try done. intros x Hx. apply Hun. lia.
    + intros s' G' l' p [Hok1 Hsub1 Hown1 Hk1 Hfm1] HUa Hleaf1 _ Hz1. rewrite u64_small by lia.
      replace (a + Z.of_nat (S n) * PGSIZE) with ((a + PGSIZE) + Z.of_nat n * PGSIZE) by lia.
      apply (IH fuel (a + PGSIZE) s' G' (<[a := p]> U) l'); try done; try lia; [|by apply aligned_next].
      eapply grown_add; try done; try lia. intros i Hi. rewrite Hz1 by (unfold in_page; lia).
      rewrite rd_memset by lia. by if_true.
Qed.

Lemma PGROUNDUP_pages oldsz newsz :
  0 ≤ oldsz ≤ newsz → newsz ≤ MAXVA →
  let o := PGROUNDUP oldsz in
  ∃ n : nat, (n < S (S (Z.to_nat ((newsz - o) / PGSIZE))))%nat ∧
  newsz ≤ o + Z.of_nat n * PGSIZE < newsz + PGSIZE ∧
  o + Z.of_nat n * PGSIZE = PGROUNDUP newsz.
Proof.
  intros ? ? o. destruct (PGROUNDUP_bounds oldsz) as [Ho Ho']; [lia|lia|].
  destruct (PGROUNDUP_bounds newsz) as [Hn Hn']; [lia|lia|]. fold o in Ho, Ho'.
  assert (o ≤ PGROUNDUP newsz) as Hle.
  { subst o. rewrite !PGROUNDUP_eq by lia. unfold PGSIZE in *. Z.div_mod_to_equations. lia. }
  destruct (Z.ltb_spec o newsz).
  - exists (Z.to_nat ((PGROUNDUP newsz - o) / PGSIZE)). rewrite (page_count o _ Ho Hn Hle). split; [|lia].
    assert ((PGROUNDUP newsz - o) / PGSIZE ≤ (newsz - o) / PGSIZE + 1); [|lia].
    rewrite <-Z.div_add by lia. apply Z.div_le_mono; lia.
  - exists O. assert (o = PGROUNDUP newsz); [|lia].
    destruct (decide (o = PGROUNDUP newsz)) as [|Hne]; [done|].
    destruct (pages_apart _ _ Ho Hn Hne); lia.
Qed.


(** C4: [uvmalloc] is atomic.  From a well-formed address space whose pages
    between [oldsz] and [newsz] are unmapped it returns, and either the result
    is [newsz] and exactly the pages of [oldsz, newsz) were added, each backed
    by a frame of its own that is zeroed and has the permissions asked for, or
    the result is 0 and the user pages, their frames and all their bytes are
    as before.  In both cases no page is lost: the tables, the user frames and
    the free list hold together the pages they held. *)
Theorem uvmalloc_atomic root oldsz newsz xperm s G U l :
  uvm_ok s root G U l → 0 ≤ oldsz ≤ newsz → newsz ≤ MAXVA → 0 ≤ xperm < 2 ^ 10 →
  (∀ x, PGROUNDUP oldsz ≤ x < newsz → pte_valid (leaf (mem s) root x) = false) →
  returns (uvmalloc kend root oldsz newsz xperm) s (λ r s' _, ∃ G' U' l',
    (r = newsz ∧ grown (λ _, Z.lor (Z.lor PTE_R PTE_U) xperm) (λ _ _, 0) root s s' G G' U U' l l'
                   (PGROUNDUP oldsz) (PGROUNDUP newsz)) ∨
    (r = 0 ∧ restored root s s' G G' U l l')).
Proof.
  intros Hok Hsz Hmax Hxp Hun. unfold uvmalloc. if_false.
  destruct (PGROUNDUP_pages oldsz newsz Hsz Hmax) as (n & Hf & Hn & Hend). rewrite <-Hend.
  destruct (PGROUNDUP_bounds oldsz) as [Ho Ho']; [lia|lia|].
  apply (uvmalloc_loop_spec _ _ _ _ _ _ _ s s G G U U l l); try done; [by apply grown_refl|lia].
Qed.
End user.
