(* ===== verification/VmFree.v ===== *)
(** * Freeing an address space

    [freewalk] and [uvmfree] give every page of a table, and every user
    frame, back to the allocator. *)

From S2P Require Import Prelude Riscv Memory Kalloc Vm VmTable VmUser.

Section free.
  Variable kend : Z.
  Hypothesis Hkend : 0 < kend.
  Implicit Types (s : kmem) (G : gmap Z (list Z)) (l path : list Z).

(** The tables at or below a path. *)
Definition under G path (q : Z) : Prop := ∃ rest, G !! q = Some (path ++ rest).

(** The part of a table below [path], with no leaf mapped. *)
Record sub_ok (m : gmap Z Z) G path : Prop := {
  so_down q rest i :
    G !! q = Some (path ++ rest) → (length (path ++ rest) < 2)%nat → 0 ≤ i < 512 →
    pte_valid (pte_at m q i) = true →
    G !! PTE2PA (pte_at m q i) = Some ((path ++ rest) ++ [i]) ∧ PTE_FLAGS (pte_at m q i) = PTE_V;
  so_up q rest i :
    G !! q = Some ((path ++ rest) ++ [i]) →
    0 ≤ i < 512 ∧ ∃ r, G !! r = Some (path ++ rest) ∧
      pte_valid (pte_at m r i) = true ∧ PTE2PA (pte_at m r i) = q;
  so_leaf q rest i :
    G !! q = Some (path ++ rest) → length (path ++ rest) = 2%nat → 0 ≤ i < 512 →
    pte_valid (pte_at m q i) = false
}.

Lemma sub_ok_child m G path i : sub_ok m G path → sub_ok m G (path ++ [i]).
Proof.
  intros [Hd Hu Hl]. split; intros q rest j; rewrite <-(assoc_L (++) path [i] rest).
  - apply Hd.
  - apply Hu.
  - apply Hl.
Qed.

Lemma sub_ok_ext m m' G path :
  (∀ q x, under G path q → in_page q x → rd m' x = rd m x) → sub_ok m G path → sub_ok m' G path.
Proof.
  intros Hs [Hd Hu Hl].
  assert (∀ q rest i, G !! q = Some (path ++ rest) → 0 ≤ i < 512 → pte_at m' q i = pte_at m q i) as He.
  { intros q rest i Hq Hi. apply pte_at_ext; [done|]. intros x. apply Hs. by exists rest. }
  split.
  - intros q rest i Hq ? Hi. rewrite (He q rest i Hq Hi). by apply Hd.
  - intros q rest i Hq. destruct (Hu q rest i Hq) as (Hi & r & Hr & ? & ?). split; [done|].
    exists r. by rewrite (He r rest i Hr Hi).
  - intros q rest i Hq ? Hi. rewrite (He q rest i Hq Hi). by apply (Hl q rest).
Qed.

Section tree.
  Variable G : gmap Z (list Z).
  Hypothesis Hinj : ∀ p q path, G !! p = Some path → G !! q = Some path → p = q.
  Hypothesis Hpage : ∀ p path, G !! p = Some path → ram_page kend p ∧ (length path ≤ 2)%nat.

Lemma under_top m path q : sub_ok m G path → under G path q → ∃ r, G !! r = Some path.
Proof.
  intros Hok [rest Hq]. revert q Hq. induction rest as [|i rest IH] using rev_ind; intros q Hq.
  - exists q. by rewrite app_nil_r in Hq.
  - rewrite (assoc_L (++)) in Hq. destruct (so_up _ _ _ Hok q rest i Hq) as (_ & r & Hr & _).
    by apply (IH r).
Qed.

Lemma under_siblings path i j q : under G (path ++ [i]) q → under G (path ++ [j]) q → i = j.
Proof.
  intros [r1 H1] [r2 H2]. rewrite H1 in H2. injection H2 as H2.
  rewrite <-!(assoc_L (++)) in H2. apply app_inv_head in H2. simpl in H2. congruence.
Qed.

Lemma under_parent path i p : G !! p = Some path → ¬ under G (path ++ [i]) p.
Proof.
  intros Hp [rest H]. rewrite Hp in H. injection H as H. apply (f_equal length) in H.
  rewrite !length_app in H. simpl in H. lia.
Qed.

Lemma under_aligned path q : under G path q → q mod PGSIZE = 0.
Proof. intros [rest Hq]. by destruct (Hpage _ _ Hq) as [[? _] _]. Qed.

Lemma under_apart path i p q x :
  G !! p = Some path → under G (path ++ [i]) q → in_page p x → ¬ in_page q x.
Proof.
  intros Hp Hq Hpx Hqx. apply (under_parent path i p Hp).
  assert (p = q) as ->; [|done]. apply (pages_disjoint p q x); try done.
  - by destruct (Hpage _ _ Hp) as [[? _] _].
  - by eapply under_aligned.
Qed.

(** Freeing what is below [path]. *)
Definition freed (P : Z → Prop) s s' l l' : Prop :=
  kmem_inv kend s' l' ∧ (∀ q, q ∈ l' ↔ q ∈ l ∨ P q) ∧ framed P s s'.

(** What [freewalk] does with the table at [path]. *)
Definition frees (f : Z → M kmem unit) path : Prop :=
  ∀ q s l, G !! q = Some path → sub_ok (mem s) G path → kmem_inv kend s l →
    (∀ x, under G path x → x ∉ l) →
    returns (f q) s (λ _ s' _, ∃ l', freed (under G path) s s' l l').

(** The loop's state before entry [i] of the table [p]. *)
Record at_entry (p : Z) path (i : Z) s l : Prop := {
  ae_inv : kmem_inv kend s l;
  ae_down j : i ≤ j < 512 → pte_valid (pte_at (mem s) p j) = true →
    G !! PTE2PA (pte_at (mem s) p j) = Some (path ++ [j]) ∧ PTE_FLAGS (pte_at (mem s) p j) = PTE_V;
  ae_up j q : i ≤ j → G !! q = Some (path ++ [j]) →
    j < 512 ∧ pte_valid (pte_at (mem s) p j) = true;
  ae_sub j : i ≤ j → sub_ok (mem s) G (path ++ [j]);
  ae_self : p ∉ l;
  ae_free j x : i ≤ j → under G (path ++ [j]) x → x ∉ l
}.

Lemma at_entry_next p path i s s' l l' :
  G !! p = Some path → at_entry p path i s l → 0 ≤ i < 512 →
  kmem_inv kend s' l' → (∀ q, q ∈ l' ↔ q ∈ l ∨ under G (path ++ [i]) q) →
  (∀ x, ¬ (p + 8 * i ≤ x < p + 8 * i + 8) → (∀ q, under G (path ++ [i]) q → ¬ in_page q x) →
     rd (mem s') x = rd (mem s) x) →
  at_entry p path (i + 1) s' l'.
Proof.
  intros Hp Hat Hi Hinv Hl Hs.
  assert (∀ j, i + 1 ≤ j < 512 → pte_at (mem s') p j = pte_at (mem s) p j) as He.
  { intros j Hj. unfold pte_at. apply ld64_ext. intros x Hx. apply Hs; [lia|].
    intros q Hq. eapply under_apart; try done. unfold in_page. lia. }
  split; try done.
  - intros j Hj. rewrite He by done. apply (ae_down _ _ _ _ _ Hat). lia.
  - intros j q Hj Hq. destruct (ae_up _ _ _ _ _ Hat j q) as [? ?]; [lia|done|]. by rewrite He.
  - intros j Hj. apply (sub_ok_ext (mem s)); [|apply (ae_sub _ _ _ _ _ Hat); lia].
    intros q x Hq Hx. apply Hs.
    + intros Hpx. eapply (under_apart path j p q x); try done. unfold in_page. lia.
    + intros r Hr Hrx. assert (i = j); [|lia]. apply (under_siblings path i j r Hr).
      by rewrite (pages_disjoint r q x (under_aligned _ _ Hr) (under_aligned _ _ Hq) Hrx Hx).
  - rewrite Hl. intros [?|?]; [by apply (ae_self _ _ _ _ _ Hat)|eapply under_parent; eassumption].
  - intros j x Hj Hx. rewrite Hl. intros [?|Hix].
    + by eapply (ae_free _ _ _ _ _ Hat j x); [lia|..].
    + pose proof (under_siblings path i j x Hix Hx). lia.
Qed.

(** One entry of the loop. *)
Lemma freewalk_entry f p path i s l :
  G !! p = Some path → frees f (path ++ [i]) → 0 ≤ i < 512 → at_entry p path i s l →
  returns
    (if pte_valid (pte_at (mem s) p i) &&
        (Z.land (pte_at (mem s) p i) (Z.lor (Z.lor PTE_R PTE_W) PTE_X) =? 0)
     then f (PTE2PA (pte_at (mem s) p i));; store64 (p + 8 * i) 0
     else if pte_valid (pte_at (mem s) p i) then panic "freewalk: leaf" else mret tt) s
    (λ _ s' _, ∃ l', at_entry p path (i + 1) s' l' ∧
       (∀ q, q ∈ l' ↔ q ∈ l ∨ under G (path ++ [i]) q) ∧
       framed (λ q, q = p ∨ under G (path ++ [i]) q) s s').
Proof.
  intros Hp Hf Hi Hat. destruct (pte_valid (pte_at (mem s) p i)) eqn:Hv; cbn [andb].
  - destruct (ae_down _ _ _ _ _ Hat i) as [Hq Hfl]; [lia|done|].
    rewrite land_flags by done. rewrite Hfl.
    change (Z.land PTE_V (Z.lor (Z.lor PTE_R PTE_W) PTE_X) =? 0) with true. cbv iota.
    call_spec (Hf (PTE2PA (pte_at (mem s) p i)) s l Hq);
      [apply (ae_sub _ _ _ _ _ Hat); lia|apply (ae_inv _ _ _ _ _ Hat)|
       intros x Hx; apply (ae_free _ _ _ _ _ Hat i x); [lia|done]|].
    intros [] s1 t1 (l1 & Hinv1 & Hl1 & Hfm1).
    assert (p ∉ l1) as Hpl1.
    { rewrite Hl1. intros [?|?]; [by apply (ae_self _ _ _ _ _ Hat)|by apply (under_parent path i p Hp)]. }
    assert (∀ x, ¬ (p + 8 * i ≤ x < p + 8 * i + 8) →
      rd (st64 (mem s1) (p + 8 * i) 0) x = rd (mem s1) x) as Hst.
    { intros x Hx. apply rd_st64_out. lia. }
    assert (same_but p (mem s1) (st64 (mem s1) (p + 8 * i) 0)) as Hsb.
    { intros x Hx. apply Hst. unfold in_page in Hx. lia. }
    assert (kmem_inv kend (set_mem (st64 (mem s1) (p + 8 * i) 0) s1) l1) as Hinv2.
    { apply (kmem_inv_table kend s1 _ p); try done; [by apply (Hpage _ _ Hp)|].
      apply mem_ok_st64, (inv_mem _ _ _ Hinv1). }
    eapply returns_done; [reflexivity|]. exists l1. split_and!; [|done|].
    + eapply at_entry_next; try done. intros x Hx Hux. etrans; [by apply Hst|by apply Hfm1].
    + eapply framed_trans; [eapply framed_mono; [|done]; by right|].
      apply (framed_page _ p); [by left|done].
  - assert (∀ q, ¬ under G (path ++ [i]) q) as Hno.
    { intros q Hq. destruct (under_top _ _ _ (ae_sub _ _ _ _ _ Hat i ltac:(lia)) Hq) as [r Hr].
      destruct (ae_up _ _ _ _ _ Hat i r) as [_ ?]; [lia|done|congruence]. }
    assert (∀ q, q ∈ l ↔ q ∈ l ∨ under G (path ++ [i]) q) as Hl by (intros q; specialize (Hno q); tauto).
    apply returns_ret. exists l. split_and!; [|done|done].
    apply (at_entry_next p path i s s l l); try done. apply (ae_inv _ _ _ _ _ Hat).
Qed.

(** The tables below the entries from [i] on. *)
Definition from_entry path (i : Z) (q : Z) : Prop := ∃ j, i ≤ j ∧ under G (path ++ [j]) q.

Lemma from_entry_step path i q :
  from_entry path i q ↔ under G (path ++ [i]) q ∨ from_entry path (i + 1) q.
Proof.
  split.
  - intros (j & Hj & Hq). destruct (decide (j = i)) as [->|]; [by left|]. right. exists j. split; [lia|done].
  - intros [?|(j & Hj & Hq)]; [exists i; split; [lia|done]|exists j; split; [lia|done]].
Qed.

Lemma freewalk_loop_spec f p path k i s l :
  G !! p = Some path → (∀ j, frees f (path ++ [j])) → 0 ≤ i → i + Z.of_nat k = 512 →
  at_entry p path i s l →
  returns (freewalk_loop f k p i) s (λ _ s' _, ∃ l',
    kmem_inv kend s' l' ∧ (∀ q, q ∈ l' ↔ q ∈ l ∨ from_entry path i q) ∧
    framed (λ q, q = p ∨ from_entry path i q) s s').
Proof.
  intros Hp Hf. revert i s l. induction k as [|k IH]; intros i s l Hi0 Hi Hat; cbn [freewalk_loop].
  - apply returns_ret. exists l. split_and!; [apply (ae_inv _ _ _ _ _ Hat)| |done].
    intros q. split; [by left|]. intros [?|(j & Hj & Hq)]; [done|].
    destruct (under_top _ _ _ (ae_sub _ _ _ _ _ Hat j Hj) Hq) as [r Hr].
    destruct (ae_up _ _ _ _ _ Hat j r Hj Hr). lia.
  - call reflexivity. fold (pte_at (mem s) p i).
    assert (returns
      (if pte_valid (pte_at (mem s) p i) &&
          (Z.land (pte_at (mem s) p i) (Z.lor (Z.lor PTE_R PTE_W) PTE_X) =? 0)
       then f (PTE2PA (pte_at (mem s) p i));; store64 (p + 8 * i) 0
       else if pte_valid (pte_at (mem s) p i) then panic "freewalk: leaf" else mret tt) s
      (λ _ s' _, ∃ l', at_entry p path (i + 1) s' l' ∧
         (∀ q, q ∈ l' ↔ q ∈ l ∨ under G (path ++ [i]) q) ∧
         framed (λ q, q = p ∨ under G (path ++ [i]) q) s s')) as Hentry.
    { by apply freewalk_entry; try lia. }
    call_spec Hentry. intros [] s1 t1 (l1 & Hat1 & Hl1 & Hfm1).
    eapply returns_mono; [apply (IH (i + 1) s1 l1); [lia|lia|done]|].
    intros [] s2 t2 (l2 & Hinv2 & Hl2 & Hfm2). exists l2. split_and!; [done| |].
    + intros q. rewrite Hl2, Hl1, (from_entry_step path i). tauto.
    + eapply framed_trans; (eapply framed_mono; [|done]); intros q; rewrite (from_entry_step path i); tauto.
Qed.

(** [freewalk] frees the table at [path] and the tables below it. *)
Lemma freewalk_spec d path : (length path + d = 3)%nat → frees (freewalk kend d) path.
Proof.
  revert path. induction d as [|d IH]; intros path Hlen p s l Hp Hok Hinv Hfree.
  - destruct (Hpage _ _ Hp). lia.
  - cbn [freewalk]. assert (at_entry p path 0 s l) as Hat.
    { assert (∀ x, G !! x = Some path → G !! x = Some (path ++ [])) as Hnil
        by (intros; by rewrite app_nil_r).
      split; try done.
      - intros j Hj Hv. destruct (decide (length path = 2%nat)) as [H2|H2].
        + rewrite (so_leaf _ _ _ Hok p [] j) in Hv; [done|by apply Hnil|by rewrite app_nil_r|done].
        + destruct (so_down _ _ _ Hok p [] j) as [Hd Hfl]; try done; [by apply Hnil| |].
          * destruct (Hpage _ _ Hp). rewrite app_nil_r. lia.
          * by rewrite app_nil_r in Hd.
      - intros j q _ Hq. destruct (so_up _ _ _ Hok q [] j) as (? & r & Hr & ? & _);
          [by rewrite app_nil_r|]. rewrite app_nil_r in Hr.
        rewrite (Hinj p r path Hp Hr). split; [lia|done].
      - intros j _. by apply sub_ok_child.
      - apply Hfree. exists []. by apply Hnil.
      - intros j x _ [rest Hx]. apply Hfree. exists ([j] ++ rest). by rewrite (assoc_L (++)). }
    call_spec (freewalk_loop_spec (freewalk kend d) p path 512 0 s l Hp); [|lia|lia|done|].
    { intros j. apply IH. rewrite length_app. simpl. lia. }
    intros [] s1 t1 (l1 & Hinv1 & Hl1 & Hfm1).
    assert (p ∉ l1) as Hpl1.
    { rewrite Hl1. intros [?|(j & _ & ?)]; [by apply (ae_self _ _ _ _ _ Hat)|eapply under_parent; eassumption]. }
    assert (∀ q, under G path q ↔ q = p ∨ from_entry path 0 q) as Hund.
    { intros q. split.
      - intros [[|j rest] Hq]; [left|right].
        + rewrite app_nil_r in Hq. by apply (Hinj q p path).
        + destruct (decide (0 ≤ j)) as [Hj|Hj].
          * exists j. split; [done|]. exists rest. by rewrite <-(assoc_L (++)).
          * exfalso. destruct (under_top (mem s) (path ++ [j]) q) as [r Hr].
            -- by apply sub_ok_child.
            -- exists rest. by rewrite <-(assoc_L (++)).
            -- destruct (so_up _ _ _ Hok r [] j); [by rewrite app_nil_r|lia].
      - intros [->|(j & _ & rest & Hq)]; [by exists []; rewrite app_nil_r|].
        exists ([j] ++ rest). by rewrite (assoc_L (++)). }
    eapply returns_done; [apply kfree_run; by apply (Hpage _ _ Hp)|].
    exists (p :: l1). split_and!.
    + apply kfree_inv; [done|by apply (Hpage _ _ Hp)|done|done].
    + intros q. rewrite elem_of_cons, Hl1, Hund. tauto.
    + eapply framed_trans; [eapply framed_mono; [|done]; intros q; by rewrite Hund|].
      eapply framed_page; [|apply kfree_same_but]. apply Hund. by left.
Qed.
End tree.

(** The address that the indices of a path lead to. *)
Lemma leaf_entry m root G q i j k :
  pt_ok kend m root G → G !! q = Some [i; j] → 0 ≤ k < 512 →
  let va := i * 2 ^ 30 + j * 2 ^ 21 + k * 2 ^ 12 in
  0 ≤ va < 2 ^ 39 ∧ leaf m root va = pte_at m q k.
Proof.
  intros Hok Hq Hk va.
  destruct (pt_up _ _ _ _ Hok q [i] j Hq) as (Hj & r & Hr & Hv & Hpa).
  destruct (pt_up _ _ _ _ Hok r [] i Hr) as (Hi & r0 & Hr0 & Hv0 & Hpa0).
  apply (pt_root_only _ _ _ _ Hok) in Hr0 as ->.
  assert (PX 2 va = i ∧ PX 1 va = j ∧ PX 0 va = k) as (Hp2 & Hp1 & Hp0).
  { rewrite !PX_eq by lia. subst va. change (2 ^ (12 + 9 * 2)) with (2 ^ 30).
    change (2 ^ (12 + 9 * 1)) with (2 ^ 21). change (2 ^ (12 + 9 * 0)) with (2 ^ 12).
    Z.div_mod_to_equations. lia. }
  split; [subst va; lia|]. unfold leaf, leaf_from. cbn [pte_addr].
  change (Z.of_nat 2) with 2. change (Z.of_nat 1) with 1.
  by rewrite Hp2, Hp1, Hp0, Hv0, Hpa0, Hv, Hpa.
Qed.

Lemma pt_sub_ok m root G :
  pt_ok kend m root G → (∀ va, 0 ≤ va < 2 ^ 39 → pte_valid (leaf m root va) = false) →
  sub_ok m G [].
Proof.
  intros Hok Hleaf. split; cbn [app].
  - apply (pt_down _ _ _ _ Hok).
  - apply (pt_up _ _ _ _ Hok).
  - intros q rest k Hq Hlen Hk. destruct rest as [|i [|j [|]]]; try done.
    destruct (leaf_entry m root G q i j k Hok Hq Hk) as [Hva <-]. by apply Hleaf.
Qed.

(** The free list holds all the pages that the address space and the
    allocator held. *)
Definition reclaimed s' G U l : Prop :=
  ∃ l', kmem_inv kend s' l' ∧ ∀ p, p ∈ l' ↔ own G U l p.

(** The same, and only bytes of those pages have changed. *)
Definition returned s s' G U l : Prop :=
  ∃ l', kmem_inv kend s' l' ∧ (∀ p, p ∈ l' ↔ own G U l p) ∧ framed (own G U l) s s'.

Lemma uvmfree_run root sz s G U l :
  uvm_ok kend s root G U l → 0 ≤ sz ≤ MAXVA →
  (∀ va, va mod PGSIZE = 0 → 0 ≤ va < PGROUNDUP sz → is_Some (U !! va)) →
  (∀ va, 0 ≤ va < 2 ^ 39 → pte_valid (leaf (mem s) root va) = true →
     PGROUNDDOWN va < PGROUNDUP sz) →
  returns (uvmfree kend root sz) s (λ _ s' _, returned s s' G U l).
Proof.
  intros Hok Hsz HU Hleaf. unfold uvmfree.
  destruct (PGROUNDUP_bounds sz) as [Hal Hb]; [lia|lia|].
  pose proof (PGROUNDUP_MAXVA sz Hsz). set (P := PGROUNDUP sz) in *.
  assert (returns (if sz >? 0 then uvmunmap kend root 0 (P / PGSIZE) true else mret tt) s
    (λ _ s' _, ∃ l', unmapped kend root s s' G U l l' 0 P)) as Hunmap.
  { case_if.
    - pose proof (page_count 0 P eq_refl Hal ltac:(lia)) as Hn. rewrite Z.sub_0_r in Hn.
      pose proof (Z.div_pos P PGSIZE ltac:(lia) ltac:(lia)).
      replace (P / PGSIZE) with (Z.of_nat (Z.to_nat (P / PGSIZE))) by lia.
      eapply returns_mono; [apply (uvmunmap_free kend Hkend root 0 _ s G U l); try done; try lia|].
      + rewrite Hn. done.
      + intros [] s' t H'. by rewrite Hn in H'.
    - apply returns_ret. exists l. apply unmapped_refl; [|done].
      subst P. by replace sz with 0 by lia. }
  call_spec Hunmap. intros [] s1 t1 (l1 & Hok1 & Hown1 & Hleaf1 & _ & Hfm1).
  assert (unmap 0 P U = ∅) as HUe.
  { apply map_eq. intros va. rewrite lookup_unmap, lookup_empty. case_if; [done|].
    destruct (U !! va) as [pa|] eqn:Hva; [|done].
    destruct (uvm_leaf _ _ _ _ _ _ Hok va pa Hva) as (Hval & Hr & Hv & _).
    specialize (Hleaf va ltac:(lia) Hv). rewrite PGROUNDDOWN_aligned in Hleaf by done.
    apply andb_false_iff in E. lia. }
  rewrite HUe in Hok1, Hown1. destruct (uvm_vm _ _ _ _ _ _ Hok1) as [Hk1 Hpt1 Hfree1].
  eapply returns_mono.
  - apply (freewalk_spec G (λ p q path, pt_path_inj kend _ _ _ path p q Hpt1)
      (pt_page _ _ _ _ Hpt1) 3 [] eq_refl root s1 l1); [apply (pt_root _ _ _ _ Hpt1)| |done|].
    + apply (pt_sub_ok _ root); [done|]. intros va Hva. rewrite Hleaf1 by done. unfold clear_leaf.
      pose proof (PGROUNDDOWN_nonneg va ltac:(lia)).
      case_if; [done|]. apply not_true_is_false. intros Hv. apply Hleaf in Hv; [|done].
      apply andb_false_iff in E. lia.
    + intros x [path Hx] Hl. rewrite (Hfree1 x Hl) in Hx. done.
  - intros [] s2 t2 (l2 & Hk2 & Hl2 & Hfm2). exists l2. split; [done|]. split.
    + intros p. rewrite Hl2, <-Hown1. unfold own, under. setoid_rewrite lookup_empty. cbn [app].
      unfold is_Some. naive_solver.
    + eapply framed_trans; [exact Hfm1|]. eapply framed_mono; [|exact Hfm2]. intros p [path Hp]. left. by exists path.
Qed.

(** C29: [uvmfree] loses nothing.  For an address space whose mapped pages are
    exactly those below [PGROUNDUP(sz)], it returns without a panic, and the
    free list then holds every page of the table, every user frame and what it
    held before, each once, and nothing else. *)
Theorem uvmfree_frees_all root sz s G U l :
  uvm_ok kend s root G U l → 0 ≤ sz ≤ MAXVA →
  (∀ va, va mod PGSIZE = 0 → 0 ≤ va < PGROUNDUP sz → is_Some (U !! va)) →
  (∀ va, 0 ≤ va < 2 ^ 39 → pte_valid (leaf (mem s) root va) = true →
     PGROUNDDOWN va < PGROUNDUP sz) →
  returns (uvmfree kend root sz) s (λ _ s' _, reclaimed s' G U l).
Proof.
  intros Hok Hsz HU Hleaf. eapply returns_mono; [by apply uvmfree_run|].
  intros [] s' t (l' & Hk & Hl & _). by exists l'.
Qed.
End free.
