(* ===== verification/VmCopy.v ===== *)
(** * Copying memory between address spaces and the kernel

    [uvmcopy], with which [fork] gives the child its memory, and [copyout],
    [copyin] and [copyinstr]. *)

From S2P Require Import Prelude Riscv Memory Kalloc Vm VmTable VmUser.

(** A valid entry has [PTE_V] among its flags already. *)
Lemma flags_valid v : pte_valid v = true → Z.lor (PTE_FLAGS v) PTE_V = PTE_FLAGS v.
Proof.
  rewrite pte_valid_flags. unfold truthy. intros H. bool_prop.
  assert (Z.testbit (PTE_FLAGS v) 0 = true) as Hb.
  { destruct (Z.testbit (PTE_FLAGS v) 0) eqn:E; [done|]. exfalso. apply H.
    apply Z.bits_inj'. intros n Hn. rewrite Z.land_spec, Z.bits_0.
    destruct (decide (n = 0)) as [->|]; [by rewrite E|].
    change PTE_V with (2 ^ 0). rewrite Z.pow2_bits_false by lia. by rewrite andb_false_r. }
  apply Z.bits_inj'. intros n Hn. rewrite Z.lor_spec.
  destruct (decide (n = 0)) as [->|]; [by rewrite Hb|].
  change PTE_V with (2 ^ 0). rewrite Z.pow2_bits_false by lia. by rewrite orb_false_r.
Qed.

Lemma flags_range v : 0 ≤ PTE_FLAGS v < 2 ^ 10.
Proof.
  unfold PTE_FLAGS. change 0x3FF with (Z.ones 10). rewrite Z.land_ones by lia.
  apply Z.mod_pos_bound. lia.
Qed.

Lemma same_but_memmove p src m :
  0 < p → mem_ok m → mem_ok (memmove m p src PGSIZE) ∧ same_but p m (memmove m p src PGSIZE).
Proof.
  intros Hp Hm. split; [apply mem_ok_memmove; [lia|done]|]. intros x Hx. unfold in_page in Hx.
  apply rd_memmove_out; lia.
Qed.

Section copy.
  Variable kend : Z.
  Hypothesis Hkend : 0 < kend.
  Implicit Types (s : kmem) (G : gmap Z (list Z)) (U : gmap Z Z) (l : list Z).

(** ** [uvmcopy] *)

Section uvmcopy.
  (** The parent's and the child's address space before the copy. *)
  Variables (old new sz : Z) (s0 : kmem) (G0 G1 : gmap Z (list Z)) (U0 U1 : gmap Z Z) (l0 : list Z).
  Hypotheses (Hold : uvm_ok kend s0 old G0 U0 l0) (Hnew : uvm_ok kend s0 new G1 U1 l0)
    (Hdisj : ∀ p, is_Some (G0 !! p) ∨ (∃ va, U0 !! va = Some p) → ¬ own G1 U1 l0 p)
    (Hsz : sz ≤ MAXVA)
    (Hmapped : ∀ va, va mod PGSIZE = 0 → 0 ≤ va < sz → is_Some (U0 !! va))
    (Hun : ∀ x, 0 ≤ x < sz → pte_valid (leaf (mem s0) new x) = false).

(** What the child gets. *)
Definition copy_perm (va : Z) : Z := PTE_FLAGS (leaf (mem s0) old va).
Definition copy_byte (va i : Z) : Z := rd (mem s0) (PTE2PA (leaf (mem s0) old va) + i).
Local Notation copied := (grown kend copy_perm copy_byte new s0).

Lemma parent_kept s G U l :
  kmem_inv kend s l → (∀ p, own G U l p → own G1 U1 l0 p) → framed (own G1 U1 l0) s0 s →
  uvm_ok kend s old G0 U0 l ∧ same_tables old (mem s0) (mem s) ∧ keeps U0 s0 s.
Proof.
  intros Hk Hown Hfm.
  assert (∀ q x, is_Some (G0 !! q) ∨ (∃ va, U0 !! va = Some q) → in_page q x →
    rd (mem s) x = rd (mem s0) x) as Hs.
  { intros q x Hq Hx. apply Hfm. intros p Hp Hpx. apply (Hdisj q Hq).
    assert (q = p) as ->; [|done]. apply (pages_disjoint q p x); try done.
    - destruct Hq as [[path Hq]|[va Hq]].
      + by eapply pt_aligned, Hq; apply (vm_pt _ _ _ _ _ (uvm_vm _ _ _ _ _ _ Hold)).
      + by apply (uvm_frame _ _ _ _ _ _ Hold va q Hq).
    - by eapply own_aligned. }
  destruct (uvm_ok_same kend s0 s old G0 U0 U0 l0 l Hold Hk) as [Hok Hst]; try done.
  - intros p x Hp. apply Hs. by left.
  - intros p Hp. assert (own G1 U1 l0 p) as Hp1 by (apply Hown; right; by right).
    split; [destruct (G0 !! p) eqn:HG; [|done]|intros va Hva].
    + destruct (Hdisj p); [left; by eexists|done].
    + destruct (Hdisj p); [right; by exists va|done].
  - split_and!; try done. intros va pa x Hva. apply Hs. right. by exists va.
Qed.

Lemma uvmcopy_undo i s s' G G' U l l' :
  copied s G1 G U1 U l0 l 0 i → page_round kend new s s' G G' U U l l' →
  (∀ x, 0 ≤ x < 2 ^ 39 → leaf (mem s') new x = leaf (mem s) new x) →
  i mod PGSIZE = 0 → 0 ≤ i < sz →
  returns (uvmunmap kend new 0 (i / PGSIZE) true;; mret (-1)) s' (λ r s'' _, ∃ l'',
    r = -1 ∧ restored kend new s0 s'' G1 G' U1 l0 l'').
Proof.
  intros Hg [Hok1 Hsub1 Hown1 Hk1 Hfm1] Hleaf1 Hal Hi.
  assert (copied s' G1 G' U1 U l0 l' 0 i) as Hg' by (by eapply grown_same).
  pose proof (page_count 0 i eq_refl Hal ltac:(lia)) as Hn. rewrite Z.sub_0_r in Hn.
  pose proof (Z.div_pos i PGSIZE ltac:(lia) ltac:(lia)).
  replace (i / PGSIZE) with (Z.of_nat (Z.to_nat (i / PGSIZE))) by lia.
  call_spec (uvmunmap_free kend Hkend new 0 _ s' G' U l'); [done|done|lia|lia| |].
  - intros va Hva. rewrite Hn. intros Hr.
    by destruct (gn_new _ _ _ _ _ _ _ _ _ _ _ _ _ _ Hg' va Hva Hr) as (q & -> & _).
  - intros [] s2 t (l2 & Hum). rewrite Hn in Hum. apply returns_ret. exists l2. split; [done|].
    eapply grown_undo; try done. intros x Hx. apply Hun. lia.
Qed.

Lemma uvmcopy_page i s s' G G' U l l' p pa :
  copied s G1 G U1 U l0 l 0 i → uvm_ok kend s old G0 U0 l →
  same_tables old (mem s0) (mem s) → keeps U0 s0 s →
  page_round kend new s s' G G' U (<[i := p]> U) l l' → U !! i = None →
  (∀ x, 0 ≤ x < 2 ^ 39 → leaf (mem s') new x =
     map_leaf (leaf (mem s) new) i 1 p (PTE_FLAGS (leaf (mem s) old i)) x) →
  p ∈ l →
  (∀ x, in_page p x → rd (mem s') x = rd (memmove (mem (kalloc_result p s)) p pa PGSIZE) x) →
  U0 !! i = Some pa → i mod PGSIZE = 0 → 0 ≤ i < MAXVA →
  copied s' G1 G' U1 (<[i := p]> U) l0 l' 0 (i + PGSIZE).
Proof.
  intros Hg Hpar Hst Hkeep [Hok1 Hsub1 Hown1 Hk1 Hfm1] HUi Hleaf1 Hp Hb1 Hpa Hal Hi.
  destruct (uvm_leaf _ _ _ _ _ _ Hpar i pa Hpa) as (_ & _ & _ & HPA & _).
  destruct (uvm_frame _ _ _ _ _ _ Hpar i pa Hpa) as ([Hpal _] & _ & Hpl).
  destruct (Hst i) as [_ Hlf]. rewrite Hlf in *.
  eapply grown_add; try done; [lia|].
  intros k Hk. rewrite Hb1 by (unfold in_page; lia). rewrite rd_memmove by lia. if_true.
  replace (pa + (p + k - p)) with (pa + k) by lia.
  unfold copy_byte. rewrite HPA. rewrite (kalloc_same_but p s).
  - apply (Hkeep i pa); [done|]. unfold in_page. lia.
  - intros Hpk. assert (p = pa); [|congruence].
    apply (pages_disjoint p pa (pa + k)); [|done|done|unfold in_page; lia].
    eapply own_aligned; [apply (gn_ok _ _ _ _ _ _ _ _ _ _ _ _ _ _ Hg)|]. right. by right.
Qed.

Lemma uvmcopy_loop_spec n fuel i s G U l :
  (n < fuel)%nat → copied s G1 G U1 U l0 l 0 i → i mod PGSIZE = 0 → 0 ≤ i →
  sz ≤ i + Z.of_nat n * PGSIZE < sz + PGSIZE →
  returns (uvmcopy_loop kend fuel old new i sz) s (λ r s' _, ∃ G' U' l',
    (r = 0 ∧ copied s' G1 G' U1 U' l0 l' 0 (i + Z.of_nat n * PGSIZE)) ∨
    (r = -1 ∧ restored kend new s0 s' G1 G' U1 l0 l')).
Proof.
  intros Hf. revert fuel i s G U l Hf.
  induction n as [|n IH]; intros fuel i s G U l Hf Hg Hal Hi Hn;
    destruct fuel as [|fuel]; try lia; cbn [uvmcopy_loop].
  { if_false. apply returns_ret. exists G, U, l. left. split; [done|].
    by replace (i + Z.of_nat 0 * PGSIZE) with i by lia. }
  if_true. pose proof (gn_ok _ _ _ _ _ _ _ _ _ _ _ _ _ _ Hg) as Hok.
  destruct (parent_kept s G U l) as (Hpar & Hst & Hkeep).
  { apply (vm_kmem _ _ _ _ _ (uvm_vm _ _ _ _ _ _ Hok)). }
  { intros p. apply (gn_own _ _ _ _ _ _ _ _ _ _ _ _ _ _ Hg). }
  { apply (gn_framed _ _ _ _ _ _ _ _ _ _ _ _ _ _ Hg). }
  destruct (Hmapped i Hal) as [pa Hpa]; [lia|].
  destruct (uvm_leaf _ _ _ _ _ _ Hpar i pa Hpa) as (_ & Hr & Hv & HPA & Hfl).
  destruct (leaf_valid_addr _ _ _ Hv) as (pte & Hpte & Hld).
  call (apply walk_noalloc; lia). rewrite Hpte. simpl default.
  assert (pte ≠ 0) by (eapply pte_addr_nonzero; [done| |done];
    apply (vm_pt _ _ _ _ _ (uvm_vm _ _ _ _ _ _ Hpar))).
  if_false. call reflexivity. rewrite Hld.
  assert (Z.land (leaf (mem s) old i) PTE_V =? 0 = false) as ->.
  { unfold pte_valid, truthy in Hv. by bool_prop; apply Z.eqb_neq. }
  cbv zeta. rewrite HPA.
  apply (page_round_spec kend Hkend new i _ (λ p m, memmove m p pa PGSIZE) 
    (uvmunmap kend new 0 (i / PGSIZE) true;; mret (-1)) _ s G U l
    (λ r s', ∃ G' U' l',
      (r = 0 ∧ copied s' G1 G' U1 U' l0 l' 0 (i + Z.of_nat (S n) * PGSIZE)) ∨
      (r = -1 ∧ restored kend new s0 s' G1 G' U1 l0 l'))).
  - done.
  - done.
  - lia.
  - apply flags_range.
  - by rewrite flags_valid.
  - rewrite (gn_leaf _ _ _ _ _ _ _ _ _ _ _ _ _ _ Hg); [apply Hun; lia|lia|].
    rewrite PGROUNDDOWN_aligned by done. lia.
  - intros p m. apply same_but_memmove.
  - intros s' G' l' Hpr Hleaf1. eapply returns_mono; [eapply uvmcopy_undo; try done; lia|].
    intros r s2 t (l2 & H'). exists G', U1, l2. by right.
  - intros s' G' l' p Hpr HUi Hleaf1 Hp Hb1. rewrite u64_small by lia.
    replace (i + Z.of_nat (S n) * PGSIZE) with ((i + PGSIZE) + Z.of_nat n * PGSIZE) by lia.
    apply (IH fuel (i + PGSIZE) s' G' (<[i := p]> U) l'); try lia; [|by apply aligned_next].
    by eapply (uvmcopy_page i s s' G G' U l l' p pa).
Qed.
End uvmcopy.

(** C30: [uvmcopy] gives the child a copy of the parent's memory or nothing.
    When the pages below [sz] are mapped in the parent and unmapped in the
    child, it returns; either the result is 0 and the child has exactly the
    pages below [sz] added, each on a frame of its own with the parent's flags
    and the parent's bytes, or the result is -1 and the child is as before but
    for table pages.  The parent's table and memory are untouched, and no page
    is lost. *)
Theorem uvmcopy_copies old new sz s G0 G1 U0 U1 l :
  uvm_ok kend s old G0 U0 l → uvm_ok kend s new G1 U1 l →
  (∀ p, is_Some (G0 !! p) ∨ (∃ va, U0 !! va = Some p) → ¬ own G1 U1 l p) →
  0 ≤ sz ≤ MAXVA →
  (∀ va, va mod PGSIZE = 0 → 0 ≤ va < sz → is_Some (U0 !! va)) →
  (∀ x, 0 ≤ x < sz → pte_valid (leaf (mem s) new x) = false) →
  returns (uvmcopy kend old new sz) s (λ r s' _, ∃ G' U' l',
    uvm_ok kend s' old G0 U0 l' ∧ same_tables old (mem s) (mem s') ∧ keeps U0 s s' ∧
    ((r = 0 ∧ grown kend (copy_perm old s) (copy_byte old s) new s s' G1 G' U1 U' l l'
                0 (PGROUNDUP sz)) ∨
     (r = -1 ∧ restored kend new s s' G1 G' U1 l l'))).
Proof.
  intros Hold Hnew Hdisj Hsz Hmapped Hun. unfold uvmcopy.
  destruct (PGROUNDUP_pages 0 sz) as (n & Hf & Hn & Hend); [lia|lia|].
  change (PGROUNDUP 0) with 0 in Hf, Hn, Hend. rewrite Z.sub_0_r in Hf.
  set (fuel := S (S _)) in *. clearbody fuel.
  eapply returns_mono.
  - apply (uvmcopy_loop_spec old new sz s G0 G1 U0 U1 l Hold Hnew Hdisj ltac:(lia) Hmapped Hun
      n fuel 0 s G1 U1 l Hf); [by apply grown_refl|done|lia|done].
  - rewrite Hend. intros r s' t (G' & U' & l' & Hr). exists G', U', l'.
    assert (uvm_ok kend s' old G0 U0 l' ∧ same_tables old (mem s) (mem s') ∧ keeps U0 s s')
      as (? & ? & ?); [|done].
    destruct Hr as [[_ Hg]|[_ Hr]].
    + apply (parent_kept old new s G0 G1 U0 U1 l Hold Hnew Hdisj s' G' U' l').
      * apply (vm_kmem _ _ _ _ _ (uvm_vm _ _ _ _ _ _ (gn_ok _ _ _ _ _ _ _ _ _ _ _ _ _ _ Hg))).
      * intros p. apply (gn_own _ _ _ _ _ _ _ _ _ _ _ _ _ _ Hg).
      * apply (gn_framed _ _ _ _ _ _ _ _ _ _ _ _ _ _ Hg).
    + apply (parent_kept old new s G0 G1 U0 U1 l Hold Hnew Hdisj s' G' U1 l').
      * apply (vm_kmem _ _ _ _ _ (uvm_vm _ _ _ _ _ _ (rs_ok _ _ _ _ _ _ _ _ _ Hr))).
      * intros p. apply (rs_own _ _ _ _ _ _ _ _ _ Hr).
      * apply (rs_framed _ _ _ _ _ _ _ _ _ Hr).
Qed.

(** ** Bytes of user memory *)

(** The frame of a user page as [walkaddr] computes it; 0 when it is not
    mapped for the user. *)
Definition uaddr (m : gmap Z Z) (root va : Z) : Z :=
  if va >=? MAXVA then 0
  else
    let v := leaf m root va in
    if (Z.land v PTE_V =? 0) || (Z.land v PTE_U =? 0) then 0 else PTE2PA v.

(** The byte at a user address. *)
Definition ubyte (m : gmap Z Z) (root va : Z) : Z :=
  rd m (uaddr m root va + (va - PGROUNDDOWN va)).

Lemma walkaddr_run root G va s :
  pt_ok kend (mem s) root G → walkaddr root va s = Done (uaddr (mem s) root va) s [].
Proof.
  intros Hpt. unfold walkaddr, uaddr. destruct (Z.geb_spec va MAXVA); [done|].
  rewrite (bind_done _ _ _ _ _ _ (walk_noalloc root va s ltac:(lia))), after_nil.
  unfold leaf, leaf_from. destruct (pte_addr (mem s) 2 root va) as [a|] eqn:Ha; [|done].
  pose proof (pte_addr_nonzero kend Hkend _ _ _ _ _ Hpt Ha). change (default 0 (Some a)) with a. if_false.
  unfold mbind, M_bind, load64, gets. rewrite after_nil.
  destruct (Z.land _ PTE_V =? 0); [done|]. by destruct (Z.land _ PTE_U =? 0).
Qed.

Lemma flags_user pa perm :
  is_pa pa → 0 ≤ perm < 2 ^ 10 → Z.land perm PTE_U ≠ 0 →
  Z.land (mkpte pa perm) PTE_V ≠ 0 ∧ Z.land (mkpte pa perm) PTE_U ≠ 0.
Proof.
  intros Hpa Hperm Hu. destruct (mkpte_facts pa perm Hpa Hperm) as (_ & Hfl & _ & Hv). split.
  - unfold pte_valid, truthy in Hv. by bool_prop.
  - rewrite land_flags, Hfl, Z.land_lor_distr_l by done. by intros [? _]%Z.lor_eq_0_iff.
Qed.

(** After [mappages] maps user pages, [walkaddr] finds them.  For a range
    below [MAXVA] that is unmapped, [mappages] returns without a panic; when
    it returns 0, [walkaddr] of every address in the range gives the page of
    the physical range at the same distance, and every address outside the
    pages of the range translates as before; when it returns -1 the free list
    is empty. *)
Theorem mappages_walkaddr root va size pa perm s G l :
  vm_ok kend s root G l → 0 ≤ va → 0 < size → va + size ≤ MAXVA → is_pa pa →
  pa + size + PGSIZE ≤ 2 ^ 56 → 0 ≤ perm < 2 ^ 10 → Z.land perm PTE_U ≠ 0 →
  (∀ x, va ≤ x < va + size → pte_valid (leaf (mem s) root x) = false) →
  returns (mappages root va size pa perm) s (λ r s' _,
    (r = 0 ∧
     (∀ x, va ≤ x < va + size →
        walkaddr root x s' = Done (pa + (PGROUNDDOWN x - PGROUNDDOWN va)) s' []) ∧
     (∀ x, 0 ≤ x < 2 ^ 39 → PGROUNDDOWN x < PGROUNDDOWN va ∨ va + size ≤ PGROUNDDOWN x →
        walkaddr root x s' = Done (uaddr (mem s) root x) s' [])) ∨
    (r = -1 ∧ kmem_inv kend s' [])).
Proof.
  intros Hok Hva Hsz Hmax Hpa Hpas Hperm Hu Hun.
  eapply returns_mono; [by apply (mappages_run kend Hkend root va size pa perm s G l)|].
  intros r s' t (G' & l' & k & Hev & Hleaf & Hr). pose proof (ev_ok _ _ _ _ _ _ _ _ Hev) as Hok'.
  destruct Hr as [[-> ->]|(-> & _ & ->)];
    [left|right; split; [done|apply (vm_kmem _ _ _ _ _ Hok')]].
  pose proof (walkaddr_run root G') as Hwalk. specialize (Hwalk) with (s := s').
  destruct (PGROUNDDOWN_bounds va) as [Hal Hb].
  destruct (PGROUNDDOWN_bounds (va + size - 1)) as [Hal' Hb'].
  assert (PGROUNDDOWN va + npages va size * PGSIZE = PGROUNDDOWN (va + size - 1) + PGSIZE) as Hn.
  { unfold npages. pose proof (PGROUNDDOWN_le va (va + size - 1) ltac:(lia)).
    pose proof (page_count _ _ Hal Hal' ltac:(done)). 
    assert (0 ≤ (PGROUNDDOWN (va + size - 1) - PGROUNDDOWN va) / PGSIZE) by (apply Z.div_pos; lia).
    lia. }
  split_and!; [done| |]; intros x Hx.
  - rewrite Hwalk by apply (vm_pt _ _ _ _ _ Hok'). f_equal. unfold uaddr. if_false.
    pose proof (PGROUNDDOWN_le va x ltac:(lia)). pose proof (PGROUNDDOWN_le x (va + size - 1) ltac:(lia)).
    rewrite Hleaf by lia. unfold map_leaf. if_true.
    assert (is_pa (pa + (PGROUNDDOWN x - PGROUNDDOWN va))) as Hpa'.
    { destruct Hpa as [? Hpal]. destruct (PGROUNDDOWN_bounds x) as [Hxal ?]. split; [lia|].
      unfold PGSIZE in *. Z.div_mod_to_equations. lia. }
    destruct (flags_user _ perm Hpa' Hperm Hu) as [? ?]. if_false. by apply mkpte_facts.
  - intros Hout. rewrite Hwalk by apply (vm_pt _ _ _ _ _ Hok'). f_equal. unfold uaddr.
    destruct (x >=? MAXVA); [done|]. rewrite Hleaf by lia. unfold map_leaf.
    destruct (PGROUNDDOWN_bounds x) as [Hxal ?]. destruct Hout; [by if_false|].
    destruct (pages_apart _ _ Hxal Hal'); [lia|lia|by if_false].
Qed.

Lemma uaddr_page m root x y : PGROUNDDOWN x = PGROUNDDOWN y → uaddr m root x = uaddr m root y.
Proof.
  intros Hpg. unfold uaddr. rewrite (leaf_page m root x y Hpg).
  destruct (PGROUNDDOWN_bounds x) as [_ ?]. destruct (PGROUNDDOWN_bounds y) as [Hal ?].
  assert ((x >=? MAXVA) = (y >=? MAXVA)) as ->; [|done].
  assert (x < MAXVA ↔ y < MAXVA) by (unfold PGSIZE in *; unfold_consts; Z.div_mod_to_equations; lia).
  lia.
Qed.

(** All user pages are among those that [U] owns. *)
Definition covers U (m : gmap Z Z) root : Prop :=
  ∀ va, 0 ≤ va → uaddr m root va ≠ 0 → U !! PGROUNDDOWN va = Some (uaddr m root va).

Lemma uaddr_same root m m' va : same_tables root m m' → uaddr m' root va = uaddr m root va.
Proof. intros H. unfold uaddr. by destruct (H va) as [_ ->]. Qed.

Lemma covers_same root U m m' : same_tables root m m' → covers U m root → covers U m' root.
Proof. intros H Hc va Hva. rewrite !(uaddr_same root m m') by done. by apply Hc. Qed.

Lemma same_tables_trans root m1 m2 m3 :
  same_tables root m1 m2 → same_tables root m2 m3 → same_tables root m1 m3.
Proof.
  intros H1 H2 va. destruct (H1 va) as [E1 E1'], (H2 va) as [E2 E2'].
  by rewrite E2, E2', E1, E1'.
Qed.

(** Storing into a user frame. *)
Lemma uvm_user_write s root G U l va pa off bytes :
  uvm_ok kend s root G U l → U !! va = Some pa → 0 ≤ off →
  off + Z.of_nat (length bytes) ≤ PGSIZE → Forall is_byte bytes →
  let s' := set_mem (st_bytes (mem s) (pa + off) bytes) s in
  uvm_ok kend s' root G U l ∧ same_tables root (mem s) (mem s').
Proof.
  intros Hok Hva Hoff Hlen Hb s'.
  destruct (uvm_frame _ _ _ _ _ _ Hok va pa Hva) as ([Hal ?] & HG & Hl).
  assert (same_but pa (mem s) (mem s')) as Hs.
  { intros x Hx. unfold in_page in Hx. simpl. apply rd_st_bytes_out. lia. }
  apply (uvm_ok_same kend s s' root G U U l l Hok).
  - apply (kmem_inv_table kend s (mem s') pa l); try done.
    + apply (vm_kmem _ _ _ _ _ (uvm_vm _ _ _ _ _ _ Hok)).
    + apply mem_ok_st_bytes; [|done].
      apply (inv_mem _ _ _ (vm_kmem _ _ _ _ _ (uvm_vm _ _ _ _ _ _ Hok))).
  - intros p x Hp Hx. apply Hs. by eapply uvm_not_table.
  - done.
  - intros p Hp. split; [by apply (vm_free _ _ _ _ _ (uvm_vm _ _ _ _ _ _ Hok))|].
    intros va' Hva'. by destruct (uvm_frame _ _ _ _ _ _ Hok va' p Hva') as (_ & _ & []).
Qed.

(** [s'] is [s] with [bytes] stored at the user addresses from [dst] on. *)
Definition wrote root s s' (dst : Z) (bytes : list Z) : Prop :=
  same_tables root (mem s) (mem s') ∧
  ∀ x, 0 ≤ x → uaddr (mem s) root x ≠ 0 →
    ubyte (mem s') root x =
    if (dst <=? x) && (x <? dst + Z.of_nat (length bytes))
    then bytes !!! Z.to_nat (x - dst) else ubyte (mem s) root x.

Lemma wrote_nil root s dst : wrote root s s dst [].
Proof. split; [done|]. intros x _ _. simpl. by if_false. Qed.

Lemma wrote_app root s s1 s2 dst b1 b2 :
  wrote root s s1 dst b1 → wrote root s1 s2 (dst + Z.of_nat (length b1)) b2 →
  wrote root s s2 dst (b1 ++ b2).
Proof.
  intros [Ht1 H1] [Ht2 H2]. split; [by eapply same_tables_trans|]. intros x Hx Hu.
  rewrite H2 by (rewrite ?(uaddr_same root (mem s)); done).
  rewrite H1, length_app by done. set (n1 := length b1). set (n2 := length b2).
  destruct (decide (dst + Z.of_nat n1 ≤ x < dst + Z.of_nat n1 + Z.of_nat n2)).
  - if_true. if_true. rewrite lookup_total_app_r by lia. f_equal. lia.
  - if_false. destruct (decide (dst ≤ x < dst + Z.of_nat n1)).
    + if_true. if_true. rewrite lookup_total_app_l by lia. done.
    + if_false. by if_false.
Qed.

Lemma wrote_page s root G U l dst bytes :
  uvm_ok kend s root G U l → covers U (mem s) root → 0 ≤ dst →
  uaddr (mem s) root dst ≠ 0 → dst - PGROUNDDOWN dst + Z.of_nat (length bytes) ≤ PGSIZE →
  Forall is_byte bytes →
  let s' := set_mem (st_bytes (mem s) (uaddr (mem s) root dst + (dst - PGROUNDDOWN dst)) bytes) s in
  uvm_ok kend s' root G U l ∧ wrote root s s' dst bytes.
Proof.
  intros Hok Hcov Hdst Hu Hlen Hb s'. destruct (PGROUNDDOWN_bounds dst) as [Hal Hb0].
  pose proof (Hcov dst Hdst Hu) as HU.
  destruct (uvm_user_write s root G U l (PGROUNDDOWN dst) (uaddr (mem s) root dst)
    (dst - PGROUNDDOWN dst) bytes) as [Hok' Hst]; try done; [lia|].
  fold s' in Hok', Hst. split; [done|]. split; [done|]. intros x Hx Hux.
  unfold ubyte. rewrite (uaddr_same root (mem s)) by done. destruct (PGROUNDDOWN_bounds x) as [Hxal Hxb].
  simpl. rewrite rd_st_bytes. destruct (decide (PGROUNDDOWN x = PGROUNDDOWN dst)) as [Hpg|Hpg].
  - rewrite (uaddr_page _ _ x dst), Hpg by done.
    assert ((x - PGROUNDDOWN dst) = (x - dst) + (dst - PGROUNDDOWN dst)) as -> by lia.
    destruct (decide (dst ≤ x < dst + Z.of_nat (length bytes))).
    + if_true. if_true. f_equal. lia.
    + if_false. by if_false.
  - pose proof (Hcov x Hx Hux) as HUx. set (P := uaddr (mem s) root dst) in *.
    set (Q := uaddr (mem s) root x) in *.
    destruct (uvm_frame _ _ _ _ _ _ Hok _ _ HU) as ([HPal _] & _).
    destruct (uvm_frame _ _ _ _ _ _ Hok _ _ HUx) as ([HQal _] & _).
    assert (P ≠ Q) as HPQ.
    { intros HPQ. apply Hpg. rewrite HPQ in HU. by apply (uvm_inj _ _ _ _ _ _ Hok _ _ Q). }
    destruct (pages_apart P Q HPal HQal HPQ); if_false;
      destruct (pages_apart _ _ Hxal Hal Hpg); by if_false.
Qed.

Lemma uaddr_low m root va : uaddr m root va ≠ 0 → va < MAXVA.
Proof. unfold uaddr. destruct (Z.geb_spec va MAXVA); [done|lia]. Qed.

(** The bytes of one page that a round copies. *)
Lemma chunk_facts va len :
  0 < len →
  let n := PGSIZE - (va - PGROUNDDOWN va) in
  let n := if n >? len then len else n in
  0 < n ∧ n ≤ len ∧ va - PGROUNDDOWN va + n ≤ PGSIZE ∧
  (n = len ∨ va + n = PGROUNDDOWN va + PGSIZE).
Proof. intros Hlen. destruct (PGROUNDDOWN_bounds va) as [_ ?]. cbv zeta. case_if; lia. Qed.

Lemma wrote_empty root s s' dst dst' : wrote root s s' dst [] → wrote root s s' dst' [].
Proof.
  intros [Ht H]. split; [done|]. intros x Hx Hu. rewrite H by done. simpl. if_false. by if_false.
Qed.

Lemma copyout_loop_spec fuel root dst src s G U l :
  uvm_ok kend s root G U l → covers U (mem s) root → 0 ≤ dst → Forall is_byte src →
  dst - PGROUNDDOWN dst + Z.of_nat (length src) ≤ (Z.of_nat fuel - 1) * PGSIZE →
  returns (copyout_loop fuel root dst src (Z.of_nat (length src))) s (λ r s' _,
    uvm_ok kend s' root G U l ∧ ∃ k : nat, wrote root s s' dst (take k src) ∧
    ((r = 0 ∧ k = length src ∧
        ∀ x, dst ≤ x < dst + Z.of_nat k → uaddr (mem s) root x ≠ 0) ∨
     (r = -1 ∧ (k < length src)%nat ∧ uaddr (mem s) root (dst + Z.of_nat k) = 0))).
Proof.
  revert dst src s. induction fuel as [|fuel IH]; intros dst src s Hok Hcov Hdst Hb Hf;
    destruct (PGROUNDDOWN_bounds dst) as [Hal Hb0]; [lia|]. cbn [copyout_loop].
  destruct (decide (length src = 0)%nat) as [H0|H0].
  { apply nil_length_inv in H0 as ->. apply returns_ret. split; [done|]. exists 0%nat.
    split; [apply wrote_nil|]. left. split_and!; try done. simpl. lia. }
  if_true. pose proof (vm_pt _ _ _ _ _ (uvm_vm _ _ _ _ _ _ Hok)) as Hpt.
  call (by apply (walkaddr_run root G)).
  assert (uaddr (mem s) root (PGROUNDDOWN dst) = uaddr (mem s) root dst) as ->
    by (apply uaddr_page, PGROUNDDOWN_aligned; done).
  case_if.
  { apply returns_ret. split; [done|]. exists 0%nat. split; [apply wrote_nil|].
    right. rewrite Z.add_0_r. split_and!; [done|lia|done]. }
  pose proof (uaddr_low _ _ _ E) as Hlow. cbv zeta.
  set (n := if _ >? _ then _ else _). call reflexivity.
  destruct (chunk_facts dst (Z.of_nat (length src)) ltac:(lia)) as (Hn0 & Hn1 & Hn2 & Hn3).
  fold n in Hn0, Hn1, Hn2, Hn3. clearbody n.
  assert (length (take (Z.to_nat n) src) = Z.to_nat n) as Hlt by (rewrite length_take; lia).
  destruct (wrote_page s root G U l dst (take (Z.to_nat n) src)) as [Hok1 Hw1]; try done;
    [rewrite Hlt; lia|by apply Forall_take|].
  set (s1 := set_mem _ s) in *. clearbody s1. rewrite u64_small by lia.
  replace (Z.of_nat (length src) - n) with (Z.of_nat (length (drop (Z.to_nat n) src)))
    by (rewrite length_drop; lia).
  assert (∀ x, dst ≤ x < dst + n → uaddr (mem s) root x ≠ 0) as Hpage.
  { intros x Hx. rewrite (uaddr_page _ _ x dst); [done|]. by apply PGROUNDDOWN_in; [|lia]. }
  eapply returns_mono.
  - apply (IH (PGROUNDDOWN dst + PGSIZE) (drop (Z.to_nat n) src) s1); try done; try lia.
    + eapply covers_same; [apply Hw1|done].
    + by apply Forall_drop.
    + rewrite (PGROUNDDOWN_aligned (_ + PGSIZE)) by (by apply aligned_next). rewrite length_drop. lia.
  - intros r s2 t (Hok2 & k & Hw2 & Hr). split; [done|]. exists (Z.to_nat n + k)%nat.
    assert (∀ x, uaddr (mem s1) root x = uaddr (mem s) root x) as Hu1
      by (intros; apply uaddr_same, Hw1).
    rewrite length_drop in Hr. setoid_rewrite Hu1 in Hr. split.
    + rewrite <-take_take_drop. eapply wrote_app; [done|]. rewrite Hlt.
      destruct Hn3 as [Hn3|Hn3].
      * rewrite drop_ge, take_nil in * by lia. by eapply wrote_empty.
      * by replace (dst + Z.of_nat (Z.to_nat n)) with (PGROUNDDOWN dst + PGSIZE) by lia.
    + destruct Hr as [(-> & -> & Hx)|(-> & Hk & Hx)]; [left|right]; split_and!; try lia.
      * intros x Hx'. destruct (decide (x < dst + n)); [apply Hpage; lia|]. apply Hx. lia.
      * rewrite <-Hx. f_equal. lia.
Qed.

(** ** [copyin] *)

(** The [n] user bytes from [va] on. *)
Fixpoint ubytes (m : gmap Z Z) (root va : Z) (n : nat) : list Z :=
  match n with
  | O => []
  | S n => ubyte m root va :: ubytes m root (va + 1) n
  end.

Lemma ubytes_app m root va n k :
  ubytes m root va (n + k) = ubytes m root va n ++ ubytes m root (va + Z.of_nat n) k.
Proof.
  revert va. induction n as [|n IH]; intros va; simpl.
  - by rewrite Z.add_0_r.
  - rewrite IH. do 3 f_equal. lia.
Qed.

Lemma ubytes_length m root va n : length (ubytes m root va n) = n.
Proof. revert va. induction n as [|n IH]; intros va; simpl; [done|]. by rewrite IH. Qed.

Lemma ubytes_page m root pg va n :
  pg mod PGSIZE = 0 → pg ≤ va → va + Z.of_nat n ≤ pg + PGSIZE →
  ld_bytes m (uaddr m root pg + (va - pg)) n = ubytes m root va n.
Proof.
  revert va. induction n as [|n IH]; intros va Hal Hva Hn; simpl; [done|]. f_equal.
  - unfold ubyte. rewrite (PGROUNDDOWN_in pg va) by (done || lia).
    by rewrite (uaddr_page m root va pg)
      by (rewrite (PGROUNDDOWN_in pg va), PGROUNDDOWN_aligned by (done || lia); done).
  - rewrite <-IH by (done || lia). f_equal. lia.
Qed.

Lemma copyin_loop_spec fuel root src len s G U l :
  uvm_ok kend s root G U l → 0 ≤ src → 0 ≤ len →
  src - PGROUNDDOWN src + len ≤ (Z.of_nat fuel - 1) * PGSIZE →
  returns (copyin_loop fuel root src len) s (λ r s' t, t = [] ∧ s' = s ∧ ∃ k : nat,
    r.2 = ubytes (mem s) root src k ∧
    ((r.1 = 0 ∧ Z.of_nat k = len ∧
        ∀ x, src ≤ x < src + len → uaddr (mem s) root x ≠ 0) ∨
     (r.1 = -1 ∧ Z.of_nat k < len ∧ uaddr (mem s) root (src + Z.of_nat k) = 0))).
Proof.
  intros Hok. pose proof (vm_pt _ _ _ _ _ (uvm_vm _ _ _ _ _ _ Hok)) as Hpt.
  revert src len. induction fuel as [|fuel IH]; intros src len Hsrc Hlen Hf;
    destruct (PGROUNDDOWN_bounds src) as [Hal Hb0]; [lia|]. cbn [copyin_loop].
  destruct (decide (len = 0)) as [->|H0].
  { apply returns_ret. do 2 (split; [done|]). exists 0%nat. split; [done|]. left. split_and!; try done. lia. }
  if_true. call (by apply (walkaddr_run root G)). 
  assert (uaddr (mem s) root (PGROUNDDOWN src) = uaddr (mem s) root src) as Hpg
    by (apply uaddr_page, PGROUNDDOWN_aligned; done).
  case_if.
  { apply returns_ret. do 2 (split; [done|]). exists 0%nat. split; [done|].
    right. rewrite Z.add_0_r. split_and!; [done|lia|congruence]. }
  rewrite Hpg in E. pose proof (uaddr_low _ _ _ E) as Hlow. cbv zeta.
  set (n := if _ >? _ then _ else _). call reflexivity.
  destruct (chunk_facts src len ltac:(lia)) as (Hn0 & Hn1 & Hn2 & Hn3).
  fold n in Hn0, Hn1, Hn2, Hn3. clearbody n. rewrite u64_small by lia.
  call_spec IH; [lia|lia| |].
  { rewrite (PGROUNDDOWN_aligned (_ + PGSIZE)) by (by apply aligned_next). lia. }
  intros [r rest] s' t (-> & -> & k & Hrest & Hr). simpl in Hrest, Hr. subst rest.
  apply returns_ret. do 2 (split; [done|]). exists (Z.to_nat n + k)%nat. simpl. split.
  - rewrite ubytes_app. f_equal; [apply ubytes_page; (done || lia)|].
    destruct Hn3 as [->|Hn3]; [|f_equal; lia].
    replace k with 0%nat by lia. done.
  - assert (∀ x, src ≤ x < src + n → uaddr (mem s) root x ≠ 0) as Hpage.
    { intros x Hx. rewrite (uaddr_page _ _ x src); [done|]. by apply PGROUNDDOWN_in; [|lia]. }
    destruct Hr as [(-> & Hk & Hx)|(-> & Hk & Hx)]; [left|right]; split_and!; try lia.
    + intros x Hx'. destruct (decide (x < src + n)); [apply Hpage; lia|]. apply Hx. lia.
    + rewrite <-Hx. f_equal. lia.
Qed.

(** The fuel that [copyin] and [copyout] compute is enough. *)
Lemma copy_fuel va len :
  0 ≤ len →
  va - PGROUNDDOWN va + len ≤ (Z.of_nat (S (S (Z.to_nat (len / PGSIZE + 1)))) - 1) * PGSIZE.
Proof.
  intros. destruct (PGROUNDDOWN_bounds va) as [_ ?].
  pose proof (Z.div_pos len PGSIZE ltac:(lia) ltac:(lia)).
  pose proof (Z.mul_succ_div_gt len PGSIZE ltac:(lia)). lia.
Qed.

(** [copyout] stores exactly the bytes it is given.  It returns; with
    result 0 every address of the destination is mapped for the user and the
    user sees all of [src] there; with result -1 it stopped at the first
    address that is not mapped for the user, having stored the bytes before
    it.  No other user byte changes and the address space stays well formed. *)
Theorem copyout_writes root dst src s G U l :
  uvm_ok kend s root G U l → covers U (mem s) root → 0 ≤ dst → Forall is_byte src →
  returns (copyout root dst src (Z.of_nat (length src))) s (λ r s' _,
    uvm_ok kend s' root G U l ∧ ∃ k : nat, wrote root s s' dst (take k src) ∧
    ((r = 0 ∧ k = length src ∧
        ∀ x, dst ≤ x < dst + Z.of_nat k → uaddr (mem s) root x ≠ 0) ∨
     (r = -1 ∧ (k < length src)%nat ∧ uaddr (mem s) root (dst + Z.of_nat k) = 0))).
Proof.
  intros. unfold copyout. apply copyout_loop_spec; try done. apply copy_fuel. lia.
Qed.

Lemma ubytes_wrote root s s' dst bytes :
  wrote root s s' dst bytes → 0 ≤ dst →
  (∀ x, dst ≤ x < dst + Z.of_nat (length bytes) → uaddr (mem s) root x ≠ 0) →
  ubytes (mem s') root dst (length bytes) = bytes.
Proof.
  intros [_ Hw] Hdst Hu.
  assert (∀ n i, (i + n = length bytes)%nat →
    ubytes (mem s') root (dst + Z.of_nat i) n = drop i bytes) as H.
  { induction n as [|n IH]; intros i Hi; simpl.
    - rewrite drop_ge by lia. done.
    - rewrite Hw by (try apply Hu; lia). if_true.
      destruct (lookup_lt_is_Some_2 bytes i ltac:(lia)) as [b Hb].
      rewrite (drop_S bytes b i Hb). f_equal.
      + replace (Z.to_nat (dst + Z.of_nat i - dst)) with i by lia.
        by rewrite (list_lookup_total_correct _ _ _ Hb).
      + rewrite <-(IH (S i)) by lia. f_equal. lia. }
  specialize (H (length bytes) 0%nat eq_refl). by rewrite Z.add_0_r in H.
Qed.

(** What [copyout] stored, [copyin] reads back: a [copyout] followed by a
    [copyin] of the same range both return, and when the first returns 0 the
    second returns 0 and the same bytes. *)
Theorem copyout_copyin root dst src s G U l :
  uvm_ok kend s root G U l → covers U (mem s) root → 0 ≤ dst → Forall is_byte src →
  returns (r ← copyout root dst src (Z.of_nat (length src));
           q ← copyin root dst (Z.of_nat (length src));
           mret (r, q)) s (λ rq _ _, rq.1 = 0 → rq.2 = (0, src)).
Proof.
  intros Hok Hcov Hdst Hb.
  call_spec (copyout_loop_spec _ root dst src s G U l Hok Hcov Hdst Hb
    (copy_fuel dst (Z.of_nat (length src)) ltac:(lia))).
  intros r s' t (Hok' & k & Hw & Hr).
  call_spec (copyin_loop_spec _ root dst (Z.of_nat (length src)) s' G U l Hok' Hdst ltac:(lia));
    [apply copy_fuel; lia|].
  intros [r' bytes] s'' t' (_ & -> & k' & Hbytes & Hr'). apply returns_ret. simpl in *. intros ->.
  destruct Hr as [(_ & -> & Hu)|(? & _)]; [|done].
  rewrite take_ge in Hw by lia.
  assert (∀ x, uaddr (mem s') root x = uaddr (mem s) root x) as Hu'
    by (intros; apply uaddr_same, Hw).
  destruct Hr' as [(-> & Hk & _)|(_ & Hk & Hx)].
  - f_equal. rewrite Hbytes. replace k' with (length src) by lia. by eapply ubytes_wrote.
  - rewrite Hu' in Hx. destruct (Hu (dst + Z.of_nat k')); [lia|done].
Qed.

(** ** [copyinstr] *)

Lemma copyinstr_page_spec m n p :
  let r := copyinstr_page m n p in
  (r.1 = true ∧ ∃ k, (k < n)%nat ∧ r.2 = ld_bytes m p k ++ [0] ∧
     Forall (λ b, b ≠ 0) (ld_bytes m p k) ∧ rd m (p + Z.of_nat k) = 0) ∨
  (r.1 = false ∧ r.2 = ld_bytes m p n ∧ Forall (λ b, b ≠ 0) (ld_bytes m p n)).
Proof.
  revert p. induction n as [|n IH]; intros p; simpl; [by right|].
  destruct (Z.eqb_spec (rd m p) 0) as [H0|H0]; simpl.
  - left. split; [done|]. exists 0%nat. simpl. rewrite Z.add_0_r. split_and!; [lia|done|done|done].
  - destruct (IH (p + 1)) as [(H1 & k & Hk & H2 & H3 & H4)|(H1 & H2 & H3)].
    + left. split; [done|]. exists (S k). simpl. rewrite H2. split_and!; [lia|done|by constructor|].
      rewrite <-H4. f_equal. lia.
    + right. rewrite H2. split_and!; try done. by constructor.
Qed.

(** The same for a part of one user page. *)
Lemma copyinstr_user_page m root pg va n :
  pg mod PGSIZE = 0 → pg ≤ va → va + Z.of_nat n ≤ pg + PGSIZE →
  let r := copyinstr_page m n (uaddr m root pg + (va - pg)) in
  (r.1 = true ∧ ∃ k, (k < n)%nat ∧ r.2 = ubytes m root va k ++ [0] ∧
     Forall (λ b, b ≠ 0) (ubytes m root va k) ∧ ubyte m root (va + Z.of_nat k) = 0) ∨
  (r.1 = false ∧ r.2 = ubytes m root va n ∧ Forall (λ b, b ≠ 0) (ubytes m root va n)).
Proof.
  intros Hal Hva Hn.
  destruct (copyinstr_page_spec m n (uaddr m root pg + (va - pg)))
    as [(H1 & k & Hk & H2 & H3 & H4)|(H1 & H2 & H3)].
  - left. split; [done|]. exists k. rewrite ubytes_page in H2, H3 by (done || lia).
    split_and!; try done. rewrite <-H4. unfold ubyte.
    rewrite (PGROUNDDOWN_in pg (va + Z.of_nat k)) by (done || lia).
    rewrite (uaddr_page m root _ pg); [f_equal; lia|].
    rewrite (PGROUNDDOWN_in pg (va + Z.of_nat k)), PGROUNDDOWN_aligned by (done || lia). done.
  - right. rewrite ubytes_page in H2, H3 by (done || lia). done.
Qed.

Lemma copyinstr_loop_spec fuel root src max s G U l :
  uvm_ok kend s root G U l → 0 ≤ src → 0 ≤ max →
  src - PGROUNDDOWN src + max ≤ (Z.of_nat fuel - 1) * PGSIZE →
  returns (copyinstr_loop fuel root src max) s (λ r s' _, s' = s ∧ ∃ k : nat,
    Forall (λ b, b ≠ 0) (ubytes (mem s) root src k) ∧
    (∀ x, src ≤ x < src + Z.of_nat k → uaddr (mem s) root x ≠ 0) ∧
    ((r = (0, ubytes (mem s) root src k ++ [0]) ∧ Z.of_nat k < max ∧
        uaddr (mem s) root (src + Z.of_nat k) ≠ 0 ∧ ubyte (mem s) root (src + Z.of_nat k) = 0) ∨
     (r = (-1, ubytes (mem s) root src k) ∧
        (Z.of_nat k = max ∨ (Z.of_nat k < max ∧ uaddr (mem s) root (src + Z.of_nat k) = 0))))).
Proof.
  intros Hok. pose proof (vm_pt _ _ _ _ _ (uvm_vm _ _ _ _ _ _ Hok)) as Hpt.
  revert src max. induction fuel as [|fuel IH]; intros src max Hsrc Hmax Hf;
    destruct (PGROUNDDOWN_bounds src) as [Hal Hb0]; [lia|]. cbn [copyinstr_loop].
  destruct (decide (max = 0)) as [->|H0].
  { apply returns_ret. split; [done|]. exists 0%nat. split_and!; [by constructor|lia|]. right. by split; [|left]. }
  if_true. call (by apply (walkaddr_run root G)).
  assert (uaddr (mem s) root (PGROUNDDOWN src) = uaddr (mem s) root src) as Hpg
    by (apply uaddr_page, PGROUNDDOWN_aligned; done).
  case_if.
  { apply returns_ret. split; [done|]. exists 0%nat. split_and!; [by constructor|lia|].
    right. rewrite Z.add_0_r. split; [done|]. right. split; [lia|congruence]. }
  pose proof (E) as E'. rewrite Hpg in E'. pose proof (uaddr_low _ _ _ E') as Hlow. cbv zeta.
  set (n := if _ >? _ then _ else _). call reflexivity.
  destruct (chunk_facts src max ltac:(lia)) as (Hn0 & Hn1 & Hn2 & Hn3).
  fold n in Hn0, Hn1, Hn2, Hn3. clearbody n. rewrite u64_small by lia.
  assert (∀ x, src ≤ x < src + n → uaddr (mem s) root x ≠ 0) as Hpage.
  { intros x Hx. rewrite (uaddr_page _ _ x src); [done|]. by apply PGROUNDDOWN_in; [|lia]. }
  pose proof (copyinstr_user_page (mem s) root (PGROUNDDOWN src) src (Z.to_nat n) Hal
    ltac:(lia) ltac:(lia)) as Hp.
  destruct (copyinstr_page (mem s) _ _) as [got bytes]. simpl in Hp.
  destruct Hp as [(-> & k & Hk & -> & Hnz & Hz)|(-> & -> & Hnz)].
  - apply returns_ret. split; [done|].
    exists k. split_and!; [done|intros; apply Hpage; lia|]. left.
    split_and!; [done|lia|apply Hpage; lia|done].
  - call_spec IH; [lia|lia| |].
    { rewrite (PGROUNDDOWN_aligned (_ + PGSIZE)) by (by apply aligned_next). lia. }
    intros [r rest] s' t (-> & k & Hnz' & Hu & Hr). apply returns_ret. split; [done|].
    exists (Z.to_nat n + k)%nat.
    assert (k = 0%nat ∨ src + n = PGROUNDDOWN src + PGSIZE) as Hk.
    { destruct Hn3 as [Hn3|Hn3]; [left|by right]. destruct Hr as [(_ & ? & _)|(_ & [?|[? _]])]; lia. }
    assert (ubytes (mem s) root src (Z.to_nat n + k) =
      ubytes (mem s) root src (Z.to_nat n) ++ ubytes (mem s) root (PGROUNDDOWN src + PGSIZE) k) as ->.
    { rewrite ubytes_app. f_equal. destruct Hk as [->|Hk]; [done|]. f_equal. lia. }
    split_and!.
    + by apply Forall_app.
    + intros x Hx. destruct (decide (x < src + n)); [apply Hpage; lia|]. apply Hu. lia.
    + destruct Hr as [([= -> ->] & Hk2 & Hu2 & Hb2)|([= -> ->] & Hr)]; [left|right].
      * replace (src + Z.of_nat (Z.to_nat n + k)) with (PGROUNDDOWN src + PGSIZE + Z.of_nat k) by lia.
        rewrite <-(assoc_L (++)). split_and!; (done || lia).
      * split; [done|]. destruct Hr as [?|[? Hu2]]; [left; lia|right]. split; [lia|].
        rewrite <-Hu2. f_equal. lia.
Qed.

(** [copyinstr] copies a string, its NUL included, or fails.  It returns;
    with result 0 the bytes stored are the user's bytes up to the first NUL and
    that NUL, within [max] bytes and all mapped for the user; with result -1
    there was no NUL before [max] bytes or before the first address that is
    not mapped for the user. *)
Theorem copyinstr_copies root src max s G U l :
  uvm_ok kend s root G U l → 0 ≤ src → 0 ≤ max →
  returns (copyinstr root src max) s (λ r s' _, s' = s ∧ ∃ k : nat,
    Forall (λ b, b ≠ 0) (ubytes (mem s) root src k) ∧
    (∀ x, src ≤ x < src + Z.of_nat k → uaddr (mem s) root x ≠ 0) ∧
    ((r = (0, ubytes (mem s) root src k ++ [0]) ∧ Z.of_nat k < max ∧
        uaddr (mem s) root (src + Z.of_nat k) ≠ 0 ∧ ubyte (mem s) root (src + Z.of_nat k) = 0) ∨
     (r = (-1, ubytes (mem s) root src k) ∧
        (Z.of_nat k = max ∨ (Z.of_nat k < max ∧ uaddr (mem s) root (src + Z.of_nat k) = 0))))).
Proof. intros. eapply copyinstr_loop_spec; try done. apply copy_fuel. lia. Qed.
End copy.
