(* ===== verification/VmBoot.v ===== *)
(** * A small machine

    Sixteen pages of RAM after the kernel, two address spaces, the first with
    one page of memory: the concrete state at which the theorems on user
    memory are applied. *)

From S2P Require Import Prelude Riscv Memory Kalloc Vm VmTable VmUser VmFree VmCopy.

Section create.
  Variable kend : Z.
  Hypothesis Hkend : 0 < kend.

(** [uvmcreate] makes an empty address space of the first free page. *)
Lemma uvmcreate_run s p l :
  kmem_inv kend s (p :: l) →
  returns uvmcreate s (λ r s' _, r = p ∧ kmem_inv kend s' l ∧ same_but p (mem s) (mem s') ∧
    uvm_ok kend s' p {[p := []]} ∅ l ∧ ∀ va, leaf (mem s') p va = 0).
Proof.
  intros Hk. unfold uvmcreate. call (by apply (kalloc_run kend p l)).
  pose proof (inv_pages _ _ _ Hk) as [Hp Hl]%Forall_cons_1.
  pose proof (inv_nodup _ _ _ Hk) as [Hpl _]%NoDup_cons.
  pose proof (ram_page_range kend p Hkend Hp). if_false.
  call reflexivity. apply returns_ret.
  pose proof (kalloc_inv kend p l s Hk) as Hk1. pose proof (kalloc_same_but p s) as Hs1.
  remember (kalloc_result p s) as s1. destruct (same_but_memset p 0 (mem s1)) as [Hm Hs2];
    [lia|apply (inv_mem _ _ _ Hk1)|].
  set (s2 := set_mem (memset (mem s1) p 0 PGSIZE) s1).
  assert (kmem_inv kend s2 l) as Hk2
    by (apply (kmem_inv_table kend s1 _ p); try done; by destruct Hp).
  assert (∀ i, 0 ≤ i < 512 → pte_at (mem s2) p i = 0) as Hz.
  { intros i Hi. apply ld64_memset_zero; lia. }
  assert (same_but p (mem s) (mem s2)) as Hs.
  { intros x Hx. etrans; [exact (Hs2 x Hx)|exact (Hs1 x Hx)]. }
  clearbody s2. split_and!; [done|done|done| |].
  - split; [split; [done| |]|intros va pa H1; by rewrite lookup_empty in H1
      |intros va pa H1; by rewrite lookup_empty in H1
      |intros va va' pa H1; by rewrite lookup_empty in H1].
    + split.
      * by rewrite lookup_singleton_eq.
      * by intros q [? _]%lookup_singleton_Some.
      * intros q path [<- <-]%lookup_singleton_Some. split; [done|simpl; lia].
      * intros q path i [<- <-]%lookup_singleton_Some _ Hi. by rewrite Hz.
      * intros q path i [_ Hnil]%lookup_singleton_Some. by destruct path.
    + intros q Hq. apply lookup_singleton_None. by intros ->.
  - intros va. unfold leaf, leaf_from. cbn [pte_addr].
    by rewrite Hz by (apply PX_range; lia).
Qed.
End create.

Definition ram : Z := PHYSTOP - 16 * PGSIZE.

(** Two address spaces; one page for the first. *)
Definition boot : M kmem (Z * Z * Z) :=
  kinit ram;;
  p ← uvmcreate;
  c ← uvmcreate;
  r ← uvmalloc ram p 0 PGSIZE PTE_W;
  mret (p, c, r).

(** The state of the small machine. *)
Record booted (s : kmem) (p c : Z) G0 U0 G1 l : Prop := {
  bo_parent : uvm_ok ram s p G0 U0 l;
  bo_child : uvm_ok ram s c G1 ∅ l;
  bo_disj q : is_Some (G0 !! q) ∨ (∃ va, U0 !! va = Some q) → ¬ own G1 ∅ l q;
  bo_page : is_Some (U0 !! 0);
  bo_only va : 0 ≤ va < 2 ^ 39 → pte_valid (leaf (mem s) p va) = true → PGROUNDDOWN va = 0;
  bo_perm va : 0 ≤ va < PGSIZE → ∃ pa, U0 !! 0 = Some pa ∧ is_pa pa ∧
    leaf (mem s) p va = mkpte pa (Z.lor (Z.lor PTE_R PTE_U) PTE_W);
  bo_empty va : 0 ≤ va < 2 ^ 39 → leaf (mem s) c va = 0
}.

Lemma kinit_ram :
  returns (kinit ram) (Kmem 0 ∅) (λ _ s _, kmem_inv ram s (pages_from 16 ram [])).
Proof.
  unfold kinit, freerange. call reflexivity. change (PGROUNDUP ram) with ram.
  apply (freerange_loop_spec ram ltac:(done) 16); try done.
  - by rewrite <-Nat.ltb_lt.
  - split; [constructor|constructor|constructor|apply mem_ok_empty].
  - by intros q ?%not_elem_of_nil.
Qed.

Lemma grown_booted s s' p c G G' G1 U' l l' :
  let perm := Z.lor (Z.lor PTE_R PTE_U) PTE_W in
  uvm_ok ram s p G ∅ l → uvm_ok ram s c G1 ∅ l → (∀ q, is_Some (G1 !! q) → ¬ own G ∅ l q) →
  (∀ va, leaf (mem s) p va = 0) → (∀ va, leaf (mem s) c va = 0) →
  grown ram (λ _, perm) (λ _ _, 0) p s s' G G' ∅ U' l l' 0 PGSIZE →
  booted s' p c G' U' G1 l'.
Proof.
  intros perm Hp Hc Hdisj Hlp Hlc Hg.
  pose proof (gn_ok _ _ _ _ _ _ _ _ _ _ _ _ _ _ Hg) as Hok.
  destruct (parent_kept ram c p s G1 G ∅ ∅ l Hc Hp) with (s := s') (G := G') (U := U') (l := l')
    as (Hc' & Hst & _).
  { intros q [?|[va Hva]]; [by apply Hdisj|]. by rewrite lookup_empty in Hva. }
  { apply (vm_kmem _ _ _ _ _ (uvm_vm _ _ _ _ _ _ Hok)). }
  { intros q. apply (gn_own _ _ _ _ _ _ _ _ _ _ _ _ _ _ Hg). }
  { apply (gn_framed _ _ _ _ _ _ _ _ _ _ _ _ _ _ Hg). }
  destruct (gn_new _ _ _ _ _ _ _ _ _ _ _ _ _ _ Hg 0 eq_refl ltac:(done)) as (pa & Hpa & Hleaf & _).
  split; try done.
  - intros q Hq [Hq1|[[va Hva]|Hl]]; [|by rewrite lookup_empty in Hva|].
    + apply (Hdisj q Hq1). apply (gn_own _ _ _ _ _ _ _ _ _ _ _ _ _ _ Hg). destruct Hq; [by left|by right; left].
    + destruct Hq as [[path Hq]|[va Hva]].
      * by rewrite (vm_free _ _ _ _ _ (uvm_vm _ _ _ _ _ _ Hok) q Hl) in Hq.
      * by destruct (uvm_frame _ _ _ _ _ _ Hok va q Hva) as (_ & _ & []).
  - intros va Hva Hv. destruct (PGROUNDDOWN_bounds va) as [Hal Hb].
    destruct (decide (0 ≤ PGROUNDDOWN va < PGSIZE)) as [Hr|Hr].
    + pose proof (PGROUNDDOWN_in 0 (PGROUNDDOWN va) eq_refl Hr) as H0.
      by rewrite PGROUNDDOWN_aligned in H0.
    + rewrite (gn_leaf _ _ _ _ _ _ _ _ _ _ _ _ _ _ Hg va Hva Hr), Hlp in Hv. done.
  - intros va Hva. exists pa. split_and!; [done| |].
    + eapply ram_page_is_pa; [|by apply (uvm_frame _ _ _ _ _ _ Hok 0 pa Hpa)]. done.
    + rewrite (leaf_page _ _ va 0); [done|]. by rewrite (PGROUNDDOWN_in 0 va).
  - intros va _. by rewrite (proj2 (Hst va)).
Qed.

Lemma boot_run :
  returns boot (Kmem 0 ∅) (λ r s _, r.2 = 0 ∨ ∃ G0 U0 G1 l, booted s r.1.1 r.1.2 G0 U0 G1 l).
Proof.
  unfold boot. call_spec kinit_ram. intros [] s0 t0 Hk0. 
  assert (∃ p c l, pages_from 16 ram [] = p :: c :: l) as (p & c & l & El)
    by (eexists _, _, _; reflexivity). rewrite El in Hk0. clear El.
  call_spec (uvmcreate_run ram); [done|done|]. intros ? s1 t1 (-> & Hk1 & Hs1 & Hok1 & Hl1).
  call_spec (uvmcreate_run ram); [done|done|]. intros ? s2 t2 (-> & Hk2 & Hs2 & Hok2 & Hl2).
  pose proof (inv_nodup _ _ _ Hk0) as [Hpn [Hcl _]%NoDup_cons]%NoDup_cons.
  assert (c ≠ p) as Hcp by (intros ->; apply Hpn; by left).
  destruct (uvm_touch ram s1 s2 p {[p := []]} ∅ (c :: l) l c) as (Hok1' & Hst1 & _); try done.
  { pose proof (inv_pages _ _ _ Hk1) as H. by apply Forall_cons_1 in H as [? _]. }
  { by rewrite lookup_singleton_ne. }
  { intros q Hq. right. by right. }
  apply returns_bind. unfold uvmalloc. change (PGSIZE <? 0) with false. cbv iota zeta.
  change (PGROUNDUP 0) with 0. change ((PGSIZE - 0) / PGSIZE) with 1.
  eapply returns_mono.
  - apply (uvmalloc_loop_spec ram ltac:(done) p 0 PGSIZE PTE_W 1 3 0 s2 s2 {[p := []]} {[p := []]} ∅ ∅ l l);
      try done; [lia|by apply grown_refl|]. intros x _. by rewrite (proj2 (Hst1 x)), Hl1.
  - intros r s3 t3 (G' & U' & l' & [[-> Hg]|[-> _]]); apply returns_ret; [right|by left].
    exists G', U', {[c := []]}, l'. simpl. eapply (grown_booted s2); try done.
    + intros q [path [<- _]%lookup_singleton_Some] [[? Hq]|[[va Hva]|Hq]]; [| |done].
      * by rewrite lookup_singleton_ne in Hq.
      * by rewrite lookup_empty in Hva.
    + intros va. by rewrite (proj2 (Hst1 va)).
Qed.

Lemma boot_result :
  match boot (Kmem 0 ∅) with Done r _ _ => r.2 =? PGSIZE | _ => false end = true.
Proof. vm_compute. reflexivity. Qed.

Lemma boot_ok : ∃ s p c G0 U0 G1 l, booted s p c G0 U0 G1 l.
Proof.
  destruct (returns_inv _ _ _ boot_run) as ([[p c] r] & s & t & E & H).
  pose proof boot_result as Hr. rewrite E in Hr. clear E. simpl in *. apply Z.eqb_eq in Hr as ->.
  destruct H as [?|(G0 & U0 & G1 & l & H)]; [done|]. by exists s, p, c, G0, U0, G1, l.
Qed.

Lemma booted_covers s p c G0 U0 G1 l : booted s p c G0 U0 G1 l → covers U0 (mem s) p.
Proof.
  intros Hb va Hva Hu. pose proof (uaddr_low _ _ _ Hu) as Hlow. unfold uaddr in *.
  destruct (Z.geb_spec va MAXVA); [lia|].
  destruct (pte_valid (leaf (mem s) p va)) eqn:Hv.
  - pose proof (bo_only _ _ _ _ _ _ _ Hb va ltac:(lia) Hv) as Hpg. rewrite Hpg.
    destruct (PGROUNDDOWN_bounds va) as [_ Hr].
    destruct (bo_perm _ _ _ _ _ _ _ Hb va ltac:(lia)) as (pa & Hpa & Hispa & Hleaf).
    rewrite Hleaf in *. case_if; [done|]. rewrite Hpa. f_equal. symmetry.
    by apply mkpte_facts.
  - unfold pte_valid, truthy in Hv. apply negb_false_iff in Hv. rewrite Hv in Hu. done.
Qed.

(** ** The theorems at the small machine *)

Lemma uvmalloc_atomic_witness :
  ∃ s p G U l, uvm_ok ram s p G U l ∧
    returns (uvmalloc ram p PGSIZE (3 * PGSIZE) PTE_W) s (λ r _ _, r = 3 * PGSIZE ∨ r = 0).
Proof.
  destruct boot_ok as (s & p & c & G0 & U0 & G1 & l & Hb).
  exists s, p, G0, U0, l. split; [apply (bo_parent _ _ _ _ _ _ _ Hb)|].
  eapply returns_mono; [apply (uvmalloc_atomic ram ltac:(done) p PGSIZE (3 * PGSIZE) PTE_W s G0 U0 l)|].
  - apply (bo_parent _ _ _ _ _ _ _ Hb).
  - done.
  - done.
  - done.
  - change (PGROUNDUP PGSIZE) with PGSIZE. intros x Hx. apply not_true_is_false. intros Hv.
    pose proof (bo_only _ _ _ _ _ _ _ Hb x ltac:(lia) Hv). destruct (PGROUNDDOWN_bounds x). lia.
  - intros r s' t (G' & U' & l' & [[-> _]|[-> _]]); [by left|by right].
Defined.

Lemma uvmfree_frees_all_witness :
  ∃ s p G U l, uvm_ok ram s p G U l ∧ U ≠ ∅ ∧
    returns (uvmfree ram p PGSIZE) s (λ _ s' _, ∃ l', kmem_inv ram s' l').
Proof.
  destruct boot_ok as (s & p & c & G0 & U0 & G1 & l & Hb).
  exists s, p, G0, U0, l. split; [apply (bo_parent _ _ _ _ _ _ _ Hb)|]. split.
  { intros H. destruct (bo_page _ _ _ _ _ _ _ Hb) as [pa Hpa]. by rewrite H, lookup_empty in Hpa. }
  eapply returns_mono; [apply (uvmfree_frees_all ram ltac:(done) p PGSIZE s G0 U0 l)|].
  - apply (bo_parent _ _ _ _ _ _ _ Hb).
  - done.
  - change (PGROUNDUP PGSIZE) with PGSIZE. intros va Hal Hr.
    rewrite <-(PGROUNDDOWN_aligned va), (PGROUNDDOWN_in 0 va) by done. apply (bo_page _ _ _ _ _ _ _ Hb).
  - intros va Hva Hv. by rewrite (bo_only _ _ _ _ _ _ _ Hb va Hva Hv).
  - intros _ s' t (l' & H & _). by exists l'.
Defined.

Lemma uvmcopy_copies_witness :
  ∃ s p c G0 U0 G1 l, booted s p c G0 U0 G1 l ∧
    returns (uvmcopy ram p c PGSIZE) s (λ r _ _, r = 0 ∨ r = -1).
Proof.
  destruct boot_ok as (s & p & c & G0 & U0 & G1 & l & Hb).
  exists s, p, c, G0, U0, G1, l. split; [done|].
  eapply returns_mono; [apply (uvmcopy_copies ram ltac:(done) p c PGSIZE s G0 G1 U0 ∅ l)|].
  - apply (bo_parent _ _ _ _ _ _ _ Hb).
  - apply (bo_child _ _ _ _ _ _ _ Hb).
  - apply (bo_disj _ _ _ _ _ _ _ Hb).
  - done.
  - intros va Hal Hr. rewrite <-(PGROUNDDOWN_aligned va), (PGROUNDDOWN_in 0 va) by done.
    apply (bo_page _ _ _ _ _ _ _ Hb).
  - intros x Hx. by rewrite (bo_empty _ _ _ _ _ _ _ Hb x) by lia.
  - intros r s' t (G' & U' & l' & _ & _ & _ & [[-> _]|[-> _]]); [by left|by right].
Defined.

Lemma mappages_walkaddr_witness :
  ∃ s p c G0 U0 G1 l, booted s p c G0 U0 G1 l ∧
    returns (mappages c 0 (2 * PGSIZE) KERNBASE (Z.lor PTE_R PTE_U)) s (λ r _ _, r = 0 ∨ r = -1).
Proof.
  destruct boot_ok as (s & p & c & G0 & U0 & G1 & l & Hb).
  exists s, p, c, G0, U0, G1, l. split; [done|].
  eapply returns_mono;
    [apply (mappages_walkaddr ram ltac:(done) c 0 (2 * PGSIZE) KERNBASE (Z.lor PTE_R PTE_U) s G1 l)|].
  - apply (uvm_vm _ _ _ _ _ _ (bo_child _ _ _ _ _ _ _ Hb)).
  - done.
  - done.
  - done.
  - done.
  - done.
  - done.
  - done.
  - intros x Hx. by rewrite (bo_empty _ _ _ _ _ _ _ Hb x) by lia.
  - intros r s' t [[-> _]|[-> _]]; [by left|by right].
Defined.

Lemma copyout_writes_witness :
  ∃ s p G U l, uvm_ok ram s p G U l ∧
    returns (copyout p 100 [7; 8; 9] 3) s (λ r _ _, r = 0 ∨ r = -1).
Proof.
  destruct boot_ok as (s & p & c & G0 & U0 & G1 & l & Hb).
  exists s, p, G0, U0, l. split; [apply (bo_parent _ _ _ _ _ _ _ Hb)|].
  eapply returns_mono; [apply (copyout_writes ram ltac:(done) p 100 [7; 8; 9] s G0 U0 l)|].
  - apply (bo_parent _ _ _ _ _ _ _ Hb).
  - by eapply booted_covers.
  - done.
  - by repeat constructor.
  - intros r s' t (_ & k & _ & [[-> _]|[-> _]]); [by left|by right].
Defined.

Lemma copyout_copyin_witness :
  ∃ s p G U l, uvm_ok ram s p G U l ∧
    returns (r ← copyout p 100 [7; 8; 9] 3; q ← copyin p 100 3; mret (r, q)) s
      (λ rq _ _, rq.1 = 0 → rq.2 = (0, [7; 8; 9])).
Proof.
  destruct boot_ok as (s & p & c & G0 & U0 & G1 & l & Hb).
  exists s, p, G0, U0, l. split; [apply (bo_parent _ _ _ _ _ _ _ Hb)|].
  apply (copyout_copyin ram ltac:(done) p 100 [7; 8; 9] s G0 U0 l).
  - apply (bo_parent _ _ _ _ _ _ _ Hb).
  - by eapply booted_covers.
  - done.
  - by repeat constructor.
Defined.

Lemma copyinstr_copies_witness :
  ∃ s p G U l, uvm_ok ram s p G U l ∧ returns (copyinstr p 0 16) s (λ _ s' _, s' = s).
Proof.
  destruct boot_ok as (s & p & c & G0 & U0 & G1 & l & Hb).
  exists s, p, G0, U0, l. split; [apply (bo_parent _ _ _ _ _ _ _ Hb)|].
  eapply returns_mono; [apply (copyinstr_copies ram ltac:(done) p 0 16 s G0 U0 l)|].
  - apply (bo_parent _ _ _ _ _ _ _ Hb).
  - done.
  - done.
  - by intros r s' t [-> _].
Defined.
