(* ===== verification/Locks.v ===== *)
(** * Locks, [kernel/spinlock.c] and [kernel/sleeplock.c]

    [Spin] models the spinlock code on a machine of several CPUs.  The calls
    are cut where another CPU can act in between, each piece is a handler on
    the shared state, and a machine step runs one piece on one CPU.  [Sleeplock]
    models sleep locks, whose bodies are atomic because they hold the spinlock
    inside, and the processes that use them.  [lock_run] replays the lock events
    of a handler's trace against the rules these locks enforce by panics. *)

From S2P Require Import Prelude.

Module Spin.

(** The fields of [struct cpu] that the locks use, and [SSTATUS_SIE]. *)
Record cpu : Type := Cpu { noff : Z; intena : bool; intr : bool }.

(** [struct spinlock]; [lkcpu] is [None] for a null pointer. *)
Record spinlock : Type := Spinlock { locked : Z; lkcpu : option Z }.

Record smp : Type := Smp { lks : lockid → spinlock; cpus : Z → cpu }.

Definition set_lk (l : lockid) (k : spinlock) (s : smp) : smp :=
  Smp (λ l', if decide (l' = l) then k else lks s l') (cpus s).
Definition set_cpu (c : Z) (k : cpu) (s : smp) : smp :=
  Smp (lks s) (λ c', if decide (c' = c) then k else cpus s c').

Definition initlock (l : lockid) : M smp unit := modify (set_lk l (Spinlock 0 None)).

Definition intr_get (c : Z) : M smp bool := gets (λ s, intr (cpus s c)).
Definition intr_set (c : Z) (b : bool) : M smp unit :=
  modify (λ s, let k := cpus s c in set_cpu c (Cpu (noff k) (intena k) b) s).
Definition intr_on (c : Z) : M smp unit := intr_set c true.
Definition intr_off (c : Z) : M smp unit := intr_set c false.

Definition push_off (c : Z) : M smp unit :=
  old ← intr_get c;
  intr_off c;;
  k ← gets (λ s, cpus s c);
  (if noff k =? 0 then modify (set_cpu c (Cpu (noff k) old (intr k))) else mret tt);;
  k ← gets (λ s, cpus s c);
  modify (set_cpu c (Cpu (noff k + 1) (intena k) (intr k))).

Definition pop_off (c : Z) : M smp unit :=
  i ← intr_get c;
  if (i : bool) then panic "pop_off - interruptible"
  else
    k ← gets (λ s, cpus s c);
    if noff k <? 1 then panic "pop_off"
    else
      modify (set_cpu c (Cpu (noff k - 1) (intena k) (intr k)));;
      k ← gets (λ s, cpus s c);
      if (noff k =? 0) && intena k then intr_on c else mret tt.

Definition holding (c : Z) (l : lockid) : M smp bool :=
  gets (λ s, truthy (locked (lks s l)) && bool_decide (lkcpu (lks s l) = Some c)).

(** [__sync_lock_test_and_set(&lk->locked, 1)]: one atomic swap. *)
Definition test_and_set (l : lockid) : M smp Z :=
  old ← gets (λ s, locked (lks s l));
  modify (λ s, set_lk l (Spinlock 1 (lkcpu (lks s l))) s);;
  mret old.

Definition set_lkcpu (l : lockid) (c : option Z) : M smp unit :=
  modify (λ s, set_lk l (Spinlock (locked (lks s l)) c) s).

(** [__sync_lock_release(&lk->locked)]. *)
Definition lock_release (l : lockid) : M smp unit :=
  modify (λ s, set_lk l (Spinlock 0 (lkcpu (lks s l))) s).

(** The spin loop; [fuel] bounds how often it finds the lock taken. *)
Fixpoint spin (fuel : nat) (l : lockid) : M smp unit :=
  match fuel with
  | O => nofuel
  | S fuel => old ← test_and_set l; if negb (old =? 0) then spin fuel l else mret tt
  end.

Definition acquire (fuel : nat) (c : Z) (l : lockid) : M smp unit :=
  push_off c;;
  h ← holding c l;
  if (h : bool) then panic "acquire"
  else spin fuel l;; set_lkcpu l (Some c).

Definition release (c : Z) (l : lockid) : M smp unit :=
  h ← holding c l;
  if negb h then panic "release"
  else set_lkcpu l None;; lock_release l;; pop_off c.

(** ** The machine

    Where a CPU is inside [acquire] or [release]. *)
Inductive phase : Type :=
  | Idle
  | Check (l : lockid)     (** [acquire], after [push_off()] *)
  | Spinning (l : lockid)  (** [acquire], at the swap *)
  | Own (l : lockid)       (** [acquire], the swap returned 0 *)
  | Clear (l : lockid)     (** [release], after [lk->cpu = 0] *)
  | Pop.                   (** [release], before [pop_off()] *)

(** The machine with its ghost state: the locks a CPU has acquired, and how
    many [push_off()] calls of its own are not matched yet. *)
Record config : Type := Config {
  st : smp;
  ph : Z → phase;
  held : Z → list lockid;
  pushed : Z → Z
}.

Inductive action : Type :=
  | Acquire (l : lockid) | Release (l : lockid) | Push | PopOff | Intr (b : bool) | Tick.

Inductive outcome : Type := Next (g : config) | Halt (msg : string).

Definition run {A} (m : M smp A) (g : config) (k : A → smp → config) : option outcome :=
  match m (st g) with
  | Done a s _ => Some (Next (k a s))
  | Panicked msg _ _ => Some (Halt msg)
  | _ => None
  end.

(** One step of CPU [c]. *)
Definition step (c : Z) (a : action) (g : config) : option outcome :=
  let goto p := λ s, Config s (upd (ph g) c p) (held g) (pushed g) in
  match ph g c, a with
  | Idle, Acquire l => run (push_off c) g (λ _, goto (Check l))
  | Check l, Tick =>
      match holding c l (st g) with
      | Done true _ _ => Some (Halt "acquire")
      | _ => Some (Next (goto (Spinning l) (st g)))
      end
  | Spinning l, Tick =>
      run (test_and_set l) g (λ old, goto (if negb (old =? 0) then Spinning l else Own l))
  | Own l, Tick =>
      run (set_lkcpu l (Some c)) g
        (λ _ s, Config s (upd (ph g) c Idle) (upd (held g) c (l :: held g c)) (pushed g))
  | Idle, Release l =>
      match holding c l (st g) with
      | Done true _ _ =>
          run (set_lkcpu l None) g
            (λ _ s, Config s (upd (ph g) c (Clear l))
                      (upd (held g) c (filter (λ l', l' ≠ l) (held g c))) (pushed g))
      | _ => Some (Halt "release")
      end
  | Clear l, Tick => run (lock_release l) g (λ _, goto Pop)
  | Pop, Tick => run (pop_off c) g (λ _, goto Idle)
  | Idle, Push =>
      run (push_off c) g
        (λ _ s, Config s (ph g) (held g) (upd (pushed g) c (pushed g c + 1)))
  | Idle, PopOff =>
      run (pop_off c) g
        (λ _ s, Config s (ph g) (held g) (upd (pushed g) c (pushed g c - 1)))
  | Idle, Intr b =>
      if noff (cpus (st g) c) =? 0 then run (intr_set c b) g (λ _, goto Idle) else None
  | _, _ => None
  end.

(** All locks free, no interrupts disabled by [push_off]. *)
Definition init : config :=
  Config (Smp (λ _, Spinlock 0 None) (λ _, Cpu 0 false false)) (λ _, Idle) (λ _, []) (λ _, 0).

Inductive reachable : config → Prop :=
  | reach_init : reachable init
  | reach_step g c a g' :
      reachable g → (a = PopOff → 0 < pushed g c) → step c a g = Some (Next g') → reachable g'.

(** ** The pieces, pointwise *)

Lemma push_off_run c s :
  ∃ s', push_off c s = Done tt s' [] ∧ lks s' = lks s ∧
    cpus s' c = Cpu (noff (cpus s c) + 1)
                    (if noff (cpus s c) =? 0 then intr (cpus s c) else intena (cpus s c)) false ∧
    ∀ c', c' ≠ c → cpus s' c' = cpus s c'.
Proof.
  unfold push_off, mbind, M_bind. simpl. unfold set_cpu. simpl. rewrite decide_True by done. simpl.
  destruct (noff (cpus s c) =? 0); simpl; eexists; (split; [reflexivity|]); simpl;
    (split; [done|]); rewrite !decide_True by done; simpl; (split; [done|]);
    intros c' Hc; by rewrite !decide_False.
Qed.

Lemma pop_off_run c s :
  intr (cpus s c) = false → 0 < noff (cpus s c) →
  ∃ s', pop_off c s = Done tt s' [] ∧ lks s' = lks s ∧
    cpus s' c = Cpu (noff (cpus s c) - 1) (intena (cpus s c))
                    ((noff (cpus s c) =? 1) && intena (cpus s c)) ∧
    ∀ c', c' ≠ c → cpus s' c' = cpus s c'.
Proof.
  intros Hi Hn. unfold pop_off, mbind, M_bind. simpl. rewrite Hi. if_false. simpl.
  unfold set_cpu. simpl. rewrite decide_True by done. simpl.
  replace (noff (cpus s c) - 1 =? 0) with (noff (cpus s c) =? 1) by lia.
  destruct ((noff (cpus s c) =? 1) && intena (cpus s c)); simpl; eexists; (split; [reflexivity|]);
    simpl; (split; [done|]); rewrite !decide_True by done; simpl; (split; [try done|]).
  - intros c' Hc. by rewrite !decide_False.
  - by rewrite Hi.
  - intros c' Hc. by rewrite !decide_False.
Qed.

(** ** The invariant *)

(** CPU [c] owns [l]: it has acquired it, or is about to record or to give up
    the ownership. *)
Definition owner (g : config) (c : Z) (l : lockid) : Prop :=
  l ∈ held g c ∨ ph g c = Own l ∨ ph g c = Clear l.

Record lock_inv (g : config) : Prop := {
  li_bool l : locked (lks (st g) l) = 0 ∨ locked (lks (st g) l) = 1;
  li_owned l : locked (lks (st g) l) = 1 → ∃ c, owner g c l;
  li_owner l c : owner g c l → locked (lks (st g) l) = 1;
  li_uniq l c1 c2 : owner g c1 l → owner g c2 l → c1 = c2;
  li_cpu l c : lkcpu (lks (st g) l) = Some c ↔ l ∈ held g c;
  li_nodup c : NoDup (held g c);
  li_own l c : ph g c = Own l ∨ ph g c = Clear l → l ∉ held g c
}.

(** How many [push_off()] calls [release] or [acquire] has outstanding. *)
Definition inside (p : phase) : Z := match p with Idle => 0 | _ => 1 end.

Definition cpu_inv (g : config) (c : Z) : Prop :=
  noff (cpus (st g) c) = Z.of_nat (length (held g c)) + pushed g c + inside (ph g c) ∧
  0 ≤ pushed g c ∧ (0 < noff (cpus (st g) c) → intr (cpus (st g) c) = false).

Definition inv (g : config) : Prop := lock_inv g ∧ ∀ c, cpu_inv g c.

(** What [intr] was before the outermost [push_off()] on this CPU. *)
Definition base_intr (g : config) (c : Z) : bool :=
  let k := cpus (st g) c in if noff k =? 0 then intr k else intena k.

Lemma holding_run c l g :
  lock_inv g → holding c l (st g) = Done (bool_decide (l ∈ held g c)) (st g) [].
Proof.
  intros Hi. unfold holding, gets. do 2 f_equal.
  destruct (decide (l ∈ held g c)) as [Hl|Hl].
  - rewrite (bool_decide_true (l ∈ held g c)) by done.
    rewrite (li_owner _ Hi l c) by (by left). rewrite (proj2 (li_cpu _ Hi l c) Hl).
    by rewrite bool_decide_true.
  - rewrite (bool_decide_false (l ∈ held g c)) by done.
    rewrite (bool_decide_false (lkcpu _ = _)) by (by rewrite (li_cpu _ Hi)). by rewrite andb_false_r.
Qed.

Lemma set_lk_eq l k s : lks (set_lk l k s) l = k.
Proof. simpl. by rewrite decide_True. Qed.
Lemma set_lk_ne l l' k s : l' ≠ l → lks (set_lk l k s) l' = lks s l'.
Proof. intros. simpl. by rewrite decide_False. Qed.

(** Moving between phases that own nothing. *)
Lemma lock_inv_phase g c p s :
  lock_inv g → (∀ l, lks s l = lks (st g) l) →
  (∀ l, ph g c ≠ Own l ∧ ph g c ≠ Clear l) → (∀ l, p ≠ Own l ∧ p ≠ Clear l) →
  ∀ w, lock_inv (Config s (upd (ph g) c p) (held g) w).
Proof.
  intros Hi Hs Hold Hnew w.
  assert (∀ c' l, (upd (ph g) c p c' = Own l ∨ upd (ph g) c p c' = Clear l) ↔
    (ph g c' = Own l ∨ ph g c' = Clear l)) as Hph.
  { intros c' l. specialize (Hold l). specialize (Hnew l). destruct (decide (c' = c)) as [->|].
    - rewrite upd_eq. tauto.
    - by rewrite upd_ne. }
  assert (∀ c' l, owner (Config s (upd (ph g) c p) (held g) w) c' l ↔ owner g c' l) as Ho.
  { intros c' l. unfold owner. simpl. rewrite Hph. done. }
  split; simpl; try (setoid_rewrite Ho); try (setoid_rewrite Hs); try apply Hi.
  intros l c'. rewrite Hph. apply Hi.
Qed.

(** The swap returned 0. *)
Lemma lock_inv_own g c l :
  lock_inv g → ph g c = Spinning l → locked (lks (st g) l) = 0 →
  lock_inv (Config (set_lk l (Spinlock 1 (lkcpu (lks (st g) l))) (st g))
    (upd (ph g) c (Own l)) (held g) (pushed g)).
Proof.
  intros Hi Hc H0.
  assert (∀ c', ¬ owner g c' l) as Hno.
  { intros c' Ho%(li_owner _ Hi). lia. }
  set (g' := Config _ _ _ _).
  assert (∀ c' l', owner g' c' l' ↔ (l' = l ∧ c' = c) ∨ owner g c' l') as Ho.
  { intros c' l'. unfold owner, g'. simpl. destruct (decide (c' = c)) as [->|].
    - rewrite upd_eq, Hc. naive_solver.
    - rewrite upd_ne by done. naive_solver. }
  split.
  - intros l'. destruct (decide (l' = l)) as [->|]; simpl.
    + rewrite decide_True by done. by right.
    + rewrite decide_False by done. apply Hi.
  - intros l'. destruct (decide (l' = l)) as [->|]; simpl; [|rewrite decide_False by done]; intros H.
    + exists c. apply Ho. by left.
    + destruct (li_owned _ Hi l' H) as [c' ?]. exists c'. apply Ho. by right.
  - intros l' c' [[-> ->]|H]%Ho; simpl; [by rewrite decide_True|].
    destruct (decide (l' = l)); [done|]. by apply (li_owner _ Hi l' c').
  - intros l' c1 c2 [[-> ->]|H1]%Ho [[? ->]|H2]%Ho; try done.
    + by apply Hno in H2.
    + subst l'. by apply Hno in H1.
    + by apply (li_uniq _ Hi l').
  - intros l' c'. simpl. destruct (decide (l' = l)) as [->|]; simpl; apply Hi.
  - apply Hi.
  - intros l' c'. simpl. destruct (decide (c' = c)) as [->|].
    + rewrite upd_eq. intros [[= <-]|?]; [|done]. intros H. apply (Hno c). by left.
    + rewrite upd_ne by done. apply Hi.
Qed.

(** [lk->cpu = mycpu()] *)
Lemma lock_inv_record g c l :
  lock_inv g → ph g c = Own l →
  lock_inv (Config (set_lk l (Spinlock (locked (lks (st g) l)) (Some c)) (st g))
    (upd (ph g) c Idle) (upd (held g) c (l :: held g c)) (pushed g)).
Proof.
  intros Hi Hc. assert (owner g c l) as Hown by (right; by left).
  set (g' := Config _ _ _ _).
  assert (∀ c' l', owner g' c' l' ↔ owner g c' l') as Ho.
  { intros c' l'. unfold owner, g'. simpl. destruct (decide (c' = c)) as [->|].
    - rewrite !upd_eq, Hc, elem_of_cons. naive_solver.
    - rewrite !upd_ne by done. done. }
  assert (∀ l', locked (lks (st g') l') = locked (lks (st g) l')) as Hlk.
  { intros l'. simpl. destruct (decide (l' = l)) as [->|]; done. }
  split; try (setoid_rewrite Ho); try (setoid_rewrite Hlk); try apply Hi.
  - intros l' c'. simpl. destruct (decide (l' = l)) as [->|Hl]; simpl.
    + destruct (decide (c' = c)) as [->|Hne].
      * rewrite upd_eq, elem_of_cons. naive_solver.
      * rewrite upd_ne by done. split; [congruence|]. intros H. destruct Hne.
        apply (li_uniq _ Hi l c' c); [by left|done].
    + destruct (decide (c' = c)) as [->|Hne].
      * rewrite upd_eq, elem_of_cons, (li_cpu _ Hi). naive_solver.
      * rewrite upd_ne by done. apply Hi.
  - intros c'. simpl. destruct (decide (c' = c)) as [->|].
    + rewrite upd_eq. constructor; [|apply Hi]. apply (li_own _ Hi l c). by left.
    + rewrite upd_ne by done. apply Hi.
  - intros l' c'. simpl. destruct (decide (c' = c)) as [->|].
    + rewrite upd_eq. by intros [?|?].
    + rewrite !upd_ne by done. apply Hi.
Qed.

(** [lk->cpu = 0] *)
Lemma lock_inv_clear g c l :
  lock_inv g → ph g c = Idle → l ∈ held g c →
  lock_inv (Config (set_lk l (Spinlock (locked (lks (st g) l)) None) (st g))
    (upd (ph g) c (Clear l)) (upd (held g) c (filter (λ l', l' ≠ l) (held g c))) (pushed g)).
Proof.
  intros Hi Hc Hl. assert (owner g c l) as Hown by (by left).
  set (g' := Config _ _ _ _).
  assert (∀ c' l', owner g' c' l' ↔ owner g c' l') as Ho.
  { intros c' l'. unfold owner, g'. simpl. destruct (decide (c' = c)) as [->|].
    - rewrite !upd_eq, Hc, list_elem_of_filter. destruct (decide (l' = l)); naive_solver.
    - rewrite !upd_ne by done. done. }
  assert (∀ l', locked (lks (st g') l') = locked (lks (st g) l')) as Hlk.
  { intros l'. simpl. destruct (decide (l' = l)) as [->|]; done. }
  split; try (setoid_rewrite Ho); try (setoid_rewrite Hlk); try apply Hi.
  - intros l' c'. simpl. destruct (decide (l' = l)) as [->|Hne]; simpl.
    + split; [done|]. destruct (decide (c' = c)) as [->|Hne].
      * rewrite upd_eq, list_elem_of_filter. tauto.
      * rewrite upd_ne by done. intros H. destruct Hne.
        apply (li_uniq _ Hi l c' c); [by left|done].
    + destruct (decide (c' = c)) as [->|].
      * rewrite upd_eq, list_elem_of_filter, (li_cpu _ Hi). tauto.
      * rewrite upd_ne by done. apply Hi.
  - intros c'. simpl. destruct (decide (c' = c)) as [->|].
    + rewrite upd_eq. apply NoDup_filter, Hi.
    + rewrite upd_ne by done. apply Hi.
  - intros l' c'. simpl. destruct (decide (c' = c)) as [->|].
    + rewrite !upd_eq, list_elem_of_filter. intros [?|[= <-]]; [done|tauto].
    + rewrite !upd_ne by done. apply Hi.
Qed.

(** [__sync_lock_release] *)
Lemma lock_inv_free g c l :
  lock_inv g → ph g c = Clear l →
  lock_inv (Config (set_lk l (Spinlock 0 (lkcpu (lks (st g) l))) (st g))
    (upd (ph g) c Pop) (held g) (pushed g)).
Proof.
  intros Hi Hc. assert (owner g c l) as Hown by (right; by right).
  set (g' := Config _ _ _ _).
  assert (∀ c' l', owner g' c' l' ↔ l' ≠ l ∧ owner g c' l') as Ho.
  { intros c' l'. destruct (decide (l' = l)) as [->|Hl].
    - split; [|naive_solver]. intros Ho. exfalso. unfold owner, g' in Ho. simpl in Ho.
      destruct (decide (c' = c)) as [->|Hne].
      + rewrite upd_eq in Ho. destruct Ho as [Ho|[?|?]]; try done.
        by apply (li_own _ Hi l c (or_intror Hc)).
      + rewrite upd_ne in Ho by done. apply Hne. by apply (li_uniq _ Hi l).
    - unfold owner, g'. simpl. destruct (decide (c' = c)) as [->|].
      + rewrite upd_eq, Hc. naive_solver.
      + rewrite upd_ne by done. naive_solver. }
  split.
  - intros l'. simpl. destruct (decide (l' = l)); [by left|apply Hi].
  - intros l'. simpl. destruct (decide (l' = l)); [done|]. intros H.
    destruct (li_owned _ Hi l' H) as [c' ?]. exists c'. by apply Ho.
  - intros l' c' [? H]%Ho. simpl. rewrite decide_False by done. by apply (li_owner _ Hi l' c').
  - intros l' c1 c2 [_ H1]%Ho [_ H2]%Ho. by apply (li_uniq _ Hi l').
  - intros l' c'. simpl. destruct (decide (l' = l)) as [->|]; simpl; apply Hi.
  - apply Hi.
  - intros l' c'. simpl. destruct (decide (c' = c)) as [->|].
    + rewrite upd_eq. by intros [?|?].
    + rewrite upd_ne by done. apply Hi.
Qed.

Lemma filter_ne_absent (l : lockid) (ls : list lockid) : l ∉ ls → filter (λ l', l' ≠ l) ls = ls.
Proof.
  induction ls as [|x ls IH]; [done|]. rewrite not_elem_of_cons. intros [Hx Hls].
  rewrite filter_cons_True by done. by rewrite IH.
Qed.

Lemma length_filter_ne (l : lockid) (ls : list lockid) :
  NoDup ls → l ∈ ls → Z.of_nat (length (filter (λ l', l' ≠ l) ls)) = Z.of_nat (length ls) - 1.
Proof.
  induction 1 as [|x ls Hx Hn IH]; intros Hl; [by apply not_elem_of_nil in Hl|].
  destruct (decide (x = l)) as [->|Hne].
  - rewrite filter_cons_False by naive_solver. rewrite filter_ne_absent by done. simpl. lia.
  - rewrite filter_cons_True by done. apply elem_of_cons in Hl as [->|Hl]; [done|].
    simpl. apply IH in Hl. lia.
Qed.

Lemma base_pop (n : Z) (e i : bool) :
  0 < n → (if n - 1 =? 0 then (n =? 1) && e else e) = (if n =? 0 then i else e).
Proof. intros. destruct (decide (n = 1)) as [->|]; [done|]. if_false. by if_false. Qed.

(** The effect of a step on the CPU that takes it. *)
Lemma step_cpu c a g g' :
  inv g → (a = PopOff → 0 < pushed g c) → step c a g = Some (Next g') →
  cpu_inv g' c ∧ ((∀ b, a ≠ Intr b) → base_intr g' c = base_intr g c) ∧
  ∀ c', c' ≠ c → cpus (st g') c' = cpus (st g) c' ∧ held g' c' = held g c' ∧
    ph g' c' = ph g c' ∧ pushed g' c' = pushed g c'.
Proof.
  intros [Hi Hcpu] Hpop. destruct (Hcpu c) as (Hn & Hp & Hintr). unfold step, run.
  destruct (push_off_run c (st g)) as (sp & Hpush & _ & Hpc & Hpo).
  destruct (ph g c) as [|l|l|l|l|] eqn:Hph; destruct a as [l'|l'| | |b|]; try done; simpl in Hn.
  - rewrite Hpush. intros [= <-]. unfold cpu_inv, base_intr. simpl. rewrite upd_eq, Hpc. simpl.
    split_and!; try lia; [intros _; by if_false|].
    intros c' Hne. by rewrite Hpo, upd_ne.
  - rewrite (holding_run c l' g Hi). case_bool_decide as Hl; [|done]. simpl. intros [= <-].
    unfold cpu_inv, base_intr. simpl. rewrite !upd_eq. rewrite length_filter_ne by (done || apply Hi).
    simpl. split_and!; try lia; try done. intros c' Hne. by rewrite !upd_ne.
  - rewrite Hpush. intros [= <-]. unfold cpu_inv, base_intr. simpl. rewrite upd_eq, Hpc, Hph. simpl.
    split_and!; try lia; [intros _; by if_false|].
    intros c' Hne. by rewrite Hpo, upd_ne.
  - specialize (Hpop eq_refl).
    destruct (pop_off_run c (st g)) as (s' & -> & _ & Hc & Ho); [apply Hintr; lia|lia|].
    intros [= <-]. unfold cpu_inv, base_intr. simpl. rewrite upd_eq, Hc, Hph. simpl.
    split_and!; try lia; [intros _; apply base_pop; lia|].
    intros c' Hne. by rewrite Ho, upd_ne.
  - destruct (Z.eqb_spec (noff (cpus (st g) c)) 0) as [H0|]; [|done]. simpl. intros [= <-].
    unfold cpu_inv, base_intr. simpl. rewrite upd_eq, decide_True by done. simpl.
    split_and!; try lia; [intros H; by destruct (H b)|].
    intros c' Hne. by rewrite upd_ne, decide_False.
  - rewrite (holding_run c l g Hi). case_bool_decide as Hl; [done|]. intros [= <-].
    unfold cpu_inv, base_intr. simpl. rewrite !upd_eq. simpl.
    split_and!; try lia; try done. intros c' Hne. by rewrite !upd_ne.
  - simpl. intros [= <-]. unfold cpu_inv, base_intr. simpl. rewrite !upd_eq.
    destruct (negb _); simpl; (split_and!; try lia; try done; intros c' Hne; by rewrite !upd_ne).
  - simpl. intros [= <-]. unfold cpu_inv, base_intr. simpl. rewrite !upd_eq. simpl.
    split_and!; try lia; try done. intros c' Hne. by rewrite !upd_ne.
  - simpl. intros [= <-]. unfold cpu_inv, base_intr. simpl. rewrite !upd_eq. simpl.
    split_and!; try lia; try done. intros c' Hne. by rewrite !upd_ne.
  - destruct (pop_off_run c (st g)) as (s' & -> & _ & Hc & Ho); [apply Hintr; lia|lia|].
    intros [= <-]. unfold cpu_inv, base_intr. simpl. rewrite upd_eq, Hc. simpl.
    split_and!; try lia; [intros _; apply base_pop; lia|].
    intros c' Hne. by rewrite Ho, upd_ne.
Qed.

Lemma pop_off_lks c s :
  match pop_off c s with Done _ s' _ => lks s' = lks s | _ => True end.
Proof.
  unfold pop_off, mbind, M_bind. simpl. destruct (intr (cpus s c)); [done|]. simpl.
  case_if; [done|]. simpl. by destruct (_ && _).
Qed.

(** [lock_inv] does not look at the CPUs. *)
Lemma lock_inv_same g s w :
  lock_inv g → (∀ l, lks s l = lks (st g) l) → lock_inv (Config s (ph g) (held g) w).
Proof. intros [H1 H2 H3 H4 H5 H6 H7] Hs. split; simpl; intros *; rewrite ?Hs; eauto. Qed.

Lemma step_lock c a g g' :
  lock_inv g → step c a g = Some (Next g') → lock_inv g'.
Proof.
  intros Hi. unfold step, run. destruct (push_off_run c (st g)) as (sp & Hpush & Hlp & _).
  assert (∀ s', pop_off c (st g) = s' → match s' with Done _ s'' _ => lks s'' = lks (st g) | _ => True end) as Hpop.
  { intros s' <-. apply pop_off_lks. }
  destruct (ph g c) as [|l|l|l|l|] eqn:Hph; destruct a as [l'|l'| | |b|]; try done.
  - rewrite Hpush. intros [= <-]. apply lock_inv_phase; rewrite ?Hph, ?Hlp; done.
  - rewrite (holding_run c l' g Hi). case_bool_decide as Hl; [|done]. intros [= <-].
    by apply lock_inv_clear.
  - rewrite Hpush. intros [= <-]. apply lock_inv_same; [done|]. by rewrite Hlp.
  - destruct (pop_off c (st g)) as [[] s' ?| | | | |] eqn:E; try done. intros [= <-].
    apply lock_inv_same; [done|]. by rewrite (Hpop _ eq_refl).
  - case_if; [|done]. simpl. intros [= <-]. by apply lock_inv_phase; rewrite ?Hph.
  - rewrite (holding_run c l g Hi). case_bool_decide as Hl; [done|]. intros [= <-].
    by apply lock_inv_phase; rewrite ?Hph.
  - simpl. intros [= <-]. destruct (li_bool _ Hi l) as [H0|H1].
    + rewrite H0. by apply lock_inv_own.
    + rewrite H1. apply lock_inv_phase; rewrite ?Hph; try done. intros l'. simpl.
      destruct (decide (l' = l)) as [->|]; [|done]. by destruct (lks (st g) l); simpl in *; subst.
  - intros [= <-]. by apply lock_inv_record.
  - intros [= <-]. by apply lock_inv_free.
  - destruct (pop_off c (st g)) as [[] s' ?| | | | |] eqn:E; try done. intros [= <-].
    apply lock_inv_phase; try done; [by rewrite (Hpop _ eq_refl)|by rewrite Hph].
Qed.

Lemma init_inv : inv init.
Proof.
  assert (∀ c l, ¬ owner init c l) as Hno.
  { intros c l [H|[H|H]]; [by apply not_elem_of_nil in H|done|done]. }
  split.
  - split; simpl.
    + by left.
    + done.
    + intros l c H. by apply Hno in H.
    + intros l c1 c2 H. by apply Hno in H.
    + intros l c. split; [done|]. intros H. by apply not_elem_of_nil in H.
    + constructor.
    + intros l c _. apply not_elem_of_nil.
  - intros c. unfold cpu_inv. simpl. lia.
Qed.

Lemma step_inv c a g g' :
  inv g → (a = PopOff → 0 < pushed g c) → step c a g = Some (Next g') → inv g'.
Proof.
  intros Hi Hpop Hs. split; [by eapply step_lock; [apply Hi|]|].
  destruct (step_cpu c a g g' Hi Hpop Hs) as (Hc & _ & Ho).
  intros c'. destruct (decide (c' = c)) as [->|Hne]; [done|].
  destruct (Ho c' Hne) as (E1 & E2 & E3 & E4). unfold cpu_inv. rewrite E1, E2, E3, E4.
  apply Hi.
Qed.

Lemma reachable_inv g : reachable g → inv g.
Proof. induction 1; [apply init_inv|by eapply step_inv]. Qed.

Lemma held_intr g c l : inv g → l ∈ held g c → intr (cpus (st g) c) = false.
Proof.
  intros [_ Hc] Hl. destruct (Hc c) as (Hn & Hp & Hi). apply Hi. rewrite Hn.
  destruct (held g c); [by apply not_elem_of_nil in Hl|]. simpl.
  destruct (ph g c); simpl; lia.
Qed.

(** C3: Mutual exclusion.  In every state that the CPUs can reach by
    interleaving their calls of [acquire], [release], [push_off] and [pop_off],
    a lock is held by at most one CPU; while it is held, its [locked] field is 1,
    its [cpu] field names the holder, and interrupts are off on that CPU. *)
Theorem spin_mutex g l c1 c2 :
  reachable g → l ∈ held g c1 → l ∈ held g c2 →
  c1 = c2 ∧ lks (st g) l = Spinlock 1 (Some c1) ∧ intr (cpus (st g) c1) = false.
Proof.
  intros Hr H1 H2. pose proof (reachable_inv g Hr) as Hi. destruct (Hi) as [Hl _].
  split_and!; [by apply (li_uniq _ Hl l); left| |by eapply held_intr].
  pose proof (li_owner _ Hl l c1 (or_introl H1)) as Hk.
  pose proof (proj2 (li_cpu _ Hl l c1) H1) as Hc.
  destruct (lks (st g) l) as [k o]. simpl in *. by subst.
Qed.

(** The locks panic on misuse only: the only steps that halt the machine
    are an [acquire] of a lock that this CPU holds already and a [release] of a
    lock that it does not hold.  The panics of [pop_off] are never reached. *)
Theorem spin_panics g c a msg :
  reachable g → (a = PopOff → 0 < pushed g c) → step c a g = Some (Halt msg) →
  (msg = "acquire" ∧ ∃ l, ph g c = Check l ∧ l ∈ held g c) ∨
  (msg = "release" ∧ ∃ l, a = Release l ∧ l ∉ held g c).
Proof.
  intros Hr Hpop. destruct (reachable_inv g Hr) as [Hi Hcpu]. destruct (Hcpu c) as (Hn & Hp & Hintr).
  unfold step, run. destruct (push_off_run c (st g)) as (sp & Hpush & _).
  destruct (ph g c) as [|l|l|l|l|] eqn:Hph; destruct a as [l'|l'| | |b|]; try done;
    simpl in Hn; rewrite ?Hpush; try done.
  - rewrite (holding_run c l' g Hi). case_bool_decide as Hl; [done|]. intros [= <-]. right. eauto.
  - specialize (Hpop eq_refl).
    by destruct (pop_off_run c (st g)) as (s' & -> & _); [apply Hintr; lia|lia|].
  - by case_if.
  - rewrite (holding_run c l g Hi). case_bool_decide as Hl; [|done]. intros [= <-]. left. eauto.
  - by destruct (pop_off_run c (st g)) as (s' & -> & _); [apply Hintr; lia|lia|].
Qed.

(** Steps other than the kernel turning interrupts on or off itself. *)
Definition quiet (g g' : config) : Prop :=
  ∃ c a, (a = PopOff → 0 < pushed g c) ∧ (∀ b, a ≠ Intr b) ∧ step c a g = Some (Next g').

Lemma quiet_base g g' c : inv g → quiet g g' → inv g' ∧ base_intr g' c = base_intr g c.
Proof.
  intros Hi (c' & a & Hpop & Ha & Hs). split; [by eapply step_inv|].
  destruct (step_cpu c' a g g' Hi Hpop Hs) as (_ & Hb & Ho).
  destruct (decide (c = c')) as [->|Hne]; [by apply Hb|].
  unfold base_intr. by destruct (Ho c Hne) as (-> & _).
Qed.

(** [push_off] and [pop_off] are matched.  When a CPU goes from a state
    with no outstanding [push_off] to another one through any interleaving of
    lock operations, by any nesting and in any order of release, its interrupt
    enable bit is what it was. *)
Theorem spin_intr_restored g g' c :
  reachable g → rtc quiet g g' →
  noff (cpus (st g) c) = 0 → noff (cpus (st g') c) = 0 →
  intr (cpus (st g') c) = intr (cpus (st g) c).
Proof.
  intros Hr Hq H0 H0'. pose proof (reachable_inv g Hr) as Hi. clear Hr.
  assert (base_intr g' c = base_intr g c) as Hb.
  { clear H0 H0'. induction Hq as [|g g1 g2 Hs _ IH]; [done|].
    destruct (quiet_base g g1 c Hi Hs) as [Hi1 Hb1]. rewrite <-Hb1. by apply IH. }
  unfold base_intr in Hb. by rewrite H0, H0' in Hb.
Qed.

(** A sequence of steps of one CPU. *)
Fixpoint steps (c : Z) (acts : list action) (g : config) : option outcome :=
  match acts with
  | [] => Some (Next g)
  | a :: acts =>
      match step c a g with
      | Some (Next g') => steps c acts g'
      | r => r
      end
  end.

Lemma acquire_steps g c l fuel :
  inv g → ph g c = Idle → locked (lks (st g) l) = 0 →
  ∃ g1, acquire (S fuel) c l (st g) = Done tt (st g1) [] ∧
    steps c [Acquire l; Tick; Tick; Tick] g = Some (Next g1) ∧
    held g1 c = l :: held g c ∧ ph g1 c = Idle ∧ inv g1 ∧ l ∉ held g c.
Proof.
  intros Hi Hph H0. destruct (push_off_run c (st g)) as (sp & Hpush & Hlk & _).
  assert (locked (lks sp l) = 0) as Hsp by (by rewrite Hlk).
  assert (l ∉ held g c) as Hl.
  { intros Hl. pose proof (li_owner _ (proj1 Hi) l c (or_introl Hl)). lia. }
  set (g0 := Config sp (upd (ph g) c (Check l)) (held g) (pushed g)).
  assert (step c (Acquire l) g = Some (Next g0)) as Hs0.
  { unfold step, run. by rewrite Hph, Hpush. }
  assert (inv g0) as Hi0 by (by apply (step_inv c (Acquire l) g)).
  assert (holding c l sp = Done false sp []) as Hh.
  { pose proof (holding_run c l g0 (proj1 Hi0)) as Hh. by rewrite bool_decide_false in Hh. }
  set (gS := Config sp (upd (ph g0) c (Spinning l)) (held g) (pushed g)).
  assert (step c Tick g0 = Some (Next gS)) as HsS.
  { unfold step. simpl ph. rewrite upd_eq. simpl st. by rewrite Hh. }
  set (s1 := set_lk l (Spinlock 1 (lkcpu (lks sp l))) sp).
  set (gO := Config s1 (upd (ph gS) c (Own l)) (held g) (pushed g)).
  assert (step c Tick gS = Some (Next gO)) as HsO.
  { unfold step, run. simpl ph. rewrite upd_eq. simpl. by rewrite Hsp. }
  set (s2 := set_lk l (Spinlock (locked (lks s1 l)) (Some c)) s1).
  set (g1 := Config s2 (upd (ph gO) c Idle) (upd (held g) c (l :: held g c)) (pushed g)).
  assert (step c Tick gO = Some (Next g1)) as Hs1.
  { unfold step, run. simpl ph. by rewrite upd_eq. }
  exists g1. split_and!; try done.
  - unfold acquire. rewrite (bind_done _ _ _ _ _ _ Hpush), after_nil.
    rewrite (bind_done _ _ _ _ _ _ Hh), after_nil. cbn [spin].
    unfold test_and_set, mbind, M_bind. simpl. by rewrite Hsp.
  - unfold steps. by rewrite Hs0, HsS, HsO, Hs1.
  - simpl. by rewrite upd_eq.
  - simpl. by rewrite upd_eq.
  - apply (step_inv c Tick gO); try done. apply (step_inv c Tick gS); try done.
    by apply (step_inv c Tick g0).
Qed.

Lemma release_steps g c l ls :
  inv g → ph g c = Idle → held g c = l :: ls →
  ∃ g2, release c l (st g) = Done tt (st g2) [] ∧
    steps c [Release l; Tick; Tick] g = Some (Next g2) ∧ held g2 c = ls ∧ ph g2 c = Idle.
Proof.
  intros Hi Hph Hh. assert (l ∈ held g c) as Hl by (rewrite Hh; by left).
  pose proof (li_nodup _ (proj1 Hi) c) as Hnd. rewrite Hh in Hnd. apply NoDup_cons in Hnd as [Hls _].
  assert (holding c l (st g) = Done true (st g) []) as Hhold.
  { rewrite (holding_run c l g (proj1 Hi)). by rewrite bool_decide_true. }
  set (s1 := set_lk l (Spinlock (locked (lks (st g) l)) None) (st g)).
  set (gC := Config s1 (upd (ph g) c (Clear l))
    (upd (held g) c (filter (λ l', l' ≠ l) (held g c))) (pushed g)).
  assert (step c (Release l) g = Some (Next gC)) as HsC.
  { unfold step, run. by rewrite Hph, Hhold. }
  set (s2 := set_lk l (Spinlock 0 (lkcpu (lks s1 l))) s1).
  set (gP := Config s2 (upd (ph gC) c Pop) (held gC) (pushed g)).
  assert (step c Tick gC = Some (Next gP)) as HsP.
  { unfold step, run. simpl ph. by rewrite upd_eq. }
  destruct (proj2 Hi c) as (Hn & Hp & Hintr). rewrite Hh, Hph in Hn. simpl in Hn.
  destruct (pop_off_run c s2) as (s3 & Hpop & _); [apply Hintr; lia|simpl; lia|].
  set (g2 := Config s3 (upd (ph gP) c Idle) (held gC) (pushed g)).
  assert (step c Tick gP = Some (Next g2)) as Hs2.
  { unfold step, run. simpl ph. rewrite upd_eq. simpl st. by rewrite Hpop. }
  exists g2. split_and!.
  - unfold release. rewrite (bind_done _ _ _ _ _ _ Hhold), after_nil. cbn [negb].
    rewrite (bind_done (set_lkcpu l None) _ (st g) tt s1 [] eq_refl), after_nil.
    rewrite (bind_done (lock_release l) _ s1 tt s2 [] eq_refl), after_nil. exact Hpop.
  - unfold steps. by rewrite HsC, HsP, Hs2.
  - simpl. rewrite upd_eq, Hh, filter_cons_False, filter_ne_absent by naive_solver. done.
  - simpl. by rewrite upd_eq.
Qed.

(** The machine's steps are the code.  On a lock that is free and not held
    by this CPU, the four steps of an acquire end in the state that the function
    [acquire] computes, with the lock among those held; the three steps of a
    release end in the state that [release] computes, with the lock gone. *)
Theorem acquire_release_steps g c l fuel :
  inv g → ph g c = Idle → locked (lks (st g) l) = 0 →
  ∃ g1 g2,
    acquire (S fuel) c l (st g) = Done tt (st g1) [] ∧
    steps c [Acquire l; Tick; Tick; Tick] g = Some (Next g1) ∧
    held g1 c = l :: held g c ∧ ph g1 c = Idle ∧
    release c l (st g1) = Done tt (st g2) [] ∧
    steps c [Release l; Tick; Tick] g1 = Some (Next g2) ∧
    held g2 c = held g c ∧ ph g2 c = Idle.
Proof.
  intros Hi Hph H0.
  destruct (acquire_steps g c l fuel Hi Hph H0) as (g1 & Hacq & Hst & Hh & Hp & Hi1 & Hl).
  destruct (release_steps g1 c l (held g c) Hi1 Hp Hh) as (g2 & ? & ? & ? & ?).
  by exists g1, g2.
Qed.

(** ** The theorems at work: CPU 0 holds a lock while CPU 1 spins on it *)

Lemma steps_reachable c acts g g' :
  PopOff ∉ acts → reachable g → steps c acts g = Some (Next g') → reachable g'.
Proof.
  revert g. induction acts as [|a acts IH]; intros g Hp Hr; simpl; [by intros [= <-]|].
  apply not_elem_of_cons in Hp as [Ha Hp].
  destruct (step c a g) as [[g1|]|] eqn:E; try done. apply IH; [done|].
  eapply reach_step; [done| |done]. by intros ->.
Qed.

Lemma demo_reachable :
  ∃ g, reachable g ∧ LkKmem ∈ held g 0 ∧ ph g 0 = Idle ∧ ph g 1 = Spinning LkKmem.
Proof.
  destruct (steps 0 [Acquire LkKmem; Tick; Tick; Tick] init) as [[g1|]|] eqn:E1; try by vm_compute in E1.
  destruct (steps 1 [Acquire LkKmem; Tick; Tick; Tick] g1) as [[g2|]|] eqn:E2;
    try (vm_compute in E1; injection E1 as <-; by vm_compute in E2).
  exists g2. split.
  - eapply steps_reachable, E2; [set_solver|].
    eapply steps_reachable, E1; [set_solver|apply reach_init].
  - vm_compute in E1. injection E1 as <-. vm_compute in E2. injection E2 as <-.
    split; [by left|done].
Qed.

Lemma spin_mutex_witness :
  ∃ g, reachable g ∧ LkKmem ∈ held g 0 ∧ intr (cpus (st g) 0) = false.
Proof.
  destruct demo_reachable as (g & Hr & Hh & _). exists g. split_and!; try done.
  by apply (spin_mutex g LkKmem 0 0 Hr Hh Hh).
Defined.

Lemma spin_panics_witness :
  ∃ g, reachable g ∧ step 1 (Release LkKmem) init = Some (Halt "release") ∧ LkKmem ∉ held init 1.
Proof.
  exists init. split_and!; [apply reach_init|reflexivity|].
  destruct (spin_panics init 1 (Release LkKmem) "release" reach_init ltac:(done) eq_refl)
    as [[? _]|(_ & l & [= <-] & Hl)]; [done|exact Hl].
Defined.

Lemma spin_intr_restored_witness :
  ∃ g, rtc quiet init g ∧ held g 0 = [LkKmem] ∧ intr (cpus (st g) 1) = intr (cpus (st init) 1).
Proof.
  assert (∃ g, rtc quiet init g ∧ held g 0 = [LkKmem] ∧ noff (cpus (st g) 1) = 0) as (g & Hq & Hh & Hn).
  { eexists. split.
    - eapply rtc_l; [exists 0, (Acquire LkKmem); split_and!; [done|done|reflexivity]|].
      eapply rtc_l; [exists 0, Tick; split_and!; [done|done|reflexivity]|].
      eapply rtc_l; [exists 0, Tick; split_and!; [done|done|reflexivity]|].
      eapply rtc_l; [exists 0, Tick; split_and!; [done|done|reflexivity]|]. apply rtc_refl.
    - split; reflexivity. }
  exists g. split_and!; [done|done|].
  by apply (spin_intr_restored init g 1 reach_init Hq).
Defined.

Lemma acquire_release_steps_witness :
  ∃ g1, acquire 1 0 LkKmem (st init) = Done tt (st g1) [] ∧ held g1 0 = [LkKmem].
Proof.
  destruct (acquire_release_steps init 0 LkKmem 0 init_inv eq_refl eq_refl)
    as (g1 & g2 & Ha & _ & Hh & _). by exists g1.
Defined.
End Spin.

Module Sleeplock.

(** [struct sleeplock]; the spinlock inside is named by [LkSleep id]. *)
Record sleeplock : Type := Sleeplock { locked : Z; pid : Z }.

Section code.
  Variable id : Z.

Definition initsleeplock : M sleeplock unit :=
  initlock (LkSleep id);;
  put (Sleeplock 0 0).

(** [while(lk->locked) sleep(lk, &lk->lk);] and what follows it.  A process
    that sleeps gives the spinlock up; woken, it acquires it again and tests
    the condition again, so it resumes with [acquiresleep]. *)
Definition acquiresleep_loop (mypid : Z) : M sleeplock unit :=
  l ← gets locked;
  if truthy l then blocked (ChSleep id) (LkSleep id)
  else put (Sleeplock 1 mypid);; release (LkSleep id).

Definition acquiresleep (mypid : Z) : M sleeplock unit :=
  acquire (LkSleep id);; acquiresleep_loop mypid.

Definition releasesleep : M sleeplock unit :=
  acquire (LkSleep id);;
  put (Sleeplock 0 0);;
  wakeup (ChSleep id);;
  release (LkSleep id).

Definition holdingsleep (mypid : Z) : M sleeplock bool :=
  acquire (LkSleep id);;
  r ← gets (λ s, truthy (locked s) && (pid s =? mypid));
  release (LkSleep id);;
  mret r.

(** ** Processes that use the lock *)

Inductive pstate : Type :=
  | Out     (** does not want the lock *)
  | Asleep  (** in [sleep] *)
  | Ready   (** woken by [wakeup], not yet run *)
  | In.     (** between [acquiresleep] and [releasesleep] *)

#[global] Instance pstate_eq_dec : EqDecision pstate.
Proof. solve_decision. Defined.

Record world : Type := World { sl : sleeplock; procs : Z → pstate }.

Definition set_proc (p : Z) (x : pstate) (f : Z → pstate) : Z → pstate :=
  λ q, if decide (q = p) then x else f q.

(** [wakeup] makes every sleeper runnable. *)
Definition wake (t : trace) (f : Z → pstate) : Z → pstate :=
  if bool_decide (EvWakeup (ChSleep id) ∈ t)
  then λ q, match f q with Asleep => Ready | x => x end else f.

Inductive step : world → world → Prop :=
  | step_acquire p w s t :
      procs w p = Out ∨ procs w p = Ready →
      acquiresleep p (sl w) = Done tt s t →
      step w (World s (set_proc p In (wake t (procs w))))
  | step_sleep p w c l s t :
      procs w p = Out ∨ procs w p = Ready →
      acquiresleep p (sl w) = Sleeping c l s t →
      step w (World s (set_proc p Asleep (wake t (procs w))))
  | step_release p w s t :
      procs w p = In → releasesleep (sl w) = Done tt s t →
      step w (World s (wake t (set_proc p Out (procs w)))).

Definition init : world := World (Sleeplock 0 0) (λ _, Out).

Record winv (w : world) : Prop := {
  wi_held p : procs w p = In → sl w = Sleeplock 1 p;
  wi_locked : truthy (locked (sl w)) = true → ∃ p, procs w p = In;
  wi_asleep p : procs w p = Asleep → ∃ q, procs w q = In
}.

Lemma acquiresleep_free mypid s :
  truthy (locked s) = false →
  acquiresleep mypid s =
    Done tt (Sleeplock 1 mypid) [EvAcquire (LkSleep id); EvRelease (LkSleep id)].
Proof. intros H. unfold acquiresleep, acquiresleep_loop, mbind, M_bind. simpl. by rewrite H. Qed.

Lemma acquiresleep_held mypid s :
  truthy (locked s) = true →
  acquiresleep mypid s = Sleeping (ChSleep id) (LkSleep id) s
    [EvAcquire (LkSleep id); EvSleep (ChSleep id) (LkSleep id)].
Proof. intros H. unfold acquiresleep, acquiresleep_loop, mbind, M_bind. simpl. by rewrite H. Qed.

Lemma wake_same p q f :
  wake [EvAcquire (LkSleep p); EvRelease (LkSleep q)] f = f.
Proof. unfold wake. rewrite bool_decide_false; [done|]. set_solver. Qed.

Lemma wake_sleep p q c f : wake [EvAcquire (LkSleep p); EvSleep c (LkSleep q)] f = f.
Proof. unfold wake. rewrite bool_decide_false; [done|]. set_solver. Qed.

Lemma step_winv w w' : winv w → step w w' → winv w'.
Proof.
  intros [Hh Hl Ha] Hs. destruct Hs as [p w s t Hp Hr|p w c l s t Hp Hr|p w s t Hp Hr].
  - destruct (truthy (locked (sl w))) eqn:Hk; [by rewrite acquiresleep_held in Hr|].
    rewrite acquiresleep_free in Hr by done. injection Hr as <- <-. rewrite wake_same.
    assert (∀ q, procs w q ≠ In) as Hno by (intros q Hq; by rewrite (Hh q Hq) in Hk).
    split; simpl; unfold set_proc.
    + intros q. case_decide as Hq; [by subst|]. intros H. by apply Hno in H.
    + intros _. exists p. by rewrite decide_True.
    + intros q _. exists p. by rewrite decide_True.
  - destruct (truthy (locked (sl w))) eqn:Hk; [|by rewrite acquiresleep_free in Hr].
    rewrite acquiresleep_held in Hr by done. injection Hr as <- <- <- <-. rewrite wake_sleep.
    destruct (Hl eq_refl) as [h Hin]. assert (h ≠ p) by (intros ->; destruct Hp; congruence).
    split; simpl; unfold set_proc.
    + intros q. case_decide; [done|]. apply Hh.
    + intros _. exists h. by rewrite decide_False.
    + intros q _. exists h. by rewrite decide_False.
  - injection Hr as <- <-. assert (∀ q, procs w q = In → q = p) as Hu.
    { intros q Hq. pose proof (Hh q Hq) as E. rewrite (Hh p Hp) in E. congruence. }
    unfold wake. rewrite bool_decide_true by set_solver. split; simpl; unfold set_proc.
    + intros q. case_decide; [done|]. destruct (procs w q) eqn:E; try done. by apply Hu in E.
    + done.
    + intros q. case_decide; [done|]. by destruct (procs w q).
Qed.

Lemma reach_winv w : rtc step init w → winv w.
Proof.
  intros Hr. assert (winv init) as Hi by (by split; simpl).
  induction Hr as [|w w1 w2 Hs _ IH]; [done|]. by apply IH, (step_winv w).
Qed.

(** C6: Sleep locks exclude and lose no wakeup.  In every state that processes
    can reach by [acquiresleep] and [releasesleep], at most one process is
    inside; [holdingsleep] answers true to the process inside and false to all
    others; and while a process sleeps, some other process is inside and will
    wake it. *)
Theorem sleeplock_mutex w p :
  rtc step init w →
  (∀ q, procs w p = In → procs w q = In → p = q) ∧
  (∃ t, holdingsleep p (sl w) = Done (bool_decide (procs w p = In)) (sl w) t) ∧
  (procs w p = Asleep → ∃ q, q ≠ p ∧ procs w q = In).
Proof.
  intros Hr. pose proof (reach_winv w Hr) as [Hh Hl Ha]. split_and!.
  - intros q Hp Hq. pose proof (Hh q Hq) as E. rewrite (Hh p Hp) in E. congruence.
  - eexists. unfold holdingsleep, mbind, M_bind. simpl. do 2 f_equal.
    case_bool_decide as Hp; [rewrite (Hh p Hp); simpl; lia|].
    destruct (truthy (locked (sl w))) eqn:Hk; [|done]. destruct (Hl eq_refl) as [q Hq].
    rewrite (Hh q Hq). simpl. apply Z.eqb_neq. by intros ->.
  - intros Hp. destruct (Ha p Hp) as [q Hq]. exists q. split; [|done]. intros ->. congruence.
Qed.
End code.

Lemma sleeplock_mutex_witness :
  ∃ w, rtc (step 7) init w ∧ procs w 1 = In ∧ procs w 2 = Asleep ∧
    ∃ q, q ≠ 2 ∧ procs w q = In.
Proof.
  assert (∃ w, rtc (step 7) init w ∧ procs w 1 = In ∧ procs w 2 = Asleep) as (w & Hr & H1 & H2).
  { eexists. split.
    - eapply rtc_l; [eapply (step_acquire 7 1); [by left|reflexivity]|].
      eapply rtc_l; [eapply (step_sleep 7 2); [by left|reflexivity]|]. apply rtc_refl.
    - split; reflexivity. }
  exists w. split_and!; try done. by apply (sleeplock_mutex 7 w 2 Hr).
Defined.
End Sleeplock.

(** ** The lock discipline of a handler

    The locks a process holds after the events of a trace; [None] where the
    kernel would panic or deadlock: acquiring a lock twice, releasing one that
    is not held, sleeping with a lock other than the one given to [sleep] (the
    check in [sched]), or [wakeup] with a process lock held. *)
Definition is_proc_lock (l : lockid) : bool := match l with LkProc _ => true | _ => false end.

Definition lock_event (held : list lockid) (e : event) : option (list lockid) :=
  match e with
  | EvAcquire l => if decide (l ∈ held) then None else Some (l :: held)
  | EvRelease l => if decide (l ∈ held) then Some (filter (λ l', l' ≠ l) held) else None
  | EvSleep _ l => if decide (held = [l]) then Some [] else None
  | EvWakeup _ => if existsb is_proc_lock held then None else Some held
  | _ => Some held
  end.

Definition lock_run (held : list lockid) (t : trace) : option (list lockid) :=
  foldl (λ h e, h ← h; lock_event h e) (Some held) t.

(** Every run of [m] that returns or sleeps keeps the discipline; it starts
    and, when it returns, ends with no lock held. *)
Definition disciplined {S A} (m : M S A) (s : S) : Prop :=
  match m s with
  | Done _ _ t | Sleeping _ _ _ t => lock_run [] t = Some []
  | _ => True
  end.

Lemma lock_run_app held t1 t2 held1 :
  lock_run held t1 = Some held1 → lock_run held (t1 ++ t2) = lock_run held1 t2.
Proof. unfold lock_run. rewrite foldl_app. by intros ->. Qed.
