(* ===== verification/Disk.v ===== *)
(** * Disk blocks and the interface of the buffer cache

    Blocks are lists of [BSIZE] bytes; the C structures inside them are read
    and written at byte offsets.  [Cache] is what the log and the file system
    call, [CacheLaws] what they rely on; Bio implements both. *)

From S2P Require Import Prelude Riscv Memory.

Definition BSIZE : Z := 1024.

Ltac Zify.zify_pre_hook ::= unfold_consts; unfold BSIZE in *.

Abbreviation block := (list Z).

Definition is_block (d : block) : Prop := Z.of_nat (length d) = BSIZE ∧ Forall is_byte d.

Definition zero_block : block := replicate (Z.to_nat BSIZE) 0.
#[global] Arguments zero_block : simpl never.

Lemma zero_block_ok : is_block zero_block.
Proof. split; [by unfold zero_block; rewrite length_replicate|]. by apply Forall_replicate. Qed.

(** ** Fields of a block *)

(** [d] with [bytes] stored at offset [off]. *)
Definition put_at (d : list Z) (off : Z) (bytes : list Z) : list Z :=
  take (Z.to_nat off) d ++ bytes ++ drop (Z.to_nat off + length bytes) d.
Definition get_at (d : list Z) (off : Z) (n : nat) : list Z := take n (drop (Z.to_nat off) d).

Definition get32 (d : list Z) (off : Z) : Z := le_val (get_at d off 4).
Definition put32 (d : list Z) (off v : Z) : list Z := put_at d off (le_bytes 4 v).
Definition get16 (d : list Z) (off : Z) : Z := le_val (get_at d off 2).
Definition put16 (d : list Z) (off v : Z) : list Z := put_at d off (le_bytes 2 v).
Definition get8 (d : list Z) (off : Z) : Z := d !!! Z.to_nat off.
Definition put8 (d : list Z) (off v : Z) : list Z := put_at d off [u8 v].

Section fields.
  Implicit Types (d bytes : list Z) (off : Z).

Lemma put_at_length d off bytes :
  0 ≤ off → off + Z.of_nat (length bytes) ≤ Z.of_nat (length d) →
  length (put_at d off bytes) = length d.
Proof.
  intros. unfold put_at. rewrite !length_app, length_take, length_drop. lia.
Qed.

Lemma put_at_bytes d off bytes :
  Forall is_byte d → Forall is_byte bytes → Forall is_byte (put_at d off bytes).
Proof. intros. unfold put_at. auto using Forall_app_2, Forall_take, Forall_drop. Qed.

Lemma lookup_put_at d off bytes i :
  0 ≤ off → off + Z.of_nat (length bytes) ≤ Z.of_nat (length d) →
  put_at d off bytes !! i =
  if decide (off ≤ Z.of_nat i < off + Z.of_nat (length bytes))
  then bytes !! (i - Z.to_nat off)%nat else d !! i.
Proof.
  intros Ho Hl. unfold put_at.
  assert (length (take (Z.to_nat off) d) = Z.to_nat off) as Ht by (rewrite length_take; lia).
  case_decide as Hi.
  - rewrite lookup_app_r, Ht, lookup_app_l by lia. done.
  - destruct (decide (Z.of_nat i < off)).
    + rewrite lookup_app_l, lookup_take by lia. by case_decide; [|lia].
    + rewrite lookup_app_r, Ht, lookup_app_r, lookup_drop by lia. f_equal. lia.
Qed.

Lemma get_put_at_same d off bytes :
  0 ≤ off → off + Z.of_nat (length bytes) ≤ Z.of_nat (length d) →
  get_at (put_at d off bytes) off (length bytes) = bytes.
Proof.
  intros Ho Hl. apply list_eq. intros i. unfold get_at. rewrite lookup_take. case_decide as Hi.
  - rewrite lookup_drop, lookup_put_at by done. rewrite decide_True by lia. f_equal. lia.
  - symmetry. apply lookup_ge_None_2. lia.
Qed.

Lemma get_put_at_other d off bytes off' n :
  0 ≤ off → off + Z.of_nat (length bytes) ≤ Z.of_nat (length d) → 0 ≤ off' →
  off' + Z.of_nat n ≤ off ∨ off + Z.of_nat (length bytes) ≤ off' →
  get_at (put_at d off bytes) off' n = get_at d off' n.
Proof.
  intros Ho Hl Ho' Hd. apply list_eq. intros i. unfold get_at. rewrite !lookup_take.
  case_decide as Hi; [|done]. rewrite !lookup_drop, lookup_put_at by done.
  by rewrite decide_False by lia.
Qed.

Lemma get32_put32 d off v :
  0 ≤ off → off + 4 ≤ Z.of_nat (length d) → get32 (put32 d off v) off = u32 v.
Proof.
  intros. unfold get32, put32. pose proof (get_put_at_same d off (le_bytes 4 v)) as H1.
  rewrite le_bytes_length in H1. rewrite H1 by lia. by rewrite le_val_le_bytes.
Qed.

Lemma get32_put32_other d off off' v :
  0 ≤ off → off + 4 ≤ Z.of_nat (length d) → 0 ≤ off' → off' + 4 ≤ off ∨ off + 4 ≤ off' →
  get32 (put32 d off v) off' = get32 d off'.
Proof.
  intros. unfold get32, put32. f_equal. apply get_put_at_other; rewrite ?le_bytes_length; lia.
Qed.

Lemma is_block_put32 d off v : is_block d → 0 ≤ off → off + 4 ≤ BSIZE → is_block (put32 d off v).
Proof.
  intros [Hl Hb] ??. split.
  - unfold put32. rewrite put_at_length; rewrite ?le_bytes_length; lia.
  - apply put_at_bytes; [done|apply le_bytes_bytes].
Qed.
End fields.

(** ** The disk

    Only [EvWrite] events change it; a crash keeps some prefix of them. *)
Definition disk : Type := Z → block.

Definition writes (t : trace) : list (Z * block) :=
  omap (λ e, match e with EvWrite b x => Some (b, x) | _ => None end) t.

Definition apply_writes (d : disk) (ws : list (Z * block)) : disk :=
  foldl (λ d w, upd d w.1 w.2) d ws.

Lemma writes_app t1 t2 : writes (t1 ++ t2) = writes t1 ++ writes t2.
Proof. apply omap_app. Qed.

Lemma apply_writes_app d ws1 ws2 :
  apply_writes d (ws1 ++ ws2) = apply_writes (apply_writes d ws1) ws2.
Proof. apply foldl_app. Qed.

(** ** The interface *)

Class Cache (S : Type) : Type := {
  bread : Z → Z → M S Z;
  bwrite : Z → M S unit;
  brelse : Z → M S unit;
  bpin : Z → M S unit;
  bunpin : Z → M S unit;
  rdata : Z → M S block;             (** [b->data] *)
  wdata : Z → block → M S unit;      (** stores to [b->data] *)
  (** the abstract state *)
  on_disk : S → disk;                (** what a crash would keep *)
  content : S → disk;                (** what [bread] would return *)
  refs : S → Z → Z;                  (** references to the buffer of a block *)
  locked_by : S → Z → option Z       (** the block of a handle this process holds *)
}.

(** The reference count does not wrap around, and the blocks that are
    referenced leave a buffer for [b]. *)
Definition room {S : Type} `{Cache S} (s : S) (b : Z) : Prop :=
  refs s b + 1 < 2 ^ 32 ∧
  (0 < refs s b ∨ ∃ L : list Z, (∀ b', 0 < refs s b' → b' ∈ L) ∧ Z.of_nat (length L) < NBUF).

(** What an operation changes of the abstract state. *)
Record changes {S : Type} `{Cache S} (s s' : S) (d c : disk) (r : Z → Z) (l : Z → option Z) : Prop := {
  ch_disk b : on_disk s' b = d b;
  ch_content b : content s' b = c b;
  ch_refs b : refs s' b = r b;
  ch_locked h : locked_by s' h = l h
}.

Class CacheLaws (S : Type) `{Cache S} (dev : Z) (ok : S → Prop) : Prop := {
  cache_blocks s b : ok s → is_block (content s b);
  bread_law s b :
    ok s → 0 ≤ b < 2 ^ 31 → (∀ h, locked_by s h ≠ Some b) → room s b →
    returns (bread dev b) s (λ h s' t, ok s' ∧ locked_by s h = None ∧
      changes s s' (on_disk s) (content s) (upd (refs s) b (refs s b + 1))
        (upd (locked_by s) h (Some b)) ∧
      writes t = []);
  rdata_law s h b :
    ok s → locked_by s h = Some b → rdata h s = Done (content s b) s [];
  wdata_law s h b x :
    ok s → locked_by s h = Some b → is_block x →
    returns (wdata h x) s (λ _ s' t, ok s' ∧
      changes s s' (on_disk s) (upd (content s) b x) (refs s) (locked_by s) ∧ writes t = []);
  bwrite_law s h b :
    ok s → locked_by s h = Some b →
    returns (bwrite h) s (λ _ s' t, ok s' ∧
      changes s s' (upd (on_disk s) b (content s b)) (content s) (refs s) (locked_by s) ∧
      writes t = [(b, content s b)]);
  brelse_law s h b :
    ok s → locked_by s h = Some b → 1 < refs s b ∨ content s b = on_disk s b →
    returns (brelse h) s (λ _ s' t, ok s' ∧
      changes s s' (on_disk s) (content s) (upd (refs s) b (refs s b - 1))
        (upd (locked_by s) h None) ∧
      writes t = []);
  bpin_law s h b :
    ok s → locked_by s h = Some b → refs s b + 1 < 2 ^ 32 →
    returns (bpin h) s (λ _ s' t, ok s' ∧
      changes s s' (on_disk s) (content s) (upd (refs s) b (refs s b + 1)) (locked_by s) ∧
      writes t = []);
  bunpin_law s h b :
    ok s → locked_by s h = Some b → 1 < refs s b →
    returns (bunpin h) s (λ _ s' t, ok s' ∧
      changes s s' (on_disk s) (content s) (upd (refs s) b (refs s b - 1)) (locked_by s) ∧
      writes t = [])
}.
