(* ===== verification/Log.v ===== *)
(** * The write-ahead log, [kernel/log.c]

    The code is written against the [Cache] interface, so its theorems hold of
    every buffer cache that satisfies [CacheLaws].  A crash keeps a prefix of
    the disk writes of a run; [recovered] is what recovery makes of a disk. *)

From S2P Require Import Prelude Riscv Memory Disk.

(** [struct log] with its [struct logheader]; [lh_block] has [LOGSIZE] entries. *)
Record log : Type := MkLog {
  start : Z;
  size : Z;
  outstanding : Z;
  committing : Z;
  ldev : Z;
  lh_n : Z;
  lh_block : list Z
}.

Definition set_lh_n (n : Z) (l : log) : log :=
  MkLog (start l) (size l) (outstanding l) (committing l) (ldev l) n (lh_block l).
Definition set_lh_block (bl : list Z) (l : log) : log :=
  MkLog (start l) (size l) (outstanding l) (committing l) (ldev l) (lh_n l) bl.
Definition set_outstanding (n : Z) (l : log) : log :=
  MkLog (start l) (size l) n (committing l) (ldev l) (lh_n l) (lh_block l).
Definition set_committing (n : Z) (l : log) : log :=
  MkLog (start l) (size l) (outstanding l) n (ldev l) (lh_n l) (lh_block l).

(** ** The header block *)

(** [hb->n = n; for(i = 0; i < n; i++) hb->block[i] = bl[i];] *)
Fixpoint put_blocks (x : block) (i : Z) (bl : list Z) : block :=
  match bl with
  | [] => x
  | b :: bl => put_blocks (put32 x (4 + 4 * i) b) (i + 1) bl
  end.
Definition put_head (x : block) (bl : list Z) : block :=
  put_blocks (put32 x 0 (Z.of_nat (length bl))) 0 bl.

Definition head_n (x : block) : Z := s32 (get32 x 0).
Definition head_block (x : block) (i : Z) : Z := s32 (get32 x (4 + 4 * i)).

Section code.
  Context {S : Type} `{Cache S}.

(** The log with the cache it uses. *)
Record lst : Type := Lst { lg : log; ca : S }.

Definition in_cache {A} (m : M S A) : M lst A :=
  zoom (Lens ca (λ c s, Lst (lg s) c)) m.
Definition with_log (f : log → log) : M lst unit := modify (λ s, Lst (f (lg s)) (ca s)).

(** Reading and writing [log.lh.block]. *)
Definition get_block (i : Z) : M lst Z :=
  l ← gets lg;
  match lh_block l !! Z.to_nat i with
  | Some b => mret b
  | None => undef "log.lh.block out of bounds"
  end.
Definition set_block (i b : Z) : M lst unit :=
  l ← gets lg;
  if (0 <=? i) && (i <? Z.of_nat (length (lh_block l)))
  then with_log (set_lh_block (<[Z.to_nat i := b]> (lh_block l)))
  else undef "log.lh.block out of bounds".

(** [for (tail = 0; tail < log.lh.n; tail++)], [k] rounds from the end. *)
Fixpoint install_loop (k : nat) (tail : Z) (recovering : bool) : M lst unit :=
  match k with
  | O => mret tt
  | Datatypes.S k =>
      l ← gets lg;
      lbuf ← in_cache (bread (ldev l) (u32 (start l + tail + 1)));
      b ← get_block tail;
      dbuf ← in_cache (bread (ldev l) (u32 b));
      x ← in_cache (rdata lbuf);
      in_cache (wdata dbuf x);;
      in_cache (bwrite dbuf);;
      (if negb recovering then in_cache (bunpin dbuf) else mret tt);;
      in_cache (brelse lbuf);;
      in_cache (brelse dbuf);;
      install_loop k (tail + 1) recovering
  end.

Definition install_trans (recovering : bool) : M lst unit :=
  l ← gets lg;
  install_loop (Z.to_nat (lh_n l)) 0 recovering.

(** The loop of [read_head] over the entries from [i] on. *)
Fixpoint read_blocks (k : nat) (i : Z) (x : block) : M lst unit :=
  match k with
  | O => mret tt
  | Datatypes.S k => set_block i (head_block x i);; read_blocks k (i + 1) x
  end.

Definition read_head : M lst unit :=
  l ← gets lg;
  buf ← in_cache (bread (ldev l) (u32 (start l)));
  x ← in_cache (rdata buf);
  with_log (set_lh_n (head_n x));;
  read_blocks (Z.to_nat (head_n x)) 0 x;;
  in_cache (brelse buf).

(** [log.lh.n] is 0 or a count of blocks when this is called ([recover_from_log]
    clears what it read); the source would write a negative number as it is. *)
Definition write_head : M lst unit :=
  l ← gets lg;
  buf ← in_cache (bread (ldev l) (u32 (start l)));
  x ← in_cache (rdata buf);
  (if lh_n l <=? Z.of_nat (length (lh_block l))
   then in_cache (wdata buf (put_head x (take (Z.to_nat (lh_n l)) (lh_block l))))
   else undef "log.lh.block out of bounds");;
  in_cache (bwrite buf);;
  in_cache (brelse buf).

Definition recover_from_log : M lst unit :=
  read_head;;
  install_trans true;;
  with_log (set_lh_n 0);;
  write_head.

(** [sizeof(struct logheader) >= BSIZE] is decided at compile time. *)
Definition initlog (dev logstart nlog : Z) : M lst unit :=
  if 4 + 4 * LOGSIZE >=? BSIZE then panic "initlog: too big logheader"
  else
    initlock LkLog;;
    with_log (λ l, MkLog logstart nlog (outstanding l) (committing l) dev (lh_n l) (lh_block l));;
    recover_from_log.

(** A process that sleeps here tests the conditions again when it wakes, so
    it resumes with [begin_op]. *)
Definition begin_op : M lst unit :=
  acquire LkLog;;
  l ← gets lg;
  if truthy (committing l) then blocked ChLog LkLog
  else if lh_n l + (outstanding l + 1) * MAXOPBLOCKS >? LOGSIZE then blocked ChLog LkLog
  else
    with_log (set_outstanding (outstanding l + 1));;
    release LkLog.

Fixpoint write_log_loop (k : nat) (tail : Z) : M lst unit :=
  match k with
  | O => mret tt
  | Datatypes.S k =>
      l ← gets lg;
      to ← in_cache (bread (ldev l) (u32 (start l + tail + 1)));
      b ← get_block tail;
      from ← in_cache (bread (ldev l) (u32 b));
      x ← in_cache (rdata from);
      in_cache (wdata to x);;
      in_cache (bwrite to);;
      in_cache (brelse from);;
      in_cache (brelse to);;
      write_log_loop k (tail + 1)
  end.

Definition write_log : M lst unit :=
  l ← gets lg;
  write_log_loop (Z.to_nat (lh_n l)) 0.

Definition commit : M lst unit :=
  l ← gets lg;
  if lh_n l >? 0 then
    write_log;;
    write_head;;
    install_trans false;;
    with_log (set_lh_n 0);;
    write_head
  else mret tt.

Definition end_op : M lst unit :=
  acquire LkLog;;
  l ← gets lg;
  with_log (set_outstanding (outstanding l - 1));;
  if truthy (committing l) then panic "log.committing"
  else
    let do_commit := outstanding l - 1 =? 0 in
    (if do_commit then with_log (set_committing 1) else wakeup ChLog);;
    release LkLog;;
    if do_commit then
      commit;;
      acquire LkLog;;
      with_log (set_committing 0);;
      wakeup ChLog;;
      release LkLog
    else mret tt.

(** The index of [b] among the first [n] entries, or [n]. *)
Fixpoint find_block (bl : list Z) (b i : Z) : Z :=
  match bl with
  | [] => i
  | x :: bl => if x =? b then i else find_block bl b (i + 1)
  end.

(** [blockno] is [b->blockno] of the buffer [h]. *)
Definition log_write (h blockno : Z) : M lst unit :=
  acquire LkLog;;
  l ← gets lg;
  if (lh_n l >=? LOGSIZE) || (lh_n l >=? size l - 1) then panic "too big a transaction"
  else if outstanding l <? 1 then panic "log_write outside of trans"
  else
    let i := find_block (take (Z.to_nat (lh_n l)) (lh_block l)) (s32 blockno) 0 in
    set_block i (s32 blockno);;
    (if i =? lh_n l then in_cache (bpin h);; with_log (set_lh_n (lh_n l + 1)) else mret tt);;
    release LkLog.
End code.
