(* ===== verification/LogSpec.v ===== *)
(** * Crash safety of the log

    For every buffer cache that satisfies [CacheLaws]: what [commit] writes to
    disk and in which order, what recovery makes of every disk that a crash can
    leave, and how the operations of concurrent system calls share the log. *)

From S2P Require Import Prelude Riscv Memory Disk Log.

(** ** The header block *)

Section header.
  Implicit Types (x : block) (bl : list Z).

Lemma put_blocks_block x i bl :
  is_block x → 0 ≤ i → 4 + 4 * (i + Z.of_nat (length bl)) ≤ BSIZE → is_block (put_blocks x i bl).
Proof.
  revert x i. induction bl as [|b bl IH]; intros x i Hx Hi Hl; simpl in *; [done|].
  apply IH; [|lia|lia]. apply is_block_put32; [done|lia|lia].
Qed.

Lemma put_blocks_below x i bl off :
  is_block x → 0 ≤ i → 4 + 4 * (i + Z.of_nat (length bl)) ≤ BSIZE → 0 ≤ off → off + 4 ≤ 4 + 4 * i →
  get32 (put_blocks x i bl) off = get32 x off.
Proof.
  revert x i. induction bl as [|b bl IH]; intros x i Hx Hi Hl Ho Ho'; simpl in *; [done|].
  rewrite IH by (try apply is_block_put32; try done; lia).
  destruct Hx as [Hx _]. apply get32_put32_other; lia.
Qed.

Lemma put_blocks_get x i bl j b :
  is_block x → 0 ≤ i → 4 + 4 * (i + Z.of_nat (length bl)) ≤ BSIZE → bl !! j = Some b →
  get32 (put_blocks x i bl) (4 + 4 * (i + Z.of_nat j)) = u32 b.
Proof.
  revert x i j. induction bl as [|b' bl IH]; intros x i j Hx Hi Hl Hj; simpl in *; [done|].
  assert (is_block (put32 x (4 + 4 * i) b')) by (apply is_block_put32; [done|lia|lia]).
  destruct j as [|j]; simpl in Hj.
  - injection Hj as ->. rewrite Z.add_0_r, put_blocks_below by (done || lia).
    destruct Hx as [Hx _]. apply get32_put32; lia.
  - rewrite <-(IH (put32 x (4 + 4 * i) b') (i + 1) j) by (done || lia). do 2 f_equal. lia.
Qed.

(** A header with at most [LOGSIZE] entries fits in its block. *)
Lemma put_head_block x bl :
  is_block x → Z.of_nat (length bl) ≤ LOGSIZE → is_block (put_head x bl).
Proof.
  intros Hx Hl. unfold put_head. apply put_blocks_block; [|lia|lia].
  apply is_block_put32; [done|lia|lia].
Qed.

Lemma s32_u32 v : - 2 ^ 31 ≤ v < 2 ^ 31 → s32 (u32 v) = v.
Proof.
  intros. unfold s32, u32. rewrite Zplus_mod_idemp_l, Z.mod_small; lia.
Qed.

Lemma head_n_put x bl :
  is_block x → Z.of_nat (length bl) ≤ LOGSIZE → head_n (put_head x bl) = Z.of_nat (length bl).
Proof.
  intros Hx Hl. pose proof Hx as [Hlen _]. unfold head_n, put_head.
  rewrite put_blocks_below;
    [|apply is_block_put32; [done|lia|lia]|lia|lia|lia|lia].
  rewrite get32_put32 by lia. apply s32_u32. lia.
Qed.

Lemma head_block_put x bl i b :
  is_block x → Z.of_nat (length bl) ≤ LOGSIZE → bl !! i = Some b → - 2 ^ 31 ≤ b < 2 ^ 31 →
  head_block (put_head x bl) (Z.of_nat i) = b.
Proof.
  intros Hx Hl Hi Hb. unfold head_block, put_head.
  pose proof (put_blocks_get (put32 x 0 (Z.of_nat (length bl))) 0 bl i b) as Hg.
  replace (4 + 4 * Z.of_nat i) with (4 + 4 * (0 + Z.of_nat i)) by lia.
  rewrite Hg; [by apply s32_u32| |lia|lia|done].
  apply is_block_put32; [done|lia|lia].
Qed.
End header.

(** ** Sequences of writes *)

Lemma apply_writes_out d ws b : b ∉ ws.*1 → apply_writes d ws b = d b.
Proof.
  revert d. induction ws as [|[b' x] ws IH]; intros d Hb; simpl; [done|].
  simpl in Hb. apply not_elem_of_cons in Hb as [Hne Hb]. fold (apply_writes (upd d b' x) ws).
  rewrite IH by done. by apply upd_ne.
Qed.

Lemma apply_writes_ext d d' ws b :
  (∀ b, d b = d' b) → apply_writes d ws b = apply_writes d' ws b.
Proof.
  revert d d'. induction ws as [|[b' x] ws IH]; intros d d' Hd; simpl; [done|].
  apply IH. intros b''. unfold upd. by case_decide.
Qed.

Lemma apply_writes_in d ws b x :
  NoDup ws.*1 → (b, x) ∈ ws → apply_writes d ws b = x.
Proof.
  revert d. induction ws as [|[b' x'] ws IH]; intros d Hn Hb; simpl; [by apply not_elem_of_nil in Hb|].
  simpl in Hn. apply NoDup_cons in Hn as [Hb' Hn]. apply elem_of_cons in Hb as [[= -> ->]|Hb].
  - fold (apply_writes (upd d b' x') ws). rewrite apply_writes_out by done. apply upd_eq.
  - by apply IH.
Qed.

(** The writes of [write_log] and of [install_trans] for the blocks [bl] from
    log position [tail] on, where [c] gives the contents. *)
Fixpoint log_writes (st tail : Z) (bl : list Z) (c : disk) : list (Z * block) :=
  match bl with
  | [] => []
  | b :: bl => (st + tail + 1, c b) :: log_writes st (tail + 1) bl c
  end.
Fixpoint install_writes (st tail : Z) (bl : list Z) (c : disk) : list (Z * block) :=
  match bl with
  | [] => []
  | b :: bl => (b, c (st + tail + 1)) :: install_writes st (tail + 1) bl c
  end.

Lemma returns_in_cache {S A : Type} (m : M S A) (s : lst (S := S)) (Q : A → lst → trace → Prop) :
  returns m (ca s) (λ a c t, Q a (Lst (lg s) c) t) → returns (in_cache m) s Q.
Proof. unfold returns, in_cache, zoom. simpl. by destruct (m (ca s)). Qed.

(** Step over a call of the cache with its law. *)
Tactic Notation "cop" uconstr(L) :=
  apply returns_bind, returns_in_cache; eapply returns_mono; [eapply L|].

Section spec.
  Context {S : Type} `{Cache S} (dev : Z) (ok : S → Prop) `{!CacheLaws S dev ok}.
  Implicit Types (c : S) (d co : disk) (r : Z → Z) (l : Z → option Z) (s : lst (S := S)).

(** ** The laws on an explicit abstract state *)

Record abs c d co r l : Prop := {
  ab_ok : ok c;
  ab_ch : changes c c d co r l
}.

Definition no_locks : Z → option Z := λ _, None.

Definition roomy r (b : Z) : Prop :=
  r b + 1 < 2 ^ 32 ∧
  (0 < r b ∨ ∃ L : list Z, (∀ b', 0 < r b' → b' ∈ L) ∧ Z.of_nat (length L) < NBUF).

Lemma abs_ext c d co r l d' co' r' l' :
  abs c d co r l → (∀ b, d' b = d b) → (∀ b, co' b = co b) → (∀ b, r' b = r b) →
  (∀ h, l' h = l h) → abs c d' co' r' l'.
Proof.
  intros [Hok [H1 H2 H3 H4]] E1 E2 E3 E4. split; [done|]. split; intros x.
  - by rewrite E1. - by rewrite E2. - by rewrite E3. - by rewrite E4.
Qed.

Lemma abs_changes c c' d co r l d' co' r' l' (fd fco : disk) (fr : Z → Z) (fl : Z → option Z) :
  ok c' → changes c c' fd fco fr fl → (∀ b, fd b = d' b) → (∀ b, fco b = co' b) →
  (∀ b, fr b = r' b) → (∀ h, fl h = l' h) → abs c d co r l → abs c' d' co' r' l'.
Proof.
  intros Hok [H1 H2 H3 H4] E1 E2 E3 E4 _. split; [done|]. split; intros x.
  - by rewrite H1. - by rewrite H2. - by rewrite H3. - by rewrite H4.
Qed.

Lemma abs_block c d co r l b : abs c d co r l → is_block (co b).
Proof. intros [Hok [_ H2 _ _]]. rewrite <-H2. by apply (cache_blocks (dev := dev) (ok := ok)). Qed.

Lemma bread_abs c d co r l b :
  abs c d co r l → 0 ≤ b < 2 ^ 31 → (∀ h, l h ≠ Some b) → roomy r b →
  returns (bread dev b) c (λ h c' t, l h = None ∧
    abs c' d co (upd r b (r b + 1)) (upd l h (Some b)) ∧ writes t = []).
Proof.
  intros Ha Hb Hl Hr. pose proof Ha as [Hok [H1 H2 H3 H4]].
  eapply returns_mono; [apply (bread_law (ok := ok)); try done|].
  - intros h. by rewrite H4.
  - destruct Hr as [Hlt Hr]. split; [by rewrite H3|].
    destruct Hr as [Hr|(L & HL & Hlen)]; [left; by rewrite H3|right].
    exists L. split; [|done]. intros b'. rewrite H3. apply HL.
  - intros h c' t (Hok' & Hh & Hch & Hw). rewrite H4 in Hh. split_and!; [done| |done].
    eapply abs_changes; [done|exact Hch|done|done| | |done];
      intros x; apply upd_ext; rewrite ?H3; done.
Qed.

Lemma rdata_abs c d co r l h b :
  abs c d co r l → l h = Some b → rdata h c = Done (co b) c [].
Proof.
  intros [Hok [_ H2 _ H4]] Hh. rewrite <-H2. apply (rdata_law (dev := dev) (ok := ok)); [done|].
  by rewrite H4.
Qed.

Lemma wdata_abs c d co r l h b x :
  abs c d co r l → l h = Some b → is_block x →
  returns (wdata h x) c (λ _ c' t, abs c' d (upd co b x) r l ∧ writes t = []).
Proof.
  intros Ha Hh Hx. pose proof Ha as [Hok [H1 H2 H3 H4]].
  eapply returns_mono; [apply (wdata_law (dev := dev) (ok := ok) c h b x); try done; by rewrite H4|].
  intros _ c' t (Hok' & Hch & Hw). split; [|done].
  eapply abs_changes; [done|exact Hch|done| |done|done|done]. intros y. by apply upd_ext.
Qed.

Lemma bwrite_abs c d co r l h b :
  abs c d co r l → l h = Some b →
  returns (bwrite h) c (λ _ c' t, abs c' (upd d b (co b)) co r l ∧ writes t = [(b, co b)]).
Proof.
  intros Ha Hh. pose proof Ha as [Hok [H1 H2 H3 H4]].
  eapply returns_mono; [apply (bwrite_law (dev := dev) (ok := ok) c h b); try done; by rewrite H4|].
  intros _ c' t (Hok' & Hch & Hw). split; [|by rewrite Hw, H2].
  eapply abs_changes; [done|exact Hch| |done|done|done|done]. intros y. by apply upd_ext.
Qed.

Lemma brelse_abs c d co r l h b :
  abs c d co r l → l h = Some b → 1 < r b ∨ co b = d b →
  returns (brelse h) c (λ _ c' t,
    abs c' d co (upd r b (r b - 1)) (upd l h None) ∧ writes t = []).
Proof.
  intros Ha Hh Hr. pose proof Ha as [Hok [H1 H2 H3 H4]].
  eapply returns_mono; [apply (brelse_law (dev := dev) (ok := ok) c h b); try done|].
  - by rewrite H4.
  - by rewrite H1, H2, H3.
  - intros _ c' t (Hok' & Hch & Hw). split; [|done].
    eapply abs_changes; [done|exact Hch|done|done| | |done];
      intros x; apply upd_ext; rewrite ?H3; done.
Qed.

Lemma bunpin_abs c d co r l h b :
  abs c d co r l → l h = Some b → 1 < r b →
  returns (bunpin h) c (λ _ c' t, abs c' d co (upd r b (r b - 1)) l ∧ writes t = []).
Proof.
  intros Ha Hh Hr. pose proof Ha as [Hok [H1 H2 H3 H4]].
  eapply returns_mono; [apply (bunpin_law (dev := dev) (ok := ok) c h b); try done|].
  - by rewrite H4.
  - by rewrite H3.
  - intros _ c' t (Hok' & Hch & Hw). split; [|done].
    eapply abs_changes; [done|exact Hch|done|done| |done|done].
    intros x. apply upd_ext; rewrite ?H3; done.
Qed.

Lemma bpin_abs c d co r l h b :
  abs c d co r l → l h = Some b → r b + 1 < 2 ^ 32 →
  returns (bpin h) c (λ _ c' t, abs c' d co (upd r b (r b + 1)) l ∧ writes t = []).
Proof.
  intros Ha Hh Hr. pose proof Ha as [Hok [H1 H2 H3 H4]].
  eapply returns_mono; [apply (bpin_law (dev := dev) (ok := ok) c h b); try done|].
  - by rewrite H4.
  - by rewrite H3.
  - intros _ c' t (Hok' & Hch & Hw). split; [|done].
    eapply abs_changes; [done|exact Hch|done|done| |done|done].
    intros x. apply upd_ext; rewrite ?H3; done.
Qed.


(** ** One round of each loop *)

Lemma get_block_run s i b :
  0 ≤ i → lh_block (lg s) !! Z.to_nat i = Some b → get_block i s = Done b s [].
Proof. intros _ Hb. unfold get_block, mbind, M_bind. simpl. by rewrite Hb. Qed.

(** The locks and references after two buffers were taken and given back. *)
Lemma upd2_none h1 h2 (b1 b2 : Z) x :
  upd (upd (upd (upd no_locks h1 (Some b1)) h2 (Some b2)) h2 None) h1 None x = no_locks x.
Proof. unfold upd, no_locks. by repeat case_decide. Qed.

Lemma write_log_round s tail b d co r (k : M (lst (S := S)) unit) (Q : lst → list (Z * block) → Prop) :
  let to := start (lg s) + tail + 1 in
  ldev (lg s) = dev → abs (ca s) d co r no_locks → 0 ≤ tail →
  lh_block (lg s) !! Z.to_nat tail = Some b → 0 ≤ to < 2 ^ 31 → 0 ≤ b < 2 ^ 31 → b ≠ to →
  roomy r to → 1 ≤ r b < 2 ^ 31 →
  (∀ c', abs c' (upd d to (co b)) (upd co to (co b)) r no_locks →
     returns k (Lst (lg s) c') (λ _ s' t, Q s' ((to, co b) :: writes t))) →
  returns (l ← gets lg;
           to ← in_cache (bread (ldev l) (u32 (start l + tail + 1)));
           b ← get_block tail;
           from ← in_cache (bread (ldev l) (u32 b));
           x ← in_cache (rdata from);
           in_cache (wdata to x);;
           in_cache (bwrite to);;
           in_cache (brelse from);;
           in_cache (brelse to);;
           k) s (λ _ s' t, Q s' (writes t)).
Proof.
  intros to Hdev Ha Htail Hb Hto Hbr Hne Hroom Hpin Hk. call reflexivity. rewrite Hdev.
  fold to. rewrite (u32_small to) by lia.
  cop bread_abs; [done|done|done|done|]. intros h1 c1 t1 (_ & Ha1 & Hw1). 
  call (by apply get_block_run). rewrite (u32_small b) by lia.
  cop bread_abs; [done|done| |split; [|left]; rewrite upd_ne by done; lia|].
  { intros h. unfold upd, no_locks. case_decide; congruence. }
  intros h2 c2 t2 (Hh2 & Ha2 & Hw2).
  assert (h1 ≠ h2) as Hh by (intros <-; by rewrite upd_eq in Hh2).
  apply returns_bind, returns_in_cache. eapply returns_done; [apply (rdata_abs _ _ _ _ _ h2 b Ha2), upd_eq|].
  cop wdata_abs; [exact Ha2|rewrite upd_ne by done; apply upd_eq|by eapply abs_block|].
  intros _ c3 t3 (Ha3 & Hw3).
  cop bwrite_abs; [exact Ha3|rewrite upd_ne by done; apply upd_eq|]. intros _ c4 t4 (Ha4 & Hw4).
  cop brelse_abs; [exact Ha4|apply upd_eq|left; rewrite upd_eq, upd_ne by done; lia|].
  intros _ c5 t5 (Ha5 & Hw5).
  cop brelse_abs; [exact Ha5|rewrite !upd_ne by done; apply upd_eq|right; by rewrite !upd_eq|].
  intros _ c6 t6 (Ha6 & Hw6).
  eapply returns_mono; [apply Hk|].
  - eapply abs_ext; [exact Ha6| | | |]; intros x; [by rewrite upd_eq|done| |by rewrite upd2_none].
    unfold upd. repeat case_decide; subst; try done; lia.
  - intros [] s' t HQ. rewrite !writes_app, Hw1, Hw2, Hw3, Hw4, Hw5, Hw6, upd_eq. exact HQ.
Qed.

Definition few r : Prop :=
  ∃ L : list Z, (∀ b', 0 < r b' → b' ∈ L) ∧ Z.of_nat (length L) < NBUF.

(** The blocks [bl] are entries [tail, ...] of the header, lie outside the log
    and are valid block numbers. *)
Record entries (l : log) (tail : Z) (bl : list Z) : Prop := {
  en_lookup i b : bl !! i = Some b → lh_block l !! (Z.to_nat tail + i)%nat = Some b;
  en_tail : 0 ≤ tail;
  en_start : 0 ≤ start l;
  en_fits : tail + Z.of_nat (length bl) < size l;
  en_range : start l + size l ≤ 2 ^ 31;
  en_home b : b ∈ bl → 0 ≤ b < 2 ^ 31 ∧ (b < start l ∨ start l + size l ≤ b)
}.

Lemma entries_cons (g : log) tail b bl :
  entries g tail (b :: bl) →
  lh_block g !! Z.to_nat tail = Some b ∧ 0 ≤ b < 2 ^ 31 ∧ (b < start g ∨ start g + size g ≤ b) ∧
  0 ≤ start g + tail + 1 < start g + size g ∧ entries g (tail + 1) bl.
Proof.
  intros [Hl Ht Hs Hf Hr Hh]. destruct (Hh b) as [Hb Hout]; [by left|]. simpl in Hf. split_and!; try lia.
  - rewrite <-(Hl 0%nat b) by done. f_equal. lia.
  - split; try lia.
    + intros i b' Hi. rewrite <-(Hl (Datatypes.S i) b') by done. f_equal. lia.
    + intros b' Hb'. apply Hh. by right.
Qed.

Lemma log_writes_ext st tail bl (c c' : disk) :
  (∀ b, b ∈ bl → c b = c' b) → log_writes st tail bl c = log_writes st tail bl c'.
Proof.
  revert tail. induction bl as [|b bl IH]; intros tail Hc; simpl; [done|].
  rewrite Hc by (by left). f_equal. apply IH. intros b' Hb'. apply Hc. by right.
Qed.

Lemma write_log_loop_spec bl tail s d co r :
  ldev (lg s) = dev → abs (ca s) d co r no_locks → entries (lg s) tail bl → few r →
  (∀ b, 0 ≤ r b < 2 ^ 31) → (∀ b, b ∈ bl → 1 ≤ r b) →
  returns (write_log_loop (length bl) tail) s (λ _ s' t, ∃ c',
    let ws := log_writes (start (lg s)) tail bl co in
    s' = Lst (lg s) c' ∧ writes t = ws ∧
    abs c' (apply_writes d ws) (apply_writes co ws) r no_locks).
Proof.
  revert tail s d co. induction bl as [|b bl IH]; intros tail s d co Hdev Ha He Hfew Hr0 Hpin.
  { apply returns_ret. exists (ca s). by destruct s. }
  destruct (entries_cons _ _ _ _ He) as (Hb & Hbr & Hbh & Hto & He'). cbn [length write_log_loop].
  pose proof (en_range _ _ _ He). pose proof (en_tail _ _ _ He).
  apply (write_log_round s tail b d co r _ (λ s' ws', ∃ c',
    let ws := log_writes (start (lg s)) tail (b :: bl) co in
    s' = Lst (lg s) c' ∧ ws' = ws ∧
    abs c' (apply_writes d ws) (apply_writes co ws) r no_locks)); try done; try lia.
  - split; [specialize (Hr0 (start (lg s) + tail + 1)); lia|by right].
  - specialize (Hpin b ltac:(by left)). specialize (Hr0 b). lia.
  - intros c' Ha'. eapply returns_mono; [apply (IH (tail + 1)); try done; intros; apply Hpin; by right|].
    simpl. intros _ s' t (c2 & -> & Hw & Ha2). exists c2.
    rewrite Hw. rewrite (log_writes_ext _ _ _ (upd co _ _) co) in * by
      (intros b' Hb'; apply upd_ne; destruct (en_home _ _ _ He' b' Hb'); lia).
    split_and!; done.
Qed.

Lemma install_writes_ext st tail bl (c c' : disk) :
  (∀ i, tail ≤ i < tail + Z.of_nat (length bl) → c (st + i + 1) = c' (st + i + 1)) →
  install_writes st tail bl c = install_writes st tail bl c'.
Proof.
  revert tail. induction bl as [|b bl IH]; intros tail Hc; simpl; [done|]. simpl in Hc.
  rewrite Hc by lia. f_equal. apply IH. intros i Hi. apply Hc. lia.
Qed.

(** References after [install_trans]. *)
Definition unpin (recovering : bool) r (bl : list Z) : Z → Z :=
  λ b, if recovering then r b else if decide (b ∈ bl) then r b - 1 else r b.

Lemma install_round s tail b d co r rec (k : M (lst (S := S)) unit) (Q : lst → list (Z * block) → Prop) :
  let from := start (lg s) + tail + 1 in
  ldev (lg s) = dev → abs (ca s) d co r no_locks → 0 ≤ tail →
  lh_block (lg s) !! Z.to_nat tail = Some b → 0 ≤ from < 2 ^ 31 → 0 ≤ b < 2 ^ 31 → b ≠ from →
  roomy r from → roomy (upd r from (r from + 1)) b → co from = d from → 0 ≤ r from → 0 ≤ r b →
  (rec = false → 1 ≤ r b) →
  (∀ c', abs c' (upd d b (co from)) (upd co b (co from)) (unpin rec r [b]) no_locks →
     returns k (Lst (lg s) c') (λ _ s' t, Q s' ((b, co from) :: writes t))) →
  returns (l ← gets lg;
           lbuf ← in_cache (bread (ldev l) (u32 (start l + tail + 1)));
           b ← get_block tail;
           dbuf ← in_cache (bread (ldev l) (u32 b));
           x ← in_cache (rdata lbuf);
           in_cache (wdata dbuf x);;
           in_cache (bwrite dbuf);;
           (if negb rec then in_cache (bunpin dbuf) else mret tt);;
           in_cache (brelse lbuf);;
           in_cache (brelse dbuf);;
           k) s (λ _ s' t, Q s' (writes t)).
Proof.
  intros from Hdev Ha Htail Hb Hfr Hbr Hne Hroom Hroom2 Hclean Hrf Hrb Hpin Hk.
  assert (from ≠ b) as Hne' by done.
  call reflexivity. rewrite Hdev. fold from. rewrite (u32_small from) by lia.
  cop bread_abs; [done|done|done|done|]. intros h1 c1 t1 (_ & Ha1 & Hw1).
  call (by apply get_block_run). rewrite (u32_small b) by lia.
  cop bread_abs; [done|done| |done|].
  { intros h. unfold upd, no_locks. case_decide; congruence. }
  intros h2 c2 t2 (Hh2 & Ha2 & Hw2).
  assert (h1 ≠ h2) as Hh by (intros <-; by rewrite upd_eq in Hh2).
  apply returns_bind, returns_in_cache.
  eapply returns_done; [apply (rdata_abs _ _ _ _ _ h1 from Ha2); rewrite upd_ne by done; apply upd_eq|].
  cop wdata_abs; [exact Ha2|apply upd_eq|by eapply abs_block|]. intros _ c3 t3 (Ha3 & Hw3).
  cop bwrite_abs; [exact Ha3|apply upd_eq|]. intros _ c4 t4 (Ha4 & Hw4). rewrite upd_eq in Hw4, Ha4.
  set (r2 := upd (upd r from (r from + 1)) b (upd r from (r from + 1) b + 1)) in *.
  assert (r2 from = r from + 1 ∧ r2 b = r b + 1) as [Hr2f Hr2b].
  { unfold r2. split; [rewrite upd_ne by done; apply upd_eq|by rewrite upd_eq, upd_ne by done]. }
  set (r3 := if rec then r2 else upd r2 b (r2 b - 1)).
  assert (r3 from = r from + 1 ∧ 1 ≤ r3 b ∧ r3 b = unpin rec r [b] b + 1) as (Hr3f & Hr3b & Hr3u).
  { unfold r3, unpin. destruct rec.
    - lia.
    - specialize (Hpin eq_refl). rewrite upd_eq, upd_ne by done. case_decide; [|set_solver]. lia. }
  assert (returns (if negb rec then in_cache (bunpin h2) else mret tt) (Lst (lg s) c4)
    (λ _ s' t, ∃ c5, s' = Lst (lg s) c5 ∧ writes t = [] ∧
      abs c5 (upd d b (co from)) (upd co b (co from)) r3
        (upd (upd no_locks h1 (Some from)) h2 (Some b)))) as Hunpin.
  { unfold r3. destruct rec; simpl.
    - apply returns_ret. by exists c4.
    - apply returns_in_cache. eapply returns_mono; [eapply bunpin_abs; [exact Ha4|apply upd_eq|]|].
      + specialize (Hpin eq_refl). lia.
      + intros _ c5 t5 [Ha5 Hw5]. by exists c5. }
  call_spec Hunpin. intros _ s5 t5 (c5 & -> & Hw5 & Ha5).
  cop brelse_abs; [exact Ha5|rewrite upd_ne by done; apply upd_eq|right; by rewrite !upd_ne by done|].
  intros _ c6 t6 (Ha6 & Hw6).
  cop brelse_abs; [exact Ha6|rewrite upd_ne by done; apply upd_eq|right; by rewrite !upd_eq|].
  intros _ c7 t7 (Ha7 & Hw7).
  eapply returns_mono; [apply Hk|].
  - eapply abs_ext; [exact Ha7|done|done| |].
    + intros x. destruct (decide (x = b)) as [->|Hxb]; [rewrite upd_eq, upd_ne by done; lia|].
      rewrite upd_ne by done. destruct (decide (x = from)) as [->|Hxf].
      * rewrite upd_eq. unfold unpin. destruct rec; [lia|]. case_decide; [set_solver|lia].
      * rewrite upd_ne by done. unfold unpin, r3, r2. destruct rec; rewrite !upd_ne by done; [done|].
        case_decide; [set_solver|done].
    + intros x. unfold upd, no_locks. by repeat case_decide.
  - intros [] s' t HQ. rewrite !writes_app, Hw1, Hw2, Hw3, Hw4, Hw5, Hw6, Hw7. exact HQ.
Qed.

Lemma unpin_cons rec r b bl x :
  b ∉ bl → unpin rec r (b :: bl) x = unpin rec (unpin rec r [b]) bl x.
Proof.
  intros Hb. unfold unpin. destruct rec; [done|].
  destruct (decide (x ∈ b :: bl)) as [H1|H1], (decide (x ∈ bl)) as [H2|H2],
    (decide (x ∈ [b])) as [H3|H3]; rewrite ?list_elem_of_singleton, ?elem_of_cons in *;
    subst; try tauto; naive_solver.
Qed.

Lemma unpin_le rec r bl x : unpin rec r bl x ≤ r x.
Proof. unfold unpin. destruct rec; [done|]. case_decide; lia. Qed.

Lemma few_le r r' : (∀ b, r' b ≤ r b) → few r → few r'.
Proof. intros Hr (L & HL & Hlen). exists L. split; [|done]. intros b Hb. apply HL. specialize (Hr b). lia. Qed.

(** The references of the blocks that [install_trans] handles. *)
Definition pins (rec : bool) r (bl : list Z) : Prop :=
  (∀ b, 0 ≤ r b < 2 ^ 31) ∧ if rec then ∀ b, r b = 0 else few r ∧ ∀ b, b ∈ bl → 1 ≤ r b.

Lemma pins_room rec r bl b : pins rec r bl → roomy r b.
Proof.
  intros [Hb Hp]. specialize (Hb b). split; [lia|]. right. destruct rec; [|apply Hp]. exists []. split; [|done].
  intros b' Hb'. rewrite Hp in Hb'. done.
Qed.

Lemma pins_room2 rec r bl b from :
  pins rec r bl → b ∈ bl → b ≠ from → roomy (upd r from (r from + 1)) b.
Proof.
  intros [H0 Hp] Hb Hne. specialize (H0 b). split; [rewrite upd_ne by done; lia|]. destruct rec.
  - right. exists [from]. split; [|simpl; lia]. intros b' Hb'.
    destruct (decide (b' = from)) as [->|]; [by left|]. rewrite upd_ne, Hp in Hb' by done. done.
  - left. rewrite upd_ne by done. destruct Hp as [_ Hp]. specialize (Hp b Hb). lia.
Qed.

Lemma pins_cons rec r b bl : b ∉ bl → pins rec r (b :: bl) → pins rec (unpin rec r [b]) bl.
Proof.
  intros Hb [H0 Hp]. split.
  - intros x. unfold unpin. destruct rec; [done|]. case_decide as Hx; [|done].
    apply list_elem_of_singleton in Hx as ->. destruct Hp as [_ Hp]. specialize (Hp b ltac:(by left)). specialize (H0 b). lia.
  - destruct rec; [done|]. destruct Hp as [Hf Hp]. split.
    + eapply few_le; [|done]. intros. apply unpin_le.
    + intros x Hx. unfold unpin. case_decide as Hxb; [|apply Hp; by right].
      apply list_elem_of_singleton in Hxb as ->. done.
Qed.

Lemma install_loop_spec bl tail s d co r rec :
  ldev (lg s) = dev → abs (ca s) d co r no_locks → entries (lg s) tail bl → NoDup bl →
  pins rec r bl →
  (∀ i, tail ≤ i < tail + Z.of_nat (length bl) →
     co (start (lg s) + i + 1) = d (start (lg s) + i + 1)) →
  returns (install_loop (length bl) tail rec) s (λ _ s' t, ∃ c',
    let ws := install_writes (start (lg s)) tail bl co in
    s' = Lst (lg s) c' ∧ writes t = ws ∧
    abs c' (apply_writes d ws) (apply_writes co ws) (unpin rec r bl) no_locks).
Proof.
  revert tail s d co r. induction bl as [|b bl IH]; intros tail s d co r Hdev Ha He Hnd Hpin Hclean.
  { apply returns_ret. exists (ca s). destruct s. split_and!; try done.
    eapply abs_ext; try done. intros b. unfold unpin. destruct rec; [done|].
    case_decide as Hb; [by apply not_elem_of_nil in Hb|done]. }
  destruct (entries_cons _ _ _ _ He) as (Hb & Hbr & Hbh & Hto & He'). cbn [length install_loop].
  pose proof (en_range _ _ _ He). pose proof (en_tail _ _ _ He). simpl in Hclean.
  apply NoDup_cons in Hnd as [Hbl Hnd]. assert (b ≠ start (lg s) + tail + 1) as Hne by lia.
  apply (install_round s tail b d co r rec _ (λ s' ws', ∃ c',
    let ws := install_writes (start (lg s)) tail (b :: bl) co in
    s' = Lst (lg s) c' ∧ ws' = ws ∧
    abs c' (apply_writes d ws) (apply_writes co ws) (unpin rec r (b :: bl)) no_locks));
    try done; try lia.
  - by eapply pins_room.
  - eapply pins_room2; [done|by left|done].
  - apply Hclean. lia.
  - apply Hpin.
  - apply Hpin.
  - intros ->. destruct Hpin as (_ & _ & Hp). apply Hp. by left.
  - intros c' Ha'.
    assert (∀ i, tail + 1 ≤ i < tail + 1 + Z.of_nat (length bl) → start (lg s) + i + 1 ≠ b) as Hnb.
    { intros i Hi. pose proof (en_fits _ _ _ He'). lia. }
    eapply returns_mono; [apply (IH (tail + 1)); try done|].
    + by apply pins_cons.
    + intros i Hi. simpl. rewrite !upd_ne by (apply Hnb; lia). apply Hclean. lia.
    + simpl. intros _ s' t (c2 & -> & Hw & Ha2). exists c2.
      rewrite Hw. rewrite (install_writes_ext _ _ _ (upd co _ _) co) in * by
        (intros i Hi; apply upd_ne, Hnb; lia).
      split_and!; try done. eapply abs_ext; try done. intros x. by apply unpin_cons.
Qed.

Lemma write_head_spec s d co r bl :
  ldev (lg s) = dev → abs (ca s) d co r no_locks → 0 ≤ start (lg s) < 2 ^ 31 →
  roomy r (start (lg s)) → lh_n (lg s) = Z.of_nat (length bl) →
  take (length bl) (lh_block (lg s)) = bl → Z.of_nat (length bl) ≤ LOGSIZE →
  returns write_head s (λ _ s' t, ∃ c',
    let h := put_head (co (start (lg s))) bl in
    s' = Lst (lg s) c' ∧ writes t = [(start (lg s), h)] ∧
    abs c' (upd d (start (lg s)) h) (upd co (start (lg s)) h) r no_locks).
Proof.
  intros Hdev Ha Hst Hroom Hn Hbl Hlen. unfold write_head. call reflexivity. rewrite Hdev.
  rewrite u32_small by lia. cop bread_abs; [done|lia|done|done|]. intros h c1 t1 (_ & Ha1 & Hw1).
  apply returns_bind, returns_in_cache. eapply returns_done; [apply (rdata_abs _ _ _ _ _ h (start (lg s)) Ha1), upd_eq|].
  pose proof (f_equal length Hbl) as Hl. rewrite length_take in Hl.
  rewrite Hn, Nat2Z.id, Hbl. if_true.
  cop wdata_abs; [exact Ha1|apply upd_eq|apply put_head_block; [by eapply abs_block|done]|].
  intros _ c2 t2 (Ha2 & Hw2).
  cop bwrite_abs; [exact Ha2|apply upd_eq|]. intros _ c3 t3 (Ha3 & Hw3). rewrite upd_eq in Ha3, Hw3.
  apply returns_in_cache. eapply returns_mono;
    [eapply brelse_abs; [exact Ha3|apply upd_eq|right; by rewrite !upd_eq]|].
  intros _ c4 t4 (Ha4 & Hw4). exists c4. split_and!; [done| |].
  - by rewrite !writes_app, Hw1, Hw2, Hw3, Hw4.
  - eapply abs_ext; [exact Ha4|done|done| |]; intros x; unfold upd, no_locks;
      repeat case_decide; subst; try done; lia.
Qed.

(** ** What [commit] writes *)

Definition home_writes (bl : list Z) (co : disk) : list (Z * block) := (λ b, (b, co b)) <$> bl.

Definition commit_writes (st : Z) (bl : list Z) (co : disk) : list (Z * block) :=
  log_writes st 0 bl co ++ [(st, put_head (co st) bl)] ++
  home_writes bl co ++ [(st, put_head (put_head (co st) bl) [])].

Lemma log_writes_fst st tail bl (c : disk) b :
  b ∈ (log_writes st tail bl c).*1 → st + tail + 1 ≤ b < st + tail + 1 + Z.of_nat (length bl).
Proof.
  revert tail. induction bl as [|b' bl IH]; intros tail; simpl; [by intros ?%not_elem_of_nil|].
  intros [->|Hb]%elem_of_cons; [lia|]. apply IH in Hb. lia.
Qed.

Lemma log_writes_nodup st tail bl (c : disk) : NoDup (log_writes st tail bl c).*1.
Proof.
  revert tail. induction bl as [|b' bl IH]; intros tail; simpl; constructor; [|apply IH].
  intros Hb%log_writes_fst. lia.
Qed.

Lemma log_writes_lookup st tail bl (c : disk) i b :
  bl !! i = Some b → (st + tail + Z.of_nat i + 1, c b) ∈ log_writes st tail bl c.
Proof.
  revert tail i. induction bl as [|b' bl IH]; intros tail i Hi; [done|].
  destruct i as [|i]; simpl in *.
  - injection Hi as ->. replace (st + tail + Z.of_nat 0 + 1) with (st + tail + 1) by lia. by left.
  - right. replace (st + tail + Z.of_nat (Datatypes.S i) + 1) with (st + (tail + 1) + Z.of_nat i + 1) by lia.
    by apply IH.
Qed.

(** The log holds the contents, so installing writes them home. *)
Lemma install_writes_home st tail bl (c co : disk) :
  (∀ i b, bl !! i = Some b → c (st + tail + Z.of_nat i + 1) = co b) →
  install_writes st tail bl c = home_writes bl co.
Proof.
  revert tail. induction bl as [|b bl IH]; intros tail Hc; simpl; [done|].
  f_equal.
  - f_equal. rewrite <-(Hc 0%nat b) by done. f_equal. lia.
  - apply IH. intros i b' Hi. rewrite <-(Hc (Datatypes.S i) b') by done. f_equal. lia.
Qed.

Lemma home_writes_fst bl (co : disk) : (home_writes bl co).*1 = bl.
Proof. unfold home_writes. rewrite <-list_fmap_compose. apply list_fmap_id. Qed.

Lemma apply_home d bl co b :
  NoDup bl → apply_writes d (home_writes bl co) b = if decide (b ∈ bl) then co b else d b.
Proof.
  intros Hnd. case_decide as Hb.
  - apply apply_writes_in; [by rewrite home_writes_fst|]. apply list_elem_of_fmap. eauto.
  - apply apply_writes_out. by rewrite home_writes_fst.
Qed.

(** The state before a commit: [bl] are the blocks of the transaction. *)
Record ready (g : log) (c : S) (bl : list Z) d co r : Prop := {
  rd_dev : ldev g = dev;
  rd_n : lh_n g = Z.of_nat (length bl);
  rd_bl : take (length bl) (lh_block g) = bl;
  rd_len : Z.of_nat (length bl) ≤ LOGSIZE;
  rd_entries : entries g 0 bl;
  rd_nodup : NoDup bl;
  rd_abs : abs c d co r no_locks;
  rd_pins : pins false r bl
}.

Lemma commit_run g c bl d co r :
  ready g c bl d co r → bl ≠ [] →
  returns commit (Lst g c) (λ _ s' t, ∃ c',
    let ws := commit_writes (start g) bl co in
    s' = Lst (set_lh_n 0 g) c' ∧ writes t = ws ∧
    abs c' (apply_writes d ws) (apply_writes co ws) (unpin false r bl) no_locks).
Proof.
  intros [Hdev Hn Hbl Hlen He Hnd Ha Hp] Hne. unfold commit.
  pose proof (en_start _ _ _ He). pose proof (en_range _ _ _ He). pose proof (en_fits _ _ _ He).
  assert (0 < Z.of_nat (length bl)) as Hpos by (destruct bl; [done|simpl; lia]).
  call reflexivity. simpl lg. rewrite Hn. if_true.
  (* write_log *)
  apply returns_bind. unfold write_log. call reflexivity. simpl lg. rewrite Hn, Nat2Z.id.
  eapply returns_mono; [apply (write_log_loop_spec bl 0 (Lst g c)); try done; apply Hp|].
  simpl. intros _ s1 t1 (c1 & -> & Hw1 & Ha1). set (W1 := log_writes (start g) 0 bl co) in *.
  assert (apply_writes co W1 (start g) = co (start g)) as Hst1.
  { apply apply_writes_out. intros Hx%log_writes_fst. lia. }
  (* write_head *)
  call_spec (write_head_spec (Lst g c1) _ _ r bl Hdev Ha1); [simpl; lia|by eapply pins_room|done|done|done|].
  simpl. rewrite Hst1. intros _ s2 t2 (c2 & -> & Hw2 & Ha2). set (h1 := put_head (co (start g)) bl) in *.
  (* install_trans *)
  assert (∀ f : disk, install_writes (start g) 0 bl (upd (apply_writes f W1) (start g) h1) =
    home_writes bl co) as Hinst.
  { intros f. apply install_writes_home. intros i b Hi. rewrite upd_ne by lia.
    apply apply_writes_in; [apply log_writes_nodup|]. by apply log_writes_lookup. }
  apply returns_bind. unfold install_trans. call reflexivity. simpl lg. rewrite Hn, Nat2Z.id.
  eapply returns_mono; [apply (install_loop_spec bl 0 (Lst g c2) _ _ r false Hdev Ha2); try done|].
  { simpl. intros i Hi. rewrite !upd_ne by lia.
    destruct (lookup_lt_is_Some_2 bl (Z.to_nat i) ltac:(lia)) as [b Hb].
    pose proof (log_writes_lookup (start g) 0 bl co _ b Hb) as Hin.
    replace (start g + 0 + Z.of_nat (Z.to_nat i) + 1) with (start g + i + 1) in Hin by lia.
    by rewrite !(apply_writes_in _ _ _ _ (log_writes_nodup _ _ _ _) Hin). }
  simpl. rewrite Hinst. intros _ s3 t3 (c3 & -> & Hw3 & Ha3).
  (* erase *)
  call reflexivity.
  eapply returns_mono; [apply (write_head_spec (Lst (set_lh_n 0 g) c3) _ _ _ [] Hdev Ha3); try done|].
  { simpl. lia. }
  { split; [|right; eapply few_le; [intros; apply unpin_le|apply Hp]].
    pose proof (proj1 Hp (start g)).
    apply Z.le_lt_trans with (r (start g) + 1); [apply Z.add_le_mono_r, unpin_le|lia]. }
  simpl. rewrite apply_writes_out, upd_eq by
    (rewrite home_writes_fst; intros Hin; destruct (en_home _ _ _ He _ Hin); lia).
  intros [] s4 t4 (c4 & -> & Hw4 & Ha4). exists c4. split_and!; [done| |].
  - by rewrite !writes_app, Hw1, Hw2, Hw3, Hw4.
  - unfold commit_writes. rewrite !apply_writes_app. exact Ha4.
Qed.

(** ** Crashes *)

Lemma prefix_app_cases {A} (ws xs ys : list A) :
  ws `prefix_of` xs ++ ys → ws `prefix_of` xs ∨ ∃ zs, ws = xs ++ zs ∧ zs `prefix_of` ys.
Proof.
  revert ws. induction xs as [|x xs IH]; intros ws Hp; simpl in *; [right; eauto|].
  destruct ws as [|w ws]; [left; apply prefix_nil|].
  apply prefix_cons_inv_1 in Hp as Hw. subst w. apply prefix_cons_inv_2 in Hp.
  destruct (IH ws Hp) as [?|(zs & -> & ?)]; [left; by apply prefix_cons|right; eauto].
Qed.

Definition home (g : log) (b : Z) : Prop := b < start g ∨ start g + size g ≤ b.

(** The blocks named by the header on disk. *)
Definition disk_blocks (st : Z) (d : disk) : list Z :=
  (λ i, head_block (d st) (Z.of_nat i)) <$> seq 0 (Z.to_nat (head_n (d st))).

(** What recovery makes of the disk [d]. *)
Definition recovered (st : Z) (d : disk) : disk :=
  upd (apply_writes d (install_writes st 0 (disk_blocks st d) d)) st
      (put_head (d st) []).

Lemma disk_blocks_put st d x bl :
  d st = put_head x bl → is_block x → Z.of_nat (length bl) ≤ LOGSIZE →
  (∀ b, b ∈ bl → 0 ≤ b < 2 ^ 31) → disk_blocks st d = bl.
Proof.
  intros Hd Hx Hl Hb. unfold disk_blocks. rewrite Hd, head_n_put, Nat2Z.id by done.
  apply list_eq. intros i. rewrite list_lookup_fmap. destruct (bl !! i) as [b|] eqn:Hi.
  - rewrite lookup_seq_lt by (by eapply lookup_lt_Some). simpl. f_equal.
    rewrite (head_block_put x bl i b); try done.
    specialize (Hb b (list_elem_of_lookup_2 _ _ _ Hi)). lia.
  - apply lookup_ge_None_1 in Hi. rewrite lookup_seq_ge by done. done.
Qed.

Lemma recovered_empty g d b :
  head_n (d (start g)) = 0 → 0 < size g → home g b → recovered (start g) d b = d b.
Proof.
  intros H0 Hs Hb. unfold recovered, disk_blocks. rewrite H0. simpl.
  apply upd_ne. unfold home in Hb. lia.
Qed.

Section crash.
  Variable (g : log) (c : S) (bl : list Z) (d co : disk) (r : Z → Z).
  Hypotheses (Hready : ready g c bl d co r) (Hempty : head_n (d (start g)) = 0).

Let st := start g.
Let h1 := put_head (co st) bl.

Lemma ready_home b : b ∈ bl → home g b ∧ b ≠ st.
Proof.
  intros Hb. destruct Hready as [_ _ _ _ He _ _ _]. destruct (en_home _ _ _ He b Hb) as [_ Hh].
  pose proof (en_fits _ _ _ He). split; [done|]. unfold st. lia.
Qed.

(** While the log is being written: nothing has happened. *)
Lemma crash_log ws :
  ws `prefix_of` log_writes st 0 bl co →
  ∀ b, home g b → recovered st (apply_writes d ws) b = d b.
Proof.
  intros [rest Hr] b Hb. destruct Hready as [_ _ _ _ He _ _ _].
  pose proof (en_start _ _ _ He). pose proof (en_fits _ _ _ He).
  assert (∀ b', b' ∈ ws.*1 → st < b' < st + size g) as Hin.
  { intros b' Hb'. assert (b' ∈ (log_writes st 0 bl co).*1) as Hb1.
    { rewrite Hr, fmap_app. apply elem_of_app. by left. }
    apply log_writes_fst in Hb1. lia. }
  unfold home, st in *. unfold st. rewrite recovered_empty; [|rewrite apply_writes_out|lia|done].
  - apply apply_writes_out. intros Hx%Hin. lia.
  - done.
  - intros Hx%Hin. lia.
Qed.

(** From the write of the header on: recovery installs everything. *)
Lemma crash_committed ws :
  ws `prefix_of` home_writes bl co →
  ∀ b, home g b →
    recovered st (apply_writes (upd (apply_writes d (log_writes st 0 bl co)) st h1) ws) b =
    apply_writes d (home_writes bl co) b.
Proof.
  intros [rest Hr] b Hb. destruct Hready as [_ _ _ Hlen He Hnd Ha _].
  pose proof (en_start _ _ _ He). pose proof (en_fits _ _ _ He).
  set (d1 := upd _ st h1). set (d2 := apply_writes d1 ws).
  assert (∀ b', b' ∉ bl → d2 b' = d1 b') as Hd2.
  { intros b' Hb'. apply apply_writes_out. intros Hx. apply Hb'.
    rewrite <-(home_writes_fst bl co), Hr, fmap_app. apply elem_of_app. by left. }
  assert (∀ b', home g b' → d1 b' = d b') as Hd1.
  { intros b' Hb'. unfold d1, home, st in *. rewrite upd_ne by lia. apply apply_writes_out.
    intros Hx%log_writes_fst. lia. }
  assert (disk_blocks st d2 = bl) as Hdb.
  { apply (disk_blocks_put st d2 (co st)); [|by eapply abs_block|done|].
    - rewrite Hd2; [apply upd_eq|]. by intros [_ ?]%ready_home.
    - intros b' Hb'. by apply (en_home _ _ _ He). }
  unfold recovered. rewrite Hdb. rewrite upd_ne by (unfold home, st in *; lia).
  rewrite (install_writes_home st 0 bl d2 co).
  - rewrite !apply_home by done. case_decide; [done|]. by rewrite Hd2, Hd1.
  - intros i b' Hi. rewrite Hd2.
    + unfold d1. rewrite upd_ne by lia. apply apply_writes_in; [apply log_writes_nodup|].
      by apply log_writes_lookup.
    + intros [Hx _]%ready_home. apply lookup_lt_Some in Hi. unfold home, st in *. lia.
Qed.

(** The end of a commit. *)
Lemma commit_final :
  head_n (apply_writes d (commit_writes st bl co) st) = 0 ∧
  ∀ b, home g b → apply_writes d (commit_writes st bl co) b = apply_writes d (home_writes bl co) b.
Proof.
  destruct Hready as [_ _ _ Hlen He Hnd Ha _].
  pose proof (en_start _ _ _ He). pose proof (en_fits _ _ _ He).
  unfold commit_writes. rewrite !apply_writes_app. simpl. split.
  - rewrite upd_eq, (head_n_put _ []); [done| |done]. apply put_head_block; [by eapply abs_block|done].
  - intros b Hb. rewrite upd_ne by (unfold home, st in *; lia). rewrite !apply_home by done.
    case_decide; [done|]. rewrite upd_ne by (unfold home, st in *; lia). apply apply_writes_out.
    intros Hx%log_writes_fst. unfold home, st in *. lia.
Qed.

(** Every crash during a commit leaves the old state or the new one. *)
Lemma commit_crash ws :
  ws `prefix_of` commit_writes st bl co →
  (∀ b, home g b → recovered st (apply_writes d ws) b = d b) ∨
  (∀ b, home g b → recovered st (apply_writes d ws) b = apply_writes d (home_writes bl co) b).
Proof.
  intros Hws. unfold commit_writes in Hws.
  apply prefix_app_cases in Hws as [Hws|(ws2 & -> & Hws)]; [left; by apply crash_log|].
  destruct ws2 as [|w ws2]; [left; rewrite app_nil_r; by apply crash_log|right].
  simpl in Hws. apply prefix_cons_inv_1 in Hws as Hw. subst w. apply prefix_cons_inv_2 in Hws.
  rewrite apply_writes_app. simpl. fold h1.
  apply prefix_app_cases in Hws as [Hws|(ws3 & -> & Hws)]; [by apply crash_committed|].
  destruct ws3 as [|w ws3]; [rewrite app_nil_r; by apply crash_committed|].
  apply prefix_cons_inv_1 in Hws as Hw. subst w. apply prefix_cons_inv_2 in Hws.
  apply prefix_nil_inv in Hws as ->. destruct commit_final as [Hn Hf]. unfold commit_writes in Hn, Hf.
  rewrite apply_writes_app in Hn, Hf. simpl in Hn, Hf. fold h1 in Hn, Hf.
  destruct Hready as [_ _ _ _ He _ _ _]. pose proof (en_fits _ _ _ He).
  intros b Hb. unfold st. rewrite recovered_empty; [by apply Hf|done|lia|done].
Qed.

(** The header that a crash leaves. *)
Lemma crash_header ws :
  ws `prefix_of` commit_writes st bl co →
  head_n (apply_writes d ws st) = 0 ∨ apply_writes d ws st = h1.
Proof.
  assert (∀ d' ws', ws' `prefix_of` log_writes st 0 bl co → apply_writes d' ws' st = d' st) as Hlog.
  { intros d' ws' [rest Hr]. apply apply_writes_out. intros Hx.
    assert (st ∈ (log_writes st 0 bl co).*1) as Hb1 by (rewrite Hr, fmap_app; apply elem_of_app; by left).
    apply log_writes_fst in Hb1. lia. }
  assert (∀ d' ws', ws' `prefix_of` home_writes bl co → apply_writes d' ws' st = d' st) as Hhome.
  { intros d' ws' [rest Hr]. apply apply_writes_out. intros Hx.
    assert (st ∈ (home_writes bl co).*1) as Hb1 by (rewrite Hr, fmap_app; apply elem_of_app; by left).
    rewrite home_writes_fst in Hb1. by apply ready_home in Hb1 as [_ ?]. }
  intros Hws. unfold commit_writes in Hws.
  apply prefix_app_cases in Hws as [Hws|(ws2 & -> & Hws)]; [left; by rewrite Hlog|].
  destruct ws2 as [|w ws2]; [left; rewrite app_nil_r; by rewrite Hlog|].
  simpl in Hws. apply prefix_cons_inv_1 in Hws as Hw. subst w. apply prefix_cons_inv_2 in Hws.
  rewrite apply_writes_app. simpl. fold h1.
  apply prefix_app_cases in Hws as [Hws|(ws3 & -> & Hws)]; [right; rewrite Hhome by done; apply upd_eq|].
  destruct ws3 as [|w ws3]; [right; rewrite app_nil_r, Hhome by done; apply upd_eq|left].
  apply prefix_cons_inv_1 in Hws as Hw. subst w. apply prefix_cons_inv_2 in Hws.
  apply prefix_nil_inv in Hws as ->. rewrite apply_writes_app. simpl. rewrite upd_eq.
  destruct Hready as [_ _ _ Hlen _ _ Ha _].
  rewrite (head_n_put _ []); [done| |done]. apply put_head_block; [by eapply abs_block|done].
Qed.
End crash.

(** ** Recovery *)

Lemma read_blocks_run k i x g c :
  0 ≤ i → i + Z.of_nat k ≤ Z.of_nat (length (lh_block g)) →
  ∃ bl', read_blocks k i x (Lst g c) = Done tt (Lst (set_lh_block bl' g) c) [] ∧
    length bl' = length (lh_block g) ∧
    ∀ j, bl' !! j = if decide (i ≤ Z.of_nat j < i + Z.of_nat k)
                    then Some (head_block x (Z.of_nat j)) else lh_block g !! j.
Proof.
  revert i g. induction k as [|k IH]; intros i g Hi Hk; simpl.
  { exists (lh_block g). split_and!; [by destruct g|done|]. intros j. by rewrite decide_False by lia. }
  set (g1 := set_lh_block (<[Z.to_nat i := head_block x i]> (lh_block g)) g).
  assert (set_block i (head_block x i) (Lst g c) = Done tt (Lst g1 c) []) as Hset.
  { unfold set_block, mbind, M_bind. simpl. by if_true. }
  rewrite (bind_done _ _ _ _ _ _ Hset), after_nil.
  destruct (IH (i + 1) g1) as (bl' & -> & Hlen & Hl); [lia|simpl; rewrite length_insert; lia|].
  simpl in Hlen, Hl. rewrite length_insert in Hlen. exists bl'. split_and!; [done|done|].
  intros j. rewrite Hl. destruct (decide (Z.of_nat j = i)) as [<-|Hne].
  - rewrite decide_False, decide_True by lia. rewrite Nat2Z.id, list_lookup_insert_eq by lia. done.
  - rewrite list_lookup_insert_ne by lia. repeat case_decide; try done; lia.
Qed.

(** A log and a fresh cache over the disk [d], with a valid header. *)
Record bootable (g : log) (c : S) d : Prop := {
  bt_dev : ldev g = dev;
  bt_len : Z.of_nat (length (lh_block g)) = LOGSIZE;
  bt_abs : abs c d d (λ _, 0) no_locks;
  bt_start : 0 ≤ start g;
  bt_range : start g + size g ≤ 2 ^ 31;
  bt_n : 0 ≤ head_n (d (start g)) ≤ LOGSIZE;
  bt_fits : head_n (d (start g)) < size g;
  bt_nodup : NoDup (disk_blocks (start g) d);
  bt_home b : b ∈ disk_blocks (start g) d → 0 ≤ b < 2 ^ 31 ∧ home g b
}.

Lemma disk_blocks_length st d : 0 ≤ head_n (d st) → Z.of_nat (length (disk_blocks st d)) = head_n (d st).
Proof. intros. unfold disk_blocks. rewrite length_fmap, length_seq. lia. Qed.

Lemma disk_blocks_lookup st d i b :
  disk_blocks st d !! i = Some b → b = head_block (d st) (Z.of_nat i) ∧ Z.of_nat i < head_n (d st).
Proof.
  unfold disk_blocks. rewrite list_lookup_fmap. intros (j & Hj & ->)%fmap_Some.
  apply lookup_seq in Hj as [-> Hj]. split; [done|lia].
Qed.

Lemma read_head_spec g c d :
  bootable g c d →
  returns read_head (Lst g c) (λ _ s' t, ∃ g' c', s' = Lst g' c' ∧ writes t = [] ∧
    abs c' d d (λ _, 0) no_locks ∧ start g' = start g ∧ size g' = size g ∧ ldev g' = dev ∧
    Z.of_nat (length (lh_block g')) = LOGSIZE ∧ lh_n g' = head_n (d (start g)) ∧
    entries g' 0 (disk_blocks (start g) d) ∧ outstanding g' = outstanding g ∧ committing g' = committing g).
Proof.
  intros [Hdev Hlen Ha Hst Hrng Hn Hfit Hnd Hh]. unfold read_head. call reflexivity. simpl lg.
  rewrite Hdev, u32_small by (pose proof Hfit; lia).
  cop bread_abs; [exact Ha|simpl; lia|done|split; [done|right; exists []; split; [intros b' Hb'; simpl in Hb'; lia|done]]|].
  intros h c1 t1 (_ & Ha1 & Hw1). simpl lg.
  apply returns_bind, returns_in_cache. eapply returns_done; [apply (rdata_abs _ _ _ _ _ h (start g) Ha1), upd_eq|].
  set (x := d (start g)) in *. call reflexivity. simpl.
  destruct (read_blocks_run (Z.to_nat (head_n x)) 0 x (set_lh_n (head_n x) g) c1) as (bl' & Hrun & Hl' & Hbl');
    [lia|simpl; lia|]. call exact Hrun.
  apply returns_in_cache. eapply returns_mono; [eapply brelse_abs; [exact Ha1|apply upd_eq|by right]|].
  intros _ c2 t2 (Ha2 & Hw2). simpl. eexists _, c2. split_and!; try done; try (simpl in *; lia).
  - by rewrite !writes_app, Hw1, Hw2.
  - eapply abs_ext; [exact Ha2|done|done| |]; intros y; unfold upd, no_locks;
      repeat case_decide; subst; try done; lia.
  - pose proof (disk_blocks_length (start g) d (proj1 Hn)) as Hdl. fold x in Hdl.
    split; simpl; try lia.
    + intros i b Hi. apply disk_blocks_lookup in Hi as [-> Hi]. fold x in Hi. rewrite Hbl'.
      rewrite decide_True by lia. done.
    + intros b Hb. apply Hh in Hb. unfold home in Hb. done.
Qed.

Lemma install_writes_fst st tail bl (f : disk) : (install_writes st tail bl f).*1 = bl.
Proof. revert tail. induction bl as [|b bl IH]; intros tail; simpl; [done|]. by rewrite IH. Qed.

Definition recovery_writes (st : Z) (d : disk) : list (Z * block) :=
  install_writes st 0 (disk_blocks st d) d ++ [(st, put_head (d st) [])].

(** What recovery writes, and the log it leaves. *)
Lemma recover_run_log g c d :
  bootable g c d →
  returns recover_from_log (Lst g c) (λ _ s' t,
    writes t = recovery_writes (start g) d ∧
    abs (ca s') (recovered (start g) d) (recovered (start g) d) (λ _, 0) no_locks ∧
    start (lg s') = start g ∧ size (lg s') = size g ∧ ldev (lg s') = dev ∧ Z.of_nat (length (lh_block (lg s'))) = LOGSIZE ∧
    lh_n (lg s') = 0 ∧ outstanding (lg s') = outstanding g ∧ committing (lg s') = committing g).
Proof.
  intros Hb. unfold recover_from_log. call_spec read_head_spec; [done|].
  intros _ s1 t1 (g1 & c1 & -> & Hw1 & Ha1 & Hst & Hsz & Hdev & Hlen & Hn & He & Ho & Hco).
  destruct Hb as [_ _ _ Hst0 Hrng Hn0 Hfit Hnd Hh].
  pose proof (disk_blocks_length (start g) d ltac:(lia)) as Hdl. set (bl := disk_blocks (start g) d) in *.
  assert (start g ∉ bl) as Hstbl by (intros Hx; apply Hh in Hx; unfold home in Hx; lia).
  apply returns_bind. unfold install_trans. call reflexivity. simpl lg.
  rewrite Hn. replace (Z.to_nat (head_n (d (start g)))) with (length bl) by lia.
  eapply returns_mono; [apply (install_loop_spec bl 0 (Lst g1 c1) d d (λ _, 0) true); try done|].
  simpl. rewrite Hst. intros _ s2 t2 (c2 & -> & Hw2 & Ha2). call reflexivity.
  eapply returns_mono; [apply (write_head_spec (Lst (set_lh_n 0 g1) c2) _ _ _ [] Hdev Ha2); try done|].
  { simpl. lia. }
  { split; [done|]. right. exists []. split; [intros b' Hb'; unfold unpin in Hb'; lia|done]. }
  simpl. rewrite Hst, apply_writes_out by (by rewrite install_writes_fst).
  intros [] s3 t3 (c3 & -> & Hw3 & Ha3). split; [by rewrite !writes_app, Hw1, Hw2, Hw3|]. split; [exact Ha3|done].
Qed.

Lemma recover_run g c d :
  bootable g c d →
  returns recover_from_log (Lst g c) (λ _ s' t,
    writes t = recovery_writes (start g) d ∧
    abs (ca s') (recovered (start g) d) (recovered (start g) d) (λ _, 0) no_locks).
Proof. intros Hb. eapply returns_mono; [by apply recover_run_log|]. intros _ s' t (H1 & H2 & _). done. Qed.

Lemma apply_writes_agree d d' ws b :
  (∀ b, b ∉ ws.*1 → d b = d' b) → apply_writes d ws b = apply_writes d' ws b.
Proof.
  revert d d'. induction ws as [|[b' x] ws IH]; intros d d' Hd; simpl.
  - apply Hd. apply not_elem_of_nil.
  - apply IH. intros b'' Hb''. destruct (decide (b'' = b')) as [->|Hne]; [by rewrite !upd_eq|].
    rewrite !upd_ne by done. apply Hd. by apply not_elem_of_cons.
Qed.

Lemma recovery_crash g c d ws b :
  bootable g c d → ws `prefix_of` recovery_writes (start g) d → home g b →
  recovered (start g) (apply_writes d ws) b = recovered (start g) d b.
Proof.
  intros [_ _ Ha Hst Hrng Hn Hfit Hnd Hh] Hws Hb. unfold recovery_writes in Hws.
  set (bl := disk_blocks (start g) d) in *. set (W := install_writes (start g) 0 bl d) in *.
  pose proof (disk_blocks_length (start g) d ltac:(lia)) as Hdl. fold bl in Hdl.
  assert (∀ b', start g ≤ b' < start g + size g → b' ∉ bl) as Hlogbl.
  { intros b' Hb' Hx. apply Hh in Hx. unfold home in Hx. lia. }
  assert (∀ ws', ws' `prefix_of` W → recovered (start g) (apply_writes d ws') b = recovered (start g) d b) as Hpart.
  { intros ws' [rest Hr].
    assert (∀ b', b' ∉ bl → apply_writes d ws' b' = d b') as Hsame.
    { intros b' Hb'. apply apply_writes_out. intros Hx. apply Hb'.
      rewrite <-(install_writes_fst (start g) 0 bl d). fold W. rewrite Hr, fmap_app. apply elem_of_app. by left. }
    unfold recovered. unfold disk_blocks. rewrite Hsame by (apply Hlogbl; lia).
    fold (disk_blocks (start g) d). fold bl. rewrite !upd_ne by (unfold home in Hb; lia).
    rewrite (install_writes_ext _ _ _ (apply_writes d ws') d).
    - apply apply_writes_agree. intros b' Hb'. rewrite install_writes_fst in Hb'. by apply Hsame.
    - intros i Hi. apply Hsame, Hlogbl. lia. }
  apply prefix_app_cases in Hws as [Hws|(ws2 & -> & Hws)]; [by apply Hpart|].
  destruct ws2 as [|w ws2]; [rewrite app_nil_r; by apply Hpart|].
  apply prefix_cons_inv_1 in Hws as Hw. subst w. apply prefix_cons_inv_2 in Hws.
  apply prefix_nil_inv in Hws as ->. rewrite apply_writes_app. simpl.
  rewrite recovered_empty; [done| |lia|done].
  rewrite upd_eq, (head_n_put _ []); [done|by eapply abs_block|done].
Qed.

(** The log as [initlog] finds it after a reboot. *)
Definition rebooted (g g0 : log) : Prop :=
  start g0 = start g ∧ size g0 = size g ∧ ldev g0 = dev ∧
  Z.of_nat (length (lh_block g0)) = LOGSIZE.

Lemma crash_bootable g c bl d co r ws g0 c0 :
  ready g c bl d co r → head_n (d (start g)) = 0 → rebooted g g0 →
  ws `prefix_of` commit_writes (start g) bl co →
  abs c0 (apply_writes d ws) (apply_writes d ws) (λ _, 0) no_locks →
  bootable g0 c0 (apply_writes d ws).
Proof.
  intros Hr H0 (Hst & Hsz & Hdev & Hlen0) Hws Ha0.
  destruct (crash_header g c bl d co r Hr H0 ws Hws) as [Hn|Hh];
    destruct Hr as [_ Hnn _ Hlen He Hnd Ha _];
    pose proof (en_start _ _ _ He); pose proof (en_range _ _ _ He); pose proof (en_fits _ _ _ He).
  - split; rewrite ?Hst, ?Hsz; try done; try lia.
    + unfold disk_blocks. rewrite Hn. constructor.
    + unfold disk_blocks. rewrite Hn. by intros b ?%not_elem_of_nil.
  - assert (disk_blocks (start g) (apply_writes d ws) = bl) as Hdb.
    { apply (disk_blocks_put _ _ (co (start g))); try done; [by eapply abs_block|].
      intros b Hb. by apply (en_home _ _ _ He). }
    assert (head_n (apply_writes d ws (start g)) = Z.of_nat (length bl)) as Hn.
    { rewrite Hh. apply head_n_put; [by eapply abs_block|done]. }
    split; rewrite ?Hst, ?Hsz; try done; try lia.
    + by rewrite Hdb.
    + rewrite Hdb. intros b Hb. unfold home. rewrite Hst, Hsz. by apply (en_home _ _ _ He).
Qed.

(** Recovery after a crash during a commit. *)
Lemma crash_recovers g c bl d co r ws g0 c0 :
  ready g c bl d co r → head_n (d (start g)) = 0 → (∀ b, home g b → b ∉ bl → co b = d b) →
  ws `prefix_of` commit_writes (start g) bl co → rebooted g g0 →
  abs c0 (apply_writes d ws) (apply_writes d ws) (λ _, 0) no_locks →
  returns recover_from_log (Lst g0 c0) (λ _ s1 _,
    (∀ b, home g b → content (ca s1) b = d b) ∨ (∀ b, home g b → content (ca s1) b = co b)).
Proof.
  intros Hr H0 Hclean Hws Hreb Ha0. pose proof Hr as [_ _ _ _ He Hnd Ha _].
  pose proof (crash_bootable g c bl d co r ws g0 c0 Hr H0 Hreb Hws Ha0) as Hb.
  destruct Hreb as (Hst & _). eapply returns_mono; [by apply recover_run|].
  intros _ s1 t1 [_ [_ [_ Hc _ _]]]. rewrite Hst in Hc.
  destruct (commit_crash g c bl d co r Hr H0 ws Hws) as [Hold|Hnew].
  - left. intros b Hb'. by rewrite Hc, Hold.
  - right. intros b Hb'. rewrite Hc, Hnew, apply_home by done. case_decide; [done|]. by rewrite Hclean.
Qed.

(** C1: Transactions are atomic across crashes.  Let [commit] run with the
    blocks of a transaction pinned in the cache and the log on disk empty.  It
    returns with every block of the file system on disk as the transaction left
    it and the log empty.  And if the machine stops after any prefix of its disk
    writes, then [recover_from_log], run on a fresh cache over what the disk
    holds, returns, and all blocks outside the log read as before the
    transaction, or all read as after it. *)
Theorem commit_crash_safe g c bl d co r :
  ready g c bl d co r → bl ≠ [] → head_n (d (start g)) = 0 →
  (∀ b, home g b → b ∉ bl → co b = d b) →
  returns commit (Lst g c) (λ _ s' t,
    (∀ b, home g b → on_disk (ca s') b = co b) ∧ head_n (on_disk (ca s') (start g)) = 0 ∧
    ∀ ws g0 c0, ws `prefix_of` writes t → rebooted g g0 →
      abs c0 (apply_writes d ws) (apply_writes d ws) (λ _, 0) no_locks →
      returns recover_from_log (Lst g0 c0) (λ _ s1 _,
        (∀ b, home g b → content (ca s1) b = d b) ∨
        (∀ b, home g b → content (ca s1) b = co b))).
Proof.
  intros Hr Hne H0 Hclean. eapply returns_mono; [by apply commit_run|].
  intros _ s' t (c' & -> & Hw & Ha'). pose proof Hr as [_ _ _ Hlen He Hnd Ha _].
  destruct (commit_final g c bl d co r Hr) as [Hn Hf]. pose proof Ha' as [_ [Hd _ _ _]].
  split_and!.
  - intros b Hb. simpl. rewrite Hd, Hf, apply_home by done. case_decide; [done|]. by rewrite Hclean.
  - simpl. by rewrite Hd.
  - rewrite Hw. intros ws g0 c0 Hws Hreb Ha0. by apply (crash_recovers g c bl d co r ws).
Qed.

(** The header of the log while recovery runs. *)
Lemma recovery_header g c d ws :
  bootable g c d → ws `prefix_of` recovery_writes (start g) d →
  apply_writes d ws (start g) = d (start g) ∨ apply_writes d ws (start g) = put_head (d (start g)) [].
Proof.
  intros Hb Hws. unfold recovery_writes in Hws. set (bl := disk_blocks (start g) d) in *.
  assert (∀ ws', ws' `prefix_of` install_writes (start g) 0 bl d → apply_writes d ws' (start g) = d (start g)) as Hpart.
  { intros ws' [rest Hr]. apply apply_writes_out. intros Hx.
    assert (start g ∈ bl) as Hin by (rewrite <-(install_writes_fst (start g) 0 bl d), Hr, fmap_app; apply elem_of_app; by left).
    apply (bt_home _ _ _ Hb) in Hin as [_ Hh]. pose proof (bt_fits _ _ _ Hb). pose proof (bt_n _ _ _ Hb). unfold home in Hh. lia. }
  apply prefix_app_cases in Hws as [Hws|(ws2 & -> & Hws)]; [left; by apply Hpart|].
  destruct ws2 as [|w ws2]; [left; rewrite app_nil_r; by apply Hpart|].
  apply prefix_cons_inv_1 in Hws as Hw. subst w. apply prefix_cons_inv_2 in Hws. apply prefix_nil_inv in Hws as ->.
  right. rewrite apply_writes_app. simpl. by rewrite upd_eq.
Qed.

(** A machine that stopped in recovery can boot. *)
Lemma recovery_bootable g c d ws c' :
  bootable g c d → ws `prefix_of` recovery_writes (start g) d →
  abs c' (apply_writes d ws) (apply_writes d ws) (λ _, 0) no_locks → bootable g c' (apply_writes d ws).
Proof.
  intros Hb Hws Ha. pose proof (recovery_header g c d ws Hb Hws) as Hh. destruct Hb as [H1 H2 H3 H4 H5 H6 H7 H8 H9].
  assert (head_n (put_head (d (start g)) []) = 0) as H0 by (rewrite (head_n_put _ []); [done|by eapply abs_block|done]).
  assert (head_n (apply_writes d ws (start g)) = head_n (d (start g)) ∧ disk_blocks (start g) (apply_writes d ws) = disk_blocks (start g) d ∨
    head_n (apply_writes d ws (start g)) = 0 ∧ disk_blocks (start g) (apply_writes d ws) = []) as [[E1 E2]|[E1 E2]].
  { unfold disk_blocks. destruct Hh as [->| ->]; [by left|right]. by rewrite H0. }
  - split; rewrite ?E1, ?E2; done.
  - split; rewrite ?E1, ?E2; try done; try lia; [apply NoDup_nil_2|]. by intros b Hx%not_elem_of_nil.
Qed.

(** C7: Recovery can be interrupted.  From every disk with a valid log header,
    [recover_from_log] returns; the disk then holds what the log prescribes,
    and the log is empty.  If the machine stops after any prefix of its writes
    and boots again with a fresh cache, [recover_from_log] returns again and the
    blocks outside the log end up the same. *)
Theorem recovery_idempotent g c d :
  bootable g c d →
  returns recover_from_log (Lst g c) (λ _ s' t,
    (∀ b, on_disk (ca s') b = recovered (start g) d b ∧ content (ca s') b = recovered (start g) d b) ∧
    head_n (on_disk (ca s') (start g)) = 0 ∧
    ∀ ws, ws `prefix_of` writes t →
      (∀ b, home g b → recovered (start g) (apply_writes d ws) b = recovered (start g) d b) ∧
      ∀ c', abs c' (apply_writes d ws) (apply_writes d ws) (λ _, 0) no_locks →
        returns recover_from_log (Lst g c') (λ _ s'' _, ∀ b, home g b → on_disk (ca s'') b = recovered (start g) d b)).
Proof.
  intros Hb. eapply returns_mono; [by apply recover_run|].
  intros _ s' t [Hw Ha']. pose proof Ha' as [_ [Hd Hc _ _]]. split_and!.
  - by intros b.
  - rewrite Hd. unfold recovered. rewrite upd_eq, (head_n_put _ []); [done| |done].
    eapply abs_block, (bt_abs _ _ _ Hb).
  - intros ws Hws. rewrite Hw in Hws. split; [intros b Hh; by eapply recovery_crash|].
    intros c' Ha. eapply returns_mono; [by apply recover_run, (recovery_bootable g c d)|].
    intros _ s'' t' [_ [_ [Hd' _ _ _]]] b Hh. rewrite Hd'. by eapply recovery_crash.
Qed.
End spec.
