(* ===== verification/LogOps.v ===== *)
(** * Sharing the log

    System calls bracket their writes with [begin_op] and [end_op].  The state
    here is the log together with the calls in progress, each with the number
    of blocks it has logged so far. *)

From S2P Require Import Prelude Riscv Memory Disk Log LogSpec.

Section ops.
  Context {S : Type} `{Cache S}.
  Local Notation lst := (@lst S).
  Implicit Types (s : lst) (us : list Z).

(** [us] are the calls between [begin_op] and [end_op]. *)
Inductive lstep : lst * list Z → lst * list Z → Prop :=
  | ls_begin s s' us t :
      begin_op s = Done tt s' t → lstep (s, us) (s', 0 :: us)
  | ls_write s s' us1 u us2 h b t :
      u < MAXOPBLOCKS → log_write h b s = Done tt s' t →
      lstep (s, us1 ++ u :: us2) (s', us1 ++ (u + 1) :: us2)
  | ls_end s s' us1 u us2 t :
      end_op s = Done tt s' t → lstep (s, us1 ++ u :: us2) (s', us1 ++ us2)
  | ls_cache g c c' us : lstep (Lst g c, us) (Lst g c', us).

(** The space that the calls in progress may still use. *)
Definition reserved us : Z := foldr (λ u n, (MAXOPBLOCKS - u) + n) 0 us.

Record log_inv (sz : Z) (w : lst * list Z) : Prop := {
  li_size : size (lg w.1) = sz;
  li_len : Z.of_nat (length (lh_block (lg w.1))) = LOGSIZE;
  li_committing : committing (lg w.1) = 0;
  li_outstanding : outstanding (lg w.1) = Z.of_nat (length w.2);
  li_used : Forall (λ u, 0 ≤ u ≤ MAXOPBLOCKS) w.2;
  li_n : 0 ≤ lh_n (lg w.1);
  li_space : lh_n (lg w.1) + reserved w.2 ≤ LOGSIZE
}.

Lemma reserved_app us1 us2 : reserved (us1 ++ us2) = reserved us1 + reserved us2.
Proof. unfold reserved. induction us1 as [|u us1 IH]; simpl; [lia|]. rewrite IH. lia. Qed.

Lemma reserved_bounds us :
  Forall (λ u, 0 ≤ u ≤ MAXOPBLOCKS) us → 0 ≤ reserved us ≤ Z.of_nat (length us) * MAXOPBLOCKS.
Proof. induction 1 as [|u us Hu _ IH]; simpl; [lia|]. unfold reserved in *. simpl. lia. Qed.

(** ** What the operations do to the log record *)

Lemma begin_op_inv s s' t :
  begin_op s = Done tt s' t →
  committing (lg s) = 0 ∧ lh_n (lg s) + (outstanding (lg s) + 1) * MAXOPBLOCKS ≤ LOGSIZE ∧
  lg s' = set_outstanding (outstanding (lg s) + 1) (lg s).
Proof.
  unfold begin_op, mbind, M_bind. simpl. unfold truthy.
  destruct (Z.eqb_spec (committing (lg s)) 0) as [Hc|]; [|done]. simpl.
  case_if; [done|]. intros [= <- <-]. simpl. split_and!; [done|lia|done].
Qed.

Lemma in_cache_lg {A} (m : M S A) s a s' t : in_cache m s = Done a s' t → lg s' = lg s.
Proof. unfold in_cache, zoom. destruct (m (view _ s)); by intros [= <- <- <-]. Qed.

(** Pieces that leave the log record alone. *)
Definition keeps_log {A} (m : M lst A) : Prop := ∀ s a s' t, m s = Done a s' t → lg s' = lg s.

Lemma keeps_log_bind {A B} (m : M lst A) (f : A → M lst B) :
  keeps_log m → (∀ a, keeps_log (f a)) → keeps_log (m ≫= f).
Proof.
  intros Hm Hf s b s' t (a & s1 & t1 & t2 & H1 & H2 & ->)%bind_done_inv.
  by rewrite (Hf _ _ _ _ _ H2), (Hm _ _ _ _ H1).
Qed.

Lemma keeps_log_cache {A} (m : M S A) : keeps_log (in_cache m).
Proof. intros s a s' t. apply in_cache_lg. Qed.
Lemma keeps_log_gets {A} (f : lst → A) : keeps_log (gets f).
Proof. by intros s a s' t [= <- <- <-]. Qed.
Lemma keeps_log_ret {A} (a : A) : keeps_log (mret a).
Proof. by intros s a' s' t [= <- <- <-]. Qed.
Lemma keeps_log_get_block i : keeps_log (get_block i).
Proof.
  apply keeps_log_bind; [apply keeps_log_gets|]. intros l.
  destruct (lh_block l !! Z.to_nat i); [apply keeps_log_ret|done].
Qed.
Lemma keeps_log_undef {A} why : keeps_log (A := A) (undef why).
Proof. done. Qed.

Create HintDb logdb.
#[local] Hint Resolve keeps_log_cache keeps_log_gets keeps_log_ret keeps_log_get_block
  keeps_log_undef : logdb.
#[local] Hint Extern 1 (keeps_log (_ ≫= _)) => apply keeps_log_bind; [|intros ?] : logdb.
#[local] Hint Extern 1 (keeps_log (if ?b then _ else _)) => destruct b : logdb.

Lemma keeps_log_write_log k tail : keeps_log (write_log_loop k tail).
Proof. revert tail. induction k as [|k IH]; intros tail; cbn [write_log_loop]; auto 20 with logdb. Qed.

Lemma keeps_log_install k tail rec : keeps_log (install_loop k tail rec).
Proof. revert tail. induction k as [|k IH]; intros tail; cbn [install_loop]; auto 20 with logdb. Qed.

Lemma keeps_log_head : keeps_log write_head.
Proof. unfold write_head. auto 20 with logdb. Qed.

Lemma with_log_inv f s a s' t : with_log f s = Done a s' t → lg s' = f (lg s).
Proof. by intros [= <- <-]. Qed.

Lemma commit_lg s s' t :
  0 ≤ lh_n (lg s) → commit s = Done tt s' t → lg s' = set_lh_n 0 (lg s).
Proof.
  intros Hn. unfold commit. intros (g & s1 & t1 & t2 & [= <- <- <-] & Hrun & _)%bind_done_inv.
  destruct (Z.gtb_spec (lh_n (lg s)) 0) as [Hpos|H0].
  - apply bind_done_inv in Hrun as (? & s2 & ? & ? & H1 & Hrun & _).
    apply bind_done_inv in Hrun as (? & s3 & ? & ? & H2 & Hrun & _).
    apply bind_done_inv in Hrun as (? & s4 & ? & ? & H3 & Hrun & _).
    apply bind_done_inv in Hrun as (? & s5 & ? & ? & H4 & H5 & _).
    apply keeps_log_head in H5. apply with_log_inv in H4. apply keeps_log_head in H2.
    unfold write_log in H1. apply keeps_log_bind in H1; [|auto with logdb|intros; apply keeps_log_write_log].
    unfold install_trans in H3. apply keeps_log_bind in H3; [|auto with logdb|intros; apply keeps_log_install].
    by rewrite H5, H4, H3, H2, H1.
  - injection Hrun as <- _. assert (lh_n (lg s) = 0) as Hz by lia.
    destruct (lg s) as [? ? ? ? ? n ?]. simpl in *. by subst n.
Qed.

Lemma end_op_inv s s' t :
  0 ≤ lh_n (lg s) → end_op s = Done tt s' t →
  committing (lg s') = 0 ∧ outstanding (lg s') = outstanding (lg s) - 1 ∧
  lh_n (lg s') = (if outstanding (lg s) - 1 =? 0 then 0 else lh_n (lg s)) ∧
  size (lg s') = size (lg s) ∧ lh_block (lg s') = lh_block (lg s).
Proof.
  intros Hn. unfold end_op. intros (? & s1 & ? & ? & [= <- <- <-] & Hrun & _)%bind_done_inv.
  apply bind_done_inv in Hrun as (? & ? & ? & ? & [= <- <- <-] & Hrun & _).
  apply bind_done_inv in Hrun as (? & s2 & ? & ? & F2%with_log_inv & Hrun & _).
  unfold truthy in Hrun. destruct (Z.eqb_spec (committing (lg s)) 0) as [Hc|]; [|done]. simpl in Hrun.
  destruct (outstanding (lg s) - 1 =? 0) eqn:Ho.
  - apply bind_done_inv in Hrun as (? & s3 & ? & ? & F3%with_log_inv & Hrun & _).
    apply bind_done_inv in Hrun as (? & s4 & ? & ? & [= <- <- <-] & Hrun & _).
    apply bind_done_inv in Hrun as ([] & s5 & ? & ? & F5 & Hrun & _).
    apply commit_lg in F5; [|rewrite F3, F2; done].
    apply bind_done_inv in Hrun as (? & s6 & ? & ? & [= <- <- <-] & Hrun & _).
    apply bind_done_inv in Hrun as (? & s7 & ? & ? & F7%with_log_inv & Hrun & _).
    apply bind_done_inv in Hrun as (? & s8 & ? & ? & [= <- <- <-] & Hrun & _).
    injection Hrun as <- _. rewrite F7, F5, F3, F2. done.
  - apply bind_done_inv in Hrun as (? & s3 & ? & ? & [= <- <- <-] & Hrun & _).
    apply bind_done_inv in Hrun as (? & s4 & ? & ? & [= <- <- <-] & Hrun & _).
    injection Hrun as <- _. rewrite F2. simpl. by rewrite Hc.
Qed.

Lemma find_block_range bl b i :
  i ≤ find_block bl b i ≤ i + Z.of_nat (length bl).
Proof.
  revert i. induction bl as [|x bl IH]; intros i; simpl; [lia|]. case_if; [lia|].
  specialize (IH (i + 1)). lia.
Qed.

Lemma set_block_inv i b s s' t :
  set_block i b s = Done tt s' t →
  ∃ bl, lg s' = set_lh_block bl (lg s) ∧ length bl = length (lh_block (lg s)).
Proof.
  unfold set_block, mbind, M_bind. simpl. case_if; [|done]. intros [= <- <-]. simpl.
  eexists. split; [done|]. apply length_insert.
Qed.

Lemma log_write_inv h b s s' t :
  log_write h b s = Done tt s' t →
  committing (lg s') = committing (lg s) ∧ outstanding (lg s') = outstanding (lg s) ∧
  lh_n (lg s) ≤ lh_n (lg s') ≤ lh_n (lg s) + 1 ∧
  size (lg s') = size (lg s) ∧ length (lh_block (lg s')) = length (lh_block (lg s)).
Proof.
  unfold log_write. intros (? & s1 & ? & ? & [= <- <- <-] & Hrun & _)%bind_done_inv.
  apply bind_done_inv in Hrun as (? & ? & ? & ? & [= <- <- <-] & Hrun & _).
  revert Hrun. case_if; [done|]. case_if; [done|]. intros Hrun.
  apply bind_done_inv in Hrun as ([] & s2 & ? & ? & Hset & Hrun & _).
  apply set_block_inv in Hset as (bl & F2 & Hbl).
  apply bind_done_inv in Hrun as ([] & s3 & ? & ? & Hpin & Hrun & _). injection Hrun as <- _.
  revert Hpin. case_if; intros Hpin.
  - apply bind_done_inv in Hpin as ([] & s4 & ? & ? & Hp & Hw & _).
    apply in_cache_lg in Hp. apply with_log_inv in Hw. rewrite Hw, Hp, F2. simpl. split_and!; try done; lia.
  - injection Hpin as <- _. rewrite F2. simpl. split_and!; try done; lia.
Qed.

Lemma lstep_inv sz w w' : lstep w w' → log_inv sz w → log_inv sz w'.
Proof.
  intros Hs [Hsz Hlen Hc Ho Hu Hn Hsp]. destruct Hs as [s s' us t Hr|s s' us1 u us2 h b t Hlt Hr|s s' us1 u us2 t Hr|g c c' us]; simpl in *.
  - apply begin_op_inv in Hr as (_ & Hroom & Hg). pose proof (reserved_bounds us Hu).
    split; simpl; rewrite ?Hg; simpl; try done; try (unfold reserved in *; simpl; lia).
    constructor; [lia|done].
  - apply log_write_inv in Hr as (E1 & E2 & E3 & E4 & E5).
    apply Forall_app in Hu as [Hu1 Hu2]. apply Forall_cons_1 in Hu2 as [Hu Hu2].
    rewrite length_app in Ho. simpl in Ho. rewrite reserved_app in Hsp. unfold reserved in Hsp. simpl in Hsp.
    split; simpl; rewrite ?E1, ?E2, ?E4, ?E5; try done; try lia.
    + rewrite length_app. simpl. lia.
    + apply Forall_app. split; [done|]. constructor; [lia|done].
    + rewrite reserved_app. unfold reserved. simpl. lia.
  - apply end_op_inv in Hr as (E1 & E2 & E3 & E4 & E5); [|done].
    apply Forall_app in Hu as [Hu1 Hu2]. apply Forall_cons_1 in Hu2 as [Hu Hu2].
    rewrite length_app in Ho. simpl in Ho. rewrite reserved_app in Hsp. unfold reserved in Hsp. simpl in Hsp.
    pose proof (reserved_bounds us1 Hu1). pose proof (reserved_bounds us2 Hu2).
    split; simpl; rewrite ?E1, ?E2, ?E3, ?E4, ?E5; try done; try (case_if; lia).
    + rewrite length_app. lia.
    + by apply Forall_app.
    + rewrite reserved_app. unfold reserved in *. case_if; [|lia].
      destruct us1; [|simpl in *; lia]. destruct us2; [simpl; lia|simpl in *; lia].
  - split; done.
Qed.

Lemma lsteps_inv sz w w' : log_inv sz w → rtc lstep w w' → log_inv sz w'.
Proof. intros Hi Hr. induction Hr as [|w w1 w2 Hs _ IH]; [done|]. by apply IH, (lstep_inv sz w). Qed.

(** The log when no call is in progress. *)
Definition idle_log (g : log) : Prop :=
  Z.of_nat (length (lh_block g)) = LOGSIZE ∧ committing g = 0 ∧ outstanding g = 0 ∧ lh_n g = 0.

Lemma idle_inv s : idle_log (lg s) → log_inv (size (lg s)) (s, []).
Proof. intros (H1 & F2 & H3 & H4). split; simpl; try done; [lia|unfold reserved; simpl; lia]. Qed.

(** The blocks that the next commit writes. *)
Definition logged (g : log) : list Z := take (Z.to_nat (lh_n g)) (lh_block g).

Lemma find_block_spec bl b i :
  (∃ k, find_block bl b i = i + Z.of_nat k ∧ bl !! k = Some b) ∨
  (find_block bl b i = i + Z.of_nat (length bl) ∧ b ∉ bl).
Proof.
  revert i. induction bl as [|x bl IH]; intros i; simpl; [right; split; [lia|set_solver]|].
  destruct (Z.eqb_spec x b) as [->|Hne]; [left; exists 0%nat; split; [lia|done]|].
  destruct (IH (i + 1)) as [(k & -> & Hk)|[-> Hk]].
  - left. exists (Datatypes.S k). split; [lia|done].
  - right. split; [lia|set_solver].
Qed.

Lemma set_block_run i b s :
  0 ≤ i < Z.of_nat (length (lh_block (lg s))) →
  set_block i b s = Done tt (Lst (set_lh_block (<[Z.to_nat i:=b]> (lh_block (lg s))) (lg s)) (ca s)) [].
Proof. intros Hi. unfold set_block, mbind, M_bind. simpl. by if_true. Qed.

Section logging.
  Context (dev : Z) (ok : S → Prop) `{!CacheLaws S dev ok}.

(** [log_write] adds a block that is not in the log, and absorbs one that is. *)
Lemma log_write_run s h b :
  ok (ca s) → locked_by (ca s) h = Some b → refs (ca s) b + 1 < 2 ^ 32 →
  Z.of_nat (length (lh_block (lg s))) = LOGSIZE → 1 ≤ outstanding (lg s) →
  0 ≤ lh_n (lg s) < LOGSIZE → lh_n (lg s) < size (lg s) - 1 →
  returns (log_write h b) s (λ _ s' t, ok (ca s') ∧ writes t = [] ∧
    logged (lg s') = (if decide (s32 b ∈ logged (lg s)) then logged (lg s) else logged (lg s) ++ [s32 b]) ∧
    ∀ b', content (ca s') b' = content (ca s) b').
Proof.
  intros Hok Hh Hr Hlen Hout Hn Hsz. unfold log_write. call (reflexivity). call (reflexivity).
  if_false. if_false. set (n := lh_n (lg s)) in *.
  assert (length (logged (lg s)) = Z.to_nat n) as Hll by (unfold logged; rewrite length_take; lia).
  unfold logged in Hll. fold n in Hll.
  destruct (find_block_spec (take (Z.to_nat n) (lh_block (lg s))) (s32 b) 0) as [(k & Hf & Hk)|[Hf Hk]];
    rewrite Hf; cbv zeta.
  - pose proof (lookup_lt_Some _ _ _ Hk) as Hlt. rewrite Hll in Hlt.
    call (apply set_block_run; lia). if_false. call (reflexivity). cbn.
    split_and!; try done. rewrite decide_True by (apply list_elem_of_lookup_2 in Hk; exact Hk).
    unfold logged. simpl. fold n. replace (Z.to_nat (0 + Z.of_nat k)) with k by lia.
    rewrite list_insert_id; [done|]. by apply lookup_take_Some in Hk as [? _].
  - rewrite Hll. call (apply set_block_run; lia). if_true.
    apply returns_bind. cop (bpin_law (ca s) h b); [done..|].
    intros [] c1 t1 (Hok1 & Hch & Hw). cbn.
    rewrite !writes_app, Hw, decide_False by done.
    split_and!; [done|done| |apply Hch].
    unfold logged. cbn. fold n. replace (Z.to_nat (n + 1)) with (Datatypes.S (Z.to_nat n)) by lia.
    replace (Z.to_nat (0 + Z.of_nat (Z.to_nat n))) with (Z.to_nat n) by lia.
    rewrite (take_S_r _ _ (s32 b)) by (apply list_lookup_insert_eq; lia).
    by rewrite take_insert_ge.
Qed.

(** With room for [LOGSIZE] blocks besides the header, the admission test
    of [begin_op] is enough.  Whatever calls began, wrote and ended before, a
    call that has logged fewer than [MAXOPBLOCKS] blocks can log the buffer it
    has locked: [log_write] returns, the block is in the log once, the earlier
    ones stay, and nothing is written to the disk. *)
Theorem log_write_never_full s0 s us1 u us2 h b :
  idle_log (lg s0) → LOGSIZE + 1 ≤ size (lg s0) →
  rtc lstep (s0, []) (s, us1 ++ u :: us2) → u < MAXOPBLOCKS →
  ok (ca s) → locked_by (ca s) h = Some b → refs (ca s) b + 1 < 2 ^ 32 →
  returns (log_write h b) s (λ _ s' t, ok (ca s') ∧ writes t = [] ∧
    logged (lg s') = (if decide (s32 b ∈ logged (lg s)) then logged (lg s) else logged (lg s) ++ [s32 b]) ∧
    ∀ b', content (ca s') b' = content (ca s) b').
Proof.
  intros Hidle Hsz Hrun Hu Hok Hh Hr.
  destruct (lsteps_inv _ _ _ (idle_inv s0 Hidle) Hrun) as [E1 E2 E3 E4 E5 E6 E7]. simpl in *.
  apply Forall_app in E5 as [F1 F2]. apply Forall_cons_1 in F2 as [Fu F2].
  pose proof (reserved_bounds us1 F1). pose proof (reserved_bounds us2 F2).
  rewrite reserved_app in E7. unfold reserved at 2 in E7. simpl in E7. fold (reserved us2) in E7.
  rewrite length_app in E4. simpl in E4. apply log_write_run; try done; lia.
Qed.
End logging.
End ops.
