(* ===== verification/BioSpec.v ===== *)
(** * The buffer cache is correct

    First the links: [path] is a doubly linked segment, [ring] the whole list.
    Then the invariant [cache_ok], which every operation preserves, and the
    instance of [CacheLaws]. *)

From S2P Require Import Prelude Riscv Memory Locks Disk Bio.
Import Sleeplock.

(** ** Doubly linked lists *)

(** From [a] the links [nx] lead over [L] to [e], and [pv] lead back. *)
Fixpoint path (nx pv : Z → Z) (a : Z) (L : list Z) (e : Z) : Prop :=
  match L with
  | [] => nx a = e ∧ pv e = a
  | b :: L => nx a = b ∧ pv b = a ∧ path nx pv b L e
  end.

Lemma path_ext nx pv nx' pv' a L e :
  path nx pv a L e → (∀ i, i ∈ a :: L → nx' i = nx i) → (∀ i, i ∈ L ++ [e] → pv' i = pv i) →
  path nx' pv' a L e.
Proof.
  revert a. induction L as [|b L IH]; simpl; intros a Hp Hn Hv.
  - rewrite Hn, Hv by set_solver. done.
  - destruct Hp as (H1 & H2 & Hp). rewrite Hn, Hv by set_solver.
    split_and!; [done..|]. apply IH; [done|set_solver..].
Qed.

Lemma path_app nx pv a L1 b L2 e :
  path nx pv a (L1 ++ b :: L2) e ↔ path nx pv a L1 b ∧ path nx pv b L2 e.
Proof.
  revert a. induction L1 as [|c L1 IH]; simpl; intros a; [naive_solver|]. rewrite IH. naive_solver.
Qed.

Lemma path_next_in nx pv a L e : path nx pv a L e → nx a ∈ L ++ [e].
Proof. destruct L; simpl; [intros [-> _]|intros [-> _]]; set_solver. Qed.

Lemma path_prev_in nx pv a L e : path nx pv a L e → pv e ∈ a :: L.
Proof.
  revert a. induction L as [|b L IH]; simpl; intros a; [intros [_ ->]; set_solver|].
  intros (_ & _ & Hp). apply IH in Hp. set_solver.
Qed.

(** Taking [b] out of the list. *)
Lemma path_unlink nx pv a L1 b L2 e :
  path nx pv a (L1 ++ b :: L2) e → NoDup (a :: L1 ++ b :: L2) → NoDup (e :: L1 ++ b :: L2) →
  path (upd nx (pv b) (nx b)) (upd pv (nx b) (pv b)) a (L1 ++ L2) e.
Proof.
  revert a. induction L1 as [|c L1 IH]; simpl; intros a.
  - intros (Hna & Hpb & Hp) Hnd Hnd'. rewrite Hpb. destruct L2 as [|c L2]; simpl in Hp |- *.
    + destruct Hp as [-> He]. by rewrite !upd_eq.
    + destruct Hp as (-> & Hc & Hp). rewrite !upd_eq. split_and!; [done..|].
      apply (path_ext nx pv); [done| |]; intros i Hi; apply upd_ne; intros ->.
      * apply NoDup_cons in Hnd as [Hnd _]. set_solver.
      * apply NoDup_cons in Hnd' as [He Hnd']. apply NoDup_cons in Hnd' as [_ Hnd'].
        apply NoDup_cons in Hnd' as [Hc' _]. set_solver.
  - intros (Hna & Hpc & Hp) Hnd Hnd'. apply NoDup_cons in Hnd as [Ha Hnd].
    apply NoDup_cons in Hnd' as [He Hnd'].
    pose proof (proj1 (path_app _ _ _ _ _ _ _) Hp) as [Hp1 Hp2].
    pose proof (path_prev_in _ _ _ _ _ Hp1) as Hin1. pose proof (path_next_in _ _ _ _ _ Hp2) as Hin2.
    pose proof Hnd as [Hc _]%NoDup_cons. pose proof Hnd' as [_ Hnd'']%NoDup_cons.
    rewrite (upd_ne nx (pv b) a), (upd_ne pv (nx b) c) by (intros ->; set_solver).
    split_and!; [done..|]. apply IH; [done|done|]. apply NoDup_cons. split; [set_solver|done].
Qed.

(** Putting [b] after [h]. *)
Lemma path_push nx pv h L e b :
  path nx pv h L e → NoDup (h :: L) → NoDup (e :: L) → b ≠ h → b ≠ e → b ∉ L →
  path (upd (upd nx b (nx h)) h b) (upd (upd pv b h) (nx h) b) h (b :: L) e.
Proof.
  intros Hp Hnd Hnd' Hbh Hbe HbL. pose proof (path_next_in _ _ _ _ _ Hp) as Hin. simpl.
  rewrite upd_eq, (upd_ne _ (nx h)), upd_eq by set_solver. split_and!; [done..|].
  destruct L as [|c L]; simpl in Hp |- *.
  - destruct Hp as [-> Hp]. by rewrite (upd_ne _ h), !upd_eq by done.
  - destruct Hp as (-> & Hc & Hp). rewrite (upd_ne _ h), !upd_eq by done. split_and!; [done..|].
    apply (path_ext nx pv); [done| |]; intros i Hi.
    + apply NoDup_cons in Hnd as [Hh _]. rewrite !upd_ne; set_solver.
    + apply NoDup_cons in Hnd' as [He Hnd']. apply NoDup_cons in Hnd' as [Hc' _].
      rewrite !upd_ne; set_solver.
Qed.

(** ** The list of the buffers *)

Definition ring (s : bst) (L : list Z) : Prop :=
  Permutation L bufids ∧ path (λ i, next (bufs s i)) (λ i, prev (bufs s i)) HEAD L HEAD.

Lemma bufids_in i : i ∈ bufids ↔ 0 ≤ i < NBUF.
Proof. unfold bufids. rewrite elem_of_seqZ. lia. Qed.

Lemma ring_in s L i : ring s L → i ∈ L ↔ 0 ≤ i < NBUF.
Proof. intros [HL _]. rewrite HL. apply bufids_in. Qed.

Lemma ring_nodup s L : ring s L → NoDup (HEAD :: L).
Proof.
  intros HL. apply NoDup_cons. split.
  - rewrite ring_in by done. unfold HEAD. lia.
  - destruct HL as [HL _]. rewrite HL. apply NoDup_seqZ.
Qed.

Lemma ring_length s L : ring s L → length L = Z.to_nat NBUF.
Proof. intros [HL _]. rewrite HL. unfold bufids. by rewrite length_seqZ. Qed.

(** Changes that keep the links keep the ring. *)
Lemma ring_ext s s' L :
  ring s L → (∀ i, next (bufs s' i) = next (bufs s i)) → (∀ i, prev (bufs s' i) = prev (bufs s i)) →
  ring s' L.
Proof. intros [HL Hp] Hn Hv. split; [done|]. by apply (path_ext _ _ _ _ _ _ _ Hp). Qed.

(** ** The two searches *)

Lemma find_cached_run s dev blk a L fuel :
  path (λ i, next (bufs s i)) (λ i, prev (bufs s i)) a L HEAD → HEAD ∉ L → (length L < fuel)%nat →
  find_cached fuel dev blk (next (bufs s a)) s =
    Done (find (λ i, (bdev (bufs s i) =? dev) && (blockno (bufs s i) =? blk)) L) s [].
Proof.
  revert a fuel. induction L as [|b L IH]; intros a fuel Hp HH Hf;
    (destruct fuel as [|fuel]; [lia|]); simpl in Hp, Hf; cbn [find_cached find].
  - destruct Hp as [-> _]. by rewrite Z.eqb_refl.
  - destruct Hp as (-> & _ & Hp). assert (b ≠ HEAD) by set_solver. if_false.
    unfold mbind, M_bind. simpl. case_if; [done|]. rewrite IH; [done|done|set_solver|lia].
Qed.

Lemma find_unused_run s L e fuel :
  path (λ i, next (bufs s i)) (λ i, prev (bufs s i)) HEAD L e → HEAD ∉ L → (length L < fuel)%nat →
  find_unused fuel (prev (bufs s e)) s = Done (find (λ i, refcnt (bufs s i) =? 0) (reverse L)) s [].
Proof.
  revert e fuel. induction L as [|b L IH] using rev_ind; intros e fuel Hp HH Hf;
    (destruct fuel as [|fuel]; [lia|]); cbn [find_unused].
  - destruct Hp as [_ ->]. by rewrite Z.eqb_refl.
  - rewrite length_app in Hf. simpl in Hf.
    apply path_app in Hp as [Hp Hb]. simpl in Hb. destruct Hb as [_ ->].
    rewrite reverse_app. simpl. assert (b ≠ HEAD) by set_solver. if_false.
    unfold mbind, M_bind. simpl. case_if; [done|]. rewrite IH; [done|done|set_solver|lia].
Qed.

(** ** The invariant *)

Record buf_ok (s : bst) (b : buf) : Prop := {
  bk_data : is_block (data b);
  bk_refcnt : 0 ≤ refcnt b < 2 ^ 32;
  bk_lock : truthy (locked (block_lock b)) = true → pid (block_lock b) = me s ∧ 0 < refcnt b;
  bk_name : bdev b = ROOTDEV → 0 ≤ blockno b < 2 ^ 31 ∧ truthy (valid b) = true;
  bk_used : bdev b ≠ ROOTDEV → refcnt b = 0;
  bk_clean : bdev b = ROOTDEV → refcnt b = 0 → data b = dsk s (blockno b)
}.

Record cache_ok (s : bst) : Prop := {
  ck_ring : ∃ L, ring s L;
  ck_disk b : is_block (dsk s b);
  ck_buf i : 0 ≤ i < NBUF → buf_ok s (bufs s i);
  ck_unique i j : 0 ≤ i < NBUF → 0 ≤ j < NBUF → bdev (bufs s i) = ROOTDEV →
    bdev (bufs s j) = ROOTDEV → blockno (bufs s i) = blockno (bufs s j) → i = j
}.

Lemma find_named s dev b L i :
  find (λ i, (bdev (bufs s i) =? dev) && (blockno (bufs s i) =? b)) L = Some i →
  i ∈ L ∧ bdev (bufs s i) = dev ∧ blockno (bufs s i) = b.
Proof. intros [Hin H]%find_some. apply list_elem_of_In in Hin. bool_prop. done. Qed.

Lemma find_unnamed s dev b L i :
  find (λ i, (bdev (bufs s i) =? dev) && (blockno (bufs s i) =? b)) L = None →
  i ∈ L → bdev (bufs s i) = dev → blockno (bufs s i) ≠ b.
Proof.
  intros H Hi Hd Hb. eapply find_none in H; [|apply list_elem_of_In, Hi]. rewrite Hd, Hb, !Z.eqb_refl in H. done.
Qed.

Lemma cached_Some s b i :
  cache_ok s → cached s b = Some i ↔ 0 ≤ i < NBUF ∧ bdev (bufs s i) = ROOTDEV ∧ blockno (bufs s i) = b.
Proof.
  intros Hok. unfold cached. split.
  - intros (Hin & Hd & Hb)%find_named. apply bufids_in in Hin. done.
  - intros (Hi & Hd & Hb). destruct (find _ bufids) as [j|] eqn:Hf.
    + apply find_named in Hf as (Hj & Hd' & Hb'). apply bufids_in in Hj. f_equal.
      apply (ck_unique s Hok); congruence.
    + eapply (find_unnamed _ _ _ _ i) in Hf; [done|by apply bufids_in|done].
Qed.

Lemma cached_None s b i : cached s b = None → 0 ≤ i < NBUF → bdev (bufs s i) = ROOTDEV → blockno (bufs s i) ≠ b.
Proof. intros Hf Hi. by eapply find_unnamed, bufids_in. Qed.

(** The code's search finds the buffer of a block. *)
Lemma find_cached_ring s L b :
  cache_ok s → ring s L →
  find (λ i, (bdev (bufs s i) =? ROOTDEV) && (blockno (bufs s i) =? b)) L = cached s b.
Proof.
  intros Hok HL. destruct (find _ L) as [i|] eqn:Hf; symmetry.
  - apply find_named in Hf as (Hi & Hd & Hb). apply cached_Some; [done|]. by apply (ring_in s L) in Hi.
  - destruct (cached s b) as [i|] eqn:Hc; [|done]. apply cached_Some in Hc as (Hi & Hd & Hb); [|done].
    eapply (find_unnamed _ _ _ _ i) in Hf; [done|by apply (ring_in s L)|done].
Qed.

Lemma locked_cached s h b :
  cache_ok s → bio_locked_by s h = Some b →
  cached s b = Some h ∧ truthy (locked (block_lock (bufs s h))) = true ∧
  pid (block_lock (bufs s h)) = me s ∧ 0 ≤ h < NBUF ∧ 0 < refcnt (bufs s h).
Proof.
  intros Hok. unfold bio_locked_by. destruct (_ && _) eqn:E; [|done]. intros [= <-]. bool_prop.
  assert (0 ≤ h < NBUF) as Hh by lia. destruct (ck_buf s Hok h Hh) as [_ _ Hl _ Hu _].
  destruct Hl as [Hp Hr]; [done|]. split_and!; try done; try lia. apply cached_Some; [done|].
  split_and!; [lia..| |done]. destruct (decide (bdev (bufs s h) = ROOTDEV)) as [|Hne]; [done|].
  specialize (Hu Hne). lia.
Qed.

(** ** Changing one buffer *)

(** [s'] is [s] with buffer [h] replaced by [x] and the disk by [d]. *)
Record replaced (s s' : bst) (h : Z) (x : buf) (d : disk) : Prop := {
  rp_me : me s' = me s;
  rp_bufs j : bufs s' j = upd (bufs s) h x j;
  rp_disk b : dsk s' b = d b
}.

(** What the process holds of a buffer. *)
Definition held (s : bst) (x : buf) : option Z :=
  if truthy (locked (block_lock x)) && (pid (block_lock x) =? me s) then Some (blockno x) else None.

Lemma locked_by_held s h : 0 ≤ h < NBUF → bio_locked_by s h = held s (bufs s h).
Proof.
  intros Hh. unfold bio_locked_by, held. rewrite (proj2 (Z.leb_le 0 h)), (proj2 (Z.ltb_lt h NBUF)) by lia. done.
Qed.

Section replace.
  Context (s s' : bst) (h : Z) (x : buf) (d : disk).
  Context (Hok : cache_ok s) (Hrep : replaced s s' h x d) (Hh : 0 ≤ h < NBUF).
  Context (Hdev : bdev x = ROOTDEV) (Hfree : cached s (blockno x) = Some h ∨
    (cached s (blockno x) = None ∧ refcnt (bufs s h) = 0)).
  Context (Hd : ∀ b, b ≠ blockno x → d b = dsk s b).

Lemma replaced_other i :
  0 ≤ i < NBUF → i ≠ h → bdev (bufs s i) = ROOTDEV → blockno (bufs s i) ≠ blockno x.
Proof.
  intros Hi Hne Hr Hb. assert (cached s (blockno x) = Some i) as Hc by (by apply cached_Some).
  destruct Hfree as [Hf|[Hf _]]; congruence.
Qed.

Lemma replaced_ok L :
  ring s L → next x = next (bufs s h) → prev x = prev (bufs s h) →
  buf_ok s' x → (∀ b, is_block (d b)) → cache_ok s'.
Proof.
  intros HL Hn Hp Hx Hblk. destruct Hrep as [Hme Hb Hdk]. split.
  - exists L. apply (ring_ext s); [done| |]; intros i; rewrite Hb; unfold upd; case_decide; subst; done.
  - intros b. rewrite Hdk. done.
  - intros i Hi. rewrite Hb. unfold upd. case_decide as Hih; [done|].
    destruct (ck_buf s Hok i Hi) as [K1 K2 K3 K4 K5 K6].
    split; rewrite ?Hme; try done. intros Hr H0. rewrite Hdk, Hd by (by apply replaced_other).
    by apply K6.
  - intros i j Hi Hj. rewrite !Hb. unfold upd. repeat case_decide; subst; try done.
    + intros _ Hr E. symmetry in E. by apply replaced_other in E.
    + intros Hr _ E. by apply replaced_other in E.
    + by apply (ck_unique s Hok).
Qed.

Lemma replaced_cached b :
  cache_ok s' → cached s' b = if decide (b = blockno x) then Some h
    else if decide (cached s b = Some h) then None else cached s b.
Proof.
  intros Hok'. pose proof (rp_bufs _ _ _ _ _ Hrep) as Hb.
  case_decide as Hbx; [|case_decide as Hc].
  - apply cached_Some; [done|]. rewrite Hb, upd_eq. done.
  - destruct (cached s' b) as [i|] eqn:Hi; [|done]. apply cached_Some in Hi as (Hi & Hr & Hn); [|done].
    rewrite Hb in Hr, Hn. unfold upd in Hr, Hn. case_decide as Hih; [congruence|].
    assert (cached s b = Some i) by (by apply cached_Some). congruence.
  - destruct (cached s b) as [i|] eqn:Hi.
    + apply cached_Some in Hi as (Hi & Hr & Hn); [|done]. apply cached_Some; [done|].
      rewrite Hb, upd_ne by congruence. done.
    + destruct (cached s' b) as [j|] eqn:Hj; [|done]. apply cached_Some in Hj as (Hj & Hr & Hn); [|done].
      rewrite Hb in Hr, Hn. unfold upd in Hr, Hn. case_decide as Hih; [congruence|].
      by apply (cached_None s b j) in Hr.
Qed.

(** A block that loses its buffer had an unused one. *)
Lemma replaced_lost b :
  b ≠ blockno x → cached s b = Some h → refcnt (bufs s h) = 0 ∧ data (bufs s h) = dsk s b.
Proof.
  intros Hne Hc. pose proof Hc as (_ & Hr & Hb)%cached_Some; [|done].
  destruct Hfree as [Hf|[Hf H0]].
  - apply cached_Some in Hf as (_ & _ & Hf); [|done]. congruence.
  - split; [done|]. rewrite <-Hb. by apply (ck_buf s Hok h Hh).
Qed.

Lemma replaced_changes :
  cache_ok s' →
  changes s s' d (upd (content s) (blockno x) (data x)) (upd (refs s) (blockno x) (refcnt x))
    (upd (locked_by s) h (held s x)).
Proof.
  intros Hok'. pose proof Hrep as [Hme Hb Hdk]. split.
  - apply Hdk.
  - intros b. simpl. unfold bio_content. rewrite (replaced_cached b Hok').
    unfold upd at 1. case_decide as Hbx; [by rewrite Hb, upd_eq|]. unfold bio_content.
    case_decide as Hc; [rewrite Hc, Hdk, Hd by done; by apply replaced_lost in Hc as [_ ->]|].
    destruct (cached s b) as [i|]; [by rewrite Hb, upd_ne by congruence|]. by rewrite Hdk, Hd.
  - intros b. simpl. unfold bio_refs. rewrite (replaced_cached b Hok').
    unfold upd at 1. case_decide as Hbx; [by rewrite Hb, upd_eq|]. unfold bio_refs.
    case_decide as Hc; [rewrite Hc; by apply replaced_lost in Hc as [-> _]|].
    destruct (cached s b) as [i|]; [by rewrite Hb, upd_ne by congruence|]. done.
  - intros j. simpl. unfold upd. case_decide as Hj.
    + subst j. rewrite locked_by_held, Hb, upd_eq by done. unfold held. by rewrite Hme.
    + unfold bio_locked_by. by rewrite Hb, upd_ne, Hme.
Qed.
End replace.

Lemma changes_ext (s s' : bst) d c r l d' c' r' l' :
  changes s s' d c r l → (∀ b, d' b = d b) → (∀ b, c' b = c b) → (∀ b, r' b = r b) →
  (∀ h, l' h = l h) → changes s s' d' c' r' l'.
Proof.
  intros [E1 E2 E3 E4] F1 F2 F3 F4. split; intros; rewrite ?F1, ?F2, ?F3, ?F4; done.
Qed.

Lemma upd_id {A} (f : Z → A) k v b : v = f k → upd f k v b = f b.
Proof. intros ->. unfold upd. case_decide; congruence. Qed.

(** ** The operations on a locked buffer *)

(** The buffer of a handle. *)
Record handle (s : bst) (h b : Z) : Prop := {
  hn_range : 0 ≤ h < NBUF;
  hn_cached : cached s b = Some h;
  hn_dev : bdev (bufs s h) = ROOTDEV;
  hn_blockno : blockno (bufs s h) = b;
  hn_locked : truthy (locked (block_lock (bufs s h))) = true;
  hn_pid : pid (block_lock (bufs s h)) = me s;
  hn_pos : 0 < refcnt (bufs s h)
}.

Lemma handle_intro s h b : cache_ok s → bio_locked_by s h = Some b → handle s h b.
Proof.
  intros Hok Hl. apply locked_cached in Hl as (Hc & H1 & H2 & H3 & H4); [|done].
  pose proof Hc as (_ & H5 & H6)%cached_Some; [|done]. by split.
Qed.

Lemma handle_held s h b x :
  handle s h b → block_lock x = block_lock (bufs s h) → blockno x = b → held s x = bio_locked_by s h.
Proof.
  intros [H1 H2 H3 H4 H5 H6 _] E1 E2. rewrite locked_by_held by done. unfold held. by rewrite E1, E2, H4.
Qed.

(** Replacing the buffer of a handle by one of the same name, links and lock. *)
Lemma replace_held s s' h b x d :
  cache_ok s → handle s h b → replaced s s' h x d →
  bdev x = ROOTDEV → blockno x = b → block_lock x = block_lock (bufs s h) →
  next x = next (bufs s h) → prev x = prev (bufs s h) → truthy (valid x) = true →
  is_block (data x) → 0 < refcnt x < 2 ^ 32 → (∀ b', b' ≠ b → d b' = dsk s b') → is_block (d b) →
  cache_ok s' ∧ changes s s' d (upd (content s) b (data x)) (upd (refs s) b (refcnt x)) (locked_by s).
Proof.
  intros Hok Hhn Hrep Hdev Hb Hl Hn Hp Hv Hx Hr Hd Hblk. pose proof Hhn as [H1 H2 H3 H4 H5 H6 H7].
  destruct (ck_ring s Hok) as [L HL]. subst b.
  assert (cache_ok s') as Hok'.
  { eapply (replaced_ok s s' h x d); try done; [by left| |].
    - split; try done; try lia.
      + intros _. rewrite Hl, H6. split; [by rewrite (rp_me _ _ _ _ _ Hrep)|lia].
      + intros _. split; [|done]. rewrite <-H4. by apply (ck_buf s Hok h).
    - intros b'. destruct (decide (b' = blockno x)) as [->|Hne]; [done|]. rewrite Hd by done. apply Hok. }
  split; [done|].
  eapply changes_ext; [apply (replaced_changes s s' h x d); try done; by left|done..|].
  intros h'. simpl. rewrite upd_id; [done|]. by eapply handle_held.
Qed.

Lemma handle_refs s h b : handle s h b → bio_refs s b = refcnt (bufs s h).
Proof. intros Hhn. unfold bio_refs. by rewrite (hn_cached s h b). Qed.
Lemma handle_content s h b : handle s h b → bio_content s b = data (bufs s h).
Proof. intros Hhn. unfold bio_content. by rewrite (hn_cached s h b). Qed.

(** Changing the reference count. *)
Lemma replace_refcnt s h b n :
  cache_ok s → handle s h b → 0 < n < 2 ^ 32 →
  let s' := Bst (me s) (upd (bufs s) h (set_refcnt n (bufs s h))) (dsk s) in
  cache_ok s' ∧ changes s s' (dsk s) (bio_content s) (upd (bio_refs s) b n) (bio_locked_by s).
Proof.
  intros Hok Hhn Hn s'. pose proof Hhn as [H1 H2 H3 H4 H5 H6 H7].
  destruct (ck_buf s Hok h H1) as [K1 K2 K3 K4 K5 K6]. destruct (K4 H3) as [K7 K8].
  destruct (replace_held s s' h b (set_refcnt n (bufs s h)) (dsk s)) as [Hok' Hch]; try done; [apply Hok|].
  split; [done|]. eapply changes_ext; [exact Hch|done| |done|done].
  intros b'. rewrite upd_id; [done|]. simpl. by rewrite (handle_content s h b).
Qed.

Lemma bio_bpin s h b :
  cache_ok s → bio_locked_by s h = Some b → bio_refs s b + 1 < 2 ^ 32 →
  returns (bpin h) s (λ _ s' t, cache_ok s' ∧
    changes s s' (dsk s) (bio_content s) (upd (bio_refs s) b (bio_refs s b + 1)) (bio_locked_by s) ∧
    writes t = []).
Proof.
  intros Hok Hl Hr. pose proof (handle_intro s h b Hok Hl) as Hhn. pose proof (hn_pos s h b Hhn).
  rewrite (handle_refs s h b) in Hr |- * by done.
  unfold returns, bpin, mbind, M_bind. simpl. rewrite u32_small by lia.
  destruct (replace_refcnt s h b (refcnt (bufs s h) + 1)); try done; lia.
Qed.

Lemma bio_bunpin s h b :
  cache_ok s → bio_locked_by s h = Some b → 1 < bio_refs s b →
  returns (bunpin h) s (λ _ s' t, cache_ok s' ∧
    changes s s' (dsk s) (bio_content s) (upd (bio_refs s) b (bio_refs s b - 1)) (bio_locked_by s) ∧
    writes t = []).
Proof.
  intros Hok Hl Hr. pose proof (handle_intro s h b Hok Hl) as Hhn.
  rewrite (handle_refs s h b) in Hr |- * by done.
  pose proof (bk_refcnt _ _ (ck_buf s Hok h (hn_range s h b Hhn))).
  unfold returns, bunpin, mbind, M_bind. simpl. rewrite u32_small by lia.
  destruct (replace_refcnt s h b (refcnt (bufs s h) - 1)); try done; lia.
Qed.

Lemma bio_wdata s h b x :
  cache_ok s → bio_locked_by s h = Some b → is_block x →
  returns (with_buf h (set_data x)) s (λ _ s' t, cache_ok s' ∧
    changes s s' (dsk s) (upd (bio_content s) b x) (bio_refs s) (bio_locked_by s) ∧ writes t = []).
Proof.
  intros Hok Hl Hx. pose proof (handle_intro s h b Hok Hl) as Hhn. pose proof Hhn as [H1 H2 H3 H4 H5 H6 H7].
  destruct (ck_buf s Hok h H1) as [K1 K2 K3 K4 K5 K6]. destruct (K4 H3) as [K7 K8].
  destruct (replace_held s (Bst (me s) (upd (bufs s) h (set_data x (bufs s h))) (dsk s)) h b
    (set_data x (bufs s h)) (dsk s)) as [Hok' Hch]; try done; [simpl; lia|apply Hok|].
  unfold returns. simpl. split_and!; [done| |done]. eapply changes_ext; [exact Hch|done|done| |done].
  intros b'. rewrite upd_id; [done|]. simpl. by rewrite (handle_refs s h b).
Qed.

(** The sector number of a block below [2^31] does not wrap around. *)
Lemma sector_block b : 0 ≤ b < 2 ^ 31 → u32 (b * (BSIZE / 512)) / (BSIZE / 512) = b.
Proof.
  intros Hb. change (BSIZE / 512) with 2. rewrite u32_small by lia. apply Z.div_mul. lia.
Qed.

Lemma holdingsleep_run s h b :
  handle s h b → ∃ t, zoom (lock_of h) (holdingsleep h (me s)) s =
    Done true (Bst (me s) (upd (bufs s) h (set_block_lock (block_lock (bufs s h)) (bufs s h))) (dsk s)) t ∧
    writes t = [].
Proof.
  intros [H1 H2 H3 H4 H5 H6 H7]. eexists. unfold zoom, holdingsleep, mbind, M_bind. simpl.
  rewrite H5, H6, Z.eqb_refl. done.
Qed.

Lemma set_block_lock_id x : set_block_lock (block_lock x) x = x.
Proof. by destruct x. Qed.

Lemma bio_bwrite s h b :
  cache_ok s → bio_locked_by s h = Some b →
  returns (bwrite h) s (λ _ s' t, cache_ok s' ∧
    changes s s' (upd (dsk s) b (bio_content s b)) (bio_content s) (bio_refs s) (bio_locked_by s) ∧
    writes t = [(b, bio_content s b)]).
Proof.
  intros Hok Hl. pose proof (handle_intro s h b Hok Hl) as Hhn. pose proof Hhn as [H1 H2 H3 H4 H5 H6 H7].
  destruct (ck_buf s Hok h H1) as [K1 K2 K3 K4 K5 K6]. destruct (K4 H3) as [K7 K8].
  rewrite (handle_content s h b) by done.
  destruct (holdingsleep_run s h b Hhn) as (t & Hrun & Ht).
  unfold bwrite. call reflexivity. call (exact Hrun). cbn [negb].
  unfold returns, disk_rw, mbind, M_bind. simpl.
  rewrite upd_eq, set_block_lock_id, H4, sector_block by (by rewrite <-H4). simpl.
  destruct (replace_held s (Bst (me s) (upd (bufs s) h (bufs s h)) (upd (dsk s) b (data (bufs s h)))) h b
    (bufs s h) (upd (dsk s) b (data (bufs s h)))) as [Hok' Hch]; try done; try lia.
  - intros b' Hne. by apply upd_ne.
  - by rewrite upd_eq.
  - split_and!; [done| |by rewrite writes_app, Ht].
    eapply changes_ext; [exact Hch|done| | |done]; intros b'; rewrite upd_id; try done; simpl.
    + by rewrite (handle_content s h b).
    + by rewrite (handle_refs s h b).
Qed.

(** ** Releasing a buffer *)

(** [s'] differs from [s] in the links only. *)
Record relinked (s s' : bst) : Prop := {
  rl_me : me s' = me s;
  rl_disk : dsk s' = dsk s;
  rl_buf i : set_prev 0 (set_next 0 (bufs s' i)) = set_prev 0 (set_next 0 (bufs s i))
}.

Lemma relinked_fields s s' i :
  relinked s s' → bdev (bufs s' i) = bdev (bufs s i) ∧ blockno (bufs s' i) = blockno (bufs s i) ∧
  valid (bufs s' i) = valid (bufs s i) ∧ block_lock (bufs s' i) = block_lock (bufs s i) ∧
  refcnt (bufs s' i) = refcnt (bufs s i) ∧ data (bufs s' i) = data (bufs s i).
Proof. intros [_ _ H]. specialize (H i). unfold set_prev, set_next in H. simpl in H. by injection H. Qed.

Lemma relinked_ok s s' L : relinked s s' → cache_ok s → ring s' L → cache_ok s'.
Proof.
  intros Hl Hok HL. split.
  - by exists L.
  - intros b. rewrite (rl_disk s s' Hl). apply Hok.
  - intros i Hi. destruct (ck_buf s Hok i Hi) as [K1 K2 K3 K4 K5 K6].
    destruct (relinked_fields s s' i Hl) as (E1 & E2 & E3 & E4 & E5 & E6).
    split; rewrite ?E1, ?E2, ?E3, ?E4, ?E5, ?E6, ?(rl_me s s' Hl), ?(rl_disk s s' Hl); done.
  - intros i j Hi Hj. destruct (relinked_fields s s' i Hl) as (-> & -> & _).
    destruct (relinked_fields s s' j Hl) as (-> & -> & _). by apply Hok.
Qed.

Lemma find_ext_in {A} (f g : A → bool) (l : list A) : (∀ i, f i = g i) → find f l = find g l.
Proof. intros H. induction l as [|a l IH]; simpl; [done|]. by rewrite H, IH. Qed.

Lemma relinked_changes s s1 s2 d c r l :
  relinked s1 s2 → changes s s1 d c r l → changes s s2 d c r l.
Proof.
  intros Hl [E1 E2 E3 E4].
  assert (∀ b, cached s2 b = cached s1 b) as Hc.
  { intros b. apply find_ext_in. intros i. by destruct (relinked_fields s1 s2 i Hl) as (-> & -> & _). }
  split.
  - intros b. rewrite <-E1. simpl. by rewrite (rl_disk s1 s2 Hl).
  - intros b. rewrite <-E2. simpl. unfold bio_content. rewrite Hc, (rl_disk s1 s2 Hl).
    destruct (cached s1 b) as [i|]; [|done]. by destruct (relinked_fields s1 s2 i Hl) as (_ & _ & _ & _ & _ & ->).
  - intros b. rewrite <-E3. simpl. unfold bio_refs. rewrite Hc.
    destruct (cached s1 b) as [i|]; [|done]. by destruct (relinked_fields s1 s2 i Hl) as (_ & _ & _ & _ & -> & _).
  - intros h. rewrite <-E4. simpl. unfold bio_locked_by.
    destruct (relinked_fields s1 s2 h Hl) as (_ & -> & _ & -> & _). by rewrite (rl_me s1 s2 Hl).
Qed.

Definition nxt (s : bst) (i : Z) : Z := next (bufs s i).
Definition prv (s : bst) (i : Z) : Z := prev (bufs s i).
Definition setn (i v : Z) (s : bst) : bst := Bst (me s) (upd (bufs s) i (set_next v (bufs s i))) (dsk s).
Definition setp (i v : Z) (s : bst) : bst := Bst (me s) (upd (bufs s) i (set_prev v (bufs s i))) (dsk s).

(** The six assignments of [brelse]. *)
Definition move_front (h : Z) (s : bst) : bst :=
  let s := setp (nxt s h) (prv s h) s in
  let s := setn (prv s h) (nxt s h) s in
  let s := setn h (nxt s HEAD) s in
  let s := setp h HEAD s in
  let s := setp (nxt s HEAD) h s in
  setn HEAD h s.

Lemma nxt_setn i v s j : nxt (setn i v s) j = upd (nxt s) i v j.
Proof. unfold nxt, setn, upd. simpl. by case_decide. Qed.
Lemma nxt_setp i v s j : nxt (setp i v s) j = nxt s j.
Proof. unfold nxt, setp, upd. simpl. case_decide; by subst. Qed.
Lemma prv_setp i v s j : prv (setp i v s) j = upd (prv s) i v j.
Proof. unfold prv, setp, upd. simpl. by case_decide. Qed.
Lemma prv_setn i v s j : prv (setn i v s) j = prv s j.
Proof. unfold prv, setn, upd. simpl. case_decide; by subst. Qed.

Lemma relinked_refl s : relinked s s.
Proof. done. Qed.
Lemma relinked_setn s s' i v : relinked s s' → relinked s (setn i v s').
Proof.
  intros [H1 H2 H3]. split; [done|done|]. intros j. rewrite <-H3. unfold setn, upd. simpl.
  case_decide; by subst.
Qed.
Lemma relinked_setp s s' i v : relinked s s' → relinked s (setp i v s').
Proof.
  intros [H1 H2 H3]. split; [done|done|]. intros j. rewrite <-H3. unfold setp, upd. simpl.
  case_decide; by subst.
Qed.

Lemma move_front_relinked h s : relinked s (move_front h s).
Proof. unfold move_front. repeat first [apply relinked_setn|apply relinked_setp]. apply relinked_refl. Qed.

(** [brelse] moves the buffer to the front of the list. *)
Lemma move_front_ring h s L1 L2 : ring s (L1 ++ h :: L2) → ring (move_front h s) (h :: L1 ++ L2).
Proof.
  intros HL. pose proof (ring_nodup s _ HL) as Hnd. destruct HL as [HL Hp]. split.
  { rewrite <-HL. apply Permutation_middle. }
  pose proof (proj1 (path_app _ _ _ _ _ _ _) Hp) as [_ Hp2]. apply path_next_in in Hp2.
  pose proof Hnd as [HH Hnd2]%NoDup_cons.
  pose proof Hnd2 as (_ & _ & [Hh _]%NoDup_cons)%NoDup_app.
  assert (h ≠ HEAD) as HhH by (intros ->; apply HH, elem_of_app; right; by left).
  change (next (bufs s h)) with (nxt s h) in Hp2.
  assert (nxt s h ≠ h) as Hnh.
  { intros E. rewrite E in Hp2. by apply elem_of_app in Hp2 as [?|?%list_elem_of_singleton]. }
  pose proof (path_unlink (nxt s) (prv s) HEAD L1 h L2 HEAD Hp Hnd Hnd) as Hu.
  set (s2 := setn (prv s h) (nxt s h) (setp (nxt s h) (prv s h) s)).
  assert (path (nxt s2) (prv s2) HEAD (L1 ++ L2) HEAD) as Hu2.
  { eapply path_ext; [exact Hu| |]; intros i _; unfold s2.
    - rewrite nxt_setn. unfold upd. case_decide; [done|]. apply nxt_setp.
    - by rewrite prv_setn, prv_setp. }
  assert (NoDup (HEAD :: L1 ++ L2)) as Hnd3.
  { eapply sublist_NoDup; [exact Hnd|]. apply sublist_skip, sublist_app; [done|]. by apply sublist_cons. }
  assert (h ∉ L1 ++ L2) as HhL.
  { apply NoDup_app in Hnd2 as (_ & Hd & _). intros [Hin|Hin]%elem_of_app; [|done].
    apply (Hd h Hin). by left. }
  pose proof (path_push (nxt s2) (prv s2) HEAD (L1 ++ L2) HEAD h Hu2 Hnd3 Hnd3 HhH HhH HhL) as Hfin.
  assert (prv (setp (nxt s h) (prv s h) s) h = prv s h) as E1 by (rewrite prv_setp; by apply upd_ne).
  assert (nxt (setp (nxt s h) (prv s h) s) h = nxt s h) as E2 by apply nxt_setp.
  assert (nxt (setp h HEAD (setn h (nxt s2 HEAD) s2)) HEAD = nxt s2 HEAD) as E3.
  { rewrite nxt_setp, nxt_setn. by apply upd_ne. }
  unfold move_front. rewrite E1, E2. fold s2. cbv zeta. rewrite E3.
  eapply path_ext; [exact Hfin| |]; intros i _.
  - etrans; [apply nxt_setn|]. apply upd_ext; [|done]. intros j.
    rewrite nxt_setp, nxt_setp. apply nxt_setn.
  - etrans; [apply prv_setn|]. rewrite prv_setp. apply upd_ext; [|done]. intros j.
    rewrite prv_setp. apply upd_ext; [|done]. intros k. apply prv_setn.
Qed.

(** The buffer after [releasesleep] and [b->refcnt--]. *)
Definition released (x : buf) : buf := set_refcnt (u32 (refcnt x - 1)) (set_block_lock (Sleeplock 0 0) x).

Lemma brelse_run s h b :
  handle s h b → ∃ s1 t, replaced s s1 h (released (bufs s h)) (dsk s) ∧ writes t = [] ∧
  brelse h s = Done tt (if u32 (refcnt (bufs s h) - 1) =? 0 then move_front h s1 else s1) t.
Proof.
  intros Hhn. pose proof Hhn as [H1 H2 H3 H4 H5 H6 H7].
  destruct (holdingsleep_run s h b Hhn) as (t & Hrun & Ht).
  set (s0 := Bst (me s) (upd (bufs s) h (set_block_lock (block_lock (bufs s h)) (bufs s h))) (dsk s)) in Hrun.
  set (s1 := Bst (me s0) (upd (bufs s0) h (set_block_lock (Sleeplock 0 0) (bufs s0 h))) (dsk s0)).
  set (s2 := Bst (me s1) (upd (bufs s1) h (set_refcnt (u32 (refcnt (bufs s1 h) - 1)) (bufs s1 h))) (dsk s1)).
  assert (refcnt (bufs s1 h) = refcnt (bufs s h)) as E by (simpl; by rewrite !upd_eq). rewrite <-E.
  eexists s2, _. split_and!; last first.
  - unfold brelse. etrans; [apply bind_done; reflexivity|]. rewrite after_nil.
    etrans; [apply bind_done, Hrun|]. cbn [negb].
    etrans; [apply f_equal; apply (bind_done _ _ s0 tt s1); reflexivity|].
    etrans; [apply f_equal, f_equal; apply bind_done; reflexivity|].
    etrans; [apply f_equal, f_equal, f_equal; apply bind_done; reflexivity|].
    etrans; [apply f_equal, f_equal, f_equal, f_equal; apply (bind_done _ _ s1 tt s2 []); reflexivity|].
    cbv beta. rewrite (bind_done _ _ s2 tt (if u32 (refcnt (bufs s1 h) - 1) =? 0 then move_front h s2 else s2) []);
      [|by case_if]. cbn. reflexivity.
  - simpl. rewrite !writes_app, Ht. done.
  - split; [done| |done]. intros j. simpl. unfold upd. case_decide; [|done]. subst.
    rewrite !decide_True by done. unfold released. by destruct (bufs s h).
Qed.

Lemma bio_brelse s h b :
  cache_ok s → bio_locked_by s h = Some b → 1 < bio_refs s b ∨ bio_content s b = dsk s b →
  returns (brelse h) s (λ _ s' t, cache_ok s' ∧
    changes s s' (dsk s) (bio_content s) (upd (bio_refs s) b (bio_refs s b - 1))
      (upd (bio_locked_by s) h None) ∧ writes t = []).
Proof.
  intros Hok Hl Hlast. pose proof (handle_intro s h b Hok Hl) as Hhn. pose proof Hhn as [H1 H2 H3 H4 H5 H6 H7].
  rewrite (handle_refs s h b), (handle_content s h b) in Hlast by done.
  rewrite (handle_refs s h b) by done.
  destruct (ck_ring s Hok) as [L HL].
  destruct (ck_buf s Hok h H1) as [K1 K2 K3 K4 K5 K6]. destruct (K4 H3) as [K7 K8].
  destruct (brelse_run s h b Hhn) as (s1 & t & Hrep & Ht & Hrun).
  assert (cached s (blockno (released (bufs s h))) = Some h) as Hc by (simpl; by rewrite H4).
  assert (cache_ok s1) as Hok1.
  { eapply (replaced_ok s s1 h (released (bufs s h)) (dsk s)); try done; [by left| |apply Hok].
    split; simpl; rewrite ?u32_small by lia; try done; [lia|].
    intros _ H0. rewrite (rp_disk _ _ _ _ _ Hrep), H4. destruct Hlast; [lia|done]. }
  assert (changes s s1 (dsk s) (bio_content s) (upd (bio_refs s) b (refcnt (bufs s h) - 1))
    (upd (bio_locked_by s) h None)) as Hch.
  { eapply changes_ext; [eapply (replaced_changes s s1 h (released (bufs s h)) (dsk s)); try done; by left|done| | |done].
    - intros b'. rewrite upd_id; [done|]. simpl. by rewrite H4, (handle_content s h b).
    - intros b'. simpl. rewrite u32_small, H4 by lia. done. }
  eapply returns_done; [exact Hrun|]. split_and!; [| |done]; case_if; try done.
  - assert (h ∈ L) as (L1 & L2 & ->)%list_elem_of_split by (by apply (ring_in s L)).
    eapply (relinked_ok s1); [apply move_front_relinked|done|]. apply (move_front_ring _ _ L1 L2).
    apply (ring_ext s); [done| |]; intros i; rewrite (rp_bufs _ _ _ _ _ Hrep); unfold upd; case_decide; by subst.
  - eapply relinked_changes; [apply move_front_relinked|done].
Qed.

(** ** Taking a buffer *)

(** The state after [acquiresleep] succeeded on buffer [i]. *)
Lemma acquire_buf s i p :
  truthy (locked (block_lock (bufs s i))) = false →
  zoom (lock_of i) (acquiresleep i p) s =
    Done tt (Bst (me s) (upd (bufs s) i (set_block_lock (Sleeplock 1 p) (bufs s i))) (dsk s))
      [EvAcquire (LkSleep i); EvRelease (LkSleep i)].
Proof. intros Hl. unfold zoom. simpl. by rewrite acquiresleep_free. Qed.

(** A buffer that no process has in use, if the blocks in use leave one. *)
Lemma unused_buffer s L K :
  cache_ok s → ring s L → (∀ b, 0 < bio_refs s b → b ∈ K) → Z.of_nat (length K) < NBUF →
  ∃ i, find (λ i, refcnt (bufs s i) =? 0) (reverse L) = Some i ∧ 0 ≤ i < NBUF ∧ refcnt (bufs s i) = 0.
Proof.
  intros Hok HL HK Hlen. destruct (find _ (reverse L)) as [i|] eqn:Hf.
  - apply find_some in Hf as [Hin Hr]. exists i. apply list_elem_of_In in Hin.
    rewrite elem_of_reverse, (ring_in s L) in Hin by done. by apply Z.eqb_eq in Hr.
  - exfalso. assert (∀ i, 0 ≤ i < NBUF → 0 < refcnt (bufs s i) ∧ bdev (bufs s i) = ROOTDEV) as Hall.
    { intros i Hi. eapply find_none in Hf; [|apply list_elem_of_In, elem_of_reverse, (ring_in s L i HL), Hi].
      apply Z.eqb_neq in Hf. destruct (ck_buf s Hok i Hi) as [_ K2 _ _ K5 _]. split; [lia|].
      destruct (decide (bdev (bufs s i) = ROOTDEV)) as [|Hne]; [done|]. by apply K5 in Hne. }
    assert ((λ i, blockno (bufs s i)) <$> bufids ⊆+ K) as Hsub%submseteq_length.
    { apply NoDup_submseteq.
      - apply NoDup_fmap_2_strong; [|apply NoDup_seqZ]. intros i j Hi Hj E.
        apply bufids_in in Hi, Hj. apply (ck_unique s Hok); try done; by apply Hall.
      - intros b (i & -> & Hi%bufids_in)%list_elem_of_fmap. apply HK.
        destruct (Hall i Hi) as [Hr Hd]. unfold bio_refs.
        by rewrite (proj2 (cached_Some s (blockno (bufs s i)) i Hok)). }
    rewrite length_fmap in Hsub. unfold bufids in Hsub. rewrite length_seqZ in Hsub. lia.
Qed.

Lemma bget_search s L b :
  cache_ok s → ring s L → find_cached scan_fuel ROOTDEV b (next (bufs s HEAD)) s = Done (cached s b) s [].
Proof.
  intros Hok HL. rewrite (find_cached_run s ROOTDEV b HEAD L).
  - by rewrite (find_cached_ring s L).
  - apply HL.
  - pose proof (ring_nodup s L HL) as [? _]%NoDup_cons. done.
  - rewrite (ring_length s L HL). unfold scan_fuel. lia.
Qed.

Lemma bget_hit s b i :
  cache_ok s → cached s b = Some i → truthy (locked (block_lock (bufs s i))) = false →
  returns (bget ROOTDEV b) s (λ h s' t, h = i ∧ writes t = [] ∧
    replaced s s' i (set_block_lock (Sleeplock 1 (me s)) (set_refcnt (u32 (refcnt (bufs s i) + 1)) (bufs s i))) (dsk s)).
Proof.
  intros Hok Hc Hl. destruct (ck_ring s Hok) as [L HL]. unfold bget.
  call reflexivity. call reflexivity. call (by apply (bget_search s L)). call reflexivity. rewrite Hc.
  call reflexivity. call reflexivity. call reflexivity.
  call (apply acquire_buf; simpl; by rewrite upd_eq). apply returns_ret. split_and!; [done|done|].
  split; [done| |done]. intros j. simpl. unfold upd. case_decide; [|done]. subst. by rewrite decide_True.
Qed.

Lemma bget_miss s b L i :
  cache_ok s → ring s L → cached s b = None →
  find (λ i, refcnt (bufs s i) =? 0) (reverse L) = Some i → 0 ≤ i < NBUF → refcnt (bufs s i) = 0 →
  returns (bget ROOTDEV b) s (λ h s' t, h = i ∧ writes t = [] ∧
    replaced s s' i (set_block_lock (Sleeplock 1 (me s)) (set_refcnt 1 (set_valid 0 (set_name ROOTDEV b (bufs s i))))) (dsk s)).
Proof.
  intros Hok HL Hc Hf Hi Hr. unfold bget.
  call reflexivity. call reflexivity. call (by apply (bget_search s L)). call reflexivity. rewrite Hc.
  call reflexivity. call (apply (find_unused_run s L); [apply HL| |]).
  { pose proof (ring_nodup s L HL) as [? _]%NoDup_cons. done. }
  { rewrite (ring_length s L HL). unfold scan_fuel. lia. }
  rewrite Hf. call reflexivity. call reflexivity. call reflexivity. call reflexivity.
  call (apply acquire_buf; simpl; rewrite !upd_eq; simpl).
  { destruct (truthy (locked (block_lock (bufs s i)))) eqn:E; [|done].
    apply (ck_buf s Hok i Hi) in E as [_ E]. lia. }
  apply returns_ret. split_and!; [done|done|].
  split; [done| |done]. intros j. simpl. unfold upd. case_decide; [|done]. subst. by rewrite !decide_True.
Qed.

(** A buffer that was just taken: its name, lock, references and data. *)
Lemma taken_law s s' i b x :
  cache_ok s → replaced s s' i x (dsk s) → 0 ≤ i < NBUF → 0 ≤ b < 2 ^ 31 →
  truthy (locked (block_lock (bufs s i))) = false →
  (cached s b = Some i ∨ (cached s b = None ∧ refcnt (bufs s i) = 0)) →
  bdev x = ROOTDEV → blockno x = b → block_lock x = Sleeplock 1 (me s) →
  next x = next (bufs s i) → prev x = prev (bufs s i) → truthy (valid x) = true →
  data x = bio_content s b → refcnt x = bio_refs s b + 1 → 0 < refcnt x < 2 ^ 32 →
  cache_ok s' ∧ bio_locked_by s i = None ∧
  changes s s' (dsk s) (bio_content s) (upd (bio_refs s) b (bio_refs s b + 1)) (upd (bio_locked_by s) i (Some b)).
Proof.
  intros Hok Hrep Hi Hb Hl Hc Hd Hn Hlk Hnx Hpv Hv Hdat Hrc Hr. destruct (ck_ring s Hok) as [L HL].
  assert (is_block (data x)) as Hblk.
  { rewrite Hdat. unfold bio_content. destruct (cached s b) as [j|] eqn:Hj; [|apply Hok].
    apply cached_Some in Hj as [Hj _]; [|done]. by apply (ck_buf s Hok j). }
  rewrite <-Hn in Hc. assert (cache_ok s') as Hok'.
  { eapply (replaced_ok s s' i x (dsk s)); try done; [|apply Hok]. rewrite <-Hn in Hb.
    split; try done; try lia. rewrite Hlk, (rp_me _ _ _ _ _ Hrep). intros _. split; [done|lia]. }
  split_and!; [done| |].
  - rewrite locked_by_held by done. unfold held. by rewrite Hl.
  - eapply changes_ext; [apply (replaced_changes s s' i x (dsk s)); done|done| | |].
    + intros b'. rewrite upd_id; [done|]. by rewrite Hn.
    + intros b'. by rewrite Hrc, Hn.
    + intros h. apply upd_ext; [done|]. unfold held. rewrite Hlk, Hn. simpl. by rewrite Z.eqb_refl.
Qed.

(** [virtio_disk_rw(b, 0); b->valid = 1;] *)
Lemma fill_run s i b :
  blockno (bufs s i) = b → 0 ≤ b < 2 ^ 31 → ∃ s',
  (disk_rw i false;; with_buf i (set_valid 1)) s = Done tt s' [] ∧
  replaced s s' i (set_valid 1 (set_data (dsk s b) (bufs s i))) (dsk s).
Proof.
  intros Hn Hb. eexists. split.
  - unfold disk_rw, mbind, M_bind. simpl. rewrite Hn, sector_block by done. reflexivity.
  - split; [done| |done]. intros j. simpl. unfold upd. case_decide; [|done]. subst. by rewrite decide_True.
Qed.

Lemma bio_bread s b :
  cache_ok s → 0 ≤ b < 2 ^ 31 → (∀ h, bio_locked_by s h ≠ Some b) → room s b →
  returns (bread ROOTDEV b) s (λ h s' t, cache_ok s' ∧ bio_locked_by s h = None ∧
    changes s s' (dsk s) (bio_content s) (upd (bio_refs s) b (bio_refs s b + 1))
      (upd (bio_locked_by s) h (Some b)) ∧ writes t = []).
Proof.
  intros Hok Hb Hl [Hwrap Hroom]. simpl in Hwrap, Hroom. unfold bread.
  destruct (cached s b) as [i|] eqn:Hc.
  - pose proof Hc as (Hi & Hd & Hn)%cached_Some; [|done].
    destruct (ck_buf s Hok i Hi) as [K1 K2 K3 K4 K5 K6]. destruct (K4 Hd) as [K7 K8].
    assert (truthy (locked (block_lock (bufs s i))) = false) as Hfree.
    { destruct (truthy _) eqn:E; [|done]. destruct (Hl i). rewrite locked_by_held by done.
      unfold held. destruct (K3 eq_refl) as [-> _]. by rewrite E, Z.eqb_refl, Hn. }
    assert (bio_refs s b = refcnt (bufs s i)) as Hrefs by (unfold bio_refs; by rewrite Hc).
    call_spec (bget_hit s b i Hok Hc Hfree). intros h s' t (-> & Ht & Hrep).
    call reflexivity. rewrite (rp_bufs _ _ _ _ _ Hrep), upd_eq. simpl. rewrite K8. call reflexivity.
    apply returns_ret. rewrite u32_small in Hrep by lia.
    edestruct (taken_law s s' i b) as (E1 & E2 & E3); [exact Hok|exact Hrep|..]; simpl; try done; try lia.
    + by left.
    + unfold bio_content. by rewrite Hc.
    + split_and!; [done..|]. by rewrite !writes_app, Ht.
  - destruct Hroom as [Hpos|(K & HK & Hlen)]; [unfold bio_refs in Hpos; rewrite Hc in Hpos; done|].
    destruct (ck_ring s Hok) as [L HL]. destruct (unused_buffer s L K) as (i & Hf & Hi & Hr); [done..|].
    call_spec (bget_miss s b L i); [done..|]. intros h s' t (-> & Ht & Hrep).
    call reflexivity. rewrite (rp_bufs _ _ _ _ _ Hrep), upd_eq. simpl.
    set (x := set_block_lock _ _) in Hrep. pose proof (rp_bufs _ _ _ _ _ Hrep i) as Hx. rewrite upd_eq in Hx.
    destruct (fill_run s' i b) as (s2 & Hrun & Hrep2); [by rewrite Hx|done|]. call (exact Hrun).
    apply returns_ret.
    assert (replaced s s2 i (set_valid 1 (set_data (dsk s b) x)) (dsk s)) as Hrep3.
    { destruct Hrep as [E1 E2 E3], Hrep2 as [F1 F2 F3]. split; [congruence| |congruence].
      intros j. rewrite F2, E3. unfold upd. case_decide; [by rewrite Hx|].
      rewrite E2. by apply upd_ne. }
    assert (truthy (locked (block_lock (bufs s i))) = false) as Hfree.
    { destruct (truthy _) eqn:E; [|done]. apply (ck_buf s Hok i Hi) in E as [_ E]. lia. }
    edestruct (taken_law s s2 i b) as (E1 & E2 & E3); [exact Hok|exact Hrep3|..]; simpl; try done; try lia.
    + by right.
    + unfold bio_content. by rewrite Hc.
    + unfold bio_refs. by rewrite Hc.
    + split_and!; [done..|]. by rewrite !writes_app, Ht.
Qed.

#[global] Instance bio_laws : CacheLaws bst ROOTDEV cache_ok.
Proof.
  split; simpl.
  - intros s b Hok. unfold bio_content. destruct (cached s b) as [i|] eqn:Hc; [|apply Hok].
    apply cached_Some in Hc as [Hi _]; [|done]. by apply (ck_buf s Hok i).
  - intros s b Hok Hb Hl Hr. by apply bio_bread.
  - intros s h b Hok Hl. pose proof (handle_intro s h b Hok Hl) as Hhn.
    by rewrite (handle_content s h b).
  - apply bio_wdata.
  - apply bio_bwrite.
  - apply bio_brelse.
  - apply bio_bpin.
  - apply bio_bunpin.
Qed.

(** ** Boot *)

(** The cache in the zeroed [.bss]. *)
Definition zero_buf : buf := Buf 0 0 0 (Sleeplock 0 0) 0 0 0 zero_block.
Definition bss (p : Z) (d : disk) : bst := Bst p (λ _, zero_buf) d.

(** [binit] changes links only. *)
Definition blank (s : bst) : Prop := ∀ i, set_prev 0 (set_next 0 (bufs s i)) = zero_buf.

Lemma blank_setn i v s : blank s → blank (setn i v s).
Proof. intros H j. rewrite <-(H j). unfold setn, upd. simpl. case_decide; by subst. Qed.
Lemma blank_setp i v s : blank s → blank (setp i v s).
Proof. intros H j. rewrite <-(H j). unfold setp, upd. simpl. case_decide; by subst. Qed.

(** [initsleeplock] on a zeroed buffer. *)
Definition init_lock (i : Z) (s : bst) : bst :=
  Bst (me s) (upd (bufs s) i (set_block_lock (Sleeplock 0 0) (bufs s i))) (dsk s).
Lemma init_lock_blank i s : blank s → blank (init_lock i s).
Proof.
  intros H j. rewrite <-(H j). unfold init_lock, upd. simpl. case_decide; [subst|done].
  specialize (H i). destruct (bufs s i). unfold zero_buf, set_prev, set_next in H. simpl in H. by injection H as -> -> -> -> -> ->.
Qed.
Lemma nxt_init_lock i s j : nxt (init_lock i s) j = nxt s j.
Proof. unfold nxt, init_lock, upd. simpl. case_decide; by subst. Qed.
Lemma prv_init_lock i s j : prv (init_lock i s) j = prv s j.
Proof. unfold prv, init_lock, upd. simpl. case_decide; by subst. Qed.

(** One round of the loop of [binit]. *)
Definition binit_round (b : Z) (s : bst) : bst :=
  let s := setn b (nxt s HEAD) s in
  let s := setp b HEAD s in
  let s := init_lock b s in
  let s := setp (nxt s HEAD) b s in
  setn HEAD b s.

Lemma binit_round_path b s L :
  path (nxt s) (prv s) HEAD L HEAD → NoDup (HEAD :: L) → b ≠ HEAD → b ∉ L →
  path (nxt (binit_round b s)) (prv (binit_round b s)) HEAD (b :: L) HEAD.
Proof.
  intros Hp Hnd HbH HbL. pose proof (path_push _ _ _ _ _ b Hp Hnd Hnd HbH HbH HbL) as Hfin.
  set (s1 := setp b HEAD (setn b (nxt s HEAD) s)).
  assert (nxt (init_lock b s1) HEAD = nxt s HEAD) as E.
  { unfold s1. rewrite nxt_init_lock, nxt_setp, nxt_setn. by apply upd_ne. }
  unfold binit_round. fold s1. cbv zeta. rewrite E.
  eapply path_ext; [exact Hfin| |]; intros i _.
  - rewrite nxt_setn. apply upd_ext; [|done]. intros j. rewrite nxt_setp, nxt_init_lock. unfold s1.
    rewrite nxt_setp. apply nxt_setn.
  - rewrite prv_setn, prv_setp. apply upd_ext; [|done]. intros j. rewrite prv_init_lock. unfold s1.
    rewrite prv_setp. apply upd_ext; [|done]. intros k. apply prv_setn.
Qed.

Lemma binit_loop_spec n b s L :
  path (nxt s) (prv s) HEAD L HEAD → NoDup (HEAD :: L) → (∀ i, i ∈ L → i < b) →
  b + Z.of_nat n ≤ HEAD → blank s →
  returns (binit_loop n b) s (λ _ s' t, me s' = me s ∧ dsk s' = dsk s ∧ blank s' ∧
    path (nxt s') (prv s') HEAD (reverse (seqZ b (Z.of_nat n)) ++ L) HEAD).
Proof.
  revert b s L. induction n as [|n IH]; intros b s L Hp Hnd HL Hn Hbl.
  { apply returns_ret. split_and!; done. }
  cbn [binit_loop]. do 7 call reflexivity. change (returns (binit_loop n (b + 1)) (binit_round b s) (λ _ s' _, me s' = me s ∧ dsk s' = dsk s ∧ blank s' ∧
    path (nxt s') (prv s') HEAD (reverse (seqZ b (Z.of_nat (S n))) ++ L) HEAD)).
  eapply returns_mono; [apply (IH (b + 1) (binit_round b s) (b :: L))|].
  - apply binit_round_path; try done; [lia|]. intros Hin%HL. lia.
  - apply NoDup_cons in Hnd as [HH Hnd]. apply NoDup_cons. split.
    + intros [?|?]%elem_of_cons; [lia|done].
    + apply NoDup_cons. split; [|done]. intros Hin%HL. lia.
  - intros i [->|Hi%HL]%elem_of_cons; lia.
  - lia.
  - unfold binit_round. cbv zeta. by repeat first [apply blank_setn|apply blank_setp|apply init_lock_blank].
  - intros _ s' t (E1 & E2 & E3 & E4). split_and!; [done..|].
    rewrite seqZ_cons by lia. replace (Z.pred (Z.of_nat (S n))) with (Z.of_nat n) by lia.
    rewrite reverse_cons, <-app_assoc. exact E4.
Qed.

Lemma binit_run p d :
  (∀ b, is_block (d b)) →
  returns binit (bss p d) (λ _ s t, me s = p ∧ cache_ok s ∧ ring s (reverse bufids) ∧
    (∀ b, bio_refs s b = 0 ∧ bio_content s b = d b ∧ dsk s b = d b) ∧ ∀ h, bio_locked_by s h = None).
Proof.
  intros Hd. unfold binit. do 3 call reflexivity. apply returns_mono with (P := λ _ s' t,
    me s' = p ∧ dsk s' = d ∧ blank s' ∧
    path (nxt s') (prv s') HEAD (reverse (seqZ 0 (Z.of_nat (Z.to_nat NBUF))) ++ []) HEAD).
  { apply (binit_loop_spec _ _ (setn HEAD HEAD (setp HEAD HEAD (bss p d))) []).
    - split; done.
    - apply NoDup_singleton.
    - intros i Hi. by apply elem_of_nil in Hi.
    - done.
    - by apply blank_setn, blank_setp. }
  intros _ s t (Hme & Hdk & Hbl & Hp). rewrite app_nil_r in Hp.
  assert (ring s (reverse bufids)) as HL by (split; [apply reverse_Permutation|exact Hp]).
  assert (∀ i, bufs s i = set_prev (prv s i) (set_next (nxt s i) zero_buf)) as Hz.
  { intros i. rewrite <-(Hbl i). unfold nxt, prv. by destruct (bufs s i). }
  assert (∀ b, cached s b = None) as Hc.
  { intros b. destruct (cached s b) as [i|] eqn:Hi; [|done].
    apply find_named in Hi as (_ & Hi & _). by rewrite Hz in Hi. }
  split_and!; [done| |done|intros b; unfold bio_refs, bio_content; rewrite Hc; by subst d|].
  - split; [by eexists|by subst d| |].
    + intros i Hi. rewrite Hz. split; try done. apply zero_block_ok.
    + intros i j _ _ Hi. by rewrite Hz in Hi.
  - intros h. unfold bio_locked_by. rewrite Hz. simpl. by rewrite andb_false_r.
Qed.

(** [binit] on the zeroed cache establishes the invariant, with all the
    buffers on the list and unused; every block reads as it is on the disk. *)
Theorem binit_cache_ok p d :
  (∀ b, is_block (d b)) →
  returns binit (bss p d) (λ _ s t, cache_ok s ∧ ring s (reverse bufids) ∧
    (∀ b, bio_refs s b = 0 ∧ bio_content s b = d b ∧ dsk s b = d b) ∧ ∀ h, bio_locked_by s h = None).
Proof. intros Hd. eapply returns_mono; [by apply binit_run|]. intros _ s t (_ & H). exact H. Qed.

(** ** What the callers rely on *)

(** C5: [bread] returns a locked buffer that holds the current contents of the
    block, whatever buffer it had to recycle.  It returns when the blocks in
    use leave a buffer; no block's contents change, and nothing is written. *)
Theorem bread_returns_block s b :
  cache_ok s → 0 ≤ b < 2 ^ 31 → (∀ h, bio_locked_by s h ≠ Some b) → room s b →
  returns (h ← bread ROOTDEV b; x ← field data h; mret (h, x)) s (λ r s' t,
    r.2 = bio_content s b ∧ cache_ok s' ∧ bio_locked_by s' r.1 = Some b ∧
    (∀ b', bio_content s' b' = bio_content s b') ∧ (∀ b', dsk s' b' = dsk s b') ∧ writes t = []).
Proof.
  intros Hok Hb Hl Hr. call_spec bio_bread; [done..|].
  intros h s' t (Hok' & _ & [E1 E2 E3 E4] & Ht).
  assert (bio_locked_by s' h = Some b) as Hl' by (etrans; [apply E4|apply upd_eq]).
  call reflexivity. apply returns_ret. simpl. rewrite app_nil_r.
  split_and!; try done. rewrite <-(handle_content s' h b); [apply E2|]. by apply handle_intro.
Qed.

Lemma find_last (f : Z → bool) L1 i L2 :
  f i = true → (∀ j, j ∈ L2 → f j = false) → find f (reverse (L1 ++ i :: L2)) = Some i.
Proof.
  intros Hi HL2. rewrite reverse_app, reverse_cons, <-app_assoc. simpl.
  induction L2 as [|j L2 IH] using rev_ind; simpl; [by rewrite Hi|].
  rewrite reverse_app. simpl. rewrite HL2 by set_solver. apply IH. set_solver.
Qed.

(** A block that is not cached replaces the least recently released unused
    buffer: the last one of the list with no references.  The order stays. *)
Theorem bget_recycles_lru s b L1 i L2 :
  cache_ok s → ring s (L1 ++ i :: L2) → cached s b = None →
  refcnt (bufs s i) = 0 → (∀ j, j ∈ L2 → refcnt (bufs s j) ≠ 0) →
  returns (bget ROOTDEV b) s (λ h s' t, h = i ∧ ring s' (L1 ++ i :: L2) ∧
    blockno (bufs s' i) = b ∧ refcnt (bufs s' i) = 1 ∧ ∀ j, j ≠ i → bufs s' j = bufs s j).
Proof.
  intros Hok HL Hc Hi HL2.
  assert (0 ≤ i < NBUF) as Hir by (apply (ring_in s _ i HL), elem_of_app; right; by left).
  eapply returns_mono; [apply (bget_miss s b (L1 ++ i :: L2) i); try done|].
  { apply find_last; [by rewrite Hi|]. intros j Hj. by apply Z.eqb_neq, HL2. }
  intros h s' t (-> & _ & [E1 E2 E3]). rewrite E2, upd_eq. split_and!; try done.
  - apply (ring_ext s); [done| |]; intros j; rewrite E2; unfold upd; case_decide; by subst.
  - intros j Hj. rewrite E2. by apply upd_ne.
Qed.

(** Releasing the last reference moves the buffer to the front of the list,
    so that the list stays in the order of the last use; releasing another one
    leaves the list as it is. *)
Theorem brelse_lru_order s h b L1 L2 :
  cache_ok s → bio_locked_by s h = Some b → ring s (L1 ++ h :: L2) →
  returns (brelse h) s (λ _ s' t,
    ring s' (if bio_refs s b =? 1 then h :: L1 ++ L2 else L1 ++ h :: L2) ∧
    truthy (locked (block_lock (bufs s' h))) = false ∧ refcnt (bufs s' h) = bio_refs s b - 1).
Proof.
  intros Hok Hl HL. pose proof (handle_intro s h b Hok Hl) as Hhn. pose proof (hn_pos s h b Hhn) as Hpos.
  pose proof (bk_refcnt _ _ (ck_buf s Hok h (hn_range s h b Hhn))) as Hr.
  rewrite (handle_refs s h b) by done. destruct (brelse_run s h b Hhn) as (s1 & t & Hrep & _ & Hrun).
  eapply returns_done; [exact Hrun|]. rewrite u32_small by lia.
  pose proof (rp_bufs _ _ _ _ _ Hrep h) as Hh. rewrite upd_eq in Hh.
  assert (ring s1 (L1 ++ h :: L2)) as HL1.
  { apply (ring_ext s); [done| |]; intros j; rewrite (rp_bufs _ _ _ _ _ Hrep); unfold upd; case_decide; by subst. }
  case_if.
  - if_true. destruct (relinked_fields _ _ h (move_front_relinked h s1)) as (_ & _ & _ & -> & -> & _).
    rewrite Hh. simpl. rewrite u32_small by lia. split_and!; [by apply move_front_ring|done..].
  - if_false. rewrite Hh. simpl. rewrite u32_small by lia. done.
Qed.
