(* ===== verification/LogBoot.v ===== *)
(** * The log on the buffer cache

    The theorems on the log hold of every cache with [CacheLaws]; here they
    run on the cache of Bio, from boot.  The last part fills the log of the
    size that [mkfs] gives it. *)

From S2P Require Import Prelude Riscv Memory Locks Disk Log LogSpec LogOps BioSpec.

(** The cache after [binit], on a disk. *)
Definition fresh (d : disk) : Bio.bst :=
  match Bio.binit (bss 1 d) with Done _ s _ => s | _ => bss 1 d end.

Lemma fresh_abs d : (∀ b, is_block (d b)) → abs cache_ok (fresh d) d d (λ _, 0) no_locks.
Proof.
  intros Hd. unfold fresh. destruct (returns_inv _ _ _ (binit_run 1 d Hd)) as ([] & s & t & -> & H).
  destruct H as (_ & Hok & _ & Hrc & Hl). split; [done|]. split; intros x; simpl; try apply Hrc. apply Hl.
Qed.

Definition empty_disk : disk := λ _, zero_block.

Lemma empty_disk_ok b : is_block (empty_disk b).
Proof. apply zero_block_ok. Qed.

(** A log at blocks [2 .. 2 + sz - 1], with the header empty. *)
Definition boot_log (sz : Z) : log := MkLog 2 sz 0 0 ROOTDEV 0 (replicate (Z.to_nat LOGSIZE) 0).

(** ** A transaction of one block *)

Definition x_block : block := replicate (Z.to_nat BSIZE) 7.

Lemma x_block_ok : is_block x_block.
Proof. split; [done|]. by apply Forall_replicate. Qed.

Section one_write.
  Context {S : Type} `{Cache S} (ok : S → Prop) `{!CacheLaws S ROOTDEV ok}.

(** [begin_op]; block 100 is read, changed, logged and released. *)
Definition one_write : M (lst (S := S)) unit :=
  begin_op;;
  h ← in_cache (bread ROOTDEV 100);
  in_cache (wdata h x_block);;
  log_write h 100;;
  in_cache (brelse h).

Lemma one_write_ready c :
  abs ok c empty_disk empty_disk (λ _, 0) no_locks →
  returns one_write (Lst (boot_log 31) c) (λ _ s t,
    ready ROOTDEV ok (lg s) (ca s) [100] empty_disk (upd empty_disk 100 x_block) (upd (λ _, 0) 100 1) ∧
    start (lg s) = 2).
Proof.
  intros Ha. unfold one_write. call reflexivity.
  cop (bread_abs ROOTDEV ok); [exact Ha|lia|done| |].
  { split; [done|]. right. exists []. split; [intros b Hb; lia|done]. }
  intros h c1 t1 (_ & Ha1 & _).
  cop (wdata_abs ROOTDEV ok); [exact Ha1|apply upd_eq|apply x_block_ok|].
  intros _ c2 t2 (Ha2 & _). unfold log_write. apply returns_bind. call reflexivity. call reflexivity.
  call reflexivity. cbn.
  change (s32 100) with 100. apply returns_bind, returns_bind, returns_in_cache.
  eapply returns_mono; [apply (bpin_abs ROOTDEV ok _ _ _ _ _ h 100 Ha2); [apply upd_eq|rewrite upd_eq; lia]|].
  intros _ c3 t3 (Ha3 & _).
  apply returns_in_cache. eapply returns_mono.
  { apply (brelse_abs ROOTDEV ok _ _ _ _ _ h 100 Ha3); [apply upd_eq|left; rewrite !upd_eq; lia]. }
  intros _ c4 t4 (Ha4 & _). split; [|reflexivity]. split; cbn [lg ca]; [reflexivity..|simpl; lia| | | |].
  - split; [|simpl; lia..|].
    + intros [|i] b Hb; [by injection Hb as <-|done].
    + intros b ->%list_elem_of_singleton. simpl. lia.
  - apply NoDup_singleton.
  - eapply abs_ext; [exact Ha4|reflexivity|reflexivity| |]; intros x; unfold upd;
      repeat case_decide; first [reflexivity|contradiction].
  - split; [intros b; unfold upd; case_decide; lia|]. split.
    + exists [100]. split; [|simpl; lia]. intros b. unfold upd. case_decide; [subst; by left|lia].
    + intros b ->%list_elem_of_singleton. by rewrite upd_eq.
Qed.
End one_write.

(** ** The theorems at boot *)

(** The state of the log and the cache after [one_write], from boot. *)
Lemma one_write_boot :
  ∃ g c, ready ROOTDEV cache_ok g c [100] empty_disk (upd empty_disk 100 x_block) (upd (λ _, 0) 100 1) ∧
    start g = 2.
Proof.
  destruct (returns_inv _ _ _ (one_write_ready cache_ok _ (fresh_abs empty_disk empty_disk_ok)))
    as (_ & s & t & _ & H).
  by exists (lg s), (ca s).
Qed.

Lemma commit_crash_safe_witness :
  ∃ g c, returns commit (Lst g c) (λ _ s' t, on_disk (ca s') 100 = x_block ∧ head_n (on_disk (ca s') 2) = 0).
Proof.
  destruct one_write_boot as (g & c & Hr & Hst). exists g, c. eapply returns_mono.
  - apply (commit_crash_safe ROOTDEV cache_ok g c [100] empty_disk (upd empty_disk 100 x_block) (upd (λ _, 0) 100 1) Hr).
    + discriminate.
    + rewrite Hst. vm_compute. reflexivity.
    + intros b _ Hb. apply upd_ne. intros ->. apply Hb. by left.
  - intros _ s' t (Hh & Hn & _). rewrite Hst in Hn. split; [|exact Hn].
    rewrite Hh; [apply upd_eq|]. eapply (en_home g 0 [100]); [apply Hr|by left].
Defined.

(** A disk whose log holds a committed block that was not installed. *)
Definition committed_disk : disk :=
  upd (upd empty_disk 2 (put_head zero_block [100])) 3 x_block.

Lemma committed_disk_ok b : is_block (committed_disk b).
Proof.
  unfold committed_disk, upd. repeat case_decide; [apply x_block_ok| |apply zero_block_ok].
  apply put_head_block; [apply zero_block_ok|simpl; lia].
Qed.

Lemma recovery_idempotent_witness :
  returns recover_from_log (Lst (boot_log 31) (fresh committed_disk)) (λ _ s' _,
    on_disk (ca s') 100 = x_block ∧ head_n (on_disk (ca s') 2) = 0).
Proof.
  eapply returns_mono.
  - apply (recovery_idempotent ROOTDEV cache_ok (boot_log 31) (fresh committed_disk) committed_disk).
    split; cbn [ldev start size lh_block boot_log].
    + reflexivity.
    + reflexivity.
    + apply fresh_abs, committed_disk_ok.
    + lia.
    + lia.
    + vm_compute. split; discriminate.
    + vm_compute. reflexivity.
    + assert (disk_blocks 2 committed_disk = [100]) as -> by (vm_compute; reflexivity). apply NoDup_singleton.
    + assert (disk_blocks 2 committed_disk = [100]) as -> by (vm_compute; reflexivity). intros b ->%list_elem_of_singleton.
      unfold home. simpl. lia.
  - intros _ s' t (Hd & Hn & _). split; [|exact Hn]. destruct (Hd 100) as [-> _]. vm_compute. reflexivity.
Defined.

(** ** The cache at boot *)

Lemma binit_cache_ok_witness :
  returns Bio.binit (bss 1 empty_disk) (λ _ s t, cache_ok s ∧ ring s (reverse Bio.bufids) ∧
    (∀ b, Bio.bio_refs s b = 0 ∧ Bio.bio_content s b = empty_disk b ∧ Bio.dsk s b = empty_disk b) ∧
    ∀ h, Bio.bio_locked_by s h = None).
Proof. apply (binit_cache_ok 1 empty_disk). exact empty_disk_ok. Defined.

Lemma fresh_ring : ring (fresh empty_disk) (reverse Bio.bufids).
Proof.
  unfold fresh. destruct (returns_inv _ _ _ (binit_run 1 empty_disk empty_disk_ok)) as ([] & s & t & -> & H).
  apply H.
Qed.

Lemma fresh_ok : cache_ok (fresh empty_disk).
Proof. apply (ab_ok _ _ _ _ _ _ (fresh_abs empty_disk empty_disk_ok)). Qed.

Lemma fresh_room b : room (fresh empty_disk) b.
Proof.
  destruct (fresh_abs empty_disk empty_disk_ok) as [_ [_ _ Hr _]]. split; rewrite ?Hr; [lia|].
  right. exists []. split; [intros b' Hb'; rewrite Hr in Hb'; lia|simpl; lia].
Qed.

Lemma fresh_unlocked h : Bio.bio_locked_by (fresh empty_disk) h = None.
Proof. apply (fresh_abs empty_disk empty_disk_ok). Qed.

Lemma bread_returns_block_witness :
  returns (h ← Bio.bread ROOTDEV 100; x ← Bio.field Bio.data h; mret (h, x)) (fresh empty_disk)
    (λ r s' t, r.2 = Bio.bio_content (fresh empty_disk) 100 ∧ cache_ok s').
Proof.
  eapply returns_mono; [apply (bread_returns_block (fresh empty_disk) 100)|].
  - exact fresh_ok.
  - lia.
  - intros h. rewrite fresh_unlocked. discriminate.
  - apply fresh_room.
  - intros r s' t (Hx & Hok & _). split; assumption.
Defined.

Lemma bget_recycles_lru_witness :
  returns (Bio.bget ROOTDEV 100) (fresh empty_disk) (λ h s' t, h = 0 ∧ ring s' (reverse (seqZ 1 29) ++ [0])).
Proof.
  eapply returns_mono; [apply (bget_recycles_lru (fresh empty_disk) 100 (reverse (seqZ 1 29)) 0 [])|].
  - exact fresh_ok.
  - exact fresh_ring.
  - vm_compute. reflexivity.
  - vm_compute. reflexivity.
  - intros j Hj. exfalso. exact (not_elem_of_nil j Hj).
  - intros h s' t (Hh & Hr & _). split; [exact Hh|exact Hr].
Defined.

(** A state in which the process holds block 100. *)
Lemma held_boot :
  ∃ s h L1 L2, cache_ok s ∧ Bio.bio_locked_by s h = Some 100 ∧ Bio.bio_refs s 100 = 1 ∧ ring s (L1 ++ h :: L2).
Proof.
  destruct (returns_inv _ _ _ (bio_bread (fresh empty_disk) 100 fresh_ok ltac:(lia)
    ltac:(intros h; by rewrite fresh_unlocked) (fresh_room 100))) as (h & s & t & _ & Hok & _ & [_ _ Hr Hl] & _).
  assert (Bio.bio_locked_by s h = Some 100) as Hh by (etrans; [apply Hl|apply upd_eq]).
  destruct (ck_ring s Hok) as [L HL].
  assert (h ∈ L) as (L1 & L2 & ->)%list_elem_of_split by (by apply (ring_in s L), (handle_intro s h 100)).
  exists s, h, L1, L2. split_and!; [done|done| |done]. etrans; [apply Hr|]. rewrite upd_eq.
  by rewrite (ch_refs _ _ _ _ _ _ (ab_ch _ _ _ _ _ _ (fresh_abs empty_disk empty_disk_ok))).
Qed.

Lemma brelse_lru_order_witness :
  ∃ s h L1 L2, ring s (L1 ++ h :: L2) ∧ returns (Bio.brelse h) s (λ _ s' t, ring s' (h :: L1 ++ L2)).
Proof.
  destruct held_boot as (s & h & L1 & L2 & Hok & Hl & Hr & HL). exists s, h, L1, L2. split; [exact HL|].
  eapply returns_mono; [apply (brelse_lru_order s h 100 L1 L2 Hok Hl HL)|].
  intros _ s' t (Hring & _). rewrite Hr in Hring. exact Hring.
Defined.

(** ** Filling the log *)

Section fill.
  Context {S : Type} `{Cache S}.

(** One call reads, logs and releases the blocks [b .. b + k - 1]. *)
Fixpoint fill (k : nat) (b : Z) : M (lst (S := S)) unit :=
  match k with
  | O => mret tt
  | Datatypes.S k =>
      h ← in_cache (bread ROOTDEV b);
      log_write h b;;
      in_cache (brelse h);;
      fill k (b + 1)
  end.

Lemma lstep_cache {A} (m : M S A) s a s' t us : in_cache m s = Done a s' t → lstep (s, us) (s', us).
Proof. intros Hr. apply in_cache_lg in Hr. destruct s as [g c], s' as [g' c']. simpl in Hr. subst g'. apply ls_cache. Qed.

Lemma fill_steps k b s s' t us1 u us2 :
  u + Z.of_nat k ≤ MAXOPBLOCKS → fill k b s = Done tt s' t →
  rtc lstep (s, us1 ++ u :: us2) (s', us1 ++ (u + Z.of_nat k) :: us2).
Proof.
  revert b s t u. induction k as [|k IH]; intros b s t u Hu; cbn [fill].
  { intros [= <- _]. rewrite Z.add_0_r. apply rtc_refl. }
  intros (h & s1 & ? & ? & H1 & Hrun & _)%bind_done_inv.
  apply bind_done_inv in Hrun as ([] & s2 & ? & ? & H2 & Hrun & _).
  apply bind_done_inv in Hrun as ([] & s3 & ? & ? & H3 & Hrun & _).
  eapply rtc_l; [eapply lstep_cache; exact H1|].
  eapply rtc_l; [eapply ls_write; [lia|exact H2]|].
  eapply rtc_l; [eapply lstep_cache; exact H3|].
  replace (u + Z.of_nat (Datatypes.S k)) with (u + 1 + Z.of_nat k) by lia.
  eapply IH; [lia|exact Hrun].
Qed.
End fill.

(** The state in which [m] returns; [s] when it does not. *)
Definition after_run {S A} (m : M S A) (s : S) : S := match m s with Done _ s' _ => s' | _ => s end.

Lemma after_run_done {S A} (m : M S A) s (a : A) :
  match m s with Done a' _ _ => a' = a | _ => False end → ∃ t, m s = Done a (after_run m s) t.
Proof. unfold after_run. destruct (m s) as [a' s' t| | | | |]; try contradiction. intros ->. by exists t. Qed.

(** Three calls begin; they log ten, ten and nine blocks, and the third reads
    one more. *)
Definition mkfs_log : lst (S := Bio.bst) := Lst (boot_log LOGSIZE) (fresh empty_disk).
Definition began1 : lst := after_run begin_op mkfs_log.
Definition began2 : lst := after_run begin_op began1.
Definition began3 : lst := after_run begin_op began2.
Definition filled1 : lst := after_run (fill 10 100) began3.
Definition filled2 : lst := after_run (fill 10 110) filled1.
Definition filled3 : lst := after_run (fill 9 120) filled2.
Definition full : lst := after_run (in_cache (bread ROOTDEV 129)) filled3.

(** [fresh] and the runs are only evaluated by [vm_compute]. *)
#[local] Opaque fresh after_run.

Lemma began_steps : rtc lstep (mkfs_log, []) (began3, [0; 0; 0]).
Proof.
  destruct (after_run_done begin_op mkfs_log tt) as [t1 H1]; [vm_compute; reflexivity|].
  destruct (after_run_done begin_op began1 tt) as [t2 H2]; [vm_compute; reflexivity|].
  destruct (after_run_done begin_op began2 tt) as [t3 H3]; [vm_compute; reflexivity|].
  eapply rtc_l; [eapply ls_begin, H1|]. eapply rtc_l; [eapply ls_begin, H2|].
  eapply rtc_l; [eapply ls_begin, H3|]. apply rtc_refl.
Qed.

Lemma full_steps : rtc lstep (began3, [0; 0; 0]) (full, [10; 10] ++ 9 :: []).
Proof.
  destruct (after_run_done (fill 10 100) began3 tt) as [t1 H1]; [vm_compute; reflexivity|].
  destruct (after_run_done (fill 10 110) filled1 tt) as [t2 H2]; [vm_compute; reflexivity|].
  destruct (after_run_done (fill 9 120) filled2 tt) as [t3 H3]; [vm_compute; reflexivity|].
  destruct (after_run_done (in_cache (bread ROOTDEV 129)) filled3 29) as [t4 H4]; [vm_compute; reflexivity|].
  etrans; [eapply (fill_steps 10 100 _ _ _ [] 0 [0; 0]); [simpl; lia|exact H1]|].
  etrans; [eapply (fill_steps 10 110 _ _ _ [10] 0 [0]); [simpl; lia|exact H2]|].
  etrans; [eapply (fill_steps 9 120 _ _ _ [10; 10] 0 []); [simpl; lia|exact H3]|].
  eapply rtc_l; [eapply lstep_cache; exact H4|]. apply rtc_refl.
Qed.

(** C27: The log that [mkfs] makes has [LOGSIZE] blocks, one of which is the
    header, but [begin_op] admits calls as if all held data: after admitted
    calls logged ten, ten and nine blocks, the tenth block of the third call,
    within its [MAXOPBLOCKS], makes [log_write] panic. *)
Theorem mkfs_log_overflows :
  idle_log (lg mkfs_log) ∧ size (lg mkfs_log) = LOGSIZE ∧
  rtc lstep (mkfs_log, []) (full, [10; 10] ++ 9 :: []) ∧ 9 < MAXOPBLOCKS ∧
  locked_by (ca full) 29 = Some 129 ∧
  log_write 29 129 full = Panicked "too big a transaction" full [EvAcquire LkLog].
Proof.
  split_and!; [vm_compute; split_and!; reflexivity|reflexivity| |lia|vm_compute; reflexivity|].
  - etrans; [apply began_steps|apply full_steps].
  - unfold log_write, mbind, M_bind. simpl.
    assert ((lh_n (lg full) >=? LOGSIZE) || (lh_n (lg full) >=? size (lg full) - 1) = true) as ->
      by (vm_compute; reflexivity). reflexivity.
Qed.

Lemma log_write_never_full_witness :
  ∃ s h, rtc lstep (Lst (boot_log 31) (fresh empty_disk), []) (s, [0]) ∧
  returns (log_write h 100) s (λ _ s' t, 100 ∈ logged (lg s')).
Proof.
  destruct (returns_inv _ _ _ (bio_bread (fresh empty_disk) 100 fresh_ok ltac:(lia)
    ltac:(intros h; by rewrite fresh_unlocked) (fresh_room 100))) as (h & c & t & Hrun & Hok & _ & [_ _ Hr Hl] & _).
  set (g := set_outstanding 1 (boot_log 31)). exists (Lst g c), h.
  assert (rtc lstep (Lst (boot_log 31) (fresh empty_disk), []) (Lst g c, [0])) as Hsteps.
  { eapply rtc_l; [eapply ls_begin; reflexivity|]. eapply rtc_l; [apply ls_cache|apply rtc_refl]. }
  split; [exact Hsteps|]. eapply returns_mono.
  - apply (log_write_never_full ROOTDEV cache_ok (Lst (boot_log 31) (fresh empty_disk)) (Lst g c) [] 0 [] h 100).
    + vm_compute. split_and!; reflexivity.
    + simpl. lia.
    + exact Hsteps.
    + lia.
    + exact Hok.
    + etrans; [apply Hl|apply upd_eq].
    + cbn [ca]. rewrite Hr, upd_eq. vm_compute. reflexivity.
  - intros _ s' t' (_ & _ & Hlog & _). rewrite Hlog. by left.
Defined.
