(* ===== verification/Virtio.v ===== *)
(** * The disk driver, [kernel/virtio_disk.c]

    The code of the driver.  The structures that it shares with the device are
    fields of its state, and addresses that it gives to the device are named.
    The device is modelled in VirtioSpec; here its registers are a parameter. *)

From S2P Require Import Prelude Riscv Memory Kalloc Disk.

(** ** [kernel/virtio.h] *)

Definition NUM : Z := 8.
Definition VRING_DESC_F_NEXT : Z := 1.
Definition VRING_DESC_F_WRITE : Z := 2.
Definition VIRTIO_BLK_T_IN : Z := 0.
Definition VIRTIO_BLK_T_OUT : Z := 1.

Definition VIRTIO_MMIO_MAGIC_VALUE : Z := 0x000.
Definition VIRTIO_MMIO_VERSION : Z := 0x004.
Definition VIRTIO_MMIO_DEVICE_ID : Z := 0x008.
Definition VIRTIO_MMIO_VENDOR_ID : Z := 0x00c.
Definition VIRTIO_MMIO_DEVICE_FEATURES : Z := 0x010.
Definition VIRTIO_MMIO_DRIVER_FEATURES : Z := 0x020.
Definition VIRTIO_MMIO_QUEUE_SEL : Z := 0x030.
Definition VIRTIO_MMIO_QUEUE_NUM_MAX : Z := 0x034.
Definition VIRTIO_MMIO_QUEUE_NUM : Z := 0x038.
Definition VIRTIO_MMIO_QUEUE_READY : Z := 0x044.
Definition VIRTIO_MMIO_QUEUE_NOTIFY : Z := 0x050.
Definition VIRTIO_MMIO_INTERRUPT_STATUS : Z := 0x060.
Definition VIRTIO_MMIO_INTERRUPT_ACK : Z := 0x064.
Definition VIRTIO_MMIO_STATUS : Z := 0x070.
Definition VIRTIO_MMIO_QUEUE_DESC_LOW : Z := 0x080.
Definition VIRTIO_MMIO_QUEUE_DESC_HIGH : Z := 0x084.
Definition VIRTIO_MMIO_DRIVER_DESC_LOW : Z := 0x090.
Definition VIRTIO_MMIO_DRIVER_DESC_HIGH : Z := 0x094.
Definition VIRTIO_MMIO_DEVICE_DESC_LOW : Z := 0x0a0.
Definition VIRTIO_MMIO_DEVICE_DESC_HIGH : Z := 0x0a4.

Definition VIRTIO_CONFIG_S_ACKNOWLEDGE : Z := 1.
Definition VIRTIO_CONFIG_S_DRIVER : Z := 2.
Definition VIRTIO_CONFIG_S_DRIVER_OK : Z := 4.
Definition VIRTIO_CONFIG_S_FEATURES_OK : Z := 8.

(** The feature bits that the driver refuses: [VIRTIO_BLK_F_RO] ..
    [VIRTIO_RING_F_INDIRECT_DESC], in the order of the code. *)
Definition refused_features : list Z := [5; 7; 11; 12; 27; 29; 28].

(** An address in a descriptor: [&disk.ops[i]], [b->data] or
    [&disk.info[i].status]. *)
Inductive dma : Type := NoAddr | OpsAt (i : Z) | DataOf (b : Z) | StatusAt (i : Z).
#[global] Instance dma_eq_dec : EqDecision dma.
Proof. solve_decision. Defined.

Record virtq_desc : Type := Desc { addr : dma; len : Z; flags : Z; next : Z }.
Record virtio_blk_req : Type := Req { rtype : Z; reserved : Z; sector : Z }.

(** [struct disk], with the fields of [struct buf] that the driver uses.
    [avail_*] and [ring_*] are [disk.avail] and [disk.used]; buffer [NULL] is
    the null pointer. *)
Record vst : Type := Vst {
  desc : Z → virtq_desc;
  avail_idx : Z;
  avail_ring : list Z;
  ring_idx : Z;
  ring_ids : list Z;
  free : Z → Z;
  used_idx : Z;
  info_b : Z → Z;
  info_status : Z → Z;
  ops : Z → virtio_blk_req;
  bdisk : Z → Z;
  bdata : Z → block;
  blockno : Z → Z
}.

Definition set_desc x s := Vst x (avail_idx s) (avail_ring s) (ring_idx s) (ring_ids s) (free s) (used_idx s) (info_b s) (info_status s) (ops s) (bdisk s) (bdata s) (blockno s).
Definition set_avail i x s := Vst (desc s) i x (ring_idx s) (ring_ids s) (free s) (used_idx s) (info_b s) (info_status s) (ops s) (bdisk s) (bdata s) (blockno s).
Definition set_ring i x s := Vst (desc s) (avail_idx s) (avail_ring s) i x (free s) (used_idx s) (info_b s) (info_status s) (ops s) (bdisk s) (bdata s) (blockno s).
Definition set_free x s := Vst (desc s) (avail_idx s) (avail_ring s) (ring_idx s) (ring_ids s) x (used_idx s) (info_b s) (info_status s) (ops s) (bdisk s) (bdata s) (blockno s).
Definition set_used_idx x s := Vst (desc s) (avail_idx s) (avail_ring s) (ring_idx s) (ring_ids s) (free s) x (info_b s) (info_status s) (ops s) (bdisk s) (bdata s) (blockno s).
Definition set_info_b x s := Vst (desc s) (avail_idx s) (avail_ring s) (ring_idx s) (ring_ids s) (free s) (used_idx s) x (info_status s) (ops s) (bdisk s) (bdata s) (blockno s).
Definition set_status x s := Vst (desc s) (avail_idx s) (avail_ring s) (ring_idx s) (ring_ids s) (free s) (used_idx s) (info_b s) x (ops s) (bdisk s) (bdata s) (blockno s).
Definition set_ops x s := Vst (desc s) (avail_idx s) (avail_ring s) (ring_idx s) (ring_ids s) (free s) (used_idx s) (info_b s) (info_status s) x (bdisk s) (bdata s) (blockno s).
Definition set_bdisk x s := Vst (desc s) (avail_idx s) (avail_ring s) (ring_idx s) (ring_ids s) (free s) (used_idx s) (info_b s) (info_status s) (ops s) x (bdata s) (blockno s).
Definition set_bdata x s := Vst (desc s) (avail_idx s) (avail_ring s) (ring_idx s) (ring_ids s) (free s) (used_idx s) (info_b s) (info_status s) (ops s) (bdisk s) x (blockno s).

Definition no_buf : Z := -1.

(** ** Descriptors *)

Fixpoint alloc_desc_loop (k : nat) (i : Z) : M vst Z :=
  match k with
  | O => mret (-1)
  | S k =>
      f ← gets free;
      if truthy (f i) then
        modify (λ s, set_free (upd (free s) i 0) s);;
        mret i
      else alloc_desc_loop k (i + 1)
  end.
Definition alloc_desc : M vst Z := alloc_desc_loop (Z.to_nat NUM) 0.

Definition free_desc (i : Z) : M vst unit :=
  if i >=? NUM then panic "free_desc 1"
  else
    f ← gets free;
    if truthy (f i) then panic "free_desc 2"
    else
      modify (λ s, set_desc (upd (desc s) i (Desc NoAddr 0 0 0)) s);;
      modify (λ s, set_free (upd (free s) i 1) s);;
      wakeup ChDiskFree.

(** A chain has at most [NUM] descriptors. *)
Fixpoint free_chain_loop (fuel : nat) (i : Z) : M vst unit :=
  match fuel with
  | O => nofuel
  | S fuel =>
      d ← gets (λ s, desc s i);
      free_desc i;;
      if truthy (Z.land (flags d) VRING_DESC_F_NEXT) then free_chain_loop fuel (next d) else mret tt
  end.
Definition free_chain (i : Z) : M vst unit := free_chain_loop (S (Z.to_nat NUM)) i.

(** [got] are [idx[0] .. idx[i-1]]. *)
Fixpoint free_descs (got : list Z) : M vst unit :=
  match got with
  | [] => mret tt
  | j :: got => free_desc j;; free_descs got
  end.
Fixpoint alloc3_loop (k : nat) (got : list Z) : M vst (option (list Z)) :=
  match k with
  | O => mret (Some got)
  | S k =>
      i ← alloc_desc;
      if i <? 0 then
        free_descs got;;
        mret None
      else alloc3_loop k (got ++ [i])
  end.
Definition alloc3_desc : M vst (option (list Z)) := alloc3_loop 3 [].

(** ** Requests *)

(** From [format the three descriptors] to the notification. *)
Definition submit (b : Z) (write : bool) (i0 i1 i2 : Z) : M vst unit :=
  n ← gets (λ s, blockno s b);
  modify (λ s, set_ops (upd (ops s) i0 (Req (if write then VIRTIO_BLK_T_OUT else VIRTIO_BLK_T_IN) 0 (u32 (n * (BSIZE / 512))))) s);;
  modify (λ s, set_desc (upd (desc s) i0 (Desc (OpsAt i0) 16 VRING_DESC_F_NEXT i1)) s);;
  modify (λ s, set_desc (upd (desc s) i1 (Desc (DataOf b) BSIZE
    (Z.lor (if write then 0 else VRING_DESC_F_WRITE) VRING_DESC_F_NEXT) i2)) s);;
  modify (λ s, set_status (upd (info_status s) i0 0xff) s);;
  modify (λ s, set_desc (upd (desc s) i2 (Desc (StatusAt i0) 1 VRING_DESC_F_WRITE 0)) s);;
  modify (λ s, set_bdisk (upd (bdisk s) b 1) s);;
  modify (λ s, set_info_b (upd (info_b s) i0 b) s);;
  modify (λ s, set_avail (avail_idx s) (<[Z.to_nat (avail_idx s mod NUM) := i0]> (avail_ring s)) s);;
  modify (λ s, set_avail (u16 (avail_idx s + 1)) (avail_ring s) s);;
  emit (EvMmio (VIRTIO0 + VIRTIO_MMIO_QUEUE_NOTIFY) 0).

(** [virtio_disk_rw], until it sleeps: on a free descriptor ([None]), to be
    called again when it is woken; or, with its request in the queue, on the
    buffer.  The first descriptor is returned. *)
Definition rw_start (b : Z) (write : bool) : M vst (option Z) :=
  acquire LkVdisk;;
  idx ← alloc3_desc;
  match idx with
  | Some [i0; i1; i2] =>
      submit b write i0 i1 i2;;
      emit (EvSleep (ChBuf b) LkVdisk);;
      mret (Some i0)
  | _ =>
      emit (EvSleep ChDiskFree LkVdisk);;
      mret None
  end.

(** [virtio_disk_rw], woken with its request [i0]: whether it returns. *)
Definition rw_resume (b i0 : Z) : M vst bool :=
  acquire LkVdisk;;
  busy ← gets (λ s, bdisk s b);
  if busy =? 1 then
    emit (EvSleep (ChBuf b) LkVdisk);;
    mret false
  else
    modify (λ s, set_info_b (upd (info_b s) i0 no_buf) s);;
    free_chain i0;;
    release LkVdisk;;
    mret true.

(** The device has at most [NUM] completions that were not seen. *)
Fixpoint intr_loop (fuel : nat) : M vst unit :=
  match fuel with
  | O => nofuel
  | S fuel =>
      s ← get;
      if negb (used_idx s =? ring_idx s) then
        let i := ring_ids s !!! Z.to_nat (used_idx s mod NUM) in
        if negb (info_status s i =? 0) then panic "virtio_disk_intr status"
        else
          let b := info_b s i in
          modify (λ s, set_bdisk (upd (bdisk s) b 0) s);;
          wakeup (ChBuf b);;
          modify (set_used_idx (u16 (used_idx s + 1)));;
          intr_loop fuel
      else mret tt
  end.

(** [istatus] is what the interrupt status register says. *)
Definition virtio_disk_intr (istatus : Z) : M vst unit :=
  acquire LkVdisk;;
  emit (EvMmio (VIRTIO0 + VIRTIO_MMIO_INTERRUPT_ACK) (Z.land istatus 0x3));;
  intr_loop (S (Z.to_nat NUM));;
  release LkVdisk.

(** ** Initialisation *)

Section init.
  Context {D : Type} (vread : Z → D → Z * D) (vwrite : Z → Z → D → D).

(** The device, the allocator, the driver, and the three pages. *)
Record ist : Type := Ist { device : D; ikm : kmem; drv : vst; pages : list Z }.

Definition set_device x s := Ist x (ikm s) (drv s) (pages s).
Definition set_ikm x s := Ist (device s) x (drv s) (pages s).
Definition set_drv x s := Ist (device s) (ikm s) x (pages s).
Definition set_pages x s := Ist (device s) (ikm s) (drv s) x.

Definition rreg (r : Z) : M ist Z :=
  s ← get;
  put (set_device (vread r (device s)).2 s);;
  mret (u32 (vread r (device s)).1).
Definition wreg (r v : Z) : M ist unit :=
  modify (λ s, set_device (vwrite r (u32 v) (device s)) s);;
  emit (EvMmio (VIRTIO0 + r) (u32 v)).

(** [features &= ~(1 << bit);] *)
Definition negotiate (features : Z) : Z :=
  foldl (λ f bit, Z.land f (Z.lnot (Z.shiftl 1 bit))) features refused_features.

Definition alloc_queue : M ist unit :=
  d ← zoom (Lens ikm set_ikm) kalloc;
  a ← zoom (Lens ikm set_ikm) kalloc;
  u ← zoom (Lens ikm set_ikm) kalloc;
  if negb (truthy d) || negb (truthy a) || negb (truthy u) then panic "virtio disk kalloc"
  else
    zoom (Lens ikm set_ikm) (do_memset d 0 PGSIZE;; do_memset a 0 PGSIZE;; do_memset u 0 PGSIZE);;
    modify (set_pages [d; a; u]);;
    modify (λ s, set_drv (set_desc (λ _, Desc NoAddr 0 0 0) (set_avail 0 (replicate (Z.to_nat NUM) 0)
      (set_ring 0 (replicate (Z.to_nat NUM) 0) (drv s)))) s);;
    wreg VIRTIO_MMIO_QUEUE_NUM NUM;;
    wreg VIRTIO_MMIO_QUEUE_DESC_LOW d;;
    wreg VIRTIO_MMIO_QUEUE_DESC_HIGH (Z.shiftr d 32);;
    wreg VIRTIO_MMIO_DRIVER_DESC_LOW a;;
    wreg VIRTIO_MMIO_DRIVER_DESC_HIGH (Z.shiftr a 32);;
    wreg VIRTIO_MMIO_DEVICE_DESC_LOW u;;
    wreg VIRTIO_MMIO_DEVICE_DESC_HIGH (Z.shiftr u 32).

Definition virtio_disk_init : M ist unit :=
  initlock LkVdisk;;
  magic ← rreg VIRTIO_MMIO_MAGIC_VALUE;
  version ← (if magic =? 0x74726976 then rreg VIRTIO_MMIO_VERSION else mret 0);
  id ← (if version =? 2 then rreg VIRTIO_MMIO_DEVICE_ID else mret 0);
  vendor ← (if id =? 2 then rreg VIRTIO_MMIO_VENDOR_ID else mret 0);
  if negb (vendor =? 0x554d4551) then panic "could not find virtio disk"
  else
    wreg VIRTIO_MMIO_STATUS 0;;
    wreg VIRTIO_MMIO_STATUS VIRTIO_CONFIG_S_ACKNOWLEDGE;;
    wreg VIRTIO_MMIO_STATUS (Z.lor VIRTIO_CONFIG_S_ACKNOWLEDGE VIRTIO_CONFIG_S_DRIVER);;
    features ← rreg VIRTIO_MMIO_DEVICE_FEATURES;
    wreg VIRTIO_MMIO_DRIVER_FEATURES (negotiate features);;
    wreg VIRTIO_MMIO_STATUS
      (Z.lor (Z.lor VIRTIO_CONFIG_S_ACKNOWLEDGE VIRTIO_CONFIG_S_DRIVER) VIRTIO_CONFIG_S_FEATURES_OK);;
    status ← rreg VIRTIO_MMIO_STATUS;
    if negb (truthy (Z.land status VIRTIO_CONFIG_S_FEATURES_OK)) then panic "virtio disk FEATURES_OK unset"
    else
      wreg VIRTIO_MMIO_QUEUE_SEL 0;;
      ready ← rreg VIRTIO_MMIO_QUEUE_READY;
      if truthy ready then panic "virtio disk should not be ready"
      else
        max ← rreg VIRTIO_MMIO_QUEUE_NUM_MAX;
        if max =? 0 then panic "virtio disk has no queue 0"
        else if max <? NUM then panic "virtio disk max queue too short"
        else
          alloc_queue;;
          wreg VIRTIO_MMIO_QUEUE_READY 0x1;;
          modify (λ s, set_drv (set_free (λ i, if (0 <=? i) && (i <? NUM) then 1 else free (drv s) i) (drv s)) s);;
          wreg VIRTIO_MMIO_STATUS (Z.lor status VIRTIO_CONFIG_S_DRIVER_OK).
End init.
