(* ===== verification/Ring.v ===== *)
(** * Circular buffers

    Pipes, the console and the UART keep bytes in an array of [N] entries,
    indexed by counters that only grow, wrap around at their width and are
    taken modulo [N].  [ring] says which list of bytes such a buffer holds. *)

From S2P Require Import Prelude.

Section ring.
  Variables (N W : Z).
  Hypotheses (HN : 0 < N) (HW : ∃ m, 0 < m ∧ W = m * N).

(** From position [r], the oldest first. *)
Record ring (data : list Z) (r : Z) (q : list Z) : Prop := {
  rg_data : Z.of_nat (length data) = N;
  rg_len : Z.of_nat (length q) ≤ N;
  rg_q k ch : q !! k = Some ch → data !! Z.to_nat ((r + Z.of_nat k) mod N) = Some ch
}.

Lemma wrap_mod x : (x mod W) mod N = x mod N.
Proof using HN HW.
  destruct HW as (m & Hm & ->). rewrite (Z.mod_eq x (m * N)) by nia.
  replace (x - m * N * (x / (m * N))) with (x + (- m * (x / (m * N))) * N) by ring.
  apply Z.mod_add. lia.
Qed.

Lemma wrap_add x y : ((x mod W) + y) mod N = (x + y) mod N.
Proof using HN HW. by rewrite <-Z.add_mod_idemp_l, wrap_mod, Z.add_mod_idemp_l by lia. Qed.

Lemma index_ne x k : 0 < k < N → (x + k) mod N ≠ x mod N.
Proof.
  intros Hk E. assert ((x + k - x) mod N = 0) as H0.
  { rewrite Zminus_mod, E, Z.sub_diag. apply Z.mod_0_l. lia. }
  replace (x + k - x) with k in H0 by lia. rewrite Z.mod_small in H0 by lia. lia.
Qed.

Lemma index_lt x (data : list Z) : Z.of_nat (length data) = N → (Z.to_nat (x mod N) < length data)%nat.
Proof using HN. intros Hl. pose proof (Z.mod_pos_bound x N HN). lia. Qed.

Lemma ring_nil data r : Z.of_nat (length data) = N → ring data r [].
Proof using HN. intros Hl. split; [done|simpl; lia|done]. Qed.

(** Storing at the end: the counter of the writer is [r + length q]. *)
Lemma ring_put data r q ch :
  ring data r q → Z.of_nat (length q) < N →
  ring (<[Z.to_nat ((r + Z.of_nat (length q)) mod N) := ch]> data) r (q ++ [ch]).
Proof using HN.
  intros [H1 H2 H3] Hn. split; rewrite ?length_insert, ?length_app; simpl; [done|lia|].
  intros k ch' [Hk|[Hk Hq]]%lookup_app_Some.
  - pose proof (lookup_lt_Some _ _ _ Hk). rewrite list_lookup_insert_ne; [by apply H3|].
    intros E%Z2Nat.inj; [|apply Z.mod_pos_bound; lia..].
    apply (index_ne (r + Z.of_nat k) (Z.of_nat (length q) - Z.of_nat k)); [lia|].
    rewrite <-E. f_equal. lia.
  - destruct (k - length q)%nat as [|j] eqn:Ej; [|done]. injection Hq as <-.
    replace k with (length q) by lia. by apply list_lookup_insert_eq, index_lt.
Qed.

Lemma ring_head data r ch q : ring data r (ch :: q) → data !!! Z.to_nat (r mod N) = ch.
Proof.
  intros [H1 H2 H3]. apply list_lookup_total_correct. pose proof (H3 0%nat ch eq_refl) as H6.
  change (Z.of_nat 0) with 0 in H6. by rewrite Z.add_0_r in H6.
Qed.

(** Taking the oldest byte out; [r'] is the next counter, wrapped or not. *)
Lemma ring_tail data r r' ch q :
  ring data r (ch :: q) → r' mod N = (r + 1) mod N → ring data r' q.
Proof using HN.
  intros [H1 H2 H3] Hr. simpl in *. split; [done|lia|]. intros k c Hk. rewrite <-(H3 (S k) c) by done.
  do 2 f_equal. rewrite <-Z.add_mod_idemp_l, Hr, Z.add_mod_idemp_l by lia. f_equal. lia.
Qed.

(** Taking the newest byte out again. *)
Lemma ring_drop_last data r q ch : ring data r (q ++ [ch]) → ring data r q.
Proof.
  intros [H1 H2 H3]. rewrite length_app in H2. simpl in H2. split; [done|lia|].
  intros k c Hk. apply H3. by apply lookup_app_l_Some.
Qed.

Lemma ring_last data r q ch :
  ring data r (q ++ [ch]) → data !!! Z.to_nat ((r + Z.of_nat (length q)) mod N) = ch.
Proof.
  intros [H1 H2 H3]. apply list_lookup_total_correct, H3. rewrite lookup_app_r by lia.
  by rewrite Nat.sub_diag.
Qed.

Lemma ring_counter data r r' q : ring data r q → r' mod N = r mod N → ring data r' q.
Proof using HN.
  intros [H1 H2 H3] Hr. split; [done|done|]. intros k c Hk. rewrite <-(H3 k c Hk). do 2 f_equal.
  by rewrite <-Z.add_mod_idemp_l, Hr, Z.add_mod_idemp_l by lia.
Qed.

(** ** Comparing the counters *)

(** With [w] the counter of the writer, [w = r] means empty. *)
Lemma counter_empty r n : 0 ≤ r < W → 0 ≤ n ≤ N → N < W → ((r + n) mod W =? r) = (n =? 0).
Proof using HN.
  intros Hr Hn HNW. destruct (Z.eqb_spec n 0) as [->|Hne].
  - rewrite Z.add_0_r, Z.mod_small by done. apply Z.eqb_refl.
  - apply Z.eqb_neq. intros E. assert (n mod W = 0) as H0.
    { replace n with (r + n - r) by lia. rewrite <-Zminus_mod_idemp_l, E, Z.sub_diag. apply Z.mod_0_l. lia. }
    rewrite Z.mod_small in H0 by lia. lia.
Qed.

Lemma counter_full r n : 0 ≤ n ≤ N → N < W → ((r + n) mod W =? (r + N) mod W) = (n =? N).
Proof using HN.
  intros Hn HNW. destruct (Z.eqb_spec n N) as [->|Hne]; [apply Z.eqb_refl|].
  apply Z.eqb_neq. intros E. assert ((N - n) mod W = 0) as H0.
  { replace (N - n) with (r + N - (r + n)) by lia. rewrite Zminus_mod, E, Z.sub_diag. apply Z.mod_0_l. lia. }
  rewrite Z.mod_small in H0 by lia. lia.
Qed.

(** The number of bytes is the difference of the counters. *)
Lemma counter_diff r n : 0 ≤ n ≤ N → N < W → ((r + n) mod W - r) mod W = n.
Proof using HN.
  intros Hn HNW. rewrite Zminus_mod_idemp_l. replace (r + n - r) with n by lia. apply Z.mod_small. lia.
Qed.
End ring.
