(* ===== verification/VirtioSpec.v ===== *)
(** * The disk driver and its device

    The driver of Virtio with the processes that call it and a device that
    follows the virtio specification for block devices: it takes requests from
    the ring of available chains, carries them out in any order, and reports
    them in the ring of used chains.  [disk_typed]: every request that the
    device takes is well formed, and neither side ever goes wrong.
    [disk_refines]: the whole is a disk on which each call is one atomic
    transfer.  [disk_wakes]: no completion is lost. *)

From S2P Require Import Prelude Riscv Memory Kalloc Disk Ring Virtio.

Ltac Zify.zify_pre_hook ::= unfold_consts; unfold BSIZE, NUM in *.

(** ** The device *)

(** Its disk in sectors of 512 bytes, the part of the ring that it has read,
    the chains that it works on, and its interrupt line. *)
Record device : Type := Device { sectors : Z → list Z; last_avail : Z; fetched : list Z; irq : bool }.

Fixpoint put_sectors (k : nat) (n : Z) (x : list Z) (d : Z → list Z) : Z → list Z :=
  match k with
  | O => d
  | S k => put_sectors k (n + 1) (drop 512 x) (upd d n (take 512 x))
  end.
Fixpoint get_sectors (k : nat) (n : Z) (d : Z → list Z) : list Z :=
  match k with
  | O => []
  | S k => d n ++ get_sectors k (n + 1) d
  end.

(** A request as the device reads it from the chain that starts at [id]: a
    header, a buffer that the device reads (to write the disk) or writes, and
    a byte for the status. *)
Record request : Type := Request { to_disk : bool; from_sector : Z; count : nat; buffer : Z; status_at : Z }.

Definition follows (d : virtq_desc) : bool := Z.testbit (flags d) 0.
Definition device_writes (d : virtq_desc) : bool := Z.testbit (flags d) 1.

Definition read_chain (v : vst) (id : Z) : option request :=
  if negb ((0 <=? id) && (id <? NUM)) then None
  else
    let d0 := desc v id in
    match addr d0 with
    | OpsAt i =>
        if negb ((len d0 =? 16) && follows d0 && negb (device_writes d0) && (0 <=? next d0) && (next d0 <? NUM)) then None
        else
          let d1 := desc v (next d0) in
          match addr d1 with
          | DataOf b =>
              if negb (follows d1 && (len d1 mod 512 =? 0) && (0 <=? next d1) && (next d1 <? NUM)) then None
              else
                let d2 := desc v (next d1) in
                match addr d2 with
                | StatusAt j =>
                    if negb ((len d2 =? 1) && device_writes d2 && negb (follows d2)) then None
                    else
                      let q := ops v i in
                      if (rtype q =? VIRTIO_BLK_T_OUT) && negb (device_writes d1)
                      then Some (Request true (sector q) (Z.to_nat (len d1 / 512)) b j)
                      else if (rtype q =? VIRTIO_BLK_T_IN) && device_writes d1
                      then Some (Request false (sector q) (Z.to_nat (len d1 / 512)) b j)
                      else None
                | _ => None
                end
          | _ => None
          end
    | _ => None
    end.

(** ** The system *)

(** What the process that owns a buffer does: it is about to run
    [virtio_disk_rw], sleeps for a descriptor, or sleeps for its request. *)
Inductive pstat : Type :=
  | Idle
  | Ready (write : bool)
  | NoDesc (write : bool)
  | InDisk (write : bool) (i0 : Z)
  | Woken (write : bool) (i0 : Z).

Record sys : Type := Sys { drv : vst; dev : device; procs : Z → pstat }.

Definition wakes (c : chan) (t : trace) : bool := bool_decide (EvWakeup c ∈ t).

(** The processes after the wakeups of [t]. *)
Definition wake (t : trace) (p : Z → pstat) (b : Z) : pstat :=
  match p b with
  | NoDesc w => if wakes ChDiskFree t then Ready w else NoDesc w
  | InDisk w i => if wakes (ChBuf b) t then Woken w i else InDisk w i
  | x => x
  end.

Inductive label : Type :=
  | LSet (b n : Z) (x : block)   (** the owner of an idle buffer uses it *)
  | LCall (b : Z) (write : bool)
  | LStart (b : Z)
  | LResume (b : Z)
  | LKill (b : Z)                (** [kill] wakes a sleeping process *)
  | LIntr
  | LFetch
  | LDone (id : Z).

Inductive outcome : Type := Good (s : sys) | Blocked | Wrong.

Definition interrupted (d : device) : device := Device (sectors d) (last_avail d) (fetched d) false.

(** The device carries out request [r] of chain [id] and reports success: the
    model has no device errors, for which [virtio_disk_intr] panics. *)
Definition perform (id : Z) (r : request) (s : sys) : sys :=
  let v := drv s in
  let d := dev s in
  let '(v, secs) :=
    if to_disk r then (v, put_sectors (count r) (from_sector r) (bdata v (buffer r)) (sectors d))
    else (set_bdata (upd (bdata v) (buffer r) (get_sectors (count r) (from_sector r) (sectors d))) v, sectors d) in
  let v := set_status (upd (info_status v) (status_at r) 0) v in
  let v := set_ring (u16 (ring_idx v + 1)) (<[Z.to_nat (ring_idx v mod NUM) := id]> (ring_ids v)) v in
  Sys v (Device secs (last_avail d) (filter (λ i, i ≠ id) (fetched d)) true) (procs s).

(** Another block [n] with contents [x] in buffer [b]. *)
Definition set_buffer (b n : Z) (x : block) (v : vst) : vst :=
  Vst (desc v) (avail_idx v) (avail_ring v) (ring_idx v) (ring_ids v) (free v) (used_idx v) (info_b v)
    (info_status v) (ops v) (bdisk v) (upd (bdata v) b x) (upd (blockno v) b n).

Definition step (l : label) (s : sys) : outcome :=
  let v := drv s in
  let d := dev s in
  match l with
  | LSet b n x =>
      match procs s b with
      | Idle =>
          if (0 <=? n) && (n <? 2 ^ 31) && (Z.of_nat (length x) =? BSIZE) then Good (Sys (set_buffer b n x v) d (procs s))
          else Blocked
      | _ => Blocked
      end
  | LCall b w =>
      match procs s b with
      | Idle => Good (Sys v d (upd (procs s) b (Ready w)))
      | _ => Blocked
      end
  | LStart b =>
      match procs s b with
      | Ready w =>
          match rw_start b w v with
          | Done (Some i0) v t => Good (Sys v d (upd (wake t (procs s)) b (InDisk w i0)))
          | Done None v t => Good (Sys v d (upd (wake t (procs s)) b (NoDesc w)))
          | _ => Wrong
          end
      | _ => Blocked
      end
  | LResume b =>
      match procs s b with
      | Woken w i0 =>
          match rw_resume b i0 v with
          | Done true v t => Good (Sys v d (upd (wake t (procs s)) b Idle))
          | Done false v t => Good (Sys v d (upd (wake t (procs s)) b (InDisk w i0)))
          | _ => Wrong
          end
      | _ => Blocked
      end
  | LKill b =>
      match procs s b with
      | NoDesc w => Good (Sys v d (upd (procs s) b (Ready w)))
      | InDisk w i0 => Good (Sys v d (upd (procs s) b (Woken w i0)))
      | _ => Blocked
      end
  | LIntr =>
      match virtio_disk_intr (if irq d then 1 else 0) v with
      | Done _ v t => Good (Sys v (interrupted d) (wake t (procs s)))
      | _ => Wrong
      end
  | LFetch =>
      if last_avail d =? avail_idx v then Blocked
      else
        let id := avail_ring v !!! Z.to_nat (last_avail d mod NUM) in
        match read_chain v id with
        | Some _ => Good (Sys v (Device (sectors d) (u16 (last_avail d + 1)) (id :: fetched d) (irq d)) (procs s))
        | None => Wrong
        end
  | LDone id =>
      if bool_decide (id ∈ fetched d) then
        match read_chain v id with
        | Some r => Good (perform id r s)
        | None => Wrong
        end
      else Blocked
  end.

(** The system after [virtio_disk_init], with a disk and buffers that hold
    whole sectors and blocks. *)
Record started (s : sys) : Prop := {
  sd_free i : 0 ≤ i < NUM → free (drv s) i = 1;
  sd_avail : avail_idx (drv s) = 0 ∧ length (avail_ring (drv s)) = 8%nat ∧ last_avail (dev s) = 0;
  sd_used : used_idx (drv s) = 0 ∧ ring_idx (drv s) = 0 ∧ length (ring_ids (drv s)) = 8%nat;
  sd_fetched : fetched (dev s) = [];
  sd_procs b : procs s b = Idle;
  sd_blockno b : 0 ≤ blockno (drv s) b < 2 ^ 31;
  sd_data b : Z.of_nat (length (bdata (drv s) b)) = BSIZE;
  sd_sectors n : length (sectors (dev s) n) = 512%nat
}.

(** ** The abstract disk *)

(** A call of [virtio_disk_rw] has been made, and its transfer has happened. *)
Inductive astat : Type := AIdle | ACalled (write : bool) | AServed (write : bool).

(** A disk of blocks, the contents and block numbers of the buffers, and the
    calls on them. *)
Record adisk : Type := Adisk { blocks : Z → block; contents : Z → block; number : Z → Z; calls : Z → astat }.

Inductive action : Type :=
  | ASet (b n : Z) (x : block)
  | ACall (b : Z) (write : bool)
  | ATransfer (b : Z)
  | AReturn (b : Z)
  | ATau.

Definition arun (x : action) (a : adisk) : option adisk :=
  match x with
  | ASet b n x =>
      match calls a b with
      | AIdle => Some (Adisk (blocks a) (upd (contents a) b x) (upd (number a) b n) (calls a))
      | _ => None
      end
  | ACall b w =>
      match calls a b with
      | AIdle => Some (Adisk (blocks a) (contents a) (number a) (upd (calls a) b (ACalled w)))
      | _ => None
      end
  | ATransfer b =>
      match calls a b with
      | ACalled true =>
          Some (Adisk (upd (blocks a) (number a b) (contents a b)) (contents a) (number a) (upd (calls a) b (AServed true)))
      | ACalled false =>
          Some (Adisk (blocks a) (upd (contents a) b (blocks a (number a b))) (number a) (upd (calls a) b (AServed false)))
      | _ => None
      end
  | AReturn b =>
      match calls a b with
      | AServed _ => Some (Adisk (blocks a) (contents a) (number a) (upd (calls a) b AIdle))
      | _ => None
      end
  | ATau => Some a
  end.

Record same_disk (a a' : adisk) : Prop := {
  sm_blocks n : blocks a n = blocks a' n;
  sm_contents b : contents a b = contents a' b;
  sm_number b : number a b = number a' b;
  sm_calls b : calls a b = calls a' b
}.

(** The disk that the system implements: block [n] is sectors [2n] and
    [2n+1], and the status that the device wrote tells whether a request was
    carried out. *)
Definition call_of (st : Z → Z) (x : pstat) : astat :=
  match x with
  | Idle => AIdle
  | Ready w | NoDesc w => ACalled w
  | InDisk w i | Woken w i => if st i =? 0 then AServed w else ACalled w
  end.
Definition abs (s : sys) : adisk :=
  Adisk (λ n, get_sectors 2 (n * 2) (sectors (dev s))) (bdata (drv s)) (blockno (drv s))
    (λ b, call_of (info_status (drv s)) (procs s b)).

Definition action_of (l : label) (s : sys) : action :=
  match l with
  | LSet b n x => ASet b n x
  | LCall b w => ACall b w
  | LDone id => ATransfer (info_b (drv s) id)
  | LResume b => if bdisk (drv s) b =? 1 then ATau else AReturn b
  | _ => ATau
  end.

(** The steps [ls], with the actions that they are. *)
Fixpoint run (ls : list label) (s : sys) : option (list action * sys) :=
  match ls with
  | [] => Some ([], s)
  | l :: ls =>
      match step l s with
      | Good s1 => '(xs, s2) ← run ls s1; Some (action_of l s :: xs, s2)
      | _ => None
      end
  end.
Fixpoint aruns (xs : list action) (a : adisk) : option adisk :=
  match xs with
  | [] => Some a
  | x :: xs => a ← arun x a; aruns xs a
  end.

(** ** The invariant *)

(** A request of the driver: its buffer, its direction and its descriptors. *)
Record rq : Type := Rq { rb : Z; rw : bool; r0 : Z; r1 : Z; r2 : Z }.

Definition ids (r : rq) : list Z := [r0 r; r1 r; r2 r].
Definition all_ids (L : list rq) : list Z := concat (ids <$> L).

(** The chain of [r] as [submit] wrote it. *)
Record chain_ok (v : vst) (r : rq) : Prop := {
  ch_d0 : desc v (r0 r) = Desc (OpsAt (r0 r)) 16 VRING_DESC_F_NEXT (r1 r);
  ch_d1 : desc v (r1 r) = Desc (DataOf (rb r)) BSIZE (Z.lor (if rw r then 0 else VRING_DESC_F_WRITE) VRING_DESC_F_NEXT) (r2 r);
  ch_d2 : desc v (r2 r) = Desc (StatusAt (r0 r)) 1 VRING_DESC_F_WRITE 0;
  ch_op : ops v (r0 r) = Req (if rw r then VIRTIO_BLK_T_OUT else VIRTIO_BLK_T_IN) 0 (blockno v (rb r) * 2);
  ch_b : info_b v (r0 r) = rb r
}.

(** The requests [A] use their descriptors alone. *)
Record chains_ok (v : vst) (A : list rq) : Prop := {
  cs_nodup : NoDup (all_ids A);
  cs_range i : i ∈ all_ids A → 0 ≤ i < NUM;
  cs_free i : 0 ≤ i < NUM → free v i = if decide (i ∈ all_ids A) then 0 else 1;
  cs_bufs : NoDup (rb <$> A);
  cs_chain r : r ∈ A → chain_ok v r
}.

(** Requests that the device has not read yet ([Q]), that it works on ([F]),
    that it has carried out ([C]), and that the interrupt handler has seen
    ([W]). *)
Record driver_ok (v : vst) (Q F C W : list rq) : Prop := {
  dv_chains : chains_ok v (Q ++ F ++ C ++ W);
  dv_pending r : r ∈ Q ++ F → info_status v (r0 r) = 0xff;
  dv_done r : r ∈ C ++ W → info_status v (r0 r) = 0;
  dv_busy r : r ∈ Q ++ F ++ C → bdisk v (rb r) = 1;
  dv_seen r : r ∈ W → bdisk v (rb r) = 0;
  dv_used : ring NUM (ring_ids v) (used_idx v) (r0 <$> C);
  dv_ring : ring_idx v = u16 (used_idx v + Z.of_nat (length C)) ∧ 0 ≤ used_idx v < 2 ^ 16;
  dv_block b : 0 ≤ blockno v b < 2 ^ 31;
  dv_data b : Z.of_nat (length (bdata v b)) = BSIZE
}.

(** The device has read the ring up to the requests [Q]. *)
Record device_ok (v : vst) (d : device) (Q F C : list rq) : Prop := {
  de_avail : ring NUM (avail_ring v) (last_avail d) (r0 <$> Q);
  de_idx : avail_idx v = u16 (last_avail d + Z.of_nat (length Q)) ∧ 0 ≤ last_avail d < 2 ^ 16;
  de_fetched id : id ∈ fetched d ↔ id ∈ r0 <$> F;
  de_irq : C ≠ [] → irq d = true;
  de_sectors n : length (sectors d n) = 512%nat
}.

(** The process of each request waits for it; one whose request was seen is
    awake.  A process waits for descriptors only while fewer than three are
    free. *)
Record procs_ok (p : Z → pstat) (Q F C W : list rq) : Prop := {
  pr_wait r : r ∈ Q ++ F ++ C → p (rb r) = InDisk (rw r) (r0 r) ∨ p (rb r) = Woken (rw r) (r0 r);
  pr_seen r : r ∈ W → p (rb r) = Woken (rw r) (r0 r);
  pr_req b w i : p b = InDisk w i ∨ p b = Woken w i → ∃ r, r ∈ Q ++ F ++ C ++ W ∧ rb r = b;
  pr_full b w : p b = NoDesc w → (2 ≤ length (Q ++ F ++ C ++ W))%nat
}.

Definition inv (s : sys) : Prop := ∃ Q F C W,
  driver_ok (drv s) Q F C W ∧ device_ok (drv s) (dev s) Q F C ∧ procs_ok (procs s) Q F C W.

Lemma started_inv s : started s → inv s.
Proof.
  intros [H1 (H2 & H3 & H4) (H5 & H6 & H7) H8 H9 H10 H11 H12]. exists [], [], [], []. split_and!.
  - split; try done; try (by intros ? ?%elem_of_nil); rewrite ?H5, ?H6; [|apply ring_nil; lia|done].
    split; try done; try (by intros ? ?%elem_of_nil); apply NoDup_nil_2.
  - split; try done; rewrite ?H2, ?H4, ?H8; [apply ring_nil; lia|done|done].
  - split; cbn [app]; [by intros r ?%elem_of_nil..| |].
    + intros b w i [E|E]; by rewrite H9 in E.
    + intros b w E. by rewrite H9 in E.
Qed.

(** Three descriptors for each request: at most two of the eight allow. *)
Lemma all_ids_app L1 L2 : all_ids (L1 ++ L2) = all_ids L1 ++ all_ids L2.
Proof. unfold all_ids. by rewrite fmap_app, concat_app. Qed.

Lemma all_ids_length L : length (all_ids L) = (3 * length L)%nat.
Proof. induction L as [|r L IH]; [done|]. cbn [all_ids fmap list_fmap concat]. rewrite length_app. fold (all_ids L). rewrite IH. cbn. lia. Qed.

Lemma in_ids r L i : r ∈ L → i ∈ ids r → i ∈ all_ids L.
Proof.
  intros Hr Hi. induction L as [|x L IH]; [by apply elem_of_nil in Hr|]. change (all_ids (x :: L)) with (ids x ++ all_ids L).
  apply elem_of_cons in Hr as [->|Hr]; apply elem_of_app; [by left|right; by apply IH].
Qed.

Lemma room_bound (l : list Z) : NoDup l → (∀ i, i ∈ l → 0 ≤ i < NUM) → (length l ≤ 8)%nat.
Proof.
  intros Hnd Hr. change 8%nat with (length (seqZ 0 NUM)). apply submseteq_length, NoDup_submseteq; [done|].
  intros i Hi%Hr. by apply elem_of_seqZ.
Qed.

Lemma all_ids_perm L L' : L ≡ₚ L' → all_ids L ≡ₚ all_ids L'.
Proof. intros H. unfold all_ids. by rewrite H. Qed.

Lemma chains_ok_perm v A A' : A ≡ₚ A' → chains_ok v A → chains_ok v A'.
Proof.
  intros HA [C1 C2 C3 C4 C5]. pose proof (all_ids_perm A A' HA) as Hids. split.
  - by rewrite <-Hids.
  - intros i. rewrite <-Hids. apply C2.
  - intros i Hi. rewrite C3 by done. by repeat case_decide; rewrite ?Hids in *.
  - by rewrite <-HA.
  - intros r. rewrite <-HA. apply C5.
Qed.

Section chains.
  Context (v : vst) (A : list rq) (HA : chains_ok v A).

Lemma chain_range r : r ∈ A → (0 ≤ r0 r < NUM ∧ 0 ≤ r1 r < NUM ∧ 0 ≤ r2 r < NUM) ∧ r0 r ≠ r1 r ∧ r0 r ≠ r2 r ∧ r1 r ≠ r2 r.
Proof using HA.
  intros Hr. split.
  - split_and!; apply (cs_range _ _ HA); apply (in_ids r A); try done; unfold ids; set_solver.
  - apply list_elem_of_split in Hr as (L1 & L2 & ->). pose proof (cs_nodup _ _ HA) as Hnd. rewrite all_ids_app in Hnd.
    apply NoDup_app in Hnd as (_ & _ & Hnd). change (all_ids (r :: L2)) with (ids r ++ all_ids L2) in Hnd.
    apply NoDup_app in Hnd as (Hnd & _ & _). unfold ids in Hnd. rewrite !NoDup_cons in Hnd. set_solver.
Qed.

(** Different requests have different descriptors and buffers. *)
Lemma ids_apart r r' i : r ∈ A → r' ∈ A → i ∈ ids r → i ∈ ids r' → r = r'.
Proof using HA.
  intros Hr Hr' Hi Hi'. pose proof (cs_nodup _ _ HA) as Hnd. apply list_elem_of_split in Hr as (L1 & L2 & ->).
  rewrite all_ids_app in Hnd. change (all_ids (r :: L2)) with (ids r ++ all_ids L2) in Hnd.
  apply NoDup_app in Hnd as (_ & H1 & H2). apply NoDup_app in H2 as (_ & H3 & _).
  apply elem_of_app in Hr' as [Hr'|[->|Hr']%elem_of_cons]; [| done|].
  - exfalso. apply (H1 i); [by apply (in_ids r')|apply elem_of_app; by left].
  - exfalso. apply (H3 i); [done|by apply (in_ids r')].
Qed.

Lemma bufs_apart r r' : r ∈ A → r' ∈ A → rb r = rb r' → r = r'.
Proof using HA.
  intros Hr Hr' E. pose proof (cs_bufs _ _ HA) as Hnd. apply list_elem_of_split in Hr as (L1 & L2 & ->).
  rewrite fmap_app, fmap_cons in Hnd. apply NoDup_app in Hnd as (_ & H1 & H2). apply NoDup_cons in H2 as [H2 _].
  apply elem_of_app in Hr' as [Hr'|[->|Hr']%elem_of_cons]; [|done|].
  - exfalso. apply (H1 (rb r')); [by apply list_elem_of_fmap_2|rewrite E; apply elem_of_cons; by left].
  - exfalso. apply H2. rewrite E. by apply list_elem_of_fmap_2.
Qed.

Lemma few_requests : (3 * length A ≤ 8)%nat.
Proof using HA. rewrite <-all_ids_length. apply room_bound; apply HA. Qed.

Lemma read_chain_ok r :
  r ∈ A → read_chain v (r0 r) = Some (Request (rw r) (blockno v (rb r) * 2) 2 (rb r) (r0 r)).
Proof using HA.
  intros Hr. destruct (chain_range r Hr) as [(R0 & R1 & R2) _]. destruct (cs_chain _ _ HA r Hr) as [D0 D1 D2 Op _].
  unfold read_chain. assert ((0 <=? r0 r) && (r0 r <? NUM) = true) as -> by lia. cbn [negb]. rewrite D0. cbn [addr len next].
  assert ((0 <=? r1 r) = true ∧ (r1 r <? NUM) = true) as [-> ->] by lia. rewrite D1. cbn [addr len next flags].
  assert ((0 <=? r2 r) = true ∧ (r2 r <? NUM) = true) as [-> ->] by lia. rewrite D2. cbn [addr len next flags]. rewrite Op.
  destruct (rw r); reflexivity.
Qed.
End chains.

(** ** The operations of the driver *)

(** Step over a call that computes, or of which [tac] proves the result. *)
Tactic Notation "over" tactic3(tac) := erewrite bind_done by tac; cbv beta; rewrite ?after_nil.

(** [free_desc]. *)
Definition released (i : Z) (v : vst) : vst := set_free (upd (free v) i 1) (set_desc (upd (desc v) i (Desc NoAddr 0 0 0)) v).

Lemma free_desc_run v i : i < NUM → free v i = 0 → free_desc i v = Done tt (released i v) [EvWakeup ChDiskFree].
Proof.
  intros Hi Hf. unfold free_desc. assert ((i >=? NUM) = false) as -> by lia.
  over reflexivity. rewrite Hf. reflexivity.
Qed.

Lemma alloc_loop_run k : ∀ i v,
  (∃ j, i ≤ j < i + Z.of_nat k ∧ free v j ≠ 0 ∧ alloc_desc_loop k i v = Done j (set_free (upd (free v) j 0) v) [])
  ∨ (∀ j, i ≤ j < i + Z.of_nat k → free v j = 0) ∧ alloc_desc_loop k i v = Done (-1) v [].
Proof.
  induction k as [|k IH]; intros i v.
  { right. split; [lia|done]. }
  cbn [alloc_desc_loop]. over reflexivity. destruct (Z.eq_dec (free v i) 0) as [E|E].
  - rewrite E. change (truthy 0) with false. destruct (IH (i + 1) v) as [(j & Hj & Hf & ->)|[Hf ->]].
    + left. exists j. split_and!; [lia|lia|done|done].
    + right. split; [|done]. intros j Hj. destruct (Z.eq_dec j i) as [->|]; [done|apply Hf; lia].
  - left. exists i. assert (truthy (free v i) = true) as -> by (unfold truthy; lia). split_and!; [lia|lia|done|done].
Qed.

Lemma alloc_desc_run v :
  (∃ j, 0 ≤ j < NUM ∧ free v j ≠ 0 ∧ alloc_desc v = Done j (set_free (upd (free v) j 0) v) [])
  ∨ (∀ j, 0 ≤ j < NUM → free v j = 0) ∧ alloc_desc v = Done (-1) v [].
Proof. apply (alloc_loop_run 8 0). Qed.

(** The driver after descriptors were taken and given back. *)
Record same_but_free (v v' : vst) : Prop := {
  sf_eq : v' = set_free (free v') (set_desc (desc v') v);
  sf_free i : 0 ≤ i < NUM → free v' i = free v i;
  sf_desc i : 0 ≤ i < NUM → free v i = 0 → desc v' i = desc v i
}.

Lemma free_descs_run got : ∀ v, NoDup got → (∀ i, i ∈ got → i < NUM ∧ free v i = 0) →
  ∃ v' t, free_descs got v = Done tt v' t ∧ v' = set_free (free v') (set_desc (desc v') v)
    ∧ (∀ i, free v' i = if decide (i ∈ got) then 1 else free v i) ∧ (∀ i, i ∉ got → desc v' i = desc v i).
Proof.
  induction got as [|j got IH]; intros v Hnd Hgot.
  { exists v, []. split_and!; [done|by destruct v|intros i; rewrite decide_False; [done|apply not_elem_of_nil]|done]. }
  apply NoDup_cons in Hnd as [Hj Hnd]. destruct (Hgot j ltac:(left)) as [Hr Hf].
  destruct (IH (released j v)) as (v' & t & E & Ev & Hfree & Hdesc); [done| |].
  { intros i Hi. destruct (Hgot i ltac:(by right)) as [Hi1 Hi2]. split; [done|]. cbn. rewrite upd_ne; [done|by intros ->]. }
  exists v', ([EvWakeup ChDiskFree] ++ t). split_and!.
  - cbn [free_descs]. over (by apply free_desc_run). by rewrite E.
  - by rewrite Ev.
  - intros i. rewrite Hfree. cbn. unfold upd. repeat case_decide; set_solver.
  - intros i Hi. rewrite Hdesc by set_solver. cbn. rewrite upd_ne; [done|set_solver].
Qed.

(** The driver [v] with the descriptors [got] taken. *)
Record holding (v : vst) (got : list Z) (w : vst) : Prop := {
  hd_eq : w = set_free (free w) v;
  hd_free i : free w i = if decide (i ∈ got) then 0 else free v i;
  hd_nodup : NoDup got;
  hd_got i : i ∈ got → 0 ≤ i < NUM ∧ free v i = 1
}.

Lemma holding_more v got w j :
  holding v got w → (∀ i, 0 ≤ i < NUM → free v i = 0 ∨ free v i = 1) → 0 ≤ j < NUM → free w j ≠ 0 →
  holding v (got ++ [j]) (set_free (upd (free w) j 0) w).
Proof.
  intros [H1 H2 H3 H4] Hbit Hj Hf. rewrite H2 in Hf. case_decide as Hin; [done|]. split.
  - by rewrite H1.
  - intros i. cbn. unfold upd. rewrite H2. repeat case_decide; set_solver.
  - apply NoDup_app. split_and!; [done|set_solver|apply NoDup_singleton].
  - intros i [Hi| ->%list_elem_of_singleton]%elem_of_app; [by apply H4|]. split; [done|]. destruct (Hbit j Hj); done.
Qed.

(** Giving them back leaves the descriptors in use alone. *)
Lemma holding_back v got w :
  holding v got w → ∃ v' t, free_descs got w = Done tt v' t ∧ same_but_free v v'.
Proof.
  intros [H1 H2 H3 H4]. destruct (free_descs_run got w) as (v' & t & E & Ev & Hfree & Hdesc); [done| |].
  { intros i Hi. destruct (H4 i Hi). split; [lia|]. by rewrite H2, decide_True. }
  exists v', t. split; [done|]. split.
  - by rewrite Ev, H1.
  - intros i Hi. rewrite Hfree, H2. case_decide as Hin; [|done]. by destruct (H4 i Hin) as [_ ->].
  - intros i Hi Hf. rewrite Hdesc; [by rewrite H1|]. intros [_ Hin]%H4. lia.
Qed.

Lemma alloc3_loop_run k : ∀ got v w,
  holding v got w → (∀ i, 0 ≤ i < NUM → free v i = 0 ∨ free v i = 1) →
  (∃ new w', length new = k ∧ alloc3_loop k got w = Done (Some (got ++ new)) w' [] ∧ holding v (got ++ new) w')
  ∨ (∃ got' v' t, (length got' < length got + k)%nat ∧ alloc3_loop k got w = Done None v' t ∧ same_but_free v v'
      ∧ ∀ i, 0 ≤ i < NUM → free v i = 1 → i ∈ got').
Proof.
  induction k as [|k IH]; intros got v w Hh Hbit.
  { left. exists [], w. rewrite app_nil_r. done. }
  cbn [alloc3_loop]. destruct (alloc_desc_run w) as [(j & Hj & Hf & E)|[Hnone E]]; over (exact E).
  - assert ((j <? 0) = false) as -> by lia. pose proof (holding_more v got w j Hh Hbit Hj Hf) as Hh'.
    destruct (IH _ _ _ Hh' Hbit) as [(new & w' & Hl & En & Hn)|(got' & v' & t & Hl & En & Hn)].
    + left. exists (j :: new), w'. rewrite (app_assoc got [j] new : got ++ j :: new = _). split_and!; [cbn; lia|by rewrite En|done].
    + right. exists got', v', t. rewrite length_app in Hl. cbn in Hl. split_and!; [lia|by rewrite En|apply Hn..].
  - right. destruct (holding_back v got w Hh) as (v' & t & Eb & Hs).
    exists got, v', (t ++ []). split_and!; [lia| |done|].
    + change (-1 <? 0) with true. cbv iota. by over (exact Eb).
    + intros i Hi Hv. specialize (Hnone i Hi). rewrite (hd_free _ _ _ Hh) in Hnone. case_decide; [done|lia].
Qed.

(** [submit]. *)
Definition submitted (b : Z) (write : bool) (i0 i1 i2 : Z) (v : vst) : vst :=
  Vst (upd (upd (upd (desc v) i0 (Desc (OpsAt i0) 16 VRING_DESC_F_NEXT i1)) i1
        (Desc (DataOf b) BSIZE (Z.lor (if write then 0 else VRING_DESC_F_WRITE) VRING_DESC_F_NEXT) i2))
        i2 (Desc (StatusAt i0) 1 VRING_DESC_F_WRITE 0))
    (u16 (avail_idx v + 1)) (<[Z.to_nat (avail_idx v mod NUM) := i0]> (avail_ring v)) (ring_idx v) (ring_ids v)
    (free v) (used_idx v) (upd (info_b v) i0 b) (upd (info_status v) i0 0xff)
    (upd (ops v) i0 (Req (if write then VIRTIO_BLK_T_OUT else VIRTIO_BLK_T_IN) 0 (u32 (blockno v b * (BSIZE / 512)))))
    (upd (bdisk v) b 1) (bdata v) (blockno v).

Lemma submit_run b w i0 i1 i2 v :
  submit b w i0 i1 i2 v = Done tt (submitted b w i0 i1 i2 v) [EvMmio (VIRTIO0 + VIRTIO_MMIO_QUEUE_NOTIFY) 0].
Proof. reflexivity. Qed.

(** The start of [virtio_disk_rw]: it puts its request in the queue, or fewer
    than three descriptors are free. *)
Lemma rw_start_run b wr v :
  (∀ i, 0 ≤ i < NUM → free v i = 0 ∨ free v i = 1) →
  (∃ i0 i1 i2 v1 t, holding v [i0; i1; i2] v1 ∧ rw_start b wr v = Done (Some i0) (submitted b wr i0 i1 i2 v1) t)
  ∨ (∃ got v' t, (length got ≤ 2)%nat ∧ rw_start b wr v = Done None v' t ∧ same_but_free v v'
      ∧ ∀ i, 0 ≤ i < NUM → free v i = 1 → i ∈ got).
Proof.
  intros Hbit. assert (holding v [] v) as H0.
  { split; [by destruct v|intros i; by rewrite decide_False by apply not_elem_of_nil|apply NoDup_nil_2|by intros i ?%elem_of_nil]. }
  unfold rw_start, alloc3_desc.
  destruct (alloc3_loop_run 3 [] v v H0 Hbit) as [(new & v1 & Hl & E & Hh)|(got & v' & t & Hl & E & Hs & Hgot)].
  - left. destruct new as [|i0 [|i1 [|i2 [|]]]]; try discriminate. exists i0, i1, i2, v1. eexists. split; [done|].
    over reflexivity. over (exact E). cbn [app]. over (apply submit_run). reflexivity.
  - right. exists got, v'. eexists. cbn in Hl. split_and!; [lia| |done|done].
    over reflexivity. over (exact E). reflexivity.
Qed.

(** [free_chain] on the three descriptors of a request. *)
Definition freed (r : rq) (v : vst) : vst :=
  released (r2 r) (released (r1 r) (released (r0 r) (set_info_b (upd (info_b v) (r0 r) no_buf) v))).

Lemma free_chain_next fuel v i d :
  desc v i = d → i < NUM → free v i = 0 →
  free_chain_loop (S fuel) i v = after [EvWakeup ChDiskFree]
    ((if truthy (Z.land (flags d) VRING_DESC_F_NEXT) then free_chain_loop fuel (next d) else mret tt) (released i v)).
Proof. intros <- Hi Hf. cbn [free_chain_loop]. over reflexivity. by over (by apply free_desc_run). Qed.

Lemma free_chain_run v A r :
  chains_ok v A → r ∈ A →
  free_chain (r0 r) (set_info_b (upd (info_b v) (r0 r) no_buf) v)
  = Done tt (freed r v) [EvWakeup ChDiskFree; EvWakeup ChDiskFree; EvWakeup ChDiskFree].
Proof.
  intros HA Hr. destruct (chain_range v A HA r Hr) as [(R0 & R1 & R2) (N01 & N02 & N12)].
  destruct (cs_chain _ _ HA r Hr) as [D0 D1 D2 _ _].
  assert (∀ i, i ∈ ids r → 0 ≤ i < NUM → free v i = 0) as Hf.
  { intros i Hi Hi'. rewrite (cs_free _ _ HA) by done. by rewrite decide_True by by apply (in_ids r). }
  assert (free v (r0 r) = 0 ∧ free v (r1 r) = 0 ∧ free v (r2 r) = 0) as (F0 & F1 & F2).
  { split_and!; apply Hf; try done; unfold ids; set_solver. }
  unfold free_chain. change (S (Z.to_nat NUM)) with 9%nat.
  rewrite (free_chain_next _ _ _ (Desc (OpsAt (r0 r)) 16 VRING_DESC_F_NEXT (r1 r))) by (done || lia). cbn [next flags].
  change (truthy (Z.land VRING_DESC_F_NEXT VRING_DESC_F_NEXT)) with true. cbv iota.
  rewrite (free_chain_next _ _ (r1 r) (desc v (r1 r))); [|cbn; by rewrite upd_ne|lia|cbn; by rewrite upd_ne].
  rewrite D1. cbn [next flags].
  assert (truthy (Z.land (Z.lor (if rw r then 0 else VRING_DESC_F_WRITE) VRING_DESC_F_NEXT) VRING_DESC_F_NEXT) = true) as ->
    by by destruct (rw r).
  rewrite (free_chain_next _ _ (r2 r) (Desc (StatusAt (r0 r)) 1 VRING_DESC_F_WRITE 0)); [reflexivity|cbn; by rewrite !upd_ne|lia|cbn; by rewrite !upd_ne].
Qed.

Lemma rw_resume_run v A r :
  chains_ok v A → r ∈ A → bdisk v (rb r) = 0 →
  ∃ t, rw_resume (rb r) (r0 r) v = Done true (freed r v) t ∧ wakes ChDiskFree t = true.
Proof.
  intros HA Hr Hb. eexists. split.
  - unfold rw_resume. over reflexivity. over reflexivity. rewrite Hb. change (0 =? 1) with false. cbv iota.
    over reflexivity. over (by apply (free_chain_run v A)). reflexivity.
  - reflexivity.
Qed.

(** ** Changes to the set of requests *)

Lemma elem_of_all_ids i L : i ∈ all_ids L ↔ ∃ r, r ∈ L ∧ i ∈ ids r.
Proof.
  split; [|intros (r & Hr & Hi); by apply (in_ids r)]. induction L as [|x L IH]; [by intros ?%elem_of_nil|].
  change (all_ids (x :: L)) with (ids x ++ all_ids L). intros [Hi|Hi]%elem_of_app.
  - exists x. split; [left|done].
  - destruct (IH Hi) as (r & Hr & H). exists r. split; [by right|done].
Qed.

(** What the invariant of a request reads. *)
Record agree (v v' : vst) (r : rq) : Prop := {
  ag_desc i : i ∈ ids r → desc v' i = desc v i;
  ag_ops : ops v' (r0 r) = ops v (r0 r);
  ag_b : info_b v' (r0 r) = info_b v (r0 r);
  ag_block : blockno v' (rb r) = blockno v (rb r)
}.

Lemma agree_chain v v' r : agree v v' r → chain_ok v r → chain_ok v' r.
Proof.
  intros [A1 A2 A3 A4] [D0 D1 D2 Op B]. unfold ids in A1.
  split; [rewrite A1 by set_solver; done..| |by rewrite A3]. by rewrite A2, A4.
Qed.

Lemma chains_ok_same v v' A :
  chains_ok v A → (∀ i, 0 ≤ i < NUM → free v' i = free v i) → (∀ r, r ∈ A → agree v v' r) → chains_ok v' A.
Proof.
  intros [C1 C2 C3 C4 C5] Hf Ha. split; [done|done| |done|].
  - intros i Hi. by rewrite Hf, C3.
  - intros r Hr. apply (agree_chain v); auto.
Qed.

(** A new request. *)
Lemma chains_ok_add v A v1 b w i0 i1 i2 :
  chains_ok v A → holding v [i0; i1; i2] v1 → b ∉ rb <$> A → 0 ≤ blockno v b < 2 ^ 31 →
  chains_ok (submitted b w i0 i1 i2 v1) (Rq b w i0 i1 i2 :: A).
Proof.
  intros HA [H1 H2 H3 H4] Hb Hn. assert (∀ i, i ∈ [i0; i1; i2] → i ∉ all_ids A) as Hnew.
  { intros i Hi Hin. destruct (H4 i Hi) as [Hr Hf]. rewrite (cs_free _ _ HA), decide_True in Hf by done. done. }
  assert (i0 ≠ i1 ∧ i0 ≠ i2 ∧ i1 ≠ i2) as (N01 & N02 & N12) by (rewrite !NoDup_cons in H3; set_solver).
  split; change (all_ids (Rq b w i0 i1 i2 :: A)) with ([i0; i1; i2] ++ all_ids A).
  - apply NoDup_app. split_and!; [done|done|apply HA].
  - intros i [Hi|Hi]%elem_of_app; [by apply H4|by apply (cs_range _ _ HA)].
  - intros i Hi. cbn [free submitted]. rewrite H2, (cs_free _ _ HA) by done. repeat case_decide; set_solver.
  - apply NoDup_cons. split; [done|apply HA].
  - intros r [->|Hr]%elem_of_cons.
    + split; cbn [desc submitted r0 r1 r2 ops info_b rb rw]; repeat first [rewrite upd_eq|rewrite upd_ne by done]; try done.
      assert (blockno v1 = blockno v) as Eb by by rewrite H1. f_equal. cbn [blockno submitted]. rewrite Eb.
      change (BSIZE / 512) with 2. apply u32_small. lia.
    + apply (agree_chain v); [|by apply (cs_chain _ _ HA)].
      assert (∀ i, i ∈ ids r → i ≠ i0 ∧ i ≠ i1 ∧ i ≠ i2) as Hne.
      { intros i Hi. assert (i ∈ all_ids A) by by apply (in_ids r). split_and!; intros ->; eapply Hnew; try done; set_solver. }
      rewrite H1. split; cbn [desc submitted ops info_b blockno set_free]; [| | |done].
      * intros i (?&?&?)%Hne. by rewrite !upd_ne.
      * apply upd_ne, Hne. unfold ids. left.
      * apply upd_ne, Hne. unfold ids. left.
Qed.

(** A request that is over. *)
Lemma chains_ok_del v A r : chains_ok v (r :: A) → chains_ok (freed r v) A.
Proof.
  intros HA. destruct HA as [C1 C2 C3 C4 C5] eqn:EHA. clear EHA. change (all_ids (r :: A)) with (ids r ++ all_ids A) in *.
  apply NoDup_app in C1 as (_ & Hdis & C1). split; [done| | | |].
  - intros i Hi. apply C2, elem_of_app. by right.
  - intros i Hi. cbn [free freed released set_free]. unfold upd. specialize (C3 i Hi). specialize (Hdis i). unfold ids in *.
    cbn [free set_desc set_free released set_info_b]. unfold upd. rewrite C3. repeat case_decide; set_solver.
  - by apply NoDup_cons in C4 as [_ C4].
  - intros r' Hr'. apply (agree_chain v); [|by apply C5; right].
    assert (∀ i, i ∈ ids r' → i ≠ r0 r ∧ i ≠ r1 r ∧ i ≠ r2 r) as Hne.
    { intros i Hi. assert (i ∈ all_ids A) by by apply (in_ids r').
      split_and!; intros ->; eapply Hdis; try done; unfold ids; set_solver. }
    split; cbn; [|done| |done].
    + intros i (?&?&?)%Hne. by rewrite !upd_ne.
    + apply upd_ne, Hne. unfold ids. left.
Qed.

(** ** The interrupt handler *)

Lemma NUM_pos : 0 < NUM.
Proof. done. Qed.
Lemma NUM_wraps : ∃ m, 0 < m ∧ 2 ^ 16 = m * NUM.
Proof. by exists 8192. Qed.

Lemma next_counter x n : u16 (u16 (x + 1) + n) = u16 (x + (1 + n)).
Proof. unfold u16. rewrite Z.add_mod_idemp_l by done. f_equal. lia. Qed.

(** The handler sees the completion of [r]. *)
Definition seen (r : rq) (v : vst) : vst := set_used_idx (u16 (used_idx v + 1)) (set_bdisk (upd (bdisk v) (rb r) 0) v).

Lemma driver_ok_seen v Q F r C W : driver_ok v Q F (r :: C) W → driver_ok (seen r v) Q F C (W ++ [r]).
Proof.
  intros [D1 D2 D3 D4 D5 D6 [D7 D7'] D8 D9]. assert (∀ r', r' ∈ Q ++ F ++ C ++ W → rb r' ≠ rb r) as Hne.
  { intros r' Hr' E. pose proof (cs_bufs _ _ D1) as Hnd.
    assert (Q ++ F ++ (r :: C) ++ W ≡ₚ r :: Q ++ F ++ C ++ W) as Hp by solve_Permutation.
    rewrite Hp, fmap_cons, NoDup_cons in Hnd. apply Hnd. rewrite <-E. by apply list_elem_of_fmap_2. }
  split.
  - apply (chains_ok_same v); [|done|by split]. eapply chains_ok_perm; [|exact D1]. solve_Permutation.
  - done.
  - intros r' Hr'. apply D3. set_solver.
  - intros r' Hr'. cbn. rewrite upd_ne by (apply Hne; set_solver). apply D4. set_solver.
  - intros r' [Hr'| ->%list_elem_of_singleton]%elem_of_app; cbn; [|apply upd_eq].
    rewrite upd_ne by (apply Hne; set_solver). by apply D5.
  - cbn. eapply (ring_tail NUM NUM_pos); [exact D6|]. apply (wrap_mod NUM (2 ^ 16) NUM_pos NUM_wraps).
  - cbn [ring_idx seen set_used_idx set_bdisk used_idx]. split; [|apply Z.mod_pos_bound; lia].
    rewrite D7, next_counter. f_equal. cbn [length]. lia.
  - done.
  - done.
Qed.

Lemma seen_all v Q F C W : driver_ok v Q F C W → (used_idx v =? ring_idx v) = (Z.of_nat (length C) =? 0).
Proof.
  intros HD. destruct (dv_ring _ _ _ _ _ HD) as [-> Hu]. pose proof (few_requests _ _ (dv_chains _ _ _ _ _ HD)) as Hfew.
  rewrite !length_app in Hfew. rewrite Z.eqb_sym. apply (counter_empty NUM (2 ^ 16) NUM_pos); lia.
Qed.

Lemma intr_loop_run C : ∀ fuel v Q F W, driver_ok v Q F C W → (length C < fuel)%nat →
  ∃ v' t, intr_loop fuel v = Done tt v' t ∧ driver_ok v' Q F [] (W ++ C)
    ∧ v' = set_bdisk (bdisk v') (set_used_idx (used_idx v') v) ∧ ∀ r, r ∈ C → EvWakeup (ChBuf (rb r)) ∈ t.
Proof.
  induction C as [|r C IH]; intros fuel v Q F W HD Hfuel; (destruct fuel as [|fuel]; [lia|]); cbn [intr_loop]; over reflexivity;
    rewrite (seen_all _ _ _ _ _ HD).
  - exists v, []. split_and!; [done|by rewrite app_nil_r|by destruct v|by intros r ?%elem_of_nil].
  - change (Z.of_nat (length (r :: C)) =? 0) with false. cbn [negb].
    rewrite (ring_head NUM _ _ _ _ (dv_used _ _ _ _ _ HD)), (dv_done _ _ _ _ _ HD) by (left). change (negb (0 =? 0)) with false. cbv iota.
    rewrite (ch_b _ _ (cs_chain _ _ (dv_chains _ _ _ _ _ HD) r ltac:(set_solver))).
    destruct (IH fuel (seen r v) Q F (W ++ [r])) as (v' & t & E & HD' & Ev & Hw);
      [by apply driver_ok_seen|cbn in Hfuel; lia|].
    exists v', (EvWakeup (ChBuf (rb r)) :: t). split_and!.
    + over reflexivity. over reflexivity. rewrite (bind_done _ _ _ tt (seen r v) [] eq_refl). by rewrite E.
    + by rewrite <-app_assoc in HD'.
    + by rewrite Ev.
    + intros r' [->|Hr']%elem_of_cons; [left|right; by apply Hw].
Qed.

(** ** Each step *)

Definition step_ok (l : label) (s : sys) : Prop :=
  match step l s with
  | Good s' => inv s' ∧ ∃ a, arun (action_of l s) (abs s) = Some a ∧ same_disk a (abs s')
  | Blocked => True
  | Wrong => False
  end.

Definition waiting (x : pstat) : bool := match x with InDisk _ _ | Woken _ _ => true | _ => false end.

Section procs.
  Context (p : Z → pstat) (Q F C W : list rq) (HP : procs_ok p Q F C W).

Lemma proc_req b w i :
  p b = InDisk w i ∨ p b = Woken w i → ∃ r, r ∈ Q ++ F ++ C ++ W ∧ rb r = b ∧ rw r = w ∧ r0 r = i.
Proof using HP.
  intros Hb. destruct (pr_req _ _ _ _ _ HP b w i Hb) as (r & Hr & <-). exists r. split; [done|]. split; [done|].
  assert (r ∈ Q ++ F ++ C ∨ r ∈ W) as [Hr'|Hr'] by set_solver.
  - destruct (pr_wait _ _ _ _ _ HP r Hr') as [E|E], Hb as [E'|E']; rewrite E in E'; by inversion E'.
  - pose proof (pr_seen _ _ _ _ _ HP r Hr') as E. destruct Hb as [E'|E']; rewrite E in E'; by inversion E'.
Qed.

Lemma req_waiting r : r ∈ Q ++ F ++ C ++ W → p (rb r) = InDisk (rw r) (r0 r) ∨ p (rb r) = Woken (rw r) (r0 r).
Proof using HP.
  intros Hr. assert (r ∈ Q ++ F ++ C ∨ r ∈ W) as [Hr'|Hr'] by set_solver.
  - by apply (pr_wait _ _ _ _ _ HP).
  - right. by apply (pr_seen _ _ _ _ _ HP).
Qed.

Lemma not_waiting b r : waiting (p b) = false → r ∈ Q ++ F ++ C ++ W → rb r ≠ b.
Proof using HP. intros Hb Hr <-. by destruct (req_waiting r Hr) as [E|E]; rewrite E in Hb. Qed.

Lemma procs_ok_upd b x :
  waiting (p b) = false → waiting x = false → (∀ w, x = NoDesc w → (2 ≤ length (Q ++ F ++ C ++ W))%nat) →
  procs_ok (upd p b x) Q F C W.
Proof using HP.
  intros Hb Hx Hn. split.
  - intros r Hr. rewrite upd_ne; [by apply (pr_wait _ _ _ _ _ HP)|]. apply not_waiting; [done|set_solver].
  - intros r Hr. rewrite upd_ne; [by apply (pr_seen _ _ _ _ _ HP)|]. apply not_waiting; [done|set_solver].
  - intros b' w i. unfold upd. case_decide; [|apply (pr_req _ _ _ _ _ HP)]. intros [E|E]; by rewrite E in Hx.
  - intros b' w. unfold upd. case_decide; [|apply (pr_full _ _ _ _ _ HP)]. apply Hn.
Qed.

Lemma procs_ok_wake t : procs_ok (wake t p) Q F C W.
Proof using HP.
  split; unfold wake.
  - intros r Hr. destruct (pr_wait _ _ _ _ _ HP r Hr) as [->| ->]; [|by right]. case_match; [by right|by left].
  - intros r Hr. by rewrite (pr_seen _ _ _ _ _ HP r Hr).
  - intros b w i H. apply (pr_req _ _ _ _ _ HP b w i). destruct (p b); repeat case_match; naive_solver.
  - intros b w H. apply (pr_full _ _ _ _ _ HP b w). destruct (p b); repeat case_match; naive_solver.
Qed.

(** A wakeup leaves the call as it was, and so does a change to the status of
    other requests. *)
Lemma call_wake st t b : call_of st (wake t p b) = call_of st (p b).
Proof using . unfold wake. destruct (p b); try done; by case_match. Qed.

Lemma call_status st st' b :
  (∀ r, r ∈ Q ++ F ++ C ++ W → rb r = b → st' (r0 r) = st (r0 r)) → call_of st' (p b) = call_of st (p b).
Proof using HP.
  intros H. destruct (p b) eqn:E; try done; destruct (proc_req b write i0) as (r & Hr & Hb & _ & <-); eauto; cbn; by rewrite H.
Qed.
End procs.

Lemma upd_same {A} (f : Z → A) k x y : f k = x → upd f k x y = f y.
Proof. intros <-. unfold upd. by case_decide; subst. Qed.

Lemma same_disk_refl a : same_disk a a.
Proof. done. Qed.

(** ** Blocks and sectors *)

Lemma put_get_block d m n x :
  Z.of_nat (length x) = BSIZE → get_sectors 2 (n * 2) (put_sectors 2 (m * 2) x d) = upd (λ n, get_sectors 2 (n * 2) d) m x n.
Proof.
  intros Hx. cbn [put_sectors get_sectors]. rewrite app_nil_r. unfold upd. destruct (decide (n = m)) as [->|Hne].
  - rewrite (decide_False (P := m * 2 = m * 2 + 1)), !decide_True by lia. rewrite (take_ge (drop 512 x)); [apply take_drop|].
    rewrite length_drop. lia.
  - rewrite !decide_False by lia. by rewrite app_nil_r.
Qed.

Lemma put_sectors_length d k x : (∀ n, length (d n) = 512%nat) → Z.of_nat (length x) = BSIZE →
  ∀ n, length (put_sectors 2 k x d n) = 512%nat.
Proof.
  intros Hd Hx n. cbn [put_sectors]. unfold upd. repeat case_decide; [| |apply Hd]; rewrite length_take, ?length_drop; lia.
Qed.

Lemma get_sectors_length d k : (∀ n, length (d n) = 512%nat) → Z.of_nat (length (get_sectors 2 k d)) = BSIZE.
Proof. intros Hd. cbn [get_sectors]. rewrite !length_app, !Hd. done. Qed.

Lemma perform_eq id r s :
  perform id r s = Sys
    (set_ring (u16 (ring_idx (drv s) + 1)) (<[Z.to_nat (ring_idx (drv s) mod NUM) := id]> (ring_ids (drv s)))
      (set_status (upd (info_status (drv s)) (status_at r) 0)
        (set_bdata (if to_disk r then bdata (drv s)
          else upd (bdata (drv s)) (buffer r) (get_sectors (count r) (from_sector r) (sectors (dev s)))) (drv s))))
    (Device (if to_disk r then put_sectors (count r) (from_sector r) (bdata (drv s) (buffer r)) (sectors (dev s))
        else sectors (dev s))
      (last_avail (dev s)) (filter (λ i, i ≠ id) (fetched (dev s))) true) (procs s).
Proof. unfold perform. by destruct (to_disk r), (drv s). Qed.

Section steps.
  Context (s : sys) (Q F C W : list rq).
  Context (HD : driver_ok (drv s) Q F C W) (HE : device_ok (drv s) (dev s) Q F C) (HP : procs_ok (procs s) Q F C W).

Lemma set_ok b n x : step_ok (LSet b n x) s.
Proof using HD HE HP.
  unfold step_ok. cbn [step]. destruct (procs s b) eqn:Eb; try done. case_if; [|done]. bool_prop.
  assert (∀ r, r ∈ Q ++ F ++ C ++ W → rb r ≠ b) as Hne by (intros r Hr; eapply not_waiting; [done|by rewrite Eb|done]).
  split.
  - exists Q, F, C, W. destruct HD as [D1 D2 D3 D4 D5 D6 D7 D8 D9], HE as [E1 E2 E3 E4 E5]. split_and!; [|by split|done].
    split; try done.
    + apply (chains_ok_same (drv s)); [done|done|]. intros r Hr. split; try done. cbn. by rewrite upd_ne by by apply Hne.
    + intros b'. cbn. unfold upd. case_decide; [lia|apply D8].
    + intros b'. cbn. unfold upd. case_decide; [done|apply D9].
  - eexists. split; [cbn; rewrite Eb; reflexivity|by split].
Qed.

Lemma call_ok b w : step_ok (LCall b w) s.
Proof using HD HE HP.
  unfold step_ok. cbn [step]. destruct (procs s b) eqn:Eb; try done. split.
  - exists Q, F, C, W. split_and!; [done|done|]. apply procs_ok_upd; [done|by rewrite Eb|done|done].
  - eexists. split; [cbn; rewrite Eb; reflexivity|]. split; try done. intros b'. cbn. unfold upd. by case_decide.
Qed.

Lemma kill_ok b : step_ok (LKill b) s.
Proof using HD HE HP.
  unfold step_ok. cbn [step]. destruct (procs s b) as [| | w|w i|] eqn:Eb; try done; (split; [|eexists; split; [done|split; try done]]).
  - exists Q, F, C, W. split_and!; [done|done|]. apply procs_ok_upd; [done|by rewrite Eb|done|done].
  - intros b'. cbn. unfold upd. case_decide; [by subst; rewrite Eb|done].
  - exists Q, F, C, W. split_and!; [done|done|]. destruct HP as [P1 P2 P3 P4]. split; cbn [procs].
    + intros r Hr. unfold upd. case_decide as E; [|by apply P1]. right. specialize (P1 r Hr). rewrite E, Eb in P1. naive_solver.
    + intros r Hr. unfold upd. case_decide as E; [|by apply P2]. specialize (P2 r Hr). rewrite E, Eb in P2. done.
    + intros b' w' i'. unfold upd. case_decide as E; [|by apply P3]. intros _. subst. apply (P3 b w i). by left.
    + intros b' w'. unfold upd. case_decide as E; [done|by apply P4].
  - intros b'. cbn. unfold upd. case_decide; [by subst; rewrite Eb|done].
Qed.

Lemma free_bits i : 0 ≤ i < NUM → free (drv s) i = 0 ∨ free (drv s) i = 1.
Proof using HD. intros Hi. rewrite (cs_free _ _ (dv_chains _ _ _ _ _ HD)) by done. case_decide; [by left|by right]. Qed.

(** Fewer than three free descriptors: at least two requests. *)
Lemma full_requests got :
  (length got ≤ 2)%nat → (∀ i, 0 ≤ i < NUM → free (drv s) i = 1 → i ∈ got) → (2 ≤ length (Q ++ F ++ C ++ W))%nat.
Proof using HD.
  intros Hl Hgot. assert (seqZ 0 NUM ⊆+ all_ids (Q ++ F ++ C ++ W) ++ got) as Hsub.
  { apply NoDup_submseteq; [apply NoDup_seqZ|]. intros i Hi%elem_of_seqZ. apply elem_of_app.
    pose proof (cs_free _ _ (dv_chains _ _ _ _ _ HD) i) as Hf. case_decide as Hin; [by left|]. right. apply Hgot; [|apply Hf]; lia. }
  apply submseteq_length in Hsub. rewrite length_app, all_ids_length in Hsub. change (length (seqZ 0 NUM)) with 8%nat in Hsub. lia.
Qed.

Lemma same_but_free_ok v' :
  same_but_free (drv s) v' → driver_ok v' Q F C W ∧ device_ok v' (dev s) Q F C.
Proof using HD HE.
  intros [S1 S2 S3]. assert (chains_ok v' (Q ++ F ++ C ++ W)) as Hc.
  { pose proof (dv_chains _ _ _ _ _ HD) as Hc. apply (chains_ok_same (drv s)); [done|done|]. intros r Hr.
    split; [|by rewrite S1..]. intros i Hi. assert (i ∈ all_ids (Q ++ F ++ C ++ W)) as Hin by by apply (in_ids r).
    pose proof (cs_range _ _ Hc i Hin). apply S3; [done|]. rewrite (cs_free _ _ Hc) by done. by rewrite decide_True. }
  destruct HD as [D1 D2 D3 D4 D5 D6 D7 D8 D9], HE as [E1 E2 E3 E4 E5].
  split; split; try done; rewrite S1; done.
Qed.

Section submit.
  Context (b : Z) (w : bool) (i0 i1 i2 : Z) (v1 : vst).
  Context (Hb : procs s b = Ready w) (Hh : holding (drv s) [i0; i1; i2] v1).

Lemma submit_new r : r ∈ Q ++ F ++ C ++ W → rb r ≠ b ∧ r0 r ≠ i0.
Proof using HD HP Hb Hh.
  intros Hr. split; [eapply not_waiting; [done|by rewrite Hb|done]|]. intros E.
  destruct (hd_got _ _ _ Hh i0 ltac:(left)) as [Hi Hf].
  rewrite (cs_free _ _ (dv_chains _ _ _ _ _ HD)), decide_True in Hf; [done| |done].
  apply (in_ids r); [done|]. unfold ids. rewrite E. left.
Qed.

Lemma submit_driver : driver_ok (submitted b w i0 i1 i2 v1) (Q ++ [Rq b w i0 i1 i2]) F C W.
Proof using HD HP Hb Hh.
  pose proof submit_new as Hnew. destruct HD as [D1 D2 D3 D4 D5 D6 D7 D8 D9].
  assert (chains_ok (submitted b w i0 i1 i2 v1) (Rq b w i0 i1 i2 :: Q ++ F ++ C ++ W)) as Hc.
  { apply (chains_ok_add (drv s)); [done|done| |apply D8]. intros (r & E & Hr)%list_elem_of_fmap. by destruct (Hnew r Hr) as [[] _]. }
  clear HE. destruct Hh as [H1 _ _ _]. rewrite H1 in Hc |- *. split; try done.
  - eapply chains_ok_perm; [|exact Hc]. solve_Permutation.
  - intros r Hr. cbn. assert (r ∈ Q ++ F ∨ r = Rq b w i0 i1 i2) as [Hr'| ->] by set_solver; [|apply upd_eq].
    rewrite upd_ne; [by apply D2|]. apply Hnew. set_solver.
  - intros r Hr. cbn. rewrite upd_ne; [by apply D3|]. apply Hnew. set_solver.
  - intros r Hr. cbn. assert (r ∈ Q ++ F ++ C ∨ r = Rq b w i0 i1 i2) as [Hr'| ->] by set_solver; [|apply upd_eq].
    rewrite upd_ne; [by apply D4|]. apply Hnew. set_solver.
  - intros r Hr. cbn. rewrite upd_ne; [by apply D5|]. apply Hnew. set_solver.
Qed.

Lemma submit_device : device_ok (submitted b w i0 i1 i2 v1) (dev s) (Q ++ [Rq b w i0 i1 i2]) F C.
Proof using HD HE Hh.
  pose proof (few_requests _ _ (dv_chains _ _ _ _ _ HD)) as Hfew. rewrite !length_app in Hfew.
  destruct HE as [E1 [E2 E2'] E3 E4 E5], Hh as [H1 _ _ _]. rewrite H1. split; try done.
  - cbn [avail_ring submitted avail_idx set_free]. rewrite E2, fmap_app. unfold u16.
    rewrite (wrap_mod NUM (2 ^ 16) NUM_pos NUM_wraps). pose proof (ring_put NUM NUM_pos _ _ _ i0 E1) as Hput.
    rewrite length_fmap in Hput. apply Hput. lia.
  - split; [|done]. cbn [avail_idx submitted set_free]. rewrite E2, length_app. unfold u16. rewrite Z.add_mod_idemp_l by done.
    f_equal. cbn [length]. lia.
Qed.

Lemma submit_procs t : procs_ok (upd (wake t (procs s)) b (InDisk w i0)) (Q ++ [Rq b w i0 i1 i2]) F C W.
Proof using HD HP Hb Hh.
  clear HE. pose proof submit_new as Hnew. destruct (procs_ok_wake _ _ _ _ _ HP t) as [P1 P2 P3 P4]. split.
  - intros r Hr. assert (r ∈ Q ++ F ++ C ∨ r = Rq b w i0 i1 i2) as [Hr'| ->] by set_solver; [|left; apply upd_eq].
    rewrite upd_ne; [by apply P1|]. apply Hnew. set_solver.
  - intros r Hr. rewrite upd_ne; [by apply P2|]. apply Hnew. set_solver.
  - intros b' w' i'. unfold upd. case_decide as E.
    + intros _. exists (Rq b w i0 i1 i2). split; [set_solver|done].
    + intros (r & Hr & Eb)%P3. exists r. split; [set_solver|done].
  - intros b' w'. unfold upd. case_decide as E; [done|]. intros H%P4. rewrite !length_app in *. lia.
Qed.
End submit.

Lemma start_ok b : step_ok (LStart b) s.
Proof using HD HE HP.
  unfold step_ok. cbn [step]. destruct (procs s b) as [|w| | |] eqn:Eb; try done.
  destruct (rw_start_run b w (drv s) free_bits) as [(i0 & i1 & i2 & v1 & t & Hh & ->)|(got & v' & t & Hl & -> & Hs & Hgot)].
  - split.
    { exists (Q ++ [Rq b w i0 i1 i2]), F, C, W.
      split_and!; [by apply submit_driver|by apply submit_device|by apply (submit_procs _ _ _ _ _ v1)]. }
    eexists. split; [done|]. pose proof (hd_eq _ _ _ Hh) as E1. split; try (by rewrite E1).
    intros b'. cbn [calls abs procs drv info_status submitted]. unfold upd at 2. case_decide as E.
    { subst. rewrite Eb. cbn. by rewrite upd_eq. }
    rewrite call_wake. symmetry. eapply call_status; [done|]. intros r Hr _.
    destruct (submit_new b w i0 i1 i2 v1 Eb Hh r Hr). rewrite upd_ne by done. by rewrite E1.
  - destruct (same_but_free_ok v' Hs) as [HD' HE']. split.
    { exists Q, F, C, W. split_and!; [done|done|]. cbn [procs].
      apply procs_ok_upd; [by apply procs_ok_wake|unfold wake; by rewrite Eb|done|]. intros _ _. by eapply full_requests. }
    eexists. split; [done|]. destruct Hs as [E1 _ _]. split; try (by rewrite E1).
    intros b'. cbn [calls abs procs drv]. unfold upd. case_decide as E; [by subst; rewrite Eb|].
    rewrite call_wake. by rewrite E1.
Qed.

(** Woken before its request was seen, a process sleeps again. *)
Lemma resume_busy b w i : procs s b = Woken w i → bdisk (drv s) b = 1 → step_ok (LResume b) s.
Proof using HD HE HP.
  intros Eb Hd. unfold step_ok. cbn [step action_of]. rewrite Eb, Hd.
  assert (rw_resume b i (drv s) = Done false (drv s) [EvAcquire LkVdisk; EvSleep (ChBuf b) LkVdisk]) as ->.
  { unfold rw_resume. over reflexivity. over reflexivity. by rewrite Hd. }
  split; [|eexists; split; [done|split; try done]].
  - exists Q, F, C, W. split_and!; [done|done|]. cbn [procs]. destruct (procs_ok_wake _ _ _ _ _ HP [EvAcquire LkVdisk; EvSleep (ChBuf b) LkVdisk]) as [P1 P2 P3 P4].
    assert (wake [EvAcquire LkVdisk; EvSleep (ChBuf b) LkVdisk] (procs s) b = Woken w i) as Ew by (unfold wake; by rewrite Eb).
    split; intros; unfold upd in *; case_decide as E; try by eauto.
    + left. destruct (P1 r H) as [H1|H1]; rewrite E, Ew in H1; by inversion H1.
    + pose proof (dv_seen _ _ _ _ _ HD r H) as H1. rewrite E, Hd in H1. done.
    + subst. apply (P3 b w i). by right.
  - intros b'. cbn [calls abs procs drv]. unfold upd. case_decide as E; [by subst; rewrite Eb|]. by rewrite call_wake.
Qed.

(** The request of [r] is over. *)
Lemma freed_driver r W1 W2 : W = W1 ++ r :: W2 → driver_ok (freed r (drv s)) Q F C (W1 ++ W2).
Proof using HD.
  clear HE HP. intros HW. destruct HD as [D1 D2 D3 D4 D5 D6 D7 D8 D9]. subst W. split; try done.
  - apply chains_ok_del. eapply chains_ok_perm; [|exact D1]. solve_Permutation.
  - intros r' Hr'. apply D3. set_solver.
  - intros r' Hr'. apply D5. set_solver.
Qed.

Lemma freed_procs r W1 W2 t :
  W = W1 ++ r :: W2 → wakes ChDiskFree t = true → procs_ok (upd (wake t (procs s)) (rb r) Idle) Q F C (W1 ++ W2).
Proof using HD HP.
  clear HE. intros HW Ht. pose proof (cs_bufs _ _ (dv_chains _ _ _ _ _ HD)) as Hnd. destruct (procs_ok_wake _ _ _ _ _ HP t) as [P1 P2 P3 P4].
  assert (∀ r', r' ∈ Q ++ F ++ C ++ W1 ++ W2 → rb r' ≠ rb r) as Hne.
  { intros r' Hr' E. assert (Q ++ F ++ C ++ W ≡ₚ r :: Q ++ F ++ C ++ W1 ++ W2) as Hp by (rewrite HW; solve_Permutation).
    rewrite Hp, fmap_cons, NoDup_cons in Hnd. apply Hnd. rewrite <-E. by apply list_elem_of_fmap_2. }
  split.
  - intros r' Hr'. rewrite upd_ne by (apply Hne; set_solver). by apply P1.
  - intros r' Hr'. rewrite upd_ne by (apply Hne; set_solver). apply P2. set_solver.
  - intros b w i. unfold upd. case_decide as E; [by intros [|]|]. intros (r' & Hr' & <-)%P3. exists r'. split; [|done].
    rewrite HW in Hr'. set_solver.
  - intros b w. unfold upd. case_decide as E; [done|]. unfold wake. rewrite Ht. destruct (procs s b); try done; case_match; done.
Qed.

Lemma resume_ok b : step_ok (LResume b) s.
Proof using HD HE HP.
  destruct (procs s b) as [| | | |w i] eqn:Eb; try (unfold step_ok; cbn [step]; by rewrite Eb).
  destruct (proc_req _ _ _ _ _ HP b w i (or_intror Eb)) as (r & Hr & <- & <- & <-).
  assert (r ∈ Q ++ F ++ C ∨ r ∈ W) as [Hr'|Hr'] by set_solver.
  { eapply resume_busy; [done|]. by apply (dv_busy _ _ _ _ _ HD). }
  pose proof (dv_seen _ _ _ _ _ HD r Hr') as Hd.
  destruct (rw_resume_run _ _ r (dv_chains _ _ _ _ _ HD) Hr Hd) as (t & Et & Ht).
  unfold step_ok. cbn [step action_of]. rewrite Eb, Et, Hd. change (0 =? 1) with false. cbv iota.
  pose proof (dv_done _ _ _ _ _ HD r ltac:(set_solver)) as Hst.
  destruct (list_elem_of_split _ _ Hr') as (W1 & W2 & HW). split.
  - exists Q, F, C, (W1 ++ W2). split_and!; [by apply freed_driver|by destruct HE|by apply freed_procs].
  - eexists. cbn [arun calls abs]. rewrite Eb. cbn [call_of]. rewrite Hst. change (0 =? 0) with true. cbv iota. split; [done|].
    split; try done. intros b'. cbn [calls abs procs drv]. unfold upd at 1 2. case_decide; [done|]. by rewrite call_wake.
Qed.

Lemma intr_run :
  ∃ v' t, virtio_disk_intr (if irq (dev s) then 1 else 0) (drv s) = Done tt v' t ∧ driver_ok v' Q F [] (W ++ C)
    ∧ v' = set_bdisk (bdisk v') (set_used_idx (used_idx v') (drv s)) ∧ ∀ r, r ∈ C → EvWakeup (ChBuf (rb r)) ∈ t.
Proof using HD.
  pose proof (few_requests _ _ (dv_chains _ _ _ _ _ HD)) as Hfew. rewrite !length_app in Hfew.
  destruct (intr_loop_run C 9 (drv s) Q F W HD ltac:(lia)) as (v' & t & E & HD' & Ev & Ht).
  exists v'. eexists. split; [|split; [done|split; [done|]]].
  - unfold virtio_disk_intr. over reflexivity. over reflexivity. over (exact E). reflexivity.
  - intros r Hr. cbn [app]. do 2 right. apply elem_of_app. left. by apply Ht.
Qed.

Lemma intr_procs t :
  (∀ r, r ∈ C → EvWakeup (ChBuf (rb r)) ∈ t) → procs_ok (wake t (procs s)) Q F [] (W ++ C).
Proof using HP.
  clear HD HE. intros Ht. destruct (procs_ok_wake _ _ _ _ _ HP t) as [P1 P2 P3 P4]. split.
  - intros r Hr. apply P1. rewrite app_nil_r in Hr. set_solver.
  - intros r [Hr|Hr]%elem_of_app; [by apply P2|]. unfold wake.
    destruct (pr_wait _ _ _ _ _ HP r ltac:(set_solver)) as [->| ->]; [|done].
    unfold wakes. by rewrite bool_decide_true by by apply Ht.
  - intros b w i (r & Hr & <-)%P3. exists r. split; [|done]. set_solver.
  - intros b w H%P4. rewrite !length_app in *. cbn [length]. lia.
Qed.

Lemma intr_ok : step_ok LIntr s.
Proof using HD HE HP.
  destruct intr_run as (v' & t & E & HD' & Ev & Ht). unfold step_ok. cbn [step]. rewrite E. split.
  - exists Q, F, [], (W ++ C). split_and!; [done| |by apply intr_procs].
    destruct HE as [E1 E2 E3 E4 E5]. rewrite Ev. by split.
  - eexists. split; [done|]. split; try (by rewrite Ev). intros b. cbn [calls abs procs drv]. rewrite call_wake. by rewrite Ev.
Qed.

Lemma fetch_ok : step_ok LFetch s.
Proof using HD HE HP.
  pose proof (few_requests _ _ (dv_chains _ _ _ _ _ HD)) as Hfew. rewrite !length_app in Hfew.
  destruct HE as [E1 [E2 E2'] E3 E4 E5]. unfold step_ok. cbn [step].
  assert ((last_avail (dev s) =? avail_idx (drv s)) = (Z.of_nat (length Q) =? 0)) as ->.
  { rewrite E2, Z.eqb_sym. apply (counter_empty NUM (2 ^ 16) NUM_pos); lia. }
  destruct Q as [|r Q'] eqn:EQ; [done|]. change (Z.of_nat (length (r :: Q')) =? 0) with false. cbv iota.
  rewrite (ring_head NUM _ _ _ _ E1), (read_chain_ok _ _ (dv_chains _ _ _ _ _ HD)) by set_solver.
  split; [|eexists; split; [done|by split]].
  exists Q', (r :: F), C, W. destruct HD as [D1 D2 D3 D4 D5 D6 D7 D8 D9]. split_and!; split; try done; cbn [drv dev procs].
  - eapply chains_ok_perm; [|exact D1]. solve_Permutation.
  - intros r' Hr'. apply D2. set_solver.
  - intros r' Hr'. apply D4. set_solver.
  - cbn [last_avail]. eapply (ring_tail NUM NUM_pos); [exact E1|]. apply (wrap_mod NUM (2 ^ 16) NUM_pos NUM_wraps).
  - cbn [last_avail]. rewrite next_counter, E2. split; [f_equal; cbn [length]; lia|apply Z.mod_pos_bound; lia].
  - intros id. cbn [fetched]. rewrite fmap_cons, !elem_of_cons, E3. done.
  - intros r' Hr'. apply (pr_wait _ _ _ _ _ HP). set_solver.
  - apply HP.
  - intros b w i (r' & Hr' & <-)%(pr_req _ _ _ _ _ HP). exists r'. split; [|done]. set_solver.
  - intros b w H%(pr_full _ _ _ _ _ HP). rewrite !length_app in *. cbn [length] in *. lia.
Qed.

Section complete.
  Context (r : rq) (F1 F2 : list rq) (HF : F = F1 ++ r :: F2).
Let q := Request (rw r) (blockno (drv s) (rb r) * 2) 2 (rb r) (r0 r).
Let s' := perform (r0 r) q s.

Lemma complete_others r' : r' ∈ Q ++ F1 ++ F2 ++ C ++ W → rb r' ≠ rb r ∧ r0 r' ≠ r0 r.
Proof using HD HF.
  clear HE HP. pose proof (dv_chains _ _ _ _ _ HD) as Hc. intros Hr'. assert (r ∈ Q ++ F ++ C ++ W) as Hr by (rewrite HF; set_solver).
  assert (r' ∈ Q ++ F ++ C ++ W) as Hin by (rewrite HF; set_solver).
  assert (r' ≠ r) as Hne.
  { intros ->. pose proof (cs_bufs _ _ Hc) as Hnd. rewrite HF in Hnd.
    assert (Q ++ (F1 ++ r :: F2) ++ C ++ W ≡ₚ r :: Q ++ F1 ++ F2 ++ C ++ W) as Hp by solve_Permutation.
    rewrite Hp, fmap_cons, NoDup_cons in Hnd. apply Hnd. by apply list_elem_of_fmap_2. }
  split; intros E; apply Hne.
  - by apply (bufs_apart _ _ Hc).
  - apply (ids_apart _ _ Hc _ _ (r0 r)); [done|done|rewrite <-E|]; unfold ids; left.
Qed.

Lemma complete_driver : driver_ok (drv s') Q (F1 ++ F2) (C ++ [r]) W.
Proof using HD HE HF.
  clear HP. pose proof complete_others as Hne. pose proof (de_sectors _ _ _ _ _ HE) as Hsec.
  pose proof (few_requests _ _ (dv_chains _ _ _ _ _ HD)) as Hfew. rewrite !length_app in Hfew.
  destruct HD as [D1 D2 D3 D4 D5 D6 [D7 D7'] D8 D9]. unfold s'. rewrite perform_eq. cbn [drv]. split.
  - apply (chains_ok_same (drv s)); [|done|by split]. eapply chains_ok_perm; [|exact D1]. rewrite HF. solve_Permutation.
  - intros r' Hr'. cbn. rewrite upd_ne by (apply Hne; set_solver). apply D2. rewrite HF. set_solver.
  - intros r' Hr'. cbn. unfold upd. case_decide as E; [done|]. apply D3.
    assert (r' ≠ r) by (intros ->; done). set_solver.
  - intros r' Hr'. apply D4. rewrite HF. set_solver.
  - done.
  - cbn [ring_ids used_idx set_ring set_status set_bdata]. rewrite D7, fmap_app. unfold u16.
    rewrite (wrap_mod NUM (2 ^ 16) NUM_pos NUM_wraps). pose proof (ring_put NUM NUM_pos _ _ _ (r0 r) D6) as Hput.
    rewrite length_fmap in Hput. apply Hput. lia.
  - split; [|done]. cbn [ring_idx used_idx set_ring set_status set_bdata]. rewrite D7, length_app. unfold u16.
    rewrite Z.add_mod_idemp_l by done. f_equal. cbn [length]. lia.
  - done.
  - intros b. cbn. destruct (rw r); [apply D9|]. unfold upd. case_decide; [by apply (get_sectors_length (sectors (dev s)))|apply D9].
Qed.

Lemma complete_device : device_ok (drv s') (dev s') Q (F1 ++ F2) (C ++ [r]).
Proof using HD HE HF.
  clear HP. pose proof complete_others as Hne. pose proof (dv_data _ _ _ _ _ HD) as Hdata.
  destruct HE as [E1 E2 E3 E4 E5]. unfold s'. rewrite perform_eq. cbn [drv dev]. split; try done.
  - intros id. cbn [fetched]. rewrite list_elem_of_filter, E3, HF, !fmap_app, fmap_cons, !elem_of_app, elem_of_cons.
    assert (id ∈ r0 <$> F1 ++ F2 → id ≠ r0 r) as Hid.
    { intros (r' & -> & Hr')%list_elem_of_fmap. apply Hne. set_solver. }
    rewrite fmap_app, elem_of_app in Hid. tauto.
  - intros n. cbn [sectors to_disk q]. destruct (rw r); [|apply E5]. apply put_sectors_length; [done|apply Hdata].
Qed.

Lemma complete_procs : procs_ok (procs s') Q (F1 ++ F2) (C ++ [r]) W.
Proof using HP HF.
  clear HD HE. destruct HP as [P1 P2 P3 P4]. unfold s'. rewrite perform_eq. cbn [procs]. split.
  - intros r' Hr'. apply P1. rewrite HF. set_solver.
  - done.
  - intros b w i (r' & Hr' & <-)%P3. exists r'. split; [|done]. rewrite HF in Hr'. set_solver.
  - intros b w H%P4. rewrite HF in H. rewrite !length_app in *. cbn [length] in *. lia.
Qed.

Lemma complete_refines : ∃ a, arun (ATransfer (rb r)) (abs s) = Some a ∧ same_disk a (abs s').
Proof using HD HE HP HF.
  assert (r ∈ Q ++ F ++ C ++ W) as Hr by (rewrite HF; set_solver).
  assert (calls (abs s) (rb r) = ACalled (rw r)) as Ecall.
  { cbn. destruct (req_waiting _ _ _ _ _ HP r Hr) as [->| ->]; cbn; rewrite (dv_pending _ _ _ _ _ HD) by (rewrite HF; set_solver); done. }
  assert (∀ b, upd (calls (abs s)) (rb r) (AServed (rw r)) b = calls (abs s') b) as Hcalls.
  { intros b. unfold s'. rewrite perform_eq. cbn [calls abs procs drv info_status set_ring set_status set_bdata]. unfold upd at 1.
    case_decide as E.
    - subst. destruct (req_waiting _ _ _ _ _ HP r Hr) as [->| ->]; cbn; by rewrite upd_eq.
    - symmetry. eapply call_status; [done|]. intros r' Hr' Hb. apply upd_ne, complete_others. rewrite HF in Hr'.
      assert (r' ≠ r) by (intros ->; done). set_solver. }
  unfold s' in *. rewrite perform_eq in *. cbn [arun]. rewrite Ecall. cbn [to_disk q] in *.
  destruct (rw r); (eexists; split; [done|]; split; try done).
  intros n. cbn. symmetry. apply (put_get_block (sectors (dev s))). apply HD.
Qed.
End complete.

Lemma done_ok id : step_ok (LDone id) s.
Proof using HD HE HP.
  unfold step_ok. cbn [step]. case_bool_decide as Hin; [|done].
  apply (de_fetched _ _ _ _ _ HE), list_elem_of_fmap in Hin as (r & -> & Hr).
  destruct (list_elem_of_split _ _ Hr) as (F1 & F2 & HF). pose proof (dv_chains _ _ _ _ _ HD) as Hc.
  rewrite (read_chain_ok _ _ Hc) by set_solver. split.
  - exists Q, (F1 ++ F2), (C ++ [r]), W. split_and!; [by apply complete_driver|by apply complete_device|by apply complete_procs].
  - cbn [action_of]. rewrite (ch_b _ _ (cs_chain _ _ Hc r ltac:(set_solver))). by apply (complete_refines r F1 F2).
Qed.
End steps.

(** ** Every run *)

Lemma any_step_ok l s : inv s → step_ok l s.
Proof.
  intros (Q & F & C & W & HD & HE & HP). destruct l.
  - by apply (set_ok s Q F C W).
  - by apply (call_ok s Q F C W).
  - by apply (start_ok s Q F C W).
  - by apply (resume_ok s Q F C W).
  - by apply (kill_ok s Q F C W).
  - by apply (intr_ok s Q F C W).
  - by apply (fetch_ok s Q F C W).
  - by apply (done_ok s Q F C W).
Qed.

#[global] Instance same_disk_equiv : Equivalence same_disk.
Proof.
  split.
  - done.
  - intros a a' [H1 H2 H3 H4]. by split.
  - intros a a' a'' [H1 H2 H3 H4] [K1 K2 K3 K4]. split; intros ?; by rewrite ?H1, ?H2, ?H3, ?H4.
Qed.

(** The abstract disk does not depend on how its state is written. *)
Lemma arun_same x a1 a2 a1' :
  same_disk a1 a2 → arun x a1 = Some a1' → ∃ a2', arun x a2 = Some a2' ∧ same_disk a1' a2'.
Proof.
  intros [H1 H2 H3 H4] E. destruct x as [b n y|b w|b|b|]; cbn in *; rewrite ?H4 in E.
  - destruct (calls a2 b); try discriminate. injection E as <-. eexists. split; [done|].
    split; try done; intros; by apply upd_ext.
  - destruct (calls a2 b); try discriminate. injection E as <-. eexists. split; [done|].
    split; try done; intros; by apply upd_ext.
  - destruct (calls a2 b) as [|[]|]; try discriminate; injection E as <-; eexists; (split; [done|]);
      (split; try done; intros; cbn; rewrite ?H1, ?H2, ?H3; by apply upd_ext).
  - destruct (calls a2 b); try discriminate. injection E as <-. eexists. split; [done|].
    split; try done; intros; by apply upd_ext.
  - injection E as <-. by exists a2.
Qed.

Lemma run_inv ls : ∀ s a xs s', inv s → same_disk a (abs s) → run ls s = Some (xs, s') →
  inv s' ∧ ∃ a', aruns xs a = Some a' ∧ same_disk a' (abs s').
Proof.
  induction ls as [|l ls IH]; intros s a xs s' Hs Ha E; cbn [run] in E.
  { injection E as <- <-. split; [done|]. by exists a. }
  pose proof (any_step_ok l s Hs) as Hok. unfold step_ok in Hok. destruct (step l s) as [s1| |]; try discriminate.
  destruct Hok as [Hs1 (b & Eb & Hb)]. destruct (run ls s1) as [[ys s2]|] eqn:Er; [|discriminate]. injection E as <- <-.
  destruct (arun_same _ _ a _ (symmetry Ha) Eb) as (c & Ec & Hc).
  destruct (IH s1 c ys s2 Hs1) as (Hs2 & a' & Ea' & Ha'); [by rewrite <-Hc|done|].
  split; [done|]. exists a'. cbn [aruns]. by rewrite Ec.
Qed.

Lemma started_run s0 ls xs s : started s0 → run ls s0 = Some (xs, s) → inv s.
Proof. intros H%started_inv E. by apply (run_inv ls s0 (abs s0) xs s). Qed.

(** C16: With a device that completes each request that it takes with status 0
    (the driver panics on any other), every request that the driver hands to the
    disk is well formed, and every transfer is into or out of a buffer whose owner waits for it.  In
    each state that the system can reach, no step goes wrong: the
    driver does not panic, and the device finds no chain that is not a block
    request; and a chain that the device holds describes
    the two sectors of the block of a waiting buffer, in the direction that
    the caller asked for. *)
Theorem disk_typed s0 ls xs s :
  started s0 → run ls s0 = Some (xs, s) →
  (∀ l, step l s ≠ Wrong)
  ∧ ∀ id, id ∈ fetched (dev s) → ∃ b w,
      read_chain (drv s) id = Some (Request w (blockno (drv s) b * 2) 2 b id)
      ∧ (procs s b = InDisk w id ∨ procs s b = Woken w id) ∧ bdisk (drv s) b = 1.
Proof.
  intros H E. pose proof (started_run _ _ _ _ H E) as Hs. split.
  - intros l El. pose proof (any_step_ok l s Hs) as Hok. unfold step_ok in Hok. by rewrite El in Hok.
  - destruct Hs as (Q & F & C & W & HD & HE & HP). intros id (r & -> & Hr)%(de_fetched _ _ _ _ _ HE)%list_elem_of_fmap.
    exists (rb r), (rw r). split_and!.
    + apply (read_chain_ok _ _ (dv_chains _ _ _ _ _ HD)). set_solver.
    + apply (pr_wait _ _ _ _ _ HP). set_solver.
    + apply (dv_busy _ _ _ _ _ HD). set_solver.
Qed.

(** C15: The driver, its interrupt handler and the device together are an
    atomic disk.  Each run of the system, with any number of callers, any
    order in which the device works, and spurious wakeups, is a run of an
    abstract disk on which a call transfers one whole block at one point
    between its start and its return, the point being the completion by the
    device, which completes each request that it takes with status 0. *)
Theorem disk_refines s0 ls xs s :
  started s0 → run ls s0 = Some (xs, s) → ∃ a, aruns xs (abs s0) = Some a ∧ same_disk a (abs s).
Proof. intros H%started_inv E. by apply (run_inv ls s0 (abs s0) xs s). Qed.

Section wakes.
  Context (s : sys) (Q F C W : list rq).
  Context (HD : driver_ok (drv s) Q F C W) (HE : device_ok (drv s) (dev s) Q F C) (HP : procs_ok (procs s) Q F C W).

Lemma served_request b w i :
  procs s b = InDisk w i → info_status (drv s) i = 0 → ∃ r, r ∈ C ∧ rb r = b ∧ rw r = w ∧ r0 r = i.
Proof using HD HP.
  clear HE. intros Eb Hst. destruct (proc_req _ _ _ _ _ HP b w i (or_introl Eb)) as (r & Hr & <- & <- & <-). exists r. split_and!; [|done..].
  assert (r ∉ W). { intros Hw. by rewrite (pr_seen _ _ _ _ _ HP r Hw) in Eb. }
  assert (r ∉ Q ++ F). { intros Hq. by rewrite (dv_pending _ _ _ _ _ HD r Hq) in Hst. }
  set_solver.
Qed.

Lemma intr_wakes b w i :
  procs s b = InDisk w i → info_status (drv s) i = 0 →
  irq (dev s) = true ∧ ∃ s1 s2, step LIntr s = Good s1 ∧ procs s1 b = Woken w i ∧ step (LResume b) s1 = Good s2 ∧ procs s2 b = Idle.
Proof using HD HE HP.
  intros Eb Hst. destruct (served_request b w i Eb Hst) as (r & Hr & <- & <- & <-).
  split; [apply (de_irq _ _ _ _ _ HE); intros EC; rewrite EC in Hr; by apply elem_of_nil in Hr|].
  destruct (intr_run s Q F C W HD) as (v' & t & E & HD' & _ & Ht).
  pose proof (intr_procs s Q F C W HP t Ht) as HP'. eexists. cbn [step]. rewrite E.
  set (s1 := Sys v' (interrupted (dev s)) (wake t (procs s))).
  assert (∃ s2, step (LResume (rb r)) s1 = Good s2 ∧ procs s2 (rb r) = Idle) as (s2 & E2 & Hs2).
  { destruct (rw_resume_run v' _ r (dv_chains _ _ _ _ _ HD')) as (t' & Et & _); [set_solver|apply (dv_seen _ _ _ _ _ HD'); set_solver|].
    cbn [step s1 procs drv]. rewrite (pr_seen _ _ _ _ _ HP' r) by set_solver. rewrite Et. eexists. split; [done|apply upd_eq]. }
  exists s2. split_and!; [done| |done|done]. apply (pr_seen _ _ _ _ _ HP' r). set_solver.
Qed.

(** A request that was not carried out is in the queue or in the device. *)
Lemma pending_request b w i :
  procs s b = InDisk w i → info_status (drv s) i ≠ 0 → (∃ s', step LFetch s = Good s') ∨ i ∈ fetched (dev s).
Proof using HD HE HP.
  intros Eb Hst. destruct (proc_req _ _ _ _ _ HP b w i (or_introl Eb)) as (r & Hr & <- & <- & <-).
  assert (r ∉ C ++ W) as Hcw. { intros Hq. by rewrite (dv_done _ _ _ _ _ HD r Hq) in Hst. }
  assert (r ∈ F ∨ r ∈ Q) as [HF|HQ] by set_solver.
  { right. apply (de_fetched _ _ _ _ _ HE). by apply list_elem_of_fmap_2. }
  left. pose proof (fetch_ok s Q F C W HD HE HP) as Hok. unfold step_ok in Hok.
  destruct (step LFetch s) as [s'| |] eqn:E; [eauto| |done]. exfalso. cbn [step] in E.
  destruct (last_avail (dev s) =? avail_idx (drv s)) eqn:El; [|by destruct (read_chain _ _)].
  pose proof (few_requests _ _ (dv_chains _ _ _ _ _ HD)) as Hfew. rewrite !length_app in Hfew.
  destruct (de_idx _ _ _ _ _ HE) as [E2 E2']. rewrite E2, Z.eqb_sym in El. unfold u16 in El.
  rewrite (counter_empty NUM (2 ^ 16) NUM_pos) in El by lia. destruct Q; [by apply elem_of_nil in HQ|done].
Qed.

Lemma return_wakes b w b' s' :
  procs s b = NoDesc w → step (LResume b') s = Good s' → procs s' b' = Idle → procs s' b = Ready w.
Proof using HD HP.
  clear HE. intros Eb E Hi. cbn [step] in E. destruct (procs s b') as [| | | |w' i] eqn:Eb'; try discriminate.
  destruct (proc_req _ _ _ _ _ HP b' w' i (or_intror Eb')) as (r & Hr & <- & <- & <-).
  assert (rb r ≠ b) as Hne by congruence. destruct (decide (bdisk (drv s) (rb r) = 1)) as [Hb|Hb].
  - assert (rw_resume (rb r) (r0 r) (drv s) = Done false (drv s) [EvAcquire LkVdisk; EvSleep (ChBuf (rb r)) LkVdisk]) as Er.
    { unfold rw_resume. over reflexivity. over reflexivity. by rewrite Hb. }
    rewrite Er in E. injection E as <-. cbn [procs] in Hi. by rewrite upd_eq in Hi.
  - assert (bdisk (drv s) (rb r) = 0) as H0.
    { apply (dv_seen _ _ _ _ _ HD). assert (r ∉ Q ++ F ++ C) by (intros Hq; by apply Hb, (dv_busy _ _ _ _ _ HD)). set_solver. }
    destruct (rw_resume_run _ _ r (dv_chains _ _ _ _ _ HD) Hr H0) as (t & Et & Ht). rewrite Et in E. injection E as <-.
    cbn [procs]. rewrite upd_ne by done. unfold wake. by rewrite Eb, Ht.
Qed.

(** A process waits for descriptors only while two others have requests. *)
Lemma nodesc_others b w :
  procs s b = NoDesc w → ∃ b1 b2, b1 ≠ b2 ∧ waiting (procs s b1) = true ∧ waiting (procs s b2) = true.
Proof using HD HP.
  clear HE. intros H%(pr_full _ _ _ _ _ HP). pose proof (cs_bufs _ _ (dv_chains _ _ _ _ _ HD)) as Hnd.
  pose proof (req_waiting _ _ _ _ _ HP) as Hw. destruct (Q ++ F ++ C ++ W) as [|r [|r' L]]; cbn [length] in H; [lia|lia|].
  exists (rb r), (rb r'). split_and!.
  - rewrite !fmap_cons, NoDup_cons in Hnd. destruct Hnd as [Hn _]. intros E. apply Hn. rewrite E. left.
  - destruct (Hw r) as [->| ->]; [left|done|done].
  - destruct (Hw r') as [->| ->]; [right; left|done|done].
Qed.
End wakes.

(** C17: No completion and no free descriptor is missed.  A sleeper whose
    request was carried out has an interrupt to come, which wakes it, and
    then its call returns; a sleeper whose request was not carried out has it
    in the queue, which the device can take, or in the device.  A process
    sleeps for descriptors only while two others have requests, and the
    return of any call makes it ready. *)
Theorem disk_wakes s0 ls xs s :
  started s0 → run ls s0 = Some (xs, s) →
  (∀ b w i, procs s b = InDisk w i → info_status (drv s) i = 0 →
    irq (dev s) = true ∧ ∃ s1 s2, step LIntr s = Good s1 ∧ procs s1 b = Woken w i
      ∧ step (LResume b) s1 = Good s2 ∧ procs s2 b = Idle)
  ∧ (∀ b w i, procs s b = InDisk w i → info_status (drv s) i ≠ 0 →
    (∃ s', step LFetch s = Good s') ∨ i ∈ fetched (dev s))
  ∧ (∀ b w, procs s b = NoDesc w →
    (∃ b1 b2, b1 ≠ b2 ∧ waiting (procs s b1) = true ∧ waiting (procs s b2) = true)
    ∧ ∀ b' s', step (LResume b') s = Good s' → procs s' b' = Idle → procs s' b = Ready w).
Proof.
  intros H E. destruct (started_run _ _ _ _ H E) as (Q & F & C & W & HD & HE & HP). split_and!.
  - intros b w i. by apply (intr_wakes s Q F C W).
  - intros b w i. by apply (pending_request s Q F C W).
  - intros b w Eb. split; [by apply (nodesc_others s Q F C W HD HP b w)|].
    intros b' s'. by apply (return_wakes s Q F C W HD HP b w).
Qed.

(** ** Initialisation *)

Section init.
  Context {D : Type} (vread : Z → D → Z * D) (vwrite : Z → Z → D → D).
  Implicit Types (i : @ist D).

(** [m] does not touch the structures of the driver. *)
Definition keeps {A} (m : M (@ist D) A) : Prop := ∀ i a i' t, m i = Done a i' t → Virtio.drv i' = Virtio.drv i.

Lemma keeps_wreg r x : keeps (wreg vwrite r x).
Proof. intros i a i' t E. by injection E as <- <- <-. Qed.
Lemma keeps_rreg r : keeps (rreg vread r).
Proof. intros i a i' t E. by injection E as <- <- <-. Qed.
Lemma keeps_ret {A} (x : A) : keeps (mret x).
Proof. intros i a i' t E. by injection E as <- <- <-. Qed.
Lemma keeps_emit e : keeps (emit e).
Proof. intros i a i' t E. by injection E as <- <- <-. Qed.
Lemma keeps_panic msg : keeps (panic (A := unit) msg).
Proof. intros i a i' t E. discriminate. Qed.
Lemma keeps_pages x : keeps (modify (set_pages x)).
Proof. intros i a i' t E. by injection E as <- <- <-. Qed.
Lemma keeps_zoom {A} (m : M kmem A) : keeps (zoom (Lens ikm set_ikm) m).
Proof. intros i a i' t E. unfold zoom in E. destruct (m _); try discriminate. by injection E as <- <- <-. Qed.

(** What holds of the driver after [m]. *)
Definition leaves {A} (m : M (@ist D) A) (P R : vst → Prop) : Prop :=
  ∀ i a i' t, P (Virtio.drv i) → m i = Done a i' t → R (Virtio.drv i').

Lemma leaves_keeps {A} (m : M (@ist D) A) P : keeps m → leaves m P P.
Proof. intros H i a i' t HP E. by rewrite (H _ _ _ _ E). Qed.
Lemma leaves_bind {A B} (m : M (@ist D) A) (f : A → M (@ist D) B) P R T :
  leaves m P R → (∀ a, leaves (f a) R T) → leaves (m ≫= f) P T.
Proof.
  intros Hm Hf i b i' t HP (a & i1 & t1 & t2 & E1 & E2 & _)%bind_done_inv.
  apply (Hf a i1 b i' t2); [|done]. by apply (Hm i a i1 t1).
Qed.
Lemma leaves_panic msg P R : leaves (panic (A := unit) msg) P R.
Proof. intros i a i' t _ E. discriminate. Qed.

(** The queue is empty and every descriptor is free. *)
Definition queue_empty (v : vst) : Prop :=
  avail_idx v = 0 ∧ length (avail_ring v) = 8%nat ∧ ring_idx v = 0 ∧ length (ring_ids v) = 8%nat ∧ used_idx v = 0.
Definition queue_ready (v : vst) : Prop := queue_empty v ∧ ∀ j, 0 ≤ j < NUM → free v j = 1.

Hint Resolve keeps_wreg keeps_rreg keeps_ret keeps_emit keeps_pages keeps_zoom leaves_panic : core.

Ltac next_reg := eapply leaves_bind; [apply leaves_keeps; try case_match; auto|intros ?].

Lemma alloc_queue_leaves : leaves (alloc_queue vwrite) (λ v, used_idx v = 0) queue_empty.
Proof.
  unfold alloc_queue. do 3 next_reg. case_match; [auto|].
  do 2 next_reg. eapply (leaves_bind _ _ _ queue_empty).
  { intros i x i' t Hv Ex. injection Ex as <- <- <-. done. }
  intros ?. do 6 next_reg. apply leaves_keeps; auto.
Qed.

Lemma virtio_disk_init_leaves : leaves (virtio_disk_init vread vwrite) (λ v, used_idx v = 0) queue_ready.
Proof.
  unfold virtio_disk_init. eapply leaves_bind; [apply leaves_keeps, keeps_emit|intros ?].
  do 4 next_reg. case_match; [auto|].
  do 3 next_reg. do 4 next_reg. case_match; [auto|].
  do 2 next_reg. case_match; [auto|]. next_reg. repeat (case_match; [auto|]).
  eapply leaves_bind; [apply alloc_queue_leaves|intros _]. next_reg.
  eapply (leaves_bind _ _ _ queue_ready); [|intros ?; apply leaves_keeps; auto].
  intros i x i' t Hv Ex. injection Ex as <- <- <-. split; [done|]. intros j Hj. cbn. by if_true.
Qed.

(** [virtio_disk_init] leaves the driver as the theorems expect it. *)
Lemma init_started i i' t d :
  virtio_disk_init vread vwrite i = Done tt i' t → used_idx (Virtio.drv i) = 0 →
  last_avail d = 0 → fetched d = [] → (∀ n, length (sectors d n) = 512%nat) →
  (∀ b, 0 ≤ blockno (Virtio.drv i') b < 2 ^ 31 ∧ Z.of_nat (length (bdata (Virtio.drv i') b)) = BSIZE) →
  started (Sys (Virtio.drv i') d (λ _, Idle)).
Proof.
  intros E Hu H1 H2 H3 H4. destruct (virtio_disk_init_leaves _ _ _ _ Hu E) as [(Q1 & Q2 & Q3 & Q4 & Q5) Q6].
  split; try done; intros b; apply H4.
Qed.
End init.

(** ** An example *)

(** Two requests in the device, one of them carried out, and a third process
    that found no descriptors. *)
Definition quiet : sys :=
  Sys (Vst (λ _, Desc NoAddr 0 0 0) 0 (replicate 8 0) 0 (replicate 8 0) (λ _, 1) 0 (λ _, no_buf) (λ _, 0)
        (λ _, Req 0 0 0) (λ _, 0) (λ _, replicate 1024 0) (λ b, b mod 1000))
    (Device (λ n, replicate 512 (n mod 256)) 0 [] false) (λ _, Idle).
Definition busy_steps : list label :=
  [LSet 1 7 (replicate 1024 5); LCall 1 true; LStart 1; LCall 2 false; LStart 2; LCall 3 true; LStart 3; LFetch; LFetch; LDone 0].
Definition busy : list action * sys := default ([], quiet) (run busy_steps quiet).

Lemma quiet_started : started quiet.
Proof.
  split; try done. intros b. cbn [blockno drv quiet]. pose proof (Z.mod_pos_bound b 1000). lia.
Qed.

Lemma busy_run : run busy_steps quiet = Some (busy.1, busy.2).
Proof.
  assert (is_Some (run busy_steps quiet)) as [[xs s] E].
  { apply (bool_decide_unpack _). vm_compute. reflexivity. }
  unfold busy. by rewrite E.
Qed.

Lemma disk_typed_witness : 3 ∈ fetched (dev busy.2) ∧ (∀ l, step l busy.2 ≠ Wrong) ∧ read_chain (drv busy.2) 3 ≠ None.
Proof.
  destruct (disk_typed quiet busy_steps busy.1 busy.2 quiet_started busy_run) as [Hl Hf].
  assert (3 ∈ fetched (dev busy.2)) as H3 by (apply (bool_decide_unpack _); vm_compute; reflexivity).
  split_and!; [done|done|]. destruct (Hf 3 H3) as (b & w & -> & _). done.
Defined.

Lemma disk_refines_witness :
  busy.1 = [ASet 1 7 (replicate 1024 5); ACall 1 true; ATau; ACall 2 false; ATau; ACall 3 true; ATau; ATau; ATau; ATransfer 1]
  ∧ ∃ a, aruns busy.1 (abs quiet) = Some a ∧ same_disk a (abs busy.2).
Proof. split; [vm_compute; reflexivity|]. exact (disk_refines quiet busy_steps busy.1 busy.2 quiet_started busy_run). Defined.

Lemma disk_wakes_witness :
  irq (dev busy.2) = true ∧ 3 ∈ fetched (dev busy.2) ∧ procs busy.2 3 = NoDesc true
  ∧ ∃ s1 s2, step LIntr busy.2 = Good s1 ∧ procs s1 1 = Woken true 0 ∧ step (LResume 1) s1 = Good s2 ∧ procs s2 1 = Idle.
Proof.
  destruct (disk_wakes quiet busy_steps busy.1 busy.2 quiet_started busy_run) as (H1 & H2 & _).
  destruct (H1 1 true 0) as [Hi Hs]; [vm_compute; reflexivity|vm_compute; reflexivity|].
  split_and!; [done|apply (bool_decide_unpack _); vm_compute; reflexivity|vm_compute; reflexivity|done].
Defined.
