(* ===== verification/Pipe.v ===== *)
(** * Pipes, [kernel/pipe.c]

    The code of one pipe, the bounded queue it implements, and the processes
    that read and write it in any order.  A call runs under the pipe's lock
    until it returns or sleeps; a call that sleeps resumes with its index. *)

From S2P Require Import Prelude Riscv Ring.

Definition PIPESIZE : Z := 512.

Ltac Zify.zify_pre_hook ::= unfold_consts; unfold PIPESIZE in *.

(** [struct pipe] without its lock; [data] has [PIPESIZE] entries. *)
Record pipe : Type := Pipe {
  data : list Z;
  nread : Z;
  nwrite : Z;
  readopen : Z;
  writeopen : Z
}.

Definition set_data d n p := Pipe d (nread p) n (readopen p) (writeopen p).
Definition set_nread n p := Pipe (data p) n (nwrite p) (readopen p) (writeopen p).
Definition set_readopen b p := Pipe (data p) (nread p) (nwrite p) b (writeopen p).
Definition set_writeopen b p := Pipe (data p) (nread p) (nwrite p) (readopen p) b.

(** What a call does under the lock: return, or sleep to go on at index [i]. *)
Inductive progress : Type := Ret (r : Z) | Wait (i : Z).

Section code.
  Variable pi : Z.  (** the address of the pipe *)

(** The fields [pipealloc] sets in a new page. *)
Definition pipeinit (page : list Z) : pipe := Pipe page 0 0 1 1.

(** The result says whether the page is freed. *)
Definition pipeclose (writable : Z) : M pipe bool :=
  acquire (LkPipe pi);;
  (if truthy writable then modify (set_writeopen 0);; wakeup (ChPipeRead pi)
   else modify (set_readopen 0);; wakeup (ChPipeWrite pi));;
  p ← get;
  if (readopen p =? 0) && (writeopen p =? 0) then
    release (LkPipe pi);;
    mret true
  else
    release (LkPipe pi);;
    mret false.

(** [src i] is what [copyin] of one byte at [addr + i] gives, [kl i] what
    [killed(pr)] says in round [i]; [k] rounds are left, so [n = i + k]. *)
Fixpoint pipewrite_loop (src : Z → option Z) (kl : Z → bool) (k : nat) (i : Z) : M pipe progress :=
  match k with
  | O =>
      wakeup (ChPipeRead pi);;
      release (LkPipe pi);;
      mret (Ret i)
  | S k =>
      p ← get;
      if (readopen p =? 0) || kl i then
        release (LkPipe pi);;
        mret (Ret (-1))
      else if nwrite p =? u32 (nread p + PIPESIZE) then
        wakeup (ChPipeRead pi);;
        emit (EvSleep (ChPipeWrite pi) (LkPipe pi));;
        mret (Wait i)
      else
        match src i with
        | None =>
            wakeup (ChPipeRead pi);;
            release (LkPipe pi);;
            mret (Ret i)
        | Some ch =>
            put (set_data (<[Z.to_nat (nwrite p mod PIPESIZE) := ch]> (data p)) (u32 (nwrite p + 1)) p);;
            pipewrite_loop src kl k (i + 1)
        end
  end.

(** From index [i]: [0] at the call, the saved index after a sleep. *)
Definition pipewrite (src : Z → option Z) (kl : Z → bool) (n i : Z) : M pipe progress :=
  acquire (LkPipe pi);;
  pipewrite_loop src kl (Z.to_nat (n - i)) i.

(** [dst i] says whether [copyout] of one byte to [addr + i] succeeds.  The
    result has the bytes that [copyout] stored, with their indices. *)
Fixpoint piperead_loop (dst : Z → bool) (k : nat) (i : Z) : M pipe (progress * list (Z * Z)) :=
  let finish :=
    wakeup (ChPipeWrite pi);;
    release (LkPipe pi);;
    mret (Ret i, []) in
  match k with
  | O => finish
  | S k =>
      p ← get;
      if nread p =? nwrite p then finish
      else
        let ch := data p !!! Z.to_nat (nread p mod PIPESIZE) in
        put (set_nread (u32 (nread p + 1)) p);;
        if negb (dst i) then finish
        else
          r ← piperead_loop dst k (i + 1);
          mret (r.1, (i, ch) :: r.2)
  end.

(** [kl] is what [killed(pr)] says. *)
Definition piperead (dst : Z → bool) (kl : bool) (n : Z) : M pipe (progress * list (Z * Z)) :=
  acquire (LkPipe pi);;
  p ← get;
  if (nread p =? nwrite p) && truthy (writeopen p) then
    if kl then
      release (LkPipe pi);;
      mret (Ret (-1), [])
    else
      emit (EvSleep (ChPipeRead pi) (LkPipe pi));;
      mret (Wait 0, [])
  else piperead_loop dst (Z.to_nat n) 0.
End code.

(** ** The queue *)

(** [q] is in the pipe, the oldest byte first. *)
Record holds (p : pipe) (q : list Z) : Prop := {
  ho_ring : ring PIPESIZE (data p) (nread p) q;
  ho_nread : 0 ≤ nread p < 2 ^ 32;
  ho_nwrite : nwrite p = u32 (nread p + Z.of_nat (length q))
}.

(** The counters wrap around at [2^32], a multiple of [PIPESIZE]. *)
Lemma pipe_wrap x : u32 x mod PIPESIZE = x mod PIPESIZE.
Proof. apply wrap_mod; [lia|]. by exists (2 ^ 23). Qed.

Lemma holds_empty p q : holds p q → (nread p =? nwrite p) = bool_decide (q = []).
Proof.
  intros [H1 H2 H3]. pose proof (rg_len _ _ _ _ H1). rewrite Z.eqb_sym, H3. unfold u32.
  rewrite (counter_empty PIPESIZE) by lia.
  destruct q; [done|]. rewrite bool_decide_false by done. apply Z.eqb_neq. simpl. lia.
Qed.

Lemma holds_full p q :
  holds p q → (nwrite p =? u32 (nread p + PIPESIZE)) = bool_decide (Z.of_nat (length q) = PIPESIZE).
Proof.
  intros [H1 H2 H3]. pose proof (rg_len _ _ _ _ H1). rewrite H3. unfold u32.
  rewrite counter_full by lia. case_bool_decide; [by apply Z.eqb_eq|by apply Z.eqb_neq].
Qed.

(** [pi->data[pi->nwrite++ % PIPESIZE] = ch;] *)
Lemma holds_put p q ch :
  holds p q → Z.of_nat (length q) ≠ PIPESIZE →
  holds (set_data (<[Z.to_nat (nwrite p mod PIPESIZE) := ch]> (data p)) (u32 (nwrite p + 1)) p) (q ++ [ch]).
Proof.
  intros [H1 H2 H3] Hn. pose proof (rg_len _ _ _ _ H1). split; simpl; [|done|].
  - rewrite H3, pipe_wrap. apply ring_put; [lia|done|lia].
  - rewrite H3, length_app. unfold u32. rewrite Zplus_mod_idemp_l. f_equal. simpl. lia.
Qed.

(** [ch = pi->data[pi->nread++ % PIPESIZE];] *)
Lemma holds_get p ch q :
  holds p (ch :: q) →
  data p !!! Z.to_nat (nread p mod PIPESIZE) = ch ∧ holds (set_nread (u32 (nread p + 1)) p) q.
Proof.
  intros [H1 H2 H3]. split; [by apply (ring_head PIPESIZE _ _ _ q)|]. split; simpl in *.
  - eapply (ring_tail PIPESIZE); [lia|exact H1|]. apply pipe_wrap.
  - apply u32_range.
  - rewrite H3. unfold u32. rewrite Zplus_mod_idemp_l. f_equal. lia.
Qed.

(** ** What a call does *)

Definition flags (p p' : pipe) : Prop := readopen p' = readopen p ∧ writeopen p' = writeopen p.

(** [r] and [moved] are the outcome of [pipewrite] from index [i]. *)
Definition write_done (pi : Z) (src : Z → option Z) (kl : Z → bool) (n i : Z) (p : pipe) (q : list Z)
    (r : progress) (moved : list Z) (t : trace) : Prop :=
  let j := i + Z.of_nat (length moved) in
  (∀ k ch, moved !! k = Some ch → src (i + Z.of_nat k) = Some ch) ∧
  match r with
  | Wait i' => i' = j ∧ j < n ∧ Z.of_nat (length (q ++ moved)) = PIPESIZE ∧ readopen p ≠ 0 ∧
      EvWakeup (ChPipeRead pi) ∈ t
  | Ret v =>
      (v = j ∧ (n ≤ j ∨ src j = None) ∧ EvWakeup (ChPipeRead pi) ∈ t) ∨
      (v = -1 ∧ j < n ∧ (readopen p = 0 ∧ moved = [] ∨ kl j = true))
  end.

Lemma pipewrite_loop_spec pi src kl k i p q :
  holds p q →
  returns (pipewrite_loop pi src kl k i) p (λ r p' t, ∃ moved,
    holds p' (q ++ moved) ∧ flags p p' ∧ nread p' = nread p ∧ write_done pi src kl (i + Z.of_nat k) i p q r moved t ∧
    ∀ j, i ≤ j < i + Z.of_nat (length moved) → kl j = false).
Proof.
  revert i p q. induction k as [|k IH]; intros i p q Hq; cbn [pipewrite_loop].
  { do 2 call reflexivity. apply returns_ret. exists []. simpl. rewrite app_nil_r.
    split_and!; [done|done|done|split; [by intros ? ?|]|intros j Hj; exfalso; lia]. left. simpl. split_and!; [lia|lia|set_solver]. }
  call reflexivity. destruct ((readopen p =? 0) || kl i) eqn:Ek.
  { call reflexivity. apply returns_ret. exists []. simpl. rewrite app_nil_r.
    split_and!; [done|done|done|split; [by intros ? ?|]|intros j Hj; exfalso; lia]. right. simpl. split_and!; [done|lia|].
    apply orb_true_iff in Ek as [Ek|Ek]; [left|right; rewrite Z.add_0_r; done].
    split; [|done]. by apply Z.eqb_eq. }
  apply orb_false_iff in Ek as [Er%Z.eqb_neq Ek]. rewrite (holds_full p q Hq).
  case_bool_decide as Hfull.
  { do 2 call reflexivity. apply returns_ret. exists []. simpl. rewrite app_nil_r.
    split_and!; [done|done|done|split; [by intros ? ?|]|intros j Hj; exfalso; lia]. simpl. rewrite app_nil_r.
    split_and!; [lia|lia|done|done|set_solver]. }
  destruct (src i) as [ch|] eqn:Es.
  - call reflexivity. eapply returns_mono; [by apply IH, holds_put|].
    intros r p' t (moved & Hq' & Hf & Hnr & [Hsrc Hr] & Hkl). exists (ch :: moved). simpl in *.
    rewrite <-app_assoc in Hq'. split_and!; [done|apply Hf|done|split|].
    + intros [|m] c Hm; [injection Hm as <-; by rewrite Z.add_0_r|].
      rewrite <-(Hsrc m c Hm). f_equal. lia.
    + cbn [length]. replace (i + Z.of_nat (S (length moved))) with (i + 1 + Z.of_nat (length moved)) by lia.
      destruct r as [v|i'].
      * destruct Hr as [(-> & Hend & Hw)|(-> & Hlt & Hend)]; [left|right]; split_and!; try done; try lia.
        -- destruct Hend as [?|?]; [left; lia|by right].
        -- destruct Hend as [[? _]|?]; [done|by right].
      * destruct Hr as (-> & Hlt & Hfl & Hro & Hw). rewrite !length_app in *. simpl in *.
        split_and!; try done; lia.
    + intros j Hj. destruct (decide (j = i)) as [->|]; [done|]. apply Hkl. lia.
  - do 2 call reflexivity. apply returns_ret. exists []. simpl. rewrite app_nil_r.
    split_and!; [done|done|done|split; [by intros ? ?|]|intros j Hj; exfalso; lia]. left. rewrite Z.add_0_r.
    split_and!; [done|by right|set_solver].
Qed.

Lemma pipewrite_spec pi src kl n i p q :
  holds p q →
  returns (pipewrite pi src kl n i) p (λ r p' t, ∃ moved,
    holds p' (q ++ moved) ∧ flags p p' ∧ nread p' = nread p ∧ write_done pi src kl (Z.max i n) i p q r moved t ∧
    ∀ j, i ≤ j < i + Z.of_nat (length moved) → kl j = false).
Proof.
  intros Hq. unfold pipewrite. call reflexivity.
  eapply returns_mono; [by apply pipewrite_loop_spec|].
  intros r p' t (moved & H). exists moved. revert H. replace (i + Z.of_nat (Z.to_nat (n - i))) with (Z.max i n) by lia. simpl.
  intros (H1 & H2 & Hnr & [H3 H4] & H5). split_and!; [done|apply H2|done|split; [done|]|done].
  destruct r as [v|i'].
  - destruct H4 as [(-> & H4 & Hw)|H4]; [left|by right]. split_and!; [done|done|by right].
  - destruct H4 as (-> & H4 & H6 & H7 & Hw). split_and!; try done. by right.
Qed.

(** [r] and [out] are the outcome of [piperead], which took the bytes
    [taken]: those stored, at the indices from 0, and maybe a last one that
    [copyout] refused. *)
Definition read_done (pi : Z) (dst : Z → bool) (kl : bool) (n : Z) (p : pipe) (q taken q' : list Z)
    (r : progress) (out : list (Z * Z)) (t : trace) : Prop :=
  q = taken ++ q' ∧
  match r with
  | Wait i => i = 0 ∧ taken = [] ∧ out = [] ∧ q = [] ∧ writeopen p ≠ 0
  | Ret v =>
      (v = -1 ∧ taken = [] ∧ out = [] ∧ kl = true ∧ q = [] ∧ writeopen p ≠ 0) ∨
      (0 ≤ v ∧ out = zip (seqZ 0 v) taken ∧ (∀ j, 0 ≤ j < v → dst j = true) ∧ EvWakeup (ChPipeWrite pi) ∈ t ∧
       ((v = Z.of_nat (length taken) ∧ (q' = [] ∨ v = Z.max 0 n)) ∨
        (v + 1 = Z.of_nat (length taken) ∧ v < n ∧ dst v = false)))
  end.

Lemma piperead_loop_spec pi dst k i p q :
  holds p q → 0 ≤ i →
  returns (piperead_loop pi dst k i) p (λ r p' t, ∃ taken q' v,
    holds p' q' ∧ flags p p' ∧ nwrite p' = nwrite p ∧ q = taken ++ q' ∧ r.1 = Ret (i + v) ∧ 0 ≤ v ∧ r.2 = zip (seqZ i v) taken ∧
    (∀ j, i ≤ j < i + v → dst j = true) ∧ EvWakeup (ChPipeWrite pi) ∈ t ∧
    ((v = Z.of_nat (length taken) ∧ (q' = [] ∨ v = Z.of_nat k)) ∨
     (v + 1 = Z.of_nat (length taken) ∧ v < Z.of_nat k ∧ dst (i + v) = false))).
Proof.
  revert i p q. induction k as [|k IH]; intros i p q Hq Hi; cbn [piperead_loop].
  { do 2 call reflexivity. apply returns_ret. exists [], q, 0. simpl. rewrite Z.add_0_r.
    split_and!; try done; [lia|set_solver|]. left. split; [done|]. by right. }
  call reflexivity. rewrite (holds_empty p q Hq). case_bool_decide as He.
  { do 2 call reflexivity. apply returns_ret. exists [], q, 0. simpl. rewrite Z.add_0_r.
    split_and!; try done; [lia|set_solver|]. left. split; [done|]. by left. }
  destruct q as [|ch q]; [done|]. destruct (holds_get p ch q Hq) as [-> Hq']. call reflexivity.
  destruct (dst i) eqn:Ed; cbn [negb].
  - call_spec IH; [done|lia|]. intros [r out] p' t (taken & q' & v & H1 & H2 & Hnw & H3 & H4 & H5 & Hz & H6 & H7 & H8).
    apply returns_ret. exists (ch :: taken), q', (v + 1). simpl in *. subst q r out. rewrite app_nil_r.
    split_and!; try done; try lia.
    + f_equal. lia.
    + rewrite (seqZ_cons i (v + 1)) by lia. simpl. unfold Z.succ. by replace (Z.pred (v + 1)) with v by lia.
    + intros j Hj. destruct (decide (j = i)) as [->|]; [done|]. apply H6. lia.
    + destruct H8 as [[H8 H9]|[H8 H9]]; [left|right]; (split; [lia|]).
      * destruct H9; [by left|right; lia].
      * split; [lia|]. rewrite <-(proj2 H9). f_equal. lia.
  - do 2 call reflexivity. apply returns_ret. exists [ch], q, 0. simpl. rewrite Z.add_0_r.
    split_and!; try done; [lia|set_solver|]. right. split_and!; [done|lia|done].
Qed.

Lemma piperead_spec pi dst kl n p q :
  holds p q →
  returns (piperead pi dst kl n) p (λ r p' t, ∃ taken q',
    holds p' q' ∧ flags p p' ∧ nwrite p' = nwrite p ∧ read_done pi dst kl n p q taken q' r.1 r.2 t).
Proof.
  intros Hq. unfold piperead. do 2 call reflexivity. rewrite (holds_empty p q Hq).
  destruct (bool_decide (q = []) && truthy (writeopen p)) eqn:Ee.
  - apply andb_true_iff in Ee as [->%bool_decide_eq_true Ew]. unfold truthy in Ew. bool_prop.
    destruct kl; call reflexivity; apply returns_ret; exists [], []; simpl; (split_and!; [done|done|done|]).
    + split; [done|]. left. done.
    + split; done.
  - eapply returns_mono; [by apply (piperead_loop_spec pi dst)|].
    intros [r out] p' t (taken & q' & v & H1 & H2 & Hnw & H3 & -> & H5 & Hz & H6 & H7 & H8). exists taken, q'. simpl in *.
    rewrite Z.add_0_l in H8. split_and!; [done|apply H2|done|split; [done|]]. right.
    split_and!; try done; [by right|]. destruct H8 as [[H8 [H9|H9]]|(H8 & H9 & H10)]; [left; split; [lia|by left]|left; split; [lia|right; lia]|right].
    split_and!; [done|lia|done].
Qed.

(** ** Processes that share a pipe *)

(** A call in progress, asleep or woken. *)
Inductive call_state : Type :=
  | Idle
  | Writing (src : Z → option Z) (n i : Z) (awake : bool)
  | Reading (dst : Z → bool) (n : Z) (awake : bool).

(** A finished call of [pipewrite]: its buffer, how many bytes it put into the
    pipe, and what it returned. *)
Record wcall : Type := Wcall { wc_src : Z → option Z; wc_n : Z; wc_put : Z; wc_ret : Z }.
(** A piece of [piperead]: how many bytes it took out of the pipe, those that
    [copyout] stored, with their indices, and how it ended. *)
Record rcall : Type := Rcall { rc_dst : Z → bool; rc_n : Z; rc_taken : Z; rc_out : list (Z * Z); rc_end : progress }.

(** The pipe with the processes, and the history: [sofar] is how many bytes the
    call of a process has put into the pipe, [sent] are all bytes put into it,
    read from the buffers of the writers. *)
Record world : Type := World {
  pp : pipe;
  procs : Z → call_state;
  sofar : Z → Z;
  sent : list Z;
  writes : list wcall;
  reads : list rcall
}.

(** The counters tell how many bytes went in and out. *)
Definition put_in (p p' : pipe) : Z := u32 (nwrite p' - nwrite p).
Definition taken_out (p p' : pipe) : Z := u32 (nread p' - nread p).

(** The bytes that the readers got, in the order of the calls; [None] is a byte
    that was taken out of the pipe and not stored. *)
Definition got_by (c : rcall) : list (option Z) :=
  (Some <$> (rc_out c).*2) ++ replicate (Z.to_nat (rc_taken c) - length (rc_out c)) None.
Definition got (w : world) : list (option Z) := reads w ≫= got_by.

Section world.
  Variable pi : Z.

Definition wake (t : trace) (f : Z → call_state) : Z → call_state := λ a,
  match f a with
  | Writing src n i aw => Writing src n i (aw || bool_decide (EvWakeup (ChPipeWrite pi) ∈ t))
  | Reading dst n aw => Reading dst n (aw || bool_decide (EvWakeup (ChPipeRead pi) ∈ t))
  | Idle => Idle
  end.

Definition after_write (src : Z → option Z) (n : Z) (r : progress) : call_state :=
  match r with Ret _ => Idle | Wait i => Writing src n i false end.
Definition after_read (dst : Z → bool) (n : Z) (r : progress) : call_state :=
  match r with Ret _ => Idle | Wait _ => Reading dst n false end.

(** Process [a] runs under the lock; [K] are the answers of [killed] that are
    considered.  The last close of an end waits for the calls that use it, since
    each of them holds a reference to the file. *)
Inductive step (K : (Z → bool) → Prop) : world → world → Prop :=
  | step_write a w src n i m kl r p' t :
      K kl →
      procs w a = Idle ∧ i = 0 ∧ m = 0 ∧ writeopen (pp w) ≠ 0 ∨ procs w a = Writing src n i true ∧ m = sofar w a →
      pipewrite pi src kl n i (pp w) = Done r p' t →
      let k := put_in (pp w) p' in
      step K w (World p' (upd (wake t (procs w)) a (after_write src n r)) (upd (sofar w) a (m + k))
        (sent w ++ omap src (seqZ m k))
        (match r with Ret v => writes w ++ [Wcall src n (m + k) v] | Wait _ => writes w end) (reads w))
  | step_read a w dst n kl r p' t :
      procs w a = Idle ∧ readopen (pp w) ≠ 0 ∨ procs w a = Reading dst n true →
      piperead pi dst kl n (pp w) = Done r p' t →
      step K w (World p' (upd (wake t (procs w)) a (after_read dst n r.1)) (sofar w)
        (sent w) (writes w) (reads w ++ [Rcall dst n (taken_out (pp w) p') r.2 r.1]))
  | step_close_write w p' b t :
      writeopen (pp w) ≠ 0 → (∀ a src n i aw, procs w a ≠ Writing src n i aw) →
      pipeclose pi 1 (pp w) = Done b p' t →
      step K w (World p' (wake t (procs w)) (sofar w) (sent w) (writes w) (reads w))
  | step_close_read w p' b t :
      readopen (pp w) ≠ 0 → (∀ a dst n aw, procs w a ≠ Reading dst n aw) →
      pipeclose pi 0 (pp w) = Done b p' t →
      step K w (World p' (wake t (procs w)) (sofar w) (sent w) (writes w) (reads w)).

Definition created (page : list Z) : world := World (pipeinit page) (λ _, Idle) (λ _, 0) [] [] [].

(** A write that does not fail returns how much of its buffer it put in: all
    of it, or what comes before a byte that cannot be read. *)
Definition write_ok (c : wcall) : Prop :=
  wc_ret c = -1 ∨ wc_ret c = wc_put c ∧ (wc_n c ≤ wc_put c ∨ wc_src c (wc_put c) = None).

(** A read returns how many bytes it stored, at the indices from 0; it took no
    others out of the pipe but for one that could not be stored. *)
Definition read_ok (c : rcall) : Prop :=
  match rc_end c with
  | Wait _ => rc_taken c = 0 ∧ rc_out c = []
  | Ret v => v = -1 ∧ rc_taken c = 0 ∧ rc_out c = [] ∨
      (rc_out c).*1 = seqZ 0 v ∧ v = Z.of_nat (length (rc_out c)) ∧
      (rc_taken c = v ∨ rc_taken c = v + 1 ∧ v < rc_n c ∧ rc_dst c v = false)
  end.

(** A byte and what a reader got for it. *)
Definition arrives (b : Z) (o : option Z) : Prop := o = Some b ∨ o = None.

(** The bytes in the pipe are those put in and not yet taken out. *)
Record fifo (w : world) (q : list Z) : Prop := {
  ff_holds : holds (pp w) q;
  ff_sent : ∃ past, sent w = past ++ q ∧ Forall2 arrives past (got w);
  ff_index a src n i aw : procs w a = Writing src n i aw → sofar w a = i;
  ff_writes : Forall write_ok (writes w);
  ff_reads : Forall read_ok (reads w)
}.

Lemma pipeclose_run wr p :
  ∃ b t, pipeclose pi wr p = Done b (if truthy wr then set_writeopen 0 p else set_readopen 0 p) t ∧
    EvWakeup (if truthy wr then ChPipeRead pi else ChPipeWrite pi) ∈ t ∧
    (b = true ↔ if truthy wr then readopen p = 0 else writeopen p = 0).
Proof.
  unfold pipeclose, mbind, M_bind. simpl. destruct (truthy wr); simpl.
  - rewrite andb_true_r. destruct (Z.eqb_spec (readopen p) 0); simpl; eexists _, _; (split_and!; [done|set_solver|done]).
  - destruct (Z.eqb_spec (writeopen p) 0); simpl; eexists _, _; (split_and!; [done|set_solver|done]).
Qed.

Lemma holds_flags p q p' :
  holds p q → data p' = data p → nread p' = nread p → nwrite p' = nwrite p → holds p' q.
Proof. intros [H1 H2 H3] E1 E2 E3. split; rewrite ?E1, ?E2, ?E3; done. Qed.

Lemma put_in_length p p' q moved :
  holds p q → holds p' (q ++ moved) → nread p' = nread p → put_in p p' = Z.of_nat (length moved).
Proof.
  intros H H' E. pose proof (rg_len _ _ _ _ (ho_ring _ _ H')) as Hl. unfold put_in.
  rewrite (ho_nwrite _ _ H), (ho_nwrite _ _ H'), E. rewrite length_app in *. unfold u32.
  rewrite <-Zminus_mod. rewrite Z.mod_small; lia.
Qed.

Lemma taken_out_length p p' taken q :
  holds p (taken ++ q) → holds p' q → nwrite p' = nwrite p → taken_out p p' = Z.of_nat (length taken).
Proof.
  intros H H' E. pose proof (rg_len _ _ _ _ (ho_ring _ _ H)) as Hl. unfold taken_out.
  rewrite (ho_nwrite _ _ H), (ho_nwrite _ _ H') in E. rewrite length_app in *. unfold u32 in *.
  pose proof (ho_nread _ _ H). pose proof (ho_nread _ _ H').
  symmetry. apply (f_equal (λ x, (x - Z.of_nat (length q) - nread p) mod 2 ^ 32)) in E.
  rewrite <-!Z.sub_add_distr, !Zminus_mod_idemp_l in E.
  replace (nread p' - nread p) with (nread p' + Z.of_nat (length q) - (Z.of_nat (length q) + nread p)) by lia. rewrite E.
  replace (_ - _) with (Z.of_nat (length taken)) by lia. rewrite Z.mod_small; lia.
Qed.

(** The bytes that a call stores are those of its buffer from its index on. *)
Lemma stored_bytes (src : Z → option Z) i moved :
  (∀ k ch, moved !! k = Some ch → src (i + Z.of_nat k) = Some ch) →
  omap src (seqZ i (Z.of_nat (length moved))) = moved.
Proof.
  revert i. induction moved as [|c moved IH]; intros i H; [done|].
  rewrite seqZ_cons by (simpl; lia). pose proof (H O c eq_refl) as H0. rewrite Z.add_0_r in H0. simpl. rewrite H0. f_equal.
  replace (Z.pred _) with (Z.of_nat (length moved)) by lia. apply IH.
  intros k ch Hk. rewrite <-(H (S k) ch Hk). f_equal. lia.
Qed.

(** The indices of the calls that wait. *)
Lemma index_upd t f (g : Z → Z) a c m :
  (∀ a src n i aw, f a = Writing src n i aw → g a = i) → (∀ src n i aw, c = Writing src n i aw → m = i) →
  ∀ a' src n i aw, upd (wake t f) a c a' = Writing src n i aw → upd g a m a' = i.
Proof.
  intros Hf Hc a' src n i aw. unfold upd. case_decide as E; [by apply Hc|]. unfold wake.
  destruct (f a') as [|src' n' i' aw'|] eqn:Ef; [done| |done]. intros [= _ _ <- _]. by eapply Hf.
Qed.
Lemma index_wake t f (g : Z → Z) :
  (∀ a src n i aw, f a = Writing src n i aw → g a = i) →
  ∀ a src n i aw, wake t f a = Writing src n i aw → g a = i.
Proof.
  intros Hf a src n i aw. unfold wake. destruct (f a) as [|src' n' i' aw'|] eqn:Ef; [done| |done].
  intros [= _ _ <- _]. by eapply Hf.
Qed.

Lemma got_snoc w p f g s ws c : got (World p f g s ws (reads w ++ [c])) = got w ++ got_by c.
Proof. unfold got. simpl. rewrite bind_app. simpl. by rewrite app_nil_r. Qed.

(** What a piece of [piperead] took has arrived, but for a last byte. *)
Lemma read_arrives dst kl n p p' q taken q' r t :
  holds p q → holds p' q' → nwrite p' = nwrite p → read_done pi dst kl n p q taken q' r.1 r.2 t →
  let c := Rcall dst n (taken_out p p') r.2 r.1 in
  Forall2 arrives taken (got_by c) ∧ read_ok c.
Proof.
  intros Hq Hq' Hnw [-> Hd]. rewrite (taken_out_length p p' taken q' Hq Hq' Hnw).
  destruct r as [[v|j] out]; simpl in *; [|by destruct Hd as (_ & -> & -> & _)].
  destruct Hd as [(-> & -> & -> & _)|(Hv & -> & _ & _ & Hd)]; [split; [constructor|by left]|].
  assert (length taken = Z.to_nat v + length (drop (Z.to_nat v) taken))%nat as Hl by (rewrite length_drop; destruct Hd; lia).
  rewrite <-(zip_with_take_r pair _ taken), length_seqZ. set (l := take (Z.to_nat v) taken).
  assert (length l = Z.to_nat v) as Hlen by (unfold l; rewrite length_take; lia).
  unfold got_by, read_ok; simpl. rewrite fst_zip, snd_zip, length_zip by (rewrite length_seqZ; lia).
  rewrite length_seqZ, Hlen, Nat.min_id, Nat2Z.id. split.
  - rewrite <-(take_drop (Z.to_nat v) taken) at 1. fold l. apply Forall2_app.
    + clear. induction l as [|b l IH]; constructor; [by left|done].
    + replace (length taken - Z.to_nat v)%nat with (length (drop (Z.to_nat v) taken)) by lia.
      clear. generalize (drop (Z.to_nat v) taken). intros l. induction l as [|b l IH]; constructor; [by right|done].
  - right. split; [done|]. split; [lia|]. destruct Hd as [[Hd _]|[Hd ?]]; [left; lia|right; split; [lia|done]].
Qed.

Lemma step_fifo K w w' q : step K w w' → fifo w q → ∃ q', fifo w' q'.
Proof.
  intros Hs [Hq (past & Hsent & Hgot) Hidx Hws Hrs].
  destruct Hs as [a w src n i m kl r p' t _ Ha Hr k|a w dst n kl r p' t _ Hr|w p' b t _ _ Hr|w p' b t _ _ Hr]; simpl in *.
  - pose proof (pipewrite_spec pi src kl n i (pp w) q Hq) as Hsp. unfold returns in Hsp. rewrite Hr in Hsp.
    destruct Hsp as (moved & Hq' & _ & Hnr & [Hsrc Hd] & _).
    assert (k = Z.of_nat (length moved)) as -> by (by eapply put_in_length).
    assert (m = i) as -> by (destruct Ha as [(_ & -> & -> & _)|[Ha ->]]; [done|by eapply Hidx]).
    exists (q ++ moved). split; simpl; try done.
    + exists past. rewrite (stored_bytes src i moved Hsrc), Hsent. by rewrite app_assoc.
    + apply index_upd; [done|]. destruct r as [v|j]; [done|]. intros ? ? ? ? [= _ _ <- _]. symmetry. apply Hd.
    + destruct r as [v|j]; [|done]. apply Forall_app. split; [done|]. apply Forall_singleton.
      destruct Hd as [(-> & Hend & _)|(-> & _)]; [right|by left]. split; [done|]. simpl. destruct Hend; [left; lia|by right].
  - pose proof (piperead_spec pi dst kl n (pp w) q Hq) as Hsp. unfold returns in Hsp. rewrite Hr in Hsp.
    destruct Hsp as (taken & q' & Hq' & _ & Hnw & Hd).
    destruct (read_arrives dst kl n (pp w) p' q taken q' r t Hq Hq' Hnw Hd) as [Har Hok]. destruct Hd as [-> _].
    exists q'. split; simpl; try done.
    + exists (past ++ taken). rewrite Hsent, got_snoc, app_assoc. split; [done|]. by apply Forall2_app.
    + intros a' src n' i aw. unfold upd. case_decide; [by destruct r.1|]. by apply index_wake.
    + apply Forall_app. split; [done|]. by apply Forall_singleton.
  - destruct (pipeclose_run 1 (pp w)) as (b' & t' & Hrun & _). rewrite Hr in Hrun. injection Hrun as _ -> _.
    exists q. split; simpl; eauto; [by apply (holds_flags (pp w))|by apply index_wake].
  - destruct (pipeclose_run 0 (pp w)) as (b' & t' & Hrun & _). rewrite Hr in Hrun. injection Hrun as _ -> _.
    exists q. split; simpl; eauto; [by apply (holds_flags (pp w))|by apply index_wake].
Qed.

(** A call sleeps only while it can do nothing. *)
Definition asleep_ok (p : pipe) (q : list Z) (c : call_state) : Prop :=
  match c with
  | Writing _ n i false => Z.of_nat (length q) = PIPESIZE ∧ readopen p ≠ 0 ∧ i < n
  | Reading _ _ false => q = [] ∧ writeopen p ≠ 0
  | _ => True
  end.

Definition sleepers_ok (w : world) (q : list Z) : Prop := ∀ a, asleep_ok (pp w) q (procs w a).

(** [killed] does not change its answer while the lock is held. *)
Definition steady (kl : Z → bool) : Prop := ∀ i j, kl i = kl j.

(** Others stay asleep only if the call did not wake them. *)
Lemma wake_ok t f p q p' q' a :
  asleep_ok p q (f a) →
  (EvWakeup (ChPipeWrite pi) ∈ t ∨ (q' = q ∧ readopen p' = readopen p) ∨
    (Z.of_nat (length q) = PIPESIZE → Z.of_nat (length q') = PIPESIZE ∧ readopen p' = readopen p)) →
  (EvWakeup (ChPipeRead pi) ∈ t ∨ ((q = [] → q' = []) ∧ writeopen p' = writeopen p)) →
  asleep_ok p' q' (wake t f a).
Proof.
  unfold wake. destruct (f a) as [|src n i aw|dst n aw]; [done|..]; intros Ha Hw Hr.
  - destruct aw; [done|]. simpl in *. case_bool_decide as Hin; [done|]. destruct Ha as (H1 & H2 & H3).
    destruct Hw as [?|[[-> ->]|Hw]]; [done|done|]. by destruct (Hw H1) as [? ->].
  - destruct aw; [done|]. simpl in *. case_bool_decide as Hin; [done|]. destruct Ha as [H1 H2].
    destruct Hr as [?|[Hr ->]]; [done|]. split; [by apply Hr|done].
Qed.

Lemma step_sleepers w w' q :
  step steady w w' → holds (pp w) q → sleepers_ok w q → ∃ q', holds (pp w') q' ∧ sleepers_ok w' q'.
Proof.
  intros Hs Hq Ha. destruct Hs as [a w src n i m kl r p' t Hst _ Hr k|a w dst n kl r p' t _ Hr|w p' b t Ho Hno Hr|w p' b t Ho Hno Hr]; simpl in *.
  - pose proof (pipewrite_spec pi src kl n i (pp w) q Hq) as Hsp. unfold returns in Hsp. rewrite Hr in Hsp.
    destruct Hsp as (moved & Hq' & [Hro Hwo] & _ & [_ Hd] & Hkl). exists (q ++ moved). split; [done|].
    intros a'. simpl. unfold upd. case_decide as Haa.
    + destruct r as [v|j]; [done|]. destruct Hd as (-> & Hlt & Hfull & Hop & _). simpl in *.
      rewrite Hro. split_and!; [done|done|lia].
    + apply (wake_ok t (procs w) (pp w) q); [apply Ha|right; right|].
      * intros Hf. split; [|done]. pose proof (rg_len _ _ _ _ (ho_ring _ _ Hq')) as Hl. rewrite length_app in *. lia.
      * destruct r as [v|j]; simpl in *; [|left; apply Hd].
        destruct Hd as [(_ & _ & ?)|(_ & _ & Hd)]; [by left|right]. split; [|done]. intros ->.
        destruct Hd as [[_ ->]|Hk]; [done|]. destruct moved as [|c moved]; [done|].
        rewrite (Hst _ i), Hkl in Hk; [done|]. simpl. lia.
  - pose proof (piperead_spec pi dst kl n (pp w) q Hq) as Hsp. unfold returns in Hsp. rewrite Hr in Hsp.
    destruct Hsp as (taken & q' & Hq' & [Hro Hwo] & _ & Heq & Hd). exists q'. split; [done|].
    intros a'. simpl. unfold upd. case_decide as Haa.
    + destruct r as [[v|j] out]; [done|]. simpl in *. destruct Hd as (_ & -> & _ & -> & Hop). simpl in Heq.
      subst q'. by rewrite Hwo.
    + apply (wake_ok t (procs w) (pp w) q); [apply Ha| |].
      * destruct r as [[v|j] out]; simpl in *.
        -- destruct Hd as [(_ & -> & _)|(_ & _ & _ & ? & _)]; [|by left]. subst q. right. by left.
        -- destruct Hd as (_ & -> & _). subst q. right. by left.
      * right. split; [|done]. intros ->. by destruct taken.
  - destruct (pipeclose_run 1 (pp w)) as (b' & t' & Hrun & Hin & _). rewrite Hr in Hrun. injection Hrun as _ -> <-.
    exists q. split; [by apply (holds_flags (pp w))|]. intros a. apply (wake_ok t (procs w) (pp w) q); [apply Ha| |by left].
    right. by left.
  - destruct (pipeclose_run 0 (pp w)) as (b' & t' & Hrun & Hin & _). rewrite Hr in Hrun. injection Hrun as _ -> <-.
    exists q. split; [by apply (holds_flags (pp w))|]. intros a. apply (wake_ok t (procs w) (pp w) q); [apply Ha|by left|].
    by right.
Qed.

Lemma created_holds page : Z.of_nat (length page) = PIPESIZE → holds (pp (created page)) [].
Proof. intros Hl. split; [apply ring_nil; [lia|done]|simpl; lia|done]. Qed.

(** C24: A pipe is a bounded first-in first-out queue.  However the readers,
    writers and closers of a pipe interleave, sleep and resume: the bytes put
    in, each taken from the buffer of its writer at the index to which the call
    had come, are those that the readers took, in order, each once, followed by
    at most [PIPESIZE] bytes in the buffer.  A reader got each byte it took but
    for one that [copyout] could not store, which is lost; it returns the
    number of bytes it stored, at the start of its buffer.  A writer that sleeps
    goes on after the bytes it has put in; one that returns without an error
    has put in as many bytes as it returns, which is all of its buffer or what
    comes before a byte that cannot be read. *)
Theorem pipe_fifo page w :
  Z.of_nat (length page) = PIPESIZE → rtc (step (λ _, True)) (created page) w →
  ∃ past q, sent w = past ++ q ∧ Forall2 arrives past (got w) ∧ holds (pp w) q ∧ Z.of_nat (length q) ≤ PIPESIZE ∧
  (∀ a src n i aw, procs w a = Writing src n i aw → sofar w a = i) ∧
  Forall write_ok (writes w) ∧ Forall read_ok (reads w).
Proof.
  intros Hl Hr. assert (∃ q, fifo w q) as (q & [Hq (past & Hs & Hg) Hi Hws Hrs]).
  { assert (∃ q, fifo (created page) q) as Hi.
    { exists []. split; simpl; try done. by exists []. }
    induction Hr as [|w w1 w2 Hs _ IH]; [done|]. destruct Hi as [q Hi]. apply IH. by eapply step_fifo. }
  exists past, q. split_and!; try done. apply (ho_ring _ _ Hq).
Qed.

(** No wakeup is lost.  As long as a process is not killed in the middle of
    a [pipewrite], a writer sleeps only while the buffer is full and the read end
    open, and a reader only while it is empty and the write end open. *)
Theorem pipe_sleepers page w :
  Z.of_nat (length page) = PIPESIZE → rtc (step steady) (created page) w →
  ∃ q, holds (pp w) q ∧ ∀ a, asleep_ok (pp w) q (procs w a).
Proof.
  intros Hl Hr.
  assert (∃ q, holds (pp (created page)) q ∧ sleepers_ok (created page) q) as Hi
    by (exists []; split; [by apply created_holds|done]).
  induction Hr as [|w w1 w2 Hs _ IH]; [done|]. destruct Hi as (q & Hq & Ha).
  apply IH. by apply (step_sleepers w w1 q).
Qed.
End world.

(** ** Runs *)

Definition page0 : list Z := replicate 512 0.
Definition bytes : Z → option Z := λ _, Some 65.
Definition anywhere : Z → bool := λ _, true.

(** Process 1 calls [piperead] on the empty pipe and sleeps. *)
Definition reader_sleeps : world :=
  World (pipeinit page0) (upd (λ _, Idle) 1 (Reading anywhere 4 false)) (λ _, 0) [] []
    [Rcall anywhere 4 0 [] (Wait 0)].

Lemma reader_sleeps_step K : ∃ f, step 0 K (created page0) (World (pipeinit page0) f (λ _, 0) [] [] (reads reader_sleeps)) ∧
  ∀ a, f a = procs reader_sleeps a.
Proof.
  eexists. split.
  - eapply (step_read 0 K 1 (created page0) anywhere 4 false (Wait 0, [])).
    + left. split; [reflexivity|]. simpl. lia.
    + reflexivity.
  - intros a. simpl. unfold upd. case_decide; reflexivity.
Qed.

(** Process 2 then writes: [killed] answers no in round 0 and yes in round 1. *)
Definition killed_late : Z → bool := λ i, i =? 1.

(** C31: A writer that is killed after it stored a byte returns without waking
    the readers: with a reader asleep on the empty pipe, the byte is in the
    buffer afterwards, the writer has returned, and the reader is still asleep. *)
Theorem pipe_killed_writer_wakes_nobody :
  ∃ w, rtc (step 0 (λ _, True)) (created page0) w ∧ holds (pp w) [65] ∧ writeopen (pp w) = 1 ∧
    procs w 1 = Reading anywhere 4 false ∧ ∀ a, a ≠ 1 → procs w a = Idle.
Proof.
  destruct (reader_sleeps_step (λ _, True)) as (f & Hstep & Hf).
  eexists. split_and!.
  - eapply rtc_l; [exact Hstep|]. eapply rtc_l; [|apply rtc_refl].
    eapply (step_write 0 (λ _, True) 2 _ bytes 2 0 0 killed_late (Ret (-1))); [done| |reflexivity].
    left. split_and!; [rewrite Hf; reflexivity|reflexivity|reflexivity|simpl; lia].
  - apply (holds_put (pipeinit page0) [] 65); [by apply created_holds|simpl; lia].
  - reflexivity.
  - simpl. unfold upd, wake. simpl. rewrite Hf. reflexivity.
  - intros a Ha. simpl. unfold upd. case_decide; [reflexivity|]. unfold wake. rewrite Hf. simpl.
    by rewrite upd_ne.
Qed.

(** Process 2 writes the bytes 65, 66 and 67; process 1 reads 4 bytes to a
    buffer whose second byte cannot be written. *)
Definition letters : Z → option Z := λ i, Some (65 + i).
Definition first_only : Z → bool := λ i, i =? 0.

Lemma letters_run : ∃ w, rtc (step 0 (λ _, True)) (created page0) w ∧ sent w = [65; 66; 67] ∧ got w = [Some 65; None].
Proof.
  eexists. split.
  - eapply rtc_l; [|eapply rtc_l; [|apply rtc_refl]].
    + eapply (step_write 0 (λ _, True) 2 (created page0) letters 3 0 0 (λ _, false) (Ret 3)); [exact I| |reflexivity].
      left. split_and!; [reflexivity|reflexivity|reflexivity|simpl; lia].
    + eapply (step_read 0 (λ _, True) 1 _ first_only 4 false (Ret 1, [(0, 65)])); [|vm_compute; reflexivity].
      left. split; [reflexivity|simpl; lia].
  - split; vm_compute; reflexivity.
Qed.

Lemma pipe_fifo_witness :
  ∃ w, sent w = [65; 66; 67] ∧ got w = [Some 65; None] ∧
  ∃ past q, sent w = past ++ q ∧ Forall2 arrives past (got w) ∧ holds (pp w) q ∧ Z.of_nat (length q) ≤ PIPESIZE ∧
  (∀ a src n i aw, procs w a = Writing src n i aw → sofar w a = i) ∧
  Forall write_ok (writes w) ∧ Forall read_ok (reads w).
Proof.
  destruct letters_run as (w & Hr & Hs & Hg). exists w. split; [exact Hs|]. split; [exact Hg|].
  apply (pipe_fifo 0 page0); [reflexivity|exact Hr].
Defined.

Lemma pipe_sleepers_witness :
  ∃ w, procs w 1 = Reading anywhere 4 false ∧ ∃ q, holds (pp w) q ∧ ∀ a, asleep_ok (pp w) q (procs w a).
Proof.
  destruct (reader_sleeps_step steady) as (f & Hstep & Hf).
  eexists. split; [|apply (pipe_sleepers 0 page0); [reflexivity|eapply rtc_l; [exact Hstep|apply rtc_refl]]].
  simpl. rewrite Hf. reflexivity.
Defined.
