(* ===== verification/Uart.v ===== *)
(** * The UART driver, [kernel/uart.c]

    The 16550 itself is a parameter: a state with what reading and writing its
    registers do to it.  Writes also appear in the trace.  The transmit buffer
    is a queue; processes that call [uartputc] while it is full sleep. *)

From S2P Require Import Prelude Riscv Ring.

(** ** Registers *)

Definition RHR : Z := 0.
Definition THR : Z := 0.
Definition IER : Z := 1.
Definition IER_RX_ENABLE : Z := Z.shiftl 1 0.
Definition IER_TX_ENABLE : Z := Z.shiftl 1 1.
Definition FCR : Z := 2.
Definition FCR_FIFO_ENABLE : Z := Z.shiftl 1 0.
Definition FCR_FIFO_CLEAR : Z := Z.shiftl 3 1.
Definition LCR : Z := 3.
Definition LCR_EIGHT_BITS : Z := Z.shiftl 3 0.
Definition LCR_BAUD_LATCH : Z := Z.shiftl 1 7.
Definition LSR : Z := 5.
Definition LSR_TX_IDLE : Z := Z.shiftl 1 5.

Definition UART_TX_BUF_SIZE : Z := 32.

Ltac Zify.zify_pre_hook ::= unfold_consts; unfold UART_TX_BUF_SIZE in *.

Section code.
  Context {D : Type} (read_reg : Z → D → Z * D) (write_reg : Z → Z → D → D).

(** [uart_tx_buf], [uart_tx_w], [uart_tx_r], [panicked], and the device. *)
Record uart : Type := Uart {
  uart_tx_buf : list Z;
  uart_tx_w : Z;
  uart_tx_r : Z;
  panicked : Z;
  dev : D
}.

Definition set_dev d u := Uart (uart_tx_buf u) (uart_tx_w u) (uart_tx_r u) (panicked u) d.
Definition set_buf b w u := Uart b w (uart_tx_r u) (panicked u) (dev u).
Definition set_r r u := Uart (uart_tx_buf u) (uart_tx_w u) r (panicked u) (dev u).

Definition ReadReg (reg : Z) : M uart Z :=
  u ← get;
  put (set_dev (read_reg reg (dev u)).2 u);;
  mret (u8 (read_reg reg (dev u)).1).
Definition WriteReg (reg v : Z) : M uart unit :=
  modify (λ u, set_dev (write_reg reg (u8 v) (dev u)) u);;
  emit (EvMmio (UART0 + reg) (u8 v)).

Definition uartinit : M uart unit :=
  WriteReg IER 0x00;;
  WriteReg LCR LCR_BAUD_LATCH;;
  WriteReg 0 0x03;;
  WriteReg 1 0x00;;
  WriteReg LCR LCR_EIGHT_BITS;;
  WriteReg FCR (Z.lor FCR_FIFO_ENABLE FCR_FIFO_CLEAR);;
  WriteReg IER (Z.lor IER_TX_ENABLE IER_RX_ENABLE);;
  initlock LkUartTx.

(** Each round sends a byte of the buffer, so [fuel] beyond the size of the
    buffer is enough. *)
Fixpoint uartstart_loop (fuel : nat) : M uart unit :=
  match fuel with
  | O => nofuel
  | S fuel =>
      u ← get;
      if uart_tx_w u =? uart_tx_r u then mret tt
      else
        lsr ← ReadReg LSR;
        if Z.land lsr LSR_TX_IDLE =? 0 then mret tt
        else
          let c := uart_tx_buf u !!! Z.to_nat (uart_tx_r u mod UART_TX_BUF_SIZE) in
          modify (set_r (u64 (uart_tx_r u + 1)));;
          wakeup ChUartTxR;;
          WriteReg THR c;;
          uartstart_loop fuel
  end.
Definition uartstart : M uart unit := uartstart_loop (S (Z.to_nat UART_TX_BUF_SIZE)).

(** [uartputc] from its [while] on. *)
Definition uartputc_loop (c : Z) : M uart unit :=
  u ← get;
  if uart_tx_w u =? u64 (uart_tx_r u + UART_TX_BUF_SIZE) then blocked ChUartTxR LkUartTx
  else
    put (set_buf (<[Z.to_nat (uart_tx_w u mod UART_TX_BUF_SIZE) := u8 c]> (uart_tx_buf u))
          (u64 (uart_tx_w u + 1)) u);;
    uartstart;;
    release LkUartTx.

(** After a panic it spins. *)
Definition uartputc (c : Z) : M uart unit :=
  acquire LkUartTx;;
  u ← get;
  if truthy (panicked u) then nofuel else uartputc_loop c.

(** A process that found the buffer full sleeps; woken, it acquires the lock
    again and is back at the [while]. *)
Definition uartputc_from (woken : bool) (c : Z) : M uart unit :=
  if woken then acquire LkUartTx;; uartputc_loop c else uartputc c.

(** It spins until the device is idle, for at most [fuel] rounds.  The call
    runs between [push_off] and [pop_off], which do not touch this state. *)
Fixpoint wait_idle (fuel : nat) : M uart unit :=
  match fuel with
  | O => nofuel
  | S fuel =>
      lsr ← ReadReg LSR;
      if Z.land lsr LSR_TX_IDLE =? 0 then wait_idle fuel else mret tt
  end.
Definition uartputc_sync (fuel : nat) (c : Z) : M uart unit :=
  u ← get;
  if truthy (panicked u) then nofuel
  else wait_idle fuel;; WriteReg THR c.

Definition uartgetc : M uart Z :=
  lsr ← ReadReg LSR;
  if truthy (Z.land lsr 0x01) then ReadReg RHR else mret (-1).

(** [consoleintr] is the console's; the device has at most [fuel] - 1 bytes. *)
Fixpoint receive (consoleintr : Z → M uart unit) (fuel : nat) : M uart unit :=
  match fuel with
  | O => nofuel
  | S fuel =>
      c ← uartgetc;
      if c =? -1 then mret tt else consoleintr c;; receive consoleintr fuel
  end.
Definition uartintr (consoleintr : Z → M uart unit) (fuel : nat) : M uart unit :=
  receive consoleintr fuel;;
  acquire LkUartTx;;
  uartstart;;
  release LkUartTx.

(** ** The queue *)

Record holds (u : uart) (q : list Z) : Prop := {
  ho_ring : ring UART_TX_BUF_SIZE (uart_tx_buf u) (uart_tx_r u) q;
  ho_r : 0 ≤ uart_tx_r u < 2 ^ 64;
  ho_w : uart_tx_w u = u64 (uart_tx_r u + Z.of_nat (length q));
  ho_bytes : Forall (λ c, 0 ≤ c < 256) q
}.

Lemma uart_wrap x : u64 x mod UART_TX_BUF_SIZE = x mod UART_TX_BUF_SIZE.
Proof. apply wrap_mod; [lia|]. by exists (2 ^ 59). Qed.

Lemma uart_empty u q : holds u q → (uart_tx_w u =? uart_tx_r u) = bool_decide (q = []).
Proof.
  intros [H1 H2 H3 _]. pose proof (rg_len _ _ _ _ H1). rewrite H3. unfold u64.
  rewrite (counter_empty UART_TX_BUF_SIZE) by lia.
  destruct q; [done|]. rewrite bool_decide_false by done. apply Z.eqb_neq. simpl. lia.
Qed.

Lemma uart_full u q :
  holds u q → (uart_tx_w u =? u64 (uart_tx_r u + UART_TX_BUF_SIZE)) = bool_decide (Z.of_nat (length q) = UART_TX_BUF_SIZE).
Proof.
  intros [H1 H2 H3 _]. pose proof (rg_len _ _ _ _ H1). rewrite H3. unfold u64.
  rewrite counter_full by lia. case_bool_decide; [by apply Z.eqb_eq|by apply Z.eqb_neq].
Qed.

(** The bytes that a trace sends. *)
Definition sent (t : trace) : list Z :=
  omap (λ e, match e with EvMmio a v => if decide (a = UART0 + THR) then Some v else None | _ => None end) t.

Lemma sent_app t1 t2 : sent (t1 ++ t2) = sent t1 ++ sent t2.
Proof. apply omap_app. Qed.

(** [uartstart] sends a prefix of the buffer, in order, until it is empty or
    the device is busy, and wakes the writers when it made room. *)
Lemma uartstart_loop_spec fuel u q :
  holds u q → (length q < fuel)%nat →
  returns (uartstart_loop fuel) u (λ _ u' t, ∃ q',
    holds u' q' ∧ q = sent t ++ q' ∧ panicked u' = panicked u ∧
    (sent t ≠ [] → EvWakeup ChUartTxR ∈ t)).
Proof.
  revert u q. induction fuel as [|fuel IH]; intros u q Hq Hf; [lia|]. cbn [uartstart_loop].
  call reflexivity. rewrite (uart_empty u q Hq). case_bool_decide as He.
  { apply returns_ret. exists q. by subst q. }
  call reflexivity. case_if.
  { apply returns_ret. exists q. split_and!; [|done..]. by destruct Hq. }
  destruct q as [|c q]; [done|]. pose proof (ho_ring u _ Hq) as Hr. rewrite (ring_head UART_TX_BUF_SIZE _ _ c q Hr).
  do 3 call reflexivity. simpl in Hf.
  eapply returns_mono; [apply (IH _ q); [|lia]|].
  - destruct Hq as [_ H2 H3 H4]. apply Forall_cons_1 in H4 as [_ H4]. simpl in H3. split; simpl; [| | |done].
    + eapply (ring_tail UART_TX_BUF_SIZE); [lia|exact Hr|]. apply uart_wrap.
    + apply u64_range.
    + rewrite H3. unfold u64. rewrite Zplus_mod_idemp_l. f_equal. lia.
  - simpl. intros _ u' t (q' & H1 & H2 & H3 & H4). exists q'. destruct Hq as [_ _ _ Hb].
    apply Forall_cons_1 in Hb as [Hb _]. rewrite u8_small by done.
    cbn. rewrite H2. split_and!; [done|done|done|]. intros _. set_solver.
Qed.

Lemma uartstart_spec u q :
  holds u q →
  returns uartstart u (λ _ u' t, ∃ q',
    holds u' q' ∧ q = sent t ++ q' ∧ panicked u' = panicked u ∧ (sent t ≠ [] → EvWakeup ChUartTxR ∈ t)).
Proof. intros Hq. apply uartstart_loop_spec; [done|]. pose proof (rg_len _ _ _ _ (ho_ring _ _ Hq)). lia. Qed.

(** Before a panic, the two starts do the same. *)
Lemma uartputc_same woken c u : panicked u = 0 → uartputc_from woken c u = uartputc_from true c u.
Proof. intros Hp. destruct woken; [done|]. unfold uartputc_from, uartputc, mbind, M_bind. simpl. rewrite Hp. simpl. by destruct (uartputc_loop c u). Qed.

(** [uartputc] on a buffer with room. *)
Lemma uartputc_spec woken u q c :
  holds u q → panicked u = 0 → Z.of_nat (length q) ≠ UART_TX_BUF_SIZE →
  returns (uartputc_from woken c) u (λ _ u' t, ∃ q',
    holds u' q' ∧ q ++ [u8 c] = sent t ++ q' ∧ panicked u' = 0 ∧ (sent t ≠ [] → EvWakeup ChUartTxR ∈ t)).
Proof.
  intros Hq Hp Hn. unfold returns. rewrite uartputc_same by done. fold (returns (uartputc_from true c) u).
  unfold uartputc_from, uartputc_loop. do 2 call reflexivity.
  rewrite (uart_full u q Hq), bool_decide_false by done. call reflexivity.
  pose proof (rg_len _ _ _ _ (ho_ring _ _ Hq)). destruct Hq as [H1 H2 H3 H4].
  call_spec (uartstart_spec _ (q ++ [u8 c])).
  { split; simpl; [|done| |].
    - rewrite H3, uart_wrap. apply ring_put; [lia|done|lia].
    - rewrite H3, length_app. unfold u64. rewrite Zplus_mod_idemp_l. f_equal. simpl. lia.
    - apply Forall_app. split; [done|]. constructor; [apply u8_range|done]. }
  intros _ u' t (q' & Hq' & Heq & Hp' & Hw). eapply returns_done; [reflexivity|].
  exists q'. assert (sent ([EvAcquire LkUartTx] ++ [] ++ [] ++ t ++ [EvRelease LkUartTx]) = sent t) as ->.
  { rewrite !sent_app. cbn. apply app_nil_r. }
  split_and!; [done|done|by rewrite Hp'|]. intros Ht. apply Hw in Ht. set_solver.
Qed.

Lemma uartputc_full woken u q c :
  holds u q → panicked u = 0 → Z.of_nat (length q) = UART_TX_BUF_SIZE →
  uartputc_from woken c u = Sleeping ChUartTxR LkUartTx u [EvAcquire LkUartTx; EvSleep ChUartTxR LkUartTx].
Proof.
  intros Hq Hp Hn. rewrite uartputc_same by done. unfold uartputc_from, uartputc_loop, mbind, M_bind. simpl.
  by rewrite (uart_full u q Hq), bool_decide_true by done.
Qed.

(** ** Writers and interrupts *)

(** [waiting] has the byte of a process that is in [uartputc], and whether it
    was woken; [put] are the bytes accepted, [out] those sent. *)
Record world : Type := World {
  ud : uart;
  waiting : Z → option (Z * bool);
  accepted : list Z;
  out : list Z
}.

Definition wake (t : trace) (f : Z → option (Z * bool)) : Z → option (Z * bool) := λ a,
  match f a with
  | Some (c, aw) => Some (c, aw || bool_decide (EvWakeup ChUartTxR ∈ t))
  | None => None
  end.

Inductive step : world → world → Prop :=
  | step_put a c (woken : bool) w u' t :
      waiting w a = (if woken then Some (c, true) else None) → uartputc_from woken c (ud w) = Done tt u' t →
      step w (World u' (upd (wake t (waiting w)) a None) (accepted w ++ [u8 c]) (out w ++ sent t))
  | step_block a c (woken : bool) w ch l u' t :
      waiting w a = (if woken then Some (c, true) else None) → uartputc_from woken c (ud w) = Sleeping ch l u' t →
      step w (World u' (upd (wake t (waiting w)) a (Some (c, false))) (accepted w) (out w ++ sent t))
  | step_intr w u' t :
      uartstart (ud w) = Done tt u' t →
      step w (World u' (wake t (waiting w)) (accepted w) (out w ++ sent t)).

Definition booted (buf : list Z) (d : D) : world := World (Uart buf 0 0 0 d) (λ _, None) [] [].

Definition winv (w : world) : Prop :=
  ∃ q, holds (ud w) q ∧ panicked (ud w) = 0 ∧ accepted w = out w ++ q ∧
    ∀ a c, waiting w a = Some (c, false) → Z.of_nat (length q) = UART_TX_BUF_SIZE.

(** Who is still asleep was not woken, so nothing was sent. *)
Lemma wake_asleep t f a c :
  wake t f a = Some (c, false) → f a = Some (c, false) ∧ EvWakeup ChUartTxR ∉ t.
Proof.
  unfold wake. destruct (f a) as [[c' aw]|]; [|done]. intros [= -> Haw].
  apply orb_false_iff in Haw as [-> Hin]. apply bool_decide_eq_false in Hin. done.
Qed.

Lemma uart_step_winv w w' : step w w' → winv w → winv w'.
Proof.
  intros Hs (q & Hq & Hp & Heq & Ha). destruct Hs as [a c woken w u' t _ Hr|a c woken w ch l u' t _ Hr|w u' t Hr]; simpl in *.
  - destruct (decide (Z.of_nat (length q) = UART_TX_BUF_SIZE)) as [Hf|Hf];
      [by rewrite (uartputc_full _ _ q) in Hr|].
    pose proof (uartputc_spec woken _ q c Hq Hp Hf) as Hsp. unfold returns in Hsp. rewrite Hr in Hsp.
    destruct Hsp as (q' & Hq' & Hs & Hp' & Hw). exists q'. simpl.
    split_and!; [done|done|by rewrite Heq, <-!app_assoc, Hs|].
    intros a' c'. unfold upd. case_decide; [done|]. intros [H1 H2]%wake_asleep. by apply Ha in H1.
  - destruct (decide (Z.of_nat (length q) = UART_TX_BUF_SIZE)) as [Hf|Hf].
    + rewrite (uartputc_full _ _ q) in Hr by done. injection Hr as <- <- <- <-. exists q. simpl.
      rewrite app_nil_r. split_and!; [done..|]. done.
    + pose proof (uartputc_spec woken _ q c Hq Hp Hf) as Hsp. unfold returns in Hsp. by rewrite Hr in Hsp.
  - pose proof (uartstart_spec _ q Hq) as Hsp. unfold returns in Hsp. rewrite Hr in Hsp.
    destruct Hsp as (q' & Hq' & Hs & Hp' & Hw). exists q'. simpl.
    split_and!; [done|congruence|by rewrite Heq, Hs, app_assoc|].
    intros a' c' [H1 H2]%wake_asleep. assert (sent t = []) as Ht.
    { destruct (sent t) eqn:E; [done|]. destruct H2. by apply Hw. }
    rewrite Ht in Hs. simpl in Hs. subst q'. by eapply Ha.
Qed.

(** C25: The transmit buffer is a first-in first-out queue of [uartputc]'s bytes.
    Whatever the device answers and however writers and interrupts interleave,
    the bytes written to [THR] are the bytes accepted, in order, but for at most
    [UART_TX_BUF_SIZE] that are still in the buffer; and a process sleeps in
    [uartputc] only while the buffer is full. *)
Theorem uart_fifo buf d w :
  Z.of_nat (length buf) = UART_TX_BUF_SIZE → rtc step (booted buf d) w →
  ∃ q, accepted w = out w ++ q ∧ Z.of_nat (length q) ≤ UART_TX_BUF_SIZE ∧
    ∀ a c, waiting w a = Some (c, false) → Z.of_nat (length q) = UART_TX_BUF_SIZE.
Proof.
  intros Hb Hr. assert (winv w) as (q & Hq & _ & Heq & Ha).
  { assert (winv (booted buf d)) as Hi.
    { exists []. split_and!; [|done..]. split; simpl; [apply ring_nil; [lia|done]|lia|done|done]. }
    induction Hr as [|w w1 w2 Hs _ IH]; [done|]. by apply IH, (uart_step_winv w). }
  exists q. split_and!; [done|apply (ho_ring _ _ Hq)|done].
Qed.
End code.

(** A device that is always idle: one byte is accepted and sent. *)
Lemma uart_fifo_witness :
  ∃ w : world (D := unit), accepted w = [65] ∧ out w = [65] ∧ ∃ q, accepted w = out w ++ q ∧ Z.of_nat (length q) ≤ UART_TX_BUF_SIZE ∧
    ∀ a c, waiting w a = Some (c, false) → Z.of_nat (length q) = UART_TX_BUF_SIZE.
Proof.
  eexists. split; [|split; [|apply (uart_fifo (D := unit) (λ _ d, (LSR_TX_IDLE, d)) (λ _ _ d, d) (replicate 32 0) tt);
    [reflexivity|eapply rtc_l; [|apply rtc_refl];
     eapply (step_put (D := unit) (λ _ d, (LSR_TX_IDLE, d)) (λ _ _ d, d) 1 65 false (booted (replicate 32 0) tt));
     [reflexivity|reflexivity]]]]; reflexivity.
Defined.
