(* ===== verification/Console.v ===== *)
(** * The console, [kernel/console.c]

    The input buffer is a circular buffer with three counters.  Its abstract
    state is a pair of lists: the bytes that [consoleread] may take, and the
    line that is being edited.  Calls of [uartputc_sync] are [EvPutc] events. *)

From S2P Require Import Prelude Riscv Ring.

Definition BACKSPACE : Z := 0x100.
Definition Ctl (x : Z) : Z := x - 64.  (** [C(x)], [x] minus at-sign *)
Definition NL : Z := 10.
Definition CR : Z := 13.
Definition DEL : Z := 0x7f.
Definition EOFC : Z := Ctl 68.  (** control-D *)

Definition INPUT_BUF_SIZE : Z := 128.

Ltac Zify.zify_pre_hook ::=
  unfold_consts; unfold INPUT_BUF_SIZE, EOFC, Ctl, NL, CR, DEL, BACKSPACE in *.

Definition consputc {S} (c : Z) : M S unit :=
  if c =? BACKSPACE then emit (EvPutc 8);; emit (EvPutc 32);; emit (EvPutc 8)
  else emit (EvPutc (u8 c)).

(** [cons] without its lock. *)
Record cons : Type := Cons { buf : list Z; r : Z; w : Z; e : Z }.

Definition set_r v c := Cons (buf c) v (w c) (e c).
Definition set_w v c := Cons (buf c) (r c) v (e c).
Definition set_e v c := Cons (buf c) (r c) (w c) v.
Definition set_buf b c := Cons b (r c) (w c) (e c).

(** [src i] is what [either_copyin] of byte [i] gives; [uartputc] is the
    UART's. *)
Fixpoint consolewrite_loop {S} (uartputc : Z → M S unit) (src : Z → option Z) (k : nat) (i : Z) : M S Z :=
  match k with
  | O => mret i
  | S k =>
      match src i with
      | None => mret i
      | Some c => uartputc c;; consolewrite_loop uartputc src k (i + 1)
      end
  end.
Definition consolewrite {S} (uartputc : Z → M S unit) (src : Z → option Z) (n : Z) : M S Z :=
  consolewrite_loop uartputc src (Z.to_nat n) 0.

(** A read returns, or sleeps with [n] bytes to go. *)
Inductive progress : Type := Ret (v : Z) | Wait (n : Z).

(** [dst i] says whether [either_copyout] to [dst + i] succeeds; [n] bytes are
    left of [target]; the bytes delivered are returned too. *)
Fixpoint consoleread_loop (dst : Z → bool) (kl : bool) (target : Z) (n : nat) : M cons (progress * list Z) :=
  let finish (left : nat) (got : list Z) :=
    release LkCons;;
    mret (Ret (s32 (u32 (target - Z.of_nat left))), got) in
  match n with
  | O => finish 0%nat []
  | S n' =>
      s ← get;
      if r s =? w s then
        if kl then
          release LkCons;;
          mret (Ret (-1), [])
        else
          emit (EvSleep ChConsR LkCons);;
          mret (Wait (Z.of_nat n), [])
      else
        let c := buf s !!! Z.to_nat (r s mod INPUT_BUF_SIZE) in
        put (set_r (u32 (r s + 1)) s);;
        if c =? EOFC then
          (if Z.of_nat n <? target then s ← get; put (set_r (u32 (r s - 1)) s) else mret tt);;
          finish n []
        else if negb (dst (target - Z.of_nat n)) then finish n []
        else if c =? NL then finish n' [c]
        else
          res ← consoleread_loop dst kl target n';
          mret (res.1, c :: res.2)
  end.

(** From the start with [n = target], or resumed with the bytes left. *)
Definition consoleread (dst : Z → bool) (kl : bool) (target n : Z) : M cons (progress * list Z) :=
  acquire LkCons;;
  if n <=? 0 then
    release LkCons;;
    mret (Ret (s32 (u32 (u32 target - n))), [])
  else consoleread_loop dst kl target (Z.to_nat n).

(** The loop of control-U; each round takes back one byte of the buffer. *)
Fixpoint kill_line (fuel : nat) : M cons unit :=
  match fuel with
  | O => nofuel
  | S fuel =>
      s ← get;
      if negb (e s =? w s) &&
         negb (buf s !!! Z.to_nat (u32 (e s - 1) mod INPUT_BUF_SIZE) =? NL)
      then
        put (set_e (u32 (e s - 1)) s);;
        consputc BACKSPACE;;
        kill_line fuel
      else mret tt
  end.

Definition consoleintr (c : Z) : M cons unit :=
  acquire LkCons;;
  (if c =? Ctl 80 then emit (EvMessage "procdump")
   else if c =? Ctl 85 then kill_line (S (Z.to_nat INPUT_BUF_SIZE))
   else if (c =? Ctl 72) || (c =? DEL) then
     s ← get;
     if negb (e s =? w s) then put (set_e (u32 (e s - 1)) s);; consputc BACKSPACE else mret tt
   else
     s ← get;
     if negb (c =? 0) && (u32 (e s - r s) <? INPUT_BUF_SIZE) then
       let c := if c =? CR then NL else c in
       consputc c;;
       put (set_e (u32 (e s + 1)) (set_buf (<[Z.to_nat (e s mod INPUT_BUF_SIZE) := u8 c]> (buf s)) s));;
       s ← get;
       if (c =? NL) || (c =? EOFC) || (u32 (e s - r s) =? INPUT_BUF_SIZE) then
         put (set_w (e s) s);;
         wakeup ChConsR
       else mret tt
     else mret tt);;
  release LkCons.

(** ** The line discipline *)

(** What may be read, and the line being edited. *)
Record lines : Type := Lines { ready : list Z; edit : list Z }.

(** What a key does. *)
Definition key (c : Z) (l : lines) : lines :=
  if c =? Ctl 80 then l
  else if c =? Ctl 85 then Lines (ready l) []
  else if (c =? Ctl 72) || (c =? DEL) then Lines (ready l) (take (length (edit l) - 1) (edit l))
  else if negb (c =? 0) && (Z.of_nat (length (ready l) + length (edit l)) <? INPUT_BUF_SIZE) then
    let c := if c =? CR then NL else c in
    let ed := edit l ++ [c] in
    if (c =? NL) || (c =? EOFC) || (Z.of_nat (length (ready l) + length ed) =? INPUT_BUF_SIZE)
    then Lines (ready l ++ ed) [] else Lines (ready l) ed
  else l.

(** [n] bytes are wanted; [first] says that none was delivered yet.  [None] in
    place of the result: the read waits for more. *)
Fixpoint take_line (first : bool) (n : nat) (rd : list Z) : list Z * bool * list Z :=
  match n, rd with
  | O, _ => ([], true, rd)
  | S _, [] => ([], false, [])
  | S n, c :: rd' =>
      if c =? EOFC then ([], true, if first then rd' else rd)
      else if c =? NL then ([c], true, rd')
      else let '(got, fin, rest) := take_line false n rd' in (c :: got, fin, rest)
  end.

(** The buffer [s] holds [l]. *)
Record holds (s : cons) (l : lines) : Prop := {
  ho_ring : ring INPUT_BUF_SIZE (buf s) (r s) (ready l ++ edit l);
  ho_r : 0 ≤ r s < 2 ^ 32;
  ho_w : w s = u32 (r s + Z.of_nat (length (ready l)));
  ho_e : e s = u32 (r s + Z.of_nat (length (ready l ++ edit l)));
  ho_edit : NL ∉ edit l
}.

Lemma cons_wrap x : u32 x mod INPUT_BUF_SIZE = x mod INPUT_BUF_SIZE.
Proof. apply wrap_mod; [lia|]. by exists (2 ^ 25). Qed.

Lemma u32_add a b : u32 (u32 a + b) = u32 (a + b).
Proof. apply Zplus_mod_idemp_l. Qed.
Lemma u32_sub a b : u32 (u32 a - b) = u32 (a - b).
Proof. apply Zminus_mod_idemp_l. Qed.

(** The counters tell whether a line is edited, whether there is something to
    read, and how much is in the buffer. *)
Lemma holds_len s l : holds s l → Z.of_nat (length (ready l)) + Z.of_nat (length (edit l)) ≤ INPUT_BUF_SIZE.
Proof. intros Hh. pose proof (rg_len _ _ _ _ (ho_ring _ _ Hh)) as Hl. rewrite length_app in Hl. lia. Qed.

Lemma holds_edit s l : holds s l → (e s =? w s) = bool_decide (edit l = []).
Proof.
  intros Hh. pose proof (holds_len s l Hh). destruct Hh as [_ _ Hw He _].
  assert (e s = (w s + Z.of_nat (length (edit l))) mod 2 ^ 32) as ->.
  { rewrite He, Hw, length_app. unfold u32. rewrite Zplus_mod_idemp_l. f_equal. lia. }
  rewrite (counter_empty INPUT_BUF_SIZE); [|lia|rewrite Hw; apply u32_range|lia|lia].
  destruct (edit l); [done|]. rewrite bool_decide_false by done. apply Z.eqb_neq. simpl. lia.
Qed.

Lemma holds_ready s l : holds s l → (r s =? w s) = bool_decide (ready l = []).
Proof.
  intros Hh. pose proof (holds_len s l Hh). destruct Hh as [_ Hr Hw _ _].
  rewrite Z.eqb_sym, Hw. unfold u32. rewrite (counter_empty INPUT_BUF_SIZE) by lia.
  destruct (ready l); [done|]. rewrite bool_decide_false by done. apply Z.eqb_neq. simpl. lia.
Qed.

Lemma holds_count s l : holds s l → u32 (e s - r s) = Z.of_nat (length (ready l) + length (edit l)).
Proof.
  intros Hh. pose proof (holds_len s l Hh). destruct Hh as [_ _ _ He _]. rewrite He, length_app. unfold u32.
  apply (counter_diff INPUT_BUF_SIZE); lia.
Qed.

(** [cons.e--] takes back the last byte of the line. *)
Lemma holds_erase s rd ed x :
  holds s (Lines rd (ed ++ [x])) →
  buf s !!! Z.to_nat (u32 (e s - 1) mod INPUT_BUF_SIZE) = x ∧
  holds (set_e (u32 (e s - 1)) s) (Lines rd ed).
Proof.
  intros [H1 H2 H3 H4 H5]. simpl in *. rewrite app_assoc in H1, H4.
  assert (u32 (e s - 1) = u32 (r s + Z.of_nat (length (rd ++ ed)))) as E.
  { rewrite H4, u32_sub, length_app. f_equal. simpl. lia. }
  rewrite E. split.
  - rewrite cons_wrap. by apply (ring_last INPUT_BUF_SIZE).
  - split; simpl; [by eapply ring_drop_last|done|done|done|]. set_solver.
Qed.

Lemma kill_line_spec fuel s rd ed :
  holds s (Lines rd ed) → (length ed < fuel)%nat →
  returns (kill_line fuel) s (λ _ s' t, holds s' (Lines rd [])).
Proof.
  revert s ed. induction fuel as [|fuel IH]; intros s ed Hh Hf; [lia|]. cbn [kill_line].
  call reflexivity. rewrite (holds_edit _ _ Hh). simpl edit.
  destruct ed as [|x ed _] using rev_ind; [by apply returns_ret|].
  rewrite bool_decide_false by (by destruct ed). destruct (holds_erase s rd ed x Hh) as [-> Hh'].
  assert (x ≠ NL) as Hx. { pose proof (ho_edit _ _ Hh). set_solver. }
  rewrite (proj2 (Z.eqb_neq x NL)) by done. cbn [negb andb]. call reflexivity. call reflexivity.
  eapply returns_mono; [apply (IH _ ed Hh')|done]. rewrite length_app in Hf. simpl in Hf. lia.
Qed.

(** Storing a byte at the end of the line. *)
Lemma holds_store s rd ed c :
  holds s (Lines rd ed) → 0 ≤ c < 256 → Z.of_nat (length rd + length ed) < INPUT_BUF_SIZE →
  let s' := set_e (u32 (e s + 1)) (set_buf (<[Z.to_nat (e s mod INPUT_BUF_SIZE) := u8 c]> (buf s)) s) in
  ring INPUT_BUF_SIZE (buf s') (r s') (rd ++ ed ++ [c]) ∧ r s' = r s ∧ w s' = w s ∧
  e s' = u32 (r s + Z.of_nat (length (rd ++ ed ++ [c]))).
Proof.
  intros [H1 H2 H3 H4 H5] Hc Hn. simpl in *. split_and!; [|done|done|].
  - rewrite H4, cons_wrap, app_assoc, u8_small by done. apply ring_put; [lia|done|].
    rewrite length_app. lia.
  - rewrite H4, u32_add. f_equal. rewrite !length_app. simpl. lia.
Qed.

(** The keys that edit or ignore. *)
Definition is_edit (c : Z) : bool := (c =? Ctl 80) || (c =? Ctl 85) || (c =? Ctl 72) || (c =? DEL).

Lemma consoleintr_spec s l c :
  holds s l → 0 ≤ c < 256 →
  returns (consoleintr c) s (λ _ s' t, holds s' (key c l) ∧
    (ready (key c l) ≠ ready l → EvWakeup ChConsR ∈ t)).
Proof.
  intros Hh Hc. unfold consoleintr. call reflexivity. apply returns_bind. unfold key.
  destruct l as [rd ed]. cbn [ready edit].
  destruct (c =? Ctl 80); [by do 2 step_over|].
  destruct (c =? Ctl 85).
  { eapply returns_mono; [apply (kill_line_spec _ s rd ed Hh)|].
    - pose proof (holds_len s _ Hh). simpl in *. lia.
    - intros [] s' t Hh'. by step_over. }
  destruct ((c =? Ctl 72) || (c =? DEL)).
  { call reflexivity. rewrite (holds_edit _ _ Hh). simpl edit.
    destruct ed as [|x ed _] using rev_ind; [by do 2 step_over|].
    rewrite bool_decide_false by (by destruct ed). cbn [negb]. call reflexivity.
    do 2 step_over. split; [|done].
    destruct (holds_erase s rd ed x Hh) as [_ Hh']. rewrite length_app, Nat.add_sub, take_app_length. done. }
  call reflexivity. rewrite (holds_count s _ Hh). cbn [ready edit].
  destruct (negb (c =? 0) && (Z.of_nat (length rd + length ed) <? INPUT_BUF_SIZE)) eqn:Ec;
    [|by do 2 step_over].
  apply andb_true_iff in Ec as [_ Hn%Z.ltb_lt]. set (c' := if c =? CR then NL else c).
  assert (0 ≤ c' < 256) as Hc' by (unfold c'; case_if; lia).
  assert (c' =? BACKSPACE = false) as Hb by lia. cbv zeta. unfold consputc. rewrite Hb.
  call reflexivity. call reflexivity. call reflexivity.
  destruct (holds_store s rd ed c' Hh Hc' Hn) as (Hr & Er & Ew & Ee). destruct Hh as [H1 H2 H3 H4 H5].
  set (s' := set_e _ _) in *.
  assert (u32 (e s' - r s') = Z.of_nat (length rd + length (ed ++ [c']))) as Hcnt.
  { rewrite Ee, Er, length_app. unfold u32. rewrite (counter_diff INPUT_BUF_SIZE); [rewrite length_app; lia|lia| |lia].
    rewrite !length_app. simpl. lia. }
  rewrite Hcnt. destruct ((c' =? NL) || (c' =? EOFC) || (Z.of_nat (length rd + length (ed ++ [c'])) =? INPUT_BUF_SIZE)) eqn:Ed.
  - call reflexivity. do 2 step_over. split; [|intros _; set_solver].
    split; simpl; rewrite ?app_nil_r; [done|done|done|done|set_solver].
  - do 2 step_over. split; [|done]. split; simpl; [done|done|by rewrite H3|done|].
    apply orb_false_iff in Ed as [[Ed%Z.eqb_neq _]%orb_false_iff _]. set_solver.
Qed.

(** Taking the oldest byte. *)
Lemma holds_take s c rd ed :
  holds s (Lines (c :: rd) ed) →
  buf s !!! Z.to_nat (r s mod INPUT_BUF_SIZE) = c ∧ holds (set_r (u32 (r s + 1)) s) (Lines rd ed).
Proof.
  intros [H1 H2 H3 H4 H5]. simpl in *. split; [by apply (ring_head INPUT_BUF_SIZE _ _ _ (rd ++ ed))|].
  split; simpl; [|apply u32_range| | |done].
  - eapply (ring_tail INPUT_BUF_SIZE); [lia|exact H1|]. apply cons_wrap.
  - rewrite H3, u32_add. f_equal. lia.
  - rewrite H4, u32_add. f_equal. lia.
Qed.

(** Putting it back, as for a control-D in the middle of a read. *)
Lemma holds_put_back s l : holds s l → holds (set_r (u32 (u32 (r s + 1) - 1)) (set_r (u32 (r s + 1)) s)) l.
Proof.
  intros [H1 H2 H3 H4 H5]. assert (u32 (u32 (r s + 1) - 1) = r s) as E.
  { rewrite u32_sub, u32_small by lia. lia. }
  rewrite E. split; simpl; done.
Qed.

(** The outcome of a read that delivered [got]. *)
Definition read_result (kl : bool) (target : Z) (n : nat) (res : list Z * bool * list Z) : progress :=
  let '(got, fin, _) := res in
  if fin : bool then Ret (target - Z.of_nat n + Z.of_nat (length got))
  else if kl then Ret (-1) else Wait (Z.of_nat n - Z.of_nat (length got)).

Lemma consoleread_loop_spec dst kl target n s rd ed :
  holds s (Lines rd ed) → Z.of_nat n ≤ target < 2 ^ 31 →
  (∀ j, target - Z.of_nat n ≤ j < target → dst j = true) →
  let res := take_line (Z.of_nat n =? target) n rd in
  returns (consoleread_loop dst kl target n) s (λ v s' t,
    holds s' (Lines res.2 ed) ∧ v.2 = res.1.1 ∧ v.1 = if kl && negb res.1.2 then Ret (-1) else read_result false target n res).
Proof.
  revert s rd. induction n as [|n IH]; intros s rd Hh Hn Hdst; cbn [consoleread_loop take_line].
  { cbn. unfold returns. simpl. rewrite u32_small, s32_small by lia. rewrite andb_false_r.
    split_and!; [done|done|f_equal; lia]. }
  call reflexivity. rewrite (holds_ready _ _ Hh). simpl ready. destruct rd as [|c rd].
  { rewrite bool_decide_true by done. destruct kl; step_over; (split_and!; [done|done|]); simpl; f_equal; lia. }
  rewrite bool_decide_false by done. destruct (holds_take s c rd ed Hh) as [-> Hh'].
  call reflexivity. destruct (c =? EOFC) eqn:Ee.
  { destruct (Z.eqb_spec (Z.of_nat (S n)) target) as [Ht|Ht].
    - if_false. call reflexivity. step_over. simpl. rewrite andb_false_r. split_and!; [done|done|].
      rewrite u32_small, s32_small by lia. f_equal. lia.
    - if_true. call reflexivity. step_over. simpl. rewrite andb_false_r.
      split_and!; [by apply holds_put_back|done|]. rewrite u32_small, s32_small by lia. f_equal. lia. }
  rewrite Hdst by lia. cbn [negb]. destruct (c =? NL) eqn:En.
  { step_over. simpl. rewrite andb_false_r. split_and!; [done|done|].
    rewrite u32_small, s32_small by lia. f_equal. lia. }
  call_spec (IH _ rd Hh'); [lia|intros j Hj; apply Hdst; lia|].
  rewrite (proj2 (Z.eqb_neq (Z.of_nat n) target)) by lia.
  destruct (take_line false n rd) as [[got fin] rest]. cbn [fst snd].
  intros [v out] s' t (H1 & -> & ->). apply returns_ret. split_and!; [done|done|]. cbn [fst snd].
  destruct (kl && negb fin); [done|]. simpl. destruct fin; f_equal; lia.
Qed.

(** ** Typing and reading *)

Fixpoint type_keys (cs : list Z) : M cons unit :=
  match cs with
  | [] => mret tt
  | c :: cs => consoleintr c;; type_keys cs
  end.

Definition typed (l : lines) (cs : list Z) : lines := foldl (λ l c, key c l) l cs.

Lemma type_keys_run cs s l :
  holds s l → Forall (λ c, 0 ≤ c < 256) cs → returns (type_keys cs) s (λ _ s' t, holds s' (typed l cs)).
Proof.
  revert s l. induction cs as [|c cs IH]; intros s l Hh Hcs; cbn [type_keys]; [by apply returns_ret|].
  apply Forall_cons_1 in Hcs as [Hc Hcs]. call_spec consoleintr_spec; [done|done|].
  intros [] s' t [Hh' _]. by apply IH.
Qed.

Definition console0 (b : list Z) : cons := Cons b 0 0 0.

Lemma console0_holds b : Z.of_nat (length b) = INPUT_BUF_SIZE → holds (console0 b) (Lines [] []).
Proof. intros Hb. split; simpl; [apply ring_nil; [lia|done]|lia|done|done|set_solver]. Qed.

(** C26: The interrupt handler implements the line discipline: after any sequence
    of keys, typed on a console that holds [l], the circular buffer holds what
    [key] prescribes, key by key, including erase, kill-line, the end of a line
    and a full buffer; each time something becomes readable, readers are woken. *)
Theorem console_keys s l cs c :
  holds s l → Forall (λ c, 0 ≤ c < 256) (cs ++ [c]) →
  returns (type_keys cs) s (λ _ s1 _, holds s1 (typed l cs) ∧
    returns (consoleintr c) s1 (λ _ s2 t, holds s2 (key c (typed l cs)) ∧
      (ready (key c (typed l cs)) ≠ ready (typed l cs) → EvWakeup ChConsR ∈ t))).
Proof.
  intros Hh [Hcs Hc]%Forall_app. eapply returns_mono; [by apply type_keys_run|].
  intros [] s1 t1 Hh1. split; [done|]. apply consoleintr_spec; [done|]. by apply Forall_cons_1 in Hc as [? _].
Qed.

(** A key that only adds itself to the line. *)
Definition plain (c : Z) : bool :=
  (0 <? c) && (c <? 256) && negb (is_edit c) && negb (c =? NL) && negb (c =? CR) && negb (c =? EOFC).

Lemma typed_plain ed cs :
  Forall (λ c, plain c = true) cs → Z.of_nat (length ed + length cs) < INPUT_BUF_SIZE →
  typed (Lines [] ed) cs = Lines [] (ed ++ cs).
Proof.
  revert ed. induction cs as [|c cs IH]; intros ed Hcs Hn; simpl; [by rewrite app_nil_r|].
  apply Forall_cons_1 in Hcs as [Hc Hcs]. simpl in Hn. unfold plain, is_edit in Hc. bool_prop.
  assert (key c (Lines [] ed) = Lines [] (ed ++ [c])) as ->.
  { unfold key. cbn [ready edit length]. cbv zeta. if_false. if_false. if_false. if_true. if_false.
    rewrite length_app. cbn [length]. if_false. done. }
  rewrite IH; [by rewrite <-app_assoc|done|]. rewrite length_app. simpl. lia.
Qed.

Lemma take_line_plain first n cs :
  Forall (λ c, plain c = true) cs → (length cs < n)%nat →
  take_line first n (cs ++ [NL]) = (cs ++ [NL], true, []).
Proof.
  revert first n. induction cs as [|c cs IH]; intros first n Hcs Hn; (destruct n as [|n]; [simpl in Hn; lia|]); simpl.
  - done.
  - apply Forall_cons_1 in Hcs as [Hc Hcs]. unfold plain, is_edit in Hc. bool_prop.
    do 2 if_false. simpl in Hn. rewrite IH; [done|done|lia].
Qed.

Lemma typed_enter cs nl :
  Forall (λ c, plain c = true) cs → nl = CR ∨ nl = NL → Z.of_nat (length cs) < INPUT_BUF_SIZE →
  typed (Lines [] []) (cs ++ [nl]) = Lines (cs ++ [NL]) [].
Proof.
  intros Hcs Hnl Hn. unfold typed. rewrite foldl_app. fold (typed (Lines [] []) cs).
  rewrite typed_plain by (simpl; lia || done). simpl foldl. unfold key. cbn [ready edit length]. cbv zeta.
  rewrite app_nil_l. do 3 if_false. if_true. destruct Hnl as [-> | ->]; cbn; done.
Qed.

(** What is typed is read.  A line of ordinary characters that fits the
    buffer, ended by return or newline, is delivered by the next [consoleread]
    with its newline, complete, in order and in one piece. *)
Theorem console_roundtrip b cs nl n kl dst :
  Z.of_nat (length b) = INPUT_BUF_SIZE → Forall (λ c, plain c = true) cs → nl = CR ∨ nl = NL →
  Z.of_nat (length cs) < INPUT_BUF_SIZE → Z.of_nat (length cs) < n < 2 ^ 31 →
  (∀ j, 0 ≤ j < n → dst j = true) →
  returns (type_keys (cs ++ [nl]);; consoleread dst kl n n) (console0 b) (λ v s' t,
    v = (Ret (Z.of_nat (length cs) + 1), cs ++ [NL]) ∧ holds s' (Lines [] [])).
Proof.
  intros Hb Hcs Hnl Hlen Hn Hdst. call_spec (type_keys_run (cs ++ [nl]) _ (Lines [] [])).
  { by apply console0_holds. }
  { apply Forall_app. split; [|constructor; [lia|done]]. eapply Forall_impl; [exact Hcs|].
    intros c Hc. unfold plain in Hc. bool_prop. lia. }
  intros [] s t Hh. rewrite typed_enter in Hh by done. unfold consoleread. call reflexivity. if_false.
  pose proof (consoleread_loop_spec dst kl n (Z.to_nat n) s (cs ++ [NL]) [] Hh ltac:(lia) ltac:(intros j Hj; apply Hdst; lia)) as Hr.
  rewrite take_line_plain in Hr by (done || lia). cbn [fst snd negb] in Hr. rewrite andb_false_r in Hr.
  eapply returns_mono; [exact Hr|]. intros [v out] s' t' (Hh' & Ho & Hv). cbn [fst snd read_result] in *.
  split; [|done]. subst out v. f_equal. f_equal. rewrite length_app. simpl. lia.
Qed.

Lemma console_keys_witness :
  returns (type_keys [104; 105]) (console0 (replicate 128 0)) (λ _ s1 _,
    holds s1 (Lines [] [104; 105]) ∧
    returns (consoleintr 13) s1 (λ _ s2 t, holds s2 (Lines [104; 105; 10] []) ∧ EvWakeup ChConsR ∈ t)).
Proof.
  eapply returns_mono; [apply (console_keys (console0 (replicate 128 0)) (Lines [] []) [104; 105] 13)|].
  - apply console0_holds. reflexivity.
  - repeat constructor; lia.
  - intros _ s1 t1 [H1 H2]. split; [exact H1|]. eapply returns_mono; [exact H2|].
    intros _ s2 t2 [H3 H4]. split; [exact H3|]. apply H4. discriminate.
Defined.

Lemma console_roundtrip_witness :
  returns (type_keys [104; 105; 13];; consoleread (λ _, true) false 10 10) (console0 (replicate 128 0))
    (λ v s' t, v = (Ret 3, [104; 105; 10]) ∧ holds s' (Lines [] [])).
Proof.
  apply (console_roundtrip (replicate 128 0) [104; 105] 13 10 false (λ _, true)).
  - reflexivity.
  - repeat constructor; reflexivity.
  - left. reflexivity.
  - simpl. lia.
  - simpl. lia.
  - intros. reflexivity.
Defined.
