(* ===== verification/Printf.v ===== *)
(** * Formatted output, [kernel/printf.c]

    Output goes to [consputc], so it is the sequence of [EvPutc] events.  The
    digits that [printint] and [printptr] print are related to the number by
    [numeral], which reads them back. *)

From S2P Require Import Prelude Riscv Console.

(** [pr.locking] and [panicked]. *)
Record prst : Type := Pr { locking : Z; panicked : Z }.

(** The arguments of a call; a string is the bytes before its NUL. *)
Inductive arg : Type := AInt (x : Z) | APtr (x : Z) | AStr (s : option (list Z)).

(** [digits[d]] *)
Definition digit (d : Z) : Z := if d <? 10 then 48 + d else 87 + d.

(** The loop that fills [buf], least significant digit first.  A [uint] has at
    most 32 digits in any base. *)
Fixpoint to_digits (fuel : nat) (x base : Z) : list Z :=
  match fuel with
  | O => []
  | S fuel => digit (x mod base) :: (if x / base =? 0 then [] else to_digits fuel (x / base) base)
  end.

Fixpoint putchars {S} (l : list Z) : M S unit :=
  match l with
  | [] => mret tt
  | c :: l => consputc c;; putchars l
  end.

(** [-xx] of the smallest [int] is undefined in C. *)
Definition printint {S} (xx base : Z) (sign : bool) : M S unit :=
  let neg := sign && (xx <? 0) in
  if neg && (xx =? - 2 ^ 31) then undef "printint: signed overflow" else
  let x := u32 (if neg then - xx else xx) in
  let buf := to_digits 32 x base ++ (if neg then [45] else []) in
  putchars (reverse buf).

Fixpoint printptr_loop {S} (k : nat) (x : Z) : M S unit :=
  match k with
  | O => mret tt
  | S k => consputc (digit (Z.shiftr x 60));; printptr_loop k (u64 (Z.shiftl x 4))
  end.
Definition printptr {S} (x : Z) : M S unit :=
  consputc 48;; consputc 120;; printptr_loop 16 x.

Definition null_string : list Z := [40; 110; 117; 108; 108; 41].

(** The conversion [c] with the arguments left; [None] when the caller gave
    no argument of the right type. *)
Definition conversion {S} (c : Z) (args : list arg) : M S (list arg) :=
  if c =? 100 then
    match args with AInt x :: args => printint x 10 true;; mret args | _ => undef "printf: argument" end
  else if c =? 120 then
    match args with AInt x :: args => printint x 16 true;; mret args | _ => undef "printf: argument" end
  else if c =? 112 then
    match args with APtr x :: args => printptr x;; mret args | _ => undef "printf: argument" end
  else if c =? 115 then
    match args with
    | AStr s :: args => putchars (default null_string s);; mret args
    | _ => undef "printf: argument"
    end
  else if c =? 37 then consputc 37;; mret args
  else consputc 37;; consputc c;; mret args.

(** [fmt] is the bytes before the NUL. *)
Fixpoint printf_loop {S} (fmt : list Z) (args : list arg) : M S unit :=
  match fmt with
  | [] => mret tt
  | c :: fmt =>
      if negb (c =? 37) then consputc c;; printf_loop fmt args
      else
        match fmt with
        | [] => mret tt
        | c :: fmt => args ← conversion c args; printf_loop fmt args
        end
  end.

Definition printf (fmt : list Z) (args : list arg) : M prst unit :=
  l ← gets locking;
  (if truthy l then acquire LkPr else mret tt);;
  printf_loop fmt args;;
  (if truthy l then release LkPr else mret tt).

Definition ascii_bytes (s : string) : list Z :=
  (λ a, Z.of_N (Ascii.N_of_ascii a)) <$> String.list_ascii_of_string s.

(** [panic]; it ends in an endless loop. *)
Definition kpanic (s : list Z) : M prst unit :=
  p ← get;
  put (Pr 0 (panicked p));;
  printf (ascii_bytes "panic: ") [];;
  printf s [];;
  printf [NL] [];;
  p ← get;
  put (Pr (locking p) 1);;
  nofuel.

Definition printfinit : M prst unit :=
  initlock LkPr;;
  p ← get;
  put (Pr 1 (panicked p)).

(** ** Reading the output back *)

(** The characters of a trace. *)
Definition output (t : trace) : list Z :=
  omap (λ e, match e with EvPutc c => Some c | _ => None end) t.

Lemma output_app t1 t2 : output (t1 ++ t2) = output t1 ++ output t2.
Proof. apply omap_app. Qed.

Definition digit_value (c : Z) : Z := if c <? 58 then c - 48 else c - 87.

(** The value of a numeral, most significant digit first. *)
Definition numeral (base : Z) (l : list Z) : Z := foldl (λ n c, n * base + digit_value c) 0 l.

Lemma digit_back d : 0 ≤ d < 16 → digit_value (digit d) = d ∧ 48 ≤ digit d < 103.
Proof. intros Hd. unfold digit, digit_value. split; repeat case_if; lia. Qed.

Lemma numeral_snoc base l c : numeral base (l ++ [c]) = numeral base l * base + digit_value c.
Proof. unfold numeral. by rewrite foldl_app. Qed.

Lemma putchars_run {S} l (s : S) :
  Forall (λ c, 0 ≤ c < 256) l → ∃ t, putchars l s = Done tt s t ∧ output t = l.
Proof.
  induction l as [|c l IH]; intros Hl; simpl; [by exists []|].
  apply Forall_cons_1 in Hl as [Hc Hl]. destruct (IH Hl) as (t & Hr & Ht).
  eexists. unfold consputc. rewrite (proj2 (Z.eqb_neq c BACKSPACE)) by (unfold BACKSPACE; lia).
  unfold mbind, M_bind. simpl. rewrite Hr. simpl. split; [done|]. simpl. by rewrite u8_small, Ht.
Qed.

Lemma to_digits_spec fuel x base :
  2 ≤ base ≤ 16 → 0 ≤ x < base ^ Z.of_nat fuel → (0 < fuel)%nat →
  let l := to_digits fuel x base in
  numeral base (reverse l) = x ∧ l ≠ [] ∧ Forall (λ c, 48 ≤ c < 103 ∧ digit_value c < base) l ∧
  (x ≠ 0 → last l ≠ Some 48).
Proof.
  intros Hb. revert x. induction fuel as [|fuel IH]; intros x Hx Hf; [lia|]. cbn [to_digits]. cbv zeta.
  pose proof (Z.mod_pos_bound x base ltac:(lia)) as Hm. pose proof (Z.div_mod x base ltac:(lia)) as Hdm.
  destruct (digit_back (x mod base)) as [Hv Hr]; [lia|].
  destruct (Z.eqb_spec (x / base) 0) as [H0|H0].
  - split_and!; [|done|constructor; [split; [done|lia]|done]|].
    + change (numeral base (reverse [digit (x mod base)])) with (0 * base + digit_value (digit (x mod base))). lia.
    + intros Hne. simpl. unfold digit. rewrite H0 in Hdm. case_if; injection 1; lia.
  - destruct fuel as [|fuel]; [change (Z.of_nat 1) with 1 in Hx; rewrite Z.pow_1_r in Hx; rewrite Z.div_small in H0; lia|].
    assert (0 ≤ x / base < base ^ Z.of_nat (S fuel)) as Hq.
    { split; [apply Z.div_pos; lia|]. apply Z.div_lt_upper_bound; [lia|].
      rewrite <-Z.pow_succ_r by lia. replace (Z.succ (Z.of_nat (S fuel))) with (Z.of_nat (S (S fuel))) by lia. lia. }
    destruct (IH _ Hq ltac:(lia)) as (E1 & E2 & E3 & E4). rewrite reverse_cons, numeral_snoc, E1, Hv.
    split_and!; [lia|done|constructor; [split; [done|lia]|done]|].
    intros _. rewrite last_cons. destruct (last (to_digits (S fuel) (x / base) base)) eqn:El; [by apply E4|].
    by apply last_None in El.
Qed.

Lemma to_digits_length fuel x base k :
  2 ≤ base → 0 ≤ x < base ^ Z.of_nat k → (0 < k)%nat → (length (to_digits fuel x base) ≤ k)%nat.
Proof.
  intros Hb. revert x k. induction fuel as [|fuel IH]; intros x k Hx Hk; simpl; [lia|].
  destruct (Z.eqb_spec (x / base) 0) as [H0|H0]; [simpl; lia|]. destruct k as [|[|k]]; [lia| |].
  - change (Z.of_nat 1) with 1 in Hx. rewrite Z.pow_1_r in Hx. rewrite Z.div_small in H0; lia.
  - apply le_n_S, IH; [|lia]. split; [apply Z.div_pos; lia|]. apply Z.div_lt_upper_bound; [lia|].
    rewrite <-Z.pow_succ_r by lia. replace (Z.succ (Z.of_nat (S k))) with (Z.of_nat (S (S k))) by lia. lia.
Qed.

(** [printint] prints the number.  For every [int] but the smallest, in base
    10 or 16, it prints a minus sign exactly for a negative number that is to be
    printed signed, then digits without leading zeros whose value is the absolute
    value, or the value modulo [2^32] when printed unsigned; they fit [buf]. *)
Theorem printint_prints {S} xx base sign (s : S) :
  - 2 ^ 31 < xx < 2 ^ 31 → base = 10 ∨ base = 16 →
  returns (printint xx base sign) s (λ _ s' t, s' = s ∧ (length (output t) ≤ 16)%nat ∧ ∃ ds,
    output t = (if sign && (xx <? 0) then [45] else []) ++ ds ∧
    numeral base ds = (if sign then Z.abs xx else u32 xx) ∧
    Forall (λ c, digit_value c < base) ds ∧ ds ≠ [] ∧ (head ds = Some 48 → ds = [48])).
Proof.
  intros Hx Hb. unfold printint. cbv zeta. rewrite (proj2 (Z.eqb_neq xx (- 2 ^ 31))), andb_false_r by lia.
  set (neg := sign && (xx <? 0)). set (x := u32 (if neg then - xx else xx)).
  assert (x = if sign then Z.abs xx else u32 xx) as Hxv.
  { unfold x, neg. destruct sign; simpl; [|done]. case_if; rewrite u32_small; lia. }
  pose proof (u32_range (if neg then - xx else xx)) as Hxr. fold x in Hxr.
  assert (2 ^ 32 ≤ base ^ Z.of_nat 10) as Hp by (destruct Hb as [-> | ->]; by vm_compute).
  destruct (to_digits_spec 32 x base) as (H1 & H2 & H3 & H4); [lia| |lia|].
  { split; [lia|]. destruct Hb as [-> | ->]; eapply Z.lt_le_trans; try apply Hxr; by vm_compute. }
  pose proof (to_digits_length 32 x base 10 ltac:(lia) ltac:(lia) ltac:(lia)) as Hlen.
  cbv zeta in *. remember (to_digits 32 x base) as l eqn:El.
  assert (reverse (l ++ (if neg then [45] else [])) = (if neg then [45] else []) ++ reverse l) as ->
    by (destruct neg; rewrite reverse_app; done).
  destruct (putchars_run ((if neg then [45] else []) ++ reverse l) s) as (t & Hrun & Ho).
  { apply Forall_app. split; [destruct neg; repeat constructor; lia|]. apply Forall_reverse.
    eapply Forall_impl; [exact H3|]. simpl. lia. }
  eapply returns_done; [exact Hrun|]. rewrite Ho. split_and!; [done| |].
  { rewrite length_app, length_reverse. clear -Hlen. destruct neg; simpl; lia. }
  exists (reverse l). split_and!; [done|congruence| | |].
  - apply Forall_reverse. eapply Forall_impl; [exact H3|]. simpl. lia.
  - intros E. apply H2. rewrite <-(reverse_involutive l), E. done.
  - rewrite head_reverse. intros Hl. destruct (decide (x = 0)) as [H0|H0]; [|by apply H4 in H0].
    rewrite El, H0. by destruct Hb as [-> | ->].
Qed.

Lemma numeral_cons base c l :
  numeral base (c :: l) = digit_value c * base ^ Z.of_nat (length l) + numeral base l.
Proof.
  induction l as [|c' l IH] using rev_ind; [change (digit_value c = digit_value c * 1 + 0); lia|].
  rewrite app_comm_cons, !numeral_snoc, IH, length_app. simpl.
  replace (Z.of_nat (length l + 1)) with (Z.succ (Z.of_nat (length l))) by lia. rewrite Z.pow_succ_r by lia. ring.
Qed.

(** The top [k] hexadecimal digits of [x]. *)
Lemma printptr_loop_run {S} k x (s : S) :
  (k ≤ 16)%nat → 0 ≤ x < 2 ^ 64 →
  ∃ t, printptr_loop k x s = Done tt s t ∧ length (output t) = k ∧
    numeral 16 (output t) = x / 2 ^ (64 - 4 * Z.of_nat k).
Proof.
  revert x. induction k as [|k IH]; intros x Hk Hx.
  { exists []. split_and!; [done|done|]. change (64 - 4 * Z.of_nat 0) with 64. rewrite Z.div_small; done. }
  destruct (IH (u64 (Z.shiftl x 4)) ltac:(lia) (u64_range _)) as (t & Hr & Hl & Hv).
  set (d := x / 2 ^ 60). set (y := x mod 2 ^ 60).
  assert (x = 2 ^ 60 * d + y) as Hdy by (apply Z.div_mod; lia).
  assert (0 ≤ y < 2 ^ 60) as Hy by (apply Z.mod_pos_bound; lia).
  assert (0 ≤ d < 16) as Hd by (split; [apply Z.div_pos; lia|apply Z.div_lt_upper_bound; lia]).
  destruct (digit_back d) as [Hdb Hdr]; [done|].
  assert (Z.shiftr x 60 = d) as Hs by (by rewrite Z.shiftr_div_pow2).
  exists (EvPutc (digit d) :: t). unfold printptr_loop; fold (@printptr_loop S). unfold mbind, M_bind, consputc.
  rewrite Hs, (proj2 (Z.eqb_neq (digit d) BACKSPACE)) by (unfold BACKSPACE; lia). simpl. rewrite Hr. simpl.
  rewrite u8_small by lia. split_and!; [done|simpl; by f_equal|].
  rewrite numeral_cons, Hdb, Hl, Hv. unfold u64. rewrite Z.shiftl_mul_pow2, Hdy by lia.
  replace ((2 ^ 60 * d + y) * 2 ^ 4) with (y * 2 ^ 4 + d * 2 ^ 64) by lia. rewrite Z.mod_add, Z.mod_small by lia.
  assert (2 ^ (64 - 4 * Z.of_nat k) = 2 ^ (64 - 4 * Z.of_nat (Datatypes.S k)) * 2 ^ 4) as ->.
  { rewrite <-Z.pow_add_r by lia. f_equal. lia. }
  rewrite Z.div_mul_cancel_r by (try apply Z.pow_nonzero; lia).
  assert (2 ^ 60 = 2 ^ (64 - 4 * Z.of_nat (Datatypes.S k)) * 16 ^ Z.of_nat k) as ->.
  { change 16 with (2 ^ 4). rewrite <-Z.pow_mul_r, <-Z.pow_add_r by lia. f_equal. lia. }
  assert (0 < 2 ^ (64 - 4 * Z.of_nat (Datatypes.S k))) by (apply Z.pow_pos_nonneg; lia).
  set (P := 2 ^ (64 - 4 * Z.of_nat (Datatypes.S k))) in *. set (E := 16 ^ Z.of_nat k).
  replace (P * E * d + y) with (E * d * P + y) by ring. rewrite Z.div_add_l by lia. ring.
Qed.

(** [printptr] prints [0x] and the sixteen hexadecimal digits of its
    argument. *)
Theorem printptr_prints {S} x (s : S) :
  0 ≤ x < 2 ^ 64 →
  returns (printptr x) s (λ _ s' t, s' = s ∧ ∃ ds, output t = 48 :: 120 :: ds ∧ length ds = 16%nat ∧
    numeral 16 ds = x).
Proof.
  intros Hx. destruct (printptr_loop_run 16 x s ltac:(lia) Hx) as (t & Hr & Hl & Hv).
  unfold printptr. call reflexivity. call reflexivity. eapply returns_done; [exact Hr|].
  split; [done|]. exists (output t). split_and!; [done|done|]. rewrite Hv. change (64 - 4 * Z.of_nat 16) with 0.
  apply Z.div_1_r.
Qed.

Lemma printint_prints_witness :
  returns (printint (-42) 10 true) tt (λ _ s' t, s' = tt ∧ (length (output t) ≤ 16)%nat ∧ ∃ ds,
    output t = [45] ++ ds ∧ numeral 10 ds = 42 ∧
    Forall (λ c, digit_value c < 10) ds ∧ ds ≠ [] ∧ (head ds = Some 48 → ds = [48])).
Proof. apply (printint_prints (-42) 10 true tt); [lia|left; reflexivity]. Defined.

Lemma printptr_prints_witness :
  returns (printptr 0x80000000) tt (λ _ s' t, s' = tt ∧ ∃ ds, output t = 48 :: 120 :: ds ∧ length ds = 16%nat ∧
    numeral 16 ds = 0x80000000).
Proof. apply (printptr_prints 0x80000000 tt). lia. Defined.
