(* ===== verification/Tx.v ===== *)
(** * What the file system relies on

    Between [begin_op] and [end_op] the file system reads blocks, changes the
    buffers, logs them and releases them.  [Store] are these calls, [StoreLaws]
    their contract, stated with a predicate [owns] on the state: the blocks read
    as [co], the disk is still [d], the process holds the buffers [H], and at
    least [k] more blocks can be logged.  TxLog implements the contract with
    the log and the buffer cache. *)

From S2P Require Import Prelude Riscv Memory Disk.

(** [m] returns and writes nothing to the disk. *)
Definition runs {S A} (m : M S A) (s : S) (Q : A → S → Prop) : Prop :=
  returns m s (λ a s' t, writes t = [] ∧ Q a s').

Lemma runs_bind {S A B} (m : M S A) (f : A → M S B) s Q :
  runs m s (λ a s1, runs (f a) s1 Q) → runs (m ≫= f) s Q.
Proof.
  intros Hm. apply returns_bind. eapply returns_mono; [exact Hm|]. intros a s1 t1 [H1 H2].
  eapply returns_mono; [exact H2|]. intros b s2 t2 [H3 H4]. by rewrite writes_app, H1, H3.
Qed.

Lemma runs_mono {S A} (m : M S A) s (P Q : A → S → Prop) :
  runs m s P → (∀ a s', P a s' → Q a s') → runs m s Q.
Proof. intros Hm HQ. eapply returns_mono; [exact Hm|]. intros a s' t [H1 H2]. auto. Qed.

Lemma runs_ret {S A} (a : A) (s : S) (Q : A → S → Prop) : Q a s → runs (mret a) s Q.
Proof. done. Qed.

Lemma runs_done {S A} (m : M S A) s a s' t (Q : A → S → Prop) :
  m s = Done a s' t → writes t = [] → Q a s' → runs m s Q.
Proof. intros Hm Ht HQ. by eapply returns_done. Qed.

Lemma runs_assoc {S A B C} (m : M S A) (f : A → M S B) (g : B → M S C) s Q :
  runs ((m ≫= f) ≫= g) s Q → runs (m ≫= λ a, f a ≫= g) s Q.
Proof.
  unfold runs, returns, mbind, M_bind. destruct (m s) as [a s1 t1| | | | |]; try done. simpl.
  destruct (f a s1) as [b s2 t2| | | | |]; try done. simpl. destruct (g b s2); try done. simpl. by rewrite app_assoc.
Qed.

(** Step over the first call: with its specification, or by computation. *)
Tactic Notation "rcall" uconstr(H) := apply runs_bind; eapply runs_mono; [eapply H|].
Ltac rstep := apply runs_bind; eapply runs_done; [reflexivity|reflexivity|]; cbv beta.

Class Store (T : Type) : Type := {
  initlog : Z → Z → Z → M T unit;
  begin_op : M T unit;
  end_op : M T unit;
  bread : Z → Z → M T Z;
  brelse : Z → M T unit;
  log_write : Z → M T unit;
  rdata : Z → M T block;
  wdata : Z → block → M T unit
}.

(** A buffer that is held: its handle, its block, and whether it was changed
    since it was read or logged. *)
Abbreviation hold := (Z * Z * bool)%type.

Definition hblock (x : hold) : Z := x.1.2.

(** The file system never holds more than this many buffers. *)
Definition MAXHELD : nat := 3.

(** [vb] are the blocks that the file system may use. *)
Class StoreLaws (T : Type) `{Store T} (vb : Z → Prop)
    (owns : T → disk → disk → list hold → Z → Prop) : Prop := {
  owns_block s d co H k b : owns s d co H k → is_block (co b);
  owns_ext s d co co' H k : owns s d co H k → (∀ b, co' b = co b) → owns s d co' H k;
  owns_le s d co H k k' : owns s d co H k → 0 ≤ k' ≤ k → owns s d co H k';
  bread_law s d co H k b :
    owns s d co H k → vb b → b ∉ hblock <$> H → (length H < MAXHELD)%nat →
    runs (bread ROOTDEV b) s (λ h s', owns s' d co ((h, b, false) :: H) k ∧ h ∉ H.*1.*1);
  rdata_law s d co H k h b m :
    owns s d co H k → (h, b, m) ∈ H → rdata h s = Done (co b) s [];
  wdata_law s d co H1 H2 k h b m x :
    owns s d co (H1 ++ (h, b, m) :: H2) k → is_block x →
    runs (wdata h x) s (λ _ s', owns s' d (upd co b x) (H1 ++ (h, b, true) :: H2) k);
  log_write_law s d co H1 H2 k h b m :
    owns s d co (H1 ++ (h, b, m) :: H2) k → 0 < k →
    runs (log_write h) s (λ _ s', owns s' d co (H1 ++ (h, b, false) :: H2) (k - 1));
  brelse_law s d co H1 H2 k h b :
    owns s d co (H1 ++ (h, b, false) :: H2) k →
    runs (brelse h) s (λ _ s', owns s' d co (H1 ++ H2) k)
}.

(** [ownsR R]: the blocks [R] are reserved, so that logging them any number
    of times takes no more room.  [log_write] wants room for one block even
    when the block is in the log. *)
Class ReserveLaws (T : Type) `{Store T} (vb : Z → Prop)
    (ownsR : list Z → T → disk → disk → list hold → Z → Prop) : Prop := {
  reserve_store R : StoreLaws T vb (ownsR R);
  reserve_law R s d co H k b : ownsR R s d co H k → 0 < k → ownsR (b :: R) s d co H (k - 1);
  forget_law R s d co H k : ownsR R s d co H k → ownsR [] s d co H k;
  log_write_reserved R s d co H1 H2 k h b m :
    ownsR R s d co (H1 ++ (h, b, m) :: H2) k → b ∈ R → 0 < k →
    runs (log_write h) s (λ _ s', ownsR R s' d co (H1 ++ (h, b, false) :: H2) k)
}.
#[global] Existing Instance reserve_store.
