(* ===== verification/TxLog.v ===== *)
(** * The log and the buffer cache as a transactional store

    [log_store] are the calls the file system makes inside a transaction;
    [log_owns] relates the log, the cache and the disk to the blocks that the
    file system sees, and [log_laws] shows the contract of Tx. *)

From S2P Require Import Prelude Riscv Memory Disk Log LogSpec LogOps Tx.
From S2P Require Import Bio BioSpec LogBoot.

Abbreviation lst := (Log.lst (S := bst)).

#[global] Instance log_store : Store lst := {
  Tx.initlog := Log.initlog;
  Tx.begin_op := Log.begin_op;
  Tx.end_op := Log.end_op;
  Tx.bread dev b := in_cache (Bio.bread dev b);
  Tx.brelse h := in_cache (Bio.brelse h);
  Tx.log_write h := (b ← in_cache (field blockno h); Log.log_write h b);
  Tx.rdata h := in_cache (field data h);
  Tx.wdata h x := in_cache (with_buf h (set_data x))
}.

(** The references that the log and the process have on a block. *)
Definition rf (L : list Z) (H : list hold) (b : Z) : Z :=
  (if decide (b ∈ L) then 1 else 0) + (if decide (b ∈ hblock <$> H) then 1 else 0).

(** The block of a handle. *)
Fixpoint lk (H : list hold) (h : Z) : option Z :=
  match H with
  | [] => None
  | x :: H => if decide (h = x.1.1) then Some (hblock x) else lk H h
  end.

Section owns.
  Variables (st sz : Z).  (** where the log is *)

(** The blocks outside the log. *)
Definition outside (b : Z) : Prop := 0 ≤ b < 2 ^ 31 ∧ (b < st ∨ st + sz ≤ b).

(** The log inside a transaction, with the blocks [L] in it. *)
Record in_tx (g : log) (L : list Z) : Prop := {
  it_len : Z.of_nat (length (lh_block g)) = LOGSIZE;
  it_n : lh_n g = Z.of_nat (length L);
  it_L : take (length L) (lh_block g) = L;
  it_out : outstanding g = 1;
  it_committing : committing g = 0;
  it_dev : ldev g = ROOTDEV;
  it_nodup : NoDup L;
  it_range b : b ∈ L → outside b;
  it_start : start g = st;
  it_size : size g = sz
}.

(** The blocks [L] are in the log, which has room for [k] more. *)
Record owns_at (L : list Z) (s : lst) (d co : disk) (H : list hold) (k : Z) : Prop := {
  ow_abs : abs cache_ok (ca s) d co (rf L H) (lk H) ∧ in_tx (lg s) L ∧
    (∀ b, b ∉ L → (∀ h, (h, b, true) ∉ H) → co b = d b) ∧
    0 ≤ k ∧ Z.of_nat (length L) + k ≤ LOGSIZE ∧ Z.of_nat (length L) + k ≤ size (lg s) - 1 ∧
    Z.of_nat (length L) + k ≤ NBUF - Z.of_nat MAXHELD;
  ow_blocks : NoDup (hblock <$> H);
  ow_handles : NoDup H.*1.*1;
  ow_range x : x ∈ H → outside (hblock x);
  ow_count : (length H ≤ MAXHELD)%nat
}.

(** The blocks [R] are reserved: logging them takes no further room. *)
Definition pend (L R : list Z) : Z := Z.of_nat (length (filter (λ b, b ∉ L) R)).
Definition log_owns (R : list Z) (s : lst) (d co : disk) (H : list hold) (k : Z) : Prop :=
  0 ≤ k ∧ ∃ L, owns_at L s d co H (pend L R + k).

Lemma lk_None H h : lk H h = None ↔ h ∉ H.*1.*1.
Proof.
  induction H as [|x H IH]; simpl; [set_solver|]. case_decide as Hh; [set_solver|]. rewrite IH. set_solver.
Qed.

Lemma lk_app H1 H2 h : lk (H1 ++ H2) h = match lk H1 h with Some b => Some b | None => lk H2 h end.
Proof. induction H1 as [|x H1 IH]; simpl; [done|]. by case_decide. Qed.

Lemma lk_mid H1 h b m H2 : NoDup (H1 ++ (h, b, m) :: H2).*1.*1 → lk (H1 ++ (h, b, m) :: H2) h = Some b.
Proof.
  intros Hnd. rewrite lk_app. rewrite !fmap_app in Hnd. apply NoDup_app in Hnd as (_ & Hd & _).
  rewrite (proj2 (lk_None H1 h)); [simpl; by rewrite decide_True|].
  intros Hin. apply (Hd h Hin). simpl. set_solver.
Qed.

(** Only the handle that is released changes. *)
Lemma lk_remove H1 h b m H2 h' :
  NoDup (H1 ++ (h, b, m) :: H2).*1.*1 → lk (H1 ++ H2) h' = upd (lk (H1 ++ (h, b, m) :: H2)) h None h'.
Proof.
  intros Hnd. rewrite !fmap_app in Hnd. apply NoDup_app in Hnd as (_ & Hd & [Hh _]%NoDup_cons).
  unfold upd. case_decide as Hhh; rewrite !lk_app.
  - subst h'. rewrite (proj2 (lk_None H1 h)); [by apply lk_None|]. intros Hin. apply (Hd h Hin). simpl. set_solver.
  - simpl. by rewrite decide_False.
Qed.

Lemma lk_mark H1 h b m m' H2 h' : lk (H1 ++ (h, b, m') :: H2) h' = lk (H1 ++ (h, b, m) :: H2) h'.
Proof. rewrite !lk_app. done. Qed.

Lemma hblock_mark H1 h b m m' H2 : hblock <$> (H1 ++ (h, b, m') :: H2) = hblock <$> (H1 ++ (h, b, m) :: H2).
Proof. rewrite !fmap_app. done. Qed.

Lemma rf_mark L H1 h b m m' H2 x : rf L (H1 ++ (h, b, m') :: H2) x = rf L (H1 ++ (h, b, m) :: H2) x.
Proof. unfold rf. by rewrite (hblock_mark H1 h b m m'). Qed.

Lemma rf_remove L H1 h b m H2 x :
  NoDup (hblock <$> (H1 ++ (h, b, m) :: H2)) →
  rf L (H1 ++ H2) x = upd (rf L (H1 ++ (h, b, m) :: H2)) b (rf L (H1 ++ (h, b, m) :: H2) b - 1) x.
Proof.
  intros Hnd. rewrite fmap_app in Hnd. apply NoDup_app in Hnd as (_ & Hd & [Hh _]%NoDup_cons).
  assert (b ∉ hblock <$> (H1 ++ H2)) as Hb.
  { rewrite fmap_app. intros [Hin|Hin]%elem_of_app; [|done]. apply (Hd b Hin). simpl. by left. }
  assert (∀ y, y ∈ hblock <$> (H1 ++ (h, b, m) :: H2) ↔ y = b ∨ y ∈ hblock <$> (H1 ++ H2)) as Hin.
  { intros y. rewrite !fmap_app. simpl. set_solver. }
  unfold upd, rf. destruct (decide (x = b)) as [->|Hx].
  - rewrite (decide_False (P := b ∈ hblock <$> (H1 ++ H2))) by done.
    rewrite (decide_True (P := b ∈ hblock <$> (H1 ++ (h, b, m) :: H2))) by (apply Hin; by left). lia.
  - destruct (decide (x ∈ hblock <$> (H1 ++ H2))) as [Hy|Hy];
      destruct (decide (x ∈ hblock <$> (H1 ++ (h, b, m) :: H2))) as [Hz|Hz]; try done; exfalso.
    + apply Hz, Hin. by right.
    + apply Hin in Hz as [?|?]; done.
Qed.

(** ** The calls *)

Lemma own_bread L s d co H k b :
  owns_at L s d co H k → outside b → b ∉ hblock <$> H → (length H < MAXHELD)%nat →
  runs (Tx.bread ROOTDEV b) s (λ h s', owns_at L s' d co ((h, b, false) :: H) k ∧ h ∉ H.*1.*1).
Proof.
  intros [(Ha & Ht & Hc & Hk & Hk1 & Hk2 & Hk3) Hb Hh Hr Hn] Hbr HbH Hlen. simpl.
  apply returns_in_cache. eapply returns_mono; [apply (bread_abs ROOTDEV cache_ok _ _ _ _ _ b Ha (proj1 Hbr))|].
  - intros h Hlk. assert (∀ H, lk H h = Some b → b ∈ hblock <$> H) as Hin.
    { clear. induction H as [|x H IH]; simpl; [done|]. case_decide; [intros [= ->]; set_solver|]. set_solver. }
    by apply Hin in Hlk.
  - split; [unfold rf; repeat case_decide; lia|]. right. exists (L ++ (hblock <$> H)). split.
    + intros b'. unfold rf. rewrite elem_of_app. repeat case_decide; auto; lia.
    + rewrite length_app, length_fmap. unfold MAXHELD in *. lia.
  - intros h c' t (Hlh & Ha' & Hw). split; [exact Hw|]. apply lk_None in Hlh. split; [|done]. split.
    + split_and!; try done.
      * eapply abs_ext; [exact Ha'|done|done| |]; intros x.
        -- unfold upd, rf. simpl. rewrite !(decide_ext (x ∈ _ :: _) (x = b ∨ x ∈ hblock <$> H)) by set_solver.
           repeat case_decide; subst; try done; try lia; naive_solver.
        -- simpl. unfold upd. by case_decide.
      * intros b' HL Hd. apply Hc; [done|]. intros h' Hin. apply (Hd h'). by right.
    + simpl. by apply NoDup_cons.
    + simpl. by apply NoDup_cons.
    + intros x [->|Hx]%elem_of_cons; [done|by apply Hr].
    + simpl. lia.
Qed.

Lemma own_rdata L s d co H k h b m :
  owns_at L s d co H k → (h, b, m) ∈ H → Tx.rdata h s = Done (co b) s [].
Proof.
  intros [(Ha & _) Hb Hh Hr Hn] (H1 & H2 & ->)%list_elem_of_split. simpl. unfold in_cache, zoom. simpl.
  pose proof (rdata_abs ROOTDEV cache_ok _ _ _ _ _ h b Ha (lk_mid H1 h b m H2 Hh)) as E. simpl in E.
  injection E as E. rewrite E. by destruct s.
Qed.

Lemma own_wdata L s d co H1 H2 k h b m x :
  owns_at L s d co (H1 ++ (h, b, m) :: H2) k → is_block x →
  runs (Tx.wdata h x) s (λ _ s', owns_at L s' d (upd co b x) (H1 ++ (h, b, true) :: H2) k).
Proof.
  intros [(Ha & Ht & Hc & Hk & Hk1 & Hk2 & Hk3) Hb Hh Hr Hn] Hx. simpl. apply returns_in_cache.
  eapply returns_mono; [apply (wdata_abs ROOTDEV cache_ok _ _ _ _ _ h b x Ha (lk_mid H1 h b m H2 Hh) Hx)|].
  intros [] c' t (Ha' & Hw). split; [exact Hw|]. split.
  - split_and!; try done.
    + eapply abs_ext; [exact Ha'|done|done| |]; intros y; [apply rf_mark|apply lk_mark].
    + intros b' HL Hd. unfold upd. case_decide as Hbb.
      * subst. destruct (Hd h). apply elem_of_app. right. by left.
      * apply Hc; [done|]. intros h' Hin. apply (Hd h'). rewrite elem_of_app, elem_of_cons in *. naive_solver.
  - by rewrite (hblock_mark H1 h b m).
  - by rewrite !fmap_app in *.
  - intros y [Hy|[->|Hy]%elem_of_cons]%elem_of_app.
    + apply Hr, elem_of_app. by left.
    + apply (Hr (h, b, m)), elem_of_app. right. by left.
    + apply Hr, elem_of_app. right. by right.
  - rewrite !length_app in *. done.
Qed.

Lemma own_brelse L s d co H1 H2 k h b :
  owns_at L s d co (H1 ++ (h, b, false) :: H2) k →
  runs (Tx.brelse h) s (λ _ s', owns_at L s' d co (H1 ++ H2) k).
Proof.
  intros [(Ha & Ht & Hc & Hk & Hk1 & Hk2 & Hk3) Hb Hh Hr Hn]. simpl. apply returns_in_cache.
  assert (b ∉ hblock <$> (H1 ++ H2)) as Hbn.
  { rewrite fmap_app in Hb |- *. apply NoDup_app in Hb as (_ & Hd & [Hb2 _]%NoDup_cons).
    intros [Hin|Hin]%elem_of_app; [|done]. apply (Hd b Hin). simpl. by left. }
  eapply returns_mono; [apply (brelse_abs ROOTDEV cache_ok _ _ _ _ _ h b Ha (lk_mid H1 h b false H2 Hh))|].
  - destruct (decide (b ∈ L)) as [HbL|HbL]; [left|right].
    + unfold rf. rewrite !decide_True; [lia| |done]. rewrite fmap_app, elem_of_app. right. by left.
    + apply Hc; [done|]. intros h' Hin. rewrite elem_of_app, elem_of_cons in Hin.
      destruct Hin as [Hin|[Hin|Hin]]; [|done|]; apply Hbn; rewrite fmap_app, elem_of_app; [left|right];
        apply list_elem_of_fmap; by exists (h', b, true).
  - intros [] c' t (Ha' & Hw). split; [exact Hw|]. split.
    + split_and!; try done.
      * eapply abs_ext; [exact Ha'|done|done| |]; intros y; [by apply rf_remove|by apply (lk_remove H1 h b false)].
      * intros b' HL Hd. apply Hc; [done|]. intros h' Hin. rewrite elem_of_app, elem_of_cons in Hin.
        destruct Hin as [Hin|[Hin|Hin]]; [|done|]; apply (Hd h'), elem_of_app; [by left|by right].
    + rewrite fmap_app in *. apply NoDup_app in Hb as (Hb1 & Hd & [_ Hb2]%NoDup_cons).
      apply NoDup_app. split_and!; [done| |done]. intros y Hy1 Hy2. apply (Hd y Hy1). by right.
    + rewrite !fmap_app in *. apply NoDup_app in Hh as (Hb1 & Hd & [_ Hb2]%NoDup_cons).
      apply NoDup_app. split_and!; [done| |done]. intros y Hy1 Hy2. apply (Hd y Hy1). by right.
    + intros y [Hy|Hy]%elem_of_app; apply Hr, elem_of_app; [by left|right; by right].
    + rewrite length_app in *. simpl in Hn. lia.
Qed.

(** [log_write] of a block that is in the log, and of one that is not. *)
Lemma log_write_abs s d co r l L h b :
  abs cache_ok (ca s) d co r l → l h = Some b → r b + 1 < 2 ^ 32 → in_tx (lg s) L → outside b →
  Z.of_nat (length L) < LOGSIZE → Z.of_nat (length L) < size (lg s) - 1 →
  returns (Log.log_write h b) s (λ _ s' t, writes t = [] ∧ size (lg s') = size (lg s) ∧
    if decide (b ∈ L) then abs cache_ok (ca s') d co r l ∧ in_tx (lg s') L
    else abs cache_ok (ca s') d co (upd r b (r b + 1)) l ∧ in_tx (lg s') (L ++ [b])).
Proof.
  intros Ha Hh Hr [T1 T2 T3 T4 Tc Td T5 T6 T7 T8] Hb Hn Hsz. pose proof (proj1 Hb). unfold Log.log_write. call reflexivity. call reflexivity.
  rewrite T2. if_false. if_false. rewrite s32_small, Nat2Z.id, T3 by lia. cbv zeta.
  destruct (find_block_spec L b 0) as [(i & -> & Hi)|[-> Hi]].
  - pose proof (lookup_lt_Some _ _ _ Hi) as Hlt. call (apply set_block_run; lia). if_false. call reflexivity.
    step_over. split_and!; [done|done|]. rewrite decide_True by (by apply list_elem_of_lookup_2 in Hi). split; [done|].
    replace (Z.to_nat (0 + Z.of_nat i)) with i by lia.
    assert (lh_block (lg s) !! i = Some b) as Hib by (rewrite <-T3 in Hi; by apply lookup_take_Some in Hi as [? _]).
    rewrite list_insert_id by done. by split.
  - call (apply set_block_run; lia). if_true. apply returns_bind.
    cop (bpin_abs ROOTDEV cache_ok (ca s) d co r l h b); [done..|]. intros [] c' t (Ha' & Hw).
    do 2 step_over. rewrite decide_False by done. split; [by rewrite !writes_app, Hw|]. split; [done|]. split; [done|].
    replace (Z.to_nat (0 + Z.of_nat (length L))) with (length L) by lia.
    split; cbn; rewrite ?length_insert, ?length_app; try done; try (simpl; lia).
    + simpl. replace (length L + 1)%nat with (Datatypes.S (length L)) by lia.
      rewrite (take_S_r _ _ b) by (apply list_lookup_insert_eq; lia). rewrite take_insert_ge by lia. by rewrite T3.
    + apply NoDup_app. split_and!; [done| |apply NoDup_singleton]. intros y Hy ->%list_elem_of_singleton. done.
    + intros y [Hy| ->%list_elem_of_singleton]%elem_of_app; [by apply T6|done].
Qed.

Lemma own_log_write L s d co H1 H2 k h b m :
  owns_at L s d co (H1 ++ (h, b, m) :: H2) k → 0 < k →
  runs (Tx.log_write h) s (λ _ s', if decide (b ∈ L) then owns_at L s' d co (H1 ++ (h, b, false) :: H2) k
    else owns_at (L ++ [b]) s' d co (H1 ++ (h, b, false) :: H2) (k - 1)).
Proof.
  intros [(Ha & Ht & Hc & Hk & Hk1 & Hk2 & Hk3) Hb Hh Hr Hn] Hpos.
  pose proof (lk_mid H1 h b m H2 Hh) as Hlk. simpl.
  assert (blockno (bufs (ca s) h) = b) as Hbn.
  { apply (handle_intro (ca s) h b); [apply Ha|]. destruct Ha as [_ [_ _ _ Hl]]. etrans; [apply Hl|done]. }
  assert (outside b) as Hbr by (apply (Hr (h, b, m)), elem_of_app; right; by left).
  apply runs_bind. eapply runs_done; [reflexivity|done|]. simpl. rewrite Hbn.
  eapply returns_mono; [eapply (log_write_abs _ d co _ _ L h b); simpl; try done; try lia|].
  { unfold rf. repeat case_decide; lia. }
  intros [] s' t (Hw & Hsz & Hd). split; [exact Hw|]. destruct s as [g c]. simpl in *.
  assert (∀ L' k', abs cache_ok (ca s') d co (rf L' (H1 ++ (h, b, m) :: H2)) (lk (H1 ++ (h, b, m) :: H2)) →
    in_tx (lg s') L' → (∀ x, x ∈ L' ↔ x = b ∨ x ∈ L) → Z.of_nat (length L') + k' = Z.of_nat (length L) + k → 0 ≤ k' →
    owns_at L' s' d co (H1 ++ (h, b, false) :: H2) k') as Hown.
  { intros L' k' Ha' Ht' HL' Hlen Hk'. split.
    - split_and!; try done; try lia.
      + eapply abs_ext; [exact Ha'|done|done| |]; intros y; [apply rf_mark|apply lk_mark].
      + intros b' HbL' Hd'. rewrite HL' in HbL'. apply Hc; [tauto|]. intros h' Hin.
        apply (Hd' h'). rewrite elem_of_app, elem_of_cons in *. naive_solver.
    - by rewrite (hblock_mark H1 h b m).
    - by rewrite !fmap_app in *.
    - intros y [Hy|[->|Hy]%elem_of_cons]%elem_of_app.
      + apply Hr, elem_of_app. by left.
      + done.
      + apply Hr, elem_of_app. right. by right.
    - rewrite !length_app in *. done. }
  case_decide as HbL; destruct Hd as [Ha' Ht'].
  - apply Hown; [done|done|set_solver|lia|lia].
  - apply Hown; [|done|set_solver|rewrite length_app; simpl; lia|lia].
    eapply abs_ext; [exact Ha'|done|done| |done]. intros x. unfold upd, rf.
    rewrite (decide_ext (x ∈ L ++ [b]) (x = b ∨ x ∈ L)) by set_solver.
    repeat case_decide; subst; try done; try lia; naive_solver.
Qed.

Lemma own_le L s d co H k k' : owns_at L s d co H k → 0 ≤ k' ≤ k → owns_at L s d co H k'.
Proof.
  intros [(Ha & Ht & Hc & Hk) Hb Hh Hr Hn] Hkk. split; try done. split_and!; try done; lia.
Qed.

(** ** Reserved blocks *)

Lemma pend_nonneg L R : 0 ≤ pend L R.
Proof. unfold pend. lia. Qed.

Lemma pend_cons L R b : pend L (b :: R) = (if decide (b ∈ L) then 0 else 1) + pend L R.
Proof.
  unfold pend. rewrite filter_cons. destruct (decide (b ∉ L)), (decide (b ∈ L)); simpl; try done; lia.
Qed.

Lemma pend_log L R b :
  pend (L ++ [b]) R ≤ pend L R ∧ (b ∉ L → b ∈ R → pend (L ++ [b]) R + 1 ≤ pend L R).
Proof.
  induction R as [|x R [IH1 IH2]]; [split; [done|by intros _ ?%elem_of_nil]|]. rewrite !pend_cons. split.
  - repeat case_decide; try lia; set_solver.
  - intros Hb [->|Hin]%elem_of_cons.
    + rewrite decide_True, decide_False by set_solver. lia.
    + specialize (IH2 Hb Hin). repeat case_decide; try lia; set_solver.
Qed.

#[global] Instance log_laws R : StoreLaws lst outside (log_owns R).
Proof.
  split.
  - intros s d co H k b (_ & L & [(Ha & _) _ _ _ _]). by eapply (abs_block ROOTDEV cache_ok).
  - intros s d co co' H k (Hk0 & L & [(Ha & Ht & Hc & Hk) Hb Hh Hr Hn]) Hco. split; [done|]. exists L. split; try done.
    split_and!; try apply Hk; try done; [by eapply abs_ext|]. intros b Hb1 Hb2. rewrite Hco. by apply Hc.
  - intros s d co H k k' (Hk0 & L & Ho) Hkk. split; [lia|]. exists L. pose proof (pend_nonneg L R). eapply own_le; [done|lia].
  - intros s d co H k b (Hk0 & L & Ho) Hb Hbn Hl. eapply runs_mono; [by apply (own_bread L)|].
    intros h s' [Ho' Hh]. split; [|done]. split; [done|]. by exists L.
  - intros s d co H k h b m (_ & L & Ho). by apply (own_rdata L s d co H (pend L R + k)).
  - intros s d co H1 H2 k h b m x (Hk0 & L & Ho) Hx. eapply runs_mono; [by eapply (own_wdata L)|].
    intros h' s' Ho'. split; [done|]. by exists L.
  - intros s d co H1 H2 k h b m (_ & L & Ho) Hk. pose proof (pend_nonneg L R).
    eapply runs_mono; [eapply (own_log_write L); [exact Ho|lia]|]. intros [] s' Ho'. split; [lia|]. case_decide.
    + exists L. eapply own_le; [exact Ho'|lia].
    + exists (L ++ [b]). destruct (pend_log L R b). pose proof (pend_nonneg (L ++ [b]) R). eapply own_le; [exact Ho'|lia].
  - intros s d co H1 H2 k h b (Hk0 & L & Ho). eapply runs_mono; [exact (own_brelse L s d co H1 H2 _ h b Ho)|].
    intros [] s' Ho'. split; [done|]. by exists L.
Qed.

#[global] Instance log_reserve : ReserveLaws lst outside log_owns.
Proof.
  split.
  - exact log_laws.
  - intros R s d co H k b (Hk0 & L & Ho) Hk. split; [lia|]. exists L. eapply own_le; [exact Ho|]. rewrite pend_cons.
    pose proof (pend_nonneg L R). case_decide; lia.
  - intros R s d co H k (Hk0 & L & Ho). split; [done|]. exists L. eapply own_le; [exact Ho|]. pose proof (pend_nonneg L R).
    change (pend L []) with 0. lia.
  - intros R s d co H1 H2 k h b m (Hk0 & L & Ho) Hin Hk. pose proof (pend_nonneg L R).
    eapply runs_mono; [eapply (own_log_write L); [exact Ho|lia]|]. intros [] s' Ho'. split; [lia|]. case_decide as HbL.
    + by exists L.
    + exists (L ++ [b]). destruct (pend_log L R b) as [_ Hp]. specialize (Hp HbL Hin). pose proof (pend_nonneg (L ++ [b]) R).
      eapply own_le; [exact Ho'|lia].
Qed.

(** ** Transactions *)

Hypotheses (Hst : 0 ≤ st) (Hsz : 2 ≤ sz) (Hend : st + sz ≤ 2 ^ 31).

(** No call is in progress, all blocks are clean and the log is empty. *)
Record quiet (s : lst) (d : disk) : Prop := {
  qu_abs : abs cache_ok (ca s) d d (λ _, 0) no_locks;
  qu_idle : idle_log (lg s);
  qu_dev : ldev (lg s) = ROOTDEV;
  qu_start : start (lg s) = st;
  qu_size : size (lg s) = sz;
  qu_head : head_n (d st) = 0
}.

(** The blocks that a call can log when it is alone. *)
Definition budget : Z := Z.min (LOGSIZE - 3) (sz - 1).

Lemma begin_owns s d :
  quiet s d → returns Log.begin_op s (λ _ s' t, writes t = [] ∧ log_owns [] s' d d [] budget).
Proof.
  intros [Ha (I1 & I2 & I3 & I4) Hd Hs Hz Hh]. unfold Log.begin_op, returns, mbind, M_bind. simpl.
  rewrite I2. simpl. rewrite I3, I4. if_false. simpl. split; [done|]. split; [unfold budget; lia|]. exists []. split.
  - unfold budget, pend. simpl. rewrite Hz. split_and!; unfold MAXHELD; try lia.
    + eapply abs_ext; [exact Ha|done|done|..]; intros x; done.
    + split; simpl; try done; [constructor|by intros b ?%elem_of_nil].
    + done.
  - constructor.
  - constructor.
  - by intros x ?%elem_of_nil.
  - simpl. unfold MAXHELD. lia.
Qed.

(** What a transaction leaves: the state is [quiet] again on a disk that reads
    as [co], and a crash after any of the writes [ws0] leaves the old blocks or
    the new ones. *)
Definition atomic (g : log) (d co : disk) (s' : lst) (ws0 : list (Z * block)) : Prop :=
  (∃ d', quiet s' d' ∧ ∀ b, outside b → d' b = co b) ∧
  ∀ ws g0 c0, ws `prefix_of` ws0 → rebooted ROOTDEV g g0 →
    abs cache_ok c0 (apply_writes d ws) (apply_writes d ws) (λ _, 0) no_locks →
    returns recover_from_log (Lst g0 c0) (λ _ s1 _,
      (∀ b, outside b → content (ca s1) b = d b) ∨ (∀ b, outside b → content (ca s1) b = co b)).

Lemma outside_home g b : start g = st → size g = sz → outside b → home g b.
Proof. unfold outside, home. intros -> ->. lia. Qed.

(** The state before the commit of a transaction that logged [L]. *)
Lemma owns_ready s d co k L :
  abs cache_ok (ca s) d co (rf L []) (lk []) → in_tx (lg s) L →
  Z.of_nat (length L) + k ≤ LOGSIZE → Z.of_nat (length L) + k ≤ size (lg s) - 1 → 0 ≤ k →
  Z.of_nat (length L) + k ≤ NBUF - Z.of_nat MAXHELD →
  ready ROOTDEV cache_ok (lg s) (ca s) L d co (rf L []).
Proof.
  intros Ha [T1 T2 T3 T4 Tc Td T5 T6 T7 T8] H1 H2 H3 H4. split; try done; try lia.
  - split; rewrite ?T7, ?T8; try lia.
    + intros i b Hi. simpl. rewrite <-T3 in Hi. by apply lookup_take_Some in Hi as [? _].
    + intros b Hb. apply T6 in Hb. unfold outside in Hb. lia.
  - split; [intros b; unfold rf; simpl; repeat case_decide; lia|]. split.
    + exists L. split; [|unfold MAXHELD in H4; lia]. intros b. unfold rf. simpl. repeat case_decide; try done; set_solver.
    + intros b Hb. unfold rf. rewrite decide_True by done. case_decide; lia.
Qed.

(** [end_op] of the only call in progress commits. *)
Lemma end_op_run s L (Q : lst → list (Z * block) → Prop) :
  in_tx (lg s) L →
  returns commit (Lst (set_committing 1 (set_outstanding 0 (lg s))) (ca s)) (λ _ s' t,
    Q (Lst (set_committing 0 (lg s')) (ca s')) (writes t)) →
  returns Log.end_op s (λ _ s' t, Q s' (writes t)).
Proof.
  intros [T1 T2 T3 T4 Tc Td T5 T6 T7 T8] Hc. unfold Log.end_op. do 3 call reflexivity. rewrite Tc, T4.
  change (truthy 0) with false. cbv iota zeta. if_true. call reflexivity. call reflexivity.
  apply returns_bind. eapply returns_mono; [exact Hc|]. intros [] s' t HQ. do 3 call reflexivity. step_over.
  rewrite !writes_app. simpl. rewrite app_nil_r. exact HQ.
Qed.

Lemma ready_flags g c L d co r a b :
  ready ROOTDEV cache_ok g c L d co r → ready ROOTDEV cache_ok (set_committing a (set_outstanding b g)) c L d co r.
Proof. intros [H1 H2 H3 H4 [E1 E2 E3 E4 E5 E6] H6 H7 H8]. split; try done. Qed.

(** A transaction that logged nothing. *)
Lemma commit_nothing g c d co :
  abs cache_ok c d co (λ _, 0) no_locks → in_tx g [] → (∀ b, co b = d b) → head_n (d st) = 0 →
  atomic g d co (Lst (set_committing 0 (set_committing 1 (set_outstanding 0 g))) c) [].
Proof using Hst Hsz Hend.
  intros Ha [T1 T2 T3 T4 Tc Td T5 T6 T7 T8] Hco Hh. split.
  - exists d. split; [|done]. split; simpl; try done.
    eapply abs_ext; [exact Ha|done| |done|done]. intros b. by rewrite Hco.
  - intros ws g0 c0 ->%prefix_nil_inv (R1 & R2 & R3 & R4) Ha0. simpl in Ha0.
    eapply returns_mono; [apply (recover_run ROOTDEV cache_ok g0 c0 d)|].
    + split; rewrite ?R1, ?R2, ?T7, ?T8, ?Hh; try done; try lia; unfold disk_blocks; rewrite Hh.
      * constructor.
      * by intros b ?%elem_of_nil.
    + intros _ s1 t1 [_ [_ [_ Hc _ _]]]. left. intros b Hb. rewrite Hc.
      apply (recovered_empty g0); rewrite ?R1, ?T7, ?R2, ?T8; [done|lia|].
      apply outside_home; [by rewrite R1, T7|by rewrite R2, T8|done].
Qed.

(** A transaction that logged [L]. *)
Lemma commit_logged g c L d co k :
  L ≠ [] → abs cache_ok c d co (rf L []) (lk []) → in_tx g L → (∀ b, b ∉ L → co b = d b) → head_n (d st) = 0 →
  Z.of_nat (length L) + k ≤ LOGSIZE → Z.of_nat (length L) + k ≤ size g - 1 → 0 ≤ k →
  Z.of_nat (length L) + k ≤ NBUF - Z.of_nat MAXHELD →
  returns commit (Lst (set_committing 1 (set_outstanding 0 g)) c) (λ _ s' t,
    atomic g d co (Lst (set_committing 0 (lg s')) (ca s')) (writes t)).
Proof using Hst Hsz Hend.
  intros HL Ha Ht Hco Hh H1 H2 H3 H4. pose proof (owns_ready (Lst g c) d co k L Ha Ht H1 H2 H3 H4) as Hr0.
  pose proof (ready_flags g c L d co _ 1 0 Hr0) as Hr. simpl in Hr0. destruct Ht as [T1 T2 T3 T4 Tc Td T5 T6 T7 T8].
  rewrite <-T7 in Hh. eapply returns_mono; [by apply (commit_run ROOTDEV cache_ok _ c L d co (rf L []))|].
  intros [] s' t (c' & -> & Hw & Ha'). simpl lg. simpl ca. rewrite Hw. simpl start.
  set (W := commit_writes (start g) L co) in *.
  destruct (commit_final ROOTDEV cache_ok g c L d co _ Hr0) as [Hn Hf]. fold W in Hn, Hf.
  assert (∀ b, outside b → apply_writes d W b = co b) as Hnew.
  { intros b Hb. rewrite Hf by (by apply outside_home). rewrite apply_home by done.
    case_decide; [done|]. by rewrite Hco. }
  split.
  - exists (apply_writes d W). split; [|done]. split; simpl; try done; [|by rewrite <-T7].
    eapply abs_ext; [exact Ha'|done| | |done].
    + intros b. apply apply_writes_agree. intros b' Hb'. symmetry. apply Hco. intros HbL.
      apply Hb'. unfold W, commit_writes. rewrite !fmap_app, !elem_of_app, home_writes_fst. auto.
    + intros b. unfold unpin, rf. simpl. repeat case_decide; try done; set_solver.
  - intros ws g0 c0 Hws Hreb Ha0. eapply returns_mono.
    + apply (crash_recovers ROOTDEV cache_ok g c L d co _ ws g0 c0 Hr0 Hh); [|exact Hws|exact Hreb|exact Ha0].
      intros b _ Hb. by apply Hco.
    + intros _ s1 t1 [Ho|Ho]; [left|right]; intros b Hb; apply Ho; by apply outside_home.
Qed.

Lemma end_owns s d co k :
  log_owns [] s d co [] k → head_n (d st) = 0 →
  returns Log.end_op s (λ _ s' t, atomic (lg s) d co s' (writes t)).
Proof using Hst Hsz Hend.
  intros (_ & L & [(Ha & Ht & Hco & Hk & Hk1 & Hk2 & Hk3) _ _ _ _]) Hh.
  apply (end_op_run s L _ Ht). destruct (decide (L = [])) as [->|HL].
  - eapply returns_done; [unfold commit, mbind, M_bind; simpl; rewrite (it_n _ _ Ht); reflexivity|].
    apply commit_nothing; [|done| |done].
    + eapply abs_ext; [exact Ha|done|done|..]; intros b; done.
    + intros b. apply Hco; [apply not_elem_of_nil|intros h; apply not_elem_of_nil].
  - destruct s as [g c]. apply (commit_logged g c L d co k); try done.
    intros b Hb. apply Hco; [done|intros h; apply not_elem_of_nil].
Qed.

(** C12: A file system call that is alone between [begin_op] and [end_op] and
    uses the buffers as [StoreLaws] allows is a transaction: the blocks read as
    it left them, the log is empty again, and after a crash at any of the disk
    writes of the call [recover_from_log] restores all the blocks as they were
    before the call, or all as it left them. *)
Theorem transaction_atomic {A} (m : M lst A) (Q : A → disk → Prop) s d :
  quiet s d →
  (∀ s1, log_owns [] s1 d d [] budget → runs m s1 (λ a s2, ∃ co k, log_owns [] s2 d co [] k ∧ Q a co)) →
  returns (Log.begin_op;; a ← m; Log.end_op;; mret a) s (λ a s' t, ∃ co, Q a co ∧ atomic (lg s) d co s' (writes t)).
Proof using Hst Hsz Hend.
  intros Hq Hm. apply returns_bind. eapply returns_mono; [by apply begin_owns|]. intros [] s1 t1 [Hw1 Ho].
  apply returns_bind. eapply returns_mono; [by apply Hm|]. intros a s2 t2 [Hw2 (co & k & Ho2 & HQ)].
  apply returns_bind. eapply returns_mono; [apply (end_owns s2 d co k Ho2), (qu_head _ _ Hq)|]. intros [] s3 t3 [H1 H2].
  apply returns_ret. exists co. split; [done|]. rewrite !writes_app, Hw1, Hw2. simpl. rewrite app_nil_r.
  split; [done|]. intros ws g0 c0 Hws Hreb. apply H2; [done|]. destruct Ho2 as (_ & L & [(_ & Ht & _) _ _ _ _]).
  destruct Hreb as (R1 & R2 & R3). split_and!; try apply R3.
  - rewrite R1, (qu_start _ _ Hq). symmetry. apply Ht.
  - rewrite R2, (qu_size _ _ Hq). symmetry. apply Ht.
Qed.
End owns.

#[local] Opaque fresh.

Lemma boot_quiet : quiet 2 31 (Lst (boot_log 31) (fresh empty_disk)) empty_disk.
Proof.
  split; cbn [lg ca]; [exact (fresh_abs empty_disk empty_disk_ok)|..]; vm_compute; try reflexivity. by split_and!.
Qed.

Lemma transaction_atomic_witness :
  quiet 2 31 (Lst (boot_log 31) (fresh empty_disk)) empty_disk ∧
  returns (Log.begin_op;; a ← (h ← Tx.bread ROOTDEV 100; Tx.wdata h x_block;; Tx.log_write h;; Tx.brelse h); Log.end_op;; mret a)
    (Lst (boot_log 31) (fresh empty_disk)) (λ _ s' t, ∃ co, co 100 = x_block ∧
      atomic 2 31 (boot_log 31) empty_disk co s' (writes t)).
Proof.
  split; [exact boot_quiet|].
  apply (transaction_atomic 2 31 ltac:(lia) ltac:(lia) ltac:(lia) (h ← Tx.bread ROOTDEV 100; Tx.wdata h x_block;; Tx.log_write h;; Tx.brelse h)
    (λ _ co, co 100 = x_block) _ _ boot_quiet).
  intros s1 Ho. rcall (Tx.bread_law (vb := outside 2 31)); [exact Ho|unfold outside; lia|apply not_elem_of_nil|simpl; unfold MAXHELD; lia|].
  intros h s2 [Ho2 _]. rcall (wdata_law (vb := outside 2 31) s2 empty_disk empty_disk []); [exact Ho2|exact x_block_ok|].
  intros [] s3 Ho3. rcall (Tx.log_write_law (vb := outside 2 31) s3 empty_disk _ []); [exact Ho3|vm_compute; reflexivity|].
  intros [] s4 Ho4. eapply runs_mono; [eapply (Tx.brelse_law (vb := outside 2 31) s4 empty_disk _ []); exact Ho4|].
  intros [] s5 Ho5. eexists _, _. split; [exact Ho5|]. apply upd_eq.
Defined.
