(* ===== verification/Fs.v ===== *)
(** * The file system, [kernel/fs.c]

    The code of the layers above the log: block allocation, inodes, file
    contents, directories and path names.  It runs on any [Store] (TxLog gives
    the one of the kernel) and on any user memory.  Inodes are numbered by
    their place in [itable]; [NULL] is the null pointer. *)

From S2P Require Import Prelude Riscv Memory Locks Disk Tx.
Import Sleeplock.

(** ** [kernel/fs.h], [kernel/file.h], [kernel/stat.h] *)

Definition ROOTINO : Z := 1.
Definition FSMAGIC : Z := 0x10203040.
Definition NDIRECT : Z := 12.
Definition NINDIRECT : Z := BSIZE / 4.
Definition MAXFILE : Z := NDIRECT + NINDIRECT.
Definition DINODE_SIZE : Z := 64.
Definition IPB : Z := BSIZE / DINODE_SIZE.
Definition BPB : Z := BSIZE * 8.
Definition DIRSIZ : Z := 14.
Definition DIRENT_SIZE : Z := 16.

Definition T_DIR : Z := 1.
Definition T_FILE : Z := 2.
Definition T_DEVICE : Z := 3.

Record superblock : Type := Sb {
  magic : Z;
  size : Z;
  nblocks : Z;
  ninodes : Z;
  nlog : Z;
  logstart : Z;
  inodestart : Z;
  bmapstart : Z
}.

Definition IBLOCK (i : Z) (sb : superblock) : Z := u32 (i / IPB + inodestart sb).
Definition BBLOCK (b : Z) (sb : superblock) : Z := u32 (b / BPB + bmapstart sb).

(** [struct dinode]; [addrs] has [NDIRECT + 1] entries. *)
Record dinode : Type := Dinode {
  type : Z;
  major : Z;
  minor : Z;
  nlink : Z;
  dsize : Z;
  addrs : list Z
}.

(** [struct inode]: [din] is the copy of the disk inode. *)
Record inode : Type := Inode {
  dev : Z;
  inum : Z;
  ref : Z;
  lock : sleeplock;
  valid : Z;
  din : dinode
}.

Definition set_ref r i := Inode (dev i) (inum i) r (lock i) (valid i) (din i).
Definition set_lock l i := Inode (dev i) (inum i) (ref i) l (valid i) (din i).
Definition set_valid v i := Inode (dev i) (inum i) (ref i) (lock i) v (din i).
Definition set_din d i := Inode (dev i) (inum i) (ref i) (lock i) (valid i) d.
Definition set_type t d := Dinode t (major d) (minor d) (nlink d) (dsize d) (addrs d).
Definition set_nlink n d := Dinode (type d) (major d) (minor d) n (dsize d) (addrs d).
Definition set_dev_nums mj mn d := Dinode (type d) mj mn (nlink d) (dsize d) (addrs d).
Definition set_dsize n d := Dinode (type d) (major d) (minor d) (nlink d) n (addrs d).
Definition set_addr k a d := Dinode (type d) (major d) (minor d) (nlink d) (dsize d) (<[Z.to_nat k := a]> (addrs d)).

(** ** Structures in blocks *)

Fixpoint words (x : list Z) (off : Z) (n : nat) : list Z :=
  match n with
  | O => []
  | S n => get32 x off :: words x (off + 4) n
  end.

Definition get_dinode (x : block) (off : Z) : dinode :=
  Dinode (s16 (get16 x off)) (s16 (get16 x (off + 2))) (s16 (get16 x (off + 4))) (s16 (get16 x (off + 6)))
    (get32 x (off + 8)) (words x (off + 12) 13).

Definition put_words (x : list Z) (off : Z) (l : list Z) : list Z := put_at x off (mjoin (le_bytes 4 <$> l)).

Definition put_dinode (x : block) (off : Z) (d : dinode) : block :=
  let x := put16 x off (type d) in
  let x := put16 x (off + 2) (major d) in
  let x := put16 x (off + 4) (minor d) in
  let x := put16 x (off + 6) (nlink d) in
  let x := put32 x (off + 8) (dsize d) in
  put_words x (off + 12) (addrs d).

(** The offset of inode [i] in its block. *)
Definition ioff (i : Z) : Z := i mod IPB * DINODE_SIZE.

Definition get_superblock (x : block) : superblock :=
  Sb (get32 x 0) (get32 x 4) (get32 x 8) (get32 x 12) (get32 x 16) (get32 x 20) (get32 x 24) (get32 x 28).

(** ** The state *)

Definition NULL : Z := -1.

(** The memory of the process that runs: [copyout] and [copyin] of
    [kernel/vm.c] on its page table.  [copyin] gives the bytes it stored,
    fewer than asked for when it fails. *)
Class UserMem (U : Type) : Type := {
  copyout : Z → list Z → M U Z;
  copyin : Z → nat → M U (list Z * Z)
}.

(** Where [readi] copies to and [writei] from: a kernel buffer, which
    [writei] finds with its contents, or a user address. *)
Inductive place : Type := Kernel (bytes : list Z) | User (va : Z).

Section code.
  Context {T U : Type} `{Store T} `{UserMem U}.

(** [me] is the [pid] and [cwd] the current directory of the process that runs. *)
Record fst : Type := Fst {
  sb : superblock;
  itable : Z → inode;
  me : Z;
  cwd : Z;
  store : T;
  umem : U
}.

Definition set_sb x s := Fst x (itable s) (me s) (cwd s) (store s) (umem s).
Definition set_itable x s := Fst (sb s) x (me s) (cwd s) (store s) (umem s).
Definition set_cwd x s := Fst (sb s) (itable s) (me s) x (store s) (umem s).
Definition set_store x s := Fst (sb s) (itable s) (me s) (cwd s) x (umem s).
Definition set_umem x s := Fst (sb s) (itable s) (me s) (cwd s) (store s) x.

Definition in_store {A} (m : M T A) : M fst A := zoom (Lens store set_store) m.
Definition in_umem {A} (m : M U A) : M fst A := zoom (Lens umem set_umem) m.
Definition with_ip (ip : Z) (f : inode → inode) : M fst unit :=
  modify (λ s, set_itable (upd (itable s) ip (f (itable s ip))) s).
Definition with_din (ip : Z) (f : dinode → dinode) : M fst unit :=
  with_ip ip (λ i, set_din (f (din i)) i).
Definition fld {A} (f : inode → A) (ip : Z) : M fst A := gets (λ s, f (itable s ip)).

(** The sleep lock of an inode; sleep locks of buffers have smaller numbers. *)
Definition ilock_of (ip : Z) : lens fst sleeplock :=
  Lens (λ s, lock (itable s ip))
       (λ l s, set_itable (upd (itable s) ip (set_lock l (itable s ip))) s).
Definition ilock_id (ip : Z) : Z := NBUF + ip.

(** ** Blocks *)

Definition readsb (dev : Z) : M fst unit :=
  bp ← in_store (bread dev 1);
  x ← in_store (rdata bp);
  modify (set_sb (get_superblock x));;
  in_store (brelse bp).

Definition fsinit (dev : Z) : M fst unit :=
  readsb dev;;
  sb ← gets sb;
  if negb (magic sb =? FSMAGIC) then panic "invalid file system"
  else in_store (initlog dev (s32 (logstart sb)) (s32 (nlog sb))).

Definition bzero (dev bno : Z) : M fst unit :=
  bp ← in_store (bread dev bno);
  in_store (wdata bp zero_block);;
  in_store (log_write bp);;
  in_store (brelse bp).

(** [(data[bi/8] & (1 << (bi % 8))) == 0] *)
Definition bit_free (x : block) (bi : Z) : bool :=
  Z.land (get8 x (bi / 8)) (Z.shiftl 1 (bi mod 8)) =? 0.
Definition set_bit (x : block) (bi : Z) : block :=
  put8 x (bi / 8) (Z.lor (get8 x (bi / 8)) (Z.shiftl 1 (bi mod 8))).
Definition clear_bit (x : block) (bi : Z) : block :=
  put8 x (bi / 8) (Z.land (get8 x (bi / 8)) (Z.lnot (Z.shiftl 1 (bi mod 8)))).

(** The inner loop of [balloc]: the first free bit from [bi] on. *)
Fixpoint find_free (x : block) (size b : Z) (k : nat) (bi : Z) : option Z :=
  match k with
  | O => None
  | S k =>
      if b + bi <? size then
        if bit_free x bi then Some bi else find_free x size b k (bi + 1)
      else None
  end.

(** [b] is an [int]: the loop counts on it not to overflow. *)
Fixpoint balloc_loop (fuel : nat) (dev b : Z) : M fst Z :=
  match fuel with
  | O => nofuel
  | S fuel =>
      sb ← gets sb;
      if b <? size sb then
        bp ← in_store (bread dev (BBLOCK b sb));
        x ← in_store (rdata bp);
        match find_free x (size sb) b (Z.to_nat BPB) 0 with
        | Some bi =>
            in_store (wdata bp (set_bit x bi));;
            in_store (log_write bp);;
            in_store (brelse bp);;
            bzero dev (b + bi);;
            mret (b + bi)
        | None =>
            in_store (brelse bp);;
            if b + BPB <? 2 ^ 31 then balloc_loop fuel dev (b + BPB) else undef "int overflow"
        end
      else
        emit (EvMessage "balloc: out of blocks");;
        mret 0
  end.

Definition balloc (dev : Z) : M fst Z :=
  sb ← gets sb;
  balloc_loop (S (Z.to_nat (size sb / BPB + 1))) dev 0.

Definition bfree (dev b : Z) : M fst unit :=
  sb ← gets sb;
  bp ← in_store (bread dev (BBLOCK b sb));
  x ← in_store (rdata bp);
  let bi := b mod BPB in
  if bit_free x bi then panic "freeing free block"
  else
    in_store (wdata bp (clear_bit x bi));;
    in_store (log_write bp);;
    in_store (brelse bp).

(** ** Inodes *)

Fixpoint iinit_loop (k : nat) (i : Z) : M fst unit :=
  match k with
  | O => mret tt
  | S k => zoom (ilock_of i) (initsleeplock (ilock_id i));; iinit_loop k (i + 1)
  end.

Definition iinit : M fst unit :=
  initlock LkItable;;
  iinit_loop (Z.to_nat NINODE) 0.

(** The loop of [iget]: the entry of the inode, or the first empty one. *)
Fixpoint iget_scan (tbl : Z → inode) (d n : Z) (k : nat) (ip empty : Z) : Z * Z :=
  match k with
  | O => (NULL, empty)
  | S k =>
      if (ref (tbl ip) >? 0) && (dev (tbl ip) =? d) && (inum (tbl ip) =? n) then (ip, empty)
      else iget_scan tbl d n k (ip + 1)
             (if (empty =? NULL) && (ref (tbl ip) =? 0) then ip else empty)
  end.

Definition iget (d n : Z) : M fst Z :=
  acquire LkItable;;
  tbl ← gets itable;
  let '(ip, empty) := iget_scan tbl d n (Z.to_nat NINODE) 0 NULL in
  if negb (ip =? NULL) then
    with_ip ip (λ i, set_ref (ref i + 1) i);;
    release LkItable;;
    mret ip
  else if empty =? NULL then panic "iget: no inodes"
  else
    with_ip empty (λ i, Inode d n 1 (lock i) 0 (din i));;
    release LkItable;;
    mret empty.

(** [ref] counts up without a bound; the [int] of the source overflows after
    2^31 references, each of which a file, a process or a call holds. *)
Definition idup (ip : Z) : M fst Z :=
  acquire LkItable;;
  with_ip ip (λ i, set_ref (ref i + 1) i);;
  release LkItable;;
  mret ip.

(** [k] inodes are left. *)
Fixpoint ialloc_loop (k : nat) (dev ty n : Z) : M fst Z :=
  match k with
  | O => emit (EvMessage "ialloc: no inodes");; mret NULL
  | S k =>
      sb ← gets sb;
      bp ← in_store (bread dev (IBLOCK n sb));
      x ← in_store (rdata bp);
      if s16 (get16 x (ioff n)) =? 0 then
        in_store (wdata bp (put16 (put_at x (ioff n) (replicate (Z.to_nat DINODE_SIZE) 0)) (ioff n) ty));;
        in_store (log_write bp);;
        in_store (brelse bp);;
        iget dev n
      else
        in_store (brelse bp);;
        ialloc_loop k dev ty (n + 1)
  end.

Definition ialloc (dev ty : Z) : M fst Z :=
  sb ← gets sb;
  ialloc_loop (Z.to_nat (ninodes sb - 1)) dev ty 1.

Definition iupdate (ip : Z) : M fst unit :=
  sb ← gets sb;
  i ← fld id ip;
  bp ← in_store (bread (dev i) (IBLOCK (inum i) sb));
  x ← in_store (rdata bp);
  in_store (wdata bp (put_dinode x (ioff (inum i)) (din i)));;
  in_store (log_write bp);;
  in_store (brelse bp).

Definition ilock (ip : Z) : M fst unit :=
  r ← fld ref ip;
  if (ip =? NULL) || (r <? 1) then panic "ilock" else
  p ← gets me;
  zoom (ilock_of ip) (acquiresleep (ilock_id ip) p);;
  v ← fld valid ip;
  if v =? 0 then
    sb ← gets sb;
    i ← fld id ip;
    bp ← in_store (bread (dev i) (IBLOCK (inum i) sb));
    x ← in_store (rdata bp);
    with_ip ip (set_din (get_dinode x (ioff (inum i))));;
    in_store (brelse bp);;
    with_ip ip (set_valid 1);;
    t ← fld (λ i, type (din i)) ip;
    if t =? 0 then panic "ilock: no type" else mret tt
  else mret tt.

Definition iunlock (ip : Z) : M fst unit :=
  p ← gets me;
  h ← (if ip =? NULL then mret false else zoom (ilock_of ip) (holdingsleep (ilock_id ip) p));
  r ← fld ref ip;
  if (ip =? NULL) || negb h || (r <? 1) then panic "iunlock"
  else zoom (ilock_of ip) (releasesleep (ilock_id ip)).

(** ** Contents *)

Definition addr_at (i : inode) (k : Z) : Z := addrs (din i) !!! Z.to_nat k.

(** [if((addr = ip->addrs[k]) == 0) { addr = balloc(..); if(addr == 0) return 0; ip->addrs[k] = addr; }] *)
Definition addr_or_alloc (ip k : Z) : M fst Z :=
  i ← fld id ip;
  if addr_at i k =? 0 then
    addr ← balloc (dev i);
    if addr =? 0 then mret 0
    else with_din ip (set_addr k addr);; mret addr
  else mret (addr_at i k).

Definition bmap (ip bn : Z) : M fst Z :=
  if bn <? NDIRECT then addr_or_alloc ip bn
  else
    let bn := bn - NDIRECT in
    if bn <? NINDIRECT then
      ind ← addr_or_alloc ip NDIRECT;
      if ind =? 0 then mret 0 else
      i ← fld id ip;
      bp ← in_store (bread (dev i) ind);
      x ← in_store (rdata bp);
      addr ← (if get32 x (4 * bn) =? 0 then
                addr ← balloc (dev i);
                (if truthy addr then
                   in_store (wdata bp (put32 x (4 * bn) addr));;
                   in_store (log_write bp)
                 else mret tt);;
                mret addr
              else mret (get32 x (4 * bn)));
      in_store (brelse bp);;
      mret addr
    else panic "bmap: out of range".

(** The direct blocks from [i] on. *)
Fixpoint itrunc_direct (k : nat) (ip i : Z) : M fst unit :=
  match k with
  | O => mret tt
  | S k =>
      v ← fld id ip;
      (if truthy (addr_at v i) then
         bfree (dev v) (addr_at v i);;
         with_din ip (set_addr i 0)
       else mret tt);;
      itrunc_direct k ip (i + 1)
  end.

(** The entries of the indirect block [x] from [j] on. *)
Fixpoint itrunc_indirect (k : nat) (dev : Z) (x : block) (j : Z) : M fst unit :=
  match k with
  | O => mret tt
  | S k =>
      (if truthy (get32 x (4 * j)) then bfree dev (get32 x (4 * j)) else mret tt);;
      itrunc_indirect k dev x (j + 1)
  end.

Definition itrunc (ip : Z) : M fst unit :=
  itrunc_direct (Z.to_nat NDIRECT) ip 0;;
  i ← fld id ip;
  (if truthy (addr_at i NDIRECT) then
     bp ← in_store (bread (dev i) (addr_at i NDIRECT));
     x ← in_store (rdata bp);
     itrunc_indirect (Z.to_nat NINDIRECT) (dev i) x 0;;
     in_store (brelse bp);;
     bfree (dev i) (addr_at i NDIRECT);;
     with_din ip (set_addr NDIRECT 0)
   else mret tt);;
  with_din ip (set_dsize 0);;
  iupdate ip.

Definition iput (ip : Z) : M fst unit :=
  acquire LkItable;;
  i ← fld id ip;
  (if (ref i =? 1) && truthy (valid i) && (nlink (din i) =? 0) then
     p ← gets me;
     zoom (ilock_of ip) (acquiresleep (ilock_id ip) p);;
     release LkItable;;
     itrunc ip;;
     with_din ip (set_type 0);;
     iupdate ip;;
     with_ip ip (set_valid 0);;
     zoom (ilock_of ip) (releasesleep (ilock_id ip));;
     acquire LkItable
   else mret tt);;
  with_ip ip (λ i, set_ref (ref i - 1) i);;
  release LkItable.

Definition iunlockput (ip : Z) : M fst unit := iunlock ip;; iput ip.

(** [struct stat] *)
Record stat : Type := Stat { st_dev : Z; st_ino : Z; st_type : Z; st_nlink : Z; st_size : Z }.

Definition stati (ip : Z) : M fst stat :=
  i ← fld id ip;
  mret (Stat (s32 (dev i)) (inum i) (type (din i)) (nlink (din i)) (dsize (din i))).

(** [either_copyout] and [either_copyin] of [kernel/proc.c], [tot] bytes into
    the place; the bytes for a kernel buffer are the result of [readi]. *)
Definition either_copyout (dst : place) (tot : Z) (bytes : list Z) : M fst Z :=
  match dst with
  | Kernel _ => mret 0
  | User va => in_umem (copyout (u64 (va + tot)) bytes)
  end.
Definition either_copyin (src : place) (tot : Z) (n : nat) : M fst (list Z * Z) :=
  match src with
  | Kernel bytes => mret (get_at bytes tot n, 0)
  | User va => in_umem (copyin (u64 (va + tot)) n)
  end.

(** The loop of [readi]; [acc] are the bytes that were copied.  Every round
    but the last copies a byte or more. *)
Fixpoint readi_loop (fuel : nat) (ip : Z) (dst : place) (off n tot : Z) (acc : list Z) : M fst (Z * list Z) :=
  match fuel with
  | O => nofuel
  | S fuel =>
      if tot <? n then
        addr ← bmap ip (off / BSIZE);
        if addr =? 0 then mret (tot, acc) else
        d ← fld dev ip;
        bp ← in_store (bread d addr);
        let m := Z.min (n - tot) (BSIZE - off mod BSIZE) in
        x ← in_store (rdata bp);
        let bytes := get_at x (off mod BSIZE) (Z.to_nat m) in
        r ← either_copyout dst tot bytes;
        if r =? -1 then
          in_store (brelse bp);;
          mret (-1, acc)
        else
          in_store (brelse bp);;
          readi_loop fuel ip dst (u32 (off + m)) n (tot + m) (acc ++ bytes)
      else mret (tot, acc)
  end.

Definition readi (ip : Z) (dst : place) (off n : Z) : M fst (Z * list Z) :=
  i ← fld id ip;
  let sz := dsize (din i) in
  if (off >? sz) || (u32 (off + n) <? off) then mret (0, [])
  else
    let n := if u32 (off + n) >? sz then sz - off else n in
    readi_loop (S (Z.to_nat n)) ip dst off n 0 [].

(** The loop of [writei], with the final values of [tot] and [off].  When
    [either_copyin] fails the bytes it had stored stay in the buffer. *)
Fixpoint writei_loop (fuel : nat) (ip : Z) (src : place) (off n tot : Z) : M fst (Z * Z) :=
  match fuel with
  | O => nofuel
  | S fuel =>
      if tot <? n then
        addr ← bmap ip (off / BSIZE);
        if addr =? 0 then mret (tot, off) else
        d ← fld dev ip;
        bp ← in_store (bread d addr);
        let m := Z.min (n - tot) (BSIZE - off mod BSIZE) in
        x ← in_store (rdata bp);
        '(bytes, r) ← either_copyin src tot (Z.to_nat m);
        in_store (wdata bp (put_at x (off mod BSIZE) bytes));;
        if r =? -1 then
          in_store (brelse bp);;
          mret (tot, off)
        else
          in_store (log_write bp);;
          in_store (brelse bp);;
          writei_loop fuel ip src (u32 (off + m)) n (tot + m)
      else mret (tot, off)
  end.

Definition writei (ip : Z) (src : place) (off n : Z) : M fst Z :=
  i ← fld id ip;
  if (off >? dsize (din i)) || (u32 (off + n) <? off) then mret (-1)
  else if u32 (off + n) >? MAXFILE * BSIZE then mret (-1)
  else
    '(tot, off) ← writei_loop (S (Z.to_nat n)) ip src off n 0;
    i ← fld id ip;
    (if off >? dsize (din i) then with_din ip (set_dsize off) else mret tt);;
    iupdate ip;;
    mret (s32 tot).

(** ** Directories *)

(** A [char *] is the list of bytes from where it points. *)
Definition namecmp (s t : list Z) : M fst Z :=
  match strncmp s t (Z.to_nat DIRSIZ) with
  | Some r => mret r
  | None => undef "namecmp reads past its arguments"
  end.

(** [struct dirent] *)
Definition de_inum (de : list Z) : Z := get16 de 0.
Definition de_name (de : list Z) : list Z := drop 2 de.

(** Reads the entry at [off], or panics. *)
Definition read_dirent (msg : string) (dp off : Z) : M fst (list Z) :=
  '(r, de) ← readi dp (Kernel []) off DIRENT_SIZE;
  if negb (r =? DIRENT_SIZE) then panic msg else mret de.

(** The offset found is the one that [poff] gets. *)
Fixpoint dirlookup_loop (fuel : nat) (dp : Z) (name : list Z) (off : Z) : M fst (Z * Z) :=
  match fuel with
  | O => nofuel
  | S fuel =>
      d ← fld id dp;
      if off <? dsize (din d) then
        de ← read_dirent "dirlookup read" dp off;
        if de_inum de =? 0 then dirlookup_loop fuel dp name (u32 (off + DIRENT_SIZE))
        else
          c ← namecmp name (de_name de);
          if c =? 0 then
            ip ← iget (dev d) (de_inum de);
            mret (ip, off)
          else dirlookup_loop fuel dp name (u32 (off + DIRENT_SIZE))
      else mret (NULL, 0)
  end.

Definition dirlookup (dp : Z) (name : list Z) : M fst (Z * Z) :=
  d ← fld din dp;
  if negb (type d =? T_DIR) then panic "dirlookup not DIR"
  else dirlookup_loop (S (Z.to_nat (dsize d / DIRENT_SIZE + 1))) dp name 0.

(** The second loop of [dirlink]: the offset of an empty entry, or the end. *)
Fixpoint dirlink_loop (fuel : nat) (dp off : Z) : M fst Z :=
  match fuel with
  | O => nofuel
  | S fuel =>
      d ← fld id dp;
      if off <? dsize (din d) then
        de ← read_dirent "dirlink read" dp off;
        if de_inum de =? 0 then mret off
        else if off + DIRENT_SIZE <? 2 ^ 31 then dirlink_loop fuel dp (off + DIRENT_SIZE) else undef "int overflow"
      else mret off
  end.

Definition dirlink (dp : Z) (name : list Z) (n : Z) : M fst Z :=
  '(ip, _) ← dirlookup dp name;
  if negb (ip =? NULL) then iput ip;; mret (-1)
  else
    d ← fld din dp;
    off ← dirlink_loop (S (Z.to_nat (dsize d / DIRENT_SIZE + 1))) dp 0;
    match strncpy name (Z.to_nat DIRSIZ) with
    | None => undef "strncpy reads past its argument"
    | Some nm =>
        r ← writei dp (Kernel (le_bytes 2 n ++ nm)) off DIRENT_SIZE;
        if negb (r =? DIRENT_SIZE) then mret (-1) else mret 0
    end.
End code.

(** ** Path names

    A path is the list of its bytes before the NUL; [47] is a slash. *)

Fixpoint skip_slashes (path : list Z) : list Z :=
  match path with
  | c :: path' => if c =? 47 then skip_slashes path' else path
  | [] => []
  end.

(** The bytes before the next slash, and the rest. *)
Fixpoint take_elem (path : list Z) : list Z * list Z :=
  match path with
  | c :: path' =>
      if c =? 47 then ([], path) else let '(e, r) := take_elem path' in (c :: e, r)
  | [] => ([], [])
  end.

(** [name] is the buffer of [DIRSIZ] bytes; [None] is the null pointer. *)
Definition skipelem (path name : list Z) : option (list Z * list Z) :=
  let path := skip_slashes path in
  match path with
  | [] => None
  | _ =>
      let '(s, rest) := take_elem path in
      let len := Z.of_nat (length s) in
      let name :=
        if len >=? DIRSIZ then put_at name 0 (take (Z.to_nat DIRSIZ) s)
        else put_at (put_at name 0 s) len [0] in
      Some (skip_slashes rest, name)
  end.

Section names.
  Context {T U : Type} `{Store T} `{UserMem U}.

(** The loop of [namex] from the inode [ip], with the buffer [name]. *)
Fixpoint namex_loop (fuel : nat) (ip : Z) (path : list Z) (parent : bool) (name : list Z) : M (fst (T:=T) (U:=U)) (Z * list Z) :=
  match fuel with
  | O => nofuel
  | S fuel =>
      match skipelem path name with
      | Some (path, name) =>
          ilock ip;;
          t ← fld (λ i, type (din i)) ip;
          if negb (t =? T_DIR) then iunlockput ip;; mret (NULL, name)
          else if parent && (match path with [] => true | _ => false end) then
            iunlock ip;;
            mret (ip, name)
          else
            '(next, _) ← dirlookup ip name;
            if next =? NULL then iunlockput ip;; mret (NULL, name)
            else
              iunlockput ip;;
              namex_loop fuel next path parent name
      | None =>
          if parent then iput ip;; mret (NULL, name)
          else mret (ip, name)
      end
  end.

Definition namex (path : list Z) (parent : bool) (name : list Z) : M (fst (T:=T) (U:=U)) (Z * list Z) :=
  ip ← (match path with
        | 47 :: _ => iget ROOTDEV ROOTINO
        | _ => c ← gets cwd; idup c
        end);
  namex_loop (S (length path)) ip path parent name.

(** The local buffer [name] of [namei] is not initialised; nothing depends on it. *)
Definition namei (path : list Z) : M (fst (T:=T) (U:=U)) Z :=
  '(ip, _) ← namex path false (replicate (Z.to_nat DIRSIZ) 0);
  mret ip.

Definition nameiparent (path name : list Z) : M (fst (T:=T) (U:=U)) (Z * list Z) := namex path true name.
End names.
