(* ===== verification/FsAlloc.v ===== *)
(** * Block allocation

    The bitmap of [kernel/fs.c] and what [balloc] and [bfree] do to it, for any
    store with [StoreLaws].  [bused] is the bit of a block; [layout] are the
    facts about the super block that [mkfs] establishes. *)

From S2P Require Import Prelude Riscv Memory Disk Tx Fs.

Ltac Zify.zify_pre_hook ::=
  unfold_consts; unfold MAXFILE, BPB, IPB, NINDIRECT, NDIRECT, DINODE_SIZE, DIRENT_SIZE, DIRSIZ, BSIZE in *;
  change (1024 / 4) with 256 in *; change (1024 / 64) with 16 in *.

(** ** Bits of a block *)

Lemma get8_byte x i : is_block x → 0 ≤ i < BSIZE → 0 ≤ get8 x i < 256.
Proof.
  intros [Hl Hb] Hi. unfold get8. destruct (lookup_lt_is_Some_2 x (Z.to_nat i)) as [c Hc]; [lia|].
  rewrite (list_lookup_total_correct _ _ _ Hc). exact (Forall_lookup_1 _ _ _ _ Hb Hc).
Qed.

Lemma get8_put8 x i v j :
  is_block x → 0 ≤ i < BSIZE → 0 ≤ j < BSIZE → get8 (put8 x i v) j = if decide (j = i) then u8 v else get8 x j.
Proof.
  intros [Hl Hb] Hi Hj. unfold get8, put8. rewrite !list_lookup_total_alt, lookup_put_at by (simpl; lia).
  simpl. case_decide.
  - rewrite decide_True by lia. by replace (Z.to_nat j - Z.to_nat i)%nat with 0%nat by lia.
  - by rewrite decide_False by lia.
Qed.

Lemma is_block_put8 x i v : is_block x → 0 ≤ i < BSIZE → is_block (put8 x i v).
Proof.
  intros [Hl Hb] Hi. split.
  - unfold put8. rewrite put_at_length; simpl; lia.
  - apply put_at_bytes; [done|]. constructor; [apply u8_range|constructor].
Qed.

Lemma bit_free_test x bi : 0 ≤ bi → bit_free x bi = negb (Z.testbit (get8 x (bi / 8)) (bi mod 8)).
Proof.
  intros Hi. unfold bit_free. pose proof (Z.mod_pos_bound bi 8 ltac:(lia)) as Hm.
  set (g := get8 x (bi / 8)). set (m := bi mod 8) in *. destruct (Z.testbit g m) eqn:E; simpl.
  - apply Z.eqb_neq. intros H0. assert (Z.testbit (Z.land g (Z.shiftl 1 m)) m = true) as H1.
    { rewrite Z.land_spec, E, Z.shiftl_spec, Z.sub_diag by lia. done. }
    rewrite H0 in H1. by rewrite Z.bits_0 in H1.
  - apply Z.eqb_eq, Z.bits_inj_0. intros n. rewrite Z.land_spec. destruct (Z.ltb_spec n 0).
    { by rewrite !(Z.testbit_neg_r _ n) by lia. }
    destruct (decide (n = m)) as [->|Hn]; [by rewrite E|].
    rewrite Z.shiftl_spec by lia. destruct (Z.ltb_spec n m).
    + by rewrite (Z.testbit_neg_r 1), andb_false_r by lia.
    + rewrite (Z.bits_above_log2 1); [by rewrite andb_false_r|lia|simpl; lia].
Qed.

Lemma shiftl_one_byte m : 0 ≤ m < 8 → 0 ≤ Z.shiftl 1 m < 256.
Proof. intros. rewrite Z.shiftl_1_l. split; [lia|]. apply (Z.pow_lt_mono_r 2 m 8); lia. Qed.

Lemma shiftl_one_bit m n : 0 ≤ m → 0 ≤ n → Z.testbit (Z.shiftl 1 m) n = bool_decide (n = m).
Proof.
  intros. rewrite Z.shiftl_1_l. case_bool_decide as E.
  - subst. apply Z.pow2_bits_true. lia.
  - apply Z.pow2_bits_false. congruence.
Qed.

Lemma byte_testbit_high v n : 0 ≤ v < 256 → 8 ≤ n → Z.testbit v n = false.
Proof.
  intros Hv Hn. destruct (decide (v = 0)) as [->|]; [apply Z.bits_0|].
  apply Z.bits_above_log2; [lia|]. apply Z.log2_lt_pow2; [lia|].
  pose proof (Z.pow_le_mono_r 2 8 n). lia.
Qed.

Lemma u8_bits v n : 0 ≤ n < 8 → Z.testbit (u8 v) n = Z.testbit v n.
Proof. intros. unfold u8. by rewrite Z.mod_pow2_bits_low by lia. Qed.

(** Bits are numbered [0 .. BPB - 1]. *)
Lemma same_bit i j : 0 ≤ i → 0 ≤ j → j / 8 = i / 8 → j mod 8 = i mod 8 → j = i.
Proof. intros. rewrite (Z.div_mod j 8), (Z.div_mod i 8) by lia. congruence. Qed.

Lemma bit_byte i : 0 ≤ i < BPB → 0 ≤ i / 8 < BSIZE.
Proof. split; [apply Z.div_pos|apply Z.div_lt_upper_bound]; lia. Qed.

Lemma put_bit x i j v b :
  is_block x → 0 ≤ i < BPB → 0 ≤ j < BPB →
  (∀ n, 0 ≤ n < 8 → Z.testbit v n = if decide (n = i mod 8) then b else Z.testbit (get8 x (i / 8)) n) →
  bit_free (put8 x (i / 8) v) j = if decide (j = i) then negb b else bit_free x j.
Proof.
  intros Hx Hi Hj Hv. rewrite !bit_free_test by lia.
  pose proof (Z.mod_pos_bound j 8 ltac:(lia)). pose proof (Z.mod_pos_bound i 8 ltac:(lia)).
  rewrite get8_put8 by auto using bit_byte. case_decide as E1.
  - rewrite u8_bits, Hv by lia. destruct (decide (j = i)) as [->|Hne].
    + by rewrite decide_True by done.
    + rewrite decide_False, E1; [done|]. intros E2. apply Hne. apply same_bit; (done || lia).
  - rewrite (decide_False (P := j = i)); [done|]. intros ->. by apply E1.
Qed.

Lemma bit_free_set x i j :
  is_block x → 0 ≤ i < BPB → 0 ≤ j < BPB →
  bit_free (set_bit x i) j = if decide (j = i) then false else bit_free x j.
Proof.
  intros Hx Hi Hj. apply (put_bit x i j _ true Hx Hi Hj). intros n Hn.
  pose proof (Z.mod_pos_bound i 8 ltac:(lia)). rewrite Z.lor_spec, shiftl_one_bit by lia.
  case_decide as E; [rewrite bool_decide_true by done; apply orb_true_r|].
  rewrite bool_decide_false by done. apply orb_false_r.
Qed.

Lemma bit_free_clear x i j :
  is_block x → 0 ≤ i < BPB → 0 ≤ j < BPB →
  bit_free (clear_bit x i) j = if decide (j = i) then true else bit_free x j.
Proof.
  intros Hx Hi Hj. apply (put_bit x i j _ false Hx Hi Hj). intros n Hn.
  pose proof (Z.mod_pos_bound i 8 ltac:(lia)). rewrite Z.land_spec, Z.lnot_spec, shiftl_one_bit by lia.
  case_decide as E; [rewrite bool_decide_true by done; apply andb_false_r|].
  rewrite bool_decide_false by done. apply andb_true_r.
Qed.

Lemma is_block_bits x i v : is_block x → 0 ≤ i < BPB → is_block (put8 x (i / 8) v).
Proof. intros. apply is_block_put8; [done|by apply bit_byte]. Qed.

(** ** The layout of the disk *)

(** The first data block. *)
Definition datastart (sb : superblock) : Z := bmapstart sb + size sb / BPB + 1.

Record layout (sb : superblock) : Prop := {
  ly_log : 2 ≤ logstart sb ∧ 0 ≤ nlog sb ∧ logstart sb + nlog sb ≤ inodestart sb;
  ly_inodes : 0 ≤ ninodes sb ∧ inodestart sb + ninodes sb / IPB < bmapstart sb;
  ly_data : datastart sb ≤ size sb;
  ly_size : 0 ≤ size sb < 2 ^ 31 - BPB
}.

(** The blocks that the file system uses. *)
Definition fs_block (sb : superblock) (b : Z) : Prop := inodestart sb ≤ b < size sb.

Definition is_bitmap (sb : superblock) (b : Z) : Prop := bmapstart sb ≤ b < datastart sb.

(** The bit of block [b]. *)
Definition bused (sb : superblock) (co : disk) (b : Z) : bool :=
  negb (bit_free (co (BBLOCK b sb)) (b mod BPB)).

(** All blocks before the data are marked as used. *)
Definition meta_used (sb : superblock) (co : disk) : Prop :=
  ∀ b, 0 ≤ b < datastart sb → bused sb co b = true.

Section layout.
  Context (sb : superblock) (Hly : layout sb).

Lemma BBLOCK_eq b : 0 ≤ b < size sb → BBLOCK b sb = b / BPB + bmapstart sb.
Proof.
  intros Hb. destruct Hly as [H1 H2 H3 H4]. unfold BBLOCK. apply u32_small. unfold datastart in *.
  pose proof (Z.div_pos (ninodes sb) IPB). pose proof (Z.div_pos b BPB).
  pose proof (Z.div_le_mono b (size sb) BPB). lia.
Qed.

Lemma BBLOCK_bitmap b : 0 ≤ b < size sb → is_bitmap sb (BBLOCK b sb).
Proof.
  intros Hb. rewrite BBLOCK_eq by done. unfold is_bitmap, datastart.
  pose proof (Z.div_pos b BPB). pose proof (Z.div_le_mono b (size sb) BPB). lia.
Qed.

Lemma bitmap_fs b : is_bitmap sb b → fs_block sb b.
Proof.
  unfold is_bitmap, fs_block. destruct Hly as [H1 H2 H3 H4]. pose proof (Z.div_pos (ninodes sb) IPB). lia.
Qed.

Lemma data_fs b : datastart sb ≤ b < size sb → fs_block sb b.
Proof.
  unfold fs_block, datastart. destruct Hly as [H1 H2 H3 H4]. pose proof (Z.div_pos (ninodes sb) IPB).
  pose proof (Z.div_pos (size sb) BPB). lia.
Qed.

Lemma datastart_pos : 0 < datastart sb.
Proof.
  destruct Hly as [H1 H2 H3 H4]. unfold datastart in *. pose proof (Z.div_pos (ninodes sb) IPB).
  pose proof (Z.div_pos (size sb) BPB). lia.
Qed.

(** Two blocks with one bit are one block. *)
Lemma bit_inj b b' :
  0 ≤ b < size sb → 0 ≤ b' < size sb → BBLOCK b sb = BBLOCK b' sb → b mod BPB = b' mod BPB → b = b'.
Proof.
  intros Hb Hb' H1 H2. rewrite !BBLOCK_eq in H1 by done.
  rewrite (Z.div_mod b BPB), (Z.div_mod b' BPB) by lia. rewrite H2. f_equal. f_equal. lia.
Qed.

(** [co'] is [co] with the bit of [a] set to [v]. *)
Definition bit_set (co co' : disk) (a : Z) (v : bool) : Prop :=
  (∀ b, 0 ≤ b < size sb → bused sb co' b = if decide (b = a) then v else bused sb co b) ∧
  (∀ x, ¬ is_bitmap sb x → co' x = co x).

Lemma bit_set_put co a x v :
  0 ≤ a < size sb →
  (∀ j, 0 ≤ j < BPB → bit_free x j = if decide (j = a mod BPB) then negb v else bit_free (co (BBLOCK a sb)) j) →
  bit_set co (upd co (BBLOCK a sb) x) a v.
Proof using Hly.
  intros Ha Hx. split.
  - intros b Hb. unfold bused. destruct (decide (BBLOCK b sb = BBLOCK a sb)) as [E|E].
    + rewrite E, upd_eq, Hx by (apply Z.mod_pos_bound; lia). case_decide as E2.
      * rewrite (decide_True (P := b = a)) by (by apply bit_inj). by rewrite negb_involutive.
      * by rewrite (decide_False (P := b = a)) by (by intros ->).
    + rewrite upd_ne by done. by rewrite (decide_False (P := b = a)) by (by intros ->).
  - intros y Hy. apply upd_ne. intros ->. by apply Hy, BBLOCK_bitmap.
Qed.

Lemma set_bit_set co a :
  0 ≤ a < size sb → is_block (co (BBLOCK a sb)) →
  bit_set co (upd co (BBLOCK a sb) (set_bit (co (BBLOCK a sb)) (a mod BPB))) a true.
Proof using Hly.
  intros Ha Hx. apply bit_set_put; [done|]. intros j Hj. apply bit_free_set; [done| |done].
  apply Z.mod_pos_bound. lia.
Qed.

Lemma clear_bit_set co a :
  0 ≤ a < size sb → is_block (co (BBLOCK a sb)) →
  bit_set co (upd co (BBLOCK a sb) (clear_bit (co (BBLOCK a sb)) (a mod BPB))) a false.
Proof using Hly.
  intros Ha Hx. apply bit_set_put; [done|]. intros j Hj. apply bit_free_clear; [done| |done].
  apply Z.mod_pos_bound. lia.
Qed.
End layout.

(** ** Running on a store *)

Section store.
  Context {T U : Type} `{ST : Store T} `{UM : UserMem U} (vb : Z → Prop) (owns : T → disk → disk → list hold → Z → Prop).
  Context `{!StoreLaws T vb owns}.
  Local Abbreviation fst := (fst (T := T) (U := U)).
  Implicit Types (s : fst) (d co : disk) (H : list hold) (k : Z).

Lemma in_store_runs {A} (m : M T A) s (Q : A → fst → Prop) :
  runs m (store s) (λ a t, Q a (set_store t s)) → runs (in_store m) s Q.
Proof. unfold runs, returns, in_store, zoom. simpl. by destruct (m (store s)). Qed.

(** The laws of the store, for the file system. *)
Lemma st_bread s d co H k b :
  owns (store s) d co H k → vb b → b ∉ hblock <$> H → (length H < MAXHELD)%nat →
  runs (in_store (bread ROOTDEV b)) s (λ h s', ∃ t, s' = set_store t s ∧ owns t d co ((h, b, false) :: H) k).
Proof using All.
  intros Ho Hb Hn Hl. apply in_store_runs. eapply runs_mono; [by eapply bread_law|]. intros h t [Ht _]. eauto.
Qed.

Lemma st_rdata s d co H k h b m :
  owns (store s) d co H k → (h, b, m) ∈ H → in_store (rdata h) s = Done (co b) s [].
Proof using All.
  intros Ho Hin. unfold in_store, zoom. simpl. rewrite (rdata_law _ _ _ _ _ _ _ _ Ho Hin). by destruct s.
Qed.

Lemma st_wdata s d co H k h b m x :
  owns (store s) d co ((h, b, m) :: H) k → is_block x →
  runs (in_store (wdata h x)) s (λ _ s', ∃ t, s' = set_store t s ∧ owns t d (upd co b x) ((h, b, true) :: H) k).
Proof using All.
  intros Ho Hx. apply in_store_runs. eapply runs_mono; [by apply (wdata_law _ _ _ [] H _ _ _ _ _ Ho)|]. eauto.
Qed.

Lemma st_log_write s d co H k h b m :
  owns (store s) d co ((h, b, m) :: H) k → 0 < k →
  runs (in_store (log_write h)) s (λ _ s', ∃ t, s' = set_store t s ∧ owns t d co ((h, b, false) :: H) (k - 1)).
Proof using All.
  intros Ho Hk. apply in_store_runs. eapply runs_mono; [by apply (log_write_law _ _ _ [] H _ _ _ _ Ho)|]. eauto.
Qed.

Lemma st_brelse s d co H k h b :
  owns (store s) d co ((h, b, false) :: H) k →
  runs (in_store (brelse h)) s (λ _ s', ∃ t, s' = set_store t s ∧ owns t d co H k).
Proof using All.
  intros Ho. apply in_store_runs. eapply runs_mono; [by apply (brelse_law _ _ _ [] H _ _ _ Ho)|]. eauto.
Qed.

(** What the specifications assume of the super block. *)
Definition base s : Prop := layout (sb s) ∧ ∀ b, fs_block (sb s) b → vb b.

Lemma bzero_spec s d co H k b :
  owns (store s) d co H k → vb b → b ∉ hblock <$> H → (length H < MAXHELD)%nat → 0 < k →
  runs (bzero ROOTDEV b) s (λ _ s', ∃ t, s' = set_store t s ∧ owns t d (upd co b zero_block) H (k - 1)).
Proof using All.
  intros Ho Hb Hn Hl Hk. unfold bzero. rcall st_bread; try done. intros h s1 (t1 & -> & Ho1).
  rcall st_wdata; [exact Ho1|apply zero_block_ok|]. intros _ s2 (t2 & -> & Ho2).
  rcall st_log_write; [exact Ho2|done|]. intros _ s3 (t3 & -> & Ho3).
  eapply runs_mono; [eapply st_brelse; exact Ho3|]. intros _ s4 (t4 & -> & Ho4). eauto.
Qed.

Lemma find_free_spec x sz b n bi :
  match find_free x sz b n bi with
  | Some r => bi ≤ r < bi + Z.of_nat n ∧ b + r < sz ∧ bit_free x r = true ∧
      ∀ j, bi ≤ j < r → bit_free x j = false
  | None => ∀ j, bi ≤ j < bi + Z.of_nat n → b + j < sz → bit_free x j = false
  end.
Proof.
  revert bi. induction n as [|n IH]; intros bi; simpl; [lia|].
  case_if; [|intros; lia]. destruct (bit_free x bi) eqn:Ef.
  - split_and!; try lia; done.
  - specialize (IH (bi + 1)). destruct (find_free x sz b n (bi + 1)) as [r|].
    + destruct IH as (H1 & H2 & H3 & H4). split_and!; try lia; [done|]. intros j Hj.
      destruct (decide (j = bi)) as [->|]; [done|]. apply H4. lia.
    + intros j Hj Hs. destruct (decide (j = bi)) as [->|]; [done|]. apply IH; lia.
Qed.

(** [balloc] took the first free block, marked and cleared it. *)
Definition allocated (sb : superblock) (co co' : disk) (a : Z) : Prop :=
  datastart sb ≤ a < size sb ∧ (∀ b, 0 ≤ b < a → bused sb co b = true) ∧ bused sb co a = false ∧
  ∃ co1, bit_set sb co co1 a true ∧ co' = upd co1 a zero_block.

(** The bit at place [j] of the bitmap block of [b]. *)
Lemma bused_at sb co b j :
  layout sb → 0 ≤ b → b mod BPB = 0 → 0 ≤ j < BPB → b + j < size sb →
  BBLOCK (b + j) sb = BBLOCK b sb ∧ (b + j) mod BPB = j ∧ bused sb co (b + j) = negb (bit_free (co (BBLOCK b sb)) j).
Proof.
  intros Hly Hb Hm Hj Hs. apply Z_div_exact_full_2 in Hm; [|lia].
  assert ((b + j) / BPB = b / BPB) as Hd.
  { rewrite Hm at 1. rewrite Z.mul_comm, Z.div_add_l by lia. rewrite (Z.div_small j) by lia. lia. }
  assert ((b + j) mod BPB = j) as Hmj.
  { rewrite Hm. rewrite Z.add_comm, Z.mul_comm, Z.mod_add by lia. by apply Z.mod_small. }
  assert (BBLOCK (b + j) sb = BBLOCK b sb) as HB by (unfold BBLOCK; by rewrite Hd).
  split_and!; [done|done|]. unfold bused. by rewrite HB, Hmj.
Qed.

(** The bitmap block of [b] has a free bit [bi]. *)
Lemma balloc_take s d co H k h b bi :
  base s → owns (store s) d co ((h, BBLOCK b (sb s), false) :: H) k → 2 ≤ k → (length H < 2)%nat →
  meta_used (sb s) co → 0 ≤ b → b mod BPB = 0 → 0 ≤ bi < BPB → b + bi < size (sb s) →
  bit_free (co (BBLOCK b (sb s))) bi = true → (∀ j, 0 ≤ j < bi → bit_free (co (BBLOCK b (sb s))) j = false) →
  (∀ b', 0 ≤ b' < b → bused (sb s) co b' = true) → b + bi ∉ hblock <$> H →
  runs (in_store (wdata h (set_bit (co (BBLOCK b (sb s))) bi));; in_store (log_write h);; in_store (brelse h);;
        bzero ROOTDEV (b + bi);; mret (b + bi)) s
    (λ a s', ∃ t co', s' = set_store t s ∧ owns t d co' H (k - 2) ∧ allocated (sb s) co co' a).
Proof using All.
  intros [Hly Hvb] Ho Hk Hl Hmeta Hb Hm Hbi Hs Hfree Hfirst Hprev Hheld.
  destruct (bused_at (sb s) co b bi Hly Hb Hm Hbi Hs) as (HB & Hmod & Hbit). rewrite Hfree in Hbit.
  assert (is_block (co (BBLOCK b (sb s)))) as Hblk by exact (owns_block _ _ _ _ _ _ Ho).
  assert (datastart (sb s) ≤ b + bi) as Hdata.
  { destruct (Z.lt_ge_cases (b + bi) (datastart (sb s))) as [Hlt|]; [|done].
    rewrite (Hmeta (b + bi)) in Hbit by lia. done. }
  rcall st_wdata; [exact Ho|by apply is_block_bits|]. intros _ s1 (t1 & -> & Ho1).
  rcall st_log_write; [exact Ho1|lia|]. intros _ s2 (t2 & -> & Ho2).
  rcall st_brelse; [exact Ho2|]. intros _ s3 (t3 & -> & Ho3).
  rcall bzero_spec; [exact Ho3|apply Hvb, data_fs; done|done|unfold MAXHELD; lia|lia|]. intros _ s4 (t4 & -> & Ho4).
  apply runs_ret. eexists _, _. split_and!; [reflexivity|by replace (k - 2) with (k - 1 - 1) by lia|].
  split_and!; try done.
  - intros b' Hb'. destruct (Z.lt_ge_cases b' b); [apply Hprev; lia|].
    destruct (bused_at (sb s) co b (b' - b) Hly Hb Hm) as (_ & _ & Hu); [lia|lia|].
    replace (b + (b' - b)) with b' in Hu by lia. rewrite Hu, Hfirst by lia. done.
  - eexists. split; [|reflexivity]. pose proof (set_bit_set (sb s) Hly co (b + bi)) as Hset.
    rewrite HB, Hmod in Hset. apply Hset; [lia|done].
Qed.

Lemma balloc_loop_spec fuel s d co H k b :
  base s → owns (store s) d co H k → 2 ≤ k → (length H < 2)%nat → meta_used (sb s) co →
  (∀ x, x ∈ hblock <$> H → datastart (sb s) ≤ x ∧ bused (sb s) co x = true) →
  0 ≤ b → b mod BPB = 0 → (∀ b', 0 ≤ b' < b → b' < size (sb s) → bused (sb s) co b' = true) →
  (1 ≤ fuel)%nat ∧ size (sb s) - b ≤ BPB * (Z.of_nat fuel - 1) →
  runs (balloc_loop fuel ROOTDEV b) s (λ a s', ∃ t co', s' = set_store t s ∧ owns t d co' H (k - 2) ∧
    (a = 0 ∧ co' = co ∧ (∀ b', 0 ≤ b' < size (sb s) → bused (sb s) co b' = true) ∨ allocated (sb s) co co' a)).
Proof using All.
  intros [Hly Hvb] Ho Hk Hl Hmeta Hheld. revert b s Hly Hvb Ho Hmeta Hheld.
  induction fuel as [|fuel IH]; intros b s Hly Hvb Ho Hmeta Hheld Hb Hm Hprev [Hf1 Hf2]; [lia|].
  cbn [balloc_loop]. rstep. case_if; cycle 1.
  { rstep. apply runs_ret. eexists (store s), co. split_and!; [by destruct s|eapply owns_le; [exact Ho|lia]|].
    left. split_and!; [done|done|]. intros b' Hb'. apply Hprev; lia. }
  assert (is_bitmap (sb s) (BBLOCK b (sb s))) as Hbm by (apply BBLOCK_bitmap; [done|lia]).
  assert (BBLOCK b (sb s) ∉ hblock <$> H) as Hbh.
  { intros [Hin _]%Hheld. unfold is_bitmap in Hbm. lia. }
  rcall st_bread; [exact Ho|by apply Hvb, bitmap_fs|done|unfold MAXHELD; lia|]. intros h s1 (t1 & -> & Ho1).
  apply runs_bind. eapply runs_done; [eapply st_rdata; [exact Ho1|by left]|done|]. cbn [sb set_store].
  pose proof (find_free_spec (co (BBLOCK b (sb s))) (size (sb s)) b (Z.to_nat BPB) 0) as Hff.
  destruct (find_free _ _ _ _ _) as [bi|].
  - destruct Hff as (F1 & F2 & F3 & F4). eapply runs_mono.
    + eapply (balloc_take (set_store t1 s) d co H k h b bi); cbn [sb set_store store]; try done; try lia.
      * intros b' Hb'. apply Hprev; lia.
      * intros [_ Hu]%Hheld. destruct (bused_at (sb s) co b bi Hly Hb Hm) as (_ & _ & Hu2); [lia|lia|].
        rewrite Hu2, F3 in Hu. done.
    + intros a s' (t & co' & -> & Ho' & Ha). exists t, co'. split_and!; [done|done|by right].
  - rcall st_brelse; [exact Ho1|]. intros _ s2 (t2 & -> & Ho2). pose proof (ly_size _ Hly). if_true.
    eapply runs_mono; [apply (IH (b + BPB) (set_store t2 s)); cbn [sb set_store store]; try done|].
    + lia.
    + rewrite Z.add_comm, <-(Z.mul_1_l BPB) at 1. rewrite Z.add_comm, Z.mod_add by lia. done.
    + intros b' Hb' Hs. destruct (Z.lt_ge_cases b' b); [apply Hprev; lia|].
      destruct (bused_at (sb s) co b (b' - b) Hly Hb Hm) as (_ & _ & Hu); [lia|lia|].
      replace (b + (b' - b)) with b' in Hu by lia. rewrite Hu, Hff by lia. done.
    + lia.
    + intros a s' (t & co' & -> & Hr). exists t, co'. done.
Qed.

Lemma balloc_spec s d co H k :
  base s → owns (store s) d co H k → 2 ≤ k → (length H < 2)%nat → meta_used (sb s) co →
  (∀ x, x ∈ hblock <$> H → datastart (sb s) ≤ x ∧ bused (sb s) co x = true) →
  runs (balloc ROOTDEV) s (λ a s', ∃ t co', s' = set_store t s ∧ owns t d co' H (k - 2) ∧
    (a = 0 ∧ co' = co ∧ (∀ b, 0 ≤ b < size (sb s) → bused (sb s) co b = true) ∨ allocated (sb s) co co' a)).
Proof using All.
  intros Hb Ho Hk Hl Hmeta Hheld. pose proof Hb as [Hly _]. unfold balloc. rstep.
  apply balloc_loop_spec; try done; try lia.
  pose proof (Z.div_mod (size (sb s)) BPB). pose proof (Z.mod_pos_bound (size (sb s)) BPB).
  pose proof (Z.div_pos (size (sb s)) BPB). pose proof (ly_size _ Hly). split; [lia|]. lia.
Qed.

Lemma bfree_spec s d co H k b :
  base s → owns (store s) d co H k → 1 ≤ k → (length H < 3)%nat →
  (∀ x, x ∈ hblock <$> H → datastart (sb s) ≤ x) → 0 ≤ b < size (sb s) → bused (sb s) co b = true →
  runs (bfree ROOTDEV b) s (λ _ s', ∃ t co', s' = set_store t s ∧ owns t d co' H (k - 1) ∧ bit_set (sb s) co co' b false).
Proof using All.
  intros [Hly Hvb] Ho Hk Hl Hheld Hb Hu. unfold bfree. rstep.
  pose proof (BBLOCK_bitmap _ Hly b Hb) as Hbm. pose proof (Z.mod_pos_bound b BPB ltac:(lia)).
  assert (is_block (co (BBLOCK b (sb s)))) as Hblk by exact (owns_block _ _ _ _ _ _ Ho).
  rcall st_bread; [exact Ho|by apply Hvb, bitmap_fs|intros Hin%Hheld; unfold is_bitmap in Hbm; lia|unfold MAXHELD; lia|].
  intros h s1 (t1 & -> & Ho1).
  apply runs_bind. eapply runs_done; [eapply st_rdata; [exact Ho1|by left]|done|]. cbn [sb set_store].
  unfold bused in Hu. apply negb_true_iff in Hu. rewrite Hu.
  rcall st_wdata; [exact Ho1|by apply is_block_bits|]. intros _ s2 (t2 & -> & Ho2).
  rcall st_log_write; [exact Ho2|lia|]. intros _ s3 (t3 & -> & Ho3).
  eapply runs_mono; [eapply st_brelse; exact Ho3|]. intros _ s4 (t4 & -> & Ho4).
  eexists _, _. split_and!; [reflexivity|exact Ho4|]. by apply clear_bit_set.
Qed.
End store.
