(* ===== verification/FsMap.v ===== *)
(** * The blocks of a file

    [slot] is the block that a place of an inode points to: places [0 ..
    MAXFILE - 1] are the blocks of the contents, place [-1] is the indirect
    block.  [map_ok] says that the blocks are data blocks in use, all
    different.  [bmapped] is what [bmap] may change; [bmap_spec] is its
    specification. *)

From S2P Require Import Prelude Riscv Memory Disk Tx Fs FsAlloc.

Definition slot (co : disk) (ad : list Z) (j : Z) : Z :=
  if decide (j = -1) then ad !!! 12%nat
  else if decide (j < NDIRECT) then ad !!! Z.to_nat j
  else if decide (ad !!! 12%nat = 0) then 0
  else get32 (co (ad !!! 12%nat)) (4 * (j - NDIRECT)).

Definition place_ok (j : Z) : Prop := -1 ≤ j < MAXFILE.

Record map_ok (sb : superblock) (co : disk) (ad : list Z) : Prop := {
  mo_len : length ad = 13%nat;
  mo_data j : place_ok j → slot co ad j ≠ 0 → datastart sb ≤ slot co ad j < size sb ∧ bused sb co (slot co ad j) = true;
  mo_inj i j : place_ok i → place_ok j → slot co ad i = slot co ad j → slot co ad i ≠ 0 → i = j
}.

Lemma slot_ext co co' ad j :
  (ad !!! 12%nat ≠ 0 → co' (ad !!! 12%nat) = co (ad !!! 12%nat)) → slot co' ad j = slot co ad j.
Proof. intros H. unfold slot. repeat case_decide; try done. by rewrite H. Qed.

(** What [bmap] may change: empty places get free blocks, the other blocks
    stay as they are, but for the bitmap and the indirect block. *)
Record bmapped (sb : superblock) (co : disk) (ad : list Z) (co' : disk) (ad' : list Z) : Prop := {
  bm_ok : map_ok sb co' ad';
  bm_old j : place_ok j → slot co ad j ≠ 0 → slot co' ad' j = slot co ad j;
  bm_new j : place_ok j → slot co ad j = 0 → slot co' ad' j ≠ 0 →
    bused sb co (slot co' ad' j) = false ∧ (0 ≤ j → co' (slot co' ad' j) = zero_block);
  bm_used b : 0 ≤ b < size sb → bused sb co b = true → bused sb co' b = true;
  bm_leak b : 0 ≤ b < size sb → bused sb co b = false → bused sb co' b = true → ∃ j, place_ok j ∧ slot co' ad' j = b ∧ b ≠ 0;
  bm_frame x : ¬ is_bitmap sb x → (x < datastart sb ∨ x < size sb ∧ bused sb co x = true) → x ≠ slot co ad (-1) → co' x = co x
}.

Section maps.
  Context (sb : superblock) (Hly : layout sb).
  Implicit Types (co : disk) (ad : list Z).

Lemma bmapped_refl co ad : map_ok sb co ad → bmapped sb co ad co ad.
Proof. intros Hm. split; try done; intros; congruence. Qed.

Lemma data_not_bitmap b : datastart sb ≤ b → ¬ is_bitmap sb b.
Proof. unfold is_bitmap. lia. Qed.

Lemma data_nonneg b : datastart sb ≤ b → 0 < b.
Proof using Hly. pose proof (datastart_pos sb Hly). lia. Qed.

Lemma bmapped_trans co ad co1 ad1 co2 ad2 :
  bmapped sb co ad co1 ad1 → bmapped sb co1 ad1 co2 ad2 → bmapped sb co ad co2 ad2.
Proof using Hly.
  intros [A1 A2 A3 A4 A5 A6] [B1 B2 B3 B4 B5 B6]. split; [done|..].
  - intros j Hj Hs. rewrite B2; rewrite ?A2; done.
  - intros j Hj Hs Hs2. destruct (decide (slot co1 ad1 j = 0)) as [E|E].
    + destruct (B3 j Hj E Hs2) as [C1 C2]. split; [|done].
      destruct (mo_data _ _ _ B1 j Hj Hs2) as [Hr _]. pose proof (data_nonneg _ (proj1 Hr)).
      destruct (bused sb co (slot co2 ad2 j)) eqn:Eu; [|done]. apply A4 in Eu; [congruence|lia].
    + rewrite (B2 j Hj E). destruct (A3 j Hj Hs E) as [C1 C2]. split; [done|]. intros H0.
      destruct (mo_data _ _ _ A1 j Hj E) as [Hr Hu].
      rewrite B6; [by apply C2|apply data_not_bitmap; lia|right; split; [lia|done]|].
      intros Heq. apply (mo_inj _ _ _ A1) in Heq; unfold place_ok in *; try lia.
  - intros b Hb Hu. by apply B4, A4.
  - intros b Hb Hu Hu2. destruct (bused sb co1 b) eqn:E; [|by apply B5].
    destruct (A5 b Hb Hu E) as (j & Hj & Hs & H0). exists j. split_and!; [done| |done]. rewrite B2; congruence.
  - intros x Hx Hu Hi. rewrite B6; [by apply A6|done| |].
    + destruct (Z.lt_ge_cases x (datastart sb)); [by left|right]. destruct Hu as [?|[H1 Hu]]; [lia|].
      split; [done|]. pose proof (data_nonneg x). apply A4; [lia|done].
    + intros ->. destruct (decide (slot co ad (-1) = 0)) as [E|E].
      * destruct (decide (slot co1 ad1 (-1) = 0)) as [E1|E1]; [congruence|].
        destruct (A3 (-1)) as [C1 _]; [unfold place_ok; lia|done|done|].
        destruct (mo_data _ _ _ A1 (-1)) as [Hr _]; [unfold place_ok; lia|done|].
        destruct Hu as [?|[_ Hu]]; [lia|congruence].
      * rewrite A2 in Hi; [done|unfold place_ok; lia|done].
Qed.

(** One place [j] gets the free block [a]. *)
Lemma bmapped_one co ad co' ad' j a :
  map_ok sb co ad → place_ok j → slot co ad j = 0 → datastart sb ≤ a < size sb → bused sb co a = false →
  length ad' = 13%nat → co' a = zero_block →
  (∀ i, place_ok i → slot co' ad' i = if decide (i = j) then a else slot co ad i) →
  (∀ b, 0 ≤ b < size sb → bused sb co' b = if decide (b = a) then true else bused sb co b) →
  (∀ x, ¬ is_bitmap sb x → x ≠ a → x ≠ slot co ad (-1) → co' x = co x) →
  bmapped sb co ad co' ad'.
Proof using Hly.
  intros Hm Hj Hs Ha Hu Hlen Hz Hslot Hused Hframe. pose proof (data_nonneg a (proj1 Ha)).
  assert (∀ i, place_ok i → slot co ad i ≠ a) as Hfresh.
  { intros i Hi Heq. destruct (mo_data _ _ _ Hm i Hi) as [_ Hu2]; [lia|]. congruence. }
  split.
  - split; [done|..].
    + intros i Hi. rewrite (Hslot i Hi). case_decide; intros Hne.
      * split; [done|]. rewrite Hused by lia. by rewrite decide_True.
      * destruct (mo_data _ _ _ Hm i Hi Hne) as [H1 H2]. pose proof (data_nonneg _ (proj1 H1)). split; [done|].
        rewrite Hused by lia. by case_decide.
    + intros i i' Hi Hi'. rewrite (Hslot i Hi), (Hslot i' Hi').
      destruct (decide (i = j)) as [->|]; destruct (decide (i' = j)) as [->|]; intros Heq Hne; try done.
      * by destruct (Hfresh i' Hi').
      * by destruct (Hfresh i Hi).
      * by apply (mo_inj _ _ _ Hm).
  - intros i Hi Hne. rewrite (Hslot i Hi). case_decide; [subst; congruence|done].
  - intros i Hi H0. rewrite (Hslot i Hi). case_decide; [|done]. done.
  - intros b Hb Hub. rewrite Hused by done. by case_decide.
  - intros b Hb Hub. rewrite Hused by done. case_decide as E; [|congruence]. intros _. exists j.
    split_and!; [done| |lia]. rewrite Hslot by done. by rewrite decide_True by done.
  - intros x Hx Hux Hi. apply Hframe; [done| |done]. intros ->. destruct Hux as [?|[_ ?]]; [lia|congruence].
Qed.

Lemma bused_ext co co' b : co' (BBLOCK b sb) = co (BBLOCK b sb) → bused sb co' b = bused sb co b.
Proof. intros E. unfold bused. by rewrite E. Qed.

Lemma allocated_facts co co' a :
  allocated sb co co' a →
  co' a = zero_block ∧
  (∀ b, 0 ≤ b < size sb → bused sb co' b = if decide (b = a) then true else bused sb co b) ∧
  (∀ x, ¬ is_bitmap sb x → x ≠ a → co' x = co x).
Proof using Hly.
  intros (Ha & _ & _ & co1 & [H1 H2] & ->). split; [apply upd_eq|]. split.
  - intros b Hb. rewrite <-H1 by done. apply bused_ext, upd_ne. pose proof (BBLOCK_bitmap sb Hly b Hb) as Hbm.
    unfold is_bitmap in Hbm. lia.
  - intros x Hx Hne. rewrite upd_ne by done. by apply H2.
Qed.

Lemma get32_zero off : 0 ≤ off → off + 4 ≤ BSIZE → get32 zero_block off = 0.
Proof.
  intros H1 H2. unfold get32, get_at, zero_block. rewrite drop_replicate, take_replicate.
  replace (_ `min` _)%nat with 4%nat by lia. reflexivity.
Qed.

(** The place of entry [k] of [addrs]. *)
Definition place_of (k : Z) : Z := if decide (k = NDIRECT) then -1 else k.

Lemma slot_place co ad k : 0 ≤ k ≤ NDIRECT → slot co ad (place_of k) = ad !!! Z.to_nat k.
Proof.
  intros Hk. unfold slot, place_of. destruct (decide (k = NDIRECT)) as [->|E]; [done|].
  rewrite decide_False, decide_True by lia. done.
Qed.

(** The places after entry [k] of [addrs] got the free block [a]. *)
Lemma slot_direct co ad co' a k i :
  map_ok sb co ad → 0 ≤ k ≤ NDIRECT → ad !!! Z.to_nat k = 0 → allocated sb co co' a → place_ok i →
  slot co' (<[Z.to_nat k := a]> ad) i = if decide (i = place_of k) then a else slot co ad i.
Proof using Hly.
  intros Hm Hk H0 Hal [Hi1 Hi2]. pose proof Hal as (Ha & _ & Hu & _). destruct (allocated_facts _ _ _ Hal) as (Hz & Hused & Hframe).
  pose proof (mo_len _ _ _ Hm) as Hlen. pose proof (data_nonneg a (proj1 Ha)).
  unfold slot, place_of. destruct (decide (k = NDIRECT)) as [->|Hk12].
  - change (Z.to_nat NDIRECT) with 12%nat in *. rewrite list_lookup_total_insert_eq by lia.
    destruct (decide (i = -1)) as [->|Hi]; [done|]. case_decide.
    + rewrite list_lookup_total_insert_ne by lia. done.
    + rewrite decide_False, decide_True, Hz, get32_zero by (done || lia). done.
  - rewrite (list_lookup_total_insert_ne _ (Z.to_nat k) 12) by lia.
    destruct (decide (i = -1)) as [->|Hi]; [by rewrite decide_False by lia|]. case_decide.
    + destruct (decide (i = k)) as [->|]; [by rewrite list_lookup_total_insert_eq by lia|].
      by rewrite list_lookup_total_insert_ne by lia.
    + rewrite (decide_False (P := i = k)) by lia. case_decide as E; [done|]. f_equal. apply Hframe.
      * destruct (mo_data _ _ _ Hm (-1)) as [Hri _]; [unfold place_ok; lia|exact E|]. apply data_not_bitmap. exact (proj1 Hri).
      * intros Ea. destruct (mo_data _ _ _ Hm (-1)) as [_ Hu2]; [unfold place_ok; lia|exact E|].
        change (slot co ad (-1)) with (ad !!! 12%nat) in Hu2. congruence.
Qed.

Lemma bmapped_direct co ad co' a k :
  map_ok sb co ad → 0 ≤ k ≤ NDIRECT → ad !!! Z.to_nat k = 0 → allocated sb co co' a →
  bmapped sb co ad co' (<[Z.to_nat k := a]> ad).
Proof using Hly.
  intros Hm Hk H0 Hal. pose proof Hal as (Ha & _ & Hu & _). destruct (allocated_facts _ _ _ Hal) as (Hz & Hused & Hframe).
  pose proof (mo_len _ _ _ Hm) as Hlen.
  apply (bmapped_one co ad co' _ (place_of k) a); try done.
  - unfold place_ok, place_of. case_decide; lia.
  - by rewrite slot_place.
  - by rewrite length_insert.
  - intros i Hi. by apply slot_direct.
  - intros x Hx Hxa _. by apply Hframe.
Qed.

(** The places after entry [n] of the indirect block got the free block [a]. *)
Lemma slot_indirect co ad co1 a n i :
  map_ok sb co ad → (∀ b, is_block (co1 b)) → 0 ≤ n < NINDIRECT → ad !!! 12%nat ≠ 0 → allocated sb co co1 a → place_ok i →
  slot (upd co1 (ad !!! 12%nat) (put32 (co (ad !!! 12%nat)) (4 * n) a)) ad i = if decide (i = NDIRECT + n) then a else slot co ad i.
Proof using Hly.
  intros Hm Hblk Hn Hi0 Hal [Hi1 Hi2]. pose proof Hal as (Ha & _ & Hu & _). pose proof (ly_size sb Hly).
  destruct (allocated_facts _ _ _ Hal) as (Hz & Hused & Hframe). set (ind := ad !!! 12%nat) in *.
  destruct (mo_data _ _ _ Hm (-1)) as [Hri Hui]; [unfold place_ok; lia|exact Hi0|].
  change (slot co ad (-1)) with ind in Hri, Hui. pose proof (data_nonneg a (proj1 Ha)).
  assert (co1 ind = co ind) as Hci by (apply Hframe; [apply data_not_bitmap; lia|congruence]).
  specialize (Hblk ind). rewrite Hci in Hblk. destruct Hblk as [Hbl _].
  unfold slot. fold ind. destruct (decide (i = -1)); [by rewrite decide_False by lia|].
  case_decide; [by rewrite decide_False by lia|]. rewrite (decide_False (P := ind = 0)), upd_eq by done. case_decide as E.
  - subst i. replace (4 * (NDIRECT + n - NDIRECT)) with (4 * n) by lia.
    rewrite get32_put32 by lia. apply u32_small. lia.
  - rewrite decide_False by done. apply get32_put32_other; lia.
Qed.

Lemma bmapped_indirect co ad co1 a n :
  map_ok sb co ad → (∀ b, is_block (co1 b)) → 0 ≤ n < NINDIRECT → ad !!! 12%nat ≠ 0 → slot co ad (NDIRECT + n) = 0 →
  allocated sb co co1 a →
  bmapped sb co ad (upd co1 (ad !!! 12%nat) (put32 (co (ad !!! 12%nat)) (4 * n) a)) ad.
Proof using Hly.
  intros Hm Hblk Hn Hi0 H0 Hal. pose proof Hal as (Ha & _ & Hu & _).
  destruct (allocated_facts _ _ _ Hal) as (Hz & Hused & Hframe).
  destruct (mo_data _ _ _ Hm (-1)) as [Hri Hui]; [unfold place_ok; lia|exact Hi0|].
  apply (bmapped_one co ad _ ad (NDIRECT + n) a); try done.
  - unfold place_ok. lia.
  - by apply mo_len in Hm.
  - rewrite upd_ne; [done|]. intros ->. change (slot co ad (-1)) with (ad !!! 12%nat) in Hui. congruence.
  - intros i Hi. by apply slot_indirect.
  - intros b Hb. rewrite <-Hused by done. apply bused_ext, upd_ne. pose proof (BBLOCK_bitmap sb Hly b Hb) as Hbm.
    unfold is_bitmap in Hbm. change (slot co ad (-1)) with (ad !!! 12%nat) in Hri. lia.
  - intros x Hx Hxa Hxi. change (slot co ad (-1)) with (ad !!! 12%nat) in Hxi. rewrite upd_ne by done. by apply Hframe.
Qed.
End maps.

(** ** [bmap] *)

Definition set_addrs ad d := Dinode (type d) (major d) (minor d) (nlink d) (dsize d) ad.

(** No block is free. *)
Definition disk_full (sb : superblock) (co : disk) : Prop := ∀ b, 0 ≤ b < size sb → bused sb co b = true.

Section bmap.
  Context {T U : Type} `{ST : Store T} `{UM : UserMem U} (vb : Z → Prop) (owns : T → disk → disk → list hold → Z → Prop).
  Context `{!StoreLaws T vb owns}.
  Local Abbreviation fst := (fst (T := T) (U := U)).
  Implicit Types (s : fst) (d co : disk) (H : list hold) (k : Z).

(** Between [s] and [s'] only the copy of the disk inode of [ip] changed, to
    [di], beside the store and the memory of the user. *)
Record upto (ip : Z) s s' (di : dinode) : Prop := {
  up_sb : sb s' = sb s;
  up_me : me s' = me s;
  up_cwd : cwd s' = cwd s;
  up_umem : umem s' = umem s;
  up_other j : j ≠ ip → itable s' j = itable s j;
  up_ip : itable s' ip = set_din di (itable s ip)
}.

Lemma upto_refl ip s t : upto ip s (set_store t s) (din (itable s ip)).
Proof. split; try done. simpl. by destruct (itable s ip). Qed.

Lemma upto_trans ip s s1 s2 i1 i2 : upto ip s s1 i1 → upto ip s1 s2 i2 → upto ip s s2 i2.
Proof.
  intros [A1 A2 A3 A4 A5 A6] [B1 B2 B3 B4 B5 B6]. split; try congruence.
  - intros j Hj. by rewrite B5, A5.
  - by rewrite B6, A6.
Qed.

Lemma bmapped_meta sb co ad co' ad' : layout sb → bmapped sb co ad co' ad' → meta_used sb co → meta_used sb co'.
Proof.
  intros Hly Hb Hm b Hr. apply (bm_used _ _ _ _ _ Hb); [|by apply Hm]. pose proof (ly_data _ Hly). lia.
Qed.

(** An inode that the process may work on. *)
Record active s (co : disk) (ip : Z) : Prop := {
  ac_base : base vb s;
  ac_meta : meta_used (sb s) co;
  ac_dev : dev (itable s ip) = ROOTDEV;
  ac_map : map_ok (sb s) co (addrs (din (itable s ip)))
}.

(** What [bmap] and its parts leave: [j] is the place they looked up. *)
Definition looked_up s d co k (ip j a : Z) s' : Prop :=
  ∃ co' ad', let ad := addrs (din (itable s ip)) in
    upto ip s s' (set_addrs ad' (din (itable s ip))) ∧ owns (store s') d co' [] k ∧
    bmapped (sb s) co ad co' ad' ∧ slot co' ad' j = a ∧ (a = 0 → disk_full (sb s) co') ∧
    (slot co ad j ≠ 0 → co' = co ∧ ad' = ad).

Lemma addr_or_alloc_spec s d co k ip e :
  active s co ip → owns (store s) d co [] k → 2 ≤ k → 0 ≤ e ≤ NDIRECT →
  runs (addr_or_alloc ip e) s (looked_up s d co (k - 2) ip (place_of e)).
Proof using All.
  intros [Hb Hmeta Hdev Hm] Ho Hk He. pose proof Hb as [Hly Hvb]. unfold addr_or_alloc. rstep.
  unfold addr_at. set (ad := addrs (din (itable s ip))) in *. simpl. case_if.
  - rewrite Hdev. rcall balloc_spec; try done; [simpl; lia|by intros x ?%elem_of_nil|].
    intros a s1 (t & co' & -> & Ho' & [(-> & -> & Hf)|Ha]).
    + if_true. apply runs_ret. exists co, ad. cbv zeta. split_and!; try done.
      * destruct (upto_refl ip s t) as [U1 U2 U3 U4 U5 U6]. split; try done. rewrite U6. by destruct (itable s ip) as [? ? ? ? ? []].
      * by apply bmapped_refl.
      * by rewrite slot_place.
    + pose proof Ha as (Har & _). pose proof (datastart_pos _ Hly). if_false. rstep. apply runs_ret.
      exists co', (<[Z.to_nat e := a]> ad). cbv zeta. split_and!; try done.
      * split; try done; cbn [itable set_itable set_store]; [by intros j Hj; apply upd_ne|by rewrite upd_eq].
      * by apply bmapped_direct.
      * rewrite slot_place by done. apply list_lookup_total_insert_eq. rewrite (mo_len _ _ _ Hm). lia.
      * lia.
      * by rewrite slot_place.
  - apply runs_ret. exists co, ad. cbv zeta. split_and!; try done.
    + split; try done. by destruct (itable s ip) as [? ? ? ? ? []].
    + eapply owns_le; [exact Ho|lia].
    + by apply bmapped_refl.
    + by rewrite slot_place.
Qed.

Lemma active_next s co ip s' co' ad' :
  active s co ip → upto ip s s' (set_addrs ad' (din (itable s ip))) →
  bmapped (sb s) co (addrs (din (itable s ip))) co' ad' → active s' co' ip.
Proof using All.
  intros [[Hly Hvb] Hmeta Hdev Hm] [U1 U2 U3 U4 U5 U6] Hbm. split; unfold base; rewrite ?U1, ?U6; try done.
  - by eapply bmapped_meta.
  - apply Hbm.
Qed.

Lemma looked_up_le s d co k k' ip j a s' : looked_up s d co k ip j a s' → 0 ≤ k' ≤ k → looked_up s d co k' ip j a s'.
Proof using All.
  intros (co' & ad' & H1 & H2 & H3) Hk. exists co', ad'. split_and!; try apply H3; [done|by eapply owns_le].
Qed.

(** [looked_up] after [bmapped]. *)
Lemma looked_up_after s d co k ip j a s1 s' co1 ad1 :
  active s co ip → upto ip s s1 (set_addrs ad1 (din (itable s ip))) →
  bmapped (sb s) co (addrs (din (itable s ip))) co1 ad1 →
  (slot co (addrs (din (itable s ip))) j ≠ 0 → co1 = co ∧ ad1 = addrs (din (itable s ip))) →
  looked_up s1 d co1 k ip j a s' → looked_up s d co k ip j a s'.
Proof using All.
  intros [[Hly _] _ _ _] Hup Hbm Hsame (co2 & ad2 & H1 & H2 & H3 & H4 & H5 & H6). destruct Hup as [U1 U2 U3 U4 U5 U6].
  rewrite U1, U6 in *. cbn [din set_din addrs set_addrs] in *. exists co2, ad2. cbv zeta. split_and!; try done.
  - destruct H1 as [V1 V2 V3 V4 V5 V6]. split; try congruence.
    + intros i Hi. by rewrite V5, U5.
    + by rewrite V6, U6.
  - by eapply bmapped_trans.
  - intros Hne. destruct (Hsame Hne) as [-> ->]. by apply H6.
Qed.

(** The second half of [bmap]: the entry [n] of the indirect block. *)
Lemma bmap_entry s d co k ip n :
  active s co ip → owns (store s) d co [] k → 3 ≤ k → 0 ≤ n < NINDIRECT →
  addrs (din (itable s ip)) !!! 12%nat ≠ 0 →
  runs (i ← fld id ip;
        bp ← in_store (bread (dev i) (addr_at i NDIRECT));
        x ← in_store (rdata bp);
        addr ← (if get32 x (4 * n) =? 0 then
                  addr ← balloc (dev i);
                  (if truthy addr then
                     in_store (wdata bp (put32 x (4 * n) addr));; in_store (log_write bp)
                   else mret tt);;
                  mret addr
                else mret (get32 x (4 * n)));
        in_store (brelse bp);;
        mret addr) s (looked_up s d co (k - 3) ip (NDIRECT + n)).
Proof using All.
  intros Hac Ho Hk Hn Hne. pose proof Hac as [Hb Hmeta Hdev Hm]. pose proof Hb as [Hly Hvb]. rstep. simpl. unfold addr_at.
  change (Z.to_nat NDIRECT) with 12%nat. rewrite Hdev. set (ad := addrs (din (itable s ip))) in *.
  set (ind := ad !!! 12%nat) in *.
  assert (slot co ad (NDIRECT + n) = get32 (co ind) (4 * n)) as Hslot.
  { unfold slot. rewrite decide_False, decide_False by lia. fold ind. rewrite decide_False by done. f_equal. lia. }
  destruct (mo_data _ _ _ Hm (-1)) as [Hri Hui]; [unfold place_ok; lia|exact Hne|]. change (slot co ad (-1)) with ind in Hri, Hui.
  pose proof (ly_size _ Hly).
  rcall (st_bread vb owns); [exact Ho|by apply Hvb, data_fs|apply not_elem_of_nil|simpl; unfold MAXHELD; lia|].
  intros h s1 (t1 & -> & Ho1). apply runs_bind. eapply runs_done; [eapply (st_rdata vb owns); [exact Ho1|by left]|done|].
  assert (∀ t, upto ip s (set_store t s) (set_addrs ad (din (itable s ip)))) as Hup0.
  { intros t. split; try done. simpl. by destruct (itable s ip) as [? ? ? ? ? []]. }
  destruct (get32 (co ind) (4 * n) =? 0) eqn:E0; bool_prop; cycle 1.
  - apply runs_bind, runs_ret. rcall (st_brelse vb owns); [exact Ho1|]. intros _ s2 (t2 & -> & Ho2). apply runs_ret.
    exists co, ad. cbv zeta. split_and!; try apply Hup0; try done; try lia; [|by apply bmapped_refl].
    eapply owns_le; [exact Ho2|lia].
  - apply runs_bind. rcall (balloc_spec vb owns (set_store t1 s)); [exact Hb|exact Ho1|lia|simpl; lia|done| |].
    { intros x [->|[]%elem_of_nil]%elem_of_cons. exact (conj (proj1 Hri) Hui). }
    intros a s2 (t2 & co' & -> & Ho2 & [(-> & -> & Hf)|Ha]).
    + apply runs_bind, runs_ret, runs_ret. rcall (st_brelse vb owns); [exact Ho2|]. intros _ s3 (t3 & -> & Ho3). apply runs_ret.
      exists co, ad. cbv zeta. split_and!; try apply Hup0; try done; try congruence; [|by apply bmapped_refl].
      eapply owns_le; [exact Ho3|lia].
    + pose proof Ha as (Har & _). pose proof (datastart_pos _ Hly). rewrite truthy_nz by (cbn [sb set_store] in *; lia).
      assert (is_block (co ind)) as Hbi by exact (owns_block _ _ _ _ _ _ Ho).
      apply runs_bind, runs_bind. eapply runs_mono; [eapply (st_wdata vb owns); [exact Ho2|apply is_block_put32; [done|lia|lia]]|].
      intros _ s3 (t3 & -> & Ho3). eapply runs_mono; [eapply (st_log_write vb owns); [exact Ho3|lia]|]. intros _ s4 (t4 & -> & Ho4).
      apply runs_ret. rcall (st_brelse vb owns); [exact Ho4|]. intros _ s5 (t5 & -> & Ho5). apply runs_ret.
      exists (upd co' ind (put32 (co ind) (4 * n) a)), ad. cbv zeta. split_and!; try apply Hup0; try done; try congruence; try lia.
      * by replace (k - 3) with (k - 2 - 1) by lia.
      * apply bmapped_indirect; try done; [|congruence]. intros b. exact (owns_block _ _ _ _ _ _ Ho2).
      * unfold slot. rewrite decide_False, decide_False by lia. fold ind. rewrite decide_False by done.
        rewrite upd_eq. replace (4 * (NDIRECT + n - NDIRECT)) with (4 * n) by lia. destruct Hbi as [Hl _].
        rewrite get32_put32 by lia. apply u32_small. cbn [sb set_store] in *. lia.
      * intros ->. cbn [sb set_store] in *. lia.
      * intros Hs0. fold ad in Hs0. by rewrite Hslot in Hs0.
Qed.

Lemma bmap_spec s d co k ip bn :
  active s co ip → owns (store s) d co [] k → 5 ≤ k → 0 ≤ bn < MAXFILE →
  runs (bmap ip bn) s (looked_up s d co (k - 5) ip bn).
Proof using All.
  intros Hac Ho Hk Hbn. unfold bmap. case_if.
  - eapply runs_mono; [eapply addr_or_alloc_spec; try done; lia|]. intros a s' Hlu.
    replace (place_of bn) with bn in Hlu by (unfold place_of; rewrite decide_False by lia; done).
    eapply looked_up_le; [exact Hlu|lia].
  - if_true. rcall addr_or_alloc_spec; [exact Hac|exact Ho|lia|lia|]. intros ind s1 Hlu.
    change (place_of NDIRECT) with (-1) in Hlu.
    pose proof Hlu as (co1 & ad1 & H1 & H2 & H3 & H4 & H5 & H6). change (slot co1 ad1 (-1)) with (ad1 !!! 12%nat) in H4.
    assert (slot co (addrs (din (itable s ip))) bn ≠ 0 → slot co (addrs (din (itable s ip))) (-1) ≠ 0) as Hind.
    { unfold slot at 1. rewrite decide_False, decide_False by lia. case_decide; done. }
    case_if.
    + apply runs_ret. exists co1, ad1. cbv zeta. split_and!; try done; auto.
      * eapply owns_le; [exact H2|lia].
      * unfold slot. rewrite decide_False, decide_False by lia. rewrite decide_True; [done|congruence].
    + pose proof (active_next _ _ _ _ _ _ Hac H1 H3) as Hac1.
      assert (addrs (din (itable s1 ip)) = ad1) as Had by (by rewrite (up_ip _ _ _ _ H1)).
      eapply runs_mono.
      * replace ind with (addr_at (itable s1 ip) NDIRECT) by (unfold addr_at; by rewrite Had).
        eapply (bmap_entry s1 d co1 (k - 2) ip (bn - NDIRECT)); try done; [lia|lia|by rewrite Had, H4].
      * intros a s' Hlu2. replace (NDIRECT + (bn - NDIRECT)) with bn in Hlu2 by lia.
        replace (k - 2 - 3) with (k - 5) in Hlu2 by lia.
        eapply looked_up_after; try done; auto.
Qed.

(** A place that has a block: nothing changes. *)
Lemma bmap_hit s d co k ip bn :
  active s co ip → owns (store s) d co [] k → 0 ≤ bn < MAXFILE →
  slot co (addrs (din (itable s ip))) bn ≠ 0 →
  runs (bmap ip bn) s (λ a s', a = slot co (addrs (din (itable s ip))) bn ∧ ∃ t, s' = set_store t s ∧ owns t d co [] k).
Proof using All.
  intros [[Hly Hvb] Hmeta Hdev Hm] Ho Hbn. set (ad := addrs (din (itable s ip))) in *. unfold slot, bmap.
  rewrite (decide_False (P := bn = -1)) by lia. case_decide.
  - intros Hne. if_true. unfold addr_or_alloc. rstep. unfold addr_at. simpl. fold ad. if_false. apply runs_ret.
    split; [done|]. exists (store s). by destruct s.
  - case_decide as Hi; [done|]. intros Hne. if_false. if_true. unfold addr_or_alloc.
    destruct (mo_data _ _ _ Hm (-1)) as [Hri Hui]; [unfold place_ok; lia|exact Hi|].
    apply runs_bind. rstep. unfold addr_at. simpl. fold ad. change (Z.to_nat NDIRECT) with 12%nat. if_false. apply runs_ret.
    if_false. rstep. simpl. rewrite Hdev.
    rcall (st_bread vb owns); [exact Ho|by apply Hvb, data_fs|apply not_elem_of_nil|simpl; unfold MAXHELD; lia|].
    intros h s1 (t1 & -> & Ho1). apply runs_bind. eapply runs_done; [eapply (st_rdata vb owns); [exact Ho1|by left]|done|].
    if_false. apply runs_bind, runs_ret. rcall (st_brelse vb owns); [exact Ho1|]. intros _ s2 (t2 & -> & Ho2).
    apply runs_ret. split; [done|]. by exists t2.
Qed.
End bmap.
