(* ===== verification/FsInode.v ===== *)
(** * Inodes on the disk

    [put_dinode] and [get_dinode] are inverse, and touch one inode of the block
    only; [iupdate] stores the copy of an inode, [ilock] reads it. *)

From S2P Require Import Prelude Riscv Memory Locks Disk Tx Fs FsAlloc FsMap.

(** ** Bytes at an offset *)

Lemma get_at_length x off n : 0 ≤ off → off + Z.of_nat n ≤ Z.of_nat (length x) → length (get_at x off n) = n.
Proof. intros. unfold get_at. rewrite length_take, length_drop. lia. Qed.

Lemma lookup_get_at x off n i : (i < n)%nat → get_at x off n !! i = x !! (Z.to_nat off + i)%nat.
Proof. intros. unfold get_at. rewrite lookup_take, decide_True, lookup_drop by done. done. Qed.

Lemma get_at_get_at x off n i m :
  0 ≤ off → 0 ≤ i → i + Z.of_nat m ≤ Z.of_nat n → get_at x (off + i) m = get_at (get_at x off n) i m.
Proof.
  intros. apply list_eq. intros j. destruct (decide (j < m)%nat).
  - rewrite !lookup_get_at by lia. f_equal. lia.
  - unfold get_at at 1 2. rewrite !lookup_take, !decide_False by done. done.
Qed.

Lemma put_at_app x off a b n :
  0 ≤ off → n = Z.of_nat (length a) → off + n + Z.of_nat (length b) ≤ Z.of_nat (length x) →
  put_at (put_at x off a) (off + n) b = put_at x off (a ++ b).
Proof.
  intros ? -> ?. apply list_eq. intros i.
  rewrite lookup_put_at, lookup_put_at, lookup_put_at by (rewrite ?put_at_length, ?length_app by lia; lia).
  rewrite length_app. repeat case_decide; try lia; try done.
  - rewrite lookup_app_r by lia. f_equal. lia.
  - rewrite lookup_app_l by lia. done.
Qed.

Lemma get_at_nil_l x n : get_at x 0 n = take n x.
Proof. unfold get_at. by rewrite drop_0. Qed.

(** ** The bytes of a [struct dinode] *)

Definition dinode_bytes (d : dinode) : list Z :=
  le_bytes 2 (type d) ++ le_bytes 2 (major d) ++ le_bytes 2 (minor d) ++ le_bytes 2 (nlink d) ++
  le_bytes 4 (dsize d) ++ mjoin (le_bytes 4 <$> addrs d).

Record dinode_ok (d : dinode) : Prop := {
  do_type : - 2 ^ 15 ≤ type d < 2 ^ 15;
  do_major : - 2 ^ 15 ≤ major d < 2 ^ 15;
  do_minor : - 2 ^ 15 ≤ minor d < 2 ^ 15;
  do_nlink : - 2 ^ 15 ≤ nlink d < 2 ^ 15;
  do_size : 0 ≤ dsize d < 2 ^ 32;
  do_len : length (addrs d) = 13%nat;
  do_addrs : Forall (λ a, 0 ≤ a < 2 ^ 32) (addrs d)
}.

Lemma words_bytes_cons a l : mjoin (le_bytes 4 <$> a :: l) = le_bytes 4 a ++ mjoin (le_bytes 4 <$> l).
Proof. done. Qed.

Lemma words_bytes_length l : length (mjoin (le_bytes 4 <$> l)) = (4 * length l)%nat.
Proof.
  induction l as [|a l IH]; [done|]. rewrite words_bytes_cons, length_app, IH, le_bytes_length. simpl. lia.
Qed.

Lemma words_bytes_bytes l : Forall is_byte (mjoin (le_bytes 4 <$> l)).
Proof.
  induction l as [|a l IH]; [constructor|]. rewrite words_bytes_cons. apply Forall_app. split; [apply le_bytes_bytes|done].
Qed.

Lemma dinode_bytes_length d : length (addrs d) = 13%nat → length (dinode_bytes d) = 64%nat.
Proof. intros H. unfold dinode_bytes. by rewrite !length_app, !le_bytes_length, words_bytes_length, H. Qed.

Lemma dinode_bytes_bytes d : Forall is_byte (dinode_bytes d).
Proof. unfold dinode_bytes. rewrite !Forall_app. auto 10 using le_bytes_bytes, words_bytes_bytes. Qed.

Lemma words_ext x y off off' n :
  0 ≤ off → 0 ≤ off' → get_at x off (4 * n) = get_at y off' (4 * n) → words x off n = words y off' n.
Proof.
  revert off off'. induction n as [|n IH]; intros off off' Ho Ho' He; [done|]. cbn [words]. f_equal.
  - unfold get32. f_equal. rewrite <-(Z.add_0_r off), <-(Z.add_0_r off').
    rewrite !(get_at_get_at _ _ (4 * S n) 0 4) by lia. by rewrite He.
  - apply IH; [lia|lia|]. rewrite !(get_at_get_at _ _ (4 * S n) 4 (4 * n)) by lia. by rewrite He.
Qed.

(** An inode is in the 64 bytes at its offset. *)
Lemma get_dinode_ext x y off off' :
  0 ≤ off → 0 ≤ off' → get_at x off 64 = get_at y off' 64 → get_dinode x off = get_dinode y off'.
Proof.
  intros Ho Ho' He.
  assert (∀ i n, 0 ≤ i → i + Z.of_nat n ≤ 64 → get_at x (off + i) n = get_at y (off' + i) n) as Hf.
  { intros i n Hi Hn. rewrite !(get_at_get_at _ _ 64 i n) by lia. by rewrite He. }
  pose proof (Hf 0 2%nat ltac:(lia) ltac:(lia)) as H0. rewrite !Z.add_0_r in H0.
  unfold get_dinode, get16, get32. f_equal; rewrite ?Hf, ?H0 by lia; try done.
  apply words_ext; [lia|lia|]. apply Hf; lia.
Qed.

Lemma s16_mod t : - 2 ^ 15 ≤ t < 2 ^ 15 → s16 (t mod 256 ^ 2) = t.
Proof.
  intros Ht. unfold s16. change (256 ^ 2) with (2 ^ 16).
  rewrite Zplus_mod_idemp_l, Z.mod_small; lia.
Qed.

Lemma dinode_roundtrip d : dinode_ok d → get_dinode (dinode_bytes d) 0 = d.
Proof.
  destruct d as [t mj mn nl sz ad]. intros [H1 H2 H3 H4 H5 H6 H7]; cbn [type major minor nlink dsize addrs] in *.
  do 13 (destruct ad as [|? ad]; [discriminate|]). destruct ad; [|discriminate]. rewrite !Forall_cons in H7.
  assert (∀ v, 0 ≤ v < 2 ^ 32 → le_val (le_bytes 4 v) = v) as Hw.
  { intros v Hv. rewrite le_val_le_bytes. by apply Z.mod_small. }
  assert (∀ v, - 2 ^ 15 ≤ v < 2 ^ 15 → s16 (le_val (le_bytes 2 v)) = v) as Hs.
  { intros v Hv. rewrite le_val_le_bytes. by apply s16_mod. }
  unfold get_dinode, get16, get32, words. destruct_and!. f_equal; [by apply Hs|by apply Hs|by apply Hs|by apply Hs|by apply Hw|].
  repeat (f_equal; [by apply Hw|]). f_equal. by apply Hw.
Qed.

Lemma put_dinode_bytes x off d :
  0 ≤ off → off + 64 ≤ Z.of_nat (length x) → length (addrs d) = 13%nat →
  put_dinode x off d = put_at x off (dinode_bytes d).
Proof.
  intros Ho Hl Ha. unfold put_dinode, put16, put32, put_words, dinode_bytes.
  pose proof (words_bytes_length (addrs d)) as Hw. rewrite Ha in Hw.
  rewrite (put_at_app x off (le_bytes 2 (type d)) _ 2) by (rewrite ?le_bytes_length; lia).
  do 4 (rewrite (put_at_app x off) by (rewrite ?length_app, ?le_bytes_length, ?Hw; simpl; lia)).
  by rewrite <-!app_assoc.
Qed.

Lemma is_block_put_at x off l :
  is_block x → 0 ≤ off → off + Z.of_nat (length l) ≤ BSIZE → Forall is_byte l → is_block (put_at x off l).
Proof. intros [Hl Hb] Ho Hr Hf. split; [rewrite put_at_length; lia|by apply put_at_bytes]. Qed.

Lemma is_block_put_dinode x off d :
  is_block x → 0 ≤ off → off + 64 ≤ BSIZE → length (addrs d) = 13%nat → is_block (put_dinode x off d).
Proof.
  intros Hx Ho Hr Ha. rewrite put_dinode_bytes by (destruct Hx; lia).
  apply is_block_put_at; [done|done|rewrite dinode_bytes_length by done; lia|apply dinode_bytes_bytes].
Qed.

Lemma get_put_dinode x off d :
  0 ≤ off → off + 64 ≤ Z.of_nat (length x) → dinode_ok d → get_dinode (put_dinode x off d) off = d.
Proof.
  intros Ho Hr Hd. pose proof (do_len _ Hd) as Hl. pose proof (dinode_bytes_length d Hl) as Hbl.
  rewrite put_dinode_bytes by done. rewrite <-(dinode_roundtrip d Hd) at 2.
  apply get_dinode_ext; [done|lia|]. rewrite <-Hbl, get_put_at_same by lia.
  unfold get_at. by rewrite drop_0, take_ge by lia.
Qed.

Lemma get_put_dinode_other x off off' d :
  0 ≤ off → off + 64 ≤ Z.of_nat (length x) → 0 ≤ off' → off' + 64 ≤ off ∨ off + 64 ≤ off' →
  length (addrs d) = 13%nat → get_dinode (put_dinode x off d) off' = get_dinode x off'.
Proof.
  intros Ho Hr Ho' Hd Ha. rewrite put_dinode_bytes by done. apply get_dinode_ext; [done|done|].
  apply get_put_at_other; rewrite ?dinode_bytes_length by done; lia.
Qed.

(** ** Inode blocks *)

(** Inode [n] as the disk has it. *)
Definition disk_inode (sb : superblock) (co : disk) (n : Z) : dinode := get_dinode (co (IBLOCK n sb)) (ioff n).

Definition is_iblock (sb : superblock) (x : Z) : Prop := inodestart sb ≤ x < bmapstart sb.

Section iblocks.
  Context (sb : superblock) (Hly : layout sb).

Lemma IBLOCK_eq n : 0 ≤ n < ninodes sb → IBLOCK n sb = n / IPB + inodestart sb.
Proof.
  intros Hn. destruct Hly as [H1 H2 H3 H4]. unfold IBLOCK. apply u32_small.
  pose proof (Z.div_pos n IPB). pose proof (Z.div_le_mono n (ninodes sb) IPB). pose proof (Z.div_pos (size sb) BPB).
  unfold datastart in *. lia.
Qed.

Lemma IBLOCK_range n : 0 ≤ n < ninodes sb → is_iblock sb (IBLOCK n sb).
Proof.
  intros Hn. rewrite IBLOCK_eq by done. destruct Hly as [H1 H2 H3 H4]. unfold is_iblock.
  pose proof (Z.div_pos n IPB). pose proof (Z.div_le_mono n (ninodes sb) IPB). lia.
Qed.

Lemma iblock_fs x : is_iblock sb x → fs_block sb x.
Proof.
  unfold is_iblock, fs_block. destruct Hly as [H1 H2 H3 H4]. unfold datastart in *. pose proof (Z.div_pos (size sb) BPB). lia.
Qed.

Lemma iblock_not_bitmap x : is_iblock sb x → ¬ is_bitmap sb x ∧ x < datastart sb.
Proof.
  unfold is_iblock, is_bitmap, datastart. destruct Hly as [H1 H2 H3 H4]. pose proof (Z.div_pos (size sb) BPB). lia.
Qed.

Lemma ioff_range n : 0 ≤ ioff n ∧ ioff n + 64 ≤ BSIZE.
Proof. unfold ioff. pose proof (Z.mod_pos_bound n IPB ltac:(lia)). lia. Qed.

(** Two inodes of one block are apart. *)
Lemma ioff_apart n n' :
  0 ≤ n < ninodes sb → 0 ≤ n' < ninodes sb → n ≠ n' → IBLOCK n sb = IBLOCK n' sb →
  ioff n' + 64 ≤ ioff n ∨ ioff n + 64 ≤ ioff n'.
Proof.
  intros Hn Hn' Hne He. rewrite !IBLOCK_eq in He by done. unfold ioff.
  pose proof (Z.div_mod n IPB ltac:(lia)). pose proof (Z.div_mod n' IPB ltac:(lia)).
  assert (n mod IPB ≠ n' mod IPB) by (intros E; apply Hne; lia). lia.
Qed.

(** [co'] is [co] with [di] stored as inode [n]. *)
Definition inode_stored (co co' : disk) (n : Z) (di : dinode) : Prop :=
  disk_inode sb co' n = di ∧
  (∀ n', 0 ≤ n' < ninodes sb → n' ≠ n → disk_inode sb co' n' = disk_inode sb co n') ∧
  (∀ x, ¬ is_iblock sb x → co' x = co x).

Lemma inode_stored_put co n di :
  0 ≤ n < ninodes sb → is_block (co (IBLOCK n sb)) → dinode_ok di →
  inode_stored co (upd co (IBLOCK n sb) (put_dinode (co (IBLOCK n sb)) (ioff n) di)) n di.
Proof using Hly.
  intros Hn [Hl Hb] Hd. pose proof (ioff_range n). split_and!.
  - unfold disk_inode. rewrite upd_eq. apply get_put_dinode; [lia|lia|done].
  - intros n' Hn' Hne. unfold disk_inode. destruct (decide (IBLOCK n' sb = IBLOCK n sb)) as [E|E].
    + rewrite E, upd_eq. pose proof (ioff_range n'). apply get_put_dinode_other; [lia|lia|lia| |apply Hd].
      apply ioff_apart; try done; congruence.
    + by rewrite upd_ne.
  - intros x Hx. apply upd_ne. intros ->. by apply Hx, IBLOCK_range.
Qed.
End iblocks.

Section inode.
  Context {T U : Type} `{ST : Store T} `{UM : UserMem U} (vb : Z → Prop) (owns : T → disk → disk → list hold → Z → Prop).
  Context `{!StoreLaws T vb owns}.
  Local Abbreviation fst := (fst (T := T) (U := U)).
  Implicit Types (s : fst) (d co : disk) (H : list hold) (k : Z).

Lemma iupdate_spec s d co k ip :
  base vb s → owns (store s) d co [] k → 1 ≤ k → dev (itable s ip) = ROOTDEV →
  0 ≤ inum (itable s ip) < ninodes (sb s) → dinode_ok (din (itable s ip)) →
  runs (iupdate ip) s (λ _ s', ∃ t co', s' = set_store t s ∧ owns t d co' [] (k - 1) ∧
    inode_stored (sb s) co co' (inum (itable s ip)) (din (itable s ip))).
Proof using All.
  intros [Hly Hvb] Ho Hk Hdev Hn Hd. unfold iupdate. rstep. rstep. simpl. rewrite Hdev.
  pose proof (IBLOCK_range _ Hly _ Hn) as Hib. pose proof (ioff_range (inum (itable s ip))).
  assert (is_block (co (IBLOCK (inum (itable s ip)) (sb s)))) as Hblk by exact (owns_block _ _ _ _ _ _ Ho).
  rcall (st_bread vb owns); [exact Ho|by apply Hvb, iblock_fs|apply not_elem_of_nil|simpl; unfold MAXHELD; lia|].
  intros h s1 (t1 & -> & Ho1). apply runs_bind. eapply runs_done; [eapply (st_rdata vb owns); [exact Ho1|by left]|done|].
  rcall (st_wdata vb owns); [exact Ho1|apply is_block_put_dinode; [done|lia|lia|apply Hd]|].
  intros _ s2 (t2 & -> & Ho2). rcall (st_log_write vb owns); [exact Ho2|lia|]. intros _ s3 (t3 & -> & Ho3).
  eapply runs_mono; [eapply (st_brelse vb owns); exact Ho3|]. intros _ s4 (t4 & -> & Ho4).
  eexists _, _. split_and!; [reflexivity|exact Ho4|]. by apply inode_stored_put.
Qed.
End inode.
