(* ===== verification/FsFile.v ===== *)
(** * The contents of a file

    [file_byte] is byte [p] of a file.  [readi] returns the bytes asked for,
    as far as the file goes; [writei] replaces them and keeps all other bytes
    of all files. *)

From S2P Require Import Prelude Riscv Memory Disk Tx Fs FsAlloc FsMap FsInode.

Definition file_byte (co : disk) (ad : list Z) (p : Z) : Z := get8 (co (slot co ad (p / BSIZE))) (p mod BSIZE).

Definition slice (co : disk) (ad : list Z) (off : Z) (n : nat) : list Z :=
  (λ i, file_byte co ad (off + i)) <$> seqZ 0 (Z.of_nat n).

(** The first [sz] bytes have blocks. *)
Definition filled (co : disk) (ad : list Z) (sz : Z) : Prop :=
  ∀ bn, 0 ≤ bn → bn * BSIZE < sz → slot co ad bn ≠ 0.

Lemma slice_length co ad off n : length (slice co ad off n) = n.
Proof. unfold slice. rewrite length_fmap, length_seqZ. lia. Qed.

Lemma lookup_slice co ad off n i : (i < n)%nat → slice co ad off n !! i = Some (file_byte co ad (off + Z.of_nat i)).
Proof. intros. unfold slice. rewrite list_lookup_fmap, lookup_seqZ_lt by lia. done. Qed.

Lemma slice_app co ad off n m : slice co ad off (n + m) = slice co ad off n ++ slice co ad (off + Z.of_nat n) m.
Proof.
  apply list_eq. intros i. destruct (decide (i < n)%nat).
  - rewrite lookup_app_l by (rewrite slice_length; lia). rewrite !lookup_slice by lia. done.
  - rewrite lookup_app_r by (rewrite slice_length; lia). rewrite slice_length.
    destruct (decide (i < n + m)%nat).
    + rewrite !lookup_slice by lia. do 2 f_equal. lia.
    + rewrite !lookup_ge_None_2 by (rewrite slice_length; lia). done.
Qed.

Lemma get8_lookup x i : 0 ≤ i < Z.of_nat (length x) → x !! Z.to_nat i = Some (get8 x i).
Proof. intros. unfold get8. apply list_lookup_lookup_total_lt. lia. Qed.

(** The offset [off + i] is in the block of [off]. *)
Lemma same_block off i :
  0 ≤ off → 0 ≤ i → i < BSIZE - off mod BSIZE → (off + i) / BSIZE = off / BSIZE ∧ (off + i) mod BSIZE = off mod BSIZE + i.
Proof.
  intros Ho Hi Hr. pose proof (Z.mod_pos_bound off BSIZE ltac:(lia)). pose proof (Z.div_mod off BSIZE ltac:(lia)) as Hd.
  assert (off + i = BSIZE * (off / BSIZE) + (off mod BSIZE + i)) as He by lia. split.
  - symmetry. eapply Z.div_unique_pos; [|exact He]. lia.
  - symmetry. eapply Z.mod_unique_pos; [|exact He]. lia.
Qed.

(** The bytes of one block. *)
Lemma slice_block co ad off m :
  0 ≤ off → Z.of_nat m ≤ BSIZE - off mod BSIZE → is_block (co (slot co ad (off / BSIZE))) →
  get_at (co (slot co ad (off / BSIZE))) (off mod BSIZE) m = slice co ad off m.
Proof.
  intros Ho Hm [Hl _]. pose proof (Z.mod_pos_bound off BSIZE ltac:(lia)). apply list_eq. intros i.
  destruct (decide (i < m)%nat).
  - rewrite lookup_get_at, lookup_slice by done. unfold file_byte.
    destruct (same_block off (Z.of_nat i)) as [-> ->]; [lia|lia|lia|].
    rewrite <-get8_lookup by lia. f_equal. lia.
  - rewrite !lookup_ge_None_2; [done|rewrite slice_length; lia|].
    rewrite get_at_length by lia. lia.
Qed.

(** The rounds of the loops of [readi] and [writei]. *)
Definition chunk (off n : Z) : Z := Z.min n (BSIZE - off mod BSIZE).

Lemma chunk_bounds off n : 0 < n → 0 < chunk off n ≤ n ∧ chunk off n ≤ BSIZE - off mod BSIZE.
Proof. intros. unfold chunk. pose proof (Z.mod_pos_bound off BSIZE ltac:(lia)). lia. Qed.

Class UserMemLaws (U : Type) `{UserMem U} : Prop := {
  copyout_total va l u : runs (copyout va l) u (λ r _, r = 0 ∨ r = -1)
}.

Section file.
  Context {T U : Type} `{ST : Store T} `{UM : UserMem U} (vb : Z → Prop) (owns : T → disk → disk → list hold → Z → Prop).
  Context `{!StoreLaws T vb owns} `{!UserMemLaws U}.
  Local Abbreviation fst := (fst (T := T) (U := U)).
  Implicit Types (s : fst) (d co : disk) (H : list hold) (k : Z).

(** What [readi] changes. *)
Definition after_read s s' : Prop := ∃ t u, s' = set_umem u (set_store t s).

Lemma after_read_trans s s1 s2 : after_read s s1 → after_read s1 s2 → after_read s s2.
Proof. intros (t & u & ->) (t' & u' & ->). by exists t', u'. Qed.

Lemma either_copyout_spec s dst tot l :
  runs (either_copyout dst tot l) s (λ r s', (∃ u, s' = set_umem u s) ∧ (r = 0 ∨ r = -1 ∧ ∃ va, dst = User va)).
Proof using All.
  destruct dst as [bytes|va]; simpl.
  - apply runs_ret. split; [exists (umem s); by destruct s|by left].
  - pose proof (copyout_total (u64 (va + tot)) l (umem s)) as Hc. revert Hc.
    unfold runs, returns, in_umem, zoom. simpl. destruct (copyout _ _ _) as [r u t| | | | |]; try done.
    intros [Hw Hr]. split; [done|]. split; [by exists u|]. destruct Hr; [by left|right; eauto].
Qed.

(** The result of [readi]: all the bytes, or a failed copy to the user. *)
Definition read_result (dst : place) co ad off (n : nat) (r : Z) (l : list Z) : Prop :=
  (r = Z.of_nat n ∧ l = slice co ad off n) ∨
  (r = -1 ∧ (∃ va, dst = User va) ∧ ∃ m, (m < n)%nat ∧ l = slice co ad off m).

Lemma active_same s s' co ip :
  active vb s co ip → sb s' = sb s → itable s' = itable s → active vb s' co ip.
Proof. intros [[H1 H2] H3 H4 H5] E1 E2. split; unfold base; rewrite ?E1, ?E2; done. Qed.

Lemma readi_loop_spec fuel s d co k ip dst off0 n tot acc :
  active vb s co ip → owns (store s) d co [] k → let ad := addrs (din (itable s ip)) in
  filled co ad (off0 + n) → off0 + n ≤ MAXFILE * BSIZE → 0 ≤ off0 → 0 ≤ tot ≤ n →
  acc = slice co ad off0 (Z.to_nat tot) → n - tot < Z.of_nat fuel →
  runs (readi_loop fuel ip dst (off0 + tot) n tot acc) s (λ r s', after_read s s' ∧ owns (store s') d co [] k ∧
    read_result dst co ad off0 (Z.to_nat n) r.1 r.2).
Proof using All.
  intros Hac Ho ad Hfill Hmax Ho0 Htot Hacc Hfuel. revert s tot acc Hac Ho ad Hfill Htot Hacc Hfuel.
  induction fuel as [|fuel IH]; intros s tot acc Hac Ho ad Hfill Htot Hacc Hfuel; [lia|]. cbn [readi_loop].
  case_if; cycle 1.
  { apply runs_ret. assert (tot = n) as -> by lia. split; [exists (store s), (umem s); by destruct s|]. split; [done|].
    left. split; [simpl; lia|done]. }
  set (off := off0 + tot) in *. pose proof (Z.mod_pos_bound off BSIZE ltac:(lia)) as Hmod.
  pose proof (Z.div_mod off BSIZE ltac:(lia)) as Hdiv. pose proof (Z.div_pos off BSIZE ltac:(lia) ltac:(lia)).
  assert (off / BSIZE < MAXFILE) by (apply Z.div_lt_upper_bound; lia).
  assert (slot co ad (off / BSIZE) ≠ 0) as Hs by (apply Hfill; lia).
  rcall (bmap_hit vb owns s d co k ip (off / BSIZE)); [done|done|lia|exact Hs|].
  intros a s1 (-> & t1 & -> & Ho1). fold ad. if_false. rstep. simpl.
  pose proof Hac as [[Hly Hvb] Hmeta Hdev Hm]. rewrite Hdev.
  destruct (mo_data _ _ _ Hm (off / BSIZE)) as [Hr Hu]; [unfold place_ok; lia|exact Hs|].
  rcall (st_bread vb owns); [exact Ho1|by apply Hvb, data_fs|apply not_elem_of_nil|simpl; unfold MAXHELD; lia|].
  intros h s2 (t2 & -> & Ho2). fold (chunk off (n - tot)). pose proof (chunk_bounds off (n - tot) ltac:(lia)) as Hch.
  set (m := chunk off (n - tot)) in *.
  apply runs_bind. eapply runs_done; [eapply (st_rdata vb owns); [exact Ho2|by left]|done|]. fold ad.
  rewrite slice_block; [|lia|lia|exact (owns_block _ _ _ _ _ _ Ho)].
  rcall either_copyout_spec. intros r s3 [[u ->] Hr3]. destruct Hr3 as [->|[-> [va ->]]].
  - if_false. rcall (st_brelse vb owns); [exact Ho2|]. intros _ s4 (t4 & -> & Ho4). rewrite u32_small by lia.
    unfold off at 1. rewrite <-Z.add_assoc. eapply runs_mono.
    + apply (IH (set_store t4 (set_umem u (set_store t2 (set_store t1 s))))); try done; try lia.
      rewrite Hacc. replace (Z.to_nat (tot + m)) with (Z.to_nat tot + Z.to_nat m)%nat by lia.
        rewrite slice_app. f_equal. f_equal. lia.
    + intros rl s5 (Ha5 & Ho5 & Hr5). split_and!; [|done|exact Hr5].
      eapply after_read_trans; [|exact Ha5]. by exists t4, u.
  - if_true. rcall (st_brelse vb owns); [exact Ho2|]. intros _ s4 (t4 & -> & Ho4). apply runs_ret.
    split_and!; [by exists t4, u|done|]. right. split_and!; [done|by exists va|]. exists (Z.to_nat tot).
    split; [lia|done].
Qed.

(** How many bytes [readi] copies. *)
Definition read_count (sz off n : Z) : Z :=
  if (off >? sz) || (u32 (off + n) <? off) then 0 else Z.min n (sz - off).

Lemma readi_spec s d co k ip dst off n :
  active vb s co ip → owns (store s) d co [] k →
  let di := din (itable s ip) in
  filled co (addrs di) (dsize di) → dsize di ≤ MAXFILE * BSIZE → 0 ≤ off < 2 ^ 32 → 0 ≤ n < 2 ^ 32 →
  runs (readi ip dst off n) s (λ r s', after_read s s' ∧ owns (store s') d co [] k ∧
    read_result dst co (addrs di) off (Z.to_nat (read_count (dsize di) off n)) r.1 r.2).
Proof using All.
  intros Hac Ho di Hfill Hmax Hoff Hn. unfold readi, read_count. rstep. cbv zeta.
  change (id (itable s ip)) with (itable s ip). fold di. case_if.
  - apply runs_ret. split_and!; [exists (store s), (umem s); by destruct s|done|]. by left.
  - assert (u32 (off + n) = off + n) as Hw.
    { unfold u32 in *. destruct (Z.lt_ge_cases (off + n) (2 ^ 32)); [apply Z.mod_small; lia|].
      rewrite (Z.mod_eq (off + n)) in * by lia. assert ((off + n) / 2 ^ 32 = 1) as Hq.
      { symmetry. apply (Z.div_unique_pos _ _ 1 (off + n - 2 ^ 32)); lia. }
      rewrite Hq in *. lia. }
    rewrite Hw in *. replace (if off + n >? dsize di then dsize di - off else n) with (Z.min n (dsize di - off)) by (case_if; lia).
    pose proof (readi_loop_spec (S (Z.to_nat (Z.min n (dsize di - off)))) s d co k ip dst off (Z.min n (dsize di - off)) 0 []) as Hl.
    rewrite Z.add_0_r in Hl. apply Hl; try done; fold di; try lia.
    intros bn Hb1 Hb2. apply Hfill; lia.
Qed.
End file.
