(* ===== verification/FsWrite.v ===== *)
(** * Writing a file

    [fmapped] is what [writei] may do to the blocks of the disk: those of the
    file and free ones change, no others.  [writei_spec] says what the file
    contains afterwards. *)

From S2P Require Import Prelude Riscv Memory Disk Tx Fs FsAlloc FsMap FsInode FsFile.

Record fmapped (sb : superblock) (co : disk) (ad : list Z) (co' : disk) (ad' : list Z) : Prop := {
  fm_ok : map_ok sb co' ad';
  fm_old j : place_ok j → slot co ad j ≠ 0 → slot co' ad' j = slot co ad j;
  fm_new j : place_ok j → slot co ad j = 0 → slot co' ad' j ≠ 0 → bused sb co (slot co' ad' j) = false;
  fm_used b : 0 ≤ b < size sb → bused sb co b = true → bused sb co' b = true;
  fm_leak b : 0 ≤ b < size sb → bused sb co b = false → bused sb co' b = true → ∃ j, place_ok j ∧ slot co' ad' j = b ∧ b ≠ 0;
  fm_frame x : 0 < x → ¬ is_bitmap sb x → (x < datastart sb ∨ x < size sb ∧ bused sb co x = true) →
    (∀ j, place_ok j → slot co ad j ≠ x) → co' x = co x
}.

Section writes.
  Context (sb : superblock) (Hly : layout sb).
  Implicit Types (co : disk) (ad : list Z).

Lemma bmapped_fmapped co ad co' ad' : bmapped sb co ad co' ad' → fmapped sb co ad co' ad'.
Proof.
  intros [A1 A2 A3 A4 A5 A6]. split; try done.
  - intros j Hj H0 H1. by apply A3.
  - intros x Hx Hb Hu Hs. apply A6; [done|done|]. apply not_eq_sym, Hs. unfold place_ok. lia.
Qed.

Lemma fmapped_trans co ad co1 ad1 co2 ad2 :
  fmapped sb co ad co1 ad1 → fmapped sb co1 ad1 co2 ad2 → fmapped sb co ad co2 ad2.
Proof using Hly.
  intros [A1 A2 A3 A4 A5 A6] [B1 B2 B3 B4 B5 B6]. split; [done|..].
  - intros j Hj Hs. rewrite B2; rewrite ?A2; done.
  - intros j Hj Hs Hs2. destruct (decide (slot co1 ad1 j = 0)) as [E|E].
    + pose proof (B3 j Hj E Hs2) as C1. destruct (mo_data _ _ _ B1 j Hj Hs2) as [Hr _].
      pose proof (data_nonneg _ Hly _ (proj1 Hr)).
      destruct (bused sb co (slot co2 ad2 j)) eqn:Eu; [|done]. apply A4 in Eu; [congruence|lia].
    + rewrite (B2 j Hj E). by apply A3.
  - intros b Hb Hu. by apply B4, A4.
  - intros b Hb Hu Hu2. destruct (bused sb co1 b) eqn:E; [|by apply B5].
    destruct (A5 b Hb Hu E) as (j & Hj & Hs & H0). exists j. split_and!; [done| |done]. rewrite B2; congruence.
  - intros x Hx Hb Hu Hs. rewrite B6; [by apply A6|done|done| |].
    + destruct Hu as [Hu|[H1 Hu]]; [by left|right]. split; [done|]. apply A4; [lia|done].
    + intros j Hj Heq. destruct (decide (slot co ad j = 0)) as [E|E].
      * pose proof (A3 j Hj E) as C1. destruct (mo_data _ _ _ A1 j Hj) as [Hr _]; [lia|].
        rewrite Heq in *. destruct Hu as [?|[_ Hu]]; [lia|]. rewrite C1 in Hu; [done|lia].
      * apply (Hs j Hj). by rewrite <-A2.
Qed.

(** A block of the contents is overwritten. *)
Lemma slot_write co ad j x i :
  map_ok sb co ad → place_ok j → 0 ≤ j → slot co ad j ≠ 0 → slot (upd co (slot co ad j) x) ad i = slot co ad i.
Proof.
  intros Hm Hj Hj0 Hs. apply slot_ext. intros Hi. apply upd_ne. intros E.
  assert (-1 = j) as <-; [|lia]. apply (mo_inj _ _ _ Hm); [unfold place_ok; lia|done|exact E|exact Hi].
Qed.

Lemma fmapped_write co ad j x :
  map_ok sb co ad → place_ok j → 0 ≤ j → slot co ad j ≠ 0 → fmapped sb co ad (upd co (slot co ad j) x) ad.
Proof using Hly.
  intros Hm Hj Hj0 Hs. pose proof (slot_write co ad j x) as Hw. destruct (mo_data _ _ _ Hm j Hj Hs) as [Hr Hu].
  assert (∀ b, 0 ≤ b < size sb → bused sb (upd co (slot co ad j) x) b = bused sb co b) as Hused.
  { intros b Hb. apply bused_ext, upd_ne. pose proof (BBLOCK_bitmap sb Hly b Hb) as Hbm. unfold is_bitmap in Hbm. lia. }
  split.
  - split; [apply Hm|..].
    + intros i Hi. rewrite Hw by done. intros Hne. destruct (mo_data _ _ _ Hm i Hi Hne) as [Hri Hui].
      pose proof (data_nonneg _ Hly _ (proj1 Hri)). split; [done|]. rewrite Hused by lia. done.
    + intros i i' Hi Hi'. rewrite !Hw by done. by apply Hm.
  - intros i Hi Hne. by rewrite Hw.
  - intros i Hi H0. by rewrite Hw.
  - intros b Hb. by rewrite Hused.
  - intros b Hb. rewrite Hused by done. congruence.
  - intros y Hy Hb Huy Hsy. apply upd_ne. apply not_eq_sym. by apply Hsy.
Qed.

(** [bmap] keeps the contents. *)
Lemma bmapped_keep co ad co1 ad1 lim p :
  bmapped sb co ad co1 ad1 → map_ok sb co ad → filled co ad lim → 0 ≤ p < lim → lim ≤ MAXFILE * BSIZE →
  let bp := p / BSIZE in
  slot co ad bp ≠ 0 ∧ slot co1 ad1 bp = slot co ad bp ∧ co1 (slot co ad bp) = co (slot co ad bp).
Proof.
  intros Hbm Hm Hfill Hp Hmax bp. pose proof (Z.div_pos p BSIZE ltac:(lia) ltac:(lia)) as Hbp0. fold bp in Hbp0.
  pose proof (Z.mod_pos_bound p BSIZE ltac:(lia)). pose proof (Z.div_mod p BSIZE ltac:(lia)) as Hdp. fold bp in Hdp.
  assert (slot co ad bp ≠ 0) as Hne by (apply Hfill; lia). assert (place_ok bp) as Hpp by (unfold place_ok; lia).
  split_and!; [done|by apply (bm_old _ _ _ _ _ Hbm)|]. destruct (mo_data _ _ _ Hm bp Hpp Hne) as [Hr Hu].
  apply (bm_frame _ _ _ _ _ Hbm); [apply data_not_bitmap; lia|right; split; [lia|done]|].
  intros E. assert (bp = -1); [|lia]. apply (mo_inj _ _ _ Hm); [done|unfold place_ok; lia|done|done].
Qed.

(** The contents after one round of the loop. *)
Lemma write_chunk co ad co1 ad1 lim off bytes :
  bmapped sb co ad co1 ad1 → map_ok sb co ad → 0 ≤ off ≤ lim → filled co ad lim → lim ≤ MAXFILE * BSIZE →
  let bn := off / BSIZE in let a := slot co1 ad1 bn in
  bn < MAXFILE → a ≠ 0 → is_block (co1 a) → Z.of_nat (length bytes) ≤ BSIZE - off mod BSIZE →
  let co2 := upd co1 a (put_at (co1 a) (off mod BSIZE) bytes) in
  let lim' := Z.max lim (off + Z.of_nat (length bytes)) in
  fmapped sb co ad co2 ad1 ∧ filled co2 ad1 lim' ∧
  ∀ p, 0 ≤ p < lim' → file_byte co2 ad1 p =
    if decide (off ≤ p < off + Z.of_nat (length bytes)) then bytes !!! Z.to_nat (p - off) else file_byte co ad p.
Proof using Hly.
  intros Hbm Hm Hoff Hfill Hmax bn a Hbn Ha [Hlen _] Hbytes co2 lim'. pose proof (bm_ok _ _ _ _ _ Hbm) as Hm1.
  pose proof (Z.div_pos off BSIZE ltac:(lia) ltac:(lia)) as Hbn0. fold bn in Hbn0.
  pose proof (Z.mod_pos_bound off BSIZE ltac:(lia)) as Hmod. pose proof (Z.div_mod off BSIZE ltac:(lia)) as Hdiv. fold bn in Hdiv.
  assert (place_ok bn) as Hpl by (unfold place_ok; lia).
  assert (∀ i, slot co2 ad1 i = slot co1 ad1 i) as Hslot by (intros i; by apply slot_write).
  split; [|split].
  - eapply fmapped_trans; [by apply bmapped_fmapped|]. by apply fmapped_write.
  - intros b Hb Hlt. rewrite Hslot. destruct (Z.lt_ge_cases (b * BSIZE) lim) as [Hl|Hl].
    + rewrite (bm_old _ _ _ _ _ Hbm); [by apply Hfill|unfold place_ok; lia|by apply Hfill].
    + assert (b = bn) as -> by lia. exact Ha.
  - intros p Hp. unfold file_byte. rewrite Hslot. set (bp := p / BSIZE).
    pose proof (Z.div_pos p BSIZE ltac:(lia) ltac:(lia)) as Hbp0. fold bp in Hbp0.
    pose proof (Z.mod_pos_bound p BSIZE ltac:(lia)) as Hmp. pose proof (Z.div_mod p BSIZE ltac:(lia)) as Hdp. fold bp in Hdp.
    assert (¬ off ≤ p < off + Z.of_nat (length bytes) → p < lim) as Hold by lia.
    assert (p < lim → slot co ad bp ≠ 0 ∧ slot co1 ad1 bp = slot co ad bp ∧ co1 (slot co ad bp) = co (slot co ad bp)) as Hkeep.
    { intros Hl. apply (bmapped_keep co ad co1 ad1 lim p Hbm Hm Hfill); lia. }
    destruct (decide (bp = bn)) as [E|E].
    + rewrite E. fold a. unfold co2. rewrite upd_eq. unfold get8 at 1. rewrite list_lookup_total_alt.
      rewrite lookup_put_at by lia. case_decide as Hin.
      * rewrite decide_True by lia. rewrite list_lookup_total_alt. do 2 f_equal. lia.
      * rewrite decide_False by lia. rewrite <-list_lookup_total_alt. destruct Hkeep as (K1 & K2 & K3); [apply Hold; lia|].
        rewrite E in *. fold a in K2. rewrite <-K2 in *. by rewrite K3.
    + rewrite decide_False by lia. destruct Hkeep as (K1 & K2 & K3); [apply Hold; lia|]. unfold co2.
      rewrite upd_ne; [by rewrite K2, K3|]. intros E2. apply E. apply (mo_inj _ _ _ Hm1); [unfold place_ok; lia|done|done|congruence].
Qed.
End writes.

(** ** The blocks that a write touches *)
Definition rounds (off n : Z) : Z := if decide (n ≤ 0) then 0 else (off + n - 1) / BSIZE - off / BSIZE + 1.

Lemma rounds_nonneg off n : 0 ≤ rounds off n.
Proof.
  unfold rounds. case_decide; [lia|]. pose proof (Z.div_le_mono off (off + n - 1) BSIZE). lia.
Qed.

Lemma rounds_step off n : 0 ≤ off → 0 < n → rounds (off + chunk off n) (n - chunk off n) + 1 ≤ rounds off n.
Proof.
  intros Ho Hn. pose proof (chunk_bounds off n Hn) as Hc. unfold rounds. rewrite (decide_False (P := n ≤ 0)) by lia.
  case_decide as E; [pose proof (Z.div_le_mono off (off + n - 1) BSIZE); lia|].
  assert (chunk off n = BSIZE - off mod BSIZE) as Hch by (unfold chunk in *; lia).
  replace (off + chunk off n + (n - chunk off n) - 1) with (off + n - 1) by lia.
  assert ((off + chunk off n) / BSIZE = off / BSIZE + 1) as ->; [|lia].
  rewrite Hch. pose proof (Z.div_mod off BSIZE ltac:(lia)). symmetry. apply (Z.div_unique_pos _ _ _ 0); lia.
Qed.

Section writei.
  Context {T U : Type} `{ST : Store T} `{UM : UserMem U} (vb : Z → Prop) (owns : T → disk → disk → list hold → Z → Prop).
  Context `{!StoreLaws T vb owns}.
  Local Abbreviation fst := (fst (T := T) (U := U)).
  Implicit Types (s : fst) (d co : disk) (H : list hold) (k : Z).

(** The bytes at [src] are [l], in the memory of the process. *)
Definition gives s (src : place) (l : list Z) : Prop :=
  ∀ s1 tot m, umem s1 = umem s → 0 ≤ tot → tot + Z.of_nat m ≤ Z.of_nat (length l) →
    ∃ t, either_copyin src tot m s1 = Done (get_at l tot m, 0) s1 t ∧ writes t = [].

Lemma gives_kernel s l : gives s (Kernel l) l.
Proof. intros s1 tot m _ H1 H2. by exists []. Qed.

(** What the loop of [writei] leaves when it stops after [tot'] bytes. *)
Definition wrote s d co k (ip : Z) (l : list Z) lim off0 tot (tot' : Z) s' : Prop :=
  ∃ co' ad', let ad := addrs (din (itable s ip)) in let lim' := Z.max lim (off0 + tot') in
    upto ip s s' (set_addrs ad' (din (itable s ip))) ∧ owns (store s') d co' [] k ∧ fmapped (sb s) co ad co' ad' ∧
    filled co' ad' lim' ∧
    (∀ p, 0 ≤ p < lim' → file_byte co' ad' p =
      if decide (off0 + tot ≤ p < off0 + tot') then l !!! Z.to_nat (p - off0) else file_byte co ad p) ∧
    (tot' < Z.of_nat (length l) → disk_full (sb s) co').

Lemma active_fmapped s co ip s' co' ad' :
  active vb s co ip → upto ip s s' (set_addrs ad' (din (itable s ip))) →
  fmapped (sb s) co (addrs (din (itable s ip))) co' ad' → active vb s' co' ip.
Proof.
  intros [[Hly Hvb] Hmeta Hdev Hm] Hup [F1 F2 F3 F4 F5 F6]. destruct Hup as [U1 U2 U3 U4 U5 U6].
  split; unfold base; rewrite ?U1, ?U6; try done.
  intros b Hb. apply F4; [pose proof (ly_data _ Hly); lia|by apply Hmeta].
Qed.

Lemma wrote_after s d co k ip l lim off0 tot s1 co1 ad1 tot1 tot' s' :
  active vb s co ip → upto ip s s1 (set_addrs ad1 (din (itable s ip))) →
  fmapped (sb s) co (addrs (din (itable s ip))) co1 ad1 → 0 ≤ off0 → 0 ≤ tot ≤ tot1 → tot1 ≤ tot' →
  (∀ p, 0 ≤ p < Z.max lim (off0 + tot1) → file_byte co1 ad1 p =
    if decide (off0 + tot ≤ p < off0 + tot1) then l !!! Z.to_nat (p - off0) else file_byte co (addrs (din (itable s ip))) p) →
  wrote s1 d co1 k ip l (Z.max lim (off0 + tot1)) off0 tot1 tot' s' →
  wrote s d co k ip l lim off0 tot tot' s'.
Proof.
  intros [[Hly _] _ _ _] Hup Hf Ho Ht Ht' Hbytes (co2 & ad2 & H1 & H2 & H3 & H4 & H5 & H6).
  pose proof Hup as [U1 U2 U3 U4 U5 U6]. rewrite U1, U6 in *. cbn [din set_din addrs set_addrs] in *.
  exists co2, ad2. cbv zeta. replace (Z.max (Z.max lim (off0 + tot1)) (off0 + tot')) with (Z.max lim (off0 + tot')) in * by lia.
  split_and!; try done.
  - exact (upto_trans _ _ _ _ _ _ Hup H1).
  - by eapply fmapped_trans.
  - intros p Hp. rewrite H5 by done. repeat case_decide; try lia; try done.
    + rewrite Hbytes by lia. by rewrite decide_True by lia.
    + destruct (Z.lt_ge_cases p (Z.max lim (off0 + tot1))); [|lia]. rewrite Hbytes by lia. by rewrite decide_False by lia.
Qed.

Lemma wrote_le s d co k k' ip l lim off0 tot tot' s' :
  wrote s d co k ip l lim off0 tot tot' s' → 0 ≤ k' ≤ k → wrote s d co k' ip l lim off0 tot tot' s'.
Proof using All.
  intros (co' & ad' & H1 & H2 & H3) Hk. exists co', ad'. split_and!; try apply H3; [done|by eapply owns_le].
Qed.

Lemma get_at_lookup l off n i :
  0 ≤ off → (i < n)%nat → off + Z.of_nat n ≤ Z.of_nat (length l) → get_at l off n !!! i = l !!! (Z.to_nat off + i)%nat.
Proof. intros. rewrite !list_lookup_total_alt, lookup_get_at by done. done. Qed.

(** [bmap] found no block. *)
Lemma wrote_nothing s d co k ip l lim off0 tot s1 :
  active vb s co ip → filled co (addrs (din (itable s ip))) lim → off0 + tot ≤ lim ≤ MAXFILE * BSIZE →
  looked_up owns s d co k ip ((off0 + tot) / BSIZE) 0 s1 → wrote s d co k ip l lim off0 tot tot s1.
Proof.
  intros [[Hly _] _ _ Hm] Hfill Hlim (co1 & ad1 & H1 & H2 & H3 & H4 & H5 & H6). exists co1, ad1. cbv zeta.
  replace (Z.max lim (off0 + tot)) with lim by lia. split_and!; try done.
  - by apply bmapped_fmapped.
  - intros bn Hb1 Hb2. rewrite (bm_old _ _ _ _ _ H3); [by apply Hfill|unfold place_ok; lia|by apply Hfill].
  - intros p Hp. rewrite decide_False by lia. unfold file_byte.
    destruct (bmapped_keep _ _ _ _ _ lim p H3 Hm Hfill Hp) as (K1 & K2 & K3); [lia|]. by rewrite K2, K3.
  - intros _. by apply H5.
Qed.

(** One round has written a chunk. *)
Lemma wrote_chunk s co ip l lim off0 tot s1 co1 ad1 s2 a :
  active vb s co ip → filled co (addrs (din (itable s ip))) lim → let n := Z.of_nat (length l) in let off := off0 + tot in
  let m := chunk off (n - tot) in
  off ≤ lim ≤ MAXFILE * BSIZE → off0 + n ≤ MAXFILE * BSIZE → 0 ≤ off0 → 0 ≤ tot < n →
  upto ip s s1 (set_addrs ad1 (din (itable s ip))) → bmapped (sb s) co (addrs (din (itable s ip))) co1 ad1 →
  slot co1 ad1 (off / BSIZE) = a → a ≠ 0 → is_block (co1 a) → s2 = set_store (store s2) s1 →
  let co2 := upd co1 a (put_at (co1 a) (off mod BSIZE) (get_at l tot (Z.to_nat m))) in
  upto ip s s2 (set_addrs ad1 (din (itable s ip))) ∧
  fmapped (sb s) co (addrs (din (itable s ip))) co2 ad1 ∧ filled co2 ad1 (Z.max lim (off + m)) ∧
  (∀ p, 0 ≤ p < Z.max lim (off + m) → file_byte co2 ad1 p =
    if decide (off ≤ p < off + m) then l !!! Z.to_nat (p - off0) else file_byte co (addrs (din (itable s ip))) p).
Proof.
  intros [[Hly _] _ _ Hm] Hfill n off m Hlim Hmax Ho0 Htot Hup Hbm Hs Ha Hblk Hst co2.
  pose proof (chunk_bounds off (n - tot) ltac:(lia)) as Hch. fold m in Hch. pose proof (Z.mod_pos_bound off BSIZE ltac:(lia)).
  assert (length (get_at l tot (Z.to_nat m)) = Z.to_nat m) as Hlen by (apply get_at_length; lia).
  assert (off / BSIZE < MAXFILE) by (apply Z.div_lt_upper_bound; lia). subst a.
  destruct (write_chunk (sb s) Hly co (addrs (din (itable s ip))) co1 ad1 lim off (get_at l tot (Z.to_nat m)))
    as (W1 & W2 & W3); rewrite ?Hlen in *; try done; try lia.
  rewrite Z2Nat.id in * by lia. fold co2 in W1, W2, W3. split_and!; try done.
  - rewrite Hst. destruct Hup as [U1 U2 U3 U4 U5 U6]. by split.
  - intros p Hp. rewrite W3 by done. case_decide; [|done]. rewrite get_at_lookup by lia. f_equal. lia.
Qed.

Lemma writei_loop_spec fuel s d co k ip src l lim off0 tot :
  active vb s co ip → owns (store s) d co [] k → gives s src l → Forall is_byte l →
  filled co (addrs (din (itable s ip))) lim → let n := Z.of_nat (length l) in
  off0 + tot ≤ lim ≤ MAXFILE * BSIZE → off0 + n ≤ MAXFILE * BSIZE → 0 ≤ off0 → 0 ≤ tot ≤ n →
  6 * rounds (off0 + tot) (n - tot) ≤ k → n - tot < Z.of_nat fuel →
  runs (writei_loop fuel ip src (off0 + tot) n tot) s (λ r s', r.2 = off0 + r.1 ∧ tot ≤ r.1 ≤ n ∧
    wrote s d co (k - 6 * rounds (off0 + tot) (n - tot)) ip l lim off0 tot r.1 s').
Proof using All.
  intros Hac Ho Hg Hl Hfill n Hlim Hmax Ho0 Htot Hk Hfuel. revert s co k lim tot Hac Ho Hg Hfill Hlim Htot Hk Hfuel.
  induction fuel as [|fuel IH]; intros s co k lim tot Hac Ho Hg Hfill Hlim Htot Hk Hfuel; [lia|]. cbn [writei_loop].
  set (off := off0 + tot) in *. pose proof (rounds_nonneg off (n - tot)).
  pose proof Hac as [[Hly Hvb] Hmeta Hdev Hm]. case_if; cycle 1.
  { apply runs_ret. assert (tot = n) as -> by lia. split_and!; try done; try lia.
    exists co, (addrs (din (itable s ip))). cbv zeta. cbn [Datatypes.fst].
    replace (Z.max lim (off0 + n)) with lim by lia. split_and!; try done; [..|lia].
    - split; try done. by destruct (itable s ip) as [? ? ? ? ? []].
    - eapply owns_le; [exact Ho|lia].
    - by apply bmapped_fmapped, bmapped_refl.
    - intros p Hp. by rewrite decide_False by lia. }
  pose proof (rounds_step off (n - tot) ltac:(lia) ltac:(lia)) as Hrs.
  pose proof (chunk_bounds off (n - tot) ltac:(lia)) as Hch. set (m := chunk off (n - tot)) in *.
  pose proof (rounds_nonneg (off + m) (n - tot - m)). pose proof (Z.mod_pos_bound off BSIZE ltac:(lia)).
  pose proof (Z.div_pos off BSIZE ltac:(lia) ltac:(lia)). assert (off / BSIZE < MAXFILE) by (apply Z.div_lt_upper_bound; lia).
  rcall (bmap_spec vb owns s d co k ip (off / BSIZE)); [done|done|lia|lia|]. intros a s1 Hlu. case_if.
  { subst a. apply runs_ret. split_and!; [done|simpl; lia|simpl; lia|]. eapply wrote_le; [by apply wrote_nothing|]. lia. }
  pose proof Hlu as (co1 & ad1 & L1 & L2 & L3 & L4 & _ & _).
  assert (is_block (co1 a)) as Hblk by exact (owns_block _ _ _ _ _ _ L2).
  rstep. rewrite (up_ip _ _ _ _ L1). cbn [dev set_din]. rewrite Hdev.
  destruct (mo_data _ _ _ (bm_ok _ _ _ _ _ L3) (off / BSIZE)) as [Hr Hu]; [unfold place_ok; lia|congruence|]. rewrite L4 in Hr.
  rcall (st_bread vb owns); [exact L2|by apply Hvb, data_fs|apply not_elem_of_nil|simpl; unfold MAXHELD; lia|].
  intros h s2 (t2 & -> & Ho2). apply runs_bind. eapply runs_done; [eapply (st_rdata vb owns); [exact Ho2|by left]|done|].
  fold (chunk off (n - tot)). fold m.
  destruct (Hg (set_store t2 s1) tot (Z.to_nat m)) as (t & Hcopy & Hwt); [apply (up_umem _ _ _ _ L1)|lia|lia|].
  apply runs_bind. eapply runs_done; [exact Hcopy|exact Hwt|].
  assert (length (get_at l tot (Z.to_nat m)) = Z.to_nat m) as Hlen by (apply get_at_length; lia).
  rcall (st_wdata vb owns); [exact Ho2|apply is_block_put_at; [done|lia|rewrite Hlen; lia|]|].
  { unfold get_at. by apply Forall_take, Forall_drop. }
  intros _ s3 (t3 & -> & Ho3). if_false. rcall (st_log_write vb owns); [exact Ho3|lia|]. intros _ s4 (t4 & -> & Ho4).
  rcall (st_brelse vb owns); [exact Ho4|]. intros _ s5 (t5 & -> & Ho5). rewrite u32_small by lia.
  pose proof (wrote_chunk s co ip l lim off0 tot s1 co1 ad1 (set_store t5 s1) a Hac Hfill Hlim Hmax Ho0
    ltac:(lia) L1 L3 L4 ltac:(done) Hblk eq_refl) as (W1 & W2 & W3 & W4).
  fold n off in W1, W2, W3, W4. fold m in W1, W2, W3, W4. set (co2 := upd _ _ _) in *.
  unfold off at 1. rewrite <-Z.add_assoc. eapply runs_mono.
  - apply (IH (set_store t5 s1) co2 (k - 5 - 1) (Z.max lim (off + m)) (tot + m)); try lia.
    + eapply active_fmapped; [exact Hac|exact W1|exact W2].
    + exact Ho5.
    + intros s6 tot6 m6 Hs6. apply Hg. by rewrite Hs6, (up_umem _ _ _ _ W1).
    + by rewrite (up_ip _ _ _ _ W1).
    + replace (off0 + (tot + m)) with (off + m) by lia. replace (n - (tot + m)) with (n - tot - m) by lia. lia.
  - intros r s6 (R1 & R2 & R3). split_and!; [done|lia|lia|].
    eapply wrote_le; [eapply (wrote_after s d co _ ip l lim off0 tot (set_store t5 s1) co2 ad1 (tot + m)); try done; try lia|].
    + intros p Hp. rewrite W4 by lia. repeat case_decide; try lia; done.
    + replace (Z.max lim (off0 + (tot + m))) with (Z.max lim (off + m)) by lia. exact R3.
    + replace (off0 + (tot + m)) with (off + m) by lia. replace (n - (tot + m)) with (n - tot - m) by lia. lia.
Qed.

(** ** [writei] *)

(** An inode that is locked and whose copy is the current one. *)
Record file_ok s co (ip : Z) : Prop := {
  fo_active : active vb s co ip;
  fo_filled : filled co (addrs (din (itable s ip))) (dsize (din (itable s ip)));
  fo_size : dsize (din (itable s ip)) ≤ MAXFILE * BSIZE;
  fo_inum : 0 ≤ inum (itable s ip) < ninodes (sb s);
  fo_dinode : dinode_ok (din (itable s ip))
}.

Lemma map_addrs sb co ad : layout sb → map_ok sb co ad → Forall (λ a, 0 ≤ a < 2 ^ 32) ad.
Proof.
  intros Hly Hm. apply Forall_lookup. intros i a Hi. pose proof (lookup_lt_Some _ _ _ Hi) as Hlt.
  rewrite (mo_len _ _ _ Hm) in Hlt. pose proof (slot_place co ad (Z.of_nat i)) as Hs. rewrite Nat2Z.id in Hs.
  rewrite (list_lookup_total_correct _ _ _ Hi) in Hs. destruct (decide (a = 0)) as [->|Hne]; [lia|].
  destruct (mo_data _ _ _ Hm (place_of (Z.of_nat i))) as [Hr _].
  - unfold place_ok, place_of. case_decide; lia.
  - rewrite Hs; [done|lia].
  - rewrite Hs in Hr by lia. pose proof (datastart_pos _ Hly). pose proof (ly_size _ Hly). lia.
Qed.

(** Storing an inode changes no file. *)
Lemma stored_map sb co co' n di ad :
  layout sb → inode_stored sb co co' n di → map_ok sb co ad →
  map_ok sb co' ad ∧ (∀ j, slot co' ad j = slot co ad j) ∧ (∀ b, 0 ≤ b < size sb → bused sb co' b = bused sb co b) ∧
  (∀ x, datastart sb ≤ x → co' x = co x).
Proof.
  intros Hly (_ & _ & Hf) Hm. pose proof (ly_inodes _ Hly) as Hi. pose proof (ly_size _ Hly).
  assert (bmapstart sb ≤ datastart sb) by (unfold datastart; pose proof (Z.div_pos (size sb) BPB); lia).
  assert (∀ x, datastart sb ≤ x → co' x = co x) as Hd by (intros x Hx; apply Hf; unfold is_iblock; lia).
  assert (∀ j, slot co' ad j = slot co ad j) as Hs.
  { intros j. apply slot_ext. intros Hne. apply Hd. apply (mo_data _ _ _ Hm (-1)); [unfold place_ok; lia|exact Hne]. }
  assert (∀ b, 0 ≤ b < size sb → bused sb co' b = bused sb co b) as Hu.
  { intros b Hb. apply bused_ext, Hf. pose proof (BBLOCK_bitmap sb Hly b Hb) as Hbm. unfold is_bitmap, is_iblock in *. lia. }
  split_and!; try done. split; [apply Hm|..].
  - intros j Hj. rewrite !Hs. intros Hne. destruct (mo_data _ _ _ Hm j Hj Hne) as [Hr Hub].
    pose proof (data_nonneg _ Hly _ (proj1 Hr)). rewrite Hu by lia. done.
  - intros i j Hi1 Hj. rewrite !Hs. by apply Hm.
Qed.

(** The file of [ip] after [r] bytes of [l] were written at [off]. *)
Definition file_written s d co k (ip : Z) (l : list Z) (off r : Z) s' : Prop :=
  ∃ co', let di := din (itable s ip) in let di' := din (itable s' ip) in
    owns (store s') d co' [] k ∧ file_ok s' co' ip ∧
    sb s' = sb s ∧ (∀ j, j ≠ ip → itable s' j = itable s j) ∧
    di' = set_dsize (Z.max (dsize di) (off + r)) (set_addrs (addrs di') di) ∧ itable s' ip = set_din di' (itable s ip) ∧
    (∀ p, 0 ≤ p < dsize di' → file_byte co' (addrs di') p =
      if decide (off ≤ p < off + r) then l !!! Z.to_nat (p - off) else file_byte co (addrs di) p) ∧
    disk_inode (sb s) co' (inum (itable s ip)) = di' ∧
    (∀ n, 0 ≤ n < ninodes (sb s) → n ≠ inum (itable s ip) → disk_inode (sb s) co' n = disk_inode (sb s) co n) ∧
    (∀ j, place_ok j → slot co (addrs di) j ≠ 0 → slot co' (addrs di') j = slot co (addrs di) j) ∧
    (∀ j, place_ok j → slot co (addrs di) j = 0 → slot co' (addrs di') j ≠ 0 → bused (sb s) co (slot co' (addrs di') j) = false) ∧
    (∀ x, datastart (sb s) ≤ x < size (sb s) → bused (sb s) co x = true →
      bused (sb s) co' x = true ∧ ((∀ j, place_ok j → slot co (addrs di) j ≠ x) → co' x = co x)) ∧
    (∀ x, datastart (sb s) ≤ x < size (sb s) → bused (sb s) co x = false → bused (sb s) co' x = true →
      ∃ j, place_ok j ∧ slot co' (addrs di') j = x) ∧
    (r < Z.of_nat (length l) → disk_full (sb s) co').

(** The checks at the start of [writei]. *)
Definition write_refused s (ip off n : Z) : Prop :=
  dsize (din (itable s ip)) < off ∨ 2 ^ 32 ≤ off + n ∨ MAXFILE * BSIZE < off + n.

(** [if(off > ip->size) ip->size = off;] *)
Lemma grow_size s s1 ip ad1 off :
  upto ip s s1 (set_addrs ad1 (din (itable s ip))) →
  runs (if off >? dsize (din (itable s1 ip)) then with_din ip (set_dsize off) else mret tt) s1 (λ _ s2,
    upto ip s s2 (set_dsize (Z.max (dsize (din (itable s ip))) off) (set_addrs ad1 (din (itable s ip)))) ∧ store s2 = store s1).
Proof.
  intros [U1 U2 U3 U4 U5 U6]. rewrite U6. cbn [din set_din dsize set_addrs]. case_if.
  - eapply runs_done; [reflexivity|done|]. split; [|done]. split; try done; cbn [itable set_itable].
    + intros j Hj. rewrite upd_ne by done. by apply U5.
    + rewrite upd_eq, U6. cbn [din set_din set_dsize type major minor nlink addrs set_addrs]. rewrite Z.max_r by lia. done.
  - apply runs_ret. split; [|done]. split; try done. rewrite U6, Z.max_l by lia. done.
Qed.

(** The inode is stored after the loop. *)
Lemma written_stored s d co k ip l off r s2 ad1 co1 t co2 :
  file_ok s co ip → 0 ≤ off ≤ dsize (din (itable s ip)) → off + r ≤ MAXFILE * BSIZE →
  let di := din (itable s ip) in let lim := Z.max (dsize di) (off + r) in
  let di' := set_dsize lim (set_addrs ad1 di) in
  upto ip s s2 di' → fmapped (sb s) co (addrs di) co1 ad1 → filled co1 ad1 lim →
  (∀ p, 0 ≤ p < lim → file_byte co1 ad1 p =
    if decide (off ≤ p < off + r) then l !!! Z.to_nat (p - off) else file_byte co (addrs di) p) →
  (r < Z.of_nat (length l) → disk_full (sb s) co1) →
  owns t d co2 [] k → inode_stored (sb s) co1 co2 (inum (itable s ip)) di' →
  file_written s d co k ip l off r (set_store t s2).
Proof.
  intros [[[Hly Hvb] Hmeta Hdev Hm] Hfill Hsz Hn Hd] Hoff Hmax di lim di' Hup Hf Hfilled Hbytes Hfull Ho Hst.
  assert (lim ≤ MAXFILE * BSIZE) as Hlim by (unfold lim, di; lia).
  destruct Hup as [U1 U2 U3 U4 U5 U6]. pose proof (fm_ok _ _ _ _ _ Hf) as Hm1.
  destruct (stored_map (sb s) co1 co2 _ di' ad1 Hly Hst Hm1) as (Hm2 & Hs2 & Hu2 & Hd2).
  destruct Hst as (S1 & S2 & S3). exists co2. cbv zeta. cbn [sb itable set_store store]. rewrite U1, U6.
  cbn [din set_din]. split_and!; try done.
  - split; cbn [sb itable set_store]; rewrite ?U1, ?U6; cbn [din set_din dev inum]; try done.
    + split; unfold base; cbn [sb itable set_store]; rewrite ?U1, ?U6; try done.
      intros b Hb. pose proof (ly_data _ Hly). rewrite Hu2 by lia. apply (fm_used _ _ _ _ _ Hf); [lia|by apply Hmeta].
    + intros bn Hb1 Hb2. rewrite Hs2. by apply Hfilled.
    + destruct Hd as [D1 D2 D3 D4 D5 D6 D7]. split; try done; cbn [dsize di' set_dsize addrs set_addrs]; [unfold lim, di; lia|apply Hm1|].
      by apply (map_addrs (sb s) co1).
  - intros p Hp. change (addrs di') with ad1. change (dsize di') with lim in Hp. rewrite <-Hbytes by done. unfold file_byte.
    rewrite Hs2, Hd2; [done|]. pose proof (Z.div_pos p BSIZE ltac:(lia) ltac:(lia)).
    pose proof (Z.div_mod p BSIZE ltac:(lia)). pose proof (Z.mod_pos_bound p BSIZE ltac:(lia)).
    apply (mo_data _ _ _ Hm1 (p / BSIZE)); [unfold place_ok; lia|apply Hfilled; lia].
  - intros n Hn' Hne. rewrite S2 by done. pose proof (IBLOCK_range _ Hly n Hn') as Hib. unfold disk_inode. f_equal.
    destruct (iblock_not_bitmap _ Hly _ Hib) as [Hnb Hlt]. pose proof (ly_log _ Hly). unfold is_iblock in Hib.
    apply (fm_frame _ _ _ _ _ Hf); [lia|done|by left|]. intros j Hj Heq.
    destruct (mo_data _ _ _ Hm j Hj) as [Hr _]; [unfold di in Heq; lia|]. unfold di in Heq. lia.
  - intros j Hj Hne. change (addrs di') with ad1. rewrite Hs2. by apply (fm_old _ _ _ _ _ Hf).
  - intros j Hj H0. change (addrs di') with ad1. rewrite Hs2. by apply (fm_new _ _ _ _ _ Hf).
  - intros x Hx Hu. pose proof (data_nonneg _ Hly x). split.
    + rewrite Hu2 by lia. apply (fm_used _ _ _ _ _ Hf); [lia|done].
    + intros Hout. rewrite Hd2 by lia. apply (fm_frame _ _ _ _ _ Hf); [lia|apply data_not_bitmap; lia|right; split; [lia|done]|done].
  - intros x Hx Hu. pose proof (data_nonneg _ Hly x). rewrite Hu2 by lia. intros Hu'.
    destruct (fm_leak _ _ _ _ _ Hf x) as (j & Hj & Hs & _); [lia|done|done|]. exists j. split; [done|]. by rewrite Hs2.
  - intros Hr b Hb. rewrite Hu2 by lia. by apply Hfull.
Qed.

Lemma writei_spec s d co k ip src l off :
  file_ok s co ip → owns (store s) d co [] k → gives s src l → Forall is_byte l →
  let n := Z.of_nat (length l) in
  n < 2 ^ 31 → 0 ≤ off < 2 ^ 32 → 6 * rounds off n + 1 ≤ k →
  runs (writei ip src off n) s (λ r s',
    (write_refused s ip off n ∧ r = -1 ∧ s' = s) ∨
    (¬ write_refused s ip off n ∧ 0 ≤ r ≤ n ∧ file_written s d co (k - (6 * rounds off n + 1)) ip l off r s')).
Proof using All.
  intros Hfo Ho Hg Hl n Hn Hoff Hk. pose proof Hfo as [Hac Hfill Hsz Hi Hd]. unfold writei, write_refused. rstep.
  change (id (itable s ip)) with (itable s ip). pose proof (rounds_nonneg off n).
  assert (u32 (off + n) = if decide (off + n < 2 ^ 32) then off + n else off + n - 2 ^ 32) as Hw.
  { unfold u32. case_decide; [apply Z.mod_small; lia|]. symmetry. apply (Z.mod_unique_pos _ _ 1); lia. }
  rewrite Hw. case_decide; cycle 1.
  { if_true. apply runs_ret. left. split_and!; [lia|done|done]. }
  case_if; [apply runs_ret; left; split_and!; [lia|done|done]|].
  case_if; [apply runs_ret; left; split_and!; [lia|done|done]|].
  pose proof (writei_loop_spec (S (Z.to_nat n)) s d co k ip src l (dsize (din (itable s ip))) off 0) as Hloop.
  cbv zeta in Hloop. fold n in Hloop. rewrite Z.add_0_r, Z.sub_0_r in Hloop.
  rcall Hloop; try done; try lia. intros [tot off'] s1 (Hoff' & Htot & Hwr).
  cbn [Datatypes.fst Datatypes.snd] in *. subst off'. destruct Hwr as (co1 & ad1 & W1 & W2 & W3 & W4 & W5 & W6).
  rstep. change (id (itable s1 ip)) with (itable s1 ip). rcall (grow_size s s1 ip ad1 (off + tot)); [exact W1|].
  intros _ s2 [Hup2 Hst2]. pose proof Hup2 as [U1 U2 U3 U4 U5 U6].
  pose proof Hac as [[Hly Hvb] Hmeta Hdev Hm]. pose proof (fm_ok _ _ _ _ _ W3) as Hm1.
  set (di' := set_dsize _ _) in *. assert (dinode_ok di') as Hd'.
  { destruct Hd as [D1 D2 D3 D4 D5 D6 D7]. split; try done; cbn [dsize di' set_dsize addrs set_addrs]; [lia|apply Hm1|].
    by apply (map_addrs (sb s) co1). }
  rcall (iupdate_spec vb owns s2 d co1 (k - 6 * rounds off n) ip); rewrite ?U6, ?U1; try done; try lia.
  { split; rewrite U1; done. }
  { by rewrite Hst2. }
  intros _ s3 (t3 & co3 & -> & Ho3 & Hst3). cbn [inum set_din din] in Hst3. apply runs_ret.
  right. rewrite s32_small by lia. split_and!; [lia|lia|lia|].
  replace (k - (6 * rounds off n + 1)) with (k - 6 * rounds off n - 1) by lia.
  eapply (written_stored s d co _ ip l off tot s2 ad1 co1 t3 co3); try done; try lia.
  intros p Hp. rewrite W5 by done. by rewrite Z.add_0_r.
Qed.
End writei.
