(* ===== verification/FsTrunc.v ===== *)
(** * Truncating a file

    [itrunc] frees all blocks of the file and no others.  A file can have more
    blocks than the log has room for, but freeing them only logs bitmap blocks,
    which are reserved. *)

From S2P Require Import Prelude Riscv Memory Disk Tx Fs FsAlloc FsMap FsInode FsFile FsWrite.

(** The blocks [l] were freed. *)
Definition freed (sb : superblock) (co co' : disk) (l : list Z) : Prop :=
  (∀ b, 0 ≤ b < size sb → bused sb co' b = bused sb co b && bool_decide (b ∉ l)) ∧
  (∀ x, ¬ is_bitmap sb x → co' x = co x).

Definition nz (l : list Z) : list Z := filter (λ a, a ≠ 0) l.

Lemma freed_nil sb co : freed sb co co [].
Proof. split; [|done]. intros b _. rewrite bool_decide_true by apply not_elem_of_nil. by rewrite andb_true_r. Qed.

Lemma freed_app sb co co1 co2 l1 l2 : freed sb co co1 l1 → freed sb co1 co2 l2 → freed sb co co2 (l1 ++ l2).
Proof.
  intros [A1 A2] [B1 B2]. split.
  - intros b Hb. rewrite B1, A1 by done. rewrite <-andb_assoc. f_equal.
    rewrite <-bool_decide_and. apply bool_decide_ext. set_solver.
  - intros x Hx. by rewrite B2, A2.
Qed.

Lemma freed_one sb co co' b : bit_set sb co co' b false → freed sb co co' [b].
Proof.
  intros [A1 A2]. split; [|done]. intros b' Hb'. rewrite A1 by done. case_decide as E.
  - subst. rewrite bool_decide_false by set_solver. by rewrite andb_false_r.
  - rewrite bool_decide_true by set_solver. by rewrite andb_true_r.
Qed.

Lemma lookup_words x off n i : (i < n)%nat → words x off n !! i = Some (get32 x (off + 4 * Z.of_nat i)).
Proof.
  revert off i. induction n as [|n IH]; intros off i Hi; [lia|]. destruct i as [|i]; simpl.
  - by rewrite Z.add_0_r.
  - rewrite IH by lia. do 2 f_equal. lia.
Qed.

Lemma words_length x off n : length (words x off n) = n.
Proof. revert off. induction n; intros; simpl; auto. Qed.

Section trunc.
  Context {T U : Type} `{ST : Store T} `{UM : UserMem U} (vb : Z → Prop) (ownsR : list Z → T → disk → disk → list hold → Z → Prop).
  Context `{!ReserveLaws T vb ownsR} (R : list Z).
  Local Abbreviation fst := (fst (T := T) (U := U)).
  Implicit Types (s : fst) (d co : disk) (H : list hold) (k : Z).

Lemma st_log_write_reserved s d co H k h b m :
  ownsR R (store s) d co ((h, b, m) :: H) k → b ∈ R → 0 < k →
  runs (in_store (log_write h)) s (λ _ s', ∃ t, s' = set_store t s ∧ ownsR R t d co ((h, b, false) :: H) k).
Proof using All.
  intros Ho Hb Hk. apply in_store_runs. eapply runs_mono; [by apply (log_write_reserved R _ _ _ [] H _ _ _ _ Ho)|]. eauto.
Qed.

(** The bitmap is reserved. *)
Definition bitmap_reserved (sb : superblock) : Prop := ∀ b, 0 ≤ b < size sb → BBLOCK b sb ∈ R.

(** The blocks in [l] can be freed. *)
Definition freeable (sb : superblock) (co : disk) (l : list Z) : Prop :=
  NoDup l ∧ ∀ b, b ∈ l → 0 ≤ b < size sb ∧ bused sb co b = true.

Lemma bfree_reserved s d co H k b :
  base vb s → ownsR R (store s) d co H k → 1 ≤ k → (length H < 3)%nat → bitmap_reserved (sb s) →
  (∀ x, x ∈ hblock <$> H → datastart (sb s) ≤ x) → 0 ≤ b < size (sb s) → bused (sb s) co b = true →
  runs (bfree ROOTDEV b) s (λ _ s', ∃ t co', s' = set_store t s ∧ ownsR R t d co' H k ∧ freed (sb s) co co' [b]).
Proof using All.
  intros [Hly Hvb] Ho Hk Hl Hres Hheld Hb Hu. unfold bfree. rstep.
  pose proof (BBLOCK_bitmap _ Hly b Hb) as Hbm. pose proof (Z.mod_pos_bound b BPB ltac:(lia)).
  assert (is_block (co (BBLOCK b (sb s)))) as Hblk by exact (owns_block _ _ _ _ _ _ Ho).
  rcall (st_bread vb (ownsR R)); [exact Ho|by apply Hvb, bitmap_fs|intros Hin%Hheld; unfold is_bitmap in Hbm; lia|unfold MAXHELD; lia|].
  intros h s1 (t1 & -> & Ho1).
  apply runs_bind. eapply runs_done; [eapply (st_rdata vb (ownsR R)); [exact Ho1|by left]|done|]. cbn [sb set_store].
  pose proof Hu as Hu'. unfold bused in Hu'. apply negb_true_iff in Hu'. rewrite Hu'.
  rcall (st_wdata vb (ownsR R)); [exact Ho1|by apply is_block_bits|]. intros _ s2 (t2 & -> & Ho2).
  rcall st_log_write_reserved; [exact Ho2|by apply Hres|lia|]. intros _ s3 (t3 & -> & Ho3).
  eapply runs_mono; [eapply (st_brelse vb (ownsR R)); exact Ho3|]. intros _ s4 (t4 & -> & Ho4).
  eexists _, _. split_and!; [reflexivity|exact Ho4|]. by apply freed_one, clear_bit_set.
Qed.

Lemma freeable_cons sb co co' b l : freeable sb co (b :: l) → freed sb co co' [b] → freeable sb co' l.
Proof.
  intros [[Hb Hn]%NoDup_cons Hl] [F1 F2]. split; [done|]. intros x Hx. destruct (Hl x) as [Hr Hu]; [by right|].
  split; [done|]. rewrite F1, Hu by done. rewrite bool_decide_true; [done|]. set_solver.
Qed.

Lemma itrunc_indirect_spec n s d co H k x j :
  base vb s → ownsR R (store s) d co H k → 1 ≤ k → (length H < 3)%nat → bitmap_reserved (sb s) →
  (∀ y, y ∈ hblock <$> H → datastart (sb s) ≤ y) → 0 ≤ j → freeable (sb s) co (nz (words x (4 * j) n)) →
  runs (itrunc_indirect n ROOTDEV x j) s (λ _ s', ∃ t co', s' = set_store t s ∧ ownsR R t d co' H k ∧
    freed (sb s) co co' (nz (words x (4 * j) n))).
Proof using All.
  intros Hb Ho Hk Hl Hres Hheld Hj Hf. revert s co j Hb Ho Hres Hheld Hj Hf.
  induction n as [|n IH]; intros s co j Hb Ho Hres Hheld Hj Hf; cbn [itrunc_indirect words].
  { apply runs_ret. exists (store s), co. split_and!; [by destruct s|done|apply freed_nil]. }
  cbn [words] in Hf. unfold nz in *. rewrite filter_cons in *. replace (4 * j + 4) with (4 * (j + 1)) in * by lia.
  destruct (decide (get32 x (4 * j) ≠ 0)) as [Hne|Hz].
  - rewrite truthy_nz by done. destruct (proj2 Hf (get32 x (4 * j))) as [Hr Hu]; [by left|].
    rcall bfree_reserved; try done. intros _ s1 (t1 & co1 & -> & Ho1 & Hf1).
    eapply runs_mono; [apply (IH (set_store t1 s) co1 (j + 1)); try done; [lia|by eapply freeable_cons]|].
    intros _ s2 (t2 & co2 & -> & Ho2 & Hf2). exists t2, co2. split_and!; [done|done|].
    exact (freed_app _ _ _ _ [_] _ Hf1 Hf2).
  - assert (get32 x (4 * j) = 0) as E by (destruct (decide (get32 x (4 * j) = 0)); tauto). rewrite E in *.
    apply runs_bind, runs_ret. eapply runs_mono; [apply (IH s co (j + 1)); try done; lia|].
    intros _ s2 (t2 & co2 & -> & Ho2 & Hf2). by exists t2, co2.
Qed.

Lemma itrunc_direct_spec n s d co k ip i :
  base vb s → ownsR R (store s) d co [] k → 1 ≤ k → bitmap_reserved (sb s) → dev (itable s ip) = ROOTDEV →
  let ad := addrs (din (itable s ip)) in
  length ad = 13%nat → (n + i = 12)%nat → freeable (sb s) co (nz (take n (drop i ad))) →
  runs (itrunc_direct n ip (Z.of_nat i)) s (λ _ s', ∃ co',
    upto ip s s' (set_addrs (take i ad ++ replicate n 0 ++ drop 12 ad) (din (itable s ip))) ∧
    ownsR R (store s') d co' [] k ∧ freed (sb s) co co' (nz (take n (drop i ad)))).
Proof using All.
  intros Hb Ho Hk Hres Hdev ad Hlen Hi Hf. revert s co i Hb Ho Hres Hdev ad Hlen Hi Hf.
  induction n as [|n IH]; intros s co i Hb Ho Hres Hdev ad Hlen Hi Hf; cbn [itrunc_direct].
  { apply runs_ret. exists co. split_and!; [|done|apply freed_nil]. simpl in Hi. subst i. simpl. rewrite take_drop.
    split; try done. by destruct (itable s ip) as [? ? ? ? ? []]. }
  destruct (lookup_lt_is_Some_2 ad i) as [a Ha]; [lia|].
  rewrite (drop_S _ _ _ Ha) in *. cbn [take] in *. unfold nz in *. rewrite filter_cons in *.
  rstep. change (id (itable s ip)) with (itable s ip). unfold addr_at. fold ad. rewrite Nat2Z.id.
  rewrite (list_lookup_total_correct _ _ _ Ha). replace (Z.of_nat i + 1) with (Z.of_nat (S i)) by lia.
  destruct (decide (a ≠ 0)) as [Hne|Hz].
  - rewrite truthy_nz, Hdev by done. destruct (proj2 Hf a) as [Hr Hu]; [by left|]. apply runs_bind.
    rcall bfree_reserved; try done; [simpl; lia|by intros x ?%elem_of_nil|]. intros _ s1 (t1 & co1 & -> & Ho1 & Hf1).
    eapply runs_done; [reflexivity|done|]. set (s2 := set_itable _ _).
    assert (itable s2 ip = set_din (set_addr (Z.of_nat i) 0 (din (itable s ip))) (itable s ip)) as Hip by (simpl; by rewrite upd_eq).
    eapply runs_mono; [apply (IH s2 co1 (S i)); rewrite ?Hip; try done|].
    + cbn [din set_din set_addr addrs]. by rewrite length_insert.
    + lia.
    + cbn [din set_din set_addr addrs]. rewrite Nat2Z.id, drop_insert_lt by lia. by eapply freeable_cons.
    + rewrite Hip. cbn [din set_din set_addr addrs]. rewrite Nat2Z.id. fold ad.
      intros _ s3 (co3 & Hup & Ho3 & Hf3). exists co3. rewrite !drop_insert_lt in * by lia. split_and!; [|done|].
      * rewrite (take_S_r _ _ 0) in Hup by (apply list_lookup_insert_eq; lia). rewrite take_insert_ge in Hup by lia.
        rewrite <-app_assoc in Hup. destruct Hup as [U1 U2 U3 U4 U5 U6]. split; try done.
        -- intros j Hj. rewrite U5 by done. simpl. by rewrite upd_ne.
        -- by rewrite U6, Hip.
      * exact (freed_app _ _ _ _ [_] _ Hf1 Hf3).
  - assert (a = 0) as -> by (destruct (decide (a = 0)); tauto). apply runs_bind, runs_ret.
    eapply runs_mono; [apply (IH s co (S i)); try done; lia|]. fold ad. intros _ s3 (co3 & Hup & Ho3 & Hf3). exists co3.
    split_and!; [|done|done]. rewrite (take_S_r _ _ _ Ha), <-app_assoc in Hup. exact Hup.
Qed.

(** The blocks of a file, as a list. *)
Definition direct_blocks (ad : list Z) : list Z := nz (take 12 ad).
Definition indirect_blocks (co : disk) (ad : list Z) : list Z :=
  if decide (ad !!! 12%nat = 0) then [] else nz (words (co (ad !!! 12%nat)) 0 256) ++ [ad !!! 12%nat].

Lemma elem_of_direct co ad b :
  length ad = 13%nat → b ∈ direct_blocks ad ↔ b ≠ 0 ∧ ∃ j, 0 ≤ j < NDIRECT ∧ slot co ad j = b.
Proof.
  intros Hl. unfold direct_blocks, nz. rewrite list_elem_of_filter. split.
  - intros [Hne Hin]. split; [done|]. apply list_elem_of_lookup in Hin as [i Hi]. apply lookup_take_Some in Hi as [Hi Hlt].
    exists (Z.of_nat i). split; [lia|]. unfold slot. rewrite decide_False, decide_True by lia. rewrite Nat2Z.id.
    by apply list_lookup_total_correct.
  - intros (Hne & j & Hj & Hs). split; [done|]. apply list_elem_of_lookup. exists (Z.to_nat j). rewrite lookup_take, decide_True by lia.
    unfold slot in Hs. rewrite decide_False, decide_True in Hs by lia. rewrite <-Hs. apply list_lookup_lookup_total_lt. lia.
Qed.

Lemma elem_of_indirect co ad b :
  b ∈ indirect_blocks co ad ↔ b ≠ 0 ∧ ((∃ j, NDIRECT ≤ j < MAXFILE ∧ slot co ad j = b) ∨ slot co ad (-1) = b).
Proof.
  unfold indirect_blocks. change (slot co ad (-1)) with (ad !!! 12%nat). case_decide as E.
  - split; [by intros ?%elem_of_nil|]. intros (Hne & [(j & Hj & Hs)|Hs]); [|congruence].
    unfold slot in Hs. rewrite decide_False, decide_False, decide_True in Hs by lia. congruence.
  - rewrite elem_of_app, list_elem_of_singleton. unfold nz. rewrite list_elem_of_filter. split.
    + intros [[Hne Hin]| ->]; [|split; [done|by right]]. split; [done|left].
      apply list_elem_of_lookup in Hin as [i Hi]. pose proof (lookup_lt_Some _ _ _ Hi) as Hlt. rewrite words_length in Hlt.
      rewrite lookup_words in Hi by done. injection Hi as <-. exists (NDIRECT + Z.of_nat i). split; [lia|].
      unfold slot. rewrite decide_False, decide_False, decide_False by (done || lia). f_equal. lia.
    + intros (Hne & [(j & Hj & Hs)|Hs]); [left|by right]. split; [done|]. unfold slot in Hs.
      rewrite decide_False, decide_False, decide_False in Hs by (done || lia). rewrite <-Hs. apply list_elem_of_lookup.
      exists (Z.to_nat (j - NDIRECT)). rewrite lookup_words by lia. do 2 f_equal. lia.
Qed.

Lemma elem_of_blocks co ad b :
  length ad = 13%nat →
  b ∈ direct_blocks ad ++ indirect_blocks co ad ↔ b ≠ 0 ∧ ∃ j, place_ok j ∧ slot co ad j = b.
Proof.
  intros Hl. rewrite elem_of_app, (elem_of_direct co ad b Hl), elem_of_indirect. unfold place_ok. split.
  - intros [(Hne & j & Hj & Hs)|(Hne & [(j & Hj & Hs)|Hs])]; (split; [done|]).
    + exists j. split; [lia|done].
    + exists j. split; [lia|done].
    + exists (-1). split; [lia|done].
  - intros (Hne & j & Hj & Hs). destruct (decide (j = -1)) as [->|]; [right; auto|].
    destruct (decide (j < NDIRECT)); [left|right]; (split; [done|]); [exists j; split; [lia|done]|].
    left. exists j. split; [lia|done].
Qed.

Lemma nz_nodup l : (∀ i j a, l !! i = Some a → l !! j = Some a → a ≠ 0 → i = j) → NoDup (nz l).
Proof.
  induction l as [|a l IH]; intros Hinj; [constructor|]. unfold nz. rewrite filter_cons.
  assert (NoDup (nz l)) as Hn.
  { apply IH. intros i j x Hi Hj Hx. specialize (Hinj (S i) (S j) x Hi Hj Hx). lia. }
  destruct (decide (a ≠ 0)) as [Ha|Ha]; [|done]. apply NoDup_cons. split; [|done]. rewrite list_elem_of_filter.
  intros [_ [j Hj]%list_elem_of_lookup]. specialize (Hinj 0%nat (S j) a eq_refl Hj Ha). lia.
Qed.

(** All the blocks of a file can be freed. *)
Lemma file_freeable sb co ad :
  layout sb → map_ok sb co ad → freeable sb co (direct_blocks ad ++ indirect_blocks co ad).
Proof.
  intros Hly Hm. pose proof (mo_len _ _ _ Hm) as Hl. pose proof (λ b, elem_of_direct co ad b Hl) as Hdir. split.
  - apply NoDup_app. split_and!.
    + apply nz_nodup. intros i j a [Hi Hi2]%lookup_take_Some [Hj Hj2]%lookup_take_Some Ha.
      assert (∀ i, ad !! i = Some a → (i < 12)%nat → slot co ad (Z.of_nat i) = a) as Hs.
      { intros i' Hi' Hlt. unfold slot. rewrite decide_False, decide_True by lia. rewrite Nat2Z.id. by apply list_lookup_total_correct. }
      assert (Z.of_nat i = Z.of_nat j); [|lia]. apply (mo_inj _ _ _ Hm); rewrite ?Hs by done; unfold place_ok; try lia; done.
    + intros b [Hb1 (i & Hi & Hsi)]%Hdir [_ Hb2]%elem_of_indirect.
      destruct Hb2 as [(j & Hj & Hsj)|Hsj].
      * assert (i = j); [|lia]. apply (mo_inj _ _ _ Hm); unfold place_ok; try lia; congruence.
      * assert (i = -1); [|lia]. apply (mo_inj _ _ _ Hm); unfold place_ok; try lia; congruence.
    + unfold indirect_blocks. case_decide as E; [constructor|]. apply NoDup_app. split_and!; [| |apply NoDup_singleton].
      * apply nz_nodup. intros i j a Hi Hj Ha. pose proof (lookup_lt_Some _ _ _ Hi) as Hi2. pose proof (lookup_lt_Some _ _ _ Hj) as Hj2.
        rewrite words_length in *. rewrite lookup_words in Hi, Hj by done.
        assert (∀ i, (i < 256)%nat → slot co ad (NDIRECT + Z.of_nat i) = get32 (co (ad !!! 12%nat)) (0 + 4 * Z.of_nat i)) as Hs.
        { intros i' Hlt. unfold slot. rewrite decide_False, decide_False, decide_False by (done || lia). f_equal. lia. }
        injection Hi as Hi. injection Hj as Hj. assert (NDIRECT + Z.of_nat i = NDIRECT + Z.of_nat j); [|lia].
        apply (mo_inj _ _ _ Hm); unfold place_ok; rewrite ?Hs by lia; try lia; congruence.
      * intros b [Hb Hin]%list_elem_of_filter ->%list_elem_of_singleton. apply list_elem_of_lookup in Hin as [i Hi].
        pose proof (lookup_lt_Some _ _ _ Hi) as Hi2. rewrite words_length in Hi2. rewrite lookup_words in Hi by done. injection Hi as Hi.
        assert (NDIRECT + Z.of_nat i = -1); [|lia].
        apply (mo_inj _ _ _ Hm); unfold place_ok; try lia; unfold slot; rewrite decide_False, decide_False, decide_False by (done || lia);
          replace (4 * (NDIRECT + Z.of_nat i - NDIRECT)) with (0 + 4 * Z.of_nat i) by lia; [done|congruence].
  - intros b Hin. apply (elem_of_blocks co ad b Hl) in Hin as (Hne & j & Hj & Hs).
    destruct (mo_data _ _ _ Hm j Hj) as [Hr Hu]; [congruence|]. rewrite Hs in *.
    pose proof (data_nonneg _ Hly b). split; [lia|done].
Qed.

Lemma freeable_app sb co co' l1 l2 :
  freeable sb co (l1 ++ l2) → freeable sb co l1 ∧ (freed sb co co' l1 → freeable sb co' l2).
Proof.
  intros [(N1 & N2 & N3)%NoDup_app Hl]. split.
  - split; [done|]. intros b Hb. apply Hl, elem_of_app. by left.
  - intros [F1 F2]. split; [done|]. intros b Hb. destruct (Hl b) as [Hr Hu]; [apply elem_of_app; by right|].
    split; [done|]. rewrite F1, Hu, bool_decide_true by (done || (intros Hin; by apply (N2 b))). done.
Qed.

(** The indirect block and its entries are freed. *)
Lemma itrunc_ind_spec s d co k ip :
  base vb s → ownsR R (store s) d co [] k → 1 ≤ k → bitmap_reserved (sb s) → dev (itable s ip) = ROOTDEV →
  let ad := addrs (din (itable s ip)) in
  length ad = 13%nat → (ad !!! 12%nat ≠ 0 → datastart (sb s) ≤ ad !!! 12%nat < size (sb s)) →
  freeable (sb s) co (indirect_blocks co ad) →
  runs (i ← fld id ip;
        (if truthy (addr_at i NDIRECT) then
           bp ← in_store (bread (dev i) (addr_at i NDIRECT));
           x ← in_store (rdata bp);
           itrunc_indirect (Z.to_nat NINDIRECT) (dev i) x 0;;
           in_store (brelse bp);;
           bfree (dev i) (addr_at i NDIRECT);;
           with_din ip (set_addr NDIRECT 0)
         else mret tt)) s
    (λ _ s', ∃ co', upto ip s s' (set_addrs (take 12 ad ++ [0]) (din (itable s ip))) ∧
      ownsR R (store s') d co' [] k ∧ freed (sb s) co co' (indirect_blocks co ad)).
Proof using All.
  intros Hb Ho Hk Hres Hdev ad Hlen Hind Hf. pose proof Hb as [Hly Hvb]. rstep. change (id (itable s ip)) with (itable s ip).
  unfold addr_at. fold ad. rewrite Hdev. change (Z.to_nat NDIRECT) with 12%nat. change (Z.to_nat NINDIRECT) with 256%nat.
  destruct (lookup_lt_is_Some_2 ad 12) as [ind Hi]; [lia|]. rewrite (list_lookup_total_correct _ _ _ Hi) in *.
  assert (take 12 ad ++ [ind] = ad) as Had.
  { rewrite <-(take_S_r _ _ _ Hi). apply take_ge. lia. }
  unfold indirect_blocks in *. rewrite (list_lookup_total_correct _ _ _ Hi) in *. destruct (decide (ind = 0)) as [->|Hne].
  { apply runs_ret. exists co. split_and!; [|done|apply freed_nil]. rewrite Had. split; try done.
    by destruct (itable s ip) as [? ? ? ? ? []]. }
  rewrite truthy_nz by done. specialize (Hind Hne).
  rcall (st_bread vb (ownsR R)); [exact Ho|by apply Hvb, data_fs|apply not_elem_of_nil|simpl; unfold MAXHELD; lia|].
  intros h s1 (t1 & -> & Ho1). apply runs_bind. eapply runs_done; [eapply (st_rdata vb (ownsR R)); [exact Ho1|by left]|done|].
  destruct (freeable_app (sb s) co co _ _ Hf) as [Hfe _].
  rcall (itrunc_indirect_spec 256 (set_store t1 s) d co [(h, ind, false)] k (co ind) 0); try done; try (simpl; lia).
  { intros y [->|[]%elem_of_nil]%elem_of_cons. exact (proj1 Hind). }
  intros _ s2 (t2 & co2 & -> & Ho2 & Hf2). rcall (st_brelse vb (ownsR R)); [exact Ho2|]. intros _ s3 (t3 & -> & Ho3).
  cbn [sb set_store] in Hf2. destruct (freeable_app (sb s) co co2 _ _ Hf) as [_ Hfi].
  destruct (proj2 (Hfi Hf2) ind) as [Hr Hu]; [by left|].
  rcall (bfree_reserved (set_store t3 s) d co2 [] k ind); try done; [simpl; lia|by intros x ?%elem_of_nil|].
  intros _ s4 (t4 & co4 & -> & Ho4 & Hf4). eapply runs_done; [reflexivity|done|]. exists co4. split_and!; [|done|].
  - split; try done; cbn [itable set_itable set_store].
    + intros j Hj. by rewrite upd_ne.
    + rewrite upd_eq. f_equal. unfold set_addr, set_addrs. fold ad. f_equal. change (Z.to_nat NDIRECT) with 12%nat.
      rewrite insert_take_drop by lia. f_equal. f_equal. apply drop_ge. lia.
  - by eapply freed_app.
Qed.

(** What [itrunc] leaves. *)
Definition truncated s d co k (ip : Z) s' : Prop :=
  let di := din (itable s ip) in let di' := set_dsize 0 (set_addrs (replicate 13 0) di) in
  ∃ co1 co', upto ip s s' di' ∧ ownsR R (store s') d co' [] k ∧
    freed (sb s) co co1 (direct_blocks (addrs di) ++ indirect_blocks co (addrs di)) ∧
    inode_stored (sb s) co1 co' (inum (itable s ip)) di'.

Lemma itrunc_spec s d co k ip :
  active vb s co ip → ownsR R (store s) d co [] k → 1 ≤ k → bitmap_reserved (sb s) →
  0 ≤ inum (itable s ip) < ninodes (sb s) → dinode_ok (din (itable s ip)) →
  runs (itrunc ip) s (λ _ s', truncated s d co (k - 1) ip s').
Proof using All.
  intros [Hb Hmeta Hdev Hm] Ho Hk Hres Hn Hd. pose proof Hb as [Hly Hvb]. unfold itrunc.
  set (ad := addrs (din (itable s ip))) in *. pose proof (mo_len _ _ _ Hm) as Hlen.
  pose proof (file_freeable (sb s) co ad Hly Hm) as Hf.
  rcall (itrunc_direct_spec 12 s d co k ip 0); try done; [by apply (freeable_app _ _ co) in Hf as [Hf _]|].
  intros _ s1 (co1 & Hup1 & Ho1 & Hf1). fold ad in Hup1, Hf1. rewrite take_0, app_nil_l in Hup1. rewrite drop_0 in Hf1. fold (direct_blocks ad) in Hf1.
  pose proof Hup1 as [U1 U2 U3 U4 U5 U6]. set (ad1 := replicate 12 0 ++ drop 12 ad) in *.
  destruct (freeable_app (sb s) co co1 _ _ Hf) as [_ Hf1'].
  assert (ad1 !!! 12%nat = ad !!! 12%nat) as H12.
  { unfold ad1. rewrite lookup_total_app_r by done. rewrite !list_lookup_total_alt, lookup_drop. done. }
  assert (length ad1 = 13%nat) as Hlen1 by (unfold ad1; rewrite length_app, length_drop, length_replicate; lia).
  assert (ad !!! 12%nat ≠ 0 → datastart (sb s) ≤ ad !!! 12%nat < size (sb s)) as Hind.
  { intros Hne. apply (mo_data _ _ _ Hm (-1)); [unfold place_ok; lia|exact Hne]. }
  assert (indirect_blocks co1 ad1 = indirect_blocks co ad) as Hib.
  { unfold indirect_blocks. rewrite H12. case_decide; [done|]. rewrite (proj2 Hf1); [done|]. apply data_not_bitmap. by apply Hind. }
  rewrite <-Hib in Hf1', Hf.
  apply runs_assoc, runs_bind. eapply runs_mono.
  { apply (itrunc_ind_spec s1 d co1 k ip); unfold base; rewrite ?U1, ?U6; cbn [din set_din addrs set_addrs dev]; try done.
    - by rewrite H12.
    - by apply Hf1'. }
  rewrite U1, U6. cbn [din set_din addrs set_addrs]. intros _ s2 (co2 & Hup2 & Ho2 & Hf2).
  replace (take 12 ad1 ++ [0]) with (replicate 13 0) in Hup2 by (unfold ad1; by rewrite take_app_length').
  rstep. set (s3 := set_itable _ _). pose proof (upto_trans _ _ _ _ _ _ Hup1 Hup2) as Hup. destruct Hup as [V1 V2 V3 V4 V5 V6].
  assert (itable s3 ip = set_din (set_dsize 0 (set_addrs (replicate 13 0) (din (itable s ip)))) (itable s ip)) as Hip.
  { simpl. by rewrite upd_eq, V6. }
  assert (sb s3 = sb s) as Hsb by (simpl; congruence).
  eapply runs_mono; [apply (iupdate_spec vb (ownsR R) s3 d co2 k ip); unfold base; rewrite ?Hsb, ?Hip; try done|].
  - destruct Hd as [D1 D2 D3 D4 D5 D6 D7]. split; try done. by apply Forall_replicate.
  - rewrite Hsb, Hip. intros _ s4 (t4 & co4 & -> & Ho4 & Hst4). exists co2, co4. split_and!; [|done| |done].
    + split; try done; cbn [itable set_store].
      intros j Hj. unfold s3. cbn [itable set_itable]. rewrite upd_ne by done. by apply V5.
    + fold ad. rewrite <-Hib. by eapply freed_app.
Qed.
End trunc.
