(* ===== verification/FsInv.v ===== *)
(** * The file system is consistent

    [fs_ok] is the invariant of the disk: every inode in use has its blocks,
    no block belongs to two files, and every data block in use belongs to one.
    The theorems say that [writei] and [itrunc] keep it, what they do to the
    file, and that they keep all other files. *)

From S2P Require Import Prelude Riscv Memory Disk Tx Fs FsAlloc FsMap FsInode FsFile FsWrite FsTrunc.

(** [D n] is the current inode [n]: the copy in the table when there is one. *)
Record fs_ok (sb : superblock) (co : disk) (D : Z → dinode) : Prop := {
  fs_layout : layout sb;
  fs_meta : meta_used sb co;
  fs_dinode n : 0 ≤ n < ninodes sb → type (D n) ≠ 0 → dinode_ok (D n);
  fs_map n : 0 ≤ n < ninodes sb → type (D n) ≠ 0 → map_ok sb co (addrs (D n));
  fs_filled n : 0 ≤ n < ninodes sb → type (D n) ≠ 0 → filled co (addrs (D n)) (dsize (D n)) ∧ dsize (D n) ≤ MAXFILE * BSIZE;
  fs_apart n n' j j' : 0 ≤ n < ninodes sb → 0 ≤ n' < ninodes sb → type (D n) ≠ 0 → type (D n') ≠ 0 →
    place_ok j → place_ok j' → slot co (addrs (D n)) j = slot co (addrs (D n')) j' → slot co (addrs (D n)) j ≠ 0 → n = n';
  fs_owned b : datastart sb ≤ b < size sb → bused sb co b = true →
    ∃ n j, 0 ≤ n < ninodes sb ∧ type (D n) ≠ 0 ∧ place_ok j ∧ slot co (addrs (D n)) j = b
}.

(** The contents of inode [n]. *)
Definition contents (co : disk) (di : dinode) : list Z := slice co (addrs di) 0 (Z.to_nat (dsize di)).

Section update.
  Context (sb : superblock) (co : disk) (D : Z → dinode) (Hok : fs_ok sb co D).
  Context (n : Z) (Hn : 0 ≤ n < ninodes sb) (Htn : type (D n) ≠ 0) (co' : disk).
  (** Blocks of other files are kept. *)
  Hypothesis Hkeep : ∀ x, datastart sb ≤ x < size sb → bused sb co x = true →
    (∀ j, place_ok j → slot co (addrs (D n)) j ≠ x) → bused sb co' x = true ∧ co' x = co x.

(** The blocks of another file. *)
Lemma other_slot n' j :
  0 ≤ n' < ninodes sb → n' ≠ n → type (D n') ≠ 0 → place_ok j → slot co (addrs (D n')) j ≠ 0 →
  bused sb co' (slot co (addrs (D n')) j) = true ∧ co' (slot co (addrs (D n')) j) = co (slot co (addrs (D n')) j).
Proof using All.
  intros Hn' Hne Ht Hj Hs. destruct (mo_data _ _ _ (fs_map _ _ _ Hok n' Hn' Ht) j Hj Hs) as [Hr Hu].
  apply Hkeep; [done|done|]. intros i Hi E. apply Hne. symmetry. eapply (fs_apart _ _ _ Hok n n' i j); try done; congruence.
Qed.

Lemma other_slots n' j :
  0 ≤ n' < ninodes sb → n' ≠ n → type (D n') ≠ 0 → slot co' (addrs (D n')) j = slot co (addrs (D n')) j.
Proof using All.
  intros Hn' Hne Ht. apply slot_ext. intros Hi. by apply (other_slot n' (-1)).
Qed.

(** Another file has the same contents. *)
Lemma other_byte n' p :
  0 ≤ n' < ninodes sb → n' ≠ n → type (D n') ≠ 0 → 0 ≤ p < dsize (D n') →
  file_byte co' (addrs (D n')) p = file_byte co (addrs (D n')) p.
Proof using All.
  intros Hn' Hne Ht Hp. destruct (fs_filled _ _ _ Hok n' Hn' Ht) as [Hf Hmax].
  pose proof (Z.div_pos p BSIZE ltac:(lia) ltac:(lia)). pose proof (Z.div_mod p BSIZE ltac:(lia)).
  pose proof (Z.mod_pos_bound p BSIZE ltac:(lia)). unfold file_byte. rewrite other_slots by done. f_equal.
  apply (other_slot n' (p / BSIZE)); [done|done|done|unfold place_ok; lia|apply Hf; lia].
Qed.

Lemma other_contents n' :
  0 ≤ n' < ninodes sb → n' ≠ n → type (D n') ≠ 0 → contents co' (D n') = contents co (D n').
Proof using All.
  intros Hn' Hne Ht. apply list_eq. intros i. destruct (decide (i < Z.to_nat (dsize (D n')))%nat) as [Hi|Hi].
  - unfold contents. rewrite !lookup_slice by done. f_equal. apply other_byte; try done. lia.
  - unfold contents. rewrite !lookup_ge_None_2 by (rewrite slice_length; lia). done.
Qed.

(** The new blocks of inode [n] were its own or free. *)
Lemma fs_ok_update di' :
  type di' ≠ 0 → dinode_ok di' → map_ok sb co' (addrs di') → filled co' (addrs di') (dsize di') → dsize di' ≤ MAXFILE * BSIZE →
  meta_used sb co' →
  (∀ j, place_ok j → slot co' (addrs di') j ≠ 0 →
    (∃ i, place_ok i ∧ slot co (addrs (D n)) i = slot co' (addrs di') j) ∨ bused sb co (slot co' (addrs di') j) = false) →
  (∀ x, datastart sb ≤ x < size sb → bused sb co' x = true →
    bused sb co x = true ∧ (∀ j, place_ok j → slot co (addrs (D n)) j ≠ x) ∨ ∃ j, place_ok j ∧ slot co' (addrs di') j = x) →
  fs_ok sb co' (upd D n di').
Proof using All.
  intros Ht Hd Hm Hf Hmax Hmeta Hown Hleak. pose proof (fs_layout _ _ _ Hok) as Hly.
  assert (∀ n' j j', 0 ≤ n' < ninodes sb → n' ≠ n → type (D n') ≠ 0 → place_ok j → place_ok j' →
    slot co' (addrs di') j = slot co (addrs (D n')) j' → slot co' (addrs di') j = 0) as Hap.
  { intros n' j j' Hn' Hne Ht' Hj Hj' E. destruct (decide (slot co' (addrs di') j = 0)) as [|Hs]; [done|]. exfalso.
    destruct (Hown j Hj Hs) as [(i & Hi & Ei)|Hfree].
    - apply Hne. symmetry. eapply (fs_apart _ _ _ Hok n n' i j'); try done; congruence.
    - destruct (mo_data _ _ _ (fs_map _ _ _ Hok n' Hn' Ht') j' Hj') as [_ Hu]; congruence. }
  split; try done.
  - intros m Hm'. unfold upd. case_decide; [done|]. by apply (fs_dinode _ _ _ Hok).
  - intros m Hm'. unfold upd. case_decide as E; [done|]. intros Htm. pose proof (fs_map _ _ _ Hok m Hm' Htm) as [M1 M2 M3].
    split; [done|..]; intros *; rewrite !other_slots by done; [|apply M3].
    intros Hj Hs. split; [by apply M2|]. by apply other_slot.
  - intros m Hm'. unfold upd. case_decide as E; [done|]. intros Htm. destruct (fs_filled _ _ _ Hok m Hm' Htm) as [F1 F2].
    split; [|done]. intros bn. rewrite other_slots by done. apply F1.
  - intros m m' j j' Hm1 Hm2. unfold upd. repeat case_decide; intros T1 T2 Hj Hj'; subst; try done;
      rewrite ?other_slots by done; intros E Hs.
    + exfalso. apply Hs. by apply (Hap m' j j').
    + exfalso. apply Hs. rewrite E. by apply (Hap m j' j).
    + by apply (fs_apart _ _ _ Hok m m' j j').
  - intros b Hb Hu. destruct (Hleak b Hb Hu) as [[Hu0 Hno]|(j & Hj & Es)].
    + destruct (fs_owned _ _ _ Hok b Hb Hu0) as (m & j & Hm1 & Htm & Hj & Es). assert (m ≠ n) as Hne by (intros ->; by apply (Hno j)).
      exists m, j. rewrite upd_ne by done. rewrite other_slots by done. done.
    + exists n, j. rewrite upd_eq. done.
Qed.
End update.

(** ** The operations *)

Section ops.
  Context {T U : Type} `{ST : Store T} `{UM : UserMem U} (vb : Z → Prop) (owns : T → disk → disk → list hold → Z → Prop).
  Context `{!StoreLaws T vb owns} `{!UserMemLaws U}.
  Local Abbreviation fst := (fst (T := T) (U := U)).
  Implicit Types (s : fst) (d co : disk) (D : Z → dinode) (H : list hold) (k : Z).

(** The entry [ip] of the table holds the current inode. *)
Record current s D (ip : Z) : Prop := {
  cu_base : base vb s;
  cu_dev : dev (itable s ip) = ROOTDEV;
  cu_inum : 0 ≤ inum (itable s ip) < ninodes (sb s);
  cu_din : din (itable s ip) = D (inum (itable s ip));
  cu_type : type (din (itable s ip)) ≠ 0
}.

Lemma current_file s co D ip : fs_ok (sb s) co D → current s D ip → file_ok vb s co ip.
Proof.
  intros Hok [C1 C2 C3 C4 C5]. rewrite C4 in C5. destruct (fs_filled _ _ _ Hok _ C3 C5).
  split; rewrite ?C4; try done.
  - split; rewrite ?C4; try done; [apply Hok|by apply (fs_map _ _ _ Hok)].
  - by apply (fs_dinode _ _ _ Hok).
Qed.

(** The contents after a write: [l] replaces the bytes from [off] on. *)
Lemma contents_written co co' di di' l off r :
  0 ≤ off ≤ dsize di → 0 ≤ r ≤ Z.of_nat (length l) → dsize di' = Z.max (dsize di) (off + r) →
  (∀ p, 0 ≤ p < dsize di' → file_byte co' (addrs di') p =
    if decide (off ≤ p < off + r) then l !!! Z.to_nat (p - off) else file_byte co (addrs di) p) →
  contents co' di' = put_at (contents co di) off (take (Z.to_nat r) l).
Proof.
  intros Ho Hr Hsz Hb. assert (length (contents co di) = Z.to_nat (dsize di)) as Hlen by apply slice_length.
  apply list_eq. intros i. unfold put_at. rewrite length_take, (Nat.min_l (Z.to_nat r)) by lia.
  destruct (decide (i < Z.to_nat (dsize di'))%nat) as [Hi|Hi].
  - unfold contents at 1. rewrite lookup_slice, Hb by lia. case_decide.
    + rewrite lookup_app_r by (rewrite length_take; lia). rewrite length_take, lookup_app_l by (rewrite length_take; lia).
      rewrite lookup_take, decide_True by lia. rewrite <-list_lookup_lookup_total_lt by lia. f_equal. lia.
    + assert (contents co di !! i = Some (file_byte co (addrs di) (0 + Z.of_nat i))) as <- by (apply lookup_slice; lia).
      destruct (decide (Z.of_nat i < off)).
      * rewrite lookup_app_l by (rewrite length_take; lia). by rewrite lookup_take, decide_True by lia.
      * rewrite !lookup_app_r by (rewrite ?length_take; lia). rewrite lookup_drop. f_equal. rewrite !length_take. lia.
  - unfold contents at 1. rewrite lookup_ge_None_2 by (rewrite slice_length; lia). symmetry. apply lookup_ge_None_2.
    rewrite !length_app, length_drop, !length_take. lia.
Qed.

(** What [writei] does when it writes [r] bytes. *)
Definition write_done s d co k D (ip : Z) (l : list Z) (off r : Z) s' : Prop :=
  ∃ co' di', let n := inum (itable s ip) in
    owns (store s') d co' [] k ∧ fs_ok (sb s) co' (upd D n di') ∧ current s' (upd D n di') ip ∧
    contents co' di' = put_at (contents co (D n)) off (take (Z.to_nat r) l) ∧
    disk_inode (sb s) co' n = di' ∧
    (∀ n', 0 ≤ n' < ninodes (sb s) → n' ≠ n → disk_inode (sb s) co' n' = disk_inode (sb s) co n' ∧
      (type (D n') ≠ 0 → contents co' (D n') = contents co (D n'))) ∧
    (r < Z.of_nat (length l) → disk_full (sb s) co') ∧
    di' = set_dsize (Z.max (dsize (D n)) (off + r)) (set_addrs (addrs di') (D n)) ∧
    sb s' = sb s ∧ itable s' ip = set_din di' (itable s ip) ∧ (∀ j, j ≠ ip → itable s' j = itable s j).

Lemma file_written_done s d co k D ip l off r s' :
  fs_ok (sb s) co D → current s D ip → 0 ≤ off ≤ dsize (din (itable s ip)) → 0 ≤ r ≤ Z.of_nat (length l) →
  file_written vb owns s d co k ip l off r s' → write_done s d co k D ip l off r s'.
Proof.
  intros Hok Hcu Hoff Hr (co' & W1 & W2 & W3 & W4 & W5 & W6 & W7 & W8 & W9 & W10 & W11 & W12 & W13 & W14).
  pose proof Hcu as [C1 C2 C3 C4 C5]. pose proof (fs_layout _ _ _ Hok) as Hly. set (n := inum (itable s ip)) in *.
  set (di' := din (itable s' ip)) in *. destruct W2 as [[B1 B2 B3 B4] F2 F3 F4 F5].
  fold di' in B4, F2, F3, F5. rewrite W3 in B2, B4, F4. rewrite C4 in *.
  assert (∀ x, datastart (sb s) ≤ x < size (sb s) → bused (sb s) co x = true →
    (∀ j, place_ok j → slot co (addrs (D n)) j ≠ x) → bused (sb s) co' x = true ∧ co' x = co x) as Hkeep.
  { intros x Hx Hu Hno. destruct (W12 x Hx Hu) as [K1 K2]. split; [done|]. by apply K2. }
  assert (type di' ≠ 0) as Ht' by (rewrite W5; done).
  exists co', di'. cbv zeta. fold n. split_and!; try done.
  - apply (fs_ok_update (sb s) co D Hok n C3 C5 co' Hkeep); try done.
    + intros j Hj Hs. destruct (decide (slot co (addrs (D n)) j = 0)) as [E|E]; [right; by apply W11|].
      left. exists j. split; [done|]. symmetry. by apply W10.
    + intros x Hx Hu'. destruct (bused (sb s) co x) eqn:Hu; [|right; by apply W13].
      destruct (decide (Exists (λ j, slot co (addrs (D n)) j = x) (seqZ (-1) (MAXFILE + 1)))) as [He|He].
      * right. apply Exists_exists in He as (j & Hj%elem_of_seqZ & Es). exists j. assert (place_ok j) by (unfold place_ok; lia).
        split; [done|]. rewrite W10; [done|done|]. rewrite Es. pose proof (datastart_pos _ Hly). lia.
      * left. split; [done|]. intros j Hj Es. apply He, Exists_exists. exists j. split; [|done]. apply elem_of_seqZ. unfold place_ok in Hj. lia.
  - split; rewrite ?W6, ?W3; cbn [dev inum set_din din]; try done; fold n.
    symmetry. apply (upd_eq D n di').
  - apply contents_written; try done. by rewrite W5.
  - intros n' Hn' Hne. split; [by apply W9|]. intros Ht. by apply (other_contents (sb s) co D Hok n C3 C5 co' Hkeep).
Qed.

Lemma writei_ok s d co k D ip src l off :
  fs_ok (sb s) co D → current s D ip → owns (store s) d co [] k → gives s src l → Forall is_byte l →
  let n := Z.of_nat (length l) in
  n < 2 ^ 31 → 0 ≤ off < 2 ^ 32 → 6 * rounds off n + 1 ≤ k →
  runs (writei ip src off n) s (λ r s',
    (write_refused s ip off n ∧ r = -1 ∧ s' = s) ∨
    (¬ write_refused s ip off n ∧ 0 ≤ r ≤ n ∧ write_done s d co (k - (6 * rounds off n + 1)) D ip l off r s')).
Proof using All.
  intros Hok Hcu Ho Hg Hl n Hn Hoff Hk. pose proof (current_file s co D ip Hok Hcu) as Hfo.
  eapply runs_mono; [by apply (writei_spec vb owns)|].
  intros r s' [H1|(H1 & H2 & H3)]; [by left|right]. split_and!; [done|lia|lia|].
  apply file_written_done; try done. unfold write_refused in H1. lia.
Qed.

(** C9: [writei] on a consistent file system, when the bytes [l] of the source
    can be read ([gives]: [either_copyin] does not fail, as for a kernel buffer
    and for mapped user memory).  It refuses a write that starts after the end
    of the file, wraps around or would exceed the largest file, and then
    changes nothing; otherwise it returns how many of the bytes it wrote,
    fewer than asked for only when no block of the disk is free, it replaces
    exactly these bytes of the file, stores the inode, leaves the other inodes
    and files as they were, and keeps the file system consistent. *)
Theorem writei_writes s d co k D ip src l off :
  fs_ok (sb s) co D → current s D ip → owns (store s) d co [] k → gives s src l → Forall is_byte l →
  let n := Z.of_nat (length l) in
  n < 2 ^ 31 → 0 ≤ off < 2 ^ 32 → 6 * rounds off n + 1 ≤ k →
  runs (writei ip src off n) s (λ r s',
    (write_refused s ip off n ∧ r = -1 ∧ s' = s) ∨
    (¬ write_refused s ip off n ∧ 0 ≤ r ≤ n ∧ write_done s d co (k - (6 * rounds off n + 1)) D ip l off r s')).
Proof using All. apply writei_ok. Qed.

(** C11: Reading back what [writei] wrote gives the same bytes, when it could
    read all its source and wrote all of it. *)
Theorem writei_readi s d co k D ip src l off :
  fs_ok (sb s) co D → current s D ip → owns (store s) d co [] k → gives s src l → Forall is_byte l →
  let n := Z.of_nat (length l) in
  n < 2 ^ 31 → 0 ≤ off < 2 ^ 32 → 6 * rounds off n + 1 ≤ k →
  runs (r ← writei ip src off n; r' ← readi ip (Kernel []) off n; mret (r, r')) s (λ res _,
    let '(r, (r', l')) := res in r = n → r' = n ∧ l' = l).
Proof using All.
  intros Hok Hcu Ho Hg Hl n Hn Hoff Hk. pose proof (current_file s co D ip Hok Hcu) as Hfo.
  rcall (writei_spec vb owns); try done. intros r s1 [(_ & -> & ->)|(Hnr & Hr & Hw)].
  - rcall (readi_spec vb owns s d co k ip (Kernel []) off n); try apply Hfo; try done; [lia|].
    intros [r' l'] s2 _. apply runs_ret. lia.
  - destruct Hw as (co' & W1 & W2 & W3 & W4 & W5 & W6 & W7 & W8). unfold write_refused in Hnr.
    rcall (readi_spec vb owns s1 d co' _ ip (Kernel []) off n); try apply W2; try done; [lia|].
    intros [r' l'] s2 (_ & _ & [[Hr' Hl']|(_ & (va & Hva) & _)]); [|done]. apply runs_ret. intros ->.
    cbn [Datatypes.fst Datatypes.snd] in *. assert (dsize (din (itable s1 ip)) = Z.max (dsize (din (itable s ip))) (off + n)) as Hsz.
    { by rewrite W5. }
    assert (read_count (dsize (din (itable s1 ip))) off n = n) as Hrc.
    { unfold read_count. rewrite u32_small by lia. if_false. lia. }
    rewrite Hrc, Z2Nat.id in Hr' by lia. split; [done|]. rewrite Hl', Hrc. unfold n. rewrite Nat2Z.id.
    apply list_eq. intros i. destruct (decide (i < length l)%nat) as [Hi|Hi].
    + rewrite lookup_slice, W7 by lia. rewrite decide_True by lia. rewrite <-list_lookup_lookup_total_lt by lia. f_equal. lia.
    + rewrite !lookup_ge_None_2; [done|lia|rewrite slice_length; lia].
Qed.
End ops.

(** ** Truncation *)

Section trunc.
  Context {T U : Type} `{ST : Store T} `{UM : UserMem U} (vb : Z → Prop) (ownsR : list Z → T → disk → disk → list hold → Z → Prop).
  Context `{!ReserveLaws T vb ownsR} (R : list Z).
  Local Abbreviation fst := (fst (T := T) (U := U)).
  Implicit Types (s : fst) (d co : disk) (D : Z → dinode) (k : Z).

Lemma slot_zero co j : slot co (replicate 13 0) j = 0.
Proof.
  unfold slot. change (replicate 13 0 !!! 12%nat) with 0. case_decide; [done|]. case_decide; [|done].
  apply lookup_total_replicate_2. lia.
Qed.

Lemma zero_map sb co : map_ok sb co (replicate 13 0).
Proof. split; [done|..]; intros *; rewrite !slot_zero; done. Qed.

(** C10: [itrunc] empties the file and frees all of its blocks, however many,
    and no others: the log only needs room for the inode and the bitmap.  The
    file system stays consistent and the other files keep their contents. *)
Theorem itrunc_frees s d co k D ip :
  fs_ok (sb s) co D → current vb s D ip → ownsR R (store s) d co [] k → 1 ≤ k → bitmap_reserved R (sb s) →
  runs (itrunc ip) s (λ _ s', ∃ co' di', let n := inum (itable s ip) in
    ownsR R (store s') d co' [] (k - 1) ∧ fs_ok (sb s) co' (upd D n di') ∧ current vb s' (upd D n di') ip ∧
    contents co' di' = [] ∧ disk_inode (sb s) co' n = di' ∧
    (∀ b, datastart (sb s) ≤ b < size (sb s) → bused (sb s) co' b = true ↔
      bused (sb s) co b = true ∧ ∀ j, place_ok j → slot co (addrs (D n)) j ≠ b) ∧
    (∀ n', 0 ≤ n' < ninodes (sb s) → n' ≠ n → type (D n') ≠ 0 → contents co' (D n') = contents co (D n'))).
Proof using All.
  intros Hok Hcu Ho Hk Hres. pose proof Hcu as [C1 C2 C3 C4 C5]. destruct (current_file vb s co D ip Hok Hcu) as [Hac _ _ _ Hd].
  pose proof (fs_layout _ _ _ Hok) as Hly. pose proof (datastart_pos _ Hly).
  eapply runs_mono; [by apply (itrunc_spec vb ownsR R s d co k ip)|].
  intros _ s' (co1 & co' & Hup & Ho' & [F1 F2] & Hst). rewrite C4 in *. set (n := inum (itable s ip)) in *.
  set (di' := set_dsize 0 (set_addrs (replicate 13 0) (D n))) in *. pose proof (fs_map _ _ _ Hok n C3 C5) as Hm.
  destruct (stored_map (sb s) co1 co' n di' (replicate 13 0) Hly Hst (zero_map _ _)) as (Hm' & _ & Hu' & Hd').
  assert (∀ b, datastart (sb s) ≤ b < size (sb s) → bused (sb s) co' b = true ↔
    bused (sb s) co b = true ∧ ∀ j, place_ok j → slot co (addrs (D n)) j ≠ b) as Hused.
  { intros b Hb. rewrite Hu', F1, andb_true_iff, bool_decide_eq_true, elem_of_blocks by (apply Hm || lia).
    split; intros [Hub Hno]; (split; [done|]); [|naive_solver]. intros j Hj Hs. apply Hno. split; [lia|by exists j]. }
  assert (∀ x, datastart (sb s) ≤ x < size (sb s) → bused (sb s) co x = true →
    (∀ j, place_ok j → slot co (addrs (D n)) j ≠ x) → bused (sb s) co' x = true ∧ co' x = co x) as Hkeep.
  { intros x Hx Hu Hno. split; [by apply Hused|]. rewrite Hd', F2; [done|apply data_not_bitmap|]; lia. }
  destruct Hup as [U1 U2 U3 U4 U5 U6]. exists co', di'. cbv zeta. fold n. split_and!; try done.
  - apply (fs_ok_update (sb s) co D Hok n C3 C5 co' Hkeep); try done.
    + destruct Hd as [D1 D2 D3 D4 D5 D6 D7]. split; try done. by apply Forall_replicate.
    + intros bn Hb1 Hb2. simpl in Hb2. lia.
    + intros b Hb. pose proof (ly_data _ Hly). rewrite Hu', F1, (fs_meta _ _ _ Hok) by lia. simpl.
      apply bool_decide_eq_true. rewrite elem_of_blocks by apply Hm. intros (Hne & j & Hj & Hs).
      destruct (mo_data _ _ _ Hm j Hj) as [Hr _]; lia.
    + intros j Hj. change (addrs di') with (replicate 13 0). by rewrite slot_zero.
    + intros x Hx Hu. left. by apply Hused.
  - split; unfold base; rewrite ?U1, ?U6; try done. symmetry. apply (upd_eq D n di').
  - apply Hst.
  - intros n' Hn' Hne Ht. by apply (other_contents (sb s) co D Hok n C3 C5 co' Hkeep).
Qed.
End trunc.
