(* ===== verification/FsDir.v ===== *)
(** * The inode table, directories and path names

    [iget] keeps at most one entry per inode.  A directory is the list of its
    entries; [dirlookup] finds the first that carries the name, [dirlink] adds
    one.  [skipelem] takes a path apart into its components. *)

From S2P Require Import Prelude Riscv Memory Locks Disk Tx Fs FsAlloc FsMap FsInode FsFile FsWrite FsInv.

(** ** The inode table *)

Definition in_table (ip : Z) : Prop := 0 ≤ ip < NINODE.

(** Entry [i] is in use for inode [n] of device [d]. *)
Definition entry_for (i : inode) (d n : Z) : Prop := 0 < ref i ∧ dev i = d ∧ inum i = n.

Record table_ok (tbl : Z → inode) : Prop := {
  tb_ref ip : in_table ip → 0 ≤ ref (tbl ip);
  tb_unique ip ip' d n : in_table ip → in_table ip' → entry_for (tbl ip) d n → entry_for (tbl ip') d n → ip = ip'
}.

Lemma iget_scan_spec tbl d n k ip empty :
  0 ≤ ip →
  match iget_scan tbl d n k ip empty with
  | (r, e) =>
      (r ≠ NULL ∧ ip ≤ r < ip + Z.of_nat k ∧ entry_for (tbl r) d n) ∨
      (r = NULL ∧ (∀ j, ip ≤ j < ip + Z.of_nat k → ¬ entry_for (tbl j) d n) ∧
       ((e = empty ∧ (empty = NULL → ∀ j, ip ≤ j < ip + Z.of_nat k → ref (tbl j) ≠ 0)) ∨
        (empty = NULL ∧ ip ≤ e < ip + Z.of_nat k ∧ ref (tbl e) = 0)))
  end.
Proof.
  revert ip empty. induction k as [|k IH]; intros ip empty Hip; cbn [iget_scan].
  { right. split_and!; [done|lia|]. left. split; [done|lia]. }
  case_if.
  - left. split_and!; [unfold NULL; lia|lia|lia|]. unfold entry_for. lia.
  - specialize (IH (ip + 1) (if (empty =? NULL) && (ref (tbl ip) =? 0) then ip else empty) ltac:(lia)).
    destruct (iget_scan _ _ _ _ _ _) as [r e]. destruct IH as [(H1 & H2 & H3)|(H1 & H2 & H3)].
    + left. split_and!; [done|lia|lia|done].
    + right. split; [done|]. split.
      * intros j Hj. destruct (decide (j = ip)) as [->|]; [|apply H2; lia]. unfold entry_for. blia.
      * revert H3. case_if; bool_prop; intros [[-> H3]|(H3 & H4 & H5)].
        -- right. split_and!; [done|lia|lia|done].
        -- unfold NULL in *. lia.
        -- left. split; [done|]. intros Hn j Hj. destruct (decide (j = ip)) as [->|]; [|apply H3; [done|lia]]. unfold NULL in *. blia.
        -- right. split_and!; [done|lia|lia|done].
Qed.

Section iget.
  Context {T U : Type} `{ST : Store T} `{UM : UserMem U}.
  Local Abbreviation fst := (fst (T := T) (U := U)).
  Implicit Types (s : fst).

(** The three ways in which [iget] ends. *)
Lemma iget_run s d n :
  (∃ ip, in_table ip ∧ entry_for (itable s ip) d n ∧
    iget d n s = Done ip (set_itable (upd (itable s) ip (set_ref (ref (itable s ip) + 1) (itable s ip))) s)
      [EvAcquire LkItable; EvRelease LkItable]) ∨
  (∃ ip, in_table ip ∧ (∀ j, in_table j → ¬ entry_for (itable s j) d n) ∧ ref (itable s ip) = 0 ∧
    iget d n s = Done ip (set_itable (upd (itable s) ip (Inode d n 1 (lock (itable s ip)) 0 (din (itable s ip)))) s)
      [EvAcquire LkItable; EvRelease LkItable]) ∨
  ((∀ j, in_table j → ¬ entry_for (itable s j) d n) ∧ (∀ j, in_table j → ref (itable s j) ≠ 0) ∧
    iget d n s = Panicked "iget: no inodes" s [EvAcquire LkItable]).
Proof.
  pose proof (iget_scan_spec (itable s) d n (Z.to_nat NINODE) 0 NULL ltac:(lia)) as Hscan.
  unfold iget, mbind, M_bind. cbn [acquire emit gets]. destruct (iget_scan _ _ _ _ _ _) as [r e].
  replace (0 + Z.of_nat (Z.to_nat NINODE)) with NINODE in Hscan by lia.
  destruct Hscan as [(H1 & H2 & H3)|(-> & H2 & H3)].
  - left. exists r. split_and!; [done|done|]. apply Z.eqb_neq in H1. rewrite H1. done.
  - right. destruct H3 as [[-> H3]|(_ & H4 & H5)].
    + right. split_and!; [done|by apply H3|done].
    + left. exists e. split_and!; [done|done|done|]. cbn. assert (e =? NULL = false) as -> by (unfold NULL; lia). done.
Qed.

(** [iget] returns the entry of the inode: the one in use, with one more
    reference and its copy of the disk inode untouched, or, when there is none,
    a free entry with one reference whose copy is not valid.  It changes no
    other entry and keeps the inodes in the table unique; it panics exactly
    when the inode has no entry and all entries are in use. *)
Theorem iget_unique s d n :
  table_ok (itable s) →
  match iget d n s with
  | Done ip s' _ =>
      in_table ip ∧ s' = set_itable (itable s') s ∧ table_ok (itable s') ∧ entry_for (itable s' ip) d n ∧
      (∀ j, j ≠ ip → itable s' j = itable s j) ∧
      (entry_for (itable s ip) d n ∧ itable s' ip = set_ref (ref (itable s ip) + 1) (itable s ip) ∨
       (∀ j, in_table j → ¬ entry_for (itable s j) d n) ∧ ref (itable s ip) = 0 ∧
       ref (itable s' ip) = 1 ∧ valid (itable s' ip) = 0)
  | Panicked _ _ _ => (∀ j, in_table j → ¬ entry_for (itable s j) d n ∧ ref (itable s j) ≠ 0)
  | _ => False
  end.
Proof.
  intros [T1 T2].
  destruct (iget_run s d n) as [(ip & Hip & Hen & ->)|[(ip & Hip & Hno & H0 & ->)|(Hno & Hfull & ->)]]; cbn [itable set_itable].
  - rewrite upd_eq. split_and!; try done.
    + split.
      * intros j Hj. unfold upd. case_decide; [subst; specialize (T1 ip Hip); simpl; lia|by apply T1].
      * intros i j d' n' Hi Hj. unfold upd. repeat case_decide; subst; try done; unfold entry_for; simpl; intros E1 E2.
        -- apply (T2 ip j d' n'); try done. unfold entry_for in *. lia.
        -- apply (T2 i ip d' n'); try done. unfold entry_for in *. lia.
        -- by apply (T2 i j d' n').
    + unfold entry_for in *. simpl. lia.
    + intros j Hj. by apply upd_ne.
    + by left.
  - rewrite upd_eq. split_and!; try done.
    + split.
      * intros j Hj. unfold upd. case_decide; [simpl; lia|by apply T1].
      * intros i j d' n' Hi Hj. unfold upd. repeat case_decide; subst; try done; unfold entry_for; simpl; intros E1 E2.
        -- destruct (Hno j Hj). unfold entry_for. lia.
        -- destruct (Hno i Hi). unfold entry_for. lia.
        -- by apply (T2 i j d' n').
    + intros j Hj. by apply upd_ne.
    + by right.
  - auto.
Qed.
End iget.

(** ** Path names *)

(** The components of a path. *)
Fixpoint split_path (cur : list Z) (path : list Z) : list (list Z) :=
  match path with
  | [] => match cur with [] => [] | _ => [cur] end
  | c :: path =>
      if c =? 47 then match cur with [] => split_path [] path | _ => cur :: split_path [] path end
      else split_path (cur ++ [c]) path
  end.
Definition components (path : list Z) : list (list Z) := split_path [] path.

Lemma components_slashes path : components (skip_slashes path) = components path.
Proof. unfold components. induction path as [|c path IH]; [done|]. cbn [skip_slashes split_path]. destruct (c =? 47) eqn:E; [done|]. cbn [split_path]. by rewrite E. Qed.

Lemma skip_slashes_head path c rest : skip_slashes path = c :: rest → c ≠ 47.
Proof. induction path as [|x path IH]; cbn [skip_slashes]; [done|]. case_if; [done|]. intros [= -> ->]. done. Qed.

Lemma take_elem_spec path :
  let '(e, rest) := take_elem path in
  path = e ++ rest ∧ Forall (λ c, c ≠ 47) e ∧ (∀ c r, rest = c :: r → c = 47) ∧
  ∀ cur, split_path cur path = match cur ++ e with [] => split_path [] rest | x => x :: split_path [] rest end.
Proof.
  induction path as [|c path IH]; cbn [take_elem].
  { split_and!; [done|constructor|done|]. intros cur. rewrite app_nil_r. simpl. by destruct cur. }
  case_if.
  - subst c. split_and!; [done|constructor|by intros c r [= <- _]|]. intros cur. rewrite app_nil_r. simpl. by destruct cur.
  - destruct (take_elem path) as [e rest]. destruct IH as (H1 & H2 & H3 & H4). split_and!.
    + by rewrite H1 at 1.
    + by constructor.
    + done.
    + intros cur. cbn [split_path]. apply Z.eqb_neq in E. rewrite E, H4. by rewrite <-app_assoc.
Qed.

(** The buffer after the copy of a component. *)
Lemma put_at_all x l : length l = length x → put_at x 0 l = l.
Proof. intros H. unfold put_at. rewrite take_0, drop_ge by lia. simpl. by rewrite app_nil_r. Qed.

Lemma put_at_string x l :
  Z.of_nat (length l) < Z.of_nat (length x) →
  put_at (put_at x 0 l) (Z.of_nat (length l)) [0] = l ++ 0 :: drop (S (length l)) x.
Proof.
  intros H. pose proof (put_at_app x 0 l [0] (Z.of_nat (length l))) as Ha. rewrite Z.add_0_l in Ha.
  rewrite Ha by (simpl; lia). unfold put_at. rewrite take_0, length_app, <-app_assoc. simpl. do 3 f_equal. lia.
Qed.

Lemma field_full n l : Forall (λ c, c ≠ 0) l → length l = n → field n l = l.
Proof. intros Hl <-. induction Hl as [|c l Hc Hl IH]; simpl; [done|]. by rewrite truthy_nz, IH. Qed.

Lemma field_stop n l r : Forall (λ c, c ≠ 0) l → (length l < n)%nat → field n (l ++ 0 :: r) = l.
Proof.
  intros Hl. revert n. induction Hl as [|c l Hc Hl IH]; intros [|n] Hn; simpl in *; try lia; [done|].
  rewrite truthy_nz by done. f_equal. apply IH. lia.
Qed.

Lemma skip_slashes_suffix path : ∃ l, path = l ++ skip_slashes path.
Proof.
  induction path as [|c path [l IH]]; cbn [skip_slashes]; [by exists []|]. case_if; [|by exists []].
  exists (c :: l). cbn. by rewrite <-IH.
Qed.

(** [skipelem] takes the first component off a path: it gives no rest
    exactly when the path has none, otherwise the rest has the remaining
    components and no leading slash, and the buffer holds the component as a
    string, cut to [DIRSIZ] bytes. *)
Theorem skipelem_component path name :
  Forall (λ c, c ≠ 0) path → length name = Z.to_nat DIRSIZ →
  match skipelem path name with
  | None => components path = []
  | Some (rest, name') => ∃ c, components path = c :: components rest ∧
      (∀ x r, rest = x :: r → x ≠ 47) ∧ length name' = Z.to_nat DIRSIZ ∧
      field (Z.to_nat DIRSIZ) name' = take (Z.to_nat DIRSIZ) c ∧
      Forall (λ c, c ≠ 0) c ∧ Forall (λ c, c ≠ 0) rest ∧ (length rest < length path)%nat
  end.
Proof.
  intros Hnz Hlen. unfold skipelem. rewrite <-components_slashes. destruct (skip_slashes_suffix path) as [l Hl].
  assert (Forall (λ c, c ≠ 0) (skip_slashes path)) as Hnz' by (rewrite Hl in Hnz; by apply Forall_app in Hnz as [_ ?]).
  assert (length (skip_slashes path) ≤ length path)%nat as Hlp by (rewrite Hl at 2; rewrite length_app; lia). clear Hl.
  destruct (skip_slashes path) as [|c0 p] eqn:Ep; [done|]. pose proof (skip_slashes_head _ _ _ Ep) as Hc0.
  pose proof (take_elem_spec (c0 :: p)) as Ht. destruct (take_elem (c0 :: p)) as [e rest] eqn:Et.
  destruct Ht as (H1 & H2 & H3 & H4). destruct e as [|c e'].
  { exfalso. simpl in H1. apply Hc0. by apply (H3 c0 p). }
  set (e := c :: e') in *. rewrite H1 in Hnz', Hlp. apply Forall_app in Hnz' as [He Hrest].
  assert (length e = S (length e')) as Hle by done. rewrite length_app in Hlp. destruct (skip_slashes_suffix rest) as [l' Hl'].
  exists e. split_and!.
  - unfold components. rewrite H4. simpl. by rewrite <-components_slashes.
  - intros x r Hr. by eapply skip_slashes_head.
  - case_if.
    + rewrite put_at_all; rewrite length_take; lia.
    + rewrite put_at_string by lia. rewrite length_app. simpl length. rewrite length_drop. lia.
  - case_if.
    + rewrite put_at_all by (rewrite length_take; lia). apply field_full; [by apply Forall_take|rewrite length_take; lia].
    + rewrite put_at_string by lia. rewrite take_ge by lia. apply field_stop; [done|lia].
  - done.
  - rewrite Hl' in Hrest. by apply Forall_app in Hrest as [_ ?].
  - assert (length rest = length l' + length (skip_slashes rest))%nat by (rewrite Hl' at 1; apply length_app). lia.
Qed.

Lemma field_take n l : Forall (λ c, c ≠ 0) l → field n l = take n l.
Proof.
  intros Hl. revert n. induction Hl as [|c l Hc Hl IH]; intros [|n]; cbn [field take]; try done.
  rewrite IH. by rewrite truthy_nz.
Qed.

(** ** Directories *)

(** The entries of a directory. *)
Definition dents (co : disk) (di : dinode) : list (list Z) :=
  (λ i, slice co (addrs di) (DIRENT_SIZE * i) 16) <$> seqZ 0 (dsize di / DIRENT_SIZE).

(** The first entry in use with the name, and its offset. *)
Fixpoint find_dent (name : list Z) (es : list (list Z)) (off : Z) : option (Z * Z) :=
  match es with
  | [] => None
  | de :: es =>
      if (de_inum de =? 0) || negb (bool_decide (field 14 name = field 14 (de_name de)))
      then find_dent name es (off + DIRENT_SIZE) else Some (de_inum de, off)
  end.

(** The offset of the first free entry, or the end. *)
Fixpoint find_hole (es : list (list Z)) (off : Z) : Z :=
  match es with
  | [] => off
  | de :: es => if de_inum de =? 0 then off else find_hole es (off + DIRENT_SIZE)
  end.

Lemma dents_length co di : length (dents co di) = Z.to_nat (dsize di / DIRENT_SIZE).
Proof. unfold dents. by rewrite length_fmap, length_seqZ. Qed.

Lemma lookup_dents co di i :
  0 ≤ i < dsize di / DIRENT_SIZE → dents co di !! Z.to_nat i = Some (slice co (addrs di) (DIRENT_SIZE * i) 16).
Proof. intros Hi. unfold dents. rewrite list_lookup_fmap, lookup_seqZ_lt by lia. simpl. do 2 f_equal. lia. Qed.

Lemma find_dent_app name es1 es2 off :
  find_dent name es1 off = None →
  find_dent name (es1 ++ es2) off = find_dent name es2 (off + DIRENT_SIZE * Z.of_nat (length es1)).
Proof.
  revert off. induction es1 as [|de es1 IH]; intros off; simpl; [by rewrite Z.add_0_r|].
  destruct (_ || _); [|done]. intros H. rewrite IH by done. f_equal. lia.
Qed.

Lemma find_dent_prefix name es1 es2 off : find_dent name (es1 ++ es2) off = None → find_dent name es1 off = None.
Proof. revert off. induction es1 as [|de es1 IH]; intros off; simpl; [done|]. destruct (_ || _); [apply IH|done]. Qed.

Lemma find_hole_spec es off :
  ∃ i, (i ≤ length es)%nat ∧ find_hole es off = off + DIRENT_SIZE * Z.of_nat i ∧ (∀ de, es !! i = Some de → de_inum de = 0) ∧
    Forall (λ de, de_inum de ≠ 0) (take i es).
Proof.
  revert off. induction es as [|de es IH]; intros off; simpl.
  - exists 0%nat. split_and!; [lia|lia|done|constructor].
  - case_if; [exists 0%nat; split_and!; [lia|lia|by intros ? [= <-]|constructor]|].
    destruct (IH (off + DIRENT_SIZE)) as (i & H1 & H2 & H3 & H4). exists (S i). split_and!; [lia|lia|done|by constructor].
Qed.

Lemma slice_contents co di i :
  0 ≤ i → DIRENT_SIZE * i + 16 ≤ dsize di → slice co (addrs di) (DIRENT_SIZE * i) 16 = get_at (contents co di) (DIRENT_SIZE * i) 16.
Proof.
  intros Hi Hs. apply list_eq. intros j. destruct (decide (j < 16)%nat).
  - rewrite lookup_slice, lookup_get_at by done. unfold contents. rewrite lookup_slice by lia. do 2 f_equal. lia.
  - rewrite !lookup_ge_None_2; [done| |rewrite slice_length; lia]. unfold get_at. rewrite length_take. lia.
Qed.

(** Storing an entry in the contents replaces it in the list. *)
Lemma dents_put co di co' di' de i :
  dsize di mod DIRENT_SIZE = 0 → 0 ≤ dsize di → length de = 16%nat → (i ≤ length (dents co di))%nat →
  dsize di' = Z.max (dsize di) (DIRENT_SIZE * Z.of_nat i + 16) →
  contents co' di' = put_at (contents co di) (DIRENT_SIZE * Z.of_nat i) de →
  dents co' di' = take i (dents co di) ++ de :: drop (S i) (dents co di).
Proof.
  intros Hm H0 Hl Hi Hsz Hc. rewrite dents_length in Hi. pose proof (Z_div_exact_full_2 _ DIRENT_SIZE ltac:(lia) Hm) as Hd.
  pose proof (Z.div_pos (dsize di) DIRENT_SIZE). set (m := dsize di / DIRENT_SIZE) in *.
  assert (length (contents co di) = Z.to_nat (dsize di)) as Hlc by apply slice_length.
  assert (dsize di' / DIRENT_SIZE = Z.max m (Z.of_nat i + 1)) as Hd'.
  { rewrite Hsz. symmetry. apply (Z.div_unique_pos _ _ _ 0); lia. }
  assert (∀ j, (j < Z.to_nat (Z.max m (Z.of_nat i + 1)))%nat → j ≠ i → (j < Z.to_nat m)%nat ∧ dents co' di' !! j = dents co di !! j) as Hother.
  { intros j Hj Hne. split; [lia|]. rewrite <-(Nat2Z.id j), !lookup_dents by (rewrite ?Hd'; unfold m in *; lia).
    rewrite !slice_contents by lia. f_equal. rewrite Hc. unfold get_at, put_at.
    apply list_eq. intros x. rewrite !lookup_take. case_decide; [|done]. rewrite !lookup_drop. symmetry.
    destruct (decide (j < i)%nat).
    - rewrite lookup_app_l by (rewrite length_take; lia). rewrite lookup_take, decide_True by lia. done.
    - rewrite lookup_app_r by (rewrite length_take; lia). rewrite lookup_app_r by (rewrite length_take; lia).
      rewrite lookup_drop. f_equal. rewrite length_take. lia. }
  apply list_eq. intros j. destruct (decide (j < Z.to_nat (Z.max m (Z.of_nat i + 1)))%nat) as [Hj|Hj].
  - destruct (decide (j = i)) as [->|Hne].
    + rewrite lookup_app_r by (rewrite length_take, dents_length; fold m; lia). rewrite length_take, dents_length. fold m.
      replace (i - Nat.min i (Z.to_nat m))%nat with 0%nat by lia. simpl. rewrite <-(Nat2Z.id i), lookup_dents by lia.
      f_equal. rewrite slice_contents, Hc by lia. unfold get_at, put_at.
      rewrite drop_app_length' by (rewrite length_take; lia). rewrite <-Hl. apply take_app_length.
    + destruct (Hother j Hj Hne) as [Hjm ->]. destruct (decide (j < i)%nat).
      * rewrite lookup_app_l by (rewrite length_take, dents_length; fold m; lia). by rewrite lookup_take, decide_True by lia.
      * rewrite lookup_app_r by (rewrite length_take, dents_length; fold m; lia). rewrite length_take, dents_length. fold m.
        destruct (j - Nat.min i (Z.to_nat m))%nat as [|x] eqn:Ex; [lia|]. simpl. rewrite lookup_drop. f_equal. lia.
  - rewrite !lookup_ge_None_2; [done| |rewrite dents_length, Hd'; lia].
    rewrite length_app, length_take, dents_length. simpl. rewrite length_drop, dents_length. fold m. lia.
Qed.

(** [iget] finds a place for inode [n]. *)
Definition iget_room (tbl : Z → inode) (n : Z) : Prop :=
  ∃ ip, in_table ip ∧ (entry_for (tbl ip) ROOTDEV n ∨ ref (tbl ip) = 0).

Section dirs.
  Context {T U : Type} `{ST : Store T} `{UM : UserMem U} (vb : Z → Prop) (owns : T → disk → disk → list hold → Z → Prop).
  Context `{!StoreLaws T vb owns} `{!UserMemLaws U}.
  Local Abbreviation fst := (fst (T := T) (U := U)).
  Implicit Types (s : fst) (d co : disk) (k : Z).

Lemma iget_returns s n :
  iget_room (itable s) n → ∃ ip s' t, iget ROOTDEV n s = Done ip s' t ∧ writes t = [] ∧ store s' = store s.
Proof.
  intros (ip & Hip & Hr).
  destruct (iget_run s ROOTDEV n) as [(ip' & _ & _ & ->)|[(ip' & _ & _ & _ & ->)|(H1 & H2 & _)]]; [by eauto 10..|].
  exfalso. destruct Hr as [Hr|Hr]; [by apply (H1 ip)|by apply (H2 ip)].
Qed.

(** A directory: its size is a multiple of that of an entry. *)
Record dir_ok s co (dp : Z) : Prop := {
  dr_file : file_ok vb s co dp;
  dr_type : type (din (itable s dp)) = T_DIR;
  dr_size : dsize (din (itable s dp)) mod DIRENT_SIZE = 0
}.

Lemma dir_ok_same s s' co dp : dir_ok s co dp → sb s' = sb s → itable s' = itable s → dir_ok s' co dp.
Proof.
  intros [[[[H1 H2] H3 H4 H5] F2 F3 F4 F5] H7 H8] E1 E2. split; rewrite ?E2; try done.
  split; rewrite ?E1, ?E2; try done. split; unfold base; rewrite ?E1, ?E2; done.
Qed.

Lemma read_dirent_spec s d co k dp msg i :
  dir_ok s co dp → owns (store s) d co [] k → 0 ≤ i < dsize (din (itable s dp)) / DIRENT_SIZE →
  runs (read_dirent msg dp (DIRENT_SIZE * i)) s (λ de s', after_read s s' ∧ owns (store s') d co [] k ∧
    dents co (din (itable s dp)) !! Z.to_nat i = Some de).
Proof using All.
  intros [Hf Ht Hs] Ho Hi. unfold read_dirent. set (di := din (itable s dp)) in *.
  pose proof (Z_div_exact_full_2 _ DIRENT_SIZE ltac:(lia) Hs) as Hsz. fold di in Hsz. pose proof (fo_size _ _ _ _ Hf) as Hmax. fold di in Hmax.
  rcall (readi_spec vb owns s d co k dp (Kernel []) (DIRENT_SIZE * i) DIRENT_SIZE); try apply Hf; try done; [lia|].
  fold di. assert (read_count (dsize di) (DIRENT_SIZE * i) DIRENT_SIZE = DIRENT_SIZE) as ->.
  { unfold read_count. rewrite u32_small by lia. if_false. lia. }
  intros [r de] s1 (Ha & Ho1 & [[Hr Hde]|(_ & (va & Hva) & _)]); [|done]. cbn [Datatypes.fst Datatypes.snd] in *.
  change (Z.of_nat (Z.to_nat DIRENT_SIZE)) with DIRENT_SIZE in Hr. subst r de. if_false. apply runs_ret.
  split_and!; [done|done|]. by apply lookup_dents.
Qed.

Lemma dirent_length co di i de : dents co di !! i = Some de → length de = 16%nat.
Proof.
  unfold dents. rewrite list_lookup_fmap. destruct (seqZ _ _ !! i); [|done]. intros [= <-]. apply slice_length.
Qed.

Lemma namecmp_run s name de :
  scannable 14 name → length de = 16%nat →
  ∃ c, namecmp name (de_name de) s = Done c s [] ∧ (c = 0 ↔ field 14 name = field 14 (de_name de)).
Proof.
  intros Hn Hl. destruct (strncmp_total 14 name (de_name de) Hn) as [c Hc].
  { left. unfold de_name. rewrite length_drop. lia. }
  exists c. unfold namecmp. change (Z.to_nat DIRSIZ) with 14%nat. rewrite Hc. split; [done|]. by apply strncmp_zero.
Qed.

(** What [dirlookup] leaves, for the entry [e] it looked for. *)
Definition looked s d co k (e : option (Z * Z)) (r : Z * Z) s' : Prop :=
  match e with
  | Some (n, off) => r.2 = off ∧ ∃ s1 t, after_read s s1 ∧ owns (store s1) d co [] k ∧ iget ROOTDEV n s1 = Done r.1 s' t
  | None => r = (NULL, 0) ∧ after_read s s' ∧ owns (store s') d co [] k
  end.

Lemma looked_after s s1 d co k e r s' : after_read s s1 → looked s1 d co k e r s' → looked s d co k e r s'.
Proof using All.
  intros Ha. unfold looked. destruct e as [[n off]|].
  - intros (H1 & s2 & t & H2 & H3). split; [done|]. exists s2, t. split; [|done]. by eapply (after_read_trans).
  - intros (H1 & H2 & H3). split_and!; [done| |done]. by eapply (after_read_trans).
Qed.

Lemma dirlookup_loop_spec fuel s d co k dp name i :
  dir_ok s co dp → owns (store s) d co [] k → scannable 14 name → let di := din (itable s dp) in
  0 ≤ i ≤ dsize di / DIRENT_SIZE → dsize di / DIRENT_SIZE - i < Z.of_nat fuel →
  let e := find_dent name (drop (Z.to_nat i) (dents co di)) (DIRENT_SIZE * i) in
  (∀ n off, e = Some (n, off) → iget_room (itable s) n) →
  runs (dirlookup_loop fuel dp name (DIRENT_SIZE * i)) s (looked s d co k e).
Proof using All.
  intros Hd Ho Hsc di Hi Hfuel e Hroom. revert s i Hd Ho di Hi Hfuel e Hroom.
  induction fuel as [|fuel IH]; intros s i Hd Ho di Hi Hfuel e Hroom; [lia|]. cbn [dirlookup_loop]. rstep.
  change (id (itable s dp)) with (itable s dp). fold di. pose proof Hd as [Hf Ht Hs].
  pose proof (Z_div_exact_full_2 _ DIRENT_SIZE ltac:(lia) Hs) as Hsz. fold di in Hsz. pose proof (fo_size _ _ _ _ Hf) as Hmax. fold di in Hmax.
  case_if; cycle 1.
  { assert (e = None) as ->.
    { unfold e. rewrite drop_ge; [done|]. rewrite dents_length. lia. }
    apply runs_ret. split_and!; [done| |done]. exists (store s), (umem s). by destruct s. }
  rcall read_dirent_spec; try done; [fold di; lia|]. fold di. intros de s1 (Ha & Ho1 & Hde).
  assert (sb s1 = sb s ∧ itable s1 = itable s) as [Es Et] by (by destruct Ha as (t & u & ->)).
  assert (e = if (de_inum de =? 0) || negb (bool_decide (field 14 name = field 14 (de_name de)))
    then find_dent name (drop (Z.to_nat (i + 1)) (dents co di)) (DIRENT_SIZE * (i + 1)) else Some (de_inum de, DIRENT_SIZE * i)) as He.
  { unfold e. rewrite (drop_S _ _ _ Hde). cbn [find_dent]. replace (S (Z.to_nat i)) with (Z.to_nat (i + 1)) by lia.
    by replace (DIRENT_SIZE * i + DIRENT_SIZE) with (DIRENT_SIZE * (i + 1)) by lia. }
  assert ((de_inum de =? 0) || negb (bool_decide (field 14 name = field 14 (de_name de))) = true →
    runs (dirlookup_loop fuel dp name (u32 (DIRENT_SIZE * i + DIRENT_SIZE))) s1 (looked s d co k e)) as Hnext.
  { intros Hskip. rewrite Hskip in He. rewrite u32_small by lia. replace (DIRENT_SIZE * i + DIRENT_SIZE) with (DIRENT_SIZE * (i + 1)) by lia.
    rewrite He. eapply runs_mono; [apply (IH s1 (i + 1)); rewrite ?Et; fold di; try done; try lia|].
    - by apply (dir_ok_same s).
    - intros n off Hn. apply (Hroom n off). congruence.
    - rewrite Et. fold di. intros r s2 Hl. by eapply looked_after. }
  case_if.
  { by apply Hnext. }
  destruct (namecmp_run s1 name de Hsc (dirent_length _ _ _ _ Hde)) as (c & Hc & Hc0).
  apply runs_bind. eapply runs_done; [exact Hc|done|]. case_if.
  - rewrite (bool_decide_true _ (proj1 Hc0 E1)) in He. simpl in He.
    destruct (iget_returns s1 (de_inum de)) as (ip & s2 & t & Hg & Hw & Hst); [rewrite Et; by apply (Hroom _ _ He)|].
    apply runs_bind. rewrite (ac_dev _ _ _ _ (fo_active _ _ _ _ Hf)). eapply runs_done; [exact Hg|done|]. apply runs_ret. rewrite He.
    split; [done|]. exists s1, t. done.
  - apply Hnext. by rewrite bool_decide_false by tauto.
Qed.

Lemma dirlookup_spec s d co k dp name :
  dir_ok s co dp → owns (store s) d co [] k → scannable 14 name →
  let e := find_dent name (dents co (din (itable s dp))) 0 in
  (∀ n off, e = Some (n, off) → iget_room (itable s) n) →
  runs (dirlookup dp name) s (looked s d co k e).
Proof using All.
  intros Hd Ho Hsc e Hroom. pose proof Hd as [Hf Ht Hs]. unfold dirlookup. rstep. rewrite Ht. if_false.
  pose proof (do_size _ (fo_dinode _ _ _ _ Hf)). pose proof (Z.div_pos (dsize (din (itable s dp))) DIRENT_SIZE).
  apply (dirlookup_loop_spec _ s d co k dp name 0); try done; lia.
Qed.

Lemma dirlink_loop_spec fuel s d co k dp i :
  dir_ok s co dp → owns (store s) d co [] k → let di := din (itable s dp) in
  0 ≤ i ≤ dsize di / DIRENT_SIZE → dsize di / DIRENT_SIZE - i < Z.of_nat fuel →
  runs (dirlink_loop fuel dp (DIRENT_SIZE * i)) s (λ off s', after_read s s' ∧ owns (store s') d co [] k ∧
    off = find_hole (drop (Z.to_nat i) (dents co di)) (DIRENT_SIZE * i)).
Proof using All.
  intros Hd Ho di Hi Hfuel. revert s i Hd Ho di Hi Hfuel.
  induction fuel as [|fuel IH]; intros s i Hd Ho di Hi Hfuel; [lia|]. cbn [dirlink_loop]. rstep.
  change (id (itable s dp)) with (itable s dp). fold di. pose proof Hd as [Hf Ht Hs].
  pose proof (Z_div_exact_full_2 _ DIRENT_SIZE ltac:(lia) Hs) as Hsz. fold di in Hsz. pose proof (fo_size _ _ _ _ Hf) as Hmax. fold di in Hmax.
  case_if; cycle 1.
  { apply runs_ret. split_and!; [exists (store s), (umem s); by destruct s|done|]. rewrite drop_ge; [done|].
    rewrite dents_length. lia. }
  rcall read_dirent_spec; try done; [fold di; lia|]. fold di. intros de s1 (Ha & Ho1 & Hde).
  assert (sb s1 = sb s ∧ itable s1 = itable s) as [Es Et] by (by destruct Ha as (t & u & ->)).
  rewrite (drop_S _ _ _ Hde). cbn [find_hole]. case_if.
  { apply runs_ret. split_and!; done. }
  if_true. replace (DIRENT_SIZE * i + DIRENT_SIZE) with (DIRENT_SIZE * (i + 1)) by lia.
  replace (S (Z.to_nat i)) with (Z.to_nat (i + 1)) by lia.
  eapply runs_mono; [apply (IH s1 (i + 1)); rewrite ?Et; fold di; try done; try lia|].
  - by apply (dir_ok_same s).
  - rewrite Et. fold di. intros r s2 (H1 & H2 & H3). split_and!; [by eapply after_read_trans|done|done].
Qed.

(** The entry that [dirlink] stores. *)
Lemma dirent_entry n nm name :
  0 < n < 2 ^ 16 → strncpy name 14 = Some nm →
  let de := le_bytes 2 n ++ nm in
  length de = 16%nat ∧ Forall is_byte (le_bytes 2 n) ∧ de_inum de = n ∧ field 14 (de_name de) = field 14 name.
Proof.
  intros Hn Hc de. destruct (field_strncpy 14 name nm Hc) as [Hl Hf]. split_and!.
  - unfold de. rewrite length_app, le_bytes_length. lia.
  - apply le_bytes_bytes.
  - unfold de_inum, get16, get_at, de. rewrite drop_0, take_app_length' by (by rewrite le_bytes_length).
    rewrite le_val_le_bytes. apply Z.mod_small. lia.
  - unfold de_name, de. rewrite drop_app_length' by (by rewrite le_bytes_length). done.
Qed.

Lemma strncpy_bytes n t l : strncpy t n = Some l → Forall is_byte t → Forall is_byte l.
Proof.
  intros ->%strncpy_spec Ht. apply Forall_app. split; [|by apply Forall_replicate].
  revert n. induction Ht as [|c t Hc Ht IH]; intros [|n]; simpl; try constructor. case_if; [by constructor|constructor].
Qed.

Lemma rounds_small off : 0 ≤ off → off mod DIRENT_SIZE = 0 → rounds off DIRENT_SIZE = 1.
Proof.
  intros Ho Hm. unfold rounds. rewrite decide_False by lia. pose proof (Z_div_exact_full_2 _ DIRENT_SIZE ltac:(lia) Hm).
  assert ((off + DIRENT_SIZE - 1) / BSIZE = off / BSIZE); [|lia].
  pose proof (Z.div_mod off BSIZE ltac:(lia)). pose proof (Z.mod_pos_bound off BSIZE ltac:(lia)).
  symmetry. apply (Z.div_unique_pos _ _ _ (off mod BSIZE + DIRENT_SIZE - 1)); [|lia].
  assert ((off mod BSIZE) mod DIRENT_SIZE = 0) as Hm2.
  { replace (off mod BSIZE) with (off - BSIZE / DIRENT_SIZE * (off / BSIZE) * DIRENT_SIZE) by (change (BSIZE / DIRENT_SIZE) with 64; lia).
    rewrite Zminus_mod, Z_mod_mult, Z.sub_0_r, Zmod_mod. done. }
  pose proof (Z_div_exact_full_2 _ DIRENT_SIZE ltac:(lia) Hm2). lia.
Qed.

(** The directory after the entry was stored. *)
Lemma entry_found co di co' di' name n nm i :
  0 < n < 2 ^ 16 → strncpy name 14 = Some nm → find_dent name (dents co di) 0 = None →
  dsize di mod DIRENT_SIZE = 0 → 0 ≤ dsize di → (i ≤ length (dents co di))%nat →
  contents co' di' = put_at (contents co di) (DIRENT_SIZE * Z.of_nat i) (le_bytes 2 n ++ nm) →
  dents co' di' = take i (dents co di) ++ (le_bytes 2 n ++ nm) :: drop (S i) (dents co di) ∧
  find_dent name (dents co' di') 0 = Some (n, DIRENT_SIZE * Z.of_nat i).
Proof.
  intros Hn Hnm Hnone Hm H0 Hi Hc. destruct (dirent_entry n nm name Hn Hnm) as (E1 & E2 & E3 & E4).
  set (de := le_bytes 2 n ++ nm) in *. rewrite dents_length in Hi.
  pose proof (Z_div_exact_full_2 _ DIRENT_SIZE ltac:(lia) Hm) as Hds. pose proof (Z.div_pos (dsize di) DIRENT_SIZE).
  assert (dents co' di' = take i (dents co di) ++ de :: drop (S i) (dents co di)) as Hde.
  { apply dents_put; try done; [by rewrite dents_length|]. pose proof (f_equal length Hc) as Hl. unfold contents, put_at in Hl.
    rewrite !length_app, length_take, length_drop, !slice_length, E1 in Hl. lia. }
  split; [done|]. rewrite Hde. rewrite <-(take_drop i (dents co di)) in Hnone. apply find_dent_prefix in Hnone.
  rewrite find_dent_app by done. cbn [find_dent]. rewrite E3, E4, bool_decide_true by done. if_false.
  rewrite length_take, dents_length. do 2 f_equal. lia.
Qed.

Lemma table_ok_same (tbl tbl' : Z → inode) :
  table_ok tbl → (∀ j, ref (tbl' j) = ref (tbl j) ∧ dev (tbl' j) = dev (tbl j) ∧ inum (tbl' j) = inum (tbl j)) → table_ok tbl'.
Proof.
  intros [H1 H2] E. split.
  - intros ip Hip. destruct (E ip) as (-> & _). by apply H1.
  - intros i j d n Hi Hj. unfold entry_for. destruct (E i) as (-> & -> & ->), (E j) as (-> & -> & ->). by apply H2.
Qed.

(** [iget] returns an entry of the table for the inode. *)
Lemma iget_entry s n ip s' t : iget ROOTDEV n s = Done ip s' t → table_ok (itable s) → in_table ip ∧ entry_for (itable s' ip) ROOTDEV n.
Proof.
  intros E Ht. destruct (iget_run s ROOTDEV n) as [(j & H1 & (H2 & H3 & H4) & Ej)|[(j & H1 & _ & _ & Ej)|(_ & _ & Ej)]]; rewrite Ej in E; [..|done];
    injection E as <- <- _; (split; [done|]); cbn [itable set_itable]; rewrite upd_eq; split_and!; cbn; done || lia.
Qed.

(** Looking up a name that the directory has. *)
Lemma dirlookup_finds s d co k dp name n off :
  dir_ok s co dp → owns (store s) d co [] k → scannable 14 name → table_ok (itable s) → iget_room (itable s) n →
  find_dent name (dents co (din (itable s dp))) 0 = Some (n, off) →
  runs (dirlookup dp name) s (λ e s', e.2 = off ∧ in_table e.1 ∧ entry_for (itable s' e.1) ROOTDEV n).
Proof using All.
  intros Hd Ho Hsc Ht Hroom He. pose proof (dirlookup_spec s d co k dp name Hd Ho Hsc) as Hlk. cbv zeta in Hlk. rewrite He in Hlk.
  eapply runs_mono; [apply Hlk; by intros ? ? [= <- <-]|]. intros r s' (-> & s1 & t & (t1 & u1 & ->) & _ & E). split; [done|].
  by apply (iget_entry _ _ _ _ _ E).
Qed.

(** C13: [dirlink] of a name that the directory does not have stores an entry
    with the name and the inode number in the first free slot, or at the end
    when no slot is free, and leaves the other entries; [dirlookup] of the
    name then returns an entry of the inode table for that inode, and the
    offset of the slot, if the table has room.  It fails only when the disk
    is full or the directory has the maximal size.  All other files and the
    consistency of the file system are kept. *)
Theorem dirlink_adds s d co k D dp name n :
  fs_ok (sb s) co D → current vb s D dp → dir_ok s co dp → owns (store s) d co [] k → 7 ≤ k →
  scannable 14 name → Forall is_byte name → 0 < n < 2 ^ 16 →
  let m := inum (itable s dp) in
  find_dent name (dents co (D m)) 0 = None →
  runs (dirlink dp name n) s (λ r s',
    (r = -1 ∧ (MAXFILE * BSIZE < dsize (D m) + DIRENT_SIZE ∨ ∃ co', owns (store s') d co' [] (k - 7) ∧ disk_full (sb s) co')) ∨
    (r = 0 ∧ ∃ co' di' de i, owns (store s') d co' [] (k - 7) ∧ fs_ok (sb s) co' (upd D m di') ∧ current vb s' (upd D m di') dp ∧
      (i ≤ length (dents co (D m)))%nat ∧ (∀ old, dents co (D m) !! i = Some old → de_inum old = 0) ∧
      Forall (λ old, de_inum old ≠ 0) (take i (dents co (D m))) ∧
      de_inum de = n ∧ field 14 (de_name de) = field 14 name ∧
      dents co' di' = take i (dents co (D m)) ++ de :: drop (S i) (dents co (D m)) ∧
      find_dent name (dents co' di') 0 = Some (n, DIRENT_SIZE * Z.of_nat i) ∧
      (table_ok (itable s) → iget_room (itable s') n → runs (dirlookup dp name) s' (λ e s2,
        e.2 = DIRENT_SIZE * Z.of_nat i ∧ in_table e.1 ∧ entry_for (itable s2 e.1) ROOTDEV n)) ∧
      (∀ n', 0 ≤ n' < ninodes (sb s) → n' ≠ m → type (D n') ≠ 0 → contents co' (D n') = contents co (D n')))).
Proof using All.
  intros Hok Hcu Hd Ho Hk Hsc Hbytes Hn m Hnone. pose proof Hcu as [C1 C2 C3 C4 C5]. fold m in C3, C4. pose proof Hd as [Hf Ht Hs].
  unfold dirlink. pose proof (dirlookup_spec s d co k dp name Hd Ho Hsc) as Hlk. cbv zeta in Hlk. rewrite C4, Hnone in Hlk.
  rcall Hlk; [done|]. intros r1 s1 (-> & (t1 & u1 & ->) & Ho1). if_false. rstep.
  rewrite C4 in Ht, Hs. set (s1 := set_umem u1 (set_store t1 s)) in *.
  assert (dir_ok s1 co dp) as Hd1 by (by apply (dir_ok_same s)).
  pose proof (do_size _ (fo_dinode _ _ _ _ Hf)) as Hsz. rewrite C4 in Hsz. pose proof (Z.div_pos (dsize (D m)) DIRENT_SIZE).
  change (itable s1 dp) with (itable s dp). rewrite C4.
  pose proof (dirlink_loop_spec (S (Z.to_nat (dsize (D m) / DIRENT_SIZE + 1))) s1 d co k dp 0 Hd1 Ho1) as Hlp. cbv zeta in Hlp.
  change (itable s1 dp) with (itable s dp) in Hlp. rewrite C4 in Hlp. rewrite drop_0 in Hlp.
  rcall Hlp; [lia|lia|]. intros off s2 ((t2 & u2 & ->) & Ho2 & Hoff).
  destruct (find_hole_spec (dents co (D m)) (DIRENT_SIZE * 0)) as (i & Hi & Hhole & Hfree & Hfirst). rewrite Hhole in Hoff.
  change (Z.to_nat DIRSIZ) with 14%nat. destruct (strncpy_total 14 name Hsc) as [nm Hnm]. rewrite Hnm.
  destruct (dirent_entry n nm name Hn Hnm) as (E1 & E2 & E3 & E4). set (de := le_bytes 2 n ++ nm) in *.
  assert (Forall is_byte de) as Hdeb by (apply Forall_app; split; [done|by eapply strncpy_bytes]).
  replace DIRENT_SIZE with (Z.of_nat (length de)) at 1 by (rewrite E1; done).
  rewrite dents_length in Hi. pose proof (Z_div_exact_full_2 _ DIRENT_SIZE ltac:(lia) Hs) as Hds. pose proof (fo_size _ _ _ _ Hf) as Hmax. rewrite C4 in Hmax.
  assert (rounds off (Z.of_nat (length de)) = 1) as Hrd.
  { rewrite E1. apply rounds_small; [lia|]. rewrite Hoff, Z.mul_0_r, Z.add_0_l, Z.mul_comm. apply Z.mod_mul. lia. }
  rcall (writei_ok vb owns (set_umem u2 (set_store t2 s1)) d co k D dp (Kernel de) de off); try done; try (rewrite ?E1; lia).
  { apply gives_kernel. }
  { rewrite Hrd. lia. }
  rewrite Hrd, E1. change (6 * 1 + 1) with 7. intros r s3 [(Hre & -> & ->)|(Hre & Hr & Hw)].
  { if_true. apply runs_ret. left. split; [done|]. left. unfold write_refused in Hre.
    change (itable (set_umem u2 (set_store t2 s1)) dp) with (itable s dp) in Hre. rewrite C4 in Hre. lia. }
  destruct Hw as (co' & di' & W1 & W2 & W3 & W4 & W5 & W6 & W7 & W8 & W9 & W10 & W11).
  change (itable (set_umem u2 (set_store t2 s1)) dp) with (itable s dp) in *. fold m in W2, W3, W4, W5, W6. cbn [sb set_umem set_store s1] in *.
  destruct (negb (r =? DIRENT_SIZE)) eqn:Er; bool_prop; apply runs_ret.
  { left. split; [done|]. right. exists co'. split; [done|]. apply W7. lia. }
  right. split; [done|]. subst r. exists co', di', de, i. rewrite Z.mul_0_r, Z.add_0_l in Hoff.
  rewrite take_ge in W4 by (rewrite E1; done). rewrite dents_length.
  destruct (entry_found co (D m) co' di' name n nm i) as [F1 F2]; try done; try lia.
  { by rewrite dents_length. }
  { by rewrite <-Hoff. }
  split_and!; try done; [|intros n' Hn' Hne; by apply W6].
  intros Htb Hroom. fold m in W8. assert (din (itable s3 dp) = di') as Hdi by (by rewrite W10). rewrite <-Hdi in F2.
  apply (dirlookup_finds s3 d co' (k - 7) dp name n); try done.
  - split.
    + eapply (current_file vb s3 co' (upd D m di')); [by rewrite W9|done].
    + rewrite Hdi, W8. done.
    + rewrite Hdi, W8. cbn [dsize set_dsize]. apply (Z.mod_divide _ DIRENT_SIZE); [done|].
      destruct (Z.max_spec (dsize (D m)) (off + DIRENT_SIZE)) as [[_ ->]|[_ ->]]; [exists (Z.of_nat i + 1); lia|exists (dsize (D m) / DIRENT_SIZE); lia].
  - apply (table_ok_same (itable s)); [done|]. intros j. destruct (decide (j = dp)) as [->|Hj]; [by rewrite W10|by rewrite W11].
Qed.
End dirs.
