(* ===== verification/FsPath.v ===== *)
(** * Path names

    [namei] and [nameiparent] on a file system at rest: what [ilock],
    [iunlock] and [iput] do to the table of inodes, and that the loop of
    [namex] walks the directories that the path names, leaves a reference to
    the inode it returns, and gives every other one back. *)

From S2P Require Import Prelude Riscv Memory Locks Disk Tx Fs FsAlloc FsMap FsInode FsFile FsWrite FsInv FsDir.
Import Sleeplock.

(** ** The tree of directories *)

Section tree.
  Context (co : disk) (D : Z → dinode).

(** The inode that the directory [n] names [c]. *)
Definition child (n : Z) (c : list Z) : option Z :=
  if decide (type (D n) = T_DIR) then (λ e : Z * Z, e.1) <$> find_dent c (dents co (D n)) 0 else None.

Fixpoint resolve (n : Z) (cs : list (list Z)) : option Z :=
  match cs with
  | [] => Some n
  | c :: cs => m ← child n c; resolve m cs
  end.

(** The directory of the last component of a path. *)
Fixpoint resolve_parent (n : Z) (cs : list (list Z)) : option Z :=
  match cs with
  | [] => None
  | [_] => if decide (type (D n) = T_DIR) then Some n else None
  | c :: cs => m ← child n c; resolve_parent m cs
  end.

(** Directories consist of entries, and an entry in use names an inode that
    is in use and has links. *)
Definition dirs_ok (sb : superblock) : Prop := ∀ n, 0 ≤ n < ninodes sb → type (D n) = T_DIR →
  dsize (D n) mod DIRENT_SIZE = 0 ∧
  ∀ de, de ∈ dents co (D n) → de_inum de ≠ 0 → 0 ≤ de_inum de < ninodes sb ∧ type (D (de_inum de)) ≠ 0 ∧ nlink (D (de_inum de)) ≠ 0.
End tree.

Lemma find_dent_in name es off n o : find_dent name es off = Some (n, o) → ∃ de, de ∈ es ∧ de_inum de = n ∧ n ≠ 0.
Proof.
  revert off. induction es as [|x es IH]; intros off; [done|]. cbn [find_dent]. destruct (de_inum x =? 0) eqn:E; cbn [orb].
  { intros H. destruct (IH _ H) as (de & Hde & H1). exists de. split; [by right|done]. }
  case_bool_decide; cbn [negb].
  - intros [= <- _]. exists x. split; [left|]. split; [done|lia].
  - intros H1. destruct (IH _ H1) as (de & Hde & H2). exists de. split; [by right|done].
Qed.

Lemma find_dent_field name name' es off : field 14 name = field 14 name' → find_dent name es off = find_dent name' es off.
Proof. intros H. revert off. induction es as [|x es IH]; intros off; [done|]. cbn [find_dent]. by rewrite H, IH. Qed.

(** ** The table of inodes *)

(** How the references of [tbl'] differ from those of [tbl]; the entries in
    use stay where they are. *)
Record takes (tbl tbl' : Z → inode) (f : Z → Z) : Prop := {
  tk_ref j : in_table j → ref (tbl' j) = ref (tbl j) + f j;
  tk_same j : in_table j → 0 < ref (tbl j) → dev (tbl' j) = dev (tbl j) ∧ inum (tbl' j) = inum (tbl j)
}.

Definition one (ip j : Z) : Z := if decide (j = ip) then 1 else 0.
Definition none (j : Z) : Z := 0.

Lemma one_nonneg ip j : 0 ≤ one ip j.
Proof. unfold one. case_decide; lia. Qed.

Lemma takes_trans t0 t1 t2 f g h :
  takes t0 t1 f → (∀ j, 0 ≤ f j) → takes t1 t2 g → (∀ j, h j = f j + g j) → takes t0 t2 h.
Proof.
  intros [A1 A2] Hf [B1 B2] Hh. split.
  - intros j Hj. rewrite B1, A1, Hh by done. lia.
  - intros j Hj Hr. destruct (A2 j Hj Hr) as [<- <-]. apply B2; [done|]. rewrite A1 by done. specialize (Hf j). lia.
Qed.

Section path.
  Context {T U : Type} `{ST : Store T} `{UM : UserMem U} (vb : Z → Prop) (owns : T → disk → disk → list hold → Z → Prop).
  Context `{!StoreLaws T vb owns} `{!UserMemLaws U}.
  Local Abbreviation fst := (fst (T := T) (U := U)).
  Implicit Types (s : fst) (d co : disk) (k : Z) (D : Z → dinode).

(** The file system at rest, but for the inode [l] that this process holds:
    the inodes on the disk are the current ones, and the entries in use hold
    them. *)
Record resting s co (D : Z → dinode) (l : option Z) : Prop := {
  rs_base : base vb s;
  rs_fs : fs_ok (sb s) co D;
  rs_dirs : dirs_ok co D (sb s);
  rs_disk n : 0 ≤ n < ninodes (sb s) → type (D n) ≠ 0 → disk_inode (sb s) co n = D n;
  rs_table : table_ok (itable s);
  rs_entry ip : in_table ip → 0 < ref (itable s ip) →
    dev (itable s ip) = ROOTDEV ∧ 0 ≤ inum (itable s ip) < ninodes (sb s) ∧ type (D (inum (itable s ip))) ≠ 0 ∧
    (valid (itable s ip) ≠ 0 → din (itable s ip) = D (inum (itable s ip)));
  rs_lock ip : in_table ip → lock (itable s ip) = if decide (l = Some ip) then Sleeplock 1 (me s) else Sleeplock 0 0
}.

(** Only the entry [ip] of the table changed, to [i]. *)
Record entry_set s s' (ip : Z) (i : inode) : Prop := {
  en_sb : sb s' = sb s;
  en_me : me s' = me s;
  en_cwd : cwd s' = cwd s;
  en_ip : itable s' ip = i;
  en_other j : j ≠ ip → itable s' j = itable s j
}.

Lemma entry_set_same s s' ip i : entry_set s s' ip i → ∀ t u, entry_set s (set_umem u (set_store t s')) ip i.
Proof. intros [E1 E2 E3 E4 E5] t u. by split. Qed.

Lemma entry_set_takes s s' ip i δ :
  entry_set s s' ip i → ref i = ref (itable s ip) + δ → (0 < ref (itable s ip) → dev i = dev (itable s ip) ∧ inum i = inum (itable s ip)) →
  takes (itable s) (itable s') (λ j, if decide (j = ip) then δ else 0).
Proof.
  intros [_ _ _ E4 E5] Hr Hs. split; intros j Hj; destruct (decide (j = ip)) as [->|Hne]; rewrite ?E4, ?E5 by done; try done. lia.
Qed.

(** A new entry. *)
Lemma resting_set s s' co D l l' ip i :
  resting s co D l → in_table ip → entry_set s s' ip i → 0 ≤ ref i →
  (0 < ref i → dev i = ROOTDEV ∧ 0 ≤ inum i < ninodes (sb s) ∧ type (D (inum i)) ≠ 0 ∧ (valid i ≠ 0 → din i = D (inum i))) →
  (0 < ref i → ∀ j, in_table j → j ≠ ip → ¬ entry_for (itable s j) (dev i) (inum i)) →
  lock i = (if decide (l' = Some ip) then Sleeplock 1 (me s) else Sleeplock 0 0) → (∀ j, j ≠ ip → l' = Some j ↔ l = Some j) →
  resting s' co D l'.
Proof.
  intros [[R1 R1'] R2 R3 R4 [R5 R5'] R6 R7] Hip [E1 E2 E3 E4 E5] Hr Hi Hu Hl Hl'.
  split; unfold base; rewrite ?E1, ?E2; try done; [split| |].
  - intros j Hj. destruct (decide (j = ip)) as [->|Hne]; [by rewrite E4|rewrite E5 by done; by apply R5].
  - intros a b dv n Ha Hb. destruct (decide (a = ip)) as [->|Ha'], (decide (b = ip)) as [->|Hb']; rewrite ?E4, ?E5 by done; try done.
    + intros (K1 & <- & <-) K2. exfalso. by apply (Hu K1 b).
    + intros K2 (K1 & <- & <-). exfalso. by apply (Hu K1 a).
    + by apply R5'.
  - intros j Hj. destruct (decide (j = ip)) as [->|Hne]; [by rewrite E4|rewrite E5 by done; by apply R6].
  - intros j Hj. destruct (decide (j = ip)) as [->|Hne]; [by rewrite E4|]. rewrite E5, R7 by done.
    specialize (Hl' j Hne). by repeat case_decide; try tauto.
Qed.

(** An entry in use that stays the entry of its inode. *)
Lemma resting_entry s s' co D l l' ip i :
  resting s co D l → in_table ip → entry_set s s' ip i → 0 < ref (itable s ip) → 0 ≤ ref i →
  dev i = dev (itable s ip) → inum i = inum (itable s ip) → (valid i ≠ 0 → din i = D (inum i)) →
  lock i = (if decide (l' = Some ip) then Sleeplock 1 (me s) else Sleeplock 0 0) → (∀ j, j ≠ ip → l' = Some j ↔ l = Some j) →
  resting s' co D l'.
Proof.
  intros HR Hip HE Hr Hr' Hd Hn Hv Hl Hl'. destruct (rs_entry _ _ _ _ HR ip Hip Hr) as (K1 & K2 & K3 & K4).
  eapply resting_set; try done.
  - intros _. rewrite Hd, Hn. split_and!; [done|lia|lia|done|]. by rewrite <-Hn.
  - intros _ j Hj Hne He. apply Hne. apply (tb_unique _ (rs_table _ _ _ _ HR) j ip (dev i) (inum i)); [done|done|done|]. by rewrite Hd, Hn.
Qed.

Lemma resting_same s s' co D l : resting s co D l → sb s' = sb s → me s' = me s → itable s' = itable s → resting s' co D l.
Proof. intros [[R1 R1'] R2 R3 R4 R5 R6 R7] E1 E2 E3. split; unfold base; rewrite ?E1, ?E2, ?E3; done. Qed.

(** ** [ilock], [iunlock], [iput], [iget] *)

Lemma table_not_null ip : in_table ip → (ip =? NULL) = false.
Proof. unfold in_table, NULL. lia. Qed.

Lemma inode_acquire s ip :
  lock (itable s ip) = Sleeplock 0 0 → ∃ t, writes t = [] ∧
  zoom (ilock_of ip) (acquiresleep (ilock_id ip) (me s)) s
  = Done tt (set_itable (upd (itable s) ip (set_lock (Sleeplock 1 (me s)) (itable s ip))) s) t.
Proof. intros Hl. unfold zoom. cbn [view ilock_of]. rewrite Hl. eexists. split; [|reflexivity]. reflexivity. Qed.

Lemma inode_release s ip :
  ∃ t, writes t = [] ∧ zoom (ilock_of ip) (releasesleep (ilock_id ip)) s
  = Done tt (set_itable (upd (itable s) ip (set_lock (Sleeplock 0 0) (itable s ip))) s) t.
Proof. eexists. split; [|reflexivity]. reflexivity. Qed.

Lemma inode_holding s ip p :
  lock (itable s ip) = Sleeplock 1 p → ∃ t, writes t = [] ∧
  zoom (ilock_of ip) (holdingsleep (ilock_id ip) p) s
  = Done true (set_itable (upd (itable s) ip (set_lock (Sleeplock 1 p) (itable s ip))) s) t.
Proof.
  intros Hl. unfold zoom. cbn [view ilock_of]. rewrite Hl. unfold holdingsleep, mbind, M_bind. cbn. rewrite Z.eqb_refl.
  eexists. split; [|reflexivity]. reflexivity.
Qed.

(** [ilock] reads the inode when the entry does not hold it. *)
Lemma ilock_spec s d co k D ip :
  resting s co D None → owns (store s) d co [] k → in_table ip → 0 < ref (itable s ip) →
  runs (ilock ip) s (λ _ s', owns (store s') d co [] k ∧ resting s' co D (Some ip) ∧ takes (itable s) (itable s') none ∧
    me s' = me s ∧ cwd s' = cwd s ∧ inum (itable s' ip) = inum (itable s ip) ∧ din (itable s' ip) = D (inum (itable s ip))).
Proof using All.
  intros HR Ho Hip Hr. destruct (rs_entry _ _ _ _ HR ip Hip Hr) as (Hdev & Hn & Ht & Hv).
  assert (∀ s' v, v ≠ 0 → entry_set s s' ip (Inode (dev (itable s ip)) (inum (itable s ip)) (ref (itable s ip)) (Sleeplock 1 (me s)) v (D (inum (itable s ip)))) →
    resting s' co D (Some ip) ∧ takes (itable s) (itable s') none ∧
    me s' = me s ∧ cwd s' = cwd s ∧ inum (itable s' ip) = inum (itable s ip) ∧ din (itable s' ip) = D (inum (itable s ip))) as Hfin.
  { intros s' v Hv' HE. split_and!; [| |apply HE|apply HE|by rewrite (en_ip _ _ _ _ HE)..].
    - eapply resting_entry; try done; [cbn; lia|cbn; by rewrite decide_True|]. intros j Hj. split; congruence.
    - pose proof (entry_set_takes _ _ _ _ 0 HE) as [K1 K2]; [cbn; lia|done|]. split; [|done].
      intros j Hj. rewrite K1 by done. unfold none. by case_decide. }
  unfold ilock. rstep. rewrite (table_not_null ip Hip). if_false. rstep.
  destruct (inode_acquire s ip) as (t & Ht0 & Et); [by rewrite (rs_lock _ _ _ _ HR)|].
  apply runs_bind. eapply runs_done; [exact Et|done|]. rstep. cbn [itable set_itable]. rewrite upd_eq. cbn [valid set_lock].
  case_if; cycle 1.
  { apply runs_ret. split; [done|]. apply (Hfin _ (valid (itable s ip))); [done|]. split; try done; cbn [itable set_itable].
    - rewrite upd_eq. unfold set_lock. by rewrite Hv.
    - intros j Hj. by apply upd_ne. }
  rstep. rstep. cbn [itable set_itable sb]. rewrite upd_eq. cbn [id dev inum set_lock]. rewrite Hdev.
  pose proof (rs_base _ _ _ _ HR) as [Hly Hvb].
  rcall (st_bread vb owns); [exact Ho|by apply Hvb, iblock_fs, IBLOCK_range|apply not_elem_of_nil|simpl; unfold MAXHELD; lia|].
  intros h s1 (t1 & -> & Ho1). apply runs_bind. eapply runs_done; [eapply (st_rdata vb owns); [exact Ho1|by left]|done|].
  rstep. rcall (st_brelse vb owns); [exact Ho1|]. intros _ s2 (t2 & -> & Ho2). rstep. rstep.
  cbn [itable set_itable set_store]. rewrite !upd_eq. cbn [set_valid set_din set_lock din dev inum ref lock valid type].
  change (get_dinode (co (IBLOCK (inum (itable s ip)) (sb s))) (ioff (inum (itable s ip)))) with (disk_inode (sb s) co (inum (itable s ip))).
  rewrite (rs_disk _ _ _ _ HR) by done. if_false. apply runs_ret. split; [done|]. apply (Hfin _ 1); [done|].
  split; try done; cbn [itable set_itable set_store].
  - by rewrite !upd_eq.
  - intros j Hj. by rewrite !upd_ne.
Qed.

Lemma iunlock_spec s co D ip :
  resting s co D (Some ip) → in_table ip → 0 < ref (itable s ip) →
  runs (iunlock ip) s (λ _ s', store s' = store s ∧ resting s' co D None ∧ takes (itable s) (itable s') none ∧
    me s' = me s ∧ cwd s' = cwd s ∧ inum (itable s' ip) = inum (itable s ip)).
Proof using All.
  intros HR Hip Hr. destruct (rs_entry _ _ _ _ HR ip Hip Hr) as (Hdev & Hn & Ht & Hv).
  unfold iunlock. rstep. rewrite (table_not_null ip Hip).
  destruct (inode_holding s ip (me s)) as (t & Ht0 & Et); [by rewrite (rs_lock _ _ _ _ HR), decide_True|].
  apply runs_bind. eapply runs_done; [exact Et|done|]. rstep. cbn [itable set_itable orb negb]. rewrite upd_eq. cbn [ref set_lock]. if_false.
  match goal with |- runs _ ?m _ => destruct (inode_release m ip) as (t' & Ht' & Et') end.
  eapply runs_done; [exact Et'|done|].
  match goal with |- _ ∧ resting ?m _ _ _ ∧ _ => assert (entry_set s m ip (set_lock (Sleeplock 0 0) (itable s ip))) as HE end.
  { split; try done; cbn [itable set_itable]; [by rewrite !upd_eq|]. intros j Hj. by rewrite !upd_ne. }
  split_and!; [done| | |done|done|by rewrite (en_ip _ _ _ _ HE)].
  - eapply resting_entry; try done; [cbn; lia|]. intros j Hj. split; congruence.
  - destruct (entry_set_takes _ _ _ _ 0 HE) as [K1 K2]; [cbn; lia|done|]. split; [|done].
    intros j Hj. rewrite K1 by done. unfold none. by case_decide.
Qed.

(** [iput] of an inode with links, or with other references, drops one. *)
Lemma iput_spec s co D ip :
  resting s co D None → in_table ip → 0 < ref (itable s ip) → nlink (D (inum (itable s ip))) ≠ 0 ∨ 2 ≤ ref (itable s ip) →
  runs (iput ip) s (λ _ s', store s' = store s ∧ resting s' co D None ∧ takes (itable s) (itable s') (λ j, - one ip j) ∧
    me s' = me s ∧ cwd s' = cwd s).
Proof using All.
  intros HR Hip Hr Hlink. destruct (rs_entry _ _ _ _ HR ip Hip Hr) as (Hdev & Hn & Ht & Hv).
  unfold iput. rstep. rstep. change (id (itable s ip)) with (itable s ip).
  assert ((ref (itable s ip) =? 1) && truthy (valid (itable s ip)) && (nlink (din (itable s ip)) =? 0) = false) as ->.
  { destruct (decide (valid (itable s ip) = 0)) as [->|Hne]; [by rewrite andb_false_r|]. rewrite Hv by done. lia. }
  rstep. rstep. eapply runs_done; [reflexivity|done|].
  match goal with |- _ ∧ resting ?m _ _ _ ∧ _ => assert (entry_set s m ip (set_ref (ref (itable s ip) - 1) (itable s ip))) as HE end.
  { split; try done; cbn [itable set_itable]; [by rewrite upd_eq|]. intros j Hj. by rewrite !upd_ne. }
  split_and!; [done| | |done|done].
  - eapply resting_entry; try done; [cbn; lia|]. cbn. by rewrite (rs_lock _ _ _ _ HR).
  - destruct (entry_set_takes _ _ _ _ (-1) HE) as [K1 K2]; [cbn; lia|done|]. split; [|done].
    intros j Hj. rewrite K1 by done. unfold one. case_decide; lia.
Qed.

Lemma idup_spec s co D ip :
  resting s co D None → in_table ip → 0 < ref (itable s ip) →
  runs (idup ip) s (λ r s', r = ip ∧ store s' = store s ∧ resting s' co D None ∧ takes (itable s) (itable s') (one ip) ∧
    me s' = me s ∧ cwd s' = cwd s).
Proof using All.
  intros HR Hip Hr. destruct (rs_entry _ _ _ _ HR ip Hip Hr) as (Hdev & Hn & Ht & Hv).
  unfold idup. rstep. rstep. rstep. apply runs_ret.
  match goal with |- _ ∧ _ ∧ resting ?m _ _ _ ∧ _ => assert (entry_set s m ip (set_ref (ref (itable s ip) + 1) (itable s ip))) as HE end.
  { split; try done; cbn [itable set_itable]; [by rewrite upd_eq|]. intros j Hj. by rewrite !upd_ne. }
  split_and!; [done|done| | |done|done].
  - eapply resting_entry; try done; [cbn; lia|]. cbn. by rewrite (rs_lock _ _ _ _ HR).
  - by destruct (entry_set_takes _ _ _ _ 1 HE).
Qed.

Lemma iget_spec s co D l n :
  resting s co D l → 0 ≤ n < ninodes (sb s) → type (D n) ≠ 0 → iget_room (itable s) n →
  (∀ ip, l = Some ip → 0 < ref (itable s ip)) →
  ∃ ip s' t, iget ROOTDEV n s = Done ip s' t ∧ writes t = [] ∧ store s' = store s ∧ in_table ip ∧ resting s' co D l ∧
    takes (itable s) (itable s') (one ip) ∧ me s' = me s ∧ cwd s' = cwd s ∧ inum (itable s' ip) = n.
Proof using All.
  intros HR Hn Ht Hroom Hl. destruct (iget_run s ROOTDEV n) as [(ip & Hip & (Hr & Hd & Hi) & ->)|[(ip & Hip & Hno & H0 & ->)|(Hno & Hfull & _)]].
  - eexists _, _, _. split; [reflexivity|]. match goal with |- context [resting ?m _ _ _] => assert (entry_set s m ip (set_ref (ref (itable s ip) + 1) (itable s ip))) as HE end.
    { split; try done; cbn [itable set_itable]; [by rewrite upd_eq|]. intros j Hj. by rewrite !upd_ne. }
    destruct (rs_entry _ _ _ _ HR ip Hip Hr) as (_ & _ & _ & Hv). split_and!; try done.
    + eapply resting_entry; try done; [cbn; lia|]. cbn. by rewrite (rs_lock _ _ _ _ HR).
    + by destruct (entry_set_takes _ _ _ _ 1 HE).
    + by rewrite (en_ip _ _ _ _ HE).
  - eexists _, _, _. split; [reflexivity|].
    match goal with |- context [resting ?m _ _ _] => assert (entry_set s m ip (Inode ROOTDEV n 1 (lock (itable s ip)) 0 (din (itable s ip)))) as HE end.
    { split; try done; cbn [itable set_itable]; [by rewrite upd_eq|]. intros j Hj. by rewrite !upd_ne. }
    split_and!; try done.
    + eapply resting_set; try done; [|cbn; by rewrite (rs_lock _ _ _ _ HR)]. intros _ j Hj _. by apply Hno.
    + apply (entry_set_takes _ _ _ _ 1 HE); [cbn; lia|intros; lia].
    + by rewrite (en_ip _ _ _ _ HE).
  - exfalso. destruct Hroom as (ip & Hip & [He|He]); [by apply (Hno ip)|by apply (Hfull ip)].
Qed.

Lemma iunlockput_spec s d co k D ip :
  resting s co D (Some ip) → owns (store s) d co [] k → in_table ip → 0 < ref (itable s ip) →
  nlink (D (inum (itable s ip))) ≠ 0 ∨ 2 ≤ ref (itable s ip) →
  runs (iunlockput ip) s (λ _ s', owns (store s') d co [] k ∧ resting s' co D None ∧ takes (itable s) (itable s') (λ j, - one ip j) ∧
    me s' = me s ∧ cwd s' = cwd s).
Proof using All.
  intros HR Ho Hip Hr Hlink. unfold iunlockput. rcall iunlock_spec; [exact HR|done|done|].
  intros _ s1 (E1 & HR1 & T1 & M1 & C1 & I1). pose proof (tk_ref _ _ _ T1 ip Hip) as Hr1. unfold none in Hr1. rewrite Z.add_0_r in Hr1.
  eapply runs_mono; [apply (iput_spec s1 co D ip); rewrite ?Hr1, ?I1; done|].
  intros _ s2 (E2 & HR2 & T2 & M2 & C2). rewrite E2, E1, M2, C2. split_and!; try done.
  eapply takes_trans; [exact T1|done|exact T2|done].
Qed.

(** [dirlookup] in a locked directory. *)
Lemma lookup_spec s d co k D ip n name :
  resting s co D (Some ip) → owns (store s) d co [] k → in_table ip → 0 < ref (itable s ip) →
  inum (itable s ip) = n → din (itable s ip) = D n → type (D n) = T_DIR → scannable 14 name →
  (∃ j, in_table j ∧ ref (itable s j) = 0) →
  runs (dirlookup ip name) s (λ r s', owns (store s') d co [] k ∧ resting s' co D (Some ip) ∧ me s' = me s ∧ cwd s' = cwd s ∧
    match find_dent name (dents co (D n)) 0 with
    | None => r.1 = NULL ∧ takes (itable s) (itable s') none
    | Some (m, _) => in_table r.1 ∧ inum (itable s' r.1) = m ∧ takes (itable s) (itable s') (one r.1) ∧ nlink (D m) ≠ 0
    end).
Proof using All.
  intros HR Ho Hip Hr Hn Hdin Ht Hsc Hfree. destruct (rs_entry _ _ _ _ HR ip Hip Hr) as (Hdev & Hrange & Ht' & _). rewrite Hn in *.
  destruct (rs_dirs _ _ _ _ HR n Hrange Ht) as [Hsz Hents].
  assert (dir_ok vb s co ip) as Hdir.
  { split; rewrite ?Hdin; try done. apply (current_file vb s co D ip); [apply HR|]. split; rewrite ?Hn, ?Hdin; try done. apply HR. }
  eapply runs_mono; [apply (dirlookup_spec vb owns s d co k ip name Hdir Ho Hsc)|].
  { intros m off _. destruct Hfree as (j & Hj & Hj0). exists j. split; [done|by right]. }
  rewrite Hdin. intros [r off] s' Hl. destruct (find_dent name (dents co (D n)) 0) as [[m o]|] eqn:Ef; cbn [looked] in Hl.
  - destruct Hl as (_ & s1 & t & (st & u & ->) & Ho1 & Eg). cbn [Datatypes.fst] in *.
    destruct (find_dent_in _ _ _ _ _ Ef) as (de & Hde & <- & H0). destruct (Hents de Hde H0) as (K1 & K2 & K3).
    destruct (iget_spec (set_umem u (set_store st s)) co D (Some ip) (de_inum de))
      as (ip' & s2 & t' & Eg' & _ & Est & Hip' & HR2 & T2 & M2 & C2 & I2); try done.
    { by apply (resting_same s). }
    { destruct Hfree as (j & Hj & Hj0). exists j. split; [done|by right]. }
    { by intros ? [= <-]. }
    rewrite Eg in Eg'. injection Eg' as <- <- <-. rewrite Est. done.
  - destruct Hl as ([= -> _] & (st & u & ->) & Ho1). split_and!; try done; [by apply (resting_same s)|].
    split; [|done]. intros j Hj. unfold none. cbn. lia.
Qed.

(** ** [namex] *)

(** Room in the table for the inodes that [namex] holds at once. *)
Definition two_free (tbl : Z → inode) : Prop :=
  ∃ a b, in_table a ∧ in_table b ∧ a ≠ b ∧ ref (tbl a) = 0 ∧ ref (tbl b) = 0.

Lemma one_free tbl tbl' ip : two_free tbl → takes tbl tbl' (one ip) → ∃ j, in_table j ∧ ref (tbl' j) = 0.
Proof using .
  intros (a & b & Ha & Hb & Hab & Ra & Rb) [K _]. destruct (decide (a = ip)) as [->|Hne].
  - exists b. split; [done|]. rewrite K by done. unfold one. rewrite decide_False by done. lia.
  - exists a. split; [done|]. rewrite K by done. unfold one. rewrite decide_False by done. lia.
Qed.

(** What [namex] leaves: a reference to the inode it found, or none. *)
Definition found s0 d co k D (m : option Z) (nm : list Z → Prop) (r : Z * list Z) s' : Prop :=
  owns (store s') d co [] k ∧ resting s' co D None ∧ me s' = me s0 ∧ cwd s' = cwd s0 ∧
  match m with
  | Some m => in_table r.1 ∧ inum (itable s' r.1) = m ∧ takes (itable s0) (itable s') (one r.1) ∧ nm r.2
  | None => r.1 = NULL ∧ takes (itable s0) (itable s') none
  end.

(** A reference to the inode [n] beside those of [s0]. *)
Record at_inode s0 d co k D s (ip n : Z) : Prop := {
  ai_owns : owns (store s) d co [] k;
  ai_rest : resting s co D None;
  ai_me : me s = me s0 ∧ cwd s = cwd s0;
  ai_ip : in_table ip;
  ai_inum : inum (itable s ip) = n;
  ai_takes : takes (itable s0) (itable s) (one ip);
  ai_link : nlink (D n) ≠ 0 ∨ 0 < ref (itable s0 ip)
}.

Section walk.
  Context (s0 : fst) (d co : disk) (k : Z) (D : Z → dinode) (Htbl : table_ok (itable s0)) (Hfree : two_free (itable s0)).

Lemma at_ref s ip n : at_inode s0 d co k D s ip n → 0 < ref (itable s ip) ∧ (nlink (D n) ≠ 0 ∨ 2 ≤ ref (itable s ip)).
Proof using Htbl.
  intros [A1 A2 A3 A4 A5 A6 A7]. rewrite (tk_ref _ _ _ A6 ip A4). unfold one. rewrite decide_True by done.
  pose proof (tb_ref _ Htbl ip A4). lia.
Qed.

(** The reference is given back. *)
Lemma at_put s ip n s' :
  at_inode s0 d co k D s ip n → takes (itable s) (itable s') (λ j, - one ip j) → takes (itable s0) (itable s') none.
Proof using .
  intros HA HT. eapply takes_trans; [apply HA|apply one_nonneg|exact HT|]. intros j. unfold none. lia.
Qed.

Lemma at_lock s ip n :
  at_inode s0 d co k D s ip n → runs (ilock ip) s (λ _ s', owns (store s') d co [] k ∧ resting s' co D (Some ip) ∧
    me s' = me s0 ∧ cwd s' = cwd s0 ∧ takes (itable s0) (itable s') (one ip) ∧ 0 < ref (itable s' ip) ∧
    (nlink (D n) ≠ 0 ∨ 2 ≤ ref (itable s' ip)) ∧ inum (itable s' ip) = n ∧ din (itable s' ip) = D n).
Proof using All.
  intros HA. destruct (at_ref s ip n HA) as [Hr Hl]. destruct HA as [A1 A2 [A3 A3'] A4 A5 A6 A7].
  eapply runs_mono; [by apply (ilock_spec s d co k D ip)|]. intros _ s1 (O1 & R1 & T1 & M1 & C1 & I1 & D1).
  pose proof (tk_ref _ _ _ T1 ip A4) as Hr1. unfold none in Hr1. rewrite Z.add_0_r in Hr1. rewrite M1, C1, I1, D1, A5, Hr1.
  split_and!; try done. eapply takes_trans; [exact A6|apply one_nonneg|exact T1|]. intros j. unfold none. lia.
Qed.

(** Locked, [namex] gives up. *)
Lemma at_fail s ip name nm :
  owns (store s) d co [] k → resting s co D (Some ip) → me s = me s0 → cwd s = cwd s0 → takes (itable s0) (itable s) (one ip) →
  in_table ip → 0 < ref (itable s ip) → nlink (D (inum (itable s ip))) ≠ 0 ∨ 2 ≤ ref (itable s ip) →
  runs (iunlockput ip;; mret (NULL, name)) s (found s0 d co k D None nm).
Proof using All.
  intros Ho HR Hm Hc HT Hip Hr Hl. rcall (iunlockput_spec s d co k D ip); [done|done|done|done|done|].
  intros _ s1 (O1 & R1 & T1 & M1 & C1). apply runs_ret. split_and!; try done; [by rewrite M1|by rewrite C1|].
  eapply takes_trans; [exact HT|apply one_nonneg|exact T1|]. intros j. unfold none. lia.
Qed.

(** Locked, [namex] leaves the directory [ip] for its child [next]. *)
Lemma at_next s ip s1 next m :
  takes (itable s0) (itable s) (one ip) → in_table ip → 0 < ref (itable s ip) → nlink (D (inum (itable s ip))) ≠ 0 ∨ 2 ≤ ref (itable s ip) →
  owns (store s1) d co [] k → resting s1 co D (Some ip) → me s1 = me s0 → cwd s1 = cwd s0 → takes (itable s) (itable s1) (one next) →
  in_table next → inum (itable s1 next) = m → nlink (D m) ≠ 0 →
  runs (iunlockput ip) s1 (λ _ s2, at_inode s0 d co k D s2 next m).
Proof using All.
  intros HT Hip Hr Hl Ho HR Hm Hc T1 Hne Hi Hk. pose proof (tk_ref _ _ _ T1 ip Hip) as Er. pose proof (one_nonneg next ip).
  destruct (tk_same _ _ _ T1 ip Hip Hr) as [_ Ei].
  eapply runs_mono; [apply (iunlockput_spec s1 d co k D ip); [done|done|done|lia|rewrite Ei; lia]|].
  intros _ s2 (O2 & R2 & T2 & M2 & C2).
  assert (takes (itable s0) (itable s1) (λ j, one ip j + one next j)) as T01 by (eapply takes_trans; [exact HT|apply one_nonneg|exact T1|done]).
  assert (0 < ref (itable s1 next)) as Hnx.
  { rewrite (tk_ref _ _ _ T1 next Hne). unfold one. rewrite decide_True by done.
    pose proof (tk_ref _ _ _ HT next Hne). pose proof (tb_ref _ Htbl next Hne). pose proof (one_nonneg ip next). lia. }
  split; try done; [by rewrite M2, C2|by destruct (tk_same _ _ _ T2 next Hne Hnx) as [_ ->]| |by left].
  eapply takes_trans; [exact T01| |exact T2|].
  - intros j. pose proof (one_nonneg ip j). pose proof (one_nonneg next j). lia.
  - intros j. cbn. lia.
Qed.

(** The directory or inode that [namex] looks for, and the last component. *)
Definition target (parent : bool) (n : Z) (cs : list (list Z)) : option Z :=
  if parent then resolve_parent co D n cs else resolve co D n cs.
Definition last_name (parent : bool) (cs : list (list Z)) (name : list Z) : Prop :=
  parent = true → ∃ c, last cs = Some c ∧ length name = Z.to_nat DIRSIZ ∧ field 14 name = take 14 c.

Lemma target_file parent n c cs : type (D n) ≠ T_DIR → target parent n (c :: cs) = None.
Proof using .
  intros Ht. unfold target. destruct parent; cbn [resolve resolve_parent]; unfold child; rewrite !decide_False by done; [by destruct cs|done].
Qed.

Lemma target_dir parent n c cs name :
  type (D n) = T_DIR → field 14 name = take 14 c → Forall (λ x, x ≠ 0) c → parent = false ∨ cs ≠ [] →
  target parent n (c :: cs) = e ← find_dent name (dents co (D n)) 0; target parent (e : Z * Z).1 cs.
Proof using .
  intros Ht Hf Hc Hp. assert (child co D n c = (λ e : Z * Z, e.1) <$> find_dent name (dents co (D n)) 0) as E.
  { unfold child. rewrite decide_True by done. f_equal. apply find_dent_field. by rewrite Hf, field_take. }
  unfold target. destruct parent; cbn [resolve resolve_parent].
  - destruct cs; [by destruct Hp|]. rewrite E. by destruct (find_dent _ _ _).
  - rewrite E. by destruct (find_dent _ _ _).
Qed.

Lemma components_nonempty rest : (∀ x r, rest = x :: r → x ≠ 47) → rest ≠ [] → components rest ≠ [].
Proof using .
  intros Hx Hne. destruct rest as [|x r]; [done|]. specialize (Hx x r eq_refl). unfold components. cbn [split_path].
  assert ((x =? 47) = false) as -> by lia. pose proof (take_elem_spec r) as Ht. destruct (take_elem r) as [e r'].
  destruct Ht as (_ & _ & _ & ->). done.
Qed.

Lemma namex_loop_spec parent fuel : ∀ s ip n path name,
  at_inode s0 d co k D s ip n → Forall (λ c, c ≠ 0) path → length name = Z.to_nat DIRSIZ → (length path < fuel)%nat →
  runs (namex_loop fuel ip path parent name) s
    (found s0 d co k D (target parent n (components path)) (last_name parent (components path))).
Proof using All.
  induction fuel as [|fuel IH]; intros s ip n path name HA Hnz Hlen Hfuel; [lia|]. cbn [namex_loop].
  pose proof (skipelem_component path name Hnz Hlen) as Hsk. destruct (skipelem path name) as [[rest name']|]; cycle 1.
  { rewrite Hsk. destruct (at_ref _ _ _ HA) as [Hr Hl]. pose proof HA as [A1 A2 [A3 A3'] A4 A5 A6 A7]. destruct parent.
    - rcall (iput_spec s co D ip); [done|done|done|by rewrite A5|]. intros _ s1 (E1 & R1 & T1 & M1 & C1). apply runs_ret.
      unfold found. cbn [target resolve_parent]. split_and!; [by rewrite E1|done|by rewrite M1|by rewrite C1|done|by eapply at_put].
    - apply runs_ret. unfold found. cbn [target resolve]. by split_and!. }
  destruct Hsk as (c & Hcs & Hx & Hlen' & Hfield & Hcnz & Hrnz & Hshort). rewrite Hcs. pose proof (ai_ip _ _ _ _ _ _ _ _ HA) as Hip.
  rcall (at_lock s ip n HA). intros _ s1 (O1 & R1 & M1 & C1 & T1 & Hr1 & Hl1 & I1 & D1). rstep. rewrite D1.
  case_if.
  { rewrite target_file by done. apply at_fail; try done. by rewrite I1. }
  destruct (parent && match rest with [] => true | _ => false end) eqn:Ep.
  { destruct parent; [|done]. destruct rest; [|done]. rcall (iunlock_spec s1 co D ip); [done|done|done|].
    intros _ s2 (E2 & R2 & T2 & M2 & C2 & I2). apply runs_ret. change (target true n (c :: components [])) with
      (if decide (type (D n) = T_DIR) then Some n else None). rewrite decide_True by done.
    split_and!; cbn [Datatypes.fst Datatypes.snd]; [by rewrite E2|done|by rewrite M2|by rewrite C2|done|by rewrite I2| |].
    - eapply takes_trans; [exact T1|apply one_nonneg|exact T2|]. intros j. unfold none. lia.
    - intros _. exists c. done. }
  assert (parent = false ∨ components rest ≠ []) as Hp.
  { destruct parent; [right|by left]. apply components_nonempty; [done|]. by destruct rest. }
  rewrite (target_dir parent n c (components rest) name') by done.
  rcall (lookup_spec s1 d co k D ip n name'); try done; [left; rewrite Hlen'; done|by eapply one_free|].
  intros [next off] s2 (O2 & R2 & M2 & C2 & Hfd). cbn [Datatypes.fst] in Hfd.
  destruct (find_dent name' (dents co (D n)) 0) as [[m o]|]; cycle 1.
  { destruct Hfd as [-> T2]. change (NULL =? NULL) with true. cbv iota. pose proof (tk_ref _ _ _ T2 ip Hip) as Er. unfold none in Er.
    destruct (tk_same _ _ _ T2 ip Hip Hr1) as [_ Ei].
    apply at_fail; try done; [by rewrite M2|by rewrite C2| |lia|rewrite Ei, I1; lia].
    eapply takes_trans; [exact T1|apply one_nonneg|exact T2|]. intros j. unfold none. lia. }
  destruct Hfd as (Hnext & I2 & T2 & Hk2). rewrite (table_not_null next Hnext). cbv iota.
  rcall (at_next s1 ip s2 next m); try done; [by rewrite I1|by rewrite M2|by rewrite C2|].
  intros ? s3 HA3. cbv beta in HA3. eapply runs_mono; [apply (IH s3 next m rest name'); [done|done|done|lia]|].
  intros r s4 (F1 & F2 & F3 & F4 & F5). cbn [mbind option_bind Datatypes.fst]. split_and!; try done.
  destruct (target parent m (components rest)); [|done]. destruct F5 as (F5 & F6 & F7 & F8). split_and!; try done.
  intros ->. destruct (F8 eq_refl) as (c' & Hc' & Hc''). exists c'. split; [|done]. destruct Hp as [|Hp]; [done|].
  by destruct (components rest).
Qed.
End walk.

(** Where a path starts. *)
Definition start_of s (path : list Z) : Z := match path with 47 :: _ => ROOTINO | _ => inum (itable s (cwd s)) end.
Definition start_ok s D (path : list Z) : Prop :=
  match path with
  | 47 :: _ => 0 ≤ ROOTINO < ninodes (sb s) ∧ type (D ROOTINO) ≠ 0 ∧ nlink (D ROOTINO) ≠ 0
  | _ => in_table (cwd s) ∧ 0 < ref (itable s (cwd s))
  end.

Lemma path_cases (path : list Z) :
  (∃ r, path = 47 :: r) ∨ ∀ A (a b : A), match path with 47 :: _ => a | _ => b end = b.
Proof using .
  destruct path as [|c r]; [by right|]. destruct (decide (c = 47)) as [->|Hne]; [left; eauto|]. right. intros A a b.
  destruct c as [|p|p]; try done. do 6 (destruct p as [p|p|]; try done).
Qed.

Lemma namex_spec s d co k D path parent name :
  resting s co D None → owns (store s) d co [] k → two_free (itable s) →
  Forall (λ c, c ≠ 0) path → length name = Z.to_nat DIRSIZ → start_ok s D path →
  runs (namex path parent name) s
    (found s d co k D
       (if parent then resolve_parent co D (start_of s path) (components path) else resolve co D (start_of s path) (components path))
       (last_name parent (components path))).
Proof using All.
  intros HR Ho Hfree Hnz Hlen Hst. unfold namex. pose proof (rs_table _ _ _ _ HR) as Htb.
  pose proof (namex_loop_spec s d co k D Htb Hfree parent (S (length path))) as Hloop.
  destruct (path_cases path) as [[r ->]|Hp].
  - destruct Hst as (H1 & H2 & H3). destruct (iget_spec s co D None ROOTINO) as (ip & s1 & t & E & Ht & Est & Hip & R1 & T1 & M1 & C1 & I1); try done.
    { destruct Hfree as (a & b & Ha & _ & _ & Ra & _). exists a. split; [done|by right]. }
    apply runs_bind. eapply runs_done; [exact E|done|]. apply Hloop; [|done|done|lia].
    split; try done; [by rewrite Est|by left].
  - rewrite Hp. unfold start_ok in Hst. rewrite Hp in Hst. destruct Hst as [Hc Hr]. unfold start_of. rewrite Hp. apply runs_bind. rstep.
    eapply runs_mono; [by apply (idup_spec s co D (cwd s))|]. intros ip s1 (-> & E1 & R1 & T1 & M1 & C1). apply Hloop; [|done|done|lia].
    split; try done; [by rewrite E1| |by right]. by destruct (tk_same _ _ _ T1 (cwd s) Hc Hr) as [_ ->].
Qed.
(** C14: [namei] and [nameiparent] resolve path names.  On a file system at rest,
    with two free entries in the table of inodes, [namex] returns without a
    panic.  It follows the components of the path, cut to 14 bytes, through
    the entries of the directories, from the root for a path that begins with
    a slash and from the current directory otherwise; [nameiparent] stops at
    the directory of the last component and stores that component in [name].
    When the path leads to an inode, the result is its entry in the table,
    with one more reference; when a component is missing or is not a
    directory, the result is the null pointer.  All other references are as
    before, no lock is held, and nothing is written. *)
Theorem namex_resolves s d co k D path parent name :
  resting s co D None → owns (store s) d co [] k → two_free (itable s) →
  Forall (λ c, c ≠ 0) path → length name = Z.to_nat DIRSIZ → start_ok s D path →
  runs (namex path parent name) s
    (found s d co k D
       (if parent then resolve_parent co D (start_of s path) (components path) else resolve co D (start_of s path) (components path))
       (last_name parent (components path))).
Proof using All. apply namex_spec. Qed.

(** ** Reading a file by its name *)

(** [namei], [ilock], [readi] into a kernel buffer, [iunlockput]. *)
Definition load (path : list Z) (n : Z) : M fst (Z * list Z) :=
  ip ← namei path;
  ilock ip;;
  r ← readi ip (Kernel []) 0 n;
  iunlockput ip;;
  mret r.

Lemma load_spec s d co k D path m n :
  resting s co D None → owns (store s) d co [] k → two_free (itable s) → Forall (λ c, c ≠ 0) path → start_ok s D path →
  resolve co D (start_of s path) (components path) = Some m → nlink (D m) ≠ 0 → dsize (D m) ≤ n < 2 ^ 31 →
  runs (load path n) s (λ r s', owns (store s') d co [] k ∧ resting s' co D None ∧ r = (dsize (D m), contents co (D m))).
Proof using All.
  intros HR Ho Hfree Hnz Hst Hres Hlink Hn. unfold load, namei. pose proof (rs_table _ _ _ _ HR) as Htb.
  rcall (runs_bind (namex path false (replicate (Z.to_nat DIRSIZ) 0)));
    [eapply runs_mono; [apply (namex_spec s d co k D path false); [done..|apply length_replicate|done]|]|].
  { rewrite Hres. intros [ip nm] s1 (O1 & R1 & _ & _ & Hip & I1 & T1 & _). cbn [Datatypes.fst] in *. apply runs_ret.
    exact (conj O1 (conj R1 (conj Hip (conj I1 T1)))). }
  cbv beta. intros ip s1 (O1 & R1 & Hip & I1 & T1).
  assert (0 < ref (itable s1 ip)) as Hr.
  { rewrite (tk_ref _ _ _ T1 ip Hip). unfold one. rewrite decide_True by done. pose proof (tb_ref _ Htb ip Hip). lia. }
  destruct (rs_entry _ _ _ _ R1 ip Hip Hr) as (Hdev & Hm & Ht & _). rewrite I1 in *.
  rcall (ilock_spec s1 d co k D ip); [done..|]. intros _ s2 (O2 & R2 & T2 & _ & _ & I2 & D2). rewrite I1 in *.
  pose proof (tk_ref _ _ _ T2 ip Hip) as Hr2. unfold none in Hr2.
  assert (current vb s2 D ip) as Hcu.
  { destruct (rs_entry _ _ _ _ R2 ip Hip) as (K1 & K2 & K3 & _); [lia|]. split; rewrite ?I2, ?D2; try done; [apply R2|by rewrite <-I2]. }
  pose proof (current_file vb s2 co D ip (rs_fs _ _ _ _ R2) Hcu) as [Hac Hfill Hsz _ Hd].
  pose proof (do_size _ Hd) as Hsz0. rewrite D2 in Hsz0.
  rcall (readi_spec vb owns s2 d co k ip (Kernel []) 0 n); try done; [lia|]. rewrite D2 in *.
  intros [r l] s3 ((t & u & ->) & O3 & [[Hr1 Hl]|(_ & (va & Hva) & _)]); [|done]. cbn [Datatypes.fst Datatypes.snd] in *.
  rcall (iunlockput_spec (set_umem u (set_store t s2)) d co k D ip); cbn [itable set_umem set_store];
    [by apply (resting_same s2)|done|done|lia|by rewrite I2; left|].
  intros _ s4 (O4 & R4 & _). apply runs_ret. split_and!; [done|done|].
  assert (read_count (dsize (D m)) 0 n = dsize (D m)) as Hrc by (unfold read_count; rewrite u32_small by lia; if_false; lia).
  rewrite Hrc in *. rewrite Z2Nat.id in Hr1 by lia. by subst.
Qed.
End path.
