(* ===== verification/FsTx.v ===== *)
(** * File system calls as transactions

    The file system on the log and the buffer cache: a write of a file between
    [begin_op] and [end_op] survives a crash as a whole or not at all. *)

From S2P Require Import Prelude Riscv Memory Disk Log LogSpec Tx Bio BioSpec LogBoot TxLog.
From S2P Require Import Fs FsAlloc FsMap FsInode FsFile FsWrite FsTrunc FsInv FsDir FsPath.

Section tx.
  Context {U : Type} `{UM : UserMem U} (st sz : Z) (Hst : 0 ≤ st) (Hsz : 2 ≤ sz) (Hend : st + sz ≤ 2 ^ 31).
  Local Abbreviation fst := (fst (T := lst) (U := U)).

(** A call between [begin_op] and [end_op]. *)
Definition transaction {A} (m : M fst A) : M fst A :=
  in_store Tx.begin_op;; a ← m; in_store Tx.end_op;; mret a.

Lemma in_store_returns {A} (m : M lst A) (s : fst) Q :
  returns m (store s) (λ a t tr, Q a (set_store t s) tr) → returns (in_store m) s Q.
Proof. unfold returns, in_store, zoom. simpl. by destruct (m (store s)). Qed.

Lemma transaction_run {A} (m : M fst A) (s : fst) d (Q : A → fst → disk → Prop) :
  quiet st sz (store s) d →
  (∀ t, log_owns st sz [] t d d [] (budget sz) →
    runs m (set_store t s) (λ a s2, ∃ co k, log_owns st sz [] (store s2) d co [] k ∧ Q a s2 co)) →
  returns (transaction m) s (λ a s' t, ∃ s2 co, Q a s2 co ∧ s' = set_store (store s') s2 ∧
    atomic st sz (lg (store s)) d co (store s') (writes t)).
Proof using Hst Hsz Hend.
  intros Hq Hm. unfold transaction. apply returns_bind, in_store_returns.
  eapply returns_mono; [by apply (begin_owns st sz)|]. intros [] t1 tr1 [Hw1 Ho1].
  apply returns_bind. eapply returns_mono; [by apply Hm|]. intros a s2 tr2 [Hw2 (co & k & Ho2 & HQ)].
  apply returns_bind, in_store_returns. eapply returns_mono; [apply (end_owns st sz Hst Hsz Hend (store s2) d co k Ho2), (qu_head _ _ _ _ Hq)|].
  intros [] t3 tr3 [A1 A2]. apply returns_ret. exists s2, co. split_and!; [done|done|]. cbn [store set_store].
  rewrite !writes_app, Hw1, Hw2. simpl. rewrite app_nil_r. split; [done|]. intros ws g0 c0 Hws Hreb. apply A2; [done|].
  destruct Ho2 as (_ & L & [(_ & Ht & _) _ _ _ _]). destruct Hreb as (R1 & R2 & R3). split_and!; try apply R3.
  - rewrite R1, (qu_start _ _ _ _ Hq). symmetry. apply Ht.
  - rewrite R2, (qu_size _ _ _ _ Hq). symmetry. apply Ht.
Qed.
End tx.

Lemma rounds_bound off n : 0 ≤ off → n ≤ 3 * BSIZE → rounds off n ≤ 4.
Proof.
  intros Ho Hn. unfold rounds. case_decide; [lia|].
  pose proof (Z.div_mod off BSIZE ltac:(lia)). pose proof (Z.mod_pos_bound off BSIZE ltac:(lia)).
  assert ((off + n - 1) / BSIZE < off / BSIZE + 4); [|lia]. apply Z.div_lt_upper_bound; lia.
Qed.

Section write.
  Context {U : Type} `{UM : UserMem U} `{!UserMemLaws U}.
  Local Abbreviation fst := (fst (T := lst) (U := U)).
  Implicit Types (s : fst).

(** The log is where the super block says, and the disk is consistent. *)
Record mounted s (d : disk) (D : Z → dinode) : Prop := {
  mt_layout : layout (sb s);
  mt_quiet : quiet (logstart (sb s)) (nlog (sb s)) (store s) d;
  mt_nlog : 28 ≤ nlog (sb s);
  mt_fs : fs_ok (sb s) d D
}.

Lemma mounted_base s d D t : mounted s d D → base (outside (logstart (sb s)) (nlog (sb s))) (set_store t s).
Proof.
  intros [Hly _ _ _]. split; [done|]. intros b [H1 H2]. destruct Hly as [L1 L2 L3 L4]. cbn [sb set_store] in *.
  unfold outside. lia.
Qed.

Lemma log_end s : layout (sb s) → 2 ≤ nlog (sb s) → 0 ≤ logstart (sb s) ∧ logstart (sb s) + nlog (sb s) ≤ 2 ^ 31.
Proof.
  intros Hly Hnl. pose proof (ly_log _ Hly). pose proof (ly_inodes _ Hly). pose proof (ly_data _ Hly). pose proof (ly_size _ Hly).
  unfold datastart in *. pose proof (Z.div_pos (ninodes (sb s)) IPB). pose proof (Z.div_pos (size (sb s)) BPB). lia.
Qed.

(** Reading a file by its name in a transaction. *)
Lemma load_mounted s d D path m n :
  mounted s d D → resting (outside (logstart (sb s)) (nlog (sb s))) s d D None → two_free (itable s) →
  Forall (λ c, c ≠ 0) path → start_ok s D path →
  resolve d D (start_of s path) (components path) = Some m → nlink (D m) ≠ 0 → dsize (D m) ≤ n < 2 ^ 31 →
  returns (transaction (load path n)) s (λ r _ _, r = (dsize (D m), contents d (D m))).
Proof.
  intros [Hly Hq Hnl Hok] HR Hfree Hnz Hst Hres Hlink Hn. destruct (log_end s Hly) as [Hst0 Hend]; [lia|]. set (st := logstart (sb s)) in *. set (sz := nlog (sb s)) in *.
  eapply returns_mono.
  - apply (transaction_run st sz Hst0 ltac:(lia) Hend _ s d (λ r _ _, r = (dsize (D m), contents d (D m))) Hq).
    intros t Ho. eapply runs_mono.
    + apply (load_spec (outside st sz) (log_owns st sz []) (set_store t s) d d (budget sz) D path m n); try done. by apply (resting_same _ s).
    + intros r s' (H1 & _ & H2). by exists d, (budget sz).
  - intros r s' t (s2 & co & Hr & _). done.
Qed.

(** C8: A write of at most three blocks, as [filewrite] makes them, between
    [begin_op] and [end_op] is atomic, when the bytes [l] of the source can be
    read ([gives]: [either_copyin] does not fail; a kernel buffer always can).
    It returns with the log empty.  It is refused as [writei] says, and then no
    block outside the log changes; or the first [r] bytes of [l] replace the
    bytes of the file at [off], all of them unless no block of the disk is
    free, the inode is stored, the other inodes and files are as before, and
    the file system is consistent.  A crash at any of its disk writes leaves,
    after recovery, all blocks outside the log as they were before the call,
    or all as after. *)
Theorem write_atomic s d D ip src l off :
  mounted s d D → current (λ _, True) s D ip → gives s src l → Forall is_byte l →
  let n := Z.of_nat (length l) in let st := logstart (sb s) in let sz := nlog (sb s) in let i := inum (itable s ip) in
  n ≤ 3 * BSIZE → 0 ≤ off < 2 ^ 32 →
  returns (transaction (writei ip src off n)) s (λ r s' t, ∃ co D',
    fs_ok (sb s) co D' ∧ atomic st sz (lg (store s)) d co (store s') (writes t) ∧
    (write_refused s ip off n ∧ r = -1 ∧ co = d ∨
     ¬ write_refused s ip off n ∧ 0 ≤ r ≤ n ∧ (r < n → disk_full (sb s) co) ∧
     contents co (D' i) = put_at (contents d (D i)) off (take (Z.to_nat r) l) ∧
     disk_inode (sb s) co i = D' i ∧
     (∀ j, 0 ≤ j < ninodes (sb s) → j ≠ i → D' j = D j ∧ disk_inode (sb s) co j = disk_inode (sb s) d j ∧
       (type (D j) ≠ 0 → contents co (D j) = contents d (D j))))).
Proof.
  intros Hmt Hcu Hg Hl n st sz i Hn Hoff. pose proof Hmt as [Hly Hq Hnl Hok]. pose proof (rounds_bound off n (proj1 Hoff) Hn) as Hrb.
  destruct (log_end s Hly) as [Hst0 Hend]; [lia|]. fold st in Hst0, Hend. fold sz in Hend.
  eapply returns_mono.
  - apply (transaction_run st sz Hst0 ltac:(unfold sz; lia) Hend _ s d (λ r s2 co, ∃ D', fs_ok (sb s) co D' ∧
      (write_refused s ip off n ∧ r = -1 ∧ co = d ∨
       ¬ write_refused s ip off n ∧ 0 ≤ r ≤ n ∧ (r < n → disk_full (sb s) co) ∧
       contents co (D' i) = put_at (contents d (D i)) off (take (Z.to_nat r) l) ∧
       disk_inode (sb s) co i = D' i ∧
       (∀ j, 0 ≤ j < ninodes (sb s) → j ≠ i → D' j = D j ∧ disk_inode (sb s) co j = disk_inode (sb s) d j ∧
         (type (D j) ≠ 0 → contents co (D j) = contents d (D j))))) Hq).
    intros t Ho. destruct Hcu as [C1 C2 C3 C4 C5].
    eapply runs_mono.
    + apply (writei_ok (outside st sz) (log_owns st sz []) (set_store t s) d d (budget sz) D ip src l off); try done.
      * split; try done. by apply (mounted_base s d D).
      * lia.
      * unfold budget. fold n. unfold sz. lia.
    + intros r s2 [(R1 & -> & ->)|(R1 & R2 & (co' & di' & W1 & W2 & W3 & W4 & W5 & W6 & W7 & _))].
      * exists d, (budget sz). split; [exact Ho|]. exists D. split; [done|]. by left.
      * exists co', (budget sz - (6 * rounds off n + 1)). split; [exact W1|]. eexists. split; [exact W2|]. right.
        cbn [itable set_store sb] in *. fold i in W4, W5, W6 |- *. rewrite upd_eq. split_and!; try done; try apply R2.
        intros j Hj Hne. rewrite upd_ne by done. split; [done|]. by apply W6.
  - intros r s' t (s2 & co & (D' & Hok' & Hr) & _ & Ha). exists co, D'. done.
Qed.
End write.
