(* ===== verification/FsBoot.v ===== *)
(** * A file system

    A disk with the layout that [mkfs] gives it, a file of five bytes and the
    root directory that names it, mounted on the log and the buffer cache.  The theorems
    about the file system are applied to it. *)

From S2P Require Import Prelude Riscv Memory Locks Disk Log LogSpec Tx Bio BioSpec LogBoot TxLog.
From S2P Require Import Fs FsAlloc FsMap FsInode FsFile FsWrite FsTrunc FsInv FsDir FsPath FsTx.
Import Sleeplock.

#[local] Instance unit_mem : UserMem unit := {
  copyout va l := mret 0;
  copyin va n := mret (replicate n 0, 0)
}.

#[local] Instance unit_mem_laws : UserMemLaws unit.
Proof. split. intros va l u. apply runs_ret. by left. Qed.

Definition sb0 : superblock := Sb FSMAGIC 2000 1954 200 30 2 32 45.

Definition no_addrs : list Z := replicate 13 0.
Definition dnode0 : dinode := Dinode 0 0 0 0 0 no_addrs.
Definition root0 : dinode := Dinode T_DIR 0 0 1 16 (47 :: replicate 12 0).
Definition file0 : dinode := Dinode T_FILE 0 0 1 5 (46 :: replicate 12 0).
Definition D0 (n : Z) : dinode := if decide (n = 1) then root0 else if decide (n = 2) then file0 else dnode0.

Definition bitmap0 : block := put_at zero_block 0 [255; 255; 255; 255; 255; 255].
Definition img (b : Z) : block :=
  if decide (b = 32) then put_dinode (put_dinode zero_block 64 root0) 128 file0
  else if decide (b = 45) then bitmap0
  else if decide (b = 46) then put_at zero_block 0 [104; 101; 108; 108; 111]
  else if decide (b = 47) then put_at zero_block 0 [2; 0; 102]
  else zero_block.

Lemma img_ok b : is_block (img b).
Proof.
  unfold img, bitmap0. repeat case_decide; try apply zero_block_ok.
  - repeat apply is_block_put_dinode; try done; apply zero_block_ok.
  - apply is_block_put_at; [apply zero_block_ok|done|done|]. repeat constructor; done.
  - apply is_block_put_at; [apply zero_block_ok|done|done|]. repeat constructor; done.
  - apply is_block_put_at; [apply zero_block_ok|done|done|]. repeat constructor; done.
Qed.

Lemma layout0 : layout sb0.
Proof. split; vm_compute; repeat split; congruence. Qed.

Lemma bits0 b : 0 ≤ b < 2000 → bused sb0 img b = bool_decide (b < 48).
Proof.
  intros Hb. assert (forallb (λ b, Bool.eqb (bused sb0 img b) (b <? 48)) (seqZ 0 2000) = true) as H by (vm_compute; reflexivity).
  rewrite forallb_forall in H. specialize (H b). rewrite <-list_elem_of_In, elem_of_seqZ in H.
  apply Bool.eqb_prop in H; [|lia]. rewrite H. destruct (Z.ltb_spec b 48); symmetry; [by apply bool_decide_true|apply bool_decide_false; lia].
Qed.

Lemma slot_first a j : place_ok j → slot img (a :: replicate 12 0) j = if decide (j = 0) then a else 0.
Proof.
  intros Hj. unfold slot. change ((a :: replicate 12 0) !!! 12%nat) with 0. rewrite (decide_True (P := 0 = 0)) by done.
  repeat case_decide; subst; try done; try lia. destruct (Z.to_nat j) as [|m] eqn:E; [unfold place_ok in Hj; lia|].
  change ((a :: replicate 12 0) !!! S m) with (replicate 12 0 !!! m). apply lookup_total_replicate_2. lia.
Qed.

Lemma dinode0_ok n : dinode_ok (D0 n).
Proof. unfold D0. repeat case_decide; (split; [..|repeat constructor; lia]); vm_compute; repeat split; congruence. Qed.

Lemma in_use0 n : type (D0 n) ≠ 0 → n = 1 ∨ n = 2.
Proof. unfold D0. repeat case_decide; auto; done. Qed.

Lemma slots0 n j : place_ok j → slot img (addrs (D0 n)) j = if decide (j = 0) then (if decide (n = 1) then 47 else if decide (n = 2) then 46 else 0) else 0.
Proof.
  intros Hj. unfold D0. destruct (decide (n = 1)) as [->|]; [by apply slot_first|].
  destruct (decide (n = 2)) as [->|]; [by apply slot_first|]. rewrite slot_zero. by case_decide.
Qed.

Lemma fs0 : fs_ok sb0 img D0.
Proof.
  split.
  - exact layout0.
  - intros b Hb. change (datastart sb0) with 46 in Hb. rewrite bits0 by lia. apply bool_decide_true. lia.
  - intros n _ _. apply dinode0_ok.
  - intros n Hn Ht. split.
    + apply (do_len _ (dinode0_ok n)).
    + intros j Hj. rewrite slots0 by done. repeat case_decide; try done; intros _; by rewrite bits0 by lia.
    + intros i j Hi Hj. rewrite !slots0 by done. repeat case_decide; try done; lia.
  - intros n Hn [->| ->]%in_use0.
    + split; [|done]. intros bn Hb1 Hb2. change (dsize (D0 1)) with 16 in Hb2. rewrite slots0 by (unfold place_ok; lia).
      rewrite decide_True by lia. done.
    + split; [|done]. intros bn Hb1 Hb2. change (dsize (D0 2)) with 5 in Hb2. rewrite slots0 by (unfold place_ok; lia).
      rewrite decide_True by lia. done.
  - intros n n' j j' Hn Hn' _ _ Hj Hj'. rewrite !slots0 by done. repeat case_decide; try done; lia.
  - intros b Hb. change (datastart sb0) with 46 in Hb. change (size sb0) with 2000 in Hb. rewrite bits0 by lia.
    intros H%bool_decide_eq_true. assert (b = 46 ∨ b = 47) as [->| ->] by lia; [exists 2, 0|exists 1, 0]; (split_and!; [done|done|done|done|by rewrite slots0]).
Qed.

(** ** Mounted, with the file open *)

#[local] Opaque fresh.

Definition ino0 : inode := Inode 0 0 0 (Sleeplock 0 0) 0 dnode0.
Definition tbl0 : Z → inode := upd (λ _, ino0) 0 (Inode ROOTDEV 2 1 (Sleeplock 1 1) 1 file0).
Definition store0 : lst := Lst (boot_log 30) (fresh img).
Definition s0 (t : lst) : fst (T := lst) (U := unit) := Fst sb0 tbl0 1 0 t tt.

Lemma quiet0 : quiet 2 30 store0 img.
Proof. split; cbn [lg ca store0]; [exact (fresh_abs img img_ok)|..]; vm_compute; try reflexivity. by split_and!. Qed.

Lemma started0 : ∃ t, log_owns 2 30 [] t img img [] (budget 30).
Proof. destruct (returns_inv _ _ _ (begin_owns 2 30 ltac:(lia) store0 img quiet0)) as ([] & t & tr & _ & _ & Ho). by exists t. Qed.

Lemma current0 t : current (outside 2 30) (s0 t) D0 0.
Proof.
  split; try done. split; [exact layout0|]. intros b [H1 H2]. cbn in H1, H2. unfold outside. lia.
Qed.

Definition abc : list Z := [97; 98; 99].
Lemma abc_bytes : Forall is_byte abc.
Proof. repeat constructor; done. Qed.

Lemma writei_writes_witness : ∃ t,
  log_owns 2 30 [] t img img [] 27 ∧ fs_ok sb0 img D0 ∧ ¬ write_refused (s0 t) 0 5 3 ∧
  runs (writei 0 (Kernel abc) 5 3) (s0 t) (λ r s',
    (write_refused (s0 t) 0 5 3 ∧ r = -1 ∧ s' = s0 t) ∨
    (¬ write_refused (s0 t) 0 5 3 ∧ 0 ≤ r ≤ 3 ∧
     write_done (outside 2 30) (log_owns 2 30 []) (s0 t) img img (27 - 7) D0 0 abc 5 r s')).
Proof.
  destruct started0 as [t Ho]. exists t. split; [exact Ho|]. split; [exact fs0|]. split.
  { unfold write_refused. change (dsize (din (itable (s0 t) 0))) with 5. lia. }
  exact (writei_writes (outside 2 30) (log_owns 2 30 []) (s0 t) img img 27 D0 0 (Kernel abc) abc 5 fs0 (current0 t) Ho
    (gives_kernel _ _) abc_bytes eq_refl (conj (Z.lt_le_incl 0 5 eq_refl) eq_refl) ltac:(vm_compute; congruence)).
Defined.

Lemma writei_readi_witness : ∃ t,
  log_owns 2 30 [] t img img [] 27 ∧
  runs (r ← writei 0 (Kernel abc) 5 3; r' ← readi 0 (Kernel []) 5 3; mret (r, r')) (s0 t) (λ res _,
    let '(r, (r', l')) := res in r = 3 → r' = 3 ∧ l' = abc).
Proof.
  destruct started0 as [t Ho]. exists t. split; [exact Ho|].
  exact (writei_readi (outside 2 30) (log_owns 2 30 []) (s0 t) img img 27 D0 0 (Kernel abc) abc 5 fs0 (current0 t) Ho
    (gives_kernel _ _) abc_bytes eq_refl (conj (Z.lt_le_incl 0 5 eq_refl) eq_refl) ltac:(vm_compute; congruence)).
Defined.

Lemma reserved0 : bitmap_reserved [45] sb0.
Proof.
  intros b Hb. change (size sb0) with 2000 in Hb. apply list_elem_of_singleton. rewrite BBLOCK_eq by (apply layout0 || done).
  rewrite Z.div_small by lia. done.
Qed.

Lemma itrunc_frees_witness : ∃ t,
  log_owns 2 30 [45] t img img [] 26 ∧
  runs (itrunc 0) (s0 t) (λ _ s', ∃ co' di',
    log_owns 2 30 [45] (store s') img co' [] (26 - 1) ∧ fs_ok sb0 co' (upd D0 2 di') ∧ current (outside 2 30) s' (upd D0 2 di') 0 ∧
    contents co' di' = [] ∧ disk_inode sb0 co' 2 = di' ∧
    (∀ b, datastart sb0 ≤ b < size sb0 → bused sb0 co' b = true ↔
      bused sb0 img b = true ∧ ∀ j, place_ok j → slot img (addrs (D0 2)) j ≠ b) ∧
    (∀ n', 0 ≤ n' < ninodes sb0 → n' ≠ 2 → type (D0 n') ≠ 0 → contents co' (D0 n') = contents img (D0 n'))).
Proof.
  destruct started0 as [t Ho]. pose proof (reserve_law [] t img img [] 27 45 Ho eq_refl) as Hr. exists t. split; [exact Hr|].
  exact (itrunc_frees (outside 2 30) (log_owns 2 30) [45] (s0 t) img img 26 D0 0 fs0 (current0 t) Hr ltac:(lia) reserved0).
Defined.

Lemma mounted0 : mounted (s0 store0) img D0.
Proof. split; [exact layout0|exact quiet0|cbn; lia|exact fs0]. Qed.

Lemma current0_any t : current (λ _, True) (s0 t) D0 0.
Proof. destruct (current0 t) as [[C0 _] C2 C3 C4 C5]. split; try done. Qed.

Lemma write_atomic_witness :
  mounted (s0 store0) img D0 ∧
  returns (transaction (writei 0 (Kernel abc) 5 3)) (s0 store0) (λ r s' t, ∃ co D',
    fs_ok sb0 co D' ∧ atomic 2 30 (boot_log 30) img co (store s') (writes t) ∧
    (write_refused (s0 store0) 0 5 3 ∧ r = -1 ∧ co = img ∨
     ¬ write_refused (s0 store0) 0 5 3 ∧ 0 ≤ r ≤ 3 ∧ (r < 3 → disk_full sb0 co) ∧
     contents co (D' 2) = put_at (contents img (D0 2)) 5 (take (Z.to_nat r) abc) ∧ disk_inode sb0 co 2 = D' 2 ∧
     (∀ j, 0 ≤ j < ninodes sb0 → j ≠ 2 → D' j = D0 j ∧ disk_inode sb0 co j = disk_inode sb0 img j ∧
       (type (D0 j) ≠ 0 → contents co (D0 j) = contents img (D0 j))))).
Proof.
  split; [exact mounted0|].
  exact (write_atomic (s0 store0) img D0 0 (Kernel abc) abc 5 mounted0 (current0_any store0) (gives_kernel _ _) abc_bytes
    ltac:(vm_compute; congruence) (conj (Z.lt_le_incl 0 5 eq_refl) eq_refl)).
Defined.

Lemma table0 : table_ok tbl0.
Proof.
  unfold tbl0. split.
  - intros ip _. unfold upd. case_decide; done.
  - intros i j d n _ _. unfold upd, entry_for. repeat case_decide; subst; try done; simpl; lia.
Qed.

Lemma iget_unique_witness :
  match iget ROOTDEV 2 (s0 store0) with
  | Done ip s' _ =>
      in_table ip ∧ s' = set_itable (itable s') (s0 store0) ∧ table_ok (itable s') ∧ entry_for (itable s' ip) ROOTDEV 2 ∧
      (∀ j, j ≠ ip → itable s' j = itable (s0 store0) j) ∧
      (entry_for (itable (s0 store0) ip) ROOTDEV 2 ∧
         itable s' ip = set_ref (ref (itable (s0 store0) ip) + 1) (itable (s0 store0) ip) ∨
       (∀ j, in_table j → ¬ entry_for (itable (s0 store0) j) ROOTDEV 2) ∧ ref (itable (s0 store0) ip) = 0 ∧
       ref (itable s' ip) = 1 ∧ valid (itable s' ip) = 0)
  | Panicked _ _ _ => ∀ j, in_table j → ¬ entry_for (itable (s0 store0) j) ROOTDEV 2 ∧ ref (itable (s0 store0) j) ≠ 0
  | _ => False
  end.
Proof. exact (iget_unique (s0 store0) ROOTDEV 2 table0). Defined.

(** "/a/bb" *)
Definition path0 : list Z := [47; 97; 47; 98; 98].

Lemma skipelem_component_witness :
  skipelem path0 (replicate 14 0) = Some ([98; 98], 97 :: replicate 13 0) ∧ components path0 = [[97]; [98; 98]] ∧
  match skipelem path0 (replicate 14 0) with
  | None => components path0 = []
  | Some (rest, name') => ∃ c, components path0 = c :: components rest ∧
      (∀ x r, rest = x :: r → x ≠ 47) ∧ length name' = Z.to_nat DIRSIZ ∧
      Memory.field (Z.to_nat DIRSIZ) name' = take (Z.to_nat DIRSIZ) c ∧
      Forall (λ c, c ≠ 0) c ∧ Forall (λ c, c ≠ 0) rest ∧ (length rest < length path0)%nat
  end.
Proof.
  split; [vm_compute; reflexivity|]. split; [vm_compute; reflexivity|].
  apply (skipelem_component path0 (replicate 14 0)); [repeat constructor; done|reflexivity].
Defined.

(** ** With the root directory open, too *)

Definition tbl1 : Z → inode := upd tbl0 1 (Inode ROOTDEV 1 1 (Sleeplock 1 1) 1 root0).
Definition s1 (t : lst) : fst (T := lst) (U := unit) := Fst sb0 tbl1 1 0 t tt.

Lemma current1 t : current (outside 2 30) (s1 t) D0 1.
Proof. destruct (current0 t) as [C1 _ _ _ _]. split; try done. Qed.

Lemma dir1 t : dir_ok (outside 2 30) (s1 t) img 1.
Proof. split; try done. apply (current_file _ _ _ D0); [exact fs0|exact (current1 t)]. Qed.

(** "a" *)
Definition name0 : list Z := [97; 0].

Lemma dirlink_adds_witness : ∃ t,
  log_owns 2 30 [] t img img [] 27 ∧
  runs (dirlink 1 name0 2) (s1 t) (λ r s',
    (r = -1 ∧ (MAXFILE * BSIZE < dsize (D0 1) + DIRENT_SIZE ∨
       ∃ co', log_owns 2 30 [] (store s') img co' [] (27 - 7) ∧ disk_full sb0 co')) ∨
    (r = 0 ∧ ∃ co' di' de i, log_owns 2 30 [] (store s') img co' [] (27 - 7) ∧
      fs_ok sb0 co' (upd D0 1 di') ∧ current (outside 2 30) s' (upd D0 1 di') 1 ∧
      (i ≤ length (dents img (D0 1)))%nat ∧ (∀ old, dents img (D0 1) !! i = Some old → de_inum old = 0) ∧
      Forall (λ old, de_inum old ≠ 0) (take i (dents img (D0 1))) ∧
      de_inum de = 2 ∧ Memory.field 14 (de_name de) = Memory.field 14 name0 ∧
      dents co' di' = take i (dents img (D0 1)) ++ de :: drop (S i) (dents img (D0 1)) ∧
      find_dent name0 (dents co' di') 0 = Some (2, DIRENT_SIZE * Z.of_nat i) ∧
      (table_ok (itable (s1 t)) → iget_room (itable s') 2 → runs (dirlookup 1 name0) s' (λ e s2,
        e.2 = DIRENT_SIZE * Z.of_nat i ∧ in_table e.1 ∧ entry_for (itable s2 e.1) ROOTDEV 2)) ∧
      (∀ n', 0 ≤ n' < ninodes sb0 → n' ≠ 1 → type (D0 n') ≠ 0 → contents co' (D0 n') = contents img (D0 n')))).
Proof.
  destruct started0 as [t Ho]. exists t. split; [exact Ho|].
  apply (dirlink_adds (outside 2 30) (log_owns 2 30 []) (s1 t) img img 27 D0 1 name0 2 fs0 (current1 t) (dir1 t) Ho).
  - lia.
  - right. right. left.
  - repeat constructor; done.
  - lia.
  - vm_compute. reflexivity.
Defined.

(** ** At rest *)

Definition s2 (t : lst) : fst (T := lst) (U := unit) := Fst sb0 (λ _, ino0) 1 0 t tt.

Lemma dirs0 : dirs_ok img D0 sb0.
Proof.
  intros n Hn Ht. assert (n = 1) as ->.
  { destruct (in_use0 n) as [->| ->]; [by rewrite Ht|done|]. discriminate. }
  split; [done|]. assert (dents img (D0 1) = [[2; 0; 102] ++ replicate 13 0]) as -> by (vm_compute; reflexivity).
  intros de ->%list_elem_of_singleton _. done.
Qed.

Lemma resting0 t : resting (outside 2 30) (s2 t) img D0 None.
Proof.
  split; try done.
  - apply (current0 t).
  - exact fs0.
  - exact dirs0.
  - intros n _ [->| ->]%in_use0; vm_compute; reflexivity.
  - split; [done|]. intros i j d n _ _ [Hr _]. cbn in Hr. lia.
Qed.

(** "/f" *)
Definition path1 : list Z := [47; 102].

Lemma namex_resolves_witness : ∃ t,
  log_owns 2 30 [] t img img [] 27 ∧ resolve img D0 ROOTINO (components path1) = Some 2 ∧
  runs (namex path1 false (replicate 14 0)) (s2 t) (λ r s', in_table r.1 ∧ inum (itable s' r.1) = 2 ∧
    takes (λ _, ino0) (itable s') (one r.1)).
Proof.
  destruct started0 as [t Ho]. exists t. split; [exact Ho|]. split; [vm_compute; reflexivity|].
  eapply runs_mono; [apply (namex_resolves (outside 2 30) (log_owns 2 30 []) (s2 t) img img 27 D0 path1 false (replicate 14 0) (resting0 t) Ho)|].
  - exists 0, 1. done.
  - repeat constructor; done.
  - reflexivity.
  - done.
  - assert (resolve img D0 (start_of (s2 t) path1) (components path1) = Some 2) as -> by (vm_compute; reflexivity).
    intros r s' (_ & _ & _ & _ & H1 & H2 & H3 & _). done.
Defined.
