(* ===== verification/Kernel.v ===== *)
(** * The state of the whole kernel

    The structures of [kernel/proc.h] and [kernel/file.h], and the state that
    the system calls share: the memory, the process and file tables, the
    pipes, the console and the file system.  The handlers of a component run
    inside it through a lens; the processes that they wake are woken here. *)

From S2P Require Import Prelude Riscv Memory Locks Kalloc Vm Console Uart Pipe Printf Disk Tx Fs.

(** What the linker, the assembly files and the machine fix: the end of the
    kernel, the addresses of code that is stored in registers and contexts,
    the four bytes of padding in a [struct stat], which are never set, and the
    registers of the UART. *)
Class Platform : Type := {
  kend : Z;
  trampoline : Z;
  uservec : Z;
  userret : Z;
  kernelvec : Z;
  forkret_pc : Z;
  usertrap_pc : Z;
  stat_pad : list Z;
  uart_dev : Type;
  read_reg : Z → uart_dev → Z * uart_dev;
  write_reg : Z → Z → uart_dev → uart_dev
}.

(** ** [kernel/proc.h] *)

Inductive procstate : Type := UNUSED | USED | SLEEPING | RUNNABLE | RUNNING | ZOMBIE.
#[global] Instance procstate_eq_dec : EqDecision procstate.
Proof. solve_decision. Defined.

(** [ra], [sp] and the callee-saved [s0 .. s11]. *)
Record context : Type := Context_ { ra : Z; sp : Z; saved : list Z }.

(** [struct proc] without its lock.  A process is named by its index in
    [proc]; files and inodes by theirs; [NULL] is the null pointer.  No
    channel is [None]. *)
Record proc : Type := Proc {
  p_state : procstate;
  p_chan : option chan;
  p_killed : Z;
  p_xstate : Z;
  p_pid : Z;
  p_parent : Z;
  p_kstack : Z;
  p_sz : Z;
  p_pagetable : Z;
  p_trapframe : Z;
  p_context : context;
  p_ofile : Z → Z;
  p_cwd : Z;
  p_name : list Z
}.

Definition set_state x p := Proc x (p_chan p) (p_killed p) (p_xstate p) (p_pid p) (p_parent p) (p_kstack p) (p_sz p)
  (p_pagetable p) (p_trapframe p) (p_context p) (p_ofile p) (p_cwd p) (p_name p).
Definition set_chan x p := Proc (p_state p) x (p_killed p) (p_xstate p) (p_pid p) (p_parent p) (p_kstack p) (p_sz p)
  (p_pagetable p) (p_trapframe p) (p_context p) (p_ofile p) (p_cwd p) (p_name p).
Definition set_killed x p := Proc (p_state p) (p_chan p) x (p_xstate p) (p_pid p) (p_parent p) (p_kstack p) (p_sz p)
  (p_pagetable p) (p_trapframe p) (p_context p) (p_ofile p) (p_cwd p) (p_name p).
Definition set_xstate x p := Proc (p_state p) (p_chan p) (p_killed p) x (p_pid p) (p_parent p) (p_kstack p) (p_sz p)
  (p_pagetable p) (p_trapframe p) (p_context p) (p_ofile p) (p_cwd p) (p_name p).
Definition set_pid x p := Proc (p_state p) (p_chan p) (p_killed p) (p_xstate p) x (p_parent p) (p_kstack p) (p_sz p)
  (p_pagetable p) (p_trapframe p) (p_context p) (p_ofile p) (p_cwd p) (p_name p).
Definition set_parent x p := Proc (p_state p) (p_chan p) (p_killed p) (p_xstate p) (p_pid p) x (p_kstack p) (p_sz p)
  (p_pagetable p) (p_trapframe p) (p_context p) (p_ofile p) (p_cwd p) (p_name p).
Definition set_kstack x p := Proc (p_state p) (p_chan p) (p_killed p) (p_xstate p) (p_pid p) (p_parent p) x (p_sz p)
  (p_pagetable p) (p_trapframe p) (p_context p) (p_ofile p) (p_cwd p) (p_name p).
Definition set_sz x p := Proc (p_state p) (p_chan p) (p_killed p) (p_xstate p) (p_pid p) (p_parent p) (p_kstack p) x
  (p_pagetable p) (p_trapframe p) (p_context p) (p_ofile p) (p_cwd p) (p_name p).
Definition set_pagetable x p := Proc (p_state p) (p_chan p) (p_killed p) (p_xstate p) (p_pid p) (p_parent p) (p_kstack p) (p_sz p)
  x (p_trapframe p) (p_context p) (p_ofile p) (p_cwd p) (p_name p).
Definition set_trapframe x p := Proc (p_state p) (p_chan p) (p_killed p) (p_xstate p) (p_pid p) (p_parent p) (p_kstack p) (p_sz p)
  (p_pagetable p) x (p_context p) (p_ofile p) (p_cwd p) (p_name p).
Definition set_context x p := Proc (p_state p) (p_chan p) (p_killed p) (p_xstate p) (p_pid p) (p_parent p) (p_kstack p) (p_sz p)
  (p_pagetable p) (p_trapframe p) x (p_ofile p) (p_cwd p) (p_name p).
Definition set_ofile x p := Proc (p_state p) (p_chan p) (p_killed p) (p_xstate p) (p_pid p) (p_parent p) (p_kstack p) (p_sz p)
  (p_pagetable p) (p_trapframe p) (p_context p) x (p_cwd p) (p_name p).
Definition set_pcwd x p := Proc (p_state p) (p_chan p) (p_killed p) (p_xstate p) (p_pid p) (p_parent p) (p_kstack p) (p_sz p)
  (p_pagetable p) (p_trapframe p) (p_context p) (p_ofile p) x (p_name p).
Definition set_name x p := Proc (p_state p) (p_chan p) (p_killed p) (p_xstate p) (p_pid p) (p_parent p) (p_kstack p) (p_sz p)
  (p_pagetable p) (p_trapframe p) (p_context p) (p_ofile p) (p_cwd p) x.

(** Offsets of the fields of [struct trapframe]. *)
Definition TF_kernel_satp : Z := 0.
Definition TF_kernel_sp : Z := 8.
Definition TF_kernel_trap : Z := 16.
Definition TF_epc : Z := 24.
Definition TF_kernel_hartid : Z := 32.
Definition TF_sp : Z := 48.
Definition TF_a (n : Z) : Z := 112 + 8 * n.
Definition TF_SIZE : Z := 288.

(** ** [kernel/file.h] *)

Inductive ftype : Type := FD_NONE | FD_PIPE | FD_INODE | FD_DEVICE.
#[global] Instance ftype_eq_dec : EqDecision ftype.
Proof. solve_decision. Defined.

Record file : Type := File {
  f_type : ftype;
  f_ref : Z;
  f_readable : Z;
  f_writable : Z;
  f_pipe : Z;
  f_ip : Z;
  f_off : Z;
  f_major : Z
}.

Definition set_ftype x f := File x (f_ref f) (f_readable f) (f_writable f) (f_pipe f) (f_ip f) (f_off f) (f_major f).
Definition set_fref x f := File (f_type f) x (f_readable f) (f_writable f) (f_pipe f) (f_ip f) (f_off f) (f_major f).
Definition set_modes x y f := File (f_type f) (f_ref f) x y (f_pipe f) (f_ip f) (f_off f) (f_major f).
Definition set_fpipe x f := File (f_type f) (f_ref f) (f_readable f) (f_writable f) x (f_ip f) (f_off f) (f_major f).
Definition set_fip x f := File (f_type f) (f_ref f) (f_readable f) (f_writable f) (f_pipe f) x (f_off f) (f_major f).
Definition set_off x f := File (f_type f) (f_ref f) (f_readable f) (f_writable f) (f_pipe f) (f_ip f) x (f_major f).
Definition set_major x f := File (f_type f) (f_ref f) (f_readable f) (f_writable f) (f_pipe f) (f_ip f) (f_off f) x.

Definition CONSOLE : Z := 1.

(** The functions that [devsw] can hold. *)
Inductive devread : Type := ConsoleRead.
Inductive devwrite : Type := ConsoleWrite.
Record devops : Type := Devsw { d_read : option devread; d_write : option devwrite }.

(** ** The memory of a process *)

(** The memory, and the page table in use. *)
Definition uspace : Type := (kmem * Z)%type.
Definition uspace_mem : lens uspace kmem := Lens Datatypes.fst (λ m u, (m, Datatypes.snd u)).

#[global] Instance uspace_user : UserMem uspace := {
  copyout va l := u ← get; zoom uspace_mem (Vm.copyout (Datatypes.snd u) va l (Z.of_nat (length l)));
  copyin va n :=
    u ← get;
    '(r, l) ← zoom uspace_mem (Vm.copyin (Datatypes.snd u) va (Z.of_nat n));
    mret (l, r)
}.

Section state.
  Context `{Platform} {T : Type} `{Store T}.

Abbreviation fstate := (fst (T := T) (U := uspace)).

(** [cur] is the process that runs, whose fields are in [procs].  A pipe is
    named by the address of its page. *)
Record kst : Type := Kst {
  km : kmem;
  procs : Z → proc;
  initproc : Z;
  nextpid : Z;
  first : Z;
  cur : Z;
  ticks : Z;
  ftable : Z → file;
  pipes : Z → Pipe.pipe;
  devsw : Z → devops;
  console : Console.cons;
  tty : Uart.uart (D := uart_dev);
  prs : Printf.prst;
  ksb : superblock;
  kitable : Z → inode;
  kstore : T
}.

Definition set_km x s := Kst x (procs s) (initproc s) (nextpid s) (first s) (cur s) (ticks s) (ftable s) (pipes s) (devsw s) (console s) (tty s) (prs s) (ksb s) (kitable s) (kstore s).
Definition set_procs x s := Kst (km s) x (initproc s) (nextpid s) (first s) (cur s) (ticks s) (ftable s) (pipes s) (devsw s) (console s) (tty s) (prs s) (ksb s) (kitable s) (kstore s).
Definition set_initproc x s := Kst (km s) (procs s) x (nextpid s) (first s) (cur s) (ticks s) (ftable s) (pipes s) (devsw s) (console s) (tty s) (prs s) (ksb s) (kitable s) (kstore s).
Definition set_nextpid x s := Kst (km s) (procs s) (initproc s) x (first s) (cur s) (ticks s) (ftable s) (pipes s) (devsw s) (console s) (tty s) (prs s) (ksb s) (kitable s) (kstore s).
Definition set_first x s := Kst (km s) (procs s) (initproc s) (nextpid s) x (cur s) (ticks s) (ftable s) (pipes s) (devsw s) (console s) (tty s) (prs s) (ksb s) (kitable s) (kstore s).
Definition set_cur x s := Kst (km s) (procs s) (initproc s) (nextpid s) (first s) x (ticks s) (ftable s) (pipes s) (devsw s) (console s) (tty s) (prs s) (ksb s) (kitable s) (kstore s).
Definition set_ticks x s := Kst (km s) (procs s) (initproc s) (nextpid s) (first s) (cur s) x (ftable s) (pipes s) (devsw s) (console s) (tty s) (prs s) (ksb s) (kitable s) (kstore s).
Definition set_ftable x s := Kst (km s) (procs s) (initproc s) (nextpid s) (first s) (cur s) (ticks s) x (pipes s) (devsw s) (console s) (tty s) (prs s) (ksb s) (kitable s) (kstore s).
Definition set_pipes x s := Kst (km s) (procs s) (initproc s) (nextpid s) (first s) (cur s) (ticks s) (ftable s) x (devsw s) (console s) (tty s) (prs s) (ksb s) (kitable s) (kstore s).
Definition set_devsw x s := Kst (km s) (procs s) (initproc s) (nextpid s) (first s) (cur s) (ticks s) (ftable s) (pipes s) x (console s) (tty s) (prs s) (ksb s) (kitable s) (kstore s).
Definition set_console x s := Kst (km s) (procs s) (initproc s) (nextpid s) (first s) (cur s) (ticks s) (ftable s) (pipes s) (devsw s) x (tty s) (prs s) (ksb s) (kitable s) (kstore s).
Definition set_tty x s := Kst (km s) (procs s) (initproc s) (nextpid s) (first s) (cur s) (ticks s) (ftable s) (pipes s) (devsw s) (console s) x (prs s) (ksb s) (kitable s) (kstore s).
Definition set_prs x s := Kst (km s) (procs s) (initproc s) (nextpid s) (first s) (cur s) (ticks s) (ftable s) (pipes s) (devsw s) (console s) (tty s) x (ksb s) (kitable s) (kstore s).
Definition set_fs (x : fstate) s := Kst (Datatypes.fst (umem x)) (procs s) (initproc s) (nextpid s) (first s) (cur s) (ticks s) (ftable s) (pipes s) (devsw s) (console s) (tty s) (prs s) (sb x) (itable x) (store x).

Definition myproc (s : kst) : proc := procs s (cur s).

(** The file system as the process that runs sees it. *)
Definition get_fs (s : kst) : fstate :=
  Fst (ksb s) (kitable s) (p_pid (myproc s)) (p_cwd (myproc s)) (kstore s) (km s, p_pagetable (myproc s)).

(** ** Sleeping and waking *)

(** [wakeup(c)] of [kernel/proc.c], on the table; see [wakeup_wakes] in Proc. *)
Definition woken (me : Z) (c : chan) (f : Z → proc) : Z → proc := λ i,
  if (0 <=? i) && (i <? NPROC) && negb (i =? me) && bool_decide (p_state (f i) = SLEEPING) &&
     bool_decide (p_chan (f i) = Some c)
  then set_state RUNNABLE (f i) else f i.

(** Wake for each [wakeup] that a component has made. *)
Definition deliver (t : trace) (s : kst) : kst :=
  foldl (λ s e, match e with EvWakeup c => set_procs (woken (cur s) c (procs s)) s | _ => s end) s t.

(** The first half of [sleep], until the process gives up the CPU. *)
Definition fall_asleep (c : chan) (s : kst) : kst :=
  set_procs (upd (procs s) (cur s) (set_state SLEEPING (set_chan (Some c) (myproc s)))) s.

(** Run a handler of a component. *)
Definition lift {T' A} (l : lens kst T') (m : M T' A) : M kst A := λ s,
  match zoom l m s with
  | Done a s t => Done a (deliver t s) t
  | Panicked msg s t => Panicked msg (deliver t s) t
  | Sleeping c k s t => Sleeping c k (fall_asleep c (deliver t s)) t
  | Switched s t => Switched (deliver t s) t
  | Undef why => Undef why
  | NoFuel => NoFuel
  end.

(** [sleep(c, l)] of [kernel/proc.c]: the process does not go on. *)
Definition sleep {A} (c : chan) (l : lockid) : M kst A := λ s,
  Sleeping c l (fall_asleep c s) [EvAcquire (LkProc (cur s)); EvRelease l; EvSleep c l].
(** The same, when a component has recorded the call. *)
Definition asleep {A} (c : chan) (l : lockid) : M kst A := λ s, Sleeping c l (fall_asleep c s) [].

(** [sched()], when the process never runs again. *)
Definition switch {A} : M kst A := λ s, Switched s [].

Definition in_km {A} (m : M kmem A) : M kst A := zoom (Lens km set_km) m.
Definition in_fs {A} (m : M fstate A) : M kst A := lift (Lens get_fs set_fs) m.
Definition in_pipe {A} (pi : Z) (m : M Pipe.pipe A) : M kst A :=
  lift (Lens (λ s, pipes s pi) (λ p s, set_pipes (upd (pipes s) pi p) s)) m.
Definition in_console {A} (m : M Console.cons A) : M kst A := lift (Lens console set_console) m.
Definition in_tty {A} (m : M Uart.uart A) : M kst A := lift (Lens tty set_tty) m.
Definition in_prs {A} (m : M Printf.prst A) : M kst A := lift (Lens prs set_prs) m.

Definition begin_op : M kst unit := in_fs (in_store Tx.begin_op).
Definition end_op : M kst unit := in_fs (in_store Tx.end_op).

(** Fields of processes, files and trap frames. *)
Definition pfld {A} (f : proc → A) (p : Z) : M kst A := gets (λ s, f (procs s p)).
Definition with_proc (p : Z) (f : proc → proc) : M kst unit :=
  modify (λ s, set_procs (upd (procs s) p (f (procs s p))) s).
Definition ffld {A} (f : file → A) (x : Z) : M kst A := gets (λ s, f (ftable s x)).
Definition with_file (x : Z) (f : file → file) : M kst unit :=
  modify (λ s, set_ftable (upd (ftable s) x (f (ftable s x))) s).
Definition tf_get (p off : Z) : M kst Z :=
  tf ← pfld p_trapframe p;
  in_km (load64 (tf + off)).
Definition tf_set (p off v : Z) : M kst unit :=
  tf ← pfld p_trapframe p;
  in_km (store64 (tf + off) v).

(** [printf], with the format as a string. *)
Definition kprintf (fmt : string) (args : list arg) : M kst unit := in_prs (printf (ascii_bytes fmt) args).
End state.

Arguments kst {_} T.
