(* ===== verification/Proc.v ===== *)
(** * Processes, [kernel/proc.c]

    The process table: allocation and reclamation, memory size, waiting,
    killing and waking.  [fork], [exit] and the first process are in Life,
    the scheduler is in Sched. *)

From S2P Require Import Prelude Riscv Memory Locks Kalloc Vm Printf Disk Tx Fs Kernel.

Section code.
  Context `{Platform} {T : Type} `{Store T}.
  Implicit Types p pp np : Z.

(** ** The process table *)

Fixpoint procinit_loop (k : nat) p : M (kst T) unit :=
  match k with
  | O => mret tt
  | S k =>
      initlock (LkProc p);;
      with_proc p (set_state UNUSED);;
      with_proc p (set_kstack (KSTACK p));;
      procinit_loop k (p + 1)
  end.

Definition procinit : M (kst T) unit :=
  initlock LkPid;;
  initlock LkWait;;
  procinit_loop (Z.to_nat NPROC) 0.

(** [nextpid] is an [int]: its overflow is undefined. *)
Definition allocpid : M (kst T) Z :=
  acquire LkPid;;
  pid ← gets nextpid;
  if pid + 1 <? 2 ^ 31 then
    modify (set_nextpid (pid + 1));;
    release LkPid;;
    mret pid
  else undef "int overflow".

(** ** Page tables of processes *)

Definition proc_pagetable (trapframe : Z) : M kmem Z :=
  pagetable ← uvmcreate;
  if pagetable =? 0 then mret 0
  else
    r ← mappages pagetable TRAMPOLINE PGSIZE trampoline (Z.lor PTE_R PTE_X);
    if r <? 0 then
      uvmfree kend pagetable 0;;
      mret 0
    else
      r ← mappages pagetable TRAPFRAME PGSIZE trapframe (Z.lor PTE_R PTE_W);
      if r <? 0 then
        uvmunmap kend pagetable TRAMPOLINE 1 false;;
        uvmfree kend pagetable 0;;
        mret 0
      else mret pagetable.

Definition proc_freepagetable (pagetable sz : Z) : M kmem unit :=
  uvmunmap kend pagetable TRAMPOLINE 1 false;;
  uvmunmap kend pagetable TRAPFRAME 1 false;;
  uvmfree kend pagetable sz.

(** ** Allocation *)

Definition freeproc p : M (kst T) unit :=
  tf ← pfld p_trapframe p;
  (if truthy tf then in_km (kfree kend tf) else mret tt);;
  with_proc p (set_trapframe 0);;
  pt ← pfld p_pagetable p;
  sz ← pfld p_sz p;
  (if truthy pt then in_km (proc_freepagetable pt sz) else mret tt);;
  with_proc p (set_pagetable 0);;
  with_proc p (set_sz 0);;
  with_proc p (set_pid 0);;
  with_proc p (set_parent NULL);;
  with_proc p (λ x, set_name (put_at (p_name x) 0 [0]) x);;
  with_proc p (set_chan None);;
  with_proc p (set_killed 0);;
  with_proc p (set_xstate 0);;
  with_proc p (set_state UNUSED).

(** The loop of [allocproc], until [goto found]. *)
Fixpoint find_unused_proc (k : nat) p : M (kst T) Z :=
  match k with
  | O => mret NULL
  | S k =>
      acquire (LkProc p);;
      st ← pfld p_state p;
      if bool_decide (st = UNUSED) then mret p
      else release (LkProc p);; find_unused_proc k (p + 1)
  end.

Definition allocproc : M (kst T) Z :=
  p ← find_unused_proc (Z.to_nat NPROC) 0;
  if p =? NULL then mret NULL
  else
    pid ← allocpid;
    with_proc p (set_pid pid);;
    with_proc p (set_state USED);;
    tf ← in_km kalloc;
    with_proc p (set_trapframe tf);;
    if tf =? 0 then
      freeproc p;;
      release (LkProc p);;
      mret NULL
    else
      pt ← in_km (proc_pagetable tf);
      with_proc p (set_pagetable pt);;
      if pt =? 0 then
        freeproc p;;
        release (LkProc p);;
        mret NULL
      else
        with_proc p (λ x, set_context (Context_ forkret_pc (u64 (p_kstack x + PGSIZE)) (replicate 12 0)) x);;
        mret p.

(** ** Memory *)

Definition growproc (n : Z) : M (kst T) Z :=
  p ← gets cur;
  sz ← pfld p_sz p;
  pt ← pfld p_pagetable p;
  if n >? 0 then
    sz ← in_km (uvmalloc kend pt sz (u64 (sz + n)) PTE_W);
    if sz =? 0 then mret (-1)
    else with_proc p (set_sz sz);; mret 0
  else if n <? 0 then
    sz ← in_km (uvmdealloc kend pt sz (u64 (sz + n)));
    with_proc p (set_sz sz);;
    mret 0
  else
    with_proc p (set_sz sz);;
    mret 0.

(** [copyout] and [copyin] on the memory of the process that runs. *)
Definition copyout_cur (va : Z) (bytes : list Z) : M (kst T) Z :=
  s ← get;
  in_km (Vm.copyout (p_pagetable (myproc s)) va bytes (Z.of_nat (length bytes))).
Definition copyin_cur (va n : Z) : M (kst T) (Z * list Z) :=
  s ← get;
  in_km (Vm.copyin (p_pagetable (myproc s)) va n).

(** ** Waking and killing *)

Fixpoint wakeup_loop (k : nat) p (c : chan) : M (kst T) unit :=
  match k with
  | O => mret tt
  | S k =>
      me ← gets cur;
      (if negb (p =? me) then
         acquire (LkProc p);;
         x ← pfld id p;
         (if bool_decide (p_state x = SLEEPING) && bool_decide (p_chan x = Some c)
          then with_proc p (set_state RUNNABLE) else mret tt);;
         release (LkProc p)
       else mret tt);;
      wakeup_loop k (p + 1) c
  end.
Definition wakeup (c : chan) : M (kst T) unit := wakeup_loop (Z.to_nat NPROC) 0 c.

(** The second half of [sleep], when the process runs again. *)
Definition sleep_resume (l : lockid) : M (kst T) unit :=
  p ← gets cur;
  with_proc p (set_chan None);;
  release (LkProc p);;
  acquire l.

Fixpoint kill_loop (k : nat) p (pid : Z) : M (kst T) Z :=
  match k with
  | O => mret (-1)
  | S k =>
      acquire (LkProc p);;
      x ← pfld id p;
      if p_pid x =? pid then
        with_proc p (set_killed 1);;
        (if bool_decide (p_state x = SLEEPING) then with_proc p (set_state RUNNABLE) else mret tt);;
        release (LkProc p);;
        mret 0
      else
        release (LkProc p);;
        kill_loop k (p + 1) pid
  end.
Definition kill (pid : Z) : M (kst T) Z := kill_loop (Z.to_nat NPROC) 0 pid.

Definition setkilled p : M (kst T) unit :=
  acquire (LkProc p);;
  with_proc p (set_killed 1);;
  release (LkProc p).

Definition killed p : M (kst T) Z :=
  acquire (LkProc p);;
  k ← pfld p_killed p;
  release (LkProc p);;
  mret k.

(** ** Children *)

Fixpoint reparent_loop (k : nat) pp p : M (kst T) unit :=
  match k with
  | O => mret tt
  | S k =>
      par ← pfld p_parent pp;
      (if par =? p then
         init ← gets initproc;
         with_proc pp (set_parent init);;
         wakeup (ChProc init)
       else mret tt);;
      reparent_loop k (pp + 1) p
  end.
Definition reparent p : M (kst T) unit := reparent_loop (Z.to_nat NPROC) 0 p.

(** The scan of [wait]: the value to return, if there is one, and [havekids]. *)
Fixpoint wait_scan (k : nat) pp p (addr : Z) (havekids : bool) : M (kst T) (option Z * bool) :=
  match k with
  | O => mret (None, havekids)
  | S k =>
      par ← pfld p_parent pp;
      if par =? p then
        acquire (LkProc pp);;
        x ← pfld id pp;
        if bool_decide (p_state x = ZOMBIE) then
          r ← (if negb (addr =? 0) then copyout_cur addr (le_bytes 4 (p_xstate x)) else mret 0);
          if r <? 0 then
            release (LkProc pp);;
            release LkWait;;
            mret (Some (-1), true)
          else
            freeproc pp;;
            release (LkProc pp);;
            release LkWait;;
            mret (Some (p_pid x), true)
        else
          release (LkProc pp);;
          wait_scan k (pp + 1) p addr true
      else wait_scan k (pp + 1) p addr havekids
  end.

(** One round of the [for(;;)]: a process that sleeps starts the next one
    when it is woken. *)
Definition wait_round (addr : Z) : M (kst T) Z :=
  p ← gets cur;
  '(r, havekids) ← wait_scan (Z.to_nat NPROC) 0 p addr false;
  match r with
  | Some r => mret r
  | None =>
      k ← (if (havekids : bool) then killed p else mret 0);
      if negb havekids || truthy k then
        release LkWait;;
        mret (-1)
      else sleep (ChProc p) LkWait
  end.

Definition wait (addr : Z) : M (kst T) Z :=
  acquire LkWait;;
  wait_round addr.

(** ** Debugging *)

Definition state_name (st : procstate) : string :=
  match st with
  | UNUSED => "unused"
  | USED => "used"
  | SLEEPING => "sleep "
  | RUNNABLE => "runble"
  | RUNNING => "run   "
  | ZOMBIE => "zombie"
  end.

Fixpoint procdump_loop (k : nat) p : M (kst T) unit :=
  match k with
  | O => mret tt
  | S k =>
      x ← pfld id p;
      (if bool_decide (p_state x = UNUSED) then mret tt
       else
         kprintf "%d %s %s"
           [AInt (p_pid x); AStr (Some (ascii_bytes (state_name (p_state x)))); AStr (Some (field 16 (p_name x)))];;
         in_prs (printf [10] []));;
      procdump_loop k (p + 1)
  end.
Definition procdump : M (kst T) unit :=
  in_prs (printf [10] []);;
  procdump_loop (Z.to_nat NPROC) 0.

Definition print_hello (n : Z) : M (kst T) unit :=
  in_prs (printf (ascii_bytes "Hello from the kernel space %d" ++ [10]) [AInt n]).

(** ** [wakeup] *)

(** One round of the loop: process [p] is treated as [woken] says. *)
Lemma wakeup_round k p c (s : kst T) : 0 ≤ p < NPROC →
  ∃ f t, (∀ i, f i = if decide (i = p) then woken (cur s) c (procs s) i else procs s i) ∧
    wakeup_loop (S k) p c s = after t (wakeup_loop k (p + 1) c (set_procs f s)).
Proof.
  intros Hp. cbn [wakeup_loop]. unfold woken. destruct (Z.eqb_spec p (cur s)) as [Ec|Ec].
  - exists (procs s), []. split.
    + intros i. case_decide; [subst i|done]. rewrite Ec, Z.eqb_refl. cbn [negb]. by rewrite andb_false_r.
    + unfold mbind, M_bind. cbn. rewrite Ec, Z.eqb_refl. cbn. by destruct s, (wakeup_loop _ _ _ _).
  - set (b := bool_decide (p_state (procs s p) = SLEEPING) && bool_decide (p_chan (procs s p) = Some c)).
    exists (if b then upd (procs s) p (set_state RUNNABLE (procs s p)) else procs s), [EvAcquire (LkProc p); EvRelease (LkProc p)]. split.
    + intros i. destruct (decide (i = p)) as [->|Hi]; [|destruct b; [by apply upd_ne|done]].
      rewrite (proj2 (Z.leb_le 0 p)), (proj2 (Z.ltb_lt p NPROC)), (proj2 (Z.eqb_neq p (cur s))) by lia. cbn [andb negb]. fold b.
      destruct b; [apply upd_eq|done].
    + unfold mbind, M_bind. cbn. rewrite (proj2 (Z.eqb_neq p (cur s))) by done. cbn. fold b. by destruct b, s; cbn; destruct (wakeup_loop _ _ _ _).
Qed.

Lemma wakeup_loop_run k c : ∀ p (s : kst T), 0 ≤ p → p + Z.of_nat k ≤ NPROC →
  ∃ f t, wakeup_loop k p c s = Done tt (set_procs f s) t ∧
    ∀ i, f i = if (p <=? i) && (i <? p + Z.of_nat k) then woken (cur s) c (procs s) i else procs s i.
Proof.
  induction k as [|k IH]; intros p s Hp Hk.
  - exists (procs s), []. split; [by destruct s|]. intros i. by if_false.
  - destruct (wakeup_round k p c s) as (f & t & Hf & ->); [lia|]. destruct (IH (p + 1) (set_procs f s)) as (g & t' & -> & Hg); [lia|lia|].
    exists g, (t ++ t'). split; [done|]. intros i. rewrite Hg. cbn [procs cur set_procs]. unfold woken at 1. rewrite Hf. fold (woken (cur s) c (procs s)).
    destruct (decide (i = p)) as [->|Hi].
    + rewrite (proj2 (Z.leb_gt (p + 1) p)) by lia. cbn [andb]. by if_true.
    + fold (woken (cur s) c (procs s) i). replace (p + 1 <=? i) with (p <=? i) by lia.
      replace (p + 1 + Z.of_nat k) with (p + Z.of_nat (S k)) by lia. done.
Qed.

(** [wakeup] makes runnable every process that sleeps on the channel, but the
    one that runs, and changes nothing else. *)
Theorem wakeup_wakes c (s : kst T) :
  ∃ f t, wakeup c s = Done tt (set_procs f s) t ∧ ∀ i, f i = woken (cur s) c (procs s) i.
Proof.
  destruct (wakeup_loop_run (Z.to_nat NPROC) c 0 s) as (f & t & E & Hf); [lia|done|]. exists f, t. split; [exact E|].
  intros i. rewrite Hf. unfold woken. rewrite Z.add_0_l, Z2Nat.id by done. destruct ((0 <=? i) && (i <? NPROC)); done.
Qed.
End code.
