(* ===== verification/ProcVm.v ===== *)
(** * Address spaces of processes

    [space_ok] describes the page table of a process: user pages below its
    size, the trampoline and the trap frame above, nothing else.
    [proc_pagetable] makes such a table or gives every page back, and
    [proc_freepagetable] gives every page of it back. *)

From S2P Require Import Prelude Riscv Memory Disk Tx Fs FsWrite.
From S2P Require Import Kalloc Vm VmTable VmUser VmFree VmCopy VmBoot.
From S2P Require Import Locks Printf Disk Tx Fs Kernel Proc.

Section space.
  Context `{Platform}.
  Hypothesis Hkend : 0 < kend.
  Hypothesis Htramp : is_pa trampoline ∧ trampoline + 2 * PGSIZE ≤ 2 ^ 56.
  Implicit Types (s : kmem) (G : gmap Z (list Z)) (U : gmap Z Z) (l : list Z).

Record space_ok s (root tf sz : Z) G U l : Prop := {
  sp_uvm : uvm_ok kend s root G U l;
  sp_sz : 0 ≤ sz ≤ TRAPFRAME;
  sp_mapped va : va mod PGSIZE = 0 → 0 ≤ va < PGROUNDUP sz → is_Some (U !! va);
  sp_only va :
    0 ≤ va < 2 ^ 39 → pte_valid (leaf (mem s) root va) = true →
    PGROUNDDOWN va < PGROUNDUP sz ∨ PGROUNDDOWN va = TRAMPOLINE ∨ PGROUNDDOWN va = TRAPFRAME;
  sp_tramp : leaf (mem s) root TRAMPOLINE = mkpte trampoline (Z.lor PTE_R PTE_X);
  sp_frame : leaf (mem s) root TRAPFRAME = mkpte tf (Z.lor PTE_R PTE_W);
  sp_user va : U !! va ≠ None → va < TRAPFRAME
}.

(** ** Pages that are not user pages *)

(** Mapping one page that is not in [U]. *)
Lemma map_special root a pa perm s G U l :
  uvm_ok kend s root G U l → a mod PGSIZE = 0 → 0 ≤ a → a + PGSIZE ≤ MAXVA → U !! a = None →
  is_pa pa → pa + 2 * PGSIZE ≤ 2 ^ 56 → 0 ≤ perm < 2 ^ 10 → pte_valid (leaf (mem s) root a) = false →
  returns (mappages root a PGSIZE pa perm) s (λ r s' _, ∃ G' l',
    uvm_ok kend s' root G' U l' ∧ (∀ p, own G' U l' p ↔ own G U l p) ∧ keeps U s s' ∧ framed (own G U l) s s' ∧
    ((r = 0 ∧ ∀ x, 0 ≤ x < 2 ^ 39 →
        leaf (mem s') root x = if PGROUNDDOWN x =? a then mkpte pa perm else leaf (mem s) root x) ∨
     (r = -1 ∧ ∀ x, 0 ≤ x < 2 ^ 39 → leaf (mem s') root x = leaf (mem s) root x))).
Proof using Hkend.
  intros Hok Hal Ha Hmax HU Hpa Hpa2 Hperm Hun.
  assert (npages a PGSIZE = 1) as Hn1.
  { unfold npages. rewrite (PGROUNDDOWN_in a), (PGROUNDDOWN_aligned a) by (done || lia). by rewrite Z.sub_diag. }
  eapply returns_mono; [apply (mappages_run kend Hkend root a PGSIZE pa perm s G l (uvm_vm _ _ _ _ _ _ Hok)); try done; try lia|].
  { intros x Hx. rewrite (leaf_page _ _ x a); [done|]. by rewrite (PGROUNDDOWN_in a), (PGROUNDDOWN_aligned a). }
  intros r s' t (G' & l' & k & Hev & Hleaf & Hr). rewrite Hn1, (PGROUNDDOWN_aligned a) in * by done.
  assert (∀ va, is_Some (U !! va) → leaf (mem s') root va = leaf (mem s) root va) as Hkeep.
  { intros va [pv Hva]. destruct (uvm_leaf _ _ _ _ _ _ Hok va pv Hva) as (Hvaal & Hvr & _).
    rewrite Hleaf by lia. destruct Hr as [[_ ->]|(_ & Hk & _)]; [|replace k with 0 by lia; apply map_leaf_0].
    rewrite map_leaf_1, (PGROUNDDOWN_aligned va), (PGROUNDDOWN_aligned a) by done.
    destruct (Z.eqb_spec va a) as [->|]; [congruence|done]. }
  destruct (evolves_uvm kend s s' root G G' U l l' Hok Hev Hkeep) as (H1 & H2 & H3 & H4 & _).
  exists G', l'. split_and!; try done. destruct Hr as [[-> ->]|(-> & Hk & _)]; [left|right]; (split; [done|]); intros x Hx; rewrite Hleaf by done.
  - by rewrite map_leaf_1, (PGROUNDDOWN_aligned a) by done.
  - replace k with 0 by lia. apply map_leaf_0.
Qed.

(** Unmapping one page that is not in [U], without freeing it. *)
Lemma unmap_special root a s G U l :
  uvm_ok kend s root G U l → a mod PGSIZE = 0 → 0 ≤ a → a + PGSIZE ≤ MAXVA → U !! a = None →
  pte_valid (leaf (mem s) root a) = true → PTE_FLAGS (leaf (mem s) root a) ≠ PTE_V →
  returns (uvmunmap kend root a 1 false) s (λ _ s' _,
    uvm_ok kend s' root G U l ∧ keeps U s s' ∧ framed (own G U l) s s' ∧
    ∀ x, 0 ≤ x < 2 ^ 39 → leaf (mem s') root x = if PGROUNDDOWN x =? a then 0 else leaf (mem s) root x).
Proof using Hkend.
  intros Hok Hal Ha Hmax HU Hv Hfl. unfold uvmunmap. rewrite Hal. cbn [Z.eqb negb].
  rewrite (u64_small (1 * PGSIZE)), u64_small by lia. change (Z.to_nat 1) with 1%nat. cbn [uvmunmap_loop]. if_true.
  destruct (leaf_valid_addr _ _ _ Hv) as (pte & Hpte & Hld).
  call (apply walk_noalloc; lia). rewrite Hpte. simpl default.
  assert (pte ≠ 0).
  { apply (pte_addr_nonzero kend Hkend (mem s) root G a); [apply (vm_pt _ _ _ _ _ (uvm_vm _ _ _ _ _ _ Hok))|done]. }
  if_false. call reflexivity. rewrite Hld. unfold pte_valid, truthy in Hv. bool_prop. if_false. if_false. do 2 call reflexivity.
  destruct (uvm_clear kend s root G U l a pte Hok Hal ltac:(lia) HU Hpte) as (H1 & H2 & H3 & H4).
  rewrite u64_small by lia. if_false. apply returns_ret. split_and!; try done.
  intros x Hx. cbn [mem set_mem] in *. rewrite H2 by done. unfold clear_leaf.
  destruct (PGROUNDDOWN_bounds x) as [Hxal _]. destruct (Z.eqb_spec (PGROUNDDOWN x) a) as [->|]; [by if_true|].
  destruct (pages_apart (PGROUNDDOWN x) a); try done; by if_false.
Qed.
(** ** [proc_freepagetable] *)

Lemma special_facts pa perm :
  is_pa pa → perm = Z.lor PTE_R PTE_X ∨ perm = Z.lor PTE_R PTE_W →
  pte_valid (mkpte pa perm) = true ∧ PTE_FLAGS (mkpte pa perm) ≠ PTE_V ∧ 0 ≤ perm < 2 ^ 10.
Proof.
  intros Hpa Hperm. assert (0 ≤ perm < 2 ^ 10) as Hr by (destruct Hperm as [->| ->]; split; done).
  destruct (mkpte_facts pa perm Hpa Hr) as (_ & -> & _ & ->). split; [done|]. split; [|done].
  by destruct Hperm as [->| ->].
Qed.

Lemma space_special s root tf sz G U l a :
  space_ok s root tf sz G U l → is_pa tf → a = TRAMPOLINE ∨ a = TRAPFRAME →
  a mod PGSIZE = 0 ∧ 0 ≤ a ∧ a + PGSIZE ≤ MAXVA ∧ U !! a = None ∧
  pte_valid (leaf (mem s) root a) = true ∧ PTE_FLAGS (leaf (mem s) root a) ≠ PTE_V.
Proof using Htramp.
  intros Hsp Htf Ha. destruct (special_facts trampoline (Z.lor PTE_R PTE_X)) as (H1 & H2 & _); [apply Htramp|by left|].
  destruct (special_facts tf (Z.lor PTE_R PTE_W)) as (H3 & H4 & _); [done|by right|].
  assert (U !! a = None) as HU.
  { destruct (U !! a) eqn:E; [|done]. assert (a < TRAPFRAME) by (apply (sp_user _ _ _ _ _ _ _ Hsp); by rewrite E). lia. }
  destruct Ha as [->| ->]; rewrite ?(sp_tramp _ _ _ _ _ _ _ Hsp), ?(sp_frame _ _ _ _ _ _ _ Hsp); (split; [done|]);
    (split; [lia|]); (split; [lia|]); done.
Qed.

Lemma PGROUNDDOWN_special a : a = TRAMPOLINE ∨ a = TRAPFRAME → PGROUNDDOWN a = a ∧ 0 ≤ a < 2 ^ 39.
Proof. intros [->| ->]; (split; [apply PGROUNDDOWN_aligned; done|lia]). Qed.

Lemma proc_freepagetable_run s root tf sz G U l :
  space_ok s root tf sz G U l → is_pa tf →
  returns (proc_freepagetable root sz) s (λ _ s' _, returned kend s s' G U l).
Proof using Hkend Htramp.
  intros Hsp Htf. unfold proc_freepagetable.
  destruct (space_special _ _ _ _ _ _ _ TRAMPOLINE Hsp Htf) as (A1 & A2 & A3 & A4 & A5 & A6); [by left|].
  call_spec (unmap_special root TRAMPOLINE s G U l (sp_uvm _ _ _ _ _ _ _ Hsp)); try done.
  intros [] s1 t1 (Hok1 & _ & Hf1 & Hl1).
  destruct (space_special _ _ _ _ _ _ _ TRAPFRAME Hsp Htf) as (B1 & B2 & B3 & B4 & B5 & B6); [by right|].
  destruct (PGROUNDDOWN_special TRAPFRAME) as [Hpg Hrg]; [by right|].
  assert (leaf (mem s1) root TRAPFRAME = leaf (mem s) root TRAPFRAME) as Elf.
  { rewrite Hl1, Hpg by done. by if_false. }
  call_spec (unmap_special root TRAPFRAME s1 G U l Hok1); try done; [by rewrite Elf|by rewrite Elf|].
  intros [] s2 t2 (Hok2 & _ & Hf2 & Hl2).
  eapply returns_mono; [apply (uvmfree_run kend Hkend root sz s2 G U l Hok2)|].
  - pose proof (sp_sz _ _ _ _ _ _ _ Hsp). lia.
  - apply (sp_mapped _ _ _ _ _ _ _ Hsp).
  - intros va Hva. rewrite Hl2, Hl1 by done. destruct (Z.eqb_spec (PGROUNDDOWN va) TRAPFRAME); [done|].
    destruct (Z.eqb_spec (PGROUNDDOWN va) TRAMPOLINE); [done|]. intros Hv.
    destruct (sp_only _ _ _ _ _ _ _ Hsp va Hva Hv) as [?|[?|?]]; done.
  - intros [] s3 t3 (l' & Hk & Hl & Hf3). exists l'. split; [done|]. split; [done|].
    eapply framed_trans; [exact Hf1|]. by eapply framed_trans.
Qed.

(** ** [proc_pagetable] *)

(** Every page of [l] is free again. *)
Definition refunded s s' l : Prop := ∃ l', kmem_inv kend s' l' ∧ (∀ p, p ∈ l' ↔ p ∈ l) ∧ framed (.∈ l) s s'.

Lemma returned_refunded s0 s s' G U l l0 :
  returned kend s s' G U l → (∀ p, own G U l p ↔ p ∈ l0) → framed (.∈ l0) s0 s → refunded s0 s' l0.
Proof.
  intros (l' & Hk & Hl & Hf) Ho Hf0. exists l'. split; [done|]. split; [intros p; by rewrite Hl|].
  eapply framed_trans; [done|]. eapply framed_mono; [|done]. intros p. by rewrite Ho.
Qed.

Lemma uvmcreate_none s : kmem_inv kend s [] → uvmcreate s = Done 0 s [EvAcquire LkKmem; EvRelease LkKmem].
Proof. intros Hk. unfold uvmcreate. by rewrite (bind_done _ _ _ _ _ _ (kalloc_empty kend s Hk)). Qed.

(** A table without valid entries. *)
Lemma blank_free s0 s root G l l0 :
  uvm_ok kend s root G ∅ l → (∀ x, 0 ≤ x < 2 ^ 39 → leaf (mem s) root x = 0) →
  (∀ p, own G ∅ l p ↔ p ∈ l0) → framed (.∈ l0) s0 s →
  returns (uvmfree kend root 0) s (λ _ s' _, refunded s0 s' l0).
Proof using Hkend.
  intros Hok Hz Ho Hf. eapply returns_mono; [apply (uvmfree_run kend Hkend root 0 s G ∅ l Hok)|].
  - lia.
  - intros va _. change (PGROUNDUP 0) with 0. lia.
  - intros va Hva. by rewrite Hz.
  - intros [] s' t Hr. by eapply returned_refunded.
Qed.

Lemma framed_step s0 s s1 G G1 l l1 l0 :
  (∀ p, own G ∅ l p ↔ p ∈ l0) → framed (.∈ l0) s0 s →
  (∀ p, own G1 ∅ l1 p ↔ own G ∅ l p) → framed (own G ∅ l) s s1 →
  (∀ p, own G1 ∅ l1 p ↔ p ∈ l0) ∧ framed (.∈ l0) s0 s1.
Proof.
  intros Ho Hf Ho1 Hf1. split; [intros p; by rewrite Ho1, Ho|].
  eapply framed_trans; [done|]. eapply framed_mono; [|done]. intros p. by rewrite Ho.
Qed.

(** What [proc_pagetable] promises from the free list [l0]. *)
Definition new_space s0 s' (tf r : Z) l0 : Prop :=
  (r = 0 ∧ refunded s0 s' l0) ∨
  (r ≠ 0 ∧ ∃ G l', space_ok s' r tf 0 G ∅ l' ∧ (∀ p, own G ∅ l' p ↔ p ∈ l0) ∧ framed (.∈ l0) s0 s').

(** The trap frame, when the trampoline is the only page. *)
Lemma map_frame s0 s root tf G l l0 :
  uvm_ok kend s root G ∅ l →
  (∀ x, 0 ≤ x < 2 ^ 39 →
     leaf (mem s) root x = if PGROUNDDOWN x =? TRAMPOLINE then mkpte trampoline (Z.lor PTE_R PTE_X) else 0) →
  (∀ p, own G ∅ l p ↔ p ∈ l0) → framed (.∈ l0) s0 s → root ≠ 0 → is_pa tf → tf + 2 * PGSIZE ≤ 2 ^ 56 →
  returns (r ← mappages root TRAPFRAME PGSIZE tf (Z.lor PTE_R PTE_W);
    if r <? 0 then uvmunmap kend root TRAMPOLINE 1 false;; uvmfree kend root 0;; mret 0 else mret root) s
    (λ r s' _, new_space s0 s' tf r l0).
Proof using Hkend Htramp.
  intros Hok Hl Ho Hf Hnz Htf Htf2.
  destruct (special_facts trampoline (Z.lor PTE_R PTE_X)) as (P1 & P2 & P3); [apply Htramp|by left|].
  destruct (special_facts tf (Z.lor PTE_R PTE_W)) as (_ & _ & Q3); [done|by right|].
  destruct (PGROUNDDOWN_special TRAMPOLINE) as [Hpg1 Hrg1]; [by left|].
  destruct (PGROUNDDOWN_special TRAPFRAME) as [Hpg2 Hrg2]; [by right|].
  call_spec (map_special root TRAPFRAME tf _ s G ∅ l Hok); try done.
  { rewrite Hl, Hpg2 by done. by if_false. }
  intros r2 s2 t2 (G2 & l2 & Hok2 & Ho2 & _ & Hf2 & Hr2).
  destruct (framed_step s0 s s2 G G2 l l2 l0 Ho Hf Ho2 Hf2) as [Ho2' Hf2'].
  destruct Hr2 as [[-> Hl2]|[-> Hl2]]; simpl.
  - apply returns_ret. right. split; [done|]. exists G2, l2. split; [|done]. split; try done.
    + intros va _. change (PGROUNDUP 0) with 0. lia.
    + intros va Hva. rewrite Hl2, Hl by done. repeat case_if; [by auto..|done].
    + rewrite Hl2, Hl, Hpg1 by done. if_false. by if_true.
    + rewrite Hl2, Hpg2 by done. by if_true.
  - assert (leaf (mem s2) root TRAMPOLINE = mkpte trampoline (Z.lor PTE_R PTE_X)) as El.
    { rewrite Hl2, Hl, Hpg1 by done. by if_true. }
    call_spec (unmap_special root TRAMPOLINE s2 G2 ∅ l2 Hok2); try done; [by rewrite El..|].
    intros [] s3 t3 (Hok3 & _ & Hf3 & Hl3). call_spec (blank_free s0 s3 root G2 l2 l0 Hok3); [|done| |].
    + intros x Hx. rewrite Hl3, Hl2, Hl by done. by repeat case_if.
    + by apply (framed_step s0 s2 s3 G2 G2 l2 l2 l0).
    + intros [] s4 t4 H4. apply returns_ret. by left.
Qed.

(** The two special pages. *)
Lemma map_both s0 s root tf G l l0 :
  uvm_ok kend s root G ∅ l → (∀ x, leaf (mem s) root x = 0) → (∀ p, own G ∅ l p ↔ p ∈ l0) → framed (.∈ l0) s0 s →
  root ≠ 0 → is_pa tf → tf + 2 * PGSIZE ≤ 2 ^ 56 →
  returns (r ← mappages root TRAMPOLINE PGSIZE trampoline (Z.lor PTE_R PTE_X);
    if r <? 0 then uvmfree kend root 0;; mret 0
    else
      r ← mappages root TRAPFRAME PGSIZE tf (Z.lor PTE_R PTE_W);
      if r <? 0 then uvmunmap kend root TRAMPOLINE 1 false;; uvmfree kend root 0;; mret 0
      else mret root) s (λ r s' _, new_space s0 s' tf r l0).
Proof using Hkend Htramp.
  intros Hok Hz Ho Hf Hnz Htf Htf2. destruct Htramp as [Ht1 Ht2].
  destruct (special_facts trampoline (Z.lor PTE_R PTE_X)) as (_ & _ & P3); [done|by left|].
  call_spec (map_special root TRAMPOLINE trampoline _ s G ∅ l Hok); try done; [by rewrite Hz|].
  intros r1 s1 t1 (G1 & l1 & Hok1 & Ho1 & _ & Hf1 & Hr1).
  destruct (framed_step s0 s s1 G G1 l l1 l0 Ho Hf Ho1 Hf1) as [Ho1' Hf1'].
  destruct Hr1 as [[-> Hl1]|[-> Hl1]]; simpl.
  - apply (map_frame s0 s1 root tf G1 l1 l0 Hok1); try done. intros x Hx. by rewrite Hl1, Hz.
  - call_spec (blank_free s0 s1 root G1 l1 l0 Hok1); [|done|done|].
    + intros x Hx. by rewrite Hl1.
    + intros [] s2 t2 H2. apply returns_ret. by left.
Qed.

Lemma proc_pagetable_run s tf l :
  kmem_inv kend s l → is_pa tf → tf + 2 * PGSIZE ≤ 2 ^ 56 →
  returns (proc_pagetable tf) s (λ r s' _, new_space s s' tf r l).
Proof using Hkend Htramp.
  intros Hk Htf Htf2. unfold proc_pagetable. destruct l as [|root l].
  { call (by apply uvmcreate_none). apply returns_ret. left. split; [done|]. by exists []. }
  call_spec (uvmcreate_run kend Hkend s root l Hk). intros r s1 t1 (-> & Hk1 & Hs1 & Hok1 & Hz).
  pose proof (inv_pages _ _ _ Hk) as [Hp _]%Forall_cons_1. pose proof (ram_page_range kend root Hkend Hp). if_false.
  eapply returns_mono; [apply (map_both s s1 root tf _ l (root :: l) Hok1 Hz); try done; [| |lia]|done].
  - intros p. unfold own. rewrite elem_of_cons. split.
    + intros [[path [<- _]%lookup_singleton_Some]|[[va Hva]|?]]; [by left|by rewrite lookup_empty in Hva|by right].
    + intros [->|?]; [left; rewrite lookup_singleton_eq; by eexists|by right; right].
  - eapply framed_page; [by left|done].
Qed.

(** ** Sources of [writei] *)

(** User memory that is mapped can be read by [writei] as a whole. *)
Lemma gives_user {T} (f : fst (T := T) (U := uspace)) va n G U l :
  uvm_ok kend (umem f).1 (umem f).2 G U l → 0 ≤ va → va + Z.of_nat n ≤ MAXVA →
  (∀ x, va ≤ x < va + Z.of_nat n → uaddr (mem (umem f).1) (umem f).2 x ≠ 0) →
  gives f (User va) (ubytes (mem (umem f).1) (umem f).2 va n).
Proof using Hkend.
  intros Hok Hva Hmax Hu f1 tot m E Htot Hm.
  assert (length (ubytes (mem (umem f).1) (umem f).2 va n) = n) as Hlen by apply ubytes_length. rewrite Hlen in Hm.
  assert (Vm.copyin (umem f).2 (va + tot) (Z.of_nat m) (umem f).1 = Done (0, get_at (ubytes (mem (umem f).1) (umem f).2 va n) tot m) (umem f).1 []) as Ec.
  { pose proof (copyin_loop_spec kend Hkend (S (S (Z.to_nat (Z.of_nat m / PGSIZE + 1)))) (umem f).2 (va + tot) (Z.of_nat m) (umem f).1 G U l
      Hok ltac:(lia) ltac:(lia) (copy_fuel (va + tot) (Z.of_nat m) ltac:(lia))) as Hc.
    apply returns_inv in Hc as ([r1 bytes] & s' & t & Ec & -> & -> & j & Hb & Hr). cbn [Datatypes.fst Datatypes.snd] in Hb, Hr.
    destruct Hr as [(-> & Hj & _)|(_ & Hj & Hx)]; [|exfalso; apply (Hu (va + tot + Z.of_nat j)); [lia|done]].
    unfold Vm.copyin. rewrite Ec, Hb. replace j with m by lia. do 2 f_equal. unfold get_at.
    replace n with (Z.to_nat tot + (m + (n - Z.to_nat tot - m)))%nat by lia.
    rewrite ubytes_app, drop_app_length' by (symmetry; apply ubytes_length). rewrite Z2Nat.id, ubytes_app by lia. by rewrite take_app_length' by (symmetry; apply ubytes_length). }
  exists []. split; [|done]. unfold either_copyin, in_umem, zoom, mbind, M_bind. cbn -[Vm.copyin]. rewrite E, u64_small by (unfold_consts; lia).
  unfold mbind, M_bind, zoom. cbn -[Vm.copyin]. rewrite Ec. cbn. rewrite <-E. by destruct f1 as [? ? ? ? ? []].
Qed.
End space.
