(* ===== verification/File.v ===== *)
(** * Open files, [kernel/file.c]

    The table of open files, with the two ends of pipes ([pipealloc] of
    [kernel/pipe.c]) and the console as a device. *)

From S2P Require Import Prelude Riscv Memory Locks Kalloc Vm Console Uart Pipe Printf Disk Tx Fs Kernel Proc.

(** [struct stat] in memory. *)
Definition stat_bytes `{Platform} (st : stat) : list Z :=
  le_bytes 4 (st_dev st) ++ le_bytes 4 (st_ino st) ++ le_bytes 2 (st_type st) ++ le_bytes 2 (st_nlink st) ++
  stat_pad ++ le_bytes 8 (st_size st).

Section code.
  Context `{Platform} {T : Type} `{Store T}.
  Implicit Types f : Z.

(** ** The table *)

Definition fileinit : M (kst T) unit := initlock LkFtable.

Fixpoint filealloc_loop (k : nat) f : M (kst T) Z :=
  match k with
  | O => release LkFtable;; mret NULL
  | S k =>
      r ← ffld f_ref f;
      if r =? 0 then
        with_file f (set_fref 1);;
        release LkFtable;;
        mret f
      else filealloc_loop k (f + 1)
  end.
Definition filealloc : M (kst T) Z :=
  acquire LkFtable;;
  filealloc_loop (Z.to_nat NFILE) 0.

Definition filedup f : M (kst T) Z :=
  acquire LkFtable;;
  r ← ffld f_ref f;
  if r <? 1 then panic "filedup"
  else
    with_file f (set_fref (r + 1));;
    release LkFtable;;
    mret f.

Definition pipe_close (pi writable : Z) : M (kst T) unit :=
  gone ← in_pipe pi (Pipe.pipeclose pi writable);
  if (gone : bool) then in_km (kfree kend pi) else mret tt.

Definition fileclose f : M (kst T) unit :=
  acquire LkFtable;;
  r ← ffld f_ref f;
  if r <? 1 then panic "fileclose"
  else
    with_file f (set_fref (r - 1));;
    if r - 1 >? 0 then release LkFtable
    else
      ff ← ffld id f;
      with_file f (set_fref 0);;
      with_file f (set_ftype FD_NONE);;
      release LkFtable;;
      if bool_decide (f_type ff = FD_PIPE) then pipe_close (f_pipe ff) (f_writable ff)
      else if bool_decide (f_type ff = FD_INODE) || bool_decide (f_type ff = FD_DEVICE) then
        begin_op;;
        in_fs (iput (f_ip ff));;
        end_op
      else mret tt.

(** ** Bytes of the process that runs

    Whether a byte can be copied depends on the page table only, which
    copying to user pages does not change. *)

Definition user_byte (s : kst T) (va : Z) : option Z :=
  match Vm.copyin (p_pagetable (myproc s)) (u64 va) 1 (km s) with
  | Done (0, [b]) _ _ => Some b
  | _ => None
  end.
Definition user_writable (s : kst T) (va : Z) : bool :=
  match Vm.copyout (p_pagetable (myproc s)) (u64 va) [0] 1 (km s) with
  | Done r _ _ => r =? 0
  | _ => false
  end.
Definition is_killed (s : kst T) : bool := truthy (p_killed (myproc s)).

(** One [copyout] for each byte. *)
Fixpoint put_bytes (va : Z) (l : list Z) : M (kst T) unit :=
  match l with
  | [] => mret tt
  | b :: l => copyout_cur (u64 va) [b];; put_bytes (va + 1) l
  end.

(** ** Pipes *)

Definition pipe_write (pi addr n : Z) : M (kst T) Z :=
  s ← get;
  r ← in_pipe pi (Pipe.pipewrite pi (λ i, user_byte s (addr + i)) (λ _, is_killed s) n 0);
  match r with
  | Pipe.Ret v => mret v
  | Pipe.Wait _ => asleep (ChPipeWrite pi) (LkPipe pi)
  end.

Definition pipe_read (pi addr n : Z) : M (kst T) Z :=
  s ← get;
  '(r, out) ← in_pipe pi (Pipe.piperead pi (λ i, user_writable s (addr + i)) (is_killed s) n);
  match r with
  | Pipe.Ret v => put_bytes addr out.*2;; mret v
  | Pipe.Wait _ => asleep (ChPipeRead pi) (LkPipe pi)
  end.

(** [data] starts after the lock, at offset 24 of the page. *)
Definition pipealloc : M (kst T) (option (Z * Z)) :=
  f0 ← filealloc;
  f1 ← (if f0 =? NULL then mret NULL else filealloc);
  pi ← (if (f0 =? NULL) || (f1 =? NULL) then mret 0 else in_km kalloc);
  if pi =? 0 then
    (if negb (f0 =? NULL) then fileclose f0 else mret tt);;
    (if negb (f1 =? NULL) then fileclose f1 else mret tt);;
    mret None
  else
    modify (λ s, set_pipes (upd (pipes s) pi (pipeinit (ld_bytes (mem (km s)) (pi + 24) (Z.to_nat PIPESIZE)))) s);;
    initlock (LkPipe pi);;
    with_file f0 (λ x, set_fpipe pi (set_modes 1 0 (set_ftype FD_PIPE x)));;
    with_file f1 (λ x, set_fpipe pi (set_modes 0 1 (set_ftype FD_PIPE x)));;
    mret (Some (f0, f1)).

(** ** The console *)

Definition consoleinit : M (kst T) unit :=
  initlock LkCons;;
  in_tty (uartinit write_reg);;
  modify (λ s, set_devsw (upd (devsw s) CONSOLE (Devsw (Some ConsoleRead) (Some ConsoleWrite))) s).

Definition dev_read (d : devread) (addr n : Z) : M (kst T) Z :=
  s ← get;
  '(r, got) ← in_console (Console.consoleread (λ i, user_writable s (addr + i)) (is_killed s) n n);
  put_bytes addr got;;
  match r with
  | Console.Ret v => mret v
  | Console.Wait _ => asleep ChConsR LkCons
  end.

Definition dev_write (d : devwrite) (addr n : Z) : M (kst T) Z :=
  s ← get;
  in_tty (Console.consolewrite (uartputc read_reg write_reg) (λ i, user_byte s (addr + i)) n).

(** ** Reading and writing *)

Definition filestat f (addr : Z) : M (kst T) Z :=
  x ← ffld id f;
  if bool_decide (f_type x = FD_INODE) || bool_decide (f_type x = FD_DEVICE) then
    in_fs (ilock (f_ip x));;
    st ← in_fs (stati (f_ip x));
    in_fs (iunlock (f_ip x));;
    r ← copyout_cur addr (stat_bytes st);
    if r <? 0 then mret (-1) else mret 0
  else mret (-1).

(** [f->off += r] *)
Definition advance f (r : Z) : M (kst T) unit :=
  if r >? 0 then with_file f (λ x, set_off (u32 (f_off x + r)) x) else mret tt.

Definition fileread f (addr n : Z) : M (kst T) Z :=
  x ← ffld id f;
  if f_readable x =? 0 then mret (-1)
  else match f_type x with
  | FD_PIPE => pipe_read (f_pipe x) addr n
  | FD_DEVICE =>
      d ← gets devsw;
      if (f_major x <? 0) || (f_major x >=? NDEV) then mret (-1)
      else match d_read (d (f_major x)) with
      | None => mret (-1)
      | Some fn => dev_read fn addr n
      end
  | FD_INODE =>
      in_fs (ilock (f_ip x));;
      off ← ffld f_off f;
      '(r, _) ← in_fs (readi (f_ip x) (User addr) off (u32 n));
      advance f r;;
      in_fs (iunlock (f_ip x));;
      mret r
  | FD_NONE => panic "fileread"
  end.

Definition WRITE_MAX : Z := (MAXOPBLOCKS - 1 - 1 - 2) / 2 * BSIZE.

(** The [while(i < n)] of [filewrite]; the result is the last [i]. *)
Fixpoint filewrite_loop (fuel : nat) f (ip addr n i : Z) : M (kst T) Z :=
  match fuel with
  | O => nofuel
  | S fuel =>
      if i <? n then
        let n1 := if n - i >? WRITE_MAX then WRITE_MAX else n - i in
        begin_op;;
        in_fs (ilock ip);;
        off ← ffld f_off f;
        r ← in_fs (writei ip (User (u64 (addr + i))) off n1);
        advance f r;;
        in_fs (iunlock ip);;
        end_op;;
        if negb (r =? n1) then mret i
        else filewrite_loop fuel f ip addr n (i + r)
      else mret i
  end.

Definition filewrite f (addr n : Z) : M (kst T) Z :=
  x ← ffld id f;
  if f_writable x =? 0 then mret (-1)
  else match f_type x with
  | FD_PIPE => pipe_write (f_pipe x) addr n
  | FD_DEVICE =>
      d ← gets devsw;
      if (f_major x <? 0) || (f_major x >=? NDEV) then mret (-1)
      else match d_write (d (f_major x)) with
      | None => mret (-1)
      | Some fn => dev_write fn addr n
      end
  | FD_INODE =>
      i ← filewrite_loop (S (Z.to_nat (n / WRITE_MAX + 1))) f (f_ip x) addr n 0;
      mret (if i =? n then n else -1)
  | FD_NONE => panic "filewrite"
  end.
End code.
