(* ===== verification/Life.v ===== *)
(** * The life of a process, [kernel/proc.c]

    The first process, [fork] and [exit]: the operations on processes that use
    the file table and the file system. *)

From S2P Require Import Prelude Riscv Memory Locks Kalloc Vm Printf Disk Tx Fs Kernel Proc File.

Definition initcode : list Z :=
  [0x17; 0x05; 0x00; 0x00; 0x13; 0x05; 0x45; 0x02;
   0x97; 0x05; 0x00; 0x00; 0x93; 0x85; 0x35; 0x02;
   0x93; 0x08; 0x70; 0x00; 0x73; 0x00; 0x00; 0x00;
   0x93; 0x08; 0x20; 0x00; 0x73; 0x00; 0x00; 0x00;
   0xef; 0xf0; 0x9f; 0xff; 0x2f; 0x69; 0x6e; 0x69;
   0x74; 0x00; 0x00; 0x24; 0x00; 0x00; 0x00; 0x00;
   0x00; 0x00; 0x00; 0x00].

Section code.
  Context `{Platform} {T : Type} `{Store T}.

(** [safestrcpy(p->name, t, sizeof(p->name))] *)
Definition set_pname (p : Z) (t : list Z) : M (kst T) unit :=
  match safestrcpy t 16 with
  | Some l => with_proc p (λ x, set_name (put_at (p_name x) 0 l) x)
  | None => undef "safestrcpy reads past its argument"
  end.

Definition userinit : M (kst T) unit :=
  p ← allocproc;
  modify (set_initproc p);;
  if p =? NULL then undef "a field of a null process"
  else
    pt ← pfld p_pagetable p;
    in_km (uvmfirst pt initcode (Z.of_nat (length initcode)));;
    with_proc p (set_sz PGSIZE);;
    tf_set p TF_epc 0;;
    tf_set p TF_sp PGSIZE;;
    set_pname p (ascii_bytes "initcode" ++ [0]);;
    ip ← in_fs (namei [47]);
    with_proc p (set_pcwd ip);;
    with_proc p (set_state RUNNABLE);;
    release (LkProc p).

(** [for(i = 0; i < NOFILE; i++) if(p->ofile[i]) np->ofile[i] = filedup(p->ofile[i]);] *)
Fixpoint fork_files (k : nat) (p np i : Z) : M (kst T) unit :=
  match k with
  | O => mret tt
  | S k =>
      f ← pfld (λ x, p_ofile x i) p;
      (if negb (f =? NULL) then
         f ← filedup f;
         with_proc np (λ x, set_ofile (upd (p_ofile x) i f) x)
       else mret tt);;
      fork_files k p np (i + 1)
  end.

Definition fork : M (kst T) Z :=
  p ← gets cur;
  np ← allocproc;
  if np =? NULL then mret (-1)
  else
    x ← pfld id p;
    y ← pfld id np;
    r ← in_km (uvmcopy kend (p_pagetable x) (p_pagetable y) (p_sz x));
    if r <? 0 then
      freeproc np;;
      release (LkProc np);;
      mret (-1)
    else
      with_proc np (set_sz (p_sz x));;
      in_km (do_memmove (p_trapframe y) (p_trapframe x) TF_SIZE);;
      tf_set np (TF_a 0) 0;;
      fork_files (Z.to_nat NOFILE) p np 0;;
      cwd ← in_fs (idup (p_cwd x));
      with_proc np (set_pcwd cwd);;
      set_pname np (p_name x);;
      pid ← pfld p_pid np;
      release (LkProc np);;
      acquire LkWait;;
      with_proc np (set_parent p);;
      release LkWait;;
      acquire (LkProc np);;
      with_proc np (set_state RUNNABLE);;
      release (LkProc np);;
      mret pid.

Fixpoint close_files (k : nat) (p fd : Z) : M (kst T) unit :=
  match k with
  | O => mret tt
  | S k =>
      f ← pfld (λ x, p_ofile x fd) p;
      (if negb (f =? NULL) then
         fileclose f;;
         with_proc p (λ x, set_ofile (upd (p_ofile x) fd NULL) x)
       else mret tt);;
      close_files k p (fd + 1)
  end.

(** It ends in the scheduler. *)
Definition exit {A} (status : Z) : M (kst T) A :=
  p ← gets cur;
  init ← gets initproc;
  if p =? init then panic "init exiting"
  else
    close_files (Z.to_nat NOFILE) p 0;;
    begin_op;;
    cwd ← pfld p_cwd p;
    in_fs (iput cwd);;
    end_op;;
    with_proc p (set_pcwd NULL);;
    acquire LkWait;;
    reparent p;;
    par ← pfld p_parent p;
    wakeup (ChProc par);;
    acquire (LkProc p);;
    with_proc p (set_xstate status);;
    with_proc p (set_state ZOMBIE);;
    release LkWait;;
    switch.
End code.
