(* ===== verification/Syscall.v ===== *)
(** * Arguments of system calls, [kernel/syscall.c]

    A call finds its arguments in the saved registers of the process and the
    strings they point to in its memory.  The table of calls is in Dispatch. *)

From S2P Require Import Prelude Riscv Memory Locks Kalloc Vm Disk Tx Fs Kernel Proc.

Section code.
  Context `{Platform} {T : Type} `{Store T}.

(** [None] for a return value of [-1]. *)
Definition fetchaddr (addr : Z) : M (kst T) (option Z) :=
  p ← gets cur;
  sz ← pfld p_sz p;
  if (addr >=? sz) || (u64 (addr + 8) >? sz) then mret None
  else
    '(r, l) ← copyin_cur addr 8;
    if negb (r =? 0) then mret None else mret (Some (le_val l)).

(** The return value and the bytes stored through [buf]. *)
Definition fetchstr (addr max : Z) : M (kst T) (Z * list Z) :=
  s ← get;
  '(r, l) ← in_km (copyinstr (p_pagetable (myproc s)) addr max);
  if r <? 0 then mret (-1, l)
  else match strlen l with
  | Some n => mret (n, l)
  | None => undef "strlen reads past the buffer"
  end.

Definition argraw (n : Z) : M (kst T) Z :=
  p ← gets cur;
  if (0 <=? n) && (n <=? 5) then tf_get p (TF_a n) else panic "argraw".

Definition argint (n : Z) : M (kst T) Z :=
  v ← argraw n;
  mret (s32 v).
Definition argaddr (n : Z) : M (kst T) Z := argraw n.

Definition argstr (n max : Z) : M (kst T) (Z * list Z) :=
  addr ← argaddr n;
  fetchstr addr max.

(** The string argument as the bytes before its NUL, or [None]. *)
Definition argpath (n : Z) : M (kst T) (option (list Z)) :=
  '(r, l) ← argstr n MAXPATH;
  if r <? 0 then mret None else mret (Some (take (Z.to_nat r) l)).
End code.
