(* ===== verification/Exec.v ===== *)
(** * Program images, [kernel/exec.c]

    [exec] builds a new page table from an ELF file, puts the arguments on a
    new stack, and only then replaces the memory of the process. *)

From S2P Require Import Prelude Riscv Memory Locks Kalloc Vm Disk Tx Fs Kernel Proc File Life.

Definition ELF_MAGIC : Z := 0x464C457F.
Definition ELF_PROG_LOAD : Z := 1.
Definition get64 (x : list Z) (off : Z) : Z := le_val (get_at x off 8).

(** The fields of [struct elfhdr] that [exec] uses. *)
Record elfhdr : Type := Elf { e_magic : Z; e_entry : Z; e_phoff : Z; e_phnum : Z }.
Definition ELFHDR_SIZE : Z := 64.
Definition get_elfhdr (x : list Z) : elfhdr := Elf (get32 x 0) (get64 x 24) (get64 x 32) (get16 x 56).

(** And of [struct proghdr]. *)
Record proghdr : Type := Ph { ph_type : Z; ph_flags : Z; ph_off : Z; ph_vaddr : Z; ph_filesz : Z; ph_memsz : Z }.
Definition PROGHDR_SIZE : Z := 56.
Definition get_proghdr (x : list Z) : proghdr :=
  Ph (get32 x 0) (get32 x 4) (get64 x 8) (get64 x 16) (get64 x 32) (get64 x 40).

Definition flags2perm (flags : Z) : Z :=
  let perm := if truthy (Z.land flags 0x1) then PTE_X else 0 in
  if truthy (Z.land flags 0x2) then Z.lor perm PTE_W else perm.

(** [for(last=s=path; *s; s++) if( *s == '/') last = s+1;] *)
Fixpoint last_elem (last s : list Z) : list Z :=
  match s with
  | [] => last
  | c :: s => last_elem (if c =? 47 then s else last) s
  end.

Section code.
  Context `{Platform} {T : Type} `{Store T}.

(** [i] is a [uint]; the fuel counts the pages of the segment. *)
Fixpoint loadseg_loop (fuel : nat) (pagetable va ip offset sz i : Z) : M (kst T) Z :=
  match fuel with
  | O => nofuel
  | S fuel =>
      if i <? sz then
        pa ← in_km (walkaddr pagetable (u64 (va + i)));
        if pa =? 0 then panic "loadseg: address should exist"
        else
          let n := if sz - i <? PGSIZE then sz - i else PGSIZE in
          '(r, l) ← in_fs (readi ip (Kernel []) (u32 (offset + i)) n);
          in_km (copy_in_bytes pa l);;
          if negb (r =? n) then mret (-1)
          else loadseg_loop fuel pagetable va ip offset sz (u32 (i + PGSIZE))
      else mret 0
  end.
Definition loadseg (pagetable va ip offset sz : Z) : M (kst T) Z :=
  loadseg_loop (S (Z.to_nat (sz / PGSIZE + 1))) pagetable va ip offset sz 0.

(** The loop over the program headers: whether it succeeds, and the last
    value of [sz]. *)
Fixpoint load_loop (k : nat) (pagetable ip off sz : Z) : M (kst T) (bool * Z) :=
  match k with
  | O => mret (true, sz)
  | S k =>
      '(r, l) ← in_fs (readi ip (Kernel []) (u32 off) PROGHDR_SIZE);
      if negb (r =? PROGHDR_SIZE) then mret (false, sz)
      else
        let ph := get_proghdr l in
        if negb (ph_type ph =? ELF_PROG_LOAD) then load_loop k pagetable ip (s32 (off + PROGHDR_SIZE)) sz
        else if ph_memsz ph <? ph_filesz ph then mret (false, sz)
        else if u64 (ph_vaddr ph + ph_memsz ph) <? ph_vaddr ph then mret (false, sz)
        else if negb (ph_vaddr ph mod PGSIZE =? 0) then mret (false, sz)
        else
          sz1 ← in_km (uvmalloc kend pagetable sz (u64 (ph_vaddr ph + ph_memsz ph)) (flags2perm (ph_flags ph)));
          if sz1 =? 0 then mret (false, sz)
          else
            r ← loadseg pagetable (ph_vaddr ph) ip (u32 (ph_off ph)) (u32 (ph_filesz ph));
            if r <? 0 then mret (false, sz1)
            else load_loop k pagetable ip (s32 (off + PROGHDR_SIZE)) sz1
  end.

(** From the header to the last segment: [pagetable], [sz], and the header
    when nothing failed. *)
Definition load_image (ip : Z) : M (kst T) (Z * Z * option elfhdr) :=
  p ← gets cur;
  '(r, l) ← in_fs (readi ip (Kernel []) 0 ELFHDR_SIZE);
  let elf := get_elfhdr l in
  if negb (r =? ELFHDR_SIZE) then mret (0, 0, None)
  else if negb (e_magic elf =? ELF_MAGIC) then mret (0, 0, None)
  else
    tf ← pfld p_trapframe p;
    pagetable ← in_km (proc_pagetable tf);
    if pagetable =? 0 then mret (0, 0, None)
    else
      '(ok, sz) ← load_loop (Z.to_nat (e_phnum elf)) pagetable ip (s32 (e_phoff elf)) 0;
      mret (pagetable, sz, if (ok : bool) then Some elf else None).

(** The string at [a]; it ends in the page. *)
Definition page_string (a : Z) : M (kst T) (list Z) :=
  l ← gets (λ s, ld_bytes (mem (km s)) a (Z.to_nat PGSIZE));
  match strlen l with
  | Some n => mret (take (Z.to_nat n) l)
  | None => undef "strlen reads past the page"
  end.

(** The loop over [argv] from [argc] on: the last [sp] and [ustack]; [None]
    for [goto bad]. *)
Fixpoint push_args (argv : list Z) (pagetable argc sp stackbase : Z) (ustack : list Z) : M (kst T) (option (Z * list Z)) :=
  match argv with
  | [] => mret (Some (sp, ustack))
  | a :: argv =>
      if argc >=? MAXARG then mret None
      else
        arg ← page_string a;
        let len := Z.of_nat (length arg) in
        let sp := u64 (sp - (len + 1)) in
        let sp := sp - sp mod 16 in
        if sp <? stackbase then mret None
        else
          r ← in_km (Vm.copyout pagetable sp (arg ++ [0]) (len + 1));
          if r <? 0 then mret None
          else push_args argv pagetable (argc + 1) sp stackbase (ustack ++ [sp])
  end.

(** The stack: the guard page, the strings, the array of pointers to them.
    The last [sz], and [sp] when nothing failed. *)
Definition build_stack (argv : list Z) (pagetable sz : Z) : M (kst T) (Z * option Z) :=
  sz1 ← in_km (uvmalloc kend pagetable sz (u64 (sz + 2 * PGSIZE)) PTE_W);
  if sz1 =? 0 then mret (sz, None)
  else
    let sz := sz1 in
    in_km (uvmclear pagetable (u64 (sz - 2 * PGSIZE)));;
    let stackbase := u64 (sz - PGSIZE) in
    args ← push_args argv pagetable 0 sz stackbase [];
    match args with
    | None => mret (sz, None)
    | Some (sp, ustack) =>
        let ustack := ustack ++ [0] in
        let len := 8 * Z.of_nat (length ustack) in
        let sp := u64 (sp - len) in
        let sp := sp - sp mod 16 in
        if sp <? stackbase then mret (sz, None)
        else
          r ← in_km (Vm.copyout pagetable sp (mjoin (le_bytes 8 <$> ustack)) len);
          if r <? 0 then mret (sz, None) else mret (sz, Some sp)
    end.

(** [path] is the bytes before the NUL, [argv] the addresses before the null
    pointer. *)
Definition exec (path : list Z) (argv : list Z) : M (kst T) Z :=
  p ← gets cur;
  begin_op;;
  ip ← in_fs (namei path);
  if ip =? NULL then
    end_op;;
    mret (-1)
  else
    in_fs (ilock ip);;
    '(pagetable, sz, hdr) ← load_image ip;
    match hdr with
    | None =>
        (if truthy pagetable then in_km (proc_freepagetable pagetable sz) else mret tt);;
        in_fs (iunlockput ip);;
        end_op;;
        mret (-1)
    | Some elf =>
        in_fs (iunlockput ip);;
        end_op;;
        oldsz ← pfld p_sz p;
        '(sz, stack) ← build_stack argv pagetable (PGROUNDUP sz);
        match stack with
        | None =>
            in_km (proc_freepagetable pagetable sz);;
            mret (-1)
        | Some sp =>
            tf_set p (TF_a 1) sp;;
            set_pname p (last_elem path path ++ [0]);;
            oldpagetable ← pfld p_pagetable p;
            with_proc p (set_pagetable pagetable);;
            with_proc p (set_sz sz);;
            tf_set p TF_epc (e_entry elf);;
            tf_set p TF_sp sp;;
            in_km (proc_freepagetable oldpagetable oldsz);;
            mret (Z.of_nat (length argv))
        end
    end.
End code.
