(* ===== verification/Sysfile.v ===== *)
(** * System calls on files, [kernel/sysfile.c] *)

From S2P Require Import Prelude Riscv Memory Locks Kalloc Vm Disk Tx Fs Kernel Proc File Life Syscall Exec.

(** ** [kernel/fcntl.h] *)

Definition O_RDONLY : Z := 0x000.
Definition O_WRONLY : Z := 0x001.
Definition O_RDWR : Z := 0x002.
Definition O_CREATE : Z := 0x200.
Definition O_TRUNC : Z := 0x400.

Definition dot : list Z := [46; 0].
Definition dotdot : list Z := [46; 46; 0].

Section code.
  Context `{Platform} {T : Type} `{Store T}.

(** ** Descriptors *)

(** The descriptor and the file. *)
Definition argfd (n : Z) : M (kst T) (option (Z * Z)) :=
  fd ← argint n;
  if (fd <? 0) || (fd >=? NOFILE) then mret None
  else
    p ← gets cur;
    f ← pfld (λ x, p_ofile x fd) p;
    if f =? NULL then mret None else mret (Some (fd, f)).

Fixpoint fdalloc_loop (k : nat) (f fd : Z) : M (kst T) Z :=
  match k with
  | O => mret (-1)
  | S k =>
      p ← gets cur;
      g ← pfld (λ x, p_ofile x fd) p;
      if g =? NULL then
        with_proc p (λ x, set_ofile (upd (p_ofile x) fd f) x);;
        mret fd
      else fdalloc_loop k f (fd + 1)
  end.
Definition fdalloc (f : Z) : M (kst T) Z := fdalloc_loop (Z.to_nat NOFILE) f 0.

(** [myproc()->ofile[fd] = 0;] *)
Definition clear_fd (fd : Z) : M (kst T) unit :=
  p ← gets cur;
  with_proc p (λ x, set_ofile (upd (p_ofile x) fd NULL) x).

Definition sys_dup : M (kst T) Z :=
  a ← argfd 0;
  match a with
  | None => mret (-1)
  | Some (_, f) =>
      fd ← fdalloc f;
      if fd <? 0 then mret (-1)
      else
        filedup f;;
        mret fd
  end.

Definition sys_read : M (kst T) Z :=
  p ← argaddr 1;
  n ← argint 2;
  a ← argfd 0;
  match a with
  | None => mret (-1)
  | Some (_, f) => fileread f p n
  end.

Definition sys_write : M (kst T) Z :=
  p ← argaddr 1;
  n ← argint 2;
  a ← argfd 0;
  match a with
  | None => mret (-1)
  | Some (_, f) => filewrite f p n
  end.

Definition sys_close : M (kst T) Z :=
  a ← argfd 0;
  match a with
  | None => mret (-1)
  | Some (fd, f) =>
      clear_fd fd;;
      fileclose f;;
      mret 0
  end.

Definition sys_fstat : M (kst T) Z :=
  st ← argaddr 1;
  a ← argfd 0;
  match a with
  | None => mret (-1)
  | Some (_, f) => filestat f st
  end.

(** ** Names *)

(** The buffer [name] of a caller of [nameiparent] is not initialised. *)
Definition parent_of (path : list Z) : M (kst T) (Z * list Z) :=
  in_fs (nameiparent path (replicate (Z.to_nat DIRSIZ) 0)).

(** [ip->nlink += d; iupdate(ip);] *)
Definition add_link (ip d : Z) : M (kst T) unit :=
  in_fs (with_din ip (λ i, set_nlink (s16 (nlink i + d)) i);; iupdate ip).

Definition idev (ip : Z) : M (kst T) Z := gets (λ s, dev (kitable s ip)).
Definition iinum (ip : Z) : M (kst T) Z := gets (λ s, inum (kitable s ip)).
Definition idin (ip : Z) : M (kst T) dinode := gets (λ s, din (kitable s ip)).

(** The second half of [sys_link], and its [bad:]. *)
Definition link_new (ip : Z) (new : list Z) : M (kst T) Z :=
  let bad :=
    in_fs (ilock ip);;
    add_link ip (-1);;
    in_fs (iunlockput ip);;
    end_op;;
    mret (-1) in
  '(dp, name) ← parent_of new;
  if dp =? NULL then bad
  else
    in_fs (ilock dp);;
    d1 ← idev dp;
    d2 ← idev ip;
    n ← iinum ip;
    r ← (if negb (d1 =? d2) then mret (-1) else in_fs (dirlink dp name n));
    if r <? 0 then
      in_fs (iunlockput dp);;
      bad
    else
      in_fs (iunlockput dp);;
      in_fs (iput ip);;
      end_op;;
      mret 0.

Definition sys_link : M (kst T) Z :=
  old ← argpath 0;
  match old with
  | None => mret (-1)
  | Some old =>
      new ← argpath 1;
      match new with
      | None => mret (-1)
      | Some new =>
          begin_op;;
          ip ← in_fs (namei old);
          if ip =? NULL then
            end_op;;
            mret (-1)
          else
            in_fs (ilock ip);;
            i ← idin ip;
            if type i =? T_DIR then
              in_fs (iunlockput ip);;
              end_op;;
              mret (-1)
            else
              add_link ip 1;;
              in_fs (iunlock ip);;
              link_new ip new
      end
  end.

(** From the offset of the third entry on. *)
Fixpoint isdirempty_loop (fuel : nat) (dp off : Z) : M (kst T) bool :=
  match fuel with
  | O => nofuel
  | S fuel =>
      d ← idin dp;
      if off <? dsize d then
        de ← in_fs (read_dirent "isdirempty: readi" dp off);
        if negb (de_inum de =? 0) then mret false
        else if off + DIRENT_SIZE <? 2 ^ 31 then isdirempty_loop fuel dp (off + DIRENT_SIZE) else undef "int overflow"
      else mret true
  end.
Definition isdirempty (dp : Z) : M (kst T) bool :=
  d ← idin dp;
  isdirempty_loop (S (Z.to_nat (dsize d / DIRENT_SIZE + 1))) dp (2 * DIRENT_SIZE).

(** [sys_unlink] from [ilock(dp)] on. *)
Definition unlink_in (dp : Z) (name : list Z) : M (kst T) Z :=
  let bad :=
    in_fs (iunlockput dp);;
    end_op;;
    mret (-1) in
  in_fs (ilock dp);;
  c1 ← in_fs (namecmp name dot);
  c2 ← (if c1 =? 0 then mret 0 else in_fs (namecmp name dotdot));
  if (c1 =? 0) || (c2 =? 0) then bad
  else
    '(ip, off) ← in_fs (dirlookup dp name);
    if ip =? NULL then bad
    else
      in_fs (ilock ip);;
      i ← idin ip;
      if nlink i <? 1 then panic "unlink: nlink < 1"
      else
        empty ← (if type i =? T_DIR then isdirempty ip else mret true);
        if negb empty then
          in_fs (iunlockput ip);;
          bad
        else
          r ← in_fs (writei dp (Kernel (replicate (Z.to_nat DIRENT_SIZE) 0)) off DIRENT_SIZE);
          if negb (r =? DIRENT_SIZE) then panic "unlink: writei"
          else
            (if type i =? T_DIR then add_link dp (-1) else mret tt);;
            in_fs (iunlockput dp);;
            add_link ip (-1);;
            in_fs (iunlockput ip);;
            end_op;;
            mret 0.

Definition sys_unlink : M (kst T) Z :=
  path ← argpath 0;
  match path with
  | None => mret (-1)
  | Some path =>
      begin_op;;
      '(dp, name) ← parent_of path;
      if dp =? NULL then
        end_op;;
        mret (-1)
      else unlink_in dp name
  end.

(** [create] once the parent is locked and has no such name: a new inode,
    its entries, and the [fail:] exit. *)
Definition create_new (dp : Z) (name : list Z) (ty major minor : Z) : M (kst T) Z :=
  d ← idev dp;
  ip ← in_fs (ialloc d ty);
  if ip =? NULL then
    in_fs (iunlockput dp);;
    mret NULL
  else
    in_fs (ilock ip);;
    in_fs (with_din ip (λ i, set_nlink 1 (set_dev_nums major minor i));; iupdate ip);;
    n ← iinum ip;
    dn ← iinum dp;
    r ← (if ty =? T_DIR then
           r ← in_fs (dirlink ip dot n);
           if r <? 0 then mret (-1) else in_fs (dirlink ip dotdot dn)
         else mret 0);
    r ← (if r <? 0 then mret (-1) else in_fs (dirlink dp name n));
    if r <? 0 then
      in_fs (with_din ip (set_nlink 0);; iupdate ip);;
      in_fs (iunlockput ip);;
      in_fs (iunlockput dp);;
      mret NULL
    else
      (if ty =? T_DIR then add_link dp 1 else mret tt);;
      in_fs (iunlockput dp);;
      mret ip.

Definition create (path : list Z) (ty major minor : Z) : M (kst T) Z :=
  '(dp, name) ← parent_of path;
  if dp =? NULL then mret NULL
  else
    in_fs (ilock dp);;
    '(ip, _) ← in_fs (dirlookup dp name);
    if negb (ip =? NULL) then
      in_fs (iunlockput dp);;
      in_fs (ilock ip);;
      i ← idin ip;
      if (ty =? T_FILE) && ((type i =? T_FILE) || (type i =? T_DEVICE)) then mret ip
      else
        in_fs (iunlockput ip);;
        mret NULL
    else create_new dp name ty major minor.

(** ** Opening *)

(** [sys_open] once the inode is found and locked. *)
Definition open_inode (ip omode : Z) : M (kst T) Z :=
  i ← idin ip;
  if (type i =? T_DEVICE) && ((major i <? 0) || (major i >=? NDEV)) then
    in_fs (iunlockput ip);;
    end_op;;
    mret (-1)
  else
    f ← filealloc;
    fd ← (if f =? NULL then mret (-1) else fdalloc f);
    if (f =? NULL) || (fd <? 0) then
      (if negb (f =? NULL) then fileclose f else mret tt);;
      in_fs (iunlockput ip);;
      end_op;;
      mret (-1)
    else
      (if type i =? T_DEVICE then with_file f (λ x, set_major (major i) (set_ftype FD_DEVICE x))
       else with_file f (λ x, set_off 0 (set_ftype FD_INODE x)));;
      with_file f (set_fip ip);;
      with_file f (set_modes (if truthy (Z.land omode O_WRONLY) then 0 else 1)
                             (if truthy (Z.land omode O_WRONLY) || truthy (Z.land omode O_RDWR) then 1 else 0));;
      (if truthy (Z.land omode O_TRUNC) && (type i =? T_FILE) then in_fs (itrunc ip) else mret tt);;
      in_fs (iunlock ip);;
      end_op;;
      mret fd.

Definition sys_open : M (kst T) Z :=
  omode ← argint 1;
  path ← argpath 0;
  match path with
  | None => mret (-1)
  | Some path =>
      begin_op;;
      if truthy (Z.land omode O_CREATE) then
        ip ← create path T_FILE 0 0;
        if ip =? NULL then
          end_op;;
          mret (-1)
        else open_inode ip omode
      else
        ip ← in_fs (namei path);
        if ip =? NULL then
          end_op;;
          mret (-1)
        else
          in_fs (ilock ip);;
          i ← idin ip;
          if (type i =? T_DIR) && negb (omode =? O_RDONLY) then
            in_fs (iunlockput ip);;
            end_op;;
            mret (-1)
          else open_inode ip omode
  end.

(** The end of [sys_mkdir] and [sys_mknod]. *)
Definition made (ip : Z) : M (kst T) Z :=
  if ip =? NULL then
    end_op;;
    mret (-1)
  else
    in_fs (iunlockput ip);;
    end_op;;
    mret 0.

Definition sys_mkdir : M (kst T) Z :=
  begin_op;;
  path ← argpath 0;
  ip ← (match path with None => mret NULL | Some path => create path T_DIR 0 0 end);
  made ip.

Definition sys_mknod : M (kst T) Z :=
  begin_op;;
  major ← argint 1;
  minor ← argint 2;
  path ← argpath 0;
  ip ← (match path with None => mret NULL | Some path => create path T_DEVICE (s16 major) (s16 minor) end);
  made ip.

Definition sys_chdir : M (kst T) Z :=
  p ← gets cur;
  begin_op;;
  path ← argpath 0;
  ip ← (match path with None => mret NULL | Some path => in_fs (namei path) end);
  if ip =? NULL then
    end_op;;
    mret (-1)
  else
    in_fs (ilock ip);;
    i ← idin ip;
    if negb (type i =? T_DIR) then
      in_fs (iunlockput ip);;
      end_op;;
      mret (-1)
    else
      in_fs (iunlock ip);;
      cwd ← pfld p_cwd p;
      in_fs (iput cwd);;
      end_op;;
      with_proc p (set_pcwd ip);;
      mret 0.

(** ** Programs and pipes *)

(** The loop that fetches the arguments; whether it reached the null
    pointer, and the pages in [argv]. *)
Fixpoint fetch_args (k : nat) (uargv i : Z) : M (kst T) (bool * list Z) :=
  match k with
  | O => mret (false, [])
  | S k =>
      uarg ← fetchaddr (u64 (uargv + 8 * i));
      match uarg with
      | None => mret (false, [])
      | Some uarg =>
          if uarg =? 0 then mret (true, [])
          else
            page ← in_km kalloc;
            if page =? 0 then mret (false, [])
            else
              '(r, l) ← fetchstr uarg PGSIZE;
              in_km (copy_in_bytes page l);;
              if r <? 0 then mret (false, [page])
              else
                '(ok, argv) ← fetch_args k uargv (i + 1);
                mret (ok, page :: argv)
      end
  end.

Fixpoint free_pages (argv : list Z) : M (kst T) unit :=
  match argv with
  | [] => mret tt
  | a :: argv => in_km (kfree kend a);; free_pages argv
  end.

Definition sys_exec : M (kst T) Z :=
  uargv ← argaddr 1;
  path ← argpath 0;
  match path with
  | None => mret (-1)
  | Some path =>
      '(ok, argv) ← fetch_args (Z.to_nat MAXARG) uargv 0;
      if (ok : bool) then
        ret ← exec path argv;
        free_pages argv;;
        mret ret
      else
        free_pages argv;;
        mret (-1)
  end.

Definition sys_pipe : M (kst T) Z :=
  fdarray ← argaddr 0;
  fs ← pipealloc;
  match fs with
  | None => mret (-1)
  | Some (rf, wf) =>
      fd0 ← fdalloc rf;
      fd1 ← (if fd0 <? 0 then mret (-1) else fdalloc wf);
      if (fd0 <? 0) || (fd1 <? 0) then
        (if fd0 >=? 0 then clear_fd fd0 else mret tt);;
        fileclose rf;;
        fileclose wf;;
        mret (-1)
      else
        r ← copyout_cur fdarray (le_bytes 4 fd0);
        r ← (if r <? 0 then mret (-1) else copyout_cur (u64 (fdarray + 4)) (le_bytes 4 fd1));
        if r <? 0 then
          clear_fd fd0;;
          clear_fd fd1;;
          fileclose rf;;
          fileclose wf;;
          mret (-1)
        else mret 0
  end.
End code.
