(* ===== verification/Dispatch.v ===== *)
(** * The system calls, [kernel/sysproc.c] and [kernel/syscall.c]

    The calls on processes, the table of all calls, and [syscall], which runs
    the one that register [a7] names. *)

From S2P Require Import Prelude Riscv Memory Locks Kalloc Vm Printf Disk Tx Fs Kernel Proc File Life Syscall Exec Sysfile.

Section code.
  Context `{Platform} {T : Type} `{Store T}.

(** ** [kernel/sysproc.c] *)

Definition sys_exit : M (kst T) Z :=
  n ← argint 0;
  exit n.

Definition sys_getpid : M (kst T) Z :=
  p ← gets cur;
  pfld p_pid p.

Definition sys_fork : M (kst T) Z := fork.

Definition sys_wait : M (kst T) Z :=
  p ← argaddr 0;
  wait p.

Definition sys_sbrk : M (kst T) Z :=
  n ← argint 0;
  p ← gets cur;
  addr ← pfld p_sz p;
  r ← growproc n;
  if r <? 0 then mret (-1) else mret addr.

(** One round of the loop, the lock held.  Both sides of the test are
    unsigned: a negative [n] counts as a large number. *)
Definition sleep_round (n ticks0 : Z) : M (kst T) Z :=
  t ← gets ticks;
  if u32 (t - ticks0) <? u32 n then
    p ← gets cur;
    k ← killed p;
    if truthy k then
      release LkTicks;;
      mret (-1)
    else sleep ChTicks LkTicks
  else
    release LkTicks;;
    mret 0.

Definition sys_sleep : M (kst T) Z :=
  n ← argint 0;
  acquire LkTicks;;
  ticks0 ← gets ticks;
  sleep_round n ticks0.

Definition sys_kill : M (kst T) Z :=
  pid ← argint 0;
  kill pid.

Definition sys_uptime : M (kst T) Z :=
  acquire LkTicks;;
  xticks ← gets ticks;
  release LkTicks;;
  mret xticks.

Definition sys_hello : M (kst T) Z :=
  n ← argint 0;
  print_hello n;;
  mret 0.

(** ** [kernel/syscall.h], [kernel/syscall.c] *)

Definition SYS_fork : Z := 1.
Definition SYS_exit : Z := 2.
Definition SYS_wait : Z := 3.
Definition SYS_pipe : Z := 4.
Definition SYS_read : Z := 5.
Definition SYS_kill : Z := 6.
Definition SYS_exec : Z := 7.
Definition SYS_fstat : Z := 8.
Definition SYS_chdir : Z := 9.
Definition SYS_dup : Z := 10.
Definition SYS_getpid : Z := 11.
Definition SYS_sbrk : Z := 12.
Definition SYS_sleep : Z := 13.
Definition SYS_uptime : Z := 14.
Definition SYS_open : Z := 15.
Definition SYS_write : Z := 16.
Definition SYS_mknod : Z := 17.
Definition SYS_unlink : Z := 18.
Definition SYS_link : Z := 19.
Definition SYS_mkdir : Z := 20.
Definition SYS_close : Z := 21.
Definition SYS_hello : Z := 22.

(** [syscalls[num]]; the entry [0] is null and the array ends at [SYS_hello]. *)
Definition syscalls (num : Z) : option (M (kst T) Z) :=
  if num =? SYS_fork then Some sys_fork
  else if num =? SYS_exit then Some sys_exit
  else if num =? SYS_wait then Some sys_wait
  else if num =? SYS_pipe then Some sys_pipe
  else if num =? SYS_read then Some sys_read
  else if num =? SYS_kill then Some sys_kill
  else if num =? SYS_exec then Some sys_exec
  else if num =? SYS_fstat then Some sys_fstat
  else if num =? SYS_chdir then Some sys_chdir
  else if num =? SYS_dup then Some sys_dup
  else if num =? SYS_getpid then Some sys_getpid
  else if num =? SYS_sbrk then Some sys_sbrk
  else if num =? SYS_sleep then Some sys_sleep
  else if num =? SYS_uptime then Some sys_uptime
  else if num =? SYS_open then Some sys_open
  else if num =? SYS_write then Some sys_write
  else if num =? SYS_mknod then Some sys_mknod
  else if num =? SYS_unlink then Some sys_unlink
  else if num =? SYS_link then Some sys_link
  else if num =? SYS_mkdir then Some sys_mkdir
  else if num =? SYS_close then Some sys_close
  else if num =? SYS_hello then Some sys_hello
  else None.

(** [p->trapframe->a0] gets the 64 bits of what the call returns. *)
Definition syscall : M (kst T) unit :=
  p ← gets cur;
  a7 ← tf_get p (TF_a 7);
  let num := s32 a7 in
  match syscalls num with
  | Some f =>
      r ← f;
      tf_set p (TF_a 0) (u64 r)
  | None =>
      x ← pfld id p;
      in_prs (printf (ascii_bytes "%d %s: unknown sys call %d" ++ [10])
        [AInt (p_pid x); AStr (Some (field 16 (p_name x))); AInt num]);;
      tf_set p (TF_a 0) (u64 (-1))
  end.
End code.
