(* ===== verification/Trap.v ===== *)
(** * Traps, [kernel/trap.c] and [kernel/plic.c]

    A hart's control registers beside the kernel's state.  A handler that
    yields stops there; what it does when the process runs again is a
    definition of its own. *)

From S2P Require Import Prelude Riscv Memory Locks Kalloc Vm Console Uart Printf Disk Virtio Tx Fs Kernel Proc File Life Dispatch.

Definition SSTATUS_SPP : Z := Z.shiftl 1 8.
Definition SSTATUS_SPIE : Z := Z.shiftl 1 5.
Definition SSTATUS_SIE : Z := Z.shiftl 1 1.

(** The control registers of [kernel/riscv.h] that the handlers use, and
    [tp]. *)
Record hart : Type := Hart {
  stvec : Z;
  sstatus : Z;
  sepc : Z;
  scause : Z;
  stval : Z;
  sip : Z;
  satp : Z;
  tp : Z
}.

Definition set_stvec x h := Hart x (sstatus h) (sepc h) (scause h) (stval h) (sip h) (satp h) (tp h).
Definition set_sstatus x h := Hart (stvec h) x (sepc h) (scause h) (stval h) (sip h) (satp h) (tp h).
Definition set_sepc x h := Hart (stvec h) (sstatus h) x (scause h) (stval h) (sip h) (satp h) (tp h).
Definition set_sip x h := Hart (stvec h) (sstatus h) (sepc h) (scause h) (stval h) x (satp h) (tp h).

(** How a handler of traps ends. *)
Inductive trap_end : Type :=
  | ToUser (pc satp : Z)   (** the jump to [userret], with its argument *)
  | ToKernel               (** back to [kernelvec] *)
  | Yields.                (** in [sched()], called by [yield()] *)

Section code.
  Context `{Platform} {T : Type} `{Store T}.
  (** The registers of the PLIC and of the disk. *)
  Context {P : Type} (plic_read : Z → P → Z * P) (plic_write : Z → Z → P → P) (disk_istatus : vst → Z).

Record tst : Type := Tst {
  ks : kst T;
  hrt : hart;
  vd : vst;
  plic : P
}.

Definition set_ks x s := Tst x (hrt s) (vd s) (plic s).
Definition set_hrt x s := Tst (ks s) x (vd s) (plic s).
Definition set_vd x s := Tst (ks s) (hrt s) x (plic s).
Definition set_plic x s := Tst (ks s) (hrt s) (vd s) x.

Definition in_k {A} (m : M (kst T) A) : M tst A := zoom (Lens ks set_ks) m.
(** The driver wakes processes, too. *)
Definition in_vd {A} (m : M vst A) : M tst A := λ s,
  match zoom (Lens vd set_vd) m s with
  | Done a s t => Done a (set_ks (deliver t (ks s)) s) t
  | r => r
  end.

Definition csr (f : hart → Z) : M tst Z := gets (λ s, f (hrt s)).
Definition w_stvec (x : Z) : M tst unit := modify (λ s, set_hrt (set_stvec x (hrt s)) s).
Definition w_sstatus (x : Z) : M tst unit := modify (λ s, set_hrt (set_sstatus x (hrt s)) s).
Definition w_sepc (x : Z) : M tst unit := modify (λ s, set_hrt (set_sepc x (hrt s)) s).
Definition w_sip (x : Z) : M tst unit := modify (λ s, set_hrt (set_sip x (hrt s)) s).

Definition intr_on : M tst unit := x ← csr sstatus; w_sstatus (Z.lor x SSTATUS_SIE).
Definition intr_off : M tst unit := x ← csr sstatus; w_sstatus (Z.land x (Z.lnot SSTATUS_SIE)).
Definition intr_get : M tst bool := x ← csr sstatus; mret (negb (Z.land x SSTATUS_SIE =? 0)).
Definition cpuid : M tst Z := x ← csr tp; mret (s32 x).

(** ** [kernel/plic.c] *)

Definition plic_st (a v : Z) : M tst unit :=
  modify (λ s, set_plic (plic_write a (u32 v) (plic s)) s);;
  emit (EvMmio a (u32 v)).
Definition plic_ld (a : Z) : M tst Z :=
  s ← get;
  put (set_plic (plic_read a (plic s)).2 s);;
  mret (u32 (plic_read a (plic s)).1).

Definition plicinit : M tst unit :=
  plic_st (PLIC + UART0_IRQ * 4) 1;;
  plic_st (PLIC + VIRTIO0_IRQ * 4) 1.

Definition plicinithart : M tst unit :=
  hart ← cpuid;
  plic_st (PLIC_SENABLE hart) (Z.lor (Z.shiftl 1 UART0_IRQ) (Z.shiftl 1 VIRTIO0_IRQ));;
  plic_st (PLIC_SPRIORITY hart) 0.

Definition plic_claim : M tst Z :=
  hart ← cpuid;
  irq ← plic_ld (PLIC_SCLAIM hart);
  mret (s32 irq).

Definition plic_complete (irq : Z) : M tst unit :=
  hart ← cpuid;
  plic_st (PLIC_SCLAIM hart) irq.

(** ** Interrupts *)

Definition trapinit : M tst unit := initlock LkTicks.
Definition trapinithart : M tst unit := w_stvec kernelvec.

Definition clockintr : M (kst T) unit :=
  acquire LkTicks;;
  modify (λ s, set_ticks (u32 (ticks s + 1)) s);;
  Proc.wakeup ChTicks;;
  release LkTicks.

(** [consoleintr], which calls [procdump] for control-P. *)
Definition console_intr (c : Z) : M (kst T) unit :=
  if c =? Ctl 80 then
    acquire LkCons;;
    procdump;;
    release LkCons
  else in_console (Console.consoleintr c).

(** [uartintr] of [kernel/uart.c]; the device has fewer than [fuel] bytes. *)
Fixpoint uart_receive (fuel : nat) : M (kst T) unit :=
  match fuel with
  | O => nofuel
  | S fuel =>
      c ← in_tty (uartgetc read_reg);
      if c =? -1 then mret tt else console_intr c;; uart_receive fuel
  end.
Definition uart_intr (fuel : nat) : M (kst T) unit :=
  uart_receive fuel;;
  acquire LkUartTx;;
  in_tty (uartstart read_reg write_reg);;
  release LkUartTx.

Definition devintr (fuel : nat) : M tst Z :=
  scause ← csr scause;
  if truthy (Z.land scause 0x8000000000000000) && (Z.land scause 0xff =? 9) then
    irq ← plic_claim;
    (if irq =? UART0_IRQ then in_k (uart_intr fuel)
     else if irq =? VIRTIO0_IRQ then
       st ← gets (λ s, disk_istatus (vd s));
       in_vd (virtio_disk_intr st)
     else if truthy irq then
       in_k (in_prs (printf (ascii_bytes "unexpected interrupt irq=%d" ++ [10]) [AInt irq]))
     else mret tt);;
    (if truthy irq then plic_complete irq else mret tt);;
    mret 1
  else if scause =? 0x8000000000000001 then
    c ← cpuid;
    (if c =? 0 then in_k clockintr else mret tt);;
    x ← csr sip;
    w_sip (Z.land x (Z.lnot 2));;
    mret 2
  else mret 0.

(** ** Traps *)

Definition my : M tst Z := gets (λ s, cur (ks s)).

Definition usertrapret : M tst trap_end :=
  p ← my;
  intr_off;;
  w_stvec (TRAMPOLINE + (uservec - trampoline));;
  satp ← csr satp;
  in_k (tf_set p TF_kernel_satp satp);;
  kstack ← in_k (pfld p_kstack p);
  in_k (tf_set p TF_kernel_sp (u64 (kstack + PGSIZE)));;
  in_k (tf_set p TF_kernel_trap usertrap_pc);;
  tp ← csr tp;
  in_k (tf_set p TF_kernel_hartid tp);;
  x ← csr sstatus;
  w_sstatus (Z.lor (Z.land x (Z.lnot SSTATUS_SPP)) SSTATUS_SPIE);;
  epc ← in_k (tf_get p TF_epc);
  w_sepc epc;;
  pt ← in_k (pfld p_pagetable p);
  mret (ToUser (TRAMPOLINE + (userret - trampoline)) (MAKE_SATP pt)).

(** [yield()] until [sched()], and after it. *)
Definition yield_begin : M (kst T) unit :=
  p ← gets cur;
  acquire (LkProc p);;
  with_proc p (set_state RUNNABLE).
Definition yield_end : M (kst T) unit :=
  p ← gets cur;
  release (LkProc p).

(** [if(killed(p)) exit(-1);] *)
Definition exit_if_killed (p : Z) : M tst unit :=
  k ← in_k (killed p);
  if truthy k then in_k (exit (-1)) else mret tt.

Definition usertrap (fuel : nat) : M tst trap_end :=
  x ← csr sstatus;
  if negb (Z.land x SSTATUS_SPP =? 0) then panic "usertrap: not from user mode"
  else
    w_stvec kernelvec;;
    p ← my;
    epc ← csr sepc;
    in_k (tf_set p TF_epc epc);;
    cause ← csr scause;
    which_dev ←
      (if cause =? 8 then
         exit_if_killed p;;
         epc ← in_k (tf_get p TF_epc);
         in_k (tf_set p TF_epc (u64 (epc + 4)));;
         intr_on;;
         in_k syscall;;
         mret 0
       else
         which_dev ← devintr fuel;
         (if negb (which_dev =? 0) then mret tt
          else
            pid ← in_k (pfld p_pid p);
            epc ← csr sepc;
            tval ← csr stval;
            in_k (in_prs (printf (ascii_bytes "usertrap(): unexpected scause %p pid=%d" ++ [10]) [APtr cause; AInt pid]));;
            in_k (in_prs (printf (ascii_bytes "            sepc=%p stval=%p" ++ [10]) [APtr epc; APtr tval]));;
            in_k (setkilled p));;
         mret which_dev);
    exit_if_killed p;;
    if which_dev =? 2 then
      in_k yield_begin;;
      mret Yields
    else usertrapret.

Definition usertrap_resume : M tst trap_end :=
  in_k yield_end;;
  usertrapret.

(** The end of [kerneltrap]: [yield] may have changed the registers. *)
Definition kerneltrap_end (epc status : Z) : M tst trap_end :=
  w_sepc epc;;
  w_sstatus status;;
  mret ToKernel.

Definition kerneltrap (fuel : nat) : M tst trap_end :=
  epc ← csr sepc;
  status ← csr sstatus;
  cause ← csr scause;
  on ← intr_get;
  if Z.land status SSTATUS_SPP =? 0 then panic "kerneltrap: not from supervisor mode"
  else if (on : bool) then panic "kerneltrap: interrupts enabled"
  else
    which_dev ← devintr fuel;
    if which_dev =? 0 then
      e ← csr sepc;
      tval ← csr stval;
      in_k (in_prs (printf (ascii_bytes "scause %p" ++ [10]) [APtr cause]));;
      in_k (in_prs (printf (ascii_bytes "sepc=%p stval=%p" ++ [10]) [APtr e; APtr tval]));;
      panic "kerneltrap"
    else
      p ← my;
      st ← (if p =? NULL then mret UNUSED else in_k (pfld p_state p));
      if (which_dev =? 2) && negb (p =? NULL) && bool_decide (st = RUNNING) then
        in_k yield_begin;;
        mret Yields
      else kerneltrap_end epc status.

Definition kerneltrap_resume (epc status : Z) : M tst trap_end :=
  in_k yield_end;;
  kerneltrap_end epc status.

(** The first time that a process runs. *)
Definition forkret : M tst trap_end :=
  p ← my;
  release (LkProc p);;
  f ← gets (λ s, first (ks s));
  (if truthy f then
     in_k (modify (set_first 0));;
     in_k (in_fs (fsinit ROOTDEV))
   else mret tt);;
  usertrapret.
End code.
