(* ===== verification/Main.v ===== *)
(** * [main] of the kernel, [kernel/main.c]

    The calls that bring the kernel up, on several harts: hart 0 initialises
    every component and sets [started], on which the others spin.  A step is
    one call; [kvminit] and [kvminithart] of [vm.c] are here, as they change
    the page table of the machine.  [main_boots]: no hart runs ahead of hart
    0, and every hart that enters the scheduler has the page table of the
    kernel and its trap vector. *)

From S2P Require Import Prelude Riscv Memory Locks Kalloc Vm Console Uart Printf Disk Log LogSpec Bio Virtio Tx TxLog Fs.
From S2P Require Import Kernel Proc File Life Dispatch Trap.

Section code.
  Context `{Platform} {P D : Type} (etext : Z).
  (** The registers of the PLIC and of the disk. *)
  Context (plic_write : Z → Z → P → P) (vread : Z → D → Z * D) (vwrite : Z → Z → D → D).

(** The machine: the state of the kernel, the disk driver with its device and
    pages, the PLIC, the harts, and the variables of [vm.c] and [main.c]. *)
Record mach : Type := Mach {
  kern : kst lst;
  vdrv : vst;
  vdev : D;
  vpages : list Z;
  mplic : P;
  harts : Z → hart;
  kernel_pagetable : Z;
  started : Z
}.

Definition set_kern x m := Mach x (vdrv m) (vdev m) (vpages m) (mplic m) (harts m) (kernel_pagetable m) (started m).
Definition set_harts x m := Mach (kern m) (vdrv m) (vdev m) (vpages m) (mplic m) x (kernel_pagetable m) (started m).
Definition set_kernel_pagetable x m := Mach (kern m) (vdrv m) (vdev m) (vpages m) (mplic m) (harts m) x (started m).
Definition set_started x m := Mach (kern m) (vdrv m) (vdev m) (vpages m) (mplic m) (harts m) (kernel_pagetable m) x.

(** The parts of the machine that the initialisers work on. *)
Definition in_kern {A} (c : M (kst lst) A) : M mach A := zoom (Lens kern set_kern) c.
Definition trap_lens (h : Z) : lens mach (tst (T := lst) (P := P)) :=
  Lens (λ m, Tst (kern m) (harts m h) (vdrv m) (mplic m))
       (λ t m, Mach (ks t) (vd t) (vdev m) (vpages m) (plic t) (upd (harts m) h (hrt t)) (kernel_pagetable m) (started m)).
Definition in_trap {A} (h : Z) (c : M tst A) : M mach A := zoom (trap_lens h) c.
Definition disk_lens : lens mach (ist (D := D)) :=
  Lens (λ m, Ist (vdev m) (km (kern m)) (vdrv m) (vpages m))
       (λ i m, Mach (set_km (ikm i) (kern m)) (drv i) (device i) (pages i) (mplic m) (harts m) (kernel_pagetable m) (started m)).
Definition in_disk {A} (c : M ist A) : M mach A := zoom disk_lens c.

(** [vm.c] *)
Definition kvminit : M mach unit :=
  r ← in_kern (in_km (kvmmake etext trampoline));
  modify (set_kernel_pagetable r).
Definition kvminithart (h : Z) : M mach unit :=
  modify (λ m, set_harts (upd (harts m) h
    (let r := harts m h in Hart (stvec r) (sstatus r) (sepc r) (scause r) (stval r) (sip r) (MAKE_SATP (kernel_pagetable m)) (tp r))) m).

(** ** [main] *)

(** A call, or [while(started == 0) ;]. *)
Inductive instr : Type := Do (c : M mach unit) | Spin.

Definition mprintf (fmt : string) (args : list arg) : M mach unit := in_kern (kprintf fmt args).

(** Hart 0. *)
Definition main_first : list instr := [
  Do (in_kern consoleinit);
  Do (in_kern (in_prs printfinit));
  Do (mprintf "
" []);
  Do (mprintf "xv6 kernel is booting
" []);
  Do (mprintf "
" []);
  Do (in_kern (in_km (kinit kend)));
  Do kvminit;
  Do (kvminithart 0);
  Do (in_kern procinit);
  Do (in_trap 0 trapinit);
  Do (in_trap 0 trapinithart);
  Do (in_trap 0 (plicinit plic_write));
  Do (in_trap 0 (plicinithart plic_write));
  Do (in_kern (in_fs (in_store (in_cache binit))));
  Do (in_kern (in_fs iinit));
  Do (in_kern fileinit);
  Do (in_disk (virtio_disk_init vread vwrite));
  Do (in_kern userinit);
  Do (modify (set_started 1))
].

(** The others. *)
Definition main_other (h : Z) : list instr := [
  Spin;
  Do (mprintf "hart %d starting
" [AInt h]);
  Do (kvminithart h);
  Do (in_trap h trapinithart);
  Do (in_trap h (plicinithart plic_write))
].

Definition main (h : Z) : list instr := if h =? 0 then main_first else main_other h.

(** ** The harts together *)

(** How far each hart is; past the end of [main] it is in [scheduler]. *)
Record world : Type := World { machine : mach; pc : Z → nat }.

Definition advance (h : Z) (m : mach) (w : world) : world := World m (upd (pc w) h (S (pc w h))).

Inductive step : world → world → Prop :=
  | step_do h w c m t :
      0 ≤ h < NCPU → main h !! pc w h = Some (Do c) → c (machine w) = Done tt m t → step w (advance h m w)
  | step_spin h w :
      0 ≤ h < NCPU → main h !! pc w h = Some Spin → started (machine w) = 0 → step w w
  | step_go h w :
      0 ≤ h < NCPU → main h !! pc w h = Some Spin → started (machine w) ≠ 0 → step w (advance h (machine w) w).

Definition scheduling (w : world) (h : Z) : Prop := pc w h = length (main h).

(** ** What the calls change *)

(** Where [main] of hart [h] calls [kvminithart] and [trapinithart]. *)
Definition at_satp (h : Z) : nat := if h =? 0 then 7 else 2.
Definition at_stvec (h : Z) : nat := if h =? 0 then 10 else 3.

(** The call [i] of hart [h]: [kvminit] sets the page table, the last call of
    hart 0 sets [started], and each hart sets its own registers. *)
Record effect (h : Z) (i : nat) (m m' : mach) : Prop := {
  ef_table : ¬ (h = 0 ∧ i = 6%nat) → kernel_pagetable m' = kernel_pagetable m;
  ef_started : started m' = if decide (h = 0 ∧ i = 18%nat) then 1 else started m;
  ef_other j : j ≠ h → harts m' j = harts m j;
  ef_satp : satp (harts m' h) = if decide (i = at_satp h) then MAKE_SATP (kernel_pagetable m) else satp (harts m h);
  ef_stvec : stvec (harts m' h) = if decide (i = at_stvec h) then kernelvec else stvec (harts m h)
}.

(** The variables and registers that most calls leave alone. *)
Definition leaves (h : Z) (c : M mach unit) : Prop := ∀ m m' t, c m = Done tt m' t →
  kernel_pagetable m' = kernel_pagetable m ∧ started m' = started m ∧ (∀ j, j ≠ h → harts m' j = harts m j) ∧
  satp (harts m' h) = satp (harts m h) ∧ stvec (harts m' h) = stvec (harts m h).

Lemma leaves_kern h c : leaves h (in_kern c).
Proof. intros m m' t E. unfold in_kern, zoom in E. destruct (c _) as [[] x tr| | | | |]; try discriminate. by injection E as <- <-. Qed.
Lemma leaves_disk h c : leaves h (in_disk c).
Proof. intros m m' t E. unfold in_disk, zoom in E. destruct (c _) as [[] x tr| | | | |]; try discriminate. by injection E as <- <-. Qed.
Lemma leaves_trap h c :
  (∀ t t' tr, c t = Done tt t' tr → satp (hrt t') = satp (hrt t) ∧ stvec (hrt t') = stvec (hrt t)) → leaves h (in_trap h c).
Proof.
  intros Hc m m' t E. unfold in_trap, zoom in E. destruct (c _) as [[] t' tr| | | | |] eqn:Ec; try discriminate.
  injection E as <- <-. apply Hc in Ec as [E1 E2]. cbn. rewrite upd_eq. split_and!; try done. intros j Hj. by apply upd_ne.
Qed.

Lemma leaves_effect h i c m m' t :
  leaves h c → c m = Done tt m' t → ¬ (h = 0 ∧ i = 18%nat) → i ≠ at_satp h → i ≠ at_stvec h → effect h i m m'.
Proof.
  intros Hc E H1 H2 H3. destruct (Hc m m' t E) as (E1 & E2 & E3 & E4 & E5).
  split; rewrite ?decide_False by done; done.
Qed.

Lemma kvminithart_effect h i m : i = at_satp h → i ≠ at_stvec h → ¬ (h = 0 ∧ i = 18%nat) →
  effect h i m (set_harts (upd (harts m) h (Hart (stvec (harts m h)) (sstatus (harts m h)) (sepc (harts m h)) (scause (harts m h))
    (stval (harts m h)) (sip (harts m h)) (MAKE_SATP (kernel_pagetable m)) (tp (harts m h)))) m).
Proof.
  intros H1 H2 H3. split; cbn; rewrite ?upd_eq.
  - done.
  - by rewrite decide_False.
  - intros j Hj. by apply upd_ne.
  - by rewrite decide_True.
  - by rewrite decide_False.
Qed.

Lemma trapinithart_effect h i m m' t : i = at_stvec h → i ≠ at_satp h → ¬ (h = 0 ∧ i = 18%nat) →
  in_trap h trapinithart m = Done tt m' t → effect h i m m'.
Proof.
  intros H1 H2 H3 E. injection E as <- <-. split; cbn; rewrite ?upd_eq.
  - done.
  - by rewrite decide_False.
  - intros j Hj. by apply upd_ne.
  - by rewrite decide_False.
  - by rewrite decide_True.
Qed.

Lemma leaves_plicinit h : leaves h (in_trap h (plicinit plic_write)).
Proof. apply leaves_trap. intros t t' tr E. by injection E as <- <-. Qed.
Lemma leaves_plicinithart h : leaves h (in_trap h (plicinithart plic_write)).
Proof. apply leaves_trap. intros t t' tr E. by injection E as <- <-. Qed.
Lemma leaves_trapinit h : leaves h (in_trap h trapinit).
Proof. apply leaves_trap. intros t t' tr E. by injection E as <- <-. Qed.

Lemma kvminit_effect m m' t : kvminit m = Done tt m' t → effect 0 6 m m'.
Proof.
  intros (r & m1 & t1 & t2 & E1 & E2 & _)%bind_done_inv. injection E2 as <- <-.
  unfold in_kern, zoom in E1. destruct (in_km _ _); try discriminate. injection E1 as <- <- <-. split; try done. intros []. by split.
Qed.

Lemma started_effect m m' t : modify (set_started 1) m = Done tt m' t → effect 0 18 m m'.
Proof. intros E. injection E as <- <-. by split. Qed.

Lemma do_inj (a c : M mach unit) : Some (Do a) = Some (Do c) → c = a.
Proof. by intros [= ->]. Qed.

(** The call in [E]. *)
Ltac known_call Hi E :=
  rewrite (do_inj _ _ Hi) in E; clear Hi;
  lazymatch type of E with
  | kvminit _ = _ => exact (kvminit_effect _ _ _ E)
  | kvminithart _ _ = _ => injection E as <- <-; apply kvminithart_effect
  | in_trap _ trapinithart _ = _ => refine (trapinithart_effect _ _ _ _ _ _ _ _ E); clear E
  | modify _ _ = _ => exact (started_effect _ _ _ E)
  | in_kern _ _ = _ => refine (leaves_effect _ _ _ _ _ _ (leaves_kern _ _) E _ _ _); clear E
  | mprintf _ _ _ = _ => refine (leaves_effect _ _ _ _ _ _ (leaves_kern _ _) E _ _ _); clear E
  | in_disk _ _ = _ => refine (leaves_effect _ _ _ _ _ _ (leaves_disk _ _) E _ _ _); clear E
  | in_trap _ trapinit _ = _ => refine (leaves_effect _ _ _ _ _ _ (leaves_trapinit _) E _ _ _); clear E
  | in_trap _ (plicinit _) _ = _ => refine (leaves_effect _ _ _ _ _ _ (leaves_plicinit _) E _ _ _); clear E
  | in_trap _ (plicinithart _) _ = _ => refine (leaves_effect _ _ _ _ _ _ (leaves_plicinithart _) E _ _ _); clear E
  end.

Lemma main_effect h i c m m' t : main h !! i = Some (Do c) → c m = Done tt m' t → effect h i m m'.
Proof.
  unfold main. destruct (Z.eqb_spec h 0) as [->|Hh]; intros Hi E.
  - do 19 (destruct i as [|i]; [solve [known_call Hi E; first [reflexivity|done|lia]]|]). done.
  - assert (at_satp h = 2%nat ∧ at_stvec h = 3%nat) as [Ea Es] by (unfold at_satp, at_stvec; by rewrite (proj2 (Z.eqb_neq h 0))).
    destruct i as [|i]; [discriminate|].
    do 4 (destruct i as [|i]; [solve [known_call Hi E; lia]|]). done.
Qed.

(** ** All harts *)

Record winv (w : world) : Prop := {
  wi_pc h : 0 ≤ h < NCPU → (pc w h ≤ length (main h))%nat;
  wi_started : started (machine w) ≠ 0 ↔ pc w 0 = 19%nat;
  wi_behind h : 0 < h < NCPU → (0 < pc w h)%nat → pc w 0 = 19%nat;
  wi_satp h : 0 ≤ h < NCPU → (at_satp h < pc w h)%nat → satp (harts (machine w) h) = MAKE_SATP (kernel_pagetable (machine w));
  wi_stvec h : 0 ≤ h < NCPU → (at_stvec h < pc w h)%nat → stvec (harts (machine w) h) = kernelvec
}.

Definition reset (w : world) : Prop := (∀ h, pc w h = 0%nat) ∧ started (machine w) = 0.

Lemma reset_inv w : reset w → winv w.
Proof. intros [H1 H2]. split; intros; rewrite ?H1, ?H2 in *; lia. Qed.

Lemma main_bound h i c : main h !! i = Some c → (i < length (main h))%nat.
Proof. apply lookup_lt_Some. Qed.

Lemma do_inv w h c m t :
  winv w → 0 ≤ h < NCPU → main h !! pc w h = Some (Do c) → c (machine w) = Done tt m t → winv (advance h m w).
Proof.
  intros [I1 I2 I3 I4 I5] Hh Hc E. pose proof (main_bound _ _ _ Hc) as Hb. destruct (main_effect h (pc w h) c _ m t Hc E) as [F1 F2 F3 F4 F5].
  assert (0 < h → pc w 0 = 19%nat) as Hpos.
  { intros Hp. apply (I3 h); [lia|]. destruct (pc w h); [|lia]. unfold main in Hc. rewrite (proj2 (Z.eqb_neq h 0)) in Hc by lia. discriminate. }
  assert (h = 0 → (pc w 0 < 19)%nat) as Hz by (intros ->; exact Hb).
  split; cbn [machine pc advance]; unfold upd; rewrite ?F2.
  - intros j Hj. destruct (decide (j = h)) as [->|]; [lia|by apply I1].
  - destruct (decide (h = 0)) as [->|Hne].
    + rewrite (decide_True (P := 0 = 0)) by done. destruct (decide (pc w 0 = 18%nat)) as [E18|E18].
      * rewrite decide_True by done. rewrite E18. done.
      * rewrite decide_False by lia. rewrite I2. lia.
    + rewrite (decide_False (P := 0 = h)), decide_False by lia. done.
  - intros j Hj. destruct (decide (0 = h)) as [<-|Hne].
    + rewrite decide_False by lia. intros Hpj. specialize (I3 j Hj Hpj). lia.
    + intros _. apply Hpos. lia.
  - intros j Hj. destruct (decide (j = h)) as [->|Hne].
    + rewrite F4. intros Hp. destruct (decide (pc w h = at_satp h)) as [Ea|Ea]; [rewrite F1; [done|]|rewrite F1; [apply I4; [done|lia]|]].
      * intros [-> E6]. rewrite E6 in Ea. discriminate.
      * intros [-> E6]. rewrite E6 in Hp. change (at_satp 0) with 7%nat in Hp. lia.
    + intros Hp. rewrite F3, F1 by (done || (intros [-> E6]; rewrite (I3 j) in E6 by lia; discriminate)). by apply I4.
  - intros j Hj. destruct (decide (j = h)) as [->|Hne].
    + rewrite F5. intros Hp. destruct (decide (pc w h = at_stvec h)) as [Ea|Ea]; [done|]. apply I5; [done|lia].
    + intros Hp. rewrite F3 by done. by apply I5.
Qed.

Lemma step_keeps_winv w w' : winv w → step w w' → winv w'.
Proof.
  intros HI Hs. destruct Hs as [h w c m t Hh Hc E|h w Hh Hc Hst|h w Hh Hc Hst]; [by eapply do_inv|done|].
  pose proof (main_bound _ _ _ Hc) as Hb. destruct HI as [I1 I2 I3 I4 I5]. apply I2 in Hst as H19.
  assert (h ≠ 0) as Hne. { intros ->. change (length (main 0)) with 19%nat in Hb. lia. }
  assert (pc w h = 0%nat) as Hp0.
  { unfold main in Hc. rewrite (proj2 (Z.eqb_neq h 0)) in Hc by done. destruct (pc w h) as [|i]; [done|exfalso]. do 4 (destruct i as [|i]; [discriminate Hc|]). discriminate Hc. }
  split; cbn [machine pc advance]; unfold upd.
  - intros j Hj. case_decide; [subst; lia|by apply I1].
  - rewrite decide_False by done. done.
  - intros j Hj _. by rewrite decide_False.
  - intros j Hj. case_decide as E; [subst|by apply I4]. rewrite Hp0. unfold at_satp. case_if; lia.
  - intros j Hj. case_decide as E; [subst|by apply I5]. rewrite Hp0. unfold at_stvec. case_if; lia.
Qed.

(** The harts come up in order.  Whatever the interleaving of their calls,
    no hart goes past its wait for [started] before hart 0 has made all its
    calls, and a hart that enters the scheduler has paging on with the page
    table that [kvminit] made and takes its traps at [kernelvec]. *)
Theorem main_boots w w' h :
  reset w → rtc step w w' → 0 ≤ h < NCPU →
  ((0 < pc w' h)%nat → h ≠ 0 → scheduling w' 0) ∧
  (scheduling w' h → satp (harts (machine w') h) = MAKE_SATP (kernel_pagetable (machine w')) ∧ stvec (harts (machine w') h) = kernelvec).
Proof.
  intros Hr Hs Hh. assert (winv w') as [I1 I2 I3 I4 I5].
  { apply reset_inv in Hr. induction Hs as [|w w1 w' H1 _ IH]; [done|]. apply IH. by eapply step_keeps_winv. }
  split.
  - intros Hp Hne. apply (I3 h); [lia|done].
  - unfold scheduling. intros Hp. split; [apply I4|apply I5]; try done; rewrite Hp; unfold main, at_satp, at_stvec; case_if; cbn; lia.
Qed.
End code.
