(* ===== verification/Calm.v ===== *)
(** * Calls that leave the open files alone

    [calmly] holds of code that changes neither descriptors nor reference
    counts, and makes no process idle that has open files.  It is proved along
    the code.  [wp] is what holds when a call returns or the process exits.
    Refs uses both. *)

From S2P Require Import Prelude Riscv Memory Locks Kalloc Vm Console Uart Pipe Printf Disk Tx Fs.
From S2P Require Import Kernel Proc File Life Syscall Exec Sysfile Dispatch.

Section calm.
  Context `{Platform} {T : Type} `{Store T}.
  Implicit Types (s : kst T) (e : Z → Z).

(** ** Code that leaves files alone *)

Definition idle (st : procstate) : Prop := st = UNUSED ∨ st = ZOMBIE.

(** Process [p] has no open files. *)
Definition closed s p : Prop := ∀ fd, 0 ≤ fd < NOFILE → p_ofile (procs s p) fd = NULL.

(** [s'] has the descriptors of [s], and only other processes without open
    files have become idle. *)
Record steady s s' : Prop := {
  sd_cur : cur s' = cur s;
  sd_ofile p : p_ofile (procs s' p) = p_ofile (procs s p);
  sd_idle p : idle (p_state (procs s' p)) → idle (p_state (procs s p)) ∨ closed s p ∧ p ≠ cur s
}.

(** The reference counts are the same, too. *)
Definition calm s s' : Prop := steady s s' ∧ ∀ f, f_ref (ftable s' f) = f_ref (ftable s f).

Lemma steady_refl s : steady s s.
Proof. split; auto. Qed.
Lemma steady_same s s' : cur s' = cur s → procs s' = procs s → steady s s'.
Proof. intros Hc Hp. split; rewrite ?Hp; auto. Qed.
Lemma steady_closed s s' p : steady s s' → closed s' p ↔ closed s p.
Proof. intros Hc. unfold closed. by rewrite (sd_ofile _ _ Hc). Qed.
Lemma steady_trans s1 s2 s3 : steady s1 s2 → steady s2 s3 → steady s1 s3.
Proof.
  intros H1 H2. pose proof (λ p, steady_closed s1 s2 p H1) as Hcl. destruct H1 as [? ? Hi1], H2 as [? ? Hi2].
  split; intros; try congruence. destruct (Hi2 p) as [?|[? ?]]; auto. right. split; [by apply Hcl|congruence].
Qed.

Lemma calm_refl s : calm s s.
Proof. split; [apply steady_refl|done]. Qed.
Lemma calm_trans s1 s2 s3 : calm s1 s2 → calm s2 s3 → calm s1 s3.
Proof. intros [? Ha] [? Hb]. split; [by eapply steady_trans|]. intros f. by rewrite Hb, Ha. Qed.
Lemma calm_same s s' : cur s' = cur s → procs s' = procs s → ftable s' = ftable s → calm s s'.
Proof. intros Hc Hp Hf. split; [by apply steady_same|]. by rewrite Hf. Qed.

(** [m] from [s] is calm, however it ends. *)
Definition calms {A} (m : M (kst T) A) s : Prop :=
  match m s with
  | Done _ s' _ | Panicked _ s' _ | Sleeping _ _ s' _ | Switched s' _ => calm s s'
  | Undef _ | NoFuel => True
  end.
Definition calmly {A} (m : M (kst T) A) : Prop := ∀ s, calms m s.

Lemma calmly_ret {A} (a : A) : calmly (mret a).
Proof. intros s. apply calm_refl. Qed.
Lemma calmly_gets {A} (f : kst T → A) : calmly (gets f).
Proof. intros s. apply calm_refl. Qed.
Lemma calmly_get : calmly (get : M (kst T) (kst T)).
Proof. intros s. apply calm_refl. Qed.
Lemma calmly_emit ev : calmly (emit ev).
Proof. intros s. apply calm_refl. Qed.
Lemma calmly_panic {A} msg : calmly (panic msg : M (kst T) A).
Proof. intros s. apply calm_refl. Qed.
Lemma calmly_undef {A} msg : calmly (undef msg : M (kst T) A).
Proof. by intros s. Qed.
Lemma calmly_nofuel {A} : calmly (nofuel : M (kst T) A).
Proof. by intros s. Qed.

Lemma calms_bind {A B} (m : M (kst T) A) (f : A → M (kst T) B) s :
  calms m s → (∀ a s' t, m s = Done a s' t → calm s s' → calms (f a) s') → calms (m ≫= f) s.
Proof.
  unfold calms. intros Hm Hf. unfold mbind, M_bind. destruct (m s) as [a s1 t1| | | | |]; try done.
  specialize (Hf a s1 t1 eq_refl Hm). destruct (f a s1); simpl; try done; by eapply calm_trans.
Qed.

Lemma calmly_bind {A B} (m : M (kst T) A) (f : A → M (kst T) B) :
  calmly m → (∀ a, calmly (f a)) → calmly (m ≫= f).
Proof. intros Hm Hf s. apply calms_bind; [apply Hm|]. intros. apply Hf. Qed.

Lemma calmly_modify (f : kst T → kst T) : (∀ s, calm s (f s)) → calmly (modify f).
Proof. intros Hf s. apply Hf. Qed.

Lemma calmly_with_proc p (f : proc → proc) :
  (∀ x, p_ofile (f x) = p_ofile x) → (∀ x, idle (p_state (f x)) → idle (p_state x)) → calmly (with_proc p f).
Proof.
  intros H1 H2. apply calmly_modify. intros s. split; [|done]. split; try done; intros q; simpl; unfold upd; case_decide; subst; auto.
Qed.

Lemma calmly_with_file x (f : file → file) : (∀ y, f_ref (f y) = f_ref y) → calmly (with_file x f).
Proof. intros Hf. apply calmly_modify. intros s. split; [by apply steady_same|]. intros y. simpl. unfold upd. case_decide; subst; auto. Qed.

Lemma calm_deliver t s : calm s (deliver t s).
Proof.
  unfold deliver. revert s. induction t as [|ev t IH]; intros s; [apply calm_refl|]. simpl.
  eapply calm_trans; [|apply IH]. destruct ev; try apply calm_refl.
  split; [|done]. split; try done; intros p; simpl; unfold woken; case_if; auto. by intros [?|?].
Qed.

Lemma calm_fall_asleep c s : calm s (fall_asleep c s).
Proof.
  unfold fall_asleep, myproc. split; [|done]. split; try done; intros p; simpl; unfold upd; case_decide; subst; auto. by intros [?|?].
Qed.

Lemma calmly_zoom {S A} (l : lens (kst T) S) (m : M S A) : (∀ x s, calm s (over l x s)) → calmly (zoom l m).
Proof. intros Hl s. unfold calms, zoom. destruct (m (view l s)); simpl; auto. Qed.

Lemma calmly_lift {S A} (l : lens (kst T) S) (m : M S A) : (∀ x s, calm s (over l x s)) → calmly (lift l m).
Proof.
  intros Hl s. pose proof (calmly_zoom l m Hl s) as Hz. unfold calms in *. unfold lift.
  destruct (zoom l m s); try done; try (eapply calm_trans; [exact Hz|apply calm_deliver]).
  eapply calm_trans; [exact Hz|]. eapply calm_trans; [apply calm_deliver|apply calm_fall_asleep].
Qed.

Lemma calmly_in_km {A} (m : M kmem A) : calmly (in_km m).
Proof. apply calmly_zoom. intros x s. by apply calm_same. Qed.
Lemma calmly_in_fs {A} (m : M _ A) : calmly (in_fs m).
Proof. apply calmly_lift. intros x s. by apply calm_same. Qed.
Lemma calmly_in_pipe {A} pi (m : M Pipe.pipe A) : calmly (in_pipe pi m).
Proof. apply calmly_lift. intros x s. by apply calm_same. Qed.
Lemma calmly_in_console {A} (m : M Console.cons A) : calmly (in_console m).
Proof. apply calmly_lift. intros x s. by apply calm_same. Qed.
Lemma calmly_in_tty {A} (m : M Uart.uart A) : calmly (in_tty m).
Proof. apply calmly_lift. intros x s. by apply calm_same. Qed.
Lemma calmly_in_prs {A} (m : M Printf.prst A) : calmly (in_prs m).
Proof. apply calmly_lift. intros x s. by apply calm_same. Qed.
Lemma calmly_sleep {A} c l : calmly (sleep c l : M (kst T) A).
Proof. intros s. apply calm_fall_asleep. Qed.
Lemma calmly_asleep {A} c l : calmly (asleep c l : M (kst T) A).
Proof. intros s. apply calm_fall_asleep. Qed.

End calm.

Create HintDb calm discriminated.
#[export] Hint Resolve calmly_ret calmly_gets calmly_get calmly_emit calmly_panic calmly_undef calmly_nofuel
  calmly_in_km calmly_in_fs calmly_in_pipe calmly_in_console calmly_in_tty calmly_in_prs calmly_sleep calmly_asleep : calm.

(** Prove [calmly] along the code. *)
Ltac calm_step :=
  match goal with
  | |- calmly (_ ≫= _) => apply calmly_bind; [|intros ?]
  | |- calmly (with_proc _ _) => apply calmly_with_proc; [done|try done; by intros ? [?|?]]
  | |- calmly (with_file _ _) => by apply calmly_with_file
  | |- calmly (modify _) => apply calmly_modify; intros ?; by apply calm_same
  | |- calmly (match ?x with _ => _ end) => destruct x
  | |- calmly _ => solve [auto with calm nocore]
  end.
Ltac calm_auto := cbv zeta; repeat calm_step.
Ltac calms_auto := match goal with |- calms ?m ?s => let Hm := fresh in assert (calmly m) as Hm by calm_auto; exact (Hm s) end.
(** Step over a calm call. *)
Tactic Notation "calm_call" ident(Hc) := apply calms_bind; [calms_auto|]; intros ? ? ? _ Hc.

Section quiet.
  Context `{Platform} {T : Type} `{Store T}.

Lemma calmly_begin_op : calmly (begin_op : M (kst T) unit).
Proof. apply calmly_in_fs. Qed.
Lemma calmly_end_op : calmly (end_op : M (kst T) unit).
Proof. apply calmly_in_fs. Qed.
Lemma calmly_acquire l : calmly (acquire l : M (kst T) unit).
Proof. apply calmly_emit. Qed.
Lemma calmly_release l : calmly (release l : M (kst T) unit).
Proof. apply calmly_emit. Qed.
Lemma calmly_initlock l : calmly (initlock l : M (kst T) unit).
Proof. apply calmly_emit. Qed.
Lemma calmly_pfld {A} (f : proc → A) p : calmly (pfld f p : M (kst T) A).
Proof. apply calmly_gets. Qed.
Lemma calmly_ffld {A} (f : file → A) x : calmly (ffld f x : M (kst T) A).
Proof. apply calmly_gets. Qed.
End quiet.
#[export] Hint Resolve calmly_begin_op calmly_end_op calmly_acquire calmly_release calmly_initlock calmly_pfld calmly_ffld : calm.

Section quiet.
  Context `{Platform} {T : Type} `{Store T}.

Lemma calmly_tf_get p off : calmly (tf_get p off : M (kst T) Z).
Proof. unfold tf_get. calm_auto. Qed.
Lemma calmly_tf_set p off v : calmly (tf_set p off v : M (kst T) unit).
Proof. unfold tf_set. calm_auto. Qed.
Lemma calmly_kprintf f a : calmly (kprintf f a : M (kst T) unit).
Proof. unfold kprintf. calm_auto. Qed.
Lemma calmly_copyout_cur va l : calmly (copyout_cur va l : M (kst T) Z).
Proof. unfold copyout_cur. calm_auto. Qed.
Lemma calmly_copyin_cur va n : calmly (copyin_cur va n : M (kst T) (Z * list Z)).
Proof. unfold copyin_cur. calm_auto. Qed.
End quiet.
#[export] Hint Resolve calmly_tf_get calmly_tf_set calmly_kprintf calmly_copyout_cur calmly_copyin_cur : calm.

(** ** Processes *)

Section procs.
  Context `{Platform} {T : Type} `{Store T}.
  Implicit Types (s : kst T).

Lemma calmly_killed p : calmly (killed p : M (kst T) Z).
Proof. unfold killed. calm_auto. Qed.
Lemma calmly_setkilled p : calmly (setkilled p : M (kst T) unit).
Proof. unfold setkilled. calm_auto. Qed.
Lemma calmly_wakeup c : calmly (Proc.wakeup c : M (kst T) unit).
Proof. unfold Proc.wakeup. generalize (Z.to_nat NPROC) 0. intros k. induction k; intros p; simpl; calm_auto. Qed.
#[local] Hint Resolve calmly_killed calmly_wakeup : calm.
Lemma calmly_kill pid : calmly (kill pid : M (kst T) Z).
Proof. unfold kill. generalize (Z.to_nat NPROC) 0. intros k. induction k; intros p; simpl; calm_auto. Qed.
Lemma calmly_reparent p : calmly (reparent p : M (kst T) unit).
Proof. unfold reparent. generalize (Z.to_nat NPROC) 0. intros k. induction k; intros q; simpl; calm_auto. Qed.
Lemma calmly_growproc n : calmly (growproc n : M (kst T) Z).
Proof. unfold growproc. calm_auto. Qed.
Lemma calmly_allocpid : calmly (allocpid : M (kst T) Z).
Proof. unfold allocpid. calm_auto. Qed.
Lemma calmly_print_hello n : calmly (print_hello n : M (kst T) unit).
Proof. unfold print_hello. calm_auto. Qed.

(** Idle processes have no open files. *)
Definition tidy s : Prop := ∀ p, 0 ≤ p < NPROC → idle (p_state (procs s p)) → closed s p.

Lemma steady_tidy s s' : steady s s' → tidy s → tidy s'.
Proof. intros Hc Ht p Hp Hi. apply (steady_closed _ _ _ Hc). destruct (sd_idle _ _ Hc p Hi) as [?|[? _]]; auto. Qed.

(** The process that runs. *)
Definition running s : Prop := 0 ≤ cur s < NPROC ∧ ¬ idle (p_state (procs s (cur s))).

Lemma steady_running s s' : steady s s' → running s → running s'.
Proof.
  intros Hc [Hr Hi]. unfold running. rewrite (sd_cur _ _ Hc). split; [done|]. intros [?|[_ ?]]%(sd_idle _ _ Hc); done.
Qed.

(** A process without open files that does not run. *)
Definition unused s p : Prop := 0 ≤ p < NPROC ∧ closed s p ∧ p ≠ cur s.

Lemma steady_unused s s' p : steady s s' → unused s p → unused s' p.
Proof. intros Hc (? & ? & ?). unfold unused. rewrite (sd_cur _ _ Hc), (steady_closed _ _ _ Hc). done. Qed.

Lemma idle_unused s p : tidy s → running s → 0 ≤ p < NPROC → idle (p_state (procs s p)) → unused s p.
Proof. intros Ht [Hr Hi] Hp Hip. split; [done|]. split; [by apply Ht|]. intros ->. done. Qed.

Lemma calms_freeproc s p : unused s p → calms (freeproc p) s.
Proof.
  intros Hp. unfold freeproc. repeat (calm_call Hc; apply (steady_unused _ _ _ (proj1 Hc)) in Hp; clear Hc).
  destruct Hp as (_ & Hp & Hne). unfold calms, with_proc, modify.
  split; [|done]. split; try done; intros q; simpl; unfold upd; case_decide; subst; auto.
Qed.

Lemma find_unused_proc_run k p s :
  returns (find_unused_proc k p) s (λ r s' _,
    s' = s ∧ (r = NULL ∨ p ≤ r < p + Z.of_nat k ∧ p_state (procs s r) = UNUSED)).
Proof.
  revert p. induction k as [|k IH]; intros p; cbn [find_unused_proc]; [apply returns_ret; auto|].
  do 2 call reflexivity. case_bool_decide as Hu.
  - apply returns_ret. split; [done|]. right. split; [lia|done].
  - call reflexivity. eapply returns_mono; [apply IH|]. intros r s' t (-> & [?|[? ?]]); split; auto. right. split; [lia|done].
Qed.

(** What holds where a call ends: if the process has exited, the counts are
    right; see [refs]. *)
Definition wp {A} (m : M (kst T) A) s (Q : A → kst T → Prop) (X : kst T → Prop) : Prop :=
  match m s with
  | Done a s' _ => Q a s'
  | Switched s' _ => idle (p_state (myproc s')) → X s'
  | _ => True
  end.

Lemma wp_bind {A B} (m : M (kst T) A) (f : A → M (kst T) B) s Q X :
  wp m s (λ a s', wp (f a) s' Q X) X → wp (m ≫= f) s Q X.
Proof.
  unfold wp, mbind, M_bind. destruct (m s) as [a s1 t1| | | | |]; try done. destruct (f a s1); done.
Qed.

Lemma wp_mono {A} (m : M (kst T) A) s (Q Q' : A → kst T → Prop) X :
  wp m s Q X → (∀ a s', Q a s' → Q' a s') → wp m s Q' X.
Proof. unfold wp. destruct (m s); auto. Qed.

Lemma wp_ret {A} (a : A) s (Q : A → kst T → Prop) X : Q a s → wp (mret a) s Q X.
Proof. done. Qed.

Lemma wp_done {A} (m : M (kst T) A) s a s' t (Q : A → kst T → Prop) X : m s = Done a s' t → Q a s' → wp m s Q X.
Proof. unfold wp. by intros ->. Qed.

Lemma wp_calm {A} (m : M (kst T) A) s (Q : A → kst T → Prop) X :
  calms m s → running s → (∀ a s', calm s s' → Q a s') → wp m s Q X.
Proof.
  unfold calms, wp. intros Hm Hr HQ. destruct (m s); try done; [by apply HQ|].
  intros Hi. by destruct (steady_running _ _ (proj1 Hm) Hr).
Qed.

Lemma wp_returns {A} (m : M (kst T) A) s Q' (Q : A → kst T → Prop) X :
  returns m s Q' → (∀ a s' t, Q' a s' t → Q a s') → wp m s Q X.
Proof. unfold wp, returns. destruct (m s); try done. eauto. Qed.

End procs.

#[export] Hint Resolve calmly_killed calmly_setkilled calmly_wakeup calmly_kill calmly_reparent calmly_growproc
  calmly_allocpid calmly_print_hello : calm.

(** Carry what is known of the state over a step. *)
Ltac steady_known Hc :=
  repeat match type of Hc with steady ?s ?s' =>
    match goal with
    | Hk : running s |- _ => apply (steady_running _ _ Hc) in Hk
    | Hk : unused s _ |- _ => apply (steady_unused _ _ _ Hc) in Hk
    | Hk : tidy s |- _ => apply (steady_tidy _ _ Hc) in Hk
    | Hk : cur s = _ |- _ => rewrite <-(sd_cur _ _ Hc) in Hk
    | Hk : steady _ s |- _ =>
        let H' := fresh in pose proof (steady_trans _ _ _ Hk Hc) as H'; clear Hk; rename H' into Hk
    end
  end; clear Hc.
(** Further facts, see [refs]. *)
Ltac carry Hc := idtac.
Ltac calm_known Hc :=
  carry Hc;
  repeat match type of Hc with calm ?s ?s' =>
    match goal with
    | Hk : calm _ s |- _ =>
        let H' := fresh in pose proof (calm_trans _ _ _ Hk Hc) as H'; clear Hk; rename H' into Hk
    end
  end; apply proj1 in Hc; steady_known Hc.
(** Step over a calm call. *)
Ltac wcalm := apply wp_bind; apply wp_calm; [calms_auto|done|]; intros ? ? ?Hc; calm_known Hc.

Section alloc.
  Context `{Platform} {T : Type} `{Store T}.
  Implicit Types (s : kst T).

(** Steps that do not change the states of processes. *)
Definition awake s p : Prop := ¬ idle (p_state (procs s p)).
Definition calm_st s s' : Prop := calm s s' ∧ ∀ q, p_state (procs s' q) = p_state (procs s q).

Lemma awake_st s s' p : calm_st s s' → awake s p → awake s' p.
Proof. intros [_ Hst]. unfold awake. by rewrite Hst. Qed.

Lemma wp_in_km {A} (m : M kmem A) s (Q : A → kst T → Prop) X :
  running s → (∀ a s', calm_st s s' → Q a s') → wp (in_km m) s Q X.
Proof.
  intros [Hc Hi] HQ. unfold wp, in_km, zoom. destruct (m _); try done. apply HQ. split; [by apply calm_same|done].
Qed.

Lemma wp_with_proc p g s (Q : unit → kst T → Prop) X :
  (∀ x, p_ofile (g x) = p_ofile x) → (∀ x, p_state (g x) = p_state x) →
  (∀ s', calm_st s s' → Q tt s') → wp (with_proc p g) s Q X.
Proof.
  intros Ho Hs HQ. eapply wp_done; [reflexivity|]. apply HQ. split.
  - refine (calmly_with_proc p g Ho _ s). intros x. by rewrite Hs.
  - intros q. simpl. unfold upd. case_decide; subst; auto.
Qed.

Lemma wp_set_used p s (Q : unit → kst T → Prop) X :
  (∀ s', calm s s' → awake s' p → Q tt s') → wp (with_proc p (set_state USED)) s Q X.
Proof.
  intros HQ. eapply wp_done; [reflexivity|]. apply HQ.
  - refine (calmly_with_proc p (set_state USED) (λ _, eq_refl) _ s). by intros x [?|?].
  - unfold awake. simpl. rewrite upd_eq. by intros [?|?].
Qed.

Lemma wp_tf_set p off v s (Q : unit → kst T → Prop) X :
  running s → (∀ s', calm_st s s' → Q tt s') → wp (tf_set p off v) s Q X.
Proof.
  intros Hr HQ. unfold tf_set. apply wp_bind. eapply wp_done; [reflexivity|]. apply wp_in_km; [done|]. intros [] s' ?. by apply HQ.
Qed.
End alloc.

Ltac st_known Hc :=
  repeat match type of Hc with calm_st ?s _ =>
    match goal with Hk : awake s _ |- _ => apply (awake_st _ _ _ Hc) in Hk end
  end; apply proj1 in Hc; calm_known Hc.
Ltac wst := apply wp_bind; first
  [ apply wp_in_km; [done|]; intros ? ? ?Hc; st_known Hc
  | apply wp_with_proc; [done|done|]; intros ? ?Hc; st_known Hc ].

Section alloc.
  Context `{Platform} {T : Type} `{Store T}.
  Implicit Types (s : kst T).

Lemma allocproc_wp s X :
  tidy s → running s →
  wp allocproc s (λ r s', calm s s' ∧ (r = NULL ∨ unused s' r ∧ awake s' r)) X.
Proof.
  intros Ht Hr. unfold allocproc. apply wp_bind. eapply wp_returns; [apply find_unused_proc_run|].
  intros p s' t (-> & [->|[Hp Hu]]); [apply wp_ret; split; [apply calm_refl|by left]|].
  destruct (Z.eqb_spec p NULL); [unfold NULL in *; lia|].
  assert (unused s p) as Hun by (apply (idle_unused s p Ht Hr); [lia|by left]).
  pose proof (calm_refl s) as Hs.
  do 2 wcalm. apply wp_bind, wp_set_used. intros ? Hc Hw. calm_known Hc.
  do 2 wst. destruct (_ =? 0).
  { apply wp_bind, wp_calm; [by apply calms_freeproc|done|]. intros ? ? Hc. calm_known Hc. wcalm.
    apply wp_ret. split; [done|by left]. }
  do 2 wst. destruct (_ =? 0).
  { apply wp_bind, wp_calm; [by apply calms_freeproc|done|]. intros ? ? Hc. calm_known Hc. wcalm.
    apply wp_ret. split; [done|by left]. }
  wst. apply wp_ret. split; [done|by right].
Qed.

Lemma wait_scan_wp k pp p addr b s0 s X :
  tidy s → running s → calm s0 s → 0 ≤ pp → pp + Z.of_nat k ≤ NPROC →
  wp (wait_scan k pp p addr b) s (λ _ s', calm s0 s') X.
Proof.
  revert pp b s. induction k as [|k IH]; intros pp b s Ht Hr Hs Hpp Hk; cbn [wait_scan]; [by apply wp_ret|].
  wcalm. destruct (_ =? p); [|apply IH; try done; lia].
  wcalm. apply wp_bind. unfold pfld at 1. unfold wp at 1, gets. simpl. case_bool_decide as Hz.
  - assert (unused s'0 pp) as Hun by (apply idle_unused; [done|done|lia|by right]). wcalm. destruct (_ <? 0).
    + do 2 wcalm. by apply wp_ret.
    + apply wp_bind, wp_calm; [by apply calms_freeproc|done|]. intros ? ? Hc. calm_known Hc.
      do 2 wcalm. by apply wp_ret.
  - wcalm. apply IH; try done; lia.
Qed.

Lemma wait_wp addr s X : tidy s → running s → wp (wait addr) s (λ _ s', calm s s') X.
Proof.
  intros Ht Hr. pose proof (calm_refl s) as Hs. unfold wait, wait_round. do 2 wcalm. apply wp_bind.
  eapply wp_mono; [eapply (wait_scan_wp _ _ _ _ _ _ _ _ Ht Hr (calm_refl _)); done|]. intros [r havekids] ? Hc. calm_known Hc.
  destruct r; [by apply wp_ret|]. wcalm. destruct (_ || _).
  - wcalm. by apply wp_ret.
  - apply wp_calm; [calms_auto|done|]. intros ? ? Hc. by calm_known Hc.
Qed.
End alloc.

(** ** Calls that leave the descriptors alone *)

Section calls.
  Context `{Platform} {T : Type} `{Store T}.

Lemma calmly_put_bytes va l : calmly (put_bytes va l : M (kst T) unit).
Proof. revert va. induction l; intros va; simpl; calm_auto. Qed.
#[local] Hint Resolve calmly_put_bytes : calm.
Lemma calmly_advance f r : calmly (advance f r : M (kst T) unit).
Proof. unfold advance. calm_auto. Qed.
#[local] Hint Resolve calmly_advance : calm.
Lemma calmly_pipe_close pi w : calmly (pipe_close pi w : M (kst T) unit).
Proof. unfold pipe_close. calm_auto. Qed.
Lemma calmly_pipe_read pi addr n : calmly (pipe_read pi addr n : M (kst T) Z).
Proof. unfold pipe_read. calm_auto. Qed.
Lemma calmly_pipe_write pi addr n : calmly (pipe_write pi addr n : M (kst T) Z).
Proof. unfold pipe_write. calm_auto. Qed.
Lemma calmly_dev_read d addr n : calmly (dev_read d addr n : M (kst T) Z).
Proof. unfold dev_read. calm_auto. Qed.
Lemma calmly_dev_write d addr n : calmly (dev_write d addr n : M (kst T) Z).
Proof. unfold dev_write. calm_auto. Qed.
#[local] Hint Resolve calmly_pipe_read calmly_pipe_write calmly_dev_read calmly_dev_write : calm.
Lemma calmly_filestat f addr : calmly (filestat f addr : M (kst T) Z).
Proof. unfold filestat. calm_auto. Qed.
Lemma calmly_fileread f addr n : calmly (fileread f addr n : M (kst T) Z).
Proof. unfold fileread. calm_auto. Qed.
Lemma calmly_filewrite_loop k f ip addr n i : calmly (filewrite_loop k f ip addr n i : M (kst T) Z).
Proof. revert i. induction k; intros i; simpl; calm_auto. Qed.
#[local] Hint Resolve calmly_filewrite_loop : calm.
Lemma calmly_filewrite f addr n : calmly (filewrite f addr n : M (kst T) Z).
Proof. unfold filewrite. calm_auto. Qed.

Lemma calmly_fetchaddr a : calmly (fetchaddr a : M (kst T) (option Z)).
Proof. unfold fetchaddr. calm_auto. Qed.
Lemma calmly_fetchstr a n : calmly (fetchstr a n : M (kst T) (Z * list Z)).
Proof. unfold fetchstr. calm_auto. Qed.
Lemma calmly_argraw n : calmly (argraw n : M (kst T) Z).
Proof. unfold argraw. calm_auto. Qed.
#[local] Hint Resolve calmly_fetchaddr calmly_fetchstr calmly_argraw : calm.
Lemma calmly_argint n : calmly (argint n : M (kst T) Z).
Proof. unfold argint. calm_auto. Qed.
Lemma calmly_argaddr n : calmly (argaddr n : M (kst T) Z).
Proof. unfold argaddr. calm_auto. Qed.
#[local] Hint Resolve calmly_argint calmly_argaddr : calm.
Lemma calmly_argpath n : calmly (argpath n : M (kst T) (option (list Z))).
Proof. unfold argpath, argstr. calm_auto. Qed.
Lemma calmly_argfd n : calmly (argfd n : M (kst T) (option (Z * Z))).
Proof. unfold argfd. calm_auto. Qed.
#[local] Hint Resolve calmly_argpath calmly_argfd : calm.

Lemma calmly_set_pname p l : calmly (set_pname p l : M (kst T) unit).
Proof. unfold set_pname. calm_auto. Qed.
#[local] Hint Resolve calmly_set_pname : calm.
Lemma calmly_loadseg pt va ip off sz : calmly (loadseg pt va ip off sz : M (kst T) Z).
Proof. unfold loadseg. generalize (S (Z.to_nat (sz / PGSIZE + 1))) 0. intros k. induction k; intros i; simpl; calm_auto. Qed.
#[local] Hint Resolve calmly_loadseg : calm.
Lemma calmly_load_loop k pt ip off sz : calmly (load_loop k pt ip off sz : M (kst T) (bool * Z)).
Proof. revert off sz. induction k; intros off sz; simpl; calm_auto. Qed.
#[local] Hint Resolve calmly_load_loop : calm.
Lemma calmly_load_image ip : calmly (load_image ip : M (kst T) (Z * Z * option elfhdr)).
Proof. unfold load_image. calm_auto. Qed.
Lemma calmly_push_args argv pt argc sp base us : calmly (push_args argv pt argc sp base us : M (kst T) (option (Z * list Z))).
Proof. revert argc sp us. induction argv; intros argc sp us; simpl; unfold page_string; calm_auto. Qed.
#[local] Hint Resolve calmly_load_image calmly_push_args : calm.
Lemma calmly_exec path argv : calmly (exec path argv : M (kst T) Z).
Proof. unfold exec, build_stack. calm_auto. Qed.
#[local] Hint Resolve calmly_exec : calm.

Lemma calmly_add_link ip d : calmly (add_link ip d : M (kst T) unit).
Proof. unfold add_link. calm_auto. Qed.
Lemma calmly_parent_of path : calmly (parent_of path : M (kst T) (Z * list Z)).
Proof. unfold parent_of. calm_auto. Qed.
Lemma calmly_idin ip : calmly (idin ip : M (kst T) dinode).
Proof. unfold idin. calm_auto. Qed.
#[local] Hint Resolve calmly_add_link calmly_parent_of calmly_idin : calm.
Lemma calmly_sys_link : calmly (sys_link : M (kst T) Z).
Proof. unfold sys_link, link_new, idev, iinum. calm_auto. Qed.
Lemma calmly_isdirempty dp : calmly (isdirempty dp : M (kst T) bool).
Proof.
  unfold isdirempty. calm_step; [calm_auto|]. generalize (S (Z.to_nat (dsize a / DIRENT_SIZE + 1))) (2 * DIRENT_SIZE).
  intros k. induction k; intros off; simpl; calm_auto.
Qed.
#[local] Hint Resolve calmly_isdirempty : calm.
Lemma calmly_sys_unlink : calmly (sys_unlink : M (kst T) Z).
Proof. unfold sys_unlink, unlink_in. calm_auto. Qed.
Lemma calmly_create path ty mj mn : calmly (create path ty mj mn : M (kst T) Z).
Proof. unfold create, create_new, idev, iinum. calm_auto. Qed.
#[local] Hint Resolve calmly_create : calm.
Lemma calmly_made ip : calmly (made ip : M (kst T) Z).
Proof. unfold made. calm_auto. Qed.
#[local] Hint Resolve calmly_made : calm.
Lemma calmly_sys_mkdir : calmly (sys_mkdir : M (kst T) Z).
Proof. unfold sys_mkdir. calm_auto. Qed.
Lemma calmly_sys_mknod : calmly (sys_mknod : M (kst T) Z).
Proof. unfold sys_mknod. calm_auto. Qed.
Lemma calmly_sys_chdir : calmly (sys_chdir : M (kst T) Z).
Proof. unfold sys_chdir. calm_auto. Qed.
Lemma calmly_fetch_args k uargv i : calmly (fetch_args k uargv i : M (kst T) (bool * list Z)).
Proof. revert i. induction k; intros i; simpl; calm_auto. Qed.
Lemma calmly_free_pages l : calmly (free_pages l : M (kst T) unit).
Proof. induction l; simpl; calm_auto. Qed.
#[local] Hint Resolve calmly_fetch_args calmly_free_pages : calm.
Lemma calmly_sys_exec : calmly (sys_exec : M (kst T) Z).
Proof. unfold sys_exec. calm_auto. Qed.
#[local] Hint Resolve calmly_filestat calmly_fileread calmly_filewrite : calm.
Lemma calmly_sys_read : calmly (sys_read : M (kst T) Z).
Proof. unfold sys_read. calm_auto. Qed.
Lemma calmly_sys_write : calmly (sys_write : M (kst T) Z).
Proof. unfold sys_write. calm_auto. Qed.
Lemma calmly_sys_fstat : calmly (sys_fstat : M (kst T) Z).
Proof. unfold sys_fstat. calm_auto. Qed.
Lemma calmly_sys_getpid : calmly (sys_getpid : M (kst T) Z).
Proof. unfold sys_getpid. calm_auto. Qed.
Lemma calmly_sys_sbrk : calmly (sys_sbrk : M (kst T) Z).
Proof. unfold sys_sbrk. calm_auto. Qed.
Lemma calmly_sys_sleep : calmly (sys_sleep : M (kst T) Z).
Proof. unfold sys_sleep, sleep_round. calm_auto. Qed.
Lemma calmly_sys_kill : calmly (sys_kill : M (kst T) Z).
Proof. unfold sys_kill. calm_auto. Qed.
Lemma calmly_sys_uptime : calmly (sys_uptime : M (kst T) Z).
Proof. unfold sys_uptime. calm_auto. Qed.
Lemma calmly_sys_hello : calmly (sys_hello : M (kst T) Z).
Proof. unfold sys_hello. calm_auto. Qed.
End calls.
#[export] Hint Resolve calmly_pipe_close calmly_argint calmly_argaddr calmly_argpath calmly_argfd calmly_set_pname
  calmly_create calmly_idin : calm.
