(* ===== verification/Refs.v ===== *)
(** * Reference counts of open files

    The invariant [refs]: a file is referenced as often as descriptors of
    processes name it, and processes that are free or have exited have no
    descriptors.  Every system call preserves it.  Most calls leave the counts
    and the descriptors alone, see Calm; the others move references between
    the table and the code that holds them ([refs e]). *)

From S2P Require Import Prelude Riscv Memory Locks Kalloc Vm Console Uart Pipe Printf Disk Tx Fs.
From S2P Require Import Kernel Proc File Life Syscall Exec Sysfile Dispatch Calm.

(** ** Counting descriptors *)

(** A descriptor is a process with an index. *)
Definition fds : list (Z * Z) := p ← seqZ 0 NPROC; (λ fd, (p, fd)) <$> seqZ 0 NOFILE.

(** How many of [l] name [f]. *)
Definition naming (g : Z * Z → Z) (f : Z) (l : list (Z * Z)) : Z := Z.of_nat (length (filter (λ x, g x = f) l)).

Definition one (P : Prop) `{Decision P} : Z := if decide P then 1 else 0.

Lemma elem_of_fds p fd : (p, fd) ∈ fds ↔ 0 ≤ p < NPROC ∧ 0 ≤ fd < NOFILE.
Proof.
  unfold fds. rewrite list_elem_of_bind. split.
  - intros (y & (z & [= -> ->] & Hz)%list_elem_of_fmap & Hy). rewrite elem_of_seqZ in Hz, Hy. lia.
  - intros [? ?]. exists p. rewrite list_elem_of_fmap, elem_of_seqZ. split; [|lia]. exists fd. rewrite elem_of_seqZ. split; [done|lia].
Qed.

Lemma fds_nodup : NoDup fds.
Proof. apply (bool_decide_unpack _). vm_compute. exact I. Qed.

Lemma naming_cons g f x l : naming g f (x :: l) = one (g x = f) + naming g f l.
Proof. unfold naming, one. rewrite filter_cons. case_decide; simpl; lia. Qed.

Lemma naming_same g g' f l : (∀ y, y ∈ l → g' y = g y) → naming g' f l = naming g f l.
Proof.
  induction l as [|y l IH]; intros Hg; [done|]. rewrite !naming_cons, IH, Hg by set_solver. done.
Qed.

Lemma naming_upd g g' x f l :
  NoDup l → x ∈ l → (∀ y, y ≠ x → g' y = g y) → naming g' f l = naming g f l - one (g x = f) + one (g' x = f).
Proof.
  intros Hnd Hx Hg. induction Hnd as [|y l Hy Hnd IH]; [by apply not_elem_of_nil in Hx|].
  rewrite !naming_cons. apply elem_of_cons in Hx as [<-|Hx].
  - rewrite (naming_same g g'); [lia|]. intros y Hyl. apply Hg. intros ->. done.
  - rewrite (Hg y), (IH Hx) by (intros ->; done). lia.
Qed.

Section count.
  Context `{Platform} {T : Type} `{Store T}.
  Implicit Types (s : kst T) (e : Z → Z).

Definition ofiles s : Z * Z → Z := λ x, p_ofile (procs s x.1) x.2.
Definition in_ftable (f : Z) : Prop := 0 ≤ f < NFILE.

Lemma in_ftable_null : ¬ in_ftable NULL.
Proof. unfold in_ftable, NULL. lia. Qed.

(** The count of a file is the number of descriptors that name it, and the
    [e f] references that running code holds. *)
Record refs e s : Prop := {
  rf_count f : in_ftable f → f_ref (ftable s f) = naming (ofiles s) f fds + e f;
  rf_valid x : x ∈ fds → ofiles s x = NULL ∨ in_ftable (ofiles s x);
  rf_tidy : tidy s
}.

Lemma refs_same e s s' :
  (∀ p, p_ofile (procs s' p) = p_ofile (procs s p)) → (∀ f, f_ref (ftable s' f) = f_ref (ftable s f)) → tidy s' →
  refs e s → refs e s'.
Proof.
  intros Hp Hr Ht [H1 H2 H3]. assert (∀ x, ofiles s' x = ofiles s x) as Ho.
  { intros x. unfold ofiles. by rewrite Hp. }
  assert (∀ f, naming (ofiles s') f fds = naming (ofiles s) f fds) as Hn.
  { intros f. apply naming_same. by intros x _. }
  split; [|by setoid_rewrite Ho|done]. intros f Hf. by rewrite Hr, Hn, H1.
Qed.

Lemma refs_calm e s s' : calm s s' → refs e s → refs e s'.
Proof. intros [Hc Hr] Hs. apply (refs_same e s); [apply Hc|done| |done]. eapply steady_tidy; [done|apply Hs]. Qed.

Lemma refs_ext e e' s : (∀ f, in_ftable f → e f = e' f) → refs e s → refs e' s.
Proof. intros He [H1 H2 H3]. split; try done. intros f Hf. by rewrite <-He, H1. Qed.

(** Storing a reference in a descriptor, or taking it out. *)
Lemma refs_ofile e s p fd f :
  refs e s → 0 ≤ p < NPROC → 0 ≤ fd < NOFILE → f = NULL ∨ in_ftable f → ¬ idle (p_state (procs s p)) ∨ f = NULL →
  refs (λ g, e g + one (p_ofile (procs s p) fd = g) - one (f = g))
    (set_procs (upd (procs s) p (set_ofile (upd (p_ofile (procs s p)) fd f) (procs s p))) s).
Proof.
  intros [H1 H2 H3] Hp Hfd Hf Hi. set (s' := set_procs _ s).
  assert (∀ y, y ≠ (p, fd) → ofiles s' y = ofiles s y) as Hne.
  { intros [q j] Hy. unfold ofiles, s'. simpl. unfold upd. case_decide; [subst|done]. simpl. unfold upd. case_decide; [subst|done]. done. }
  assert (ofiles s' (p, fd) = f) as Heq by (unfold ofiles, s'; simpl; rewrite upd_eq; apply upd_eq).
  split.
  - intros g Hg. change (ftable s' g) with (ftable s g).
    assert ((p, fd) ∈ fds) as Hin by (apply elem_of_fds; lia).
    rewrite (naming_upd _ _ _ g _ fds_nodup Hin Hne).
    rewrite Heq, (H1 g Hg). change (p_ofile (procs s p) fd) with (ofiles s (p, fd)). lia.
  - intros x Hx. destruct (decide (x = (p, fd))) as [->|Hn]; [by rewrite Heq|]. rewrite Hne by done. by apply H2.
  - intros q Hq Hiq j Hj. destruct (decide (q = p)) as [->|Hqp].
    + unfold s' in *. simpl in *. rewrite !upd_eq in *. simpl in *. destruct Hi as [Hi|Hi]; [done|]. unfold upd. case_decide; [done|]. by apply H3.
    + unfold s' in *. simpl in *. rewrite !upd_ne in * by done. by apply H3.
Qed.

(** Changing a count. *)
Lemma refs_ref e s f (x : file) :
  refs e s → refs (λ g, if decide (g = f) then e g + f_ref x - f_ref (ftable s f) else e g) (set_ftable (upd (ftable s) f x) s).
Proof.
  intros [H1 H2 H3]. split; try done. intros g Hg. simpl. unfold upd. case_decide as Hgf; [subst|by apply H1].
  rewrite (H1 f Hg). change (ofiles (set_ftable _ s)) with (ofiles s). lia.
Qed.
End count.

Ltac carry Hc ::=
  repeat match type of Hc with calm ?s _ =>
    match goal with Hk : refs _ s |- _ => apply (refs_calm _ _ _ Hc) in Hk end
  end.
(** Step over a read of the state. *)
Ltac wget := apply wp_bind; eapply wp_done; [reflexivity|]; cbv beta.

Definition plus (e : Z → Z) (f : Z) : Z → Z := λ g, e g + one (f = g).
Definition minus (e : Z → Z) (f : Z) : Z → Z := λ g, e g - one (f = g).
Ltac refs_lia := unfold plus, minus, one, in_ftable, NULL in *; repeat case_decide; subst; simpl in *; lia.
Ltac refs_done H := refine (refs_ext _ _ _ _ H); intros ? ?; refs_lia.

Section files.
  Context `{Platform} {T : Type} `{Store T}.
  Implicit Types (s : kst T) (e : Z → Z).

(** A file whose count is [n] gets the count [n + 1], or [n - 1]. *)
Lemma refs_up e s f x :
  refs e s → in_ftable f → f_ref x = f_ref (ftable s f) + 1 → refs (plus e f) (set_ftable (upd (ftable s) f x) s).
Proof. intros Hr Hf Hx. refs_done (refs_ref e s f x Hr). Qed.
Lemma refs_down e s f x :
  refs e s → in_ftable f → f_ref x = f_ref (ftable s f) - 1 → refs (minus e f) (set_ftable (upd (ftable s) f x) s).
Proof. intros Hr Hf Hx. refs_done (refs_ref e s f x Hr). Qed.

Lemma filealloc_loop_wp k f e s X :
  refs e s → 0 ≤ f → f + Z.of_nat k ≤ NFILE →
  wp (filealloc_loop k f) s (λ r s', steady s s' ∧ (r = NULL ∧ refs e s' ∨ in_ftable r ∧ refs (plus e r) s')) X.
Proof.
  intros Hr. revert f. induction k as [|k IH]; intros f Hf Hk; cbn [filealloc_loop].
  { wget. apply wp_ret. split; [apply steady_refl|by left]. }
  wget. destruct (Z.eqb_spec (f_ref (ftable s f)) 0); [|apply IH; lia].
  wget. wget. apply wp_ret. split; [by apply steady_same|]. right. assert (in_ftable f) by (unfold in_ftable; lia).
  split; [done|]. apply refs_up; [done|done|]. simpl. lia.
Qed.

Lemma filealloc_wp e s X :
  refs e s → wp filealloc s (λ r s', steady s s' ∧ (r = NULL ∧ refs e s' ∨ in_ftable r ∧ refs (plus e r) s')) X.
Proof. intros Hr. unfold filealloc. wget. by apply filealloc_loop_wp. Qed.

Lemma filedup_wp e s f X :
  refs e s → in_ftable f → wp (filedup f) s (λ r s', r = f ∧ procs s' = procs s ∧ cur s' = cur s ∧ refs (plus e f) s') X.
Proof.
  intros Hr Hf. unfold filedup. do 2 wget. case_if; [done|]. do 2 wget. apply wp_ret.
  split_and!; [done..|]. by apply refs_up.
Qed.

Lemma fileclose_wp e s f X :
  refs e s → running s → in_ftable f → wp (fileclose f) s (λ _ s', steady s s' ∧ refs (minus e f) s') X.
Proof.
  intros Hr Hrun Hf. unfold fileclose. do 2 wget. destruct (Z.ltb_spec (f_ref (ftable s f)) 1); [done|].
  pose proof (refs_down e s f (set_fref (f_ref (ftable s f) - 1) (ftable s f)) Hr Hf eq_refl) as Hd.
  wget. set (s1 := set_ftable _ s) in *. pose proof (steady_same s s1 eq_refl eq_refl) as Hs. case_if.
  { apply wp_calm; [calms_auto|done|]. intros [] s' Hc. calm_known Hc. done. }
  do 3 wget. match goal with |- wp _ ?s3 _ _ => assert (calm s1 s3) as Hc end.
  { split; [by apply steady_same|]. intros g. simpl. unfold upd. repeat case_decide; subst; try done. simpl. lia. }
  calm_known Hc. apply wp_calm; [calms_auto|by eapply steady_running|]. intros [] s' Hc. calm_known Hc. done.
Qed.
(** Descriptor [fd] of the process that runs. *)
Definition my_fd s (fd : Z) : Z := p_ofile (myproc s) fd.

(** [s'] differs from [s] in descriptor [fd] of the process that runs. *)
Record refile (fd f : Z) s s' : Prop := {
  re_cur : cur s' = cur s;
  re_running : running s → running s';
  re_fd : my_fd s' fd = f;
  re_other j : j ≠ fd → my_fd s' j = my_fd s j
}.

Lemma set_fd_wp e s fd f X :
  refs e s → running s → 0 ≤ fd < NOFILE → f = NULL ∨ in_ftable f →
  wp (with_proc (cur s) (λ x, set_ofile (upd (p_ofile x) fd f) x)) s (λ _ s',
    refile fd f s s' ∧ refs (λ g, e g + one (my_fd s fd = g) - one (f = g)) s') X.
Proof.
  intros Hr Hrun Hfd Hf. destruct Hrun as [Hc Hi]. eapply wp_done; [reflexivity|]. split.
  - split; [done|..]; unfold my_fd, myproc; simpl.
    + intros _. unfold running. simpl. rewrite upd_eq. done.
    + rewrite upd_eq. simpl. by rewrite upd_eq.
    + intros j Hj. rewrite upd_eq. simpl. by rewrite upd_ne.
  - apply refs_ofile; auto.
Qed.

Lemma fdalloc_loop_wp k e s f fd X :
  refs e s → running s → in_ftable f → 0 ≤ fd → fd + Z.of_nat k ≤ NOFILE →
  wp (fdalloc_loop k f fd) s (λ r s',
    (r = -1 ∧ s' = s) ∨ (0 ≤ r < NOFILE ∧ refile r f s s' ∧ my_fd s r = NULL ∧ refs (minus e f) s')) X.
Proof.
  intros Hr Hrun Hf. revert fd. induction k as [|k IH]; intros fd H1 H2; cbn [fdalloc_loop]; [apply wp_ret; by left|].
  do 2 wget. destruct (Z.eqb_spec (p_ofile (procs s (cur s)) fd) NULL) as [E|E]; [|apply IH; lia].
  apply wp_bind. eapply wp_mono; [apply (set_fd_wp e s fd f); try done; [lia|by right]|].
  intros [] s' [H3 H4]. apply wp_ret. right. split; [lia|]. split; [done|]. split; [done|].
  unfold my_fd, myproc in H4. rewrite E in H4. refs_done H4.
Qed.

Lemma fdalloc_wp e s f X :
  refs e s → running s → in_ftable f →
  wp (fdalloc f) s (λ r s',
    (r = -1 ∧ s' = s) ∨ (0 ≤ r < NOFILE ∧ refile r f s s' ∧ my_fd s r = NULL ∧ refs (minus e f) s')) X.
Proof. intros. by apply fdalloc_loop_wp. Qed.

Lemma clear_fd_wp e s fd X :
  refs e s → running s → 0 ≤ fd < NOFILE → 
  wp (clear_fd fd) s (λ _ s', refile fd NULL s s' ∧ refs (plus e (my_fd s fd)) s') X.
Proof.
  intros Hr Hrun Hfd. unfold clear_fd. wget. eapply wp_mono; [apply (set_fd_wp e s fd NULL); auto|].
  intros [] s' [H1 H2]. split; [done|]. refs_done H2.
Qed.

Lemma argfd_wp n e s X :
  refs e s → running s →
  wp (argfd n) s (λ r s', calm s s' ∧
    match r with None => True | Some (fd, f) => 0 ≤ fd < NOFILE ∧ my_fd s' fd = f ∧ in_ftable f end) X.
Proof.
  intros Hr Hrun. pose proof (calm_refl s) as Hs. unfold argfd. wcalm. case_if; [by apply wp_ret|].
  do 2 wget. case_if; [by apply wp_ret|]. apply wp_ret. split; [done|]. split; [bool_prop; lia|]. split; [done|].
  destruct Hrun as [Hc _]. destruct (rf_valid _ _ Hr (cur s', a)) as [E'|E']; [|done|done].
  - apply elem_of_fds. bool_prop. lia.
Qed.
(** Between system calls. *)
Definition no_refs : Z → Z := λ _, 0.
Definition good s : Prop := refs no_refs s ∧ running s.

Lemma good_calm s s' : calm s s' → good s → good s'.
Proof. intros Hc [? ?]. split; [by eapply refs_calm|eapply steady_running; [apply Hc|done]]. Qed.

Lemma calm_good {A} (m : M (kst T) A) s : calmly m → good s → wp m s (λ _, good) (refs no_refs).
Proof. intros Hm Hg. apply wp_calm; [apply Hm|apply Hg|]. intros a s' Hc. by eapply good_calm. Qed.

Lemma sys_dup_good s : good s → wp sys_dup s (λ _, good) (refs no_refs).
Proof.
  intros [Hr Hrun]. unfold sys_dup. apply wp_bind. eapply wp_mono; [by apply (argfd_wp 0 no_refs)|].
  intros [[fd f]|] s1 [Hc H1]; calm_known Hc; [|by apply wp_ret]. destruct H1 as (_ & _ & Hf).
  apply wp_bind. eapply wp_mono; [by apply (fdalloc_wp no_refs)|]. intros r s2 [[-> ->]|(Hr2 & H2 & _ & H3)]; [by apply wp_ret|].
  if_false. apply (re_running _ _ _ _ H2) in Hrun.
  apply wp_bind. eapply wp_mono; [by apply (filedup_wp _ _ f _ H3)|]. intros ? s3 (_ & Hp & Hc & H4). pose proof (steady_same _ _ Hc Hp) as Hs. steady_known Hs.
  apply wp_ret. split; [refs_done H4|done].
Qed.

Lemma sys_close_good s : good s → wp sys_close s (λ _, good) (refs no_refs).
Proof.
  intros [Hr Hrun]. unfold sys_close. apply wp_bind. eapply wp_mono; [by apply (argfd_wp 0 no_refs)|].
  intros [[fd f]|] s1 [Hc H1]; calm_known Hc; [|by apply wp_ret]. destruct H1 as (Hfd & H1 & Hf).
  apply wp_bind. eapply wp_mono; [by apply (clear_fd_wp no_refs)|]. intros [] s2 [H2 H3]. rewrite H1 in H3.
  apply (re_running _ _ _ _ H2) in Hrun.
  apply wp_bind. eapply wp_mono; [by apply (fileclose_wp _ _ f _ H3)|]. intros [] s3 [Hs H4]. steady_known Hs.
  apply wp_ret. split; [refs_done H4|done].
Qed.

(** Close a file if there is one. *)
Lemma close_some_wp e s f X :
  refs e s → running s → f = NULL ∨ in_ftable f →
  wp (if negb (f =? NULL) then fileclose f else mret tt) s (λ _ s', steady s s' ∧ refs (minus e f) s') X.
Proof.
  intros Hr Hrun Hf. destruct (Z.eqb_spec f NULL) as [->|Hn]; simpl.
  - apply wp_ret. split; [apply steady_refl|]. refs_done Hr.
  - destruct Hf as [?|Hf]; [done|]. by apply fileclose_wp.
Qed.

Lemma pipealloc_wp e s X :
  refs e s → running s →
  wp pipealloc s (λ r s', steady s s' ∧
    match r with None => refs e s' | Some (f0, f1) => in_ftable f0 ∧ in_ftable f1 ∧ refs (plus (plus e f0) f1) s' end) X.
Proof.
  intros Hr Hrun. unfold pipealloc. pose proof (steady_refl s) as Hs. apply wp_bind. eapply wp_mono; [by apply filealloc_wp|].
  intros f0 s1 [Hs1 H1]. steady_known Hs1.
  apply wp_bind. eapply (wp_mono _ _ (λ f1 s2, steady s1 s2 ∧ (f0 = NULL ∨ in_ftable f0) ∧ (f1 = NULL ∨ in_ftable f1) ∧
    refs (plus (plus e f0) f1) s2)).
  { destruct H1 as [[-> H1]|[Hf H1]].
    - apply wp_ret. split; [apply steady_refl|]. split; [by left|]. split; [by left|]. refs_done H1.
    - destruct (Z.eqb_spec f0 NULL) as [->|Hn]; [by apply in_ftable_null in Hf|].
      eapply wp_mono; [by apply filealloc_wp|]. intros f1 s2 [Hs2 [[-> H2]|[Hf1 H2]]].
      + split; [done|]. split; [by right|]. split; [by left|]. refs_done H2.
      + split; [done|]. split; [by right|]. split; [by right|]. done. }
  clear H1. intros f1 s2 (Hs2 & Hf0 & Hf1 & H2). steady_known Hs2. apply wp_bind.
  eapply (wp_mono _ _ (λ pi s3, steady s2 s3 ∧ refs (plus (plus e f0) f1) s3 ∧ (pi = 0 ∨ in_ftable f0 ∧ in_ftable f1))).
  { destruct (Z.eqb_spec f0 NULL) as [->|H3]; [by apply wp_ret; auto using steady_refl|].
    destruct (Z.eqb_spec f1 NULL) as [->|H4]; [by apply wp_ret; auto using steady_refl|].
    simpl. apply wp_calm; [calms_auto|done|]. intros pi s3 Hc. split; [apply Hc|]. split; [by eapply refs_calm|].
    right. destruct Hf0, Hf1; done. }
  clear H2. intros pi s3 (Hs3 & H3 & Hpi). steady_known Hs3. destruct (Z.eqb_spec pi 0) as [->|Hn].
  - apply wp_bind. eapply wp_mono; [by apply (close_some_wp _ _ f0 _ H3)|]. intros [] s4 [Hs4 H4]. steady_known Hs4.
    apply wp_bind. eapply wp_mono; [by apply (close_some_wp _ _ f1 _ H4)|]. intros [] s5 [Hs5 H5]. steady_known Hs5.
    apply wp_ret. split; [done|]. refs_done H5.
  - destruct Hpi as [?|[? ?]]; [done|]. do 4 wcalm. by apply wp_ret.
Qed.
Lemma close_both_good e s f g :
  refs e s → running s → in_ftable f → in_ftable g → (∀ x, e x = one (f = x) + one (g = x)) →
  wp (fileclose f;; fileclose g;; mret (-1)) s (λ _, good) (refs no_refs).
Proof.
  intros Hr Hrun Hf Hg He. apply wp_bind. eapply wp_mono; [by apply (fileclose_wp _ _ f _ Hr)|]. intros [] s1 [Hs1 H1]. steady_known Hs1.
  apply wp_bind. eapply wp_mono; [by apply (fileclose_wp _ _ g _ H1)|]. intros [] s2 [Hs2 H2]. steady_known Hs2.
  apply wp_ret. split; [|done]. refine (refs_ext _ _ _ _ H2). intros x _. unfold minus. rewrite He. unfold no_refs. lia.
Qed.

Lemma steady_my_fd s s' fd : steady s s' → my_fd s' fd = my_fd s fd.
Proof. intros Hs. unfold my_fd, myproc. by rewrite (sd_cur _ _ Hs), (sd_ofile _ _ Hs). Qed.

Lemma sys_pipe_good s : good s → wp sys_pipe s (λ _, good) (refs no_refs).
Proof.
  intros [Hr Hrun]. unfold sys_pipe. wcalm. apply wp_bind. eapply wp_mono; [by apply (pipealloc_wp no_refs)|].
  intros [[rf wf]|] s2 [Hs2 H2]; steady_known Hs2; [|by apply wp_ret]. destruct H2 as (Hrf & Hwf & H2).
  apply wp_bind. eapply wp_mono; [by apply (fdalloc_wp _ _ rf _ H2)|]. intros fd0 s3 [[-> ->]|(Hfd0 & R3 & _ & H3)].
  { simpl. wget. wget. apply (close_both_good _ _ _ _ H2); [done|done|done|]. intros x. unfold plus, minus, no_refs. lia. }
  if_false. apply (re_running _ _ _ _ R3) in Hrun as Hrun3.
  apply wp_bind. eapply wp_mono; [by apply (fdalloc_wp _ _ wf _ H3)|]. intros fd1 s4 [[-> ->]|(Hfd1 & R4 & E4 & H4)].
  { if_true. if_true. apply wp_bind. eapply wp_mono; [by apply (clear_fd_wp _ _ fd0 _ H3)|].
    intros [] s4 [R4 H4]. apply (re_running _ _ _ _ R4) in Hrun3. rewrite (re_fd _ _ _ _ R3) in H4.
    apply (close_both_good _ _ _ _ H4); [done|done|done|]. intros x. unfold plus, minus, no_refs. lia. }
  if_false. simpl. apply (re_running _ _ _ _ R4) in Hrun3 as Hrun4.
  assert (fd0 ≠ fd1) as Hne. { intros ->. rewrite (re_fd _ _ _ _ R3) in E4. subst. by apply in_ftable_null in Hrf. }
  pose proof (steady_refl s4) as Hs. do 2 wcalm. case_if; [|apply wp_ret; split; [refs_done H4|done]].
  apply wp_bind. eapply wp_mono; [by apply (clear_fd_wp _ _ fd0 _ H4)|]. intros [] s5 [R5 H5].
  apply (re_running _ _ _ _ R5) in Hrun4. apply wp_bind. eapply wp_mono; [by apply (clear_fd_wp _ _ fd1 _ H5)|]. intros [] s6 [R6 H6].
  apply (re_running _ _ _ _ R6) in Hrun4. rewrite (re_other _ _ _ _ R5) in H6 by done.
  rewrite !(steady_my_fd _ _ _ Hs), (re_fd _ _ _ _ R4), (re_other _ _ _ _ R4), (re_fd _ _ _ _ R3) in H6 by done.
  apply (close_both_good _ _ _ _ H6); [done|done|done|]. intros x. unfold plus, minus, no_refs. lia.
Qed.

Lemma open_inode_good ip omode s : good s → wp (open_inode ip omode) s (λ _, good) (refs no_refs).
Proof.
  intros [Hr Hrun]. unfold open_inode. wcalm. case_if.
  { apply calm_good; [calm_auto|done]. }
  apply wp_bind. eapply wp_mono; [by apply (filealloc_wp no_refs)|]. intros f s2 [Hs2 H2]. steady_known Hs2.
  destruct H2 as [[-> H2]|[Hf H2]].
  { wget. apply calm_good; [simpl; calm_auto|done]. }
  destruct (Z.eqb_spec f NULL) as [->|Hn]; [by apply in_ftable_null in Hf|]. simpl.
  apply wp_bind. eapply wp_mono; [by apply (fdalloc_wp _ _ f _ H2)|]. intros fd s3 [[-> ->]|(Hfd & R3 & _ & H3)].
  { simpl. apply wp_bind. eapply wp_mono; [by apply (fileclose_wp _ _ f _ H2)|]. intros [] s3 [Hs3 H3]. steady_known Hs3.
    apply calm_good; [calm_auto|]. split; [refs_done H3|done]. }
  if_false. apply (re_running _ _ _ _ R3) in Hrun. apply calm_good; [calm_auto|]. split; [refs_done H3|done].
Qed.

Lemma sys_open_good s : good s → wp sys_open s (λ _, good) (refs no_refs).
Proof.
  intros [Hr Hrun]. unfold sys_open. do 2 wcalm. destruct a0 as [path|]; [|by apply wp_ret].
  wcalm. case_if.
  - wcalm. case_if; [apply calm_good; [calm_auto|done]|]. by apply open_inode_good.
  - wcalm. case_if; [apply calm_good; [calm_auto|done]|]. do 2 wcalm.
    case_if; [apply calm_good; [calm_auto|done]|]. by apply open_inode_good.
Qed.
Lemma fork_files_wp k np i s X :
  refs no_refs s → running s → 0 ≤ np < NPROC → np ≠ cur s → awake s np →
  (∀ j, i ≤ j < NOFILE → p_ofile (procs s np) j = NULL) → 0 ≤ i → i + Z.of_nat k = NOFILE →
  wp (fork_files k (cur s) np i) s (λ _ s', good s') X.
Proof.
  revert i s. induction k as [|k IH]; intros i s Hr Hrun Hnp Hne Hw Hfree Hi Hk; cbn [fork_files]; [by apply wp_ret|].
  wget. destruct (Z.eqb_spec (p_ofile (procs s (cur s)) i) NULL) as [E|E]; simpl.
  { wget. apply IH; try done; try lia. intros j Hj. apply Hfree. lia. }
  assert (in_ftable (p_ofile (procs s (cur s)) i)) as Hf.
  { destruct (rf_valid _ _ Hr (cur s, i)) as [?|?]; try done. apply elem_of_fds. destruct Hrun as [? _]. lia. }
  apply wp_bind, wp_bind. eapply wp_mono; [by apply (filedup_wp _ _ _ _ Hr)|]. intros ? s1 (-> & Hp1 & Hc1 & H1).
  eapply wp_done; [reflexivity|].
  assert (refs no_refs (set_procs (upd (procs s1) np (set_ofile (upd (p_ofile (procs s1 np)) i (p_ofile (procs s (cur s)) i)) (procs s1 np))) s1)) as H2.
  { assert (p_ofile (procs s1 np) i = NULL) as E1 by (rewrite Hp1; apply Hfree; lia).
    pose proof (refs_ofile _ _ np i (p_ofile (procs s (cur s)) i) H1) as H2. rewrite E1 in H2.
    refine (refs_ext _ _ _ _ (H2 _ _ _ _)); [|done|lia|by right|left; by rewrite Hp1]. intros g Hg. refs_lia. }
  set (s2 := set_procs _ s1) in *. replace (cur s) with (cur s2) by (unfold s2; simpl; congruence).
  apply IH; try done; try lia.
  - destruct Hrun as [Hc Hi']. unfold running, s2. simpl. rewrite Hc1, Hp1. rewrite upd_ne by done. done.
  - unfold s2. simpl. by rewrite Hc1.
  - unfold awake, s2. simpl. rewrite upd_eq, Hp1. done.
  - intros j Hj. unfold s2. simpl. rewrite upd_eq. simpl. rewrite upd_ne, Hp1 by lia. apply Hfree. lia.
Qed.

Lemma fork_good s : good s → wp fork s (λ _, good) (refs no_refs).
Proof.
  intros [Hr Hrun]. unfold fork. wget. apply wp_bind. eapply wp_mono; [apply (allocproc_wp s); [apply Hr|done]|].
  intros np s1 [Hc Hnp]. rewrite <-(sd_cur _ _ (proj1 Hc)). calm_known Hc. destruct Hnp as [->|[Hnp Hw]]; [by apply wp_ret|].
  destruct (Z.eqb_spec np NULL); [destruct Hnp; unfold NULL in *; lia|].
  remember (cur s1) as c eqn:Hcur. symmetry in Hcur. do 2 wget. wst. case_if.
  { apply wp_bind, wp_calm; [by apply calms_freeproc|done|]. intros ? ? Hc. calm_known Hc. wcalm. by apply wp_ret. }
  do 2 wst. apply wp_bind, wp_tf_set; [done|]. intros ? Hc. st_known Hc. apply wp_bind. rewrite <-Hcur.
  destruct Hnp as (Hnp & Hcl & Hne). eapply wp_mono; [by apply fork_files_wp|].
  intros [] s5 Hg. rewrite Hcur. apply calm_good; [calm_auto|done].
Qed.
Lemma close_files_wp k fd s X :
  good s → (∀ j, 0 ≤ j < fd → my_fd s j = NULL) → 0 ≤ fd → fd + Z.of_nat k = NOFILE →
  wp (close_files k (cur s) fd) s (λ _ s', good s' ∧ cur s' = cur s ∧ closed s' (cur s')) X.
Proof.
  revert fd s. induction k as [|k IH]; intros fd s [Hr Hrun] Hcl Hfd Hk; cbn [close_files].
  { apply wp_ret. split; [done|]. split; [done|]. intros j Hj. apply Hcl. lia. }
  wget. destruct (Z.eqb_spec (p_ofile (procs s (cur s)) fd) NULL) as [E|E]; simpl.
  { wget. apply IH; [done| |lia|lia]. intros j Hj. destruct (decide (j = fd)) as [->|]; [done|]. apply Hcl. lia. }
  assert (in_ftable (p_ofile (procs s (cur s)) fd)) as Hf.
  { destruct (rf_valid _ _ Hr (cur s, fd)) as [?|?]; try done. apply elem_of_fds. destruct Hrun as [? _]. lia. }
  apply wp_bind, wp_bind. eapply wp_mono; [by apply (fileclose_wp _ _ _ _ Hr)|]. intros [] s1 [Hs1 H1].
  pose proof (sd_cur _ _ Hs1) as Ec. pose proof (λ j, steady_my_fd _ _ j Hs1) as Emy. steady_known Hs1. rewrite <-Ec.
  eapply wp_mono; [apply (set_fd_wp _ _ fd NULL _ H1); auto; lia|]. intros [] s2 [R2 H2].
  assert (good s2) as Hg.
  { split; [|by apply (re_running _ _ _ _ R2)]. rewrite (Emy fd) in H2. unfold my_fd, myproc in H2. refs_done H2. }
  rewrite <-(re_cur _ _ _ _ R2). apply IH; [done| |lia|lia].
  intros j Hj. destruct (decide (j = fd)) as [->|]; [apply R2|]. rewrite (re_other _ _ _ _ R2), Emy by done. apply Hcl. lia.
Qed.

Lemma exit_good {A} status s : good s → wp (exit status : M (kst T) A) s (λ _, good) (refs no_refs).
Proof.
  intros Hg. unfold exit. do 2 wget. case_if; [done|]. apply wp_bind.
  eapply wp_mono; [apply (close_files_wp _ _ s); [done|lia..]|]. intros [] s1 ([Hr Hrun] & Hcur & Hcl). clear Hg.
  rewrite <-Hcur. remember (cur s1) as c eqn:Ec. symmetry in Ec. clear Hcur E. pose proof (steady_refl s1) as Hs.
  do 11 wcalm. wget. do 1 wget. unfold switch, wp. intros _. apply (steady_closed _ _ _ Hs) in Hcl.
  eapply refs_same; [..|exact Hr]; [|done|].
  - intros q. simpl. unfold upd. case_decide; by subst.
  - intros q Hq Hi j Hj. simpl in *. unfold upd in *. case_decide; subst; [by apply Hcl|]. by apply Hr.
Qed.
(** Every entry of the table. *)
Lemma syscalls_good num f s : syscalls num = Some f → good s → wp f s (λ _, good) (refs no_refs).
Proof.
  intros E Hg. unfold syscalls in E. repeat case_match; simplify_eq.
  - by apply fork_good.
  - destruct Hg. unfold sys_exit. wcalm. by apply exit_good.
  - destruct Hg as [Hr Hrun]. unfold sys_wait. wcalm. eapply wp_mono; [apply wait_wp; [apply Hr|done]|].
    intros ? ? Hc. eapply good_calm; [exact Hc|by split].
  - by apply sys_pipe_good.
  - apply calm_good; [apply calmly_sys_read|done].
  - apply calm_good; [apply calmly_sys_kill|done].
  - apply calm_good; [apply calmly_sys_exec|done].
  - apply calm_good; [apply calmly_sys_fstat|done].
  - apply calm_good; [apply calmly_sys_chdir|done].
  - by apply sys_dup_good.
  - apply calm_good; [apply calmly_sys_getpid|done].
  - apply calm_good; [apply calmly_sys_sbrk|done].
  - apply calm_good; [apply calmly_sys_sleep|done].
  - apply calm_good; [apply calmly_sys_uptime|done].
  - by apply sys_open_good.
  - apply calm_good; [apply calmly_sys_write|done].
  - apply calm_good; [apply calmly_sys_mknod|done].
  - apply calm_good; [apply calmly_sys_unlink|done].
  - apply calm_good; [apply calmly_sys_link|done].
  - apply calm_good; [apply calmly_sys_mkdir|done].
  - by apply sys_close_good.
  - apply calm_good; [apply calmly_sys_hello|done].
Qed.

(** C23: No system call loses or invents a reference to an open file.  If
    every file is referenced exactly as often as descriptors of processes
    name it, and processes that are free or have exited have no descriptors,
    then the same holds when [syscall] returns, whichever of the calls
    register [a7] names; and when the process has exited instead. *)
Theorem syscall_refs s :
  refs no_refs s → running s →
  match syscall s with
  | Done _ s' _ => refs no_refs s' ∧ running s'
  | Switched s' _ => idle (p_state (myproc s')) → refs no_refs s'
  | _ => True
  end.
Proof.
  intros Hr Hrun. change (wp syscall s (λ _, good) (refs no_refs)). unfold syscall. do 2 wcalm.
  destruct (syscalls (s32 a0)) as [f|] eqn:E.
  - apply wp_bind. eapply wp_mono; [by eapply syscalls_good|]. intros r s1 Hg. apply calm_good; [calm_auto|done].
  - apply calm_good; [calm_auto|done].
Qed.
End files.
