(* ===== verification/KBoot.v ===== *)
(** * A small kernel

    The machine of VmBoot with the file system of FsBoot: the first process
    after [userinit], running, with one open file.  The theorems on system
    calls are applied to it. *)

From S2P Require Import Prelude Riscv Memory Locks Kalloc Vm VmBoot Console Uart Pipe Printf Disk Log Tx TxLog Fs FsBoot.
From S2P Require Import Kernel Proc File Life Syscall Exec Sysfile Dispatch Calm Refs.

#[global] Instance small : Platform := {
  kend := ram;
  trampoline := KERNBASE + 0x7000;
  uservec := KERNBASE + 0x7000;
  userret := KERNBASE + 0x709c;
  kernelvec := KERNBASE + 0x5d00;
  forkret_pc := KERNBASE + 0x1a00;
  usertrap_pc := KERNBASE + 0x2b00;
  stat_pad := [0; 0; 0; 0];
  uart_dev := unit;
  read_reg _ d := (0, d);
  write_reg _ _ d := d
}.

Definition proc0 : proc :=
  Proc UNUSED None 0 0 0 NULL 0 0 0 0 (Context_ 0 0 (replicate 12 0)) (λ _, NULL) NULL (replicate 16 0).

Definition blank : kst lst :=
  Kst (Kmem 0 ∅) (λ _, proc0) NULL 1 1 0 0 (λ _, File FD_NONE 0 0 0 0 0 0 0) (λ _, Pipe.Pipe [] 0 0 0 0)
    (λ _, Devsw None None) (Console.Cons (replicate 128 0) 0 0 0) (Uart.Uart (replicate 32 0) 0 0 0 tt) (Pr 0 0)
    sb0 (λ _, ino0) store0.

(** The first process runs, has a file, and calls [num] with its descriptor. *)
Definition start (num : Z) : M (kst lst) unit :=
  in_km (kinit ram);;
  procinit;;
  fileinit;;
  userinit;;
  modify (set_cur 0);;
  with_proc 0 (set_state RUNNING);;
  f ← filealloc;
  with_proc 0 (λ x, set_ofile (upd (p_ofile x) 0 f) x);;
  tf_set 0 (TF_a 7) num;;
  tf_set 0 (TF_a 0) 0.

Definition final {S A} (r : res S A) (d : S) : S := match r with Done _ s _ => s | _ => d end.
Definition running0 (num : Z) : kst lst := final (start num blank) blank.

Definition refs_b (s : kst lst) : bool :=
  forallb (λ f, f_ref (ftable s f) =? naming (ofiles s) f fds) (seqZ 0 NFILE) &&
  forallb (λ x, (ofiles s x =? NULL) || ((0 <=? ofiles s x) && (ofiles s x <? NFILE))) fds &&
  forallb (λ x, negb (bool_decide (p_state (procs s x.1) = UNUSED) || bool_decide (p_state (procs s x.1) = ZOMBIE)) || (ofiles s x =? NULL)) fds &&
  (0 <=? cur s) && (cur s <? NPROC) &&
  negb (bool_decide (p_state (myproc s) = UNUSED) || bool_decide (p_state (myproc s) = ZOMBIE)).

Lemma refs_b_ok s : refs_b s = true → refs no_refs s ∧ running s.
Proof.
  unfold refs_b. rewrite !andb_true_iff, !forallb_forall. intros (((((H1 & H2) & H3) & H4) & H5) & H6).
  setoid_rewrite <-list_elem_of_In in H1. setoid_rewrite <-list_elem_of_In in H2. setoid_rewrite <-list_elem_of_In in H3.
  split; [split|split].
  - intros f Hf. specialize (H1 f). rewrite elem_of_seqZ in H1. unfold no_refs, in_ftable in *. lia.
  - intros x Hx. specialize (H2 x Hx). unfold in_ftable. lia.
  - intros p Hp Hi fd Hfd. specialize (H3 (p, fd)). rewrite elem_of_fds in H3. specialize (H3 (conj Hp Hfd)).
    destruct Hi as [Hi|Hi]; simpl in H3; rewrite Hi in H3; unfold ofiles in H3; simpl in H3; lia.
  - lia.
  - unfold idle. intros [Hi|Hi]; unfold myproc in H6; rewrite Hi in H6; done.
Qed.

(** The call is made and succeeds: the file has two descriptors then. *)
Lemma syscall_refs_witness : ∃ s r,
  s = running0 SYS_dup ∧ r = syscall s ∧ refs no_refs s ∧ running s ∧
  (match r with Done _ s _ => (f_ref (ftable s 0), my_fd s 0, my_fd s 1) = (2, 0, 0) | _ => False end) ∧
  match r with
  | Done _ s' _ => refs no_refs s' ∧ running s'
  | Switched s' _ => idle (p_state (myproc s')) → refs no_refs s'
  | _ => True
  end.
Proof.
  destruct (refs_b_ok (running0 SYS_dup)) as [Hr Hrun]; [vm_compute; reflexivity|].
  exists (running0 SYS_dup), (syscall (running0 SYS_dup)). split; [reflexivity|]. split; [reflexivity|].
  split; [exact Hr|]. split; [exact Hrun|]. split; [vm_compute; reflexivity|].
  generalize (syscall_refs (running0 SYS_dup) Hr Hrun). generalize (syscall (running0 SYS_dup)). intros r Hx. exact Hx.
Defined.
