(* ===== verification/Sched.v ===== *)
(** * The scheduler, [kernel/proc.c] and [kernel/swtch.S]

    Several CPUs run their schedulers and the processes.  The code is cut where
    another CPU can act in between: before a lock is acquired, after one is
    released, and where [swtch] leaves a thread.  A piece is a handler on the
    shared state, and a step of the machine runs one piece on one CPU.  A
    context is the place where a thread goes on.  The code of the processes is
    arbitrary, within the rules of [allowed]. *)

From S2P Require Import Prelude Riscv Locks Kernel.
Import Spin.

(** Where a kernel thread is. *)
Inductive kpos : Type :=
  | Run                               (** arbitrary code *)
  | Waking (ch : chan) (q : Z)        (** in the loop of [wakeup] *)
  | SleepLk (ch : chan) (l : lockid)  (** [sleep], [p->lock] is acquired *)
  | SleepSt (ch : chan) (l : lockid)  (** [sleep], [lk] is released *)
  | SleepBack (l : lockid) (ie : bool) (** [sleep], in [sched], after [swtch] *)
  | SleepEnd (l : lockid)             (** [sleep], before it reacquires [lk] *)
  | YieldBack (k : kpos) (ie : bool)  (** [yield], called at [k], in [sched] after [swtch] *)
  | ForkRet                           (** at the start of [forkret] *)
  | ExitRel                           (** [exit], before [release(&wait_lock)] *)
  | ExitBack.                         (** [exit], in [sched], after [swtch] *)

(** Where a CPU is. *)
Inductive pc : Type :=
  | Scan (p : Z)                      (** [scheduler], at the top of the loop, with [p] *)
  | Back (p : Z)                      (** [scheduler], after [swtch] *)
  | Irq (p : Z) (k : kpos)            (** in an interrupt at [Scan p] *)
  | On (k : kpos).                    (** in the thread of a process *)

(** What a process has for the scheduler. *)
Record slot : Type := Slot { state : procstate; channel : option chan; ctx : kpos }.

Record sst : Type := Sst {
  sm : smp;
  cproc : Z → option Z;  (** [c->proc] *)
  cctx : Z → pc;         (** [c->context] *)
  at_ : Z → pc;          (** the program counter of the CPU *)
  slots : Z → slot
}.

Definition in_sm {A} (m : M smp A) : M sst A :=
  zoom (Lens sm (λ x s, Sst x (cproc s) (cctx s) (at_ s) (slots s))) m.
(** The loop of [acquire] is not over while the lock is taken. *)
Definition acquire (c : Z) (l : lockid) : M sst unit := in_sm (Spin.acquire 1 c l).
Definition release (c : Z) (l : lockid) : M sst unit := in_sm (Spin.release c l).

Definition goto (c : Z) (k : pc) : M sst unit :=
  modify (λ s, Sst (sm s) (cproc s) (cctx s) (upd (at_ s) c k) (slots s)).
Definition set_cproc (c : Z) (p : option Z) : M sst unit :=
  modify (λ s, Sst (sm s) (upd (cproc s) c p) (cctx s) (at_ s) (slots s)).
Definition set_slot (p : Z) (f : slot → slot) : M sst unit :=
  modify (λ s, Sst (sm s) (cproc s) (cctx s) (at_ s) (upd (slots s) p (f (slots s p)))).
Definition set_state (p : Z) (x : procstate) : M sst unit := set_slot p (λ y, Slot x (channel y) (ctx y)).
Definition set_channel (p : Z) (x : option chan) : M sst unit := set_slot p (λ y, Slot (state y) x (ctx y)).
Definition set_ctx (p : Z) (x : kpos) : M sst unit := set_slot p (λ y, Slot (state y) (channel y) x).
Definition set_intena (c : Z) (b : bool) : M sst unit :=
  in_sm (modify (λ s, set_cpu c (Cpu (noff (cpus s c)) b (intr (cpus s c))) s)).

(** [swtch(&c->context, &p->context)], which leaves the scheduler at [k], and
    [swtch(&p->context, &c->context)], which leaves the process at [k]. *)
Definition swtch_to_proc (c p : Z) (k : pc) : M sst unit :=
  modify (λ s, Sst (sm s) (cproc s) (upd (cctx s) c k) (at_ s) (slots s));;
  x ← gets (λ s, ctx (slots s p));
  goto c (On x).
Definition swtch_to_sched (c p : Z) (k : kpos) : M sst unit :=
  set_ctx p k;;
  x ← gets (λ s, cctx s c);
  goto c x.

(** ** The scheduler *)

(** The end of the body of the loop over [proc]; the outer loop starts again
    with [intr_on()]. *)
Definition scheduler_next (c p : Z) : M sst unit :=
  if p + 1 <? NPROC then goto c (Scan (p + 1))
  else in_sm (intr_on c);; goto c (Scan 0).

Definition scheduler_scan (c p : Z) : M sst unit :=
  acquire c (LkProc p);;
  st ← gets (λ s, state (slots s p));
  if bool_decide (st = RUNNABLE) then
    set_state p RUNNING;;
    set_cproc c (Some p);;
    swtch_to_proc c p (Back p)
  else
    release c (LkProc p);;
    scheduler_next c p.

Definition scheduler_back (c p : Z) : M sst unit :=
  set_cproc c None;;
  release c (LkProc p);;
  scheduler_next c p.

(** ** Giving up the CPU *)

(** Process [p] leaves at [k], which takes the saved [intena]. *)
Definition sched (c p : Z) (k : bool → kpos) : M sst unit :=
  h ← in_sm (holding c (LkProc p));
  if negb h then panic "sched p->lock"
  else
    n ← gets (λ s, noff (cpus (sm s) c));
    if negb (n =? 1) then panic "sched locks"
    else
      st ← gets (λ s, state (slots s p));
      if bool_decide (st = RUNNING) then panic "sched running"
      else
        i ← in_sm (intr_get c);
        if (i : bool) then panic "sched interruptible"
        else
          ie ← gets (λ s, intena (cpus (sm s) c));
          swtch_to_sched c p (k ie).

Definition yield (c p : Z) (k : kpos) : M sst unit :=
  acquire c (LkProc p);;
  set_state p RUNNABLE;;
  sched c p (YieldBack k).
Definition yield_back (c p : Z) (k : kpos) (ie : bool) : M sst unit :=
  set_intena c ie;;
  release c (LkProc p);;
  goto c (On k).

Definition sleep_lock (c p : Z) (ch : chan) (l : lockid) : M sst unit :=
  acquire c (LkProc p);;
  goto c (On (SleepLk ch l)).
Definition sleep_release (c : Z) (ch : chan) (l : lockid) : M sst unit :=
  release c l;;
  goto c (On (SleepSt ch l)).
Definition sleep_sched (c p : Z) (ch : chan) (l : lockid) : M sst unit :=
  set_channel p (Some ch);;
  set_state p SLEEPING;;
  sched c p (SleepBack l).
Definition sleep_back (c p : Z) (l : lockid) (ie : bool) : M sst unit :=
  set_intena c ie;;
  set_channel p None;;
  release c (LkProc p);;
  goto c (On (SleepEnd l)).
Definition sleep_end (c : Z) (l : lockid) : M sst unit :=
  acquire c l;;
  goto c (On Run).

Definition exit_zombie (c p : Z) : M sst unit :=
  acquire c (LkProc p);;
  set_state p ZOMBIE;;
  goto c (On ExitRel).
Definition exit_sched (c p : Z) : M sst unit :=
  release c LkWait;;
  sched c p (λ _, ExitBack).

Definition forkret (c p : Z) : M sst unit :=
  release c (LkProc p);;
  goto c (On Run).

(** ** Other processes *)

(** A round of the loop of [wakeup]; [me] is [myproc()]. *)
Definition wakeup_round (c : Z) (me : option Z) (ch : chan) (q : Z) : M sst unit :=
  if bool_decide (me = Some q) then mret tt
  else
    acquire c (LkProc q);;
    (x ← gets (λ s, slots s q);
     if bool_decide (state x = SLEEPING) && bool_decide (channel x = Some ch) then set_state q RUNNABLE else mret tt);;
    release c (LkProc q).

(** [kill], when it has found the process. *)
Definition kill_found (c q : Z) : M sst unit :=
  acquire c (LkProc q);;
  (st ← gets (λ s, state (slots s q));
   if bool_decide (st = SLEEPING) then set_state q RUNNABLE else mret tt);;
  release c (LkProc q).

(** [allocproc], when it has found an unused process, to the release of
    [np->lock] in [fork], as one piece: nobody else can look at the process in
    between.  A [fork] that fails frees the process again before it releases the
    lock, and is not a step here. *)
Definition alloc_found (c q : Z) : M sst unit :=
  acquire c (LkProc q);;
  (st ← gets (λ s, state (slots s q));
   if bool_decide (st = UNUSED) then set_state q USED;; set_ctx q ForkRet else mret tt);;
  release c (LkProc q).

(** The end of [fork]. *)
Definition fork_start (c q : Z) : M sst unit :=
  acquire c (LkProc q);;
  set_state q RUNNABLE;;
  release c (LkProc q).

(** [wait], for one child: [freeproc]. *)
Definition wait_child (c q : Z) : M sst unit :=
  acquire c (LkProc q);;
  (st ← gets (λ s, state (slots s q));
   if bool_decide (st = ZOMBIE) then set_channel q None;; set_state q UNUSED else mret tt);;
  release c (LkProc q).

(** ** The machine *)

(** The lock that protects the condition a process waits for: the second
    argument of the calls of [sleep] with this channel. *)
Definition chan_lock (ch : chan) : lockid :=
  match ch with
  | ChTicks => LkTicks
  | ChConsR => LkCons
  | ChUartTxR => LkUartTx
  | ChLog => LkLog
  | ChDiskFree | ChBuf _ => LkVdisk
  | ChProc _ => LkWait
  | ChPipeRead pa | ChPipeWrite pa => LkPipe pa
  | ChSleep id => LkSleep id
  end.

(** The state with what the proofs add: the locks of a CPU, whether the
    condition of a channel holds, and the channels that the code on a CPU has
    to wake because it made their conditions true. *)
Record config : Type := Config {
  st : sst;
  own : Z → list lockid;
  cond : chan → bool;
  owed : Z → list chan
}.

Inductive action : Type :=
  | Tick                      (** the next piece of the code of [proc.c] *)
  | Interrupt | IrqRet        (** around a handler, in the scheduler *)
  | Lock (l : lockid) | Unlock (l : lockid)
  | Raise (ch : chan) | Lower (ch : chan)
  | Wakeup (ch : chan) | Sleep (ch : chan) | Yield | Exit
  | Kill (q : Z) | Alloc (q : Z) | Start (q : Z) | Reap (q : Z)
  | SetIntr (b : bool).

Inductive result : Type := Moved (g : config) | Crashed (msg : string).

Definition run {A} (m : M sst A) (g : config) (k : sst → config) : option result :=
  match m (st g) with
  | Done _ s _ => Some (Moved (k s))
  | Panicked msg _ _ => Some (Crashed msg)
  | _ => None
  end.

Definition keep (g : config) (s : sst) : config := Config s (own g) (cond g) (owed g).
Definition locks (g : config) (c : Z) (o : list lockid) (s : sst) : config := Config s (upd (own g) c o) (cond g) (owed g).
Definition set_cond (g : config) (ch : chan) (b : bool) : chan → bool := λ x, if decide (x = ch) then b else cond g x.
Definition without (l : lockid) (o : list lockid) : list lockid := filter (λ l', l' ≠ l) o.

(** The next piece of the loop of [wakeup], in a thread whose places are [th]. *)
Definition waking (c : Z) (th : kpos → pc) (ch : chan) (q : Z) (g : config) : option result :=
  if q <? NPROC then run (wakeup_round c (cproc (st g) c) ch q;; goto c (th (Waking ch (q + 1)))) g (keep g)
  else run (goto c (th Run)) g (λ s, Config s (own g) (cond g) (upd (owed g) c (filter (λ x, x ≠ ch) (owed g c)))).

(** Code that holds spin locks. *)
Definition client (c : Z) (th : kpos → pc) (a : action) (g : config) : option result :=
  match a with
  | Lock l => run (acquire c l) g (locks g c (l :: own g c))
  | Unlock l => run (release c l) g (locks g c (without l (own g c)))
  | Raise ch => Some (Moved (Config (st g) (own g) (set_cond g ch true) (upd (owed g) c (ch :: owed g c))))
  | Lower ch => Some (Moved (Config (st g) (own g) (set_cond g ch false) (owed g)))
  | Wakeup ch => run (goto c (th (Waking ch 0))) g (keep g)
  | Kill q => run (kill_found c q) g (keep g)
  | Alloc q => run (alloc_found c q) g (keep g)
  | Start q => run (fork_start c q) g (keep g)
  | Reap q => run (wait_child c q) g (keep g)
  | _ => None
  end.

(** The thread of process [p]. *)
Definition thread (c p : Z) (k : kpos) (a : action) (g : config) : option result :=
  match k, a with
  | Waking ch q, Tick => waking c On ch q g
  | Run, Sleep ch => run (sleep_lock c p ch (chan_lock ch)) g (locks g c (LkProc p :: own g c))
  | SleepLk ch l, Tick => run (sleep_release c ch l) g (locks g c [LkProc p])
  | SleepSt ch l, Tick => run (sleep_sched c p ch l) g (locks g c [LkProc p])
  | SleepBack l ie, Tick => run (sleep_back c p l ie) g (locks g c [])
  | SleepEnd l, Tick => run (sleep_end c l) g (locks g c [l])
  | Run, Yield | SleepEnd _, Yield => run (yield c p k) g (locks g c [LkProc p])
  | YieldBack k ie, Tick => run (yield_back c p k ie) g (locks g c [])
  | ForkRet, Tick => run (forkret c p) g (locks g c [])
  | Run, Exit => run (exit_zombie c p) g (locks g c (LkProc p :: own g c))
  | ExitRel, Tick => run (exit_sched c p) g (locks g c [LkProc p])
  | ExitBack, Tick => Some (Crashed "zombie exit")
  | Run, SetIntr b => run (in_sm (intr_set c b);; goto c (On Run)) g (locks g c [])
  | Run, a => client c On a g
  | _, _ => None
  end.

Definition step (c : Z) (a : action) (g : config) : option result :=
  match at_ (st g) c, a with
  | Scan p, Tick =>
      run (scheduler_scan c p) g (λ s, match at_ s c with On _ => locks g c [LkProc p] s | _ => keep g s end)
  | Scan p, Interrupt =>
      if intr (cpus (sm (st g)) c) then run (in_sm (intr_off c);; goto c (Irq p Run)) g (keep g) else None
  | Back p, Tick => run (scheduler_back c p) g (locks g c [])
  | Irq p Run, IrqRet => run (in_sm (intr_on c);; goto c (Scan p)) g (keep g)
  | Irq p (Waking ch q), Tick => waking c (Irq p) ch q g
  | Irq p Run, a => client c (Irq p) a g
  | On k, a => match cproc (st g) c with Some p => thread c p k a g | None => None end
  | _, _ => None
  end.

(** What the code of processes and of interrupts may do.  It sleeps with the
    lock of the channel and no other, while the condition does not hold; it
    changes a condition with the lock, and calls [wakeup] before it releases
    the lock; it yields without locks. *)
Definition allowed (c : Z) (a : action) (g : config) : Prop :=
  match a with
  | Lock l => (∀ i, l ≠ LkProc i) ∧ l ∉ own g c
  | Unlock l => l ∈ own g c ∧ ∀ ch, ch ∈ owed g c → chan_lock ch ≠ l
  | Raise ch | Lower ch => chan_lock ch ∈ own g c
  | Sleep ch => own g c = [chan_lock ch] ∧ cond g ch = false ∧ owed g c = []
  | Yield | IrqRet | SetIntr _ => own g c = []
  | Exit => own g c = [LkWait] ∧ owed g c = []
  | Kill q | Alloc q | Reap q => 0 ≤ q < NPROC
  | Start q => 0 ≤ q < NPROC ∧ state (slots (st g) q) = USED
  | _ => True
  end.

(** The schedulers start with one process that can run. *)
Definition start : config :=
  Config (Sst (Smp (λ _, Spinlock 0 None) (λ _, Cpu 0 false true)) (λ _, None) (λ _, Scan 0) (λ _, Scan 0)
    (upd (λ _, Slot UNUSED None ForkRet) 0 (Slot RUNNABLE None ForkRet)))
    (λ _, []) (λ _, false) (λ _, []).

Inductive reachable : config → Prop :=
  | reach_start : reachable start
  | reach_move g c a g' : reachable g → allowed c a g → step c a g = Some (Moved g') → reachable g'.
