(* ===== verification/SchedInv.v ===== *)
(** * The scheduler is safe

    The steps of the machine of Sched as changes of the control state, the
    processes and the locks ([move]), and the invariant that they keep.  A
    process runs on one CPU, no panic is reached, and the scheduler finds a
    process that can run. *)

From S2P Require Import Prelude Riscv Locks.
Import Spin.
From S2P Require Import Kernel Sched.

(** ** Locks *)

Record lock_ok (m : smp) (o : Z → list lockid) : Prop := {
  lo_held c l : l ∈ o c → lks m l = Spinlock 1 (Some c);
  lo_some l : lks m l = Spinlock 0 None ∨ ∃ c, l ∈ o c;
  lo_nodup c : NoDup (o c);
  lo_noff c : noff (cpus m c) = Z.of_nat (length (o c));
  lo_intr c : o c ≠ [] → intr (cpus m c) = false
}.

Definition free (o : Z → list lockid) (l : lockid) : Prop := ∀ c, l ∉ o c.

Lemma lock_ok_ext m o o' : (∀ c, o' c = o c) → lock_ok m o → lock_ok m o'.
Proof.
  intros He [H1 H2 H3 H4 H5]. split; intros *; rewrite ?He; auto.
  destruct (H2 l) as [?|[c ?]]; [by left|right; exists c; by rewrite He].
Qed.

Lemma held_unique m o l c c' : lock_ok m o → l ∈ o c → l ∈ o c' → c = c'.
Proof. intros Ho H1%(lo_held _ _ Ho) H2%(lo_held _ _ Ho). congruence. Qed.

Lemma elem_without l l' o : l' ∈ without l o ↔ l' ≠ l ∧ l' ∈ o.
Proof. unfold without. by rewrite list_elem_of_filter. Qed.
Lemma without_cons l o : l ∉ o → without l (l :: o) = o.
Proof. intros Hl. unfold without. rewrite filter_cons_False by naive_solver. by apply filter_ne_absent. Qed.

(** The locks and the flags after [acquire]. *)
Lemma acquire_ok m o c l :
  lock_ok m o → l ∉ o c →
  (free o l ∧ ∃ m', Spin.acquire 1 c l m = Done tt m' [] ∧ lock_ok m' (upd o c (l :: o c))) ∨
  (¬ free o l ∧ Spin.acquire 1 c l m = NoFuel).
Proof.
  intros Ho Hl. destruct (push_off_run c m) as (m1 & Hp & Hk & Hc & Hother).
  assert (holding c l m1 = Done false m1 []) as Hh.
  { unfold holding, gets. do 2 f_equal. rewrite Hk. destruct (lo_some _ _ Ho l) as [->|[c' Hc']]; [done|].
    rewrite (lo_held _ _ Ho c' l Hc'). simpl. apply bool_decide_eq_false. by intros [= ->]. }
  unfold Spin.acquire. rewrite (bind_done _ _ _ _ _ _ Hp), (bind_done _ _ _ _ _ _ Hh), !after_nil. cbn [spin]. unfold test_and_set, mbind, M_bind. simpl.
  rewrite Hk. destruct (lo_some _ _ Ho l) as [E|[c' Hc']].
  2: { right. split; [intros Hf; by apply (Hf c')|]. by rewrite (lo_held _ _ Ho c' l Hc'). }
  left. assert (free o l) as Hf by (intros c' Hc'; rewrite (lo_held _ _ Ho c' l Hc') in E; done).
  split; [done|]. rewrite E. simpl. eexists. split; [done|]. set (m' := set_lk l _ _).
  assert (∀ l', lks m' l' = if decide (l' = l) then Spinlock 1 (Some c) else lks m l') as Hk'.
  { intros l'. unfold m'. simpl. rewrite Hk, (decide_True (P := l = l)) by done. by repeat case_decide. }
  assert (cpus m' = cpus m1) as Hcp by done. clearbody m'. split.
  - intros c' l'. rewrite Hk'. unfold upd. case_decide as Hcc; [subst c'|].
    + intros [->|Hl']%elem_of_cons; [by rewrite decide_True|]. rewrite decide_False by congruence. by apply Ho.
    + intros Hl'. rewrite decide_False by (intros ->; by apply (Hf c')). by apply Ho.
  - intros l'. rewrite Hk'. destruct (decide (l' = l)) as [->|Hne].
    + right. exists c. rewrite upd_eq. by left.
    + destruct (lo_some _ _ Ho l') as [?|[c' Hc']]; [by left|]. right. exists c'. unfold upd. case_decide; [subst; by right|done].
  - intros c'. unfold upd. case_decide; [subst; constructor; [done|]|]; apply Ho.
  - intros c'. rewrite Hcp. unfold upd. case_decide; [subst|rewrite Hother by done; apply Ho].
    rewrite Hc. simpl. rewrite (lo_noff _ _ Ho). lia.
  - intros c'. rewrite Hcp. unfold upd. case_decide; [subst; by rewrite Hc|rewrite Hother by done; apply Ho].
Qed.

Lemma release_ok m o c l :
  lock_ok m o → l ∈ o c → ∃ m', Spin.release c l m = Done tt m' [] ∧ lock_ok m' (upd o c (without l (o c))).
Proof.
  intros Ho Hl. assert (holding c l m = Done true m []) as Hh.
  { unfold holding, gets. rewrite (lo_held _ _ Ho c l Hl). simpl. by rewrite bool_decide_true. }
  unfold Spin.release. rewrite (bind_done _ _ _ _ _ _ Hh), after_nil. cbn [negb].
  rewrite (bind_done (set_lkcpu l None) _ m tt _ [] eq_refl), after_nil.
  rewrite (bind_done (lock_release l) _ _ tt _ [] eq_refl), after_nil. set (m2 := set_lk l _ _).
  assert (length (without l (o c)) + 1 = length (o c))%nat as Hlen.
  { pose proof (length_filter_ne l (o c) (lo_nodup _ _ Ho c) Hl). unfold without. lia. }
  destruct (pop_off_run c m2) as (m3 & Hp & Hk & Hc & Hother).
  { apply (lo_intr _ _ Ho). by intros E; rewrite E in Hl; apply not_elem_of_nil in Hl. }
  { change (cpus m2) with (cpus m). rewrite (lo_noff _ _ Ho). lia. }
  assert (∀ l', lks m3 l' = if decide (l' = l) then Spinlock 0 None else lks m l') as Hk3.
  { intros l'. rewrite Hk. unfold m2. simpl. rewrite (decide_True (P := l = l)) by done. by repeat case_decide. }
  exists m3. split; [done|]. split.
  - intros c' l'. unfold upd. rewrite Hk3. case_decide as Hcc; [subst|].
    + rewrite elem_without. intros [? ?]. rewrite decide_False by done. by apply Ho.
    + intros Hl'. rewrite decide_False; [by apply Ho|]. intros ->. apply Hcc. by eapply held_unique.
  - intros l'. rewrite Hk3. case_decide; [by left|]. destruct (lo_some _ _ Ho l') as [?|[c' Hc']]; [by left|]. right. exists c'.
    unfold upd. case_decide; [subst; by apply elem_without|done].
  - intros c'. unfold upd. case_decide; [apply NoDup_filter|]; apply Ho.
  - intros c'. unfold upd. case_decide; [subst|rewrite Hother by done; apply Ho]. rewrite Hc. simpl.
    change (cpus m2) with (cpus m). rewrite (lo_noff _ _ Ho). lia.
  - intros c'. unfold upd. case_decide; [subst|rewrite Hother by done; apply Ho]. rewrite Hc. simpl.
    change (cpus m2) with (cpus m). rewrite (lo_noff _ _ Ho). destruct (without l (o c)) eqn:E; [done|]. simpl in Hlen.
    intros _. apply andb_false_intro1. lia.
Qed.

Lemma next_range p : 0 ≤ (p + 1) mod NPROC < NPROC.
Proof. by apply Z.mod_pos_bound. Qed.

Definition set_sm (m : smp) (s : sst) : sst := Sst m (cproc s) (cctx s) (at_ s) (slots s).

Lemma acquire_run s o c l :
  lock_ok (sm s) o → l ∉ o c →
  (free o l ∧ ∃ m', acquire c l s = Done tt (set_sm m' s) [] ∧ lock_ok m' (upd o c (l :: o c))) ∨
  (¬ free o l ∧ acquire c l s = NoFuel).
Proof.
  intros Ho Hl. unfold acquire, in_sm, zoom. simpl. destruct (acquire_ok _ _ _ _ Ho Hl) as [(Hf & m' & E & Hm)|[? ->]]; [left|by right].
  split; [done|]. exists m'. split; [|done]. by rewrite E.
Qed.

Lemma release_run s o c l :
  lock_ok (sm s) o → l ∈ o c →
  ∃ m', release c l s = Done tt (set_sm m' s) [] ∧ lock_ok m' (upd o c (without l (o c))).
Proof.
  intros Ho Hl. unfold release, in_sm, zoom. simpl. destruct (release_ok _ _ _ _ Ho Hl) as (m' & E & Hm).
  exists m'. split; [|done]. by rewrite E.
Qed.

(** [intena] is free, and so is the interrupt bit of a CPU without locks. *)
Lemma set_cpu_ok m o c k :
  lock_ok m o → noff k = noff (cpus m c) → (o c ≠ [] → intr k = false) → lock_ok (set_cpu c k m) o.
Proof.
  intros [H1 H2 H3 H4 H5] Hn Hi. split; try done; intros c'; simpl; case_decide; subst; auto. by rewrite Hn.
Qed.

(** ** The invariant *)

Definition no_proc (o : list lockid) : Prop := ∀ i, LkProc i ∉ o.

(** Where the scheduler can send a process. *)
Definition resumable (k : kpos) : Prop :=
  match k with
  | SleepBack l _ => ∀ i, l ≠ LkProc i
  | YieldBack Run _ | ForkRet => True
  | YieldBack (SleepEnd l) _ => ∀ i, l ≠ LkProc i
  | _ => False
  end.

(** The locks of the thread of [p]. *)
Definition code_ok (k : kpos) (p : Z) (o : list lockid) : Prop :=
  match k with
  | Run => no_proc o
  | Waking _ q => no_proc o ∧ 0 ≤ q ≤ NPROC
  | SleepLk ch l => o = [LkProc p; l] ∧ l = chan_lock ch
  | SleepSt ch l => o = [LkProc p] ∧ l = chan_lock ch
  | SleepEnd l => o = [] ∧ ∀ i, l ≠ LkProc i
  | ExitRel => o = [LkProc p; LkWait]
  | ExitBack => False
  | _ => o = [LkProc p] ∧ resumable k
  end.

Definition state_at (k : kpos) : procstate := match k with ExitRel => ZOMBIE | _ => RUNNING end.

Definition pos_ok (x : pc) (o : list lockid) (cp : option Z) (cc : pc) (sl : Z → slot) : Prop :=
  match x with
  | Scan p => 0 ≤ p < NPROC ∧ o = [] ∧ cp = None
  | Back p => 0 ≤ p < NPROC ∧ o = [LkProc p] ∧ cp = Some p ∧ state (sl p) ≠ RUNNING
  | Irq p Run => 0 ≤ p < NPROC ∧ cp = None ∧ no_proc o
  | Irq p (Waking _ q) => 0 ≤ p < NPROC ∧ cp = None ∧ no_proc o ∧ 0 ≤ q ≤ NPROC
  | Irq _ _ => False
  | On k => ∃ p, 0 ≤ p < NPROC ∧ cp = Some p ∧ cc = Back p ∧ code_ok k p o ∧ state (sl p) = state_at k
  end.
Definition cpu_ok (g : config) (c : Z) : Prop :=
  pos_ok (at_ (st g) c) (own g c) (cproc (st g) c) (cctx (st g) c) (slots (st g)).

(** CPU [c] executes the thread of [p]. *)
Definition runs (g : config) (c p : Z) : Prop := (∃ k, at_ (st g) c = On k) ∧ cproc (st g) c = Some p.

Definition proc_ok (g : config) (p : Z) : Prop :=
  match state (slots (st g) p) with
  | RUNNING => ∃ c, runs g c p
  | RUNNABLE | SLEEPING => resumable (ctx (slots (st g) p))
  | USED => ctx (slots (st g) p) = ForkRet
  | UNUSED | ZOMBIE => True
  end.

Record inv (g : config) : Prop := {
  in_lock : lock_ok (sm (st g)) (own g);
  in_cpu c : cpu_ok g c;
  in_uniq c c' p : cproc (st g) c = Some p → cproc (st g) c' = Some p → c = c';
  in_proc p : proc_ok g p
}.

Lemma pos_ok_slots x o cp cc sl sl' :
  (∀ p, cp = Some p → state (sl' p) = state (sl p)) → pos_ok x o cp cc sl → pos_ok x o cp cc sl'.
Proof.
  intros Hs. destruct x as [p|p|p k|k]; simpl; try done.
  - intros (? & ? & Hp & ?). by rewrite (Hs p).
  - intros (p & ? & Hp & ? & ? & ?). exists p. by rewrite (Hs p).
Qed.

(** CPU [c] moves, and changes process [q] at most. *)
Lemma inv_step g g' c q :
  inv g → lock_ok (sm (st g')) (own g') →
  (∀ c', c' ≠ c → own g' c' = own g c' ∧ at_ (st g') c' = at_ (st g) c' ∧
     cproc (st g') c' = cproc (st g) c' ∧ cctx (st g') c' = cctx (st g) c') →
  (∀ p, p ≠ q → slots (st g') p = slots (st g) p) →
  cpu_ok g' c →
  (state (slots (st g') q) = state (slots (st g) q) ∨ ∀ c', c' ≠ c → cproc (st g) c' ≠ Some q) →
  (∀ p, cproc (st g') c = Some p → cproc (st g) c = Some p ∨ ∀ c', cproc (st g) c' ≠ Some p) →
  (∀ p, p ≠ q → runs g c p → runs g' c p) →
  proc_ok g' q → inv g'.
Proof.
  intros Hi Hl Ho Hs Hc Hq Hu Hr Hp. split; [done|..].
  - intros c'. destruct (decide (c' = c)) as [->|Hne]; [done|]. unfold cpu_ok. destruct (Ho c' Hne) as (-> & -> & -> & ->).
    eapply pos_ok_slots; [|apply (in_cpu _ Hi c')]. intros p Hcp. destruct (decide (p = q)) as [->|]; [|by rewrite Hs].
    destruct Hq as [?|Hq]; [done|]. by apply Hq in Hcp.
  - assert (∀ c' p, c' ≠ c → cproc (st g') c = Some p → cproc (st g) c' = Some p → False) as Huc.
    { intros c' p Hne Hcp Hcp'. destruct (Hu p Hcp) as [H1|H1]; [|by apply H1 in Hcp'].
      apply Hne. by eapply (in_uniq _ Hi). }
    intros c1 c2 p H1 H2. destruct (decide (c1 = c)) as [->|H1c], (decide (c2 = c)) as [->|H2c]; try done.
    + destruct (Ho c2 H2c) as (_ & _ & E & _). rewrite E in H2. by destruct (Huc c2 p).
    + destruct (Ho c1 H1c) as (_ & _ & E & _). rewrite E in H1. by destruct (Huc c1 p).
    + destruct (Ho c1 H1c) as (_ & _ & E1 & _), (Ho c2 H2c) as (_ & _ & E2 & _). rewrite E1 in H1. rewrite E2 in H2.
      by eapply (in_uniq _ Hi).
  - intros p. destruct (decide (p = q)) as [->|Hne]; [done|]. pose proof (in_proc _ Hi p) as Hpp. unfold proc_ok in *. rewrite Hs by done.
    destruct (state (slots (st g) p)); try done. destruct Hpp as [c' Hpp]. exists c'.
    destruct (decide (c' = c)) as [->|Hc']; [by apply Hr|]. unfold runs in *. destruct (Ho c' Hc') as (_ & -> & -> & _). done.
Qed.

(** ** Critical sections of other processes *)

(** A process that can be sent to a CPU is ready for it. *)
Definition slot_ok (x : slot) : Prop :=
  match state x with
  | RUNNABLE | SLEEPING => resumable (ctx x)
  | USED => ctx x = ForkRet
  | _ => True
  end.

Lemma free_not_on g q c :
  inv g → free (own g) (LkProc q) → state (slots (st g) q) ≠ RUNNING → cproc (st g) c ≠ Some q.
Proof.
  intros Hi Hf Hst Hcp. pose proof (in_cpu _ Hi c) as Hc. unfold cpu_ok, pos_ok in Hc.
  destruct (at_ (st g) c) as [p|p|p k|k].
  - naive_solver.
  - destruct Hc as (_ & Ho & ? & _). simplify_eq. apply (Hf c). rewrite Ho. by left.
  - destruct k; naive_solver.
  - destruct Hc as (p & _ & ? & _ & Hk & Hs). simplify_eq. destruct k; try done. apply (Hf c). rewrite Hk. by left.
Qed.

(** What a critical section of the lock of [q] may do. *)
Definition changes (q : Z) (f : slot → slot) (body : M sst unit) : Prop := ∀ s, ∃ sl,
  body s = Done tt (Sst (sm s) (cproc s) (cctx s) (at_ s) sl) [] ∧
  sl q = f (slots s q) ∧ ∀ p, p ≠ q → sl p = slots s p.

Lemma changes_if q (b : slot → bool) f body :
  (∀ s, if b (slots s q) then ∃ sl, body s = Done tt (Sst (sm s) (cproc s) (cctx s) (at_ s) sl) [] ∧
     sl q = f (slots s q) ∧ ∀ p, p ≠ q → sl p = slots s p else body s = Done tt s []) →
  changes q (λ x, if b x then f x else x) body.
Proof.
  intros Hb s. specialize (Hb s). destruct (b (slots s q)); [done|]. exists (slots s). by destruct s.
Qed.

Definition same_control (s s' : sst) : Prop := at_ s' = at_ s ∧ cproc s' = cproc s ∧ cctx s' = cctx s.

Lemma critical_run g c q f body :
  inv g → LkProc q ∉ own g c → changes q f body →
  (∀ x, x = slots (st g) q → state x = RUNNING → f x = x) →
  (∀ x, x = slots (st g) q → state x ≠ RUNNING → slot_ok x → state (f x) ≠ RUNNING ∧ slot_ok (f x)) →
  let r := (acquire c (LkProc q);; body;; release c (LkProc q)) (st g) in
  r = NoFuel ∨ ∃ s, r = Done tt s [] ∧ inv (keep g s) ∧ same_control (st g) s ∧
    free (own g) (LkProc q) ∧ slots s q = f (slots (st g) q) ∧ ∀ p, p ≠ q → slots s p = slots (st g) p.
Proof.
  intros Hi Hl Hb Hrun Hok r. subst r. destruct (acquire_run _ _ _ _ (in_lock _ Hi) Hl) as [(Hf & m & E & Hm)|[_ E]].
  2: { left. unfold mbind at 1, M_bind at 1. by rewrite E. }
  right. rewrite (bind_done _ _ _ _ _ _ E), after_nil. destruct (Hb (set_sm m (st g))) as (sl & Eb & Hq & Hother).
  rewrite (bind_done _ _ _ _ _ _ Eb), after_nil.
  destruct (release_run (Sst m (cproc (st g)) (cctx (st g)) (at_ (st g)) sl) _ c (LkProc q) Hm) as (m' & Er & Hm').
  { rewrite upd_eq. by left. }
  exists (Sst m' (cproc (st g)) (cctx (st g)) (at_ (st g)) sl). split; [exact Er|].
  assert (lock_ok m' (own g)) as Hm2.
  { eapply lock_ok_ext; [|exact Hm']. intros c'. unfold upd. case_decide; [subst|done].
    rewrite decide_True by done. by rewrite without_cons. }
  split; [|split; [done|split; [done|split; [done|exact Hother]]]].
  destruct (decide (state (slots (st g) q) = RUNNING)) as [Hr|Hr].
  - pose proof (Hrun _ eq_refl Hr) as Hsame. assert (state (sl q) = state (slots (st g) q)) as Hst by (simpl in Hq; by rewrite Hq, Hsame).
    apply (inv_step g _ c q); try done; try by left.
    + unfold cpu_ok. eapply pos_ok_slots; [|apply (in_cpu _ Hi c)]. intros p _. simpl.
      destruct (decide (p = q)) as [->|]; [done|]. by rewrite Hother.
    + pose proof (in_proc _ Hi q) as Hp. unfold proc_ok in *. simpl. by rewrite Hst, Hr in *.
  - assert (slot_ok (slots (st g) q)) as Hsl.
    { pose proof (in_proc _ Hi q) as Hp. unfold proc_ok, slot_ok in *. by destruct (state _). }
    destruct (Hok _ eq_refl Hr Hsl) as [Hnr Hsl']. simpl in Hq. rewrite <-Hq in Hnr, Hsl'.
    assert (∀ c', cproc (st g) c' ≠ Some q) as Hno by (intros c'; by apply free_not_on).
    apply (inv_step g _ c q); try done; try by left.
    + unfold cpu_ok. eapply pos_ok_slots; [|apply (in_cpu _ Hi c)]. intros p Hp. simpl in *.
      rewrite Hother; [done|]. intros ->. by apply Hno in Hp.
    + right. intros c' _. apply Hno.
    + unfold proc_ok, slot_ok in *. simpl. by destruct (state (sl q)).
Qed.

(** ** Moves

    The steps as changes of the control state, the processes and the locks. *)

(** CPU [c] goes to [x] with the locks [o] and the process [cp]. *)
Record local (c : Z) (g g' : config) (x : pc) (o : list lockid) (cp : option Z) (cc : pc) : Prop := {
  lc_at : at_ (st g') c = x;
  lc_own : own g' c = o;
  lc_cproc : cproc (st g') c = cp;
  lc_cctx : cctx (st g') c = cc;
  lc_lock : lock_ok (sm (st g')) (own g');
  lc_other c' : c' ≠ c → own g' c' = own g c' ∧ at_ (st g') c' = at_ (st g) c' ∧
    cproc (st g') c' = cproc (st g) c' ∧ cctx (st g') c' = cctx (st g) c'
}.
(** It stays the CPU of the same process. *)
Definition stays (c : Z) (g g' : config) (x : pc) (o : list lockid) : Prop :=
  local c g g' x o (cproc (st g) c) (cctx (st g) c).

Definition others (q : Z) (g g' : config) : Prop := ∀ p, p ≠ q → slots (st g') p = slots (st g) p.
Definition same_slots (g g' : config) : Prop := ∀ p, slots (st g') p = slots (st g) p.
Definition same_cond (g g' : config) : Prop := (∀ ch, cond g' ch = cond g ch) ∧ ∀ c, owed g' c = owed g c.

(** The threads that run code with locks: processes and interrupts. *)
Definition is_thread (th : kpos → pc) : Prop := th = On ∨ ∃ p, th = Irq p.

(** What other processes may do to [q]. *)
Definition outside (x y : slot) : Prop :=
  y = x ∨ state x = SLEEPING ∧ y = Slot RUNNABLE (channel x) (ctx x) ∨
  state x = UNUSED ∧ y = Slot USED (channel x) ForkRet ∨
  state x = USED ∧ y = Slot RUNNABLE (channel x) (ctx x) ∨
  state x = ZOMBIE ∧ y = Slot UNUSED None (ctx x).

Inductive move (c : Z) (g g' : config) : Prop :=
  | mv_pick p :
      at_ (st g) c = Scan p → free (own g) (LkProc p) → state (slots (st g) p) = RUNNABLE →
      local c g g' (On (ctx (slots (st g) p))) [LkProc p] (Some p) (Back p) →
      slots (st g') p = Slot RUNNING (channel (slots (st g) p)) (ctx (slots (st g) p)) → others p g g' → same_cond g g' →
      move c g g'
  | mv_sched x p :
      at_ (st g) c = x → (∃ q, x = Scan q ∨ x = Back q ∨ x = Irq q Run) →
      0 ≤ p < NPROC → own g c = [] ∨ (∃ q, x = Back q) →
      (∃ cc y, local c g g' y [] None cc ∧ (y = Scan p ∨ y = Irq p Run)) →
      same_slots g g' → same_cond g g' → move c g g'
  | mv_lock th l :
      is_thread th → at_ (st g) c = th Run → (∀ i, l ≠ LkProc i) → stays c g g' (th Run) (l :: own g c) →
      same_slots g g' → same_cond g g' → move c g g'
  | mv_unlock th l :
      is_thread th → at_ (st g) c = th Run → (∀ ch, ch ∈ owed g c → chan_lock ch ≠ l) →
      stays c g g' (th Run) (without l (own g c)) → same_slots g g' → same_cond g g' → move c g g'
  | mv_cond th ch b :
      is_thread th → at_ (st g) c = th Run → chan_lock ch ∈ own g c → stays c g g' (th Run) (own g c) →
      same_slots g g' → (∀ x, cond g' x = if decide (x = ch) then b else cond g x) →
      (∀ c', c' ≠ c → owed g' c' = owed g c') → owed g' c = (if b then ch :: owed g c else owed g c) →
      move c g g'
  | mv_wakeup th ch :
      is_thread th → at_ (st g) c = th Run → stays c g g' (th (Waking ch 0)) (own g c) →
      same_slots g g' → same_cond g g' → move c g g'
  | mv_round th ch q :
      is_thread th → at_ (st g) c = th (Waking ch q) → 0 ≤ q < NPROC → stays c g g' (th (Waking ch (q + 1))) (own g c) →
      others q g g' → outside (slots (st g) q) (slots (st g') q) →
      (cproc (st g) c = Some q ∨
       free (own g) (LkProc q) ∧ (state (slots (st g') q) = SLEEPING → channel (slots (st g') q) ≠ Some ch)) →
      same_cond g g' → move c g g'
  | mv_woken th ch q :
      is_thread th → at_ (st g) c = th (Waking ch q) → NPROC ≤ q → stays c g g' (th Run) (own g c) → same_slots g g' →
      (∀ x, cond g' x = cond g x) → (∀ c', c' ≠ c → owed g' c' = owed g c') →
      owed g' c = filter (λ x, x ≠ ch) (owed g c) → move c g g'
  | mv_other th q :
      is_thread th → at_ (st g) c = th Run → 0 ≤ q < NPROC → stays c g g' (th Run) (own g c) →
      free (own g) (LkProc q) → others q g g' → outside (slots (st g) q) (slots (st g') q) → same_cond g g' → move c g g'
  | mv_code p k k' o :
      at_ (st g) c = On k → cproc (st g) c = Some p → code_ok k' p o → state_at k = RUNNING →
      stays c g g' (On k') o →
      (∀ l, l ∈ own g c → l ∈ o ∨ (∃ i, l = LkProc i) ∨ ∃ ch, k = SleepLk ch l) →
      match k' with
      | SleepLk ch l => cond g ch = false ∧ owed g c = []
      | SleepSt ch l => k = SleepLk ch l
      | ExitRel => owed g c = []
      | Waking _ _ => False
      | _ => True
      end →
      (∃ chn, slots (st g') p = Slot (state_at k') chn (ctx (slots (st g) p))) → others p g g' → same_cond g g' →
      move c g g'
  | mv_leave p k :
      at_ (st g) c = On k → cproc (st g) c = Some p → local c g g' (Back p) [LkProc p] (Some p) (Back p) →
      (∀ l, l ∈ own g c → (∃ i, l = LkProc i) ∨ k = ExitRel) →
      state (slots (st g') p) ≠ RUNNING → slot_ok (slots (st g') p) →
      (state (slots (st g') p) = SLEEPING → ∃ ch l, channel (slots (st g') p) = Some ch ∧ k = SleepSt ch l) →
      others p g g' → same_cond g g' → move c g g'.

(** A step that the code takes. *)
Definition moves (c : Z) (g : config) (r : option result) : Prop :=
  match r with Some (Moved g') => move c g g' | Some (Crashed _) => False | None => True end.

Lemma same_cond_keep g s : same_cond g (keep g s).
Proof. done. Qed.
Lemma same_cond_locks g c o s : same_cond g (locks g c o s).
Proof. done. Qed.
#[local] Hint Resolve same_cond_keep same_cond_locks : core.

(** The result of a handler that acts on CPU [c]. *)
Lemma local_locks c g s o :
  (∀ c', c' ≠ c → at_ s c' = at_ (st g) c' ∧ cproc s c' = cproc (st g) c' ∧ cctx s c' = cctx (st g) c') →
  lock_ok (sm s) (upd (own g) c o) → local c g (locks g c o s) (at_ s c) o (cproc s c) (cctx s c).
Proof.
  intros Ho Hl. unfold locks. split; simpl; try done; [by rewrite upd_eq|].
  intros c' Hc'. rewrite upd_ne by done. by destruct (Ho c' Hc') as (-> & -> & ->).
Qed.

Lemma local_keep c g s :
  (∀ c', c' ≠ c → at_ s c' = at_ (st g) c' ∧ cproc s c' = cproc (st g) c' ∧ cctx s c' = cctx (st g) c') →
  lock_ok (sm s) (own g) → local c g (keep g s) (at_ s c) (own g c) (cproc s c) (cctx s c).
Proof. intros Ho Hl. unfold keep. split; simpl; try done. intros c' Hc'. by destruct (Ho c' Hc') as (-> & -> & ->). Qed.

Ltac ev H := rewrite (bind_done _ _ _ _ _ _ H), after_nil; clear H.

Lemma scheduler_next_run s o c p :
  lock_ok (sm s) o → o c = [] → 0 ≤ p < NPROC →
  ∃ m p', scheduler_next c p s = Done tt (Sst m (cproc s) (cctx s) (upd (at_ s) c (Scan p')) (slots s)) [] ∧
    p' = (p + 1) mod NPROC ∧ lock_ok m o.
Proof.
  intros Ho Hc Hp. unfold scheduler_next. destruct (Z.ltb_spec (p + 1) NPROC).
  - exists (sm s), (p + 1). split; [done|]. split; [|done]. rewrite Z.mod_small; lia.
  - eexists _, 0. split; [reflexivity|]. split; [|by apply set_cpu_ok]. by replace (p + 1) with NPROC by lia.
Qed.

(** [sched()] does not panic with the one lock it needs. *)
Lemma sched_run s o c p k :
  lock_ok (sm s) o → o c = [LkProc p] → state (slots s p) ≠ RUNNING →
  sched c p k s = Done tt (Sst (sm s) (cproc s) (cctx s) (upd (at_ s) c (cctx s c))
    (upd (slots s) p (Slot (state (slots s p)) (channel (slots s p)) (k (intena (cpus (sm s) c)))))) [].
Proof.
  intros Ho Hc Hst. unfold sched, in_sm, zoom, mbind, M_bind. simpl.
  rewrite (lo_held _ _ Ho c (LkProc p)) by (rewrite Hc; by left). simpl. rewrite bool_decide_true by done. simpl.
  rewrite (lo_noff _ _ Ho c), Hc. simpl. rewrite bool_decide_false by done. simpl.
  rewrite (lo_intr _ _ Ho c) by (by rewrite Hc). simpl. by destruct s.
Qed.

Ltac at_p := repeat (rewrite upd_eq; simpl).
Ltac change_slot :=
  apply changes_if; intros s; unfold mbind, M_bind; simpl; case_bool_decide; simpl; [|reflexivity];
    eexists; (split; [reflexivity|]); simpl; rewrite ?upd_eq; (split; [done|]); intros p Hp; by rewrite ?upd_ne.

Section moves.
  Variable (g : config) (c : Z).
  Hypothesis Hi : inv g.

Lemma acquire_then {A} l (m : M sst A) k :
  l ∉ own g c →
  (∀ sm', free (own g) l → lock_ok sm' (upd (own g) c (l :: own g c)) →
     moves c g (match m (set_sm sm' (st g)) with
       | Done _ s _ => Some (Moved (k s)) | Panicked msg _ _ => Some (Crashed msg) | _ => None end)) →
  moves c g (run (acquire c l;; m) g k).
Proof using Hi.
  intros Hl Hm. unfold run. destruct (acquire_run _ _ _ _ (in_lock _ Hi) Hl) as [(Hf & m' & E & Hm')|[_ E]].
  - ev E. by apply Hm.
  - unfold mbind, M_bind. by rewrite E.
Qed.

Lemma move_scan p : at_ (st g) c = Scan p → moves c g (step c Tick g).
Proof using Hi.
  intros Hat. pose proof (in_cpu _ Hi c) as Hc. unfold cpu_ok in Hc. rewrite Hat in Hc. destruct Hc as (Hp & Ho & Hcp).
  unfold step. rewrite Hat. unfold scheduler_scan. apply acquire_then; [rewrite Ho; apply not_elem_of_nil|].
  intros m Hf Hm. unfold mbind at 1, M_bind at 1. simpl. case_bool_decide as Hst; simpl.
  - rewrite upd_eq. eapply mv_pick; try done.
    + split; simpl; rewrite ?upd_eq; try done.
      * rewrite Ho in Hm. done.
      * intros c' Hne. by rewrite !upd_ne.
    + simpl. by rewrite upd_eq.
    + intros q Hq. simpl. by rewrite upd_ne.
  - destruct (release_run (set_sm m (st g)) _ c (LkProc p) Hm) as (m' & E & Hm'); [rewrite upd_eq; by left|].
    ev E. assert (lock_ok m' (own g)) as Hm2.
    { eapply lock_ok_ext; [|exact Hm']. intros c'. unfold upd. case_decide; [subst|done].
      rewrite decide_True by done. rewrite without_cons; [done|]. rewrite Ho. apply not_elem_of_nil. }
    rewrite after_nil. destruct (scheduler_next_run (set_sm m' (set_sm m (st g))) _ c p Hm2 Ho Hp) as (m2 & p' & E & Hp' & Hm3).
    rewrite E. simpl. rewrite upd_eq. eapply (mv_sched _ _ _ _ p'); [done|by exists p; left|subst p'; apply next_range|by left| |done|done].
    exists (cctx (st g) c), (Scan p'). split; [|by left]. unfold keep. split; simpl; rewrite ?upd_eq; try done.
    intros c' Hne. by rewrite !upd_ne.
Qed.

Lemma move_back p : at_ (st g) c = Back p → moves c g (step c Tick g).
Proof using Hi.
  intros Hat. pose proof (in_cpu _ Hi c) as Hc. unfold cpu_ok in Hc. rewrite Hat in Hc. destruct Hc as (Hp & Ho & Hcp & Hst).
  unfold step. rewrite Hat. unfold run, scheduler_back. rewrite (bind_done (set_cproc c None) _ _ tt _ [] eq_refl), after_nil.
  match goal with |- context [(release c _ ≫= _) ?x] => set (s1 := x) end.
  destruct (release_run s1 (own g) c (LkProc p)) as (m & E & Hm); [apply Hi|rewrite Ho; by left|]. ev E.
  destruct (scheduler_next_run (set_sm m s1) _ c p Hm) as (m2 & p' & E & Hp' & Hm2); [|done|].
  { rewrite upd_eq, Ho. by rewrite without_cons by apply not_elem_of_nil. }
  rewrite E. simpl. eapply (mv_sched _ _ _ _ p'); [done|by exists p; right; left|subst p'; apply next_range|by right; exists p| |done|done].
  exists (cctx (st g) c), (Scan p'). split; [|by left]. unfold locks. split; simpl; rewrite ?upd_eq; try done.
  - rewrite Ho in Hm2. by rewrite without_cons in Hm2 by apply not_elem_of_nil.
  - intros c' Hne. by rewrite !upd_ne.
Qed.

Lemma thread_facts th k :
  is_thread th → at_ (st g) c = th k → k = Run ∨ (∃ ch q, k = Waking ch q) →
  no_proc (own g c) ∧ ∀ ch q, k = Waking ch q → 0 ≤ q ≤ NPROC.
Proof using Hi.
  intros Hth Hat Hk. pose proof (in_cpu _ Hi c) as Hc. unfold cpu_ok in Hc. rewrite Hat in Hc.
  destruct Hth as [->|[p ->]]; simpl in Hc; destruct Hk as [->|(ch & q & ->)]; naive_solver.
Qed.

Lemma move_critical th q f body :
  is_thread th → at_ (st g) c = th Run → 0 ≤ q < NPROC → changes q f body →
  (∀ x, x = slots (st g) q → outside x (f x)) →
  moves c g (run (acquire c (LkProc q);; body;; release c (LkProc q)) g (keep g)).
Proof using Hi.
  intros Hth Hat Hq Hb Hf. destruct (thread_facts _ _ Hth Hat ltac:(by left)) as [Hno _]. unfold run.
  destruct (critical_run g c q f body Hi (Hno q) Hb) as [E|(s & E & Hk & (Hc1 & Hc2 & Hc3) & Hfr & Hsq & Hother)].
  - intros x Hx Hr. destruct (Hf x Hx) as [?|[[? _]|[[? _]|[[? _]|[? _]]]]]; congruence.
  - intros x Hx Hnr Hok. unfold slot_ok in *. destruct (Hf x Hx) as [->|[[E ->]|[[E ->]|[[E ->]|[E ->]]]]]; simpl; rewrite ?E in Hok; try done.
    by rewrite Hok.
  - by rewrite E.
  - rewrite E. eapply mv_other; try done; [|simpl; rewrite Hsq; by apply Hf].
    unfold keep. split; simpl; rewrite ?Hc1, ?Hc2, ?Hc3; try done. apply Hk.
Qed.

Lemma move_client th a :
  is_thread th → at_ (st g) c = th Run → allowed c a g → moves c g (client c th a g).
Proof using Hi.
  intros Hth Hat Ha. destruct (thread_facts _ _ Hth Hat ltac:(by left)) as [Hno _].
  destruct a as [| | |l|l|ch|ch|ch|ch| | |q|q|q|q|b]; try done; simpl in Ha; unfold client.
  - unfold run. destruct Ha as [Hl Hn]. destruct (acquire_run _ _ _ _ (in_lock _ Hi) Hn) as [(Hf & m & -> & Hm)|[_ ->]]; [|done].
    eapply mv_lock; try done. unfold locks. split; simpl; rewrite ?upd_eq; try done. intros c' Hne. by rewrite upd_ne.
  - unfold run. destruct Ha as [Hl Hn]. destruct (release_run _ _ _ _ (in_lock _ Hi) Hl) as (m & -> & Hm).
    eapply mv_unlock; try done. unfold locks. split; simpl; rewrite ?upd_eq; try done. intros c' Hne. by rewrite upd_ne.
  - eapply (mv_cond _ _ _ _ ch true); try done; [|intros c' Hne; simpl; by rewrite upd_ne|simpl; by rewrite upd_eq].
    split; try done. apply Hi.
  - eapply (mv_cond _ _ _ _ ch false); try done. split; try done. apply Hi.
  - eapply mv_wakeup; try done. unfold keep. split; simpl; rewrite ?upd_eq; try done; [apply Hi|]. intros c' Hne. by rewrite upd_ne.
  - apply (move_critical th q (λ x, if bool_decide (state x = SLEEPING) then Slot RUNNABLE (channel x) (ctx x) else x)); try done.
    + change_slot.
    + intros x _. unfold outside. case_bool_decide; naive_solver.
  - apply (move_critical th q (λ x, if bool_decide (state x = UNUSED) then Slot USED (channel x) ForkRet else x)); try done.
    + change_slot.
    + intros x _. unfold outside. case_bool_decide; naive_solver.
  - destruct Ha as [Hq Ha]. apply (move_critical th q (λ x, Slot RUNNABLE (channel x) (ctx x))); try done.
    + intros s. eexists. split; [reflexivity|]. simpl. rewrite upd_eq. split; [done|]. intros p Hp. by rewrite upd_ne.
    + intros x ->. unfold outside. naive_solver.
  - apply (move_critical th q (λ x, if bool_decide (state x = ZOMBIE) then Slot UNUSED None (ctx x) else x)); try done.
    + change_slot.
    + intros x _. unfold outside. case_bool_decide; naive_solver.
Qed.

Lemma move_waking th ch q :
  is_thread th → at_ (st g) c = th (Waking ch q) → moves c g (waking c th ch q g).
Proof using Hi.
  intros Hth Hat. destruct (thread_facts _ _ Hth Hat) as [Hno Hq]; [by right; eauto|]. specialize (Hq ch q eq_refl).
  unfold waking, run. destruct (Z.ltb_spec q NPROC) as [Hlt|Hge].
  2: { simpl. eapply mv_woken; try done; simpl; rewrite ?upd_eq; try done; [|intros c' Hne; by rewrite upd_ne].
       split; simpl; rewrite ?upd_eq; try done; [apply Hi|]. intros c' Hne. by rewrite upd_ne. }
  unfold wakeup_round. case_bool_decide as Hme.
  { simpl. eapply mv_round; try done; [lia| |by left|by left].
    unfold keep. split; simpl; rewrite ?upd_eq; try done; [apply Hi|]. intros c' Hne. by rewrite upd_ne. }
  set (b := λ x, bool_decide (state x = SLEEPING) && bool_decide (channel x = Some ch)).
  set (f := λ x, if b x then Slot RUNNABLE (channel x) (ctx x) else x).
  destruct (critical_run g c q f (x ← gets (λ s, slots s q); if b x then set_state q RUNNABLE else mret tt) Hi (Hno q))
    as [E|(s & E & Hk & (Hc1 & Hc2 & Hc3) & Hfr & Hsq & Hother)].
  - apply changes_if. intros s. unfold mbind, M_bind. simpl. destruct (b (slots s q)); [|done].
    eexists. split; [reflexivity|]. simpl. rewrite upd_eq. split; [done|]. intros p Hp. by rewrite upd_ne.
  - intros x _ Hr. unfold f, b. by rewrite Hr.
  - intros x _ Hnr Hok. unfold f, slot_ok in *. destruct (b x) eqn:Eb; [|done]. apply andb_true_iff in Eb as [Eb%bool_decide_eq_true _].
    simpl. by rewrite Eb in Hok.
  - unfold b in E. cbv beta in E. unfold mbind at 1, M_bind at 1. by rewrite E.
  - unfold b in E. cbv beta in E. ev E. simpl. eapply mv_round; try done; [lia|..]; simpl.
    + unfold keep. split; simpl; rewrite ?upd_eq, ?Hc1, ?Hc2, ?Hc3; try done; [apply Hk|]. intros c' Hne. by rewrite upd_ne.
    + rewrite Hsq. unfold f, outside. destruct (b _) eqn:Eb; [|by left]. right; left.
      by apply andb_true_iff in Eb as [Eb%bool_decide_eq_true _].
    + right. split; [done|]. rewrite Hsq. unfold f. destruct (b _) eqn:Eb; [done|]. unfold b in Eb. intros Hs Hch.
      by rewrite !bool_decide_true in Eb.
Qed.

Lemma thread_at k :
  at_ (st g) c = On k → ∃ p, 0 ≤ p < NPROC ∧ cproc (st g) c = Some p ∧ cctx (st g) c = Back p ∧ code_ok k p (own g c) ∧
    state (slots (st g) p) = state_at k.
Proof using Hi. intros Hat. pose proof (in_cpu _ Hi c) as Hc. unfold cpu_ok in Hc. by rewrite Hat in Hc. Qed.

(** The thread goes on at [k'] with the locks [o]. *)
Lemma go_on p k k' o s :
  at_ (st g) c = On k → cproc (st g) c = Some p → state_at k = RUNNING → code_ok k' p o →
  (∀ l, l ∈ own g c → l ∈ o ∨ (∃ i, l = LkProc i) ∨ ∃ ch, k = SleepLk ch l) →
  match k' with
  | SleepLk ch l => cond g ch = false ∧ owed g c = []
  | SleepSt ch l => k = SleepLk ch l
  | ExitRel => owed g c = []
  | Waking _ _ => False
  | _ => True
  end →
  lock_ok (sm s) (upd (own g) c o) → cproc s = cproc (st g) → cctx s = cctx (st g) → at_ s = upd (at_ (st g)) c (On k') →
  (∃ chn, slots s p = Slot (state_at k') chn (ctx (slots (st g) p))) → (∀ q, q ≠ p → slots s q = slots (st g) q) →
  move c g (locks g c o s).
Proof using.
  intros Hat Hcp Hrun Hok Hown Hk' Hl E1 E2 E3 Hsl Hother. eapply (mv_code _ _ _ p k k' o); try done.
  unfold locks. split; simpl; rewrite ?E1, ?E2, ?E3, ?upd_eq; try done. intros c' Hne. by rewrite !upd_ne.
Qed.

(** It leaves the CPU. *)
Lemma go_away p k s :
  at_ (st g) c = On k → cproc (st g) c = Some p → cctx (st g) c = Back p →
  (∀ l, l ∈ own g c → (∃ i, l = LkProc i) ∨ k = ExitRel) →
  lock_ok (sm s) (upd (own g) c [LkProc p]) → cproc s = cproc (st g) → cctx s = cctx (st g) → at_ s = upd (at_ (st g)) c (Back p) →
  state (slots s p) ≠ RUNNING → slot_ok (slots s p) →
  (state (slots s p) = SLEEPING → ∃ ch l, channel (slots s p) = Some ch ∧ k = SleepSt ch l) →
  (∀ q, q ≠ p → slots s q = slots (st g) q) →
  move c g (locks g c [LkProc p] s).
Proof using.
  intros Hat Hcp Hcc Hown Hl E1 E2 E3 Hnr Hok Hsl Hother. eapply (mv_leave _ _ _ p k); try done.
  unfold locks. split; simpl; rewrite ?E1, ?E2, ?E3, ?upd_eq; try done. intros c' Hne. by rewrite !upd_ne.
Qed.

Lemma chan_lock_proc ch i : chan_lock ch ≠ LkProc i.
Proof. by destruct ch. Qed.

(** The pieces of [sleep]. *)
Lemma move_sleep p k a :
  at_ (st g) c = On k → cproc (st g) c = Some p → allowed c a g →
  match k, a with
  | Run, Sleep _ | SleepLk _ _, Tick | SleepSt _ _, Tick | SleepBack _ _, Tick | SleepEnd _, Tick => True
  | _, _ => False
  end → moves c g (thread c p k a g).
Proof using Hi.
  intros Hat Hcp Ha Hka. destruct (thread_at k Hat) as (p' & Hp & Hcp' & Hcc & Hk & Hst). simplify_eq.
  assert (∀ l, l ∈ [LkProc p] → ∃ i, l = LkProc i) as Hone by (intros l ->%list_elem_of_singleton; by eexists).
  destruct k as [| |ch l|ch l|l ie|l| | | |], a; try done; simpl in Hst, Hk; clear Hka.
  - destruct Ha as (Ho & Hcond & Howed). unfold thread, sleep_lock. apply acquire_then; [apply Hk|]. intros m Hf Hm. simpl.
    apply (go_on p Run (SleepLk ch (chan_lock ch))); try done; simpl.
    + by rewrite Ho.
    + intros l Hl. left. by right.
    + exists (channel (slots (st g) p)). rewrite <-Hst. by destruct (slots (st g) p).
  - destruct Hk as [Ho ->]. unfold thread, run, sleep_release.
    destruct (release_run (st g) (own g) c (chan_lock ch) (in_lock _ Hi)) as (m & E & Hm); [rewrite Ho; set_solver|]. ev E. simpl.
    apply (go_on p (SleepLk ch (chan_lock ch)) (SleepSt ch (chan_lock ch))); try done; simpl.
    + rewrite Ho. intros l Hl. apply elem_of_cons in Hl as [->|Hl]; [left; by left|]. apply list_elem_of_singleton in Hl as ->. right; right. by eexists.
    + rewrite Ho in Hm. unfold without in Hm. rewrite filter_cons_True in Hm by (by apply not_eq_sym, chan_lock_proc).
      rewrite filter_cons_False in Hm by naive_solver. done.
    + exists (channel (slots (st g) p)). rewrite <-Hst. by destruct (slots (st g) p).
  - destruct Hk as [Ho ->]. unfold thread, run, sleep_sched. rewrite (bind_done (set_channel p (Some ch)) _ _ tt _ [] eq_refl), after_nil.
    rewrite (bind_done (set_state p SLEEPING) _ _ tt _ [] eq_refl), after_nil.
    rewrite (sched_run _ (own g) c p); [|apply Hi|done|simpl; by rewrite upd_eq]. simpl. rewrite Hcc.
    apply (go_away p (SleepSt ch (chan_lock ch))); try done; simpl.
    + rewrite Ho. intros l Hl. left. by apply Hone.
    + eapply lock_ok_ext; [|apply Hi]. intros c'. unfold upd. case_decide; by subst.
    + by at_p.
    + unfold slot_ok. at_p. apply chan_lock_proc.
    + at_p. eauto.
    + intros q Hq. by rewrite !upd_ne.
  - destruct Hk as [Ho Hl]. unfold thread, run, sleep_back.
    rewrite (bind_done (set_intena c ie) _ _ tt _ [] eq_refl), after_nil.
    rewrite (bind_done (set_channel p None) _ _ tt _ [] eq_refl), after_nil.
    match goal with |- context [(release c _ ≫= _) ?x] => set (s1 := x) end.
    destruct (release_run s1 (own g) c (LkProc p)) as (m & E & Hm); [|rewrite Ho; by left|].
    { apply set_cpu_ok; [apply Hi|done|apply Hi]. }
    ev E. simpl. apply (go_on p (SleepBack l ie) (SleepEnd l)); try done; simpl.
    + rewrite Ho. intros l' Hl'. right; left. by apply Hone.
    + rewrite Ho in Hm. by rewrite without_cons in Hm by apply not_elem_of_nil.
    + exists None. rewrite upd_eq. by rewrite Hst.
    + intros q Hq. by rewrite upd_ne.
  - destruct Hk as [Ho Hl]. unfold thread, sleep_end. apply acquire_then; [rewrite Ho; apply not_elem_of_nil|].
    intros m Hf Hm. simpl. apply (go_on p (SleepEnd l) Run); try done; simpl.
    + intros i Hx. apply list_elem_of_singleton in Hx. by destruct (Hl i).
    + rewrite Ho. intros l' Hl'. by apply not_elem_of_nil in Hl'.
    + by rewrite Ho in Hm.
    + exists (channel (slots (st g) p)). rewrite <-Hst. by destruct (slots (st g) p).
Qed.

Lemma upd_own_self o : own g c = o → lock_ok (sm (st g)) (upd (own g) c o).
Proof using Hi. intros Ho. eapply lock_ok_ext; [|apply Hi]. intros c'. unfold upd. case_decide; by subst. Qed.

(** [yield], called at [k], and back. *)
Lemma move_yield p k :
  at_ (st g) c = On k → cproc (st g) c = Some p → own g c = [] → k = Run ∨ (∃ l, k = SleepEnd l) →
  moves c g (run (yield c p k) g (locks g c [LkProc p])).
Proof using Hi.
  intros Hat Hcp Ho Hk. destruct (thread_at k Hat) as (p' & Hp & Hcp' & Hcc & Hok & Hst). simplify_eq.
  unfold yield. apply acquire_then; [rewrite Ho; apply not_elem_of_nil|]. intros m Hf Hm. rewrite Ho in Hm.
  rewrite (bind_done (set_state p RUNNABLE) _ _ tt _ [] eq_refl), after_nil.
  rewrite (sched_run _ (upd (own g) c [LkProc p]) c p); [|done|by rewrite upd_eq|simpl; by at_p]. simpl. rewrite Hcc.
  apply (go_away p k); try done; simpl.
  - rewrite Ho. intros l Hl. by apply not_elem_of_nil in Hl.
  - by at_p.
  - unfold slot_ok. at_p. destruct Hk as [->|[l ->]]; [done|]. apply Hok.
  - by at_p.
  - intros q Hq. by rewrite !upd_ne.
Qed.

(** A thread that releases the lock the scheduler had taken. *)
Lemma move_released p k k' ie :
  at_ (st g) c = On k → cproc (st g) c = Some p → own g c = [LkProc p] → code_ok k' p [] → state_at k = RUNNING →
  k' = Run ∨ (∃ l, k' = SleepEnd l) →
  moves c g (run (set_intena c ie;; release c (LkProc p);; goto c (On k')) g (locks g c [])) ∧
  moves c g (run (release c (LkProc p);; goto c (On k')) g (locks g c [])).
Proof using Hi.
  intros Hat Hcp Ho Hok Hr Hk'. destruct (thread_at k Hat) as (p' & Hp & Hcp' & Hcc & _ & Hst). simplify_eq.
  assert (∀ s, same_control (st g) s → slots s = slots (st g) → lock_ok (sm s) (own g) →
    moves c g (match (release c (LkProc p);; goto c (On k')) s with
      | Done _ s _ => Some (Moved (locks g c [] s)) | Panicked msg _ _ => Some (Crashed msg) | _ => None end)) as H.
  { intros s (E1 & E2 & E3) Es Hs. destruct (release_run s (own g) c (LkProc p) Hs) as (m & E & Hm); [rewrite Ho; by left|].
    ev E. simpl. apply (go_on p k k'); try done; simpl.
    - rewrite Ho. intros l ->%list_elem_of_singleton. right; left. by eexists.
    - by destruct Hk' as [->|[l ->]].
    - rewrite Ho in Hm. by rewrite without_cons in Hm by apply not_elem_of_nil.
    - by rewrite E1.
    - exists (channel (slots (st g) p)). rewrite Es. replace (state_at k') with RUNNING by (by destruct Hk' as [->|[l ->]]).
      rewrite <-Hr, <-Hst. by destruct (slots (st g) p).
    - intros q _. by rewrite Es. }
  split; unfold run.
  - rewrite (bind_done (set_intena c ie) _ _ tt _ [] eq_refl), after_nil. apply H; try done.
    apply set_cpu_ok; [apply Hi|done|apply Hi].
  - apply H; try done. apply Hi.
Qed.

(** The end of [exit]. *)
Lemma move_exit p k a :
  at_ (st g) c = On k → cproc (st g) c = Some p → allowed c a g →
  match k, a with Run, Exit | ExitRel, Tick => True | _, _ => False end → moves c g (thread c p k a g).
Proof using Hi.
  intros Hat Hcp Ha Hka. destruct (thread_at k Hat) as (p' & Hp & Hcp' & Hcc & Hk & Hst). simplify_eq.
  destruct k, a; try done; clear Hka; simpl in Hst, Hk.
  - destruct Ha as [Ho Howed]. unfold thread, exit_zombie. apply acquire_then; [apply Hk|]. intros m Hf Hm. simpl.
    apply (go_on p Run ExitRel); try done; simpl.
    + by rewrite Ho.
    + intros l Hl. left. by right.
    + at_p. by eexists.
    + intros q Hq. by rewrite upd_ne.
  - unfold thread, run, exit_sched. destruct (release_run (st g) (own g) c LkWait (in_lock _ Hi)) as (m & E & Hm); [rewrite Hk; set_solver|].
    ev E. rewrite Hk in Hm. change (without LkWait [LkProc p; LkWait]) with [LkProc p] in Hm.
    rewrite (sched_run _ (upd (own g) c [LkProc p]) c p); [|done|by rewrite upd_eq|simpl; by rewrite Hst]. simpl. rewrite Hcc.
    apply (go_away p ExitRel); try done; simpl.
    + intros l Hl. by right.
    + at_p. by rewrite Hst.
    + unfold slot_ok. at_p. by rewrite Hst.
    + at_p. by rewrite Hst.
    + intros q Hq. by rewrite upd_ne.
Qed.

Lemma move_thread p k a :
  at_ (st g) c = On k → cproc (st g) c = Some p → allowed c a g → moves c g (thread c p k a g).
Proof using Hi.
  intros Hat Hcp Ha. destruct (thread_at k Hat) as (p' & Hp & Hcp' & Hcc & Hk & Hst). simplify_eq.
  destruct k as [|ch q|ch l|ch l|l ie|l|k ie| | |].
  - destruct a; try done; try (apply (move_client On); [by left|done|done]).
    + by apply move_sleep.
    + apply (move_yield p Run); try done. by left.
    + by apply move_exit.
    + unfold thread, run. simpl. apply (go_on p Run Run); try done; simpl.
      * intros i Hx. by apply not_elem_of_nil in Hx.
      * rewrite Ha. intros l Hl. by apply not_elem_of_nil in Hl.
      * apply set_cpu_ok; [by apply upd_own_self|done|]. by rewrite upd_eq.
      * exists (channel (slots (st g) p)). simpl in Hst. rewrite <-Hst. by destruct (slots (st g) p).
  - destruct a; try done. apply move_waking; [by left|done].
  - destruct a; try done. by apply move_sleep.
  - destruct a; try done. by apply move_sleep.
  - destruct a; try done. by apply move_sleep.
  - destruct a; try done; [by apply move_sleep|]. apply (move_yield p (SleepEnd l)); try done. right. by eexists.
  - destruct a; try done. destruct Hk as [Ho Hk]. unfold thread, yield_back.
    apply (move_released p (YieldBack k ie) k ie); try done; destruct k; try done; [by intros i Hx%not_elem_of_nil|by left|right; by eexists].
  - destruct a; try done. destruct Hk as [Ho Hk]. unfold thread, forkret. apply (move_released p ForkRet Run false); try done; [|by left].
    by intros i Hx%not_elem_of_nil.
  - destruct a; try done. by apply move_exit.
  - done.
Qed.

Lemma step_moves a : allowed c a g → moves c g (step c a g).
Proof using Hi.
  intros Ha. destruct (at_ (st g) c) as [p|p|p k|k] eqn:Hat.
  - destruct a; try (by unfold step; rewrite Hat); [by eapply move_scan|]. unfold step. rewrite Hat.
    pose proof (in_cpu _ Hi c) as Hc. unfold cpu_ok in Hc. rewrite Hat in Hc. destruct Hc as (Hp & Ho & Hcp).
    destruct (intr _); [|done]. unfold run. simpl. eapply (mv_sched _ _ _ (Scan p) p); try done; [by exists p; left|by left|].
    exists (cctx (st g) c), (Irq p Run). split; [|by right]. unfold keep. split; simpl; rewrite ?upd_eq; try done.
    + apply set_cpu_ok; [apply Hi|done|]. by rewrite Ho.
    + intros c' Hne. by rewrite !upd_ne.
  - destruct a; try (by unfold step; rewrite Hat). by eapply move_back.
  - unfold step. rewrite Hat. pose proof (in_cpu _ Hi c) as Hc. unfold cpu_ok in Hc. rewrite Hat in Hc.
    destruct k; try done; destruct a; try done;
      try (apply (move_client (Irq p)); [right; by eexists|done|done]).
    + destruct Hc as (Hp & Hcp & Hno). simpl in Ha. unfold run. simpl.
      eapply (mv_sched _ _ _ (Irq p Run) p); try done; [exists p; auto|by left|].
      exists (cctx (st g) c), (Scan p). split; [|by left]. unfold keep. split; simpl; rewrite ?upd_eq; try done.
      * apply set_cpu_ok; [apply Hi|done|]. by rewrite Ha.
      * intros c' Hne. by rewrite !upd_ne.
    + apply (move_waking (Irq p)); [right; by eexists|done].
  - unfold step. rewrite Hat. destruct (thread_at k Hat) as (p & Hp & Hcp & _). rewrite Hcp. by apply move_thread.
Qed.
End moves.

(** ** The invariant is kept *)

Lemma outside_state x y : outside x y → state x = RUNNING → y = x.
Proof. intros [->|[[? _]|[[? _]|[[? _]|[? _]]]]]; congruence. Qed.
Lemma outside_ok x y : outside x y → state x ≠ RUNNING → slot_ok x → state y ≠ RUNNING ∧ slot_ok y.
Proof.
  unfold slot_ok. intros [->|[[E ->]|[[E ->]|[[E ->]|[E ->]]]]]; simpl; rewrite ?E; try done. by intros _ ->.
Qed.

Lemma stays_pos c g g' x o :
  stays c g g' x o → (∀ p, cproc (st g) c = Some p → state (slots (st g') p) = state (slots (st g) p)) →
  pos_ok x o (cproc (st g) c) (cctx (st g) c) (slots (st g)) → cpu_ok g' c.
Proof.
  intros [E1 E2 E3 E4 _ _] Hs Hp. unfold cpu_ok. rewrite E1, E2, E3, E4. eapply pos_ok_slots; [|exact Hp]. done.
Qed.

Lemma stays_runs c g g' x o p :
  stays c g g' x o → (∀ k, at_ (st g) c = On k → ∃ k', x = On k') → runs g c p → runs g' c p.
Proof. intros [E1 _ E3 _ _ _] Hx [[k Hk] Hp]. destruct (Hx k Hk) as [k' ->]. split; [by exists k'|by rewrite E3]. Qed.

(** The CPU stays with its process and nothing else changes. *)
Lemma inv_stays c g g' x o :
  inv g → stays c g g' x o → same_slots g g' → (∀ k, at_ (st g) c = On k → ∃ k', x = On k') →
  pos_ok x o (cproc (st g) c) (cctx (st g) c) (slots (st g)) → inv g'.
Proof.
  intros Hi Hl Hs Hx Hp. set (q := default 0 (cproc (st g) c)). apply (inv_step g g' c q).
  - done.
  - apply Hl.
  - apply Hl.
  - intros p _. apply Hs.
  - eapply stays_pos; [done| |done]. intros p _. by rewrite Hs.
  - left. by rewrite Hs.
  - intros p. rewrite (lc_cproc _ _ _ _ _ _ _ Hl). by left.
  - intros p _. by eapply stays_runs.
  - pose proof (in_proc _ Hi q) as Hq. unfold proc_ok in *. rewrite Hs. destruct (state _); try done. destruct Hq as [c' Hq].
    exists c'. destruct (decide (c' = c)) as [->|Hne]; [by eapply stays_runs|]. unfold runs in *.
    by destruct (lc_other _ _ _ _ _ _ _ Hl c' Hne) as (_ & -> & -> & _).
Qed.

(** It acts on process [q], which is on no CPU or does not change. *)
Lemma inv_other c g g' x o q :
  inv g → stays c g g' x o → others q g g' → outside (slots (st g) q) (slots (st g') q) →
  cproc (st g) c = Some q ∨ free (own g) (LkProc q) →
  (∀ k, at_ (st g) c = On k → ∃ k', x = On k') →
  (∀ p, cproc (st g) c = Some p → state (slots (st g) p) = RUNNING) →
  pos_ok x o (cproc (st g) c) (cctx (st g) c) (slots (st g)) → inv g'.
Proof.
  intros Hi Hl Hs Hout Hq Hx Hrun Hp.
  assert (∀ p, cproc (st g) c = Some p → state (slots (st g') p) = state (slots (st g) p)) as Hcs.
  { intros p Hcp. destruct (decide (p = q)) as [->|]; [|by rewrite Hs]. by rewrite (outside_state _ _ Hout (Hrun q Hcp)). }
  apply (inv_step g g' c q); try done.
  - apply Hl.
  - apply Hl.
  - by eapply stays_pos.
  - destruct (decide (state (slots (st g) q) = RUNNING)) as [Hr|Hr]; [left; by rewrite (outside_state _ _ Hout Hr)|right].
    destruct Hq as [Hq|Hq]; [by apply Hrun in Hq|]. intros c' _. by apply free_not_on.
  - intros p. rewrite (lc_cproc _ _ _ _ _ _ _ Hl). by left.
  - intros p _. by eapply stays_runs.
  - pose proof (in_proc _ Hi q) as Hpq. destruct (decide (state (slots (st g) q) = RUNNING)) as [Hr|Hr].
    + unfold proc_ok in *. rewrite (outside_state _ _ Hout Hr), Hr in *. destruct Hpq as [c' Hpq]. exists c'.
      destruct (decide (c' = c)) as [->|Hne]; [by eapply stays_runs|]. unfold runs in *.
      by destruct (lc_other _ _ _ _ _ _ _ Hl c' Hne) as (_ & -> & -> & _).
    + destruct (outside_ok _ _ Hout Hr) as [Hnr Hok].
      { unfold proc_ok, slot_ok in *. by destruct (state _). }
      unfold proc_ok, slot_ok in *. by destruct (state (slots (st g') q)).
Qed.

(** The place of a thread that runs code with locks. *)
Lemma thread_pos g c th k k' o :
  is_thread th → at_ (st g) c = th k → cpu_ok g c → k = Run ∨ (∃ ch q, k = Waking ch q) →
  k' = Run ∨ (∃ ch q, k' = Waking ch q ∧ 0 ≤ q ≤ NPROC) → no_proc o →
  pos_ok (th k') o (cproc (st g) c) (cctx (st g) c) (slots (st g)) ∧ (∀ x, at_ (st g) c = On x → ∃ x', th k' = On x') ∧
  ∀ p, cproc (st g) c = Some p → state (slots (st g) p) = RUNNING.
Proof.
  intros Hth Hat Hc Hk Hk' Hno. unfold cpu_ok in Hc. rewrite Hat in *.
  assert (state_at k = RUNNING ∧ state_at k' = RUNNING) as [E E'].
  { destruct Hk as [->|(ch & q & ->)], Hk' as [->|(ch' & q' & -> & Hq')]; done. }
  destruct Hth as [->|[p ->]]; simpl in *.
  - destruct Hc as (p & Hp & Hcp & Hcc & _ & Hst). split.
    + exists p. do 3 (split; [done|]). split; [|congruence]. by destruct Hk' as [->|(ch' & q' & -> & Hq')].
    + split; [eauto|]. intros q Hq. congruence.
  - destruct Hk as [->|(ch & q & ->)], Hc as (Hp & Hcp & _); (split; [|split; [done|congruence]]);
      destruct Hk' as [->|(ch' & q' & -> & Hq')]; done.
Qed.

Lemma no_proc_cons l o : (∀ i, l ≠ LkProc i) → no_proc o → no_proc (l :: o).
Proof. intros Hl Ho i [<-|Hx]%elem_of_cons; [by destruct (Hl i)|by apply (Ho i)]. Qed.
Lemma no_proc_without l o : no_proc o → no_proc (without l o).
Proof. intros Ho i [_ Hx]%elem_without. by apply (Ho i). Qed.

(** The scheduler takes a process. *)
Lemma inv_pick c g g' p :
  inv g → at_ (st g) c = Scan p → free (own g) (LkProc p) → state (slots (st g) p) = RUNNABLE →
  local c g g' (On (ctx (slots (st g) p))) [LkProc p] (Some p) (Back p) →
  slots (st g') p = Slot RUNNING (channel (slots (st g) p)) (ctx (slots (st g) p)) → others p g g' → inv g'.
Proof.
  intros Hi Hat Hf Hst Hl Hsl Hs. assert (∀ c', cproc (st g) c' ≠ Some p) as Hno by (intros c'; apply free_not_on; [done|done|by rewrite Hst]).
  apply (inv_step g g' c p); try done; try apply Hl.
  - pose proof (in_cpu _ Hi c) as Hc. unfold cpu_ok in *. rewrite Hat in Hc. destruct Hl as [-> -> -> -> _ _]. simpl. exists p.
    rewrite Hsl. split; [apply Hc|]. do 2 (split; [done|]). simpl. pose proof (in_proc _ Hi p) as Hp. unfold proc_ok in Hp.
    rewrite Hst in Hp. by destruct (ctx (slots (st g) p)) as [| | | | | |[]| | |].
  - by right.
  - intros q. rewrite (lc_cproc _ _ _ _ _ _ _ Hl). intros [= <-]. by right.
  - intros q _ [[k Hk] _]. by rewrite Hat in Hk.
  - unfold proc_ok. rewrite Hsl. exists c. split; [eexists; apply Hl|apply Hl].
Qed.

(** The CPU stays in the scheduler. *)
Lemma inv_sched c g g' x y p cc :
  inv g → at_ (st g) c = x → (∃ q, x = Scan q ∨ x = Back q ∨ x = Irq q Run) → 0 ≤ p < NPROC →
  local c g g' y [] None cc → y = Scan p ∨ y = Irq p Run → same_slots g g' → inv g'.
Proof.
  intros Hi Hat Hx Hp Hl Hy Hs.
  assert (∀ q, ¬ runs g c q) as Hnr by (intros q [[k Hk] _]; destruct Hx as [q' [->|[->| ->]]]; congruence).
  apply (inv_step g g' c 0); try done; try apply Hl.
  - unfold cpu_ok. destruct Hl as [-> -> -> -> _ _]. destruct Hy as [->| ->]; simpl; try done. split; [done|]. split; [done|].
    by intros i Hx'%not_elem_of_nil.
  - left. by rewrite Hs.
  - intros q. by rewrite (lc_cproc _ _ _ _ _ _ _ Hl).
  - intros q _ Hr. by apply Hnr in Hr.
  - pose proof (in_proc _ Hi 0) as Hp0. unfold proc_ok in *. rewrite Hs. destruct (state _); try done. destruct Hp0 as [c' Hp0].
    exists c'. destruct (decide (c' = c)) as [->|Hne]; [by apply Hnr in Hp0|]. unfold runs in *.
    by destruct (lc_other _ _ _ _ _ _ _ Hl c' Hne) as (_ & -> & -> & _).
Qed.

(** The thread of [p] changes its own process only. *)
Lemma inv_own c g g' p k x o cp cc :
  inv g → at_ (st g) c = On k → cproc (st g) c = Some p → local c g g' x o cp cc → cp = Some p → others p g g' →
  cpu_ok g' c → proc_ok g' p → inv g'.
Proof.
  intros Hi Hat Hcp Hl -> Hs Hc Hp. apply (inv_step g g' c p); try done; try apply Hl.
  - right. intros c' Hne Hc'. apply Hne. by eapply (in_uniq _ Hi).
  - intros q. rewrite (lc_cproc _ _ _ _ _ _ _ Hl). intros [= <-]. by left.
  - intros q Hq [_ Hr]. congruence.
Qed.

Lemma inv_move c g g' : inv g → move c g g' → inv g'.
Proof.
  intros Hi Hm. pose proof (in_cpu _ Hi c) as Hc. destruct Hm as
    [p Hat Hf Hst Hl Hsl Hs _|x p Hat Hx Hp Ho (cc & y & Hl & Hy) Hs _|th l Hth Hat Hn Hl Hs _|th l Hth Hat _ Hl Hs _
    |th ch b Hth Hat _ Hl Hs _ _ _|th ch Hth Hat Hl Hs _|th ch q Hth Hat Hq Hl Hs Hout Hcq _|th ch q Hth Hat Hq Hl Hs _ _ _
    |th q Hth Hat Hq Hl Hfr Hs Hout _|p k k' o Hat Hcp Hok Hst Hl _ _ (chn & Hsl) Hs _|p k Hat Hcp Hl _ Hnr Hok _ Hs _].
  - by eapply inv_pick.
  - by eapply inv_sched.
  - destruct (thread_facts g c Hi th Run Hth Hat ltac:(by left)) as [Hno _].
    destruct (thread_pos g c th Run Run (l :: own g c)) as (H1 & H2 & H3); try done; try (left; done); [by apply no_proc_cons|]. by eapply inv_stays.
  - destruct (thread_facts g c Hi th Run Hth Hat ltac:(by left)) as [Hno _].
    destruct (thread_pos g c th Run Run (without l (own g c))) as (H1 & H2 & H3); try done; try (left; done); [by apply no_proc_without|]. by eapply inv_stays.
  - destruct (thread_facts g c Hi th Run Hth Hat ltac:(by left)) as [Hno _].
    destruct (thread_pos g c th Run Run (own g c)) as (H1 & H2 & H3); try done; try (left; done). by eapply inv_stays.
  - destruct (thread_facts g c Hi th Run Hth Hat ltac:(by left)) as [Hno _].
    destruct (thread_pos g c th Run (Waking ch 0) (own g c)) as (H1 & H2 & H3); try done; [by left|by right; exists ch, 0|]. by eapply inv_stays.
  - destruct (thread_facts g c Hi th _ Hth Hat ltac:(right; by eauto)) as [Hno _].
    destruct (thread_pos g c th (Waking ch q) (Waking ch (q + 1)) (own g c)) as (H1 & H2 & H3); try done; [right; by eauto| |].
    { right. exists ch, (q + 1). split; [done|lia]. }
    apply (inv_other c g g' _ _ q Hi Hl); try done. destruct Hcq as [?|[? _]]; auto.
  - destruct (thread_facts g c Hi th _ Hth Hat ltac:(right; by eauto)) as [Hno _].
    destruct (thread_pos g c th (Waking ch q) Run (own g c)) as (H1 & H2 & H3); try done; [right; by eauto|by left|]. by eapply inv_stays.
  - destruct (thread_facts g c Hi th Run Hth Hat ltac:(by left)) as [Hno _].
    destruct (thread_pos g c th Run Run (own g c)) as (H1 & H2 & H3); try done; try (left; done).
    apply (inv_other c g g' _ _ q Hi Hl); auto.
  - destruct (thread_at g c Hi k Hat) as (p' & Hp & Hcp' & Hcc & _ & _). simplify_eq. eapply inv_own; try done.
    + unfold cpu_ok. destruct Hl as [-> -> -> -> _ _]. simpl. exists p. by rewrite Hsl.
    + unfold proc_ok. rewrite Hsl. simpl. destruct (state_at k') eqn:E; try (by destruct k').
      exists c. split; [eexists; apply Hl|]. by rewrite (lc_cproc _ _ _ _ _ _ _ Hl).
  - destruct (thread_at g c Hi k Hat) as (p' & Hp & Hcp' & Hcc & _ & _). simplify_eq. eapply inv_own; try done.
    + unfold cpu_ok. by destruct Hl as [-> -> -> -> _ _].
    + unfold proc_ok, slot_ok in *. by destruct (state (slots (st g') p)).
Qed.

Lemma start_inv : inv start.
Proof.
  split; simpl.
  - split; simpl; try done; [by intros c l Hl%not_elem_of_nil|by left|constructor].
  - intros c. unfold cpu_ok. simpl. done.
  - done.
  - intros p. unfold proc_ok. simpl. unfold upd. by case_decide.
Qed.

Lemma sched_reachable g : reachable g → inv g.
Proof.
  induction 1 as [|g c a g' Hr Hi Ha Hs]; [apply start_inv|].
  pose proof (step_moves g c Hi a Ha) as Hm. rewrite Hs in Hm. by eapply inv_move.
Qed.

(** ** The theorems *)

(** C20: The scheduler and the processes are safe, over all interleavings of
    the CPUs.  A process in state RUNNING runs on exactly one CPU, and a CPU
    that runs the thread of a process has it in RUNNING, or in ZOMBIE at the
    end of [exit].  A process whose lock is free and that is not RUNNING is on
    no CPU, so another CPU can run it or free it.  No panic of [sched],
    [acquire], [release] or [pop_off] is reached, and an exited process is not
    run again. *)
Theorem scheduler_safe g :
  reachable g →
  (∀ p, state (slots (st g) p) = RUNNING → ∃ c, runs g c p ∧ ∀ c', runs g c' p → c' = c) ∧
  (∀ c p, runs g c p → state (slots (st g) p) = RUNNING ∨ (state (slots (st g) p) = ZOMBIE ∧ at_ (st g) c = On ExitRel)) ∧
  (∀ p c, free (own g) (LkProc p) → state (slots (st g) p) ≠ RUNNING → cproc (st g) c ≠ Some p) ∧
  (∀ c a msg, allowed c a g → step c a g ≠ Some (Crashed msg)).
Proof.
  intros Hr. pose proof (sched_reachable g Hr) as Hi. split_and!.
  - intros p Hp. pose proof (in_proc _ Hi p) as Hpp. unfold proc_ok in Hpp. rewrite Hp in Hpp. destruct Hpp as [c Hc].
    exists c. split; [done|]. intros c' Hc'. eapply (in_uniq _ Hi); [apply Hc'|apply Hc].
  - intros c p [[k Hk] Hp]. destruct (thread_at g c Hi k Hk) as (p' & _ & Hp' & _ & _ & Hs). simplify_eq.
    destruct k; simpl in Hs; auto.
  - intros p c Hf Hs. by apply free_not_on.
  - intros c a msg Ha E. pose proof (step_moves g c Hi a Ha) as Hm. by rewrite E in Hm.
Qed.

(** ** Progress *)

(** [n] steps of CPU [c] alone. *)
Fixpoint ticks (n : nat) (c : Z) (g : config) : option config :=
  match n with
  | O => Some g
  | S n => match step c Tick g with Some (Moved g') => ticks n c g' | _ => None end
  end.

(** One round of the loop of the scheduler. *)
Lemma scan_step g c p :
  inv g → at_ (st g) c = Scan p → free (own g) (LkProc p) →
  ∃ g', step c Tick g = Some (Moved g') ∧ inv g' ∧
    if decide (state (slots (st g) p) = RUNNABLE) then runs g' c p
    else at_ (st g') c = Scan ((p + 1) mod NPROC) ∧ own g' = own g ∧ slots (st g') = slots (st g).
Proof.
  intros Hi Hat Hf. pose proof (in_cpu _ Hi c) as Hc. unfold cpu_ok in Hc. rewrite Hat in Hc. destruct Hc as (Hp & Ho & _).
  pose proof (step_moves g c Hi Tick I) as Hm. assert (∃ g', step c Tick g = Some (Moved g') ∧
    if decide (state (slots (st g) p) = RUNNABLE) then runs g' c p
    else at_ (st g') c = Scan ((p + 1) mod NPROC) ∧ own g' = own g ∧ slots (st g') = slots (st g)) as (g' & E & H).
  2: { exists g'. split; [done|]. split; [|done]. rewrite E in Hm. by eapply inv_move. }
  clear Hm. unfold step, run. rewrite Hat. unfold scheduler_scan.
  destruct (acquire_run (st g) (own g) c (LkProc p) (in_lock _ Hi) (Hf c)) as [(_ & m & E & Hm)|[Hn _]]; [|by destruct Hn]. ev E.
  destruct (decide (state (slots (st g) p) = RUNNABLE)) as [Hst|Hst]; unfold mbind at 1, M_bind at 1; simpl.
  - rewrite bool_decide_true by done. simpl. rewrite upd_eq. eexists. split; [done|]. split; simpl; rewrite upd_eq; [by eexists|done].
  - rewrite bool_decide_false by done. destruct (release_run (set_sm m (st g)) _ c (LkProc p) Hm) as (m' & E & Hm'); [rewrite upd_eq; by left|].
    ev E. rewrite after_nil. rewrite upd_eq, Ho, without_cons in Hm' by apply not_elem_of_nil.
    destruct (scheduler_next_run (set_sm m' (set_sm m (st g))) _ c p Hm') as (m2 & p' & E & -> & _); [by rewrite upd_eq|done|].
    rewrite E. simpl. rewrite upd_eq. eexists. split; [done|]. simpl. by rewrite upd_eq.
Qed.

(** Distances in the cyclic order. *)
Lemma cyclic_next x p :
  0 ≤ x < NPROC → 0 ≤ p < NPROC → x ≠ p → (x - p) mod NPROC = (x - (p + 1) mod NPROC) mod NPROC + 1.
Proof.
  intros Hx Hp Hne. rewrite Zminus_mod_idemp_r. replace (x - (p + 1)) with (x - p - 1) by lia.
  destruct (decide (p < x)).
  - rewrite !Z.mod_small by lia. lia.
  - rewrite <-(Z.mod_add (x - p) 1 NPROC), <-(Z.mod_add (x - p - 1) 1 NPROC) by done. rewrite !Z.mod_small by lia. lia.
Qed.

Lemma find_runnable k g c p q :
  inv g → (∀ l, free (own g) l) → at_ (st g) c = Scan p → 0 ≤ q < NPROC → state (slots (st g) q) = RUNNABLE →
  (q - p) mod NPROC = Z.of_nat k →
  ∃ n g' r, Z.of_nat n = (r - p) mod NPROC ∧ 0 ≤ r < NPROC ∧ state (slots (st g) r) = RUNNABLE ∧
    (∀ x, 0 ≤ x < NPROC → state (slots (st g) x) = RUNNABLE → Z.of_nat n ≤ (x - p) mod NPROC) ∧
    ticks (S n) c g = Some g' ∧ runs g' c r.
Proof.
  revert g p. induction k as [|k IH]; intros g p Hi Hf Hat Hq Hst Ek;
    pose proof (in_cpu _ Hi c) as Hc; unfold cpu_ok in Hc; rewrite Hat in Hc; destruct Hc as (Hp & _ & _);
    destruct (scan_step g c p Hi Hat (Hf _)) as (g1 & E & Hi1 & H1); destruct (decide (state (slots (st g) p) = RUNNABLE)) as [Hp'|Hp'].
  1, 3: exists 0%nat, g1, p; rewrite Z.sub_diag; cbn [ticks]; rewrite E; do 3 (split; [done|]); split; [|done];
    intros x Hx _; by apply Z.mod_pos_bound.
  - destruct Hp'. replace p with q; [done|]. destruct (decide (q = p)) as [|Hne]; [done|].
    pose proof (cyclic_next q p Hq Hp Hne). pose proof (Z.mod_pos_bound (q - (p + 1) mod NPROC) NPROC ltac:(done)). lia.
  - destruct H1 as (Hat1 & Ho1 & Hs1). assert (∀ x, state (slots (st g) x) = RUNNABLE → x ≠ p) as Hne by (intros x Hx ->; done).
    destruct (IH g1 ((p + 1) mod NPROC)) as (n & g' & r & Hn & Hr & Hrs & Hmin & Ht & Hrun); try done.
    { by rewrite Ho1. }
    { by rewrite Hs1. }
    { pose proof (cyclic_next q p Hq Hp (Hne q Hst)). lia. }
    rewrite Hs1 in Hrs, Hmin. exists (S n), g', r. split_and!; try done.
    + rewrite (cyclic_next r p) by auto. lia.
    + apply Hr.
    + apply Hr.
    + intros x Hx Hxs. rewrite (cyclic_next x p) by auto. specialize (Hmin x Hx Hxs). lia.
    + simpl ticks in *. by rewrite E.
Qed.

(** C22: The scheduler finds a process to run.  When no lock is held and some
    process is RUNNABLE, a scheduler that is at process [p] of its loop runs,
    after at most NPROC rounds, the first RUNNABLE process from [p] on, in the
    cyclic order of the table. *)
Theorem scheduler_finds g c p q :
  reachable g → (∀ l, free (own g) l) → at_ (st g) c = Scan p → 0 ≤ q < NPROC → state (slots (st g) q) = RUNNABLE →
  ∃ n g' r, (n < Z.to_nat NPROC)%nat ∧ ticks (S n) c g = Some g' ∧ runs g' c r ∧ state (slots (st g) r) = RUNNABLE ∧
    ∀ x, 0 ≤ x < NPROC → state (slots (st g) x) = RUNNABLE → (r - p) mod NPROC ≤ (x - p) mod NPROC.
Proof.
  intros Hr Hf Hat Hq Hst. pose proof (sched_reachable g Hr) as Hi.
  pose proof (Z.mod_pos_bound (q - p) NPROC ltac:(done)) as Hk.
  destruct (find_runnable (Z.to_nat ((q - p) mod NPROC)) g c p q) as (n & g' & r & Hn & Hr' & Hrs & Hmin & Ht & Hrun); try done; [lia|].
  exists n, g', r. split_and!; try done; [|by intros; rewrite <-Hn; apply Hmin]. pose proof (Hmin q Hq Hst). lia.
Qed.

(** ** The machine at work

    CPU 0 runs the first process, which starts a second one; CPU 1 runs that
    one. *)

Definition is_proc_lock (l : lockid) : bool := match l with LkProc _ => true | _ => false end.

Definition allowed_b (c : Z) (a : action) (g : config) : bool :=
  match a with
  | Lock l => negb (is_proc_lock l) && bool_decide (l ∉ own g c)
  | Unlock l => bool_decide (l ∈ own g c) && bool_decide (Forall (λ ch, chan_lock ch ≠ l) (owed g c))
  | Raise ch | Lower ch => bool_decide (chan_lock ch ∈ own g c)
  | Sleep ch => bool_decide (own g c = [chan_lock ch]) && negb (cond g ch) && bool_decide (owed g c = [])
  | Yield | IrqRet | SetIntr _ => bool_decide (own g c = [])
  | Exit => bool_decide (own g c = [LkWait]) && bool_decide (owed g c = [])
  | Kill q | Alloc q | Reap q => bool_decide (0 ≤ q < NPROC)
  | Start q => bool_decide (0 ≤ q < NPROC) && bool_decide (state (slots (st g) q) = USED)
  | _ => true
  end.

Lemma allowed_b_ok c a g : allowed_b c a g = true → allowed c a g.
Proof.
  destruct a; simpl; rewrite ?andb_true_iff, ?negb_true_iff, ?bool_decide_eq_true; try done.
  - intros [Hl ?]. split; [|done]. intros i ->. done.
  - intros [? Hf]. split; [done|]. by rewrite Forall_forall in Hf.
  - by intros [[? ?] ?].
Qed.

Fixpoint play (l : list (Z * action)) (g : config) : option config :=
  match l with
  | [] => Some g
  | (c, a) :: l =>
      if allowed_b c a g then match step c a g with Some (Moved g') => play l g' | _ => None end else None
  end.

Lemma play_reachable l g g' : reachable g → play l g = Some g' → reachable g'.
Proof.
  revert g. induction l as [|[c a] l IH]; intros g Hr; simpl; [by intros [= <-]|].
  destruct (allowed_b c a g) eqn:Ea; [|done]. destruct (step c a g) as [[g1|]|] eqn:E; try done. apply IH.
  eapply reach_move; [done| |done]. by apply allowed_b_ok.
Qed.

Definition two_processes : list (Z * action) :=
  [(0, Tick); (0, Tick); (0, Alloc 1); (0, Start 1); (1, Tick); (1, Tick); (1, Tick)].
Lemma play_start l (P : config → Prop) :
  match play l start with Some g => P g | None => False end → ∃ g, reachable g ∧ P g.
Proof.
  destruct (play l start) as [g|] eqn:E; [|done]. intros HP. exists g. split; [|exact HP].
  eapply play_reachable; [apply reach_start|exact E].
Qed.

Lemma play_two : ∃ g, reachable g ∧ (state (slots (st g) 1), cproc (st g) 1, at_ (st g) 1) = (RUNNING, Some 1, On Run).
Proof. apply (play_start two_processes). vm_compute. reflexivity. Qed.

Lemma scheduler_safe_witness : ∃ g, reachable g ∧ runs g 1 1 ∧ (∀ c', runs g c' 1 → c' = 1) ∧
  ∀ c a msg, allowed c a g → step c a g ≠ Some (Crashed msg).
Proof.
  destruct play_two as (g & Hr & E). injection E as E1 E2 E3. exists g. destruct (scheduler_safe g Hr) as (H1 & _ & _ & H4).
  assert (runs g 1 1) as Hrun by (split; [by exists Run|done]). split; [done|]. split; [done|]. split; [|exact H4].
  destruct (H1 1 E1) as (c & Hc & Hu). intros c' Hc'. rewrite (Hu c' Hc'). symmetry. by apply Hu.
Defined.

Lemma scheduler_finds_witness : ∃ n g' r, (n < Z.to_nat NPROC)%nat ∧ ticks (S n) 0 start = Some g' ∧ runs g' 0 r ∧
  state (slots (st start) r) = RUNNABLE ∧
  ∀ x, 0 ≤ x < NPROC → state (slots (st start) x) = RUNNABLE → (r - 0) mod NPROC ≤ (x - 0) mod NPROC.
Proof.
  apply (scheduler_finds start 0 0 0 reach_start); [by intros l c Hl%not_elem_of_nil|reflexivity|done|reflexivity].
Defined.
