(* ===== verification/SchedWake.v ===== *)
(** * No wakeup is lost

    The protocol of [sleep] and [wakeup] of [kernel/proc.c], on the machine of
    Sched: while a process sleeps and the condition it waits for holds, a CPU
    owes a [wakeup] that will come to it. *)

From S2P Require Import Prelude Riscv Locks.
Import Spin.
From S2P Require Import Kernel Sched SchedInv.


(** ** Wakeups *)

(** Process [p] sleeps on [ch], or is about to, without the lock of [ch]. *)
Definition waiting (g : config) (p : Z) (ch : chan) : Prop :=
  (state (slots (st g) p) = SLEEPING ∧ channel (slots (st g) p) = Some ch) ∨
  ∃ c l, at_ (st g) c = On (SleepSt ch l) ∧ cproc (st g) c = Some p.

(** The loop of [wakeup(ch)] is past [p]. *)
Definition passed (x : pc) (ch : chan) (p : Z) : Prop :=
  ∃ th q, is_thread th ∧ x = th (Waking ch q) ∧ p < q.

Definition quiet_at (g : config) (c : Z) : Prop :=
  match at_ (st g) c with
  | On (SleepLk ch l) => cond g ch = false ∧ owed g c = []
  | On ExitRel => owed g c = []
  | _ => True
  end.

Record wake_inv (g : config) : Prop := {
  wi_owed c ch : ch ∈ owed g c → chan_lock ch ∈ own g c;
  wi_quiet c : quiet_at g c;
  wi_range p : state (slots (st g) p) ≠ UNUSED → 0 ≤ p < NPROC;
  wi_wait p ch : waiting g p ch → cond g ch = true → ∃ c, ch ∈ owed g c ∧ ¬ passed (at_ (st g) c) ch p
}.

Lemma not_passed_th th k ch p : is_thread th → (∀ q, k = Waking ch q → q ≤ p) → ¬ passed (th k) ch p.
Proof.
  intros Hth Hk (th' & q & Hth' & E & Hq). destruct Hth as [->|[i ->]], Hth' as [->|[i' ->]]; simplify_eq; specialize (Hk q eq_refl); lia.
Qed.
Lemma not_passed_sched x ch p : (∃ q, x = Scan q ∨ x = Back q) → ¬ passed x ch p.
Proof. intros [i Hx] (th' & q & Hth' & E & Hq). destruct Hth' as [->|[i' ->]], Hx; congruence. Qed.

Lemma waiting_range g p ch : inv g → wake_inv g → waiting g p ch → 0 ≤ p < NPROC.
Proof.
  intros Hi Hw [[Hs _]|(c & l & Hat & Hcp)]; [apply (wi_range _ Hw); by rewrite Hs|].
  destruct (thread_at g c Hi _ Hat) as (p' & Hp & Hcp' & _). congruence.
Qed.

(** Nobody starts to wait. *)
Lemma waiting_before c g g' p ch :
  inv g → move c g g' → waiting g' p ch → waiting g p ch ∨ ∃ l, at_ (st g) c = On (SleepLk ch l).
Proof.
  intros Hi Hm. assert (∀ x o cp cc, local c g g' x o cp cc →
    (∀ l, x = On (SleepSt ch l) → at_ (st g) c = On (SleepLk ch l)) →
    (state (slots (st g') p) = SLEEPING ∧ channel (slots (st g') p) = Some ch → waiting g p ch) →
    waiting g' p ch → waiting g p ch ∨ ∃ l, at_ (st g) c = On (SleepLk ch l)) as Hgen.
  { intros x o cp cc Hl Hx Hs [Hw|(c' & l & Hat & Hcp)]; [left; auto|].
    destruct (decide (c' = c)) as [->|Hne].
    - right. exists l. apply Hx. rewrite <-Hat. symmetry. apply Hl.
    - left; right. exists c', l. destruct (lc_other _ _ _ _ _ _ _ Hl c' Hne) as (_ & <- & <- & _). done. }
  assert (∀ q, others q g g' → (state (slots (st g') q) = SLEEPING → slots (st g') q = slots (st g) q) →
    state (slots (st g') p) = SLEEPING ∧ channel (slots (st g') p) = Some ch → waiting g p ch) as Hslot.
  { intros q Hs Hq [H1 H2]. left.
    assert (slots (st g') p = slots (st g) p) as E; [|by rewrite E in H1, H2]. destruct (decide (p = q)) as [->|Hne]; auto. }
  destruct Hm as [q Hat Hf Hst Hl Hsl Hs _|x q Hat Hx Hp Ho (cc & y & Hl & Hy) Hs _|th l Hth Hat Hn Hl Hs _|th l Hth Hat _ Hl Hs _
    |th ch' b Hth Hat _ Hl Hs _ _ _|th ch' Hth Hat Hl Hs _|th ch' q Hth Hat Hq Hl Hs Hout Hcq _|th ch' q Hth Hat Hq Hl Hs _ _ _
    |th q Hth Hat Hq Hl Hfr Hs Hout _|q k k' o Hat Hcp Hok Hst Hl _ Hk' (chn & Hsl) Hs _|q k Hat Hcp Hl _ Hnr Hok Hsl Hs _];
    eapply Hgen; try exact Hl.
  - intros l [= E]. pose proof (in_proc _ Hi q) as Hq. unfold proc_ok in Hq. by rewrite Hst, E in Hq.
  - eapply Hslot; [done|]. by rewrite Hsl.
  - intros l ->. by destruct Hy.
  - apply (Hslot 0); [intros ? _; apply Hs|by intros _; apply Hs].
  - intros l'. by destruct Hth as [->|[? ->]].
  - apply (Hslot 0); [intros ? _; apply Hs|by intros _; apply Hs].
  - intros l'. by destruct Hth as [->|[? ->]].
  - apply (Hslot 0); [intros ? _; apply Hs|by intros _; apply Hs].
  - intros l'. by destruct Hth as [->|[? ->]].
  - apply (Hslot 0); [intros ? _; apply Hs|by intros _; apply Hs].
  - intros l'. by destruct Hth as [->|[? ->]].
  - apply (Hslot 0); [intros ? _; apply Hs|by intros _; apply Hs].
  - intros l'. by destruct Hth as [->|[? ->]].
  - apply (Hslot q); [done|]. by destruct Hout as [->|[[E ->]|[[E ->]|[[E ->]|[E ->]]]]].
  - intros l'. by destruct Hth as [->|[? ->]].
  - apply (Hslot 0); [intros ? _; apply Hs|by intros _; apply Hs].
  - intros l'. by destruct Hth as [->|[? ->]].
  - apply (Hslot q); [done|]. by destruct Hout as [->|[[E ->]|[[E ->]|[[E ->]|[E ->]]]]].
  - intros l [= ->]. by rewrite Hat, Hk'.
  - apply (Hslot q); [done|]. rewrite Hsl. simpl. by destruct k'.
  - done.
  - intros [H1 H2]. destruct (decide (p = q)) as [->|Hne]; [|rewrite (Hs p Hne) in H1, H2; left; done].
    destruct (Hsl H1) as (ch' & l & E & ->). right. exists c, l. rewrite E in H2. by simplify_eq.
Qed.

Lemma range_move c g g' p :
  inv g → wake_inv g → move c g g' → state (slots (st g') p) ≠ UNUSED → 0 ≤ p < NPROC.
Proof.
  intros Hi Hw Hm Hp. assert (∀ q, others q g g' → 0 ≤ q < NPROC → 0 ≤ p < NPROC) as Hq.
  { intros q Hs Hq. destruct (decide (p = q)) as [->|Hne]; [done|]. rewrite (Hs p Hne) in Hp. by apply Hw. }
  assert (same_slots g g' → 0 ≤ p < NPROC) as Hsame by (intros Hs; rewrite Hs in Hp; by apply Hw).
  destruct Hm as [q _ _ Hst _ _ Hs _|x q _ _ _ _ _ Hs _|th l _ _ _ _ Hs _|th l _ _ _ _ Hs _|th ch b _ _ _ _ Hs _ _ _|th ch _ _ _ Hs _
    |th ch q _ _ Hr _ Hs _ _ _|th ch q _ _ _ _ Hs _ _ _|th q _ _ Hr _ _ Hs _ _|q k k' o Hat Hcp _ _ _ _ _ _ Hs _|q k Hat Hcp _ _ _ _ _ Hs _];
    auto; try (by eapply Hq).
  - apply (Hq q Hs), Hw. by rewrite Hst.
  - apply (Hq q Hs). destruct (thread_at g c Hi _ Hat) as (q' & ? & ? & _). congruence.
  - apply (Hq q Hs). destruct (thread_at g c Hi _ Hat) as (q' & ? & ? & _). congruence.
Qed.

(** Without locks of conditions nothing is owed. *)
Lemma owed_nothing g c : wake_inv g → (∀ l, l ∈ own g c → ∃ i, l = LkProc i) → owed g c = [].
Proof.
  intros Hw Ho. destruct (owed g c) as [|ch o] eqn:E; [done|]. destruct (Ho (chan_lock ch)) as [i Hc].
  - apply Hw. rewrite E. by left.
  - by apply chan_lock_proc in Hc.
Qed.
Lemma owed_no_locks g c : wake_inv g → own g c = [] → owed g c = [].
Proof. intros Hw Ho. apply owed_nothing; [done|]. rewrite Ho. by intros l Hl%not_elem_of_nil. Qed.
Lemma owed_proc g c p : wake_inv g → own g c = [LkProc p] → owed g c = [].
Proof. intros Hw Ho. apply owed_nothing; [done|]. rewrite Ho. intros l ->%list_elem_of_singleton. by eexists. Qed.

(** The scheduler owes nothing. *)
Lemma sched_owed g c x :
  inv g → wake_inv g → at_ (st g) c = x → own g c = [] ∨ (∃ q, x = Back q) → owed g c = [].
Proof.
  intros Hi Hw Hat [Ho|[q ->]]; [by apply owed_no_locks|].
  pose proof (in_cpu _ Hi c) as Hc. unfold cpu_ok in Hc. rewrite Hat in Hc. destruct Hc as (_ & Ho & _). by eapply owed_proc.
Qed.

(** What [c] owes after it has left, or gone on. *)
Lemma code_owed g c k (o : list lockid) :
  wake_inv g → at_ (st g) c = On k → (∀ l, l ∈ own g c → l ∈ o ∨ (∃ i, l = LkProc i) ∨ (∃ ch, k = SleepLk ch l) ∨ k = ExitRel) →
  ∀ ch, ch ∈ owed g c → chan_lock ch ∈ o.
Proof.
  intros Hw Hat Ho ch Hch. pose proof (wi_quiet _ Hw c) as Hq. unfold quiet_at in Hq. rewrite Hat in Hq.
  destruct (Ho (chan_lock ch)) as [?|[[i Hc]|[[ch' ->]| ->]]]; [by apply Hw|done|by apply chan_lock_proc in Hc|..].
  - destruct Hq as [_ Hq]. rewrite Hq in Hch. by apply not_elem_of_nil in Hch.
  - rewrite Hq in Hch. by apply not_elem_of_nil in Hch.
Qed.

Lemma owed_move c g g' c' ch :
  inv g → wake_inv g → move c g g' → ch ∈ owed g' c' → chan_lock ch ∈ own g' c'.
Proof.
  intros Hi Hw Hm Hch. destruct (decide (c' = c)) as [->|Hne].
  2: { assert (owed g' c' = owed g c' ∧ own g' c' = own g c') as [E1 E2]; [|rewrite E1 in Hch; rewrite E2; by apply Hw].
       destruct Hm as [p _ _ _ Hl _ _ Hcd|x p _ _ _ _ (? & ? & Hl & _) _ Hcd|th l _ _ _ Hl _ Hcd|th l _ _ _ Hl _ Hcd|th ch' b _ _ _ Hl _ _ Ho _
         |th ch' _ _ Hl _ Hcd|th ch' q _ _ _ Hl _ _ _ Hcd|th ch' q _ _ _ Hl _ _ Ho _|th q _ _ _ Hl _ _ _ Hcd|p k k' o _ _ _ _ Hl _ _ _ _ Hcd
         |p k _ _ Hl _ _ _ _ _ Hcd]; (split; [try apply Hcd; try (by apply Ho)|by apply Hl]). }
  destruct Hm as [p Hat _ _ Hl _ _ Hcd|x p Hat Hx _ Ho (? & ? & Hl & _) _ Hcd|th l _ _ _ Hl _ Hcd|th l _ _ Hu Hl _ Hcd|th ch' b _ _ Hin Hl _ _ _ Ho
    |th ch' _ _ Hl _ Hcd|th ch' q _ _ _ Hl _ _ _ Hcd|th ch' q _ _ _ Hl _ _ _ Ho|th q _ _ _ Hl _ _ _ Hcd|p k k' o Hat Hcp _ _ Hl Ho _ _ _ Hcd
    |p k Hat _ Hl Ho _ _ _ _ Hcd]; rewrite (lc_own _ _ _ _ _ _ _ Hl); try (rewrite (proj2 Hcd) in Hch); try (by apply Hw).
  - pose proof (in_cpu _ Hi c) as Hc. unfold cpu_ok in Hc. rewrite Hat in Hc. destruct Hc as (_ & Ho & _).
    rewrite (owed_no_locks g c) in Hch by done. by apply not_elem_of_nil in Hch.
  - rewrite (sched_owed g c x Hi Hw Hat Ho) in Hch. by apply not_elem_of_nil in Hch.
  - right. by apply Hw.
  - apply elem_without. split; [by apply Hu|by apply Hw].
  - rewrite Ho in Hch. destruct b; [|by apply Hw]. apply elem_of_cons in Hch as [->|Hch]; [done|by apply Hw].
  - rewrite Ho in Hch. apply list_elem_of_filter in Hch as [_ Hch]. by apply Hw.
  - eapply code_owed; [done|done| |done]. intros l Hl'. destruct (Ho l Hl') as [?|[?|?]]; auto.
  - eapply code_owed; [done|done| |done]. intros l Hl'. destruct (Ho l Hl') as [?|?]; auto.
Qed.

Lemma quiet_move c g g' c' : inv g → wake_inv g → move c g g' → quiet_at g' c'.
Proof.
  intros Hi Hw Hm. destruct (decide (c' = c)) as [->|Hne].
  - unfold quiet_at. assert (∀ th x o cp cc, is_thread th → x = Run ∨ (∃ ch q, x = Waking ch q) → local c g g' (th x) o cp cc →
      match at_ (st g') c with On (SleepLk ch l) => cond g' ch = false ∧ owed g' c = [] | On ExitRel => owed g' c = [] | _ => True end) as Hth'.
    { intros th x o cp cc Hth Hx Hl. rewrite (lc_at _ _ _ _ _ _ _ Hl). destruct Hth as [->|[? ->]], Hx as [->|(? & ? & ->)]; done. }
    destruct Hm as [p _ _ Hst Hl _ _ _|x p _ _ _ _ (? & y & Hl & Hy) _ _|th l Hth _ _ Hl _ _|th l Hth _ _ Hl _ _|th ch' b Hth _ _ Hl _ _ _ _
      |th ch' Hth _ Hl _ _|th ch' q Hth _ _ Hl _ _ _ _|th ch' q Hth _ _ Hl _ _ _ _|th q Hth _ _ Hl _ _ _ _|p k k' o _ _ _ _ Hl _ Hk _ _ Hcd
      |p k _ _ Hl _ _ _ _ _ _]; try (eapply Hth'; [exact Hth| |exact Hl]; eauto; fail).
    + rewrite (lc_at _ _ _ _ _ _ _ Hl). pose proof (in_proc _ Hi p) as Hq. unfold proc_ok in Hq. rewrite Hst in Hq. by destruct (ctx _).
    + rewrite (lc_at _ _ _ _ _ _ _ Hl). by destruct Hy as [->| ->].
    + rewrite (lc_at _ _ _ _ _ _ _ Hl). destruct k'; try done; [|by rewrite (proj2 Hcd)].
      rewrite (proj1 Hcd), (proj2 Hcd). done.
    + by rewrite (lc_at _ _ _ _ _ _ _ Hl).
  - pose proof (wi_quiet _ Hw c') as Hq. unfold quiet_at in *.
    assert (∀ x o cp cc, local c g g' x o cp cc → (∀ ch, cond g' ch = cond g ch ∨ chan_lock ch ∉ own g c') →
      owed g' c' = owed g c' → match at_ (st g') c' with
      | On (SleepLk ch l) => cond g' ch = false ∧ owed g' c' = [] | On ExitRel => owed g' c' = [] | _ => True end) as Hgen.
    { intros x o cp cc Hl Hcd Ho. destruct (lc_other _ _ _ _ _ _ _ Hl c' Hne) as (_ & -> & _). rewrite Ho.
      destruct (at_ (st g) c') as [| | |k] eqn:Hat; try done. destruct k as [| |ch l| | | | | | |]; try done.
      destruct (Hcd ch) as [->|Hno]; [done|]. destruct Hno. destruct (thread_at g c' Hi _ Hat) as (p' & _ & _ & _ & [Ho' Hl'] & _).
      rewrite Ho', Hl'. right. by left. }
    destruct Hm as [p _ _ _ Hl _ _ Hcd|x p _ _ _ _ (? & ? & Hl & _) _ Hcd|th l _ _ _ Hl _ Hcd|th l _ _ _ Hl _ Hcd|th ch' b _ _ Hin Hl _ Hb Ho _
      |th ch' _ _ Hl _ Hcd|th ch' q _ _ _ Hl _ _ _ Hcd|th ch' q _ _ _ Hl _ Hb Ho _|th q _ _ _ Hl _ _ _ Hcd|p k k' o _ _ _ _ Hl _ _ _ _ Hcd
      |p k _ _ Hl _ _ _ _ _ Hcd]; eapply Hgen; try exact Hl; try (by apply Hcd); try (intros ?; left; by apply Hcd); auto.
    intros ch. rewrite Hb. case_decide; [subst|by left]. right. intros Hc. apply Hne. by eapply held_unique; [apply Hi| |].
Qed.

(** The waker that the waiting process counts on. *)
Lemma waker_move c g g' p ch c0 :
  inv g → wake_inv g → move c g g' → waiting g' p ch → waiting g p ch →
  ch ∈ owed g c0 → ¬ passed (at_ (st g) c0) ch p → ch ∈ owed g' c0 ∧ ¬ passed (at_ (st g') c0) ch p.
Proof.
  intros Hi Hw Hm Hw' Hwp Hin Hnp. pose proof (waiting_range g p ch Hi Hw Hwp) as Hp. destruct (decide (c0 = c)) as [->|Hne].
  2: { assert (owed g' c0 = owed g c0 ∧ at_ (st g') c0 = at_ (st g) c0) as [-> ->]; [|done].
       destruct Hm as [q _ _ _ Hl _ _ Hcd|x q _ _ _ _ (? & ? & Hl & _) _ Hcd|th l _ _ _ Hl _ Hcd|th l _ _ _ Hl _ Hcd|th ch' b _ _ _ Hl _ _ Ho _
         |th ch' _ _ Hl _ Hcd|th ch' q _ _ _ Hl _ _ _ Hcd|th ch' q _ _ _ Hl _ _ Ho _|th q _ _ _ Hl _ _ _ Hcd|q k k' o _ _ _ _ Hl _ _ _ _ Hcd
         |q k _ _ Hl _ _ _ _ _ Hcd]; (split; [try apply Hcd; try (by apply Ho)|by apply Hl]). }
  destruct Hm as [q Hat _ _ Hl _ _ Hcd|x q Hat _ _ Ho (? & ? & Hl & Hy) _ Hcd|th l Hth _ _ Hl _ Hcd|th l Hth _ _ Hl _ Hcd|th ch' b Hth _ _ Hl _ _ _ Ho
    |th ch' Hth _ Hl _ Hcd|th ch' q Hth Hat Hq Hl Hs Hout Hcq Hcd|th ch' q Hth Hat Hq Hl _ _ _ Ho|th q Hth _ _ Hl _ _ _ Hcd
    |q k k' o Hat _ _ _ Hl _ Hk _ _ Hcd|q k _ _ Hl _ _ _ _ _ Hcd]; rewrite (lc_at _ _ _ _ _ _ _ Hl); try (rewrite (proj2 Hcd); split; [done|]);
    try (by apply not_passed_th).
  - pose proof (in_cpu _ Hi c) as Hc. unfold cpu_ok in Hc. rewrite Hat in Hc. destruct Hc as (_ & Ho & _).
    rewrite (owed_no_locks g c) in Hin by done. by apply not_elem_of_nil in Hin.
  - rewrite (sched_owed g c x Hi Hw Hat Ho) in Hin. by apply not_elem_of_nil in Hin.
  - split; [|by apply not_passed_th]. rewrite Ho. destruct b; [by right|done].
  - apply not_passed_th; [done|]. intros q [= <- <-]. lia.
  - apply not_passed_th; [done|]. intros q' [= <- <-]. destruct (decide (p < q)) as [Hlt|Hge].
    { destruct Hnp. exists th, q. by rewrite Hat. }
    destruct (decide (p = q)) as [->|]; [exfalso|lia].
    assert (∀ c' l, at_ (st g) c' = On (SleepSt ch' l) → cproc (st g) c' = Some q → LkProc q ∈ own g c') as Hsl.
    { intros c' l Hat' Hcp'. destruct (thread_at g c' Hi _ Hat') as (p' & _ & Hcp2 & _ & [Ho' _] & _). simplify_eq. rewrite Ho'. by left. }
    destruct Hcq as [Hcq|[Hfr Hnot]].
    + destruct Hwp as [[Hs' _]|(c' & l & Hat' & Hcp')].
      * destruct (thread_pos g c th (Waking ch' q) Run []) as (_ & _ & Hrun); [done|done|apply Hi|right; eauto|by left|by intros i Hx%not_elem_of_nil|].
        specialize (Hrun q Hcq). congruence.
      * assert (c' = c) as -> by (by eapply (in_uniq _ Hi)). rewrite Hat in Hat'. by destruct Hth as [->|[? ->]].
    + destruct Hwp as [_|(c' & l & Hat' & Hcp')]; [|by apply (Hfr c'), (Hsl c' l)].
      destruct Hw' as [[Hs' Hch']|(c' & l & Hat' & Hcp')]; [by apply Hnot|].
      destruct (decide (c' = c)) as [->|Hne]; [rewrite (lc_at _ _ _ _ _ _ _ Hl) in Hat'; by destruct Hth as [->|[? ->]]|].
      destruct (lc_other _ _ _ _ _ _ _ Hl c' Hne) as (_ & E1 & E2 & _). rewrite E1 in Hat'. rewrite E2 in Hcp'. by apply (Hfr c'), (Hsl c' l).
  - split; [|by apply not_passed_th]. rewrite Ho. apply list_elem_of_filter. split; [|done]. intros ->. destruct Hnp. exists th, q.
    rewrite Hat. split; [done|]. split; [done|lia].
  - apply (not_passed_th On); [by left|]. by intros q' ->.
  - apply not_passed_sched. eauto.
Qed.

Lemma wake_move c g g' : inv g → wake_inv g → move c g g' → wake_inv g'.
Proof.
  intros Hi Hw Hm. split.
  - intros c' ch. by eapply owed_move.
  - intros c'. by eapply quiet_move.
  - intros p. by eapply range_move.
  - intros p ch Hp Hch. destruct (cond g ch) eqn:E.
    + destruct (waiting_before c g g' p ch Hi Hm Hp) as [Hwp|[l Hat]].
      * destruct (wi_wait _ Hw p ch Hwp E) as (c0 & H1 & H2). exists c0. by apply (waker_move c g g' p ch c0).
      * pose proof (wi_quiet _ Hw c) as Hq. unfold quiet_at in Hq. rewrite Hat in Hq. destruct Hq. congruence.
    + destruct Hm as [? _ _ _ _ _ _ [Hcd _]|? ? _ _ _ _ _ _ [Hcd _]|? ? _ _ _ _ _ [Hcd _]|? ? _ _ _ _ _ [Hcd _]
        |th ch' b Hth _ _ Hl _ Hcd _ Ho|? ? _ _ _ _ [Hcd _]|? ? ? _ _ _ _ _ _ _ [Hcd _]|? ? ? _ _ _ _ _ Hcd _ _
        |? ? _ _ _ _ _ _ _ [Hcd _]|? ? ? ? _ _ _ _ _ _ _ _ _ [Hcd _]|? ? _ _ _ _ _ _ _ _ [Hcd _]]; rewrite Hcd in Hch; try congruence.
      case_decide; [subst|congruence]. exists c. rewrite Ho, (lc_at _ _ _ _ _ _ _ Hl). split; [by left|by apply not_passed_th].
Qed.

Lemma start_wake : wake_inv start.
Proof.
  split; simpl.
  - by intros c ch Hl%not_elem_of_nil.
  - done.
  - intros p. unfold upd. case_decide; by subst.
  - done.
Qed.

Lemma reachable_wake g : reachable g → wake_inv g.
Proof.
  induction 1 as [|g c a g' Hr Hw Ha Hs]; [apply start_wake|]. pose proof (sched_reachable g Hr) as Hi.
  pose proof (step_moves g c Hi a Ha) as Hm. rewrite Hs in Hm. by eapply wake_move.
Qed.

(** A process waits until it is made runnable: a step of other code leaves it
    waiting or wakes it, *)
Lemma waiting_after c g g' p ch :
  inv g → move c g g' → waiting g p ch → (∀ l, at_ (st g) c = On (SleepSt ch l) → cproc (st g) c ≠ Some p) →
  state (slots (st g') p) = RUNNABLE ∨ waiting g' p ch.
Proof.
  intros Hi Hm Hw Hc. assert (∀ x o cp cc, local c g g' x o cp cc →
    (state (slots (st g) p) = SLEEPING → slots (st g') p = slots (st g) p ∨ state (slots (st g') p) = RUNNABLE) →
    state (slots (st g') p) = RUNNABLE ∨ waiting g' p ch) as Hgen.
  { intros x o cp cc Hl Hs. destruct Hw as [[H1 H2]|(c' & l & Hat & Hcp)].
    - destruct (Hs H1) as [E|E]; [right; left; by rewrite E|by left].
    - right; right. exists c', l. destruct (decide (c' = c)) as [->|Hne]; [by apply Hc in Hat|].
      by destruct (lc_other _ _ _ _ _ _ _ Hl c' Hne) as (_ & -> & -> & _). }
  assert (∀ q, outside (slots (st g) q) (slots (st g') q) → others q g g' →
    state (slots (st g) p) = SLEEPING → slots (st g') p = slots (st g) p ∨ state (slots (st g') p) = RUNNABLE) as Hout.
  { intros q Hq Hs H1. destruct (decide (p = q)) as [<-|Hne]; [|left; by apply Hs].
    destruct Hq as [->|[[_ ->]|[[E _]|[[E _]|[E _]]]]]; [by left|by right|congruence..]. }
  assert (∀ q k, at_ (st g) c = On k → cproc (st g) c = Some q → others q g g' →
    state (slots (st g) p) = SLEEPING → slots (st g') p = slots (st g) p ∨ state (slots (st g') p) = RUNNABLE) as Hown.
  { intros q k Hat Hcp Hs H1. left. apply Hs. intros <-.
    destruct (thread_at g c Hi k Hat) as (p' & _ & Hcp' & _ & _ & Hst). simplify_eq. rewrite H1 in Hst. by destruct k. }
  destruct Hm as [q _ _ Hst Hl _ Hs _|x q _ _ _ _ (? & ? & Hl & _) Hs _|th l _ _ _ Hl Hs _|th l _ _ _ Hl Hs _|th ch' b _ _ _ Hl Hs _ _ _
    |th ch' _ _ Hl Hs _|th ch' q _ _ _ Hl Hs Ho _ _|th ch' q _ _ _ Hl Hs _ _ _|th q _ _ _ Hl _ Hs Ho _|q k k' o Hat Hcp _ _ Hl _ _ _ Hs _
    |q k Hat Hcp Hl _ _ _ _ Hs _]; eapply Hgen; try exact Hl; eauto; try (intros _; left; by apply Hs).
  intros H1. left. apply Hs. intros <-. congruence.
Qed.

(** and its own next step puts it to sleep. *)
Lemma falls_asleep c g p ch l a g' :
  inv g → at_ (st g) c = On (SleepSt ch l) → cproc (st g) c = Some p → step c a g = Some (Moved g') → waiting g' p ch.
Proof.
  intros Hi Hat Hcp Hs. destruct (thread_at g c Hi _ Hat) as (p' & _ & Hcp' & Hcc & [Ho _] & _). simplify_eq.
  unfold step in Hs. rewrite Hat, Hcp in Hs. destruct a; try done. revert Hs.
  unfold thread, run, sleep_sched. rewrite (bind_done (set_channel p (Some ch)) _ _ tt _ [] eq_refl), after_nil.
  rewrite (bind_done (set_state p SLEEPING) _ _ tt _ [] eq_refl), after_nil.
  rewrite (sched_run _ (own g) c p); [|apply Hi|done|simpl; by rewrite upd_eq]. simpl. intros [= <-].
  left. simpl. by rewrite !upd_eq.
Qed.

Lemma waiting_step c a g g' p ch :
  inv g → allowed c a g → step c a g = Some (Moved g') → waiting g p ch →
  state (slots (st g') p) = RUNNABLE ∨ waiting g' p ch.
Proof.
  intros Hi Ha Hs Hw. pose proof (step_moves g c Hi a Ha) as Hm. rewrite Hs in Hm.
  destruct (decide (cproc (st g) c = Some p)) as [Hcp|Hcp]; [|by eapply waiting_after].
  destruct (at_ (st g) c) as [| | |[]] eqn:Hat; try (eapply waiting_after; [done..|intros ?; by rewrite Hat]).
  destruct (decide (ch0 = ch)) as [->|Hne]; [right; exact (falls_asleep c g p ch _ a g' Hi Hat Hcp Hs)|].
  eapply waiting_after; [done..|]. rewrite Hat. intros l' [= E]. by destruct Hne.
Qed.

(** C21: No wakeup is lost.  Conditions are changed with the lock of their
    channel, and whoever makes one true has to call [wakeup] before it releases
    the lock: until then it owes the wakeup.  Then for a process that sleeps on
    a channel, or is about to and has released the lock already, while the
    condition holds, there is a CPU that holds the lock and owes the wakeup;
    either it has not called [wakeup] yet or its loop over the processes is
    not past this one.  And this stays so until the process is runnable: after
    any step of any CPU either it is, or it still waits and the same CPU still
    owes the wakeup and is not past it.  In particular no process waits on a
    true condition while the lock is free, and the round of the loop that
    deals with the process makes it runnable. *)
Theorem no_lost_wakeup g p ch :
  reachable g → waiting g p ch → cond g ch = true →
  ∃ c, chan_lock ch ∈ own g c ∧ ch ∈ owed g c ∧ ¬ passed (at_ (st g) c) ch p ∧
  ∀ c' a g', allowed c' a g → step c' a g = Some (Moved g') →
    state (slots (st g') p) = RUNNABLE ∨
    waiting g' p ch ∧ chan_lock ch ∈ own g' c ∧ ch ∈ owed g' c ∧ ¬ passed (at_ (st g') c) ch p.
Proof.
  intros Hr Hw Hc. pose proof (reachable_wake g Hr) as Hwi. pose proof (sched_reachable g Hr) as Hi.
  destruct (wi_wait _ Hwi p ch Hw Hc) as (c & H1 & H2). exists c. split; [by apply Hwi|]. split; [done|]. split; [done|].
  intros c' a g' Ha Hs. destruct (waiting_step c' a g g' p ch Hi Ha Hs Hw) as [?|Hw']; [by left|right].
  pose proof (step_moves g c' Hi a Ha) as Hm. rewrite Hs in Hm.
  destruct (waker_move c' g g' p ch c Hi Hwi Hm Hw' Hw H1 H2) as [H3 H4].
  split; [done|]. split; [|done]. by eapply (owed_move c' g g').
Qed.

(** ** The machine at work

    The second process sleeps on CPU 1; the first one makes the condition true
    on CPU 0 and calls [wakeup], whose loop comes to the second process.  Its
    next round wakes it. *)

Definition one_sleeps : list (Z * action) :=
  two_processes ++ [(1, Lock LkTicks); (1, Sleep ChTicks); (1, Tick); (1, Tick); (1, Tick);
    (0, Lock LkTicks); (0, Raise ChTicks); (0, Wakeup ChTicks); (0, Tick)].

Lemma play_sleeps : ∃ g, reachable g ∧
  (at_ (st g) 0, state (slots (st g) 1), channel (slots (st g) 1), cond g ChTicks) =
  (On (Waking ChTicks 1), SLEEPING, Some ChTicks, true).
Proof. apply (play_start one_sleeps). vm_compute. reflexivity. Qed.

Lemma no_lost_wakeup_witness : ∃ g, reachable g ∧ at_ (st g) 0 = On (Waking ChTicks 1) ∧ waiting g 1 ChTicks ∧ cond g ChTicks = true ∧
  ∃ c, chan_lock ChTicks ∈ own g c ∧ ChTicks ∈ owed g c ∧ ¬ passed (at_ (st g) c) ChTicks 1 ∧
  ∀ c' a g', allowed c' a g → step c' a g = Some (Moved g') →
    state (slots (st g') 1) = RUNNABLE ∨
    waiting g' 1 ChTicks ∧ chan_lock ChTicks ∈ own g' c ∧ ChTicks ∈ owed g' c ∧ ¬ passed (at_ (st g') c) ChTicks 1.
Proof.
  destruct play_sleeps as (g & Hr & E). injection E as E0 E1 E2 E3. exists g. assert (waiting g 1 ChTicks) as Hw by (by left).
  split; [done|]. split; [done|]. split; [done|]. split; [done|]. exact (no_lost_wakeup g 1 ChTicks Hr Hw E3).
Defined.
