(* ===== verification/Asm.v ===== *)
(** * The assembly code: [trampoline.S], [kernelvec.S], [swtch.S], [entry.S]

    The instructions that the files use, on a hart with its registers and
    memory.  Memory is reached through the page table that [satp] names.  The
    theorems say that a trap gives back every register of the interrupted code
    and that [swtch] swaps the registers that a function must preserve. *)

From S2P Require Import Prelude Riscv Memory Kalloc Vm VmTable VmUser.

Inductive reg : Type :=
  | ra | sp | gp | tp | t0 | t1 | t2 | s0 | s1 | a0 | a1 | a2 | a3 | a4 | a5 | a6 | a7
  | s2 | s3 | s4 | s5 | s6 | s7 | s8 | s9 | s10 | s11 | t3 | t4 | t5 | t6.
#[global] Instance reg_eq_dec : EqDecision reg.
Proof. solve_decision. Defined.

Inductive creg : Type :=
  | sscratch | satp | mscratch | sip | mhartid | mstatus | mepc | medeleg | mideleg | sie | pmpaddr0 | pmpcfg0 | mtvec | mie.
#[global] Instance creg_eq_dec : EqDecision creg.
Proof. solve_decision. Defined.

Inductive instr : Type :=
  | Sd (rs : reg) (off : Z) (rb : reg)
  | Ld (rd : reg) (off : Z) (rb : reg)
  | Li (rd : reg) (v : Z)
  | Addi (rd rs : reg) (v : Z)
  | Add (rd rs rt : reg)
  | Mul (rd rs rt : reg)
  | Csrw (c : creg) (rs : reg)
  | Csrr (rd : reg) (c : creg)
  | Csrrw (rd : reg) (c : creg) (rs : reg)
  | Sfence_vma
  | Jr (rs : reg)
  | Ret
  | Call (f : string)
  | Sret
  | Mret.

Record machine : Type := Machine { regs : reg → Z; csrs : creg → Z; ram : gmap Z Z }.

Definition set_reg (r : reg) (v : Z) (m : machine) : machine :=
  Machine (λ x, if decide (x = r) then v else regs m x) (csrs m) (ram m).
Definition set_csr (c : creg) (v : Z) (m : machine) : machine :=
  Machine (regs m) (λ x, if decide (x = c) then v else csrs m x) (ram m).
Definition set_ram (x : gmap Z Z) (m : machine) : machine := Machine (regs m) (csrs m) x.

(** Where a piece of code ends: the target of a jump, a call or a return. *)
Inductive stop : Type := ToAddr (pc : Z) | ToFun (f : string) | BySret | ToCaller | ByMret | Falls.

Section exec.
  (** The address that an access means, given the memory and [satp]. *)
  Variable xl : gmap Z Z → Z → Z → Z.

Definition addr_of (rb : reg) (off : Z) (m : machine) : Z := xl (ram m) (csrs m satp) (u64 (regs m rb + off)).

Fixpoint exec (code : list instr) (m : machine) : stop * list instr * machine :=
  match code with
  | [] => (Falls, [], m)
  | Sd rs off rb :: k => exec k (set_ram (st64 (ram m) (addr_of rb off m) (regs m rs)) m)
  | Ld rd off rb :: k => exec k (set_reg rd (ld64 (ram m) (addr_of rb off m)) m)
  | Li rd v :: k => exec k (set_reg rd (u64 v) m)
  | Addi rd rs v :: k => exec k (set_reg rd (u64 (regs m rs + v)) m)
  | Add rd rs rt :: k => exec k (set_reg rd (u64 (regs m rs + regs m rt)) m)
  | Mul rd rs rt :: k => exec k (set_reg rd (u64 (regs m rs * regs m rt)) m)
  | Csrw c rs :: k => exec k (set_csr c (regs m rs) m)
  | Csrr rd c :: k => exec k (set_reg rd (csrs m c) m)
  | Csrrw rd c rs :: k => exec k (set_csr c (regs m rs) (set_reg rd (csrs m c) m))
  | Sfence_vma :: k => exec k m
  | Jr rs :: k => (ToAddr (regs m rs), k, m)
  | Ret :: k => (ToCaller, k, m)
  | Call f :: k => (ToFun f, k, m)
  | Sret :: k => (BySret, k, m)
  | Mret :: k => (ByMret, k, m)
  end.
End exec.

(** Machine mode has no translation; supervisor mode walks the page table. *)
Definition bare (_ : gmap Z Z) (_ va : Z) : Z := va.
Definition sv39 (m : gmap Z Z) (satp va : Z) : Z :=
  if Z.shiftr satp 60 =? 0 then va
  else PTE2PA (leaf m (Z.shiftl (Z.land satp (Z.ones 44)) 12) va) + va mod PGSIZE.

(** ** [trampoline.S] *)

Definition uservec : list instr :=
  [Csrw sscratch a0;
   Li a0 TRAPFRAME;
   Sd ra 40 a0; Sd sp 48 a0; Sd gp 56 a0; Sd tp 64 a0; Sd t0 72 a0; Sd t1 80 a0; Sd t2 88 a0; Sd s0 96 a0; Sd s1 104 a0;
   Sd a1 120 a0; Sd a2 128 a0; Sd a3 136 a0; Sd a4 144 a0; Sd a5 152 a0; Sd a6 160 a0; Sd a7 168 a0;
   Sd s2 176 a0; Sd s3 184 a0; Sd s4 192 a0; Sd s5 200 a0; Sd s6 208 a0; Sd s7 216 a0; Sd s8 224 a0; Sd s9 232 a0;
   Sd s10 240 a0; Sd s11 248 a0; Sd t3 256 a0; Sd t4 264 a0; Sd t5 272 a0; Sd t6 280 a0;
   Csrr t0 sscratch;
   Sd t0 112 a0;
   Ld sp 8 a0;
   Ld tp 32 a0;
   Ld t0 16 a0;
   Ld t1 0 a0;
   Sfence_vma;
   Csrw satp t1;
   Sfence_vma;
   Jr t0].

Definition userret : list instr :=
  [Sfence_vma;
   Csrw satp a0;
   Sfence_vma;
   Li a0 TRAPFRAME;
   Ld ra 40 a0; Ld sp 48 a0; Ld gp 56 a0; Ld tp 64 a0; Ld t0 72 a0; Ld t1 80 a0; Ld t2 88 a0; Ld s0 96 a0; Ld s1 104 a0;
   Ld a1 120 a0; Ld a2 128 a0; Ld a3 136 a0; Ld a4 144 a0; Ld a5 152 a0; Ld a6 160 a0; Ld a7 168 a0;
   Ld s2 176 a0; Ld s3 184 a0; Ld s4 192 a0; Ld s5 200 a0; Ld s6 208 a0; Ld s7 216 a0; Ld s8 224 a0; Ld s9 232 a0;
   Ld s10 240 a0; Ld s11 248 a0; Ld t3 256 a0; Ld t4 264 a0; Ld t5 272 a0; Ld t6 280 a0;
   Ld a0 112 a0;
   Sret].

(** ** [kernelvec.S] *)

Definition kernelvec : list instr :=
  [Addi sp sp (-256);
   Sd ra 0 sp; Sd sp 8 sp; Sd gp 16 sp; Sd tp 24 sp; Sd t0 32 sp; Sd t1 40 sp; Sd t2 48 sp; Sd s0 56 sp; Sd s1 64 sp;
   Sd a0 72 sp; Sd a1 80 sp; Sd a2 88 sp; Sd a3 96 sp; Sd a4 104 sp; Sd a5 112 sp; Sd a6 120 sp; Sd a7 128 sp;
   Sd s2 136 sp; Sd s3 144 sp; Sd s4 152 sp; Sd s5 160 sp; Sd s6 168 sp; Sd s7 176 sp; Sd s8 184 sp; Sd s9 192 sp;
   Sd s10 200 sp; Sd s11 208 sp; Sd t3 216 sp; Sd t4 224 sp; Sd t5 232 sp; Sd t6 240 sp;
   Call "kerneltrap";
   Ld ra 0 sp; Ld sp 8 sp; Ld gp 16 sp; Ld t0 32 sp; Ld t1 40 sp; Ld t2 48 sp; Ld s0 56 sp; Ld s1 64 sp;
   Ld a0 72 sp; Ld a1 80 sp; Ld a2 88 sp; Ld a3 96 sp; Ld a4 104 sp; Ld a5 112 sp; Ld a6 120 sp; Ld a7 128 sp;
   Ld s2 136 sp; Ld s3 144 sp; Ld s4 152 sp; Ld s5 160 sp; Ld s6 168 sp; Ld s7 176 sp; Ld s8 184 sp; Ld s9 192 sp;
   Ld s10 200 sp; Ld s11 208 sp; Ld t3 216 sp; Ld t4 224 sp; Ld t5 232 sp; Ld t6 240 sp;
   Addi sp sp 256;
   Sret].

Definition timervec : list instr :=
  [Csrrw a0 mscratch a0;
   Sd a1 0 a0; Sd a2 8 a0; Sd a3 16 a0;
   Ld a1 24 a0;
   Ld a2 32 a0;
   Ld a3 0 a1;
   Add a3 a3 a2;
   Sd a3 0 a1;
   Li a1 2;
   Csrw sip a1;
   Ld a3 16 a0; Ld a2 8 a0; Ld a1 0 a0;
   Csrrw a0 mscratch a0;
   Mret].

(** ** [swtch.S] *)

Definition swtch : list instr :=
  [Sd ra 0 a0; Sd sp 8 a0; Sd s0 16 a0; Sd s1 24 a0; Sd s2 32 a0; Sd s3 40 a0; Sd s4 48 a0; Sd s5 56 a0; Sd s6 64 a0;
   Sd s7 72 a0; Sd s8 80 a0; Sd s9 88 a0; Sd s10 96 a0; Sd s11 104 a0;
   Ld ra 0 a1; Ld sp 8 a1; Ld s0 16 a1; Ld s1 24 a1; Ld s2 32 a1; Ld s3 40 a1; Ld s4 48 a1; Ld s5 56 a1; Ld s6 64 a1;
   Ld s7 72 a1; Ld s8 80 a1; Ld s9 88 a1; Ld s10 96 a1; Ld s11 104 a1;
   Ret].

(** ** [entry.S]; [stack0] is the address of the stacks. *)

Definition entry (stack0 : Z) : list instr :=
  [Li sp stack0;
   Li a0 (1024 * 4);
   Csrr a1 mhartid;
   Addi a1 a1 1;
   Mul a0 a0 a1;
   Add sp sp a0;
   Call "start"].

(** ** Saving and loading registers *)

Definition saves (b : reg) (l : list (reg * Z)) : list instr := (λ x, Sd x.1 x.2 b) <$> l.
Definition loads (b : reg) (l : list (reg * Z)) : list instr := (λ x, Ld x.1 x.2 b) <$> l.

(** The offsets do not overlap. *)
Definition apart (l : list (reg * Z)) : Prop :=
  ∀ i j x y, l !! i = Some x → l !! j = Some y → i ≠ j → x.2 + 8 ≤ y.2 ∨ y.2 + 8 ≤ x.2.

(** The memory after the registers have been saved from address [pa] on. *)
Definition saved (g : reg → Z) (pa : Z) (l : list (reg * Z)) (m : gmap Z Z) : gmap Z Z :=
  foldl (λ m x, st64 m (pa + x.2) (g x.1)) m l.

Definition regs_ok (m : machine) : Prop := ∀ r, 0 ≤ regs m r < 2 ^ 64.

Lemma ld64_saved_other g pa l m a :
  (∀ x, x ∈ l → a + 8 ≤ pa + x.2 ∨ pa + x.2 + 8 ≤ a) → ld64 (saved g pa l m) a = ld64 m a.
Proof.
  revert m. induction l as [|x l IH]; intros m Hl; [done|]. unfold saved in *. simpl. rewrite IH by (intros y Hy; apply Hl; by right).
  apply ld64_st64_other. specialize (Hl x ltac:(by left)). lia.
Qed.

Lemma apart_tail x l : apart (x :: l) → apart l ∧ ∀ y, y ∈ l → x.2 + 8 ≤ y.2 ∨ y.2 + 8 ≤ x.2.
Proof.
  intros Ha. split.
  - intros i j y z Hi Hj Hne. apply (Ha (S i) (S j)); [done|done|lia].
  - intros y [i Hi]%list_elem_of_lookup. by apply (Ha 0%nat (S i)).
Qed.

Lemma ld64_saved g pa l m r o :
  apart l → (∀ r, 0 ≤ g r < 2 ^ 64) → (r, o) ∈ l → ld64 (saved g pa l m) (pa + o) = g r.
Proof.
  intros Ha Hg. revert m. induction l as [|x l IH]; intros m Hx; [by apply not_elem_of_nil in Hx|].
  apply apart_tail in Ha as [Ha Hd]. apply elem_of_cons in Hx as [<-|Hx]; [|by apply IH].
  unfold saved. simpl. fold (saved g pa l (st64 m (pa + o) (g r))). rewrite ld64_saved_other; [by apply ld64_st64_same|].
  intros y Hy. specialize (Hd y Hy). simpl in Hd. lia.
Qed.

Lemma rd_saved_out g pa l m n a :
  (∀ x, x ∈ l → 0 ≤ x.2 ∧ x.2 + 8 ≤ n) → a < pa ∨ pa + n ≤ a → rd (saved g pa l m) a = rd m a.
Proof.
  intros Hl Ha. revert m. induction l as [|x l IH]; intros m; [done|]. unfold saved in *. simpl.
  rewrite IH by (intros y Hy; apply Hl; by right). destruct (Hl x ltac:(by left)). apply rd_st64_out. lia.
Qed.

Lemma mem_ok_saved g pa l m : mem_ok m → mem_ok (saved g pa l m).
Proof. revert m. induction l as [|x l IH]; intros m Hm; [done|]. unfold saved in *. simpl. by apply IH, mem_ok_st64. Qed.

Section runs.
  Variable xl : gmap Z Z → Z → Z → Z.

(** The [n] bytes that register [b] points to are at [pa], and stay there when
    they are written. *)
Definition mapped (m : machine) (b : reg) (pa n : Z) : Prop := ∀ x o,
  0 ≤ o → o + 8 ≤ n → (∀ a, a < pa ∨ pa + n ≤ a → rd x a = rd (ram m) a) →
  xl x (csrs m satp) (u64 (regs m b + o)) = pa + o.

Definition fits (n : Z) (l : list (reg * Z)) : Prop := ∀ x, x ∈ l → 0 ≤ x.2 ∧ x.2 + 8 ≤ n.

Lemma exec_saves m b pa n l k :
  mapped m b pa n → fits n l →
  exec xl (saves b l ++ k) m = exec xl k (set_ram (saved (regs m) pa l (ram m)) m).
Proof.
  intros Hm Hl. assert (∀ x, (∀ a, a < pa ∨ pa + n ≤ a → rd x a = rd (ram m) a) →
    exec xl (saves b l ++ k) (set_ram x m) = exec xl k (set_ram (saved (regs m) pa l x) m)) as H.
  { induction l as [|y l IH]; intros x Hx; [done|]. simpl. destruct (Hl y ltac:(by left)) as [Hy1 Hy2].
    unfold addr_of. simpl. rewrite (Hm x y.2 Hy1 Hy2 Hx).
    change (set_ram ?u (set_ram x m)) with (set_ram u m). rewrite IH; [done|by intros z Hz; apply Hl; right|].
    intros a Ha. rewrite rd_st64_out by lia. by apply Hx. }
  rewrite <-(H (ram m)) by done. by destruct m.
Qed.

Lemma exec_loads m b pa n l k :
  mapped m b pa n → fits n l → NoDup l.*1 → (∀ o, (b, o) ∈ l → ld64 (ram m) (pa + o) = regs m b) →
  ∃ m', exec xl (loads b l ++ k) m = exec xl k m' ∧ ram m' = ram m ∧ csrs m' = csrs m ∧
    (∀ r o, (r, o) ∈ l → regs m' r = ld64 (ram m) (pa + o)) ∧ (∀ r, r ∉ l.*1 → regs m' r = regs m r).
Proof.
  intros Hm Hl Hnd Hb. revert m Hm Hl Hnd Hb. induction l as [|[r o] l IH]; intros m Hm Hl Hnd Hb.
  { exists m. do 3 (split; [done|]). split; [by intros r o H%not_elem_of_nil|done]. }
  apply NoDup_cons in Hnd as [Hr Hnd]. destruct (Hl (r, o) ltac:(by left)) as [Hy1 Hy2]. simpl in *.
  unfold addr_of. rewrite (Hm (ram m) o) by done. set (m1 := set_reg r _ m).
  assert (regs m1 b = regs m b) as Eb.
  { unfold m1. simpl. case_decide; [|done]. subst. apply Hb. by left. }
  destruct (IH m1) as (m' & E & E1 & E2 & E3 & E4).
  - intros x o' H1 H2 H3. rewrite Eb. by apply Hm.
  - intros x Hx. apply Hl. by right.
  - done.
  - intros o' Ho'. rewrite Eb. apply Hb. by right.
  - exists m'. do 3 (split; [done|]). split.
    + intros r' o' [[= -> ->]|H]%elem_of_cons; [|by apply E3]. rewrite E4 by done. unfold m1. simpl. by rewrite decide_True.
    + intros r' Hr'. apply not_elem_of_cons in Hr' as [H1 H2]. rewrite E4 by done. unfold m1. simpl. by rewrite decide_False.
Qed.

Lemma mapped_less m b pa n k : mapped m b pa n → k ≤ n → mapped m b pa k.
Proof. intros Hm Hk x o H1 H2 Hx. apply Hm; [done|lia|]. intros a Ha. apply Hx. lia. Qed.
End runs.

(** ** The trap frame in the page table *)

(** The user page table that [s] names has the frame at [tf], whatever is
    stored in the frame. *)
Definition frame_at (m : gmap Z Z) (s tf : Z) : Prop := ∀ x o,
  0 ≤ o < PGSIZE → (∀ a, ¬ in_page tf a → rd x a = rd m a) → sv39 x s (TRAPFRAME + o) = tf + o.

Lemma satp_root root : root mod PGSIZE = 0 → 0 ≤ root < 2 ^ 56 →
  Z.shiftr (MAKE_SATP root) 60 ≠ 0 ∧ Z.shiftl (Z.land (MAKE_SATP root) (Z.ones 44)) 12 = root.
Proof.
  intros Hal Hr. unfold MAKE_SATP. assert (0 ≤ Z.shiftr root 12 < 2 ^ 44) as Hs.
  { rewrite Z.shiftr_div_pow2 by done. split; [apply Z.div_pos; lia|apply Z.div_lt_upper_bound; lia]. }
  split.
  - rewrite Z.shiftr_lor, (Z.shiftr_div_pow2 (Z.shiftr root 12)), Z.div_small by lia. done.
  - rewrite Z.land_lor_distr_l. change (Z.land SATP_SV39 (Z.ones 44)) with 0. rewrite Z.lor_0_l, Z.land_ones, Z.mod_small by done.
    rewrite Z.shiftr_div_pow2, Z.shiftl_mul_pow2 by done. change (2 ^ 12) with PGSIZE. pose proof (Z.div_mod root PGSIZE). lia.
Qed.

(** A table with the entry that [proc_pagetable] makes. *)
Lemma table_frame_at kend m root G tf perm :
  0 < kend → pt_ok kend m root G → leaf m root TRAPFRAME = mkpte tf perm → is_pa tf → tf mod PGSIZE = 0 → 0 ≤ perm < 2 ^ 10 →
  G !! tf = None → frame_at m (MAKE_SATP root) tf.
Proof.
  intros Hk Hok Hleaf Htf Hal Hp HG x o Ho Hx. pose proof (pt_page _ _ _ _ Hok root [] (pt_root _ _ _ _ Hok)) as [Hrp _].
  pose proof (ram_page_range kend root Hk Hrp). destruct (satp_root root) as [H1 H2]; [by destruct Hrp|lia|].
  unfold sv39. if_false. rewrite H2.
  assert (leaf x root (TRAPFRAME + o) = mkpte tf perm) as ->.
  { rewrite (leaf_page _ _ _ TRAPFRAME) by (by rewrite (PGROUNDDOWN_in TRAPFRAME), (PGROUNDDOWN_aligned TRAPFRAME) by (done || lia)).
    destruct (tables_same kend m x root G Hok) as [_ Hs]; [|by rewrite (proj2 (Hs TRAPFRAME))]. intros p a [path Hpath] Ha. apply Hx. intros Ha'.
    destruct (decide (p = tf)) as [->|Hne]; [congruence|]. apply Hne. eapply (pages_disjoint p tf); try done. by eapply pt_aligned. }
  destruct (mkpte_facts tf perm Htf Hp) as (-> & _). f_equal.
  rewrite <-Zplus_mod_idemp_l. change (TRAPFRAME mod PGSIZE) with 0. apply Z.mod_small. done.
Qed.

(** ** Traps from user mode *)

(** Where [uservec] saves the registers; [a0] has place 112. *)
Definition user_frame : list (reg * Z) :=
  [(ra, 40); (sp, 48); (gp, 56); (tp, 64); (t0, 72); (t1, 80); (t2, 88); (s0, 96); (s1, 104);
   (a1, 120); (a2, 128); (a3, 136); (a4, 144); (a5, 152); (a6, 160); (a7, 168);
   (s2, 176); (s3, 184); (s4, 192); (s5, 200); (s6, 208); (s7, 216); (s8, 224); (s9, 232);
   (s10, 240); (s11, 248); (t3, 256); (t4, 264); (t5, 272); (t6, 280)].

Lemma apart_aligned l : Forall (λ x, x.2 mod 8 = 0) l → NoDup l.*2 → apart l.
Proof.
  intros Ha Hnd i j x y Hi Hj Hne. rewrite Forall_forall in Ha.
  pose proof (Ha x (list_elem_of_lookup_2 _ _ _ Hi)). pose proof (Ha y (list_elem_of_lookup_2 _ _ _ Hj)).
  assert (x.2 ≠ y.2) as Hxy; [|pose proof (Z.div_mod x.2 8); pose proof (Z.div_mod y.2 8); lia].
  intros E. apply Hne. eapply (NoDup_lookup l.*2); [done|by rewrite list_lookup_fmap, Hi|by rewrite list_lookup_fmap, Hj, E].
Qed.

Lemma user_frame_ok : apart user_frame ∧ fits PGSIZE user_frame ∧ NoDup user_frame.*1 ∧
  (∀ o, o ∈ user_frame.*2 → 40 ≤ o ∧ o ≠ 112 ∧ o + 8 ≤ 288 ∧ o mod 8 = 0) ∧ ∀ r, r ≠ a0 → ∃ o, (r, o) ∈ user_frame.
Proof.
  split; [apply apart_aligned; apply (bool_decide_unpack _); vm_compute; exact I|].
  split; [unfold fits; rewrite <-Forall_forall; apply (bool_decide_unpack _); vm_compute; exact I|].
  split; [apply (bool_decide_unpack _); vm_compute; exact I|].
  split; [rewrite <-Forall_forall; apply (bool_decide_unpack _); vm_compute; exact I|].
  intros r Hr. destruct r; try done; eexists; unfold user_frame; repeat (apply list_elem_of_here || apply list_elem_of_further).
Qed.

(** With a register at the frame, the frame is mapped. *)
Lemma frame_mapped m b tf :
  frame_at (ram m) (csrs m satp) tf → regs m b = TRAPFRAME → mapped sv39 m b tf PGSIZE.
Proof.
  intros Hf Ha x o H1 H2 Hx. rewrite Ha, u64_small by lia. apply Hf; [lia|]. intros a Hn. apply Hx. unfold in_page in Hn. lia.
Qed.

Lemma frame_at_same m m' s tf :
  frame_at m s tf → (∀ a, ¬ in_page tf a → rd m' a = rd m a) → frame_at m' s tf.
Proof. intros Hf Hs x o Ho Hx. apply Hf; [done|]. intros a Ha. by rewrite Hx, Hs. Qed.

Definition kernel_frame : list (reg * Z) := [(sp, 8); (tp, 32); (t0, 16); (t1, 0)].

(** The rest of [uservec], when the registers but [a0] are saved. *)
Lemma uservec_tail m tf v :
  frame_at (ram m) (csrs m satp) tf → regs m a0 = TRAPFRAME → csrs m sscratch = v →
  ∃ m', exec sv39 ([Csrr t0 sscratch] ++ saves a0 [(t0, 112)] ++ loads a0 kernel_frame ++
      [Sfence_vma; Csrw satp t1; Sfence_vma; Jr t0]) m = (ToAddr (ld64 (ram m) (tf + 16)), [], m') ∧
    ram m' = st64 (ram m) (tf + 112) v ∧ regs m' sp = ld64 (ram m) (tf + 8) ∧ regs m' tp = ld64 (ram m) (tf + 32) ∧
    csrs m' satp = ld64 (ram m) tf.
Proof.
  intros Hf Ha Hv. cbn [app exec]. set (m2 := set_reg t0 _ m).
  assert (mapped sv39 m2 a0 tf PGSIZE) as Hm2 by (by apply frame_mapped).
  rewrite (exec_saves sv39 m2 a0 tf PGSIZE) by (done || by intros x ->%list_elem_of_singleton).
  assert (saved (regs m2) tf [(t0, 112)] (ram m2) = st64 (ram m) (tf + 112) v) as -> by (by rewrite <-Hv).
  set (y := st64 (ram m) (tf + 112) v).
  assert (∀ o, 0 ≤ o → o + 8 ≤ 40 → ld64 y (tf + o) = ld64 (ram m) (tf + o)) as Hlow.
  { intros o H1 H2. unfold y. apply ld64_st64_other. lia. }
  destruct (exec_loads sv39 (set_ram y m2) a0 tf PGSIZE kernel_frame [Sfence_vma; Csrw satp t1; Sfence_vma; Jr t0])
    as (m4 & -> & E1 & E2 & E3 & E4).
  - apply frame_mapped; [|done]. apply (frame_at_same (ram m)); [done|]. intros a Hn. unfold y. apply rd_st64_out. unfold in_page in Hn. lia.
  - unfold fits. rewrite <-Forall_forall. apply (bool_decide_unpack _). vm_compute. exact I.
  - apply (bool_decide_unpack _). vm_compute. exact I.
  - intros o Ho. exfalso. revert Ho. unfold kernel_frame. rewrite !elem_of_cons. intros [?|[?|[?|[?|?%not_elem_of_nil]]]]; done.
  - change (ram (set_ram y m2)) with y in *. assert (∀ r o, (r, o) ∈ kernel_frame → regs m4 r = ld64 (ram m) (tf + o)) as Hk.
    { intros r o Hro. rewrite (E3 r o Hro). apply Hlow; revert Hro; unfold kernel_frame; rewrite !elem_of_cons;
        intros [[= -> ->]|[[= -> ->]|[[= -> ->]|[[= -> ->]|?%not_elem_of_nil]]]]; lia. }
    clear E3. cbn [exec regs set_csr]. rewrite (Hk t0 16) by set_solver. eexists. split; [reflexivity|]. simpl.
    rewrite (Hk sp 8), (Hk tp 32), (Hk t1 0), Z.add_0_r by set_solver. done.
Qed.

Lemma exec_csrw xl c r k m : exec xl (Csrw c r :: k) m = exec xl k (set_csr c (regs m r) m).
Proof. reflexivity. Qed.
Lemma exec_li xl r v k m : exec xl (Li r v :: k) m = exec xl k (set_reg r (u64 v) m).
Proof. reflexivity. Qed.
Lemma exec_sfence xl k m : exec xl (Sfence_vma :: k) m = exec xl k m.
Proof. reflexivity. Qed.

Lemma user_frame_a0 : a0 ∉ user_frame.*1.
Proof. apply (bool_decide_unpack _). vm_compute. exact I. Qed.

Lemma saved_ext g h pa l m : (∀ x, x ∈ l.*1 → g x = h x) → saved g pa l m = saved h pa l m.
Proof.
  revert m. induction l as [|x l IH]; intros m H; [done|]. unfold saved in *. simpl.
  rewrite (H x.1) by (by left). apply IH. intros y Hy. apply H. by right.
Qed.

Lemma uservec_split :
  uservec = [Csrw sscratch a0; Li a0 TRAPFRAME] ++ saves a0 user_frame ++ [Csrr t0 sscratch] ++ saves a0 [(t0, 112)] ++
    loads a0 kernel_frame ++ [Sfence_vma; Csrw satp t1; Sfence_vma; Jr t0].
Proof. reflexivity. Qed.

Lemma userret_split :
  userret = [Sfence_vma; Csrw satp a0; Sfence_vma; Li a0 TRAPFRAME] ++ loads a0 user_frame ++ [Ld a0 112 a0; Sret].
Proof. reflexivity. Qed.

Lemma uservec_run m tf :
  frame_at (ram m) (csrs m satp) tf →
  ∃ m', exec sv39 uservec m = (ToAddr (ld64 (ram m) (tf + 16)), [], m') ∧
    ram m' = st64 (saved (regs m) tf user_frame (ram m)) (tf + 112) (regs m a0) ∧
    regs m' sp = ld64 (ram m) (tf + 8) ∧ regs m' tp = ld64 (ram m) (tf + 32) ∧ csrs m' satp = ld64 (ram m) tf.
Proof.
  intros Hf. destruct user_frame_ok as (Hap & Hfit & _ & Hoff & _).
  rewrite uservec_split. cbn [app]. rewrite exec_csrw, exec_li. set (m1 := set_reg a0 (u64 TRAPFRAME) (set_csr sscratch (regs m a0) m)).
  assert (mapped sv39 m1 a0 tf PGSIZE) as Hm1 by (by apply frame_mapped).
  rewrite (exec_saves sv39 m1 a0 tf PGSIZE) by done.
  assert (saved (regs m1) tf user_frame (ram m1) = saved (regs m) tf user_frame (ram m)) as ->.
  { apply saved_ext. intros x Hx. unfold m1. cbn [regs set_reg set_csr]. rewrite decide_False; [done|]. intros ->. by apply user_frame_a0 in Hx. }
  assert (∀ o, 0 ≤ o → o + 8 ≤ 40 → ld64 (saved (regs m) tf user_frame (ram m)) (tf + o) = ld64 (ram m) (tf + o)) as Hlow.
  { intros o H1 H2. apply ld64_saved_other. intros y Hy. destruct (Hoff y.2); [by apply list_elem_of_fmap_2|lia]. }
  assert (frame_at (saved (regs m) tf user_frame (ram m)) (csrs m satp) tf) as Hf2.
  { apply (frame_at_same (ram m)); [done|]. intros a Ha. apply (rd_saved_out _ _ _ _ PGSIZE); [done|unfold in_page in Ha; lia]. }
  revert Hlow Hf2. generalize (saved (regs m) tf user_frame (ram m)). intros y Hlow Hf2.
  destruct (uservec_tail (set_ram y m1) tf (regs m a0)) as (m' & E & Er & H1 & H2 & H3); [done..|].
  cbn [ram set_ram] in *. exists m'. rewrite (Hlow 16) in E by lia. rewrite (Hlow 8) in H1 by lia. rewrite (Hlow 32) in H2 by lia.
  pose proof (Hlow 0) as Hl0. rewrite Z.add_0_r in Hl0. rewrite Hl0 in H3 by lia. done.
Qed.

Lemma userret_run m tf :
  frame_at (ram m) (regs m a0) tf →
  ∃ m', exec sv39 userret m = (BySret, [], m') ∧ ram m' = ram m ∧ csrs m' satp = regs m a0 ∧
    regs m' a0 = ld64 (ram m) (tf + 112) ∧ ∀ r o, (r, o) ∈ user_frame → regs m' r = ld64 (ram m) (tf + o).
Proof.
  intros Hf. destruct user_frame_ok as (Hap & Hfit & Hnd & Hoff & _).
  rewrite userret_split. cbn [app]. rewrite exec_sfence, exec_csrw, exec_sfence, exec_li. set (m1 := set_reg a0 (u64 TRAPFRAME) (set_csr satp (regs m a0) m)).
  pose proof user_frame_a0 as Hna.
  assert (mapped sv39 m1 a0 tf PGSIZE) as Hm1 by (by apply frame_mapped).
  destruct (exec_loads sv39 m1 a0 tf PGSIZE user_frame [Ld a0 112 a0; Sret] Hm1) as (m2 & -> & E1 & E2 & E3 & E4).
  { done. }
  { done. }
  { intros o Ho. destruct Hna. by apply (list_elem_of_fmap_2 fst) in Ho. }
  simpl. unfold addr_of. rewrite E1, E2, (E4 a0 Hna). change (ram m1) with (ram m).
  rewrite (Hm1 (ram m) 112) by (done || lia). eexists. split; [reflexivity|]. simpl. rewrite E1, E2. split; [done|]. split; [done|].
  split; [done|]. intros r o Hro. case_decide as Hr; [|by apply E3]. subst. destruct Hna. by apply (list_elem_of_fmap_2 fst) in Hro.
Qed.

(** C32: A trap gives the user its registers back.  [uservec] saves them in the
    trap frame and enters the kernel with the stack, hart id, page table and
    handler that the frame holds.  If the kernel then keeps the saved registers
    other than [a0], where the result [v] of a system call goes, [userret]
    ends in user mode with the page table of the process, every register as it
    was, and [v] in [a0]. *)
Theorem trap_roundtrip m tf :
  regs_ok m → frame_at (ram m) (csrs m satp) tf →
  ∃ m1, exec sv39 uservec m = (ToAddr (ld64 (ram m) (tf + 16)), [], m1) ∧
    regs m1 sp = ld64 (ram m) (tf + 8) ∧ regs m1 tp = ld64 (ram m) (tf + 32) ∧ csrs m1 satp = ld64 (ram m) tf ∧
    ld64 (ram m1) (tf + 112) = regs m a0 ∧ (∀ a, a < tf + 40 ∨ tf + 288 ≤ a → rd (ram m1) a = rd (ram m) a) ∧
    ∀ m2 v, regs m2 a0 = csrs m satp → frame_at (ram m2) (csrs m satp) tf →
      (∀ o, 40 ≤ o < 288 → o mod 8 = 0 → ld64 (ram m2) (tf + o) = if o =? 112 then v else ld64 (ram m1) (tf + o)) →
      ∃ m3, exec sv39 userret m2 = (BySret, [], m3) ∧ csrs m3 satp = csrs m satp ∧ ram m3 = ram m2 ∧
        regs m3 a0 = v ∧ ∀ r, r ≠ a0 → regs m3 r = regs m r.
Proof.
  intros Hr Hf. destruct user_frame_ok as (Hap & Hfit & Hnd & Hoff & Hall).
  destruct (uservec_run m tf Hf) as (m1 & E & Em & Esp & Etp & Esatp). exists m1. do 4 (split; [assumption|]). clear E.
  assert (∀ x, x ∈ user_frame → 40 ≤ x.2 ∧ x.2 ≠ 112 ∧ x.2 + 8 ≤ 288 ∧ x.2 mod 8 = 0) as Hoff'.
  { intros x Hx. apply Hoff. by apply list_elem_of_fmap_2. }
  split; [rewrite Em; by apply ld64_st64_same|]. split.
  - intros a Ha. rewrite Em, rd_st64_out by lia. clear -Ha Hoff'. revert Hoff'. generalize user_frame (ram m). intros l.
    induction l as [|x l IH]; intros y Hl; [done|]. unfold saved in *. simpl.
    rewrite IH by (intros z Hz; apply Hl; by right). destruct (Hl x ltac:(by left)). apply rd_st64_out. lia.
  - intros m2 v Ha0 Hf2 Hkeep. destruct (userret_run m2 tf) as (m3 & E3 & Er & Ec & Ea & Eall); [by rewrite Ha0|].
    exists m3. split; [assumption|]. clear E3. split; [congruence|]. split; [done|]. split; [rewrite Ea; by rewrite (Hkeep 112)|].
    intros r Hra. destruct (Hall r Hra) as [o Ho]. destruct (Hoff' _ Ho) as (H1 & H2 & H3 & H4). cbn [fst snd] in H1, H2, H3, H4.
    rewrite (Eall r o Ho), (Hkeep o) by (done || lia). if_false. rewrite Em, ld64_st64_other; [|pose proof (Z.div_mod o 8); lia]. apply ld64_saved; auto.
Qed.

(** ** Traps from the kernel *)

(** Where [kernelvec] saves the registers on the stack. *)
Definition stack_frame : list (reg * Z) :=
  [(ra, 0); (sp, 8); (gp, 16); (tp, 24); (t0, 32); (t1, 40); (t2, 48); (s0, 56); (s1, 64);
   (a0, 72); (a1, 80); (a2, 88); (a3, 96); (a4, 104); (a5, 112); (a6, 120); (a7, 128);
   (s2, 136); (s3, 144); (s4, 152); (s5, 160); (s6, 168); (s7, 176); (s8, 184); (s9, 192);
   (s10, 200); (s11, 208); (t3, 216); (t4, 224); (t5, 232); (t6, 240)].
Definition stack_back : list (reg * Z) := filter (λ x, x.1 ≠ tp) stack_frame.

Lemma kernelvec_split :
  kernelvec = Addi sp sp (-256) :: saves sp stack_frame ++ Call "kerneltrap" :: loads sp stack_back ++ [Addi sp sp 256; Sret].
Proof. reflexivity. Qed.

Lemma stack_frame_ok : apart stack_frame ∧ fits 256 stack_frame ∧ NoDup stack_frame.*1 ∧
  ∀ r, ∃ o, (r, o) ∈ stack_frame.
Proof.
  split; [apply apart_aligned; apply (bool_decide_unpack _); vm_compute; exact I|].
  split; [unfold fits; rewrite <-Forall_forall; apply (bool_decide_unpack _); vm_compute; exact I|].
  split; [apply (bool_decide_unpack _); vm_compute; exact I|].
  intros r. destruct r; eexists; unfold stack_frame; repeat (apply list_elem_of_here || apply list_elem_of_further).
Qed.

Lemma stack_back_ok : fits 256 stack_back ∧ NoDup stack_back.*1 ∧ tp ∉ stack_back.*1 ∧
  ∀ x, x ∈ stack_back ↔ x ∈ stack_frame ∧ x.1 ≠ tp.
Proof.
  assert (∀ x, x ∈ stack_back ↔ x ∈ stack_frame ∧ x.1 ≠ tp) as H.
  { intros x. unfold stack_back. rewrite list_elem_of_filter. tauto. }
  destruct stack_frame_ok as (_ & Hfit & _ & _).
  split; [intros x Hx; apply Hfit; by apply H|]. split; [apply (bool_decide_unpack _); vm_compute; exact I|].
  split; [|done]. intros [x [E Hx]]%list_elem_of_fmap. apply H in Hx as [_ Hx]. by rewrite <-E in Hx.
Qed.

Lemma exec_addi xl d r v k m : exec xl (Addi d r v :: k) m = exec xl k (set_reg d (u64 (regs m r + v)) m).
Proof. reflexivity. Qed.

Lemma u64_back v n : 0 ≤ v < 2 ^ 64 → u64 (u64 (v - n) + n) = v.
Proof. intros Hv. unfold u64. rewrite Zplus_mod_idemp_l. replace (v - n + n) with v by lia. by apply Z.mod_small. Qed.

(** What [kernelvec] does after [kerneltrap] has returned. *)
Lemma kernelvec_tail xl m pa g :
  (∀ r, 0 ≤ g r < 2 ^ 64) → regs m sp = u64 (g sp - 256) → mapped xl m sp pa 256 →
  (∀ r o, (r, o) ∈ stack_frame → ld64 (ram m) (pa + o) = if decide (r = sp) then regs m sp else g r) →
  ∃ m', exec xl (loads sp stack_back ++ [Addi sp sp 256; Sret]) m = (BySret, [], m') ∧ ram m' = ram m ∧ csrs m' = csrs m ∧
    regs m' tp = regs m tp ∧ ∀ r, r ≠ tp → regs m' r = g r.
Proof.
  intros Hg Hsp Hm Hld. destruct stack_frame_ok as (_ & _ & _ & Hall). destruct stack_back_ok as (Hfit & Hnd & Htp & Hin).
  destruct (exec_loads xl m sp pa 256 stack_back [Addi sp sp 256; Sret] Hm Hfit Hnd) as (m1 & E & E1 & E2 & E3 & E4).
  { intros o Ho. rewrite (Hld sp o) by (by apply (Hin (sp, o))). by rewrite decide_True. }
  rewrite E. clear E. rewrite exec_addi. eexists. split; [reflexivity|]. cbn [regs csrs ram set_reg]. split; [done|]. split; [done|].
  split; [rewrite decide_False by done; by apply E4|].
  assert (∀ r, r ≠ tp → regs m1 r = if decide (r = sp) then regs m sp else g r) as Hr.
  { intros r Hr. destruct (Hall r) as [o Ho]. rewrite (E3 r o) by (by apply (Hin (r, o))). by apply Hld. }
  intros r Hne. case_decide as Hs; [|by rewrite Hr, decide_False].
  subst. rewrite Hr, decide_True, Hsp by done. by apply u64_back.
Qed.

(** An interrupt in the kernel gives the interrupted code its registers
    back: [kernelvec] saves them in the 256 bytes below the stack pointer and
    calls [kerneltrap]; when that returns with the stack pointer and the saved
    registers as they were, even on another hart, [kernelvec] ends with every
    register as it was except [tp], which stays the id of the hart it is on. *)
Theorem kernelvec_restores xl m pa :
  regs_ok m → mapped xl (set_reg sp (u64 (regs m sp - 256)) m) sp pa 256 →
  ∃ k m1, exec xl kernelvec m = (ToFun "kerneltrap", k, m1) ∧
    regs m1 = regs (set_reg sp (u64 (regs m sp - 256)) m) ∧ csrs m1 = csrs m ∧
    (∀ a, a < pa ∨ pa + 256 ≤ a → rd (ram m1) a = rd (ram m) a) ∧
    ∀ m2, regs m2 sp = regs m1 sp → mapped xl m2 sp pa 256 →
      (∀ o, 0 ≤ o → o + 8 ≤ 256 → ld64 (ram m2) (pa + o) = ld64 (ram m1) (pa + o)) →
      ∃ m3, exec xl k m2 = (BySret, [], m3) ∧ ram m3 = ram m2 ∧ csrs m3 = csrs m2 ∧
        regs m3 tp = regs m2 tp ∧ ∀ r, r ≠ tp → regs m3 r = regs m r.
Proof.
  intros Hr Hm. destruct stack_frame_ok as (Hap & Hfit & _ & Hall). rewrite kernelvec_split, exec_addi.
  change (regs m sp + -256) with (regs m sp - 256). set (m0 := set_reg sp _ m) in *.
  rewrite (exec_saves xl m0 sp pa 256) by done. do 2 eexists. split; [reflexivity|].
  cbn [regs csrs ram set_ram]. split; [done|]. split; [done|].
  split; [intros a Ha; by rewrite (rd_saved_out _ _ _ _ 256)|].
  intros m2 Hsp Hm2 Hkeep. apply (kernelvec_tail xl m2 pa (regs m)); [done| |done|].
  { rewrite Hsp. reflexivity. }
  intros r o Ho. destruct (Hfit (r, o) Ho) as [Ho1 Ho2]. cbn [snd] in *. rewrite Hkeep, ld64_saved with (r := r); [|done| |done|done..].
  { rewrite Hsp. unfold m0. cbn [regs set_reg]. rewrite (decide_True (P := sp = sp)) by done. done. }
  intros x. unfold m0. cbn [regs set_reg]. case_decide; [apply u64_range|apply Hr].
Qed.

(** ** Context switches *)

(** [struct context]: the registers that a function must preserve. *)
Definition context : list (reg * Z) :=
  [(ra, 0); (sp, 8); (s0, 16); (s1, 24); (s2, 32); (s3, 40); (s4, 48); (s5, 56); (s6, 64);
   (s7, 72); (s8, 80); (s9, 88); (s10, 96); (s11, 104)].

Lemma swtch_split : swtch = saves a0 context ++ loads a1 context ++ [Ret].
Proof. reflexivity. Qed.

Lemma context_ok : apart context ∧ fits 112 context ∧ NoDup context.*1 ∧ a0 ∉ context.*1 ∧ a1 ∉ context.*1.
Proof.
  split; [apply apart_aligned; apply (bool_decide_unpack _); vm_compute; exact I|].
  split; [unfold fits; rewrite <-Forall_forall; apply (bool_decide_unpack _); vm_compute; exact I|].
  split_and!; apply (bool_decide_unpack _); vm_compute; exact I.
Qed.

(** A context holds the registers [g]. *)
Definition holds (m : gmap Z Z) (pa : Z) (g : reg → Z) : Prop := ∀ r o, (r, o) ∈ context → ld64 m (pa + o) = g r.

Lemma holds_same m m' pa g :
  holds m pa g → (∀ a, pa ≤ a < pa + 112 → rd m' a = rd m a) → holds m' pa g.
Proof.
  intros Hh Hs r o Ho. rewrite <-(Hh r o Ho). destruct context_ok as (_ & Hfit & _). destruct (Hfit _ Ho). cbn [snd] in *.
  apply ld64_ext. intros a Ha. apply Hs. lia.
Qed.

Lemma swtch_run xl m old new g :
  regs_ok m → mapped xl m a0 old 112 → old + 112 ≤ new ∨ new + 112 ≤ old → holds (ram m) new g →
  (∀ x, (∀ a, a < old ∨ old + 112 ≤ a → rd x a = rd (ram m) a) → mapped xl (set_ram x m) a1 new 112) →
  ∃ m', exec xl swtch m = (ToCaller, [], m') ∧ holds (ram m') old (regs m) ∧
    (∀ r, r ∈ context.*1 → regs m' r = g r) ∧ (∀ r, r ∉ context.*1 → regs m' r = regs m r) ∧ csrs m' = csrs m ∧
    ∀ a, a < old ∨ old + 112 ≤ a → rd (ram m') a = rd (ram m) a.
Proof.
  intros Hr Hold Hdis Hg Hnew. destruct context_ok as (Hap & Hfit & Hnd & H0 & H1). rewrite swtch_split.
  rewrite (exec_saves xl m a0 old 112) by done. set (x := saved (regs m) old context (ram m)).
  assert (∀ a, a < old ∨ old + 112 ≤ a → rd x a = rd (ram m) a) as Hx.
  { intros a Ha. by apply (rd_saved_out _ _ _ _ 112). }
  destruct (exec_loads xl (set_ram x m) a1 new 112 context [Ret] (Hnew x Hx) Hfit Hnd) as (m' & E & E1 & E2 & E3 & E4).
  { intros o Ho. destruct H1. by apply (list_elem_of_fmap_2 fst) in Ho. }
  rewrite E. clear E. exists m'. split; [done|]. rewrite E1. cbn [ram regs csrs set_ram] in *.
  split; [intros r o Ho; by apply ld64_saved|]. split; [|done].
  intros r [[r0 o] [-> Ho]]%list_elem_of_fmap. cbn [fst]. rewrite (E3 _ _ Ho).
  apply (holds_same (ram m) x new g); [done| |done]. intros a Ha. apply Hx. lia.
Qed.

(** [swtch] loads the registers of the context [new] and leaves its own in
    [old]; a thread that switched away and is later switched back to, on any
    hart and from any third context, resumes after its own call of [swtch] with
    the [ra], [sp] and callee-saved registers it had. *)
Theorem swtch_resumes xl m old new g :
  regs_ok m → mapped xl m a0 old 112 → old + 112 ≤ new ∨ new + 112 ≤ old → holds (ram m) new g →
  (∀ x, (∀ a, a < old ∨ old + 112 ≤ a → rd x a = rd (ram m) a) → mapped xl (set_ram x m) a1 new 112) →
  ∃ m1, exec xl swtch m = (ToCaller, [], m1) ∧ (∀ r, r ∈ context.*1 → regs m1 r = g r) ∧
    ∀ m2 other, (∀ a, old ≤ a < old + 112 → rd (ram m2) a = rd (ram m1) a) →
     regs_ok m2 → mapped xl m2 a0 other 112 → other + 112 ≤ old ∨ old + 112 ≤ other →
     (∀ x, (∀ a, a < other ∨ other + 112 ≤ a → rd x a = rd (ram m2) a) → mapped xl (set_ram x m2) a1 old 112) →
     ∃ m3, exec xl swtch m2 = (ToCaller, [], m3) ∧ ∀ r, r ∈ context.*1 → regs m3 r = regs m r.
Proof.
  intros Hr Hold Hdis Hg Hnew. destruct (swtch_run xl m old new g Hr Hold Hdis Hg Hnew) as (m1 & E & Hh & H1 & _).
  exists m1. split; [exact E|]. clear E. split; [exact H1|]. intros m2 other Hs Hr2 Hoth Hdis2 Hold2.
  destruct (swtch_run xl m2 other old (regs m) Hr2 Hoth Hdis2) as (m3 & E3 & _ & H3 & _).
  - by apply (holds_same (ram m1)).
  - exact Hold2.
  - exists m3. split; [exact E3|exact H3].
Qed.

(** ** Timer interrupts *)

(** The parts of [timervec] that set [MTIMECMP] and that restore the registers. *)
Definition timer_add : list instr := [Ld a3 0 a1; Add a3 a3 a2; Sd a3 0 a1; Li a1 2; Csrw sip a1].
Definition timer_back : list instr := loads a0 [(a3, 16); (a2, 8); (a1, 0)] ++ [Csrrw a0 mscratch a0; Mret].

Lemma timervec_split :
  timervec = Csrrw a0 mscratch a0 :: saves a0 [(a1, 0); (a2, 8); (a3, 16)] ++ loads a0 [(a1, 24); (a2, 32)] ++
    timer_add ++ timer_back.
Proof. reflexivity. Qed.

Lemma mapped_bare m b pa n : regs m b = pa → 0 ≤ pa → pa + n ≤ 2 ^ 64 → mapped bare m b pa n.
Proof. intros Hb H1 H2 x o Ho Hn _. unfold bare. rewrite Hb. apply u64_small. lia. Qed.

Lemma exec_csrrw xl d c r k m :
  exec xl (Csrrw d c r :: k) m = exec xl k (set_csr c (regs m r) (set_reg d (csrs m c) m)).
Proof. reflexivity. Qed.
Lemma exec_add xl d r r' k m : exec xl (Add d r r' :: k) m = exec xl k (set_reg d (u64 (regs m r + regs m r')) m).
Proof. reflexivity. Qed.

(** A concrete list of places is in bounds and names no register twice. *)
Ltac places := first [ unfold fits; rewrite <-Forall_forall; apply (bool_decide_unpack _); vm_compute; exact I
                     | apply (bool_decide_unpack _); vm_compute; exact I ].

Lemma timer_add_run m cmp k :
  regs m a1 = cmp → 0 ≤ cmp → cmp + 8 ≤ 2 ^ 64 →
  ∃ m', exec bare (timer_add ++ k) m = exec bare k m' ∧
    ram m' = st64 (ram m) cmp (u64 (ld64 (ram m) cmp + regs m a2)) ∧
    (∀ c, csrs m' c = if decide (c = sip) then 2 else csrs m c) ∧ ∀ r, r ≠ a1 → r ≠ a3 → regs m' r = regs m r.
Proof.
  intros Hcmp H1 H2. unfold timer_add. cbn [app exec]. unfold addr_of, bare. cbn [regs csrs ram set_reg set_ram set_csr].
  rewrite !(decide_False (P := a1 = a3)), !(decide_False (P := a2 = a3)), !(decide_True (P := a3 = a3)) by done.
  rewrite Hcmp, Z.add_0_r, !(u64_small cmp) by lia. eexists. split; [reflexivity|]. cbn [regs csrs ram set_reg set_ram set_csr].
  split; [done|]. split; [by intros c; case_decide|]. intros r Hr1 Hr3. by rewrite !decide_False.
Qed.

Lemma timer_back_run m scratch :
  regs m a0 = scratch → 0 ≤ scratch → scratch + 40 ≤ 2 ^ 64 →
  ∃ m', exec bare timer_back m = (ByMret, [], m') ∧ ram m' = ram m ∧ regs m' a0 = csrs m mscratch ∧
    regs m' a1 = ld64 (ram m) scratch ∧ regs m' a2 = ld64 (ram m) (scratch + 8) ∧ regs m' a3 = ld64 (ram m) (scratch + 16) ∧
    (∀ c, csrs m' c = if decide (c = mscratch) then scratch else csrs m c) ∧
    ∀ r, r ∉ [a0; a1; a2; a3] → regs m' r = regs m r.
Proof.
  intros Hs H1 H2. unfold timer_back.
  destruct (exec_loads bare m a0 scratch 40 [(a3, 16); (a2, 8); (a1, 0)] [Csrrw a0 mscratch a0; Mret]) as (m1 & -> & F1 & F2 & F3 & F4).
  { by apply mapped_bare. } { places. } { places. } { set_solver. }
  rewrite exec_csrrw. eexists. split; [reflexivity|]. cbn [regs csrs ram set_reg set_csr].
  rewrite (decide_True (P := a0 = a0)), !decide_False by done. rewrite (F3 a1 0), (F3 a2 8), (F3 a3 16), Z.add_0_r, F2 by set_solver.
  do 5 (split; [done|]). split.
  - intros c. case_decide; [|done]. rewrite F4 by set_solver. done.
  - intros r Hr. rewrite decide_False by set_solver. apply F4. set_solver.
Qed.

(** [timervec], entered in machine mode, moves the hart's [MTIMECMP] on by
    the interval, raises a supervisor software interrupt and returns with every
    register, [mscratch] included, as it was; of the memory it writes only
    [MTIMECMP] and the three words of its scratch area. *)
Lemma timervec_run m scratch cmp interval :
  regs_ok m → csrs m mscratch = scratch → 0 ≤ scratch → scratch + 40 ≤ 2 ^ 64 → 0 ≤ cmp → cmp + 8 ≤ 2 ^ 64 →
  cmp + 8 ≤ scratch ∨ scratch + 40 ≤ cmp → ld64 (ram m) (scratch + 24) = cmp → ld64 (ram m) (scratch + 32) = interval →
  ∃ m', exec bare timervec m = (ByMret, [], m') ∧ (∀ r, regs m' r = regs m r) ∧
    (∀ c, csrs m' c = if decide (c = sip) then 2 else csrs m c) ∧
    ld64 (ram m') cmp = u64 (ld64 (ram m) cmp + interval) ∧
    ∀ a, (a < cmp ∨ cmp + 8 ≤ a) → (a < scratch ∨ scratch + 24 ≤ a) → rd (ram m') a = rd (ram m) a.
Proof.
  intros Hr Hsc H1 H2 H3 H4 Hd Hcmp Hiv. pose proof (Hr a1) as Ha1. pose proof (Hr a2) as Ha2. pose proof (Hr a3) as Ha3.
  rewrite timervec_split, exec_csrrw. set (m0 := set_csr _ _ _).
  rewrite (exec_saves bare m0 a0 scratch 40); [|by apply mapped_bare|places].
  assert (saved (regs m0) scratch [(a1, 0); (a2, 8); (a3, 16)] (ram m0) =
    st64 (st64 (st64 (ram m) scratch (regs m a1)) (scratch + 8) (regs m a2)) (scratch + 16) (regs m a3)) as ->.
  { unfold saved. simpl. by rewrite Z.add_0_r. }
  set (x1 := st64 _ (scratch + 16) (regs m a3)).
  destruct (exec_loads bare (set_ram x1 m0) a0 scratch 40 [(a1, 24); (a2, 32)] (timer_add ++ timer_back)) as (m1 & -> & F1 & F2 & F3 & F4).
  { by apply mapped_bare. } { places. } { places. } { set_solver. }
  change (ram (set_ram x1 m0)) with x1 in *.
  assert (∀ b, scratch + 24 ≤ b ∨ b + 8 ≤ scratch → ld64 x1 b = ld64 (ram m) b) as Hx1.
  { intros b Hb. unfold x1. by rewrite !ld64_st64_other by lia. }
  destruct (timer_add_run m1 cmp timer_back) as (m2 & -> & G1 & G2 & G3); [by rewrite (F3 a1 24), Hx1 by (lia || set_solver)|done..|].
  rewrite F1, (F3 a2 32), (Hx1 cmp), (Hx1 (scratch + 32)), Hiv in G1 by (lia || set_solver).
  destruct (timer_back_run m2 scratch) as (m3 & -> & I1 & I2 & I3 & I4 & I5 & I6 & I7); [|done..|].
  { rewrite G3, F4 by (done || set_solver). done. }
  exists m3. split; [done|]. rewrite I1, G1 in *. clear F3 G1 I1.
  rewrite ld64_st64_other in I3, I4, I5 by lia. unfold x1 in *. rewrite ld64_st64_same in I5 by done.
  rewrite ld64_st64_other, ld64_st64_same in I4 by (done || lia).
  rewrite !ld64_st64_other, ld64_st64_same in I3 by (done || lia).
  split; [|split; [|split; [apply ld64_st64_same, u64_range|intros a Hc Ha; by rewrite !rd_st64_out by lia]]].
  - intros r. destruct (decide (r ∈ [a0; a1; a2; a3])) as [Hin|Hin].
    + rewrite !elem_of_cons in Hin. destruct Hin as [->|[->|[->|[->|Hn%not_elem_of_nil]]]]; try done.
      rewrite I2, G2, F2, decide_False by done. reflexivity.
    + rewrite I7, G3, F4 by set_solver. cbn [regs set_ram set_csr set_reg m0]. rewrite decide_False by set_solver. done.
  - intros c. rewrite I6, G2, F2. cbn [csrs set_ram set_csr set_reg m0]. by repeat case_decide; subst.
Qed.

(** ** A hart in a process *)

(** A page table at [0x87000000] with a trap frame at [0x87003000], whose
    kernel words name a handler, a stack and a kernel page table; every
    register holds 7. *)
Definition demo_ram : gmap Z Z :=
  st64 (st64 (st64 (st64 (st64 (st64 ∅ (0x87000000 + 8 * PX 2 TRAPFRAME) (mkpte 0x87001000 0))
    (0x87001000 + 8 * PX 1 TRAPFRAME) (mkpte 0x87002000 0))
    (0x87002000 + 8 * PX 0 TRAPFRAME) (mkpte 0x87003000 (Z.lor PTE_R PTE_W)))
    0x87003000 (MAKE_SATP 0x87004000)) 0x87003008 0x87006000) 0x87003010 0x80001234.
Definition demo : machine :=
  Machine (λ _, 7) (λ c, if decide (c = satp) then MAKE_SATP 0x87000000 else 0) demo_ram.

Lemma demo_regs : regs_ok demo.
Proof. intros r. simpl. lia. Qed.

Lemma demo_frame : frame_at (ram demo) (csrs demo satp) 0x87003000.
Proof.
  intros x o Ho Hx. change (csrs demo satp) with (MAKE_SATP 0x87000000). change (ram demo) with demo_ram in Hx.
  assert (∀ a, a + 8 ≤ 0x87003000 → ld64 x a = ld64 demo_ram a) as Hl.
  { intros a Ha. apply ld64_ext. intros b Hb. apply Hx. unfold in_page. lia. }
  unfold sv39. change (Z.shiftr _ 60 =? 0) with false. cbv iota. change (Z.shiftl _ 12) with 0x87000000.
  rewrite (leaf_page _ _ _ TRAPFRAME) by (by rewrite (PGROUNDDOWN_in TRAPFRAME), (PGROUNDDOWN_aligned TRAPFRAME) by (done || lia)).
  assert (leaf x 0x87000000 TRAPFRAME = mkpte 0x87003000 (Z.lor PTE_R PTE_W)) as ->.
  { unfold leaf, leaf_from. cbn [pte_addr]. unfold pte_at.
    rewrite Hl by (vm_compute; discriminate). change (ld64 demo_ram (_ + 8 * PX (Z.of_nat 2) _)) with (mkpte 0x87001000 0).
    change (PTE2PA (mkpte 0x87001000 0)) with 0x87001000. change (pte_valid (mkpte 0x87001000 0)) with true. cbv iota.
    rewrite Hl by (vm_compute; discriminate). change (ld64 demo_ram (_ + 8 * PX (Z.of_nat 1) _)) with (mkpte 0x87002000 0).
    change (PTE2PA (mkpte 0x87002000 0)) with 0x87002000. change (pte_valid (mkpte 0x87002000 0)) with true. cbv iota.
    rewrite Hl by (vm_compute; discriminate). reflexivity. }
  change (PTE2PA _) with 0x87003000. f_equal.
  rewrite <-Zplus_mod_idemp_l. change (TRAPFRAME mod PGSIZE) with 0. apply Z.mod_small. done.
Qed.

(** The kernel answers 5 and returns; the process sees its registers. *)
Lemma trap_roundtrip_witness : ∃ m1 m3,
  exec sv39 uservec demo = (ToAddr 0x80001234, [], m1) ∧ regs m1 sp = 0x87006000 ∧
  exec sv39 userret (set_ram (st64 (ram m1) 0x87003070 5) (set_reg a0 (MAKE_SATP 0x87000000) m1)) = (BySret, [], m3) ∧
  regs m3 a0 = 5 ∧ regs m3 s1 = 7.
Proof.
  destruct (trap_roundtrip demo 0x87003000 demo_regs demo_frame) as (m1 & E & Hsp & _ & _ & _ & Hout & Hback).
  destruct (Hback (set_ram (st64 (ram m1) 0x87003070 5) (set_reg a0 (MAKE_SATP 0x87000000) m1)) 5) as (m3 & E3 & _ & _ & H0 & Hr).
  - reflexivity.
  - apply (frame_at_same (ram demo)); [exact demo_frame|]. intros a Ha. unfold in_page in Ha. cbn [ram set_ram].
    rewrite rd_st64_out by lia. apply Hout. lia.
  - intros o Ho Hal. cbn [ram set_ram]. destruct (Z.eqb_spec o 112) as [->|Hne]; [by apply ld64_st64_same|].
    apply ld64_st64_other. pose proof (Z.div_mod o 8). lia.
  - exists m1, m3. split; [exact E|]. split; [exact Hsp|]. split; [exact E3|]. split; [exact H0|]. by apply Hr.
Defined.

(** An interrupt while the stack pointer is 256 bytes into a mapped page; the
    kernel comes back on hart 3. *)
Lemma kernelvec_restores_witness :
  let m := set_reg sp (TRAPFRAME + 256) demo in
  ∃ k m1 m3, exec sv39 kernelvec m = (ToFun "kerneltrap", k, m1) ∧
    exec sv39 k (set_reg tp 3 (set_reg a0 99 m1)) = (BySret, [], m3) ∧ regs m3 sp = TRAPFRAME + 256 ∧ regs m3 a0 = 7 ∧ regs m3 tp = 3.
Proof.
  intros m. destruct (kernelvec_restores sv39 m 0x87003000) as (k & m1 & E & Hr & Hc & Hout & Hback).
  - intros r. unfold m. cbn [regs set_reg]. case_decide; [by vm_compute|apply demo_regs].
  - apply (mapped_less _ _ _ _ PGSIZE); [|done]. by apply frame_mapped; [apply demo_frame|].
  - destruct (Hback (set_reg tp 3 (set_reg a0 99 m1))) as (m3 & E3 & _ & _ & H3 & Hall); [done| |done|].
    + apply (mapped_less _ _ _ _ PGSIZE); [|done]. apply frame_mapped; [|by cbn [regs set_reg]; rewrite Hr].
      cbn [ram csrs set_reg]. rewrite Hc. apply (frame_at_same (ram demo)); [apply demo_frame|].
      intros a Ha. unfold in_page in Ha. apply Hout. lia.
    + exists k, m1, m3. split; [exact E|]. split; [exact E3|]. split; [by rewrite Hall|]. split; [by rewrite Hall|exact H3].
Defined.

Definition kdemo : machine :=
  Machine (λ r, if decide (r = a0) then 0x80010000 else if decide (r = a1) then 0x80020000 else 7) (λ _, 0) ∅.

Lemma kdemo_regs : regs_ok kdemo.
Proof. intros r. simpl. repeat case_decide; lia. Qed.

Lemma context_sp : sp ∈ context.*1.
Proof. right. left. Qed.

(** Two threads switch to each other. *)
Lemma swtch_resumes_witness : ∃ m1 m3,
  exec bare swtch kdemo = (ToCaller, [], m1) ∧ regs m1 sp = 0 ∧
  exec bare swtch (set_ram (ram m1) (set_reg a0 0x80020000 (set_reg a1 0x80010000 kdemo))) = (ToCaller, [], m3) ∧
  regs m3 sp = 7.
Proof.
  destruct (swtch_resumes bare kdemo 0x80010000 0x80020000 (λ _, 0)) as (m1 & E & H1 & Hback).
  - exact kdemo_regs.
  - by apply mapped_bare.
  - lia.
  - intros r o _. done.
  - intros x _. by apply mapped_bare.
  - destruct (Hback (set_ram (ram m1) (set_reg a0 0x80020000 (set_reg a1 0x80010000 kdemo))) 0x80020000) as (m3 & E3 & H3).
    + done.
    + intros r. simpl. repeat case_decide; lia.
    + by apply mapped_bare.
    + lia.
    + intros x _. by apply mapped_bare.
    + exists m1, m3. split; [exact E|]. split; [exact (H1 sp context_sp)|]. split; [exact E3|exact (H3 sp context_sp)].
Defined.
