(* ===== verification/Start.v ===== *)
(** * The start of a hart: [entry.S] and [start.c]

    [start] and [timerinit] as functions on the machine of [Asm]: they set the
    machine-mode registers and the timer's scratch area.  The theorem runs
    [_entry], [start] and, at any later time, [timervec]. *)

From S2P Require Import Prelude Riscv Memory Kalloc Vm Asm.

(** ** [riscv.h] and [memlayout.h] *)

Definition MSTATUS_MPP_MASK : Z := Z.shiftl 3 11.
Definition MSTATUS_MPP_S : Z := Z.shiftl 1 11.
Definition MSTATUS_MIE : Z := Z.shiftl 1 3.
Definition SIE_SEIE : Z := Z.shiftl 1 9.
Definition SIE_STIE : Z := Z.shiftl 1 5.
Definition SIE_SSIE : Z := Z.shiftl 1 1.
Definition MIE_MTIE : Z := Z.shiftl 1 7.
Definition CLINT : Z := 0x2000000.
Definition CLINT_MTIMECMP (hartid : Z) : Z := CLINT + 0x4000 + 8 * hartid.
Definition CLINT_MTIME : Z := CLINT + 0xBFF8.

Section start.
  (** The addresses of [main], [timer_scratch] and [timervec]. *)
  Variables main timer_scratch timervec_at : Z.

Definition store (a v : Z) (m : machine) : machine := set_ram (st64 (ram m) a v) m.

Definition timerinit (m : machine) : machine :=
  let id := s32 (csrs m mhartid) in
  let interval := 1000000 in
  let m := store (CLINT_MTIMECMP id) (u64 (ld64 (ram m) CLINT_MTIME + interval)) m in
  let scratch := timer_scratch + 40 * id in
  let m := store (scratch + 24) (CLINT_MTIMECMP id) m in
  let m := store (scratch + 32) interval m in
  let m := set_csr mscratch scratch m in
  let m := set_csr mtvec timervec_at m in
  let m := set_csr mstatus (Z.lor (csrs m mstatus) MSTATUS_MIE) m in
  set_csr mie (Z.lor (csrs m mie) MIE_MTIE) m.

(** [start], up to its [mret]. *)
Definition start (m : machine) : machine :=
  let x := csrs m mstatus in
  let x := Z.land x (Z.lnot MSTATUS_MPP_MASK) in
  let x := Z.lor x MSTATUS_MPP_S in
  let m := set_csr mstatus x m in
  let m := set_csr mepc main m in
  let m := set_csr satp 0 m in
  let m := set_csr medeleg 0xffff m in
  let m := set_csr mideleg 0xffff m in
  let m := set_csr sie (Z.lor (Z.lor (Z.lor (csrs m sie) SIE_SEIE) SIE_STIE) SIE_SSIE) m in
  let m := set_csr pmpaddr0 0x3fffffffffffff m in
  let m := set_csr pmpcfg0 0xf m in
  let m := timerinit m in
  let id := s32 (csrs m mhartid) in
  set_reg tp (u64 id) m.
End start.

(** ** Proofs *)

Lemma entry_run stack0 m id :
  csrs m mhartid = id → 0 ≤ id < NCPU → 0 ≤ stack0 → stack0 + 4096 * NCPU < 2 ^ 64 →
  ∃ m1, exec bare (entry stack0) m = (ToFun "start", [], m1) ∧ regs m1 sp = stack0 + 4096 * (id + 1) ∧
    csrs m1 = csrs m ∧ ram m1 = ram m.
Proof.
  intros Hid Hr H1 H2. unfold NCPU in *. unfold entry. cbn [exec]. eexists. split; [reflexivity|].
  cbn [regs csrs ram set_reg]. split; [|done].
  repeat first [rewrite decide_True by reflexivity | rewrite decide_False by discriminate]. rewrite Hid. cbn [csrs set_reg].
  rewrite (u64_small (id + 1)), (u64_small stack0), (u64_small (1024 * 4)), (u64_small (1024 * 4 * _)), u64_small by lia. lia.
Qed.

Lemma MPP_set x : Z.land (Z.lor (Z.lor (Z.land x (Z.lnot MSTATUS_MPP_MASK)) MSTATUS_MPP_S) MSTATUS_MIE) MSTATUS_MPP_MASK = MSTATUS_MPP_S.
Proof.
  rewrite !Z.land_lor_distr_l, <-Z.land_assoc, (Z.land_comm (Z.lnot _)), Z.land_lnot_diag, Z.land_0_r. reflexivity.
Qed.

Lemma MPP_other x j : 0 ≤ j → j ≠ 3 → j ≠ 11 → j ≠ 12 →
  Z.testbit (Z.lor (Z.lor (Z.land x (Z.lnot MSTATUS_MPP_MASK)) MSTATUS_MPP_S) MSTATUS_MIE) j = Z.testbit x j.
Proof.
  intros Hj H1 H2 H3. assert (∀ k, j ≠ k → 0 ≤ k → Z.testbit (Z.shiftl 1 k) j = false) as H.
  { intros k Hk Hk'. rewrite Z.shiftl_1_l. apply Z.pow2_bits_false. congruence. }
  unfold MSTATUS_MPP_MASK, MSTATUS_MPP_S, MSTATUS_MIE. change (Z.shiftl 3 11) with (Z.lor (Z.shiftl 1 11) (Z.shiftl 1 12)).
  rewrite !Z.lor_spec, Z.land_spec, Z.lnot_spec, Z.lor_spec, !H by lia. simpl. by rewrite andb_true_r, !orb_false_r.
Qed.

(** What [start] leaves for [timervec]. *)
Lemma timerinit_scratch ts tv m id :
  csrs m mhartid = id → 0 ≤ id < NCPU → CLINT + 0x10000 ≤ ts → ts + 40 * NCPU ≤ 2 ^ 64 →
  csrs (timerinit ts tv m) mscratch = ts + 40 * id ∧
  ld64 (ram (timerinit ts tv m)) (ts + 40 * id + 24) = CLINT_MTIMECMP id ∧ ld64 (ram (timerinit ts tv m)) (ts + 40 * id + 32) = 1000000 ∧
  ld64 (ram (timerinit ts tv m)) (CLINT_MTIMECMP id) = u64 (ld64 (ram m) CLINT_MTIME + 1000000).
Proof.
  intros Hid Hr H1 H2. unfold timerinit, store, NCPU in *. rewrite Hid, s32_small by lia.
  unfold CLINT_MTIMECMP, CLINT in *. cbn [ram csrs set_ram set_csr]. split; [done|].
  rewrite ld64_st64_other, !ld64_st64_same by lia. split; [done|]. split; [done|].
  rewrite !ld64_st64_other by lia. apply ld64_st64_same, u64_range.
Qed.

(** The privilege and protection that [start] leaves for its [mret]; [m] is the
    machine before. *)
Definition supervisor_ready (main : Z) (m m2 : machine) : Prop :=
  csrs m2 mepc = main ∧ csrs m2 satp = 0 ∧ csrs m2 medeleg = 0xffff ∧ csrs m2 mideleg = 0xffff ∧
  csrs m2 pmpaddr0 = 0x3fffffffffffff ∧ csrs m2 pmpcfg0 = 0xf ∧
  Z.land (csrs m2 mstatus) MSTATUS_MPP_MASK = MSTATUS_MPP_S ∧ Z.testbit (csrs m2 mstatus) 3 = true ∧
  (∀ j, 0 ≤ j → j ≠ 3 → j ≠ 11 → j ≠ 12 → Z.testbit (csrs m2 mstatus) j = Z.testbit (csrs m mstatus) j) ∧
  csrs m2 sie = Z.lor (Z.lor (Z.lor (csrs m sie) SIE_SEIE) SIE_STIE) SIE_SSIE.

(** What [timervec] needs of hart [id]. *)
Definition timer_kept (ts id : Z) (m2 m : machine) : Prop :=
  csrs m mscratch = csrs m2 mscratch ∧
  ∀ a, ts + 40 * id + 24 ≤ a < ts + 40 * id + 40 → rd (ram m) a = rd (ram m2) a.

Lemma start_ready main ts tv m : supervisor_ready main m (start main ts tv m).
Proof.
  unfold supervisor_ready. do 6 (split; [reflexivity|]). split; [apply MPP_set|]. split; [|split; [|reflexivity]].
  - change (csrs (start main ts tv m) mstatus) with (Z.lor (Z.lor (Z.land (csrs m mstatus) (Z.lnot MSTATUS_MPP_MASK)) MSTATUS_MPP_S) MSTATUS_MIE).
    rewrite Z.lor_spec. apply orb_true_r.
  - intros j. apply MPP_other.
Qed.

(** C39: Every hart starts with a stack of its own and a clock.  [_entry] gives
    hart [id] the 4096 bytes that end at [stack0 + 4096 * (id + 1)] (the
    comment in [entry.S] says [stack0 + (hartid * 4096)]).  [start] leaves for its
    [mret] to [main] in supervisor mode without paging, with [tp] the hart's id,
    traps delegated, memory protection open on all addresses, the three
    supervisor interrupts and the machine timer interrupt enabled, the other
    bits of [mstatus] as they were, and the first timer interrupt 1000000 cycles
    ahead.  At any later time, as long as the kernel keeps [mscratch] and the
    last two words of the hart's scratch area, a machine-mode timer interrupt
    moves the hart's [MTIMECMP] on by 1000000 cycles, raises a supervisor
    software interrupt, gives back every general register and every other
    control register, [mscratch] among them, and changes no other memory but
    the first three words of the scratch area: the next one works as well. *)
Theorem start_boots main ts tv stack0 m id :
  csrs m mhartid = id → 0 ≤ id < NCPU → 0 ≤ stack0 → stack0 + 4096 * NCPU < 2 ^ 64 →
  CLINT + 0x10000 ≤ ts → ts + 40 * NCPU ≤ 2 ^ 64 →
  ∃ m1, exec bare (entry stack0) m = (ToFun "start", [], m1) ∧ regs m1 sp = stack0 + 4096 * (id + 1) ∧
    let m2 := start main ts tv m1 in
    regs m2 tp = id ∧ regs m2 sp = regs m1 sp ∧ supervisor_ready main m m2 ∧
    csrs m2 mtvec = tv ∧ csrs m2 mie = Z.lor (csrs m mie) MIE_MTIE ∧ csrs m2 mscratch = ts + 40 * id ∧
    ld64 (ram m2) (CLINT_MTIMECMP id) = u64 (ld64 (ram m) CLINT_MTIME + 1000000) ∧
    ∀ m3, regs_ok m3 → timer_kept ts id m2 m3 →
      ∃ m4, exec bare timervec m3 = (ByMret, [], m4) ∧ (∀ r, regs m4 r = regs m3 r) ∧
        (∀ c, csrs m4 c = if decide (c = sip) then 2 else csrs m3 c) ∧
        ld64 (ram m4) (CLINT_MTIMECMP id) = u64 (ld64 (ram m3) (CLINT_MTIMECMP id) + 1000000) ∧
        (∀ a, a < CLINT_MTIMECMP id ∨ CLINT_MTIMECMP id + 8 ≤ a → a < ts + 40 * id ∨ ts + 40 * id + 24 ≤ a →
          rd (ram m4) a = rd (ram m3) a) ∧
        timer_kept ts id m2 m4.
Proof.
  intros Hid Hr H1 H2 H3 H4. destruct (entry_run stack0 m id) as (m1 & E & Hsp & Hc & Hm); [done..|].
  exists m1. split; [exact E|]. split; [exact Hsp|]. clear E. intros m2.
  assert (∃ m0, csrs m0 mhartid = id ∧ ram m0 = ram m1 ∧ ram m2 = ram (timerinit ts tv m0) ∧
    csrs m2 mscratch = csrs (timerinit ts tv m0) mscratch) as (m0 & Hm0 & Hr0 & Hram & Hscr).
  { eexists. split; [|split; [|split; reflexivity]]; cbn [csrs ram set_csr]; [by rewrite Hc|done]. }
  assert (regs m2 tp = id) as Htp.
  { change (regs m2 tp) with (u64 (s32 (csrs m1 mhartid))). rewrite Hc, Hid, s32_small by (unfold NCPU in *; lia).
    apply u64_small. unfold NCPU in *. lia. }
  destruct (timerinit_scratch ts tv m0 id) as (T1 & T2 & T3 & T4); [done..|].
  assert (CLINT_MTIMECMP id + 8 ≤ ts + 40 * id ∧ 0 ≤ CLINT_MTIMECMP id) as [Hcmp Hcmp0]
    by (unfold CLINT_MTIMECMP, CLINT, NCPU in *; lia).
  pose proof (start_ready main ts tv m1) as Hrd. unfold supervisor_ready in Hrd. rewrite Hc in Hrd.
  split; [exact Htp|]. split; [reflexivity|]. split; [exact Hrd|]. split; [reflexivity|].
  split; [by rewrite <-Hc|]. split; [by rewrite Hscr|]. split; [by rewrite Hram, T4, Hr0, Hm|].
  intros m3 Hok [Hms Hsame].
  destruct (timervec_run m3 (ts + 40 * id) (CLINT_MTIMECMP id) 1000000) as (m4 & E & R1 & R2 & R3 & R4);
    try (unfold CLINT, NCPU in *; lia).
  - done.
  - rewrite <-T2, <-Hram. apply ld64_ext. intros a Ha. apply Hsame. lia.
  - rewrite <-T3, <-Hram. apply ld64_ext. intros a Ha. apply Hsame. lia.
  - exists m4. do 4 (split; [done|]). split; [done|]. split; [by rewrite R2|]. intros a Ha. rewrite R4 by lia. by apply Hsame.
Qed.

(** Hart 2 starts; two interrupts after [start], with other registers, both
    work. *)
Lemma start_boots_witness :
  let m := Machine (λ _, 0) (λ c, if decide (c = mhartid) then 2 else 0) ∅ in
  let boot := start 0x80001000 0x80010000 0x80005000 in
  ∃ m1 m4 m5, exec bare (entry 0x80008000) m = (ToFun "start", [], m1) ∧ regs m1 sp = 0x8000b000 ∧
    csrs (boot m1) pmpcfg0 = 0xf ∧
    exec bare timervec (Machine (λ _, 7) (csrs (boot m1)) (ram (boot m1))) = (ByMret, [], m4) ∧ regs m4 a3 = 7 ∧ csrs m4 sip = 2 ∧
    exec bare timervec m4 = (ByMret, [], m5) ∧ ld64 (ram m5) (CLINT_MTIMECMP 2) = 3000000.
Proof.
  intros m boot. destruct (start_boots 0x80001000 0x80010000 0x80005000 0x80008000 m 2)
    as (m1 & E & Hsp & Htp & _ & (_ & _ & _ & _ & _ & Hpmp & _) & _ & _ & _ & Hcmp & Htick); try reflexivity; try (unfold NCPU, CLINT; lia).
  fold boot in Hcmp, Htick, Hpmp. set (m2 := boot m1) in *.
  destruct (Htick (Machine (λ _, 7) (csrs m2) (ram m2))) as (m4 & E4 & R & Hs & Hc4 & _ & Hk).
  - intros r. simpl. lia.
  - split; reflexivity.
  - destruct (Htick m4) as (m5 & E5 & _ & _ & Hc5 & _); [intros r; rewrite R; simpl; lia|exact Hk|].
    exists m1, m4, m5. split; [exact E|]. split; [exact Hsp|]. split; [exact Hpmp|]. split; [exact E4|]. split; [exact (R a3)|].
    split; [rewrite Hs; reflexivity|]. split; [exact E5|]. rewrite Hc5, Hc4. cbn [ram]. rewrite Hcmp. reflexivity.
Defined.
