(* ===== verification/User.v ===== *)
(** * User programs: system calls and [user/ulib.c]

    The system calls as a program that reads and writes files sees them, with
    the sizes of short reads and the failures of writes left open, and the
    routines of the user library. *)

From S2P Require Import Prelude Riscv Memory.

Definition NL : Z := 10.

(** The bytes of a string constant. *)
Definition chars (s : string) : list Z :=
  (λ a, Z.of_N (Ascii.N_of_ascii a)) <$> String.list_ascii_of_string s.

(** A string constant that ends in a newline. *)
Definition line (s : string) : list Z := chars s ++ [NL].

(** ** The process and its environment *)

(** The files by their paths, the bytes ahead of each descriptor, how many
    bytes less than it could each read returns, which writes fail, and the
    writes so far. *)
Record env : Type := Env {
  disk : gmap (list Z) (list Z);
  fds : gmap Z (list Z);
  shorts : list nat;
  fails : list bool;
  outs : list (Z * list Z)
}.

Inductive outcome (A : Type) : Type := Ret (a : A) | Exited (status : Z) | Stuck.
Arguments Ret {A} _.
Arguments Exited {A} _.
Arguments Stuck {A}.

Definition U (A : Type) : Type := env → outcome A * env.

#[global] Instance U_ret : MRet U := λ A a e, (Ret a, e).
#[global] Instance U_bind : MBind U := λ A B k m e,
  match m e with
  | (Ret a, e) => k a e
  | (Exited s, e) => (Exited s, e)
  | (Stuck, e) => (Stuck, e)
  end.

Definition exit {A} (status : Z) : U A := λ e, (Exited status, e).
Definition stuck {A} : U A := λ e, (Stuck, e).

(** [read] returns at least a byte if there is one and one is asked for;
    [None] is -1. *)
Definition read (fd : Z) (n : nat) : U (option (list Z)) := λ e,
  match fds e !! fd with
  | None => (Ret None, e)
  | Some l =>
      let most := Nat.min n (length l) in
      let k := if (most =? 0)%nat then 0%nat else (most - hd 0%nat (shorts e) `mod` most)%nat in
      (Ret (Some (take k l)), Env (disk e) (<[fd := drop k l]> (fds e)) (tl (shorts e)) (fails e) (outs e))
  end.

Definition write (fd : Z) (l : list Z) : U Z := λ e,
  if hd false (fails e) then (Ret (-1), Env (disk e) (fds e) (shorts e) (tl (fails e)) (outs e))
  else (Ret (Z.of_nat (length l)), Env (disk e) (fds e) (shorts e) (tl (fails e)) (outs e ++ [(fd, l)])).

(** The lowest descriptor that is free. *)
Fixpoint free_fd {V} (k : nat) (fd : Z) (t : gmap Z V) : option Z :=
  match k with
  | O => None
  | S k => match t !! fd with None => Some fd | Some _ => free_fd k (fd + 1) t end
  end.

(** [open] of a file for reading. *)
Definition open (path : list Z) : U Z := λ e,
  match disk e !! path, free_fd (Z.to_nat NOFILE) 0 (fds e) with
  | Some l, Some fd => (Ret fd, Env (disk e) (<[fd := l]> (fds e)) (shorts e) (fails e) (outs e))
  | _, _ => (Ret (-1), e)
  end.

Definition close (fd : Z) : U unit := λ e,
  (Ret tt, Env (disk e) (delete fd (fds e)) (shorts e) (fails e) (outs e)).

(** ** [ulib.c]: strings

    A [char *] is the list of bytes from where it points; [None] is an access
    after the end of the list. *)

Fixpoint strcpy (t : list Z) : option (list Z) :=
  match t with
  | [] => None
  | c :: t => if truthy c then l ← strcpy t; Some (c :: l) else Some [0]
  end.

Fixpoint strcmp (p q : list Z) : option Z :=
  match p, q with
  | a :: p, b :: q => if truthy a && (a =? b) then strcmp p q else Some (a - b)
  | _, _ => None
  end.

Fixpoint strlen (s : list Z) : option Z :=
  match s with
  | [] => None
  | c :: s => if truthy c then n ← strlen s; Some (n + 1) else Some 0
  end.

(** The offset of [c]; [Some None] is the null pointer. *)
Fixpoint strchr (s : list Z) (c : Z) : option (option nat) :=
  match s with
  | [] => None
  | x :: s =>
      if truthy x then
        if x =? c then Some (Some 0%nat)
        else match strchr s c with Some r => Some (S <$> r) | None => None end
      else Some None
  end.

(** The string that starts the list. *)
Fixpoint cstr (s : list Z) : list Z :=
  match s with [] => [] | x :: s' => if x =? 0 then [] else x :: cstr s' end.

(** [strchr] of a constant. *)
Definition in_chars (s : string) (c : Z) : bool :=
  match strchr (chars s ++ [0]) c with Some (Some _) => true | _ => false end.

(** The sum [n*10 + *s] must be an [int]. *)
Fixpoint atoi_loop (s : list Z) (n : Z) : option Z :=
  match s with
  | [] => None
  | c :: s =>
      if (48 <=? c) && (c <=? 57) then
        if n * 10 + c <? 2 ^ 31 then atoi_loop s (n * 10 + c - 48) else None
      else Some n
  end.
Definition atoi (s : list Z) : option Z := atoi_loop s 0.

(** The bytes that [gets] stores. *)
Fixpoint gets_loop (fuel : nat) (i max : Z) (buf : list Z) : U (list Z) :=
  match fuel with
  | O => stuck
  | S fuel =>
      if i + 1 <? max then
        cc ← read 0 1;
        match cc with
        | Some [c] =>
            if (c =? 10) || (c =? 13) then mret (buf ++ [c])
            else gets_loop fuel (i + 1) max (buf ++ [c])
        | _ => mret buf
        end
      else mret buf
  end.
Definition gets (max : Z) : U (list Z) :=
  l ← gets_loop (S (Z.to_nat max)) 0 max [];
  mret (l ++ [0]).

(** ** [ulib.c]: memory

    The loops are those of the kernel's [string.c]. *)

Definition memset (m : gmap Z Z) (dst c n : Z) : gmap Z Z := memset_loop (Z.to_nat n) m dst 0 c.

Definition memmove (m : gmap Z Z) (dst src n : Z) : gmap Z Z :=
  if dst <? src then memmove_up (Z.to_nat n) m dst src
  else memmove_down (Z.to_nat n) m (dst + n) (src + n).

Definition memcmp (m : gmap Z Z) (s1 s2 n : Z) : Z := memcmp_loop (Z.to_nat n) m s1 s2.

Definition memcpy (m : gmap Z Z) (dst src n : Z) : gmap Z Z := memmove m dst src n.

(** ** Lemmas on the system calls *)

Definition no_failures (e : env) : Prop := fails e = [].

(** What was written to a descriptor. *)
Definition written (fd : Z) (e : env) : list Z := concat ((filter (λ w, w.1 = fd) (outs e)).*2).

Lemma read_run fd n l e : fds e !! fd = Some l →
  ∃ a b e', read fd n e = (Ret (Some a), e') ∧ l = a ++ b ∧ fds e' = <[fd := b]> (fds e) ∧
    disk e' = disk e ∧ outs e' = outs e ∧ fails e' = fails e ∧ (length a ≤ n)%nat ∧ (a = [] → n = 0%nat ∨ l = []).
Proof.
  intros Hl. unfold read. rewrite Hl. set (most := Nat.min n (length l)). do 3 eexists. split; [reflexivity|]. simpl.
  split; [by rewrite take_drop|]. do 4 (split; [done|]). rewrite length_take. destruct (Nat.eqb_spec most 0) as [E|E].
  - split; [lia|]. intros _. destruct n; [by left|]. right. apply length_zero_iff_nil. lia.
  - pose proof (Nat.mod_upper_bound (hd 0%nat (shorts e)) most E). split; [lia|].
    intros Ha%(f_equal length). rewrite length_take in Ha. simpl in Ha. lia.
Qed.

(** A write that succeeds. *)
Definition wrote (fd : Z) (l : list Z) (e : env) : env :=
  Env (disk e) (fds e) (shorts e) (fails e) (outs e ++ [(fd, l)]).

Lemma write_run fd l e : no_failures e → write fd l e = (Ret (Z.of_nat (length l)), wrote fd l e).
Proof. unfold no_failures, write, wrote. intros ->. done. Qed.

Lemma written_wrote fd fd' l e : written fd (wrote fd' l e) = written fd e ++ (if decide (fd' = fd) then l else []).
Proof.
  unfold written, wrote. simpl. rewrite filter_app, fmap_app, concat_app. f_equal. rewrite filter_cons. simpl.
  case_decide; simpl; [by rewrite app_nil_r|done].
Qed.

(** ** The library *)

Lemma strchr_none l c s : c ≠ 0 → c ∉ l → 0 ∉ l → strchr (l ++ 0 :: s) c = Some None.
Proof.
  intros Hc. induction l as [|x l IH]; [done|]. rewrite !not_elem_of_cons. intros [H1 H2] [H3 H4]. simpl.
  unfold truthy. if_true. if_false. by rewrite IH.
Qed.

Lemma strchr_some l c s : c ≠ 0 → c ∉ l → 0 ∉ l → strchr (l ++ c :: s) c = Some (Some (length l)).
Proof.
  intros Hc. induction l as [|x l IH]; [simpl; intros _ _; unfold truthy; if_true; by if_true|].
  rewrite !not_elem_of_cons. intros [H1 H2] [H3 H4]. simpl. unfold truthy. if_true. if_false. by rewrite IH.
Qed.

Lemma strchr_mem l c : 0 ∉ l → match strchr (l ++ [0]) c with Some (Some _) => true | _ => false end = bool_decide (c ∈ l).
Proof.
  induction l as [|x l IH]; [done|]. rewrite not_elem_of_cons. intros [H1 H2]. simpl. unfold truthy. if_true.
  destruct (Z.eqb_spec x c) as [->|Hx]; [symmetry; apply bool_decide_eq_true; by left|]. specialize (IH H2).
  transitivity (bool_decide (c ∈ l)); [rewrite <-IH; by destruct (strchr _ _) as [[]|]|].
  apply bool_decide_ext. rewrite elem_of_cons. split; [by right|]. by intros [->|].
Qed.

Lemma cstr_app l s : 0 ∉ l → cstr (l ++ 0 :: s) = l.
Proof. induction l as [|x l IH]; [done|]. rewrite not_elem_of_cons. intros [H1 H2]. simpl. if_false. by rewrite IH. Qed.

Lemma strlen_run l s : 0 ∉ l → strlen (l ++ 0 :: s) = Some (Z.of_nat (length l)).
Proof.
  induction l as [|x l IH]; [done|]. rewrite not_elem_of_cons. intros [H1 H2]. simpl. unfold truthy. if_true.
  rewrite IH by done. simpl. f_equal. lia.
Qed.

Lemma strcpy_run l s : 0 ∉ l → strcpy (l ++ 0 :: s) = Some (l ++ [0]).
Proof.
  induction l as [|x l IH]; [done|]. rewrite not_elem_of_cons. intros [H1 H2]. simpl. unfold truthy. if_true. by rewrite IH.
Qed.

Lemma strcmp_run l k s t : 0 ∉ l → 0 ∉ k → ∃ d, strcmp (l ++ 0 :: s) (k ++ 0 :: t) = Some d ∧ (d = 0 ↔ l = k).
Proof.
  revert k. induction l as [|x l IH]; intros [|y k]; simpl.
  - intros _ _. by exists 0.
  - intros _ [H1 H2]%not_elem_of_cons. eexists. split; [done|]. split; [lia|done].
  - intros [H1 H2]%not_elem_of_cons _. unfold truthy. rewrite (proj2 (Z.eqb_neq x 0)) by done. simpl. eexists. split; [done|]. split; [lia|done].
  - intros [H1 H2]%not_elem_of_cons [H3 H4]%not_elem_of_cons. unfold truthy. rewrite (proj2 (Z.eqb_neq x 0)) by done. simpl.
    destruct (Z.eqb_spec x y) as [->|Hxy]; [|eexists; split; [done|]; split; [lia|congruence]].
    destruct (IH k H2 H4) as (d & E & Hd). exists d. split; [done|]. rewrite Hd. split; congruence.
Qed.

Lemma rd_user_memmove m dst src n x : 0 ≤ n →
  rd (memmove m dst src n) x = if (dst <=? x) && (x <? dst + n) then rd m (src + (x - dst)) else rd m x.
Proof.
  intros Hn. unfold memmove. case_if.
  - rewrite rd_memmove_up by lia. by replace (Z.of_nat (Z.to_nat n)) with n by lia.
  - rewrite rd_memmove_down by lia. replace (dst + n - Z.of_nat (Z.to_nat n)) with dst by lia.
    case_if; [f_equal; lia|done].
Qed.

(** The first line, with its newline, cut to [k] bytes. *)
Fixpoint first_line (k : nat) (l : list Z) : list Z :=
  match k, l with
  | S k, c :: l => if (c =? 10) || (c =? 13) then [c] else c :: first_line k l
  | _, _ => []
  end.

Lemma gets_loop_run fuel : ∀ i max l buf e, 0 ≤ i → (Z.to_nat (max - i) < fuel)%nat → fds e !! 0 = Some l →
  ∃ e', gets_loop fuel i max buf e = (Ret (buf ++ first_line (Z.to_nat (max - 1 - i)) l), e') ∧
    fds e' = <[0 := drop (length (first_line (Z.to_nat (max - 1 - i)) l)) l]> (fds e) ∧ outs e' = outs e ∧ fails e' = fails e ∧ disk e' = disk e.
Proof.
  induction fuel as [|fuel IH]; intros i max l buf e Hi Hf Hl; [lia|]. cbn [gets_loop]. case_if; cycle 1.
  { replace (Z.to_nat (max - 1 - i)) with 0%nat by lia. exists e. simpl. rewrite app_nil_r, drop_0, insert_id by done. done. }
  replace (Z.to_nat (max - 1 - i)) with (S (Z.to_nat (max - 1 - (i + 1)))) by lia.
  destruct (read_run 0 1 l e Hl) as (a & b & e1 & Er & -> & F1 & F2 & F3 & F4 & Ha & Hnil).
  unfold mbind, U_bind. rewrite Er. destruct a as [|c [|]]; [|clear Hnil|simpl in Ha; lia].
  - destruct Hnil as [|Hb]; [done|done|]. simpl in *. subst b. exists e1. simpl. rewrite app_nil_r. done.
  - cbn [app first_line]. destruct ((c =? 10) || (c =? 13)).
    + exists e1. done.
    + destruct (IH (i + 1) max b (buf ++ [c]) e1) as (e' & E' & G1 & G2 & G3 & G4); [lia|lia|by rewrite F1, lookup_insert_eq|].
      exists e'. rewrite E', G1, G2, G3, G4, F1, F2, F3, F4, insert_insert_eq, <-app_assoc. done.
Qed.

(** C40: [gets] stores the next line of the standard input, with its newline,
    cut to [max - 1] bytes, and a NUL after it: never more than [max] bytes; it
    takes from the input exactly what it stores. *)
Theorem gets_line max l e :
  1 ≤ max → fds e !! 0 = Some l →
  ∃ e', gets max e = (Ret (first_line (Z.to_nat (max - 1)) l ++ [0]), e') ∧
    Z.of_nat (length (first_line (Z.to_nat (max - 1)) l ++ [0])) ≤ max ∧
    fds e' = <[0 := drop (length (first_line (Z.to_nat (max - 1)) l)) l]> (fds e) ∧ outs e' = outs e.
Proof.
  intros Hmax Hl. destruct (gets_loop_run (S (Z.to_nat max)) 0 max l [] e) as (e' & E & F1 & F2 & _); [lia|lia|done|].
  rewrite Z.sub_0_r in *. exists e'. unfold gets, mbind, U_bind. rewrite E. split; [done|]. split; [|done].
  assert (∀ k t, (length (first_line k t) ≤ k)%nat) as H.
  { intros k t. revert k. induction t as [|c t IH]; intros [|k]; simpl; [lia..|]. case_if; simpl; [lia|]. specialize (IH k). lia. }
  rewrite length_app. specialize (H (Z.to_nat (max - 1)) l). simpl. lia.
Qed.

(** A line of nine characters read with room for six. *)
Lemma gets_line_witness : ∃ e',
  gets 6 (Env ∅ {[0 := chars "hi there" ++ [10] ++ chars "x"]} [] [] []) = (Ret (chars "hi th" ++ [0]), e') ∧
  fds e' !! 0 = Some (chars "ere" ++ [10] ++ chars "x").
Proof.
  destruct (gets_line 6 (chars "hi there" ++ [10] ++ chars "x") (Env ∅ {[0 := chars "hi there" ++ [10] ++ chars "x"]} [] [] []))
    as (e' & E & _ & F & _); [lia|done|].
  exists e'. split; [exact E|]. rewrite F. done.
Defined.

(** ** Descriptors *)

Lemma free_fd_some {V} k fd (t : gmap Z V) fd' : free_fd k fd t = Some fd' → fd ≤ fd' ∧ t !! fd' = None.
Proof.
  revert fd. induction k as [|k IH]; intros fd H; [done|]. simpl in H. destruct (t !! fd) eqn:E.
  - apply IH in H as [H1 H2]. split; [lia|done].
  - simplify_eq. done.
Qed.

(** A file opened, read and closed again. *)
Lemma open_run path l fd e :
  disk e !! path = Some l → free_fd (Z.to_nat NOFILE) 0 (fds e) = Some fd →
  open path e = (Ret fd, Env (disk e) (<[fd := l]> (fds e)) (shorts e) (fails e) (outs e)) ∧ 0 ≤ fd ∧ fds e !! fd = None.
Proof. intros Hp Hfd. unfold open. rewrite Hp, Hfd. split; [done|]. by apply free_fd_some in Hfd as []. Qed.
