(* ===== verification/Uprintf.v ===== *)
(** * Formatted output of user programs, [user/printf.c]

    Every character is a [write] of one byte.  The digits are related to the
    numbers by [numeral] of [Printf], which reads them back. *)

From S2P Require Import Prelude Riscv Memory Console Printf User.

(** The variable arguments: an [int], a [uint64], a string or null. *)
Inductive varg : Type := VInt (x : Z) | VLong (x : Z) | VStr (s : option (list Z)).

(** [digits[d]], in upper case. *)
Definition digits (d : Z) : Z := if d <? 10 then 48 + d else 55 + d.

Definition putc (fd c : Z) : U unit := _ ← write fd [u8 c]; mret tt.

Fixpoint puts (fd : Z) (l : list Z) : U unit :=
  match l with [] => mret tt | c :: l => _ ← putc fd c; puts fd l end.

(** The loop that fills [buf], least significant digit first. *)
Fixpoint fill (fuel : nat) (x base : Z) : list Z :=
  match fuel with
  | O => []
  | S fuel => digits (x mod base) :: (if x / base =? 0 then [] else fill fuel (x / base) base)
  end.

(** [-xx] of the smallest [int] is undefined in C. *)
Definition printint (fd xx base : Z) (sgn : bool) : U unit :=
  let neg := sgn && (xx <? 0) in
  if neg && (xx =? - 2 ^ 31) then stuck else
  let x := u32 (if neg then - xx else xx) in
  let buf := fill 32 x base ++ (if neg then [45] else []) in
  puts fd (reverse buf).

Fixpoint printptr_loop (k : nat) (fd x : Z) : U unit :=
  match k with
  | O => mret tt
  | S k => _ ← putc fd (digits (Z.shiftr x 60)); printptr_loop k fd (u64 (Z.shiftl x 4))
  end.
Definition printptr (fd x : Z) : U unit :=
  _ ← putc fd 48; _ ← putc fd 120; printptr_loop 16 fd x.

(** The conversion [c] with the arguments left. *)
Definition conversion (fd c : Z) (ap : list varg) : U (list varg) :=
  if c =? 100 then match ap with VInt x :: ap => _ ← printint fd x 10 true; mret ap | _ => stuck end
  else if c =? 108 then match ap with VLong x :: ap => _ ← printint fd (s32 x) 10 false; mret ap | _ => stuck end
  else if c =? 120 then match ap with VInt x :: ap => _ ← printint fd x 16 false; mret ap | _ => stuck end
  else if c =? 112 then match ap with VLong x :: ap => _ ← printptr fd x; mret ap | _ => stuck end
  else if c =? 115 then match ap with VStr s :: ap => _ ← puts fd (default null_string s); mret ap | _ => stuck end
  else if c =? 99 then match ap with VInt x :: ap => _ ← putc fd x; mret ap | _ => stuck end
  else if c =? 37 then _ ← putc fd c; mret ap
  else _ ← putc fd 37; _ ← putc fd c; mret ap.

(** [pct]: the state is ['%']. *)
Fixpoint vprintf_loop (fd : Z) (fmt : list Z) (pct : bool) (ap : list varg) : U unit :=
  match fmt with
  | [] => mret tt
  | c :: fmt =>
      if pct then ap ← conversion fd c ap; vprintf_loop fd fmt false ap
      else if c =? 37 then vprintf_loop fd fmt true ap
      else _ ← putc fd c; vprintf_loop fd fmt false ap
  end.
Definition vprintf (fd : Z) (fmt : list Z) (ap : list varg) : U unit := vprintf_loop fd fmt false ap.
Definition fprintf (fd : Z) (fmt : list Z) (ap : list varg) : U unit := vprintf fd fmt ap.
Definition printf (fmt : list Z) (ap : list varg) : U unit := vprintf 1 fmt ap.

(** ** What is printed *)

(** The environment after characters were put. *)
Definition put (fd : Z) (l : list Z) (e : env) : env := foldl (λ e c, wrote fd [u8 c] e) e l.

Lemma put_app fd a b e : put fd (a ++ b) e = put fd b (put fd a e).
Proof. apply foldl_app. Qed.

Lemma put_facts fd l e : disk (put fd l e) = disk e ∧ fds (put fd l e) = fds e ∧ fails (put fd l e) = fails e ∧ shorts (put fd l e) = shorts e.
Proof. revert e. induction l as [|c l IH]; intros e; [done|]. simpl. apply (IH (wrote fd [u8 c] e)). Qed.

Lemma written_put fd fd' l e : Forall is_byte l → written fd (put fd' l e) = written fd e ++ (if decide (fd' = fd) then l else []).
Proof.
  revert e. induction l as [|c l IH]; intros e Hl; simpl; [case_decide; by rewrite app_nil_r|].
  apply Forall_cons in Hl as [Hc Hl]. rewrite IH, written_wrote, u8_small by done. case_decide; by rewrite <-app_assoc.
Qed.

Lemma putc_run fd c e : no_failures e → putc fd c e = (Ret tt, put fd [c] e).
Proof. intros He. unfold putc, mbind, U_bind. by rewrite write_run. Qed.

Lemma puts_run fd l e : no_failures e → puts fd l e = (Ret tt, put fd l e).
Proof.
  revert e. induction l as [|c l IH]; intros e He; [done|]. cbn [puts]. unfold mbind, U_bind. rewrite putc_run by done. by rewrite IH.
Qed.

(** A digit of [printf.c] in the kernel, in upper case. *)
Definition upper (c : Z) : Z := if c <? 58 then c else c - 32.

Lemma fill_digits fuel x base : 2 ≤ base ≤ 16 → fill fuel x base = upper <$> to_digits fuel x base.
Proof.
  intros Hb. revert x. induction fuel as [|fuel IH]; intros x; [done|]. cbn [fill to_digits]. rewrite fmap_cons. f_equal.
  - pose proof (Z.mod_pos_bound x base ltac:(lia)). unfold digits, digit, upper. repeat case_if; lia.
  - case_if; [done|apply IH].
Qed.

(** The text of a number: a sign, and upper-case digits without leading zeros
    whose value is the number. *)
Definition numeral_of (base : Z) (neg : bool) (x : Z) (l : list Z) : Prop := ∃ ds,
  l = (if neg then [45] else []) ++ (upper <$> ds) ∧ numeral base ds = x ∧ Forall (λ c, digit_value c < base) ds ∧
  ds ≠ [] ∧ (head ds = Some 48 → ds = [48]).

Lemma printint_run fd xx base sgn e :
  - 2 ^ 31 < xx < 2 ^ 31 → base = 10 ∨ base = 16 → no_failures e →
  ∃ l, printint fd xx base sgn e = (Ret tt, put fd l e) ∧ Forall is_byte l ∧ (length l ≤ 16)%nat ∧
    numeral_of base (sgn && (xx <? 0)) (if sgn then Z.abs xx else u32 xx) l.
Proof.
  intros Hx Hb He. unfold printint. cbv zeta. rewrite (proj2 (Z.eqb_neq xx (- 2 ^ 31))), andb_false_r by lia.
  set (neg := sgn && (xx <? 0)). set (x := u32 (if neg then - xx else xx)).
  assert (x = if sgn then Z.abs xx else u32 xx) as Hxv.
  { unfold x, neg. destruct sgn; simpl; [|done]. case_if; rewrite u32_small; lia. }
  pose proof (u32_range (if neg then - xx else xx)) as Hxr. fold x in Hxr.
  destruct (to_digits_spec 32 x base) as (H1 & H2 & H3 & H4); [lia| |lia|].
  { split; [lia|]. destruct Hb as [-> | ->]; eapply Z.lt_le_trans; try apply Hxr; by vm_compute. }
  assert (2 ^ 32 ≤ base ^ Z.of_nat 10) as Hp by (destruct Hb as [-> | ->]; by vm_compute).
  pose proof (to_digits_length 32 x base 10 ltac:(lia) ltac:(lia) ltac:(lia)) as Hlen.
  cbv zeta in *. rewrite fill_digits, puts_run by (done || lia). remember (to_digits 32 x base) as l eqn:El.
  assert (reverse ((upper <$> l) ++ (if neg then [45] else [])) = (if neg then [45] else []) ++ (upper <$> reverse l)) as ->.
  { rewrite reverse_app, <-fmap_reverse. by destruct neg. }
  eexists. split; [done|]. split_and!.
  - apply Forall_app. split; [destruct neg; repeat constructor; lia|]. apply Forall_fmap, Forall_reverse.
    eapply Forall_impl; [exact H3|]. simpl. intros c [Hc _]. unfold is_byte, upper. case_if; lia.
  - rewrite length_app, length_fmap, length_reverse. clear -Hlen. destruct neg; simpl; lia.
  - exists (reverse l). split_and!; [done|congruence| | |].
    + apply Forall_reverse. eapply Forall_impl; [exact H3|]. simpl. lia.
    + intros E. apply H2. rewrite <-(reverse_involutive l), E. done.
    + rewrite head_reverse. intros Hl. destruct (decide (x = 0)) as [H0|H0]; [|by apply H4 in H0].
      rewrite El, H0. by destruct Hb as [-> | ->].
Qed.

(** One character or one [%d] of a format. *)
Lemma vprintf_char fd c fmt ap e :
  c ≠ 37 → no_failures e → vprintf_loop fd (c :: fmt) false ap e = vprintf_loop fd fmt false ap (put fd [c] e).
Proof. intros Hc He. cbn [vprintf_loop]. rewrite (proj2 (Z.eqb_neq c 37)) by done. unfold mbind, U_bind. by rewrite putc_run. Qed.

Lemma vprintf_int fd x fmt ap e : - 2 ^ 31 < x < 2 ^ 31 → no_failures e →
  ∃ l, vprintf_loop fd (37 :: 100 :: fmt) false (VInt x :: ap) e = vprintf_loop fd fmt false ap (put fd l e) ∧
    Forall is_byte l ∧ numeral_of 10 (x <? 0) (Z.abs x) l.
Proof.
  intros Hx He. destruct (printint_run fd x 10 true e) as (l & E & Hl & _ & Hn); [done|by left|done|].
  exists l. split; [|done]. cbn [vprintf_loop]. unfold mbind, U_bind. cbn [Z.eqb Pos.eqb]. unfold conversion, mbind, U_bind. cbn [Z.eqb Pos.eqb].
  by rewrite E.
Qed.

Lemma vprintf_str fd s fmt ap e : no_failures e →
  vprintf_loop fd (37 :: 115 :: fmt) false (VStr (Some s) :: ap) e = vprintf_loop fd fmt false ap (put fd s e).
Proof.
  intros He. cbn [vprintf_loop]. unfold mbind, U_bind. cbn [Z.eqb Pos.eqb]. unfold conversion, mbind, U_bind. cbn [Z.eqb Pos.eqb].
  simpl default. by rewrite puts_run.
Qed.

Lemma put_no_failures fd l e : no_failures e → no_failures (put fd l e).
Proof. unfold no_failures. by rewrite (proj1 (proj2 (proj2 (put_facts fd l e)))). Qed.
