(* ===== verification/Utils.v ===== *)
(** * [user/echo.c], [user/cat.c] and [user/wc.c]

    [cat] is followed through failing writes; [wc] is compared with counts that
    are defined on the whole text. *)

From S2P Require Import Prelude Riscv Memory Console Printf User Uprintf.

(** ** [echo.c] *)

Fixpoint echo_args (args : list (list Z)) : U unit :=
  match args with
  | [] => mret tt
  | a :: args =>
      _ ← write 1 a;
      _ ← write 1 (if (0 <? length args)%nat then [32] else [NL]);
      echo_args args
  end.
Definition echo_main (argv : list (list Z)) : U unit := _ ← echo_args (tl argv); exit 0.

(** ** [cat.c] *)

Fixpoint cat_loop (fuel : nat) (fd : Z) : U unit :=
  match fuel with
  | O => stuck
  | S fuel =>
      n ← read fd 512;
      match n with
      | None => _ ← fprintf 2 (line "cat: read error") []; exit 1
      | Some [] => mret tt
      | Some l =>
          w ← write 1 l;
          if negb (w =? Z.of_nat (length l)) then _ ← fprintf 2 (line "cat: write error") []; exit 1
          else cat_loop fuel fd
      end
  end.

(** Every read takes a byte. *)
Definition cat (fd : Z) : U unit := λ e, cat_loop (S (length (default [] (fds e !! fd)))) fd e.

Fixpoint cat_files (files : list (list Z)) : U unit :=
  match files with
  | [] => mret tt
  | f :: files =>
      fd ← open f;
      if fd <? 0 then _ ← fprintf 2 (line "cat: cannot open %s") [VStr (Some f)]; exit 1
      else
        _ ← cat fd;
        _ ← close fd;
        cat_files files
  end.

Definition cat_main (argv : list (list Z)) : U unit :=
  if (length argv <=? 1)%nat then _ ← cat 0; exit 0
  else _ ← cat_files (tl argv); exit 0.

(** ** [wc.c] *)

Record counts : Type := Counts { l_ : Z; w_ : Z; c_ : Z; inword : bool }.

(** [strchr] in the constant with space, carriage return, tab, newline and
    vertical tab. *)
Definition is_space (c : Z) : bool :=
  match strchr [32; 13; 9; 10; 11; 0] c with Some (Some _) => true | _ => false end.

Definition wc_char (s : counts) (b : Z) : counts :=
  let c := c_ s + 1 in
  let l := if b =? NL then l_ s + 1 else l_ s in
  if is_space b then Counts l (w_ s) c false
  else if negb (inword s) then Counts l (w_ s + 1) c true
  else Counts l (w_ s) c (inword s).

Fixpoint wc_loop (fuel : nat) (fd : Z) (s : counts) : U counts :=
  match fuel with
  | O => stuck
  | S fuel =>
      n ← read fd 512;
      match n with
      | None => _ ← printf (line "wc: read error") []; exit 1
      | Some [] => mret s
      | Some l => wc_loop fuel fd (foldl wc_char s l)
      end
  end.

Definition wc (fd : Z) (name : list Z) : U unit :=
  s ← (λ e, wc_loop (S (length (default [] (fds e !! fd)))) fd (Counts 0 0 0 false) e);
  printf (line "%d %d %d %s") [VInt (l_ s); VInt (w_ s); VInt (c_ s); VStr (Some name)].

Fixpoint wc_files (files : list (list Z)) : U unit :=
  match files with
  | [] => mret tt
  | f :: files =>
      fd ← open f;
      if fd <? 0 then _ ← printf (line "wc: cannot open %s") [VStr (Some f)]; exit 1
      else
        _ ← wc fd f;
        _ ← close fd;
        wc_files files
  end.

Definition wc_main (argv : list (list Z)) : U unit :=
  if (length argv <=? 1)%nat then _ ← wc 0 []; exit 0
  else _ ← wc_files (tl argv); exit 0.

(** ** Messages, when writes may fail *)

(** The computation returns and leaves what was written elsewhere alone. *)
Definition only_to (fd : Z) {A} (m : U A) : Prop := ∀ e, ∃ a e', m e = (Ret a, e') ∧ ∀ fd', fd' ≠ fd → written fd' e' = written fd' e.

Lemma only_to_bind fd {A B} (m : U A) (k : A → U B) : only_to fd m → (∀ a, only_to fd (k a)) → only_to fd (m ≫= k).
Proof.
  intros Hm Hk e. destruct (Hm e) as (a & e1 & E1 & H1). destruct (Hk a e1) as (b & e2 & E2 & H2). exists b, e2.
  unfold mbind, U_bind. rewrite E1, E2. split; [done|]. intros fd' Hne. by rewrite H2, H1.
Qed.

Lemma only_to_ret fd {A} (a : A) : only_to fd (mret a).
Proof. intros e. by exists a, e. Qed.

Lemma write_cases fd l e : ∃ r e', write fd l e = (Ret r, e') ∧ fds e' = fds e ∧ disk e' = disk e ∧
  (r = Z.of_nat (length l) ∧ outs e' = outs e ++ [(fd, l)] ∨ r = -1 ∧ outs e' = outs e ∧ fails e ≠ []).
Proof.
  unfold write. destruct (fails e) as [|[] fs]; simpl; do 2 eexists; (split; [reflexivity|]); (split; [done|]); (split; [done|]).
  - by left.
  - by right.
  - by left.
Qed.

Lemma written_outs fd e e' fd' l : outs e' = outs e ++ [(fd', l)] → written fd e' = written fd e ++ (if decide (fd' = fd) then l else []).
Proof. intros H. rewrite <-written_wrote. unfold written, wrote. by rewrite H. Qed.

Lemma only_to_write fd l : only_to fd (write fd l).
Proof.
  intros e. destruct (write_cases fd l e) as (r & e' & E & _ & _ & H). exists r, e'. split; [done|]. intros fd' Hne.
  destruct H as [[_ H]|(_ & H & _)]; [|by unfold written; rewrite H]. rewrite (written_outs _ _ _ _ _ H), decide_False by done. by rewrite app_nil_r.
Qed.

Lemma only_to_putc fd c : only_to fd (putc fd c).
Proof. apply only_to_bind; [apply only_to_write|]. intros _. apply only_to_ret. Qed.

Lemma only_to_puts fd l : only_to fd (puts fd l).
Proof.
  induction l as [|c l IH]; [apply only_to_ret|]. apply only_to_bind; [apply only_to_putc|done].
Qed.

(** A message without conversions, or with one string. *)
Lemma only_to_text fd fmt ap : 37 ∉ fmt → only_to fd (vprintf_loop fd fmt false ap).
Proof.
  induction fmt as [|c fmt IH]; intros Hc; [apply only_to_ret|]. apply not_elem_of_cons in Hc as [Hc Hf]. cbn [vprintf_loop].
  rewrite (proj2 (Z.eqb_neq c 37)) by done. apply only_to_bind; [apply only_to_putc|]. intros _. by apply IH.
Qed.

Lemma only_to_string fd fmt s : 37 ∉ fmt → only_to fd (fprintf fd (fmt ++ chars "%s" ++ [NL]) [VStr (Some s)]).
Proof.
  unfold fprintf, vprintf. induction fmt as [|c fmt IH]; intros Hc.
  - apply (only_to_bind fd (conversion fd 115 [VStr (Some s)])); [|intros ap; apply (only_to_text fd [NL] ap); by intros ?%list_elem_of_singleton].
    apply only_to_bind; [apply only_to_puts|]. intros _. apply only_to_ret.
  - apply not_elem_of_cons in Hc as [Hc Hf]. cbn [app vprintf_loop].
    rewrite (proj2 (Z.eqb_neq c 37)) by done. apply only_to_bind; [apply only_to_putc|]. intros _. by apply IH.
Qed.

(** ** [cat] *)

Lemma cat_loop_run fuel fd : ∀ t e, (length t < fuel)%nat → fds e !! fd = Some t →
  (∃ e' t', cat_loop fuel fd e = (Ret tt, e') ∧ written 1 e' = written 1 e ++ t ∧ disk e' = disk e ∧ fds e' = <[fd := t']> (fds e) ∧
    (fails e = [] → fails e' = [])) ∨
  (∃ e' k, cat_loop fuel fd e = (Exited 1, e') ∧ written 1 e' = written 1 e ++ take k t ∧ fails e ≠ []).
Proof.
  induction fuel as [|fuel IH]; intros t e Hf Ht; [lia|]. cbn [cat_loop]. unfold mbind, U_bind.
  destruct (read_run fd 512 t e Ht) as (a & b & e1 & E & -> & F1 & F2 & F3 & F4 & Ha & Hnil). rewrite E.
  destruct a as [|x a].
  { left. destruct Hnil as [|Hb]; [done|done|]. simpl in *. subst b. exists e1, []. rewrite app_nil_r, F4.
    split; [done|]. unfold written. by rewrite F3. }
  assert (0 < length (x :: a))%nat as Hpos by (simpl; lia). revert Hpos. clear Hnil E. revert Ha Hf Ht. generalize (x :: a). clear x a.
  intros a Ha Hf Ht Hpos. rewrite length_app in Hf.
  assert (written 1 e1 = written 1 e) as Hw1 by (unfold written; by rewrite F3).
  destruct (write_cases 1 a e1) as (r & e2 & E2 & G1 & G2 & [[-> G3]|(-> & G3 & G4)]); rewrite E2.
  - rewrite Z.eqb_refl. cbn [negb]. apply written_outs with (fd := 1) in G3 as G4. rewrite decide_True, Hw1 in G4 by done.
    destruct (IH b e2) as [(e' & t' & E' & H1 & H2 & H3 & H4)|(e' & k & E' & H1 & H2)]; [lia|by rewrite G1, F1, lookup_insert_eq|left|right].
    + exists e', t'. rewrite E', H1, H2, H3, G1, F1, G2, F2, G4, insert_insert_eq, <-app_assoc. split_and!; try done.
      intros Hfl. apply H4. revert E2. unfold write. rewrite F4, Hfl. simpl. by intros [= <-].
    + exists e', (length a + k)%nat. rewrite E', H1, G4, <-app_assoc. split; [done|]. split.
      * f_equal. by rewrite firstn_app_2.
      * intros Hfl. apply H2. revert E2. unfold write. rewrite F4, Hfl. simpl. by intros [= <-].
  - right. rewrite (proj2 (Z.eqb_neq (-1) _)) by lia. cbn [negb]. unfold fprintf, vprintf.
    destruct (only_to_text 2 (line "cat: write error") [] ltac:(apply (bool_decide_unpack _); vm_compute; exact I) e2) as (u & e3 & E3 & H3).
    rewrite E3. exists e3, 0%nat. split; [done|]. rewrite H3 by done. split; [|congruence]. unfold written. by rewrite G3, F3, take_0, app_nil_r.
Qed.

Lemma cat_run fd t e : fds e !! fd = Some t →
  (∃ e' t', cat fd e = (Ret tt, e') ∧ written 1 e' = written 1 e ++ t ∧ disk e' = disk e ∧ fds e' = <[fd := t']> (fds e) ∧
    (fails e = [] → fails e' = [])) ∨
  (∃ e' k, cat fd e = (Exited 1, e') ∧ written 1 e' = written 1 e ++ take k t ∧ fails e ≠ []).
Proof. intros Ht. unfold cat. rewrite Ht. apply cat_loop_run; [simpl; lia|done]. Qed.

Lemma cat_files_run fd files texts e :
  free_fd (Z.to_nat NOFILE) 0 (fds e) = Some fd → Forall2 (λ f t, disk e !! f = Some t) files texts →
  (∃ e', cat_files files e = (Ret tt, e') ∧ written 1 e' = written 1 e ++ concat texts) ∨
  (∃ e' out, cat_files files e = (Exited 1, e') ∧ written 1 e' = written 1 e ++ out ∧ out `prefix_of` concat texts ∧ fails e ≠ []).
Proof.
  intros Hfd Hall. remember (disk e) as d eqn:Hd. revert e Hfd Hd.
  induction Hall as [|f t files texts Hf Hall IH]; intros e Hfd ->; [left; exists e; simpl; by rewrite app_nil_r|].
  cbn [cat_files]. destruct (open_run f t fd e Hf Hfd) as (Eo & Hfd0 & Hfree). unfold mbind, U_bind. rewrite Eo. if_false.
  set (e1 := Env _ _ _ _ _). assert (written 1 e1 = written 1 e) as Hw1 by done.
  destruct (cat_run fd t e1) as [(e2 & t' & E & F1 & F2 & F3 & F4)|(e2 & k & E & F1 & F2)]; [by simpl; rewrite lookup_insert_eq| |]; rewrite E; cycle 1.
  { right. exists e2, (take k t). split; [done|]. rewrite F1. split; [done|]. split; [|done].
    simpl. apply prefix_app_r. exists (drop k t). by rewrite take_drop. }
  unfold close. set (e3 := Env _ _ _ _ _). assert (fds e3 = fds e) as Hfds.
  { simpl. rewrite F3. simpl. rewrite insert_insert_eq. by apply delete_insert_id. }
  assert (written 1 e3 = written 1 e ++ t) as Hw3 by (change (written 1 e3) with (written 1 e2); congruence).
  destruct (IH e3) as [(e' & E' & W)|(e' & out & E' & W & Hp & Hfl)]; [by rewrite Hfds|done|left|right].
  - exists e'. rewrite W, Hw3, <-app_assoc. done.
  - exists e', (t ++ out). rewrite W, Hw3, <-app_assoc. split; [done|]. split; [done|]. split; [by apply prefix_app|].
    intros He. by apply Hfl, F4.
Qed.

(** The contents of the files, or of the standard input. *)
Definition inputs (e : env) (files texts : list (list Z)) : Prop :=
  match files with
  | [] => ∃ t, fds e !! 0 = Some t ∧ texts = [t]
  | _ => Forall2 (λ f t, disk e !! f = Some t) files texts
  end.

(** [cat] copies the files, or its standard input, to the standard output,
    whatever the sizes of the reads: it writes nothing else there, and it exits
    with 0 only if everything was written; it exits with 1 only if a write
    failed. *)
Theorem cat_copies prog files texts fd e :
  free_fd (Z.to_nat NOFILE) 0 (fds e) = Some fd → inputs e files texts →
  ∃ s e' out, cat_main (prog :: files) e = (Exited s, e') ∧ written 1 e' = written 1 e ++ out ∧
    out `prefix_of` concat texts ∧ (s = 0 → out = concat texts) ∧ (s = 0 ∨ s = 1 ∧ fails e ≠ []).
Proof.
  intros Hfd Hin. unfold cat_main, inputs in *. destruct files as [|f files].
  - destruct Hin as (t & Ht & ->). cbn [length Nat.leb]. unfold mbind, U_bind. simpl concat. rewrite app_nil_r.
    destruct (cat_run 0 t e Ht) as [(e' & t' & -> & F1 & _)|(e' & k & -> & F1 & F2)].
    + exists 0, e', t. split; [done|]. split; [done|]. split; [done|]. split; [done|by left].
    + exists 1, e', (take k t). split; [done|]. split; [done|]. split; [|split; [done|by right]]. exists (drop k t). by rewrite take_drop.
  - cbn [length Nat.leb tl]. unfold mbind, U_bind.
    destruct (cat_files_run fd (f :: files) texts e Hfd Hin) as [(e' & -> & F1)|(e' & out & -> & F1 & F2 & F3)].
    + exists 0, e', (concat texts). split; [done|]. split; [done|]. split; [done|]. split; [done|by left].
    + exists 1, e', out. split; [done|]. split; [done|]. split; [done|]. split; [done|by right].
Qed.

(** Two files; the second write fails. *)
Lemma cat_copies_witness :
  let e := Env {[chars "a" := chars "one"; chars "b" := chars "two"]} {[0 := []]} [1%nat] [false; true] [] in
  ∃ s e' out, cat_main [chars "cat"; chars "a"; chars "b"] e = (Exited s, e') ∧ written 1 e' = out ∧
    out `prefix_of` chars "onetwo" ∧ (s = 0 → out = chars "onetwo").
Proof.
  intros e. destruct (cat_copies (chars "cat") [chars "a"; chars "b"] [chars "one"; chars "two"] 1 e)
    as (s & e' & out & E & W & Hp & H0 & _).
  - done.
  - repeat constructor.
  - exists s, e', out. split; [exact E|]. split; [exact W|]. split; [exact Hp|exact H0].
Defined.

(** ** [wc] *)

(** The text between spaces; a word is a part that is not empty. *)
Fixpoint parts (t : list Z) : list (list Z) :=
  match t with
  | [] => [[]]
  | c :: t =>
      if is_space c then [] :: parts t
      else match parts t with w :: ws => (c :: w) :: ws | [] => [[c]] end
  end.
Definition words (ps : list (list Z)) : Z := Z.of_nat (length (filter (λ w, w ≠ []) ps)).
Definition newlines (t : list Z) : Z := Z.of_nat (length (filter (λ c, c = NL) t)).

Lemma parts_cons t : ∃ w ws, parts t = w :: ws.
Proof. destruct t as [|c t]; simpl; [eauto|]. destruct (is_space c); [eauto|]. destruct (parts t); eauto. Qed.

Lemma words_cons w ws : words (w :: ws) = (if decide (w = []) then 0 else 1) + words ws.
Proof. unfold words. rewrite filter_cons. repeat case_decide; simpl; try done; lia. Qed.

Lemma wc_chars t : ∀ l w c (iw : bool), ∃ iw',
  foldl wc_char (Counts l w c iw) t =
  Counts (l + newlines t) (w + words (if iw then tl (parts t) else parts t)) (c + Z.of_nat (length t)) iw'.
Proof.
  induction t as [|b t IH]; intros l w c iw.
  { exists iw. simpl. destruct iw; unfold words, newlines; simpl; f_equal; lia. }
  cbn [foldl]. unfold wc_char at 2. cbn [l_ w_ c_ inword]. unfold newlines. rewrite filter_cons. fold (newlines t).
  assert (∀ k, (if b =? NL then l + 1 else l) + k = l + (if decide (b = NL) then 1 + k else k)) as Hl.
  { intros k. destruct (Z.eqb_spec b NL); case_decide; try done; lia. }
  assert (Z.of_nat (length (if decide (b = NL) then b :: filter (λ c, c = NL) t else filter (λ c, c = NL) t)) =
    (if decide (b = NL) then 1 + newlines t else newlines t)) as -> by (unfold newlines; case_decide; simpl; lia).
  cbn [parts]. destruct (parts_cons t) as (w0 & ws & Ep). destruct (is_space b) eqn:Eb.
  - destruct (IH (if b =? NL then l + 1 else l) w (c + 1) false) as [iw' ->]. exists iw'. rewrite Hl. f_equal; [|simpl; lia].
    destruct iw; cbn [tl]; [done|]. rewrite words_cons, (decide_True (P := @nil Z = [])) by done. lia.
  - rewrite Ep. destruct iw; cbn [negb tl].
    + destruct (IH (if b =? NL then l + 1 else l) w (c + 1) true) as [iw' ->]. exists iw'. rewrite Hl, Ep. f_equal. simpl. lia.
    + destruct (IH (if b =? NL then l + 1 else l) (w + 1) (c + 1) true) as [iw' ->]. exists iw'. rewrite Hl, Ep. cbn [tl].
      rewrite words_cons, (decide_False (P := b :: w0 = [])) by done. f_equal; simpl; lia.
Qed.

Lemma wc_loop_run fuel fd : ∀ t s e, (length t < fuel)%nat → fds e !! fd = Some t →
  ∃ e' t', wc_loop fuel fd s e = (Ret (foldl wc_char s t), e') ∧ outs e' = outs e ∧ disk e' = disk e ∧ fails e' = fails e ∧
    fds e' = <[fd := t']> (fds e).
Proof.
  induction fuel as [|fuel IH]; intros t s e Hf Ht; [lia|]. cbn [wc_loop]. unfold mbind, U_bind.
  destruct (read_run fd 512 t e Ht) as (a & b & e1 & E & -> & F1 & F2 & F3 & F4 & Ha & Hnil). rewrite E.
  destruct a as [|x a].
  - destruct Hnil as [|Hb]; [done|done|]. simpl in *. subst b. exists e1, []. done.
  - clear Hnil. rewrite length_app in Hf. simpl in Hf.
    destruct (IH b (foldl wc_char s (x :: a)) e1) as (e' & t' & E' & G1 & G2 & G3 & G4); [lia|by rewrite F1, lookup_insert_eq|].
    exists e', t'. rewrite E', G1, G2, G3, G4, F1, F2, F3, F4, insert_insert_eq, foldl_app. done.
Qed.

Lemma parts_words t : 0 ≤ words (parts t) ≤ Z.of_nat (length t).
Proof.
  unfold words. split; [lia|]. apply inj_le. induction t as [|c t IH]; simpl; [done|]. destruct (parts_cons t) as (w & ws & Ep). rewrite Ep in *.
  rewrite filter_cons in IH. destruct (is_space c); rewrite !filter_cons; repeat case_decide; simpl in *; try done; lia.
Qed.

Lemma newlines_le t : 0 ≤ newlines t ≤ Z.of_nat (length t).
Proof. unfold newlines. split; [lia|]. apply inj_le, length_filter. Qed.

(** [wc] prints the numbers of newlines, of words and of bytes of the text,
    in decimal, and the name, whatever the sizes of its reads; a word is a
    maximal part without spaces, tabs, newlines, returns and vertical tabs. *)
Theorem wc_counts fd name t e :
  fds e !! fd = Some t → no_failures e → Z.of_nat (length t) < 2 ^ 31 → Forall is_byte name →
  ∃ e' l w c, wc fd name e = (Ret tt, e') ∧ numeral_of 10 false (newlines t) l ∧ numeral_of 10 false (words (parts t)) w ∧
    numeral_of 10 false (Z.of_nat (length t)) c ∧
    written 1 e' = written 1 e ++ (l ++ [32] ++ w ++ [32] ++ c ++ [32] ++ name ++ [NL]).
Proof.
  intros Ht He Hlen Hname. pose proof (newlines_le t). pose proof (parts_words t). unfold wc. unfold mbind at 1, U_bind. rewrite Ht. simpl default.
  destruct (wc_loop_run (S (length t)) fd t (Counts 0 0 0 false) e) as (e1 & t' & E & F1 & _ & F3 & _); [lia|done|]. rewrite E.
  destruct (wc_chars t 0 0 0 false) as [iw ->]. cbn [l_ w_ c_]. rewrite !Z.add_0_l.
  assert (no_failures e1) as He1 by (unfold no_failures; congruence).
  unfold printf, vprintf. change (line "%d %d %d %s") with [37; 100; 32; 37; 100; 32; 37; 100; 32; 37; 115; NL].
  destruct (vprintf_int 1 (newlines t) [32; 37; 100; 32; 37; 100; 32; 37; 115; NL]
    [VInt (words (parts t)); VInt (Z.of_nat (length t)); VStr (Some name)] e1) as (l & -> & Bl & Hl); [lia|done|].
  rewrite vprintf_char by (done || by apply put_no_failures).
  destruct (vprintf_int 1 (words (parts t)) [32; 37; 100; 32; 37; 115; NL] [VInt (Z.of_nat (length t)); VStr (Some name)]
    (put 1 [32] (put 1 l e1))) as (w & -> & Bw & Hw); [lia|by repeat apply put_no_failures|].
  rewrite vprintf_char by (done || by repeat apply put_no_failures).
  destruct (vprintf_int 1 (Z.of_nat (length t)) [32; 37; 115; NL] [VStr (Some name)] (put 1 [32] (put 1 w (put 1 [32] (put 1 l e1)))))
    as (c & -> & Bc & Hc); [lia|by repeat apply put_no_failures|].
  rewrite vprintf_char, vprintf_str, vprintf_char by (done || by repeat apply put_no_failures).
  eexists _, l, w, c. split; [reflexivity|]. rewrite (proj2 (Z.ltb_ge _ _)), Z.abs_eq in Hl by lia.
  rewrite (proj2 (Z.ltb_ge _ _)), Z.abs_eq in Hw by lia. rewrite (proj2 (Z.ltb_ge _ _)), Z.abs_eq in Hc by lia. do 3 (split; [done|]).
  rewrite !written_put by (done || by repeat constructor). rewrite !(decide_True (P := 1 = 1)) by done.
  unfold written at 1. rewrite F1. fold (written 1 e). by rewrite <-!app_assoc.
Qed.

(** Two lines with three words. *)
Lemma wc_counts_witness : ∃ e' l w c,
  wc 0 (chars "f") (Env ∅ {[0 := chars "a bc" ++ [10] ++ chars " d" ++ [10]]} [1%nat] [] []) = (Ret tt, e') ∧
  numeral_of 10 false 2 l ∧ numeral_of 10 false 3 w ∧ numeral_of 10 false 8 c ∧
  written 1 e' = l ++ [32] ++ w ++ [32] ++ c ++ [32] ++ chars "f" ++ [NL].
Proof.
  destruct (wc_counts 0 (chars "f") (chars "a bc" ++ [10] ++ chars " d" ++ [10])
    (Env ∅ {[0 := chars "a bc" ++ [10] ++ chars " d" ++ [10]]} [1%nat] [] [])) as (e' & l & w & c & E & Hl & Hw & Hc & W).
  - done.
  - done.
  - done.
  - by repeat constructor.
  - exists e', l, w, c. split; [exact E|]. split; [exact Hl|]. split; [exact Hw|]. split; [exact Hc|exact W].
Defined.

(** [echo] writes its arguments with spaces between them and a newline at the
    end. *)
Fixpoint joined (args : list (list Z)) : list Z :=
  match args with
  | [] => []
  | [a] => a ++ [NL]
  | a :: args => a ++ [32] ++ joined args
  end.

Lemma echo_prints argv e : no_failures e → ∃ e', echo_main argv e = (Exited 0, e') ∧ written 1 e' = written 1 e ++ joined (tl argv).
Proof.
  intros He. assert (∀ args e, no_failures e → ∃ e', echo_args args e = (Ret tt, e') ∧ written 1 e' = written 1 e ++ joined args) as H.
  { clear. induction args as [|a args IH]; intros e He; [exists e; simpl; by rewrite app_nil_r|]. cbn [echo_args]. unfold mbind, U_bind.
    rewrite !write_run by done. destruct (IH (wrote 1 (if (0 <? length args)%nat then [32] else [NL]) (wrote 1 a e)) He) as (e' & E & W). exists e'. split; [done|].
    rewrite W, !written_wrote, !decide_True, <-!app_assoc by done. by destruct args. }
  destruct (H (tl argv) e He) as (e' & E & W). exists e'. unfold echo_main, mbind, U_bind. by rewrite E.
Qed.
