(* ===== verification/Grep.v ===== *)
(** * [user/grep.c]

    The matcher of Kernighan and Pike and the loop that reads a file in pieces
    and prints its matching lines.  The theorems give the meaning of a pattern
    as a regular expression, and say which lines are printed whatever sizes the
    reads of the file have. *)

From S2P Require Import Prelude Riscv User Uprintf.

Definition CARET : Z := 94.
Definition DOLLAR : Z := 36.
Definition DOT : Z := 46.
Definition STAR : Z := 42.

(** ** The matcher

    A C string is the list of its characters before the NUL. *)

Section matchstar.
  Variable matchhere : list Z → bool.

Fixpoint matchstar (c : Z) (text : list Z) : bool :=
  if matchhere text then true
  else match text with
       | [] => false
       | t :: text' => if (t =? c) || (c =? DOT) then matchstar c text' else false
       end.
End matchstar.

Fixpoint matchhere (re text : list Z) {struct re} : bool :=
  match re with
  | [] => true
  | c :: re1 =>
      match re1 with
      | d :: re2 =>
          if d =? STAR then matchstar (matchhere re2) c text
          else match text with
               | [] => false
               | t :: text' => if (c =? DOT) || (c =? t) then matchhere re1 text' else false
               end
      | [] =>
          if c =? DOLLAR then match text with [] => true | _ => false end
          else match text with
               | [] => false
               | t :: text' => if (c =? DOT) || (c =? t) then matchhere re1 text' else false
               end
      end
  end.

Fixpoint match_any (re text : list Z) : bool :=
  if matchhere re text then true
  else match text with [] => false | _ :: text' => match_any re text' end.

Definition match_ (re text : list Z) : bool :=
  match re with
  | c :: re1 => if c =? CARET then matchhere re1 text else match_any re text
  | [] => match_any re text
  end.

(** ** The loop over a file *)

Definition BUFSIZE : nat := 1024.

(** [memmove] and [read] into the buffer. *)
Definition blit (buf : list Z) (at_ : nat) (l : list Z) : list Z :=
  take at_ buf ++ l ++ drop (at_ + length l) buf.

(** The loop over the lines in the buffer; [write] to descriptor 1. *)
Fixpoint grep_lines (fuel : nat) (re buf : list Z) (p : nat) : U (list Z * nat) :=
  match fuel with
  | O => stuck
  | S fuel =>
      match strchr (drop p buf) NL with
      | None => stuck
      | Some None => mret (buf, p)
      | Some (Some k) =>
          let q := (p + k)%nat in
          let buf := <[q := 0]> buf in
          if match_ re (cstr (drop p buf)) then
            let buf := <[q := NL]> buf in
            _ ← write 1 (take (q + 1 - p) (drop p buf));
            grep_lines fuel re buf (q + 1)
          else grep_lines fuel re buf (q + 1)
      end
  end.

Fixpoint grep_loop (fuel : nat) (re buf : list Z) (m : nat) (fd : Z) : U (list Z) :=
  match fuel with
  | O => stuck
  | S fuel =>
      n ← read fd (BUFSIZE - m - 1);
      match n with
      | None | Some [] => mret buf
      | Some l =>
          let buf := blit buf m l in
          let m := (m + length l)%nat in
          let buf := <[m := 0]> buf in
          '(buf, p) ← grep_lines (S BUFSIZE) re buf 0;
          if (0 <? m)%nat then
            let m := (m - p)%nat in
            let buf := blit buf 0 (take m (drop p buf)) in
            grep_loop fuel re buf m fd
          else grep_loop fuel re buf m fd
      end
  end.

(** Every read takes a byte, so one round more than there are bytes ahead is
    enough. *)
Definition grep (re buf : list Z) (fd : Z) : U (list Z) := λ e,
  grep_loop (S (length (default [] (fds e !! fd)))) re buf 0 fd e.

(** [main] *)
Fixpoint main_files (re buf : list Z) (files : list (list Z)) : U unit :=
  match files with
  | [] => mret tt
  | f :: files =>
      fd ← open f;
      if fd <? 0 then _ ← printf (line "grep: cannot open %s") [VStr (Some f)]; exit 1
      else
        buf ← grep re buf fd;
        _ ← close fd;
        main_files re buf files
  end.

Definition main (argv : list (list Z)) : U unit :=
  match argv with
  | _ :: re :: files =>
      if (length files =? 0)%nat then _ ← grep re (replicate BUFSIZE 0) 0; exit 0
      else _ ← main_files re (replicate BUFSIZE 0) files; exit 0
  | _ => _ ← fprintf 2 (line "usage: grep pattern [file ...]") []; exit 1
  end.

(** ** What a pattern means *)

Definition fits (c t : Z) : Prop := c = DOT ∨ c = t.

(** [matches re s rest]: the pattern matches [s], with [rest] after it. *)
Inductive matches : list Z → list Z → list Z → Prop :=
  | matches_nil rest : matches [] [] rest
  | matches_end : matches [DOLLAR] [] []
  | matches_star c re s1 s2 rest :
      Forall (fits c) s1 → matches re s2 rest → matches (c :: STAR :: re) (s1 ++ s2) rest
  | matches_one c re t s rest :
      head re ≠ Some STAR → (c, re) ≠ (DOLLAR, []) → fits c t → matches re s rest → matches (c :: re) (t :: s) rest.

Definition found (re text : list Z) : Prop :=
  match re with
  | c :: re1 =>
      if decide (c = CARET) then ∃ s post, text = s ++ post ∧ matches re1 s post
      else ∃ pre s post, text = pre ++ s ++ post ∧ matches re s post
  | [] => True
  end.

Lemma fits_b c t : (c =? DOT) || (c =? t) = true ↔ fits c t.
Proof. unfold fits. rewrite orb_true_iff, !Z.eqb_eq. done. Qed.

Lemma matchstar_spec P c text :
  matchstar P c text = true ↔ ∃ s r, text = s ++ r ∧ Forall (fits c) s ∧ P r = true.
Proof.
  induction text as [|t text IH]; simpl.
  - destruct (P []) eqn:E; split; try done.
    + intros _. by exists [], [].
    + intros (s & r & H & _ & Hr). apply eq_sym, app_eq_nil in H as [-> ->]. congruence.
  - destruct (P (t :: text)) eqn:E; [split; [intros _; by exists [], (t :: text)|done]|].
    assert ((t =? c) || (c =? DOT) = true ↔ fits c t) as Hf by (unfold fits; rewrite orb_true_iff, !Z.eqb_eq; intuition).
    destruct ((t =? c) || (c =? DOT)); [rewrite IH|]; split.
    + intros (s & r & -> & Hs & Hr). exists (t :: s), r. split; [done|]. split; [|done]. constructor; [by apply Hf|done].
    + intros (s & r & H & Hs & Hr). destruct s as [|x s]; simpl in H; simplify_eq; [congruence|]. inversion Hs; subst. by exists s, r.
    + done.
    + intros (s & r & H & Hs & Hr). destruct s as [|x s]; simpl in H; simplify_eq; [congruence|]. inversion Hs; subst. by apply Hf.
Qed.

Lemma matchhere_spec re text : matchhere re text = true ↔ ∃ s post, text = s ++ post ∧ matches re s post.
Proof.
  remember (length re) as n eqn:Hn. revert re text Hn. induction (lt_wf n) as [n _ IH]. intros re text ->.
  destruct re as [|c re1]; [split; [intros _; exists [], text; by split; [|constructor]|done]|].
  assert (head re1 ≠ Some STAR → (c, re1) ≠ (DOLLAR, []) →
    match text with [] => false | t :: text' => if (c =? DOT) || (c =? t) then matchhere re1 text' else false end = true ↔
    ∃ s post, text = s ++ post ∧ matches (c :: re1) s post) as Hone.
  { intros H1 H2. split.
    - destruct text as [|t text]; [done|]. destruct (_ || _) eqn:E; [|done]. apply fits_b in E.
      intros (s & post & -> & Hm)%(IH (length re1)); [|simpl; lia|done]. exists (t :: s), post. split; [done|]. by constructor.
    - intros (s & post & -> & Hm). inversion Hm; subst; try done.
      match goal with Hf : fits _ _ |- _ => apply fits_b in Hf; simpl; rewrite Hf end. apply (IH (length re1)); [simpl; lia|done|]. by do 2 eexists. }
  destruct re1 as [|d re2]; simpl.
  - destruct (Z.eqb_spec c DOLLAR) as [->|Hc]; [|apply Hone; [done|congruence]].
    split; [destruct text; [|done]; intros _; exists [], []; by split; [|constructor]|].
    intros (s & post & -> & Hm). by inversion Hm.
  - destruct (Z.eqb_spec d STAR) as [->|Hd]; [|apply Hone; [by intros [= ->]|done]].
    rewrite matchstar_spec. split.
    + intros (s & r & -> & Hs & (s2 & post & -> & Hm)%(IH (length re2))); [|simpl; lia|done].
      exists (s ++ s2), post. split; [by rewrite app_assoc|]. by constructor.
    + intros (s & post & -> & Hm). inversion Hm; subst; [|done].
      match goal with |- context [(?a ++ ?b) ++ post] => exists a, (b ++ post) end. rewrite app_assoc. split; [done|]. split; [done|]. apply (IH (length re2)); [simpl; lia|done|]. by do 2 eexists.
Qed.

Lemma match_any_spec re text : match_any re text = true ↔ ∃ pre s post, text = pre ++ s ++ post ∧ matches re s post.
Proof.
  induction text as [|t text IH]; simpl; destruct (matchhere _ _) eqn:E.
  1, 3: apply matchhere_spec in E as (s & post & E & Hm); split; [intros _; by exists [], s, post|done].
  - split; [done|]. intros (pre & s & post & H & Hm). apply eq_sym, app_eq_nil in H as [-> H]. rewrite <-E. apply matchhere_spec. by exists s, post.
  - rewrite IH. split; intros (pre & s & post & H & Hm).
    + exists (t :: pre), s, post. by rewrite H.
    + destruct pre as [|x pre]; simpl in H; simplify_eq; [|by exists pre, s, post].
      apply not_true_iff_false in E as []. rewrite H. apply matchhere_spec. by exists s, post.
Qed.

(** C37: [match] decides the language of the pattern: literal characters, [.],
    [c*], a leading [^] and a trailing [$], with [*] at the start, [^] elsewhere
    and [$] elsewhere taken literally. *)
Theorem match_finds re text : match_ re text = true ↔ found re text.
Proof.
  unfold match_, found. destruct re as [|c re1].
  - split; [done|]. intros _. by destruct text.
  - case_decide as Hc; [subst; simpl; apply matchhere_spec|]. if_false. apply match_any_spec.
Qed.

(** ** Which lines are printed *)

(** The complete lines of a text, and what follows the last newline. *)
Fixpoint lines (l : list Z) : list (list Z) * list Z :=
  match l with
  | [] => ([], [])
  | x :: l =>
      let '(ls, r) := lines l in
      if x =? NL then ([] :: ls, r) else match ls with [] => ([], x :: r) | l0 :: ls => ((x :: l0) :: ls, r) end
  end.

Definition print (re : list Z) (ls : list (list Z)) : list Z :=
  concat ((λ l, l ++ [NL]) <$> filter (λ l, match_ re l = true) ls).

(** The lines before the first one that does not fit the buffer. *)
Fixpoint short (ls : list (list Z)) : list (list Z) :=
  match ls with [] => [] | l :: ls => if (length l + 2 <=? BUFSIZE)%nat then l :: short ls else [] end.

Definition text_ok (l : list Z) : Prop := 0 ∉ l.

Lemma lines_line l t : NL ∉ l → lines (l ++ NL :: t) = (l :: (lines t).1, (lines t).2).
Proof.
  induction l as [|x l IH]; intros Hl; simpl; [by destruct (lines t)|].
  apply not_elem_of_cons in Hl as [Hx Hl]. rewrite IH by done. by if_false.
Qed.

Lemma lines_none l : NL ∉ l → lines l = ([], l).
Proof.
  induction l as [|x l IH]; intros Hl; [done|]. apply not_elem_of_cons in Hl as [Hx Hl]. simpl. rewrite IH by done. by if_false.
Qed.

Lemma lines_rest l : NL ∉ (lines l).2.
Proof.
  induction l as [|x l IH]; simpl; [apply not_elem_of_nil|]. destruct (lines l) as [ls r].
  destruct (Z.eqb_spec x NL) as [->|Hx]; [done|]. destruct ls; simpl in *; [|done]. by apply not_elem_of_cons.
Qed.

(** Splitting at the first newline. *)
Lemma first_line t : (NL ∉ t) ∨ ∃ l t', t = l ++ NL :: t' ∧ NL ∉ l.
Proof.
  induction t as [|x t IH]; [left; apply not_elem_of_nil|]. destruct (decide (x = NL)) as [->|Hx].
  - right. exists [], t. split; [done|apply not_elem_of_nil].
  - destruct IH as [H|(l & t' & -> & H)]; [left|right]; [by apply not_elem_of_cons|]. exists (x :: l), t'. split; [done|]. by apply not_elem_of_cons.
Qed.

Lemma lines_ind (P : list Z → Prop) :
  (∀ t, NL ∉ t → P t) → (∀ l t, NL ∉ l → P t → P (l ++ NL :: t)) → ∀ t, P t.
Proof.
  intros H1 H2 t. remember (length t) as n eqn:Hn. revert t Hn. induction (lt_wf n) as [n _ IH]. intros t ->.
  destruct (first_line t) as [H|(l & t' & -> & H)]; [by apply H1|]. apply H2; [done|]. eapply IH; [|done]. rewrite length_app. simpl. lia.
Qed.

Lemma lines_app a b : lines (a ++ b) = ((lines a).1 ++ (lines ((lines a).2 ++ b)).1, (lines ((lines a).2 ++ b)).2).
Proof.
  induction a as [a Ha|l a Hl IH] using lines_ind.
  - rewrite (lines_none a) by done. simpl. by destruct (lines (a ++ b)).
  - rewrite <-app_assoc. simpl. rewrite !lines_line, IH by done. done.
Qed.

Lemma lines_join a : a = concat ((λ l, l ++ [NL]) <$> (lines a).1) ++ (lines a).2.
Proof.
  induction a as [a Ha|l a Hl IH] using lines_ind; [by rewrite (lines_none a)|].
  rewrite lines_line by done. simpl. rewrite <-!app_assoc. simpl. do 2 f_equal. exact IH.
Qed.

Lemma print_cons re l ls : print re (l :: ls) = (if match_ re l then l ++ [NL] else []) ++ print re ls.
Proof. unfold print. rewrite filter_cons. destruct (match_ re l) eqn:E; [by rewrite decide_True|by rewrite decide_False]. Qed.

Lemma print_app re a b : print re (a ++ b) = print re a ++ print re b.
Proof. unfold print. by rewrite filter_app, fmap_app, concat_app. Qed.

(** The environment after lines were printed. *)
Definition printed (re : list Z) (ls : list (list Z)) (e : env) : env :=
  Env (disk e) (fds e) (shorts e) (fails e) (outs e ++ ((λ l, (1, l ++ [NL])) <$> filter (λ l, match_ re l = true) ls)).

Lemma printed_nil re e : printed re [] e = e.
Proof. unfold printed. destruct e; simpl. by rewrite app_nil_r. Qed.

Lemma printed_cons re l ls e :
  printed re (l :: ls) e = printed re ls (if match_ re l then wrote 1 (l ++ [NL]) e else e).
Proof.
  unfold printed, wrote. rewrite filter_cons. destruct (match_ re l); [rewrite decide_True by done|by rewrite decide_False by done].
  simpl. by rewrite <-app_assoc.
Qed.

Lemma printed_app re a b e : printed re (a ++ b) e = printed re b (printed re a e).
Proof. unfold printed. rewrite filter_app, fmap_app. simpl. by rewrite app_assoc. Qed.

Lemma written_printed re ls e : written 1 (printed re ls e) = written 1 e ++ print re ls.
Proof.
  revert e. induction ls as [|l ls IH]; intros e; [rewrite printed_nil; unfold print; simpl; by rewrite app_nil_r|].
  rewrite printed_cons, IH, print_cons, app_assoc. f_equal. destruct (match_ re l); [by rewrite written_wrote|by rewrite app_nil_r].
Qed.

Lemma grep_lines_run fuel re t : ∀ pre junk e,
  text_ok t → (length (lines t).1 < fuel)%nat → no_failures e →
  ∃ pre', grep_lines fuel re (pre ++ t ++ 0 :: junk) (length pre) e =
    (Ret (pre' ++ (lines t).2 ++ 0 :: junk, length pre'), printed re (lines t).1 e) ∧
    (length pre' + length (lines t).2 = length pre + length t)%nat.
Proof.
  revert fuel. induction t as [t Ht|l t Hl IH] using lines_ind; intros fuel pre junk e Hok Hf He.
  - rewrite lines_none in * by done. simpl in *. destruct fuel as [|fuel]; [lia|]. exists pre. simpl.
    rewrite drop_app_length, strchr_none, printed_nil by done. done.
  - rewrite lines_line in * by done. simpl in Hf. destruct fuel as [|fuel]; [lia|]. cbn [fst snd grep_lines].
    assert (text_ok l ∧ text_ok t) as [Hok1 Hok2] by (unfold text_ok in *; set_solver).
    rewrite drop_app_length, <-app_assoc. cbn [app]. rewrite strchr_some by done.
    assert (∀ x y, <[(length pre + length l)%nat := y]> (pre ++ l ++ x :: t ++ 0 :: junk) = (pre ++ l ++ [y]) ++ t ++ 0 :: junk) as Hins.
    { intros x y. rewrite insert_app_r, <-!app_assoc. f_equal. rewrite <-(Nat.add_0_r (length l)), insert_app_r. done. }
    assert (∀ y, (length pre + length l + 1)%nat = length (pre ++ l ++ [y])) as Hq by (intros y; rewrite !length_app; simpl; lia).
    rewrite Hins, printed_cons. rewrite <-(app_assoc pre), drop_app_length, <-app_assoc. cbn [app]. rewrite cstr_app by done.
    destruct (match_ re l).
    + rewrite Hins, (Hq NL). unfold mbind, U_bind. rewrite write_run by done.
      assert (take (length (pre ++ l ++ [NL]) - length pre) (drop (length pre) ((pre ++ l ++ [NL]) ++ t ++ 0 :: junk)) = l ++ [NL]) as ->.
      { rewrite <-app_assoc, drop_app_length. apply take_app_length'. rewrite !length_app. simpl. lia. }
      destruct (IH fuel (pre ++ l ++ [NL]) junk (wrote 1 (l ++ [NL]) e)) as (pre' & E & Hlen); [done|lia|done|].
      exists pre'. rewrite E. split; [done|]. revert Hlen. rewrite !length_app. simpl. lia.
    + rewrite (Hq 0). destruct (IH fuel (pre ++ l ++ [0]) junk e) as (pre' & E & Hlen); [done|lia|done|].
      exists pre'. rewrite <-!(app_assoc pre), <-app_assoc in E. cbn [app] in E. rewrite E. split; [done|]. revert Hlen. rewrite !length_app. simpl. lia.
Qed.

Lemma short_app a b : Forall (λ l, length l + 2 ≤ BUFSIZE)%nat a → short (a ++ b) = a ++ short b.
Proof.
  induction 1 as [|l a Hl Ha IH]; [done|]. cbn [app short]. rewrite IH. by rewrite (proj2 (Nat.leb_le _ _)).
Qed.

Lemma short_long r t : NL ∉ r → (BUFSIZE ≤ length r + 1)%nat → short (lines (r ++ t)).1 = [].
Proof.
  intros Hr Hl. rewrite lines_app, lines_none by done. cbn [fst snd app].
  destruct (first_line (r ++ t)) as [H|(l & t' & E & H)]; [by rewrite lines_none|].
  rewrite E, lines_line by done. cbn [fst short]. destruct (Nat.leb_spec (length l + 2) BUFSIZE) as [Hle|]; [|done]. exfalso. apply Hr.
  assert (r !! length l = Some NL) as Hin; [|by eapply list_elem_of_lookup_2].
  rewrite <-(lookup_app_l r t) by lia. rewrite E. by rewrite list_lookup_middle.
Qed.

Lemma lines_fit t k : (length t ≤ k)%nat → Forall (λ l, length l + 1 ≤ k)%nat (lines t).1.
Proof.
  revert k. induction t as [t Ht|l t Hl IH] using lines_ind; intros k; [by rewrite lines_none|].
  rewrite lines_line, length_app by done. simpl. intros Hk. constructor; [lia|]. apply IH. lia.
Qed.

Lemma lines_fewer t : (length (lines t).1 ≤ length t)%nat.
Proof.
  induction t as [t Ht|l t Hl IH] using lines_ind; [rewrite lines_none by done; simpl; lia|].
  rewrite lines_line, length_app by done. simpl. lia.
Qed.

Lemma lines_rest_ok t : text_ok t → text_ok (lines t).2.
Proof. unfold text_ok. rewrite (lines_join t) at 1. set_solver. Qed.

Lemma blit_length buf at_ l : (at_ + length l ≤ length buf)%nat → length (blit buf at_ l) = length buf.
Proof. intros H. unfold blit. rewrite !length_app, length_take, length_drop. lia. Qed.

Lemma grep_loop_run fuel re fd : ∀ buf r t e,
  (length t < fuel)%nat → length buf = BUFSIZE → take (length r) buf = r → (length r < BUFSIZE)%nat →
  NL ∉ r → text_ok (r ++ t) → fds e !! fd = Some t → no_failures e →
  ∃ buf' e', grep_loop fuel re buf (length r) fd e = (Ret buf', e') ∧ length buf' = BUFSIZE ∧
    outs e' = outs (printed re (short (lines (r ++ t)).1) e) ∧ disk e' = disk e ∧ fails e' = fails e ∧
    ∃ t', fds e' = <[fd := t']> (fds e).
Proof.
  induction fuel as [|fuel IH]; intros buf r t e Hf Hbuf Htake Hr HNL Hok Ht He; [lia|]. cbn [grep_loop].
  destruct (read_run fd (BUFSIZE - length r - 1) t e Ht) as (l & t1 & e1 & E & -> & F1 & F2 & F3 & F4 & Hl & Hnil).
  unfold mbind, U_bind. rewrite E. destruct l as [|x l0].
  { exists buf, e1. split; [done|]. split; [done|]. rewrite F3.
    assert (short (lines (r ++ [] ++ t1)).1 = []) as ->.
    { destruct (Hnil eq_refl) as [Hz|Hz]; [apply short_long; [done|lia]|]. simpl in Hz. subst. by rewrite !app_nil_r, lines_none. }
    rewrite printed_nil. split; [done|]. split; [done|]. split; [done|]. by exists t1. }
  clear Hnil E Ht. assert (0 < length (x :: l0))%nat as Hpos by (simpl; lia). revert Hl Hok Hpos Hf. generalize (x :: l0). clear x l0. intros l Hl Hok Hpos Hf.
  assert (∃ junk, <[(length r + length l)%nat := 0]> (blit buf (length r) l) = [] ++ (r ++ l) ++ 0 :: junk ∧
    (length r + length l + S (length junk) = BUFSIZE)%nat) as (junk & -> & Hjunk).
  { unfold blit. rewrite Htake. destruct (drop (length r + length l) buf) as [|x d] eqn:Ed; apply (f_equal length) in Ed as Hd;
      rewrite length_drop in Hd; simpl in Hd; [lia|]. exists d. split; [|lia].
    rewrite insert_app_r, <-(Nat.add_0_r (length l)), insert_app_r. by rewrite <-app_assoc. }
  assert (text_ok (r ++ l)) as Hok1 by (unfold text_ok in *; set_solver).
  destruct (grep_lines_run (S BUFSIZE) re (r ++ l) [] junk e1 Hok1) as (pre & Eg & Hlen).
  { pose proof (lines_fewer (r ++ l)). rewrite length_app in *. lia. }
  { unfold no_failures. congruence. }
  change (length (@nil Z)) with 0%nat in *. rewrite Eg. clear Eg. cbv beta iota.
  rewrite length_app in Hlen. set (r1 := (lines (r ++ l)).2) in *. rewrite (proj2 (Nat.ltb_lt 0 _)) by lia.
  assert ((length r + length l - length pre)%nat = length r1) as -> by lia. rewrite drop_app_length, take_app_length.
  destruct (IH (blit (pre ++ r1 ++ 0 :: junk) 0 r1) r1 t1 (printed re (lines (r ++ l)).1 e1)) as (buf' & e' & E & Hb' & G1 & G2 & G3 & t' & G4).
  - rewrite length_app in Hf. lia.
  - rewrite blit_length; rewrite !length_app; simpl; lia.
  - unfold blit. rewrite take_0. simpl. by apply take_app_length.
  - lia.
  - apply lines_rest.
  - assert (text_ok r1) by (by apply lines_rest_ok). unfold text_ok in *. set_solver.
  - simpl. by rewrite F1, lookup_insert_eq.
  - unfold no_failures. simpl. congruence.
  - exists buf', e'. split; [done|]. split; [done|]. rewrite G1, G2, G3, G4. simpl. rewrite F1, F2, F3, F4.
    split; [|split; [done|]; split; [done|]; exists t'; by rewrite insert_insert_eq].
    rewrite <-app_assoc, <-fmap_app, <-filter_app. do 3 f_equal.
    rewrite app_assoc, (lines_app (r ++ l)). cbn [fst]. rewrite short_app; [done|].
    eapply Forall_impl; [apply (lines_fit _ (BUFSIZE - 1)); rewrite length_app; lia|]. simpl. intros x Hx. unfold BUFSIZE in *. lia.
Qed.

Lemma grep_run re buf fd t e :
  length buf = BUFSIZE → text_ok t → fds e !! fd = Some t → no_failures e →
  ∃ buf' e', grep re buf fd e = (Ret buf', e') ∧ length buf' = BUFSIZE ∧
    outs e' = outs (printed re (short (lines t).1) e) ∧ disk e' = disk e ∧ fails e' = fails e ∧ ∃ t', fds e' = <[fd := t']> (fds e).
Proof.
  intros Hbuf Hok Ht He. unfold grep. rewrite Ht. simpl default.
  apply (grep_loop_run (S (length t)) re fd buf [] t e); try done; [|unfold BUFSIZE; simpl; lia|apply not_elem_of_nil]. lia.
Qed.

Lemma main_files_run re fd files texts : ∀ buf e,
  length buf = BUFSIZE → no_failures e → free_fd (Z.to_nat NOFILE) 0 (fds e) = Some fd →
  Forall2 (λ f t, disk e !! f = Some t ∧ text_ok t) files texts →
  ∃ e', main_files re buf files e = (Ret tt, e') ∧
    written 1 e' = written 1 e ++ concat ((λ t, print re (short (lines t).1)) <$> texts) ∧ fds e' = fds e.
Proof.
  intros buf e Hbuf He Hfd Hall. remember (disk e) as d eqn:Hd. revert buf e Hbuf He Hfd Hd.
  induction Hall as [|f t files texts [Hf Ht] Hall IH]; intros buf e Hbuf He Hfd ->; [exists e; simpl; by rewrite app_nil_r|].
  cbn [main_files]. destruct (open_run f t fd e Hf Hfd) as (Eo & Hfd0 & Hfree). unfold mbind, U_bind. rewrite Eo. if_false.
  set (e1 := Env _ _ _ _ _). destruct (grep_run re buf fd t e1) as (buf' & e2 & E & Hb & F1 & F2 & F3 & t' & F4); [done|done|by simpl; rewrite lookup_insert_eq|done|].
  rewrite E. unfold close. set (e3 := Env _ _ _ _ _).
  assert (fds e3 = fds e) as Hfds.
  { simpl. rewrite F4. simpl. rewrite insert_insert_eq. by apply delete_insert_id. }
  destruct (IH buf' e3) as (e' & E' & W & Hw); [done|unfold no_failures; simpl; by rewrite F3|by rewrite Hfds|done|].
  exists e'. split; [done|]. split; [|by rewrite Hw]. rewrite W. simpl. rewrite app_assoc. f_equal.
  rewrite <-(written_printed re _ e). unfold written. simpl. by rewrite F1.
Qed.

(** The texts that [grep] reads: the files, or else the standard input. *)
Definition sources (e : env) (files texts : list (list Z)) : Prop :=
  match files with
  | [] => ∃ t, fds e !! 0 = Some t ∧ text_ok t ∧ texts = [t]
  | _ => Forall2 (λ f t, disk e !! f = Some t ∧ text_ok t) files texts
  end.

(** C38: [grep re files], with files that exist, texts without a NUL and writes
    that succeed, prints, in order, exactly the matching lines of the files or of
    the standard input, whatever the sizes of the reads, and exits with 0; but of each text only the lines before the first one that does not
    fit the buffer with its newline and a NUL, and never an unfinished last
    line.  It never reads past the terminator of its buffer. *)
Theorem grep_prints prog re files texts fd e :
  no_failures e → free_fd (Z.to_nat NOFILE) 0 (fds e) = Some fd → sources e files texts →
  ∃ e', main (prog :: re :: files) e = (Exited 0, e') ∧
    written 1 e' = written 1 e ++ concat ((λ t, print re (short (lines t).1)) <$> texts).
Proof.
  intros He Hfd Hsrc. cbn [main]. unfold sources in Hsrc. destruct files as [|f files].
  - destruct Hsrc as (t & Ht & Hok & ->).
    destruct (grep_run re (replicate BUFSIZE 0) 0 t e) as (buf & e' & E & _ & F1 & _); [apply length_replicate|done..|].
    cbn [length Nat.eqb]. unfold mbind, U_bind. rewrite E. exists e'. split; [done|]. simpl.
    rewrite app_nil_r, <-written_printed. unfold written. by rewrite F1.
  - destruct (main_files_run re fd (f :: files) texts (replicate BUFSIZE 0) e) as (e' & E & W & _); [apply length_replicate|done..|].
    cbn [length Nat.eqb]. unfold mbind, U_bind. rewrite E. by exists e'.
Qed.

(** Two files, read with short reads; the last line of the first one is cut. *)
Lemma grep_prints_witness :
  let e := Env {[chars "a" := chars "xay" ++ [10] ++ chars "b" ++ [10] ++ chars "a"; chars "b" := chars "a" ++ [10]]}
    {[0 := []]} [5; 1; 0; 3]%nat [] [] in
  ∃ e', main [chars "grep"; chars "a.*"; chars "a"; chars "b"] e = (Exited 0, e') ∧
    written 1 e' = chars "xay" ++ [10] ++ chars "a" ++ [10].
Proof.
  intros e.
  destruct (grep_prints (chars "grep") (chars "a.*") [chars "a"; chars "b"]
    [chars "xay" ++ [10] ++ chars "b" ++ [10] ++ chars "a"; chars "a" ++ [10]] 1 e) as (e' & E & W).
  - done.
  - done.
  - repeat constructor; apply (bool_decide_unpack _); vm_compute; exact I.
  - exists e'. split; [exact E|]. rewrite W. vm_compute. reflexivity.
Defined.
