(* ===== verification/Umalloc.v ===== *)
(** * The memory allocator of user programs, [user/umalloc.c]

    The allocator of Kernighan and Ritchie: the free blocks are a circular list
    in the order of their addresses.  A [Header] is 16 bytes; its fields are
    functions of its address.  The theorems relate the pointers to a sorted list
    of blocks that do not touch, and say that a block that [malloc] returns
    overlaps no other until it is freed. *)

From S2P Require Import Prelude.

(** [p->s.ptr], [p->s.size], [freep], and the end of the memory of the process. *)
Record heap : Type := Heap { ptr : Z → Z; size : Z → Z; freep : Z; brk : Z }.

Definition set_ptr (p v : Z) (h : heap) : heap := Heap (upd (ptr h) p v) (size h) (freep h) (brk h).
Definition set_size (p v : Z) (h : heap) : heap := Heap (ptr h) (upd (size h) p v) (freep h) (brk h).
Definition set_freep (p : Z) (h : heap) : heap := Heap (ptr h) (size h) p (brk h).
Definition set_brk (b : Z) (h : heap) : heap := Heap (ptr h) (size h) (freep h) b.

Section umalloc.
  (** [&base], and the most memory that the kernel gives. *)
  Variables base limit : Z.

(** The loop of [free] that finds the block before [bp]. *)
Fixpoint free_find (fuel : nat) (h : heap) (bp p : Z) : option Z :=
  match fuel with
  | O => None
  | S fuel =>
      if (p <? bp) && (bp <? ptr h p) then Some p
      else if (ptr h p <=? p) && ((p <? bp) || (bp <? ptr h p)) then Some p
      else free_find fuel h bp (ptr h p)
  end.

Definition free_join (h : heap) (bp p : Z) : heap :=
  let h :=
    if bp + 16 * size h bp =? ptr h p then
      let h := set_size bp (u32 (size h bp + size h (ptr h p))) h in
      set_ptr bp (ptr h (ptr h p)) h
    else set_ptr bp (ptr h p) h in
  let h :=
    if p + 16 * size h p =? bp then
      let h := set_size p (u32 (size h p + size h bp)) h in
      set_ptr p (ptr h bp) h
    else set_ptr p bp h in
  set_freep p h.

Definition free (fuel : nat) (ap : Z) (h : heap) : option heap :=
  let bp := ap - 16 in
  match free_find fuel h bp (freep h) with
  | Some p => Some (free_join h bp p)
  | None => None
  end.

(** The system call; the argument is an [int], and a negative one gives memory
    back.  [-1] is [None]. *)
Definition sbrk (n : Z) (h : heap) : option (Z * heap) :=
  if n <? 0 then Some (brk h, if brk h + n <? 0 then h else set_brk (brk h + n) h)
  else if brk h + n <=? limit then Some (brk h, set_brk (brk h + n) h)
  else None.

(** [Some 0] is the null pointer. *)
Definition morecore (fuel : nat) (nu : Z) (h : heap) : option (Z * heap) :=
  let nu := if nu <? 4096 then 4096 else nu in
  match sbrk (s32 (nu * 16)) h with
  | None => Some (0, h)
  | Some (hp, h) =>
      let h := set_size hp nu h in
      h ← free fuel (hp + 16) h;
      Some (freep h, h)
  end.

(** The block [p] is large enough: its end, or all of it, is returned. *)
Definition malloc_take (nunits prevp p : Z) (h : heap) : Z * heap :=
  let '(p, h) :=
    if size h p =? nunits then (p, set_ptr prevp (ptr h p) h)
    else
      let h := set_size p (u32 (size h p - nunits)) h in
      let p := p + 16 * size h p in
      (p, set_size p nunits h) in
  (p + 16, set_freep prevp h).

Fixpoint malloc_loop (fuel : nat) (nunits prevp p : Z) (h : heap) : option (Z * heap) :=
  match fuel with
  | O => None
  | S fuel' =>
      if nunits <=? size h p then Some (malloc_take nunits prevp p h)
      else if p =? freep h then
        '(p, h) ← morecore fuel nunits h;
        if p =? 0 then Some (0, h) else malloc_loop fuel' nunits p (ptr h p) h
      else malloc_loop fuel' nunits p (ptr h p) h
  end.

Definition malloc (fuel : nat) (nbytes : Z) (h : heap) : option (Z * heap) :=
  let nunits := u32 ((nbytes + 16 - 1) / 16 + 1) in
  let h :=
    if freep h =? 0 then set_size base 0 (set_freep base (set_ptr base base h))
    else h in
  malloc_loop fuel nunits (freep h) (ptr h (freep h)) h.

(** ** The list of the free blocks *)

(** The blocks of [l] with their sizes, each pointing to the next and the last
    to [last]. *)
Fixpoint links (h : heap) (l : list (Z * Z)) (last : Z) : Prop :=
  match l with
  | [] => True
  | x :: l => size h x.1 = x.2 ∧ ptr h x.1 = (match l with [] => last | y :: _ => y.1 end) ∧ links h l last
  end.

Definition first_of (l : list (Z * Z)) (last : Z) : Z := match l with [] => last | y :: _ => y.1 end.

(** Blocks in the order of their addresses, none touching the next. *)
Fixpoint ordered (lo : Z) (l : list (Z * Z)) (hi : Z) : Prop :=
  match l with
  | [] => lo ≤ hi
  | x :: l => lo < x.1 ∧ 0 ≤ x.2 ∧ ordered (x.1 + 16 * x.2) l hi
  end.

Lemma links_app h a b last : links h (a ++ b) last ↔ links h a (first_of b last) ∧ links h b last.
Proof.
  induction a as [|x a IH]; simpl; [tauto|]. rewrite IH. destruct a as [|y a]; simpl; [|tauto]. destruct b; simpl; tauto.
Qed.

Lemma links_ext h h' l last : (∀ x, x ∈ l → size h' x.1 = size h x.1 ∧ ptr h' x.1 = ptr h x.1) → links h l last → links h' l last.
Proof.
  induction l as [|x l IH]; [done|]. simpl. intros H (H1 & H2 & H3). destruct (H x ltac:(by left)) as [E1 E2].
  rewrite E1, E2. do 2 (split; [done|]). apply IH; [|done]. intros y Hy. apply H. by right.
Qed.

Lemma ordered_mid lo a x b hi :
  ordered lo (a ++ x :: b) hi ↔ ordered lo a (x.1 - 1) ∧ 0 ≤ x.2 ∧ ordered (x.1 + 16 * x.2) b hi.
Proof.
  revert lo. induction a as [|y a IH]; intros lo; simpl.
  - split; intros (H1 & H2 & H3); (split; [lia|done]).
  - rewrite IH. tauto.
Qed.

Lemma ordered_bounds lo l hi : ordered lo l hi → lo ≤ hi ∧ ∀ x, x ∈ l → lo < x.1 ∧ 0 ≤ x.2 ∧ x.1 + 16 * x.2 ≤ hi.
Proof.
  revert lo. induction l as [|y l IH]; intros lo; simpl; [intros H; split; [done|]; by intros x ?%not_elem_of_nil|].
  intros (H1 & H2 & H3). destruct (IH _ H3) as [H4 H5]. split; [lia|]. intros x [->|Hx]%elem_of_cons; [lia|]. specialize (H5 x Hx). lia.
Qed.

Lemma ordered_weaken lo lo' l hi hi' : ordered lo l hi → lo' ≤ lo → hi ≤ hi' → ordered lo' l hi'.
Proof.
  revert lo lo'. induction l as [|x l IH]; intros lo lo'; simpl; [lia|]. intros (H1 & H2 & H3) Hlo Hhi. split; [lia|]. split; [lia|].
  by apply (IH (x.1 + 16 * x.2)).
Qed.

(** ** Putting a block back *)

(** The list after [free_join]: the block joined with the ones it touches. *)
Definition join_right (bp n : Z) (suf : list (Z * Z)) : list (Z * Z) :=
  match suf with
  | (q, k) :: suf' => if bp + 16 * n =? q then (bp, n + k) :: suf' else (bp, n) :: suf
  | [] => [(bp, n)]
  end.
Definition join (p s : Z) (r : list (Z * Z)) : list (Z * Z) :=
  match r with
  | (bp, n) :: r' => if p + 16 * s =? bp then (p, s + n) :: r' else (p, s) :: r
  | [] => [(p, s)]
  end.

Definition same_off (l : list Z) (h h' : heap) : Prop :=
  brk h' = brk h ∧ ∀ a, a ∉ l → ptr h' a = ptr h a ∧ size h' a = size h a.

Lemma join_right_links h bp n p suf :
  links h suf base → size h bp = n → ptr h p = first_of suf base → bp ≠ p → bp ∉ suf.*1 → (∀ x, x ∈ suf → base < x.1) → base < bp → 0 < n →
  (∀ x, head suf = Some x → 0 ≤ n + x.2 < 2 ^ 32) →
  ∃ h', (if bp + 16 * size h bp =? ptr h p then
      let h := set_size bp (u32 (size h bp + size h (ptr h p))) h in set_ptr bp (ptr h (ptr h p)) h
    else set_ptr bp (ptr h p) h) = h' ∧
    links h' (join_right bp n suf) base ∧ same_off [bp] h h' ∧ freep h' = freep h.
Proof.
  intros Hl Hn Hp Hne Hin Hlow Hbp Hn0 Hsum. eexists. split; [reflexivity|]. cbv zeta.
  change (ptr (set_size bp (u32 (size h bp + size h (ptr h p))) h)) with (ptr h). rewrite Hp, Hn.
  assert (∀ v w, same_off [bp] h (set_ptr bp v (set_size bp w h)) ∧ same_off [bp] h (set_ptr bp v h)) as Hoff.
  { intros v w. split; (split; [done|]); intros a Ha; apply not_elem_of_cons in Ha as [Ha _]; simpl; by rewrite ?upd_ne. }
  destruct suf as [|[q k] suf]; simpl first_of; simpl join_right.
  - rewrite (proj2 (Z.eqb_neq _ _)) by lia. split; [|split; [by apply (Hoff base 0)|done]]. simpl. by rewrite upd_eq.
  - cbn [links first_of] in Hl. destruct Hl as (H1 & H2 & H3). cbn [fst snd] in *. apply not_elem_of_cons in Hin as [Hq Hin]. cbn [fst] in Hq.
    specialize (Hsum (q, k) eq_refl). simpl in Hsum.
    assert (∀ h', same_off [bp] h h' → links h' suf base) as Hsuf.
    { intros h' [_ Hh']. apply (links_ext h); [|done]. intros x Hx. assert (x.1 ∉ [bp]); [|by destruct (Hh' x.1) as [-> ->]].
      intros Ex%list_elem_of_singleton. apply Hin. rewrite <-Ex. by apply list_elem_of_fmap_2. }
    case_if.
    + split; [|split; [by apply (Hoff (ptr h q) (u32 (n + size h q)))|done]]. cbn [links]. cbn [fst snd size ptr set_ptr set_size].
      rewrite !upd_eq, H1, u32_small by lia. split; [done|]. split; [by rewrite H2|]. apply Hsuf. apply (Hoff (ptr h q) (n + k)).
    + split; [|split; [by apply (Hoff q 0)|done]]. cbn [links]. cbn [fst snd size ptr set_ptr]. rewrite upd_eq, (upd_ne _ bp q) by done.
      split; [done|]. split; [done|]. split; [done|]. split; [done|]. apply Hsuf, (Hoff q 0).
Qed.

Lemma join_links h p s bp n r pre :
  links h ((bp, n) :: r) base → links h pre p → size h p = s → bp ≠ p → p ∉ r.*1 → p ∉ pre.*1 → 0 ≤ s + n < 2 ^ 32 →
  ∃ h', (if p + 16 * size h p =? bp then
      let h := set_size p (u32 (size h p + size h bp)) h in set_ptr p (ptr h bp) h
    else set_ptr p bp h) = h' ∧
    links h' (pre ++ join p s ((bp, n) :: r)) base ∧ same_off [p] h h' ∧ freep h' = freep h.
Proof.
  intros Hl Hpre Hs Hne Hr Hnpre Hsum. eexists. split; [reflexivity|]. cbv zeta.
  change (ptr (set_size p (u32 (size h p + size h bp)) h)) with (ptr h). rewrite Hs.
  cbn [links fst snd] in Hl. destruct Hl as (H1 & H2 & H3). rewrite H1.
  assert (∀ v w, same_off [p] h (set_ptr p v (set_size p w h)) ∧ same_off [p] h (set_ptr p v h)) as Hoff.
  { intros v w. split; (split; [done|]); intros a Ha; apply not_elem_of_cons in Ha as [Ha _]; simpl; by rewrite ?upd_ne. }
  assert (∀ h' l z, same_off [p] h h' → p ∉ l.*1 → links h l z → links h' l z) as Hsame.
  { intros h' l z [_ Hh'] Hl. apply links_ext. intros x Hx. assert (x.1 ∉ [p]); [|by destruct (Hh' x.1) as [-> ->]].
    intros Ex%list_elem_of_singleton. apply Hl. rewrite <-Ex. by apply list_elem_of_fmap_2. }
  unfold join. case_if.
  - destruct (Hoff (ptr h bp) (u32 (s + n))) as [Ho _]. split; [|by split]. apply links_app. split; [by apply Hsame|]. cbn [links fst snd].
    cbn [size ptr set_ptr set_size]. rewrite !upd_eq, u32_small by lia. split; [done|]. split; [done|]. rewrite u32_small in Ho by lia. by apply Hsame.
  - destruct (Hoff bp 0) as [_ Ho]. split; [|by split]. apply links_app. split; [by apply Hsame|]. cbn [links fst snd].
    split; [done|]. split; [by cbn [ptr set_ptr]; rewrite upd_eq|]. split; [done|]. split; [by cbn [ptr set_ptr]; rewrite upd_ne|]. by apply Hsame.
Qed.

(** The block [bp] goes after the block [p] of the list. *)
Lemma free_join_links h pre p s suf bp n :
  links h (pre ++ (p, s) :: suf) base → size h bp = n → NoDup (bp :: (pre ++ (p, s) :: suf).*1) →
  (∀ x, x ∈ suf → base < x.1) → base < bp → 0 ≤ s → 0 < n →
  (∀ x, head suf = Some x → 0 ≤ n + x.2 < 2 ^ 32) → (∀ y r, join_right bp n suf = y :: r → 0 ≤ s + y.2 < 2 ^ 32) →
  links (free_join h bp p) (pre ++ join p s (join_right bp n suf)) base ∧ same_off [bp; p] h (free_join h bp p) ∧
  freep (free_join h bp p) = p.
Proof.
  intros Hl Hn Hnd Hlow Hbp Hs Hn0 Hsum1 Hsum2. apply links_app in Hl as [Hpre Hl]. cbn [links first_of fst snd] in *. destruct Hl as (H1 & H2 & H3).
  rewrite fmap_app, fmap_cons in Hnd. apply NoDup_cons in Hnd as [Hbpn Hnd]. apply NoDup_app in Hnd as (_ & Hpp & Hnd).
  apply NoDup_cons in Hnd as [Hps _]. cbn [fst] in *. rewrite elem_of_app, elem_of_cons in Hbpn.
  destruct (join_right_links h bp n p suf) as (h1 & E1 & L1 & [Hb1 S1] & F1); try done; [tauto|tauto|].
  assert (∀ a, a ≠ bp → ptr h1 a = ptr h a ∧ size h1 a = size h a) as S1' by (intros a Ha; apply S1; set_solver).
  assert (∃ n1 r, join_right bp n suf = (bp, n1) :: r ∧ p ∉ r.*1) as (n1 & r & Er & Hpr).
  { unfold join_right. destruct suf as [|[q k] suf]; [exists n, []; split; [done|apply not_elem_of_nil]|].
    apply not_elem_of_cons in Hps as [Hpq Hps]. case_if; [by exists (n + k), suf|]. exists n, ((q, k) :: suf). split; [done|]. by apply not_elem_of_cons. }
  rewrite Er in *. destruct (join_links h1 p s bp n1 r pre) as (h2 & E2 & L2 & [Hb2 S2] & F2); try done.
  - apply (links_ext h); [|done]. intros x Hx. destruct (S1' x.1) as [-> ->]; [|done]. intros <-. apply Hbpn. left. by apply list_elem_of_fmap_2.
  - destruct (S1' p) as [_ ->]; [|done]. intros ->. tauto.
  - tauto.
  - intros Hin. by apply (Hpp p); [|left].
  - by apply (Hsum2 (bp, n1) r).
  - unfold free_join. cbv zeta in E1, E2 |- *. rewrite E1, E2. split; [by apply (links_ext h2)|]. split; [|done]. split; [simpl; congruence|].
    intros a Ha. apply not_elem_of_cons in Ha as [Ha1 Ha2]. destruct (S1' a Ha1) as [<- <-]. by apply S2.
Qed.

(** ** Finding the place of a block *)

Lemma find_here h pre p s suf bp fuel :
  links h (pre ++ (p, s) :: suf) base → base ≤ p → p < bp → (∀ x, x ∈ suf → bp < x.1) → base < bp →
  free_find (S fuel) h bp p = Some p.
Proof.
  intros [_ Hl]%links_app Hb Hp Hsuf Hbp. cbn [links fst snd] in Hl. destruct Hl as (_ & Hn & _). cbn [free_find]. rewrite Hn.
  destruct suf as [|y suf].
  - rewrite (proj2 (Z.ltb_ge bp base)), andb_false_r by lia. by if_true.
  - specialize (Hsuf y ltac:(by left)). by if_true.
Qed.

(** From a block before the place. *)
Lemma find_before h l0 mid p s suf bp : ∀ start st fuel,
  links h (l0 ++ (start, st) :: mid ++ (p, s) :: suf) base → ordered (base - 1) (l0 ++ (start, st) :: mid ++ (p, s) :: suf) (brk h) →
  p < bp → (∀ x, x ∈ suf → bp < x.1) → base < bp → (length mid + 1 < fuel)%nat →
  free_find fuel h bp start = Some p.
Proof.
  revert l0. induction mid as [|y mid IH]; intros l0 start st fuel Hl Ho Hp Hsuf Hbp Hf; (destruct fuel as [|fuel]; [lia|]).
  - pose proof Hl as [_ Hl']%links_app. cbn [app links fst snd] in Hl'. destruct Hl' as (_ & Hn & _). cbn [free_find]. rewrite Hn.
    pose proof Ho as (_ & H0 & H1)%ordered_mid. cbn [app ordered fst snd] in H1, H0.
    if_false. if_false. destruct fuel as [|fuel]; [simpl in Hf; lia|].
    apply (find_here h (l0 ++ [(start, st)]) p s suf); [by rewrite <-app_assoc| |done|done|done].
    rewrite ordered_mid in Ho. destruct Ho as [Ho _]. apply ordered_bounds in Ho as [Ho _]. cbn [fst] in Ho. lia.
  - pose proof Hl as [_ Hl']%links_app. cbn [app links fst snd] in Hl'. destruct Hl' as (_ & Hn & _). cbn [free_find]. rewrite Hn.
    pose proof Ho as (_ & H0 & H1)%ordered_mid. cbn [app ordered fst snd] in H1, H0. destruct H1 as (H1 & H2 & H3).
    assert (y.1 < bp).
    { apply ordered_mid in H3 as (H3 & _). apply ordered_bounds in H3 as [H3 _]. cbn [fst] in H3. lia. }
    if_false. if_false. destruct y as [y k]. apply (IH (l0 ++ [(start, st)]) y k); try done; [by rewrite <-app_assoc..|simpl in Hf; lia].
Qed.

(** From a block after the place, around the end of the list. *)
Lemma find_after h bp l1 : ∀ l0 start st fuel,
  links h (l0 ++ (start, st) :: l1) base → ordered (base - 1) (l0 ++ (start, st) :: l1) (brk h) → bp < start → base < bp →
  free_find (S (length l1) + fuel) h bp start = free_find fuel h bp base.
Proof.
  induction l1 as [|y l1 IH]; intros l0 start st fuel Hl Ho Hst Hbp;
    (pose proof Hl as [_ Hl']%links_app; cbn [links fst snd] in Hl'; destruct Hl' as (_ & Hn & _)).
  - simpl. rewrite Hn. if_false. by if_false.
  - change (S (length (y :: l1)) + fuel)%nat with (S (S (length l1) + fuel)). cbn [free_find]. rewrite Hn.
    pose proof Ho as (_ & H0 & H1)%ordered_mid. cbn [ordered fst snd] in H1, H0. if_false. if_false.
    destruct y as [y k]. cbn [fst snd] in *. apply (IH (l0 ++ [(start, st)]) y k); [by rewrite <-app_assoc..|lia|done].
Qed.

Lemma split_at bp l : bp ∉ l.*1 → (∀ lo hi, ordered lo l hi → ∃ a b, l = a ++ b ∧ (∀ x, x ∈ a → x.1 < bp) ∧ (∀ x, x ∈ b → bp < x.1)).
Proof.
  induction l as [|y l IH]; intros Hn lo hi Ho; [exists [], []; split; [done|]; split; by intros x ?%not_elem_of_nil|].
  apply not_elem_of_cons in Hn as [Hy Hn]. simpl in Ho. destruct Ho as (H1 & H2 & H3). destruct (decide (y.1 < bp)) as [Hlt|Hge].
  - destruct (IH Hn _ _ H3) as (a & b & -> & Ha & Hb). exists (y :: a), b. split; [done|]. split; [|done].
    intros x [->|Hx]%elem_of_cons; [done|]. by apply Ha.
  - exists [], (y :: l). split; [done|]. split; [by intros x ?%not_elem_of_nil|]. apply ordered_bounds in H3 as [_ H3].
    intros x [->|Hx]%elem_of_cons; [lia|]. specialize (H3 x Hx). lia.
Qed.

(** The loop ends at the place of the block, wherever it starts. *)
Lemma free_find_run h rest bp start fuel :
  links h ((base, 0) :: rest) base → ordered base rest (brk h) → base < bp → bp ∉ rest.*1 → start ∈ base :: rest.*1 →
  (2 * length rest + 4 ≤ fuel)%nat →
  ∃ pre p s suf, (base, 0) :: rest = pre ++ (p, s) :: suf ∧ p < bp ∧ (∀ x, x ∈ suf → bp < x.1) ∧ free_find fuel h bp start = Some p.
Proof.
  intros Hl Ho Hbp Hn Hst Hf. assert (ordered (base - 1) ((base, 0) :: rest) (brk h)) as Hof.
  { simpl. rewrite Z.add_0_r. split; [lia|done]. }
  destruct (split_at bp rest Hn _ _ Ho) as (a & suf & -> & Ha & Hb).
  destruct (exists_last (l := (base, 0) :: a)) as (pre & [p s] & E); [done|].
  assert ((base, 0) :: a ++ suf = pre ++ (p, s) :: suf) as El by (rewrite app_comm_cons, E, <-app_assoc; done).
  assert (p < bp) as Hp.
  { assert ((p, s) ∈ (base, 0) :: a) as Hin by (rewrite E; set_solver). apply elem_of_cons in Hin as [[= -> _]|Hin]; [done|]. by apply (Ha (p, s)). }
  exists pre, p, s, suf. split; [done|]. split; [done|]. split; [done|]. rewrite El in *.
  assert (length pre + 1 + length suf = length (a ++ suf) + 1)%nat as Hlen.
  { clear -El. apply (f_equal length) in El. cbn [length] in El. rewrite !length_app in *. cbn [length] in El. lia. }
  revert Hlen Hf. generalize (length (a ++ suf)). intros len Hlen Hf.
  assert (∀ k, (length pre + 1 < k)%nat → free_find k h bp base = Some p) as Hbase.
  { intros k Hk. destruct pre as [|[b0 s0] pre]; simpl in E.
    - injection E as E1 E2 E3. subst p. destruct k as [|k]; [lia|]. apply (find_here h [] base s suf); try done.
    - injection E as E1 E2 E3. subst b0. apply (find_before h [] pre p s suf bp base s0); try done. simpl in Hk. lia. }
  assert (start ∈ (pre ++ (p, s) :: suf).*1) as Hin.
  { rewrite <-El. exact Hst. }
  apply list_elem_of_fmap in Hin as ([st k] & -> & Hin). cbn [fst]. apply elem_of_app in Hin as [Hin|[Hin|Hin]%elem_of_cons].
  - apply list_elem_of_split in Hin as (l0 & mid & ->). rewrite <-app_assoc in *. cbn [app] in *.
    apply (find_before h l0 mid p s suf bp st k); try done. rewrite length_app in Hlen. cbn [length] in Hlen. lia.
  - injection Hin as -> ->. destruct fuel as [|fuel]; [lia|]. apply (find_here h pre p s suf); try done.
    apply ordered_mid in Hof as [Hof _]. apply ordered_bounds in Hof as [Hof _]. cbn [fst] in Hof. lia.
  - apply list_elem_of_split in Hin as (l0 & l1 & ->).
    assert (pre ++ (p, s) :: l0 ++ (st, k) :: l1 = (pre ++ (p, s) :: l0) ++ (st, k) :: l1) as E2 by (by rewrite <-app_assoc).
    rewrite E2 in *. replace fuel with (S (length l1) + (fuel - S (length l1)))%nat by (rewrite length_app in Hlen; cbn [length] in Hlen; lia).
    rewrite (find_after h bp l1 (pre ++ (p, s) :: l0) st k); try done.
    + apply Hbase. rewrite length_app in Hlen. cbn [length] in Hlen. lia.
    + apply (Hb (st, k)). set_solver.
Qed.

(** ** The invariant *)

(** The block of [k] headers at [a] overlaps none of [l]. *)
Definition clear_of (a k : Z) (l : list (Z * Z)) : Prop := ∀ x, x ∈ l → x.1 + 16 * x.2 ≤ a ∨ a + 16 * k ≤ x.1.

(** The block fits before [suf]. *)
Definition fits (bp n : Z) (suf : list (Z * Z)) : Prop := ∀ x, x ∈ suf → bp + 16 * n ≤ x.1.

Lemma join_right_ordered lo hi bp n suf :
  ordered lo suf hi → lo < bp → 0 < n → bp + 16 * n ≤ hi → fits bp n suf → ordered lo (join_right bp n suf) hi.
Proof.
  intros Ho Hlo Hn Hhi Hf. unfold join_right. destruct suf as [|[q k] suf]; [simpl; lia|].
  specialize (Hf (q, k) ltac:(by left)). cbn [ordered fst snd] in *. destruct Ho as (H3 & H4 & H5).
  case_if; cbn [ordered fst snd]; split_and!; try done; try lia. eapply ordered_weaken; [exact H5|lia|lia].
Qed.

Lemma join_ordered lo hi p s r :
  lo < p → 0 ≤ s → (∀ x, head r = Some x → p + 16 * s ≤ x.1) → ordered (p + 16 * s - 1) r hi → p + 16 * s ≤ hi → ordered lo (join p s r) hi.
Proof.
  intros H1 H2 Hr H3 H4. unfold join. destruct r as [|[b m] r]; [simpl; lia|]. specialize (Hr _ eq_refl). cbn [ordered fst snd] in *.
  case_if; cbn [ordered fst snd]; split_and!; try lia; [|apply H3]. eapply ordered_weaken; [apply H3|lia|lia].
Qed.

Lemma ordered_tail pre x l l' hi : ∀ lo, ordered lo (pre ++ x :: l) hi →
  (∀ lo, ordered lo (x :: l) hi → ordered lo l' hi) → ordered lo (pre ++ l') hi.
Proof.
  induction pre as [|y pre IH]; intros lo H Hl; [by apply Hl|]. destruct H as (H1 & H2 & H3). split; [done|]. split; [done|]. by apply IH.
Qed.

Lemma join_right_clear a k bp n suf : 0 < k → clear_of a k ((bp, n) :: suf) → clear_of a k (join_right bp n suf).
Proof.
  intros Hk H. unfold join_right. destruct suf as [|[q j] suf]; [done|]. destruct (Z.eqb_spec (bp + 16 * n) q) as [E|E]; [|done].
  intros x [->|Hx]%elem_of_cons; [|apply H; by do 2 right].
  pose proof (H (bp, n) ltac:(by left)). pose proof (H (q, j) ltac:(by right; left)). cbn [fst snd] in *. lia.
Qed.

Lemma join_clear a k p s r : 0 < k → clear_of a k ((p, s) :: r) → clear_of a k (join p s r).
Proof.
  intros Hk H. unfold join. destruct r as [|[b m] r]; [done|]. destruct (Z.eqb_spec (p + 16 * s) b) as [E|E]; [|done].
  intros x [->|Hx]%elem_of_cons; [|apply H; by do 2 right].
  pose proof (H (p, s) ltac:(by left)). pose proof (H (b, m) ltac:(by right; left)). cbn [fst snd] in *. lia.
Qed.

Lemma clear_of_app a k l l' : clear_of a k (l ++ l') ↔ clear_of a k l ∧ clear_of a k l'.
Proof. unfold clear_of. set_solver. Qed.

Lemma join_right_pos bp n suf : 0 < n → Forall (λ x, 0 < x.2) suf → Forall (λ x, 0 < x.2) (join_right bp n suf).
Proof.
  intros Hn Hsuf. unfold join_right. destruct Hsuf as [|[q k] suf Hq Hsuf]; [by repeat constructor|]. simpl in Hq.
  case_if; repeat constructor; simpl; try done. lia.
Qed.

Lemma join_pos p s r : 0 < s → Forall (λ x, 0 < x.2) r → Forall (λ x, 0 < x.2) (join p s r).
Proof. intros Hs Hr. unfold join. destruct Hr as [|[b m] r Hb Hr]; [by repeat constructor|]. simpl in Hb. case_if; repeat constructor; simpl; try done. lia. Qed.

(** What [join_right] and [join] do to the addresses and the number of blocks. *)
Lemma join_right_head bp n suf : Forall (λ x, 0 < x.2) suf →
  ∃ n1 r, join_right bp n suf = (bp, n1) :: r ∧ n ≤ n1 ∧ (length r ≤ length suf)%nat ∧ (n1 = n ∨ ∃ k, suf = (bp + 16 * n, k) :: r ∧ n1 = n + k).
Proof.
  intros Hs. unfold join_right. destruct Hs as [|[q k] suf Hk Hs]; [exists n, []; repeat split; try lia; by left|]. simpl in Hk.
  case_if; [exists (n + k), suf|exists n, ((q, k) :: suf)]; simpl; (split; [done|]); (split; [lia|]); (split; [lia|]); [right|by left].
  exists k. by subst.
Qed.

Lemma join_covers p s bp n r : 0 ≤ s → p ≤ bp →
  (∃ x, x ∈ join p s ((bp, n) :: r) ∧ x.1 ≤ bp ∧ bp + 16 * n ≤ x.1 + 16 * x.2) ∧ (length (join p s ((bp, n) :: r)) ≤ S (S (length r)))%nat.
Proof.
  intros Hs Hp. unfold join. destruct (Z.eqb_spec (p + 16 * s) bp) as [E|E].
  - split; [|simpl; lia]. exists (p, s + n). split; [by left|]. simpl. lia.
  - split; [|simpl; lia]. exists (bp, n). split; [by right; left|]. simpl. lia.
Qed.

Lemma ordered_nodup lo l hi : ordered lo l hi → NoDup l.*1.
Proof.
  revert lo. induction l as [|x l IH]; intros lo; [constructor|]. intros (H1 & H2 & H3). simpl. constructor; [|by eapply IH].
  intros (y & E & Hy)%list_elem_of_fmap. apply ordered_bounds in H3 as [_ H3]. specialize (H3 y Hy). lia.
Qed.

(** The list without [base] after a block was put back. *)
Lemma rejoined rest pre p s suf bp n hi :
  (base, 0) :: rest = pre ++ (p, s) :: suf → ordered (base + 15) rest hi → Forall (λ x, 0 < x.2) rest →
  base + 16 ≤ bp → 0 < n → bp + 16 * n ≤ hi → fits bp n suf → p + 16 * s ≤ bp → base ≤ p →
  ∃ rest', pre ++ join p s (join_right bp n suf) = (base, 0) :: rest' ∧ ordered (base + 15) rest' hi ∧
    Forall (λ x, 0 < x.2) rest' ∧ p ∈ base :: rest'.*1 ∧
    (∀ a k, 0 < k → clear_of a k rest → a + 16 * k ≤ bp ∨ bp + 16 * n ≤ a → clear_of a k rest') ∧
    (∃ x, x ∈ rest' ∧ x.1 ≤ bp ∧ bp + 16 * n ≤ x.1 + 16 * x.2) ∧ (length rest' ≤ S (length rest))%nat.
Proof.
  intros El Ho Hpos Hlo Hn Hhi Hf Hps Hbp0.
  assert (∀ a k l, clear_of a k l → a + 16 * k ≤ bp ∨ bp + 16 * n ≤ a → clear_of a k ((bp, n) :: l)) as Hcons.
  { intros a k l H Hb x [->|Hx]%elem_of_cons; [simpl; lia|by apply H]. }
  destruct pre as [|y pre]; simpl in El.
  - injection El as <- <- ->. destruct (join_right_head bp n suf Hpos) as (n1 & r & Er & Hn1 & Hlr & _).
    exists (join_right bp n suf). rewrite Er. split; [simpl; by if_false|]. rewrite <-Er.
    split; [apply join_right_ordered; try done; lia|]. split; [by apply join_right_pos|]. split; [by left|].
    split; [intros a k Hk Hc Hb; apply join_right_clear; [done|by apply Hcons]|]. rewrite Er. split; [|simpl; lia].
    exists (bp, n1). split; [by left|]. simpl. lia.
  - injection El as <- ->. apply Forall_app in Hpos as [Hpos1 [Hs Hpos]%Forall_cons]. cbn [snd] in Hs.
    destruct (join_right_head bp n suf Hpos) as (n1 & r & Er & Hn1 & Hlr & _).
    destruct (join_covers p s bp n1 r) as [(x & Hx & Hx1 & Hx2) Hlen]; [lia|lia|]. rewrite <-Er in Hx, Hlen.
    exists (pre ++ join p s (join_right bp n suf)). split; [done|]. split_and!.
    + apply (ordered_tail pre (p, s) suf); [done|]. intros lo (H1 & H2 & H3). cbn [fst snd] in *. apply join_ordered; [done|lia| |  |lia].
      * rewrite Er. intros y [= <-]. simpl. lia.
      * apply join_right_ordered; try done; [|lia]. eapply ordered_weaken; [exact H3|lia|lia].
    + apply Forall_app. split; [done|]. apply join_pos; [done|]. by apply join_right_pos.
    + right. rewrite fmap_app. apply elem_of_app. right. unfold join. rewrite Er. case_if; by left.
    + intros a k Hk [Hc1 Hc2]%clear_of_app Hb. apply clear_of_app. split; [done|]. apply join_clear; [done|].
      intros y [->|Hy]%elem_of_cons; [apply Hc2; by left|]. revert y Hy. apply join_right_clear; [done|]. apply Hcons; [|done].
      intros y Hy. apply Hc2. by right.
    + exists x. split; [set_solver|lia].
    + rewrite !length_app. simpl. rewrite Er in Hlen |- *. lia.
Qed.

(** The free list [rest] without [base], and the allocated blocks [al] with
    their sizes in headers. *)
Record heap_ok (h : heap) (rest : list (Z * Z)) (al : gmap Z Z) : Prop := {
  ok_links : links h ((base, 0) :: rest) base;
  ok_ordered : ordered (base + 15) rest (brk h);
  ok_pos : Forall (λ x, 0 < x.2) rest;
  ok_freep : freep h ∈ base :: rest.*1;
  ok_alloc : ∀ a n, al !! a = Some n → 0 < n ∧ base + 16 ≤ a ∧ a + 16 * n ≤ brk h ∧ size h a = n ∧ clear_of a n rest;
  ok_apart : ∀ a n b k, al !! a = Some n → al !! b = Some k → a ≠ b → a + 16 * n ≤ b ∨ b + 16 * k ≤ a;
  ok_room : 0 < base ∧ base + 16 ≤ brk h ∧ brk h - base < 2 ^ 36
}.

(** A block that is in no list, with its size in its header, put back. *)
Lemma free_run fuel h rest al bp n :
  heap_ok h rest al → 0 < n → base + 16 ≤ bp → bp + 16 * n ≤ brk h → size h bp = n → clear_of bp n rest →
  (∀ a k, al !! a = Some k → a + 16 * k ≤ bp ∨ bp + 16 * n ≤ a) → (2 * length rest + 4 ≤ fuel)%nat →
  ∃ h' rest', free fuel (bp + 16) h = Some h' ∧ heap_ok h' rest' al ∧ brk h' = brk h ∧
    (∃ x, x ∈ rest' ∧ x.1 ≤ bp ∧ bp + 16 * n ≤ x.1 + 16 * x.2) ∧ (length rest' ≤ S (length rest))%nat.
Proof.
  intros [Hl Ho Hpos Hfp Hal Hap Hroom] Hn Hlo Hhi Hsz Hc Hca Hf.
  assert (bp ∉ rest.*1) as Hbp.
  { intros (x & -> & Hx)%list_elem_of_fmap. rewrite Forall_forall in Hpos. specialize (Hpos x Hx). specialize (Hc x Hx). simpl in *. lia. }
  destruct (free_find_run h rest bp (freep h) fuel) as (pre & p & s & suf & El & Hp & Hsuf & Ef); try done; [by eapply ordered_weaken; [exact Ho|lia|lia]|lia|].
  unfold free. replace (bp + 16 - 16) with bp by lia. rewrite Ef.
  assert (ordered (base - 1) (pre ++ (p, s) :: suf) (brk h)) as Hof.
  { rewrite <-El. simpl. rewrite Z.add_0_r. split; [lia|]. split; [lia|]. eapply ordered_weaken; [exact Ho|lia|lia]. }
  pose proof Hof as (Hof1 & Hs0 & Hof2)%ordered_mid. cbn [fst snd] in *.
  assert (fits bp n suf) as Hfits.
  { intros x Hx. specialize (Hsuf x Hx). assert (x ∈ (base, 0) :: rest) as [->|Hx']%elem_of_cons by (rewrite El; set_solver); [simpl in *; lia|].
    specialize (Hc x Hx'). apply ordered_bounds in Hof2 as [_ Hof2]. specialize (Hof2 x Hx). lia. }
  assert (p + 16 * s ≤ bp) as Hps.
  { assert ((p, s) ∈ (base, 0) :: rest) as [[= -> ->]|Hx]%elem_of_cons by (rewrite El; set_solver); [lia|]. specialize (Hc _ Hx). simpl in Hc. lia. }
  assert (Forall (λ x, 0 < x.2) suf) as Hpsuf.
  { rewrite Forall_forall in *. intros x Hx. apply Hpos. destruct pre as [|y pre]; simpl in El; [injection El as _ _ ->|injection El as _ ->]; set_solver. }
  destruct (join_right_head bp n suf Hpsuf) as (n1 & r & Er & Hn1 & Hlr & Hcase).
  assert (base ≤ p) as Hbp0 by (apply ordered_bounds in Hof1 as [Hof1 _]; lia).
  pose proof (ordered_bounds _ _ _ Hof2) as [_ Hb2].
  assert (s + n1 < 2 ^ 32 ∧ bp + 16 * n1 ≤ brk h) as [Hbig Hend].
  { destruct Hcase as [->|(k & -> & ->)]; [lia|]. specialize (Hb2 _ ltac:(by left)). simpl in Hb2. lia. }
  destruct (free_join_links h pre p s suf bp n) as (L & [Hbrk Hoff] & Hfr); try done.
  { by rewrite <-El. }
  { constructor; [|by eapply ordered_nodup]. rewrite <-El. simpl. apply not_elem_of_cons. split; [lia|done]. }
  { intros x Hx. specialize (Hsuf x Hx). lia. }
  { lia. }
  { intros x Hx. assert (x ∈ suf) as Hin by (destruct suf; [done|]; simpl in Hx; simplify_eq; by left). specialize (Hb2 x Hin). specialize (Hfits x Hin).
    rewrite Forall_forall in Hpsuf. specialize (Hpsuf x Hin). lia. }
  { intros y r' E'. rewrite Er in E'. injection E' as <- <-. simpl. lia. }
  destruct (rejoined rest pre p s suf bp n (brk h)) as (rest' & E' & R1 & R2 & R3 & R4 & R5 & R6); try done.
  rewrite E' in L. exists (free_join h bp p), rest'. split; [done|]. split; [|done].
  assert (∀ a k, al !! a = Some k → a ∉ [bp; p]) as Hnot.
  { intros a k Ha. destruct (Hal a k Ha) as (A1 & A2 & A3 & A4 & A5). specialize (Hca a k Ha).
    rewrite !not_elem_of_cons. split_and!; [intros ->; lia| |apply not_elem_of_nil]. intros ->.
    assert ((p, s) ∈ (base, 0) :: rest) as [[= -> ->]|Hx]%elem_of_cons by (rewrite El; set_solver); [lia|].
    rewrite Forall_forall in Hpos. specialize (Hpos _ Hx). specialize (A5 _ Hx). simpl in *. lia. }
  split; rewrite ?Hbrk, ?Hfr; try done.
  intros a k Ha. destruct (Hal a k Ha) as (A1 & A2 & A3 & A4 & A5). split_and!; [done..| |].
  - destruct (Hoff a (Hnot a k Ha)) as [_ ->]. done.
  - apply R4; [done|done|]. by apply Hca.
Qed.

(** ** The search of [malloc] *)

Definition last_of (p : Z) (l : list (Z * Z)) : Z := match last l with Some x => x.1 | None => p end.

(** What the loop does from the block after [prevp], when the blocks [l] and
    then [freep] are ahead. *)
Lemma malloc_walk h nunits s z : ∀ l prevp fuel, links h (l ++ [(freep h, s)]) z → freep h ∉ l.*1 → (length l < fuel)%nat →
  (∃ u x v, l ++ [(freep h, s)] = u ++ x :: v ∧ nunits ≤ x.2 ∧
    malloc_loop fuel nunits prevp (first_of (l ++ [(freep h, s)]) 0) h = Some (malloc_take nunits (last_of prevp u) x.1 h)) ∨
  (Forall (λ x, x.2 < nunits) (l ++ [(freep h, s)]) ∧ ∃ fuel', (fuel = length l + S fuel')%nat ∧
    malloc_loop fuel nunits prevp (first_of (l ++ [(freep h, s)]) 0) h =
      ('(p, h) ← morecore (S fuel') nunits h; if p =? 0 then Some (0, h) else malloc_loop fuel' nunits p (ptr h p) h)).
Proof.
  induction l as [|x l IH]; intros prevp fuel Hl Hn Hf; (destruct fuel as [|fuel]; [simpl in Hf; lia|]).
  - cbn [app first_of fst]. destruct Hl as (H1 & _). cbn [fst snd] in *. cbn [malloc_loop]. rewrite H1, Z.eqb_refl.
    destruct (Z.leb_spec nunits s) as [Hb|Hb]; [left|right].
    + exists [], (freep h, s), []. done.
    + split; [by repeat constructor|]. by exists fuel.
  - cbn [app first_of]. destruct Hl as (H1 & H2 & H3). apply not_elem_of_cons in Hn as [Hx Hn]. cbn [malloc_loop]. rewrite H1.
    destruct (Z.leb_spec nunits x.2) as [Hb|Hb]; [left; by exists [], x, (l ++ [(freep h, s)])|].
    rewrite (proj2 (Z.eqb_neq x.1 (freep h))) by done.
    assert (ptr h x.1 = first_of (l ++ [(freep h, s)]) 0) as -> by (rewrite H2; by destruct l).
    destruct (IH x.1 fuel H3 Hn) as [(u & y & v & E & Hy & Er)|(Hs & fuel' & -> & Er)]; [simpl in Hf; lia|left|right].
    + exists (x :: u), y, v. rewrite E. split; [done|]. split; [done|]. rewrite <-E, Er.
      assert (last_of prevp (x :: u) = last_of x.1 u) as -> by (unfold last_of; rewrite last_cons; by destruct (last u)). done.
    + split; [by constructor|]. exists fuel'. split; [done|]. exact Er.
Qed.

(** The circular list, from the block after [freep] on. *)
Lemma rotated h rest : links h ((base, 0) :: rest) base → ordered (base + 15) rest (brk h) → freep h ∈ base :: rest.*1 →
  ∃ pre s suf, (base, 0) :: rest = pre ++ (freep h, s) :: suf ∧ freep h ∉ (suf ++ pre).*1 ∧
    ptr h (freep h) = first_of ((suf ++ pre) ++ [(freep h, s)]) 0 ∧ ∃ z, links h ((suf ++ pre) ++ [(freep h, s)]) z.
Proof.
  intros Hl Ho Hin. assert (freep h ∈ ((base, 0) :: rest).*1) as (x & Ex & Hx)%list_elem_of_fmap by exact Hin.
  apply list_elem_of_split in Hx as (pre & suf & E). destruct x as [f s]. cbn [fst] in Ex. rewrite <-Ex in *. exists pre, s, suf. split; [done|].
  assert (NoDup ((base, 0) :: rest).*1) as Hnd.
  { eapply (ordered_nodup (base - 1) _ (brk h)). simpl. split; [lia|]. split; [lia|]. eapply ordered_weaken; [exact Ho|lia|lia]. }
  rewrite E in Hl, Hnd. rewrite fmap_app in Hnd. apply NoDup_app in Hnd as (_ & Hnd1 & [Hnd2 _]%NoDup_cons). cbn [fst] in *.
  split. { rewrite fmap_app, elem_of_app. intros [H|H]; [done|]. by apply (Hnd1 _ H); left. }
  apply links_app in Hl as [L1 L2]. cbn [links first_of fst snd] in L1, L2. destruct L2 as (L3 & L4 & L5).
  assert (first_of (pre ++ [(freep h, s)]) 0 = base) as Hb by (destruct pre; simpl in E; injection E; intros; subst; done).
  split.
  - rewrite L4, <-app_assoc. destruct suf; [|done]. simpl. by rewrite Hb.
  - exists (first_of suf base). rewrite <-app_assoc. apply links_app. split.
    + assert (first_of (pre ++ [(freep h, s)]) (first_of suf base) = base) as -> by (by destruct pre). done.
    + apply links_app. split; [done|]. simpl. done.
Qed.

Lemma last_of_app d l l' : last_of d (l ++ l') = last_of (last_of d l) l'.
Proof. unfold last_of. rewrite last_app. by destruct (last l'). Qed.

Lemma last_of_cons d x l : last_of d (x :: l) = last_of x.1 l.
Proof. apply (last_of_app d [x] l). Qed.

(** The block before [x] in the list is the one the loop saw before it. *)
Lemma found_in rest pre f s suf u x v :
  (base, 0) :: rest = pre ++ (f, s) :: suf → (suf ++ pre) ++ [(f, s)] = u ++ x :: v → x.2 ≠ 0 →
  ∃ r1 r2, rest = r1 ++ x :: r2 ∧ last_of f u = last_of base r1.
Proof.
  intros El Ec Hx. rewrite <-app_assoc in Ec.
  assert (∃ y, pre ++ [(f, s)] = (base, 0) :: y ∧ rest = y ++ suf) as (y & Ey & Er).
  { destruct pre as [|w pre]; simpl in El; [injection El as -> -> ->; by exists []|]. injection El as -> ->. exists (pre ++ [(f, s)]). by rewrite <-app_assoc. }
  assert (last_of base y = f) as Hlast.
  { transitivity (last_of 0 ((base, 0) :: y)); [by rewrite last_of_cons|]. by rewrite <-Ey, last_of_app. }
  apply app_eq_inv in Ec as [(k & Hk1 & Hk2)|(k & Hk1 & Hk2)]; rewrite Ey in Hk2.
  - destruct k as [|z k]; simpl in Hk2; [injection Hk2 as -> ->; done|]. injection Hk2 as -> ->. subst suf rest.
    exists (y ++ u), k. rewrite last_of_app, Hlast. by rewrite <-app_assoc.
  - destruct k as [|z k]; simpl in Hk2; [injection Hk2 as <- ->; done|]. injection Hk2 as <- ->. subst u rest.
    exists k, (v ++ suf). rewrite last_of_app, last_of_cons. by rewrite <-app_assoc.
Qed.

(** ** Taking a block *)

Lemma unlink_links h r1 x r2 : links h ((base, 0) :: r1 ++ x :: r2) base → NoDup ((base, 0) :: r1 ++ x :: r2).*1 →
  links (set_ptr (last_of base r1) (ptr h x.1) h) ((base, 0) :: r1 ++ r2) base.
Proof.
  intros Hl Hnd. destruct (exists_last (l := (base, 0) :: r1)) as (A & [q qs] & E); [done|].
  assert (last_of base r1 = q) as ->.
  { transitivity (last_of 0 ((base, 0) :: r1)); [by rewrite last_of_cons|]. by rewrite E, last_of_app. }
  rewrite app_comm_cons, E, <-app_assoc in *. cbn [app] in *. apply links_app in Hl as [L1 L2]. cbn [links first_of fst snd] in L1, L2.
  destruct L2 as (L2 & L3 & L4 & L5 & L6). rewrite fmap_app in Hnd. apply NoDup_app in Hnd as (_ & Hnd1 & Hnd2). simpl in Hnd1, Hnd2.
  apply NoDup_cons in Hnd2 as [Hq Hnd2]. apply not_elem_of_cons in Hq as [Hqx Hq].
  assert (∀ l z, q ∉ l.*1 → links h l z → links (set_ptr q (ptr h x.1) h) l z) as Hsame.
  { intros l z Hin. apply links_ext. intros y Hy. split; [done|]. simpl. apply upd_ne. intros Ey. apply Hin. rewrite <-Ey. by apply list_elem_of_fmap_2. }
  apply links_app. cbn [links first_of fst snd]. split; [apply Hsame; [|done]; intros H; by apply (Hnd1 q H); left|].
  split; [done|]. split; [simpl; by rewrite upd_eq, L5|]. by apply Hsame.
Qed.

(** The part of a block that is taken overlaps nothing else. *)
Lemma taken_clear h r1 x r2 al a nunits :
  heap_ok h (r1 ++ x :: r2) al → 0 < nunits → x.1 ≤ a → a + 16 * nunits = x.1 + 16 * x.2 →
  clear_of a nunits (r1 ++ r2) ∧ (∀ b k, al !! b = Some k → b + 16 * k ≤ a ∨ a + 16 * nunits ≤ b) ∧ al !! a = None ∧
  base + 16 ≤ x.1 ∧ x.1 + 16 * x.2 ≤ brk h.
Proof.
  intros [Hl Ho Hpos Hfp Hal Hap Hroom] Hn Ha1 Ha2. pose proof Ho as (O1 & O2 & O3)%ordered_mid.
  pose proof (ordered_bounds _ _ _ O1) as [B0 B1]. pose proof (ordered_bounds _ _ _ O3) as [B2 B3].
  assert (∀ b k, al !! b = Some k → b + 16 * k ≤ a ∨ a + 16 * nunits ≤ b) as Hb.
  { intros b k Hb. destruct (Hal b k Hb) as (A1 & _ & _ & _ & A5). specialize (A5 x ltac:(set_solver)). lia. }
  split_and!; [|done| |lia|lia].
  - intros y [Hy|Hy]%elem_of_app; [specialize (B1 y Hy)|specialize (B3 y Hy)]; lia.
  - destruct (al !! a) as [k|] eqn:E; [|done]. destruct (Hal a k E) as (A1 & _). specialize (Hb a k E). lia.
Qed.

Lemma malloc_take_run h r1 x r2 al nunits :
  heap_ok h (r1 ++ x :: r2) al → 0 < nunits ≤ x.2 →
  ∃ a h' rest', malloc_take nunits (last_of base r1) x.1 h = (a + 16, h') ∧ al !! a = None ∧
    heap_ok h' rest' (<[a := nunits]> al) ∧ brk h' = brk h ∧ (length rest' ≤ length (r1 ++ x :: r2))%nat.
Proof.
  intros Hok Hn. pose proof Hok as [Hl Ho Hpos Hfp Hal Hap Hroom].
  assert (size h x.1 = x.2) as Hsx.
  { rewrite app_comm_cons in Hl. apply links_app in Hl as [_ Hl]. simpl in Hl. tauto. }
  assert (NoDup ((base, 0) :: r1 ++ x :: r2).*1) as Hnd.
  { eapply (ordered_nodup (base - 1) _ (brk h)). simpl. split; [lia|]. split; [lia|]. eapply ordered_weaken; [exact Ho|lia|lia]. }
  assert (last_of base r1 ∈ base :: r1.*1) as Hlast.
  { unfold last_of. destruct (last r1) as [y|] eqn:E; [|by left]. right. apply list_elem_of_fmap_2. apply last_Some in E as [l' ->]. set_solver. }
  unfold malloc_take. rewrite Hsx. destruct (Z.eqb_spec x.2 nunits) as [E|E].
  - destruct (taken_clear h r1 x r2 al x.1 nunits) as (C1 & C2 & C3 & C4 & C5); [done|lia|lia|lia|].
    exists x.1, (set_freep (last_of base r1) (set_ptr (last_of base r1) (ptr h x.1) h)), (r1 ++ r2). split; [done|]. split; [done|].
    split; [|split; [done|rewrite !length_app; simpl; lia]]. split; cbn [brk freep set_freep set_ptr]; try done.
    + apply (links_ext (set_ptr (last_of base r1) (ptr h x.1) h)); [done|]. by apply unlink_links.
    + destruct r1 as [|y r1 _] using rev_ind; [destruct Ho as (H1 & H2 & H3); eapply ordered_weaken; [exact H3|lia|lia]|].
      rewrite <-app_assoc in *. apply (ordered_tail r1 y (x :: r2)); [exact Ho|]. intros lo (H1 & H2 & H3 & H4 & H5). cbn [ordered].
      split; [done|]. split; [done|]. eapply ordered_weaken; [exact H5|lia|lia].
    + apply Forall_app in Hpos as [P1 [_ P2]%Forall_cons]. by apply Forall_app.
    + rewrite fmap_app. set_solver.
    + intros b k [[<- <-]|[Hne Hb]]%lookup_insert_Some; [split_and!; [lia|lia|lia|simpl; congruence|done]|]. destruct (Hal b k Hb) as (A1 & A2 & A3 & A4 & A5).
      split_and!; try done. intros y Hy. apply A5. set_solver.
    + intros b k c j [[<- <-]|[Hne Hb]]%lookup_insert_Some [[<- <-]|[Hne' Hc]]%lookup_insert_Some Hbc; [done| | |by apply (Hap b k c j)].
      * specialize (C2 c j Hc). lia.
      * specialize (C2 b k Hb). lia.
  - set (k := x.2 - nunits). set (a := x.1 + 16 * k).
    destruct (taken_clear h r1 x r2 al a nunits) as (C1 & C2 & C3 & C4 & C5); [done|lia|unfold a, k; lia|unfold a, k; lia|].
    rewrite (u32_small k) by (unfold k; lia). cbn [size set_size]. rewrite upd_eq. fold a.
    set (h' := set_freep _ _). exists a, h', (r1 ++ (x.1, k) :: r2). split; [done|]. split; [done|].
    assert (∀ b, b ≠ x.1 → b ≠ a → size h' b = size h b ∧ ptr h' b = ptr h b) as Hoff by (intros b H1 H2; simpl; by rewrite !upd_ne).
    assert (∀ y, y ∈ (base, 0) :: r1 ++ r2 → y.1 ≠ x.1 ∧ y.1 ≠ a) as Hne.
    { destruct (taken_clear h r1 x r2 al x.1 x.2) as (D1 & _); [done|lia|lia|lia|]. rewrite Forall_forall in Hpos.
      intros y [->|Hy]%elem_of_cons; [simpl; unfold a, k; lia|]. specialize (Hpos y ltac:(set_solver)). specialize (D1 y Hy). specialize (C1 y Hy).
      unfold a, k in *. lia. }
    split; [|split; [done|rewrite !length_app; simpl; lia]]. split; try done.
    + rewrite app_comm_cons in Hl |- *. apply links_app in Hl as [L1 L2]. cbn [links first_of fst snd] in L2. destruct L2 as (L2 & L3 & L4).
      apply links_app. split; [|cbn [links fst snd]; split_and!].
      * apply (links_ext h); [|exact L1]. intros y Hy. destruct (Hne y) as [H1 H2]; [set_solver|]. by destruct (Hoff y.1 H1 H2).
      * simpl. rewrite upd_ne by (unfold a, k; lia). by rewrite upd_eq.
      * done.
      * apply (links_ext h); [|done]. intros y Hy. destruct (Hne y) as [H1 H2]; [set_solver|]. by destruct (Hoff y.1 H1 H2).
    + apply (ordered_tail r1 x r2); [exact Ho|]. intros lo (H1 & H2 & H3). cbn [ordered fst snd]. split; [done|]. split; [unfold k; lia|].
      eapply ordered_weaken; [exact H3|unfold k; lia|done].
    + apply Forall_app in Hpos as [P1 [_ P2]%Forall_cons]. apply Forall_app. split; [done|]. constructor; [simpl; unfold k; lia|done].
    + rewrite fmap_app. set_solver.
    + intros b j [[<- <-]|[Hb' Hb]]%lookup_insert_Some.
      * split_and!; [lia|unfold a, k; lia|unfold a, k in *; simpl; lia|simpl; by rewrite upd_eq|].
        intros y [Hy|[->|Hy]%elem_of_cons]%elem_of_app; [apply C1; set_solver|simpl; unfold a; lia|apply C1; set_solver].
      * destruct (Hal b j Hb) as (A1 & A2 & A3 & A4 & A5). pose proof (C2 b j Hb) as C2'. pose proof (A5 x ltac:(set_solver)) as A5'.
        split_and!; try done.
        -- destruct (Hoff b) as [-> _]; [unfold a, k in *; lia|unfold a, k in *; lia|done].
        -- intros y [Hy|[->|Hy]%elem_of_cons]%elem_of_app; [apply A5; set_solver|simpl; unfold a, k in *; lia|apply A5; set_solver].
    + intros b j c i [[<- <-]|[Hb' Hb]]%lookup_insert_Some [[<- <-]|[Hc' Hc]]%lookup_insert_Some Hbc; [done| | |by apply (Hap b j c i)].
      * specialize (C2 c i Hc). lia.
      * specialize (C2 b j Hb). lia.
Qed.

(** ** More memory *)

Lemma heap_ok_grow h rest al hp nu b :
  heap_ok h rest al → hp = brk h → brk h ≤ b → b - base < 2 ^ 36 → heap_ok (set_size hp nu (set_brk b h)) rest al.
Proof.
  intros [Hl Ho Hpos Hfp Hal Hap Hroom] -> Hb Hb'. rewrite Forall_forall in Hpos.
  assert (∀ a, a < brk h → size (set_size (brk h) nu (set_brk b h)) a = size h a) as Hs by (intros a Ha; simpl; rewrite upd_ne; [done|lia]).
  split; try done; [| |by apply Forall_forall| |simpl; lia].
  - apply (links_ext h); [|done]. intros y [->|Hy]%elem_of_cons; (split; [|done]); apply Hs; [simpl; lia|].
    apply ordered_bounds in Ho as [_ Ho]. specialize (Ho y Hy). specialize (Hpos y Hy). lia.
  - eapply ordered_weaken; [exact Ho|done|done].
  - intros a n Ha. destruct (Hal a n Ha) as (A1 & A2 & A3 & A4 & A5). split_and!; try done; [simpl; lia|]. rewrite Hs by lia. done.
Qed.

Lemma morecore_run fuel h rest al nunits :
  heap_ok h rest al → 0 < nunits → nunits * 16 < 2 ^ 31 → limit - base < 2 ^ 36 → (2 * length rest + 4 ≤ fuel)%nat →
  (morecore fuel nunits h = Some (0, h) ∧ limit < brk h + 16 * Z.max nunits 4096) ∨
  ∃ h' rest', morecore fuel nunits h = Some (freep h', h') ∧ heap_ok h' rest' al ∧ (∃ x, x ∈ rest' ∧ nunits ≤ x.2) ∧ (length rest' ≤ S (length rest))%nat.
Proof.
  intros Hok Hn Hn31 Hlim Hf. unfold morecore. set (nu := if nunits <? 4096 then 4096 else nunits).
  assert (nu = Z.max nunits 4096) as Hnu by (unfold nu; case_if; lia). unfold sbrk. rewrite s32_small by lia. if_false.
  destruct (Z.leb_spec (brk h + nu * 16) limit) as [Hle|Hgt]; [right|left; split; [done|lia]].
  pose proof Hok as [Hl Ho Hpos Hfp Hal Hap Hroom].
  destruct (free_run fuel (set_size (brk h) nu (set_brk (brk h + nu * 16) h)) rest al (brk h) nu)
    as (h' & rest' & E & Hok' & _ & (x & Hx & Hx1 & Hx2) & Hlen).
  - apply heap_ok_grow; [done|done|lia|lia].
  - lia.
  - lia.
  - simpl. lia.
  - simpl. by rewrite upd_eq.
  - intros y Hy. apply ordered_bounds in Ho as [_ Ho]. specialize (Ho y Hy). lia.
  - intros a k Ha. destruct (Hal a k Ha) as (_ & _ & A3 & _). lia.
  - done.
  - rewrite E. exists h', rest'. split; [done|]. split; [done|]. split; [|done]. exists x. split; [done|]. lia.
Qed.

Lemma freep_pos h rest al : heap_ok h rest al → freep h ≠ 0.
Proof.
  intros [Hl Ho Hpos Hfp Hal Hap Hroom]. apply elem_of_cons in Hfp as [->|(x & -> & Hx)%list_elem_of_fmap]; [lia|].
  apply ordered_bounds in Ho as [_ Ho]. specialize (Ho x Hx). lia.
Qed.

(** ** [malloc] *)

(** The search from [freep] takes a block, or finds none and asks for more. *)
Lemma malloc_search fuel h rest al nunits :
  heap_ok h rest al → 0 < nunits → (length rest < fuel)%nat →
  (∃ a h' rest', malloc_loop fuel nunits (freep h) (ptr h (freep h)) h = Some (a + 16, h') ∧ al !! a = None ∧
    heap_ok h' rest' (<[a := nunits]> al) ∧ brk h' = brk h ∧ (length rest' ≤ length rest)%nat) ∨
  (Forall (λ x, x.2 < nunits) rest ∧ ∃ fuel', (fuel = length rest + S fuel')%nat ∧
    malloc_loop fuel nunits (freep h) (ptr h (freep h)) h =
      ('(p, h) ← morecore (S fuel') nunits h; if p =? 0 then Some (0, h) else malloc_loop fuel' nunits p (ptr h p) h)).
Proof.
  intros Hok Hn Hf. pose proof Hok as [Hl Ho Hpos Hfp Hal Hap Hroom].
  destruct (rotated h rest Hl Ho Hfp) as (pre & s & suf & El & Hnin & Hp & z & Hz).
  assert (length (suf ++ pre) = length rest) as Hlen.
  { apply (f_equal length) in El. rewrite length_app in *. simpl in El. lia. }
  rewrite Hp. destruct (malloc_walk h nunits s z (suf ++ pre) (freep h) fuel Hz Hnin) as [(u & x & v & E & Hx & Er)|(Hs & fuel' & Efu & Er)]; [lia|left|right].
  - destruct (found_in rest pre (freep h) s suf u x v El E) as (r1 & r2 & -> & Hlast); [lia|].
    destruct (malloc_take_run h r1 x r2 al nunits Hok) as (a & h' & rest' & Et & H1 & H2 & H3 & H4); [lia|].
    exists a, h', rest'. rewrite Er, Hlast, Et. done.
  - split; [|exists fuel'; by rewrite <-Hlen].
    rewrite !Forall_app in Hs. destruct Hs as ((Hs1 & Hs2) & Hs3). assert (Forall (λ x, x.2 < nunits) ((base, 0) :: rest)) as H.
    { rewrite El. apply Forall_app. split; [done|]. apply Forall_cons in Hs3 as [Hs3 _]. by constructor. }
    by apply Forall_cons in H as [_ H].
Qed.

Lemma malloc_loop_run fuel h rest al nunits :
  heap_ok h rest al → 0 < nunits → nunits * 16 < 2 ^ 31 → limit - base < 2 ^ 36 → (4 * length rest + 8 ≤ fuel)%nat →
  ∃ r h', malloc_loop fuel nunits (freep h) (ptr h (freep h)) h = Some (r, h') ∧
    ((r = 0 ∧ h' = h ∧ Forall (λ x, x.2 < nunits) rest ∧ limit < brk h + 16 * Z.max nunits 4096) ∨
     ∃ a rest', r = a + 16 ∧ al !! a = None ∧ heap_ok h' rest' (<[a := nunits]> al)).
Proof.
  intros Hok Hn Hn31 Hlim Hf.
  destruct (malloc_search fuel h rest al nunits Hok Hn) as [(a & h' & rest' & E & H1 & H2 & _)|(Hs & fuel' & Efu & E)]; [lia| |].
  { exists (a + 16), h'. split; [done|]. right. by exists a, rest'. }
  rewrite E. clear E. destruct (morecore_run (S fuel') h rest al nunits) as [[E Hno]|(h1 & rest1 & E & Hok1 & (x & Hx & Hbig) & Hlen)]; try done; [lia| |].
  { exists 0, h. rewrite E. simpl. split; [done|]. by left. }
  rewrite E. clear E. simpl. rewrite (proj2 (Z.eqb_neq _ _)) by (by eapply freep_pos).
  destruct (malloc_search fuel' h1 rest1 al nunits Hok1 Hn) as [(a & h' & rest' & E & H1 & H2 & _)|(Hs1 & _)]; [lia| |].
  - exists (a + 16), h'. split; [done|]. right. by exists a, rest'.
  - rewrite Forall_forall in Hs1. specialize (Hs1 x Hx). lia.
Qed.

(** Before the first call, or after some. *)
Definition state_ok (h : heap) (rest : list (Z * Z)) (al : gmap Z Z) : Prop :=
  heap_ok h rest al ∨
  (freep h = 0 ∧ rest = [] ∧ al = ∅ ∧ 0 < base ∧ base + 16 ≤ brk h ∧ brk h - base < 2 ^ 36).

(** C33: [malloc] returns a block of its own: for every request of at most
    2^31 - 64 bytes, with less than 2^36 bytes for the heap, it ends, and either returns a pointer to at least [nbytes] bytes inside a
    block that overlaps no other allocated block, no free block and not the list
    head, and keeps the free list sorted and joined; or it returns null, when no
    free block is large enough and [sbrk] refuses. *)
Theorem malloc_fresh fuel nbytes h rest al :
  state_ok h rest al → limit - base < 2 ^ 36 → 0 ≤ nbytes ≤ 2 ^ 31 - 64 → (4 * length rest + 8 ≤ fuel)%nat →
  ∃ r h', malloc fuel nbytes h = Some (r, h') ∧
    ((r = 0 ∧ heap_ok h' rest al ∧ Forall (λ x, x.2 * 16 < nbytes + 32) rest ∧ limit < brk h + Z.max (nbytes + 32) 65536) ∨
     ∃ a n rest', r = a + 16 ∧ a + 16 + nbytes ≤ a + 16 * n ∧ al !! a = None ∧ heap_ok h' rest' (<[a := n]> al)).
Proof.
  intros Hst Hlim Hb Hf. unfold malloc.
  assert (0 ≤ (nbytes + 16 - 1) / 16) as Hd0 by (apply Z.div_pos; lia). pose proof (Z.div_mod (nbytes + 16 - 1) 16 ltac:(lia)) as Hdm.
  pose proof (Z.mod_pos_bound (nbytes + 16 - 1) 16 ltac:(lia)) as Hmod.
  rewrite u32_small by lia. set (nunits := (nbytes + 16 - 1) / 16 + 1) in *.
  set (h1 := if freep h =? 0 then _ else h).
  assert (heap_ok h1 rest al ∧ brk h1 = brk h) as [Hok Hbrk].
  { unfold h1. destruct Hst as [Hok|(Hf0 & -> & -> & Hb0 & Hb1 & Hb2)].
    - rewrite (proj2 (Z.eqb_neq _ _)) by (by eapply freep_pos). done.
    - rewrite Hf0. simpl. split; [|done]. split; simpl; try done; try lia; [by rewrite !upd_eq|by left]. }
  destruct (malloc_loop_run fuel h1 rest al nunits) as (r & h' & E & [(-> & -> & Hs & Hno)|(a & rest' & -> & H1 & H2)]); try done; [lia|lia| |].
  - exists 0, h1. split; [done|]. left. split; [done|]. split; [done|]. split; [|rewrite <-Hbrk; lia].
    eapply Forall_impl; [exact Hs|]. simpl. intros x Hx. lia.
  - exists (a + 16), h'. split; [done|]. right. exists a, nunits, rest'. split; [done|]. split; [lia|]. done.
Qed.

(** [free] of an allocated block ends, gives the block back and keeps every
    other block allocated and the free list sorted and joined, wherever the
    search starts. *)
Theorem free_returns fuel h rest al a n :
  heap_ok h rest al → al !! a = Some n → (2 * length rest + 4 ≤ fuel)%nat →
  ∃ h' rest', free fuel (a + 16) h = Some h' ∧ heap_ok h' rest' (delete a al) ∧
    ∃ x, x ∈ rest' ∧ x.1 ≤ a ∧ a + 16 * n ≤ x.1 + 16 * x.2.
Proof.
  intros [Hl Ho Hpos Hfp Hal Hap Hroom] Ha Hf. destruct (Hal a n Ha) as (A1 & A2 & A3 & A4 & A5).
  assert (heap_ok h rest (delete a al)) as Hok'.
  { split; try done.
    - intros b k [_ Hb]%lookup_delete_Some. by apply Hal.
    - intros b k c j [_ Hb]%lookup_delete_Some [_ Hc]%lookup_delete_Some. by apply (Hap b k c j). }
  destruct (free_run fuel h rest (delete a al) a n) as (h' & rest' & E & Hok & _ & Hx & _); try done.
  - intros b k [Hne Hb]%lookup_delete_Some. destruct (Hap a n b k) as [H|H]; try done; lia.
  - by exists h', rest'.
Qed.
End umalloc.

(** ** A small process *)

Definition start_heap : heap := Heap (λ _, 0) (λ _, 0) 0 0x5000.

(** The first call: the list head is made and 65536 bytes are asked for. *)
Lemma malloc_fresh_witness : ∃ r h' a n rest',
  malloc 0x2000 0x4000000 8 100 start_heap = Some (r, h') ∧ r = a + 16 ∧ a + 16 + 100 ≤ a + 16 * n ∧
  heap_ok 0x2000 h' rest' {[a := n]}.
Proof.
  destruct (malloc_fresh 0x2000 0x4000000 8 100 start_heap [] ∅) as (r & h' & E & [(_ & _ & _ & Hno)|(a & n & rest' & -> & H1 & _ & H2)]).
  - right. split_and!; try reflexivity; simpl; lia.
  - lia.
  - lia.
  - simpl. lia.
  - simpl in Hno. lia.
  - exists (a + 16), h', a, n, rest'. split; [exact E|]. split; [reflexivity|]. split; [exact H1|exact H2].
Defined.

(** A heap with one allocated block of two headers. *)
Lemma free_returns_witness :
  let h := Heap (λ p, if p =? 0x2000 then 0x2000 else 0) (λ p, if p =? 0x3000 then 2 else 0) 0x2000 0x5000 in
  ∃ h' rest', free 4 0x3010 h = Some h' ∧ heap_ok 0x2000 h' rest' ∅ ∧ ∃ x, x ∈ rest' ∧ x.1 ≤ 0x3000 ∧ 0x3020 ≤ x.1 + 16 * x.2.
Proof.
  intros h. destruct (free_returns 0x2000 4 h [] {[0x3000 := 2]} 0x3000 2) as (h' & rest' & E & Hok & x & Hx & H1 & H2).
  - split; try done.
    + by left.
    + intros a n [<- <-]%lookup_singleton_Some. repeat split; try (simpl; lia). by intros x ?%not_elem_of_nil.
    + intros a n b k [<- <-]%lookup_singleton_Some [<- <-]%lookup_singleton_Some. done.
  - reflexivity.
  - simpl. lia.
  - exists h', rest'. split; [exact E|]. rewrite delete_singleton_eq in Hok. split; [exact Hok|]. exists x. split; [exact Hx|]. simpl in H2. lia.
Defined.

(** A request of 2^31 bytes makes the argument of [sbrk] negative: no
    memory is given, but [malloc] returns a pointer, to memory after the end of
    the process. *)
Theorem malloc_huge : ∃ r h', malloc 0x2000 0x4000000 8 (2 ^ 31) start_heap = Some (r, h') ∧ r ≠ 0 ∧ brk h' = 0x5000 ∧ 0x5000 < r.
Proof. do 2 eexists. split; [vm_compute; reflexivity|]. split; [done|]. split; [done|]. lia. Qed.
