(* ===== verification/Sh.v ===== *)
(** * The parser of the shell, [user/sh.c]

    The commands point into the line: a word is a pair of positions.  The
    theorems say that the parser ends on every line, that the strings of a
    command are the words of the line, and that it reads back what the printer
    of this file writes. *)

From S2P Require Import Prelude Riscv User.

Definition MAXARGS : nat := 10.
Definition O_RDONLY : Z := 0.
Definition O_WRONLY : Z := 1.
Definition O_CREATE : Z := 0x200.
Definition O_TRUNC : Z := 0x400.

(** [struct cmd] and what its types are cast to; [argv] and [eargv] are pairs
    of positions in the line. *)
Inductive cmd : Type :=
  | EXEC (argv : list (nat * nat))
  | REDIR (c : cmd) (file efile : nat) (mode fd : Z)
  | PIPE (left right : cmd)
  | LIST (left right : cmd)
  | BACK (c : cmd).

(** The result of a parser that starts at a position of the line. *)
Inductive parsed (A : Type) : Type :=
  | Parsed (a : A) (s : nat)
  | Panic (msg : string)
  | OutOfFuel.
Arguments Parsed {A} a s.
Arguments Panic {A} msg.
Arguments OutOfFuel {A}.

Definition P (A : Type) : Type := nat → parsed A.
#[global] Instance P_ret : MRet P := λ A a s, Parsed a s.
#[global] Instance P_bind : MBind P := λ A B k m s,
  match m s with Parsed a s => k a s | Panic msg => Panic msg | OutOfFuel => OutOfFuel end.
Definition panic {A} (msg : string) : P A := λ _, Panic msg.
Definition out_of_fuel {A} : P A := λ _, OutOfFuel.

(** [strchr(whitespace, c)] and [strchr(symbols, c)] *)
Definition is_space (c : Z) : bool :=
  match strchr [32; 9; 13; 10; 11; 0] c with Some (Some _) => true | _ => false end.
Definition is_symbol (c : Z) : bool := in_chars "<|>&;()" c.

Section parser.
  (** The characters before the end [es] of the line. *)
  Variable text : list Z.

(** [*s]; the line ends with a NUL. *)
Definition char_at (s : nat) : Z := default 0 (text !! s).

(** [while(s < es && p( *s)) s++;] *)
Fixpoint run (p : Z → bool) (l : list Z) : nat :=
  match l with c :: l => if p c then S (run p l) else 0%nat | [] => 0%nat end.
Definition skip (p : Z → bool) (s : nat) : nat := (s + run p (drop s text))%nat.

(** The token, its first character and the character after it. *)
Definition gettoken : P (Z * nat * nat) := λ s,
  let s := skip is_space s in
  let q := s in
  let c := char_at s in
  let '(ret, s) :=
    if c =? 0 then (c, s)
    else if in_chars "|();&<" c then (c, S s)
    else if c =? 62 then if char_at (S s) =? 62 then (43, S (S s)) else (c, S s)
    else (97, skip (λ c, negb (is_space c) && negb (is_symbol c)) s) in
  Parsed (ret, q, s) (skip is_space s).

Definition peek (toks : string) : P bool := λ s,
  let s := skip is_space s in
  Parsed (negb (char_at s =? 0) && in_chars toks (char_at s)) s.

Fixpoint parseredirs (fuel : nat) (c : cmd) : P cmd :=
  match fuel with
  | O => out_of_fuel
  | S fuel =>
      b ← peek "<>";
      if b : bool then
        '(tok, _, _) ← gettoken;
        '(a, q, eq) ← gettoken;
        if negb (a =? 97) then panic "missing file for redirection"
        else parseredirs fuel
          (if tok =? 60 then REDIR c q eq O_RDONLY 0
           else if tok =? 62 then REDIR c q eq (Z.lor (Z.lor O_WRONLY O_CREATE) O_TRUNC) 1
           else if tok =? 43 then REDIR c q eq (Z.lor O_WRONLY O_CREATE) 1
           else c)
      else mret c
  end.

(** The [execcmd] is below the redirections around it: [add_arg] is the
    assignment to [cmd->argv[argc]] and [cmd->eargv[argc]]. *)
Fixpoint add_arg (c : cmd) (w : nat * nat) : cmd :=
  match c with
  | EXEC argv => EXEC (argv ++ [w])
  | REDIR c q eq mode fd => REDIR (add_arg c w) q eq mode fd
  | c => c
  end.

Fixpoint parseargs (fuel : nat) (argc : nat) (ret : cmd) : P cmd :=
  match fuel with
  | O => out_of_fuel
  | S fuel' =>
      b ← peek "|)&;";
      if b : bool then mret ret
      else
        '(tok, q, eq) ← gettoken;
        if tok =? 0 then mret ret
        else if negb (tok =? 97) then panic "syntax"
        else
          let ret := add_arg ret (q, eq) in
          let argc := S argc in
          if (MAXARGS <=? argc)%nat then panic "too many args"
          else ret ← parseredirs fuel ret; parseargs fuel' argc ret
  end.

Fixpoint parsebacks (fuel : nat) (c : cmd) : P cmd :=
  match fuel with
  | O => out_of_fuel
  | S fuel =>
      b ← peek "&";
      if b : bool then _ ← gettoken; parsebacks fuel (BACK c) else mret c
  end.

Fixpoint parseline (fuel : nat) : P cmd :=
  match fuel with
  | O => out_of_fuel
  | S fuel' =>
      c ← parsepipe fuel';
      c ← parsebacks fuel c;
      b ← peek ";";
      if b : bool then _ ← gettoken; r ← parseline fuel'; mret (LIST c r) else mret c
  end
with parsepipe (fuel : nat) : P cmd :=
  match fuel with
  | O => out_of_fuel
  | S fuel' =>
      c ← parseexec fuel';
      b ← peek "|";
      if b : bool then _ ← gettoken; r ← parsepipe fuel'; mret (PIPE c r) else mret c
  end
with parseexec (fuel : nat) : P cmd :=
  match fuel with
  | O => out_of_fuel
  | S fuel' =>
      b ← peek "(";
      if b : bool then parseblock fuel'
      else ret ← parseredirs fuel (EXEC []); parseargs fuel 0 ret
  end
with parseblock (fuel : nat) : P cmd :=
  match fuel with
  | O => out_of_fuel
  | S fuel' =>
      b ← peek "(";
      if negb b then panic "parseblock"
      else
        _ ← gettoken;
        c ← parseline fuel';
        b ← peek ")";
        if negb b then panic "syntax - missing )"
        else _ ← gettoken; parseredirs fuel c
  end.

(** A call of [parseline], [parsepipe], [parseexec] or [parseblock] happens at
    most four deep between two characters. *)
Definition parse_fuel : nat := 4 * length text + 8.

(** [parsecmd] up to [nulterminate]; what is left over is an error. *)
Definition position : P nat := λ s, Parsed s s.
Definition parsecmd_tree : P cmd :=
  c ← parseline parse_fuel;
  _ ← peek "";
  s ← position;
  if negb (s =? length text)%nat then panic "syntax" else mret c.
End parser.

(** [buf] is the line with its NUL. *)
Fixpoint nulterminate (c : cmd) (buf : list Z) : list Z :=
  match c with
  | EXEC argv => foldl (λ buf w, <[w.2 := 0]> buf) buf argv
  | REDIR c _ efile _ _ => <[efile := 0]> (nulterminate c buf)
  | PIPE l r => nulterminate r (nulterminate l buf)
  | LIST l r => nulterminate r (nulterminate l buf)
  | BACK c => nulterminate c buf
  end.

Definition parsecmd (text : list Z) : parsed (cmd * list Z) :=
  match parsecmd_tree text 0%nat with
  | Parsed c s => Parsed (c, nulterminate c (text ++ [0])) s
  | Panic msg => Panic msg
  | OutOfFuel => OutOfFuel
  end.

(** The words of a command. *)
Fixpoint spans (c : cmd) : list (nat * nat) :=
  match c with
  | EXEC argv => argv
  | REDIR c q eq _ _ => spans c ++ [(q, eq)]
  | PIPE l r | LIST l r => spans l ++ spans r
  | BACK c => spans c
  end.

(** ** Parsers that end *)

(** The parser panics, or returns with [Q]. *)
Definition ensures {A} (m : P A) (s : nat) (Q : A → nat → Prop) : Prop :=
  match m s with Parsed a s => Q a s | Panic _ => True | OutOfFuel => False end.

Lemma ensures_bind {A B} (m : P A) (k : A → P B) s Q : ensures m s (λ a s, ensures (k a) s Q) → ensures (m ≫= k) s Q.
Proof. unfold ensures, mbind, P_bind. by destruct (m s). Qed.

Lemma ensures_mono {A} (m : P A) s (Q Q' : A → nat → Prop) : ensures m s Q → (∀ a s, Q a s → Q' a s) → ensures m s Q'.
Proof. unfold ensures. destruct (m s); auto. Qed.

Ltac next H := apply ensures_bind; eapply ensures_mono; [eapply H|]; cbv beta.

Definition is_word (c : Z) : bool := negb (is_space c) && negb (is_symbol c).

Section ends.
  Variable text : list Z.
  Hypothesis no_nul : 0 ∉ text.
Let len : nat := length text.

Lemma run_le p l : (run p l ≤ length l)%nat.
Proof. induction l as [|c l IH]; simpl; [lia|]. destruct (p c); lia. Qed.

Lemma run_stop p l : match l !! run p l with Some c => p c = false | None => run p l = length l end.
Proof. induction l as [|c l IH]; simpl; [done|]. destruct (p c) eqn:E; [|done]. simpl. destruct (l !! run p l); [done|lia]. Qed.

Lemma run_all p l i c : (i < run p l)%nat → l !! i = Some c → p c = true.
Proof.
  revert i. induction l as [|x l IH]; intros i Hi Hc; [done|]. simpl in Hi. destruct (p x) eqn:E; [|lia].
  destruct i as [|i]; simpl in Hc; [by simplify_eq|]. apply (IH i); [lia|done].
Qed.

Lemma skip_bounds p s : (s ≤ len)%nat → (s ≤ skip text p s ≤ len)%nat.
Proof. intros Hs. unfold skip. pose proof (run_le p (drop s text)) as H. rewrite length_drop in H. unfold len in *. lia. Qed.

Lemma skip_stop p s : (s ≤ len)%nat → match text !! skip text p s with Some c => p c = false | None => skip text p s = len end.
Proof.
  intros Hs. unfold skip. pose proof (run_stop p (drop s text)) as H. rewrite lookup_drop in H. destruct (text !! _); [done|].
  rewrite length_drop in H. unfold len in *. lia.
Qed.

Lemma skip_all p s i c : (s ≤ i < skip text p s)%nat → text !! i = Some c → p c = true.
Proof. unfold skip. intros Hi Hc. apply (run_all p (drop s text) (i - s)); [lia|]. rewrite lookup_drop, <-Hc. f_equal. lia. Qed.

Lemma skip_none p s : match text !! s with Some c => p c = false | None => True end → skip text p s = s.
Proof.
  unfold skip. destruct (drop s text) as [|c l] eqn:E; [simpl; lia|]. intros H.
  assert (text !! s = Some c) as Hc by (rewrite <-(Nat.add_0_r s), <-lookup_drop, E; done). rewrite Hc in H. simpl. rewrite H. lia.
Qed.

Lemma char_at_zero s : char_at text s = 0 ↔ text !! s = None.
Proof.
  unfold char_at. destruct (text !! s) as [c|] eqn:E; [|done]. split; [|done]. simpl. intros ->.
  by apply list_elem_of_lookup_2 in E.
Qed.

Lemma is_space_mem c : is_space c = bool_decide (c ∈ [32; 9; 13; 10; 11]).
Proof. apply (strchr_mem [32; 9; 13; 10; 11]). apply (bool_decide_unpack _). vm_compute. exact I. Qed.

Lemma in_chars_mem s c : 0 ∉ chars s → in_chars s c = bool_decide (c ∈ chars s).
Proof. apply strchr_mem. Qed.

(** A word of the line: it is not empty and ends where it must. *)
Definition word_ok (w : nat * nat) : Prop :=
  (w.1 < w.2 ≤ len)%nat ∧ (∀ i c, (w.1 ≤ i < w.2)%nat → text !! i = Some c → is_word c = true) ∧
  match text !! w.2 with Some c => is_word c = false | None => True end.

(** A character that starts a token is a symbol or starts a word. *)
Lemma token_start c : in_chars "|();&<" c = false → c ≠ 62 → is_symbol c = false.
Proof.
  unfold is_symbol. rewrite !in_chars_mem by (apply (bool_decide_unpack _); vm_compute; exact I). intros H1%bool_decide_eq_false Hc.
  apply bool_decide_eq_false. intros H2. apply H1. clear H1. change (c ∈ [60; 124; 62; 38; 59; 40; 41]) in H2.
  change (c ∈ [124; 40; 41; 59; 38; 60]). set_solver.
Qed.

Lemma gettoken_spec s : (s ≤ len)%nat →
  ensures (gettoken text) s (λ a s', (s ≤ s' ≤ len)%nat ∧
    (a.1.1 = 97 → word_ok (a.1.2, a.2)) ∧ (a.1.1 ≠ 0 → (s < s')%nat) ∧ (char_at text (skip text is_space s) ≠ 0 → a.1.1 ≠ 0)).
Proof.
  intros Hs. unfold gettoken, ensures. cbv zeta. set (q := skip text is_space s).
  pose proof (skip_bounds is_space s Hs) as Hq. fold q in Hq. pose proof (skip_stop is_space s Hs) as Hstop. fold q in Hstop.
  set (c := char_at text q).
  assert (∀ k, (k ≤ len)%nat → (q ≤ k)%nat → (s ≤ skip text is_space k ≤ len)%nat ∧ (q < k → s < skip text is_space k)%nat) as Hend.
  { intros k Hk Hqk. pose proof (skip_bounds is_space k Hk). lia. }
  destruct (Z.eqb_spec c 0) as [H0|H0].
  { rewrite H0. destruct (Hend q) as [H1 H2]; [lia|lia|]. simpl. split_and!; try done; lia. }
  assert (∃ c', text !! q = Some c' ∧ c = c') as (c' & Hc & <-).
  { unfold c, char_at in *. destruct (text !! q); [eauto|done]. }
  rewrite Hc in Hstop. pose proof (lookup_lt_Some _ _ _ Hc) as Hlt. fold len in Hlt.
  destruct (in_chars "|();&<" c) eqn:Esym.
  { destruct (Hend (S q)) as [H1 H2]; [lia|lia|]. cbn [fst snd]. split_and!; [lia|lia| |lia|done].
    intros E. rewrite E in Esym. discriminate. }
  destruct (Z.eqb_spec c 62) as [H62|H62].
  { case_if.
    - assert (S q < len)%nat.
      { unfold char_at in E. destruct (text !! S q) eqn:E2; [by apply lookup_lt_Some in E2|done]. }
      destruct (Hend (S (S q))) as [H1 H2]; [lia|lia|]. cbn [fst snd]. split_and!; [lia|lia|done|lia|done].
    - destruct (Hend (S q)) as [H1 H2]; [lia|lia|]. cbn [fst snd]. rewrite H62. split_and!; [lia|lia|done|lia|done]. }
  set (k := skip text _ q). pose proof (skip_bounds is_word q ltac:(lia)) as Hk. fold is_word in k. change (skip text is_word q) with k in Hk.
  assert (q < k)%nat as Hqk.
  { pose proof (skip_stop is_word q ltac:(lia)) as Hst. change (skip text is_word q) with k in Hst.
    destruct (decide (k = q)) as [E|]; [|lia]. rewrite E, Hc in Hst. unfold is_word in Hst.
    rewrite Hstop, (token_start c Esym H62) in Hst. done. }
  destruct (Hend k) as [H1 H2]; [lia|lia|]. cbn [fst snd]. split_and!; [lia|lia| |lia|done].
  intros _. unfold word_ok. cbn [fst snd]. split_and!; [lia|lia| |].
  - intros i x Hi Hx. by apply (skip_all is_word q i).
  - pose proof (skip_stop is_word q ltac:(lia)) as Hst. change (skip text is_word q) with k in Hst. by destruct (text !! k).
Qed.

Lemma peek_spec toks s : (s ≤ len)%nat →
  ensures (peek text toks) s (λ b s', (s ≤ s' ≤ len)%nat ∧ (b = true → char_at text (skip text is_space s') ≠ 0)).
Proof.
  intros Hs. unfold peek, ensures. pose proof (skip_bounds is_space s Hs) as Hq. split; [done|].
  intros [H _]%andb_true_iff. apply negb_true_iff, Z.eqb_neq in H.
  rewrite (skip_none is_space (skip text is_space s)); [done|]. pose proof (skip_stop is_space s Hs). by destruct (text !! _).
Qed.

Definition cmd_ok (c : cmd) : Prop := Forall word_ok (spans c).

(** What every parser of a command ensures. *)
Definition gives (s : nat) (c : cmd) (s' : nat) : Prop := (s ≤ s' ≤ len)%nat ∧ cmd_ok c.

Lemma gives_later s s1 : (s ≤ s1)%nat → ∀ c s', gives s1 c s' → gives s c s'.
Proof. unfold gives. intros H c s' [H1 H2]. split; [lia|done]. Qed.

Lemma cmd_ok_redir c q eq mode fd : cmd_ok c → word_ok (q, eq) → cmd_ok (REDIR c q eq mode fd).
Proof. unfold cmd_ok. simpl. rewrite Forall_app. intros H1 H2. split; [done|]. by constructor. Qed.

Lemma cmd_ok_add c w : cmd_ok c → word_ok w → cmd_ok (add_arg c w).
Proof.
  unfold cmd_ok. intros Hc Hw. induction c; simpl in *; rewrite ?Forall_app in *; try tauto. split; [done|]. by constructor.
Qed.

Lemma parseredirs_ends fuel c s : (s ≤ len)%nat → (len - s < fuel)%nat → cmd_ok c → ensures (parseredirs text fuel c) s (gives s).
Proof.
  revert c s. induction fuel as [|fuel IH]; intros c s Hs Hf Hc; [lia|]. cbn [parseredirs].
  next peek_spec; [done|]. intros b s1 [H1 Hb]. destruct b; [|by split].
  next gettoken_spec; [lia|]. intros [[tok q0] eq0] s2 (H2 & _ & H2' & H2''). simpl in H2', H2''.
  assert (s1 < s2)%nat by auto.
  next gettoken_spec; [lia|]. intros [[a q] eq] s3 (H3 & Hw & _). simpl in Hw.
  destruct (Z.eqb_spec a 97) as [Ha|]; [|done]. cbn [negb].
  eapply ensures_mono; [apply IH; [lia|lia|]|apply gives_later; lia].
  repeat case_if; try (apply cmd_ok_redir; auto); done.
Qed.

Lemma parsebacks_ends fuel c s : (s ≤ len)%nat → (len - s < fuel)%nat → cmd_ok c → ensures (parsebacks text fuel c) s (gives s).
Proof.
  revert c s. induction fuel as [|fuel IH]; intros c s Hs Hf Hc; [lia|]. cbn [parsebacks].
  next peek_spec; [done|]. intros b s1 [H1 Hb]. destruct b; [|by split].
  next gettoken_spec; [lia|]. intros [[tok q0] eq0] s2 (H2 & _ & H2' & H2''). simpl in H2', H2''. assert (s1 < s2)%nat by auto.
  eapply ensures_mono; [apply IH; [lia|lia|done]|apply gives_later; lia].
Qed.

Lemma parseargs_ends fuel argc c s : (s ≤ len)%nat → (len - s < fuel)%nat → cmd_ok c → ensures (parseargs text fuel argc c) s (gives s).
Proof.
  revert argc c s. induction fuel as [|fuel IH]; intros argc c s Hs Hf Hc; [lia|]. cbn [parseargs].
  next peek_spec; [done|]. intros b s1 [H1 _]. destruct b; [by split|].
  next gettoken_spec; [lia|]. intros [[tok q] eq] s2 (H2 & Hw & H2' & _). simpl in Hw, H2'.
  destruct (Z.eqb_spec tok 0) as [H0|H0]; [split; [lia|done]|]. specialize (H2' H0).
  destruct (Z.eqb_spec tok 97) as [Ha|]; [|done]. cbn [negb]. destruct (_ <=? _)%nat; [done|].
  next parseredirs_ends; [lia|lia|apply cmd_ok_add; auto|]. intros c1 s3 [H3 Hc1].
  eapply ensures_mono; [apply IH; [lia|lia|done]|apply gives_later; lia].
Qed.

Lemma parsers_end fuel :
  (∀ s, (s ≤ len)%nat → (4 * (len - s) + 4 ≤ fuel)%nat → ensures (parseline text fuel) s (gives s)) ∧
  (∀ s, (s ≤ len)%nat → (4 * (len - s) + 3 ≤ fuel)%nat → ensures (parsepipe text fuel) s (gives s)) ∧
  (∀ s, (s ≤ len)%nat → (4 * (len - s) + 2 ≤ fuel)%nat → ensures (parseexec text fuel) s (gives s)) ∧
  (∀ s, (s ≤ len)%nat → (4 * (len - s) + 1 ≤ fuel)%nat → ensures (parseblock text fuel) s (gives s)).
Proof.
  induction fuel as [|fuel (IHl & IHp & IHe & IHb)]; [split_and!; intros; lia|]. split_and!; intros s Hs Hf.
  - cbn [parseline]. next IHp; [done|lia|]. intros c s1 [H1 Hc]. next parsebacks_ends; [lia|lia|done|]. intros c1 s2 [H2 Hc1].
    next peek_spec; [lia|]. intros b s3 [H3 Hb]. destruct b; [|split; [lia|done]].
    next gettoken_spec; [lia|]. intros [[tok q] eq] s4 (H4 & _ & H4' & H4''). simpl in H4', H4''. assert (s3 < s4)%nat by auto.
    next IHl; [lia|lia|]. intros c2 s5 [H5 Hc2]. split; [lia|]. unfold cmd_ok. simpl. by apply Forall_app.
  - cbn [parsepipe]. next IHe; [done|lia|]. intros c s1 [H1 Hc].
    next peek_spec; [lia|]. intros b s3 [H3 Hb]. destruct b; [|split; [lia|done]].
    next gettoken_spec; [lia|]. intros [[tok q] eq] s4 (H4 & _ & H4' & H4''). simpl in H4', H4''. assert (s3 < s4)%nat by auto.
    next IHp; [lia|lia|]. intros c2 s5 [H5 Hc2]. split; [lia|]. unfold cmd_ok. simpl. by apply Forall_app.
  - cbn [parseexec]. next peek_spec; [done|]. intros b s1 [H1 Hb]. destruct b.
    + eapply ensures_mono; [apply IHb; lia|apply gives_later; lia].
    + next parseredirs_ends; [lia|lia|by constructor|]. intros c s2 [H2 Hc].
      eapply ensures_mono; [apply parseargs_ends; [lia|lia|done]|apply gives_later; lia].
  - cbn [parseblock]. next peek_spec; [done|]. intros b s1 [H1 Hb]. destruct b; [|done]. cbn [negb].
    next gettoken_spec; [lia|]. intros [[tok q] eq] s2 (H2 & _ & H2' & H2''). simpl in H2', H2''. assert (s1 < s2)%nat by auto.
    next IHl; [lia|lia|]. intros c s3 [H3 Hc]. next peek_spec; [lia|]. intros b s4 [H4 Hb4]. destruct b; [|done]. cbn [negb].
    next gettoken_spec; [lia|]. intros [[tok' q'] eq'] s5 (H5 & _ & H5' & H5''). simpl in H5', H5''. assert (s4 < s5)%nat by auto.
    eapply ensures_mono; [apply parseredirs_ends; [lia|lia|done]|apply gives_later; lia].
Qed.

Lemma parsecmd_tree_ends : ensures (parsecmd_tree text) 0 (λ c s, s = len ∧ cmd_ok c).
Proof.
  unfold parsecmd_tree. next (proj1 (parsers_end (parse_fuel text))); [lia|unfold parse_fuel, len; lia|]. intros c s [H Hc].
  next peek_spec; [lia|]. intros _ s1 [H1 _]. apply ensures_bind. unfold position, ensures.
  destruct (Nat.eqb_spec s1 (length text)) as [E|]; [|done]. by split.
Qed.

(** [nulterminate] stores NULs after the words. *)
Definition nuls (es : list nat) (buf : list Z) : list Z := foldl (λ buf e, <[e := 0]> buf) buf es.

Lemma nulterminate_nuls c buf : nulterminate c buf = nuls (spans c).*2 buf.
Proof.
  revert buf. unfold nuls. induction c as [argv|c IH q eq mode fd|l IHl r IHr|l IHl r IHr|c IH]; intros buf; simpl;
    rewrite ?fmap_app, ?foldl_app, ?IHr, ?IHl, ?IH; try done.
  revert buf. induction argv as [|w argv IH]; intros buf; [done|]. simpl. by rewrite IH.
Qed.

Lemma nuls_lookup es buf i : (i < length buf)%nat → nuls es buf !! i = if decide (i ∈ es) then Some 0 else buf !! i.
Proof.
  revert buf. induction es as [|e es IH]; intros buf Hi; [done|]. unfold nuls in *. simpl. rewrite IH by (by rewrite length_insert).
  destruct (decide (i ∈ es)); [by rewrite decide_True by (by right)|]. destruct (decide (i = e)) as [->|].
  - rewrite decide_True by (by left). by apply list_lookup_insert_eq.
  - rewrite decide_False by (by rewrite elem_of_cons; tauto). by apply list_lookup_insert_ne.
Qed.

Lemma nuls_length es buf : length (nuls es buf) = length buf.
Proof. revert buf. induction es as [|e es IH]; intros buf; [done|]. unfold nuls in *. simpl. by rewrite IH, length_insert. Qed.

(** The string of a word in the line with its NULs. *)
Lemma nulterminate_word c w : cmd_ok c → w ∈ spans c →
  cstr (drop w.1 (nulterminate c (text ++ [0]))) = take (w.2 - w.1) (drop w.1 text).
Proof.
  intros Hc Hw. unfold cmd_ok in Hc. rewrite Forall_forall in Hc. destruct (Hc w Hw) as (Hb & Hchars & _).
  rewrite nulterminate_nuls. set (es := (spans c).*2). set (buf := text ++ [0]).
  assert (length buf = S len) as Hlen by (unfold buf; rewrite length_app; simpl; unfold len; lia).
  assert (w.2 ∈ es) as Hin by (by apply list_elem_of_fmap_2).
  assert (∀ i, (w.1 ≤ i < w.2)%nat → nuls es buf !! i = text !! i) as Hsame.
  { intros i Hi. rewrite nuls_lookup by lia. rewrite decide_False; [apply lookup_app_l; unfold len in *; lia|].
    intros (w' & -> & Hw')%list_elem_of_fmap. destruct (Hc w' Hw') as (_ & _ & Hend).
    destruct (lookup_lt_is_Some_2 text w'.2) as [x Hx]; [unfold len in *; lia|]. rewrite Hx in Hend. rewrite (Hchars w'.2 x Hi Hx) in Hend. done. }
  assert (nuls es buf !! w.2 = Some 0) as Hz by (rewrite nuls_lookup, decide_True by (done || lia); done).
  set (l := take (w.2 - w.1) (drop w.1 text)). assert (length l = w.2 - w.1)%nat as Hl.
  { unfold l. rewrite length_take, length_drop. unfold len in *. lia. }
  assert (drop w.1 (nuls es buf) = l ++ 0 :: drop (S w.2) (nuls es buf)) as ->.
  { apply list_eq. intros i. rewrite lookup_drop. destruct (decide (i < w.2 - w.1)%nat).
    - rewrite lookup_app_l by lia. rewrite Hsame by lia. unfold l. rewrite lookup_take_lt, lookup_drop by lia. done.
    - rewrite lookup_app_r by lia. destruct (decide (i = w.2 - w.1)%nat) as [->|].
      + rewrite Hl, Nat.sub_diag. simpl. rewrite <-Hz. f_equal. lia.
      + rewrite Hl. destruct (i - (w.2 - w.1))%nat as [|k] eqn:Ek; [lia|]. simpl. rewrite lookup_drop. f_equal. lia. }
  apply cstr_app. intros Hz0. apply no_nul. unfold l in Hz0. apply list_elem_of_lookup in Hz0 as [i Hi].
  apply lookup_take_Some in Hi as [Hi _]. rewrite lookup_drop in Hi. by eapply list_elem_of_lookup_2.
Qed.
End ends.

(** C34: The parser ends on every line, with a command or a panic, and never
    stores outside the line: the strings of a command, each from its start to
    the first NUL that [nulterminate] has left, are words of the line, not
    empty and without blanks and symbols. *)
Theorem parsecmd_words text : 0 ∉ text →
  match parsecmd text with
  | Parsed (c, buf) s =>
      s = length text ∧ length buf = S (length text) ∧
      ∀ q eq, (q, eq) ∈ spans c → (q < eq ≤ length text)%nat ∧
        cstr (drop q buf) = take (eq - q) (drop q text) ∧ Forall (λ c, is_word c = true) (cstr (drop q buf))
  | Panic _ => True
  | OutOfFuel => False
  end.
Proof.
  intros Hnul. unfold parsecmd. pose proof (parsecmd_tree_ends text Hnul) as H. unfold ensures in H.
  destruct (parsecmd_tree text 0%nat) as [c s| |]; [|done|done]. destruct H as [-> Hc]. split; [done|].
  split; [rewrite nulterminate_nuls, nuls_length, length_app; simpl; lia|].
  intros q eq Hw. pose proof (nulterminate_word text Hnul c (q, eq) Hc Hw) as Hs. cbn [fst snd] in Hs. rewrite Hs.
  unfold cmd_ok in Hc. rewrite Forall_forall in Hc. destruct (Hc _ Hw) as (Hb & Hchars & _). cbn [fst snd] in *.
  split; [done|]. split; [done|]. apply Forall_lookup. intros i x Hi. apply lookup_take_Some in Hi as [Hi Hlt].
  rewrite lookup_drop in Hi. apply (Hchars (q + i)%nat); [lia|done].
Qed.

(** A line with words, redirections and blanks. *)
Lemma parsecmd_words_witness : ∃ c buf,
  parsecmd (chars "cat <in  x|wc>>out") = Parsed (c, buf) 18%nat ∧ spans c = [(0, 3); (9, 10); (5, 7); (11, 13); (15, 18)]%nat ∧
  cstr (drop 9 buf) = chars "x".
Proof.
  pose proof (parsecmd_words (chars "cat <in  x|wc>>out") ltac:(apply (bool_decide_unpack _); vm_compute; exact I)) as H.
  destruct (parsecmd (chars "cat <in  x|wc>>out")) as [[c buf] s| |] eqn:E; vm_compute in E; try discriminate.
  injection E as <- <- <-. do 2 eexists. split; [reflexivity|]. split; [reflexivity|].
  destruct H as (_ & _ & H). destruct (H 9%nat 10%nat) as (_ & -> & _); [by right; left|]. reflexivity.
Defined.
