(* ===== verification/ShPrint.v ===== *)
(** * The shell reads what is printed

    Commands with their words, a printer for them that puts parentheses where
    the grammar needs them, and the proof that [parsecmd] reads every printed
    command back. *)

From S2P Require Import Prelude Riscv User Sh.

(** ** Commands with their words *)

Inductive ast : Type :=
  | AExec (args : list (list Z))
  | ARedir (a : ast) (file : list Z) (mode fd : Z)
  | APipe (l r : ast)
  | AList (l r : ast)
  | ABack (a : ast).

(** The command that [runcmd] gets, with its strings read from the line. *)
Fixpoint resolve (str : nat * nat → list Z) (c : cmd) : ast :=
  match c with
  | EXEC argv => AExec (str <$> argv)
  | REDIR c q eq mode fd => ARedir (resolve str c) (str (q, eq)) mode fd
  | PIPE l r => APipe (resolve str l) (resolve str r)
  | LIST l r => AList (resolve str l) (resolve str r)
  | BACK c => ABack (resolve str c)
  end.

Inductive tok : Type := Word (w : list Z) | Sym (c : Z) | Append.

Definition tok_chars (t : tok) : list Z :=
  match t with Word w => w | Sym c => [c] | Append => [62; 62] end.
Definition flat (ts : list tok) : list Z := concat ((λ t, tok_chars t ++ [32]) <$> ts).

Definition redir_tok (mode : Z) : tok :=
  if mode =? O_RDONLY then Sym 60 else if mode =? Z.lor (Z.lor O_WRONLY O_CREATE) O_TRUNC then Sym 62 else Append.
Definition paren (b : bool) (ts : list tok) : list tok := if b then Sym 40 :: ts ++ [Sym 41] else ts.

(** The level: 0 a line, 1 a command with [&], 2 a pipeline, 3 a simple command. *)
Fixpoint tokens (lvl : nat) (a : ast) : list tok :=
  match a with
  | AExec args => Word <$> args
  | ARedir a file mode fd => tokens 3 a ++ [redir_tok mode; Word file]
  | APipe l r => paren (2 <? lvl)%nat (tokens 3 l ++ Sym 124 :: tokens 2 r)
  | ABack a => paren (1 <? lvl)%nat (tokens 1 a ++ [Sym 38])
  | AList l r => paren (0 <? lvl)%nat (tokens 1 l ++ Sym 59 :: tokens 0 r)
  end.

Definition print (a : ast) : list Z := flat (tokens 0 a).

Definition word (w : list Z) : Prop := w ≠ [] ∧ 0 ∉ w ∧ Forall (λ c, is_word c = true) w.
Definition redir_ok (mode fd : Z) : Prop :=
  (mode = O_RDONLY ∧ fd = 0) ∨ (mode = Z.lor (Z.lor O_WRONLY O_CREATE) O_TRUNC ∧ fd = 1) ∨ (mode = Z.lor O_WRONLY O_CREATE ∧ fd = 1).

(** Words that can be read, at most nine arguments, and the modes of the
    three redirections. *)
Fixpoint ast_ok (a : ast) : Prop :=
  match a with
  | AExec args => Forall word args ∧ (length args < MAXARGS)%nat
  | ARedir a file mode fd => ast_ok a ∧ word file ∧ redir_ok mode fd
  | APipe l r | AList l r => ast_ok l ∧ ast_ok r
  | ABack a => ast_ok a
  end.

(** ** Tokens of the line *)

Definition code (t : tok) : Z := match t with Word _ => 97 | Sym c => c | Append => 43 end.
Definition first (t : tok) : Z := match t with Word w => hd 0 w | Sym c => c | Append => 62 end.
Definition tok_ok (t : tok) : Prop :=
  match t with Word w => word w | Sym c => c ∈ [124; 40; 41; 59; 38; 60; 62] | Append => True end.

Section read.
  Variable text : list Z.

(** The tokens [ts] are ahead of position [s]. *)
Definition ahead (s : nat) (ts : list tok) : Prop := ∃ pre, text = pre ++ flat ts ∧ s = length pre.

Lemma ahead_len s ts : ahead s ts → length text = (s + length (flat ts))%nat.
Proof. intros (pre & -> & ->). apply length_app. Qed.

Lemma ahead_drop s ts : ahead s ts → drop s text = flat ts.
Proof. intros (pre & -> & ->). apply drop_app_length. Qed.

Lemma flat_cons t ts : flat (t :: ts) = tok_chars t ++ 32 :: flat ts.
Proof. unfold flat. simpl. by rewrite <-app_assoc. Qed.

Lemma flat_app a b : flat (a ++ b) = flat a ++ flat b.
Proof. unfold flat. by rewrite fmap_app, concat_app. Qed.

Lemma is_word_char c : is_word c = true → is_space c = false ∧ is_symbol c = false.
Proof. intros [H1%negb_true_iff H2%negb_true_iff]%andb_true_iff. done. Qed.

Lemma tok_first t : tok_ok t → ∃ r, tok_chars t = first t :: r ∧ first t ≠ 0 ∧ is_space (first t) = false.
Proof.
  destruct t as [w|c|]; simpl.
  - intros (Hne & Hz & Hf). destruct w as [|x w]; [done|]. exists w. split; [done|].
    apply not_elem_of_cons in Hz as [Hz _]. apply Forall_cons in Hf as [Hf _]. split; [done|]. by apply is_word_char in Hf as [].
  - intros Hc. exists []. split; [done|]. rewrite !elem_of_cons in Hc.
    destruct Hc as [->|[->|[->|[->|[->|[->|[->|H%not_elem_of_nil]]]]]]]; done.
  - intros _. by exists [62].
Qed.

Lemma run_first p t ts : tok_ok t → p (first t) = false → run p (flat (t :: ts)) = 0%nat.
Proof. intros Ht Hp. destruct (tok_first t Ht) as (r & E & _). rewrite flat_cons, E. simpl. by rewrite Hp. Qed.

Lemma run_space ts : Forall tok_ok ts → run is_space (flat ts) = 0%nat.
Proof. intros [|t ts' Ht _]; [done|]. apply run_first; [done|]. by destruct (tok_first t Ht) as (_ & _ & _ & H). Qed.

Lemma skip_ahead p s ts : ahead s ts → skip text p s = (s + run p (flat ts))%nat.
Proof. intros H. unfold skip. by rewrite (ahead_drop s ts H). Qed.

Lemma char_ahead s ts : ahead s ts → Forall tok_ok ts → char_at text s = match ts with [] => 0 | t :: _ => first t end.
Proof.
  intros H Hok. unfold char_at. rewrite <-(Nat.add_0_r s), <-lookup_drop, (ahead_drop s ts H).
  destruct Hok as [|t ts Ht _]; [done|]. destruct (tok_first t Ht) as (r & E & _). by rewrite flat_cons, E.
Qed.

Lemma peek_ahead toks s ts : ahead s ts → Forall tok_ok ts →
  peek text toks s = Parsed (match ts with [] => false | t :: _ => in_chars toks (first t) end) s.
Proof.
  intros H Hok. unfold peek. cbv zeta. rewrite (skip_ahead is_space s ts H), run_space, Nat.add_0_r by done. rewrite (char_ahead s ts) by done.
  destruct Hok as [|t ts Ht _]; [done|]. destruct (tok_first t Ht) as (_ & _ & H0 & _).
  by rewrite (proj2 (Z.eqb_neq _ _)).
Qed.

Lemma ahead_after s t ts : ahead s (t :: ts) →
  drop (s + length (tok_chars t)) text = 32 :: flat ts ∧ ahead (s + length (tok_chars t) + 1) ts.
Proof.
  intros (pre & E & ->). rewrite flat_cons in E. split.
  - rewrite E, app_assoc, <-length_app. apply drop_app_length.
  - exists (pre ++ tok_chars t ++ [32]). rewrite E, <-!app_assoc, !length_app. split; [done|]. simpl. lia.
Qed.

Lemma skip_after s t ts : ahead s (t :: ts) → Forall tok_ok ts →
  skip text is_space (s + length (tok_chars t)) = (s + length (tok_chars t) + 1)%nat.
Proof. intros [H _]%ahead_after Hok. unfold skip. rewrite H. simpl. by rewrite run_space. Qed.

Lemma run_word p w l : Forall (λ c, p c = true) w → p 32 = false → run p (w ++ 32 :: l) = length w.
Proof. intros Hw H32. induction Hw as [|c w Hc Hw IH]; simpl; [by rewrite H32|]. by rewrite Hc, IH. Qed.

Lemma gettoken_ahead s t ts : ahead s (t :: ts) → Forall tok_ok (t :: ts) →
  gettoken text s = Parsed (code t, s, s + length (tok_chars t))%nat (s + length (tok_chars t) + 1)%nat.
Proof.
  intros H Hok. pose proof Hok as [Ht Hts]%Forall_cons. unfold gettoken. cbv zeta.
  rewrite (skip_ahead is_space s _ H), run_space, Nat.add_0_r by done. rewrite (char_ahead s (t :: ts)) by done.
  pose proof (skip_after s t ts H Hts) as Hskip. destruct (tok_first t Ht) as (r & Er & H0 & Hsp).
  rewrite (proj2 (Z.eqb_neq (first t) 0)) by done. destruct t as [w|c|].
  - destruct Ht as (Hne & Hz & Hf). assert (is_symbol (first (Word w)) = false) as Hsym.
    { change (tok_chars (Word w)) with w in Er. rewrite Er in Hf. apply Forall_cons in Hf as [Hf _]. by apply is_word_char in Hf as []. }
    unfold is_symbol in Hsym. rewrite in_chars_mem in * by (apply (bool_decide_unpack _); vm_compute; exact I).
    apply bool_decide_eq_false in Hsym. change (first (Word w) ∉ [60; 124; 62; 38; 59; 40; 41]) in Hsym.
    rewrite bool_decide_eq_false_2 by (change (first (Word w) ∉ [124; 40; 41; 59; 38; 60]); set_solver).
    rewrite (proj2 (Z.eqb_neq (first (Word w)) 62)) by set_solver. rewrite (skip_ahead _ s _ H), flat_cons.
    rewrite run_word; [|exact Hf|done]. by rewrite Hskip.
  - rewrite Nat.add_comm in Hskip. simpl in Hskip. change (length (tok_chars (Sym c))) with 1%nat. simpl in Ht. cbn [first code].
    rewrite (Nat.add_comm s 1). simpl.
    assert (char_at text (S s) = 32) as H32.
    { apply ahead_after in H as [H _]. unfold char_at. change (length (tok_chars (Sym c))) with 1%nat in H.
      rewrite <-(Nat.add_0_r (S s)), <-lookup_drop, <-Nat.add_1_r, H. done. }
    assert (in_chars "|();&<" c = negb (c =? 62)) as ->.
    { rewrite !elem_of_cons in Ht. destruct Ht as [->|[->|[->|[->|[->|[->|[->|Hn%not_elem_of_nil]]]]]]]; done. }
    rewrite H32. destruct (c =? 62); cbn [negb]; [change (32 =? 62) with false|]; cbv iota; by rewrite Hskip.
  - assert (char_at text (S s) = 62) as H62.
    { unfold char_at. rewrite <-Nat.add_1_r, <-lookup_drop, (ahead_drop s _ H). done. }
    rewrite H62. change (in_chars "|();&<" (first Append)) with false. cbv iota.
    change (first Append =? 62) with true. cbv iota. rewrite Z.eqb_refl.
    change (length (tok_chars Append)) with 2%nat in *. replace (s + 2)%nat with (S (S s)) in * by lia. by rewrite Hskip.
Qed.

Lemma gettoken_end s : ahead s [] → gettoken text s = Parsed (0, s, s) s.
Proof.
  intros H. unfold gettoken. cbv zeta. rewrite (skip_ahead is_space s [] H). simpl. rewrite Nat.add_0_r, (char_ahead s []) by done. simpl.
  rewrite (skip_ahead is_space s [] H). simpl. by rewrite Nat.add_0_r.
Qed.

(** ** Reading commands *)

Definition str (w : nat * nat) : list Z := take (w.2 - w.1) (drop w.1 text).

Lemma str_ahead s w ts : ahead s (Word w :: ts) → str (s, s + length w)%nat = w.
Proof.
  intros H%ahead_drop. unfold str. cbn [fst snd]. rewrite H, flat_cons. replace (s + length w - s)%nat with (length w) by lia.
  apply take_app_length.
Qed.

(** The parser reads the command [a] and leaves [ts]. *)
Definition reads (m : P cmd) (s : nat) (a : ast) (ts : list tok) : Prop :=
  ∃ c s', m s = Parsed c s' ∧ resolve str c = a ∧ ahead s' ts.

Lemma bind_parsed {A B} (m : P A) (k : A → P B) s a s' : m s = Parsed a s' → (m ≫= k) s = k a s'.
Proof. unfold mbind, P_bind. by intros ->. Qed.

Lemma reads_bind m k s a ts a' ts' : reads m s a ts →
  (∀ c s', resolve str c = a → ahead s' ts → reads (k c) s' a' ts') → reads (m ≫= k) s a' ts'.
Proof. intros (c & s' & E & Hc & Hs) Hk. unfold reads. rewrite (bind_parsed _ _ _ _ _ E). by apply Hk. Qed.

(** The next token is not one of these characters. *)
Definition follow (no : string) (ts : list tok) : Prop :=
  match ts with [] => True | t :: _ => in_chars no (first t) = false end.

Lemma peek_follow {A} no s ts (k : bool → P A) : ahead s ts → Forall tok_ok ts → follow no ts → (peek text no ≫= k) s = k false s.
Proof. intros H Hok Hf. apply bind_parsed. rewrite (peek_ahead no s ts) by done. destruct ts; [done|]. simpl in Hf. by rewrite Hf. Qed.

Lemma peek_here {A} toks s t ts (k : bool → P A) : ahead s (t :: ts) → Forall tok_ok (t :: ts) → in_chars toks (first t) = true →
  (peek text toks ≫= k) s = k true s.
Proof. intros H Hok Hf. apply bind_parsed. rewrite (peek_ahead toks s (t :: ts)) by done. by rewrite Hf. Qed.

(** A token taken; its position and the rest. *)
Lemma take_token s t ts : ahead s (t :: ts) → Forall tok_ok (t :: ts) →
  ∃ s', gettoken text s = Parsed (code t, s, s + length (tok_chars t))%nat s' ∧ ahead s' ts ∧ (s < s')%nat.
Proof. intros H Hok. eexists. split; [by apply (gettoken_ahead s t ts)|]. split; [by apply ahead_after|lia]. Qed.

Definition redir : Type := list Z * Z * Z.
Definition redirs (rs : list redir) : list tok := concat ((λ r : redir, [redir_tok r.1.2; Word r.1.1]) <$> rs).
Definition with_redirs (a : ast) (rs : list redir) : ast := foldl (λ a r, ARedir a r.1.1 r.1.2 r.2) a rs.
Definition redirs_ok (rs : list redir) : Prop := Forall (λ r, word r.1.1 ∧ redir_ok r.1.2 r.2) rs.

Lemma redir_tok_ok mode fd : redir_ok mode fd → tok_ok (redir_tok mode) ∧ in_chars "<>" (first (redir_tok mode)) = true ∧
  ∀ c q eq, (if code (redir_tok mode) =? 60 then REDIR c q eq O_RDONLY 0
     else if code (redir_tok mode) =? 62 then REDIR c q eq (Z.lor (Z.lor O_WRONLY O_CREATE) O_TRUNC) 1
     else if code (redir_tok mode) =? 43 then REDIR c q eq (Z.lor O_WRONLY O_CREATE) 1 else c) = REDIR c q eq mode fd.
Proof.
  intros [[-> ->]|[[-> ->]|[-> ->]]]; (split; [apply (bool_decide_unpack _); vm_compute; exact I|]); (split; [reflexivity|]); reflexivity.
Qed.

Lemma redirs_tok_ok rs : redirs_ok rs → Forall tok_ok (redirs rs).
Proof.
  induction 1 as [|[[w mode] fd] rs [Hw Hr] Hrs IH]; [constructor|]. unfold redirs in *. simpl in *.
  constructor; [by destruct (redir_tok_ok mode fd Hr) as []|]. by constructor.
Qed.

Lemma parseredirs_reads fuel rs : ∀ c a s ts, resolve str c = a → ahead s (redirs rs ++ ts) → redirs_ok rs → Forall tok_ok ts →
  follow "<>" ts → (length text - s < fuel)%nat → reads (parseredirs text fuel c) s (with_redirs a rs) ts.
Proof.
  revert rs. induction fuel as [|fuel IH]; intros rs c a s ts Hc Hs Hrs Hts Hf Hfuel; [lia|]. cbn [parseredirs].
  assert (Forall tok_ok (redirs rs ++ ts)) as Hok by (apply Forall_app; split; [by apply redirs_tok_ok|done]).
  destruct Hrs as [|[[w mode] fd] rs [Hw Hr] Hrs].
  - exists c, s. split; [by apply (peek_follow "<>" s ts)|]. done.
  - unfold redirs in Hs, Hok. simpl in Hs, Hok, Hw, Hr. fold (redirs rs) in Hs, Hok.
    destruct (redir_tok_ok mode fd Hr) as (Ht & Hpk & Hk). unfold reads. rewrite (peek_here "<>" s _ _ _ Hs Hok Hpk).
    destruct (take_token s _ _ Hs Hok) as (s1 & E1 & Hs1 & Hlt1). rewrite (bind_parsed _ _ _ _ _ E1). apply Forall_cons in Hok as [_ Hok].
    destruct (take_token s1 _ _ Hs1 Hok) as (s2 & E2 & Hs2 & Hlt2). rewrite (bind_parsed _ _ _ _ _ E2).
    cbn [code negb Z.eqb Pos.eqb]. rewrite Hk.
    pose proof (ahead_len _ _ Hs1). pose proof (ahead_len _ _ Hs2).
    apply (IH rs _ (ARedir a w mode fd)); [|done|done|done|done|lia].
    simpl. rewrite Hc. f_equal. by apply (str_ahead s1 w (redirs rs ++ ts)).
Qed.

Lemma parseredirs_none fuel c s ts : ahead s ts → Forall tok_ok ts → follow "<>" ts → parseredirs text (S fuel) c s = Parsed c s.
Proof. intros Hs Hok Hf. cbn [parseredirs]. by rewrite (peek_follow "<>" s ts). Qed.

(** The characters that end a simple command. *)
Definition stops (ts : list tok) : Prop :=
  match ts with [] => True | t :: _ => in_chars "|)&;" (first t) = true end.

Lemma stops_follow ts : stops ts → follow "<>" ts ∧ follow "(" ts.
Proof.
  destruct ts as [|t ts]; [done|]. simpl. rewrite in_chars_mem by (apply (bool_decide_unpack _); vm_compute; exact I).
  intros Hs%bool_decide_eq_true. change (first t ∈ [124; 41; 38; 59]) in Hs. rewrite !elem_of_cons in Hs.
  destruct Hs as [->|[->|[->|[->|Hs%not_elem_of_nil]]]]; done.
Qed.

Lemma parseargs_stop fuel argc c a s ts : resolve str c = a → ahead s ts → Forall tok_ok ts → stops ts → (0 < fuel)%nat →
  reads (parseargs text fuel argc c) s a ts.
Proof.
  intros Hc Hs Hok Hst Hfuel. destruct fuel as [|fuel]; [lia|]. cbn [parseargs]. unfold reads. destruct ts as [|t ts].
  - rewrite (peek_follow "|)&;" s []) by done. rewrite (bind_parsed _ _ _ _ _ (gettoken_end s Hs)). by exists c, s.
  - rewrite (peek_here "|)&;" s t ts) by done. by exists c, s.
Qed.

Lemma in_word w ts : word w → follow "|)&;" (Word w :: ts) ∧ follow "<>" (Word w :: ts) ∧ follow "(" (Word w :: ts).
Proof.
  intros (Hne & Hz & Hf). destruct w as [|x w]; [done|]. apply Forall_cons in Hf as [Hf _]. apply is_word_char in Hf as [_ Hsym].
  unfold is_symbol in Hsym. simpl. rewrite !in_chars_mem in * by (apply (bool_decide_unpack _); vm_compute; exact I).
  apply bool_decide_eq_false in Hsym. change (x ∉ [60; 124; 62; 38; 59; 40; 41]) in Hsym.
  split; [|split]; apply bool_decide_eq_false; [change (x ∉ [124; 41; 38; 59])|change (x ∉ [60; 62])|change (x ∉ [40])]; set_solver.
Qed.

Lemma parseargs_reads ws : ∀ fuel argv args rs s ts, str <$> argv = args → ws ≠ [] →
  ahead s ((Word <$> ws) ++ redirs rs ++ ts) → Forall word ws → redirs_ok rs → Forall tok_ok ts → stops ts →
  (length argv + length ws < MAXARGS)%nat → (length text - s < fuel)%nat →
  reads (parseargs text fuel (length argv) (EXEC argv)) s (with_redirs (AExec (args ++ ws)) rs) ts.
Proof.
  induction ws as [|w ws IH]; intros fuel argv args rs s ts Hargs Hne Hs Hws Hrs Hts Hst Hmax Hfuel; [done|].
  destruct fuel as [|fuel]; [lia|]. apply Forall_cons in Hws as [Hw Hws]. destruct (stops_follow ts Hst) as [Hst1 Hst2].
  assert (Forall tok_ok ((Word <$> ws) ++ redirs rs ++ ts)) as Hok.
  { rewrite !Forall_app. split; [by apply Forall_fmap|]. split; [by apply redirs_tok_ok|done]. }
  assert (Forall tok_ok (Word w :: (Word <$> ws) ++ redirs rs ++ ts)) as Hok' by (by constructor).
  unfold reads. cbn [parseargs]. destruct (in_word w ((Word <$> ws) ++ redirs rs ++ ts) Hw) as (Hf1 & Hf2 & _).
  rewrite (peek_follow "|)&;" s _ _ Hs Hok' Hf1).
  destruct (take_token s _ _ Hs Hok') as (s1 & E1 & Hs1 & Hlt1). rewrite (bind_parsed _ _ _ _ _ E1). cbn [code negb Z.eqb Pos.eqb add_arg].
  rewrite (proj2 (Nat.leb_gt _ _)) by (simpl in Hmax; lia). change (length (tok_chars (Word w))) with (length w).
  pose proof (ahead_len _ _ Hs). pose proof (ahead_len _ _ Hs1).
  assert (str <$> (argv ++ [(s, s + length w)%nat]) = args ++ [w]) as Hargs'.
  { rewrite fmap_app, Hargs. simpl. by rewrite (str_ahead s w _ Hs). }
  destruct ws as [|w' ws].
  - apply (reads_bind _ _ _ (with_redirs (AExec (args ++ [w])) rs) ts).
    + apply parseredirs_reads; [simpl; by rewrite Hargs'|done|done|done|done|lia].
    + intros c s2 Hc Hs2. apply parseargs_stop; [done|done|done|done|]. pose proof (ahead_len _ _ Hs2). lia.
  - apply Forall_cons in Hws as Hws'. destruct Hws' as [Hw' _].
    rewrite (bind_parsed _ _ _ _ _ (parseredirs_none fuel _ s1 _ Hs1 Hok (proj1 (proj2 (in_word w' _ Hw'))))).
    replace (args ++ w :: w' :: ws) with ((args ++ [w]) ++ w' :: ws) by (by rewrite <-app_assoc).
    replace (S (length argv)) with (length (argv ++ [(s, s + length w)%nat])) by (rewrite length_app; simpl; lia).
    apply IH; try done; [rewrite length_app; simpl in *; lia|lia].
Qed.

(** ** The grammar, level by level *)

Definition reads_exec (a : ast) : Prop := ∀ fuel rs s ts,
  ahead s (tokens 3 a ++ redirs rs ++ ts) → redirs_ok rs → Forall tok_ok ts → stops ts →
  (4 * (length text - s) + 2 ≤ fuel)%nat → reads (parseexec text fuel) s (with_redirs a rs) ts.

Definition reads_pipe (a : ast) : Prop := ∀ fuel s ts,
  ahead s (tokens 2 a ++ ts) → Forall tok_ok ts → stops ts → follow "|" ts →
  (4 * (length text - s) + 3 ≤ fuel)%nat → reads (parsepipe text fuel) s a ts.

Definition reads_back (a : ast) : Prop := ∀ fuel n s ts,
  ahead s (tokens 1 a ++ replicate n (Sym 38) ++ ts) → Forall tok_ok ts → stops ts → follow "|" ts → follow "&" ts →
  (4 * (length text - s) + 3 ≤ fuel)%nat →
  reads (parsepipe text fuel ≫= parsebacks text (S fuel)) s (Nat.iter n ABack a) ts.

Definition reads_line (a : ast) : Prop := ∀ fuel s ts,
  ahead s (tokens 0 a ++ ts) → Forall tok_ok ts → stops ts → follow "|" ts → follow "&" ts → follow ";" ts →
  (4 * (length text - s) + 4 ≤ fuel)%nat → reads (parseline text fuel) s a ts.

Lemma bind_assoc {A B C} (m : P A) (f : A → P B) (g : B → P C) s : ((m ≫= f) ≫= g) s = (m ≫= λ a, f a ≫= g) s.
Proof. unfold mbind, P_bind. by destruct (m s). Qed.

Lemma tokens_ok lvl a : ast_ok a → Forall tok_ok (tokens lvl a).
Proof.
  assert (∀ b ts, Forall tok_ok ts → Forall tok_ok (paren b ts)) as Hp.
  { intros [] ts H; [|done]. simpl. constructor; [simpl; set_solver|]. apply Forall_app. split; [done|]. constructor; [simpl; set_solver|constructor]. }
  revert lvl. induction a as [args|a IH w mode fd|l IHl r IHr|l IHl r IHr|a IH]; intros lvl; simpl.
  - intros [H _]. by apply Forall_fmap.
  - intros (Ha & Hw & Hr). apply Forall_app. split; [by apply IH|]. destruct (redir_tok_ok mode fd Hr) as [Ht _].
    constructor; [done|]. constructor; [done|constructor].
  - intros [Hl Hr]. apply Hp, Forall_app. split; [by apply IHl|]. constructor; [simpl; set_solver|by apply IHr].
  - intros [Hl Hr]. apply Hp, Forall_app. split; [by apply IHl|]. constructor; [simpl; set_solver|by apply IHr].
  - intros Ha. apply Hp, Forall_app. split; [by apply IH|]. constructor; [simpl; set_solver|constructor].
Qed.

Lemma ahead_fuel s t ts s' : ahead s (t ++ ts) → ahead s' ts → (length text - s' ≤ length text - s)%nat.
Proof. intros H1%ahead_len H2%ahead_len. rewrite flat_app, length_app in H1. lia. Qed.

(** A pipeline of one command, a command without [&], a line of one command. *)
Lemma exec_pipe a : tokens 2 a = tokens 3 a → reads_exec a → reads_pipe a.
Proof.
  intros E He fuel s ts Hs Hok Hst Hf Hfuel. destruct fuel as [|fuel]; [lia|]. cbn [parsepipe]. rewrite E in Hs.
  apply (reads_bind _ _ _ a ts); [apply (He fuel []); [done|constructor|done|done|lia]|].
  intros c s' Hc Hs'. unfold reads. rewrite (peek_follow "|" s' ts) by done. by exists c, s'.
Qed.

Lemma parsebacks_reads fuel n : ∀ c a s ts, resolve str c = a → ahead s (replicate n (Sym 38) ++ ts) → Forall tok_ok ts →
  follow "&" ts → (length text - s < fuel)%nat → reads (parsebacks text fuel c) s (Nat.iter n ABack a) ts.
Proof.
  revert fuel. induction n as [|n IH]; intros fuel c a s ts Hc Hs Hok Hf Hfuel; (destruct fuel as [|fuel]; [lia|]); cbn [parsebacks]; unfold reads.
  - rewrite (peek_follow "&" s ts) by done. by exists c, s.
  - assert (Forall tok_ok (Sym 38 :: replicate n (Sym 38) ++ ts)) as Hok'.
    { constructor; [simpl; set_solver|]. apply Forall_app. split; [|done]. apply Forall_replicate. simpl. set_solver. }
    rewrite (peek_here "&" s _ _ _ Hs Hok') by reflexivity.
    destruct (take_token s _ _ Hs Hok') as (s1 & E1 & Hs1 & Hlt1). rewrite (bind_parsed _ _ _ _ _ E1).
    rewrite Nat.iter_succ_r. apply IH; [by simpl; rewrite Hc|done|done|done|]. apply ahead_len in Hs, Hs1. lia.
Qed.

Lemma stops_amp n ts : stops ts → stops (replicate n (Sym 38) ++ ts) ∧ (follow "|" ts → follow "|" (replicate n (Sym 38) ++ ts)).
Proof. destruct n; [done|]. done. Qed.

Lemma amp_ok n ts : Forall tok_ok ts → Forall tok_ok (replicate n (Sym 38) ++ ts).
Proof. intros H. apply Forall_app. split; [|done]. apply Forall_replicate. simpl. set_solver. Qed.

Lemma pipe_back a : tokens 1 a = tokens 2 a → reads_pipe a → reads_back a.
Proof.
  intros E Hp fuel n s ts Hs Hok Hst Hf Hf' Hfuel. rewrite E in Hs. destruct (stops_amp n ts Hst) as [Hst1 Hst2].
  apply (reads_bind _ _ _ a (replicate n (Sym 38) ++ ts)); [apply Hp; [done|by apply amp_ok|done|by apply Hst2|lia]|].
  intros c s' Hc Hs'. apply parsebacks_reads; try done. pose proof (ahead_fuel s (tokens 2 a) _ s' Hs Hs'). lia.
Qed.

Lemma back_line a : tokens 0 a = tokens 1 a → reads_back a → reads_line a.
Proof.
  intros E Hb fuel s ts Hs Hok Hst Hf1 Hf2 Hf3 Hfuel. rewrite E in Hs. destruct fuel as [|fuel]; [lia|]. cbn [parseline]. unfold reads.
  rewrite <-bind_assoc. apply (reads_bind _ _ _ a ts); [apply (Hb fuel 0%nat); try done; lia|].
  intros c s' Hc Hs'. unfold reads. rewrite (peek_follow ";" s' ts) by done. by exists c, s'.
Qed.

(** A command in parentheses. *)
Lemma line_exec a : ast_ok a → tokens 3 a = Sym 40 :: tokens 0 a ++ [Sym 41] → reads_line a → reads_exec a.
Proof.
  intros Ha E Hl fuel rs s ts Hs Hrs Hok Hst Hfuel. rewrite E in Hs. simpl in Hs. rewrite <-app_assoc in Hs. simpl in Hs.
  assert (Forall tok_ok (Sym 41 :: redirs rs ++ ts)) as Hok1.
  { constructor; [simpl; set_solver|]. apply Forall_app. split; [by apply redirs_tok_ok|done]. }
  assert (Forall tok_ok (Sym 40 :: tokens 0 a ++ Sym 41 :: redirs rs ++ ts)) as Hok0.
  { constructor; [simpl; set_solver|]. apply Forall_app. split; [by apply tokens_ok|done]. }
  pose proof (ahead_len _ _ Hs) as Hlen. simpl in Hlen.
  destruct fuel as [|[|fuel]]; [lia|lia|]. cbn [parseexec]. unfold reads. rewrite (peek_here "(" s _ _ _ Hs Hok0) by reflexivity.
  cbn [parseblock]. rewrite (peek_here "(" s _ _ _ Hs Hok0) by reflexivity. cbn [negb].
  destruct (take_token s _ _ Hs Hok0) as (s1 & E1 & Hs1 & Hlt1). rewrite (bind_parsed _ _ _ _ _ E1).
  pose proof (ahead_len _ _ Hs1) as Hlen1. apply (reads_bind _ _ _ a (Sym 41 :: redirs rs ++ ts)).
  { apply Hl; try done. lia. }
  intros c s2 Hc Hs2. unfold reads. rewrite (peek_here ")" s2 _ _ _ Hs2 Hok1) by reflexivity. cbn [negb].
  destruct (take_token s2 _ _ Hs2 Hok1) as (s3 & E3 & Hs3 & Hlt3). rewrite (bind_parsed _ _ _ _ _ E3).
  pose proof (ahead_fuel s1 (tokens 0 a) _ s2 Hs1 Hs2). pose proof (ahead_len _ _ Hs3).
  apply parseredirs_reads; [done|done|done|done|by apply stops_follow|lia].
Qed.

Lemma exec_exec args : ast_ok (AExec args) → reads_exec (AExec args).
Proof.
  intros [Hw Hmax] fuel rs s ts Hs Hrs Hok Hst Hfuel. destruct fuel as [|fuel]; [lia|]. simpl in Hs. cbn [parseexec].
  destruct (stops_follow ts Hst) as [Hst1 Hst2].
  assert (Forall tok_ok ((Word <$> args) ++ redirs rs ++ ts)) as Hok1.
  { rewrite !Forall_app. split; [by apply Forall_fmap|]. split; [by apply redirs_tok_ok|done]. }
  assert (follow "(" ((Word <$> args) ++ redirs rs ++ ts)) as Hf.
  { destruct args as [|w args]; [|apply Forall_cons in Hw as [Hw _]; by apply in_word]. simpl.
    destruct Hrs as [|[[w m] f] rs [_ Hr] _]; [done|]. cbn [fst snd] in Hr. by destruct Hr as [[-> _]|[[-> _]|[-> _]]]. }
  unfold reads. rewrite (peek_follow "(" s _ _ Hs Hok1 Hf). destruct args as [|w args].
  - apply (reads_bind _ _ _ (with_redirs (AExec []) rs) ts).
    + apply parseredirs_reads; [done|done|done|done|done|lia].
    + intros c s' Hc Hs'. apply parseargs_stop; try done. lia.
  - apply Forall_cons in Hw as Hw'. destruct Hw' as [Hw1 _].
    rewrite (bind_parsed _ _ _ _ _ (parseredirs_none fuel (EXEC []) s _ Hs Hok1 (proj1 (proj2 (in_word w _ Hw1))))).
    apply (parseargs_reads (w :: args) (S fuel) [] []); try done. lia.
Qed.

Lemma redir_exec a w mode fd : ast_ok (ARedir a w mode fd) → reads_exec a → reads_exec (ARedir a w mode fd).
Proof.
  intros (Ha & Hw & Hr) He fuel rs s ts Hs Hrs Hok Hst Hfuel. simpl in Hs. rewrite <-app_assoc in Hs.
  apply (He fuel ((w, mode, fd) :: rs) s ts); try done. by constructor.
Qed.

Lemma pipe_pipe l r : ast_ok r → reads_exec l → reads_pipe r → reads_pipe (APipe l r).
Proof.
  intros Har Hl Hr fuel s ts Hs Hok Hst Hf Hfuel. destruct fuel as [|fuel]; [lia|]. cbn [parsepipe]. simpl in Hs. rewrite <-app_assoc in Hs. simpl in Hs.
  assert (Forall tok_ok (Sym 124 :: tokens 2 r ++ ts)) as Hok1.
  { constructor; [simpl; set_solver|]. apply Forall_app. split; [by apply tokens_ok|done]. }
  apply (reads_bind _ _ _ l (Sym 124 :: tokens 2 r ++ ts)); [apply (Hl fuel []); try done; [constructor|lia]|].
  intros c s1 Hc Hs1. unfold reads. rewrite (peek_here "|" s1 _ _ _ Hs1 Hok1) by reflexivity.
  destruct (take_token s1 _ _ Hs1 Hok1) as (s2 & E2 & Hs2 & Hlt2). rewrite (bind_parsed _ _ _ _ _ E2).
  pose proof (ahead_fuel s (tokens 3 l) _ s1 Hs Hs1). pose proof (ahead_len _ _ Hs1). pose proof (ahead_len _ _ Hs2).
  apply (reads_bind _ _ _ r ts); [apply Hr; try done; lia|]. intros c' s3 Hc' Hs3. exists (PIPE c c'), s3. simpl. by rewrite Hc, Hc'.
Qed.

Lemma back_back a : reads_back a → reads_back (ABack a).
Proof.
  intros Ha fuel n s ts Hs Hok Hst Hf1 Hf2 Hfuel. simpl in Hs. rewrite <-app_assoc in Hs. rewrite <-Nat.iter_succ_r. by apply Ha.
Qed.

Lemma list_line l r : ast_ok r → reads_back l → reads_line r → reads_line (AList l r).
Proof.
  intros Har Hl Hr fuel s ts Hs Hok Hst Hf1 Hf2 Hf3 Hfuel. destruct fuel as [|fuel]; [lia|]. cbn [parseline]. simpl in Hs.
  rewrite <-app_assoc in Hs. simpl in Hs. unfold reads. rewrite <-bind_assoc.
  assert (Forall tok_ok (Sym 59 :: tokens 0 r ++ ts)) as Hok1.
  { constructor; [simpl; set_solver|]. apply Forall_app. split; [by apply tokens_ok|done]. }
  apply (reads_bind _ _ _ l (Sym 59 :: tokens 0 r ++ ts)); [apply (Hl fuel 0%nat); try done; lia|].
  intros c s1 Hc Hs1. unfold reads. rewrite (peek_here ";" s1 _ _ _ Hs1 Hok1) by reflexivity.
  destruct (take_token s1 _ _ Hs1 Hok1) as (s2 & E2 & Hs2 & Hlt2). rewrite (bind_parsed _ _ _ _ _ E2).
  pose proof (ahead_fuel s (tokens 1 l) _ s1 Hs Hs1). pose proof (ahead_len _ _ Hs1). pose proof (ahead_len _ _ Hs2).
  apply (reads_bind _ _ _ r ts); [apply Hr; try done; lia|]. intros c' s3 Hc' Hs3. exists (LIST c c'), s3. simpl. by rewrite Hc, Hc'.
Qed.

Lemma reads_all a : ast_ok a → reads_exec a ∧ reads_pipe a ∧ reads_back a ∧ reads_line a.
Proof.
  induction a as [args|a IH w mode fd|l IHl r IHr|l IHl r IHr|a IH]; intros Hok.
  - assert (reads_exec (AExec args)) by (by apply exec_exec). eauto 10 using exec_pipe, pipe_back, back_line.
  - assert (reads_exec (ARedir a w mode fd)) by (apply redir_exec; [done|]; by apply IH, Hok). eauto 10 using exec_pipe, pipe_back, back_line.
  - assert (reads_pipe (APipe l r)) by (apply pipe_pipe; [apply Hok|by apply IHl, Hok|by apply IHr, Hok]).
    eauto 10 using pipe_back, back_line, line_exec.
  - assert (reads_line (AList l r)) by (apply list_line; [apply Hok|by apply IHl, Hok|by apply IHr, Hok]).
    eauto 10 using line_exec, exec_pipe, pipe_back.
  - assert (reads_back (ABack a)) by (by apply back_back, IH). eauto 10 using back_line, line_exec, exec_pipe.
Qed.
End read.

Lemma flat_no_nul ts : Forall tok_ok ts → 0 ∉ flat ts.
Proof.
  induction 1 as [|t ts Ht Hts IH]; [apply not_elem_of_nil|]. rewrite flat_cons. intros [H|[H|H]%elem_of_cons]%elem_of_app; [|done|done].
  destruct t as [w|c|]; simpl in *.
  - destruct Ht as (_ & Hz & _). done.
  - apply list_elem_of_singleton in H. subst. by apply (bool_decide_unpack (¬ 0 ∈ [124; 40; 41; 59; 38; 60; 62])) in Ht.
  - by apply (bool_decide_unpack (¬ 0 ∈ [62; 62])) in H.
Qed.

Lemma resolve_ext f g c : (∀ w, w ∈ spans c → f w = g w) → resolve f c = resolve g c.
Proof.
  induction c as [argv|c IH q eq mode fd|l IHl r IHr|l IHl r IHr|c IH]; simpl; intros H.
  - f_equal. apply list_fmap_ext. intros i w Hw. apply H. by eapply list_elem_of_lookup_2.
  - rewrite IH, H by set_solver. done.
  - rewrite IHl, IHr by set_solver. done.
  - rewrite IHl, IHr by set_solver. done.
  - by rewrite IH.
Qed.

(** C35: The shell reads every command back from its text: parsing the printed
    command succeeds, and the command with its strings, as [runcmd] finds them
    after [nulterminate], is the one that was printed.  Pipes bind tighter than
    [&], [&] tighter than [;], both lists are read to the right, and parentheses
    group. *)
Theorem parsecmd_print a : ast_ok a → ∃ c buf,
  parsecmd (print a) = Parsed (c, buf) (length (print a)) ∧ resolve (λ w, cstr (drop w.1 buf)) c = a.
Proof.
  intros Ha. assert (0 ∉ print a) as Hnul by (by apply flat_no_nul, tokens_ok). set (text := print a).
  destruct (reads_all text a Ha) as (_ & _ & _ & Hline).
  destruct (Hline (parse_fuel text) 0%nat []) as (c & s & E & Hc & Hs); try done.
  { exists []. by rewrite app_nil_r. }
  { unfold parse_fuel. lia. }
  pose proof (ahead_len text s [] Hs) as Hlen. simpl in Hlen.
  assert (parsecmd_tree text 0%nat = Parsed c (length text)) as Et.
  { unfold parsecmd_tree. rewrite (bind_parsed _ _ _ _ _ E), (bind_parsed _ _ _ _ _ (peek_ahead text "" s [] Hs ltac:(constructor))).
    unfold mbind, P_bind, position. rewrite Hlen, Nat.add_0_r, Nat.eqb_refl. done. }
  exists c, (nulterminate c (text ++ [0])). unfold parsecmd. fold text. rewrite Et. split; [done|].
  pose proof (parsecmd_tree_ends text Hnul) as Hok. unfold ensures in Hok. rewrite Et in Hok. destruct Hok as [_ Hok].
  rewrite <-Hc. apply resolve_ext. intros w Hw. by apply nulterminate_word.
Qed.

(** [( a b ; c < f & ) | d >> g], and the list of it with [e &]. *)
Lemma parsecmd_print_witness :
  let a := AList (APipe (AList (AExec [chars "a"; chars "b"]) (ABack (ARedir (AExec [chars "c"]) (chars "f") O_RDONLY 0)))
    (ARedir (AExec [chars "d"]) (chars "g") (Z.lor O_WRONLY O_CREATE) 1)) (ABack (AExec [chars "e"])) in
  print a = chars "( a b ; c < f & ) | d >> g ; e & " ∧
  ∃ c buf, parsecmd (print a) = Parsed (c, buf) (length (print a)) ∧ resolve (λ w, cstr (drop w.1 buf)) c = a.
Proof.
  intros a. split; [reflexivity|]. apply (parsecmd_print a).
  assert (∀ w, bool_decide (w ≠ [] ∧ 0 ∉ w ∧ Forall (λ c, is_word c = true) w) = true → word w) as Hw by (intros w H; by apply bool_decide_eq_true in H).
  repeat match goal with
  | |- word _ => apply Hw; vm_compute; reflexivity
  | |- redir_ok _ _ => (by left) || (right; by left) || (right; by right)
  | |- _ ∧ _ => split
  | |- Forall _ _ => constructor
  | |- (_ < _)%nat => vm_compute; lia
  | |- _ => progress simpl
  end.
Defined.
