(* ===== verification/ShRun.v ===== *)
(** * Running commands, [user/sh.c]

    [runcmd] as the sequence of system calls of a process and its children, and
    the loop of [main] that reads lines.  The theorems say what the processes of
    a command do, with which descriptors and what fails, and what is done for
    each line. *)

From S2P Require Import Prelude Riscv User Sh ShPrint.

(** ** System calls of [runcmd] *)

Inductive prog : Type :=
  | Exit (status : Z)
  | Close (fd : Z) (k : prog)
  | Dup (fd : Z) (k : prog)
  | Open (file : list Z) (mode : Z) (ok failed : prog)
  | Pipe (ok : Z → Z → prog) (failed : prog)
  | Fork (child parent failed : prog)
  | Wait (k : prog)
  | Exec (path : list Z) (argv : list (list Z)) (failed : prog)
  | Message (msg : list Z) (k : prog).

Definition shpanic (s : string) : prog := Message (line s) (Exit 1).

(** [fork1]: the child, or the parent. *)
Definition fork1 (child parent : prog) : prog := Fork child parent (shpanic "fork").

Fixpoint runcmd (c : ast) : prog :=
  match c with
  | AExec [] => Exit 1
  | AExec (path :: args) =>
      Exec path (path :: args) (Message (chars "exec " ++ path ++ line " failed") (Exit 0))
  | ARedir c file mode fd =>
      Close fd (Open file mode (runcmd c) (Message (chars "open " ++ file ++ line " failed") (Exit 1)))
  | AList l r => fork1 (runcmd l) (Wait (runcmd r))
  | APipe l r =>
      Pipe (λ p0 p1,
        fork1 (Close 1 (Dup p1 (Close p0 (Close p1 (runcmd l)))))
          (fork1 (Close 0 (Dup p0 (Close p0 (Close p1 (runcmd r)))))
            (Close p0 (Close p1 (Wait (Wait (Exit 0)))))))
        (shpanic "pipe")
  | ABack c => fork1 (runcmd c) (Exit 0)
  end.

(** ** What the calls do *)

(** What a descriptor refers to; pipes are numbered. *)
Inductive object : Type := Terminal | OpenFile (file : list Z) (mode : Z) | ReadEnd (id : nat) | WriteEnd (id : nat).

(** What a process does: it runs a program with the descriptors it has, exits,
    starts a child, waits for one with these descriptors open, or writes a
    message. *)
Inductive life : Type :=
  | Became (path : list Z) (argv : list (list Z)) (t : gmap Z object)
  | Exited (status : Z)
  | Forked (child rest : life)
  | Waited (t : gmap Z object) (rest : life)
  | Said (msg : list Z) (rest : life).

(** The life of a process with the descriptors [t].  [ok k] says whether the
    system lets call [k] of [fork], [exec], [open] and [pipe] succeed; these
    calls are numbered from [k], those of a child before those its parent makes
    later, and pipes from [n].  [open], [pipe] and [dup] also need free
    descriptors. *)
Fixpoint launch (ok : nat → bool) (p : prog) (t : gmap Z object) (n k : nat) : life * (nat * nat) :=
  match p with
  | Exit status => (Exited status, (n, k))
  | Close fd p => launch ok p (delete fd t) n k
  | Dup fd p =>
      match t !! fd, free_fd (Z.to_nat NOFILE) 0 t with
      | Some o, Some fd' => launch ok p (<[fd' := o]> t) n k
      | _, _ => launch ok p t n k
      end
  | Open file mode p failed =>
      match free_fd (Z.to_nat NOFILE) 0 t with
      | Some fd => if ok k then launch ok p (<[fd := OpenFile file mode]> t) n (S k) else launch ok failed t n (S k)
      | None => launch ok failed t n (S k)
      end
  | Pipe p failed =>
      match free_fd (Z.to_nat NOFILE) 0 t with
      | Some p0 =>
          match free_fd (Z.to_nat NOFILE) 0 (<[p0 := ReadEnd n]> t) with
          | Some p1 =>
              if ok k then launch ok (p p0 p1) (<[p1 := WriteEnd n]> (<[p0 := ReadEnd n]> t)) (S n) (S k)
              else launch ok failed t n (S k)
          | None => launch ok failed t n (S k)
          end
      | None => launch ok failed t n (S k)
      end
  | Fork child parent failed =>
      if ok k then
        let '(a, (n, k)) := launch ok child t n (S k) in
        let '(b, r) := launch ok parent t n k in
        (Forked a b, r)
      else launch ok failed t n (S k)
  | Wait p => let '(b, r) := launch ok p t n k in (Waited t b, r)
  | Exec path argv failed => if ok k then (Became path argv t, (n, S k)) else launch ok failed t n (S k)
  | Message msg p => let '(b, r) := launch ok p t n k in (Said msg b, r)
  end.

(** ** What a command means *)

(** Standard input [i], output [o] and errors [e] and nothing else. *)
Definition standard (i o e : object) : gmap Z object := {[0 := i; 1 := o; 2 := e]}.

(** A process that gives up. *)
Definition fails (msg : list Z) (status : Z) (n k : nat) : life * (nat * nat) := (Said msg (Exited status), (n, k)).

(** The life of the process that runs a command. *)
Fixpoint plan (ok : nat → bool) (c : ast) (i o e : object) (n k : nat) : life * (nat * nat) :=
  match c with
  | AExec [] => (Exited 1, (n, k))
  | AExec (path :: args) =>
      if ok k then (Became path (path :: args) (standard i o e), (n, S k))
      else fails (chars "exec " ++ path ++ line " failed") 0 n (S k)
  | ARedir c file mode fd =>
      if ok k then
        if fd =? 0 then plan ok c (OpenFile file mode) o e n (S k) else plan ok c i (OpenFile file mode) e n (S k)
      else fails (chars "open " ++ file ++ line " failed") 1 n (S k)
  | AList l r =>
      if ok k then
        let '(a, (n, k)) := plan ok l i o e n (S k) in
        let '(b, x) := plan ok r i o e n k in
        (Forked a (Waited (standard i o e) b), x)
      else fails (line "fork") 1 n (S k)
  | APipe l r =>
      if ok k then
        if ok (S k) then
          let '(a, (n', k)) := plan ok l i (WriteEnd n) e (S n) (S (S k)) in
          if ok k then
            let '(b, x) := plan ok r (ReadEnd n) o e n' (S k) in
            (Forked a (Forked b (Waited (standard i o e) (Waited (standard i o e) (Exited 0)))), x)
          else (Forked a (Said (line "fork") (Exited 1)), (n', S k))
        else fails (line "fork") 1 (S n) (S (S k))
      else fails (line "pipe") 1 n (S k)
  | ABack c =>
      if ok k then
        let '(a, x) := plan ok c i o e n (S k) in
        (Forked a (Exited 0), x)
      else fails (line "fork") 1 n (S k)
  end.

(** Programs run, and processes wait, with no other descriptors. *)
Fixpoint tidy (x : life) : Prop :=
  match x with
  | Became _ _ t => dom t = ({[0; 1; 2]} : gset Z)
  | Exited _ => True
  | Forked a b => tidy a ∧ tidy b
  | Waited t b => dom t = ({[0; 1; 2]} : gset Z) ∧ tidy b
  | Said _ b => tidy b
  end.

(** A process with [m] children waits for each of its children before it ends,
    and so do they. *)
Fixpoint waits (m : nat) (x : life) : Prop :=
  match x with
  | Became _ _ _ | Exited _ => m = O
  | Forked a b => waits 0 a ∧ waits (S m) b
  | Waited _ b => match m with O => False | S m => waits m b end
  | Said _ b => waits m b
  end.

Fixpoint foreground (c : ast) : Prop :=
  match c with
  | AExec _ => True
  | ARedir c _ _ _ => foreground c
  | APipe l r | AList l r => foreground l ∧ foreground r
  | ABack _ => False
  end.

(** The redirections of the parser are to descriptors 0 and 1. *)
Fixpoint redirs01 (c : ast) : Prop :=
  match c with
  | AExec _ => True
  | ARedir c _ _ fd => redirs01 c ∧ (fd = 0 ∨ fd = 1)
  | APipe l r | AList l r => redirs01 l ∧ redirs01 r
  | ABack c => redirs01 c
  end.

Ltac tables := apply map_eq; intros k; unfold standard;
  repeat (rewrite lookup_insert || rewrite lookup_delete || rewrite lookup_singleton || case_decide); simplify_eq/=; try done; try lia.

Lemma free_standard0 i o e : free_fd (Z.to_nat NOFILE) 0 (delete 0 (standard i o e)) = Some 0 ∧
  ∀ x, <[0 := x]> (delete 0 (standard i o e)) = standard x o e.
Proof. split; [done|]. intros x. tables. Qed.

Lemma free_standard1 i o e : free_fd (Z.to_nat NOFILE) 0 (delete 1 (standard i o e)) = Some 1 ∧
  ∀ x, <[1 := x]> (delete 1 (standard i o e)) = standard i x e.
Proof. split; [done|]. intros x. tables. Qed.

(** The table of the shell after [pipe], and what the children make of it. *)
Definition piped (i o e r w : object) : gmap Z object := <[4 := w]> (<[3 := r]> (standard i o e)).

Lemma piped_left i o e r w : delete 4 (delete 3 (<[1 := w]> (delete 1 (piped i o e r w)))) = standard i w e.
Proof. unfold piped. tables. Qed.
Lemma piped_right i o e r w : delete 4 (delete 3 (<[0 := r]> (delete 0 (piped i o e r w)))) = standard r o e.
Proof. unfold piped. tables. Qed.
Lemma piped_parent i o e r w : delete 4 (delete 3 (piped i o e r w)) = standard i o e.
Proof. unfold piped. tables. Qed.

Section runcmd.
  Variable ok : nat → bool.

Lemma launch_pipe l r i o e n k :
  (∀ i o e n k, launch ok (runcmd l) (standard i o e) n k = plan ok l i o e n k) →
  (∀ i o e n k, launch ok (runcmd r) (standard i o e) n k = plan ok r i o e n k) →
  launch ok (runcmd (APipe l r)) (standard i o e) n k = plan ok (APipe l r) i o e n k.
Proof.
  intros IHl IHr. cbn [runcmd plan]. cbn [launch].
  change (free_fd (Z.to_nat NOFILE) 0 (standard i o e)) with (Some 3). cbv iota beta.
  change (free_fd (Z.to_nat NOFILE) 0 (<[3 := ReadEnd n]> (standard i o e))) with (Some 4). cbv iota beta.
  fold (piped i o e (ReadEnd n) (WriteEnd n)). destruct (ok k); [|done]. cbn [fork1 launch]. destruct (ok (S k)); [|done].
  change (delete 1 (piped i o e (ReadEnd n) (WriteEnd n)) !! 4) with (Some (WriteEnd n)).
  change (free_fd (Z.to_nat NOFILE) 0 (delete 1 (piped i o e (ReadEnd n) (WriteEnd n)))) with (Some 1). cbv iota beta.
  change (delete 0 (piped i o e (ReadEnd n) (WriteEnd n)) !! 3) with (Some (ReadEnd n)).
  change (free_fd (Z.to_nat NOFILE) 0 (delete 0 (piped i o e (ReadEnd n) (WriteEnd n)))) with (Some 0). cbv iota beta.
  rewrite piped_left, piped_right, piped_parent, IHl. destruct (plan ok l i (WriteEnd n) e (S n) (S (S k))) as [a [n' k']].
  destruct (ok k'); [|done]. rewrite IHr. by destruct (plan ok r (ReadEnd n) o e n' (S k')) as [b []].
Qed.

Lemma launch_plan c : redirs01 c → ∀ i o e n k, launch ok (runcmd c) (standard i o e) n k = plan ok c i o e n k.
Proof.
  induction c as [[|f args]|c IH file mode fd|l IHl r IHr|l IHl r IHr|c IH]; intros Hc i o e n k.
  - done.
  - done.
  - destruct Hc as [Hc [-> | ->]]; cbn [runcmd launch plan Z.eqb].
    + destruct (free_standard0 i o e) as [-> ->]. destruct (ok k); [by apply IH|done].
    + destruct (free_standard1 i o e) as [-> ->]. destruct (ok k); [by apply IH|done].
  - apply launch_pipe; [by apply IHl, Hc|by apply IHr, Hc].
  - destruct Hc as [Hl Hr]. cbn [runcmd fork1 launch plan]. destruct (ok k); [|done].
    rewrite IHl by done. destruct (plan ok l i o e n (S k)) as [a [n' k']]. rewrite IHr by done. by destruct (plan ok r i o e n' k').
  - cbn [runcmd fork1 launch plan]. destruct (ok k); [|done]. rewrite IH by done. by destruct (plan ok c i o e n (S k)) as [a [n' k']].
Qed.

Lemma standard_dom i o e : dom (standard i o e) = ({[0; 1; 2]} : gset Z).
Proof. unfold standard. set_solver. Qed.

Lemma plan_tidy c : ∀ i o e n k, tidy (plan ok c i o e n k).1.
Proof.
  induction c as [[|f args]|c IH file mode fd|l IHl r IHr|l IHl r IHr|c IH]; intros i o e n k; simpl; try done;
    (destruct (ok k); [|done]); simpl; try apply standard_dom.
  - case_if; apply IH.
  - destruct (ok (S k)); [|done]. specialize (IHl i (WriteEnd n) e (S n) (S (S k))). destruct (plan ok l _ _ _ _ _) as [a [n' k']].
    destruct (ok k'); [|done]. specialize (IHr (ReadEnd n) o e n' (S k')). destruct (plan ok r _ _ _ _ _) as [b x].
    simpl in *. split_and!; try done; apply standard_dom.
  - specialize (IHl i o e n (S k)). destruct (plan ok l _ _ _ _ _) as [a [n' k']]. specialize (IHr i o e n' k').
    destruct (plan ok r _ _ _ _ _) as [b x]. simpl in *. split_and!; try done; apply standard_dom.
  - specialize (IH i o e n (S k)). by destruct (plan ok c _ _ _ _ _) as [a x].
Qed.

Lemma plan_waits c : (∀ j, ok j = true) → foreground c → ∀ i o e n k, waits 0 (plan ok c i o e n k).1.
Proof.
  intros Hok. induction c as [[|f args]|c IH file mode fd|l IHl r IHr|l IHl r IHr|c IH]; intros Hc i o e n k; simpl; rewrite ?Hok; try done.
  - case_if; by apply IH.
  - destruct Hc as [Hl Hr]. specialize (IHl Hl i (WriteEnd n) e (S n) (S (S k))). destruct (plan ok l _ _ _ _ _) as [a [n' k']].
    rewrite Hok. specialize (IHr Hr (ReadEnd n) o e n' (S k')). by destruct (plan ok r _ _ _ _ _) as [b x].
  - destruct Hc as [Hl Hr]. specialize (IHl Hl i o e n (S k)). destruct (plan ok l _ _ _ _ _) as [a [n' k']].
    specialize (IHr Hr i o e n' k'). by destruct (plan ok r _ _ _ _ _) as [b x].
Qed.

(** C36: [runcmd] does what the command means, whichever of its calls of
    [fork], [exec], [open] and [pipe] fail: each program runs with the standard
    input, output and errors it must have, where a redirection replaces one of
    them with the file and the two sides of [|] are connected by a pipe of their
    own; the process that runs [;] waits for the left side before it starts the
    right one, the process that runs [|] waits for both sides; and after a
    failure the process writes a message and exits.  No program has any other
    descriptor, and no process waits with any other open, so no end of a pipe
    stays open in a program that does not use it or in a process that waits
    for one.  When no call fails and nothing runs in the background, every
    process waits for all its children before it ends. *)
Theorem runcmd_starts c i o e n k : redirs01 c →
  launch ok (runcmd c) (standard i o e) n k = plan ok c i o e n k ∧
  tidy (launch ok (runcmd c) (standard i o e) n k).1 ∧
  ((∀ j, ok j = true) → foreground c → waits 0 (launch ok (runcmd c) (standard i o e) n k).1).
Proof. intros Hc. rewrite launch_plan by done. split; [done|]. split; [apply plan_tidy|]. intros Hok Hf. by apply plan_waits. Qed.
End runcmd.

(** [a | b > f]: two programs and a pipe, and what happens when the file cannot
    be opened. *)
Definition pipeline : ast := APipe (AExec [chars "a"]) (ARedir (AExec [chars "b"]) (chars "f") 0x601 1).

Lemma runcmd_starts_witness :
  let std := standard Terminal Terminal Terminal in
  launch (λ _, true) (runcmd pipeline) std 0 0 =
    (Forked (Became (chars "a") [chars "a"] (standard Terminal (WriteEnd 0) Terminal))
      (Forked (Became (chars "b") [chars "b"] (standard (ReadEnd 0) (OpenFile (chars "f") 0x601) Terminal))
        (Waited std (Waited std (Exited 0)))), (1, 6)%nat) ∧
  waits 0 (launch (λ _, true) (runcmd pipeline) std 0 0).1 ∧
  launch (λ k, negb (k =? 4)%nat) (runcmd pipeline) std 0 0 =
    (Forked (Became (chars "a") [chars "a"] (standard Terminal (WriteEnd 0) Terminal))
      (Forked (Said (chars "open f" ++ line " failed") (Exited 1)) (Waited std (Waited std (Exited 0)))), (1, 5)%nat).
Proof.
  intros std. assert (redirs01 pipeline) as H by (split; [done|]; split; [done|by right]).
  destruct (runcmd_starts (λ _, true) pipeline Terminal Terminal Terminal 0 0 H) as (E & _ & Hw).
  destruct (runcmd_starts (λ k, negb (k =? 4)%nat) pipeline Terminal Terminal Terminal 0 0 H) as (E' & _ & _).
  split; [etrans; [exact E|reflexivity]|]. split; [apply Hw; [reflexivity|done]|]. etrans; [exact E'|reflexivity].
Defined.

(** ** The loop of [main] *)

(** What [main] does for a line: [chdir] itself, or a child that runs it. *)
Inductive action : Type := Chdir (dir : list Z) | Run (text : list Z).

Definition getcmd : U (option (list Z)) :=
  _ ← write 2 [36; 32];
  buf ← User.gets 100;
  mret (match cstr buf with [] => None | text => Some text end).

(** [buf[strlen(buf)-1] = 0] takes the last character off. *)
Definition act (text : list Z) : action :=
  if bool_decide (take 3 text = chars "cd ") then Chdir (drop 3 (take (length text - 1) text)) else Run text.

Fixpoint main_loop (fuel : nat) : U (list action) :=
  match fuel with
  | O => stuck
  | S fuel =>
      r ← getcmd;
      match r with
      | None => mret []
      | Some text => l ← main_loop fuel; mret (act text :: l)
      end
  end.

(** A line that fits the buffer. *)
Definition line_ok (l : list Z) : Prop := (length l + 2 ≤ 100)%nat ∧ 0 ∉ l ∧ 10 ∉ l ∧ 13 ∉ l.

Lemma first_line_whole k l t : (length l < k)%nat → 10 ∉ l → 13 ∉ l → first_line k (l ++ 10 :: t) = l ++ [10].
Proof.
  revert k. induction l as [|c l IH]; intros [|k] Hk H1 H2; simpl in *; try lia; [done|].
  apply not_elem_of_cons in H1 as [H1 H1'], H2 as [H2 H2']. if_false. rewrite IH by (done || lia). done.
Qed.

Lemma getcmd_run t e : fds e !! 0 = Some t → no_failures e → 0 ∉ first_line 99 t →
  ∃ e', getcmd e = (Ret (match first_line 99 t with [] => None | text => Some text end), e') ∧
    fds e' !! 0 = Some (drop (length (first_line 99 t)) t) ∧ no_failures e'.
Proof.
  intros Ht He Hz. unfold getcmd, User.gets, mbind, U_bind. rewrite write_run by done.
  destruct (gets_loop_run (S (Z.to_nat 100)) 0 100 t [] (wrote 2 [36; 32] e)) as (e' & E & F1 & _ & F3 & _); [lia|lia|done|].
  rewrite E. change (Z.to_nat (100 - 1 - 0)) with 99%nat in *. exists e'.
  unfold mret, U_ret. cbv beta iota. cbn [app]. rewrite cstr_app by done.
  split; [done|]. split; [by rewrite F1, lookup_insert_eq|]. unfold no_failures. by rewrite F3.
Qed.

Lemma main_loop_run fuel ls : ∀ e, fds e !! 0 = Some (concat ((λ l, l ++ [10]) <$> ls)) → no_failures e → Forall line_ok ls →
  (length ls < fuel)%nat → ∃ e', main_loop fuel e = (Ret ((λ l, act (l ++ [10])) <$> ls), e').
Proof.
  revert ls. induction fuel as [|fuel IH]; intros ls e Ht He Hls Hf; [lia|]. cbn [main_loop].
  destruct Hls as [|l ls (Hlen & H0 & H10 & H13) Hls].
  - destruct (getcmd_run [] e) as (e' & E & _); [done|done|apply not_elem_of_nil|]. unfold mbind, U_bind. rewrite E. by exists e'.
  - rewrite fmap_cons in Ht. cbn [concat] in Ht. rewrite <-app_assoc in Ht. cbn [app] in Ht.
    assert (first_line 99 (l ++ 10 :: concat ((λ l, l ++ [10]) <$> ls)) = l ++ [10]) as Hfl by (apply first_line_whole; [lia|done|done]).
    destruct (getcmd_run _ e Ht He) as (e1 & E & F1 & He1); [rewrite Hfl; set_solver|]. rewrite Hfl in E, F1.
    unfold mbind, U_bind. rewrite E. destruct (l ++ [10]) as [|x y] eqn:El; [by destruct l|]. rewrite <-El in *. clear El x y.
    assert (∀ k, l ++ 10 :: k = (l ++ [10]) ++ k) as Hk by (intros k; by rewrite <-app_assoc). rewrite (Hk (concat _)), drop_app_length in F1. destruct (IH ls e1 F1 He1 Hls ltac:(simpl in Hf; lia)) as (e' & E').
    rewrite E'. by exists e'.
Qed.

(** The shell acts on every line of its input in order, as long as the
    lines fit its buffer: [cd dir] changes the directory of the shell itself, to
    [dir] without the newline; every other line is run by a child. *)
Theorem sh_lines ls e : fds e !! 0 = Some (concat ((λ l, l ++ [10]) <$> ls)) → no_failures e → Forall line_ok ls →
  ∃ e', main_loop (S (length ls)) e =
    (Ret ((λ l, if decide (take 3 l = chars "cd ") then Chdir (drop 3 l) else Run (l ++ [10])) <$> ls), e').
Proof.
  intros Ht He Hls. destruct (main_loop_run (S (length ls)) ls e Ht He Hls ltac:(lia)) as (e' & E). exists e'. rewrite E. do 2 f_equal.
  apply list_fmap_ext. intros i l Hl. rewrite Forall_forall in Hls. destruct (Hls l (list_elem_of_lookup_2 _ _ _ Hl)) as (Hlen & _ & H10 & _).
  unfold act. case_decide as Hcd.
  - rewrite bool_decide_eq_true_2.
    + rewrite length_app. simpl. replace (length l + 1 - 1)%nat with (length l) by lia. by rewrite take_app_length.
    + assert (3 ≤ length l)%nat by (apply (f_equal length) in Hcd; rewrite length_take in Hcd; change (length (chars _)) with 3%nat in Hcd; lia). by rewrite take_app_le.
  - rewrite bool_decide_eq_false_2; [done|]. intros Hcd'. apply Hcd. destruct (decide (3 ≤ length l)%nat); [by rewrite take_app_le in Hcd'|].
    exfalso. assert (10 ∈ chars "cd ") as H.
    { rewrite <-Hcd', take_ge by (rewrite length_app; simpl; lia). set_solver. }
    by apply (bool_decide_unpack (¬ 10 ∈ chars "cd ")) in H.
Qed.

Lemma sh_lines_witness : ∃ e',
  main_loop 3 (Env ∅ {[0 := chars "cd dir" ++ [10] ++ chars "ls" ++ [10]]} [] [] []) = (Ret [Chdir (chars "dir"); Run (chars "ls" ++ [10])], e').
Proof.
  destruct (sh_lines [chars "cd dir"; chars "ls"] (Env ∅ {[0 := chars "cd dir" ++ [10] ++ chars "ls" ++ [10]]} [] [] [])) as (e' & E).
  - reflexivity.
  - reflexivity.
  - repeat constructor; apply (bool_decide_unpack _); vm_compute; exact I.
  - exists e'. exact E.
Defined.

(** At the end of the input, a last line without a newline: the shell changes
    to a directory whose name lacks its last character. *)
Example cd_chops : ∃ e', main_loop 2 (Env ∅ {[0 := chars "cd dir"]} [] [] []) = (Ret [Chdir (chars "di")], e').
Proof. eexists. vm_compute. reflexivity. Qed.
