(* ===== verification/Programs.v ===== *)
(** * The other user programs

    [init.c], [ls.c], [kill.c], [ln.c], [mkdir.c], [rm.c], [zombie.c],
    [test1.c], [forktest.c], [stressfs.c], [stat] of [ulib.c] and the random
    numbers of [grind.c], the rest of which is in Grind.  A program is an interaction tree over its calls of
    the system and of [fprintf], as [init] does not end; [play] runs it with a
    kernel.  The theorems say that [init] keeps one shell running, that the shell
    starts with three open descriptors, that [ls]
    stays inside its buffer and asks for each entry of a directory, and that
    [do_rand] computes without overflow what its comment promises. *)

From S2P Require Import Prelude Riscv Memory User Uprintf Utils.
From ITree Require ITree.
Import ITree.Core.ITreeDefinition.

Definition O_RDONLY : Z := 0x000.
Definition O_RDWR : Z := 0x002.
Definition O_CREATE : Z := 0x200.
Definition CONSOLE : Z := 1.
Definition T_DIR : Z := 1.
Definition T_FILE : Z := 2.
Definition T_DEVICE : Z := 3.
Definition DIRSIZ : nat := 14.

Record stat_ : Type := Stat { st_type : Z; st_ino : Z; st_size : Z }.

(** ** Calls *)

(** The calls of the programs; strings are without their NUL, [None] is -1.
    [Wait] is [wait(0)] with the pid as the result, [WaitStatus] is
    [wait(&st)] with [st]; [Pipe] has the two descriptors. *)
Inductive callE : Type → Type :=
  | Fork : callE Z
  | Wait : callE Z
  | Exit (status : Z) : callE Empty_set
  | Kill (pid : Z) : callE Z
  | Sleep (n : Z) : callE Z
  | Link (old new : list Z) : callE Z
  | Unlink (path : list Z) : callE Z
  | Mkdir (path : list Z) : callE Z
  | Mknod (path : list Z) (major minor : Z) : callE Z
  | Open (path : list Z) (mode : Z) : callE Z
  | Dup (fd : Z) : callE Z
  | Close (fd : Z) : callE Z
  | Exec (path : list Z) (argv : list (list Z)) : callE Z
  | Read (fd : Z) (n : nat) : callE (option (list Z))
  | Write (fd : Z) (l : list Z) : callE Z
  | Fstat (fd : Z) : callE (option stat_)
  | Hello (n : Z) : callE Z
  | Chdir (path : list Z) : callE Z
  | Getpid : callE Z
  | Sbrk (n : Z) : callE Z
  | Pipe : callE (option (Z * Z))
  | WaitStatus : callE (option Z)
  | Fprintf (fd : Z) (fmt : list Z) (ap : list varg) : callE unit
  | Undefined (why : string) : callE Empty_set.

Abbreviation prog := (itree callE).

#[local] Instance prog_ret : MRet prog := λ A a, ITreeDefinition.Ret a.
#[local] Instance prog_bind : MBind prog := λ A B k m, ITree.bind m k.

Definition call {A} (e : callE A) : prog A := ITree.trigger e.
Definition exit_ {A} (status : Z) : prog A := x ← call (Exit status); match x : Empty_set with end.
Definition undefined {A} (why : string) : prog A := x ← call (Undefined why); match x : Empty_set with end.
Definition eprint (fmt : string) (ap : list varg) : prog unit := call (Fprintf 2 (line fmt) ap).
Definition print (fmt : string) (ap : list varg) : prog unit := call (Fprintf 1 (line fmt) ap).

(** The first [n] steps of a program with a kernel, which answers a call or
    stops the program. *)
Fixpoint play {K A} (kernel : K → ∀ X, callE X → K * option X) (n : nat) (k : K) (t : prog A) : K * option A :=
  match n with
  | O => (k, None)
  | S n =>
      match observe t with
      | RetF a => (k, Some a)
      | TauF t => play kernel n k t
      | VisF e f => match kernel k _ e with (k, Some x) => play kernel n k (f x) | (k, None) => (k, None) end
      end
  end.

(** ** [kill.c], [ln.c], [mkdir.c], [rm.c], [zombie.c], [test1.c] *)

Fixpoint kill_each (args : list (list Z)) : prog unit :=
  match args with
  | [] => mret tt
  | a :: args =>
      match atoi (a ++ [0]) with
      | Some pid => _ ← call (Kill pid); kill_each args
      | None => undefined "atoi overflows"
      end
  end.
Definition kill_main (argv : list (list Z)) : prog Empty_set :=
  _ ← (if (length argv <? 2)%nat then _ ← eprint "usage: kill pid..." []; exit_ 1 else mret tt);
  _ ← kill_each (tl argv);
  exit_ 0.

Definition ln_main (argv : list (list Z)) : prog Empty_set :=
  match argv with
  | [_; old; new] =>
      r ← call (Link old new);
      _ ← (if r <? 0 then eprint "link %s %s: failed" [VStr (Some old); VStr (Some new)] else mret tt);
      exit_ 0
  | _ => _ ← eprint "Usage: ln old new" []; exit_ 1
  end.

Fixpoint mkdir_each (args : list (list Z)) : prog unit :=
  match args with
  | [] => mret tt
  | a :: args =>
      r ← call (Mkdir a);
      if r <? 0 then eprint "mkdir: %s failed to create" [VStr (Some a)] else mkdir_each args
  end.
Definition mkdir_main (argv : list (list Z)) : prog Empty_set :=
  _ ← (if (length argv <? 2)%nat then _ ← eprint "Usage: mkdir files..." []; exit_ 1 else mret tt);
  _ ← mkdir_each (tl argv);
  exit_ 0.

Fixpoint rm_each (args : list (list Z)) : prog unit :=
  match args with
  | [] => mret tt
  | a :: args =>
      r ← call (Unlink a);
      if r <? 0 then eprint "rm: %s failed to delete" [VStr (Some a)] else rm_each args
  end.
Definition rm_main (argv : list (list Z)) : prog Empty_set :=
  _ ← (if (length argv <? 2)%nat then _ ← eprint "Usage: rm files..." []; exit_ 1 else mret tt);
  _ ← rm_each (tl argv);
  exit_ 0.

Definition zombie_main : prog Empty_set :=
  pid ← call Fork;
  _ ← (if 0 <? pid then _ ← call (Sleep 5); mret tt else mret tt);
  exit_ 0.

Definition test1_main (argv : list (list Z)) : prog Empty_set :=
  n ← (match argv with
       | _ :: a :: _ => match atoi (a ++ [0]) with Some n => mret n | None => undefined "atoi overflows" end
       | _ => mret 0
       end);
  _ ← print "Say hello to kernel %d" [VInt n];
  _ ← call (Hello n);
  exit_ 0.

(** ** [init.c] *)

(** The loop over [wait], and whether it ended with the shell. *)
Definition init_wait (pid : Z) : prog unit :=
  ITree.iter (λ _ : unit,
    wpid ← call Wait;
    if wpid =? pid then mret (inr tt)
    else if wpid <? 0 then _ ← print "init: wait returned an error" []; exit_ 1
    else mret (inl tt)) tt.

Definition init_round : prog unit :=
  _ ← print "init: starting sh" [];
  pid ← call Fork;
  if pid <? 0 then _ ← print "init: fork failed" []; exit_ 1
  else if pid =? 0 then
    _ ← call (Exec (chars "sh") [chars "sh"]);
    _ ← print "init: exec sh failed" [];
    exit_ 1
  else init_wait pid.

Definition init_loop : prog Empty_set := ITree.iter (λ _ : unit, _ ← init_round; mret (inl tt)) tt.

Definition init_main : prog Empty_set :=
  fd ← call (Open (chars "console") O_RDWR);
  _ ← (if fd <? 0 then
         _ ← call (Mknod (chars "console") CONSOLE 0);
         _ ← call (Open (chars "console") O_RDWR);
         mret tt
       else mret tt);
  _ ← call (Dup 0);
  _ ← call (Dup 0);
  init_loop.

(** ** The descriptors of the shell *)

(** [while((fd = open("console", O_RDWR)) >= 0)] of [sh.c], which sees that
    three descriptors are open. *)
Definition sh_console : prog unit :=
  ITree.iter (λ _ : unit,
    fd ← call (Open (chars "console") O_RDWR);
    if fd <? 0 then mret (inr tt)
    else if 3 <=? fd then _ ← call (Close fd); mret (inr tt)
    else mret (inl tt)) tt.

(** ** [stat] of [ulib.c], and [ls.c] *)

Definition stat (n : list Z) : prog (option stat_) :=
  fd ← call (Open n O_RDONLY);
  if fd <? 0 then mret None
  else
    r ← call (Fstat fd);
    _ ← call (Close fd);
    mret r.

(** The loop of [fmtname] from [p] down, and [p++]. *)
Fixpoint last_elem (path : list Z) (p : nat) : nat :=
  if bool_decide (path !! p = Some 47) then S p
  else match p with O => O | S p => last_elem path p end.

Definition fmtname (path : list Z) : list Z :=
  let p := drop (last_elem path (length path)) path in
  if (DIRSIZ <=? length p)%nat then p else p ++ replicate (DIRSIZ - length p) 32.

(** Stores to a buffer. *)
Definition store (buf : list Z) (off : nat) (l : list Z) : option (list Z) :=
  if (off + length l <=? length buf)%nat then Some (take off buf ++ l ++ drop (off + length l) buf) else None.

(** What [ls] prints for [path]; [%d] takes the low 32 bits of a [uint64]. *)
Definition stat_line (path : list Z) (st : stat_) : list varg :=
  [VStr (Some (fmtname path)); VInt (st_type st); VInt (s32 (st_ino st)); VInt (s32 (st_size st))].

Definition de_inum (de : list Z) : Z := le_val (take 2 de).
Definition de_name (de : list Z) : list Z := drop 2 de.

(** One round of the loop over the entries: [p] is where their names go. *)
Definition ls_round (fd : Z) (p : nat) (buf : list Z) : prog (list Z + unit) :=
  r ← call (Read fd 16);
  match r with
  | Some de =>
      if (length de =? 16)%nat then
        if de_inum de =? 0 then mret (inl buf)
        else
          match b ← store buf p (de_name de); store b (p + DIRSIZ) [0] with
          | None => undefined "ls writes after buf"
          | Some buf =>
              st ← stat (cstr buf);
              _ ← (match st with
                   | None => print "ls: cannot stat %s" [VStr (Some (cstr buf))]
                   | Some st => print "%s %d %d %d" (stat_line (cstr buf) st)
                   end);
              mret (inl buf)
          end
      else mret (inr tt)
  | None => mret (inr tt)
  end.

(** [buf] is not initialised; nothing depends on its first contents. *)
Definition ls_dir (fd : Z) (path : list Z) : prog unit :=
  if (512 <? length path + 1 + DIRSIZ + 1)%nat then print "ls: path too long" []
  else
    match b ← store (replicate 512 0) 0 (path ++ [0]); store b (length path) [47] with
    | None => undefined "ls writes after buf"
    | Some buf => ITree.iter (ls_round fd (length path + 1)) buf
    end.

Definition ls (path : list Z) : prog unit :=
  fd ← call (Open path 0);
  if fd <? 0 then eprint "ls: cannot open %s" [VStr (Some path)]
  else
    r ← call (Fstat fd);
    match r with
    | None =>
        _ ← eprint "ls: cannot stat %s" [VStr (Some path)];
        _ ← call (Close fd);
        mret tt
    | Some st =>
        _ ← (if (st_type st =? T_DEVICE) || (st_type st =? T_FILE) then
               print "%s %d %d %l" [VStr (Some (fmtname path)); VInt (st_type st); VInt (s32 (st_ino st)); VLong (st_size st)]
             else if st_type st =? T_DIR then ls_dir fd path
             else mret tt);
        _ ← call (Close fd);
        mret tt
    end.

Fixpoint ls_each (args : list (list Z)) : prog unit :=
  match args with
  | [] => mret tt
  | a :: args => _ ← ls a; ls_each args
  end.
Definition ls_main (argv : list (list Z)) : prog Empty_set :=
  _ ← (if (length argv <? 2)%nat then _ ← ls (chars "."); exit_ 0 else mret tt);
  _ ← ls_each (tl argv);
  exit_ 0.

(** ** [forktest.c] and [stressfs.c] *)

Definition print_s (s : string) : prog unit := _ ← call (Write 1 (line s)); mret tt.

(** The children that were started, from [n] on, with [k] rounds left. *)
Fixpoint fork_loop (k : nat) (n : Z) : prog Z :=
  match k with
  | O => mret n
  | S k =>
      pid ← call Fork;
      if pid <? 0 then mret n
      else if pid =? 0 then exit_ 0
      else fork_loop k (n + 1)
  end.

Fixpoint wait_loop (n : nat) : prog unit :=
  match n with
  | O => mret tt
  | S n =>
      r ← call Wait;
      if r <? 0 then _ ← print_s "wait stopped early"; exit_ 1 else wait_loop n
  end.

Definition forktest : prog unit :=
  _ ← print_s "fork test";
  n ← fork_loop 1000 0;
  _ ← (if n =? 1000 then _ ← print_s "fork claimed to work N times!"; exit_ 1 else mret tt);
  _ ← wait_loop (Z.to_nat n);
  r ← call Wait;
  if negb (r =? -1) then _ ← print_s "wait got too many"; exit_ 1
  else print_s "fork test OK".
Definition forktest_main : prog Empty_set := _ ← forktest; exit_ 0.

Fixpoint stress_fork (k : nat) (i : Z) : prog Z :=
  match k with
  | O => mret i
  | S k => pid ← call Fork; if 0 <? pid then mret i else stress_fork k (i + 1)
  end.
Fixpoint stress_write (k : nat) (fd : Z) (data : list Z) : prog unit :=
  match k with O => mret tt | S k => _ ← call (Write fd data); stress_write k fd data end.
Fixpoint stress_read (k : nat) (fd : Z) (n : nat) : prog unit :=
  match k with O => mret tt | S k => _ ← call (Read fd n); stress_read k fd n end.

Definition stressfs_main : prog Empty_set :=
  _ ← print "stressfs starting" [];
  i ← stress_fork 4 0;
  _ ← print "write %d" [VInt i];
  let path := chars "stressfs" ++ [48 + i] in
  fd ← call (Open path (Z.lor O_CREATE O_RDWR));
  _ ← stress_write 20 fd (replicate 512 97);
  _ ← call (Close fd);
  _ ← print "read" [];
  fd ← call (Open path O_RDONLY);
  _ ← stress_read 20 fd 512;
  _ ← call (Close fd);
  _ ← call Wait;
  exit_ 0.

(** ** [do_rand] and [rand] of [grind.c] *)

(** A [long] that overflows is undefined. *)
Definition long (x : Z) : option Z := if (- 2 ^ 63 <=? x) && (x <? 2 ^ 63) then Some x else None.

(** The new [*ctx] and the result. *)
Definition do_rand (ctx : Z) : option (Z * Z) :=
  x ← long (ctx mod 0x7ffffffe + 1);
  let hi := x / 127773 in
  let lo := x mod 127773 in
  a ← long (16807 * lo);
  b ← long (2836 * hi);
  x ← long (a - b);
  x ← (if x <? 0 then long (x + 0x7fffffff) else Some x);
  x ← long (x - 1);
  Some (u64 x, s32 x).
Definition rand (rand_next : Z) : option (Z * Z) := do_rand rand_next.

(** A run of [rm a b c] where [b] cannot be deleted: the paths that are asked
    for, the last one first, and the lines that are printed. *)
Definition rm_kernel (k : list (list Z) * list (list varg)) X (e : callE X) : (list (list Z) * list (list varg)) * option X :=
  match e in callE X return _ * option X with
  | Unlink path => ((path :: k.1, k.2), Some (if bool_decide (path = chars "b") then -1 else 0))
  | Fprintf _ _ ap => ((k.1, ap :: k.2), Some tt)
  | _ => (k, None)
  end.
Example rm_run :
  play rm_kernel 20 ([], []) (rm_main [chars "rm"; chars "a"; chars "b"; chars "c"]) =
  (([chars "b"; chars "a"], [[VStr (Some (chars "b"))]]), None).
Proof. reflexivity. Qed.

(** ** What a program does with any kernel *)

Section logic.
  (** [allowed]: the calls that may be made, by the history of the calls so
      far, which [next] keeps. *)
  Context {S : Type} (allowed : S → ∀ X, callE X → Prop) (next : S → ∀ X, callE X → X → S).

(** In the first [n] steps, whatever the kernel answers, only allowed calls
    are made, and results satisfy [Q]. *)
Fixpoint sat {A} (n : nat) (h : S) (t : prog A) (Q : S → A → Prop) : Prop :=
  match n with
  | O => True
  | Datatypes.S n =>
      match observe t with
      | RetF a => Q h a
      | TauF t => sat n h t Q
      | VisF e k => allowed h _ e ∧ ∀ x, sat n (next h _ e x) (k x) Q
      end
  end.

Lemma sat_mono {A} (Q R : S → A → Prop) n : ∀ h t, sat n h t Q → (∀ h a, Q h a → R h a) → sat n h t R.
Proof.
  induction n as [|n IH]; intros h t Ht HR; [done|]. cbn [sat] in *. destruct (observe t) as [a|t'|X e k]; [by apply HR|by eapply IH|].
  destruct Ht as [He Ht]. split; [done|]. intros x. by eapply IH.
Qed.

Lemma sat_bind {A B} (k : A → prog B) Q n : ∀ h (t : prog A),
  sat n h t (λ h a, ∀ m, (m ≤ n)%nat → sat m h (k a) Q) → sat n h (mbind k t) Q.
Proof.
  induction n as [|n IH]; intros h t Ht; [done|]. cbn [sat] in *.
  change (observe (mbind k t)) with (observe (match observe t with
    | RetF r => k r | TauF t => Tau (ITree.bind t k) | VisF e g => Vis e (λ x, ITree.bind (g x) k) end)).
  destruct (observe t) as [a|t'|X e k'].
  - exact (Ht (Datatypes.S n) (le_n _)).
  - apply IH. eapply sat_mono; [exact Ht|]. intros h' a H m Hm. apply H. lia.
  - destruct Ht as [He Ht]. split; [done|]. intros x. apply IH. eapply sat_mono; [apply Ht|]. intros h' a H m Hm. apply H. lia.
Qed.

Lemma sat_ret {A} (a : A) (Q : S → A → Prop) n h : Q h a → sat n h (mret a) Q.
Proof. by destruct n. Qed.

Lemma sat_call {A B} (e : callE A) (k : A → prog B) Q n h :
  allowed h _ e → (∀ x m, (m ≤ n)%nat → sat m (next h _ e x) (k x) Q) → sat n h (mbind k (call e)) Q.
Proof.
  intros He Hk. apply sat_bind. destruct n as [|n]; [done|]. cbn [sat]. split; [done|]. intros x. apply sat_ret. intros m Hm. by apply Hk.
Qed.

Lemma sat_last {A} (e : callE A) (Q : S → A → Prop) n h : allowed h _ e → (∀ x, Q (next h _ e x) x) → sat n h (call e) Q.
Proof. intros He Hk. destruct n as [|n]; [done|]. cbn [sat]. split; [done|]. intros x. by apply sat_ret. Qed.

Lemma sat_exit {A} status (Q : S → A → Prop) n h : allowed h _ (Exit status) → sat n h (exit_ status) Q.
Proof. intros He. by apply sat_call. Qed.

Lemma sat_iter {A I} (f : I → prog (I + A)) (Inv : S → I → Prop) Q n :
  (∀ m h i, (m ≤ n)%nat → Inv h i → sat m h (f i) (λ h r, match r with inl i => Inv h i | inr a => Q h a end)) →
  ∀ h i, Inv h i → sat n h (ITree.iter f i) Q.
Proof.
  intros Hf. induction n as [n IH] using lt_wf_ind. intros h i Hi.
  assert (sat n h (mbind (λ r, match r with inl i => Tau (ITree.iter f i) | inr a => Ret a end) (f i)) Q) as Hs.
  { apply sat_bind. eapply sat_mono; [by apply Hf|]. intros h' [i'|a] H m Hm; [|by destruct m].
    destruct m as [|m]; [done|]. cbn [sat observe]. cbn. apply IH; [lia| |done]. intros m' h'' i'' Hm'. apply Hf. lia. }
  destruct n as [|n]; [done|]. exact Hs.
Qed.
End logic.

(** *** [init] *)

(** The shell that runs, and whether this is the child or a call failed. *)
Record watch : Type := Watch { shell : option Z; in_child : bool; failed : bool }.

Definition watch_next (h : watch) X (e : callE X) : X → watch :=
  match e in callE X return X → watch with
  | Fork => λ pid,
      if pid <? 0 then Watch (shell h) (in_child h) true
      else if pid =? 0 then Watch None true (failed h) else Watch (Some pid) (in_child h) (failed h)
  | Wait => λ pid,
      if bool_decide (shell h = Some pid) then Watch None (in_child h) (failed h)
      else if pid <? 0 then Watch (shell h) (in_child h) true else h
  | Exec _ _ => λ _, Watch (shell h) (in_child h) true
  | _ => λ _, h
  end.
Definition watch_allowed (h : watch) X (e : callE X) : Prop :=
  match e with
  | Fork => shell h = None ∧ in_child h = false
  | Wait => shell h ≠ None
  | Exec _ _ => in_child h = true
  | Exit _ => failed h = true
  | Undefined _ => False
  | _ => True
  end.

Local Abbreviation guard := (sat watch_allowed watch_next).

Lemma init_wait_ok n pid : guard n (Watch (Some pid) false false) (init_wait pid) (λ h _, h = Watch None false false).
Proof.
  apply (sat_iter _ _ _ (λ h _, h = Watch (Some pid) false false)); [|done]. intros m h [] _ ->.
  apply sat_call; [done|]. intros w m' _. cbn [watch_next shell in_child failed]. destruct (Z.eqb_spec w pid) as [->|Hne].
  - apply sat_ret. by rewrite bool_decide_true.
  - rewrite bool_decide_false by congruence. case_if; [|by apply sat_ret]. apply sat_call; [done|]. intros ? m'' _. by apply sat_exit.
Qed.

Lemma init_round_ok n : guard n (Watch None false false) init_round (λ h _, h = Watch None false false).
Proof.
  apply sat_call; [done|]. intros ? m _. apply sat_call; [done|]. intros pid m' _. cbn [watch_next shell in_child failed]. case_if.
  { apply sat_call; [done|]. intros ? m'' _. by apply sat_exit. }
  case_if; [|apply init_wait_ok]. apply sat_call; [done|]. intros r m'' _. apply sat_call; [done|]. intros ? m3 _. by apply sat_exit.
Qed.

(** [init] keeps one shell running.  With any kernel, it forks only when it
    has no shell, runs the shell in the child, waits only while its shell
    runs, starts another one as soon as [wait] returned its shell, ignores
    the other processes that it inherits, exits only when a call failed, and
    does not return. *)
Theorem init_one_shell n : guard n (Watch None false false) init_main (λ _ _, False).
Proof.
  apply sat_call; [done|]. intros fd m _. apply sat_bind.
  assert (guard m (Watch None false false)
    (if fd <? 0 then _ ← call (Mknod (chars "console") CONSOLE 0); _ ← call (Open (chars "console") O_RDWR); mret tt else mret tt)
    (λ h _, h = Watch None false false)) as Hfd.
  { case_if; [|by apply sat_ret]. apply sat_call; [done|]. intros ? m1 _. apply sat_call; [done|]. intros ? m2 _. by apply sat_ret. }
  eapply sat_mono; [exact Hfd|]. intros h _ -> m1 _. apply sat_call; [done|]. intros ? m2 _. apply sat_call; [done|]. intros ? m3 _.
  apply (sat_iter _ _ _ (λ h _, h = Watch None false false)); [|done]. intros m4 h _ _ ->. apply sat_bind.
  eapply sat_mono; [apply init_round_ok|]. intros h _ -> m5 _. by apply sat_ret.
Qed.

(** *** The shell *)

(** The open descriptors, and whether [open] failed or gave another
    descriptor than the lowest free one. *)
Definition fds_next (h : gset Z * bool) X (e : callE X) : X → gset Z * bool :=
  match e in callE X return X → gset Z * bool with
  | Open _ _ => λ fd,
      ({[fd]} ∪ h.1, h.2 || negb ((0 <=? fd) && bool_decide (fd ∉ h.1) && forallb (λ x, bool_decide (x ∈ h.1)) (seqZ 0 fd)))
  | Close fd => λ _, (h.1 ∖ {[fd]}, h.2)
  | _ => λ _, h
  end.
Definition fds_allowed (h : gset Z * bool) X (e : callE X) : Prop :=
  match e with Open _ _ => True | Close fd => fd ∈ h.1 | _ => False end.

(** Whatever is open when the shell starts, descriptors 0, 1 and 2 are open
    after its loop, when [open] gives the lowest free descriptor. *)
Theorem sh_console_opens n O :
  sat fds_allowed fds_next n (O, false) sh_console (λ h _, h.2 = true ∨ 0 ∈ h.1 ∧ 1 ∈ h.1 ∧ 2 ∈ h.1).
Proof.
  apply (sat_iter _ _ _ (λ _ _, True)); [|done]. intros m [O1 odd] [] _ _. apply sat_call; [done|]. intros fd m1 _. cbn [fds_next fst snd].
  destruct (Z.ltb_spec fd 0) as [Hf|Hf]. { apply sat_ret. left. cbn [snd]. rewrite (proj2 (Z.leb_gt 0 fd)) by done. by rewrite orb_true_r. }
  destruct (Z.leb_spec 3 fd) as [H3|H3]; [|by apply sat_ret]. apply sat_call; [set_solver|]. intros ? m2 _. apply sat_ret. cbn [fds_next fst snd].
  destruct odd; [by left|]. cbn [orb]. rewrite (proj2 (Z.leb_le 0 fd)) by done. cbn [andb].
  destruct (bool_decide (fd ∉ O1)); [|by left]. cbn [andb]. destruct (forallb _ _) eqn:E; [right|by left].
  rewrite forallb_forall in E. assert (∀ x, 0 ≤ x < 3 → x ∈ ({[fd]} ∪ O1) ∖ {[fd]}) as Hx; [|split_and!; apply Hx; lia].
  intros y Hy. assert (y ∈ O1). { eapply bool_decide_eq_true_1, E. apply list_elem_of_In, elem_of_seqZ. lia. }
  assert (y ≠ fd) by lia. set_solver.
Qed.

(** *** [ls] *)

(** The path of an entry of the directory [path]. *)
Definition entry_path (path de : list Z) : list Z := path ++ 47 :: cstr (de_name de).

(** The entry that was read and not yet printed. *)
Definition ls_next (path : list Z) (h : option (list Z)) X (e : callE X) : X → option (list Z) :=
  match e in callE X return X → option (list Z) with
  | Read _ _ => λ r,
      match r with
      | Some de => if (length de =? 16)%nat && negb (de_inum de =? 0) then Some (entry_path path de) else None
      | None => None
      end
  | Fprintf _ _ _ => λ _, None
  | _ => λ _, h
  end.
Definition ls_allowed (path : list Z) (h : option (list Z)) X (e : callE X) : Prop :=
  match e with
  | Read _ n => h = None ∧ n = 16%nat
  | Open p mode => mode = O_RDONLY ∧ p = default path h
  | Fprintf fd fmt ap =>
      match h with Some p => fd = 1 ∧ (ap = [VStr (Some p)] ∨ ∃ st, ap = stat_line p st) | None => True end
  | Fstat _ | Close _ => True
  | _ => False
  end.

Lemma cstr_string path l : Forall (λ c, c ≠ 0) path → cstr (path ++ l) = path ++ cstr l.
Proof. induction 1 as [|c path Hc _ IH]; [done|]. cbn [app cstr]. rewrite (proj2 (Z.eqb_neq c 0)) by done. by rewrite IH. Qed.

Lemma cstr_nul l r : cstr (l ++ 0 :: r) = cstr l.
Proof. induction l as [|c l IH]; [done|]. cbn [app cstr]. by rewrite IH. Qed.

Lemma store_in buf off l : (off + length l ≤ length buf)%nat → store buf off l = Some (take off buf ++ l ++ drop (off + length l) buf).
Proof. intros H. unfold store. by rewrite (proj2 (Nat.leb_le _ _)). Qed.

Section ls.
  Context (path : list Z) (Hnz : Forall (λ c, c ≠ 0) path).
  Local Abbreviation listing := (sat (ls_allowed path) (ls_next path)).

(** The buffer: the path and a slash. *)
Definition ls_buf (buf : list Z) : Prop := length buf = 512%nat ∧ take (length path + 1) buf = path ++ [47].

Lemma entry_stored buf name :
  ls_buf buf → length name = 14%nat → (length path + 16 ≤ 512)%nat →
  ∃ buf', (b ← store buf (length path + 1) name; store b (length path + 1 + DIRSIZ) [0]) = Some buf' ∧ ls_buf buf' ∧
    cstr buf' = path ++ 47 :: cstr name.
Proof using Hnz.
  intros [Hl Hb] Hn Hp. rewrite store_in by lia. cbn [mbind option_bind]. rewrite Hb.
  set (rest := drop (length path + 1 + length name) buf).
  assert (length rest = 512 - (length path + 15))%nat as Hr by (unfold rest; rewrite length_drop; lia).
  assert (length ((path ++ [47]) ++ name) = (length path + 15)%nat) as Hpn by (rewrite !length_app; cbn; lia).
  rewrite store_in by (rewrite app_assoc, length_app, Hpn, Hr; unfold DIRSIZ; cbn; lia). eexists. split; [done|].
  rewrite (app_assoc (path ++ [47]) name rest). rewrite take_app_length' by (rewrite Hpn; unfold DIRSIZ; lia).
  rewrite drop_app_ge by (rewrite Hpn; unfold DIRSIZ; cbn; lia). rewrite Hpn. split; [split|].
  - rewrite !length_app, length_drop, Hr. cbn. unfold DIRSIZ. lia.
  - rewrite <-!app_assoc. rewrite app_assoc. apply take_app_length'. rewrite length_app. cbn. lia.
  - rewrite <-!app_assoc. cbn [app]. rewrite cstr_string by done. f_equal. cbn [cstr Z.eqb]. by rewrite cstr_nul.
Qed.

Lemma stat_ok n p : listing n (Some p) (stat p) (λ h _, h = Some p).
Proof using .
  apply sat_call; [done|]. intros fd m _. case_if; [by apply sat_ret|]. apply sat_call; [done|]. intros r m1 _.
  apply sat_call; [done|]. intros ? m2 _. by apply sat_ret.
Qed.

Lemma ls_round_ok n fd buf : ls_buf buf → (length path + 16 ≤ 512)%nat →
  listing n None (ls_round fd (length path + 1) buf) (λ h r, h = None ∧ match r with inl buf => ls_buf buf | inr _ => True end).
Proof using Hnz.
  intros Hb Hp. apply sat_call; [done|]. intros [de|] m _; [|by apply sat_ret]. cbn [ls_next].
  destruct (length de =? 16)%nat eqn:El; [|by apply sat_ret]. destruct (de_inum de =? 0) eqn:Ei; cbn [andb negb]; [by apply sat_ret|].
  apply Nat.eqb_eq in El. destruct (entry_stored buf (de_name de) Hb) as (buf' & -> & Hb' & Hc); [unfold de_name; rewrite length_drop; lia|lia|].
  rewrite Hc. fold (entry_path path de). apply sat_bind. eapply sat_mono; [apply stat_ok|]. intros h st -> m1 _. apply sat_bind.
  assert (listing m1 (Some (entry_path path de))
    (match st with None => print "ls: cannot stat %s" [VStr (Some (entry_path path de))]
     | Some st => print "%s %d %d %d" (stat_line (entry_path path de) st) end) (λ h _, h = None)) as Hpr.
  { destruct st as [st|]; apply sat_last; try done; (split; [done|]); [right; by exists st|by left]. }
  eapply sat_mono; [exact Hpr|]. intros h [] -> m2 _. by apply sat_ret.
Qed.

Lemma ls_dir_ok n fd : listing n None (ls_dir fd path) (λ h _, h = None).
Proof using Hnz.
  unfold ls_dir. destruct (512 <? length path + 1 + DIRSIZ + 1)%nat eqn:El; [by apply sat_last|].
  apply Nat.ltb_ge in El. unfold DIRSIZ in El. rewrite store_in by (rewrite length_app, length_replicate; cbn; lia). cbn [mbind option_bind].
  rewrite take_0, app_nil_l. rewrite store_in by (rewrite !length_app, length_drop, length_replicate; cbn; lia).
  set (rest := drop _ (replicate 512 0)). assert (length rest = 512 - (length path + 1))%nat as Hr.
  { unfold rest. rewrite length_drop, length_replicate, length_app. cbn. lia. }
  apply (sat_iter _ _ _ (λ h buf, h = None ∧ ls_buf buf)).
  - intros m h buf _ [-> Hb]. eapply sat_mono; [apply ls_round_ok; [done|lia]|]. intros h [buf'|[]] [-> H]; done.
  - split; [done|]. rewrite <-(app_assoc path), take_app_length. rewrite drop_app_ge by lia. split.
    + rewrite !length_app, length_drop, length_app, Hr. cbn. lia.
    + rewrite app_assoc. apply take_app_length'. by rewrite length_app.
Qed.

(** [ls] stays inside its buffer, and lists the directory.  With any kernel,
    it makes no store after the end of [buf], opens only the path and the
    entries that it read, and prints for each entry in use one line about its
    path before it reads the next one. *)
Theorem ls_lists n : listing n None (ls path) (λ h _, h = None).
Proof using Hnz.
  apply sat_call; [done|]. intros fd m _. cbn [ls_next]. case_if; [by apply sat_last|]. apply sat_call; [done|]. intros [st|] m1 _; cycle 1.
  { apply sat_call; [done|]. intros ? m2 _. apply sat_call; [done|]. intros ? m3 _. by apply sat_ret. }
  apply sat_bind. assert (listing m1 None (if (st_type st =? T_DEVICE) || (st_type st =? T_FILE) then
      print "%s %d %d %l" [VStr (Some (fmtname path)); VInt (st_type st); VInt (s32 (st_ino st)); VLong (st_size st)]
    else if st_type st =? T_DIR then ls_dir fd path else mret tt) (λ h _, h = None)) as Hp.
  { case_match; [by apply sat_last|]. case_match; [apply ls_dir_ok|by apply sat_ret]. }
  eapply sat_mono; [exact Hp|]. intros h [] -> m2 _. apply sat_call; [done|]. intros ? m3 _. by apply sat_ret.
Qed.
End ls.

(** *** [forktest] *)

(** The children that [wait] did not return yet. *)
Definition kids_next (h : Z) X (e : callE X) : X → Z :=
  match e in callE X return X → Z with
  | Fork => λ pid, if 0 <? pid then h + 1 else h
  | Wait => λ pid, if pid <? 0 then h else h - 1
  | _ => λ _, h
  end.
Definition kids_allowed (h : Z) X (e : callE X) : Prop :=
  match e with Write _ l => l = line "fork test OK" → h = 0 | Undefined _ => False | _ => True end.

Local Abbreviation count := (sat kids_allowed kids_next).

Lemma fork_loop_ok k n : ∀ i, count n i (fork_loop k i) (λ h i', h = i' ∧ i ≤ i').
Proof.
  revert n. induction k as [|k IH]; intros n i; cbn [fork_loop]; [apply sat_ret; lia|].
  apply sat_call; [done|]. intros pid m _. cbn [kids_next]. case_if; case_if.
  - apply sat_ret. lia.
  - case_if; [by apply sat_exit|]. eapply sat_mono; [apply IH|]. cbn. lia.
  - apply sat_ret. lia.
  - case_if; [by apply sat_exit|]. lia.
Qed.

Lemma wait_loop_ok k n : count n (Z.of_nat k) (wait_loop k) (λ h _, h = 0).
Proof.
  revert n. induction k as [|k IH]; intros n; cbn [wait_loop]; [by apply sat_ret|].
  apply sat_call; [done|]. intros r m _. cbn [kids_next]. case_if.
  - apply sat_bind, sat_bind, sat_last; [done|]. intros ? m1 _. apply sat_ret. intros m2 _. by apply sat_exit.
  - replace (Z.of_nat (S k) - 1) with (Z.of_nat k) by lia. apply IH.
Qed.

(** [forktest] says OK only when [wait] returned every child and then failed. *)
Theorem forktest_counts n : count n 0 forktest (λ _ _, True).
Proof.
  apply sat_bind, sat_bind, sat_last; [done|]. intros ? m _. apply sat_ret. intros m1 _. apply sat_bind.
  eapply sat_mono; [apply (fork_loop_ok 1000 m1 0)|]. intros h i [-> Hi] m2 _. apply sat_bind.
  assert (count m2 i (if i =? 1000 then _ ← print_s "fork claimed to work N times!"; exit_ 1 else mret tt) (λ h _, h = i)) as Hc.
  { case_if; [|by apply sat_ret]. apply sat_bind, sat_bind, sat_last; [done|]. intros ? m3 _. apply sat_ret. intros m4 _. by apply sat_exit. }
  eapply sat_mono; [exact Hc|]. intros h [] -> m3 _. apply sat_bind. rewrite <-(Z2Nat.id i) at 1 by done.
  eapply sat_mono; [apply wait_loop_ok|]. intros h [] -> m4 _. apply sat_call; [done|]. intros r m5 _. cbn [kids_next].
  destruct (Z.eqb_spec r (-1)) as [->|Hr]; cbn [negb].
  - apply sat_bind, sat_last; [done|]. intros ? m6 _. by apply sat_ret.
  - apply sat_bind, sat_bind, sat_last; [done|]. intros ? m6 _. apply sat_ret. intros m7 _. by apply sat_exit.
Qed.

(** *** [do_rand] *)

Lemma long_in x : - 2 ^ 63 ≤ x < 2 ^ 63 → long x = Some x.
Proof. intros H. unfold long. by if_true. Qed.

(** The generator of Park and Miller: [do_rand] computes
    [7^5 * x mod (2^31 - 1)] for the [x] of its context, and no intermediate
    value leaves the range of a [long]. *)
Theorem do_rand_minstd ctx :
  let x := ctx mod 0x7ffffffe + 1 in
  let y := (7 ^ 5 * x) mod (2 ^ 31 - 1) - 1 in
  do_rand ctx = Some (y, y) ∧ 0 ≤ y < 0x7ffffffe.
Proof.
  intros x y. set (M := 2 ^ 31 - 1) in *. assert (1 ≤ x < M) as Hx.
  { unfold x, M. pose proof (Z.mod_pos_bound ctx 0x7ffffffe ltac:(done)). lia. }
  pose proof (Z.div_mod x 127773 ltac:(done)) as Hdm. pose proof (Z.mod_pos_bound x 127773 ltac:(done)) as Hlo.
  set (hi := x / 127773) in *. set (lo := x mod 127773) in *. assert (0 ≤ hi ≤ 16807) as Hhi by (unfold M in Hx; lia).
  set (v := 16807 * lo - 2836 * hi). assert (v = 16807 * x - M * hi) as Hv by (unfold v, M; lia).
  assert (v ≠ 0) as Hv0.
  { intros E. assert ((M | x)) as [k Hk]; [|unfold M in *; nia]. apply (Z.gauss M 16807 x); [exists hi; lia|reflexivity]. }
  assert ((7 ^ 5 * x) mod M = if v <? 0 then v + M else v) as Hy.
  { change (7 ^ 5) with 16807. symmetry. apply (Z.mod_unique_pos _ _ (if v <? 0 then hi - 1 else hi)); case_if; unfold v, M in *; lia. }
  assert (0 ≤ y < 0x7ffffffe) as Hyr by (unfold y; rewrite Hy; case_if; unfold v, M in *; lia). split; [|done].
  unfold do_rand. fold x. rewrite long_in by (unfold M in Hx; lia). cbn [mbind option_bind]. fold hi lo.
  rewrite (long_in (16807 * lo)) by lia. cbn [mbind option_bind]. rewrite (long_in (2836 * hi)) by lia. cbn [mbind option_bind]. fold v.
  rewrite (long_in v) by (unfold v; lia). cbn [mbind option_bind]. change 0x7fffffff with M.
  assert ((if v <? 0 then long (v + M) else Some v) = Some (y + 1)) as ->.
  { unfold y. rewrite Hy. case_if; [|f_equal; lia]. rewrite long_in by (unfold v, M; lia). f_equal. lia. }
  cbn [mbind option_bind]. rewrite Z.add_simpl_r, long_in by lia. cbn [mbind option_bind]. by rewrite u64_small, s32_small by lia.
Qed.
