(* ===== verification/Grind.v ===== *)
(** * [user/grind.c]

    The program that makes random calls for ever, as an interaction tree.
    [go_round_keeps]: with any kernel that gives out descriptors and children
    as Unix does, a round of [go] uses only descriptors that are open, and
    leaves none open but [fd] and no child behind. *)

From S2P Require Import Prelude Riscv Memory User Uprintf Utils Programs.
From ITree Require ITree.
Import ITree.Core.ITreeDefinition.

#[local] Instance prog_ret : MRet prog := λ A a, ITreeDefinition.Ret a.
#[local] Instance prog_bind : MBind prog := λ A B k m, ITree.bind m k.

Definition mode : Z := Z.lor O_CREATE O_RDWR.

(** [printf(...); exit(1);] and the same on descriptor 2 *)
Definition fails {A} (msg : string) : prog A := _ ← print msg []; exit_ 1.
Definition efails {A} (msg : string) (status : Z) : prog A := _ ← eprint msg []; exit_ status.

(** [close(open(path, O_CREATE|O_RDWR));] *)
Definition touch (path : string) : prog unit :=
  fd ← call (Open (chars path) mode);
  _ ← call (Close fd);
  mret tt.

(** [fork], with the code of the child and of the parent. *)
Definition forking {A} (child : prog A) (parent : Z → prog A) : prog A :=
  pid ← call Fork;
  if pid =? 0 then child
  else if pid <? 0 then fails "grind: fork failed"
  else parent pid.

Definition wait0 : prog unit := _ ← call Wait; mret tt.

(** ** The cases of [go] that are longer *)

Definition go_pipe : prog unit :=
  r ← call Pipe;
  match r with
  | None => fails "grind: pipe failed"
  | Some (fds0, fds1) =>
      forking
        (_ ← call Fork;
         _ ← call Fork;
         r ← call (Write fds1 (chars "x"));
         _ ← (if negb (r =? 1) then print "grind: pipe write failed" [] else mret tt);
         r ← call (Read fds0 1);
         _ ← (if negb (bool_decide (length <$> r = Some 1%nat)) then print "grind: pipe read failed" [] else mret tt);
         exit_ 0)
        (λ _,
         _ ← call (Close fds0);
         _ ← call (Close fds1);
         wait0)
  end.

Definition go_create : prog unit :=
  _ ← call (Unlink (chars "c"));
  fd1 ← call (Open (chars "c") mode);
  if fd1 <? 0 then fails "grind: create c failed"
  else
    r ← call (Write fd1 (chars "x"));
    if negb (r =? 1) then fails "grind: write c failed"
    else
      r ← call (Fstat fd1);
      match r with
      | None => fails "grind: fstat failed"
      | Some st =>
          if negb (st_size st =? 1) then
            _ ← print "grind: fstat reports wrong size %d" [VInt (s32 (st_size st))];
            exit_ 1
          else if 200 <? st_ino st then
            _ ← print "grind: fstat reports crazy i-number %d" [VInt (s32 (st_ino st))];
            exit_ 1
          else
            _ ← call (Close fd1);
            _ ← call (Unlink (chars "c"));
            mret tt
      end.

(** [echo hi | cat]: the two children, *)
Definition go_echo {A} (aa0 aa1 bb0 bb1 : Z) : prog A :=
  _ ← call (Close bb0);
  _ ← call (Close bb1);
  _ ← call (Close aa0);
  _ ← call (Close 1);
  r ← call (Dup aa1);
  if negb (r =? 1) then efails "grind: dup failed" 1
  else
    _ ← call (Close aa1);
    _ ← call (Exec (chars "grindir/../echo") [chars "echo"; chars "hi"]);
    efails "grind: echo: not found" 2.

Definition go_cat {A} (aa0 aa1 bb0 bb1 : Z) : prog A :=
  _ ← call (Close aa1);
  _ ← call (Close bb0);
  _ ← call (Close 0);
  r ← call (Dup aa0);
  if negb (r =? 0) then efails "grind: dup failed" 4
  else
    _ ← call (Close aa0);
    _ ← call (Close 1);
    r ← call (Dup bb1);
    if negb (r =? 1) then efails "grind: dup failed" 5
    else
      _ ← call (Close bb1);
      _ ← call (Exec (chars "/cat") [chars "cat"]);
      efails "grind: cat: not found" 6.

(** and the parent, which reads into [buf[4] = {0, 0, 0, 0}].  A status that
    [wait] did not store is read uninitialised. *)
Definition read_byte (fd : Z) : prog Z :=
  r ← call (Read fd 1);
  mret (match r with Some (c :: _) => c | _ => 0 end).

Definition go_check (aa0 aa1 bb0 bb1 : Z) : prog unit :=
  _ ← call (Close aa0);
  _ ← call (Close aa1);
  _ ← call (Close bb1);
  c0 ← read_byte bb0;
  c1 ← read_byte bb0;
  c2 ← read_byte bb0;
  _ ← call (Close bb0);
  r1 ← call WaitStatus;
  r2 ← call WaitStatus;
  match r1, r2 with
  | Some st1, Some st2 =>
      let buf := [c0; c1; c2; 0] in
      if negb (st1 =? 0) || negb (st2 =? 0) || negb (bool_decide (strcmp buf (line "hi" ++ [0]) = Some 0)) then
        _ ← call (Fprintf 1 (chars "grind: exec pipeline failed %d %d " ++ [34] ++ chars "%s" ++ [34; NL])
                    [VInt st1; VInt st2; VStr (Some (cstr buf))]);
        exit_ 1
      else mret tt
  | _, _ => undefined "a status that wait did not store"
  end.

Definition go_pipeline : prog unit :=
  aa ← call Pipe;
  match aa with
  | None => efails "grind: pipe failed" 1
  | Some (aa0, aa1) =>
      bb ← call Pipe;
      match bb with
      | None => efails "grind: pipe failed" 1
      | Some (bb0, bb1) =>
          pid1 ← call Fork;
          if pid1 =? 0 then go_echo aa0 aa1 bb0 bb1
          else if pid1 <? 0 then efails "grind: fork failed" 3
          else
            pid2 ← call Fork;
            if pid2 =? 0 then go_cat aa0 aa1 bb0 bb1
            else if pid2 <? 0 then efails "grind: fork failed" 7
            else go_check aa0 aa1 bb0 bb1
      end
  end.

(** ** [go] *)

(** The cases that leave [fd] and [buf] alone. *)
Definition go_call (break0 what : Z) : prog unit :=
  if what =? 1 then touch "grindir/../a"
  else if what =? 2 then touch "grindir/../grindir/../b"
  else if what =? 3 then _ ← call (Unlink (chars "grindir/../a")); mret tt
  else if what =? 4 then
    r ← call (Chdir (chars "grindir"));
    if negb (r =? 0) then fails "grind: chdir grindir failed"
    else
      _ ← call (Unlink (chars "../b"));
      _ ← call (Chdir (chars "/"));
      mret tt
  else if what =? 9 then
    _ ← call (Mkdir (chars "grindir/../a"));
    _ ← touch "a/../a/./a";
    _ ← call (Unlink (chars "a/a"));
    mret tt
  else if what =? 10 then
    _ ← call (Mkdir (chars "/../b"));
    _ ← touch "grindir/../b/b";
    _ ← call (Unlink (chars "b/b"));
    mret tt
  else if what =? 11 then
    _ ← call (Unlink (chars "b"));
    _ ← call (Link (chars "../grindir/./../a") (chars "../b"));
    mret tt
  else if what =? 12 then
    _ ← call (Unlink (chars "../grindir/../a"));
    _ ← call (Link (chars ".././b") (chars "/grindir/../a"));
    mret tt
  else if what =? 13 then forking (exit_ 0) (λ _, wait0)
  else if what =? 14 then forking (_ ← call Fork; _ ← call Fork; exit_ 0) (λ _, wait0)
  else if what =? 15 then _ ← call (Sbrk 6011); mret tt
  else if what =? 16 then
    b ← call (Sbrk 0);
    if break0 <? b then
      b ← call (Sbrk 0);
      _ ← call (Sbrk (s32 (- (b - break0))));
      mret tt
    else mret tt
  else if what =? 17 then
    forking (_ ← touch "a"; exit_ 0)
      (λ pid,
       r ← call (Chdir (chars "../grindir/.."));
       if negb (r =? 0) then fails "grind: chdir failed"
       else
         _ ← call (Kill pid);
         wait0)
  else if what =? 18 then forking (pid ← call Getpid; _ ← call (Kill pid); exit_ 0) (λ _, wait0)
  else if what =? 19 then go_pipe
  else if what =? 20 then
    forking
      (_ ← call (Unlink (chars "a"));
       _ ← call (Mkdir (chars "a"));
       _ ← call (Chdir (chars "a"));
       _ ← call (Unlink (chars "../a"));
       _ ← call (Open (chars "x") mode);
       _ ← call (Unlink (chars "x"));
       exit_ 0)
      (λ _, wait0)
  else if what =? 21 then go_create
  else if what =? 22 then go_pipeline
  else mret tt.

(** One call, with the [fd] and [buf] that it leaves. *)
Definition go_what (break0 what fd : Z) (buf : list Z) : prog (Z * list Z) :=
  if what =? 5 then
    _ ← call (Close fd);
    fd ← call (Open (chars "/grindir/../a") mode);
    mret (fd, buf)
  else if what =? 6 then
    _ ← call (Close fd);
    fd ← call (Open (chars "/./grindir/./../b") mode);
    mret (fd, buf)
  else if what =? 7 then
    _ ← call (Write fd buf);
    mret (fd, buf)
  else if what =? 8 then
    r ← call (Read fd 999);
    mret (fd, match r with Some l => take 999 l ++ drop (length l) buf | None => buf end)
  else
    _ ← go_call break0 what;
    mret (fd, buf).

(** The variables of the loop; [rand_next] is a global. *)
Record loop : Type := Loop { l_fd : Z; l_iters : Z; l_rand : Z; l_buf : list Z }.

Definition go_round (which_child break0 : Z) (l : loop) : prog loop :=
  let iters := u64 (l_iters l + 1) in
  _ ← (if iters mod 500 =? 0 then
         _ ← call (Write 1 (if truthy which_child then chars "B" else chars "A"));
         mret tt
       else mret tt);
  match rand (l_rand l) with
  | None => undefined "long overflow"
  | Some (rand_next, r) =>
      x ← go_what break0 (Z.rem r 23) (l_fd l) (l_buf l);
      mret (Loop x.1 iters rand_next x.2)
  end.

Definition go (which_child rand_next : Z) : prog Empty_set :=
  break0 ← call (Sbrk 0);
  _ ← call (Mkdir (chars "grindir"));
  r ← call (Chdir (chars "grindir"));
  if negb (r =? 0) then fails "grind: chdir grindir failed"
  else
    _ ← call (Chdir (chars "/"));
    ITree.iter (λ l, l ← go_round which_child break0 l; mret (inl l)) (Loop (-1) 0 rand_next (replicate 999 0)).

(** ** [iter] and [main] *)

Definition iter (rand_next : Z) : prog Empty_set :=
  _ ← call (Unlink (chars "a"));
  _ ← call (Unlink (chars "b"));
  pid1 ← call Fork;
  if pid1 <? 0 then fails "grind: fork failed"
  else if pid1 =? 0 then go 0 (Z.lxor rand_next 31)
  else
    pid2 ← call Fork;
    if pid2 <? 0 then fails "grind: fork failed"
    else if pid2 =? 0 then go 1 (Z.lxor rand_next 7177)
    else
      st1 ← call WaitStatus;
      _ ← (if negb (default (-1) st1 =? 0) then
             _ ← call (Kill pid1);
             _ ← call (Kill pid2);
             mret tt
           else mret tt);
      _ ← call WaitStatus;
      exit_ 0.

Definition main_round (rand_next : Z) : prog Z :=
  pid ← call Fork;
  if pid =? 0 then x ← iter rand_next; match x : Empty_set with end
  else
    _ ← (if 0 <? pid then wait0 else mret tt);
    _ ← call (Sleep 20);
    mret (u64 (rand_next + 1)).
Definition main : prog Empty_set := ITree.iter (λ rand_next, r ← main_round rand_next; mret (inl r)) 1.

(** ** Descriptors and children *)

(** The descriptors that are open, the children that [wait] did not return,
    and whether the kernel gave an answer that Unix does not give. *)
Record held : Type := Held { opens : gset Z; kids : Z; strange : bool }.

(** A new descriptor. *)
Definition given (fd : Z) (h : held) : held :=
  if fd <? 0 then h
  else if bool_decide (fd ∈ opens h) then Held (opens h) (kids h) true
  else Held ({[fd]} ∪ opens h) (kids h) (strange h).
(** [wait], and whether it returned a child. *)
Definition waited (ok : bool) (h : held) : held :=
  if ok then Held (opens h) (kids h - 1) (strange h || (kids h <=? 0)) else Held (opens h) (kids h) (strange h || (0 <? kids h)).

Definition held_next (h : held) X (e : callE X) : X → held :=
  match e in callE X return X → held with
  | Open _ _ | Dup _ => λ fd, given fd h
  | Pipe => λ r,
      match r with
      | Some (a, b) => if (a <? 0) || (b <? 0) then Held (opens h) (kids h) true else given b (given a h)
      | None => h
      end
  | Close fd => λ _, Held (opens h ∖ {[fd]}) (kids h) (strange h)
  | Fork => λ pid, if pid <? 0 then h else Held (opens h) (if pid =? 0 then 0 else kids h + 1) (strange h)
  | Wait => λ pid, waited (0 <=? pid) h
  | WaitStatus => λ r, waited (bool_decide (is_Some r)) h
  | _ => λ _, h
  end.

(** Descriptors are open, or come from a call that failed. *)
Definition usable (h : held) (fd : Z) : Prop := fd < 0 ∨ fd ∈ opens h.
Definition held_allowed (h : held) X (e : callE X) : Prop :=
  strange h = true ∨
  match e with
  | Close fd | Read fd _ | Write fd _ | Fstat fd | Dup fd | Fprintf fd _ _ => usable h fd
  | Undefined _ => False
  | _ => True
  end.

Local Abbreviation holds := (sat held_allowed held_next).

Lemma held_next_strange h X (e : callE X) x : strange h = true → strange (held_next h X e x) = true.
Proof.
  intros Hs. destruct h as [o k s]. cbn in Hs. subst s. destruct e; cbn [held_next]; try done; unfold given, waited; cbn; repeat case_match; done.
Qed.

Lemma holds_strange {A} (Q : held → A → Prop) n : ∀ h t, strange h = true → (∀ h a, strange h = true → Q h a) → holds n h t Q.
Proof.
  induction n as [|n IH]; intros h t Hs HQ; [done|]. cbn [sat]. destruct (observe t) as [a|t'|X e k]; [by apply HQ|by apply IH|].
  split; [by left|]. intros x. apply IH; [by apply held_next_strange|done].
Qed.

(** The descriptors beside the standard ones. *)
Definition std : gset Z := {[0; 1; 2]}.
Definition own (fd : Z) : gset Z := if fd <? 0 then ∅ else {[fd]}.

(** Between the rounds of [go]. *)
Definition head (h : held) (fd : Z) : Prop := strange h = true ∨ h = Held (std ∪ own fd) 0 false ∧ fd ∉ std.

(** From open descriptors [O] and [k] children, and unless the kernel is
    strange, to a result and what is held then. *)
Definition goes {A} (n : nat) (O : gset Z) (k : Z) (t : prog A) (R : gset Z → Z → A → Prop) : Prop :=
  holds n (Held O k false) t (λ h a, strange h = true ∨ ∃ O' k', h = Held O' k' false ∧ R O' k' a).

Section rules.
  Context {A : Type} (R : gset Z → Z → A → Prop).
  Implicit Types (n m : nat) (O : gset Z) (k : Z).

Lemma goes_strange n h (t : prog A) : strange h = true → holds n h t (λ h a, strange h = true ∨ ∃ O' k', h = Held O' k' false ∧ R O' k' a).
Proof. intros Hs. apply holds_strange; auto. Qed.

Lemma goes_ret n O k a : R O k a → goes n O k (mret a) R.
Proof. intros H. apply sat_ret. right. by exists O, k. Qed.

Lemma goes_bind {B} (f : B → prog A) (t : prog B) n O k :
  goes n O k t (λ O' k' b, ∀ m, goes m O' k' (f b) R) → goes n O k (mbind f t) R.
Proof.
  intros H. apply sat_bind. eapply sat_mono; [exact H|]. intros h b [Hs|(O' & k' & -> & Hb)] m Hm; [by apply goes_strange|apply Hb].
Qed.

(** A call that changes nothing. *)
Lemma goes_call {B} (e : callE B) (f : B → prog A) n O k :
  held_allowed (Held O k false) _ e → (∀ x, held_next (Held O k false) _ e x = Held O k false) →
  (∀ x m, goes m O k (f x) R) → goes n O k (mbind f (call e)) R.
Proof. intros He Hn Hf. apply sat_call; [done|]. intros x m _. rewrite Hn. apply Hf. Qed.

Lemma given_goes (f : prog A) fd m O k :
  (fd < 0 → goes m O k f R) → (0 ≤ fd → fd ∉ O → goes m ({[fd]} ∪ O) k f R) →
  holds m (given fd (Held O k false)) f (λ h a, strange h = true ∨ ∃ O' k', h = Held O' k' false ∧ R O' k' a).
Proof.
  intros H1 H2. unfold given. cbn [opens kids strange]. destruct (Z.ltb_spec fd 0) as [Hf|Hf]; [by apply H1|].
  case_bool_decide; [by apply goes_strange|by apply H2].
Qed.

Lemma goes_open path md (f : Z → prog A) n O k :
  (∀ fd m, fd < 0 → goes m O k (f fd) R) → (∀ fd m, 0 ≤ fd → fd ∉ O → goes m ({[fd]} ∪ O) k (f fd) R) →
  goes n O k (mbind f (call (Open path md))) R.
Proof. intros H1 H2. apply sat_call; [by right|]. intros fd m _. apply given_goes; auto. Qed.

Lemma goes_dup fd0 (f : Z → prog A) n O k :
  fd0 ∈ O → (∀ fd m, fd < 0 → goes m O k (f fd) R) → (∀ fd m, 0 ≤ fd → fd ∉ O → goes m ({[fd]} ∪ O) k (f fd) R) →
  goes n O k (mbind f (call (Dup fd0))) R.
Proof. intros H0 H1 H2. apply sat_call; [by right; right|]. intros fd m _. apply given_goes; auto. Qed.

Lemma goes_pipe (f : option (Z * Z) → prog A) n O k :
  (∀ m, goes m O k (f None) R) →
  (∀ a b m, 0 ≤ a → 0 ≤ b → a ∉ O → b ∉ {[a]} ∪ O → goes m ({[b]} ∪ ({[a]} ∪ O)) k (f (Some (a, b))) R) →
  goes n O k (mbind f (call Pipe)) R.
Proof.
  intros H1 H2. apply sat_call; [by right|]. intros [[a b]|] m _; [|apply H1]. cbn [held_next].
  destruct (Z.ltb_spec a 0); [by apply goes_strange|]. destruct (Z.ltb_spec b 0); [by apply goes_strange|]. cbn [orb].
  unfold given at 2. cbn [opens kids strange]. rewrite (proj2 (Z.ltb_ge a 0)) by done. case_bool_decide.
  - apply goes_strange. unfold given. by repeat case_match.
  - apply given_goes; [lia|]. intros _ Hb. by apply H2.
Qed.

Lemma goes_close fd (f : Z → prog A) n O k :
  fd < 0 ∨ fd ∈ O → (∀ x m, goes m (O ∖ {[fd]}) k (f x) R) → goes n O k (mbind f (call (Close fd))) R.
Proof. intros H1 H2. apply sat_call; [by right|]. intros x m _. apply H2. Qed.

Lemma goes_fork (f : Z → prog A) n O k :
  (∀ m pid, pid < 0 → goes m O k (f pid) R) → (∀ m, goes m O 0 (f 0) R) → (∀ m pid, 0 < pid → goes m O (k + 1) (f pid) R) →
  goes n O k (mbind f (call Fork)) R.
Proof.
  intros H1 H2 H3. apply sat_call; [by right|]. intros pid m _. cbn [held_next opens kids strange].
  destruct (Z.ltb_spec pid 0); [by apply H1|]. destruct (Z.eqb_spec pid 0) as [->|]; [apply H2|]. apply H3. lia.
Qed.

Lemma goes_wait (f : Z → prog A) n O k :
  0 < k → (∀ x m, goes m O (k - 1) (f x) R) → goes n O k (mbind f (call Wait)) R.
Proof.
  intros Hk H. apply sat_call; [by right|]. intros x m _. cbn [held_next]. unfold waited. cbn [opens kids strange].
  case_match; [|apply goes_strange; cbn; lia]. rewrite (proj2 (Z.leb_gt k 0)) by lia. apply H.
Qed.

Lemma goes_wait_status (f : option Z → prog A) n O k :
  0 < k → (∀ st m, goes m O (k - 1) (f (Some st)) R) → goes n O k (mbind f (call WaitStatus)) R.
Proof.
  intros Hk H. apply sat_call; [by right|]. intros x m _. cbn [held_next]. unfold waited. cbn [opens kids strange]. destruct x as [st|].
  - rewrite bool_decide_true by eauto. rewrite (proj2 (Z.leb_gt k 0)) by lia. apply H.
  - rewrite bool_decide_false by (intros []; done). apply goes_strange. cbn. lia.
Qed.

Lemma goes_exit status n O k : goes n O k (exit_ status) R.
Proof. apply sat_exit. by right. Qed.

Lemma goes_fails msg n O k : 1 ∈ O → goes n O k (fails msg) R.
Proof. intros H. apply goes_call; [by right; right|done|]. intros _ m. apply goes_exit. Qed.

Lemma goes_efails msg status n O k : 2 ∈ O → goes n O k (efails msg status) R.
Proof. intros H. apply goes_call; [by right; right|done|]. intros _ m. apply goes_exit. Qed.

Lemma goes_forking child parent n O k :
  1 ∈ O → (∀ m, goes m O 0 child R) → (∀ m pid, goes m O (k + 1) (parent pid) R) → goes n O k (forking child parent) R.
Proof.
  intros H1 Hc Hp. apply goes_fork.
  - intros m pid Hpid. rewrite (proj2 (Z.eqb_neq pid 0)), (proj2 (Z.ltb_lt pid 0)) by lia. by apply goes_fails.
  - intros m. apply Hc.
  - intros m pid Hpid. rewrite (proj2 (Z.eqb_neq pid 0)), (proj2 (Z.ltb_ge pid 0)) by lia. apply Hp.
Qed.
End rules.

(** Any outcome of [fork]. *)
Lemma goes_fork_any {A} (R : gset Z → Z → A → Prop) (f : Z → prog A) n O k :
  (∀ m pid k', goes m O k' (f pid) R) → goes n O k (mbind f (call Fork)) R.
Proof. intros H. apply goes_fork; intros; apply H. Qed.

(** The rules in turn. *)
Ltac quiet := apply goes_call; [by right|done|intros ? ?].
Ltac prints := apply goes_call; [right; right; set_solver|done|intros ? ?].

Section round.
  Context (O : gset Z) (Hstd : std ⊆ O) (Hpos : ∀ x, x ∈ O → 0 ≤ x).
  Implicit Types (n m : nat) (k : Z).

(** Back to the same descriptors and children. *)
Definition back {A} (k : Z) (O' : gset Z) (k' : Z) (_ : A) : Prop := O' = O ∧ k' = k.

Lemma std_in x : x = 0 ∨ x = 1 ∨ x = 2 → x ∈ O.
Proof using Hstd. intros H. apply Hstd. unfold std. destruct H as [->|[->| ->]]; set_solver. Qed.

Lemma not_open x : x < 0 → x ∉ O.
Proof using Hpos. intros H Hx%Hpos. lia. Qed.

Lemma touch_back path n k : goes n O k (touch path) (back k).
Proof using Hpos.
  clear Hstd.
  apply goes_open; intros fd m H1.
  - apply goes_close; [by left|]. intros _ m'. apply goes_ret. split; [|done]. pose proof (not_open fd H1). clear Hpos. set_solver.
  - intros H2. apply goes_close; [right; clear Hpos; set_solver|]. intros _ m'. apply goes_ret. split; [|done]. clear Hpos. set_solver.
Qed.

Lemma wait0_back n k : 0 < k → goes n O k wait0 (back (k - 1)).
Proof using . intros Hk. apply goes_wait; [done|]. intros _ m. by apply goes_ret. Qed.

(** A child that exits, and [wait(0)] for it. *)
Lemma fork_wait (child : prog unit) n : (∀ m, goes m O 0 child (back 0)) → goes n O 0 (forking child (λ _, wait0)) (back 0).
Proof using Hstd.
  intros Hc. apply goes_forking; [apply std_in; auto|done|]. intros m pid. by apply wait0_back.
Qed.

Lemma go_pipe_back n : goes n O 0 go_pipe (back 0).
Proof using Hstd.
  pose proof (std_in 1 ltac:(auto)) as H1. clear Hpos. apply goes_pipe; [intros m; by apply goes_fails|].
  intros a b m Ha Hb Hna Hnb. apply goes_forking; [set_solver| |].
  - intros m1. do 2 (apply goes_fork_any; intros ? ? ?). apply goes_call; [right; right; set_solver|done|intros r ?]. apply goes_bind.
    assert (∀ m k (b0 : bool) msg, goes m ({[b]} ∪ ({[a]} ∪ O)) k (if b0 then print msg [] else mret tt)
      (λ O' _ _, O' = {[b]} ∪ ({[a]} ∪ O))) as Hif.
    { intros ? k [] msg; [|by apply goes_ret]. apply sat_last; [right; right; set_solver|]. intros []. right. eauto. }
    eapply sat_mono; [apply Hif|]. intros h [] [Hs|(? & ? & -> & ->)]; [by left|]. right. do 2 eexists. split; [done|]. intros ?.
    apply goes_call; [right; right; set_solver|done|intros r2 ?]. apply goes_bind. eapply sat_mono; [apply Hif|].
    intros h [] [Hs|(? & ? & -> & ->)]; [by left|]. right. do 2 eexists. split; [done|]. intros ?. apply goes_exit.
  - intros m1 _. apply goes_close; [right; set_solver|]. intros _ m2. apply goes_close; [right; set_solver|]. intros _ m3.
    apply goes_wait; [done|]. intros _ m4. apply goes_ret. split; [set_solver|done].
Qed.

Lemma go_create_back n : goes n O 0 go_create (back 0).
Proof using Hstd Hpos.
  pose proof (std_in 1 ltac:(auto)) as H1. quiet. apply goes_open; intros fd m1 Hfd.
  { rewrite (proj2 (Z.ltb_lt fd 0)) by done. by apply goes_fails. }
  intros Hn. clear Hpos. rewrite (proj2 (Z.ltb_ge fd 0)) by done. prints. case_match; [apply goes_fails; set_solver|].
  prints. case_match; [|apply goes_fails; set_solver]. case_match; [prints; apply goes_exit|]. case_match; [prints; apply goes_exit|].
  apply goes_close; [right; set_solver|]. intros _ m4. quiet. apply goes_ret. split; [set_solver|done].
Qed.

Section pipeline.
  Context (aa0 aa1 bb0 bb1 : Z).
  Context (Ha0 : aa0 ∉ O) (Ha1 : aa1 ∉ {[aa0]} ∪ O) (Hb0 : bb0 ∉ {[aa1]} ∪ ({[aa0]} ∪ O)) (Hb1 : bb1 ∉ {[bb0]} ∪ ({[aa1]} ∪ ({[aa0]} ∪ O))).
Let O2 : gset Z := {[bb1]} ∪ ({[bb0]} ∪ ({[aa1]} ∪ ({[aa0]} ∪ O))).

Ltac closes := apply goes_close; [right; set_solver|intros ? ?].

Lemma go_echo_goes {A} (R : gset Z → Z → A → Prop) n k : goes n O2 k (go_echo aa0 aa1 bb0 bb1) R.
Proof using All.
  pose proof (std_in 1 ltac:(auto)) as H1. pose proof (std_in 2 ltac:(auto)) as H2. clear Hpos Hstd. unfold O2. do 4 closes.
  apply goes_dup; [set_solver| |]; intros fd ? Hfd.
  - rewrite (proj2 (Z.eqb_neq fd 1)) by lia. apply goes_efails. set_solver.
  - intros Hn. case_match; [apply goes_efails; set_solver|]. closes. quiet. apply goes_efails. set_solver.
Qed.

Lemma go_cat_goes {A} (R : gset Z → Z → A → Prop) n k : goes n O2 k (go_cat aa0 aa1 bb0 bb1) R.
Proof using All.
  pose proof (std_in 0 ltac:(auto)) as H0. pose proof (std_in 1 ltac:(auto)) as H1. pose proof (std_in 2 ltac:(auto)) as H2.
  clear Hpos Hstd. unfold O2. do 3 closes. apply goes_dup; [set_solver| |]; intros fd ? Hfd.
  { rewrite (proj2 (Z.eqb_neq fd 0)) by lia. apply goes_efails. set_solver. }
  intros Hn. case_match; [apply goes_efails; set_solver|]. do 2 closes. apply goes_dup; [set_solver| |]; intros fd2 ? Hfd2.
  - rewrite (proj2 (Z.eqb_neq fd2 1)) by lia. apply goes_efails. set_solver.
  - intros Hn2. case_match; [apply goes_efails; set_solver|]. closes. quiet. apply goes_efails. set_solver.
Qed.

Lemma read_byte_goes n O' k fd : fd ∈ O' → goes n O' k (read_byte fd) (λ O1 k1 _, O1 = O' ∧ k1 = k).
Proof using . intros H. apply goes_call; [right; by right|done|]. intros x m. by apply goes_ret. Qed.

Lemma go_check_back n : goes n O2 2 (go_check aa0 aa1 bb0 bb1) (back 0).
Proof using All.
  pose proof (std_in 1 ltac:(auto)) as H1. clear Hpos Hstd. unfold O2. do 3 closes.
  do 3 (apply goes_bind; eapply sat_mono; [apply read_byte_goes; set_solver|];
    intros ? ? [?|(? & ? & -> & -> & ->)]; [by left|right; do 2 eexists; split; [done|intros ?]]).
  closes. apply goes_wait_status; [done|]. intros st1 ?. apply goes_wait_status; [done|]. intros st2 ?. cbv beta iota zeta. case_if.
  - prints. apply goes_exit.
  - apply goes_ret. split; [set_solver|done].
Qed.
End pipeline.

Lemma go_pipeline_back n : goes n O 0 go_pipeline (back 0).
Proof using All.
  pose proof (std_in 2 ltac:(auto)) as H2. apply goes_pipe; [intros m; by apply goes_efails|].
  intros aa0 aa1 m _ _ Ha0 Ha1. apply goes_pipe; [intros m1; apply goes_efails; clear Hstd Hpos; set_solver|].
  intros bb0 bb1 m1 _ _ Hb0 Hb1. apply goes_fork; [|intros m2; by apply go_echo_goes|]; intros m2 pid1 Hp;
    rewrite (proj2 (Z.eqb_neq pid1 0)) by lia.
  { rewrite (proj2 (Z.ltb_lt pid1 0)) by lia. apply goes_efails. clear Hstd Hpos. set_solver. }
  rewrite (proj2 (Z.ltb_ge pid1 0)) by lia. apply goes_fork; [|intros m3; by apply go_cat_goes|]; intros m3 pid2 Hp2;
    rewrite (proj2 (Z.eqb_neq pid2 0)) by lia.
  { rewrite (proj2 (Z.ltb_lt pid2 0)) by lia. apply goes_efails. clear Hstd Hpos. set_solver. }
  rewrite (proj2 (Z.ltb_ge pid2 0)) by lia. by apply go_check_back.
Qed.

(** A call and then more, when the call leaves what is held as it is. *)
Lemma goes_back {A B} (t : prog B) (f : B → prog A) (R : gset Z → Z → A → Prop) n k k' :
  goes n O k t (back k') → (∀ b m, goes m O k' (f b) R) → goes n O k (mbind f t) R.
Proof using .
  intros Ht Hf. apply goes_bind. eapply sat_mono; [exact Ht|].
  intros h b [Hs|(? & ? & -> & -> & ->)]; [by left|]. right. exists O, k'. split; [done|]. intros m. apply Hf.
Qed.

Lemma go_call_back break0 what n : goes n O 0 (go_call break0 what) (back 0).
Proof using All.
  pose proof (std_in 1 ltac:(auto)) as H1. unfold go_call.
  assert (∀ m, goes m O 0 (mret tt : prog unit) (back 0)) as Hr by (intros; by apply goes_ret).
  case_match; [apply touch_back|]. case_match; [apply touch_back|]. case_match; [quiet; auto|].
  case_match; [quiet; case_match; [by apply goes_fails|do 2 quiet; auto]|].
  case_match; [quiet; eapply goes_back; [apply touch_back|intros ? ?]; quiet; auto|].
  case_match; [quiet; eapply goes_back; [apply touch_back|intros ? ?]; quiet; auto|].
  case_match; [do 2 quiet; auto|]. case_match; [do 2 quiet; auto|].
  case_match; [apply fork_wait; intros ?; apply goes_exit|].
  case_match; [apply fork_wait; intros ?; do 2 (apply goes_fork_any; intros ? ? ?); apply goes_exit|].
  case_match; [quiet; auto|]. case_match; [quiet; case_match; [do 2 quiet|]; auto|].
  case_match.
  { apply goes_forking; [done|intros ?; eapply goes_back; [apply touch_back|intros ? ?; apply goes_exit]|].
    intros m pid. quiet. case_match; [by apply goes_fails|]. quiet. by apply (wait0_back _ 1). }
  case_match; [apply fork_wait; intros ?; do 2 quiet; apply goes_exit|]. case_match; [apply go_pipe_back|].
  case_match.
  { apply fork_wait. intros m. do 4 quiet. apply goes_open; intros; quiet; apply goes_exit. }
  case_match; [apply go_create_back|]. case_match; [apply go_pipeline_back|]. auto.
Qed.
End round.

(** What [go] holds between its rounds. *)
Lemma head_own fd : fd ∉ std → std ⊆ std ∪ own fd ∧ ∀ x, x ∈ std ∪ own fd → 0 ≤ x.
Proof.
  intros _. split; [set_solver|]. unfold std, own. intros x. case_if; set_unfold; lia.
Qed.

Lemma own_close fd : fd ∉ std → (fd < 0 ∨ fd ∈ std ∪ own fd) ∧ (std ∪ own fd) ∖ {[fd]} = std.
Proof. unfold own. intros H. case_if; [split; [left; lia|set_solver]|split; [right; set_solver|set_solver]]. Qed.

Lemma std_pos fd : fd < 0 → fd ∉ std.
Proof. unfold std. intros H. set_unfold. lia. Qed.

Lemma reopen path buf fd n : fd ∉ std →
  goes n (std ∪ own fd) 0 (_ ← call (Close fd); fd ← call (Open path mode); mret (fd, buf))
    (λ O' k' (r : Z * list Z), O' = std ∪ own r.1 ∧ k' = 0 ∧ r.1 ∉ std).
Proof.
  intros Hfd. destruct (own_close fd Hfd) as [H1 H2]. apply goes_close; [done|]. intros _ m. rewrite H2.
  apply goes_open; intros x m1 Hx; [|intros Hn]; apply goes_ret; cbn [fst]; unfold own.
  - if_true. split_and!; [set_solver|done|by apply std_pos].
  - if_false. split_and!; [set_solver|done|done].
Qed.

Lemma go_what_keeps break0 what fd buf n : fd ∉ std →
  goes n (std ∪ own fd) 0 (go_what break0 what fd buf) (λ O' k' r, O' = std ∪ own r.1 ∧ k' = 0 ∧ r.1 ∉ std).
Proof.
  intros Hfd. destruct (own_close fd Hfd) as [H1 _]. destruct (head_own fd Hfd) as [H2 H3]. unfold go_what.
  case_match; [by apply reopen|]. case_match; [by apply reopen|].
  case_match; [apply goes_call; [by right|done|intros ? ?]; by apply goes_ret|].
  case_match; [apply goes_call; [by right|done|intros ? ?]; by apply goes_ret|].
  eapply goes_back; [by apply go_call_back|]. intros [] m. by apply goes_ret.
Qed.

(** A round of [go]: whatever the call, and with any kernel that is not
    strange, it uses descriptors that are open, and ends with no more than
    [fd] open beside the standard ones, and no child. *)
Lemma go_round_keeps which_child break0 l n h :
  head h (l_fd l) → holds n h (go_round which_child break0 l) (λ h l', head h (l_fd l')).
Proof.
  intros [Hs|[-> Hfd]]; [apply holds_strange; [done|by left]|]. set (O := std ∪ own (l_fd l)).
  apply (sat_mono _ _ (λ h l', strange h = true ∨ ∃ O' k', h = Held O' k' false ∧ O' = std ∪ own (l_fd l') ∧ k' = 0 ∧ l_fd l' ∉ std)).
  2: { intros h' l' [?|(O' & k' & -> & -> & -> & ?)]; [by left|by right]. }
  unfold go_round. apply (goes_back O _ _ _ _ _ 0).
  - case_match; [|by apply goes_ret]. apply goes_call; [right; right; unfold O, std; set_solver|done|]. intros ? m. by apply goes_ret.
  - intros [] m. unfold rand. destruct (do_rand_minstd (l_rand l)) as [-> _]. apply goes_bind.
    eapply sat_mono; [by apply go_what_keeps|]. intros h' x [?|(O' & k' & -> & -> & -> & Hx)]; [by left|].
    right. do 2 eexists. split; [done|]. intros m'. by apply goes_ret.
Qed.

(** Nothing more is asked of a program that does not return. *)
Local Abbreviation runs_on n t := (goes n std 0 t (λ _ _ (_ : Empty_set), False)).

Lemma go_runs which_child rand_next n : runs_on n (go which_child rand_next).
Proof.
  do 3 quiet. case_match; [by apply goes_fails|]. quiet.
  apply (sat_iter _ _ _ (λ h l, head h (l_fd l))).
  - intros ? h l _ Hl. apply sat_bind. eapply sat_mono; [by apply go_round_keeps|]. intros h' l' Hl' ? _. by apply sat_ret.
  - right. split; [done|by apply std_pos].
Qed.

Lemma iter_runs rand_next n : runs_on n (iter rand_next).
Proof.
  do 2 quiet. apply goes_fork; [|intros ?; apply go_runs|]; intros ? pid1 H1.
  { if_true. by apply goes_fails. }
  if_false. rewrite (proj2 (Z.eqb_neq pid1 0)) by lia. apply goes_fork; [|intros ?; apply go_runs|]; intros ? pid2 H2.
  { if_true. by apply goes_fails. }
  if_false. rewrite (proj2 (Z.eqb_neq pid2 0)) by lia. apply goes_wait_status; [done|]. intros st ?. apply (goes_back std _ _ _ _ _ 1).
  - case_match; [do 2 quiet|]; by apply goes_ret.
  - intros [] ?. apply goes_wait_status; [done|]. intros st2 ?. apply goes_exit.
Qed.

(** The whole of [grind], over all its processes: it runs for ever or exits,
    reads, writes and closes only descriptors that are open or that [open]
    refused, and uses no status that [wait] did not store, with any kernel
    that gives out free descriptors and whose [wait] fails exactly when there
    is no child. *)
Theorem grind_clean n : runs_on n main.
Proof.
  apply (sat_iter _ _ _ (λ h _, strange h = true ∨ h = Held std 0 false)); [|by right].
  intros m h rand_next _ [Hs| ->]; [apply holds_strange; [done|intros ? [?|[]] ?; by left]|].
  apply (sat_mono _ _ (λ h (r : Z + Empty_set), strange h = true ∨ ∃ O' k', h = Held O' k' false ∧ O' = std ∧ k' = 0)).
  2: { intros h [r|[]] [?|(? & ? & -> & -> & ->)]; [by left|by right]. }
  apply (goes_back std _ _ _ _ _ 0); [|intros r m1; by apply goes_ret].
  apply goes_fork; [| |]; [intros m1 pid Hp|intros m1|intros m1 pid Hp].
  - rewrite (proj2 (Z.eqb_neq pid 0)), (proj2 (Z.ltb_ge 0 pid)) by lia. apply (goes_back std _ _ _ _ _ 0); [by apply goes_ret|].
    intros [] m2. quiet. by apply goes_ret.
  - apply goes_bind. eapply sat_mono; [apply iter_runs|]. intros h' [].
  - rewrite (proj2 (Z.eqb_neq pid 0)), (proj2 (Z.ltb_lt 0 pid)) by lia. apply (goes_back std _ _ _ _ _ 0); [by apply (wait0_back _ _ 1)|].
    intros [] m2. quiet. by apply goes_ret.
Qed.
