(* ===== verification/Mkfs.v ===== *)
(** * Making a file system, [mkfs/mkfs.c]

    The program of the host that builds the disk image.  The image is a
    function from sectors to blocks and a number of sectors; the files to copy
    come from [host], which gives the chunks that [read] returns.  The fields
    of the structures are kept as the values that the kernel reads, so
    [xshort] and [xint], which only change the order of bytes, truncate to the
    width of the field. *)

From S2P Require Import User.
From S2P Require Import Prelude Riscv Memory Disk Log Fs.

(** ** The program *)

Definition FSSIZE : Z := 2000.
Definition NINODES : Z := 200.
Definition nbitmap : Z := FSSIZE / (BSIZE * 8) + 1.
Definition ninodeblocks : Z := NINODES / IPB + 1.
Definition nlog_ : Z := LOGSIZE.
Definition nmeta : Z := 2 + nlog_ + ninodeblocks + nbitmap.
Definition nblocks_ : Z := FSSIZE - nmeta.

Definition xshort (x : Z) : Z := le_val (le_bytes 2 x).
Definition xint (x : Z) : Z := le_val (le_bytes 4 x).

(** The global [sb], as [main] fills it in. *)
Definition sb_ : superblock :=
  Sb FSMAGIC (xint FSSIZE) (xint nblocks_) (xint NINODES) (xint nlog_) (xint 2) (xint (2 + nlog_)) (xint (2 + nlog_ + ninodeblocks)).

(** The image, with [nsect] sectors, and the globals that change. *)
Record mst : Type := Mst { sect : disk; nsect : Z; freeinode : Z; freeblock : Z }.

Definition set_freeinode (i : Z) (s : mst) : mst := Mst (sect s) (nsect s) i (freeblock s).
Definition set_freeblock (b : Z) (s : mst) : mst := Mst (sect s) (nsect s) (freeinode s) b.

(** The process exits by [die] or by a failed [assert]. *)
Inductive result (A : Type) : Type := Ok (a : A) (s : mst) | Died | Aborted | OutOfFuel.
#[global] Arguments Ok {A}.
#[global] Arguments Died {A}.
#[global] Arguments Aborted {A}.
#[global] Arguments OutOfFuel {A}.

Definition MK (A : Type) : Type := mst → result A.

#[global] Instance MK_ret : MRet MK := λ A a s, Ok a s.
#[global] Instance MK_bind : MBind MK := λ A B f m s,
  match m s with Ok a s => f a s | Died => Died | Aborted => Aborted | OutOfFuel => OutOfFuel end.

Definition die {A} : MK A := λ _, Died.
Definition assert_ (b : bool) : MK unit := λ s, if b then Ok tt s else Aborted.

(** The sector at the offset [sec * BSIZE], computed in 32 bits.  A write
    after the end makes the image longer; a read there gives no bytes. *)
Definition at_sector (sec : Z) : Z := u32 (sec * BSIZE) / BSIZE.
Definition wsect (sec : Z) (buf : block) : MK unit := λ s,
  Ok tt (Mst (upd (sect s) (at_sector sec) buf) (Z.max (nsect s) (at_sector sec + 1)) (freeinode s) (freeblock s)).
Definition rsect (sec : Z) : MK block := λ s,
  if at_sector sec <? nsect s then Ok (sect s (at_sector sec)) s else Died.

Definition winode (inum : Z) (ip : dinode) : MK unit :=
  let bn := IBLOCK inum sb_ in
  buf ← rsect bn;
  wsect bn (put_dinode buf (ioff inum) ip).

Definition rinode (inum : Z) : MK dinode :=
  buf ← rsect (IBLOCK inum sb_);
  mret (get_dinode buf (ioff inum)).

Definition ialloc (ty : Z) : MK Z := λ s,
  let inum := freeinode s in
  (_ ← winode inum (Dinode (xshort ty) 0 0 (xshort 1) (xint 0) (replicate 13 0)); mret inum) (set_freeinode (u32 (inum + 1)) s).

Definition modify_ (f : mst → mst) : MK unit := λ s, Ok tt (f s).
Definition get_freeblock : MK Z := λ s, Ok (freeblock s) s.

(** [freeblock++] *)
Definition take_block : MK Z := λ s, Ok (freeblock s) (set_freeblock (u32 (freeblock s + 1)) s).

Fixpoint balloc_loop (k : nat) (i : Z) (buf : block) : block :=
  match k with
  | O => buf
  | S k => balloc_loop k (i + 1) (put8 buf (i / 8) (Z.lor (get8 buf (i / 8)) (Z.shiftl 1 (i mod 8))))
  end.

Definition balloc (used : Z) : MK unit :=
  _ ← assert_ (used <? BSIZE * 8);
  wsect (bmapstart sb_) (balloc_loop (Z.to_nat used) 0 zero_block).

(** Entry [k] of [addrs], which gets a block when it has none. *)
Definition iappend_addr (k : Z) (din : dinode) : MK dinode :=
  if xint (addrs din !!! Z.to_nat k) =? 0 then b ← take_block; mret (set_addr k (xint b) din) else mret din.

(** Entry [k] of the indirect block [ind], in the same way. *)
Definition iappend_indirect (ind k : Z) : MK Z :=
  indirect ← rsect ind;
  if get32 indirect (4 * k) =? 0 then
    b ← take_block;
    let indirect := put32 indirect (4 * k) (xint b) in
    _ ← wsect ind indirect;
    mret (xint (get32 indirect (4 * k)))
  else mret (xint (get32 indirect (4 * k))).

(** The block for the file block [fbn]. *)
Definition iappend_block (fbn : Z) (din : dinode) : MK (Z * dinode) :=
  if fbn <? NDIRECT then
    din ← iappend_addr fbn din;
    mret (xint (addrs din !!! Z.to_nat fbn), din)
  else
    din ← iappend_addr NDIRECT din;
    x ← iappend_indirect (xint (addrs din !!! Z.to_nat NDIRECT)) (fbn - NDIRECT);
    mret (x, din).

(** The body of the loop: the number of bytes written, and the inode. *)
Definition iappend_round (p : list Z) (off : Z) (din : dinode) : MK (Z * dinode) :=
  let fbn := off / BSIZE in
  _ ← assert_ (fbn <? MAXFILE);
  '(x, din) ← iappend_block fbn din;
  let n1 := Z.min (Z.of_nat (length p)) (u32 ((fbn + 1) * BSIZE - off)) in
  buf ← rsect x;
  _ ← wsect x (put_at buf (off - fbn * BSIZE) (take (Z.to_nat n1) p));
  mret (n1, din).

Fixpoint iappend_loop (fuel : nat) (p : list Z) (off : Z) (din : dinode) : MK (Z * dinode) :=
  match p with
  | [] => mret (off, din)
  | _ =>
      match fuel with
      | O => λ _, OutOfFuel
      | S fuel =>
          '(n1, din) ← iappend_round p off din;
          iappend_loop fuel (drop (Z.to_nat n1) p) (u32 (off + n1)) din
      end
  end.

Definition iappend (inum : Z) (p : list Z) : MK unit :=
  din ← rinode inum;
  '(off, din) ← iappend_loop (length p) p (xint (dsize din)) din;
  winode inum (set_dsize (xint off) din).

(** The bytes of a [struct dirent]. *)
Definition dirent (inum : Z) (name : list Z) : list Z :=
  le_bytes 2 (xshort inum) ++ take 14 name ++ replicate (14 - length name) 0.

Fixpoint zero_loop (k : nat) (i : Z) : MK unit :=
  match k with
  | O => mret tt
  | S k => _ ← wsect i zero_block; zero_loop k (i + 1)
  end.

Fixpoint copy_chunks (inum : Z) (chunks : list (list Z)) : MK unit :=
  match chunks with
  | [] => mret tt
  | c :: chunks => _ ← iappend inum c; copy_chunks inum chunks
  end.

(** [shortname] before the test for a slash. *)
Definition short_of (path : list Z) : list Z :=
  if bool_decide (take 5 path = chars "user/") then drop 5 path else path.
Definition skip_underscore (name : list Z) : list Z :=
  match name with 95 :: rest => rest | _ => name end.

(** The size of the root directory becomes a multiple of [BSIZE]. *)
Definition fix_root (rootino : Z) : MK unit :=
  din ← rinode rootino;
  let off := xint (dsize din) in
  let off := u32 ((off / BSIZE + 1) * BSIZE) in
  winode rootino (set_dsize (xint off) din).

Section main.
  (** What the host gives for a path: the chunks that [read] returns, or
      nothing when [open] fails. *)
  Context (host : list Z → option (list (list Z))).

Definition add_file (rootino : Z) (path : list Z) : MK unit :=
  let shortname := short_of path in
  _ ← assert_ (bool_decide (47 ∉ shortname));
  match host path with
  | None => die
  | Some chunks =>
      inum ← ialloc T_FILE;
      _ ← iappend rootino (dirent inum (skip_underscore shortname));
      copy_chunks inum chunks
  end.

Fixpoint add_files (rootino : Z) (paths : list (list Z)) : MK unit :=
  match paths with
  | [] => mret tt
  | p :: paths => _ ← add_file rootino p; add_files rootino paths
  end.

Definition super_bytes : block :=
  put_words zero_block 0 [magic sb_; size sb_; nblocks sb_; ninodes sb_; nlog sb_; logstart sb_; inodestart sb_; bmapstart sb_].

(** [main] after it opened the image [argv[1]]; [paths] are the other
    arguments. *)
Definition main (paths : list (list Z)) : MK unit :=
  _ ← modify_ (set_freeblock nmeta);
  _ ← zero_loop (Z.to_nat FSSIZE) 0;
  _ ← wsect 1 super_bytes;
  rootino ← ialloc T_DIR;
  _ ← assert_ (rootino =? ROOTINO);
  _ ← iappend rootino (dirent rootino (chars "."));
  _ ← iappend rootino (dirent rootino (chars ".."));
  _ ← add_files rootino paths;
  _ ← fix_root rootino;
  used ← get_freeblock;
  balloc used.
End main.

(** An image that was just truncated. *)
Definition empty_image : mst := Mst (λ _, zero_block) 0 1 0.
