(* ===== verification/MkfsSpec.v ===== *)
(** * What [mkfs] makes

    The image is followed through [main] together with the disk that it will
    be when the bitmap is written ([coupled]).  [made] says that this disk is
    consistent; [iappend_spec], [ialloc_spec] and [add_files_spec] say what the
    steps do to it.  [mkfs_makes]: the image is a consistent file system with
    the given files.  [mkfs_root_hole]: but for one size of the root
    directory. *)

From S2P Require Import User.
From S2P Require Import Prelude Riscv Memory Locks Disk Log LogSpec Tx Bio BioSpec LogBoot TxLog.
From S2P Require Import Fs FsAlloc FsMap FsInode FsFile FsWrite FsTrunc FsInv FsDir FsTx FsBoot Mkfs.

Ltac Zify.zify_pre_hook ::=
  unfold_consts; unfold MAXFILE, BPB, IPB, NINDIRECT, NDIRECT, DINODE_SIZE, DIRENT_SIZE, DIRSIZ, BSIZE, FSSIZE, NINODES in *;
  change (1024 / 4) with 256 in *; change (1024 / 64) with 16 in *.

(** ** Running it *)

Definition yields {A} (m : MK A) (s : mst) (Q : A → mst → Prop) : Prop :=
  match m s with Ok a s' => Q a s' | _ => False end.

Lemma yields_bind {A B} (m : MK A) (f : A → MK B) s Q :
  yields m s (λ a s', yields (f a) s' Q) → yields (m ≫= f) s Q.
Proof. unfold yields, mbind, MK_bind. by destruct (m s). Qed.

Lemma yields_mono {A} (m : MK A) s (P Q : A → mst → Prop) :
  yields m s P → (∀ a s', P a s' → Q a s') → yields m s Q.
Proof. unfold yields. destruct (m s); auto. Qed.

Lemma yields_ret {A} (a : A) s (Q : A → mst → Prop) : Q a s → yields (mret a) s Q.
Proof. done. Qed.

Ltac ystep := apply yields_bind.
Ltac ycall H := ystep; eapply yields_mono; [apply H|].

Lemma sb_eq : sb_ = sb0.
Proof. reflexivity. Qed.

Lemma xint_small x : 0 ≤ x < 2 ^ 32 → xint x = x.
Proof. intros. unfold xint. rewrite le_val_le_bytes. by apply Z.mod_small. Qed.

Lemma xshort_small x : 0 ≤ x < 2 ^ 16 → xshort x = x.
Proof. intros. unfold xshort. rewrite le_val_le_bytes. by apply Z.mod_small. Qed.

Lemma at_sector_small b : 0 ≤ b < 2 ^ 22 → at_sector b = b.
Proof. intros. unfold at_sector. rewrite u32_small by lia. apply Z.div_mul. lia. Qed.

(** ** The image and the disk it stands for *)

(** [co] is the image as it will be: with the bitmap that [balloc] writes at
    the end for the blocks taken so far. *)
Record coupled (s : mst) (co : disk) : Prop := {
  cp_n : nsect s = FSSIZE;
  cp_block b : is_block (co b);
  cp_sect b : b ≠ 45 → co b = sect s b;
  cp_bits b : 0 ≤ b < FSSIZE → bused sb0 co b = bool_decide (b < freeblock s);
  cp_zero b : freeblock s ≤ b → co b = zero_block;
  cp_first : 46 ≤ freeblock s ≤ FSSIZE;
  cp_head b : b < 32 → co b = if decide (b = 1) then super_bytes else zero_block
}.

Lemma BBLOCK0 b : 0 ≤ b < FSSIZE → BBLOCK b sb0 = 45.
Proof. intros Hb. unfold BBLOCK. cbn [bmapstart sb0]. rewrite Z.div_small by lia. done. Qed.

Lemma coupled_rsect s co x : coupled s co → 0 ≤ x < FSSIZE → x ≠ 45 → rsect x s = Ok (co x) s.
Proof.
  intros Hc Hx Hne. unfold rsect. rewrite at_sector_small, (cp_n _ _ Hc) by lia.
  if_true. by rewrite (cp_sect _ _ Hc).
Qed.

(** A sector in use is overwritten. *)
Lemma coupled_wsect s co x buf :
  coupled s co → 32 ≤ x < freeblock s → x ≠ 45 → is_block buf →
  yields (wsect x buf) s (λ _ s', coupled s' (upd co x buf) ∧ freeblock s' = freeblock s ∧ freeinode s' = freeinode s).
Proof.
  intros [C1 C2 C3 C4 C5 C6 C7] Hx Hne Hb. unfold yields, wsect. rewrite at_sector_small by lia.
  split; [|done]. split; cbn [nsect sect freeblock]; try done; intros; unfold upd.
  - lia.
  - by case_decide.
  - case_decide; [done|by apply C3].
  - rewrite <-C4 by done. apply bused_ext. rewrite BBLOCK0 by done. by rewrite decide_False.
  - case_decide; [lia|by apply C5].
  - case_decide; [lia|by apply C7].
Qed.

(** The next free block is taken. *)
Lemma coupled_take s co :
  coupled s co → freeblock s < FSSIZE →
  yields take_block s (λ a s', ∃ co', a = freeblock s ∧ allocated sb0 co co' a ∧ coupled s' co' ∧
    freeblock s' = freeblock s + 1 ∧ freeinode s' = freeinode s ∧ ∀ b, 46 ≤ b → co' b = co b).
Proof.
  intros [C1 C2 C3 C4 C5 C6 C7] Ha. unfold yields, take_block. set (a := freeblock s) in *. rewrite u32_small by lia.
  pose proof (set_bit_set sb0 layout0 co a) as [B1 B2]; [cbn; lia|apply C2|].
  rewrite (BBLOCK0 a), (Z.mod_small a) in B1, B2 by lia.
  exists (upd (upd co 45 (set_bit (co 45) a)) a zero_block). split; [done|]. split; [|split_and!; try done].
  - unfold allocated. change (datastart sb0) with 46. change (size sb0) with FSSIZE. split_and!; [lia|lia| |rewrite C4 by lia; apply bool_decide_false; lia|by eexists].
    intros b Hb. rewrite C4 by lia. apply bool_decide_true. lia.
  - split; cbn [nsect sect freeblock set_freeblock]; try done; intros; unfold upd.
    + case_decide; [apply zero_block_ok|]. case_decide; [apply is_block_bits; [apply C2|lia]|done].
    + case_decide; [subst; rewrite <-C3 by done; by rewrite C5 by lia|]. case_decide; [done|by apply C3].
    + rewrite (bused_ext sb0 (upd co 45 (set_bit (co 45) a))); [|rewrite BBLOCK0 by done; unfold upd; by rewrite (decide_False (P := 45 = a)) by lia].
      rewrite B1 by done. rewrite C4 by done. case_decide; [rewrite bool_decide_true by lia; done|].
      apply bool_decide_ext. lia.
    + case_decide; [done|]. case_decide; [lia|]. apply C5. lia.
    + lia.
    + case_decide; [lia|]. case_decide; [lia|]. by apply C7.
  - intros b Hb. unfold upd. case_decide; [subst; by rewrite C5 by lia|]. case_decide; [lia|done].
Qed.

(** ** The blocks of a file *)

(** Place [j] of the file has a block now; the others are as they were. *)
Record extended (s : mst) (co : disk) (ad : list Z) (s' : mst) (co' : disk) (ad' : list Z) (j : Z) : Prop := {
  gr_map : bmapped sb0 co ad co' ad';
  gr_coupled : coupled s' co';
  gr_slots i : place_ok i → slot co' ad' i ≠ 0 ↔ slot co ad i ≠ 0 ∨ i = j;
  gr_free : freeblock s' = freeblock s + (if decide (slot co ad j = 0) then 1 else 0);
  gr_ino : freeinode s' = freeinode s
}.

Lemma extended_same s co ad j : coupled s co → map_ok sb0 co ad → slot co ad j ≠ 0 → extended s co ad s co ad j.
Proof.
  intros Hc Hm Hs. split; try done; [by apply bmapped_refl| |by rewrite decide_False, Z.add_0_r].
  intros i _. naive_solver.
Qed.

Lemma slot_data co ad j : map_ok sb0 co ad → place_ok j → slot co ad j ≠ 0 → 46 ≤ slot co ad j < FSSIZE.
Proof. intros Hm Hj Hs. by apply (mo_data _ _ _ Hm j). Qed.

Lemma xint_slot co ad j : map_ok sb0 co ad → place_ok j → xint (slot co ad j) = slot co ad j.
Proof.
  intros Hm Hj. destruct (decide (slot co ad j = 0)) as [->|Hs]; [done|].
  apply xint_small. pose proof (slot_data co ad j Hm Hj Hs). lia.
Qed.

Lemma place_of_ok k : 0 ≤ k ≤ NDIRECT → place_ok (place_of k).
Proof. intros Hk. unfold place_ok, place_of. case_decide; lia. Qed.

Lemma iappend_addr_spec s co din k :
  coupled s co → map_ok sb0 co (addrs din) → 0 ≤ k ≤ NDIRECT →
  freeblock s + (if decide (slot co (addrs din) (place_of k) = 0) then 1 else 0) ≤ FSSIZE →
  yields (iappend_addr k din) s (λ din' s', ∃ co' ad', din' = set_addrs ad' din ∧ extended s co (addrs din) s' co' ad' (place_of k)).
Proof.
  intros Hc Hm Hk Hroom. unfold iappend_addr. pose proof (xint_slot co _ _ Hm (place_of_ok k Hk)) as Hx.
  rewrite slot_place in Hx by done. rewrite Hx. case_if.
  - rewrite slot_place, decide_True in Hroom by done. ycall (coupled_take s co Hc); [lia|].
    intros a s1 (co1 & -> & Hal & Hc1 & Hf & Hi & _). apply yields_ret. exists co1, (<[Z.to_nat k := freeblock s]> (addrs din)).
    pose proof (cp_first _ _ Hc). rewrite xint_small by lia. split; [by destruct din|].
    split; [by apply bmapped_direct; [exact layout0|..]|done| |by rewrite slot_place, decide_True|done].
    intros i Hpl. rewrite (slot_direct sb0 layout0 co (addrs din) co1 _ k i) by done. case_decide; [|naive_solver]. split; [by right|lia].
  - apply yields_ret. exists co, (addrs din). split; [by destruct din|]. apply extended_same; [done|done|]. by rewrite slot_place.
Qed.

Lemma slot_ind co ad k : 0 ≤ k → ad !!! 12%nat ≠ 0 → slot co ad (NDIRECT + k) = get32 (co (ad !!! 12%nat)) (4 * k).
Proof.
  intros Hk Hi. unfold slot. rewrite !decide_False by (done || lia). do 2 f_equal. lia.
Qed.

Lemma iappend_indirect_spec s co ad k :
  coupled s co → map_ok sb0 co ad → ad !!! 12%nat ≠ 0 → 0 ≤ k < NINDIRECT →
  freeblock s + (if decide (slot co ad (NDIRECT + k) = 0) then 1 else 0) ≤ FSSIZE →
  yields (iappend_indirect (ad !!! 12%nat) k) s (λ x s', ∃ co', x = slot co' ad (NDIRECT + k) ∧ extended s co ad s' co' ad (NDIRECT + k)).
Proof.
  intros Hc Hm Hi0 Hk Hroom. unfold iappend_indirect. pose proof (slot_data co ad (-1) Hm ltac:(unfold place_ok; lia) Hi0) as Hir.
  change (slot co ad (-1)) with (ad !!! 12%nat) in Hir. set (ind := ad !!! 12%nat) in *.
  assert (place_ok (NDIRECT + k)) as Hpl by (unfold place_ok; lia). pose proof (xint_slot co ad _ Hm Hpl) as Hx.
  pose proof (slot_ind co ad k ltac:(lia) Hi0) as Hs. fold ind in Hs. rewrite Hs in *.
  ystep. unfold yields at 1. rewrite (coupled_rsect s co) by (done || lia). case_if; cycle 1.
  { apply yields_ret. exists co. split; [congruence|]. apply extended_same; congruence. }
  rewrite decide_True in Hroom by done. ycall (coupled_take s co Hc); [lia|]. intros a s1 (co1 & -> & Hal & Hc1 & Hf & Hi & Hco).
  pose proof (cp_first _ _ Hc). rewrite (xint_small (freeblock s)) by lia.
  pose proof (cp_block _ _ Hc ind) as Hbi. assert (ind < freeblock s) as Hlt.
  { destruct (mo_data _ _ _ Hm (-1)) as [_ Hu]; [unfold place_ok; lia|exact Hi0|]. change (slot co ad (-1)) with ind in Hu.
    rewrite (cp_bits _ _ Hc) in Hu by lia. by apply bool_decide_eq_true in Hu. }
  ycall (coupled_wsect s1 co1 ind); [done|lia|lia|by apply is_block_put32; [|lia..]|]. intros _ s2 (Hc2 & Hf2 & Hi2). apply yields_ret.
  exists (upd co1 ind (put32 (co ind) (4 * k) (freeblock s))). rewrite slot_ind by (done || lia). fold ind. rewrite upd_eq.
  rewrite get32_put32 by (destruct Hbi; lia). rewrite u32_small by lia. split; [apply xint_small; lia|].
  split; [|done| |rewrite Hs, decide_True by done; lia|congruence].
  - apply bmapped_indirect; [exact layout0|done|apply Hc1|lia|done|congruence|done].
  - intros i Hpi. unfold ind. rewrite (slot_indirect sb0 layout0 co ad co1 (freeblock s) k i); try done; [|apply Hc1].
    case_decide; [|naive_solver]. split; [by right|lia].
Qed.

(** ** How many blocks *)

(** The number of blocks of [nb] file blocks, and of [sz] bytes. *)
Definition cost (nb : Z) : Z := nb + (if decide (NDIRECT < nb) then 1 else 0).
Definition blocks_of (sz : Z) : Z := (sz + BSIZE - 1) / BSIZE.

(** The file has its first [nb] blocks and no others. *)
Definition exact (co : disk) (ad : list Z) (nb : Z) : Prop := ∀ j, place_ok j →
  slot co ad j ≠ 0 ↔ if decide (j = -1) then NDIRECT < nb else j < nb.

Lemma iappend_block_spec s co din fbn nb :
  coupled s co → map_ok sb0 co (addrs din) → exact co (addrs din) nb → nb = fbn ∨ nb = fbn + 1 → 0 ≤ fbn < MAXFILE →
  freeblock s + (cost (fbn + 1) - cost nb) ≤ FSSIZE →
  yields (iappend_block fbn din) s (λ r s', ∃ co' ad', r = (slot co' ad' fbn, set_addrs ad' din) ∧
    bmapped sb0 co (addrs din) co' ad' ∧ coupled s' co' ∧ exact co' ad' (fbn + 1) ∧ slot co' ad' fbn ≠ 0 ∧
    freeblock s' = freeblock s + (cost (fbn + 1) - cost nb) ∧ freeinode s' = freeinode s).
Proof.
  intros Hc Hm He Hnb Hf Hroom. unfold iappend_block. assert (place_ok fbn) as Hpl by (unfold place_ok; lia).
  pose proof (He fbn Hpl) as Hf0. rewrite decide_False in Hf0 by lia. assert (place_ok (-1)) as Hp1 by (unfold place_ok; lia).
  pose proof (He (-1) Hp1) as Hi0. rewrite decide_True in Hi0 by done. unfold cost in *. case_if.
  - assert (place_of fbn = fbn) as Hpf by (unfold place_of; by rewrite decide_False by lia).
    ycall (iappend_addr_spec s co din fbn Hc Hm); [lia|rewrite Hpf; repeat case_decide; lia|]. rewrite Hpf.
    intros din' s1 (co1 & ad1 & -> & [G1 G2 G3 G4 G5]). apply yields_ret. exists co1, ad1. cbn [addrs set_addrs].
    pose proof (bm_ok _ _ _ _ _ G1) as Hm1. pose proof (xint_slot co1 ad1 _ Hm1 Hpl) as Hx.
    rewrite <-Hpf in Hx. rewrite slot_place in Hx by lia. rewrite Hx. rewrite <-slot_place with (co := co1) by lia. rewrite Hpf.
    split_and!; try done.
    + intros j Hj. rewrite (G3 j Hj), (He j Hj). repeat case_decide; lia.
    + apply G3; [done|by right].
    + rewrite G4. repeat case_decide; lia.
  - ycall (iappend_addr_spec s co din NDIRECT Hc Hm); [lia|change (place_of NDIRECT) with (-1); repeat case_decide; lia|].
    change (place_of NDIRECT) with (-1). intros din' s1 (co1 & ad1 & -> & [G1 G2 G3 G4 G5]). cbn [addrs set_addrs].
    change (Z.to_nat NDIRECT) with 12%nat. pose proof (bm_ok _ _ _ _ _ G1) as Hm1.
    pose proof (xint_slot co1 ad1 (-1) Hm1 Hp1) as Hx. change (slot co1 ad1 (-1)) with (ad1 !!! 12%nat) in Hx. rewrite Hx.
    assert (ad1 !!! 12%nat ≠ 0) as Hi1 by (apply (G3 (-1) Hp1); by right).
    assert (slot co1 ad1 fbn ≠ 0 ↔ slot co (addrs din) fbn ≠ 0) as Hsame by (rewrite (G3 fbn Hpl); lia).
    assert (NDIRECT + (fbn - NDIRECT) = fbn) as Hff by lia.
    ycall (iappend_indirect_spec s1 co1 ad1 (fbn - NDIRECT) G2 Hm1 Hi1); [lia|rewrite Hff, G4; repeat case_decide; lia|]. rewrite Hff.
    intros x s2 (co2 & -> & [K1 K2 K3 K4 K5]). apply yields_ret. exists co2, ad1. split_and!; try done.
    + by eapply bmapped_trans; [exact layout0|..].
    + intros j Hj. rewrite (K3 j Hj), (G3 j Hj), (He j Hj). repeat case_decide; lia.
    + apply K3; [done|by right].
    + rewrite K4, G4. repeat case_decide; lia.
    + congruence.
Qed.

(** ** Consistency *)

(** The last block is zero after the end of the file. *)
Definition tail_zero (co : disk) (di : dinode) : Prop :=
  ∀ p, dsize di ≤ p < blocks_of (dsize di) * BSIZE → file_byte co (addrs di) p = 0.

Record made (s : mst) (co : disk) (D : Z → dinode) : Prop := {
  md_coupled : coupled s co;
  md_fs : fs_ok sb0 co D;
  md_exact n : 0 ≤ n < NINODES → type (D n) ≠ 0 → exact co (addrs (D n)) (blocks_of (dsize (D n)));
  md_tail n : 0 ≤ n < NINODES → type (D n) ≠ 0 → tail_zero co (D n)
}.

(** A file whose places and blocks are as they were. *)
Definition same_file (co co' : disk) (ad : list Z) : Prop :=
  (∀ j, slot co' ad j = slot co ad j) ∧ ∀ j, place_ok j → slot co ad j ≠ 0 → co' (slot co ad j) = co (slot co ad j).

Lemma same_file_byte co co' ad p : same_file co co' ad → 0 ≤ p < MAXFILE * BSIZE → slot co ad (p / BSIZE) ≠ 0 → file_byte co' ad p = file_byte co ad p.
Proof.
  intros [H1 H2] Hp Hs. unfold file_byte. rewrite H1, H2; [done| |done]. unfold place_ok.
  pose proof (Z.div_pos p BSIZE). pose proof (Z.div_lt_upper_bound p BSIZE MAXFILE). lia.
Qed.

Lemma exact_place co ad sz p : exact co ad (blocks_of sz) → 0 ≤ p < blocks_of sz * BSIZE → p < MAXFILE * BSIZE → slot co ad (p / BSIZE) ≠ 0.
Proof.
  intros He Hp Hm. pose proof (Z.div_pos p BSIZE). pose proof (Z.div_lt_upper_bound p BSIZE MAXFILE).
  pose proof (Z.div_lt_upper_bound p BSIZE (blocks_of sz)). apply He; [unfold place_ok; lia|]. rewrite decide_False by lia. lia.
Qed.

Lemma blocks_of_bounds sz : 0 ≤ sz → sz ≤ blocks_of sz * BSIZE < sz + BSIZE.
Proof.
  intros Hs. unfold blocks_of. pose proof (Z.div_mod (sz + BSIZE - 1) BSIZE ltac:(lia)).
  pose proof (Z.mod_pos_bound (sz + BSIZE - 1) BSIZE ltac:(lia)). lia.
Qed.

(** Such a file has the same contents and the same zeros after them. *)
Lemma same_file_contents co co' di :
  same_file co co' (addrs di) → 0 ≤ dsize di ≤ MAXFILE * BSIZE → exact co (addrs di) (blocks_of (dsize di)) →
  contents co' di = contents co di ∧ exact co' (addrs di) (blocks_of (dsize di)) ∧ (tail_zero co di → tail_zero co' di).
Proof.
  intros Hsf Hsz He. pose proof (blocks_of_bounds (dsize di) (proj1 Hsz)) as Hb.
  assert (blocks_of (dsize di) ≤ MAXFILE) by (apply Z.lt_succ_r, Z.div_lt_upper_bound; lia). split_and!.
  - apply list_eq. intros i. unfold contents. destruct (decide (i < Z.to_nat (dsize di))%nat);
      [|by rewrite !lookup_ge_None_2 by (rewrite slice_length; lia)].
    rewrite !lookup_slice by done. f_equal. apply same_file_byte; [done|lia|]. apply (exact_place _ _ _ _ He); lia.
  - intros j Hj. rewrite (proj1 Hsf j). by apply He.
  - intros Ht p Hp. rewrite <-(Ht p Hp). apply same_file_byte; [done|lia|]. apply (exact_place _ _ _ _ He); lia.
Qed.

(** [fs_ok] for a file whose blocks were kept or taken from the free ones. *)
Lemma fs_ok_fmapped sb co D n co' di' :
  fs_ok sb co D → 0 ≤ n < ninodes sb → type (D n) ≠ 0 → fmapped sb co (addrs (D n)) co' (addrs di') →
  type di' ≠ 0 → dinode_ok di' → filled co' (addrs di') (dsize di') → dsize di' ≤ MAXFILE * BSIZE →
  fs_ok sb co' (upd D n di') ∧
  ∀ n', 0 ≤ n' < ninodes sb → n' ≠ n → type (D n') ≠ 0 → same_file co co' (addrs (D n')).
Proof.
  intros Hok Hn Ht [F1 F2 F3 F4 F5 F6] Ht' Hd Hf Hmax. pose proof (fs_layout _ _ _ Hok) as Hly. pose proof (datastart_pos _ Hly).
  assert (∀ x, datastart sb ≤ x < size sb → bused sb co x = true →
    (∀ j, place_ok j → slot co (addrs (D n)) j ≠ x) → bused sb co' x = true ∧ co' x = co x) as Hkeep.
  { intros x Hx Hu Hno. split; [apply F4; [lia|done]|]. apply F6; [lia|apply data_not_bitmap; lia|right; split; [lia|done]|done]. }
  split.
  - apply (fs_ok_update sb co D Hok n Hn Ht co' Hkeep); try done.
    + intros b Hb. pose proof (ly_data _ Hly). apply F4; [lia|]. by apply (fs_meta _ _ _ Hok).
    + intros j Hj Hs. destruct (decide (slot co (addrs (D n)) j = 0)) as [E|E]; [right; by apply F3|].
      left. exists j. split; [done|]. symmetry. by apply F2.
    + intros x Hx Hu'. destruct (bused sb co x) eqn:Hu; [|right].
      * destruct (decide (Exists (λ j, slot co (addrs (D n)) j = x) (seqZ (-1) (MAXFILE + 1)))) as [He|He].
        -- right. apply Exists_exists in He as (j & Hj%elem_of_seqZ & Es). exists j. assert (place_ok j) by (unfold place_ok; lia).
           split; [done|]. rewrite F2; [done|done|lia].
        -- left. split; [done|]. intros j Hj Es. apply He, Exists_exists. exists j. split; [|done]. apply elem_of_seqZ. unfold place_ok in Hj. lia.
      * destruct (F5 x) as (j & Hj & Hs & _); [lia|done|done|]. by exists j.
  - intros n' Hn' Hne Htn'. split; intros j.
    + by apply (other_slots sb co D Hok n Hn Ht co' Hkeep).
    + intros Hj Hs. by apply (other_slot sb co D Hok n Hn Ht co' Hkeep n' j).
Qed.

(** Chunk [l] goes after the last byte of inode [n]. *)
Definition appended (n : Z) (ad' : list Z) (l : list Z) (D : Z → dinode) : Z → dinode :=
  upd D n (set_dsize (dsize (D n) + Z.of_nat (length l)) (set_addrs ad' (D n))).

(** What appending to inode [n] keeps: the other files, and the inode blocks
    while the inode is not written back. *)
Definition others_kept (n : Z) (D : Z → dinode) (co co' : disk) : Prop :=
  ∀ m, 0 ≤ m < NINODES → m ≠ n → type (D m) ≠ 0 → contents co' (D m) = contents co (D m).
Definition iblocks_kept (co co' : disk) : Prop := ∀ b, 32 ≤ b < 45 → co' b = co b.

Lemma blocks_of_chunk off k : 0 ≤ off → 0 < k ≤ BSIZE - off mod BSIZE → blocks_of (off + k) = off / BSIZE + 1.
Proof.
  intros Ho Hk. unfold blocks_of. pose proof (Z.div_mod off BSIZE ltac:(lia)). pose proof (Z.mod_pos_bound off BSIZE ltac:(lia)).
  symmetry. apply (Z.div_unique_pos _ _ _ (off mod BSIZE + k - 1)); lia.
Qed.

Lemma blocks_of_here off : 0 ≤ off → blocks_of off = off / BSIZE ∨ blocks_of off = off / BSIZE + 1.
Proof.
  intros Ho. unfold blocks_of. pose proof (Z.div_mod off BSIZE ltac:(lia)). pose proof (Z.mod_pos_bound off BSIZE ltac:(lia)).
  destruct (decide (off mod BSIZE = 0)); [left|right]; symmetry.
  - apply (Z.div_unique_pos _ _ _ (BSIZE - 1)); lia.
  - apply (Z.div_unique_pos _ _ _ (off mod BSIZE - 1)); lia.
Qed.

(** The bytes after the chunk, in its block. *)
Lemma chunk_tail co co1 ad ad1 off l p :
  bmapped sb0 co ad co1 ad1 → map_ok sb0 co ad → exact co ad (blocks_of off) →
  (∀ q, off ≤ q < blocks_of off * BSIZE → file_byte co ad q = 0) →
  let fbn := off / BSIZE in let x := slot co1 ad1 fbn in
  0 ≤ off → Z.of_nat (length l) ≤ BSIZE - off mod BSIZE → fbn < MAXFILE → x ≠ 0 → is_block (co1 x) →
  off + Z.of_nat (length l) ≤ p < (fbn + 1) * BSIZE →
  get8 (put_at (co1 x) (off mod BSIZE) l) (p mod BSIZE) = 0.
Proof.
  intros Hbm Hm He Htail fbn x Ho Hl Hf Hx [Hlen _] Hp. pose proof (Z.div_mod off BSIZE ltac:(lia)) as Hdm. fold fbn in Hdm.
  pose proof (Z.mod_pos_bound off BSIZE ltac:(lia)). pose proof (Z.div_pos off BSIZE ltac:(lia) ltac:(lia)) as Hf0. fold fbn in Hf0.
  assert (p / BSIZE = fbn ∧ p mod BSIZE = p - fbn * BSIZE) as [Hp1 Hp2].
  { split; symmetry; [apply (Z.div_unique_pos _ _ _ (p - fbn * BSIZE))|apply (Z.mod_unique_pos _ _ fbn)]; lia. }
  assert (place_ok fbn) as Hpl by (unfold place_ok; lia). unfold get8. rewrite list_lookup_total_alt, lookup_put_at by lia.
  rewrite decide_False by lia. rewrite <-list_lookup_total_alt. fold (get8 (co1 x) (p mod BSIZE)).
  destruct (decide (slot co ad fbn = 0)) as [E|E].
  - destruct (bm_new _ _ _ _ _ Hbm fbn Hpl E Hx) as [_ Hz]. unfold x. rewrite Hz by lia. unfold get8, zero_block.
    apply lookup_total_replicate_2. lia.
  - pose proof (bm_old _ _ _ _ _ Hbm fbn Hpl E) as Ho1. fold x in Ho1. pose proof (He fbn Hpl) as He1. rewrite decide_False in He1 by lia.
    rewrite <-(Htail p) by (apply He1 in E; lia). unfold file_byte. rewrite Hp1, <-Ho1. f_equal.
    destruct (mo_data _ _ _ Hm fbn Hpl E) as [Hr Hu]. rewrite Ho1. apply (bm_frame _ _ _ _ _ Hbm); [apply data_not_bitmap; lia|right; split; [lia|done]|].
    intros Ei. assert (fbn = -1); [|lia]. apply (mo_inj _ _ _ Hm); [done|unfold place_ok; lia|done|done].
Qed.

Lemma append_chunk s2 co D n co1 ad1 l s :
  made s co D → 0 ≤ n < NINODES → type (D n) ≠ 0 →
  let off := dsize (D n) in let fbn := off / BSIZE in let x := slot co1 ad1 fbn in
  l ≠ [] → Z.of_nat (length l) ≤ BSIZE - off mod BSIZE → fbn < MAXFILE →
  bmapped sb0 co (addrs (D n)) co1 ad1 → exact co1 ad1 (fbn + 1) → x ≠ 0 → is_block (co1 x) →
  let co2 := upd co1 x (put_at (co1 x) (off mod BSIZE) l) in
  coupled s2 co2 →
  made s2 co2 (appended n ad1 l D) ∧ contents co2 (appended n ad1 l D n) = contents co (D n) ++ l ∧
  others_kept n D co co2 ∧ iblocks_kept co co2.
Proof.
  intros [Hc Hok Hex Htl] Hn Ht off fbn x Hl0 Hl Hfbn Hbm He1 Hx Hbx co2 Hc2. assert (0 < Z.of_nat (length l)) as Hlp by (destruct l; simpl; [done|lia]).
  pose proof (fs_dinode _ _ _ Hok n Hn Ht) as Hdi. pose proof (do_size _ Hdi) as Hsz. fold off in Hsz.
  pose proof (fs_map _ _ _ Hok n Hn Ht) as Hm. destruct (fs_filled _ _ _ Hok n Hn Ht) as [Hfill Hmax]. fold off in Hfill, Hmax.
  pose proof (Z.div_mod off BSIZE ltac:(lia)) as Hdm. pose proof (Z.mod_pos_bound off BSIZE ltac:(lia)) as Hmb. fold fbn in Hdm.
  pose proof (Z.div_pos off BSIZE ltac:(lia) ltac:(lia)) as Hf0. fold fbn in Hf0.
  destruct (write_chunk sb0 layout0 co (addrs (D n)) co1 ad1 off off l Hbm Hm ltac:(lia) Hfill Hmax Hfbn Hx Hbx Hl) as (W1 & W2 & W3).
  fold fbn x co2 in W1, W2, W3. rewrite Z.max_r in W2, W3 by lia. set (di' := set_dsize (off + Z.of_nat (length l)) (set_addrs ad1 (D n))).
  assert (dinode_ok di') as Hdi'.
  { destruct Hdi as [D1 D2 D3 D4 D5 D6 D7]. pose proof (bm_ok _ _ _ _ _ Hbm) as Hm1.
    split; cbn; try done; [lia|apply Hm1|]. by apply (map_addrs sb0 co1 ad1 layout0). }
  destruct (fs_ok_fmapped sb0 co D n co2 di' Hok Hn Ht W1 Ht Hdi' W2 ltac:(cbn; lia)) as (Hok' & Hsame).
  assert (∀ j, slot co2 ad1 j = slot co1 ad1 j) as Hslot.
  { intros j. unfold co2, x. apply (slot_write sb0); [apply Hbm|unfold place_ok; lia|lia|done]. }
  assert (∀ m, 0 ≤ m < NINODES → m ≠ n → type (D m) ≠ 0 → contents co2 (D m) = contents co (D m) ∧
    exact co2 (addrs (D m)) (blocks_of (dsize (D m))) ∧ tail_zero co2 (D m)) as Hothers.
  { intros m Hm0 Hne Htm. pose proof (do_size _ (fs_dinode _ _ _ Hok m Hm0 Htm)). pose proof (fs_filled _ _ _ Hok m Hm0 Htm) as [_ ?].
    destruct (same_file_contents co co2 (D m) (Hsame m Hm0 Hne Htm) ltac:(lia) (Hex m Hm0 Htm)) as (S1 & S2 & S3). auto. }
  unfold appended. fold off di'. rewrite upd_eq. split; [|split; [|split]].
  - split; [done|done|..]; intros m Hm0; unfold upd; case_decide as E; try (intros Htm; by apply Hothers); intros _.
    + cbn [addrs dsize di' set_dsize set_addrs]. rewrite blocks_of_chunk by lia. fold fbn. intros j Hj. by rewrite Hslot, <-(He1 j Hj).
    + intros p. cbn [addrs dsize di' set_dsize set_addrs]. rewrite blocks_of_chunk by lia. fold fbn. intros Hp.
      assert (p / BSIZE = fbn) as Hpb by (symmetry; apply (Z.div_unique_pos _ _ _ (p - fbn * BSIZE)); lia).
      unfold file_byte. rewrite Hslot, Hpb. fold x. unfold co2. rewrite upd_eq.
      apply (chunk_tail co co1 (addrs (D n)) ad1 off l p); try done; [by apply Hex|by apply Htl|lia].
  - rewrite (contents_written co co2 (D n) di' l off (Z.of_nat (length l))); [|lia|lia|cbn; lia|].
    + rewrite Nat2Z.id, (take_ge l) by lia. unfold put_at. assert (length (contents co (D n)) = Z.to_nat off) as Hlen by apply slice_length.
      rewrite take_ge, drop_ge by lia. by rewrite app_nil_r.
    + intros p Hp. apply W3. cbn in Hp. lia.
  - intros m Hm0 Hne Htm. by apply Hothers.
  - intros b Hb. destruct W1 as [_ _ _ _ _ F6]. apply F6; [lia|unfold is_bitmap; change (bmapstart sb0) with 45; lia|left; change (datastart sb0) with 46; lia|].
    intros j Hj Es. pose proof (slot_data co _ j Hm Hj). lia.
Qed.

Definition grew (n : Z) (l : list Z) (D D' : Z → dinode) : Prop :=
  (∃ ad', D' n = set_dsize (dsize (D n) + Z.of_nat (length l)) (set_addrs ad' (D n))) ∧ ∀ m, m ≠ n → D' m = D m.

(** [l] was appended to inode [n]. *)
Record append_done (n : Z) (l : list Z) (s : mst) (co : disk) (D : Z → dinode) (s' : mst) (co' : disk) (D' : Z → dinode) : Prop := {
  ap_grew : grew n l D D';
  ap_contents : contents co' (D' n) = contents co (D n) ++ l;
  ap_others : others_kept n D co co';
  ap_free : freeblock s' = freeblock s + (cost (blocks_of (dsize (D n) + Z.of_nat (length l))) - cost (blocks_of (dsize (D n))));
  ap_ino : freeinode s' = freeinode s
}.

Lemma append_nil n s co D : append_done n [] s co D s co D.
Proof.
  split; [split; [|done]| |done|simpl; rewrite Z.add_0_r; lia|done].
  - exists (addrs (D n)). rewrite Z.add_0_r. by destruct (D n).
  - by rewrite app_nil_r.
Qed.

Lemma append_trans n l1 l2 s co D s1 co1 D1 s2 co2 D2 :
  append_done n l1 s co D s1 co1 D1 → append_done n l2 s1 co1 D1 s2 co2 D2 → append_done n (l1 ++ l2) s co D s2 co2 D2.
Proof.
  intros [[[ad1 A2] A3] A4 A5 A7 A8] [[[ad2 B2] B3] B4 B5 B7 B8].
  assert (dsize (D1 n) = dsize (D n) + Z.of_nat (length l1)) as Hsz by (by rewrite A2).
  rewrite Hsz in *. split; [split|..].
  - exists ad2. by rewrite B2, A2, length_app, Nat2Z.inj_add, Z.add_assoc.
  - intros m Hm. rewrite B3, A3 by done. done.
  - by rewrite B4, A4, app_assoc.
  - intros m Hm Hne Ht. rewrite <-A5 by done. rewrite <-(A3 m Hne). apply B5; rewrite ?A3; done.
  - rewrite B7, A7, length_app, Nat2Z.inj_add, Z.add_assoc. lia.
  - congruence.
Qed.

Lemma cost_mono a b : 0 ≤ a ≤ b → cost (blocks_of a) ≤ cost (blocks_of b).
Proof.
  intros Hab. assert (blocks_of a ≤ blocks_of b) by (apply Z.div_le_mono; lia). unfold cost. repeat case_decide; lia.
Qed.

Section append.
  Context (n : Z) (Hn : 0 ≤ n < NINODES) (z : Z).

(** Room on the disk for [len] more bytes. *)
Definition room_for (s : mst) (D : Z → dinode) (len : Z) : Prop :=
  dsize (D n) + len ≤ MAXFILE * BSIZE ∧
  freeblock s + (cost (blocks_of (dsize (D n) + len)) - cost (blocks_of (dsize (D n)))) ≤ FSSIZE.

Lemma iappend_round_spec p s co D :
  made s co D → type (D n) ≠ 0 → p ≠ [] → Forall is_byte p →
  let off := dsize (D n) in let len := Z.of_nat (length p) in let n1 := chunk off len in
  room_for s D n1 →
  yields (iappend_round p off (set_dsize z (D n))) s (λ r s', ∃ co' D',
    append_done n (take (Z.to_nat n1) p) s co D s' co' D' ∧ made s' co' D' ∧ iblocks_kept co co' ∧ r = (n1, set_dsize z (D' n))).
Proof using Hn.
  intros Hmade Ht Hp0 Hp off len n1 [Hmax Hroom].
  pose proof (do_size _ (fs_dinode _ _ _ (md_fs _ _ _ Hmade) n Hn Ht)) as Hsz. fold off in Hsz, Hmax, Hroom.
  unfold iappend_round. set (fbn := off / BSIZE). assert (0 < len) as Hlen by (unfold len; destruct p; [done|simpl; lia]).
  pose proof (Z.div_mod off BSIZE ltac:(lia)) as Hdm. pose proof (Z.mod_pos_bound off BSIZE ltac:(lia)) as Hmb. fold fbn in Hdm.
  pose proof (Z.div_pos off BSIZE ltac:(lia) ltac:(lia)) as Hf0. fold fbn in Hf0.
  destruct (chunk_bounds off len Hlen) as [Hc1 Hc2]. fold n1 in Hc1, Hc2. assert (fbn < MAXFILE) as Hf1 by lia.
  ystep. unfold assert_, yields at 1. if_true. fold len.
  replace (Z.min len (u32 ((fbn + 1) * BSIZE - off))) with n1 by (unfold n1, chunk; rewrite u32_small by lia; lia).
  set (l1 := take (Z.to_nat n1) p). assert (Z.of_nat (length l1) = n1) as Hl1 by (unfold l1; rewrite length_take; unfold len in Hc1; lia).
  assert (l1 ≠ []) as Hl0 by (intros E; rewrite E in Hl1; simpl in Hl1; lia).
  rewrite (blocks_of_chunk off n1) in Hroom by lia. fold fbn in Hroom.
  ycall (iappend_block_spec s co (set_dsize z (D n)) fbn (blocks_of off)); [apply Hmade|by apply (fs_map _ _ _ (md_fs _ _ _ Hmade))|
    by apply (md_exact _ _ _ Hmade)|apply blocks_of_here; lia|lia|lia|].
  intros [x din'] s1 (co1 & ad1 & [= -> ->] & B1 & B2 & B3 & B4 & B5 & B6).
  pose proof (bm_ok _ _ _ _ _ B1) as Hm1. assert (place_ok fbn) as Hpl by (unfold place_ok; lia).
  pose proof (slot_data co1 ad1 fbn Hm1 Hpl B4) as Hx. assert (slot co1 ad1 fbn < freeblock s1) as Hxf.
  { destruct (mo_data _ _ _ Hm1 fbn Hpl B4) as [_ Hu]. rewrite (cp_bits _ _ B2) in Hu by lia. by apply bool_decide_eq_true in Hu. }
  ystep. unfold yields at 1. rewrite (coupled_rsect s1 co1) by (done || lia).
  replace (off - fbn * BSIZE) with (off mod BSIZE) by lia.
  ycall (coupled_wsect s1 co1 (slot co1 ad1 fbn)); [done|lia|lia|apply is_block_put_at; [apply B2|lia|lia|by apply Forall_take]|].
  intros _ s2 (C1 & C2 & C3). apply yields_ret.
  destruct (append_chunk s2 co D n co1 ad1 l1 s Hmade Hn Ht) as (M1 & M2 & M3 & M4); try done; [fold off; lia|apply B2|].
  fold off fbn in M1, M2, M3, M4. eexists _, (appended n ad1 l1 D). split; [|unfold appended; rewrite upd_eq; done].
  split; [split|done|done| |congruence].
  - exists ad1. unfold appended. by rewrite upd_eq.
  - intros m Hne. by apply upd_ne.
  - fold off. rewrite Hl1, blocks_of_chunk by lia. fold fbn. lia.
Qed.

Lemma iappend_loop_spec fuel p s co D :
  made s co D → type (D n) ≠ 0 → (length p ≤ fuel)%nat → Forall is_byte p → room_for s D (Z.of_nat (length p)) →
  yields (iappend_loop fuel p (dsize (D n)) (set_dsize z (D n))) s (λ r s', ∃ co' D',
    append_done n p s co D s' co' D' ∧ made s' co' D' ∧ iblocks_kept co co' ∧ r = (dsize (D' n), set_dsize z (D' n))).
Proof using Hn.
  revert p s co D. induction fuel as [|fuel IH]; intros p s co D Hmade Ht Hfuel Hp Hroom;
    pose proof (do_size _ (fs_dinode _ _ _ (md_fs _ _ _ Hmade) n Hn Ht)) as Hsz.
  { destruct p; [|simpl in Hfuel; lia]. apply yields_ret. exists co, D. split; [apply append_nil|done]. }
  destruct p as [|c p']; [apply yields_ret; exists co, D; split; [apply append_nil|done]|].
  cbn [iappend_loop]. set (p := c :: p') in *. set (len := Z.of_nat (length p)) in *. set (n1 := chunk (dsize (D n)) len).
  assert (0 < len) as Hlen by (unfold len, p; simpl; lia). destruct (chunk_bounds (dsize (D n)) len Hlen) as [Hc1 _]. fold n1 in Hc1.
  pose proof (cost_mono (dsize (D n) + n1) (dsize (D n) + len) ltac:(lia)) as Hcm. destruct Hroom as [Hr1 Hr2].
  ycall (iappend_round_spec p s co D Hmade Ht ltac:(done) Hp); [split; fold len n1; lia|]. fold len n1.
  intros [n1' din] s1 (co1 & D1 & A & M1 & K1 & [= -> ->]). pose proof (ap_grew _ _ _ _ _ _ _ _ A) as [[ad1 HD1] _].
  assert (Z.of_nat (length (take (Z.to_nat n1) p)) = n1) as Hl1 by (rewrite length_take; unfold len in Hc1; lia). rewrite Hl1 in HD1.
  replace (u32 (dsize (D n) + n1)) with (dsize (D1 n)) by (rewrite HD1, u32_small by lia; done).
  assert (Z.of_nat (length (drop (Z.to_nat n1) p)) = len - n1) as Hl2 by (rewrite length_drop; unfold len in *; lia).
  eapply yields_mono; [apply (IH _ s1 co1 D1); [done|by rewrite HD1|lia|by apply Forall_drop|]|].
  - pose proof (ap_free _ _ _ _ _ _ _ _ A) as Hf. rewrite Hl1 in Hf. unfold room_for. rewrite HD1, Hl2. cbn [dsize set_dsize].
    replace (dsize (D n) + n1 + (len - n1)) with (dsize (D n) + len) by lia. lia.
  - intros r s' (co' & D' & A' & M' & K' & ->). exists co', D'. split; [|split_and!; try done; intros b Hb; by rewrite K', K1].
    rewrite <-(take_drop (Z.to_nat n1) p). by eapply append_trans.
Qed.
End append.

(** ** Inodes on the image *)

(** The same data blocks and bits. *)
Lemma fs_ok_disk sb co co' D :
  fs_ok sb co D → (∀ b, datastart sb ≤ b → co' b = co b) → (∀ b, 0 ≤ b < size sb → bused sb co' b = bused sb co b) → fs_ok sb co' D.
Proof.
  intros [F1 F2 F3 F4 F5 F6 F7] Hd Hu. pose proof (datastart_pos _ F1). pose proof (ly_data _ F1).
  assert (∀ n j, 0 ≤ n < ninodes sb → type (D n) ≠ 0 → slot co' (addrs (D n)) j = slot co (addrs (D n)) j) as Hs.
  { intros n j Hn Ht. apply slot_ext. intros Hne. apply Hd. apply (mo_data _ _ _ (F4 n Hn Ht) (-1)); [unfold place_ok; lia|exact Hne]. }
  split; try done.
  - intros b Hb. rewrite Hu by lia. by apply F2.
  - intros n Hn Ht. destruct (F4 n Hn Ht) as [M1 M2 M3]. split; [done|..]; intros *; rewrite !Hs by done; [|apply M3].
    intros Hj Hne. destruct (M2 j Hj Hne) as [Hr Hub]. rewrite Hu by lia. done.
  - intros n Hn Ht. destruct (F5 n Hn Ht) as [Hf Hm]. split; [|done]. intros bn. rewrite Hs by done. apply Hf.
  - intros n n' j j' Hn Hn' Ht Ht'. rewrite !Hs by done. by apply F6.
  - intros b Hb. rewrite Hu by lia. intros Hub. destruct (F7 b Hb Hub) as (n & j & Hn & Ht & Hj & E). exists n, j. by rewrite Hs.
Qed.

(** Other inodes with the same blocks, or none. *)
Lemma fs_ok_inodes sb co D D' :
  fs_ok sb co D →
  (∀ n, 0 ≤ n < ninodes sb → type (D' n) ≠ 0 → dinode_ok (D' n) ∧ filled co (addrs (D' n)) (dsize (D' n)) ∧ dsize (D' n) ≤ MAXFILE * BSIZE ∧
    (type (D n) ≠ 0 ∧ addrs (D' n) = addrs (D n) ∨ addrs (D' n) = replicate 13 0)) →
  (∀ n, 0 ≤ n < ninodes sb → type (D n) ≠ 0 → type (D' n) ≠ 0 ∧ addrs (D' n) = addrs (D n)) → fs_ok sb co D'.
Proof.
  intros [F1 F2 F3 F4 F5 F6 F7] H1 H2. split; try done.
  - intros n Hn Ht. by apply H1.
  - intros n Hn Ht. destruct (H1 n Hn Ht) as (_ & _ & _ & [[Ht' ->]| ->]); [by apply F4|apply zero_map].
  - intros n Hn Ht. by destruct (H1 n Hn Ht) as (_ & ? & ? & _).
  - intros n n' j j' Hn Hn' Ht Ht' Hj Hj'.
    destruct (H1 n Hn Ht) as (_ & _ & _ & [[T1 ->]| ->]); [|by rewrite slot_zero].
    destruct (H1 n' Hn' Ht') as (_ & _ & _ & [[T2 ->]| ->]); [by apply F6|rewrite (slot_zero co j'); congruence].
  - intros b Hb Hu. destruct (F7 b Hb Hu) as (n & j & Hn & Ht & Hj & E). exists n, j. destruct (H2 n Hn Ht) as [T ->]. done.
Qed.

Lemma rinode_run s co n : coupled s co → 0 ≤ n < NINODES → rinode n s = Ok (disk_inode sb0 co n) s.
Proof.
  intros Hc Hn. unfold rinode, mbind, MK_bind. rewrite sb_eq. pose proof (IBLOCK_range sb0 layout0 n Hn) as [H1 H2].
  change (inodestart sb0) with 32 in H1. change (bmapstart sb0) with 45 in H2. rewrite (coupled_rsect s co) by (done || lia). done.
Qed.

Lemma winode_spec s co n di :
  coupled s co → 0 ≤ n < NINODES → dinode_ok di →
  yields (winode n di) s (λ _ s', ∃ co', inode_stored sb0 co co' n di ∧ coupled s' co' ∧
    freeblock s' = freeblock s ∧ freeinode s' = freeinode s).
Proof.
  intros Hc Hn Hd. unfold winode. rewrite sb_eq. pose proof (IBLOCK_range sb0 layout0 n Hn) as [H1 H2].
  change (inodestart sb0) with 32 in H1. change (bmapstart sb0) with 45 in H2. pose proof (cp_first _ _ Hc). pose proof (ioff_range n).
  ystep. unfold yields at 1. rewrite (coupled_rsect s co) by (done || lia).
  eapply yields_mono; [apply (coupled_wsect s co); [done|lia|lia|]|].
  - apply is_block_put_dinode; [apply Hc|lia|lia|apply Hd].
  - intros _ s' (C1 & C2 & C3). eexists. split; [|done]. apply inode_stored_put; [exact layout0|done|apply Hc|done].
Qed.

Lemma inode_stored_data co co' n di :
  inode_stored sb0 co co' n di → (∀ b, 46 ≤ b → co' b = co b) ∧ (∀ b, 0 ≤ b < FSSIZE → bused sb0 co' b = bused sb0 co b).
Proof.
  intros (_ & _ & Hf). split; intros b Hb.
  - apply Hf. unfold is_iblock. change (bmapstart sb0) with 45. lia.
  - apply bused_ext, Hf. rewrite BBLOCK0 by done. unfold is_iblock. change (bmapstart sb0) with 45. lia.
Qed.

Lemma made_stored s co D s' co' n di :
  made s co D → inode_stored sb0 co co' n di → coupled s' co' →
  made s' co' D ∧ ∀ m, 0 ≤ m < NINODES → type (D m) ≠ 0 → contents co' (D m) = contents co (D m).
Proof.
  intros [M1 M2 M3 M4] Hst Hc. destruct (inode_stored_data _ _ _ _ Hst) as [Hd Hu].
  assert (∀ m, 0 ≤ m < NINODES → type (D m) ≠ 0 → same_file co co' (addrs (D m))) as Hs.
  { intros m Hm Ht. pose proof (λ j, slot_data co _ j (fs_map _ _ _ M2 m Hm Ht)) as Hr. split; intros j.
    - apply slot_ext. intros Hne. apply Hd. apply (Hr (-1)); [unfold place_ok; lia|exact Hne].
    - intros Hj Hne. apply Hd. by apply Hr. }
  assert (∀ m, 0 ≤ m < NINODES → type (D m) ≠ 0 → contents co' (D m) = contents co (D m) ∧
    exact co' (addrs (D m)) (blocks_of (dsize (D m))) ∧ tail_zero co' (D m)) as Hf.
  { intros m Hm Ht. pose proof (do_size _ (fs_dinode _ _ _ M2 m Hm Ht)). pose proof (fs_filled _ _ _ M2 m Hm Ht) as [_ ?].
    destruct (same_file_contents co co' (D m) (Hs m Hm Ht) ltac:(lia) (M3 m Hm Ht)) as (S1 & S2 & S3). auto. }
  split; [split; [done|by apply (fs_ok_disk sb0 co)|..]|]; intros m Hm Ht; by apply Hf.
Qed.

(** Inodes [1 .. freeinode - 1] are in use, and on the disk. *)
Record image (s : mst) (co : disk) (D : Z → dinode) : Prop := {
  im_made : made s co D;
  im_stored n : 0 ≤ n < NINODES → disk_inode sb0 co n = D n;
  im_ino : 1 ≤ freeinode s ≤ NINODES;
  im_used n : 0 ≤ n < NINODES → type (D n) ≠ 0 ↔ 1 ≤ n < freeinode s
}.

Lemma grew_type n l D D' m : grew n l D D' → type (D' m) = type (D m).
Proof. intros [[ad E] Ho]. destruct (decide (m = n)) as [->|]; [by rewrite E|by rewrite Ho]. Qed.

Lemma iappend_spec n l s co D :
  image s co D → 1 ≤ n < freeinode s → Forall is_byte l → room_for n s D (Z.of_nat (length l)) →
  yields (iappend n l) s (λ _ s', ∃ co' D', image s' co' D' ∧ append_done n l s co D s' co' D').
Proof.
  intros [Hm Hst Hi Hus] Hn Hl Hroom. assert (0 ≤ n < NINODES) as Hn' by lia. assert (type (D n) ≠ 0) as Ht by (apply Hus; lia).
  pose proof (do_size _ (fs_dinode _ _ _ (md_fs _ _ _ Hm) n Hn' Ht)) as Hsz.
  unfold iappend. ystep. unfold yields at 1. rewrite (rinode_run s co) by (done || apply Hm). rewrite Hst by done. rewrite xint_small by done.
  replace (D n) with (set_dsize (dsize (D n)) (D n)) at 2 by (by destruct (D n)).
  ycall (iappend_loop_spec n Hn' (dsize (D n)) (length l) l s co D Hm Ht); [lia|done|done|].
  intros [off din] s1 (co1 & D1 & [A2 A3 A4 A5 A6] & A1 & K1 & [= -> ->]). pose proof A2 as [[ad E] Ho].
  pose proof (grew_type n l D D1 n A2) as Ht1. assert (type (D1 n) ≠ 0) as Ht1' by congruence.
  pose proof (fs_dinode _ _ _ (md_fs _ _ _ A1) n Hn' Ht1') as Hd1. pose proof (do_size _ Hd1). rewrite xint_small by done.
  replace (set_dsize _ (set_dsize _ _)) with (D1 n) by (by destruct (D1 n)).
  eapply yields_mono; [apply (winode_spec s1 co1 n (D1 n)); [apply A1|done|done]|].
  intros _ s2 (co2 & W1 & W2 & W3 & W4). destruct (made_stored _ _ _ _ _ _ _ A1 W1 W2) as [M1 M2].
  exists co2, D1. split; split; try done.
  - intros m Hm0. destruct W1 as (S1 & S2 & _). destruct (decide (m = n)) as [->|Hne]; [done|].
    rewrite S2, Ho, <-Hst by done. unfold disk_inode. rewrite K1; [done|]. apply (IBLOCK_range sb0 layout0 m Hm0).
  - by rewrite W4, A6.
  - intros m Hm0. rewrite (grew_type n l D D1 m A2), W4, A6. by apply Hus.
  - by rewrite M2, A3.
  - intros m Hm0 Hne Htm. rewrite <-A4 by done. rewrite <-(Ho m Hne). apply M2; [done|]. by rewrite Ho.
  - by rewrite W3.
  - congruence.
Qed.

Lemma exact_zero co : exact co (replicate 13 0) 0.
Proof. intros j Hj. rewrite slot_zero. unfold place_ok in Hj. case_decide; split; (done || lia). Qed.

Definition new_inode (ty : Z) : dinode := Dinode ty 0 0 1 0 (replicate 13 0).

Lemma ialloc_spec ty s co D :
  image s co D → freeinode s < NINODES → 0 < ty < 2 ^ 15 →
  yields (ialloc ty) s (λ n s', ∃ co', n = freeinode s ∧ image s' co' (upd D n (new_inode ty)) ∧
    (∀ m, 0 ≤ m < NINODES → type (D m) ≠ 0 → m ≠ n ∧ contents co' (D m) = contents co (D m)) ∧
    freeblock s' = freeblock s ∧ freeinode s' = freeinode s + 1).
Proof.
  intros [Hm Hst Hi Hus] Hf Hty. match goal with |- yields _ _ ?Q =>
    change (yields (_ ← winode (freeinode s) (Dinode (xshort ty) 0 0 (xshort 1) (xint 0) (replicate 13 0)); mret (freeinode s))
      (set_freeinode (u32 (freeinode s + 1)) s) Q) end.
  set (n := freeinode s) in *. assert (0 ≤ n < NINODES) as Hn by lia.
  rewrite u32_small, xshort_small by lia. change (xshort 1) with 1. change (xint 0) with 0. fold (new_inode ty).
  assert (dinode_ok (new_inode ty)) as Hd by (split; cbn; try lia; repeat constructor; lia).
  set (s1 := set_freeinode (n + 1) s). assert (coupled s1 co) as Hc1 by (destruct Hm as [[C1 C2 C3 C4 C5 C6 C7] _ _ _]; by split).
  apply yields_bind. eapply yields_mono; [apply (winode_spec s1 co n _ Hc1 Hn Hd)|].
  intros _ s2 (co2 & W1 & W2 & W3 & W4). apply yields_ret. destruct (made_stored _ _ _ _ _ _ _ Hm W1 W2) as [[M1 M2 M3 M5] M4].
  assert (∀ m, 0 ≤ m < NINODES → type (D m) ≠ 0 → m ≠ n) as Hne by (intros m Hm0 Htm; apply Hus in Htm; lia).
  exists co2. split_and!; [done| |by intros; split; auto|by rewrite W3|by rewrite W4].
  destruct W1 as (S1 & S2 & S3). split.
  - split; [done|..].
    + apply (fs_ok_inodes sb0 co2 D); [done|..]; intros m Hm0; unfold upd; case_decide as E.
      * intros _. split_and!; [done| |done|by right]. intros bn Hb Hb2. cbn in Hb2. lia.
      * intros Htm. pose proof (fs_filled _ _ _ M2 m Hm0 Htm) as [F1 F2]. split_and!; try done; [|by left].
        by apply (fs_dinode _ _ _ M2).
      * intros Htm. by destruct (Hne m Hm0 Htm).
      * done.
    + intros m Hm0. unfold upd. case_decide as E; [intros _; apply exact_zero|by apply M3].
    + intros m Hm0. unfold upd. case_decide as E; [|by apply M5]. intros _ p Hp. change (blocks_of _) with 0 in Hp. cbn in Hp. lia.
  - intros m Hm0. unfold upd. case_decide as E; [by subst m|]. by rewrite S2, Hst.
  - rewrite W4. cbn. lia.
  - intros m Hm0. rewrite W4. cbn [freeinode s1 set_freeinode]. unfold upd. case_decide as E.
    + cbn. lia.
    + rewrite (Hus m Hm0). lia.
Qed.

(** ** The files *)

Lemma copy_chunks_spec n chunks s co D :
  image s co D → 1 ≤ n < freeinode s → Forall (Forall is_byte) chunks → room_for n s D (Z.of_nat (length (concat chunks))) →
  yields (copy_chunks n chunks) s (λ _ s', ∃ co' D', image s' co' D' ∧ append_done n (concat chunks) s co D s' co' D').
Proof.
  revert s co D. induction chunks as [|c chunks IH]; intros s co D Him Hn Hb Hroom.
  { apply yields_ret. exists co, D. split; [done|apply append_nil]. }
  cbn [copy_chunks concat] in *. apply Forall_cons in Hb as [Hc Hb]. rewrite length_app, Nat2Z.inj_add in Hroom. destruct Hroom as [R1 R2].
  assert (0 ≤ dsize (D n)) as Hsz.
  { apply (fs_dinode _ _ _ (md_fs _ _ _ (im_made _ _ _ Him)) n); [pose proof (im_ino _ _ _ Him); cbn; lia|].
    apply (im_used _ _ _ Him); pose proof (im_ino _ _ _ Him); lia. }
  pose proof (cost_mono (dsize (D n) + Z.of_nat (length c)) (dsize (D n) + (Z.of_nat (length c) + Z.of_nat (length (concat chunks)))) ltac:(lia)).
  ycall (iappend_spec n c s co D Him Hn Hc); [split; lia|]. intros _ s1 (co1 & D1 & Him1 & A).
  pose proof A as [[[ad E] _] _ _ Hf Hi]. eapply yields_mono; [apply (IH s1 co1 D1 Him1); [lia|done|]|].
  - unfold room_for. rewrite E. cbn [dsize set_dsize]. rewrite Hf. rewrite !Z.add_assoc in *. lia.
  - intros _ s2 (co2 & D2 & Him2 & A2). exists co2, D2. split; [done|]. by eapply append_trans.
Qed.

(** A file to copy: its name and its bytes. *)
Abbreviation entry := (list Z * list Z)%type.

Definition holds (co : disk) (di : dinode) (ty : Z) (l : list Z) : Prop :=
  type di = ty ∧ nlink di = 1 ∧ contents co di = l.

Definition root_bytes (files : list entry) : list Z :=
  dirent ROOTINO (chars ".") ++ dirent ROOTINO (chars "..") ++ concat (imap (λ i f, dirent (2 + Z.of_nat i) f.1) files).

Definition data_blocks (files : list entry) : Z := foldr (λ f k, cost (blocks_of (Z.of_nat (length f.2))) + k) 0 files.

(** The blocks that the files and the root directory take. *)
Definition blocks_for (files : list entry) : Z :=
  cost (blocks_of (DIRENT_SIZE * (2 + Z.of_nat (length files)))) + data_blocks files.

(** The image with the root directory and [files]. *)
Record copied (s : mst) (co : disk) (D : Z → dinode) (files : list entry) : Prop := {
  co_image : image s co D;
  co_ino : freeinode s = 2 + Z.of_nat (length files);
  co_root : holds co (D ROOTINO) T_DIR (root_bytes files);
  co_files i f : files !! i = Some f → holds co (D (2 + Z.of_nat i)) T_FILE f.2;
  co_free : freeblock s = 46 + blocks_for files
}.

Lemma dirent_bytes_length n name : length (dirent n name) = 16%nat.
Proof. unfold dirent. rewrite !length_app, le_bytes_length, length_take, length_replicate. lia. Qed.

Lemma dirent_is_bytes n name : Forall is_byte name → Forall is_byte (dirent n name).
Proof.
  intros Hn. unfold dirent. rewrite !Forall_app. split_and!; [apply le_bytes_bytes|by apply Forall_take|]. by apply Forall_replicate.
Qed.

Lemma root_bytes_app files f : root_bytes (files ++ [f]) = root_bytes files ++ dirent (2 + Z.of_nat (length files)) f.1.
Proof.
  unfold root_bytes. rewrite imap_app, concat_app. assert (∀ g : nat → entry → list Z, concat (imap g [f]) = g 0%nat f) as -> by (intros; apply app_nil_r).
  unfold compose. rewrite Nat.add_0_r. by rewrite !app_assoc.
Qed.

Lemma root_bytes_length files : Z.of_nat (length (root_bytes files)) = DIRENT_SIZE * (2 + Z.of_nat (length files)).
Proof.
  induction files as [|f files IH] using rev_ind; [reflexivity|].
  rewrite root_bytes_app, !length_app, Nat2Z.inj_add, IH, dirent_bytes_length. cbn. lia.
Qed.

Lemma data_blocks_app l1 l2 : data_blocks (l1 ++ l2) = data_blocks l1 + data_blocks l2.
Proof. induction l1 as [|f l1 IH]; cbn [data_blocks app foldr]; [done|]. fold (data_blocks (l1 ++ l2)) (data_blocks l1). lia. Qed.

Lemma holds_size co di ty l : 0 ≤ dsize di → holds co di ty l → dsize di = Z.of_nat (length l).
Proof. intros H0 (_ & _ & <-). unfold contents. rewrite slice_length. lia. Qed.

Lemma cost_nonneg sz : 0 ≤ sz → 0 ≤ cost (blocks_of sz).
Proof. intros Hs. assert (0 ≤ blocks_of sz) by (apply Z.div_pos; lia). unfold cost. case_decide; lia. Qed.

Lemma image_size s co D n : image s co D → 1 ≤ n < freeinode s → 0 ≤ dsize (D n) ∧ type (D n) ≠ 0 ∧ 0 ≤ n < NINODES.
Proof.
  intros Him Hn. pose proof (im_ino _ _ _ Him). assert (0 ≤ n < NINODES) as Hn' by lia.
  assert (type (D n) ≠ 0) as Ht by (apply (im_used _ _ _ Him); lia). split_and!; try done; try lia.
  by apply (fs_dinode _ _ _ (md_fs _ _ _ (im_made _ _ _ Him)) n Hn' Ht).
Qed.

Lemma append_holds n l s co D s' co' D' ty l0 :
  append_done n l s co D s' co' D' → holds co (D n) ty l0 → holds co' (D' n) ty (l0 ++ l).
Proof. intros [[[ad E] _] Hc _ _ _] (H1 & H2 & H3). split_and!; [by rewrite E|by rewrite E|congruence]. Qed.

Lemma append_holds_other n l s co D s' co' D' m ty l0 :
  append_done n l s co D s' co' D' → 0 ≤ m < NINODES → m ≠ n → ty ≠ 0 → holds co (D m) ty l0 → holds co' (D' m) ty l0.
Proof.
  intros [[_ Ho] _ Hk _ _] Hm Hne Hty (H1 & H2 & H3). rewrite (Ho m Hne). split_and!; try done. rewrite <-H3. apply Hk; [done|done|congruence].
Qed.

Definition name_of (path : list Z) : list Z := skip_underscore (short_of path).

Lemma name_of_bytes path : Forall is_byte path → Forall is_byte (name_of path).
Proof.
  intros Hp. assert (Forall is_byte (short_of path)) as Hs by (unfold short_of; case_bool_decide; [by apply Forall_drop|done]).
  unfold name_of, skip_underscore. destruct (short_of path) as [|c r]; [done|]. apply Forall_cons in Hs as [Hc Hr].
  repeat case_match; try (constructor; done); done.
Qed.

(** The host has the file: its name is free of slashes and [open] and [read] succeed. *)
Definition readable (host : list Z → option (list (list Z))) (path data : list Z) : Prop :=
  47 ∉ short_of path ∧ Forall is_byte path ∧
  ∃ chunks, host path = Some chunks ∧ Forall (Forall is_byte) chunks ∧ concat chunks = data.

(** A new inode [n] with its entry in the root directory, and no bytes yet. *)
Record entered (s : mst) (co : disk) (D : Z → dinode) (files : list entry) (n : Z) (name : list Z) : Prop := {
  en_image : image s co D;
  en_ino : n = 2 + Z.of_nat (length files) ∧ freeinode s = n + 1;
  en_root : holds co (D ROOTINO) T_DIR (root_bytes files ++ dirent n name);
  en_files i f : files !! i = Some f → holds co (D (2 + Z.of_nat i)) T_FILE f.2;
  en_new : holds co (D n) T_FILE [];
  en_free : freeblock s = 46 + cost (blocks_of (DIRENT_SIZE * (3 + Z.of_nat (length files)))) + data_blocks files
}.

Lemma add_entry_spec name s co D files :
  copied s co D files → Forall is_byte name → 2 + Z.of_nat (length files) < NINODES →
  46 + cost (blocks_of (DIRENT_SIZE * (3 + Z.of_nat (length files)))) + data_blocks files ≤ FSSIZE →
  yields (n ← ialloc T_FILE; _ ← iappend ROOTINO (dirent n name); mret n) s (λ n s', ∃ co' D', entered s' co' D' files n name).
Proof.
  intros [Him Hi Hroot Hfiles Hfree] Hname Hn Hroom. set (n := freeinode s) in *. assert (2 ≤ n < NINODES) as Hnr by lia.
  ycall (ialloc_spec T_FILE s co D Him); [lia|done|]. intros n' s1 (co1 & -> & Him1 & Hk1 & Hf1 & Hi1). fold n in Him1, Hk1, Hi1. fold n.
  set (D1 := upd D n (new_inode T_FILE)) in *.
  assert (∀ m ty l, ty ≠ 0 → 0 ≤ m < NINODES → holds co (D m) ty l → holds co1 (D1 m) ty l) as Hkeep1.
  { intros m ty l Hty Hm (H1 & H2 & H3). destruct (Hk1 m Hm) as [Hne Hc]; [congruence|]. unfold D1. rewrite upd_ne by done. split_and!; congruence. }
  pose proof (Hkeep1 ROOTINO T_DIR _ ltac:(done) ltac:(done) Hroot) as Hroot1.
  destruct (image_size s1 co1 D1 ROOTINO Him1 ltac:(unfold ROOTINO; lia)) as (Hrs & Hrt & Hrn).
  pose proof (holds_size _ _ _ _ Hrs Hroot1) as Hrs1. rewrite root_bytes_length in Hrs1.
  assert (DIRENT_SIZE * (2 + Z.of_nat (length files)) + Z.of_nat 16 = DIRENT_SIZE * (3 + Z.of_nat (length files))) as Hsz by lia.
  ycall (iappend_spec ROOTINO (dirent n name) s1 co1 D1 Him1); [unfold ROOTINO; lia|by apply dirent_is_bytes| |].
  { unfold room_for. rewrite dirent_bytes_length, Hrs1, Hf1, Hfree, Hsz. unfold blocks_for. lia. }
  intros _ s2 (co2 & D2 & Him2 & A). pose proof A as [_ _ _ Hf2 Hi2]. apply yields_ret. exists co2, D2.
  rewrite dirent_bytes_length, Hrs1, Hsz in Hf2. split; [done|split; [done|congruence]|..].
  - by eapply append_holds.
  - intros i f Hif. pose proof (lookup_lt_Some _ _ _ Hif).
    eapply append_holds_other; [exact A|lia|unfold ROOTINO; lia|done|]. apply Hkeep1; [done|lia|by apply Hfiles].
  - eapply append_holds_other; [exact A|lia|unfold ROOTINO; lia|done|]. unfold D1. by rewrite upd_eq.
  - rewrite Hf2, Hf1, Hfree. unfold blocks_for. lia.
Qed.

Lemma blocks_for_app files f :
  blocks_for (files ++ [f]) = cost (blocks_of (DIRENT_SIZE * (3 + Z.of_nat (length files)))) + data_blocks files + cost (blocks_of (Z.of_nat (length f.2))).
Proof.
  unfold blocks_for. rewrite data_blocks_app, length_app. cbn [data_blocks foldr length]. rewrite Nat2Z.inj_add, Z.add_0_r.
  replace (2 + (Z.of_nat (length files) + Z.of_nat 1)) with (3 + Z.of_nat (length files)) by lia. lia.
Qed.

Lemma copy_data_spec n name chunks s co D files :
  entered s co D files n name → Forall (Forall is_byte) chunks → let files' := files ++ [(name, concat chunks)] in
  Z.of_nat (length (concat chunks)) ≤ MAXFILE * BSIZE → 46 + blocks_for files' ≤ FSSIZE →
  yields (copy_chunks n chunks) s (λ _ s', ∃ co' D', copied s' co' D' files').
Proof.
  intros [Him [Hn Hi] Hroot Hfiles Hnew Hfree] Hcb files' Hsz Hroom. unfold files' in *. rewrite blocks_for_app in Hroom. cbn [snd] in Hroom.
  destruct (image_size s co D n Him ltac:(lia)) as (Hns & _ & Hnr). pose proof (holds_size _ _ _ _ Hns Hnew) as Hns2.
  change (Z.of_nat (length [])) with 0 in Hns2.
  eapply yields_mono; [apply (copy_chunks_spec n chunks s co D Him); [lia|done|]|].
  { unfold room_for. rewrite Hns2, Z.add_0_l. change (cost (blocks_of 0)) with 0. lia. }
  intros _ s3 (co3 & D3 & Him3 & A3). pose proof A3 as [_ _ _ Hf3 Hi3]. rewrite Hns2, Z.add_0_l in Hf3.
  change (cost (blocks_of 0)) with 0 in Hf3. exists co3, D3. split; [done|..].
  - rewrite length_app. cbn [length]. lia.
  - eapply append_holds_other; [exact A3|done|unfold ROOTINO; lia|done|]. rewrite root_bytes_app. by rewrite <-Hn.
  - intros i f [Hif|[Hge Hif]]%lookup_app_Some.
    + pose proof (lookup_lt_Some _ _ _ Hif). eapply append_holds_other; [exact A3|lia|lia|done|by apply Hfiles].
    + apply list_lookup_singleton_Some in Hif as [Hi0 <-]. replace (2 + Z.of_nat i) with n by lia.
      eapply (append_holds _ _ _ _ _ _ _ _ T_FILE []); done.
  - rewrite blocks_for_app. cbn [snd]. lia.
Qed.

Lemma add_file_spec host path data s co D files :
  copied s co D files → readable host path data → let files' := files ++ [(name_of path, data)] in
  2 + Z.of_nat (length files) < NINODES → Z.of_nat (length data) ≤ MAXFILE * BSIZE → 46 + blocks_for files' ≤ FSSIZE →
  yields (add_file host ROOTINO path) s (λ _ s', ∃ co' D', copied s' co' D' files').
Proof.
  intros Hco (Hsl & Hpb & chunks & Hhost & Hcb & <-) files' Hn Hsz Hroom.
  pose proof (cost_nonneg (Z.of_nat (length (concat chunks))) ltac:(lia)). pose proof Hroom as Hroom'.
  unfold files' in Hroom'. rewrite blocks_for_app in Hroom'. cbn [snd] in Hroom'.
  unfold add_file. ystep. unfold assert_, yields at 1. rewrite bool_decide_true by done. rewrite Hhost.
  pose proof (add_entry_spec (name_of path) s co D files Hco (name_of_bytes _ Hpb) Hn ltac:(lia)) as He.
  unfold yields, mbind, MK_bind in *. destruct (ialloc T_FILE s) as [n s1| | |]; try done. fold (name_of path).
  destruct (iappend ROOTINO (dirent n (name_of path)) s1) as [[] s2| | |]; try done. destruct He as (co2 & D2 & He).
  by apply (copy_data_spec n (name_of path) chunks s2 co2 D2 files).
Qed.

Lemma data_blocks_nonneg files : 0 ≤ data_blocks files.
Proof.
  induction files as [|f files IH]; cbn [data_blocks foldr]; [done|]. pose proof (cost_nonneg (Z.of_nat (length f.2)) ltac:(lia)).
  fold (data_blocks files). lia.
Qed.

Lemma blocks_for_mono l1 l2 : blocks_for l1 ≤ blocks_for (l1 ++ l2).
Proof.
  unfold blocks_for. rewrite data_blocks_app, length_app. pose proof (data_blocks_nonneg l2).
  pose proof (cost_mono (DIRENT_SIZE * (2 + Z.of_nat (length l1))) (DIRENT_SIZE * (2 + Z.of_nat (length l1 + length l2))) ltac:(lia)). lia.
Qed.

Lemma add_files_spec host paths datas s co D files :
  copied s co D files → Forall2 (readable host) paths datas → let files' := files ++ zip (name_of <$> paths) datas in
  1 + Z.of_nat (length files') < NINODES → Forall (λ data, Z.of_nat (length data) ≤ MAXFILE * BSIZE) datas → 46 + blocks_for files' ≤ FSSIZE →
  yields (add_files host ROOTINO paths) s (λ _ s', ∃ co' D', copied s' co' D' files').
Proof.
  intros Hco Hr. revert s co D files Hco. induction Hr as [|path data paths datas Hr1 Hr IH]; intros s co D files Hco files' Hn Hsz Hroom.
  { apply yields_ret. exists co, D. unfold files'. cbn. by rewrite app_nil_r. }
  apply Forall_cons in Hsz as [Hsz1 Hsz]. cbn [add_files]. unfold files' in *. clear files'. cbn [fmap list_fmap zip_with] in *.
  rewrite cons_middle, app_assoc in *. set (files1 := files ++ [(name_of path, data)]) in *.
  rewrite length_app in Hn. assert (length files1 = S (length files)) as Hl1 by (unfold files1; rewrite length_app; cbn; lia).
  ycall (add_file_spec host path data s co D files Hco Hr1); [lia|done| |].
  { fold files1. etrans; [|exact Hroom]. apply Z.add_le_mono_l, blocks_for_mono. }
  intros _ s1 (co1 & D1 & Hco1). apply (IH s1 co1 D1 files1 Hco1); [|done|done]. rewrite length_app. lia.
Qed.

(** ** The start *)

Lemma zero_loop_run k i s : 0 ≤ i → i + Z.of_nat k ≤ FSSIZE →
  yields (zero_loop k i) s (λ _ s', (∀ b, sect s' b = if decide (i ≤ b < i + Z.of_nat k) then zero_block else sect s b) ∧
    nsect s' = (if decide (k = 0%nat) then nsect s else Z.max (nsect s) (i + Z.of_nat k)) ∧ freeblock s' = freeblock s ∧ freeinode s' = freeinode s).
Proof.
  revert i s. induction k as [|k IH]; intros i s Hi Hk; cbn [zero_loop].
  { apply yields_ret. split_and!; try done. intros b. by rewrite decide_False by lia. }
  ystep. unfold wsect, yields at 1. rewrite at_sector_small by lia. eapply yields_mono; [apply IH; lia|].
  intros _ s' (H1 & H2 & H3 & H4). cbn [sect nsect freeblock freeinode] in *. split_and!; try done.
  - intros b. rewrite H1. unfold upd. repeat case_decide; (done || lia).
  - rewrite H2. repeat case_decide; lia.
Qed.

Lemma balloc_loop_bits k i x :
  is_block x → 0 ≤ i → i + Z.of_nat k ≤ BPB →
  is_block (balloc_loop k i x) ∧
  ∀ j, 0 ≤ j < BPB → bit_free (balloc_loop k i x) j = if decide (i ≤ j < i + Z.of_nat k) then false else bit_free x j.
Proof.
  revert i x. induction k as [|k IH]; intros i x Hx Hi Hk.
  { split; [done|]. intros j Hj. by rewrite decide_False by lia. }
  cbn [balloc_loop]. change (put8 x (i / 8) _) with (set_bit x i).
  destruct (IH (i + 1) (set_bit x i)) as [H1 H2]; [apply is_block_bits; [done|lia]|lia|lia|].
  split; [done|]. intros j Hj. rewrite H2, bit_free_set by (done || lia). repeat case_decide; (done || lia).
Qed.

(** The bits of the bitmap that [balloc] writes. *)
Lemma balloc_bits co used b :
  0 ≤ used ≤ FSSIZE → co 45 = balloc_loop (Z.to_nat used) 0 zero_block → 0 ≤ b < FSSIZE → bused sb0 co b = bool_decide (b < used).
Proof.
  intros Hu Hco Hb. unfold bused. rewrite BBLOCK0, Hco, Z.mod_small by lia.
  destruct (balloc_loop_bits (Z.to_nat used) 0 zero_block zero_block_ok) as [_ ->]; [lia|lia| |lia].
  case_decide; [rewrite bool_decide_true by lia; done|]. rewrite bool_decide_false by lia. rewrite bit_free_test by lia.
  unfold get8, zero_block. rewrite lookup_total_replicate_2, Z.bits_0; [done|].
  pose proof (Z.div_lt_upper_bound b 8 BSIZE). pose proof (Z.div_pos b 8). lia.
Qed.

Lemma super_bytes_ok : is_block super_bytes.
Proof. unfold super_bytes, put_words. apply is_block_put_at; [apply zero_block_ok|done|done|apply words_bytes_bytes]. Qed.

Lemma super_read : get_superblock super_bytes = sb0.
Proof. vm_compute. reflexivity. Qed.

(** The image before the first inode. *)
Lemma start_image s :
  (∀ b, sect s b = if decide (b = 1) then super_bytes else zero_block) → nsect s = FSSIZE → freeblock s = 46 → freeinode s = 1 →
  ∃ co, image s co (λ _, dnode0).
Proof.
  intros Hs Hn Hf Hi. set (co := upd (sect s) 45 (balloc_loop 46 0 zero_block)). exists co.
  assert (∀ b, 0 ≤ b < FSSIZE → bused sb0 co b = bool_decide (b < 46)) as Hbits by (intros b Hb; by apply (balloc_bits co 46)).
  assert (∀ b, b ≠ 45 → co b = sect s b) as Hco by (intros b Hb; unfold co; by rewrite upd_ne).
  split; [split|..].
  - split; rewrite ?Hf; try done; try lia.
    + intros b. unfold co, upd. case_decide.
      * apply (balloc_loop_bits 46 0 zero_block zero_block_ok); lia.
      * rewrite Hs. case_decide; [apply super_bytes_ok|apply zero_block_ok].
    + intros b Hb. rewrite Hco, Hs by lia. by rewrite decide_False by lia.
    + intros b Hb. by rewrite Hco, Hs by lia.
  - split; try done.
    + intros b Hb. change (datastart sb0) with 46 in Hb. rewrite Hbits by lia. apply bool_decide_true. lia.
    + intros b Hb. change (datastart sb0) with 46 in Hb. change (size sb0) with FSSIZE in Hb. rewrite Hbits by lia. intros ?%bool_decide_eq_true. lia.
  - done.
  - done.
  - intros n Hn0. pose proof (IBLOCK_range sb0 layout0 n Hn0) as [H1 H2]. change (inodestart sb0) with 32 in H1. change (bmapstart sb0) with 45 in H2.
    unfold disk_inode. rewrite Hco, Hs, decide_False by lia. pose proof (ioff_range n) as Hr.
    rewrite (get_dinode_ext zero_block zero_block _ 0); [vm_compute; reflexivity|lia|lia|].
    unfold get_at, zero_block. rewrite !drop_replicate, !take_replicate. f_equal. lia.
  - lia.
  - intros n Hn0. rewrite Hi. cbn. lia.
Qed.

(** ** The end *)

(** The size that [fix_root] gives the root directory. *)
Definition root_size (files : list entry) : Z := (DIRENT_SIZE * (2 + Z.of_nat (length files)) / BSIZE + 1) * BSIZE.

(** The image after [fix_root]. *)
Record fixed (s : mst) (co : disk) (D : Z → dinode) (files : list entry) : Prop := {
  fx_coupled : coupled s co;
  fx_stored n : 0 ≤ n < NINODES → disk_inode sb0 co n = D n;
  fx_used n : 0 ≤ n < NINODES → type (D n) ≠ 0 ↔ 1 ≤ n < 2 + Z.of_nat (length files);
  fx_map n : 0 ≤ n < NINODES → type (D n) ≠ 0 → map_ok sb0 co (addrs (D n));
  fx_fs : DIRENT_SIZE * (2 + Z.of_nat (length files)) mod BSIZE ≠ 0 → fs_ok sb0 co D ∧
    holds co (D ROOTINO) T_DIR (root_bytes files ++ replicate (Z.to_nat (root_size files - DIRENT_SIZE * (2 + Z.of_nat (length files)))) 0);
  fx_hole : let e := DIRENT_SIZE * (2 + Z.of_nat (length files)) in e mod BSIZE = 0 →
    type (D ROOTINO) = T_DIR ∧ dsize (D ROOTINO) = e + BSIZE ∧ exact co (addrs (D ROOTINO)) (e / BSIZE) ∧
    slice co (addrs (D ROOTINO)) 0 (Z.to_nat e) = root_bytes files;
  fx_files i f : files !! i = Some f → holds co (D (2 + Z.of_nat i)) T_FILE f.2;
  fx_free : freeblock s = 46 + blocks_for files
}.

Lemma contents_grow co di sz :
  0 ≤ dsize di ≤ sz → (∀ p, dsize di ≤ p < sz → file_byte co (addrs di) p = 0) →
  contents co (set_dsize sz di) = contents co di ++ replicate (Z.to_nat (sz - dsize di)) 0.
Proof.
  intros Hs Hz. unfold contents. cbn [dsize set_dsize addrs].
  replace (Z.to_nat sz) with (Z.to_nat (dsize di) + Z.to_nat (sz - dsize di))%nat by lia. rewrite slice_app. f_equal.
  apply list_eq. intros i. destruct (decide (i < Z.to_nat (sz - dsize di))%nat) as [Hi|Hi].
  - rewrite lookup_slice, lookup_replicate_2 by done. f_equal. apply Hz. lia.
  - rewrite !lookup_ge_None_2; [done|rewrite length_replicate; lia|rewrite slice_length; lia].
Qed.

Lemma fix_root_spec s co D files :
  copied s co D files → 2 + Z.of_nat (length files) ≤ NINODES →
  yields (fix_root ROOTINO) s (λ _ s', ∃ co' D', fixed s' co' D' files).
Proof.
  intros [Him Hi Hroot Hfiles Hfree] Hn. unfold fix_root. pose proof Him as [Hm Hst Hino Hus]. pose proof Hm as [Hc Hok Hex Htl].
  destruct (image_size s co D ROOTINO Him ltac:(unfold ROOTINO; lia)) as (Hrs & Hrt & Hrn).
  pose proof (holds_size _ _ _ _ Hrs Hroot) as Hsz. rewrite root_bytes_length in Hsz. set (off := DIRENT_SIZE * (2 + Z.of_nat (length files))) in *.
  pose proof (Z.div_mod off BSIZE ltac:(lia)). pose proof (Z.mod_pos_bound off BSIZE ltac:(lia)).
  ystep. unfold yields at 1. rewrite (rinode_run s co) by done. rewrite Hst, Hsz, (xint_small off), u32_small, xint_small by (done || lia).
  set (sz := (off / BSIZE + 1) * BSIZE). set (di := set_dsize sz (D ROOTINO)).
  assert (dinode_ok di) as Hdi by (destruct (fs_dinode _ _ _ Hok ROOTINO Hrn Hrt) as [D1 D2 D3 D4 D5 D6 D7]; split; try done; cbn; lia).
  eapply yields_mono; [by apply (winode_spec s co ROOTINO di)|]. intros _ s2 (co2 & W1 & W2 & W3 & W4).
  destruct (made_stored _ _ _ _ _ _ _ Hm W1 W2) as [[M1 M2 M3 M4] M5]. pose proof (M3 ROOTINO Hrn Hrt) as Hexr. rewrite Hsz in Hexr.
  exists co2, (upd D ROOTINO di). destruct W1 as (S1 & S2 & _). split.
  - done.
  - intros n Hn0. unfold upd. case_decide as E; [by subst n|]. by rewrite S2, Hst.
  - intros n Hn0. rewrite <-Hi, <-(Hus n Hn0). unfold upd. case_decide as E; [by subst n|done].
  - intros n Hn0. unfold upd. case_decide as E; [intros _; by apply (fs_map _ _ _ M2 ROOTINO)|by apply (fs_map _ _ _ M2)].
  - intros Hmod. fold off in Hmod |- *. assert (blocks_of off = off / BSIZE + 1) as Hb.
    { destruct (blocks_of_here off ltac:(lia)) as [E|E]; [|done]. pose proof (blocks_of_bounds off ltac:(lia)). lia. }
    rewrite upd_eq. rewrite Hb in Hexr. split.
    + apply (fs_ok_inodes sb0 co2 D); [done|..]; intros n Hn0; unfold upd; case_decide as E; [|intros Htn|by subst n|done].
      * intros _. split_and!; [done| |cbn; lia|left; by subst n]. intros bn Hb1 Hb2. cbn in Hb2. apply Hexr; [unfold place_ok; lia|].
        rewrite decide_False by lia. lia.
      * pose proof (fs_filled _ _ _ M2 n Hn0 Htn) as [F1 F2]. split_and!; [by apply (fs_dinode _ _ _ M2)|done|done|by left].
    + destruct Hroot as (R1 & R2 & R3). split_and!; [done|done|]. unfold di. rewrite contents_grow; rewrite Hsz.
      * by rewrite M5, R3.
      * lia.
      * intros p Hp. apply (M4 ROOTINO Hrn Hrt). rewrite Hsz, Hb. lia.
  - fold off. intros e Hmod. unfold e in *. rewrite upd_eq. destruct Hroot as (R1 & _ & R3). split_and!; [done|cbn; lia| |].
    + assert (blocks_of off = off / BSIZE) as Hb; [|by rewrite Hb in Hexr]. pose proof (blocks_of_bounds off ltac:(lia)).
      destruct (blocks_of_here off ltac:(lia)); lia.
    + rewrite <-R3, <-(M5 ROOTINO Hrn Hrt). unfold contents. by rewrite Hsz.
  - intros i f Hif. pose proof (lookup_lt_Some _ _ _ Hif). rewrite upd_ne by (unfold ROOTINO; lia). destruct (Hfiles i f Hif) as (F1 & F2 & F3).
    split_and!; try done. rewrite M5; [done|lia|]. by rewrite F1.
  - by rewrite W3.
Qed.

(** What the image must contain, but for the consistency of the root
    directory. *)
Record mkfs_image (img : disk) (files : list entry) : Prop := {
  mi_block b : is_block (img b);
  mi_super : get_superblock (img 1) = sb0;
  mi_log b : 2 ≤ b < 32 → img b = zero_block;
  mi_inodes n : 0 ≤ n < NINODES → type (disk_inode sb0 img n) ≠ 0 ↔ 1 ≤ n < 2 + Z.of_nat (length files);
  mi_bits b : 0 ≤ b < FSSIZE → bused sb0 img b = bool_decide (b < 46 + blocks_for files)
}.

(** [img] is [co] with the bitmap that [balloc] writes. *)
Record same_image (co img : disk) : Prop := {
  sm_blocks b : b ≠ 45 → img b = co b;
  sm_bits b : 0 ≤ b < FSSIZE → bused sb0 img b = bused sb0 co b
}.

Lemma bitmap_written s co :
  coupled s co →
  yields (used ← get_freeblock; balloc used) s (λ _ s', nsect s' = FSSIZE ∧ (∀ b, is_block (sect s' b)) ∧ same_image co (sect s')).
Proof.
  intros [C1 C2 C3 C4 C5 C6 C7]. ystep. unfold get_freeblock, yields at 1. unfold balloc. ystep. unfold assert_, yields at 1. if_true.
  unfold wsect, yields. rewrite sb_eq. change (at_sector (bmapstart sb0)) with 45. cbn [sect].
  destruct (balloc_loop_bits (Z.to_nat (freeblock s)) 0 zero_block zero_block_ok) as [Hb _]; [lia|lia|].
  split; [cbn [nsect]; rewrite C1; done|]. split; [|split].
  - intros b. unfold upd. case_decide; [done|]. rewrite <-C3 by done. apply C2.
  - intros b Hne. rewrite upd_ne by done. by rewrite C3.
  - intros b Hb0. rewrite C4 by done. apply balloc_bits; [lia| |done]. by rewrite upd_eq.
Qed.

Section same.
  Context (co img : disk) (Hsm : same_image co img).

Lemma same_inode n : 0 ≤ n < NINODES → disk_inode sb0 img n = disk_inode sb0 co n.
Proof using Hsm.
  intros Hn. unfold disk_inode. rewrite (sm_blocks _ _ Hsm); [done|]. pose proof (IBLOCK_range sb0 layout0 n Hn) as [_ H2].
  change (bmapstart sb0) with 45 in H2. lia.
Qed.

Lemma same_slot ad j : map_ok sb0 co ad → slot img ad j = slot co ad j.
Proof using Hsm.
  intros Hm. apply slot_ext. intros Hne. apply (sm_blocks _ _ Hsm). pose proof (slot_data co ad (-1) Hm ltac:(unfold place_ok; lia) Hne).
  change (slot co ad (-1)) with (ad !!! 12%nat) in *. lia.
Qed.

Lemma same_slice ad n : map_ok sb0 co ad → filled co ad (Z.of_nat n) → Z.of_nat n ≤ MAXFILE * BSIZE → slice img ad 0 n = slice co ad 0 n.
Proof using Hsm.
  intros Hm Hf Hmax. apply list_eq. intros i.
  destruct (decide (i < n)%nat) as [Hi|]; [|by rewrite !lookup_ge_None_2 by (rewrite slice_length; lia)].
  rewrite !lookup_slice by done. f_equal. unfold file_byte. rewrite same_slot by done. f_equal. apply (sm_blocks _ _ Hsm).
  pose proof (Z.div_mod (0 + Z.of_nat i) BSIZE ltac:(lia)). pose proof (Z.mod_pos_bound (0 + Z.of_nat i) BSIZE ltac:(lia)).
  pose proof (slot_data co ad ((0 + Z.of_nat i) / BSIZE) Hm ltac:(unfold place_ok; lia) ltac:(apply Hf; lia)). lia.
Qed.

Lemma same_holds di ty l : map_ok sb0 co (addrs di) → filled co (addrs di) (dsize di) → dsize di ≤ MAXFILE * BSIZE →
  holds co di ty l → holds img di ty l.
Proof using Hsm.
  intros Hm Hf Hmax (H1 & H2 & <-). split_and!; try done. apply same_slice; [done| |lia]. intros bn Hb1 Hb2. apply Hf; lia.
Qed.

Lemma same_fs D : fs_ok sb0 co D → (∀ n, 0 ≤ n < NINODES → disk_inode sb0 img n = D n) → fs_ok sb0 img (disk_inode sb0 img).
Proof using Hsm.
  intros Hok HD. assert (fs_ok sb0 img D) as Hok'.
  { apply (fs_ok_disk sb0 co); [done| |apply Hsm]. intros b Hb. change (datastart sb0) with 46 in Hb. apply (sm_blocks _ _ Hsm). lia. }
  apply (fs_ok_inodes sb0 img D); [done|..]; intros n Hn Ht; rewrite (HD n Hn) in *; [|done].
  destruct (fs_filled _ _ _ Hok' n Hn Ht). split_and!; try done; [by apply (fs_dinode _ _ _ Hok')|by left].
Qed.
End same.

Lemma fixed_image s co D files img :
  fixed s co D files → (∀ b, is_block (img b)) → same_image co img → mkfs_image img files.
Proof.
  intros Hfx Hb Hsm. split.
  - done.
  - rewrite (sm_blocks _ _ Hsm), (cp_head _ _ (fx_coupled _ _ _ _ Hfx)) by lia. apply super_read.
  - intros b Hr. rewrite (sm_blocks _ _ Hsm), (cp_head _ _ (fx_coupled _ _ _ _ Hfx)) by lia. by rewrite decide_False by lia.
  - intros n Hn. rewrite (same_inode co img Hsm), (fx_stored _ _ _ _ Hfx) by done. by apply (fx_used _ _ _ _ Hfx).
  - intros b Hr. rewrite (sm_bits _ _ Hsm), (cp_bits _ _ (fx_coupled _ _ _ _ Hfx)) by done. by rewrite (fx_free _ _ _ _ Hfx).
Qed.

(** The root directory, with its first two entries. *)
Lemma root_spec s co :
  image s co (λ _, dnode0) → freeinode s = 1 → freeblock s = 46 →
  yields (r ← ialloc T_DIR; _ ← assert_ (r =? ROOTINO); _ ← iappend r (dirent r (chars ".")); _ ← iappend r (dirent r (chars "..")); mret r) s
    (λ r s', r = ROOTINO ∧ ∃ co' D', copied s' co' D' []).
Proof.
  intros Him Hi Hf. ycall (ialloc_spec T_DIR s co _ Him); [lia|done|]. intros r s1 (co1 & -> & Him1 & _ & Hf1 & Hi1). rewrite Hi in *.
  ystep. unfold assert_, yields at 1. change (1 =? ROOTINO) with true. cbv iota. set (D1 := upd _ 1 (new_inode T_DIR)) in *.
  assert (D1 1 = new_inode T_DIR) as HD1 by apply upd_eq. assert (holds co1 (D1 1) T_DIR []) as H1 by (rewrite HD1; done).
  ycall (iappend_spec 1 (dirent 1 (chars ".")) s1 co1 D1 Him1); [lia|apply dirent_is_bytes; repeat constructor; done| |].
  { unfold room_for. rewrite HD1, dirent_bytes_length. cbn [dsize new_inode]. rewrite Hf1, Hf. vm_compute. split; congruence. }
  intros _ s2 (co2 & D2 & Him2 & A2). pose proof A2 as [[[ad2 E2] _] _ _ Hf2 Hi2]. pose proof (append_holds _ _ _ _ _ _ _ _ T_DIR [] A2 H1) as H2.
  rewrite HD1, dirent_bytes_length in E2, Hf2. cbn [dsize new_inode] in E2, Hf2.
  ycall (iappend_spec 1 (dirent 1 (chars "..")) s2 co2 D2 Him2); [lia|apply dirent_is_bytes; repeat constructor; done| |].
  { unfold room_for. rewrite E2, dirent_bytes_length, Hf2, Hf1, Hf. vm_compute. split; congruence. }
  intros _ s3 (co3 & D3 & Him3 & A3). pose proof A3 as [_ _ _ Hf3 Hi3]. pose proof (append_holds _ _ _ _ _ _ _ _ T_DIR _ A3 H2) as H3.
  apply yields_ret. split; [done|]. exists co3, D3. split; [done|cbn; lia|exact H3|done|].
  rewrite Hf3, E2, dirent_bytes_length, Hf2, Hf1, Hf. reflexivity.
Qed.

Lemma main_spec host paths datas :
  Forall2 (readable host) paths datas → let files := zip (name_of <$> paths) datas in
  2 + Z.of_nat (length files) ≤ NINODES → Forall (λ data, Z.of_nat (length data) ≤ MAXFILE * BSIZE) datas → 46 + blocks_for files ≤ FSSIZE →
  yields (main host paths) empty_image (λ _ s', ∃ s co D, fixed s co D files ∧ nsect s' = FSSIZE ∧ (∀ b, is_block (sect s' b)) ∧ same_image co (sect s')).
Proof.
  intros Hr files Hn Hsz Hroom. unfold main. ystep. unfold modify_, yields at 1.
  ycall zero_loop_run; [lia|done|]. intros _ s1 (Z1 & Z2 & Z3 & Z4). cbn [sect nsect freeblock freeinode set_freeblock empty_image] in *.
  ystep. unfold wsect, yields at 1. change (at_sector 1) with 1. set (s2 := Mst _ _ _ _).
  destruct (start_image s2) as [co Him].
  { intros b. cbn [sect s2]. unfold upd. rewrite Z1. by repeat case_decide. }
  { cbn [nsect s2]. rewrite Z2. reflexivity. } { cbn [freeblock s2]. rewrite Z3. reflexivity. } { cbn [freeinode s2]. by rewrite Z4. }
  pose proof (root_spec s2 co Him) as Hroot. cbn [freeinode freeblock s2] in Hroot. specialize (Hroot Z4). rewrite Z3 in Hroot. specialize (Hroot eq_refl).
  unfold yields, mbind, MK_bind in Hroot. ystep. unfold yields at 1. destruct (ialloc T_DIR s2) as [r s3| | |]; try done.
  ystep. unfold yields at 1. destruct (assert_ (r =? ROOTINO) s3) as [[] s4| | |]; try done.
  ystep. unfold yields at 1. destruct (iappend r (dirent r (chars ".")) s4) as [[] s5| | |]; try done.
  ystep. unfold yields at 1. destruct (iappend r (dirent r (chars "..")) s5) as [[] s6| | |]; try done.
  destruct Hroot as (-> & co6 & D6 & Hco6).
  ycall (add_files_spec host paths datas s6 co6 D6 [] Hco6 Hr); [cbn; fold files; lia|done|done|]. intros _ s7 (co7 & D7 & Hco7).
  ycall (fix_root_spec s7 co7 D7 files Hco7); [lia|]. intros _ s8 (co8 & D8 & Hfx).
  eapply yields_mono; [apply (bitmap_written s8 co8), Hfx|]. intros [] s9 H9. by exists s8, co8, D8.
Qed.

(** The files as the kernel will find them: [img] is consistent, its root
    directory has the entries, filled up with empty ones, and each file has
    its bytes; no other inode is in use. *)
Record file_system (img : disk) (files : list entry) : Prop := {
  fy_image : mkfs_image img files;
  fy_fs : fs_ok sb0 img (disk_inode sb0 img);
  fy_root : holds img (disk_inode sb0 img ROOTINO) T_DIR
    (root_bytes files ++ replicate (Z.to_nat (root_size files - DIRENT_SIZE * (2 + Z.of_nat (length files)))) 0);
  fy_files i f : files !! i = Some f → holds img (disk_inode sb0 img (2 + Z.of_nat i)) T_FILE f.2;
  fy_used n : 0 ≤ n < NINODES → type (disk_inode sb0 img n) ≠ 0 ↔ 1 ≤ n < 2 + Z.of_nat (length files)
}.

Lemma fixed_file_system s co D files img :
  fixed s co D files → (∀ b, is_block (img b)) → same_image co img → 2 + Z.of_nat (length files) ≤ NINODES →
  (2 + Z.of_nat (length files)) mod 64 ≠ 0 → file_system img files.
Proof.
  intros Hfx Hb Hsm Hn Hmod. destruct (fx_fs _ _ _ _ Hfx) as [Hok Hroot].
  { change BSIZE with (DIRENT_SIZE * 64). rewrite Z.mul_mod_distr_l by lia. lia. }
  assert (∀ n, 0 ≤ n < NINODES → disk_inode sb0 img n = D n) as HD.
  { intros n Hn0. rewrite (same_inode co img Hsm) by done. by apply (fx_stored _ _ _ _ Hfx). }
  assert (∀ n ty l, 0 ≤ n < NINODES → ty ≠ 0 → holds co (D n) ty l → holds img (disk_inode sb0 img n) ty l) as Hh.
  { intros n ty l Hn0 Hty Hl. rewrite (HD n Hn0). assert (type (D n) ≠ 0) as Ht by (destruct Hl as (-> & _); done).
    destruct (fs_filled _ _ _ Hok n Hn0 Ht). apply (same_holds co); [done|by apply (fs_map _ _ _ Hok)|done|done|done]. }
  split.
  - by apply (fixed_image s co D).
  - by apply (same_fs co img Hsm D).
  - by apply Hh.
  - intros i f Hif. pose proof (lookup_lt_Some _ _ _ Hif). apply Hh; [lia|done|by apply (fx_files _ _ _ _ Hfx)].
  - intros n Hn0. rewrite (HD n Hn0). by apply (fx_used _ _ _ _ Hfx).
Qed.

(** C19: [mkfs] makes a consistent file system.  For files that the host can
    read, at most 198, none longer than [MAXFILE] blocks and all of them within
    the size of the disk, [main] ends without an error; the super block, the
    empty log and the bitmap are as the kernel expects them, the root directory
    has the entries [.], [..] and one for each file, and each file has the
    bytes that were read.  The number of entries must not be a multiple of the
    64 that fill a block. *)
Theorem mkfs_makes host paths datas :
  Forall2 (readable host) paths datas → let files := zip (name_of <$> paths) datas in
  (length files ≤ 198)%nat → Forall (λ data, Z.of_nat (length data) ≤ MAXFILE * BSIZE) datas → 46 + blocks_for files ≤ FSSIZE →
  (2 + Z.of_nat (length files)) mod 64 ≠ 0 →
  yields (main host paths) empty_image (λ _ s', nsect s' = FSSIZE ∧ file_system (sect s') files).
Proof.
  intros Hr files Hn Hsz Hroom Hmod. eapply yields_mono; [apply (main_spec host paths datas); [done|fold files; lia|done|done]|].
  intros _ s' (s & co & D & Hfx & Hns & Hb & Hsm).
  split; [done|]. apply (fixed_file_system s co D); [done|done|done|lia|done].
Qed.

(** C28: When the number of entries of the root directory is a multiple of 64,
    [mkfs] counts a block for it that it does not have.  The entries take [e]
    bytes and fill their blocks, but the size of the inode is [e + BSIZE]; the
    blocks of the entries are there, with the entries, the address of the
    next block is 0.  So the image, as it should be otherwise, is not a
    consistent file system. *)
Theorem mkfs_root_hole host paths datas :
  Forall2 (readable host) paths datas → let files := zip (name_of <$> paths) datas in
  (length files ≤ 198)%nat → Forall (λ data, Z.of_nat (length data) ≤ MAXFILE * BSIZE) datas → 46 + blocks_for files ≤ FSSIZE →
  (2 + Z.of_nat (length files)) mod 64 = 0 →
  yields (main host paths) empty_image (λ _ s', let img := sect s' in let root := disk_inode sb0 img ROOTINO in
    let e := DIRENT_SIZE * (2 + Z.of_nat (length files)) in
    mkfs_image img files ∧ type root = T_DIR ∧ dsize root = e + BSIZE ∧
    slice img (addrs root) 0 (Z.to_nat e) = root_bytes files ∧
    (∀ bn, 0 ≤ bn < e / BSIZE → slot img (addrs root) bn ≠ 0) ∧ slot img (addrs root) (e / BSIZE) = 0 ∧
    ¬ fs_ok sb0 img (disk_inode sb0 img)).
Proof.
  intros Hr files Hn Hsz Hroom Hmod. eapply yields_mono; [apply (main_spec host paths datas); [done|fold files; lia|done|done]|].
  intros _ s' (s & co & D & Hfx & _ & Hb & Hsm). cbv zeta.
  assert (0 ≤ ROOTINO < NINODES) as Hrn by done. assert (type (D ROOTINO) ≠ 0) as Ht by (apply (fx_used _ _ _ _ Hfx); [done|unfold ROOTINO; lia]).
  assert (disk_inode sb0 (sect s') ROOTINO = D ROOTINO) as HD by (rewrite (same_inode co _ Hsm) by done; by apply (fx_stored _ _ _ _ Hfx)).
  pose proof (fx_map _ _ _ _ Hfx ROOTINO Hrn Ht) as Hmap. fold files in Hfx. set (e := DIRENT_SIZE * (2 + Z.of_nat (length files))) in *.
  assert (e mod BSIZE = 0) as He by (unfold e; change BSIZE with (DIRENT_SIZE * 64); rewrite Z.mul_mod_distr_l by lia; by rewrite Hmod).
  destruct (fx_hole _ _ _ _ Hfx He) as (H1 & H2 & H3 & H4). fold e in H2, H3, H4.
  pose proof (Z.div_mod e BSIZE ltac:(lia)) as Hdm. assert (0 ≤ e / BSIZE ≤ 3) by (unfold e in *; lia).
  assert (slot (sect s') (addrs (D ROOTINO)) (e / BSIZE) = 0) as Hhole.
  { rewrite (same_slot co _ Hsm) by done. destruct (decide (slot co (addrs (D ROOTINO)) (e / BSIZE) = 0)) as [|Hne]; [done|exfalso].
    apply H3 in Hne; [|unfold place_ok; lia]. rewrite decide_False in Hne by lia. lia. }
  rewrite HD. split_and!; [by apply (fixed_image s co D)|done|done| | |done|].
  - rewrite (same_slice co _ Hsm); [done|done| |lia]. intros bn Hb1 Hb2. apply H3; [unfold place_ok; lia|]. rewrite decide_False by lia. lia.
  - intros bn Hbn. rewrite (same_slot co _ Hsm) by done. apply H3; [unfold place_ok; lia|]. rewrite decide_False by lia. lia.
  - intros Hok. destruct (fs_filled _ _ _ Hok ROOTINO Hrn) as [Hf _]; rewrite HD in *; [done|]. apply (Hf (e / BSIZE)); [lia|lia|done].
Qed.
