(* ===== verification/MkfsMount.v ===== *)
(** * Booting from the image of [mkfs]

    [fsinit] on the image that [main] made reads the super block, finds the
    log empty and leaves the file system mounted: the state from which the
    theorems on the file system start.  Each file is then read by its name. *)

From S2P Require Import User.
From S2P Require Import Prelude Riscv Memory Locks Disk Log LogSpec LogOps Tx Bio BioSpec LogBoot TxLog.
From S2P Require Import Fs FsAlloc FsMap FsInode FsFile FsWrite FsTrunc FsInv FsDir FsPath FsTx FsBoot Mkfs MkfsSpec.

(** ** The root directory *)

Lemma get_at_concat es i e :
  Forall (λ e : list Z, length e = 16%nat) es → es !! i = Some e → get_at (concat es) (DIRENT_SIZE * Z.of_nat i) 16 = e.
Proof.
  intros Hl. revert i. induction Hl as [|x es Hx Hl IH]; intros i Hi; [done|]. cbn [concat]. unfold get_at in *. destruct i as [|i].
  - injection Hi as ->. rewrite drop_0, <-Hx. apply take_app_length.
  - rewrite drop_app_ge by lia. rewrite <-(IH i Hi). do 2 f_equal. lia.
Qed.

Lemma concat_length16 es : Forall (λ e : list Z, length e = 16%nat) es → length (concat es) = (16 * length es)%nat.
Proof. induction 1 as [|x es Hx Hl IH]; [done|]. cbn [concat length]. rewrite length_app. lia. Qed.

Lemma dents_concat co di es :
  contents co di = concat es → Forall (λ e : list Z, length e = 16%nat) es → 0 ≤ dsize di → dents co di = es.
Proof.
  intros Hc Hl Hs. assert (dsize di = DIRENT_SIZE * Z.of_nat (length es)) as Hsz.
  { assert (length (contents co di) = Z.to_nat (dsize di)) as H by apply slice_length. rewrite Hc, concat_length16 in H by done. lia. }
  assert (dsize di / DIRENT_SIZE = Z.of_nat (length es)) as Hd by (rewrite Hsz, Z.mul_comm; apply Z.div_mul; lia).
  apply list_eq. intros i. destruct (es !! i) as [e|] eqn:Ei.
  - pose proof (lookup_lt_Some _ _ _ Ei). rewrite <-(Nat2Z.id i), lookup_dents by lia. f_equal.
    rewrite slice_contents, Hc by lia. by apply get_at_concat.
  - apply lookup_ge_None in Ei. apply lookup_ge_None_2. rewrite dents_length. lia.
Qed.

(** The entries of the root directory, with [k] empty ones at the end. *)
Definition root_dents (files : list entry) : list (list Z) :=
  dirent ROOTINO (chars ".") :: dirent ROOTINO (chars "..") :: imap (λ i f, dirent (2 + Z.of_nat i) f.1) files.

Lemma root_dents_length files : length (root_dents files) = (2 + length files)%nat.
Proof. unfold root_dents. cbn. by rewrite length_imap. Qed.

Lemma root_dents_16 files : Forall (λ e : list Z, length e = 16%nat) (root_dents files).
Proof.
  unfold root_dents. repeat constructor. apply Forall_lookup. intros i e. rewrite list_lookup_imap.
  intros (f & _ & ->)%fmap_Some. apply dirent_bytes_length.
Qed.

Lemma concat_zeros k : concat (replicate k (replicate 16 0)) = replicate (16 * k) 0.
Proof. induction k as [|k IH]; [done|].
  change (concat (replicate (S k) (replicate 16 0))) with (replicate 16 0 ++ concat (replicate k (replicate 16 0))).
  rewrite IH, <-replicate_add. f_equal. lia. Qed.

Lemma root_found img files :
  file_system img files →
  dents img (disk_inode sb0 img ROOTINO) =
    root_dents files ++ replicate (Z.to_nat (root_size files / DIRENT_SIZE) - (2 + length files)) (replicate 16 0).
Proof.
  intros [_ Hok Hroot _ _]. assert (type (disk_inode sb0 img ROOTINO) ≠ 0) as Ht by (by rewrite (proj1 Hroot)).
  apply dents_concat.
  - rewrite (proj2 (proj2 Hroot)). unfold root_bytes. rewrite concat_app, concat_zeros. cbn [concat root_dents]. rewrite <-!app_assoc.
    do 4 f_equal. unfold root_size. replace (_ * BSIZE) with ((DIRENT_SIZE * (2 + Z.of_nat (length files)) / BSIZE + 1) * 64 * DIRENT_SIZE) by lia.
    rewrite Z.div_mul by lia. lia.
  - apply Forall_app. split; [apply root_dents_16|by apply Forall_replicate].
  - by apply (fs_dinode _ _ _ Hok ROOTINO).
Qed.

(** ** Looking up a name *)

Lemma find_dent_at name es i de off :
  es !! i = Some de → de_inum de ≠ 0 → Memory.field 14 name = Memory.field 14 (de_name de) →
  (∀ j de', (j < i)%nat → es !! j = Some de' → Memory.field 14 name ≠ Memory.field 14 (de_name de')) →
  find_dent name es off = Some (de_inum de, off + DIRENT_SIZE * Z.of_nat i).
Proof.
  revert i off. induction es as [|x es IH]; intros i off Hi Hn He Hb; [done|]. cbn [find_dent]. destruct i as [|i].
  - injection Hi as ->. rewrite bool_decide_true by done. assert (de_inum de =? 0 = false) as -> by lia. cbn. do 2 f_equal. lia.
  - assert (Memory.field 14 name ≠ Memory.field 14 (de_name x)) as Hx by (apply (Hb 0%nat); [lia|done]).
    rewrite bool_decide_false by done. rewrite orb_true_r. rewrite (IH i); try done; [do 2 f_equal; lia|].
    intros j de' Hj Hl. apply (Hb (S j)); [lia|done].
Qed.

Lemma dirent_inum n name : 0 ≤ n < 2 ^ 16 → de_inum (dirent n name) = n.
Proof.
  intros Hn. unfold de_inum, get16, get_at, dirent. rewrite drop_0, take_app_length' by (by rewrite le_bytes_length).
  rewrite le_val_le_bytes, xshort_small by done. by apply Z.mod_small.
Qed.

Lemma dirent_field n name : Forall (λ c, c ≠ 0) name → Memory.field 14 (de_name (dirent n name)) = Memory.field 14 name.
Proof.
  intros Hn. unfold de_name, dirent. rewrite drop_app_length' by (by rewrite le_bytes_length).
  rewrite field_app_zero; [by rewrite field_take|by apply Forall_take|rewrite length_take; lia].
Qed.

(** ** [fsinit] *)

Section mount.
  Context {U : Type} `{UM : UserMem U} `{!UserMemLaws U}.
  Local Abbreviation fst := (fst (T := lst) (U := U)).
  Implicit Types (s : fst).

(** The kernel before [fsinit]: nothing is cached, the log is not in use. *)
Record booting s (img : disk) : Prop := {
  bo_abs : abs cache_ok (ca (store s)) img img (λ _, 0) no_locks;
  bo_log : Z.of_nat (length (lh_block (lg (store s)))) = LOGSIZE ∧ outstanding (lg (store s)) = 0 ∧ committing (lg (store s)) = 0
}.

Lemma roomy_none b : roomy (λ _, 0) b.
Proof. split; [lia|]. right. exists []. split; [lia|done]. Qed.

Lemma readsb_spec s img :
  booting s img →
  returns (readsb ROOTDEV) s (λ _ s' t, booting s' img ∧ sb s' = get_superblock (img 1) ∧ itable s' = itable s ∧
    lg (store s') = lg (store s) ∧ writes t = []).
Proof.
  intros [Ha Hl]. unfold readsb. apply returns_bind, in_store_returns, returns_in_cache.
  eapply returns_mono; [apply (bread_abs ROOTDEV cache_ok _ _ _ _ _ 1 Ha); [lia|done|apply roomy_none]|].
  intros h c1 t1 (_ & Ha1 & Hw1). apply returns_bind, in_store_returns, returns_in_cache.
  eapply returns_done; [exact (rdata_abs ROOTDEV cache_ok _ _ _ _ _ h 1 Ha1 (upd_eq _ _ _))|].
  call reflexivity. apply in_store_returns, returns_in_cache.
  eapply returns_mono; [apply (brelse_abs ROOTDEV cache_ok _ _ _ _ _ h 1 Ha1 (upd_eq _ _ _)); by right|].
  intros _ c2 t2 (Ha2 & Hw2). split_and!; try done.
  - split; [|done]. eapply abs_ext; [exact Ha2|done|done| |]; intros y; unfold upd, no_locks; repeat case_decide; subst; try done; lia.
  - by rewrite !writes_app, Hw1, Hw2.
Qed.

(** An empty log prescribes nothing. *)
Lemma recovered_image img b : img 2 = zero_block → recovered 2 img b = img b.
Proof.
  intros H2. unfold recovered, disk_blocks. rewrite H2. change (head_n zero_block) with 0. cbn. unfold upd. case_decide as E; [|done].
  subst b. rewrite H2. vm_compute. reflexivity.
Qed.

Lemma fsinit_spec s img files :
  file_system img files → booting s img →
  returns (fsinit ROOTDEV) s (λ _ s' t, mounted s' img (disk_inode sb0 img) ∧ sb s' = sb0 ∧ itable s' = itable s).
Proof.
  intros [Him Hok _ _ _] Hb. unfold fsinit. apply returns_bind. eapply returns_mono; [by apply (readsb_spec s img)|].
  intros _ s1 t1 ([Ha (L1 & L2 & L3)] & Hsb & Hit & _). rewrite (mi_super _ _ Him) in Hsb. call reflexivity. rewrite Hsb.
  change (magic sb0 =? FSMAGIC) with true. change (s32 (logstart sb0)) with 2. change (s32 (nlog sb0)) with 30. cbn [negb].
  apply in_store_returns. unfold Tx.initlog, log_store, Log.initlog. change (4 + 4 * LOGSIZE >=? BSIZE) with false. cbv iota.
  call reflexivity. call reflexivity. pose proof (mi_log _ _ Him 2 ltac:(lia)) as H2.
  set (g := MkLog 2 30 _ _ ROOTDEV _ _).
  assert (bootable ROOTDEV cache_ok g (ca (store s1)) img) as Hbt.
  { split; cbn [ldev start size lh_block g]; try done; try lia; unfold disk_blocks; rewrite H2; change (head_n zero_block) with 0; try lia.
    - done.
    - constructor.
    - intros b Hin. cbn in Hin. by apply elem_of_nil in Hin. }
  eapply returns_mono; [exact (recover_run_log ROOTDEV cache_ok g (ca (store s1)) img Hbt)|].
  intros _ t2 tr2 (_ & Ha2 & R1 & R2 & R3 & R4 & R5 & R6 & R7). cbn [start size outstanding committing g] in *.
  assert (∀ b, img b = recovered 2 img b) as Hrec by (intros b; by rewrite recovered_image).
  split_and!; [|done|done]. split; cbn [sb store set_store]; rewrite ?Hsb; try done.
  split; try done; [by eapply abs_ext|by split_and!; try lia|change (logstart sb0) with 2; by rewrite H2].
Qed.


(** The names are different in the 14 bytes of an entry, and from [.] and [..]. *)
Definition root_names (files : list entry) : list (list Z) := chars "." :: chars ".." :: ((λ f : entry, f.1) <$> files).
Definition names_apart (files : list entry) : Prop :=
  Forall (λ f : entry, Forall (λ c, c ≠ 0) f.1) files ∧ NoDup (Memory.field 14 <$> root_names files).

Lemma root_lookup img files i f :
  file_system img files → names_apart files → (length files ≤ 198)%nat → files !! i = Some f →
  find_dent f.1 (dents img (disk_inode sb0 img ROOTINO)) 0 = Some (2 + Z.of_nat i, DIRENT_SIZE * (2 + Z.of_nat i)).
Proof.
  intros Hfs [Hnz Hnd] Hlen Hi. rewrite (root_found img files) by done. pose proof (lookup_lt_Some _ _ _ Hi) as Hlt.
  assert (∀ j e, (root_dents files) !! j = Some e → ∃ nm, root_names files !! j = Some nm ∧
    Memory.field 14 (de_name e) = Memory.field 14 nm) as Hnames.
  { intros [|[|j]] e; cbn [root_dents root_names lookup list_lookup].
    - intros [= <-]. eexists. split; [done|]. apply dirent_field. repeat constructor; done.
    - intros [= <-]. eexists. split; [done|]. apply dirent_field. repeat constructor; done.
    - change (imap (λ i f, dirent (2 + Z.of_nat i) f.1) files !! j = Some e → ∃ nm, ((λ f : entry, f.1) <$> files) !! j = Some nm ∧
        Memory.field 14 (de_name e) = Memory.field 14 nm). rewrite list_lookup_imap, list_lookup_fmap.
      intros (f' & Hf' & ->)%fmap_Some. rewrite Hf'. eexists. split; [done|]. apply dirent_field. exact (Forall_lookup_1 _ _ _ _ Hnz Hf'). }
  assert (root_dents files !! S (S i) = Some (dirent (2 + Z.of_nat i) f.1)) as Hde.
  { change (imap (λ i f, dirent (2 + Z.of_nat i) f.1) files !! i = Some (dirent (2 + Z.of_nat i) f.1)). by rewrite list_lookup_imap, Hi. }
  assert (de_inum (dirent (2 + Z.of_nat i) f.1) = 2 + Z.of_nat i) as Hin by (apply dirent_inum; lia).
  rewrite (find_dent_at f.1 _ (S (S i)) (dirent (2 + Z.of_nat i) f.1) 0); [rewrite Hin; do 2 f_equal; lia| |rewrite Hin; lia| |].
  - rewrite lookup_app_l by (rewrite root_dents_length; lia). done.
  - destruct (Hnames _ _ Hde) as (nm & Hnm & ->). change (((λ f : entry, f.1) <$> files) !! i = Some nm) in Hnm.
    rewrite list_lookup_fmap, Hi in Hnm. by injection Hnm as <-.
  - intros j e Hj He. rewrite lookup_app_l in He by (rewrite root_dents_length; lia). destruct (Hnames j e He) as (nm & Hnm & ->). intros E.
    assert (S (S i) = j); [|lia]. eapply (NoDup_lookup _ _ _ (Memory.field 14 f.1) Hnd).
    + change ((Memory.field 14 <$> ((λ f : entry, f.1) <$> files)) !! i = Some (Memory.field 14 f.1)). by rewrite !list_lookup_fmap, Hi.
    + rewrite list_lookup_fmap, Hnm. cbn [fmap option_fmap option_map]. by rewrite E.
Qed.

(** The inodes in use: the root directory and the files, each with a link. *)
Lemma inode_used img files m :
  file_system img files → 1 ≤ m < 2 + Z.of_nat (length files) →
  nlink (disk_inode sb0 img m) = 1 ∧ type (disk_inode sb0 img m) = if decide (m = ROOTINO) then T_DIR else T_FILE.
Proof.
  intros Hfs Hm. case_decide as E.
  - subst. by destruct (fy_root _ _ Hfs) as (-> & -> & _).
  - unfold ROOTINO in E. destruct (lookup_lt_is_Some_2 files (Z.to_nat (m - 2))) as [f Hf]; [lia|].
    destruct (fy_files _ _ Hfs _ _ Hf) as (Hty & Hnl & _). rewrite Z2Nat.id in * by lia. by replace (2 + (m - 2)) with m in * by lia.
Qed.

Lemma root_multiple img files : file_system img files → dsize (disk_inode sb0 img ROOTINO) mod DIRENT_SIZE = 0.
Proof.
  intros Hfs. destruct (fy_root _ _ Hfs) as (Ht & _ & Hc).
  assert (type (disk_inode sb0 img ROOTINO) ≠ 0) as Ht0 by (by rewrite Ht).
  pose proof (do_size _ (fs_dinode _ _ _ (fy_fs _ _ Hfs) ROOTINO ltac:(done) Ht0)) as Hsz.
  assert (length (contents img (disk_inode sb0 img ROOTINO)) = Z.to_nat (dsize (disk_inode sb0 img ROOTINO))) as Hl by apply slice_length.
  rewrite Hc in Hl. unfold root_bytes in Hl. rewrite !length_app, !dirent_bytes_length, length_replicate in Hl.
  rewrite concat_length16, length_imap in Hl; cycle 1.
  { pose proof (root_dents_16 files) as H16. unfold root_dents in H16. rewrite !Forall_cons in H16. apply H16. }
  unfold root_size in Hl. set (n := DIRENT_SIZE * (2 + Z.of_nat (length files))) in *.
  pose proof (Z.mod_pos_bound n BSIZE ltac:(done)). pose proof (Z.div_mod n BSIZE ltac:(done)).
  replace (dsize (disk_inode sb0 img ROOTINO)) with (((n / BSIZE + 1) * 64) * DIRENT_SIZE) by lia. by apply Z.mod_mul.
Qed.

(** Every entry of the root directory names an inode in use. *)
Lemma root_dirs_ok img files : file_system img files → (length files ≤ 198)%nat → dirs_ok img (disk_inode sb0 img) sb0.
Proof.
  intros Hfs Hlen n Hn Ht. change (ninodes sb0) with 200 in *. pose proof (fy_used _ _ Hfs) as Hused. unfold NINODES in Hused.
  assert (n = ROOTINO) as ->.
  { destruct (inode_used img files n Hfs) as [_ Hty]; [apply Hused; [lia|by rewrite Ht]|]. rewrite Ht in Hty. by case_decide. }
  split; [by apply (root_multiple img files)|].
  assert (∀ m, 1 ≤ m < 2 + Z.of_nat (length files) → 0 ≤ m < 200 ∧ type (disk_inode sb0 img m) ≠ 0 ∧ nlink (disk_inode sb0 img m) ≠ 0) as Hm.
  { intros m Hm. destruct (inode_used img files m Hfs Hm) as [-> ->]. split_and!; [lia|lia|by case_decide|done]. }
  rewrite (root_found img files) by done. intros de [Hde|Hde]%elem_of_app H0; cycle 1.
  { apply elem_of_replicate in Hde as [-> _]. by exfalso. }
  unfold root_dents in Hde. rewrite !elem_of_cons in Hde. destruct Hde as [->|[->|(i & f & -> & Hi)%elem_of_lookup_imap]].
  - rewrite dirent_inum by done. apply Hm. unfold ROOTINO. lia.
  - rewrite dirent_inum by done. apply Hm. unfold ROOTINO. lia.
  - pose proof (lookup_lt_Some _ _ _ Hi). rewrite dirent_inum by lia. apply Hm. lia.
Qed.

(** The table of inodes after [iinit]. *)
Definition idle_table (tbl : Z → inode) : Prop := ∀ ip, in_table ip → ref (tbl ip) = 0 ∧ lock (tbl ip) = Sleeplock.Sleeplock 0 0.

Lemma image_resting s img files :
  file_system img files → (length files ≤ 198)%nat → sb s = sb0 → idle_table (itable s) →
  resting (outside 2 30) s img (disk_inode sb0 img) None.
Proof.
  intros Hfs Hlen Hsb Hidle. split; rewrite ?Hsb; try done.
  - unfold base. rewrite Hsb. split; [exact layout0|]. intros b [H1 H2]. cbn in H1, H2. unfold outside. lia.
  - apply (fy_fs _ _ Hfs).
  - by apply (root_dirs_ok img files).
  - split.
    + intros ip Hip. by destruct (Hidle ip Hip) as [-> _].
    + intros i j d n Hi _ [Hr _]. destruct (Hidle i Hi). lia.
  - intros ip Hip Hr. destruct (Hidle ip Hip). lia.
  - intros ip Hip. by destruct (Hidle ip Hip) as [_ ->].
Qed.

Lemma name_of_slash host path data : readable host path data → 47 ∉ name_of path.
Proof using .
  intros [H _] Hin. apply H. unfold name_of, skip_underscore in Hin.
  destruct (short_of path) as [|c l]; [done|]. repeat case_match; first [exact Hin|by right].
Qed.

Lemma components_name name : 47 ∉ name → name ≠ [] → components (47 :: name) = [name].
Proof using .
  intros H Hne. unfold components. cbn [split_path Z.eqb Pos.eqb].
  assert (∀ l cur, 47 ∉ l → split_path cur l = match cur ++ l with [] => [] | x => [x] end) as Hs.
  { clear. induction l as [|c l IH]; intros cur Hc; cbn [split_path]; [rewrite app_nil_r; by destruct cur|].
    apply not_elem_of_cons in Hc as [Hc Hl]. rewrite (proj2 (Z.eqb_neq c 47)) by done. rewrite IH by done. by rewrite <-app_assoc. }
  rewrite Hs by done. by destruct name.
Qed.

(** A file of the image is read by its name. *)
Lemma load_file s img files i f n :
  file_system img files → names_apart files → (length files ≤ 198)%nat → files !! i = Some f → 47 ∉ f.1 → f.1 ≠ [] →
  mounted s img (disk_inode sb0 img) → resting (outside 2 30) s img (disk_inode sb0 img) None → sb s = sb0 → idle_table (itable s) →
  Z.of_nat (length f.2) ≤ n < 2 ^ 31 →
  returns (transaction (load (47 :: f.1) n)) s (λ r _ _, r = (Z.of_nat (length f.2), f.2)).
Proof using All.
  intros Hfs Hna Hlen Hi H47 Hne Hmt HR Hsb Hidle Hn. destruct (fy_files _ _ Hfs _ _ Hi) as (Hty & Hnl & Hc). set (m := 2 + Z.of_nat i) in *.
  assert (type (disk_inode sb0 img m) ≠ 0) as Ht by (by rewrite Hty). pose proof (lookup_lt_Some _ _ _ Hi) as Hlt.
  pose proof (do_size _ (fs_dinode _ _ _ (fy_fs _ _ Hfs) m ltac:(change (ninodes sb0) with 200; lia) Ht)) as Hsz.
  assert (dsize (disk_inode sb0 img m) = Z.of_nat (length f.2)) as Hds.
  { rewrite <-Hc. unfold contents. rewrite slice_length. lia. }
  eapply returns_mono; [apply (load_mounted s img (disk_inode sb0 img) (47 :: f.1) m n); rewrite ?Hsb; try done|].
  - exists 0, 1. destruct (Hidle 0 ltac:(done)), (Hidle 1 ltac:(done)). done.
  - constructor; [done|]. apply (Forall_lookup_1 _ _ _ _ (proj1 Hna) Hi).
  - unfold start_ok. rewrite Hsb. split; [done|]. by destruct (fy_root _ _ Hfs) as (-> & -> & _).
  - cbn [start_of]. rewrite components_name by done. cbn [resolve]. unfold child.
    rewrite decide_True by apply (fy_root _ _ Hfs). by rewrite (root_lookup img files i f) by done.
  - by rewrite Hnl.
  - by rewrite Hds.
  - intros r _ _ ->. by rewrite Hds, Hc.
Qed.

(** C18: The kernel boots from what [mkfs] made.  On the image of [main] and an
    empty cache, [fsinit] returns with the file system mounted and consistent,
    and with the table of [iinit] it is at rest.  Each file that has a name is
    then read by it: in a transaction, [namei] of a slash and the name,
    [ilock], [readi] from the start for at least its size, and [iunlockput]
    return the size of the file and its bytes.  The sizes fit the image, the
    names differ in their first 14 bytes, and the entries of the root
    directory do not fill whole blocks. *)
Theorem mkfs_boots host paths datas :
  Forall2 (readable host) paths datas → let files := zip (name_of <$> paths) datas in
  (length files ≤ 198)%nat → Forall (λ data, Z.of_nat (length data) ≤ MAXFILE * BSIZE) datas → 46 + blocks_for files ≤ FSSIZE →
  (2 + Z.of_nat (length files)) mod 64 ≠ 0 → names_apart files →
  yields (main host paths) empty_image (λ _ m, let img := sect m in
    ∀ s, booting s img → idle_table (itable s) → returns (fsinit ROOTDEV) s (λ _ s2 _,
       mounted s2 img (disk_inode sb0 img) ∧ resting (outside 2 30) s2 img (disk_inode sb0 img) None ∧
       ∀ i f n, files !! i = Some f → f.1 ≠ [] → Z.of_nat (length f.2) ≤ n < 2 ^ 31 →
         returns (transaction (load (47 :: f.1) n)) s2 (λ r _ _, r = (Z.of_nat (length f.2), f.2)))).
Proof.
  intros Hr files Hn Hsz Hroom Hmod Hna. eapply yields_mono; [apply (main_spec host paths datas); [done|fold files; lia|done|done]|].
  intros _ m (m0 & co & D & Hfx & _ & Hb & Hsm).
  assert (file_system (sect m) files) as Hfs by (apply (fixed_file_system m0 co D); [done|done|done|lia|done]).
  cbv zeta. intros s1 Hb1 Hidle. eapply returns_mono; [by apply (fsinit_spec s1 (sect m) files)|]. intros _ s2 t (H1 & H2 & H3).
  assert (resting (outside 2 30) s2 (sect m) (disk_inode sb0 (sect m)) None) as HR by (apply (image_resting s2 (sect m) files); [done|done|done|by rewrite H3]).
  split_and!; [done|done|]. intros i f n Hi Hne Hlen. apply (load_file s2 (sect m) files i f n); try done; [|by rewrite H3].
  destruct f as [nm data]. unfold files in Hi. apply lookup_zip_Some in Hi as [Hnm Hd]. rewrite list_lookup_fmap in Hnm. apply fmap_Some in Hnm as (p & Hp & ->).
  exact (name_of_slash _ _ _ (Forall2_lookup_lr _ _ _ _ _ _ Hr Hp Hd)).
Qed.
End mount.

(** A program and a text. *)
Definition demo_host (path : list Z) : option (list (list Z)) := if decide (path = chars "user/_cat") then Some [[127; 69]; [76]] else Some [chars "hi"].
Definition demo_paths : list (list Z) := [chars "user/_cat"; chars "README"].
Definition demo_datas : list (list Z) := [[127; 69; 76]; chars "hi"].
Definition demo_files : list entry := [(chars "cat", [127; 69; 76]); (chars "README", chars "hi")].

Ltac by_compute := apply (bool_decide_unpack _); vm_compute; exact I.

Lemma demo_readable : Forall2 (readable demo_host) demo_paths demo_datas.
Proof.
  constructor; [|constructor; [|constructor]].
  - split; [by_compute|]. split; [unfold is_byte; by_compute|]. exists [[127; 69]; [76]]. split_and!; [vm_compute; reflexivity|unfold is_byte; by_compute|reflexivity].
  - split; [by_compute|]. split; [unfold is_byte; by_compute|]. exists [chars "hi"]. split_and!; [vm_compute; reflexivity|unfold is_byte; by_compute|reflexivity].
Qed.

#[local] Instance demo_mem : UserMem unit := { copyout va l := mret 0; copyin va n := mret (replicate n 0, 0) }.
#[local] Instance demo_mem_laws : UserMemLaws unit.
Proof. split. intros va l u. apply runs_ret. by left. Qed.

Lemma mkfs_boots_witness :
  yields (main demo_host demo_paths) empty_image (λ _ m, let img := sect m in
    ∀ s : fst (U := unit), booting s img → idle_table (itable s) → returns (fsinit ROOTDEV) s (λ _ s2 _,
       mounted s2 img (disk_inode sb0 img) ∧ resting (outside 2 30) s2 img (disk_inode sb0 img) None ∧
       returns (transaction (load (chars "/cat") 512)) s2 (λ r _ _, r = (3, [127; 69; 76])))).
Proof.
  eapply yields_mono.
  - apply (mkfs_boots (U := unit) demo_host demo_paths demo_datas demo_readable).
    + by_compute.
    + by_compute.
    + by_compute.
    + by_compute.
    + split; by_compute.
  - intros u m H. cbv beta zeta in H |- *. intros s Hb Hi. eapply returns_mono; [exact (H s Hb Hi)|]. intros _ s2 t (H1 & H2 & H3). split_and!; [exact H1|exact H2|].
    apply (H3 0%nat (chars "cat", [127; 69; 76]) 512); [reflexivity|done|cbn; lia].
Defined.

Lemma mkfs_makes_witness :
  yields (main demo_host demo_paths) empty_image (λ _ m, nsect m = 2000 ∧ file_system (sect m) demo_files).
Proof.
  apply (mkfs_makes demo_host demo_paths demo_datas demo_readable); by_compute.
Defined.

(** 62 empty files: with [.] and [..] their entries fill a block. *)
Definition many_paths : list (list Z) := (λ i : Z, [97 + i / 26; 97 + i mod 26]) <$> seqZ 0 62.

Lemma many_readable : Forall2 (readable (λ _, Some [])) many_paths (replicate 62 []).
Proof.
  apply Forall2_same_length_lookup_2; [reflexivity|]. intros i p d Hp [-> _]%lookup_replicate.
  assert (Forall (λ p : list Z, 47 ∉ short_of p ∧ Forall (λ x, 0 ≤ x < 256) p) many_paths) as Hall by by_compute.
  destruct (Forall_lookup_1 _ _ _ _ Hall Hp) as [H1 H2]. split_and!; [done|done|]. exists []. split_and!; [done|constructor|done].
Qed.

Lemma mkfs_root_hole_witness :
  yields (main (λ _, Some []) many_paths) empty_image (λ _ m, let root := disk_inode sb0 (sect m) ROOTINO in
    dsize root = 2048 ∧ slot (sect m) (addrs root) 0 ≠ 0 ∧ slot (sect m) (addrs root) 1 = 0 ∧ ¬ fs_ok sb0 (sect m) (disk_inode sb0 (sect m))).
Proof.
  eapply yields_mono; [apply (mkfs_root_hole (λ _, Some []) many_paths (replicate 62 []) many_readable); by_compute|].
  intros u m H. cbv zeta in H |- *. destruct H as (_ & _ & H1 & _ & H2 & H3 & H4).
  split; [exact H1|]. split; [apply (H2 0); split; [done|reflexivity]|]. split; [exact H3|exact H4].
Defined.
